(* ===== verification/_CoqProject ===== *)
-Q . S2P
Prelude.v
Text.v
Float64.v
Rounding.v
ProviderErrors.v
RouterTypes.v
RetryPolicy.v
Deployment.v
Ledger.v
CircuitScript.v
Circuit.v
AdmissionScript.v
Strategy.v
Fallback.v
Aliases.v
Snapshot.v
RuntimeState.v
Admission.v
Selection.v
Execution.v
StreamCompletion.v
RateLimiter.v
RateLimiterBounds.v
RateLimitScript.v
Sse.v
StreamEvents.v
Ip.v
IpText.v
GatewayErrors.v
BudgetScript.v
BudgetLedger.v
BudgetGuarantees.v
BudgetAmounts.v
BudgetBackend.v
BudgetLimits.v
BudgetReservations.v
BudgetConservation.v
BudgetTracker.v
BudgetManager.v
BudgetAlerts.v
BudgetAlerting.v
BudgetTrackerLedger.v
BudgetRouting.v
CacheTypes.v
MemoryCache.v
MemoryCacheIndex.v
MemoryCacheOps.v
MemoryCacheRuns.v
MemoryCacheSpec.v
MemoryCacheLru.v
MemoryCacheThreads.v
RedisCache.v
DualCache.v
DualCacheBarriers.v
DualCacheLocks.v
Principals.v
ClientKey.v
RequestLimits.v
IpAccess.v
StrOps.v
Credentials.v
Authorization.v
Tokens.v
KeyStore.v
KeyConcurrency.v
Authentication.v
AuthMiddleware.v
KeyRecords.v
KeyRepository.v
KeyContents.v
KeyMemory.v
KeyRows.v
KeyManager.v
KeyGuarantees.v
KeyLifecycle.v
AuthLimiter.v
AuthSystem.v
AuthAccounts.v
AuthGuarantees.v
AuthBounds.v
