(* ===== verification/Prelude.v ===== *)
(** * Verification of the request path of litellm-rs

    litellm-rs is a gateway in front of many LLM providers.  A request passes the
    gateway's middleware, which decides who it comes from and whether it may
    proceed, and reaches the router, which chooses a deployment, admits the
    request against its limits, calls the provider, retries and falls back, and
    learns from the outcome; its answer is a message or a stream.  Responses may
    be kept in a cache.  This library models these parts and proves what makes
    them correct.  Paths below are
    relative to [src/src/].

    ** How the program works, and which file models what

    Ground.  This file; [Text], [StrOps] (strings and Rust's functions on them),
    [Float64] (binary64 numbers) and [Rounding] (the error of their quotients and
    products).

    Data.  [ProviderErrors] is the error type of every provider call with its
    HTTP facts and retry classification ([core/providers/unified_provider*.rs],
    [failure.rs], [utils/error/canonical.rs]).  [RouterTypes] has the router's
    configuration, its own errors and their conversions ([config.rs],
    [error.rs], [execution.rs]).  [GatewayErrors] is the error type of the gateway
    and the three formats of its answers ([utils/error/gateway_error/],
    [server/routes/ai/openai_errors.rs], [messages.rs]).

    State of one deployment.  [Deployment] ([core/router/deployment.rs],
    [deployment/probe_state.rs]): counters, minute window, health byte, cooldown
    and probe lifecycle, shared by every handle of a deployment.  [Ledger]
    ([deployment/local_admission.rs]): the tokens reserved by running requests.
    [Circuit] ([circuit.rs], the recording methods of [unified.rs]): the local
    breaker, its fence against stale shared state, and selectability.

    State shared by replicas.  Lua scripts, each over Redis keys, as pure
    functions: [CircuitScript] ([storage/redis/circuit.rs]), [AdmissionScript]
    ([storage/redis/admission.rs]) and [RateLimitScript]
    ([storage/redis/rate_limit.rs]).  [Admission] ([core/router/admission.rs]) is
    the backend over the ledger or the script, with holds that are completed by
    whoever finishes or drops them.

    Which deployments there are.  [Snapshot] ([unified.rs],
    [provider_identity.rs]): immutable routing snapshots, their index and
    publication.  [RuntimeState] ([runtime_state.rs]): what a configuration reload
    inherits.  [Aliases] ([gateway_aliases.rs], [unified.rs],
    [config/validation/config_validators.rs]) and [Fallback] ([fallback.rs]):
    the graphs over model names.

    A request in the router.  [Strategy] ([strategy_impl.rs]) chooses among
    candidates; [Selection] ([selection.rs]) filters them, reserves the choice and
    returns a lease; [RetryPolicy] ([retry_policy.rs], [execution.rs]) decides
    whether to try again and after how long; [Execution] ([execute_impl.rs]) is the
    retry loop, its streaming variant and the loop over fallback models.

    Streams.  [Sse] ([core/providers/base/sse.rs]) turns the bytes of a provider
    into chunks however they are cut; [StreamEvents]
    ([core/streaming/types.rs], [utils.rs]) writes them as server-sent events; [StreamCompletion]
    ([core/router/stream_completion.rs]) settles the accounts of a stream when it
    ends, fails or is dropped.

    Limits on requests.  [RateLimiter] and [RateLimiterBounds]
    ([core/rate_limiter/]): the limiter with its four strategies and what it
    bounds.  [Ip], [IpText] (the addresses of Rust's standard library),
    [ClientKey] (who a request is counted as) and [RequestLimits] (the check and
    its bounded fallback store, [server/middleware/rate_limit.rs]).  [IpAccess]
    ([core/ip_access/]): allow and block lists.

    Budgets.  [BudgetScript] ([storage/redis/budget.rs]): the script that leases
    money to the replicas; [BudgetLedger] is what it promises and the proof that
    it does, [BudgetGuarantees] what follows over whole runs.  [BudgetAmounts]
    ([core/budget/mod.rs]): money and its storage.  [BudgetBackend]
    ([distributed.rs]) calls the script, [BudgetLimits] ([types.rs],
    [provider_limits.rs]) keeps the limits of providers and models,
    [BudgetReservations] ([provider_reservations.rs], [unified_limits.rs]) holds
    and settles the spend of requests, and [BudgetConservation] proves that it
    keeps the same ledger as the script.  [BudgetTracker] ([tracker.rs]) has the
    budgets of users, teams and keys, [BudgetManager] ([manager.rs]) their
    management, [BudgetAlerts] ([alerts.rs]) what they tell; [BudgetTrackerLedger]
    and [BudgetAlerting] are their ledger and their alerts over runs.
    [BudgetRouting] ([core/router/budget_routing.rs]) is the router's view.

    Response cache ([core/cache/]).  [CacheTypes] ([types.rs]): keys, entries,
    configuration, counters.  [MemoryCache] ([memory.rs]): the entries and, apart
    from them, the sharded index that eviction samples; [MemoryCacheIndex] and
    [MemoryCacheOps] what each operation does to both, [MemoryCacheRuns] the
    invariant over runs, [MemoryCacheSpec] and [MemoryCacheLru] the refinement of
    an unbounded map and of an LRU list, [MemoryCacheThreads] operations
    interleaved step by step.  [RedisCache] ([redis_cache.rs],
    [storage/redis/cache.rs], [batch.rs]): the shared layer.  [DualCache]
    ([dual.rs]): both layers and the barriers against stale writes, proved in
    [DualCacheBarriers]; [DualCacheLocks]: its locks.

    Identity.  [Principals] has users, teams, keys and the request context.
    [Credentials] ([server/middleware/helpers.rs]) reads them from the headers,
    [Tokens] ([auth/jwt/]) issues and verifies JWTs, [Authentication]
    ([auth/system.rs], [auth/api_key/]) judges credentials against the database,
    [Authorization] ([server/routes/ai/context.rs], [mod.rs]) decides what a
    caller may do, and [AuthMiddleware] ([server/middleware/auth.rs]) composes
    them with the limits into the call that guards the service.

    Keys.  [KeyStore] ([storage/database/seaorm_db/api_key_ops.rs],
    [core/keys/db_*.rs]): operations as programs of SQL statements;
    [KeyConcurrency]: any number of them side by side.  [KeyRecords],
    [KeyRepository] ([core/keys/types.rs], [repository.rs],
    [database_repository.rs]): managed keys and where they are kept.  [KeyContents]
    is the contract of a repository, a class of laws; [KeyMemory] and [KeyRows]
    prove it of the two implementations.  [KeyManager] ([core/keys/manager.rs]) is
    the client of that contract, and [KeyGuarantees] and [KeyLifecycle] prove its
    theorems from the contract alone.

    Guessing credentials.  [AuthLimiter]
    ([server/middleware/auth_rate_limiter.rs]): trackers, lockouts and eviction as one critical section each;
    [AuthSystem]: any number of attempts suspended at their await points;
    [AuthAccounts], [AuthGuarantees], [AuthBounds]: its invariants and theorems.

    ** Conventions

    Integers are [Z] with the wrap-around or saturation of their Rust type
    written out, for the release profile, which has no overflow checks.  Clock
    readings, random draws, [powf] and upstream calls are arguments.  An atomic
    read-modify-write loop is the update its success performs, except in
    [Selection.Slots], which interleaves the accesses of the one loop that
    decides admission and proves that it refines that update.  A mutex section is
    one step.  A Rust panic is [None] or [Panicked]; a [HashMap] is a [gmap].
    Code outside the repository is a parameter or a class: serde, the JWT library,
    digests, regular expressions, the database's answers to one authentication,
    the crate lru, the commands of a Redis server.  Its laws are stated as classes
    with a concrete instance.

    Concurrency is modelled where the code relies on it: [Ledger.step]
    interleaves the critical sections of any number of requests on one
    deployment; the scripts are run by any number of replicas in any order;
    [Circuit] takes the shared state after a suspension as it finds it;
    [Selection] and [Execution] are of the rely-guarantee kind: the backends, the
    upstream call and the sleep may change the whole world, other requests'
    slots included, and the laws of [LawfulBackends] and [env_ok] say only that
    they do not touch the slots of this request; [AuthSystem] interleaves
    attempts between their await points, [KeyConcurrency] SQL statements, which
    fail or lose their answers, and [KeyManager] the writes it spawned;
    [MemoryCacheThreads] the accesses of the cache's map and index, and
    [DualCacheLocks] those of its map of locks.  The other cache files run one
    operation after another, which is what the locks give for one key; the eviction
    and the cleanup of [AuthLimiter] are one step each, although the code locks
    each entry or shard in turn; an eviction
    or a batch reads its clock once, and the order in which a [DashMap] is
    iterated is that of [elements].

    Fuel.  Loops that are not structural take fuel: the retry loops
    [execute_fuel], one unit per attempt and per deployment that a budget refusal
    can exclude; the reservation loop the number of candidates; the alias and
    fallback walks one unit per name; the eviction loops of the limiters the size
    of their map.  The cache's loops have the code's own bounds, 64 eviction
    attempts and 8 conditional deletions.
    The theorems prove that it never runs out.

    ** What is proved

    Execution: requests and streams terminate within bounded calls and leak no
    slot; retries prefer untried deployments; fallbacks are bounded.  Selection:
    soundness against the limits under every strategy and interference; the
    parallel limit under every interleaving; refinement of the atomic
    reservation.  Ledger and scripts: the token ledger is exact under any
    interleaving, local limits are never exceeded and shared ones only by the
    tokens that settlements report above their reservations, completions count
    once, shared admission fails closed.  Circuit: an open circuit blocks, one
    probe owner at a time, closing needs the owner, stale snapshots never undo
    a local outcome, exact trip conditions.  Snapshots and names: index, order
    and aliases stay consistent, replacement and reloads keep live state, aliases
    and accepted fallback maps are acyclic and resolve.  Streams: how bytes are
    cut is invisible while a delivery fits the buffer, the events the parser can
    take are read back as written, every stream of a router without shared state
    is accounted once.  Limits: the windows of a limiter without Redis are
    respected and reopened, the fallback store answers
    as the limiter would and is bounded, forged hops do not change who is
    counted.  Budgets: script and process refine one ledger, a reservation is
    charged by what finishes it first and by nothing else, spend stays within the
    limits or the spend a budget starts with, amounts survive their storage in double precision, without a shared backend the two budgets of
    a request are taken together and the check of a request agrees with its
    reservation and names the scope that refuses, both are settled each, and every crossing of a threshold is told once.  Cache: answers are
    those of a map with expiry that may forget, those of an LRU list that makes room
    before it overwrites, up to the sample's size, the index holds exactly the entries and settles under any
    interleaving, a conditionally deleted value stays away until its barrier
    expires, one lock per key.  Identity: the middleware serves only whom the
    parts admitted and accounts each call once, authentication is exact, tokens serve one purpose,
    keys are confined to their permissions, address rules are exact and change as
    their lists are edited.  Keys:
    revocation is final, under concurrent statements and over any run of the
    manager; usage is not lost but to a concurrent update of the configuration; the database repository refines the one in
    memory; rotation is exact.  Guessing: lockouts hold, attempts are accounted,
    guesses are bounded, no wake-up is lost.

    Lemmas that document where the code departs from its intent are
    [Fallback.validate_rejects_diamond], [Aliases.long_chain_unresolved],
    [Circuit.high_failure_rate_rounds], [KeyConcurrency.update_reactivates],
    [KeyConcurrency.update_loses_usage], [KeyLifecycle.long_names_never_rotate],
    [BudgetGuarantees.unprintable_lease_lost],
    [BudgetAlerts.approaching_limit_repeats] and
    [MemoryCacheLru.overwrite_evicts].

    ** What is not modelled

    The middleware of the budgets ([core/budget/middleware.rs]) and the thread
    their calls are moved to ([async_reservations.rs]), pinned response leases and capability
    queries ([selection.rs], [unified.rs]), probe scheduling
    ([health_probe.rs]), gateway identities ([gateway_identity.rs]), the keys of
    cached requests and the wrappers per kind of response
    ([core/cache/key_generator.rs], [key_policy.rs], [llm_cache.rs]) and role-based
    access control ([auth/rbac]) are not modelled for want of room, not of definiteness.  Left out: listings and counts of
    keys, connection pools, the HTTP server, provider clients and the rest of
    storage, which are I/O around this core and enter it through the parameters
    above.

    This file holds what the others share: results, machine integers, tactics,
    reachability, and lemmas on lists and maps. *)

From stdpp Require Export base decidable option list strings gmap fin_maps fin_map_dom sorting numbers pretty.
From Stdlib Require Export ZArith Lia.
#[global] Open Scope Z_scope.

(** * Results *)

(** Rust's [Result<T, E>]. *)
Inductive result (T E : Type) : Type :=
| Ok (value : T)
| Err (error : E).
Arguments Ok {T E} _.
Arguments Err {T E} _.

Definition is_ok {T E} (r : result T E) : bool :=
  match r with Ok _ => true | Err _ => false end.

Declare Scope rust_scope.
Delimit Scope rust_scope with rust.

(** The [?] operator: [let? x := r in k] returns the error of [r].  [r] is a
    computation that may run out of fuel ([None]). *)
Notation "'let?' x ':=' r 'in' k" :=
  (r ≫= fun y => match y with Ok x => k | Err e => Some (Err e) end)
  (at level 10, x name, r at level 100, k at level 200) : rust_scope.

(** * Machine integers

    A [w]-bit unsigned integer is a [Z] in [0 .. 2^w - 1].  Atomic [fetch_add]
    and, in the release profile ([Cargo.toml], no [overflow-checks]), the
    operators [+] and [*] wrap around; [saturating_*] clamp. *)

(** A [std::time::Duration], in nanoseconds. *)
Definition from_secs (s : Z) : Z := s * 10 ^ 9.
Definition from_millis (ms : Z) : Z := ms * 10 ^ 6.
Definition as_secs (d : Z) : Z := d / 10 ^ 9.

Definition u8_max : Z := 2 ^ 8 - 1.
Definition u16_max : Z := 2 ^ 16 - 1.
Definition u32_max : Z := 2 ^ 32 - 1.
Definition u64_max : Z := 2 ^ 64 - 1.
Definition i64_max : Z := 2 ^ 63 - 1.

Definition wrap_u32 (x : Z) : Z := x mod 2 ^ 32.
Definition wrap_u64 (x : Z) : Z := x mod 2 ^ 64.

Definition sat_add_u32 (a b : Z) : Z := Z.min (a + b) u32_max.
Definition sat_add_u64 (a b : Z) : Z := Z.min (a + b) u64_max.

(** [saturating_sub] is the same function at every unsigned width. *)
Definition sat_sub (a b : Z) : Z := Z.max 0 (a - b).

Definition fits_u32 (x : Z) : Prop := 0 <= x <= u32_max.
Definition fits_u64 (x : Z) : Prop := 0 <= x <= u64_max.

(** [checked_add] on [u64]; the code unwraps it with [expect]. *)
Definition checked_add_u64 (a b : Z) : option Z :=
  if a + b <=? u64_max then Some (a + b) else None.

Lemma wrap_u64_small (x : Z) : fits_u64 x -> wrap_u64 x = x.
Proof. unfold fits_u64, wrap_u64, u64_max. intros. apply Z.mod_small. lia. Qed.

Lemma wrap_u32_small (x : Z) : fits_u32 x -> wrap_u32 x = x.
Proof. unfold fits_u32, wrap_u32, u32_max. intros. apply Z.mod_small. lia. Qed.

Lemma wrap_u64_range (x : Z) : fits_u64 (wrap_u64 x).
Proof.
  unfold fits_u64, wrap_u64, u64_max.
  pose proof (Z.mod_pos_bound x (2 ^ 64) ltac:(lia)). lia.
Qed.

Lemma wrap_u32_range (x : Z) : fits_u32 (wrap_u32 x).
Proof.
  unfold fits_u32, wrap_u32, u32_max.
  pose proof (Z.mod_pos_bound x (2 ^ 32) ltac:(lia)). lia.
Qed.

Lemma sat_add_u64_range (a b : Z) : fits_u64 a -> fits_u64 b -> fits_u64 (sat_add_u64 a b).
Proof. unfold fits_u64, sat_add_u64, u64_max. lia. Qed.

Lemma sat_sub_range (a b : Z) : fits_u64 a -> 0 <= b -> fits_u64 (sat_sub a b).
Proof. unfold fits_u64, sat_sub, u64_max. lia. Qed.

Create HintDb rust.
#[export] Hint Resolve wrap_u64_range wrap_u32_range sat_add_u64_range sat_sub_range : rust.

(** * Tactics *)

(** Case analysis on the scrutinee of a [match] or [if] of the goal or of a
    hypothesis, keeping the equation. *)
Ltac split_match :=
  match goal with
  | |- context [match ?x with _ => _ end] => destruct x eqn:?
  | H : context [match ?x with _ => _ end] |- _ => destruct x eqn:?
  end.

(** Boolean comparisons of the code as arithmetic facts. *)
Ltac bool_arith :=
  repeat match goal with
  | H : (_ && _)%bool = true |- _ => apply andb_prop in H as [? ?]
  | H : (_ || _)%bool = false |- _ => apply orb_false_elim in H as [? ?]
  | H : negb _ = true |- _ => apply negb_true_iff in H
  | H : negb _ = false |- _ => apply negb_false_iff in H
  | H : (_ <=? _) = true |- _ => apply Z.leb_le in H
  | H : (_ <=? _) = false |- _ => apply Z.leb_gt in H
  | H : (_ <? _) = true |- _ => apply Z.ltb_lt in H
  | H : (_ <? _) = false |- _ => apply Z.ltb_ge in H
  | H : (_ =? _) = true |- _ => apply Z.eqb_eq in H
  | H : (_ =? _) = false |- _ => apply Z.eqb_neq in H
  end.

(** * Reachability *)

(** A predicate preserved by each step holds of every reachable state. *)
Lemma rtc_invariant {A} (R : relation A) (P : A -> Prop) :
  (forall x y, P x -> R x y -> P y) ->
  forall x y, rtc R x y -> P x -> P y.
Proof. intros Hstep x y Hr. induction Hr; eauto. Qed.

(** The last step of a path. *)
Lemma tc_last {A} (R : relation A) (x y : A) : tc R x y -> exists n, rtc R x n /\ R n y.
Proof.
  induction 1 as [x y Hxy|x y z Hxy _ (n & Hr & Hn)].
  - exists x. split; [apply rtc_refl|done].
  - exists n. split; [by eapply rtc_l|done].
Qed.

Lemma rtc_step_tc {A} (R : relation A) (x y z : A) : rtc R x y -> R y z -> tc R x z.
Proof. intros Hr Hs. eapply tc_rtc_l; [done|]. by apply tc_once. Qed.

(** * Strings *)

(** Keys in the order of [sort_unstable]: the byte order of strings. *)
Definition sorted_keys {A} (m : gmap string A) : list string :=
  merge_sort String.le (elements (dom m)).

Lemma elem_of_sorted_keys {A} (m : gmap string A) (k : string) :
  k ∈ sorted_keys m <-> is_Some (m !! k).
Proof. unfold sorted_keys. rewrite merge_sort_Permutation, elem_of_elements. apply elem_of_dom. Qed.

(** [slice::join]. *)
Fixpoint join (sep : string) (l : list string) : string :=
  match l with
  | [] => ""
  | [x] => x
  | x :: l => x +:+ sep +:+ join sep l
  end.

(** * Lists *)

(** Sum of the integers of a list. *)
Definition sumZ (l : list Z) : Z := foldr Z.add 0 l.

Lemma sumZ_app (l k : list Z) : sumZ (l ++ k) = sumZ l + sumZ k.
Proof. induction l as [|x l IH]; simpl; [reflexivity | rewrite IH; lia]. Qed.

Lemma sumZ_nonneg (l : list Z) : Forall (Z.le 0) l -> 0 <= sumZ l.
Proof. induction 1; simpl; lia. Qed.

Lemma sumZ_Permutation (l k : list Z) : l ≡ₚ k -> sumZ l = sumZ k.
Proof. induction 1; simpl; lia. Qed.

(** Sum of an integer measure over a finite map. *)
Definition sum_map `{Countable K} {A} (f : A -> Z) (m : gmap K A) : Z :=
  map_fold (fun _ x acc => f x + acc) 0 m.

Section SumMap.
Context `{Countable K} {A : Type} (f : A -> Z).
Implicit Types m : gmap K A.

Lemma sum_map_empty : sum_map f (∅ : gmap K A) = 0.
Proof. apply map_fold_empty. Qed.

Lemma sum_map_insert m i x :
  m !! i = None -> sum_map f (<[i := x]> m) = f x + sum_map f m.
Proof.
  intros Hi. unfold sum_map. rewrite map_fold_insert_L; [done| |done].
  intros. lia.
Qed.

Lemma sum_map_split m i x :
  m !! i = Some x -> sum_map f m = f x + sum_map f (delete i m).
Proof.
  intros Hi. rewrite <- (insert_delete_id m i x Hi) at 1.
  apply sum_map_insert. apply lookup_delete_eq.
Qed.

Lemma sum_map_update m i x y :
  m !! i = Some x -> sum_map f (<[i := y]> m) = sum_map f m - f x + f y.
Proof.
  intros Hi. rewrite (sum_map_split m i x Hi), <- insert_delete_eq.
  rewrite sum_map_insert by apply lookup_delete_eq. lia.
Qed.

Lemma sum_map_nonneg m : map_Forall (fun _ x => 0 <= f x) m -> 0 <= sum_map f m.
Proof.
  induction m as [|i x m Hi IH] using map_ind; intros Hall.
  - by rewrite sum_map_empty.
  - rewrite sum_map_insert by done. apply map_Forall_insert in Hall as [Hx Hm]; [|done].
    specialize (IH Hm). lia.
Qed.

Lemma sum_map_ge m i x :
  map_Forall (fun _ x => 0 <= f x) m -> m !! i = Some x -> f x <= sum_map f m.
Proof.
  intros Hall Hi. rewrite (sum_map_split m i x Hi).
  pose proof (sum_map_nonneg (delete i m) ltac:(by apply map_Forall_delete)). lia.
Qed.

Lemma sum_map_delete m i x : m !! i = Some x -> sum_map f (delete i m) = sum_map f m - f x.
Proof. intros Hi. rewrite (sum_map_split m i x Hi). lia. Qed.

Lemma sum_map_zero m : map_Forall (fun _ x => f x = 0) m -> sum_map f m = 0.
Proof.
  induction m as [|i x m Hi IH] using map_ind; intros Hall.
  - by rewrite sum_map_empty.
  - rewrite sum_map_insert by done. apply map_Forall_insert in Hall as [-> Hm]; [|done].
    by rewrite IH.
Qed.

Lemma sum_map_union m1 m2 : m1 ##ₘ m2 -> sum_map f (m1 ∪ m2) = sum_map f m1 + sum_map f m2.
Proof.
  induction m1 as [|i x m Hi IH] using map_ind; intros Hd.
  - by rewrite map_empty_union, sum_map_empty.
  - apply map_disjoint_insert_l in Hd as [Hi2 Hd]. rewrite <- insert_union_l.
    rewrite !sum_map_insert, IH by (try done; by apply lookup_union_None). lia.
Qed.

Lemma sum_map_fmap_le (g : A -> A) m :
  map_Forall (fun _ x => f (g x) <= f x) m -> sum_map f (g <$> m) <= sum_map f m.
Proof.
  induction m as [|i x m Hi IH] using map_ind; intros Hall.
  - by rewrite fmap_empty.
  - apply map_Forall_insert in Hall as [Hx Hm]; [|done].
    rewrite fmap_insert, !sum_map_insert by by rewrite ?lookup_fmap, ?Hi. specialize (IH Hm). lia.
Qed.

Lemma sum_map_filter_split (P : K * A -> Prop) `{!forall x, Decision (P x)} m :
  sum_map f m = sum_map f (filter P m) + sum_map f (filter (fun x => ~ P x) m).
Proof.
  rewrite <- sum_map_union by apply map_disjoint_filter_complement.
  by rewrite map_filter_union_complement.
Qed.

Lemma sum_map_filter_le (P : K * A -> Prop) `{!forall x, Decision (P x)} m :
  map_Forall (fun _ x => 0 <= f x) m -> sum_map f (filter P m) <= sum_map f m.
Proof.
  intros Hall. rewrite (sum_map_filter_split P m).
  pose proof (sum_map_nonneg (filter (fun x => ~ P x) m) ltac:(intros i x [Hx _]%map_lookup_filter_Some; by apply (Hall i))). lia.
Qed.

Lemma sum_map_fmap {B : Type} (g : B -> A) (m : gmap K B) :
  sum_map f (g <$> m) = sum_map (fun x => f (g x)) m.
Proof.
  unfold sum_map. induction m as [|i x m Hi IH] using map_ind.
  - by rewrite fmap_empty, !map_fold_empty.
  - rewrite fmap_insert, !map_fold_insert_L; [by rewrite IH|..]; try done; try (intros; lia).
    by rewrite lookup_fmap, Hi.
Qed.
End SumMap.
