(* ===== verification/Text.v ===== *)
(** Text as the code handles it: the [str] and [String] functions of Rust's
    standard library the program uses, on byte strings.

    A Rust [str] is its UTF-8 bytes.  Network data and the text decoded from it
    are lists of bytes, names and messages are [string]s.  [decode] is the
    decoder behind [String::from_utf8_lossy]: it replaces every maximal
    ill-formed sequence by U+FFFD. *)

From S2P Require Import Prelude.

(** [str::trim]: the UTF-8 encodings of the white space characters. *)
Definition utf8 (bytes : list nat) : string :=
  foldr (fun b s => String (Ascii.ascii_of_nat b) s) EmptyString bytes.

Definition whitespace : list string :=
  map utf8 ([[9]; [10]; [11]; [12]; [13]; [32]; [194; 133]; [194; 160]; [225; 154; 128];
    [226; 128; 168]; [226; 128; 169]; [226; 128; 175]; [226; 129; 159]; [227; 128; 128]]
    ++ map (fun k => [226; 128; 128 + k]) (seq 0 11))%nat.

(** The rest of [s] after one of the [prefixes]. *)
Fixpoint strip_one (prefixes : list string) (s : string) : option string :=
  match prefixes with
  | [] => None
  | p :: prefixes =>
      if String.prefix p s
      then Some (String.substring (String.length p) (String.length s - String.length p) s)
      else strip_one prefixes s
  end.

Fixpoint trim_prefixes (fuel : nat) (prefixes : list string) (s : string) : string :=
  match fuel with
  | O => s
  | S fuel =>
      match strip_one prefixes s with
      | Some rest => trim_prefixes fuel prefixes rest
      | None => s
      end
  end.

Definition rev_string (s : string) : string :=
  String.string_of_list_ascii (List.rev (String.list_ascii_of_string s)).

Definition trim (s : string) : string :=
  let s := trim_prefixes (String.length s) whitespace s in
  rev_string (trim_prefixes (String.length s) (map rev_string whitespace) (rev_string s)).

Definition trim_start (s : string) : string := trim_prefixes (String.length s) whitespace s.

(** * UTF-8 *)

Abbreviation bytes := (list Ascii.ascii).

Definition byte_value (b : Ascii.ascii) : Z := Z.of_N (Ascii.N_of_ascii b).

Definition in_bytes (lo hi : Z) (b : Ascii.ascii) : bool :=
  (lo <=? byte_value b) && (byte_value b <=? hi).

(** [byte & 0xc0 == 0x80]. *)
Definition is_continuation (b : Ascii.ascii) : bool := Z.land (byte_value b) 192 =? 128.

(** The length of the sequence a byte starts; 0 when it starts none. *)
Definition utf8_width (b : Ascii.ascii) : nat :=
  if in_bytes 0 127 b then 1
  else if in_bytes 194 223 b then 2
  else if in_bytes 224 239 b then 3
  else if in_bytes 240 244 b then 4
  else 0.

(** The range of the second byte after [lead]. *)
Definition second_ok (lead b : Ascii.ascii) : bool :=
  let v := byte_value lead in
  if v =? 224 then in_bytes 160 191 b
  else if v =? 237 then in_bytes 128 159 b
  else if v =? 240 then in_bytes 144 191 b
  else if v =? 244 then in_bytes 128 143 b
  else in_bytes 128 191 b.

(** Whether [b] continues the incomplete sequence. *)
Definition continues (pending : bytes) (b : Ascii.ascii) : bool :=
  match pending with
  | [] => false
  | [lead] => second_ok lead b
  | _ => in_bytes 128 191 b
  end.

(** U+FFFD. *)
Definition replacement : bytes := String.list_ascii_of_string (utf8 [239; 191; 189]%nat).

Definition start_sequence (b : Ascii.ascii) : bytes * bytes :=
  match utf8_width b with
  | 0 => (replacement, [])
  | 1 => ([b], [])
  | _ => ([], [b])
  end%nat.

(** One byte: what is decoded, and the incomplete sequence after it. *)
Definition decode_byte (pending : bytes) (b : Ascii.ascii) : bytes * bytes :=
  match pending with
  | [] => start_sequence b
  | lead :: _ =>
      if continues pending b then
        let sequence := pending ++ [b] in
        if Nat.eqb (length sequence) (utf8_width lead) then (sequence, []) else ([], sequence)
      else
        let '(out, pending) := start_sequence b in (replacement ++ out, pending)
  end.

Fixpoint decode (pending : bytes) (input : bytes) : bytes * bytes :=
  match input with
  | [] => ([], pending)
  | b :: input =>
      let '(out, pending) := decode_byte pending b in
      let '(rest, pending) := decode pending input in
      (out ++ rest, pending)
  end.

(** An incomplete sequence at the end is ill-formed too. *)
Definition flush (pending : bytes) : bytes :=
  match pending with [] => [] | _ => replacement end.

(** [String::from_utf8_lossy]. *)
Definition from_utf8_lossy (input : bytes) : bytes :=
  let '(out, pending) := decode [] input in out ++ flush pending.

(** [str::from_utf8] fails at the very start, for want of more bytes:
    [valid_up_to() == 0 && error_len().is_none()]. *)
Definition starts_incomplete (input : bytes) : bool :=
  match decode [] input with ([], _ :: _) => true | _ => false end.

Definition of_string : string -> bytes := String.list_ascii_of_string.
Definition to_string : bytes -> string := String.string_of_list_ascii.

Definition bytes_eqb (a b : bytes) : bool := String.eqb (to_string a) (to_string b).

(** [str::parse::<u64>]: an optional sign and at least one digit, in range. *)
Fixpoint parse_digits (acc : Z) (text : bytes) : option Z :=
  match text with
  | [] => Some acc
  | c :: text =>
      if in_bytes 48 57 c then
        let acc := acc * 10 + (byte_value c - 48) in
        if acc <=? u64_max then parse_digits acc text else None
      else None
  end.

Definition parse_u64 (text : bytes) : option Z :=
  match text with
  | [] => None
  | c :: rest =>
      if Ascii.eqb c (Ascii.ascii_of_nat 43) then
        match rest with [] => None | _ => parse_digits 0 rest end
      else parse_digits 0 text
  end.

(** * Lines *)

Definition newline : Ascii.ascii := Ascii.ascii_of_nat 10.
Definition carriage_return : Ascii.ascii := Ascii.ascii_of_nat 13.

Definition strip_cr (line : bytes) : bytes :=
  match rev line with
  | c :: rest => if Ascii.eqb c carriage_return then rev rest else line
  | [] => line
  end.

(** [str::lines]: a line ends in a newline, with a carriage return before it;
    the last one may be unterminated. *)
Fixpoint lines_from (current text : bytes) : list bytes :=
  match text with
  | [] => match current with [] => [] | _ => [current] end
  | c :: text =>
      if Ascii.eqb c newline then strip_cr current :: lines_from [] text
      else lines_from (current ++ [c]) text
  end.
Definition lines (text : bytes) : list bytes := lines_from [] text.

(** [rfind('\n')]: the text up to the last newline, and the rest. *)
Fixpoint split_last_newline (text : bytes) : option (bytes * bytes) :=
  match text with
  | [] => None
  | c :: text =>
      match split_last_newline text with
      | Some (complete, rest) => Some (c :: complete, rest)
      | None => if Ascii.eqb c newline then Some ([c], text) else None
      end
  end.

(** The text seen so far as terminated lines and the line under way. *)
Fixpoint feed_lines (current text : bytes) : list bytes * bytes :=
  match text with
  | [] => ([], current)
  | c :: text =>
      if Ascii.eqb c newline then
        let '(ls, rest) := feed_lines [] text in (strip_cr current :: ls, rest)
      else feed_lines (current ++ [c]) text
  end.

(** * Decoding in pieces *)

Lemma decode_app (pending a b : bytes) :
  decode pending (a ++ b) =
  (let '(out, pending) := decode pending a in
   let '(rest, pending) := decode pending b in (out ++ rest, pending)).
Proof.
  revert pending. induction a as [|c a IH]; intros pending; simpl.
  - by destruct (decode pending b).
  - destruct (decode_byte pending c) as [out p]. rewrite IH.
    destruct (decode p a) as [o1 p1]. destruct (decode p1 b) as [o2 p2]. by rewrite app_assoc.
Qed.

Lemma decode_snoc (pending a : bytes) (b : Ascii.ascii) :
  decode pending (a ++ [b]) =
  (let '(out, pending) := decode pending a in
   let '(rest, pending) := decode_byte pending b in (out ++ rest, pending)).
Proof.
  rewrite decode_app. destruct (decode pending a) as [o p]. simpl.
  destruct (decode_byte p b) as [o1 p1]. by rewrite app_nil_r.
Qed.

(** Facts about single bytes are checked on all of them. *)
Lemma all_bytes (P : Ascii.ascii -> bool) :
  forallb (fun n => P (Ascii.ascii_of_nat n)) (seq 0 256) = true -> forall b, P b = true.
Proof.
  intros Hall b. rewrite forallb_forall in Hall.
  specialize (Hall (Ascii.nat_of_ascii b)). rewrite Ascii.ascii_nat_embedding in Hall.
  apply Hall, in_seq. pose proof (Ascii.nat_ascii_bounded b). lia.
Qed.

Lemma lead_not_continuation (b : Ascii.ascii) : (2 <= utf8_width b)%nat -> is_continuation b = false.
Proof.
  intros Hw. pose proof (all_bytes (fun b => negb (is_continuation b) || Nat.leb (utf8_width b) 1)
    ltac:(vm_compute; reflexivity) b) as H. cbn beta in H.
  destruct (is_continuation b); [|done]. simpl in H. apply Nat.leb_le in H. lia.
Qed.

Lemma width_le_4 (b : Ascii.ascii) : (utf8_width b <= 4)%nat.
Proof.
  pose proof (all_bytes (fun b => Nat.leb (utf8_width b) 4) ltac:(vm_compute; reflexivity) b) as H.
  by apply Nat.leb_le in H.
Qed.

Lemma in_bytes_continuation (lo hi : Z) (b : Ascii.ascii) :
  128 <= lo -> hi <= 191 -> in_bytes lo hi b = true -> is_continuation b = true.
Proof.
  intros Hlo Hhi Hb. unfold in_bytes in Hb. apply andb_prop in Hb as [H1 H2].
  pose proof (all_bytes (fun b => negb (in_bytes 128 191 b) || is_continuation b)
    ltac:(vm_compute; reflexivity) b) as H. cbn beta in H.
  assert (Hin : in_bytes 128 191 b = true).
  { unfold in_bytes. apply andb_true_intro. bool_arith.
    split; [apply Z.leb_le|apply Z.leb_le]; lia. }
  rewrite Hin in H. by destruct (is_continuation b).
Qed.

Lemma continues_continuation (pending : bytes) (b : Ascii.ascii) :
  continues pending b = true -> is_continuation b = true.
Proof.
  unfold continues. destruct pending as [|lead [|x rest]]; [done| |].
  - unfold second_ok. repeat case_match; intros H'; (eapply in_bytes_continuation; [| |exact H']); lia.
  - intros H'. by apply (in_bytes_continuation 128 191).
Qed.

(** The incomplete sequence a decoder is in is the end of what it has read, and
    what it has decoded before would be decoded without it. *)
Record pending_inv (input out pending : bytes) : Prop := {
  pi_split : pending <> [] -> exists before lead rest,
    input = before ++ pending /\ pending = lead :: rest /\
    (2 <= utf8_width lead)%nat /\ (length pending < utf8_width lead)%nat /\
    Forall (fun b => is_continuation b = true) rest /\
    out = from_utf8_lossy before;
  pi_alone : decode [] pending = ([], pending);
}.

Lemma start_sequence_pending (b : Ascii.ascii) (out pending : bytes) :
  start_sequence b = (out, pending) -> pending <> [] ->
  pending = [b] /\ out = [] /\ (2 <= utf8_width b)%nat.
Proof.
  unfold start_sequence. destruct (utf8_width b) as [|[|w]]; intros [= <- <-] Hp; try done.
  split_and!; [done|done|lia].
Qed.

Lemma decode_pending (input : bytes) :
  let '(out, pending) := decode [] input in pending_inv input out pending.
Proof.
  induction input as [|b input IH] using rev_ind; [by split|].
  rewrite decode_snoc. destruct (decode [] input) as [out pending] eqn:Ed.
  destruct IH as [Hsplit Halone]. destruct (decode_byte pending b) as [o1 p1] eqn:Eb.
  assert (Hnew : forall o, start_sequence b = (o, p1) -> o1 = flush pending ++ o ->
    pending_inv (input ++ [b]) (out ++ o1) p1).
  { intros o Es ->. split.
    - intros Hne. destruct (start_sequence_pending b o p1 Es Hne) as (-> & -> & Hw).
      exists input, b, []. rewrite app_nil_r. split_and!; [done|done|done|simpl; lia|done|].
      unfold from_utf8_lossy. by rewrite Ed.
    - destruct p1 as [|x p1]; [done|].
      destruct (start_sequence_pending b o (x :: p1) Es) as (Hp & _ & Hw); [done|].
      injection Hp as -> ->. simpl. unfold start_sequence.
      destruct (utf8_width b) as [|[|w]]; [lia|lia|done]. }
  unfold decode_byte in Eb. destruct pending as [|lead rest] eqn:Ep.
  { by apply (Hnew o1). }
  destruct (continues (lead :: rest) b) eqn:Ec.
  2: { destruct (start_sequence b) as [o p] eqn:Es. injection Eb as <- <-. by apply (Hnew o). }
  destruct (Hsplit ltac:(done)) as (before & lead' & rest' & Hin & Heq & Hw & Hlen & Hcont & Hout).
  injection Heq as <- <-.
  destruct (Nat.eqb_spec (length ((lead :: rest) ++ [b])) (utf8_width lead)) as [Hl|Hl].
  { injection Eb as <- <-. by split. }
  injection Eb as <- <-. split.
  - intros _. exists before, lead, (rest ++ [b]). rewrite app_nil_r. split_and!; try done.
    + by rewrite Hin, <- app_assoc.
    + simpl in *. rewrite length_app in Hl |- *. simpl in *. lia.
    + apply Forall_app. split; [done|]. constructor; [|done]. by eapply continues_continuation.
  - change (lead :: rest ++ [b]) with ((lead :: rest) ++ [b]).
    rewrite decode_snoc, Halone. unfold decode_byte. rewrite Ec.
    by rewrite (proj2 (Nat.eqb_neq _ _)).
Qed.

(** Reading on from an incomplete sequence that starts afresh. *)
Lemma decode_restart (before pending : bytes) (lead : Ascii.ascii) (rest : bytes) :
  pending = lead :: rest -> (2 <= utf8_width lead)%nat -> decode [] pending = ([], pending) ->
  decode [] (before ++ pending) = (from_utf8_lossy before, pending).
Proof.
  intros -> Hw Halone. rewrite decode_app. unfold from_utf8_lossy.
  destruct (decode [] before) as [out p]. cbn [decode] in *.
  assert (Hs : start_sequence lead = ([], [lead])).
  { unfold start_sequence. destruct (utf8_width lead) as [|[|w]]; [lia|lia|done]. }
  assert (Hb : decode_byte p lead = (flush p, [lead])).
  { unfold decode_byte. destruct p as [|x p]; [by rewrite Hs|].
    destruct (continues (x :: p) lead) eqn:Ec.
    - apply continues_continuation in Ec. by rewrite lead_not_continuation in Ec.
    - by rewrite Hs, app_nil_r. }
  rewrite Hb. cbn [decode_byte] in Halone. rewrite Hs in Halone.
  destruct (decode [lead] rest) as [o1 p1]. simpl in *. injection Halone as -> ->.
  by rewrite app_nil_r.
Qed.

(** ** Lines in pieces *)

Lemma feed_lines_app (current a b : bytes) :
  feed_lines current (a ++ b) =
  (let '(ls, current) := feed_lines current a in
   let '(ls', current) := feed_lines current b in (ls ++ ls', current)).
Proof.
  revert current. induction a as [|c a IH]; intros current; simpl.
  - by destruct (feed_lines current b).
  - destruct (Ascii.eqb c newline); [|apply IH]. rewrite IH.
    destruct (feed_lines [] a) as [l1 c1]. by destruct (feed_lines c1 b).
Qed.

Definition no_newline (text : bytes) : Prop := Forall (fun c => Ascii.eqb c newline = false) text.

Lemma feed_lines_rest (current text : bytes) :
  no_newline current -> no_newline (snd (feed_lines current text)).
Proof.
  revert current. induction text as [|c text IH]; intros current Hc; simpl; [done|].
  destruct (Ascii.eqb c newline) eqn:E.
  - specialize (IH [] ltac:(constructor)). by destruct (feed_lines [] text).
  - apply IH. apply Forall_app. split; [done|by repeat constructor].
Qed.

Lemma feed_no_newline (current text : bytes) :
  no_newline text -> feed_lines current text = ([], current ++ text).
Proof.
  intros Ht. revert current. induction Ht as [|c text Hc Ht IH]; intros current; simpl.
  - by rewrite app_nil_r.
  - by rewrite Hc, IH, <- app_assoc.
Qed.

Lemma split_last_newline_spec (text : bytes) :
  match split_last_newline text with
  | Some (complete, rest) => exists body, complete = body ++ [newline] /\ text = complete ++ rest /\
      no_newline rest
  | None => no_newline text
  end.
Proof.
  induction text as [|c text IH]; simpl; [constructor|].
  destruct (split_last_newline text) as [[complete rest]|].
  - destruct IH as (body & -> & -> & Hr). by exists (c :: body).
  - destruct (Ascii.eqb c newline) eqn:E.
    + apply Ascii.eqb_eq in E. subst c. by exists [].
    + by constructor.
Qed.

Lemma lines_feed (current body : bytes) :
  lines_from current (body ++ [newline]) = fst (feed_lines current (body ++ [newline])).
Proof.
  revert current. induction body as [|c body IH]; intros current; simpl.
  - done.
  - destruct (Ascii.eqb c newline); [|apply IH]. rewrite IH.
    by destruct (feed_lines [] (body ++ [newline])).
Qed.

Lemma feed_terminated (current body : bytes) :
  snd (feed_lines current (body ++ [newline])) = [].
Proof.
  rewrite feed_lines_app. destruct (feed_lines current body) as [ls c]. done.
Qed.

(** ** Counting line feeds *)

Fixpoint newlines (text : bytes) : nat :=
  match text with [] => 0 | c :: text => (if Ascii.eqb c newline then 1 else 0) + newlines text end.

Lemma newlines_app (a b : bytes) : newlines (a ++ b) = (newlines a + newlines b)%nat.
Proof. induction a as [|c a IH]; simpl; [done|]. rewrite IH. lia. Qed.

Lemma start_sequence_newlines (b : Ascii.ascii) :
  (newlines (fst (start_sequence b)) <= newlines [b])%nat /\ newlines (snd (start_sequence b)) = 0%nat.
Proof. destruct b as [[] [] [] [] [] [] [] []]; vm_compute; split; lia. Qed.

Lemma continues_newlines (pending : bytes) (b : Ascii.ascii) : continues pending b = true -> newlines [b] = 0%nat.
Proof.
  simpl. destruct (Ascii.eqb_spec b newline) as [->|]; [|done]. destruct pending as [|lead [|]]; try done.
  unfold continues, second_ok. by repeat case_match.
Qed.

(** A sequence under way has no line feed. *)
Lemma decode_byte_newlines (pending : bytes) (b : Ascii.ascii) :
  newlines pending = 0%nat ->
  (newlines (fst (decode_byte pending b)) <= newlines [b])%nat /\ newlines (snd (decode_byte pending b)) = 0%nat.
Proof.
  intros Hp. unfold decode_byte. pose proof (start_sequence_newlines b) as [H1 H2].
  destruct pending as [|lead rest]; [done|].
  destruct (continues (lead :: rest) b) eqn:Ec.
  - apply continues_newlines in Ec. pose proof (newlines_app (lead :: rest) [b]) as Ha. rewrite Hp, Ec in Ha.
    destruct (Nat.eqb _ _); cbn [fst snd]; rewrite ?Ha; simpl; lia.
  - destruct (start_sequence b) as [out q]. cbn [fst snd] in *. rewrite newlines_app. split; [|done].
    change (newlines replacement) with 0%nat. lia.
Qed.

Lemma decode_newlines_pending (pending input : bytes) : newlines pending = 0%nat ->
  (newlines (fst (decode pending input)) <= newlines input)%nat /\ newlines (snd (decode pending input)) = 0%nat.
Proof.
  revert pending. induction input as [|b input IH]; intros pending Hp; simpl; [done|].
  destruct (decode_byte_newlines pending b Hp) as [H1 H2]. destruct (decode_byte pending b) as [out q].
  cbn [fst snd] in *. destruct (IH q H2) as [H3 H4]. destruct (decode q input) as [rest q'].
  cbn [fst snd] in *. rewrite newlines_app. simpl in H1. lia.
Qed.

Lemma pending_no_newlines (pending : bytes) : decode [] pending = ([], pending) -> newlines pending = 0%nat.
Proof. intros H. pose proof (proj2 (decode_newlines_pending [] pending eq_refl)) as Hn. by rewrite H in Hn. Qed.

Lemma feed_lines_newlines (current text : bytes) : length (fst (feed_lines current text)) = newlines text.
Proof.
  revert current. induction text as [|c text IH]; intros current; simpl; [done|].
  destruct (Ascii.eqb c newline); [|apply IH]. specialize (IH []). destruct (feed_lines [] text). simpl in *. lia.
Qed.

(** A buffer without newlines and the text after it, up to the last newline. *)
Lemma complete_lines (buffer text : bytes) :
  no_newline buffer ->
  match split_last_newline (buffer ++ text) with
  | Some (complete, rest) => feed_lines buffer text = (lines complete, rest)
  | None => feed_lines buffer text = ([], buffer ++ text)
  end.
Proof.
  intros Hb. pose proof (split_last_newline_spec (buffer ++ text)) as Hs.
  assert (Hf : feed_lines [] (buffer ++ text) = feed_lines buffer text).
  { rewrite feed_lines_app, (feed_no_newline [] buffer) by done. simpl.
    by destruct (feed_lines buffer text). }
  rewrite <- Hf. destruct (split_last_newline (buffer ++ text)) as [[complete rest]|].
  - destruct Hs as (body & -> & -> & Hr). rewrite feed_lines_app. unfold lines. rewrite lines_feed.
    pose proof (feed_terminated [] body) as Ht.
    destruct (feed_lines [] (body ++ [newline])) as [ls c]. simpl in *. subst c.
    rewrite feed_no_newline by done. by rewrite app_nil_r.
  - by rewrite (feed_no_newline [] (buffer ++ text)).
Qed.
