(* ===== verification/Float64.v ===== *)
(** Double-precision floats as the code uses them: [f64] is the [spec_float] of
    the Standard Library, with the conversions of Rust. *)

From Stdlib Require Import Floats.SpecFloat.
From S2P Require Import Prelude.

(** IEEE double precision, round to nearest even. *)
Definition f64_prec : Z := 53.
Definition f64_emax : Z := 1024.
Definition f64_add := SFadd f64_prec f64_emax.
Definition f64_mul := SFmul f64_prec f64_emax.
Definition f64_div := SFdiv f64_prec f64_emax.
Definition f64_sub := SFsub f64_prec f64_emax.
(** [as f64] of an unsigned integer, and [f64::from]. *)
Definition f64_of_Z (n : Z) : spec_float := binary_normalize f64_prec f64_emax n 0 false.
Definition f64_zero : spec_float := S754_zero false.

(** [f64::clamp]: a NaN passes through. *)
Definition f64_clamp (lo hi x : spec_float) : spec_float :=
  let x := if SFltb x lo then lo else x in
  if SFltb hi x then hi else x.

Definition f64_is_finite (x : spec_float) : bool :=
  match x with S754_zero _ | S754_finite _ _ _ => true | _ => false end.

(** [as u32] and [as u64]: truncation, saturating at the bounds; a NaN is 0. *)
Definition f64_trunc (max : Z) (x : spec_float) : Z :=
  match x with
  | S754_finite false m e =>
      Z.min max (if 0 <=? e then Z.pos m * 2 ^ e else Z.pos m / 2 ^ (- e))
  | S754_infinity false => max
  | _ => 0
  end.
Definition f64_to_u32 : spec_float -> Z := f64_trunc u32_max.
Definition f64_to_u64 : spec_float -> Z := f64_trunc u64_max.

(** [f64::ceil]: the integral part of a float is a float again. *)
Definition f64_ceil (x : spec_float) : spec_float :=
  match x with
  | S754_finite s m e =>
      if 0 <=? e then x
      else
        let q := if s then - (Z.pos m / 2 ^ (- e)) else - (- Z.pos m / 2 ^ (- e)) in
        if q =? 0 then S754_zero s else f64_of_Z q
  | _ => x
  end.

(** [num / den] rounded to the nearest integer, ties to even. *)
Definition div_half_even (num den : Z) : Z :=
  let q := num / den in
  let r := num mod den in
  if 2 * r <? den then q
  else if den <? 2 * r then q + 1
  else if Z.even q then q else q + 1.

(** [Duration::from_secs_f64] of a non-negative finite number of seconds, in
    nanoseconds; the code calls it on nothing else. *)
Definition duration_from_secs_f64 (x : spec_float) : Z :=
  match x with
  | S754_finite false m e =>
      if 0 <=? e then Z.pos m * 2 ^ e * 10 ^ 9
      else div_half_even (Z.pos m * 10 ^ 9) (2 ^ (- e))
  | _ => 0
  end.

Lemma div_half_even_nonneg (a b : Z) : 0 <= a -> 0 < b -> 0 <= div_half_even a b.
Proof.
  intros Ha Hb. unfold div_half_even. pose proof (Z.div_pos a b Ha Hb).
  repeat case_match; lia.
Qed.

Lemma duration_from_secs_f64_nonneg (x : spec_float) : 0 <= duration_from_secs_f64 x.
Proof.
  destruct x as [| | |[] m e]; simpl; try lia.
  destruct (Z.leb_spec 0 e); [lia|].
  apply div_half_even_nonneg; lia.
Qed.

