(* ===== verification/Rounding.v ===== *)
(** Error bounds of the double-precision operations of [Float64]: the rounded
    quotient and product are within 2^-53 of the exact ones, relative to them, as
    long as nothing underflows or overflows. *)

From Stdlib Require Import Floats.SpecFloat.
From S2P Require Import Prelude Float64.

(** * Digits *)

Lemma pow2_pos (n : Z) : 0 <= n -> 0 < 2 ^ n.
Proof. intros. apply Z.pow_pos_nonneg; lia. Qed.

Lemma digits2_pos_bounds (p : positive) :
  2 ^ (Z.pos (digits2_pos p) - 1) <= Z.pos p < 2 ^ Z.pos (digits2_pos p).
Proof.
  induction p as [p IH|p IH|]; cbn [digits2_pos]; [| |by cbn];
    rewrite Pos2Z.inj_succ, Z.pow_succ_r, Z.sub_1_r, Z.pred_succ by lia;
    replace (2 ^ Z.pos (digits2_pos p)) with (2 * 2 ^ (Z.pos (digits2_pos p) - 1)) in *
      by (rewrite <- Z.pow_succ_r by lia; f_equal; lia); lia.
Qed.

Lemma digits_unique (m d : Z) : 0 < m -> 2 ^ (d - 1) <= m < 2 ^ d -> 0 < d -> Zdigits2 m = d.
Proof.
  intros Hm Hd Hpos. destruct m as [|p|p]; [lia| |lia]. cbn [Zdigits2].
  pose proof (digits2_pos_bounds p) as [H1 H2].
  assert (Z.pos (digits2_pos p) - 1 < d) by (apply (Z.pow_lt_mono_r_iff 2); lia).
  assert (d - 1 < Z.pos (digits2_pos p)) by (apply (Z.pow_lt_mono_r_iff 2); lia).
  lia.
Qed.

Lemma digits_bounds (m : Z) : 0 < m -> 2 ^ (Zdigits2 m - 1) <= m < 2 ^ Zdigits2 m.
Proof. destruct m as [|p|p]; try lia. intros _. apply digits2_pos_bounds. Qed.

Lemma digits_pos (m : Z) : 0 < m -> 0 < Zdigits2 m.
Proof. destruct m; cbn; lia. Qed.

(** [digits m <= d] from [m < 2 ^ d], and the converse bound. *)
Lemma digits_le (m d : Z) : 0 < m -> 0 <= d -> m < 2 ^ d -> Zdigits2 m <= d.
Proof.
  intros Hm Hd Hlt. pose proof (digits_bounds m Hm). pose proof (digits_pos m Hm).
  assert (Zdigits2 m - 1 < d); [|lia]. apply (Z.pow_lt_mono_r_iff 2); lia.
Qed.

Lemma digits_ge (m d : Z) : 0 < m -> 0 <= d -> 2 ^ d <= m -> d < Zdigits2 m.
Proof.
  intros Hm Hd Hle. pose proof (digits_bounds m Hm). pose proof (digits_pos m Hm).
  apply (Z.pow_lt_mono_r_iff 2); lia.
Qed.

(** * Locations *)

(** The quotient [num / den] lies between [m] and [m + 1], where [l] says. *)
Definition located (num den m : Z) (l : location) : Prop :=
  m * den <= num < (m + 1) * den /\
  match l with
  | loc_Exact => num = m * den
  | loc_Inexact c => m * den < num /\ (2 * (num - m * den) ?= den) = c
  end.

Definition located_record (num den : Z) (r : shr_record) : Prop :=
  located num den (shr_m r) (loc_of_shr_record r).

Lemma located_of_loc num den m l :
  located num den m l -> located_record num den (shr_record_of_loc m l).
Proof. by destruct l as [|[]]. Qed.

Lemma shr_of_loc_m m l : shr_m (shr_record_of_loc m l) = m.
Proof. by destruct l as [|[]]. Qed.

Ltac compare_cases :=
  repeat match goal with
  | H : (_ ?= _) = Eq |- _ => apply Z.compare_eq in H
  | H : (_ ?= _) = Lt |- _ => apply (proj1 (Z.compare_lt_iff _ _)) in H
  | H : (_ ?= _) = Gt |- _ => apply Z.compare_gt_iff in H
  | |- (_ ?= _) = Eq => apply Z.compare_eq_iff
  | |- (_ ?= _) = Lt => apply (proj2 (Z.compare_lt_iff _ _))
  | |- (_ ?= _) = Gt => apply Z.compare_gt_iff
  end.

Ltac split_location :=
  repeat match goal with H : _ /\ _ |- _ => destruct H end; try split; compare_cases; lia.

Lemma shr_1_located num den r :
  0 < den -> 0 <= shr_m r -> located_record num den r ->
  located_record num (2 * den) (shr_1 r) /\ 0 <= shr_m (shr_1 r).
Proof.
  intros Hden Hm [Hb Hl]. destruct r as [[|p|p] rr rs]; cbn in *; [| |lia].
  - split; [|by destruct rr, rs]. unfold located_record, located.
    destruct rr, rs; cbn in *; (split; [lia|]); split_location.
  - destruct p as [p|p|]; cbn.
    + assert (Z.pos p~1 * den = Z.pos p * (2 * den) + den) as Hp by lia.
      assert ((Z.pos p~1 + 1) * den = (Z.pos p + 1) * (2 * den)) as Hq by lia.
      rewrite Hp, Hq in *. split; [|lia]. unfold located_record, located; cbn [shr_m loc_of_shr_record].
      split; [lia|]. destruct rr, rs; cbn in *; split_location.
    + assert (Z.pos p~0 * den = Z.pos p * (2 * den)) as Hp by lia.
      rewrite Hp in *. split; [|lia]. unfold located_record, located; cbn [shr_m loc_of_shr_record].
      split; [lia|]. destruct rr, rs; cbn in *; split_location.
    + split; [|lia]. unfold located_record, located; cbn [shr_m loc_of_shr_record].
      destruct rr, rs; cbn in *; (split; [lia|]); split_location.
Qed.

Lemma iter_shr_located (p : positive) num den r :
  0 < den -> 0 <= shr_m r -> located_record num den r ->
  located_record num (2 ^ Z.pos p * den) (SpecFloat.iter_pos shr_1 p r) /\ 0 <= shr_m (SpecFloat.iter_pos shr_1 p r).
Proof.
  revert den r. induction p as [p IH|p IH|]; intros den r Hd Hm Hr; cbn [SpecFloat.iter_pos].
  - destruct (shr_1_located num den r Hd Hm Hr) as [H1 M1].
    destruct (IH (2 * den) _ ltac:(lia) M1 H1) as [H2 M2].
    pose proof (pow2_pos (Z.pos p) ltac:(lia)).
    destruct (IH (2 ^ Z.pos p * (2 * den)) _ ltac:(nia) M2 H2) as [H3 M3]. split; [|done].
    replace (2 ^ Z.pos p~1 * den) with (2 ^ Z.pos p * (2 ^ Z.pos p * (2 * den))); [done|].
    replace (Z.pos p~1) with (1 + Z.pos p + Z.pos p) by lia. rewrite !Z.pow_add_r by lia. lia.
  - destruct (IH _ _ Hd Hm Hr) as [H2 M2]. pose proof (pow2_pos (Z.pos p) ltac:(lia)).
    destruct (IH (2 ^ Z.pos p * den) _ ltac:(nia) M2 H2) as [H3 M3]. split; [|done].
    replace (2 ^ Z.pos p~0 * den) with (2 ^ Z.pos p * (2 ^ Z.pos p * den)); [done|].
    replace (Z.pos p~0) with (Z.pos p + Z.pos p) by lia. rewrite !Z.pow_add_r by lia. lia.
  - by apply shr_1_located.
Qed.

Lemma shr_located num den r e n :
  0 < den -> 0 <= n -> 0 <= shr_m r -> located_record num den r ->
  exists r', shr r e n = (r', e + n) /\ located_record num (2 ^ n * den) r' /\ 0 <= shr_m r'.
Proof.
  intros Hd Hn Hm Hr. destruct n as [|p|p]; [| |lia].
  - exists r. rewrite Z.add_0_r, Z.mul_1_l. done.
  - exists (SpecFloat.iter_pos shr_1 p r). split; [done|]. by apply iter_shr_located.
Qed.

(** * Rounding *)

Lemma round_even_close num den m l :
  0 < den -> located num den m l ->
  2 * Z.abs (round_nearest_even m l * den - num) <= den /\
  m <= round_nearest_even m l <= m + 1.
Proof.
  intros Hd [Hb Hl]. destruct l as [|[]]; cbn; [|destruct Hl as [Hl Hc]; compare_cases..].
  - subst. rewrite Z.sub_diag. lia.
  - destruct (Z.even m); split; lia.
  - lia.
  - split; lia.
Qed.

Lemma shr_fexp_normal m e l :
  -1021 <= Zdigits2 m + e ->
  shr_fexp f64_prec f64_emax m e l = shr (shr_record_of_loc m l) e (Zdigits2 m - 53).
Proof. intros H. unfold shr_fexp, fexp, emin, f64_prec, f64_emax. f_equal. lia. Qed.

(** Rounding [num / den], in units of [2 ^ e], where the integral part has 53
    digits or more. *)
Lemma round_aux_close sx num den m e l k :
  0 < den -> located num den m l -> 2 ^ 52 <= m < 2 ^ (53 + k) ->
  -1074 <= e -> e + k <= 900 ->
  exists m' e', binary_round_aux f64_prec f64_emax sx m e l = S754_finite sx m' e' /\
  2 ^ 52 <= Z.pos m' < 2 ^ 53 /\ e <= e' <= e + k + 1 /\
  2 ^ 53 * Z.abs (Z.pos m' * 2 ^ (e' - e) * den - num) <= num.
Proof.
  intros Hden Hloc Hm He Hk.
  assert (Hmpos : 0 < m) by lia.
  assert (Hd : 53 <= Zdigits2 m) by (pose proof (digits_ge m 52 Hmpos ltac:(lia) ltac:(lia)); lia).
  assert (0 <= k) by (apply Z.nlt_ge; intros Hneg; assert (2 ^ (53 + k) <= 2 ^ 52) by (apply Z.pow_le_mono_r; lia); lia).
  pose proof (digits_le m (53 + k) Hmpos ltac:(lia) ltac:(lia)) as Hdk.
  pose proof (digits_bounds m Hmpos) as Hdb.
  set (n := Zdigits2 m - 53) in *. assert (0 <= n <= k) by lia.
  unfold binary_round_aux. rewrite (shr_fexp_normal m) by lia. fold n.
  destruct (shr_located num den (shr_record_of_loc m l) e n) as (r1 & -> & Hr1 & Hm1);
    [lia|lia|rewrite shr_of_loc_m; lia|by apply located_of_loc|].
  set (D := 2 ^ n * den) in *. assert (HD : 0 < D) by (apply Z.mul_pos_pos; [apply pow2_pos; lia | done]).
  set (m1 := shr_m r1) in *.
  (* the mantissa has 53 digits *)
  pose proof (pow2_pos n ltac:(lia)) as H2n.
  assert (Hpow : 2 ^ Zdigits2 m = 2 ^ 53 * 2 ^ n) by (rewrite <- Z.pow_add_r by lia; f_equal; lia).
  assert (Hpow1 : 2 ^ (Zdigits2 m - 1) = 2 ^ 52 * 2 ^ n) by (rewrite <- Z.pow_add_r by lia; f_equal; lia).
  destruct Hloc as [Hb _]. pose proof Hr1 as [Hb1 _]. fold m1 in Hb1.
  assert (Hm1l : 2 ^ 52 <= m1).
  { enough (2 ^ 52 < m1 + 1) by lia. apply (Z.mul_lt_mono_pos_r D); [done|].
    unfold D in *. nia. }
  assert (Hm1u : m1 < 2 ^ 53) by (apply (Z.mul_lt_mono_pos_r D); [done|]; unfold D in *; nia).
  destruct (round_even_close num D m1 (loc_of_shr_record r1) HD Hr1) as [Hclose Hstep].
  set (m2 := round_nearest_even m1 (loc_of_shr_record r1)) in *.
  assert (Herr : 2 ^ 53 * Z.abs (m2 * D - num) <= num) by nia.
  assert (Hm2 : 2 ^ 52 <= m2 <= 2 ^ 53) by lia.
  destruct (Z.eq_dec m2 (2 ^ 53)) as [E|Hne].
  - (* the rounding carried into a 54th digit *)
    assert (Hdig : Zdigits2 m2 = 54) by (rewrite E; reflexivity).
    rewrite shr_fexp_normal by lia. rewrite Hdig, E. cbn [shr_record_of_loc].
    assert (Hcarry : forall x, shr (Build_shr_record (2 ^ 53) false false) x (54 - 53)
                               = (Build_shr_record (2 ^ 52) false false, x + 1)) by reflexivity.
    rewrite Hcarry. exists (2 ^ 52)%positive, (e + n + 1).
    split; [cbn; by rewrite (proj2 (Z.leb_le _ _)) by (unfold f64_emax, f64_prec; lia)|].
    split; [lia|]. split; [lia|].
    replace (e + n + 1 - e) with (1 + n) by lia. rewrite Z.pow_add_r by lia.
    replace (Z.pos (2 ^ 52) * (2 ^ 1 * 2 ^ n) * den) with (m2 * D) by (rewrite E; unfold D; lia). done.
  - assert (Hdig : Zdigits2 m2 = 53) by (apply digits_unique; lia).
    rewrite shr_fexp_normal by lia. rewrite Hdig. cbn [shr_record_of_loc].
    destruct m2 as [|p|p] eqn:Ep; [lia| |lia].
    change (53 - 53) with 0. cbn [shr shr_m]. exists p, (e + n).
    split; [cbn; by rewrite (proj2 (Z.leb_le _ _)) by (unfold f64_emax, f64_prec; lia)|].
    split; [lia|]. split; [lia|].
    replace (e + n - e) with n by lia. by rewrite <- Z.mul_assoc.
Qed.

(** * The operations on normal numbers *)

Definition normal_mantissa (m : positive) : Prop := 2 ^ 52 <= Z.pos m < 2 ^ 53.

Lemma iter_xO (m d : positive) : Z.pos (Pos.iter xO m d) = Z.pos m * 2 ^ Z.pos d.
Proof.
  induction d as [|d IH] using Pos.peano_ind; [cbn; lia|].
  rewrite Pos.iter_succ, Pos2Z.inj_xO, IH, Pos2Z.inj_succ, Z.pow_succ_r by lia. lia.
Qed.

(** Integers below 2^53 are exact. *)
Lemma f64_of_Z_exact (n : Z) :
  0 < n < 2 ^ 53 ->
  exists m k, f64_of_Z n = S754_finite false m (- k) /\ normal_mantissa m /\
    0 <= k <= 52 /\ Z.pos m = n * 2 ^ k.
Proof.
  intros Hn. destruct n as [|p|p]; [lia| |lia].
  pose proof (digits_bounds (Z.pos p) ltac:(lia)) as Hd.
  pose proof (digits_le (Z.pos p) 53 ltac:(lia) ltac:(lia) ltac:(lia)) as Hd53.
  pose proof (digits_pos (Z.pos p) ltac:(lia)) as Hd0.
  cbn [Zdigits2] in *. set (d := Z.pos (digits2_pos p)) in *.
  assert (Halign : exists mz, shl_align p 0 (fexp f64_prec f64_emax (d + 0)) = (mz, d - 53) /\
            Z.pos mz = Z.pos p * 2 ^ (53 - d)).
  { unfold shl_align, fexp, emin, f64_prec, f64_emax. rewrite Z.add_0_r, Z.sub_0_r.
    rewrite Z.max_l by lia. destruct (d - 53) as [|q|q] eqn:E; [| lia |].
    - exists p. split; [done|]. replace (53 - d) with 0 by lia. lia.
    - eexists. split; [done|]. rewrite iter_xO. f_equal. f_equal. lia. }
  destruct Halign as (mz & Halign & Hmz).
  assert (Hpow : 2 ^ 53 = 2 ^ d * 2 ^ (53 - d)) by (rewrite <- Z.pow_add_r by lia; f_equal; lia).
  assert (Hpow1 : 2 ^ 52 = 2 ^ (d - 1) * 2 ^ (53 - d)) by (rewrite <- Z.pow_add_r by lia; f_equal; lia).
  pose proof (pow2_pos (53 - d) ltac:(lia)).
  assert (Hnorm : 2 ^ 52 <= Z.pos mz < 2 ^ 53) by (rewrite Hmz; nia).
  destruct (round_aux_close false (Z.pos mz) 1 (Z.pos mz) (d - 53) loc_Exact 0)
    as (m' & e' & Hr & Hm' & He' & Herr); [lia|split; lia|lia|lia|lia|].
  exists m', (53 - d). unfold f64_of_Z, binary_normalize, binary_round.
  fold d. rewrite Halign, Hr.
  rewrite Z.mul_1_r in Herr.
  assert (Heq : Z.pos m' * 2 ^ (e' - (d - 53)) = Z.pos mz) by lia.
  assert (E : e' = d - 53).
  { destruct (Z.eq_dec (e' - (d - 53)) 1) as [E1|]; [|lia]. rewrite E1 in Heq. lia. }
  subst e'. rewrite Z.sub_diag, Z.mul_1_r in Heq.
  split; [f_equal; lia|]. split; [done|]. split; [lia|]. by rewrite Heq.
Qed.

Lemma f64_mul_close m1 e1 m2 e2 :
  normal_mantissa m1 -> normal_mantissa m2 -> -400 <= e1 <= 400 -> -400 <= e2 <= 400 ->
  exists m' e', f64_mul (S754_finite false m1 e1) (S754_finite false m2 e2) = S754_finite false m' e' /\
  normal_mantissa m' /\ e1 + e2 <= e' <= e1 + e2 + 54 /\
  2 ^ 53 * Z.abs (Z.pos m' * 2 ^ (e' - (e1 + e2)) - Z.pos m1 * Z.pos m2) <= Z.pos m1 * Z.pos m2.
Proof.
  unfold normal_mantissa. intros H1 H2 He1 He2.
  destruct (round_aux_close false (Z.pos m1 * Z.pos m2) 1 (Z.pos m1 * Z.pos m2) (e1 + e2) loc_Exact 53)
    as (m' & e' & Hr & Hm' & He' & Herr); [lia|split; lia| |lia|lia|].
  - change (2 ^ (53 + 53)) with (2 ^ 53 * 2 ^ 53). nia.
  - exists m', e'. rewrite Z.mul_1_r in Herr. split; [exact Hr|]. split; [done|]. split; [lia|done].
Qed.

Lemma new_location_located num den m :
  0 < den -> m * den <= num < (m + 1) * den ->
  located num den m (new_location den (num - m * den)).
Proof.
  intros Hd Hb. split; [done|]. unfold new_location, new_location_even, new_location_odd.
  assert (Heven : Z.even den = true -> exists h, den = 2 * h).
  { intros E. apply Z.even_spec in E as [h ->]. by exists h. }
  assert (Hodd : Z.even den = false -> exists h, den = 2 * h + 1).
  { intros E. rewrite <- Z.negb_odd in E. apply negb_false_iff, Z.odd_spec in E as [h ->]. by exists h. }
  destruct (Z.even den).
  - destruct (Z.eqb_spec (num - m * den) 0); [lia|]. split; [lia|done].
  - destruct (Hodd eq_refl) as [h Hh].
    destruct (Z.eqb_spec (num - m * den) 0); [lia|].
    destruct (Z.compare_spec (2 * (num - m * den) + 1) den); split; try lia; compare_cases; lia.
Qed.

Lemma f64_div_close m1 e1 m2 e2 :
  normal_mantissa m1 -> normal_mantissa m2 -> -400 <= e1 <= 400 -> -400 <= e2 <= 400 ->
  exists m' e', f64_div (S754_finite false m1 e1) (S754_finite false m2 e2) = S754_finite false m' e' /\
  normal_mantissa m' /\ e1 - e2 - 53 <= e' <= e1 - e2 - 51 /\
  2 ^ 53 * Z.abs (Z.pos m' * 2 ^ (e' - (e1 - e2 - 53)) * Z.pos m2 - Z.pos m1 * 2 ^ 53)
  <= Z.pos m1 * 2 ^ 53.
Proof.
  unfold normal_mantissa. intros H1 H2 He1 He2.
  assert (D1 : Zdigits2 (Z.pos m1) = 53) by (apply digits_unique; lia).
  assert (D2 : Zdigits2 (Z.pos m2) = 53) by (apply digits_unique; lia).
  set (num := Z.pos m1 * 2 ^ 53). set (q := num / Z.pos m2).
  pose proof (Z.div_mod num (Z.pos m2) ltac:(lia)) as Hdm.
  pose proof (Z.mod_pos_bound num (Z.pos m2) ltac:(lia)) as Hmb. fold q in Hdm.
  assert (Hq : 2 ^ 52 <= q < 2 ^ 54) by (unfold num in *; nia).
  destruct (round_aux_close false num (Z.pos m2) q (e1 - e2 - 53) (new_location (Z.pos m2) (num mod Z.pos m2)) 1)
    as (m' & e' & Hr & Hm' & He' & Herr); [lia| |done|lia|lia|].
  - replace (num mod Z.pos m2) with (num - q * Z.pos m2) by lia.
    apply new_location_located; lia.
  - exists m', e'. split; [|split; [done|split; [lia|exact Herr]]].
    rewrite <- Hr. unfold f64_div, SFdiv, SFdiv_core_binary. rewrite D1, D2.
    replace (fexp f64_prec f64_emax (53 + e1 - (53 + e2))) with (e1 - e2 - 53)
      by (unfold fexp, emin, f64_prec, f64_emax; lia).
    rewrite Z.min_l by lia. replace (e1 - e2 - (e1 - e2 - 53)) with 53 by lia.
    rewrite Z.shiftl_mul_pow2 by lia. fold num.
    unfold q, Z.div, Z.modulo. by destruct (Z.div_eucl num (Z.pos m2)).
Qed.
