(* ===== verification/ProviderErrors.v ===== *)
(** Provider errors: the error type every provider call returns
    ([core/providers/unified_provider_error.rs]), its constructors
    ([unified_provider_methods.rs]), the HTTP facts derived from it
    ([unified_provider_http_mapping.rs]), its canonical classification
    ([utils/error/canonical.rs]) and the failure facts retry policy reads
    ([core/providers/failure.rs]).

    Integers ([u16], [u64], [usize]) are [Z]; durations are in nanoseconds ([Prelude.from_secs]). *)

From S2P Require Import Prelude.
From Stdlib Require Import Floats.SpecFloat.

(** * Static strings

    A [&'static str] is an address and a text.  The code compares texts except
    in one place: [bedrock_modeled_retry_provider] allocates one leaked [str]
    whose address, compared with [std::ptr::eq], marks an error built from a
    structured AWS error code.  [BedrockToken] is that address; [Lit] is every
    other static string. *)
Inductive static_str :=
| Lit (text : string)
| BedrockToken.

#[export] Instance static_str_eq_dec : EqDecision static_str.
Proof. solve_decision. Defined.

(** The text a [&'static str] points to ([==] on [&str]). *)
Definition str_text (s : static_str) : string :=
  match s with Lit t => t | BedrockToken => "bedrock" end.

Definition bedrock_modeled_retry_provider : static_str := BedrockToken.

(** [std::ptr::eq]; only ever used against the token. *)
Definition ptr_eq_token (s : static_str) : bool :=
  match s with BedrockToken => true | Lit _ => false end.

(** * The error type *)

Inductive ProviderError :=
| Authentication (provider : static_str) (message : string)
| RateLimit (provider : static_str) (message : string) (retry_after : option Z)
    (rpm_limit tpm_limit : option Z) (current_usage : option spec_float)
| QuotaExceeded (provider : static_str) (message : string)
| ModelNotFound (provider : static_str) (model : string)
| InvalidRequest (provider : static_str) (message : string)
| Network (provider : static_str) (message : string)
| ProviderUnavailable (provider : static_str) (message : string)
| NotSupported (provider : static_str) (feature : string)
| NotImplemented (provider : static_str) (feature : string)
| Configuration (provider : static_str) (message : string)
| Serialization (provider : static_str) (message : string)
| Timeout (provider : static_str) (message : string)
| ContextLengthExceeded (provider : static_str) (max actual : Z)
| ContentFiltered (provider : static_str) (reason : string)
    (policy_violations : option (list string)) (potentially_retryable : option bool)
| ApiError (provider : static_str) (status : Z) (message : string)
| TokenLimitExceeded (provider : static_str) (message : string)
| FeatureDisabled (provider : static_str) (feature : string)
| DeploymentError (provider : static_str) (deployment message : string)
| ResponseParsing (provider : static_str) (message : string)
| RoutingError (provider : static_str) (attempted_providers : list string)
    (message : string)
| TransformationError (provider : static_str) (from_format to_format message : string)
| Cancelled (provider : static_str) (operation_type : string)
    (cancellation_reason : option string)
| Streaming (provider : static_str) (stream_type : string) (position : option Z)
    (last_chunk : option string) (message : string)
| Other (provider : static_str) (message : string).

(** * Constructors ([impl ProviderError]) *)

Definition authentication (p : static_str) (m : string) := Authentication p m.

(** Decimal [Display] of an unsigned integer. *)
Definition show (n : Z) : string := pretty n.

Definition rate_limit (p : static_str) (retry_after : option Z) : ProviderError :=
  RateLimit p
    (match retry_after with
     | Some seconds => "Rate limit exceeded. Retry after " +:+ show seconds +:+ " seconds"
     | None => "Rate limit exceeded"
     end)
    retry_after None None None.

Definition rate_limit_with_limits (p : static_str) (retry_after rpm_limit tpm_limit : option Z)
    (current_usage : option spec_float) : ProviderError :=
  let message :=
    match rpm_limit, tpm_limit with
    | Some rpm, Some tpm =>
        "Rate limit exceeded: " +:+ show rpm +:+ "RPM, " +:+ show tpm +:+ "TPM limits reached"
    | Some rpm, None => "Rate limit exceeded: " +:+ show rpm +:+ "RPM limit reached"
    | None, Some tpm => "Rate limit exceeded: " +:+ show tpm +:+ "TPM limit reached"
    | None, None => "Rate limit exceeded"
    end in
  RateLimit p message retry_after rpm_limit tpm_limit current_usage.

Definition rate_limit_simple (p : static_str) (m : string) :=
  RateLimit p m None None None None.
Definition rate_limit_with_retry (p : static_str) (m : string) (retry_after : option Z) :=
  RateLimit p m retry_after None None None.
Definition quota_exceeded (p : static_str) (m : string) := QuotaExceeded p m.
Definition model_not_found (p : static_str) (model : string) := ModelNotFound p model.
Definition invalid_request (p : static_str) (m : string) := InvalidRequest p m.
Definition network (p : static_str) (m : string) := Network p m.
Definition provider_unavailable (p : static_str) (m : string) := ProviderUnavailable p m.
Definition not_supported (p : static_str) (f : string) := NotSupported p f.
Definition not_implemented (p : static_str) (f : string) := NotImplemented p f.
Definition configuration (p : static_str) (m : string) := Configuration p m.
Definition serialization (p : static_str) (m : string) := Serialization p m.
Definition timeout (p : static_str) (m : string) := Timeout p m.
Definition initialization (p : static_str) (m : string) :=
  Network p ("Initialization failed: " +:+ m).
Definition context_length_exceeded (p : static_str) (max actual : Z) :=
  ContextLengthExceeded p max actual.

(** [api_error] never propagates the token: the text decides, and the
    literal replaces it. *)
Definition api_error (p : static_str) (status : Z) (m : string) : ProviderError :=
  let p := if String.eqb (str_text p) "bedrock" then Lit "bedrock" else p in
  ApiError p status m.

Definition bedrock_modeled_retry_error (m : string) : ProviderError :=
  ApiError bedrock_modeled_retry_provider 424 m.

Definition is_bedrock_modeled_retry_error (e : ProviderError) : bool :=
  match e with
  | ApiError p status _ => (status =? 424) && ptr_eq_token p
  | _ => false
  end.

Definition token_limit_exceeded (p : static_str) (m : string) := TokenLimitExceeded p m.
Definition feature_disabled (p : static_str) (f : string) := FeatureDisabled p f.
Definition deployment_error (deployment m : string) :=
  DeploymentError (Lit "azure") deployment m.
Definition response_parsing (p : static_str) (m : string) := ResponseParsing p m.
Definition routing_error (p : static_str) (attempted : list string) (m : string) :=
  RoutingError p attempted m.
Definition transformation_error (p : static_str) (from_format to_format m : string) :=
  TransformationError p from_format to_format m.
Definition content_filtered (p : static_str) (reason : string)
    (violations : option (list string)) (potentially_retryable : option bool) :=
  ContentFiltered p reason violations potentially_retryable.
Definition cancelled (p : static_str) (op : string) (reason : option string) :=
  Cancelled p op reason.
Definition streaming_error (p : static_str) (stream_type : string) (position : option Z)
    (last_chunk : option string) (m : string) :=
  Streaming p stream_type position last_chunk m.
Definition other (p : static_str) (m : string) := Other p m.

(** [redacted()]; what [redact_sensitive_text] removes is not modelled: it works
    with regular expressions. *)
Definition redacted (redact_sensitive_text : string -> string) (e : ProviderError)
    : ProviderError :=
  let r := redact_sensitive_text in
  match e with
  | Authentication p m => Authentication p (r m)
  | QuotaExceeded p m => QuotaExceeded p (r m)
  | InvalidRequest p m => InvalidRequest p (r m)
  | Network p m => Network p (r m)
  | ProviderUnavailable p m => ProviderUnavailable p (r m)
  | Configuration p m => Configuration p (r m)
  | Serialization p m => Serialization p (r m)
  | Timeout p m => Timeout p (r m)
  | ApiError p status m => ApiError p status (r m)
  | TokenLimitExceeded p m => TokenLimitExceeded p (r m)
  | ResponseParsing p m => ResponseParsing p (r m)
  | Other p m => Other p (r m)
  | RateLimit p m ra rpm tpm u => RateLimit p (r m) ra rpm tpm u
  | ContentFiltered p reason violations retryable =>
      ContentFiltered p (r reason) (map r <$> violations) retryable
  | DeploymentError p d m => DeploymentError p d (r m)
  | RoutingError p attempted m => RoutingError p attempted (r m)
  | TransformationError p from to m => TransformationError p from to (r m)
  | Cancelled p op reason => Cancelled p op (r <$> reason)
  | Streaming p t pos last m => Streaming p t pos (r <$> last) (r m)
  | ModelNotFound p model => ModelNotFound p (r model)
  | NotSupported p f => NotSupported p (r f)
  | NotImplemented p f => NotImplemented p (r f)
  | FeatureDisabled p f => FeatureDisabled p (r f)
  | ContextLengthExceeded p max actual => ContextLengthExceeded p max actual
  end.

(** [provider()]: an [ApiError] that carries the token answers the literal. *)
Definition provider_of (e : ProviderError) : static_str :=
  match e with
  | Authentication p _ | RateLimit p _ _ _ _ _ | QuotaExceeded p _ | ModelNotFound p _
  | InvalidRequest p _ | Network p _ | ProviderUnavailable p _ | NotSupported p _
  | NotImplemented p _ | Configuration p _ | Serialization p _ | Timeout p _
  | ContextLengthExceeded p _ _ | ContentFiltered p _ _ _ | TokenLimitExceeded p _
  | FeatureDisabled p _ | DeploymentError p _ _ | ResponseParsing p _
  | RoutingError p _ _ | TransformationError p _ _ _ | Cancelled p _ _
  | Streaming p _ _ _ _ | Other p _ => p
  | ApiError p _ _ => if ptr_eq_token p then Lit "bedrock" else p
  end.

(** * Canonical classification *)

Inductive ErrorCode :=
| CAuthentication | CAuthorization | CRateLimited | CQuotaExceeded | CInvalidRequest
| CNotFound | CConflict | CTimeout | CUnavailable | CNetwork | CConfiguration | CParsing
| CNotImplemented | CInternal.

#[export] Instance error_code_eq_dec : EqDecision ErrorCode.
Proof. solve_decision. Defined.

Definition error_code_as_str (c : ErrorCode) : string :=
  match c with
  | CAuthentication => "AUTHENTICATION"
  | CAuthorization => "AUTHORIZATION"
  | CRateLimited => "RATE_LIMITED"
  | CQuotaExceeded => "QUOTA_EXCEEDED"
  | CInvalidRequest => "INVALID_REQUEST"
  | CNotFound => "NOT_FOUND"
  | CConflict => "CONFLICT"
  | CTimeout => "TIMEOUT"
  | CUnavailable => "UNAVAILABLE"
  | CNetwork => "NETWORK"
  | CConfiguration => "CONFIGURATION"
  | CParsing => "PARSING"
  | CNotImplemented => "NOT_IMPLEMENTED"
  | CInternal => "INTERNAL"
  end.

Definition error_code_is_retryable (c : ErrorCode) : bool :=
  match c with
  | CRateLimited | CTimeout | CUnavailable | CNetwork => true
  | _ => false
  end.

(** A closed integer range of a [match] pattern, [lo..=hi]. *)
Definition in_range (lo hi x : Z) : bool := (lo <=? x) && (x <=? hi).

(** The arms of [ApiError] in [canonical_code], in the source's order. *)
Definition api_status_code (status : Z) : ErrorCode :=
  if status =? 401 then CAuthentication
  else if status =? 403 then CAuthorization
  else if status =? 404 then CNotFound
  else if (status =? 408) || (status =? 504) then CTimeout
  else if status =? 409 then CConflict
  else if status =? 429 then CRateLimited
  else if in_range 400 499 status then CInvalidRequest
  else if in_range 500 599 status then CUnavailable
  else CInternal.

Definition canonical_code (e : ProviderError) : ErrorCode :=
  match e with
  | Authentication _ _ => CAuthentication
  | RateLimit _ _ _ _ _ _ => CRateLimited
  | QuotaExceeded _ _ => CQuotaExceeded
  | ModelNotFound _ _ | DeploymentError _ _ _ => CNotFound
  | InvalidRequest _ _ | ContextLengthExceeded _ _ _ | ContentFiltered _ _ _ _
  | TokenLimitExceeded _ _ | Cancelled _ _ _ => CInvalidRequest
  | Network _ _ => CNetwork
  | ProviderUnavailable _ _ | RoutingError _ _ _ => CUnavailable
  | NotSupported _ _ | NotImplemented _ _ | FeatureDisabled _ _ => CNotImplemented
  | Configuration _ _ => CConfiguration
  | Serialization _ _ | ResponseParsing _ _ | TransformationError _ _ _ _ => CParsing
  | Timeout _ _ => CTimeout
  | ApiError _ status _ => api_status_code status
  | Streaming _ _ _ _ _ | Other _ _ => CInternal
  end.

(** * HTTP facts *)

Record ProviderHttpErrorHeaders := mkHeaders {
  h_retry_after : option Z;
  h_rpm_limit : option Z;
  h_tpm_limit : option Z;
}.

Record ProviderHttpErrorFacts := mkFacts {
  status_code : Z;
  gateway_code : string;
  openai_error_type : string;
  openai_code : string;
  headers : ProviderHttpErrorHeaders;
}.

Definition facts (status : Z) (gateway type code : string) : ProviderHttpErrorFacts :=
  mkFacts status gateway type code (mkHeaders None None None).

Definition with_headers (f : ProviderHttpErrorFacts) (h : ProviderHttpErrorHeaders) :=
  mkFacts (status_code f) (gateway_code f) (openai_error_type f) (openai_code f) h.

Definition valid_status_or_bad_gateway (status : Z) : Z :=
  if in_range 400 599 status then status else 502.

Definition provider_api_error_facts (status : Z) : ProviderHttpErrorFacts :=
  let status := valid_status_or_bad_gateway status in
  let api := facts status "PROVIDER_API_ERROR" in
  if status =? 400 then api "invalid_request_error" "invalid_request"
  else if status =? 401 then api "authentication_error" "authentication_error"
  else if status =? 403 then api "permission_error" "permission_denied"
  else if status =? 404 then api "invalid_request_error" "not_found"
  else if status =? 408 then api "server_error" "timeout"
  else if status =? 409 then api "invalid_request_error" "conflict"
  else if status =? 429 then api "rate_limit_error" "rate_limit_exceeded"
  else if in_range 500 599 status then api "server_error" "provider_api_error"
  else api "server_error" "provider_api_error".

Definition is_model_not_priced_message (m : string) : bool :=
  String.prefix "model_not_priced:" m.

Definition provider_http_error_facts (e : ProviderError) : ProviderHttpErrorFacts :=
  match e with
  | Authentication _ _ =>
      facts 401 "PROVIDER_AUTH_ERROR" "authentication_error" "authentication_error"
  | RateLimit _ _ retry_after rpm tpm _ =>
      with_headers
        (facts 429 "PROVIDER_RATE_LIMIT" "rate_limit_error" "rate_limit_exceeded")
        (mkHeaders retry_after rpm tpm)
  | QuotaExceeded _ _ =>
      facts 402 "PROVIDER_QUOTA_EXCEEDED" "insufficient_quota" "insufficient_quota"
  | ModelNotFound _ _ =>
      facts 404 "MODEL_NOT_FOUND" "invalid_request_error" "model_not_found"
  | InvalidRequest _ message =>
      if is_model_not_priced_message message
      then facts 400 "INVALID_REQUEST" "invalid_request_error" "model_not_priced"
      else facts 400 "INVALID_REQUEST" "invalid_request_error" "invalid_request"
  | Network _ _ =>
      facts 502 "PROVIDER_NETWORK_ERROR" "server_error" "provider_network_error"
  | ProviderUnavailable _ _ =>
      facts 503 "PROVIDER_UNAVAILABLE" "server_error" "provider_unavailable"
  | NotSupported _ _ | NotImplemented _ _ | FeatureDisabled _ _ =>
      facts 501 "PROVIDER_NOT_IMPLEMENTED" "invalid_request_error" "not_supported"
  | Configuration _ _ | Serialization _ _ | TransformationError _ _ _ _ =>
      facts 500 "PROVIDER_INTERNAL_ERROR" "server_error" "internal_error"
  | Timeout _ _ => facts 504 "PROVIDER_TIMEOUT" "server_error" "timeout"
  | ContextLengthExceeded _ _ _ =>
      facts 400 "PROVIDER_REQUEST_ERROR" "invalid_request_error" "context_length_exceeded"
  | ContentFiltered _ _ _ _ =>
      facts 400 "PROVIDER_REQUEST_ERROR" "invalid_request_error" "content_filter"
  | ApiError _ status _ => provider_api_error_facts status
  | TokenLimitExceeded _ _ =>
      facts 400 "PROVIDER_REQUEST_ERROR" "invalid_request_error" "token_limit_exceeded"
  | DeploymentError _ _ _ =>
      facts 404 "DEPLOYMENT_NOT_FOUND" "invalid_request_error" "deployment_not_found"
  | ResponseParsing _ _ | Streaming _ _ _ _ _ =>
      facts 502 "PROVIDER_RESPONSE_ERROR" "server_error" "provider_response_error"
  | RoutingError _ _ _ =>
      facts 503 "PROVIDER_ROUTING_ERROR" "server_error" "provider_routing_error"
  | Cancelled _ _ _ => facts 499 "PROVIDER_CANCELLED" "server_error" "cancelled"
  | Other _ _ => facts 502 "PROVIDER_ERROR" "server_error" "provider_error"
  end.

Definition http_status (e : ProviderError) : Z := status_code (provider_http_error_facts e).

Definition extended_http_error_mapper (p : static_str) (status : Z) (body : string)
    : ProviderError :=
  if status =? 400 then invalid_request p body
  else if status =? 401 then authentication p body
  else if status =? 403 then api_error p status body
  else if status =? 402 then quota_exceeded p body
  else if status =? 404 then model_not_found p body
  else if (status =? 408) || (status =? 504) then timeout p body
  else if status =? 413 then context_length_exceeded p 0 0
  else if status =? 429 then rate_limit p None
  else if status =? 500 then api_error p status body
  else if (status =? 502) || (status =? 503) then provider_unavailable p body
  else api_error p status body.

(** * Failure facts *)

Record ProviderFailureFacts := mkFailure {
  ff_provider : static_str;
  ff_canonical_code : ErrorCode;
  ff_http : ProviderHttpErrorFacts;
  ff_upstream_status : option Z;
  ff_retry_after : option Z;              (* retry_hint.retry_after *)
  ff_content_filter_retryable : bool;
  ff_retry_candidate : bool;
  ff_pre_output_only : bool;
  ff_streaming_failure : bool;
  ff_cancelled : bool;
  ff_modeled_bedrock_retry : bool;
  ff_legacy_retryable : bool;
  ff_legacy_retry_delay : option Z;
}.

Definition failure_facts (e : ProviderError) : ProviderFailureFacts :=
  let mk := mkFailure (provider_of e) (canonical_code e) (provider_http_error_facts e) in
  match e with
  | RateLimit _ _ retry_after _ _ _ =>
      let hint := from_secs <$> retry_after in
      mk None hint false true false false false false true hint
  | Network _ _ | Timeout _ _ =>
      mk None None false true false false false false true (Some (from_secs 1))
  | ProviderUnavailable _ _ =>
      mk None None false true false false false false true (Some (from_secs 5))
  | ContentFiltered _ _ _ potentially_retryable =>
      let retryable := default false potentially_retryable in
      mk None None retryable retryable true false false false retryable
        (if retryable then Some (from_secs 10) else None)
  | ApiError _ status _ =>
      let modeled := is_bedrock_modeled_retry_error e in
      mk (Some status) None false
        (modeled || ((status =? 408) || (status =? 429) || in_range 500 599 status))
        false false false modeled
        (modeled || (status =? 429) || in_range 500 599 status)
        (if (status =? 424) && modeled then Some (from_secs 3)
         else if status =? 429 then Some (from_secs 60)
         else if in_range 500 599 status then Some (from_secs 3)
         else None)
  | DeploymentError _ _ _ =>
      mk None None false true true false false false true (Some (from_secs 5))
  | Cancelled _ _ _ =>
      mk None None false false false false true false false None
  | Streaming _ _ _ _ _ =>
      mk None None false true true true false false true (Some (from_secs 2))
  | _ => mk None None false false false false false false false None
  end.

Definition canonical_retryable (e : ProviderError) : bool :=
  ff_legacy_retryable (failure_facts e).

(** [retry_delay]: whole seconds. *)
Definition retry_delay (e : ProviderError) : option Z :=
  as_secs <$> ff_legacy_retry_delay (failure_facts e).

(** * Lemmas *)

Lemma in_range_spec (lo hi x : Z) : in_range lo hi x = true <-> lo <= x <= hi.
Proof. unfold in_range. rewrite andb_true_iff, !Z.leb_le. reflexivity. Qed.

Lemma valid_status_range (s : Z) : 400 <= valid_status_or_bad_gateway s <= 599.
Proof.
  unfold valid_status_or_bad_gateway. destruct (in_range 400 599 s) eqn:E; [|lia].
  by apply in_range_spec.
Qed.

Lemma provider_api_error_facts_status (s : Z) :
  status_code (provider_api_error_facts s) = valid_status_or_bad_gateway s.
Proof. unfold provider_api_error_facts. repeat case_match; reflexivity. Qed.

Lemma api_error_not_modeled (p : static_str) (s : Z) (m : string) :
  is_bedrock_modeled_retry_error (api_error p s m) = false.
Proof.
  unfold api_error; simpl. destruct p; simpl; [|by rewrite andb_false_r].
  case_match; simpl; by rewrite andb_false_r.
Qed.

(** * Properties *)

(** Whatever a provider call fails with - any upstream status included -
    the HTTP status the gateway answers is a client or server error
    (400..=599), and an [ApiError] keeps its status exactly when it is in that
    range (502 otherwise). *)
Theorem http_status_is_error (e : ProviderError) :
  400 <= http_status e <= 599 /\
  (forall p s m, e = ApiError p s m ->
     (http_status e = s <-> 400 <= s <= 599) /\ (~ 400 <= s <= 599 -> http_status e = 502)).
Proof.
  split.
  - unfold http_status. destruct e; simpl; try (case_match; simpl); try lia.
    rewrite provider_api_error_facts_status. apply valid_status_range.
  - intros p s m ->. unfold http_status; simpl. rewrite provider_api_error_facts_status.
    unfold valid_status_or_bad_gateway. destruct (in_range 400 599 s) eqn:E.
    + apply in_range_spec in E. split; [tauto|lia].
    + assert (~ 400 <= s <= 599) by (rewrite <- in_range_spec; congruence). lia.
Qed.

(** The Bedrock retry provenance can only come from the structured-error
    constructor: the public [api_error] never produces it for any provider
    string (the token itself included), while [bedrock_modeled_retry_error]
    does, and [provider()] of an API error never leaks the token. *)
Theorem bedrock_provenance (p : static_str) (s : Z) (m : string) :
  is_bedrock_modeled_retry_error (api_error p s m) = false /\
  is_bedrock_modeled_retry_error (bedrock_modeled_retry_error m) = true /\
  provider_of (ApiError p s m) <> BedrockToken /\
  str_text (provider_of (ApiError p s m)) = str_text p /\
  canonical_retryable (api_error p 424 m) = false /\
  canonical_retryable (bedrock_modeled_retry_error m) = true.
Proof.
  split_and!; try reflexivity.
  - apply api_error_not_modeled.
  - destruct p; simpl; congruence.
  - destruct p; reflexivity.
  - unfold canonical_retryable, api_error; simpl.
    destruct p; simpl; [case_match|]; reflexivity.
Qed.

(** The routing view and the serialized view of retryability agree on every
    error except an upstream 408, which routing retries and the serialized
    view calls final; and a retry delay is only suggested for errors that are
    serialized as retryable. *)
Theorem retry_views_agree (e : ProviderError) :
  (ff_retry_candidate (failure_facts e) <> canonical_retryable e <->
     exists p m, e = ApiError p 408 m) /\
  (is_Some (retry_delay e) -> canonical_retryable e = true).
Proof.
  unfold canonical_retryable, retry_delay.
  destruct e; simpl;
    try (split; [split; [congruence | intros (? & ? & ?); congruence] | by intros [? ?]]).
  - split; [split; [congruence | intros (? & ? & ?); congruence] |].
    destruct (default false potentially_retryable); [done | by intros [? ?]].
  - set (md := (status =? 424) && ptr_eq_token provider).
    split.
    + split.
      * intros Hne. exists provider, message. f_equal.
        destruct md; [done|]. destruct (Z.eqb_spec status 408); [done|].
        by destruct (status =? 429), (in_range 500 599 status).
      * intros (p & m & [= -> -> ->]). unfold md; simpl. discriminate.
    + destruct md, (status =? 429), (in_range 500 599 status); simpl; try done.
      rewrite andb_false_r. by intros [? ?].
Qed.
