(* ===== verification/RouterTypes.v ===== *)
(** The router's configuration, error and result types
    ([core/router/config.rs], [error.rs], [fallback.rs], the static half of
    [deployment.rs]). *)

From S2P Require Import Prelude ProviderErrors.
From Stdlib Require Import Floats.SpecFloat.

(** * Configuration *)

Inductive RoutingStrategy :=
| SimpleShuffle | LeastBusy | UsageBased | LatencyBased | PriorityBased
| RateLimitAware | RoundRobin.

Record RouterConfig := mkRouterConfig {
  routing_strategy : RoutingStrategy;
  num_retries : Z;            (* u32 *)
  retry_after_secs : Z;       (* u64 *)
  allowed_fails : Z;          (* u32 *)
  min_requests : Z;           (* u32 *)
  cooldown_time_secs : Z;     (* u64 *)
  success_threshold : Z;      (* u32 *)
  router_timeout_secs : Z;    (* u64 *)
  max_fallbacks : Z;          (* u32 *)
  enable_pre_call_checks : bool;
}.

Definition RouterConfig_default : RouterConfig :=
  mkRouterConfig SimpleShuffle 3 0 3 10 5 3 60 5 true.

(** Static deployment configuration.  The health-probe policy only concerns
    the probe scheduler and is not modelled. *)
Record RetrySchedule := mkSchedule {
  base_delay_ms : Z;                (* u64 *)
  max_delay_ms : Z;                 (* u64 *)
  backoff_multiplier : spec_float;  (* f64 *)
  jitter_ratio : spec_float;        (* f64 *)
}.

Record DeploymentConfig := mkDeploymentConfig {
  tpm_limit : option Z;             (* u64 *)
  rpm_limit : option Z;             (* u64 *)
  max_parallel_requests : option Z; (* u32 *)
  weight : Z;                       (* u32 *)
  timeout_secs : Z;                 (* u64 *)
  priority : Z;                     (* u32 *)
  retry_schedule : option RetrySchedule;
}.

Definition DeploymentConfig_default : DeploymentConfig :=
  mkDeploymentConfig None None None 1 60 0 None.

(** * Errors *)

Inductive CooldownReason :=
| ReasonRateLimit | ReasonAuthError | ReasonNotFound | ReasonTimeout
| ReasonConsecutiveFailures | ReasonHighFailureRate | ReasonManual.

#[export] Instance cooldown_reason_eq_dec : EqDecision CooldownReason.
Proof. solve_decision. Defined.

Inductive RouterError :=
| InvalidConfiguration (message : string)
| RModelNotFound (model : string)
| NoAvailableDeployment (model : string)
| UnsupportedCapability (model capability : string)
| DeploymentNotFound (id : string)
| AllDeploymentsInCooldown (model : string)
| RateLimitExceeded (model : string)
| AliasCycle (description : string)
| FallbackCycle (description : string).

#[export] Instance router_error_eq_dec : EqDecision RouterError.
Proof. solve_decision. Defined.

(** * Fallbacks and results *)

Inductive FallbackType := FGeneral | FContextWindow | FContentPolicy | FRateLimit.

#[export] Instance fallback_type_eq_dec : EqDecision FallbackType.
Proof. solve_decision. Defined.

Abbreviation DeploymentId := string.

Record ExecutionResult (T : Type) := mkExecutionResult {
  exec_result : T;
  exec_deployment_id : DeploymentId;
  exec_attempts : Z;          (* u32 *)
  exec_model_used : string;
  exec_used_fallback : bool;
  exec_latency_us : Z;        (* u64 *)
}.
Arguments mkExecutionResult {T}.
Arguments exec_result {T}. Arguments exec_deployment_id {T}. Arguments exec_attempts {T}.
Arguments exec_model_used {T}. Arguments exec_used_fallback {T}. Arguments exec_latency_us {T}.

Definition build_execution_result {T} (result : T) (deployment_id : DeploymentId)
    (attempts : Z) (model_used : string) (used_fallback : bool) (latency_us : Z)
    : ExecutionResult T :=
  mkExecutionResult result deployment_id attempts model_used used_fallback latency_us.

(** * Error conversions ([execution.rs]) *)

Inductive BudgetRetryScope := ScopeProvider | ScopeModel.

(** The patterns [provider: "budget"] compare texts. *)
Definition retryable_budget_scope (e : ProviderError) : option BudgetRetryScope :=
  match e with
  | QuotaExceeded p message =>
      if String.eqb (str_text p) "budget" && String.prefix "provider " message
      then Some ScopeProvider
      else if String.eqb (str_text p) "budget" && String.prefix "model " message
      then Some ScopeModel
      else None
  | _ => None
  end.

Definition infer_fallback_type (e : ProviderError) : FallbackType :=
  match e with
  | ContextLengthExceeded _ _ _ => FContextWindow
  | ContentFiltered _ _ _ _ => FContentPolicy
  | RateLimit _ _ _ _ _ _ => FRateLimit
  | _ => FGeneral
  end.

Definition infer_cooldown_reason (e : ProviderError) : CooldownReason :=
  match e with
  | RateLimit _ _ _ _ _ _ => ReasonRateLimit
  | Authentication _ _ => ReasonAuthError
  | ModelNotFound _ _ | DeploymentError _ _ _ => ReasonNotFound
  | Timeout _ _ => ReasonTimeout
  | ApiError _ status _ =>
      if (status =? 401) || (status =? 403) then ReasonAuthError
      else if status =? 404 then ReasonNotFound
      else if status =? 408 then ReasonTimeout
      else if status =? 429 then ReasonRateLimit
      else ReasonConsecutiveFailures
  | _ => ReasonConsecutiveFailures
  end.

Definition router_error_to_provider_error (e : RouterError) : ProviderError :=
  let router := Lit "router" in
  match e with
  | InvalidConfiguration msg => Configuration router msg
  | RModelNotFound msg => model_not_found router msg
  | NoAvailableDeployment msg =>
      ProviderUnavailable router ("No available deployment: " +:+ msg)
  | UnsupportedCapability model capability =>
      invalid_request router
        ("Model '" +:+ model +:+ "' does not support capability " +:+ capability)
  | AllDeploymentsInCooldown msg =>
      ProviderUnavailable router ("All deployments in cooldown: " +:+ msg)
  | DeploymentNotFound msg => DeploymentError router msg "Deployment not found"
  | RateLimitExceeded _ => rate_limit router (Some 60)
  | AliasCycle msg => Other router ("Circular alias detected: " +:+ msg)
  | FallbackCycle msg => Other router ("Circular fallback chain detected: " +:+ msg)
  end.

(** [Display] of a provider error, derived by [thiserror] from the [#[error]]
    formats.  [debug_str] is the standard library's quoted, escaped form of a
    string, which only [RoutingError] uses. *)
Section Display.
Variable debug_str : string -> string.

Fixpoint join_debug (l : list string) : string :=
  match l with
  | [] => ""
  | [x] => debug_str x
  | x :: l => debug_str x +:+ ", " +:+ join_debug l
  end.

Definition debug_strings (l : list string) : string := "[" +:+ join_debug l +:+ "]".

Definition debug_option_u64 (o : option Z) : string :=
  match o with Some n => "Some(" +:+ show n +:+ ")" | None => "None" end.

Definition provider_error_display (e : ProviderError) : string :=
  match e with
  | Authentication p m => "Authentication failed for " +:+ str_text p +:+ ": " +:+ m
  | RateLimit p m _ _ _ _ => "Rate limit exceeded for " +:+ str_text p +:+ ": " +:+ m
  | QuotaExceeded p m => "Quota exceeded for " +:+ str_text p +:+ ": " +:+ m
  | ModelNotFound p model => "Model '" +:+ model +:+ "' not found for " +:+ str_text p
  | InvalidRequest p m => "Invalid request for " +:+ str_text p +:+ ": " +:+ m
  | Network p m => "Network error for " +:+ str_text p +:+ ": " +:+ m
  | ProviderUnavailable p m => "Provider " +:+ str_text p +:+ " is unavailable: " +:+ m
  | NotSupported p f => "Feature '" +:+ f +:+ "' not supported by " +:+ str_text p
  | NotImplemented p f => "Feature '" +:+ f +:+ "' not implemented for " +:+ str_text p
  | Configuration p m => "Configuration error for " +:+ str_text p +:+ ": " +:+ m
  | Serialization p m => "Serialization error for " +:+ str_text p +:+ ": " +:+ m
  | Timeout p m => "Timeout for " +:+ str_text p +:+ ": " +:+ m
  | ContextLengthExceeded p max actual =>
      "Context length exceeded for " +:+ str_text p +:+ ": max " +:+ show max
      +:+ " tokens, got " +:+ show actual +:+ " tokens"
  | ContentFiltered p reason _ _ =>
      "Content filtered by " +:+ str_text p +:+ " safety systems: " +:+ reason
  | ApiError p status m =>
      "API error for " +:+ str_text p +:+ " (status " +:+ show status +:+ "): " +:+ m
  | TokenLimitExceeded p m => "Token limit exceeded for " +:+ str_text p +:+ ": " +:+ m
  | FeatureDisabled p f => "Feature disabled for " +:+ str_text p +:+ ": " +:+ f
  | DeploymentError _ d m => "Azure deployment error for " +:+ d +:+ ": " +:+ m
  | ResponseParsing p m => "Failed to parse " +:+ str_text p +:+ " response: " +:+ m
  | RoutingError p attempted m =>
      "Routing error from " +:+ str_text p +:+ ": tried " +:+ debug_strings attempted
      +:+ ", final error: " +:+ m
  | TransformationError p from to m =>
      "Transformation error for " +:+ str_text p +:+ ": from " +:+ from
      +:+ " to " +:+ to +:+ ": " +:+ m
  | Cancelled p op _ => "Operation cancelled for " +:+ str_text p +:+ ": " +:+ op
  | Streaming p stream_type position _ _ =>
      "Streaming error for " +:+ str_text p +:+ ": " +:+ stream_type
      +:+ " at position " +:+ debug_option_u64 position
  | Other p m => str_text p +:+ " error: " +:+ m
  end.

Definition provider_error_to_router_error (e : ProviderError) (model_name : string)
    : RouterError :=
  match e with
  | ModelNotFound _ model => RModelNotFound model
  | RateLimit _ _ _ _ _ _ => RateLimitExceeded model_name
  | _ => NoAvailableDeployment (model_name +:+ ": " +:+ provider_error_display e)
  end.
End Display.
