(* ===== verification/RetryPolicy.v ===== *)
(** Retry policy ([core/router/retry_policy.rs]) and the delay computations it
    uses ([core/router/execution.rs]). *)

From S2P Require Import Prelude Float64 ProviderErrors RouterTypes.
From Stdlib Require Import Floats.SpecFloat.

(** * Context and decision *)

Inductive RetryOperation := Unary | StreamingOp.
Inductive StreamRetryStage := NotStreaming | BeforeFirstChunk | AfterChunksEmitted.
Inductive RequestIdempotency := Idempotent | NonIdempotent.

#[export] Instance retry_operation_eq_dec : EqDecision RetryOperation.
Proof. solve_decision. Defined.
#[export] Instance stream_stage_eq_dec : EqDecision StreamRetryStage.
Proof. solve_decision. Defined.
#[export] Instance idempotency_eq_dec : EqDecision RequestIdempotency.
Proof. solve_decision. Defined.

Record RetryContext := mkRetryContext {
  operation : RetryOperation;
  stream_stage : StreamRetryStage;
  idempotency : RequestIdempotency;
  attempt : Z;                     (* u32 *)
  max_attempts : Z;                (* u32 *)
  retry_budget_remaining : Z;      (* u32 *)
  deadline_remaining : option Z;   (* Duration *)
}.

Definition RetryContext_new (op : RetryOperation) (stage : StreamRetryStage)
    (idem : RequestIdempotency) (attempt max_attempts : Z) : RetryContext :=
  mkRetryContext op stage idem attempt max_attempts (sat_sub max_attempts attempt) None.

Definition unary := RetryContext_new Unary NotStreaming Idempotent.
Definition unary_non_idempotent := RetryContext_new Unary NotStreaming NonIdempotent.
Definition stream_pre_output := RetryContext_new StreamingOp BeforeFirstChunk Idempotent.
Definition stream_after_chunks :=
  RetryContext_new StreamingOp AfterChunksEmitted NonIdempotent.

Definition with_deadline_remaining (c : RetryContext) (d : Z) : RetryContext :=
  mkRetryContext (operation c) (stream_stage c) (idempotency c) (attempt c)
    (max_attempts c) (retry_budget_remaining c) (Some d).

Inductive RetryDecisionReason :=
| RetryableFailure | AttemptsExhausted | RetryBudgetExhausted | NonIdempotentRequest
| StreamAlreadyEmitted | DeadlineWouldExpire | NonRetryableFailure.

Record RetryDecision := mkDecision {
  should_retry : bool;
  delay : option Z;
  reason : RetryDecisionReason;
}.

Definition retry (d : Z) : RetryDecision := mkDecision true (Some d) RetryableFailure.
Definition stop (r : RetryDecisionReason) : RetryDecision := mkDecision false None r.

Definition failure_is_retryable (f : ProviderFailureFacts) (c : RetryContext) : bool :=
  if ff_cancelled f then false
  else if ff_streaming_failure f
  then bool_decide (operation c = StreamingOp)
       && bool_decide (stream_stage c = BeforeFirstChunk)
  else ff_retry_candidate f.

(** The closure [fallback_delay] is only called when the error carries no
    [retry_after] hint; it is pure but for its random sample. *)
Definition decide_with_fallback_delay (e : ProviderError) (c : RetryContext)
    (fallback_delay : unit -> Z) : RetryDecision :=
  let f := failure_facts e in
  if max_attempts c <=? attempt c then stop AttemptsExhausted
  else if retry_budget_remaining c =? 0 then stop RetryBudgetExhausted
  else if bool_decide (stream_stage c = AfterChunksEmitted) then stop StreamAlreadyEmitted
  else if bool_decide (idempotency c = NonIdempotent) then stop NonIdempotentRequest
  else if negb (failure_is_retryable f c) then stop NonRetryableFailure
  else
    let d := match ff_retry_after f with Some d => d | None => fallback_delay tt end in
    match deadline_remaining c with
    | Some remaining => if remaining <? d then stop DeadlineWouldExpire else retry d
    | None => retry d
    end.

(** * Delays *)

(** [2_u64.pow] wraps in the release profile. *)
Definition calculate_retry_delay (config : RouterConfig) (attempt : Z) : Z :=
  let base := Z.max (retry_after_secs config) 1 in
  let d := wrap_u64 (base * wrap_u64 (2 ^ (sat_sub attempt 1))) in
  from_secs (Z.min d 30).

Definition decide (config : RouterConfig) (e : ProviderError) (c : RetryContext)
    : RetryDecision :=
  decide_with_fallback_delay e c (fun _ => calculate_retry_delay config (attempt c)).

Section Schedule.
(** [f64::powf] is the platform's [libm] function, whose result the standard
    library does not specify to the last bit. *)
Variable powf : spec_float -> spec_float -> spec_float.

Definition calculate_retry_delay_for_schedule_with_sample (schedule : RetrySchedule)
    (attempt : Z) (jitter_sample : spec_float) : Z :=
  let jitter_multiplier :=
    f64_add (f64_of_Z 1)
      (f64_mul (jitter_ratio schedule)
         (f64_clamp (f64_of_Z (-1)) (f64_of_Z 1) jitter_sample)) in
  if SFleb jitter_multiplier f64_zero then 0
  else
    let exponent := f64_of_Z (sat_sub attempt 1) in
    let base_delay :=
      f64_mul (f64_of_Z (base_delay_ms schedule))
        (powf (backoff_multiplier schedule) exponent) in
    let delay_ms := f64_mul base_delay jitter_multiplier in
    let max_delay := from_millis (max_delay_ms schedule) in
    if negb (f64_is_finite delay_ms) || SFleb (f64_of_Z (max_delay_ms schedule)) delay_ms
    then max_delay
    else if SFleb delay_ms f64_zero then 0
    else Z.min (duration_from_secs_f64 (f64_div delay_ms (f64_of_Z 1000))) max_delay.

(** [sample] is the draw [random_range(-1.0..=1.0)]. *)
Definition calculate_retry_delay_for_schedule (schedule : RetrySchedule) (attempt : Z)
    (sample : spec_float) : Z :=
  let jitter_sample :=
    if SFeqb (jitter_ratio schedule) f64_zero then f64_zero else sample in
  calculate_retry_delay_for_schedule_with_sample schedule attempt jitter_sample.

Definition decide_for_deployment (config : RouterConfig) (dc : DeploymentConfig)
    (e : ProviderError) (c : RetryContext) (sample : spec_float) : RetryDecision :=
  decide_with_fallback_delay e c (fun _ =>
    match retry_schedule dc with
    | Some schedule => calculate_retry_delay_for_schedule schedule (attempt c) sample
    | None => calculate_retry_delay config (attempt c)
    end).
End Schedule.

(** * Lemmas *)

(** The largest delay a decision can use. *)
Definition chosen_delay (e : ProviderError) (fallback : Z) : Z :=
  default fallback (ff_retry_after (failure_facts e)).

Lemma decide_retry_iff (e : ProviderError) (c : RetryContext) (fb : unit -> Z) (d : Z) :
  decide_with_fallback_delay e c fb = retry d <->
  attempt c < max_attempts c /\ retry_budget_remaining c <> 0 /\
  stream_stage c <> AfterChunksEmitted /\ idempotency c = Idempotent /\
  failure_is_retryable (failure_facts e) c = true /\
  d = chosen_delay e (fb tt) /\
  (forall remaining, deadline_remaining c = Some remaining -> d <= remaining).
Proof.
  unfold decide_with_fallback_delay, chosen_delay.
  assert (forall A (o : option A) x, match o with Some y => y | None => x end = default x o)
    as -> by (by intros ? []).
  destruct (Z.leb_spec (max_attempts c) (attempt c)); [split; [done|lia]|].
  destruct (Z.eqb_spec (retry_budget_remaining c) 0); [split; [done|tauto]|].
  case_bool_decide; [split; [done|tauto]|].
  destruct (idempotency c) eqn:Hi; case_bool_decide; try done; [|naive_solver].
  destruct (failure_is_retryable _ c) eqn:Hr; simpl; [|naive_solver].
  destruct (deadline_remaining c) as [rem|].
  - destruct (Z.ltb_spec rem (default (fb tt) (ff_retry_after (failure_facts e)))).
    + split; [done|]. intros (_ & _ & _ & _ & _ & -> & Hd). specialize (Hd rem eq_refl). lia.
    + split.
      * intros [= <-]. split_and!; try done. intros ? [= <-]. lia.
      * intros (_ & _ & _ & _ & _ & -> & _). done.
  - split.
    + intros [= <-]. by split_and!.
    + intros (_ & _ & _ & _ & _ & -> & _). done.
Qed.

(** [stop] and [retry] are the only decisions. *)
Lemma decide_cases (e : ProviderError) (c : RetryContext) (fb : unit -> Z) :
  (exists d, decide_with_fallback_delay e c fb = retry d) \/
  (exists r, decide_with_fallback_delay e c fb = stop r).
Proof. unfold decide_with_fallback_delay. repeat case_match; eauto. Qed.

Lemma pow_wrap_zero (n : Z) : 64 <= n -> wrap_u64 (2 ^ n) = 0.
Proof.
  intros. unfold wrap_u64. replace n with (64 + (n - 64)) by lia.
  rewrite Z.pow_add_r by lia. rewrite Z.mul_comm. apply Z.mod_mul. lia.
Qed.

Lemma calculate_retry_delay_exact_lemma (config : RouterConfig) (a : Z) :
  let base := Z.max (retry_after_secs config) 1 in
  1 <= a -> base * 2 ^ (a - 1) <= u64_max ->
  calculate_retry_delay config a = from_secs (Z.min (base * 2 ^ (a - 1)) 30).
Proof.
  intros base Ha Hb. unfold calculate_retry_delay, sat_sub. fold base.
  replace (Z.max 0 (a - 1)) with (a - 1) by lia.
  assert (1 <= base) by (unfold base; lia).
  assert (0 < 2 ^ (a - 1)) by lia.
  rewrite (wrap_u64_small (2 ^ (a - 1))) by (split; nia).
  rewrite wrap_u64_small by (split; nia). done.
Qed.

(** * Properties *)

(** The errors a fresh idempotent attempt retries, by constructor. *)
Definition retried_error (streaming : bool) (e : ProviderError) : bool :=
  match e with
  | RateLimit _ _ _ _ _ _ | Network _ _ | Timeout _ _ | ProviderUnavailable _ _
  | DeploymentError _ _ _ => true
  | ContentFiltered _ _ _ (Some true) => true
  | ApiError p s _ =>
      (s =? 408) || (s =? 429) || in_range 500 599 s || ((s =? 424) && ptr_eq_token p)
  | Streaming _ _ _ _ _ => streaming
  | _ => false
  end.

(** The retry decision.  A failed attempt is retried exactly when attempts and
    budget remain, no chunk was emitted, the request is idempotent, the failure
    is retryable in its context and the chosen delay - the upstream's
    retry-after, else the configured fallback - fits in the remaining
    deadline; that delay is then returned, and in every other case no delay. *)
Theorem retry_decision_spec (powf : spec_float -> spec_float -> spec_float)
    (config : RouterConfig) (dc : DeploymentConfig) (e : ProviderError)
    (c : RetryContext) (sample : spec_float) :
  let d := chosen_delay e
             match retry_schedule dc with
             | Some s => calculate_retry_delay_for_schedule powf s (attempt c) sample
             | None => calculate_retry_delay config (attempt c)
             end in
  let decision := decide_for_deployment powf config dc e c sample in
  (should_retry decision = true <->
     attempt c < max_attempts c /\ retry_budget_remaining c <> 0 /\
     stream_stage c <> AfterChunksEmitted /\ idempotency c = Idempotent /\
     failure_is_retryable (failure_facts e) c = true /\
     (forall remaining, deadline_remaining c = Some remaining -> d <= remaining)) /\
  delay decision = (if should_retry decision then Some d else None).
Proof.
  intros d decision. unfold decision, decide_for_deployment.
  match goal with |- context [decide_with_fallback_delay e c ?fb] => set (f := fb) end.
  pose proof (decide_retry_iff e c f d) as Hiff.
  destruct (decide_cases e c f) as [[d' Hd]|[r Hr]].
  - assert (d' = d) as -> by (apply decide_retry_iff in Hd; naive_solver).
    rewrite Hd in Hiff |- *. simpl. naive_solver.
  - rewrite Hr in Hiff |- *. simpl. split; [|done]. split; [done|].
    intros. exfalso. assert (stop r = retry d) by naive_solver. done.
Qed.

(** With the router's contexts - unary, streaming before the first chunk -
    the errors retried are exactly the listed ones (a streaming failure only
    in a stream), while attempts remain; a context made after chunks were
    emitted or for a non-idempotent request never retries. *)
Theorem retried_errors (config : RouterConfig) (e : ProviderError) (a m : Z) :
  should_retry (decide config e (unary a m)) = (a <? m) && retried_error false e /\
  should_retry (decide config e (stream_pre_output a m)) = (a <? m) && retried_error true e /\
  should_retry (decide config e (stream_after_chunks a m)) = false /\
  should_retry (decide config e (unary_non_idempotent a m)) = false.
Proof.
  assert (Hr : forall streaming,
    failure_is_retryable (failure_facts e)
      (if streaming : bool then stream_pre_output a m else unary a m)
    = retried_error streaming e).
  { intros []; destruct e; try reflexivity;
      try (by destruct potentially_retryable as [[]|]); unfold failure_is_retryable; simpl;
      (destruct ((status =? 424) && ptr_eq_token provider); simpl;
       [rewrite orb_true_r | rewrite orb_false_r]; done). }
  pose proof (Hr false) as Hu. pose proof (Hr true) as Hs. simpl in Hu, Hs.
  unfold decide, decide_with_fallback_delay. rewrite Hu, Hs. simpl. unfold sat_sub.
  destruct (Z.leb_spec m a); destruct (Z.ltb_spec a m); try lia; [done|].
  destruct (Z.eqb_spec (Z.max 0 (m - a)) 0); [lia|].
  by destruct (retried_error false e), (retried_error true e).
Qed.

(** The default backoff is [max(retry_after_secs,1) * 2^(attempt-1)] seconds
    capped at 30 as long as the product fits in 64 bits, never exceeds 30
    seconds at all, and is zero from attempt 65 on: the power wraps around, so
    a retry after that many attempts is immediate instead of capped. *)
Theorem retry_delay_backoff (config : RouterConfig) (a : Z) (Ha : 1 <= a) :
  let base := Z.max (retry_after_secs config) 1 in
  (base * 2 ^ (a - 1) <= u64_max ->
     calculate_retry_delay config a = from_secs (Z.min (base * 2 ^ (a - 1)) 30)) /\
  0 <= calculate_retry_delay config a <= from_secs 30 /\
  (65 <= a -> calculate_retry_delay config a = 0).
Proof.
  intros base. split_and!.
  - intros. by apply calculate_retry_delay_exact_lemma.
  - unfold calculate_retry_delay, from_secs.
    match goal with |- context [wrap_u64 (?b * ?p)] =>
      pose proof (wrap_u64_range (b * p)) as [? ?] end. lia.
  - unfold calculate_retry_delay, from_secs.
    match goal with |- context [wrap_u64 (?b * ?p)] =>
      pose proof (wrap_u64_range (b * p)) as [? ?] end. lia.
  - intros. unfold calculate_retry_delay, sat_sub.
    rewrite pow_wrap_zero by lia. by rewrite Z.mul_0_r.
Qed.

Lemma retry_delay_backoff_witness :
  calculate_retry_delay RouterConfig_default 3 = from_secs 4 /\
  calculate_retry_delay RouterConfig_default 65 = 0.
Proof.
  split.
  - apply (retry_delay_backoff RouterConfig_default 3); unfold u64_max; simpl; lia.
  - apply (retry_delay_backoff RouterConfig_default 65); lia.
Defined.

(** A deployment's own schedule never waits longer than its [max_delay_ms] nor
    a negative time, for every attempt, jitter sample and libm: overflow to
    infinity and NaN included. *)
Theorem schedule_delay_bounded (powf : spec_float -> spec_float -> spec_float)
    (s : RetrySchedule) (a : Z) (sample : spec_float) (Hmax : 0 <= max_delay_ms s) :
  0 <= calculate_retry_delay_for_schedule powf s a sample <= from_millis (max_delay_ms s).
Proof.
  unfold calculate_retry_delay_for_schedule, calculate_retry_delay_for_schedule_with_sample.
  assert (0 <= from_millis (max_delay_ms s)) by (unfold from_millis; lia).
  repeat case_match; try lia.
  all: match goal with |- context [duration_from_secs_f64 ?x] =>
    pose proof (duration_from_secs_f64_nonneg x) end; lia.
Qed.

Lemma schedule_delay_bounded_witness :
  let s := mkSchedule 100 2000 (f64_of_Z 2) f64_zero in
  0 <= calculate_retry_delay_for_schedule (fun x _ => x) s 2 f64_zero <= from_millis 2000.
Proof. apply (schedule_delay_bounded (fun x _ => x)). vm_compute. discriminate. Defined.

(** A concrete schedule: 100 ms doubled once is 200 ms. *)
Example schedule_example :
  calculate_retry_delay_for_schedule (fun x _ => x)
    (mkSchedule 100 2000 (f64_of_Z 2) f64_zero) 2 f64_zero = from_millis 200.
Proof. vm_compute. reflexivity. Qed.
