(* ===== verification/Deployment.v ===== *)
(** Deployment runtime state ([core/router/deployment.rs],
    [deployment/probe_state.rs]): the counters every handle of a deployment
    shares, the per-minute window, cooldown and health, and the operations that
    record request outcomes.

    A [DeploymentState] is a bundle of [Arc]s; cloning it, or carrying it to a
    new routing snapshot, clones the [Arc]s and never the counters.
    [SharedState] is what the [Arc]s point to - the counters, the minute
    generation, the token ledger, the circuit fence and the probe lifecycle -
    and each operation is a function on it.  A compare-and-swap loop is the
    atomic update its success performs; the clock is an argument.  The token
    reservations and their ledger are in [Ledger], the circuit breaker in
    [Circuit]. *)

From S2P Require Import Prelude ProviderErrors RouterTypes.

(** * Health *)

Inductive HealthStatus := Unknown | Healthy | Degraded | Unhealthy | Cooldown.

#[export] Instance health_status_eq_dec : EqDecision HealthStatus.
Proof. solve_decision. Defined.

(** [status as u8] and [From<u8>]. *)
Definition health_u8 (h : HealthStatus) : Z :=
  match h with
  | Unknown => 0 | Healthy => 1 | Degraded => 2 | Unhealthy => 3 | Cooldown => 4
  end.

Definition health_of_u8 (v : Z) : HealthStatus :=
  if v =? 1 then Healthy
  else if v =? 2 then Degraded
  else if v =? 3 then Unhealthy
  else if v =? 4 then Cooldown
  else Unknown.

(** * State *)

Record DeploymentStateInner := mkInner {
  health : Z;                       (* u8 *)
  probe_unhealthy : bool;
  tpm_current : Z;                  (* u64 *)
  rpm_current : Z;                  (* u64 *)
  active_requests : Z;              (* u32 *)
  total_requests : Z;               (* u64 *)
  success_requests : Z;             (* u64 *)
  fail_requests : Z;                (* u64 *)
  successes_this_minute : Z;        (* u64 *)
  fails_this_minute : Z;            (* u32 *)
  cooldown_until : Z;               (* u64 *)
  last_request_at : Z;              (* u64 *)
  avg_latency_us : Z;               (* u64 *)
  consecutive_successes : Z;        (* u32 *)
  minute_reset_at : Z;              (* u64 *)
}.

(** Atomic stores. *)
Definition set_health (v : Z) (s : DeploymentStateInner) : DeploymentStateInner :=
    mkInner v (probe_unhealthy s) (tpm_current s) (rpm_current s) (active_requests s)
    (total_requests s) (success_requests s) (fail_requests s) (successes_this_minute s)
    (fails_this_minute s) (cooldown_until s) (last_request_at s) (avg_latency_us s)
    (consecutive_successes s) (minute_reset_at s).
Definition set_probe_unhealthy (v : bool) (s : DeploymentStateInner) : DeploymentStateInner :=
    mkInner (health s) v (tpm_current s) (rpm_current s) (active_requests s) (total_requests s)
    (success_requests s) (fail_requests s) (successes_this_minute s) (fails_this_minute s)
    (cooldown_until s) (last_request_at s) (avg_latency_us s) (consecutive_successes s)
    (minute_reset_at s).
Definition set_tpm_current (v : Z) (s : DeploymentStateInner) : DeploymentStateInner :=
    mkInner (health s) (probe_unhealthy s) v (rpm_current s) (active_requests s) (total_requests
    s) (success_requests s) (fail_requests s) (successes_this_minute s) (fails_this_minute s)
    (cooldown_until s) (last_request_at s) (avg_latency_us s) (consecutive_successes s)
    (minute_reset_at s).
Definition set_rpm_current (v : Z) (s : DeploymentStateInner) : DeploymentStateInner :=
    mkInner (health s) (probe_unhealthy s) (tpm_current s) v (active_requests s) (total_requests
    s) (success_requests s) (fail_requests s) (successes_this_minute s) (fails_this_minute s)
    (cooldown_until s) (last_request_at s) (avg_latency_us s) (consecutive_successes s)
    (minute_reset_at s).
Definition set_active_requests (v : Z) (s : DeploymentStateInner) : DeploymentStateInner :=
    mkInner (health s) (probe_unhealthy s) (tpm_current s) (rpm_current s) v (total_requests s)
    (success_requests s) (fail_requests s) (successes_this_minute s) (fails_this_minute s)
    (cooldown_until s) (last_request_at s) (avg_latency_us s) (consecutive_successes s)
    (minute_reset_at s).
Definition set_total_requests (v : Z) (s : DeploymentStateInner) : DeploymentStateInner :=
    mkInner (health s) (probe_unhealthy s) (tpm_current s) (rpm_current s) (active_requests s) v
    (success_requests s) (fail_requests s) (successes_this_minute s) (fails_this_minute s)
    (cooldown_until s) (last_request_at s) (avg_latency_us s) (consecutive_successes s)
    (minute_reset_at s).
Definition set_success_requests (v : Z) (s : DeploymentStateInner) : DeploymentStateInner :=
    mkInner (health s) (probe_unhealthy s) (tpm_current s) (rpm_current s) (active_requests s)
    (total_requests s) v (fail_requests s) (successes_this_minute s) (fails_this_minute s)
    (cooldown_until s) (last_request_at s) (avg_latency_us s) (consecutive_successes s)
    (minute_reset_at s).
Definition set_fail_requests (v : Z) (s : DeploymentStateInner) : DeploymentStateInner :=
    mkInner (health s) (probe_unhealthy s) (tpm_current s) (rpm_current s) (active_requests s)
    (total_requests s) (success_requests s) v (successes_this_minute s) (fails_this_minute s)
    (cooldown_until s) (last_request_at s) (avg_latency_us s) (consecutive_successes s)
    (minute_reset_at s).
Definition set_successes_this_minute (v : Z) (s : DeploymentStateInner) : DeploymentStateInner :=
    mkInner (health s) (probe_unhealthy s) (tpm_current s) (rpm_current s) (active_requests s)
    (total_requests s) (success_requests s) (fail_requests s) v (fails_this_minute s)
    (cooldown_until s) (last_request_at s) (avg_latency_us s) (consecutive_successes s)
    (minute_reset_at s).
Definition set_fails_this_minute (v : Z) (s : DeploymentStateInner) : DeploymentStateInner :=
    mkInner (health s) (probe_unhealthy s) (tpm_current s) (rpm_current s) (active_requests s)
    (total_requests s) (success_requests s) (fail_requests s) (successes_this_minute s) v
    (cooldown_until s) (last_request_at s) (avg_latency_us s) (consecutive_successes s)
    (minute_reset_at s).
Definition set_cooldown_until (v : Z) (s : DeploymentStateInner) : DeploymentStateInner :=
    mkInner (health s) (probe_unhealthy s) (tpm_current s) (rpm_current s) (active_requests s)
    (total_requests s) (success_requests s) (fail_requests s) (successes_this_minute s)
    (fails_this_minute s) v (last_request_at s) (avg_latency_us s) (consecutive_successes s)
    (minute_reset_at s).
Definition set_last_request_at (v : Z) (s : DeploymentStateInner) : DeploymentStateInner :=
    mkInner (health s) (probe_unhealthy s) (tpm_current s) (rpm_current s) (active_requests s)
    (total_requests s) (success_requests s) (fail_requests s) (successes_this_minute s)
    (fails_this_minute s) (cooldown_until s) v (avg_latency_us s) (consecutive_successes s)
    (minute_reset_at s).
Definition set_avg_latency_us (v : Z) (s : DeploymentStateInner) : DeploymentStateInner :=
    mkInner (health s) (probe_unhealthy s) (tpm_current s) (rpm_current s) (active_requests s)
    (total_requests s) (success_requests s) (fail_requests s) (successes_this_minute s)
    (fails_this_minute s) (cooldown_until s) (last_request_at s) v (consecutive_successes s)
    (minute_reset_at s).
Definition set_consecutive_successes (v : Z) (s : DeploymentStateInner) : DeploymentStateInner :=
    mkInner (health s) (probe_unhealthy s) (tpm_current s) (rpm_current s) (active_requests s)
    (total_requests s) (success_requests s) (fail_requests s) (successes_this_minute s)
    (fails_this_minute s) (cooldown_until s) (last_request_at s) (avg_latency_us s) v
    (minute_reset_at s).
Definition set_minute_reset_at (v : Z) (s : DeploymentStateInner) : DeploymentStateInner :=
    mkInner (health s) (probe_unhealthy s) (tpm_current s) (rpm_current s) (active_requests s)
    (total_requests s) (success_requests s) (fail_requests s) (successes_this_minute s)
    (fails_this_minute s) (cooldown_until s) (last_request_at s) (avg_latency_us s)
    (consecutive_successes s) v.

(** [LocalTokenLedger] ([deployment/local_admission.rs]). *)
Record LocalTokenLedger := mkLedger {
  active_estimate : Z;       (* u64 *)
  retained_unobserved : Z;   (* u64 *)
}.

Record LocalCircuitFence := mkFence {
  fence_generation : Z;                       (* u64 *)
  local_cooldown_until : Z;                   (* u64 *)
  failure_window : Z;                         (* u64 *)
  local_failure_floor : Z;                    (* u32 *)
  local_recovery_successes : option Z;        (* u32 *)
}.

Record SharedState := mkShared {
  inner : DeploymentStateInner;
  minute_window_generation : Z;   (* u64 *)
  ledger : LocalTokenLedger;
  fence : LocalCircuitFence;
  lifecycle_generation : Z;       (* u64 *)
}.

Definition upd_inner (f : DeploymentStateInner -> DeploymentStateInner) (s : SharedState)
    : SharedState :=
  mkShared (f (inner s)) (minute_window_generation s) (ledger s) (fence s)
    (lifecycle_generation s).
Definition set_window_generation (v : Z) (s : SharedState) : SharedState :=
  mkShared (inner s) v (ledger s) (fence s) (lifecycle_generation s).
Definition set_ledger (v : LocalTokenLedger) (s : SharedState) : SharedState :=
  mkShared (inner s) (minute_window_generation s) v (fence s) (lifecycle_generation s).
Definition set_fence (v : LocalCircuitFence) (s : SharedState) : SharedState :=
  mkShared (inner s) (minute_window_generation s) (ledger s) v (lifecycle_generation s).
Definition set_lifecycle (v : Z) (s : SharedState) : SharedState :=
  mkShared (inner s) (minute_window_generation s) (ledger s) (fence s) v.

(** [DeploymentState::new] at time [now]. *)
Definition LocalTokenLedger_default : LocalTokenLedger := mkLedger 0 0.
Definition LocalCircuitFence_default : LocalCircuitFence := mkFence 0 0 0 0 None.

Definition DeploymentState_new (now : Z) : SharedState :=
  mkShared (mkInner (health_u8 Healthy) false 0 0 0 0 0 0 0 0 0 0 0 0 now)
    0 LocalTokenLedger_default LocalCircuitFence_default 0.

(** [fetch_add] wraps around. *)
Definition fetch_add_u64 (v d : Z) : Z := wrap_u64 (v + d).
Definition fetch_add_u32 (v d : Z) : Z := wrap_u32 (v + d).

(** * The minute window *)

Definition MINUTE_WINDOW_SECS : Z := 60.

(** [now - last] is only evaluated when [last <= now]. *)
Definition minute_window_needs_roll (now last : Z) : bool :=
  (now <? last) || (MINUTE_WINDOW_SECS <=? now - last).

Definition finish_minute_reset (now : Z) (s : SharedState) : SharedState :=
  let s := set_ledger (mkLedger (active_estimate (ledger s)) 0) s in
  let s := set_window_generation (fetch_add_u64 (minute_window_generation s) 1) s in
  upd_inner (fun i =>
    set_minute_reset_at now (set_fails_this_minute 0 (set_successes_this_minute 0
      (set_rpm_current 0 (set_tpm_current 0 i))))) s.

(** The exclusive slow path: the clock is read again under the write lock, so
    an observer that stalled cannot roll a window another one just opened. *)
Definition roll_exclusive (reset_now : Z) (s : SharedState) : SharedState :=
  if minute_window_needs_roll reset_now (minute_reset_at (inner s))
  then finish_minute_reset reset_now s else s.

(** [with_current_minute(now, op)]; [reset_now] is the second clock reading. *)
Definition with_current_minute {T} (now reset_now : Z)
    (op : SharedState -> SharedState * T) (s : SharedState) : SharedState * T :=
  if minute_window_needs_roll now (minute_reset_at (inner s))
  then op (roll_exclusive reset_now s) else op s.

Definition reset_minute (now : Z) (s : SharedState) : SharedState := finish_minute_reset now s.

Definition roll_minute_window (now reset_now : Z) (s : SharedState) : SharedState :=
  fst (with_current_minute now reset_now (fun s => (s, tt)) s).

Record MinuteCounters := mkMinute {
  window_generation : Z;
  minute_tpm : Z;
  minute_rpm : Z;
  minute_successes : Z;
  minute_failures : Z;
}.

Definition observed_minute_counters (s : SharedState) : MinuteCounters :=
  mkMinute (minute_window_generation s) (tpm_current (inner s)) (rpm_current (inner s))
    (successes_this_minute (inner s)) (fails_this_minute (inner s)).

Definition minute_counters (now reset_now : Z) (s : SharedState)
    : SharedState * MinuteCounters :=
  let s := roll_minute_window now reset_now s in (s, observed_minute_counters s).

(** * Health and cooldown of a deployment *)

Definition health_status (s : SharedState) : HealthStatus := health_of_u8 (health (inner s)).

Definition is_healthy (s : SharedState) : bool :=
  match health_status s with Healthy | Degraded => true | _ => false end.

(** [is_in_cooldown]: an expired cooldown moves [Cooldown] to the half-open
    [Degraded], or back to [Unhealthy] when the active probe still fails. *)
Definition is_in_cooldown (now : Z) (s : SharedState) : SharedState * bool :=
  let until := cooldown_until (inner s) in
  if until =? 0 then (s, false)
  else if now <? until then (s, true)
  else
    let next := if probe_unhealthy (inner s) then Unhealthy else Degraded in
    if health (inner s) =? health_u8 Cooldown
    then (upd_inner (set_health (health_u8 next)) s, false)
    else (s, false).

Definition enter_cooldown (now duration_secs : Z) (s : SharedState) : SharedState :=
  let s := upd_inner (set_cooldown_until (fetch_add_u64 now duration_secs)) s in
  if decide (health_status s = Cooldown) then s
  else upd_inner (set_health (health_u8 Cooldown)) s.

Definition promote_to_healthy_if_degraded (s : SharedState) : SharedState :=
  if health (inner s) =? health_u8 Degraded
  then upd_inner (set_health (health_u8 Healthy)) s else s.

(** * Outcomes *)

(** [record_failure_with_minute_counters]. *)
Definition record_failure_with_minute_counters (now reset_now : Z) (s : SharedState)
    : SharedState * MinuteCounters :=
  let s := upd_inner (fun i =>
    set_fail_requests (fetch_add_u64 (fail_requests i) 1)
      (set_total_requests (fetch_add_u64 (total_requests i) 1) i)) s in
  let '(s, counters) := with_current_minute now reset_now (fun s =>
    let s := upd_inner (fun i =>
      set_fails_this_minute (fetch_add_u32 (fails_this_minute i) 1) i) s in
    (s, observed_minute_counters s)) s in
  let s := upd_inner (fun i => set_consecutive_successes 0 (set_last_request_at now i)) s in
  let s := match health_status s with
           | Healthy | Unknown => upd_inner (set_health (health_u8 Degraded)) s
           | _ => s
           end in
  (s, counters).

Definition record_failure (now reset_now : Z) (s : SharedState) : SharedState :=
  fst (record_failure_with_minute_counters now reset_now s).

(** The exponential moving average of the latency, alpha = 1/5; the operators
    wrap around. *)
Definition next_avg_latency (current_avg latency_us : Z) : Z :=
  if current_avg =? 0 then latency_us
  else wrap_u64 (latency_us + wrap_u64 (4 * current_avg)) / 5.

(** * Active probes *)

(** The probe evidence of one handle; a new handle starts without evidence. *)
Record ProbeCell := mkProbe {
  probe_health : Z;                   (* u8 *)
  probe_last_checked_at_millis : Z;   (* u64 *)
}.
Definition ProbeCell_new : ProbeCell := mkProbe (health_u8 Unknown) 0.

Definition probe_health_status (c : ProbeCell) : HealthStatus := health_of_u8 (probe_health c).

Definition set_probe_health_status (now_millis : Z) (status : HealthStatus) : ProbeCell :=
  mkProbe (health_u8 status) now_millis.

Definition probe_last_checked (c : ProbeCell) : option Z :=
  if probe_last_checked_at_millis c =? 0 then None
  else Some (probe_last_checked_at_millis c).

(** One pass of the loop of [publish_probe_health_unchecked]: the status it
    installs over the current one, if any. *)
Definition probe_next (target current : HealthStatus) : option HealthStatus :=
  match target, current with
  | _, Cooldown => None
  | Degraded, Unhealthy => None
  | Healthy, _ | Degraded, _ | Unhealthy, _ =>
      if decide (current = target) then None else Some target
  | Unknown, _ | Cooldown, _ => None
  end.

Definition publish_probe_health_unchecked (target : HealthStatus) (now now_millis : Z)
    (c : ProbeCell) (s : SharedState) : ProbeCell * SharedState :=
  let c := set_probe_health_status now_millis target in
  let s := upd_inner (set_probe_unhealthy (bool_decide (target = Unhealthy))) s in
  let '(s, cooling) := is_in_cooldown now s in
  if cooling : bool then (c, s)
  else
    match probe_next target (health_status s) with
    | Some next => (c, upd_inner (set_health (health_u8 next)) s)
    | None => (c, s)
    end.

(** [clear_disabled_probe_failure]: [swap], then a compare-and-swap. *)
Definition clear_disabled_probe_failure (s : SharedState) : SharedState :=
  if probe_unhealthy (inner s) then
    let s := upd_inner (set_probe_unhealthy false) s in
    if health (inner s) =? health_u8 Unhealthy
    then upd_inner (set_health (health_u8 Healthy)) s else s
  else s.

(** * Handles and the shared store

    The [Arc]s of a handle are locations of a store.  The counters, the
    minute lock and generation, the ledger, the circuit fence and the probe
    lifecycle are always cloned together, so one location stands for them; the
    probe evidence has its own. *)
Record Handle := mkHandle {
  h_shared : N;
  h_probe : N;
  h_provider_instance : N;              (* address of the instance marker *)
  h_runtime_identity : option string;   (* digest bytes *)
  h_probe_generation : Z;               (* u64 *)
}.

Record Store := mkStore {
  cells : gmap N SharedState;
  probes : gmap N ProbeCell;
}.

(** [new_for_provider_instance]. *)
Definition new_for_provider_instance (now : Z) (provider : N) (st : Store)
    : Store * Handle :=
  let l := fresh (dom (cells st)) in
  let p := fresh (dom (probes st)) in
  (mkStore (<[l := DeploymentState_new now]> (cells st)) (<[p := ProbeCell_new]> (probes st)),
   mkHandle l p provider None 0).

(** [ProbeLifecycle::next_generation]; [None] is the [expect] panic. *)
Definition next_generation (s : SharedState) : option (SharedState * Z) :=
  g ← checked_add_u64 (lifecycle_generation s) 1;
  Some (set_lifecycle g s, g).

(** [for_snapshot_insertion_with_provider]: shares everything but the probe
    evidence, and advances the lifecycle. *)
Definition for_snapshot_insertion_with_provider (provider : N) (h : Handle) (st : Store)
    : option (Store * Handle) :=
  s ← cells st !! h_shared h;
  '(s, g) ← next_generation s;
  let p := fresh (dom (probes st)) in
  Some (mkStore (<[h_shared h := s]> (cells st)) (<[p := ProbeCell_new]> (probes st)),
        mkHandle (h_shared h) p provider (h_runtime_identity h) g).

Definition for_snapshot_insertion (h : Handle) (st : Store) : option (Store * Handle) :=
  for_snapshot_insertion_with_provider (h_provider_instance h) h st.

(** Whether the lifecycle of a handle still is at the handle's generation. *)
Definition probe_current (st : Store) (h : Handle) : bool :=
  match cells st !! h_shared h with
  | Some s => lifecycle_generation s =? h_probe_generation h
  | None => false
  end.

(** The first handle of each lifecycle, in input order; the code then sorts
    them by address, which only fixes the order the locks are taken in. *)
Fixpoint unique_lifecycles (seen : list N) (hs : list Handle) : list Handle :=
  match hs with
  | [] => []
  | h :: hs =>
      if decide (h_shared h ∈ seen) then unique_lifecycles seen hs
      else h :: unique_lifecycles (h_shared h :: seen) hs
  end.

Definition publish_one (target : HealthStatus) (clock : Z * Z) (h : Handle) (st : Store)
    : Store :=
  match cells st !! h_shared h, probes st !! h_probe h with
  | Some s, Some c =>
      let '(c, s) := publish_probe_health_unchecked target (fst clock) (snd clock) c s in
      mkStore (<[h_shared h := s]> (cells st)) (<[h_probe h := c]> (probes st))
  | _, _ => st
  end.

(** [publish_probe_group]: every lifecycle is locked while the group is
    validated and published.  [clock h] is the pair of readings (seconds,
    milliseconds) the publication to [h] makes. *)
Definition publish_probe_group (hs : list Handle) (target : HealthStatus)
    (clock : Handle -> Z * Z) (st : Store) : Store * bool :=
  let unique := unique_lifecycles [] hs in
  if existsb (fun h => negb (probe_current st h)) unique
     || existsb (fun h =>
          existsb (fun u => bool_decide (h_shared u = h_shared h) &&
                            negb (probe_current st h)) unique) hs
  then (st, false)
  else (foldl (fun st h => publish_one target (clock h) h st) st hs, true).

(** * Lemmas *)

Lemma health_of_u8_u8 (h : HealthStatus) : health_of_u8 (health_u8 h) = h.
Proof. by destruct h. Qed.

Lemma needs_roll_spec (now last : Z) :
  minute_window_needs_roll now last = true <-> now < last \/ last + 60 <= now.
Proof.
  unfold minute_window_needs_roll, MINUTE_WINDOW_SECS.
  rewrite orb_true_iff, Z.ltb_lt, Z.leb_le. lia.
Qed.

Lemma unique_lifecycles_covers (hs : list Handle) (seen : list N) (h : Handle) :
  h ∈ hs -> h_shared h ∈ seen \/
  exists u, u ∈ unique_lifecycles seen hs /\ h_shared u = h_shared h.
Proof.
  revert seen. induction hs as [|x hs IH]; intros seen Hin; [set_solver|].
  simpl. apply elem_of_cons in Hin as [->|Hin].
  - destruct (decide (h_shared x ∈ seen)); [by left|]. right. exists x. set_solver.
  - destruct (decide (h_shared x ∈ seen)); [by apply IH|].
    destruct (IH (h_shared x :: seen) Hin) as [Hs|(u & Hu & Heq)].
    + apply elem_of_cons in Hs as [Hs|Hs]; [|by left]. right. exists x. set_solver.
    + right. exists u. set_solver.
Qed.

Lemma unique_lifecycles_subset (hs : list Handle) (seen : list N) (h : Handle) :
  h ∈ unique_lifecycles seen hs -> h ∈ hs.
Proof.
  revert seen. induction hs as [|x hs IH]; intros seen; simpl; [done|].
  case_decide; [set_solver|]. rewrite elem_of_cons. set_solver.
Qed.

(** The two scans of [publish_probe_group] accept exactly the groups all of
    whose members are current. *)
Lemma publish_probe_group_accepts (hs : list Handle) (target : HealthStatus)
    (clock : Handle -> Z * Z) (st : Store) :
  snd (publish_probe_group hs target clock st) = true <->
  Forall (fun h => probe_current st h = true) hs.
Proof.
  unfold publish_probe_group. rewrite Forall_forall. case_match eqn:E; simpl.
  - split; [done|]. intros Hall. exfalso.
    apply orb_prop in E as [E|E]; apply existsb_exists in E as (h & Hin & E);
      apply list_elem_of_In in Hin.
    + apply unique_lifecycles_subset in Hin. by rewrite Hall in E.
    + apply existsb_exists in E as (u & _ & E). apply andb_prop in E as [_ E].
      by rewrite Hall in E.
  - split; [intros _|done]. apply orb_false_elim in E as [_ E]. intros h Hin.
    destruct (unique_lifecycles_covers hs [] h Hin) as [Hs|(u & Hu & Heq)]; [set_solver|].
    destruct (probe_current st h) eqn:Hc; [done|]. exfalso.
    cut (true = false); [done|]. rewrite <- E. symmetry.
    apply existsb_exists. exists h. split; [by apply list_elem_of_In|].
    apply existsb_exists. exists u. split; [by apply list_elem_of_In|].
    rewrite Hc, bool_decide_true by done. done.
Qed.

(** A handle never runs ahead of its lifecycle. *)
Definition handle_wf (st : Store) (h : Handle) : Prop :=
  exists s, cells st !! h_shared h = Some s /\
            0 <= h_probe_generation h <= lifecycle_generation s.

Lemma for_snapshot_insertion_spec (prov : N) (h h' : Handle) (st st' : Store) :
  for_snapshot_insertion_with_provider prov h st = Some (st', h') ->
  exists s, cells st !! h_shared h = Some s /\
    cells st' = <[h_shared h := set_lifecycle (lifecycle_generation s + 1) s]> (cells st) /\
    probes st !! h_probe h' = None /\
    probes st' = <[h_probe h' := ProbeCell_new]> (probes st) /\
    h_shared h' = h_shared h /\
    h_probe_generation h' = lifecycle_generation s + 1.
Proof.
  unfold for_snapshot_insertion_with_provider, next_generation, checked_add_u64.
  intros H. destruct (cells st !! h_shared h) as [s|] eqn:Hs; simpl in H; [|done].
  case_match; simpl in H; [|done]. injection H as <- <-. simpl.
  exists s. split_and!; try done.
  apply not_elem_of_dom. apply is_fresh.
Qed.

(** Cooldown expiry, by cases. *)
Lemma is_in_cooldown_bool (now : Z) (s : SharedState) :
  snd (is_in_cooldown now s) =
  negb (cooldown_until (inner s) =? 0) && (now <? cooldown_until (inner s)).
Proof. unfold is_in_cooldown. repeat case_match; simpl; try done. Qed.

Lemma is_in_cooldown_preserves (now : Z) (s : SharedState) :
  let s' := fst (is_in_cooldown now s) in
  cooldown_until (inner s') = cooldown_until (inner s) /\
  probe_unhealthy (inner s') = probe_unhealthy (inner s) /\
  fence s' = fence s /\ ledger s' = ledger s /\
  minute_window_generation s' = minute_window_generation s /\
  lifecycle_generation s' = lifecycle_generation s.
Proof. unfold is_in_cooldown. repeat case_match; simpl; by split_and!. Qed.

(** * Properties *)

(** Probe evidence of a replaced deployment is inert.  Carrying a deployment
    to a new snapshot keeps every shared counter and the store of every other
    deployment, starts the new handle without evidence, and from then on a
    probe group that contains any older handle of that deployment is refused
    whole: nothing of the store changes, whatever the rest of the group. *)
Theorem stale_probe_refused (prov : N) (h h' old : Handle) (st st' : Store)
    (hs : list Handle) (target : HealthStatus) (clock : Handle -> Z * Z)
    (Hnew : for_snapshot_insertion_with_provider prov h st = Some (st', h'))
    (Hold : handle_wf st old) (Hsame : h_shared old = h_shared h) (Hin : old ∈ hs) :
  publish_probe_group hs target clock st' = (st', false) /\
  snd (publish_probe_group [h'] target clock st') = true /\
  probes st' !! h_probe h' = Some ProbeCell_new /\
  (exists s, cells st !! h_shared h = Some s /\
     cells st' !! h_shared h' = Some (set_lifecycle (lifecycle_generation s + 1) s)) /\
  (forall l, l <> h_shared h -> cells st' !! l = cells st !! l) /\
  (forall p, is_Some (probes st !! p) -> probes st' !! p = probes st !! p).
Proof.
  apply for_snapshot_insertion_spec in Hnew as (s & Hs & Hc & Hfresh & Hp & Hsh & Hg).
  split_and!.
  - destruct (publish_probe_group hs target clock st') as [st2 b] eqn:E.
    assert (b = false) as ->.
    { destruct b; [|done]. exfalso.
      assert (Hacc : snd (publish_probe_group hs target clock st') = true) by by rewrite E.
      apply publish_probe_group_accepts in Hacc. rewrite Forall_forall in Hacc.
      specialize (Hacc old Hin). unfold probe_current in Hacc.
      rewrite Hc, Hsame, lookup_insert_eq in Hacc. simpl in Hacc. apply Z.eqb_eq in Hacc.
      destruct Hold as (s0 & Hs0 & Hle). rewrite Hsame, Hs in Hs0. injection Hs0 as <-. lia. }
    unfold publish_probe_group in E. case_match; congruence.
  - apply publish_probe_group_accepts. apply Forall_singleton. unfold probe_current.
    rewrite Hc, Hsh, lookup_insert_eq. simpl. rewrite Hg. apply Z.eqb_refl.
  - by rewrite Hp, lookup_insert_eq.
  - exists s. by rewrite Hc, Hsh, lookup_insert_eq.
  - intros l Hl. by rewrite Hc, lookup_insert_ne.
  - intros p [c Hcell]. rewrite Hp, lookup_insert_ne; [done|]. congruence.
Qed.

(** Who owns the health byte.  Publishing a probe result never changes the
    health of a deployment whose request cooldown is still running; an
    Unhealthy result published during the cooldown is remembered, and when the
    cooldown expires the deployment becomes Unhealthy, not half-open; a Degraded
    probe result never lifts Unhealthy. *)
Theorem probe_respects_cooldown (target : HealthStatus) (now ms later : Z)
    (c : ProbeCell) (s : SharedState)
    (Hcool : health_status s = Cooldown) (Hnow : now < cooldown_until (inner s))
    (H0 : 0 <= now) (Hlater : cooldown_until (inner s) <= later) :
  let s1 := snd (publish_probe_health_unchecked target now ms c s) in
  let s2 := fst (is_in_cooldown later s1) in
  health_status s1 = Cooldown /\ cooldown_until (inner s1) = cooldown_until (inner s) /\
  health_status s2 = (if decide (target = Unhealthy) then Unhealthy else Degraded) /\
  is_healthy s2 = negb (bool_decide (target = Unhealthy)) /\
  health_status (snd (publish_probe_health_unchecked Degraded later ms c
    (upd_inner (set_health (health_u8 Unhealthy)) s))) = Unhealthy.
Proof.
  assert (Hu : (cooldown_until (inner s) =? 0) = false) by (apply Z.eqb_neq; lia).
  assert (Hn : (now <? cooldown_until (inner s)) = true) by (apply Z.ltb_lt; lia).
  assert (Hl : (later <? cooldown_until (inner s)) = false) by (apply Z.ltb_ge; lia).
  assert (Hh : (health (inner s) =? 4) = true).
  { unfold health_status, health_of_u8 in Hcool. simpl.
    repeat (case_match; try discriminate). lia. }
  unfold publish_probe_health_unchecked, is_in_cooldown, is_healthy, health_status in *.
  simpl. rewrite !Hu, !Hn, !Hl. simpl. rewrite Hu, Hl. simpl. rewrite Hh. simpl.
  split_and!; try done; by destruct target.
Qed.

Lemma probe_respects_cooldown_witness :
  let s := enter_cooldown 100 5 (DeploymentState_new 100) in
  health_status (snd (publish_probe_health_unchecked Unhealthy 101 7 ProbeCell_new s))
    = Cooldown /\
  health_status (fst (is_in_cooldown 105
    (snd (publish_probe_health_unchecked Unhealthy 101 7 ProbeCell_new s)))) = Unhealthy.
Proof.
  intros s.
  destruct (probe_respects_cooldown Unhealthy 101 7 105 ProbeCell_new s) as (H1 & _ & H2 & _);
    [reflexivity | vm_compute; reflexivity | lia | vm_compute; discriminate |].
  split; [exact H1 | exact H2].
Defined.

Lemma stale_probe_refused_witness :
  let '(st, h) := new_for_provider_instance 100 0 (mkStore ∅ ∅) in
  match for_snapshot_insertion_with_provider 1 h st with
  | Some (st', _) =>
      publish_probe_group [h] Unhealthy (fun _ => (101, 7)) st' = (st', false)
  | None => False
  end.
Proof.
  destruct (new_for_provider_instance 100 0 (mkStore ∅ ∅)) as [st h] eqn:E0.
  destruct (for_snapshot_insertion_with_provider 1 h st) as [[st' h']|] eqn:E1.
  - apply (stale_probe_refused 1 h h' h st st' [h] Unhealthy); try done.
    + vm_compute in E0. injection E0 as <- <-. eexists. split; [vm_compute; reflexivity|].
      simpl. lia.
    + apply elem_of_cons. by left.
  - vm_compute in E0. injection E0 as <- <-. vm_compute in E1. discriminate.
Defined.
