(* ===== verification/Ledger.v ===== *)
(** Local token reservations ([core/router/deployment/local_admission.rs]) and
    the outcomes that replace them with observed usage
    ([deployment.rs], [record_success_with_admission] and its siblings).

    A reservation ([LocalAdmissionHold]) adds its estimate to the deployment's
    ledger under the minute gate.  It is completed once: either inside the
    gate that records the observed usage, or by [finish]/[drop], which take the
    completion first and apply it under the gate later.  [step] interleaves
    those atomic sections for any number of concurrent requests, and the
    theorems are invariants of its reachable states. *)

From S2P Require Import Prelude ProviderErrors RouterTypes Deployment.

(** * Holds *)

Inductive Completion := Cancel | Settle | Retain (minimum : Z).

Record LocalAdmissionHold := mkHold {
  estimate : Z;                      (* u64 *)
  completion : option Completion;    (* behind a mutex *)
}.

Definition set_completion (c : option Completion) (h : LocalAdmissionHold)
    : LocalAdmissionHold := mkHold (estimate h) c.

(** [admission_tpm]. *)
Definition admission_tpm (now reset_now : Z) (s : SharedState) : SharedState * Z :=
  with_current_minute now reset_now (fun s =>
    (s, sat_add_u64 (sat_add_u64 (minute_tpm (observed_minute_counters s))
                       (active_estimate (ledger s)))
          (retained_unobserved (ledger s)))) s.

(** The critical section of [reserve_local_tokens]: the total is an exact
    [u128] sum, the ledger update a [u64] addition. *)
Definition reserve_section (estimate limit : Z) (s : SharedState)
    : SharedState * option LocalAdmissionHold :=
  let total := tpm_current (inner s) + active_estimate (ledger s)
               + retained_unobserved (ledger s) + estimate in
  if limit <? total then (s, None)
  else (set_ledger (mkLedger (wrap_u64 (active_estimate (ledger s) + estimate))
                      (retained_unobserved (ledger s))) s,
        Some (mkHold estimate (Some Cancel))).

Definition reserve_local_tokens (now reset_now estimate limit : Z) (s : SharedState)
    : SharedState * option LocalAdmissionHold :=
  with_current_minute now reset_now (reserve_section estimate limit) s.

(** [prepare]: a completed hold stays completed. *)
Definition prepare (desired : Completion) (h : LocalAdmissionHold) : LocalAdmissionHold :=
  match completion h with
  | Some _ => set_completion (Some desired) h
  | None => h
  end.
Definition prepare_settlement := prepare Settle.
Definition prepare_retention (minimum : Z) := prepare (Retain minimum).
Definition prepare_cancellation := prepare Cancel.

(** [apply]: the subtraction wraps in the release profile. *)
Definition apply_completion (estimate : Z) (l : LocalTokenLedger) (c : Completion)
    (observed : Z) : LocalTokenLedger :=
  let active := wrap_u64 (active_estimate l - estimate) in
  match c with
  | Retain minimum =>
      let extra := sat_sub (Z.max estimate minimum) observed in
      mkLedger active (sat_add_u64 (retained_unobserved l) extra)
  | _ => mkLedger active (retained_unobserved l)
  end.

(** [record_observation], inside the caller's minute gate. *)
Definition record_observation (observed : Z) (record : SharedState -> SharedState)
    (h : LocalAdmissionHold) (s : SharedState) : LocalAdmissionHold * SharedState :=
  let s := record s in
  match completion h with
  | Some c =>
      (set_completion None h, set_ledger (apply_completion (estimate h) (ledger s) c observed) s)
  | None => (h, s)
  end.

(** The two halves of [finish]: the completion is taken under its own lock,
    then applied under the minute gate; [drop] takes it the same way. *)
Definition desired_completion (op : string) (minimum : Z) : Completion :=
  if String.eqb op "settle" then Settle
  else if String.eqb op "retain" then Retain minimum
  else Cancel.

Definition take_completion (h : LocalAdmissionHold) : LocalAdmissionHold * option Completion :=
  (set_completion None h, completion h).

Definition finish_section (estimate : Z) (c : Completion) (s : SharedState) : SharedState :=
  let observed := match c with Retain minimum => minimum | _ => 0 end in
  set_ledger (apply_completion estimate (ledger s) c observed) s.

Definition finish_prepared (now reset_now estimate : Z) (c : option Completion)
    (s : SharedState) : SharedState :=
  match c with
  | None => s
  | Some c =>
      fst (with_current_minute now reset_now (fun s => (finish_section estimate c s, tt)) s)
  end.

Definition finish (now reset_now : Z) (op : string) (minimum : Z)
    (h : LocalAdmissionHold) (s : SharedState) : LocalAdmissionHold * SharedState :=
  let '(h, taken) := take_completion h in
  (h, finish_prepared now reset_now (estimate h)
        (fmap (fun _ => desired_completion op minimum) taken) s).

Definition drop_hold (now reset_now : Z) (h : LocalAdmissionHold) (s : SharedState)
    : SharedState :=
  finish_prepared now reset_now (estimate h) (completion h) s.

(** * Holds of either backend ([core/router/admission.rs]) *)

Inductive AdmissionCompletion := ACancel | ASettle (actual : Z) | ARetain (minimum : Z).

Record AdmissionHoldInner := mkHoldInner {
  lease_id : string;
  hold_deployment_id : string;
  remote_completion : option AdmissionCompletion;   (* behind a mutex *)
}.

Inductive AdmissionHold :=
| InProcessHold (hold : LocalAdmissionHold)
| RedisHold (inner : AdmissionHoldInner).

Definition set_remote_completion (c : option AdmissionCompletion) (i : AdmissionHoldInner)
    : AdmissionHoldInner := mkHoldInner (lease_id i) (hold_deployment_id i) c.

(** [i64::try_from(value).unwrap_or(i64::MAX)]. *)
Definition to_i64 (v : Z) : Z := if v <=? i64_max then v else i64_max.

Definition hold_prepare_retention (minimum : Z) (h : AdmissionHold) : AdmissionHold :=
  match h with
  | InProcessHold h => InProcessHold (prepare_retention minimum h)
  | RedisHold i => RedisHold (set_remote_completion (Some (ARetain (to_i64 minimum))) i)
  end.

Definition hold_prepare_cancellation (h : AdmissionHold) : AdmissionHold :=
  match h with
  | InProcessHold h => InProcessHold (prepare_cancellation h)
  | RedisHold i => RedisHold (set_remote_completion (Some ACancel) i)
  end.

Definition hold_prepare_settlement (actual : Z) (h : AdmissionHold) : AdmissionHold :=
  match h with
  | InProcessHold h => InProcessHold (prepare_settlement h)
  | RedisHold i => RedisHold (set_remote_completion (Some (ASettle (to_i64 actual))) i)
  end.

Definition record_local_observation (tokens : Z) (record : SharedState -> SharedState)
    (h : AdmissionHold) (s : SharedState) : AdmissionHold * SharedState :=
  match h with
  | InProcessHold h =>
      let '(h, s) := record_observation tokens record h s in (InProcessHold h, s)
  | RedisHold _ => (h, record s)
  end.

(** * Recording outcomes *)

(** The three [record] closures. *)
Definition record_success_usage (tokens : Z) : SharedState -> SharedState :=
  upd_inner (fun i =>
    set_successes_this_minute (fetch_add_u64 (successes_this_minute i) 1)
      (set_rpm_current (fetch_add_u64 (rpm_current i) 1)
        (set_tpm_current (fetch_add_u64 (tpm_current i) tokens) i))).
Definition record_partial_usage (tokens : Z) : SharedState -> SharedState :=
  upd_inner (fun i => set_tpm_current (fetch_add_u64 (tpm_current i) tokens) i).
Definition record_interrupted_usage (tokens : Z) : SharedState -> SharedState :=
  upd_inner (fun i =>
    set_rpm_current (fetch_add_u64 (rpm_current i) 1)
      (set_tpm_current (fetch_add_u64 (tpm_current i) tokens) i)).

(** [match admission { Some(hold) => .., None => record() }], as an operation of
    the minute gate. *)
Definition observe_usage (tokens : Z) (record : SharedState -> SharedState)
    (admission : option AdmissionHold) (s : SharedState)
    : SharedState * option AdmissionHold :=
  match admission with
  | Some h => let '(h, s) := record_local_observation tokens record h s in (s, Some h)
  | None => (record s, None)
  end.

Definition record_partial_tokens_with_admission (now reset_now tokens : Z)
    (admission : option AdmissionHold) (s : SharedState)
    : SharedState * option AdmissionHold :=
  with_current_minute now reset_now
    (observe_usage tokens (record_partial_usage tokens) admission) s.

Definition record_interrupted_usage_with_admission (now reset_now tokens : Z)
    (admission : option AdmissionHold) (s : SharedState)
    : SharedState * option AdmissionHold :=
  with_current_minute now reset_now
    (observe_usage tokens (record_interrupted_usage tokens) admission) s.

(** Advance the generation of the circuit fence; [None] is the [expect]
    panic. *)
Definition bump_generation (f : LocalCircuitFence) : option LocalCircuitFence :=
  g ← checked_add_u64 (fence_generation f) 1;
  Some (mkFence g (local_cooldown_until f) (failure_window f) (local_failure_floor f)
          (local_recovery_successes f)).

Definition set_recovery (r : option Z) (f : LocalCircuitFence) : LocalCircuitFence :=
  mkFence (fence_generation f) (local_cooldown_until f) (failure_window f)
    (local_failure_floor f) r.

(** [record_success_with_admission], under the circuit lock throughout. *)
Definition record_success_with_admission (now reset_now tokens latency_us : Z)
    (admission : option AdmissionHold) (s : SharedState)
    : option (SharedState * option AdmissionHold) :=
  f ← bump_generation (fence s);
  let f := if local_cooldown_until f <=? now
           then set_recovery ((fun n => sat_add_u32 n 1) <$> local_recovery_successes f) f
           else f in
  let s := set_fence f s in
  let s := upd_inner (fun i =>
    set_success_requests (fetch_add_u64 (success_requests i) 1)
      (set_total_requests (fetch_add_u64 (total_requests i) 1) i)) s in
  let '(s, admission) :=
    with_current_minute now reset_now
      (observe_usage tokens (record_success_usage tokens) admission) s in
  let s := upd_inner (fun i =>
    set_consecutive_successes (fetch_add_u32 (consecutive_successes i) 1)
      (set_avg_latency_us (next_avg_latency (avg_latency_us i) latency_us)
        (set_last_request_at now i))) s in
  Some (s, admission).

Definition record_success (now reset_now tokens latency_us : Z) (s : SharedState)
    : option SharedState :=
  fst <$> record_success_with_admission now reset_now tokens latency_us None s.

(** * The concurrent system

    One deployment, any number of requests.  A request's hold and the
    completion its finishing thread has taken but not applied yet: *)
Record HoldState := mkHoldState {
  hs_hold : LocalAdmissionHold;
  hs_taken : option Completion;
}.

Record Sys := mkSys {
  shared : SharedState;
  holds : gmap N HoldState;
}.

(** The minute gate: either the window read under the shared lock is current,
    or the caller comes back under the exclusive lock with a new clock reading,
    whatever happened in between. *)
Inductive gate {T} (op : SharedState -> SharedState * T) (s : SharedState)
    : SharedState * T -> Prop :=
| gate_fast : gate op s (op s)
| gate_slow reset_now : gate op s (op (roll_exclusive reset_now s)).

(** What the [record] closures do to the observed usage. *)
Inductive recorder (tokens : Z) : (SharedState -> SharedState) -> Prop :=
| rec_success : recorder tokens (record_success_usage tokens)
| rec_partial : recorder tokens (record_partial_usage tokens)
| rec_interrupted : recorder tokens (record_interrupted_usage tokens).

Inductive label :=
| LReserve (est limit : Z)
| LObserve (est observed : Z) (c : option Completion)
| LUnreserved (tokens : Z)
| LPrepare
| LTake
| LApply
| LReset
| LOther.

Definition completion_wf (c : Completion) : Prop :=
  match c with Retain m => fits_u64 m | _ => True end.

Inductive step : Sys -> label -> Sys -> Prop :=
| step_reserve sys id est limit s' r :
    holds sys !! id = None -> fits_u64 est -> fits_u64 limit ->
    gate (reserve_section est limit) (shared sys) (s', r) ->
    step sys (LReserve est limit)
      (mkSys s' (match r with
                 | Some h => <[id := mkHoldState h None]> (holds sys)
                 | None => holds sys
                 end))
| step_observe sys id x observed record s' h' :
    holds sys !! id = Some x -> fits_u64 observed -> recorder observed record ->
    gate (fun s => let '(h, s) := record_observation observed record (hs_hold x) s in (s, h))
      (shared sys) (s', h') ->
    step sys (LObserve (estimate (hs_hold x)) observed (completion (hs_hold x)))
      (mkSys s' (<[id := mkHoldState h' (hs_taken x)]> (holds sys)))
| step_unreserved sys tokens record s' u :
    fits_u64 tokens -> recorder tokens record ->
    gate (fun s => (record s, tt)) (shared sys) (s', u) ->
    step sys (LUnreserved tokens) (mkSys s' (holds sys))
| step_prepare sys id x c :
    holds sys !! id = Some x -> completion_wf c ->
    step sys LPrepare
      (mkSys (shared sys) (<[id := mkHoldState (prepare c (hs_hold x)) (hs_taken x)]>
                             (holds sys)))
| step_take sys id x h' old c :
    (* [finish] applies its own completion, [drop] the one it took *)
    holds sys !! id = Some x -> take_completion (hs_hold x) = (h', Some old) ->
    completion_wf c ->
    step sys LTake (mkSys (shared sys) (<[id := mkHoldState h' (Some c)]> (holds sys)))
| step_apply sys id x c s' u :
    holds sys !! id = Some x -> hs_taken x = Some c ->
    gate (fun s => (finish_section (estimate (hs_hold x)) c s, tt)) (shared sys) (s', u) ->
    step sys LApply (mkSys s' (<[id := mkHoldState (hs_hold x) None]> (holds sys)))
| step_reset sys now :
    step sys LReset (mkSys (reset_minute now (shared sys)) (holds sys))
| step_other sys s' :
    (* failures, circuit and probe updates touch neither the ledger nor the
       observed tokens *)
    ledger s' = ledger (shared sys) ->
    tpm_current (inner s') = tpm_current (inner (shared sys)) ->
    step sys LOther (mkSys s' (holds sys)).

(** A hold whose estimate is still in the ledger. *)
Definition live_estimate (x : HoldState) : Z :=
  match completion (hs_hold x), hs_taken x with
  | None, None => 0
  | _, _ => estimate (hs_hold x)
  end.

Record hold_inv (x : HoldState) : Prop := {
  hold_est : fits_u64 (estimate (hs_hold x));
  hold_once : completion (hs_hold x) = None \/ hs_taken x = None;
  hold_wf : (forall c, completion (hs_hold x) = Some c -> completion_wf c) /\
            (forall c, hs_taken x = Some c -> completion_wf c);
}.

(** The ledger holds exactly the estimates of the live reservations, and none
    of its fields has wrapped around. *)
Record sys_inv (sys : Sys) : Prop := {
  inv_active : active_estimate (ledger (shared sys)) = sum_map live_estimate (holds sys);
  inv_active_u64 : fits_u64 (active_estimate (ledger (shared sys)));
  inv_retained : fits_u64 (retained_unobserved (ledger (shared sys)));
  inv_tpm : fits_u64 (tpm_current (inner (shared sys)));
  inv_holds : map_Forall (fun _ x => hold_inv x) (holds sys);
}.

Definition Sys_init (now : Z) : Sys := mkSys (DeploymentState_new now) ∅.

(** Tokens that count against the deployment's limit. *)
Definition admitted (s : SharedState) : Z :=
  tpm_current (inner s) + active_estimate (ledger s) + retained_unobserved (ledger s).

(** * Lemmas *)

Lemma live_estimate_nonneg (x : HoldState) : hold_inv x -> 0 <= live_estimate x.
Proof. intros [[? ?] _]. unfold live_estimate. repeat case_match; lia. Qed.

Lemma live_all_nonneg (m : gmap N HoldState) :
  map_Forall (fun _ x => hold_inv x) m -> map_Forall (fun _ x => 0 <= live_estimate x) m.
Proof. intros Hall i x Hi. apply live_estimate_nonneg. by apply (Hall i). Qed.

(** What a gate can change before the section runs. *)
Definition rolled (s0 s : SharedState) : Prop :=
  active_estimate (ledger s0) = active_estimate (ledger s) /\
  ((retained_unobserved (ledger s0) = retained_unobserved (ledger s) /\
    tpm_current (inner s0) = tpm_current (inner s)) \/
   (retained_unobserved (ledger s0) = 0 /\ tpm_current (inner s0) = 0)).

Lemma rolled_refl (s : SharedState) : rolled s s.
Proof. split; auto. Qed.

Lemma roll_exclusive_rolled (now : Z) (s : SharedState) : rolled (roll_exclusive now s) s.
Proof. unfold roll_exclusive, rolled. case_match; simpl; auto. Qed.

Lemma gate_inv {T} (op : SharedState -> SharedState * T) (s : SharedState) r :
  gate op s r -> exists s0, rolled s0 s /\ r = op s0.
Proof.
  destruct 1.
  - eauto using rolled_refl.
  - eauto using roll_exclusive_rolled.
Qed.

Lemma with_current_minute_gate {T} (now reset_now : Z) (op : SharedState -> SharedState * T)
    (s : SharedState) : gate op s (with_current_minute now reset_now op s).
Proof. unfold with_current_minute. case_match; constructor. Qed.

Lemma recorder_spec (t : Z) (record : SharedState -> SharedState) (s : SharedState) :
  recorder t record ->
  ledger (record s) = ledger s /\
  tpm_current (inner (record s)) = wrap_u64 (tpm_current (inner s) + t).
Proof. by destruct 1. Qed.

Lemma rolled_bounds (s0 s : SharedState) :
  rolled s0 s -> fits_u64 (retained_unobserved (ledger s)) ->
  fits_u64 (tpm_current (inner s)) ->
  fits_u64 (retained_unobserved (ledger s0)) /\ fits_u64 (tpm_current (inner s0)).
Proof. intros [_ [[-> ->]|[-> ->]]]; [done|]. unfold fits_u64, u64_max. lia. Qed.

(** Completing a live reservation removes its estimate, without underflow. *)
Lemma apply_completion_spec (est : Z) (l : LocalTokenLedger) (c : Completion) (obs : Z) :
  fits_u64 est -> est <= active_estimate l <= u64_max ->
  fits_u64 (retained_unobserved l) -> completion_wf c -> 0 <= obs ->
  let l' := apply_completion est l c obs in
  active_estimate l' = active_estimate l - est /\
  fits_u64 (retained_unobserved l') /\
  retained_unobserved l' <=
    retained_unobserved l +
    match c with Retain m => Z.max 0 (Z.max est m - obs) | _ => 0 end.
Proof.
  intros [? ?] [? ?] [? ?] Hc Hobs. unfold apply_completion.
  destruct c as [| |m]; simpl in *;
    rewrite wrap_u64_small by (unfold fits_u64; lia);
    unfold fits_u64, sat_add_u64, sat_sub in *; lia.
Qed.

(** Changing one hold of the map. *)
Lemma inv_insert (m : gmap N HoldState) (id : N) (x y : HoldState) (active : Z) :
  active = sum_map live_estimate m -> m !! id = Some x ->
  active - live_estimate x + live_estimate y =
  sum_map live_estimate (<[id := y]> m).
Proof. intros -> Hid. by rewrite (sum_map_update _ _ _ x). Qed.

Lemma live_le_active (sys : Sys) (id : N) (x : HoldState) :
  sys_inv sys -> holds sys !! id = Some x ->
  live_estimate x <= active_estimate (ledger (shared sys)).
Proof.
  intros H Hid. rewrite inv_active by done. apply (sum_map_ge _ _ id); [|done].
  apply live_all_nonneg, H.
Qed.

Lemma sys_inv_reserve sys id est limit s' r :
  sys_inv sys -> holds sys !! id = None -> fits_u64 est -> fits_u64 limit ->
  gate (reserve_section est limit) (shared sys) (s', r) ->
  sys_inv (mkSys s' (match r with
                     | Some h => <[id := mkHoldState h None]> (holds sys)
                     | None => holds sys end)) /\
  (is_Some r -> admitted s' <= limit).
Proof.
  intros H Hid Hest Hlim Hg. apply gate_inv in Hg as (s0 & Hr & Heq).
  destruct (rolled_bounds _ _ Hr) as [Hret Htpm]; [apply H..|]. destruct Hr as [Hact _].
  unfold reserve_section in Heq. pose proof (inv_active_u64 _ H) as Hau.
  unfold fits_u64 in *. rewrite <- Hact in Hau.
  destruct (Z.ltb_spec limit (tpm_current (inner s0) + active_estimate (ledger s0)
                              + retained_unobserved (ledger s0) + est)).
  - injection Heq as -> ->. split; [|by intros []].
    constructor; simpl; try done; [rewrite Hact|]; apply H.
  - injection Heq as -> ->. unfold admitted. simpl.
    rewrite wrap_u64_small by (unfold fits_u64, u64_max in *; lia). split; [|lia].
    constructor; simpl; unfold fits_u64, u64_max in *; try lia.
    + rewrite sum_map_insert by done. rewrite Hact, (inv_active _ H).
      unfold live_estimate; simpl. lia.
    + apply map_Forall_insert; [done|]. split; [|apply H].
      constructor; simpl; [unfold fits_u64, u64_max; lia|by right|].
      split; [|done]. intros ? [= <-]. done.
Qed.

Lemma sys_inv_observe sys id x observed record s' h' :
  sys_inv sys -> holds sys !! id = Some x -> fits_u64 observed -> recorder observed record ->
  gate (fun s => let '(h, s) := record_observation observed record (hs_hold x) s in (s, h))
    (shared sys) (s', h') ->
  sys_inv (mkSys s' (<[id := mkHoldState h' (hs_taken x)]> (holds sys))).
Proof.
  intros H Hid Hobs Hrec Hg. apply gate_inv in Hg as (s0 & Hr & Heq).
  destruct (rolled_bounds _ _ Hr) as [Hret Htpm]; [apply H..|]. destruct Hr as [Hact _].
  pose proof (inv_holds _ H id x Hid) as Hx. pose proof (live_le_active _ _ _ H Hid) as Hle.
  pose proof (inv_active_u64 _ H) as Hau.
  unfold record_observation in Heq. destruct (recorder_spec _ _ s0 Hrec) as [Hl Ht].
  destruct (completion (hs_hold x)) as [c|] eqn:Hc; injection Heq as -> ->.
  - assert (Htk : hs_taken x = None) by (destruct Hx as [_ [?|?] _]; congruence).
    assert (Hlive : live_estimate x = estimate (hs_hold x)).
    { unfold live_estimate. by rewrite Hc. }
    assert (Hdead : live_estimate (mkHoldState (set_completion None (hs_hold x)) (hs_taken x)) = 0)
      by (unfold live_estimate; simpl; by rewrite Htk).
    destruct (apply_completion_spec (estimate (hs_hold x)) (ledger s0) c observed)
      as (Ha & Hr' & _); [apply Hx|unfold fits_u64 in *; lia|done| |destruct Hobs; lia|].
    { by apply (proj1 (hold_wf _ Hx)). }
    constructor; simpl; rewrite ?Hl, ?Ha, ?Ht; auto with rust.
    + rewrite <- (inv_insert _ _ x _ _ (inv_active _ H) Hid). lia.
    + rewrite Hact. unfold fits_u64 in *. pose proof (hold_est _ Hx) as [? ?]. lia.
    + apply map_Forall_insert_2; [|apply H].
      constructor; simpl; [apply Hx|by left|split; [done|apply (hold_wf _ Hx)]].
  - assert (Hsame : <[id := mkHoldState (hs_hold x) (hs_taken x)]> (holds sys) = holds sys).
    { apply insert_id. rewrite Hid. by destruct x. }
    rewrite Hsame. constructor; simpl; rewrite ?Hl, ?Ht, ?Hact; auto with rust; apply H.
Qed.

Lemma sys_inv_apply sys id x c s' u :
  sys_inv sys -> holds sys !! id = Some x -> hs_taken x = Some c ->
  gate (fun s => (finish_section (estimate (hs_hold x)) c s, tt)) (shared sys) (s', u) ->
  sys_inv (mkSys s' (<[id := mkHoldState (hs_hold x) None]> (holds sys))).
Proof.
  intros H Hid Htk Hg. apply gate_inv in Hg as (s0 & Hr & [= -> _]).
  destruct (rolled_bounds _ _ Hr) as [Hret Htpm]; [apply H..|]. destruct Hr as [Hact _].
  pose proof (inv_holds _ H id x Hid) as Hx. pose proof (live_le_active _ _ _ H Hid) as Hle.
  pose proof (inv_active_u64 _ H) as Hau.
  assert (Hc : completion (hs_hold x) = None) by (destruct Hx as [_ [?|?] _]; congruence).
  assert (Hlive : live_estimate x = estimate (hs_hold x)).
  { unfold live_estimate. by rewrite Hc, Htk. }
  assert (Hdead : live_estimate (mkHoldState (hs_hold x) None) = 0)
    by (unfold live_estimate; simpl; by rewrite Hc).
  assert (Hwf : completion_wf c) by (apply (proj2 (hold_wf _ Hx)); done).
  unfold finish_section. set (obs := match c with Retain m => m | _ => 0 end).
  destruct (apply_completion_spec (estimate (hs_hold x)) (ledger s0) c obs)
    as (Ha & Hr' & _);
    [apply Hx|unfold fits_u64 in *; lia|done|done|
     unfold obs; destruct c; simpl in *; unfold fits_u64 in *; lia|].
  constructor; simpl; rewrite ?Ha; auto with rust.
  - rewrite <- (inv_insert _ _ x _ _ (inv_active _ H) Hid). lia.
  - rewrite Hact. unfold fits_u64 in *. pose proof (hold_est _ Hx) as [? ?]. lia.
  - apply map_Forall_insert_2; [|apply H].
    constructor; simpl; [apply Hx|by right|split; [apply (hold_wf _ Hx)|done]].
Qed.

(** A step on a hold that keeps its contribution to the ledger. *)
Lemma sys_inv_same_live sys id x y :
  sys_inv sys -> holds sys !! id = Some x -> hold_inv y ->
  live_estimate y = live_estimate x ->
  sys_inv (mkSys (shared sys) (<[id := y]> (holds sys))).
Proof.
  intros H Hid Hy Heq. constructor; simpl; try apply H.
  - rewrite <- (inv_insert _ _ x _ _ (inv_active _ H) Hid). lia.
  - apply map_Forall_insert_2; [done|apply H].
Qed.

Lemma sys_inv_step (a b : Sys) (l : label) : sys_inv a -> step a l b -> sys_inv b.
Proof.
  intros H Hs.
  destruct Hs as [a id est limit s' r Hid He Hl Hg | a id x obs rec s' h' Hid Ho Hrec Hg
    | a t rec s' u Ht Hrec Hg | a id x c Hid Hc | a id x h' old c Hid Htake Hc
    | a id x c s' u Hid Htk Hg | a now | a s' Hl Ht].
  - by destruct (sys_inv_reserve _ _ _ _ _ _ H Hid He Hl Hg).
  - by eapply sys_inv_observe.
  - apply gate_inv in Hg as (s0 & Hr & [= -> _]).
    destruct (rolled_bounds _ _ Hr) as [Hret Htpm]; [apply H..|]. destruct Hr as [Hact _].
    destruct (recorder_spec _ _ s0 Hrec) as [Hl Htp].
    constructor; simpl; rewrite ?Hl, ?Htp, ?Hact; auto with rust; apply H.
  - pose proof (inv_holds _ H id x Hid) as Hx. apply (sys_inv_same_live _ _ x); [done..| |].
    + unfold prepare. destruct (completion (hs_hold x)) as [old|] eqn:E; simpl.
      * constructor; simpl; [apply Hx| |].
        -- destruct Hx as [_ [?|?] _]; [congruence|by right].
        -- split; [by intros ? [= <-]|apply (hold_wf _ Hx)].
      * constructor; simpl; [apply Hx|by left|apply (hold_wf _ Hx)].
    + unfold live_estimate, prepare. simpl.
      destruct (completion (hs_hold x)) eqn:E; simpl; by rewrite ?E.
  - pose proof (inv_holds _ H id x Hid) as Hx.
    unfold take_completion in Htake. injection Htake as <- Hold.
    apply (sys_inv_same_live _ _ x); [done..| |].
    + constructor; simpl; [apply Hx|by left|].
      split; [done|by intros ? [= <-]].
    + unfold live_estimate. simpl. by rewrite Hold.
  - by eapply sys_inv_apply.
  - constructor; simpl; try apply H; unfold fits_u64, u64_max; lia.
  - constructor; simpl; rewrite ?Hl, ?Ht; apply H.
Qed.

Lemma sys_inv_init (now : Z) : sys_inv (Sys_init now).
Proof.
  constructor; simpl; try (unfold fits_u64, u64_max; lia).
  - by rewrite sum_map_empty.
  - apply map_Forall_empty.
Qed.

(** Reachability under a restriction on the labels. *)
Definition steps (ok : label -> Prop) : relation Sys :=
  rtc (fun a b => exists l, ok l /\ step a l b).

Lemma steps_inv (ok : label -> Prop) (a b : Sys) : steps ok a b -> sys_inv a -> sys_inv b.
Proof. apply rtc_invariant. intros x y Hx (l & _ & Hs). by eapply sys_inv_step. Qed.

(** ** Honest usage *)

(** Every request reserves against a limit of at most [L], consumes and
    retains at most its estimate, and nothing is consumed without a
    reservation. *)
Definition honest (L : Z) (l : label) : Prop :=
  match l with
  | LReserve _ limit => limit <= L
  | LObserve est obs c =>
      obs <= est /\ match c with
                    | None => False
                    | Some (Retain m) => m <= est
                    | Some _ => True
                    end
  | LUnreserved _ => False
  | _ => True
  end.

Lemma rolled_admitted (s0 s : SharedState) (L : Z) :
  rolled s0 s -> fits_u64 (retained_unobserved (ledger s)) ->
  fits_u64 (tpm_current (inner s)) -> admitted s <= L -> admitted s0 <= L.
Proof.
  unfold rolled, admitted, fits_u64.
  intros [-> [[-> ->]|[-> ->]]]; lia.
Qed.

Lemma honest_observe sys id x observed record s' h' (L : Z) :
  L <= u64_max -> sys_inv sys -> admitted (shared sys) <= L ->
  honest L (LObserve (estimate (hs_hold x)) observed (completion (hs_hold x))) ->
  holds sys !! id = Some x -> fits_u64 observed -> recorder observed record ->
  gate (fun s => let '(h, s) := record_observation observed record (hs_hold x) s in (s, h))
    (shared sys) (s', h') ->
  admitted s' <= L.
Proof.
  intros HL H Hadm Hh Hid Ho Hrec Hg. simpl in Hh.
  pose proof (inv_holds _ H id x Hid) as Hx. pose proof (live_le_active _ _ _ H Hid) as Hle.
  apply gate_inv in Hg as (s0 & Hr & Heq).
  destruct (rolled_bounds _ _ Hr) as [Hret Htpm]; [apply H..|].
  pose proof (rolled_admitted _ _ L Hr (inv_retained _ H) (inv_tpm _ H) Hadm) as H0.
  destruct Hr as [Hact _]. pose proof (inv_active_u64 _ H) as Hau.
  unfold record_observation in Heq. destruct (recorder_spec _ _ s0 Hrec) as [Hlg Htp].
  destruct (completion (hs_hold x)) as [c|] eqn:Hc; [|tauto]. injection Heq as -> ->.
  assert (Hlive : live_estimate x = estimate (hs_hold x)) by
    (unfold live_estimate; by rewrite Hc).
  destruct (apply_completion_spec (estimate (hs_hold x)) (ledger s0) c observed)
    as (Ha & Hr' & Hrl);
    [apply Hx|unfold fits_u64 in *; lia|done|by apply (proj1 (hold_wf _ Hx))|
     destruct Ho; lia|].
  unfold admitted in *. simpl. rewrite Hlg, Ha, Htp.
  pose proof (hold_est _ Hx). unfold fits_u64 in *.
  rewrite wrap_u64_small by (unfold fits_u64; lia).
  destruct c; simpl in *; lia.
Qed.

Lemma honest_apply sys id x c s' u (L : Z) :
  sys_inv sys -> admitted (shared sys) <= L ->
  holds sys !! id = Some x -> hs_taken x = Some c ->
  gate (fun s => (finish_section (estimate (hs_hold x)) c s, tt)) (shared sys) (s', u) ->
  admitted s' <= L.
Proof.
  intros H Hadm Hid Htk Hg.
  pose proof (inv_holds _ H id x Hid) as Hx. pose proof (live_le_active _ _ _ H Hid) as Hle.
  apply gate_inv in Hg as (s0 & Hr & [= -> _]).
  destruct (rolled_bounds _ _ Hr) as [Hret Htpm]; [apply H..|].
  pose proof (rolled_admitted _ _ L Hr (inv_retained _ H) (inv_tpm _ H) Hadm) as H0.
  destruct Hr as [Hact _]. pose proof (inv_active_u64 _ H) as Hau.
  assert (Hlive : live_estimate x = estimate (hs_hold x)).
  { unfold live_estimate. rewrite Htk. by case_match. }
  assert (Hwf : completion_wf c) by (apply (proj2 (hold_wf _ Hx)); done).
  unfold finish_section. set (obs := match c with Retain m => m | _ => 0 end).
  pose proof (hold_est _ Hx) as Hest.
  destruct (apply_completion_spec (estimate (hs_hold x)) (ledger s0) c obs)
    as (Ha & _ & Hrl); [apply Hx|unfold fits_u64 in *; lia|done|done|
      unfold obs; destruct c; simpl in *; unfold fits_u64 in *; lia|].
  unfold admitted in *. simpl. rewrite Ha. unfold obs in *.
  destruct c; simpl in *; unfold fits_u64 in *; lia.
Qed.

Lemma honest_step (L : Z) (a b : Sys) (l : label) :
  L <= u64_max -> sys_inv a -> admitted (shared a) <= L -> honest L l -> step a l b ->
  admitted (shared b) <= L.
Proof.
  intros HL H Hadm Hh Hs.
  destruct Hs as [a id est limit s' r Hid He Hl Hg | a id x obs rec s' h' Hid Ho Hrec Hg
    | a t rec s' u Ht Hrec Hg | a id x c Hid Hc | a id x h' old c Hid Htake Hc
    | a id x c s' u Hid Htk Hg | a now | a s' Hl Ht]; simpl in Hh |- *; try done.
  - destruct r as [h|].
    + destruct (sys_inv_reserve _ _ _ _ _ _ H Hid He Hl Hg) as [_ Hle].
      specialize (Hle ltac:(done)). lia.
    + apply gate_inv in Hg as (s0 & Hr & Heq). unfold reserve_section in Heq.
      case_match; [|done]. injection Heq as ->.
      eapply rolled_admitted; [done|apply H..|done].
  - by eapply honest_observe.
  - by eapply honest_apply.
  - unfold admitted in *. simpl. pose proof (inv_retained _ H). pose proof (inv_tpm _ H).
    unfold fits_u64 in *. lia.
  - unfold admitted in *. by rewrite Hl, Ht.
Qed.

(** * Properties *)

(** C4: The token ledger is exact under any interleaving.  In every state
    reachable from a fresh deployment - reservations, completions by
    observation, by finish or by drop, window rolls, in any order and number -
    [active_estimate] is the sum of the estimates of the reservations not yet
    completed, no field has wrapped around, and it is zero as soon as every
    reservation is completed: no estimate leaks and none is released twice. *)
Theorem ledger_exact (now : Z) (sys : Sys)
    (Hreach : steps (fun _ => True) (Sys_init now) sys) :
  active_estimate (ledger (shared sys)) = sum_map live_estimate (holds sys) /\
  fits_u64 (active_estimate (ledger (shared sys))) /\
  fits_u64 (retained_unobserved (ledger (shared sys))) /\
  fits_u64 (tpm_current (inner (shared sys))) /\
  (map_Forall (fun _ x => completion (hs_hold x) = None /\ hs_taken x = None) (holds sys) ->
   active_estimate (ledger (shared sys)) = 0).
Proof.
  pose proof (steps_inv _ _ _ Hreach (sys_inv_init now)) as H.
  split_and!; try apply H. intros Hall. rewrite (inv_active _ H).
  clear H Hreach. induction (holds sys) as [|i x m Hi IH] using map_ind.
  - apply sum_map_empty.
  - apply map_Forall_insert in Hall as [[H1 H2] Hall]; [|done].
    rewrite sum_map_insert, IH by done. unfold live_estimate. by rewrite H1, H2.
Qed.

Lemma ledger_exact_witness :
  let sys := mkSys (fst (reserve_section 10 100 (DeploymentState_new 0)))
               {[ 1%N := mkHoldState (mkHold 10 (Some Cancel)) None ]} in
  active_estimate (ledger (shared sys)) = sum_map live_estimate (holds sys).
Proof.
  intros sys. apply (ledger_exact 0 sys). apply rtc_once. exists (LReserve 10 100).
  split; [done|].
  apply (step_reserve (Sys_init 0) 1 10 100 _ (Some (mkHold 10 (Some Cancel))));
    [reflexivity | unfold fits_u64, u64_max; lia | unfold fits_u64, u64_max; lia |].
  apply (gate_fast (reserve_section 10 100)).
Defined.

(** C5: The local tokens-per-minute limit holds under concurrency.  If every
    reservation is made against a limit of at most [L], every request uses and
    retains at most what it reserved, and nothing is used without a
    reservation, then in every reachable state the observed, in-flight and
    retained tokens of the current minute together never exceed [L]. *)
Theorem token_limit_respected (now L : Z) (sys : Sys) (HL : 0 <= L <= u64_max)
    (Hreach : steps (honest L) (Sys_init now) sys) :
  admitted (shared sys) <= L.
Proof.
  cut (sys_inv sys /\ admitted (shared sys) <= L); [tauto|].
  apply (rtc_invariant (fun a b => exists l, honest L l /\ step a l b)
           (fun x => sys_inv x /\ admitted (shared x) <= L)) with (x := Sys_init now).
  - intros x y [Hx Ha] (l & Hl & Hs). split; [by eapply sys_inv_step|].
    eapply honest_step; eauto. lia.
  - done.
  - split; [apply sys_inv_init|]. unfold admitted; simpl. lia.
Qed.

Lemma token_limit_respected_witness :
  admitted (fst (reserve_section 10 100 (DeploymentState_new 0))) <= 100.
Proof.
  apply (token_limit_respected 0 100
    (mkSys (fst (reserve_section 10 100 (DeploymentState_new 0)))
       {[ 1%N := mkHoldState (mkHold 10 (Some Cancel)) None ]})).
  - unfold u64_max; lia.
  - apply rtc_once. exists (LReserve 10 100). split; [simpl; lia|].
    apply (step_reserve (Sys_init 0) 1 10 100 _ (Some (mkHold 10 (Some Cancel))));
      [reflexivity | unfold fits_u64, u64_max; lia | unfold fits_u64, u64_max; lia |].
    apply (gate_fast (reserve_section 10 100)).
Defined.

(** A reservation is completed once.  After [finish] - whatever its operation -
    another finish, the drop of the hold, a prepared completion or a late
    usage observation leave the ledger and the hold as they are. *)
Theorem completion_once (now reset_now later reset_later : Z) (op op' : string)
    (minimum minimum' : Z) (c : Completion) (tokens : Z) (record : SharedState -> SharedState)
    (h : LocalAdmissionHold) (s : SharedState) (Hrec : recorder tokens record) :
  let '(h1, s1) := finish now reset_now op minimum h s in
  finish later reset_later op' minimum' h1 s1 = (h1, s1) /\
  drop_hold later reset_later h1 s1 = s1 /\
  prepare c h1 = h1 /\
  fst (record_observation tokens record h1 s1) = h1 /\
  ledger (snd (record_observation tokens record h1 s1)) = ledger s1.
Proof.
  unfold finish, take_completion, drop_hold, prepare, record_observation. simpl.
  split_and!; try done. by destruct (recorder_spec tokens record
    (finish_prepared now reset_now (estimate h)
       ((fun _ => desired_completion op minimum) <$> completion h) s) Hrec).
Qed.

Lemma completion_once_witness :
  let h := mkHold 10 (Some Cancel) in
  let s := set_ledger (mkLedger 10 0) (DeploymentState_new 0) in
  ledger (snd (record_observation 3 (record_partial_usage 3)
    (fst (finish 0 0 "settle" 0 h s)) (snd (finish 0 0 "settle" 0 h s)))) = mkLedger 0 0.
Proof.
  intros h s.
  destruct (completion_once 0 0 0 0 "settle" "settle" 0 0 Cancel 3 (record_partial_usage 3)
              h s (rec_partial 3)) as (_ & _ & _ & _ & H).
  exact (eq_trans H eq_refl).
Defined.

(** A settled success replaces the estimate by the tokens used, in one
    section: with a live settlement prepared and no window roll, the estimate
    leaves the ledger, the tokens are added to the observed usage with one
    request and one success, nothing is retained, and the hold is completed;
    a prepared retention instead keeps the part of max(estimate, minimum) not
    observed, so the admitted total is max(estimate, minimum, tokens). *)
Theorem success_replaces_estimate (now reset_now tokens latency : Z)
    (h : LocalAdmissionHold) (c : Completion) (s : SharedState)
    (Hgen : 0 <= fence_generation (fence s) < u64_max)
    (Hc : completion h = Some c) (Hwf : completion_wf c)
    (Hest : fits_u64 (estimate h))
    (Hact : estimate h <= active_estimate (ledger s) <= u64_max)
    (Hret : fits_u64 (retained_unobserved (ledger s)))
    (Htok : 0 <= tokens)
    (Hsum : admitted s + tokens
            + match c with Retain m => Z.max (estimate h) m | _ => 0 end <= u64_max)
    (Htpm : 0 <= tpm_current (inner s))
    (Hroll : minute_window_needs_roll now (minute_reset_at (inner s)) = false) :
  exists s',
    record_success_with_admission now reset_now tokens latency (Some (InProcessHold h)) s
      = Some (s', Some (InProcessHold (mkHold (estimate h) None))) /\
  tpm_current (inner s') = tpm_current (inner s) + tokens /\
  rpm_current (inner s') = wrap_u64 (rpm_current (inner s) + 1) /\
  active_estimate (ledger s') = active_estimate (ledger s) - estimate h /\
  admitted s' =
      admitted s - estimate h +
      match c with
      | Retain m => Z.max tokens (Z.max (estimate h) m)
      | _ => tokens
      end.
Proof.
  unfold record_success_with_admission, bump_generation, checked_add_u64.
  rewrite (proj2 (Z.leb_le (fence_generation (fence s) + 1) u64_max)) by lia. simpl.
  unfold with_current_minute. simpl. rewrite Hroll. unfold record_observation. rewrite Hc.
  simpl. unfold set_completion, admitted in *.
  eexists. split; [reflexivity|]. simpl. unfold fetch_add_u64, apply_completion, fits_u64 in *.
  rewrite (wrap_u64_small (tpm_current (inner s) + tokens)) by
    (unfold fits_u64; destruct c; lia).
  rewrite (wrap_u64_small (active_estimate (ledger s) - estimate h)) by
    (unfold fits_u64; lia).
  split_and!; try done; destruct c; simpl in *; unfold sat_add_u64, sat_sub, fits_u64 in *; lia.
Qed.

Lemma success_replaces_estimate_witness :
  let s := set_ledger (mkLedger 50 0) (DeploymentState_new 100) in
  exists s',
    record_success_with_admission 100 100 30 7 (Some (InProcessHold (mkHold 50 (Some Settle)))) s
      = Some (s', Some (InProcessHold (mkHold 50 None))) /\ admitted s' = 30.
Proof.
  intros s.
  destruct (success_replaces_estimate 100 100 30 7 (mkHold 50 (Some Settle)) Settle s)
    as (s' & H1 & _ & _ & _ & H2);
    try (simpl; unfold admitted, fits_u64, u64_max; simpl; lia); try reflexivity.
  exists s'. split; [exact H1|]. rewrite H2. reflexivity.
Defined.

(** The latency average stays between the old average and the new sample
    (no overshoot), as long as the weighted sum fits in 64 bits, and starts at
    the first sample. *)
Theorem latency_average_between (avg latency : Z) (Havg : 0 <= avg) (Hlat : 0 <= latency)
    (Hfit : latency + 4 * avg <= u64_max) :
  (avg = 0 -> next_avg_latency avg latency = latency) /\
  (0 < avg -> Z.min avg latency <= next_avg_latency avg latency <= Z.max avg latency).
Proof.
  unfold next_avg_latency. split.
  - intros ->. done.
  - intros. destruct (Z.eqb_spec avg 0); [lia|].
    rewrite (wrap_u64_small (4 * avg)) by (unfold fits_u64; lia).
    rewrite wrap_u64_small by (unfold fits_u64; lia).
    split; [apply Z.div_le_lower_bound; lia|].
    apply Z.lt_succ_r, Z.div_lt_upper_bound; lia.
Qed.

Lemma latency_average_between_witness :
  100 <= next_avg_latency 100 200 <= 200.
Proof. apply (latency_average_between 100 200); unfold u64_max; lia. Defined.
