(* ===== verification/CircuitScript.v ===== *)
(** The shared circuit breaker: the Lua script every replica runs on one Redis
    hash per deployment ([storage/redis/circuit.rs]).

    Redis runs a script atomically, so [circuit_script] is one function from
    the hash to the hash, the reply and the time to live it sets.  Lua numbers
    are doubles; the script's are integers below 2^53, on which doubles are
    exact, and its one quotient, [fail * 100 / tot > 50], is stated without
    division. *)

From S2P Require Import Prelude.

(** * State, arguments, reply *)

Record CircuitHash := mkCircuit {
  c_f : Z;             (* failures of the window *)
  c_r : Z;             (* successes of the window *)
  c_tot : Z;
  c_fail : Z;
  c_opened : Z;        (* end of the cooldown, 0 when closed *)
  c_consec : Z;
  c_e : Z;             (* window epoch *)
  c_h : Z;             (* health *)
  c_owner : string;    (* probe owner, empty when none *)
  c_own_until : Z;
}.

(** [load_state] on a missing hash. *)
Definition CircuitHash_default : CircuitHash := mkCircuit 0 0 0 0 0 0 0 1 "" 0.

Record CircuitArgs := mkCircuitArgs {
  a_op : string;
  a_now : Z;
  a_epoch : Z;
  a_token : string;
  a_allowed : Z;
  a_min_req : Z;
  a_cooldown : Z;
  a_success_th : Z;
  a_reason : Z;
}.

Record CircuitState := mkCircuitState {
  st_status : Z;
  st_opened_until : Z;
  st_fails : Z;
  st_consecutive_successes : Z;
  st_health : Z;
  st_owned : bool;
}.

Definition STATUS_OPEN : Z := 1.
Definition STATUS_HALF : Z := 2.

Definition blocks_selection (s : CircuitState) : bool :=
  (st_status s =? STATUS_OPEN) || ((st_status s =? STATUS_HALF) && negb (st_owned s)).

Definition parse_circuit_state (values : list Z) : option CircuitState :=
  match values with
  | [v0; v1; v2; v3; v4; v5] =>
      Some (mkCircuitState v0 (Z.max v1 0) (Z.max v2 0) (Z.max v3 0) v4 (v5 =? 1))
  | _ => None
  end.

(** * The script *)

Section Script.
Variable a : CircuitArgs.

Definition has_owner (c : CircuitHash) : bool :=
  negb (String.eqb (c_owner c) "") && (a_now a <? c_own_until c).

Definition owns (c : CircuitHash) : bool :=
  String.eqb (c_owner c) (a_token a) && (a_now a <? c_own_until c).

Definition claim_owner (c : CircuitHash) : CircuitHash :=
  if has_owner c then c
  else mkCircuit (c_f c) (c_r c) (c_tot c) (c_fail c) (c_opened c) 0 (c_e c) 2 (a_token a)
         (Z.max (a_now a + a_cooldown a) (a_now a + 1)).

(** [opened = ..; clear_owner(); h = ..]. *)
Definition set_opened (opened h : Z) (c : CircuitHash) : CircuitHash :=
  mkCircuit (c_f c) (c_r c) (c_tot c) (c_fail c) opened (c_consec c) (c_e c) h "" 0.

Definition set_h (h : Z) (c : CircuitHash) : CircuitHash :=
  mkCircuit (c_f c) (c_r c) (c_tot c) (c_fail c) (c_opened c) (c_consec c) (c_e c) h
    (c_owner c) (c_own_until c).

Definition roll_epoch (c : CircuitHash) : CircuitHash :=
  if c_e c =? a_epoch a then c
  else mkCircuit 0 0 (c_tot c) (c_fail c) (c_opened c) (c_consec c) (a_epoch a) (c_h c)
         (c_owner c) (c_own_until c).

(** Whether a failure of a closed circuit opens it, on the updated counts. *)
Definition trips (c : CircuitHash) : bool :=
  if a_reason a =? 1 then true
  else if a_reason a =? 2 then (a_min_req a <=? c_tot c) && (50 * c_tot c <? c_fail c * 100)
  else (a_allowed a <=? c_f c) && (a_min_req a <=? c_r c + c_f c).

Definition count_failure (c : CircuitHash) : CircuitHash :=
  mkCircuit (c_f c + 1) (c_r c) (c_tot c + 1) (c_fail c + 1) (c_opened c) 0 (c_e c) (c_h c)
    (c_owner c) (c_own_until c).

Definition op_fail (c : CircuitHash) : CircuitHash :=
  let c := count_failure c in
  if a_now a <? c_opened c then set_h 4 c
  else if 0 <? c_opened c then set_opened (a_now a + a_cooldown a) 4 c
  else if trips c then set_opened (a_now a + a_cooldown a) 4 c
  else if (c_h c =? 1) || (c_h c =? 0) then set_h 2 c
  else c.

Definition count_success (c : CircuitHash) : CircuitHash :=
  mkCircuit (c_f c) (c_r c + 1) (c_tot c + 1) (c_fail c) (c_opened c)
    (if (c_opened c =? 0) || owns c then c_consec c + 1 else c_consec c)
    (c_e c) (c_h c) (c_owner c) (c_own_until c).

Definition op_ok (c : CircuitHash) : CircuitHash :=
  let c := count_success c in
  if a_now a <? c_opened c then set_h 4 c
  else if 0 <? c_opened c then
    if owns c then
      if a_success_th a <=? c_consec c then set_opened 0 1 c else claim_owner c
    else c
  else if (c_h c =? 2) && (a_success_th a <=? c_consec c) then set_h 1 c
  else c.

(** The tail of the script: status, ownership, save, expiry, reply. *)
Definition reply (c : CircuitHash) (status owned : Z) : list Z :=
  [status; c_opened c; c_f c; c_consec c; c_h c; owned].

Definition observe_tail (c : CircuitHash) : CircuitHash * list Z :=
  if a_now a <? c_opened c then (c, reply c 1 0)
  else if 0 <? c_opened c then
    let c := claim_owner c in
    (c, reply c 2 (if String.eqb (c_owner c) (a_token a) then 1 else 0))
  else (c, reply c 0 1).

Definition ttl (c : CircuitHash) : Z :=
  Z.max 600 (Z.max (c_opened c - a_now a + 1) (c_own_until c - a_now a + 1)).

Definition run_op (c : CircuitHash) : CircuitHash :=
  let c := roll_epoch c in
  if String.eqb (a_op a) "fail" then op_fail c
  else if String.eqb (a_op a) "ok" then op_ok c
  else c.

(** The stored hash afterwards, the reply, and the expiry set on the key. *)
Definition circuit_script (stored : option CircuitHash)
    : option CircuitHash * list Z * Z :=
  let '(c, values) := observe_tail (run_op (default CircuitHash_default stored)) in
  (if negb (String.eqb (a_op a) "observe") || (0 <? c_opened c) then Some c else stored,
   values, ttl c).
End Script.

(** The parsed reply of a call. *)
Definition circuit_reply (a : CircuitArgs) (stored : option CircuitHash)
    : option CircuitState := parse_circuit_state (snd (fst (circuit_script a stored))).

(** * Lemmas *)

Lemma roll_epoch_spec (a : CircuitArgs) (c : CircuitHash) :
  c_opened (roll_epoch a c) = c_opened c /\ c_owner (roll_epoch a c) = c_owner c /\
  c_own_until (roll_epoch a c) = c_own_until c /\ c_consec (roll_epoch a c) = c_consec c /\
  c_h (roll_epoch a c) = c_h c /\ c_tot (roll_epoch a c) = c_tot c /\
  c_fail (roll_epoch a c) = c_fail c.
Proof. unfold roll_epoch. by case_match. Qed.

(** While the circuit is open no operation moves the deadline or the owner. *)
Lemma run_op_open (a : CircuitArgs) (c : CircuitHash) :
  a_now a < c_opened c ->
  c_opened (run_op a c) = c_opened c /\ c_owner (run_op a c) = c_owner c /\
  c_own_until (run_op a c) = c_own_until c.
Proof.
  intros Hn. unfold run_op, op_fail, op_ok.
  destruct (roll_epoch_spec a c) as (Ho & Hw & Hu & _).
  assert (Hb : (a_now a <? c_opened (roll_epoch a c)) = true)
    by (rewrite Ho; by apply Z.ltb_lt).
  repeat case_match; simpl in *; try congruence; try done; by rewrite ?Ho in *.
Qed.

Lemma observe_tail_open (a : CircuitArgs) (c : CircuitHash) :
  a_now a < c_opened c -> observe_tail a c = (c, reply c 1 0).
Proof. intros Hn. unfold observe_tail. by rewrite (proj2 (Z.ltb_lt _ _) Hn). Qed.

(** ** Half-open ownership *)

(** The circuit is half-open at [now] and [t] owns the probe. *)
Definition probing (t : string) (now : Z) (c : CircuitHash) : Prop :=
  0 < c_opened c <= now /\ c_owner c = t /\ t <> ""%string /\ now < c_own_until c.

Lemma probing_has_owner (a : CircuitArgs) (t : string) (c : CircuitHash) :
  probing t (a_now a) c -> has_owner a c = true.
Proof.
  intros (_ & Ho & Ht & Hu). unfold has_owner.
  rewrite (proj2 (String.eqb_neq (c_owner c) "")) by congruence. by apply Z.ltb_lt.
Qed.

Lemma probing_other (a : CircuitArgs) (t : string) (c : CircuitHash) :
  probing t (a_now a) c -> a_token a <> t -> a_op a <> "fail"%string ->
  let c' := run_op a c in
  probing t (a_now a) c' /\ c_opened c' = c_opened c /\ c_own_until c' = c_own_until c /\
  c_consec c' = c_consec c.
Proof.
  intros Hp Ht Hop. destruct Hp as ([Hpos Hle] & Ho & Hne & Hu).
  destruct (roll_epoch_spec a c) as (Ho' & Hw & Hu' & Hc & _).
  assert (Howns : forall x, c_owner x = c_owner c -> owns a x = false).
  { intros x Hx. unfold owns. rewrite Hx, Ho.
    by rewrite (proj2 (String.eqb_neq t (a_token a))) by congruence. }
  assert (Hz : (c_opened c =? 0) = false) by (apply Z.eqb_neq; lia).
  assert (Hgt : (a_now a <? c_opened c) = false) by (apply Z.ltb_ge; lia).
  assert (Hp0 : (0 <? c_opened c) = true) by (apply Z.ltb_lt; lia).
  unfold run_op. rewrite (proj2 (String.eqb_neq _ _) Hop).
  remember (roll_epoch a c) as c0 eqn:E. clear E.
  destruct (String.eqb (a_op a) "ok").
  - unfold op_ok, count_success. simpl. rewrite Ho', Hz, Hgt, Hp0.
    rewrite !Howns by (simpl; congruence). simpl.
    unfold probing; simpl. rewrite ?Ho', ?Hw, ?Hu', ?Hc. by split_and!.
  - unfold probing; simpl. rewrite ?Ho', ?Hw, ?Hu', ?Hc. by split_and!.
Qed.

Lemma observe_tail_probing (a : CircuitArgs) (t : string) (c : CircuitHash) :
  probing t (a_now a) c ->
  observe_tail a c = (c, reply c 2 (if String.eqb t (a_token a) then 1 else 0)).
Proof.
  intros Hp. pose proof (probing_has_owner a t c Hp) as Hh.
  destruct Hp as ([Hpos Hle] & Ho & _). unfold observe_tail.
  rewrite (proj2 (Z.ltb_ge _ _)) by lia. rewrite (proj2 (Z.ltb_lt _ _)) by lia.
  unfold claim_owner. rewrite Hh. by rewrite Ho.
Qed.

(** Runs of the script, as Redis serialises the replicas' calls; the reply of
    each call is kept with the hash. *)
Fixpoint run_calls (calls : list CircuitArgs) (stored : option CircuitHash)
    : option CircuitHash * list (option CircuitState) :=
  match calls with
  | [] => (stored, [])
  | a :: calls =>
      let '(stored', values, _) := circuit_script a stored in
      let '(final, replies) := run_calls calls stored' in
      (final, parse_circuit_state values :: replies)
  end.

Lemma open_call (a : CircuitArgs) (c : CircuitHash) :
  a_now a < c_opened c ->
  exists c', fst (fst (circuit_script a (Some c))) = Some c' /\
    c_opened c' = c_opened c /\
    exists r, circuit_reply a (Some c) = Some r /\ blocks_selection r = true.
Proof.
  intros Hn. unfold circuit_reply, circuit_script. simpl.
  destruct (run_op_open a c Hn) as (Ho & _ & _).
  rewrite observe_tail_open by (rewrite Ho; done). simpl.
  case_match; eexists; (split; [reflexivity|]); (split; [done|]);
    eexists; (split; [reflexivity|]); done.
Qed.

Lemma probing_call (a : CircuitArgs) (t : string) (c : CircuitHash) :
  probing t (a_now a) c -> a_token a <> t -> a_op a <> "fail"%string ->
  exists c', fst (fst (circuit_script a (Some c))) = Some c' /\
    c_opened c' = c_opened c /\ c_owner c' = t /\ c_own_until c' = c_own_until c /\
    c_consec c' = c_consec c /\
    exists r, circuit_reply a (Some c) = Some r /\ blocks_selection r = true.
Proof.
  intros Hp Ht Hop. destruct (probing_other a t c Hp Ht Hop) as (Hp' & Ho & Hu & Hc).
  unfold circuit_reply, circuit_script. simpl.
  rewrite (observe_tail_probing a t) by done. simpl.
  assert (Hb : (0 <? c_opened (run_op a c)) = true).
  { apply Z.ltb_lt. destruct Hp' as ([? ?] & _). lia. }
  rewrite Hb, orb_true_r.
  eexists. split; [reflexivity|]. destruct Hp' as (_ & Hw & _).
  split_and!; try done. eexists. split; [reflexivity|].
  unfold blocks_selection. simpl.
  by rewrite (proj2 (String.eqb_neq t (a_token a))) by congruence.
Qed.

(** * Properties *)

(** An open circuit stays shut for its whole cooldown.  From a hash opened
    until [D], any sequence of calls with clocks before [D] - any replica, any
    operation, failures and successes included - keeps the deadline at exactly
    [D] (neither shortened nor extended) and every reply blocks selection. *)
Theorem open_window_blocks (c : CircuitHash) (D : Z) (calls : list CircuitArgs)
    (Hopen : c_opened c = D) (Hclock : Forall (fun a => a_now a < D) calls) :
  let '(final, replies) := run_calls calls (Some c) in
  (exists c', final = Some c' /\ c_opened c' = D) /\
  Forall (fun r => exists s, r = Some s /\ blocks_selection s = true) replies.
Proof.
  revert c Hopen. induction Hclock as [|a calls Ha _ IH]; intros c Hopen; simpl.
  - split; [by exists c|constructor].
  - destruct (open_call a c) as (c' & Hc' & Ho & r & Hr & Hb); [lia|].
    unfold circuit_reply in Hr. destruct (circuit_script a (Some c)) as [[st vs] t] eqn:E.
    simpl in Hc', Hr. subst st. specialize (IH c' ltac:(congruence)).
    destruct (run_calls calls (Some c')) as [final replies].
    destruct IH as [IHf IHr]. split; [done|]. constructor; [by exists r|done].
Qed.

Definition example_args (op token : string) (now : Z) : CircuitArgs :=
  mkCircuitArgs op now (now / 60) token 3 10 5 2 0.

Lemma open_window_blocks_witness :
  let c := mkCircuit 3 7 10 3 105 0 1 4 "" 0 in
  let calls := [example_args "observe" "a" 100; example_args "ok" "b" 101;
                example_args "fail" "a" 104] in
  exists c', fst (run_calls calls (Some c)) = Some c' /\ c_opened c' = 105.
Proof.
  intros c calls.
  pose proof (open_window_blocks c 105 calls eq_refl ltac:(repeat constructor)) as H.
  vm_compute in H |- *. destruct H as [H _]. exact H.
Defined.

(** C7: One probe at a time.  While the circuit is half-open and replica [t] holds
    an unexpired probe lease, any sequence of observations and success reports
    from other replicas is refused and changes neither the deadline, the owner,
    the lease nor the count of probe successes: another replica can neither
    probe nor close the circuit. *)
Theorem single_probe_owner (c : CircuitHash) (t : string) (calls : list CircuitArgs)
    (Hhalf : 0 < c_opened c) (Howner : c_owner c = t) (Ht : t <> ""%string)
    (Hcalls : Forall (fun a => c_opened c <= a_now a < c_own_until c /\ a_token a <> t /\
                               a_op a <> "fail"%string) calls) :
  let '(final, replies) := run_calls calls (Some c) in
  (exists c', final = Some c' /\ c_opened c' = c_opened c /\ c_owner c' = t /\
              c_own_until c' = c_own_until c /\ c_consec c' = c_consec c) /\
  Forall (fun r => exists s, r = Some s /\ blocks_selection s = true) replies.
Proof.
  revert c Hhalf Howner Hcalls. induction calls as [|a calls IH]; intros c Hh Ho Hc; simpl.
  - split; [by exists c|constructor].
  - apply Forall_cons in Hc as [([Hlo Hhi] & Htok & Hop) Hrest].
    destruct (probing_call a t c) as (c' & Hc' & H1 & H2 & H3 & H4 & r & Hr & Hb); [|done..|].
    { unfold probing. split_and!; try done; lia. }
    unfold circuit_reply in Hr. destruct (circuit_script a (Some c)) as [[st vs] tl] eqn:E.
    simpl in Hc', Hr. subst st.
    specialize (IH c' ltac:(lia) H2). rewrite H1, H3 in IH. specialize (IH Hrest).
    destruct (run_calls calls (Some c')) as [final replies].
    destruct IH as [(c2 & -> & ? & ? & ? & ?) IHr].
    split; [exists c2; split_and!; congruence|]. constructor; [by exists r|done].
Qed.

Lemma single_probe_owner_witness :
  let c := mkCircuit 0 0 10 3 100 1 1 2 "a" 110 in
  exists c', fst (run_calls [example_args "observe" "b" 101; example_args "ok" "b" 102] (Some c))
             = Some c' /\ c_owner c' = "a"%string /\ c_opened c' = 100.
Proof.
  intros c.
  pose proof (single_probe_owner c "a" [example_args "observe" "b" 101; example_args "ok" "b" 102]
    ltac:(reflexivity) eq_refl ltac:(discriminate)
    ltac:(repeat constructor; vm_compute; congruence)) as H.
  vm_compute in H |- *. destruct H as [(c' & H1 & H2 & H3 & _) _].
  exists c'. split; [exact H1|]. split; [exact H3|exact H2].
Defined.

(** Only the live probe owner closes a circuit, and only with enough
    successes: when a call leaves an opened circuit closed, it is a success
    report, after the cooldown, by the owner within its lease, and its
    consecutive successes have reached the threshold. *)
Theorem closing_needs_owner (a : CircuitArgs) (c c' : CircuitHash)
    (Hopen : 0 < c_opened c) (Hstep : fst (fst (circuit_script a (Some c))) = Some c')
    (Hclosed : c_opened c' = 0) (Hnow : 0 < a_now a + a_cooldown a) :
  a_op a = "ok"%string /\ c_opened c <= a_now a /\ c_owner c = a_token a /\
  a_now a < c_own_until c /\ a_success_th a <= c_consec c + 1.
Proof.
  destruct (Z.lt_ge_cases (a_now a) (c_opened c)) as [Hlt|Hge].
  { destruct (open_call a c Hlt) as (c2 & Hc2 & Ho & _). assert (c2 = c') by congruence.
    subst. lia. }
  assert (Hrun : c_opened (run_op a c) = 0).
  { unfold circuit_script in Hstep. simpl in Hstep. unfold observe_tail in Hstep.
    repeat case_match; simpl in *; try congruence; simplify_eq; simpl in *; try lia.
    all: bool_arith; unfold claim_owner in *; repeat case_match; simpl in *; lia. }
  unfold run_op in Hrun. destruct (roll_epoch_spec a c) as (Ho & Hw & Hu & Hc & _).
  remember (roll_epoch a c) as c0 eqn:E. clear E.
  assert (Hz : (c_opened c =? 0) = false) by (apply Z.eqb_neq; lia).
  assert (Hgt : (a_now a <? c_opened c) = false) by (apply Z.ltb_ge; lia).
  assert (Hp0 : (0 <? c_opened c) = true) by (apply Z.ltb_lt; lia).
  destruct (String.eqb_spec (a_op a) "fail").
  { unfold op_fail, count_failure in Hrun. simpl in Hrun.
    rewrite Ho, Hgt, Hp0 in Hrun. simpl in Hrun. lia. }
  destruct (String.eqb_spec (a_op a) "ok"); [|lia].
  unfold op_ok, count_success in Hrun. simpl in Hrun. rewrite Ho, Hgt, Hp0, Hz in Hrun.
  unfold owns in Hrun. simpl in Hrun. rewrite Hw, Hu, Hc in Hrun.
  destruct (String.eqb_spec (c_owner c) (a_token a)); simpl in Hrun; [|lia].
  destruct (Z.ltb_spec (a_now a) (c_own_until c)); simpl in Hrun; [|lia].
  destruct (Z.leb_spec (a_success_th a) (c_consec c + 1)); [done|].
  unfold claim_owner in Hrun. repeat case_match; simpl in Hrun; lia.
Qed.

Lemma closing_needs_owner_witness :
  let c := mkCircuit 0 0 10 3 100 1 1 2 "a" 110 in
  c_owner c = "a"%string /\ 2 <= c_consec c + 1.
Proof.
  intros c.
  destruct (closing_needs_owner (example_args "ok" "a" 101) c
    (mkCircuit 0 1 11 3 0 2 1 1 "" 0)) as (_ & _ & H1 & _ & H2);
    [reflexivity|vm_compute; reflexivity|reflexivity|reflexivity|].
  split; [exact H1|exact H2].
Defined.

(** Counts of the window after a failure at the epoch of the call. *)
Definition window_failures (a : CircuitArgs) (c : CircuitHash) : Z :=
  (if c_e c =? a_epoch a then c_f c else 0) + 1.
Definition window_successes (a : CircuitArgs) (c : CircuitHash) : Z :=
  if c_e c =? a_epoch a then c_r c else 0.

(** When a failure trips a closed circuit.  It opens it, for [cooldown] from
    the caller's clock, exactly when the reason is an immediate one, or the
    reason is a high failure rate and more than half of at least [min_req]
    lifetime requests failed, or, for plain failures, the window has at least
    [allowed] failures and [min_req] requests; the reply then blocks selection,
    and otherwise the circuit stays closed and selectable. *)
Theorem failure_trips_iff (a : CircuitArgs) (c : CircuitHash)
    (Hop : a_op a = "fail"%string) (Hclosed : c_opened c = 0) (Hnow : 0 < a_now a)
    (Hcool : 0 < a_cooldown a) :
  let trip :=
    a_reason a = 1 \/
    (a_reason a = 2 /\ a_min_req a <= c_tot c + 1 /\ c_tot c + 1 < 2 * (c_fail c + 1)) \/
    (a_reason a <> 1 /\ a_reason a <> 2 /\ a_allowed a <= window_failures a c /\
     a_min_req a <= window_successes a c + window_failures a c) in
  exists c' r,
    fst (fst (circuit_script a (Some c))) = Some c' /\ circuit_reply a (Some c) = Some r /\
    (trip -> c_opened c' = a_now a + a_cooldown a /\ blocks_selection r = true) /\
    (~ trip -> c_opened c' = 0 /\ blocks_selection r = false).
Proof.
  intros trip. unfold circuit_reply, circuit_script, run_op. rewrite Hop. simpl.
  destruct (roll_epoch_spec a c) as (Ho & _ & _ & _ & _ & Ht & Hf).
  assert (Hwf : c_f (roll_epoch a c) + 1 = window_failures a c)
    by (unfold roll_epoch, window_failures; by case_match).
  assert (Hwr : c_r (roll_epoch a c) = window_successes a c)
    by (unfold roll_epoch, window_successes; by case_match).
  remember (roll_epoch a c) as c0 eqn:E. clear E.
  unfold op_fail. simpl. rewrite Ho, Hclosed. rewrite (proj2 (Z.ltb_ge (a_now a) 0)) by lia.
  simpl. assert (Htrip : trips a (count_failure c0) = true <-> trip).
  { unfold trips, trip. simpl. rewrite Ht, Hf, Hwf, Hwr.
    destruct (Z.eqb_spec (a_reason a) 1); [tauto|].
    destruct (Z.eqb_spec (a_reason a) 2); rewrite andb_true_iff, Z.leb_le;
      [rewrite Z.ltb_lt | rewrite Z.leb_le]; lia. }
  destruct (trips a (count_failure c0)).
  - rewrite observe_tail_open by (simpl; lia).
    eexists _, _. split; [reflexivity|]. split; [reflexivity|]. simpl. split; [done|tauto].
  - assert (Hn : ~ trip) by (rewrite <- Htrip; done).
    destruct ((c_h c0 =? 1) || (c_h c0 =? 0)); unfold observe_tail; simpl; rewrite ?Ho, ?Hclosed;
      rewrite (proj2 (Z.ltb_ge (a_now a) 0)) by lia; simpl;
      eexists _, _; (split; [reflexivity|]); (split; [reflexivity|]); simpl;
      rewrite ?Ho, ?Hclosed; split; done.
Qed.

Lemma failure_trips_iff_witness :
  exists c', fst (fst (circuit_script (example_args "fail" "a" 100)
               (Some (mkCircuit 2 7 9 2 0 0 1 1 "" 0)))) = Some c' /\ c_opened c' = 105.
Proof.
  destruct (failure_trips_iff (example_args "fail" "a" 100) (mkCircuit 2 7 9 2 0 0 1 1 "" 0))
    as (c' & r & H1 & _ & H2 & _); [reflexivity|reflexivity|reflexivity|reflexivity|].
  exists c'. split; [exact H1|]. apply H2. right; right.
  vm_compute. repeat split; congruence.
Defined.
