(* ===== verification/Circuit.v ===== *)
(** The router's side of the circuit breaker ([core/router/circuit.rs] and the
    recording methods of [core/router/unified.rs]): the local breaker under the
    circuit fence, the shared snapshots applied to it, and the selectability
    decision.

    An asynchronous write or observation suspends the caller; the fence
    generation read before it is an argument of what runs after it, and the
    shared state after it is whatever other requests made of it. *)

From S2P Require Import Prelude ProviderErrors RouterTypes Deployment Ledger CircuitScript.

(** * Backend outcomes *)

Inductive CircuitObserve := UseLocal | SharedState_obs (state : CircuitState) | Blocked.

Inductive CircuitWrite := LocalWrite | Applied (state : CircuitState) | StrictUnavailable.

Definition reason_code (r : CooldownReason) : Z :=
  match r with
  | ReasonConsecutiveFailures => 0
  | ReasonHighFailureRate => 2
  | ReasonRateLimit | ReasonAuthError | ReasonNotFound | ReasonTimeout | ReasonManual => 1
  end.

(** The arguments [invoke] passes to the script. *)
Definition circuit_args (config : RouterConfig) (op token : string) (now reason : Z)
    : CircuitArgs :=
  mkCircuitArgs op now (now / 60) token (allowed_fails config) (min_requests config)
    (to_i64 (cooldown_time_secs config)) (success_threshold config) reason.

Definition redis_loss_observe (allow_degraded : bool) : CircuitObserve :=
  if allow_degraded then UseLocal else Blocked.

(** [CircuitBackend]: the cache holds, per shared id, a state, the instant it
    was stored and the fence generation it was read at. *)
Definition CACHE_TTL : Z := from_millis 50.

Inductive CircuitBackend :=
| CircuitInProcess
| CircuitRedis (probe_token : string) (allow_degraded : bool)
    (cache : gmap string (CircuitState * Z * Z)).

(** [observe_async].  [invoked] is the result of the script call, [None] on any
    Redis error; [generation] and [generation_after] are the fence before and
    after it; [now] and [stored_at] are the instants of the cache test and
    insertion. *)
Definition observe_async (shared_id : string) (generation generation_after now stored_at : Z)
    (invoked : option CircuitState) (b : CircuitBackend) : CircuitBackend * CircuitObserve :=
  match b with
  | CircuitInProcess => (b, UseLocal)
  | CircuitRedis token allow_degraded cache =>
      let fetch :=
        match invoked with
        | Some state =>
            (CircuitRedis token allow_degraded
               (if generation_after =? generation
                then <[shared_id := (state, stored_at, generation)]> cache else cache),
             SharedState_obs state)
        | None => (b, redis_loss_observe allow_degraded)
        end in
      match cache !! shared_id with
      | Some (state, at_, gen) =>
          if (now - at_ <? CACHE_TTL) && (gen =? generation) then (b, SharedState_obs state)
          else fetch
      | None => fetch
      end
  end.

(** [write], for the operations "fail" and "ok". *)
Definition circuit_write (shared_id : string) (generation generation_after stored_at : Z)
    (invoked : option CircuitState) (b : CircuitBackend) : CircuitBackend * CircuitWrite :=
  match b with
  | CircuitInProcess => (b, LocalWrite)
  | CircuitRedis token allow_degraded cache =>
      match invoked with
      | Some state =>
          (CircuitRedis token allow_degraded
             (if generation_after =? generation
              then <[shared_id := (state, stored_at, generation)]> cache else cache),
           Applied state)
      | None => (b, if allow_degraded then LocalWrite else StrictUnavailable)
      end
  end.

(** * Applying a shared snapshot *)

Definition set_local_cooldown (v : Z) (f : LocalCircuitFence) : LocalCircuitFence :=
  mkFence (fence_generation f) v (failure_window f) (local_failure_floor f)
    (local_recovery_successes f).
Definition set_failure_window (w floor : Z) (f : LocalCircuitFence) : LocalCircuitFence :=
  mkFence (fence_generation f) (local_cooldown_until f) w floor (local_recovery_successes f).

(** [as u32] and [as u8] of an [i64]. *)
Definition as_u32 (v : Z) : Z := v mod 2 ^ 32.
Definition as_u8 (v : Z) : Z := v mod 2 ^ 8.

(** The fence after a snapshot: a new minute window clears the failure floor,
    an expired local cooldown and enough real successes clear their marks. *)
Definition snapshot_fence (now threshold window : Z) (f : LocalCircuitFence)
    : LocalCircuitFence :=
  let f := if failure_window f =? window then f
           else let f := set_failure_window window 0 f in
                if local_cooldown_until f <=? now then set_recovery None f else f in
  let f := if local_cooldown_until f <=? now then set_local_cooldown 0 f else f in
  if negb (now <? local_cooldown_until f)
     && match local_recovery_successes f with Some n => threshold <=? n | None => false end
  then set_recovery None f else f.

Definition snapshot_health (state : CircuitState) (local_cooldown preserve : bool)
    (probe_bad : bool) : HealthStatus :=
  let shared_health := health_of_u8 (as_u8 (Z.max (st_health state) 0)) in
  if local_cooldown || (st_status state =? 1) then Cooldown
  else if probe_bad then Unhealthy
  else if preserve && match shared_health with Healthy | Unknown => true | _ => false end
  then Degraded
  else shared_health.

Definition apply_section (state : CircuitState) (now threshold : Z) (s : SharedState)
    : SharedState :=
  let f := snapshot_fence now threshold (minute_window_generation s) (fence s) in
  let local_cooldown := now <? local_cooldown_until f in
  let preserve := match local_recovery_successes f with Some _ => true | None => false end in
  let s := set_fence f s in
  let s := upd_inner (fun i =>
    set_fails_this_minute
      (Z.max (as_u32 (Z.max (st_fails state) 0)) (local_failure_floor f))
      (set_cooldown_until
        (Z.max (Z.max (st_opened_until state) 0) (local_cooldown_until f)) i)) s in
  let s := if negb local_cooldown && negb preserve
           then upd_inner (set_consecutive_successes
                             (as_u32 (Z.max (st_consecutive_successes state) 0))) s
           else s in
  upd_inner (fun i => set_health
    (health_u8 (snapshot_health state local_cooldown preserve (probe_unhealthy i))) i) s.

Definition apply_circuit_snapshot (state : CircuitState) (generation threshold : Z)
    (now reset_now : Z) (s : SharedState) : SharedState :=
  if fence_generation (fence s) =? generation
  then fst (with_current_minute now reset_now
              (fun s => (apply_section state now threshold s, tt)) s)
  else s.

(** * Recording failures *)

Definition protect_local_cooldown (config : RouterConfig) (now : Z) (s : SharedState)
    : SharedState :=
  let s := enter_cooldown now (cooldown_time_secs config) s in
  let until := Z.max (local_cooldown_until (fence s)) (cooldown_until (inner s)) in
  let s := set_fence (set_local_cooldown until (fence s)) s in
  upd_inner (set_cooldown_until until) s.

(** The breaker's own decision; [None] is the division panic. *)
Definition should_cooldown (config : RouterConfig) (reason : CooldownReason)
    (minute : MinuteCounters) (s : SharedState) : option bool :=
  match reason with
  | ReasonRateLimit | ReasonAuthError | ReasonNotFound | ReasonTimeout | ReasonManual =>
      Some true
  | ReasonConsecutiveFailures =>
      let fails := minute_failures minute in
      let total := wrap_u64 (minute_successes minute + fails) in
      Some ((allowed_fails config <=? fails) && (min_requests config <=? total))
  | ReasonHighFailureRate =>
      let total := total_requests (inner s) in
      let fails := fail_requests (inner s) in
      if min_requests config <=? total then
        if total =? 0 then None else Some (50 <? wrap_u64 (fails * 100) / total)
      else Some false
  end.

(** [record_local_failure_locked]; the three clock readings are the ones of
    [record_failure_with_minute_counters] and [enter_cooldown]. *)
Definition record_local_failure_locked (config : RouterConfig) (reason : CooldownReason)
    (now reset_now cool_now : Z) (s : SharedState) : option SharedState :=
  f ← bump_generation (fence s);
  let s := set_fence f s in
  let '(s, minute) := record_failure_with_minute_counters now reset_now s in
  let f := fence s in
  let f := if failure_window f =? window_generation minute then f
           else set_failure_window (window_generation minute) 0 f in
  let f := set_failure_window (failure_window f)
             (Z.max (local_failure_floor f) (minute_failures minute)) f in
  let s := set_fence (set_recovery (Some 0) f) s in
  cool ← should_cooldown config reason minute s;
  Some (if cool : bool then protect_local_cooldown config cool_now s else s).

Definition record_local_failure := record_local_failure_locked.

Definition promote_from_local_success (config : RouterConfig) (s : SharedState)
    : SharedState :=
  if health (inner s) =? health_u8 Degraded then
    if success_threshold config <=? consecutive_successes (inner s)
    then promote_to_healthy_if_degraded s else s
  else s.

(** What the recording methods of the router do when the circuit write
    returns, on the state [s] of that moment. *)
Definition complete_success_write (config : RouterConfig) (write : CircuitWrite)
    (generation now reset_now : Z) (s : SharedState) : SharedState :=
  match write with
  | LocalWrite =>
      if fence_generation (fence s) =? generation
      then promote_from_local_success config s else s
  | StrictUnavailable => s
  | Applied state =>
      apply_circuit_snapshot state generation (success_threshold config) now reset_now s
  end.

(** [record_failure_with_reason_for_deployment_async], after its write. *)
Definition complete_failure_write (config : RouterConfig) (reason : CooldownReason)
    (write : CircuitWrite) (generation now reset_now cool_now : Z) (s : SharedState)
    : option SharedState :=
  match write with
  | LocalWrite => record_local_failure config reason now reset_now cool_now s
  | StrictUnavailable =>
      s ← record_local_failure_locked config reason now reset_now cool_now s;
      Some (protect_local_cooldown config cool_now s)
  | Applied state =>
      let unchanged := fence_generation (fence s) =? generation in
      s ← record_local_failure_locked config reason now reset_now cool_now s;
      Some (if unchanged
            then apply_circuit_snapshot state (fence_generation (fence s))
                   (success_threshold config) cool_now reset_now s
            else s)
  end.

(** [record_failure_circuit_for_deployment_async]: the local failure was
    recorded before. *)
Definition complete_failure_circuit (config : RouterConfig) (write : CircuitWrite)
    (generation now reset_now : Z) (s : SharedState) : option SharedState :=
  match write with
  | LocalWrite => Some s
  | StrictUnavailable =>
      f ← bump_generation (fence s);
      Some (protect_local_cooldown config now (set_fence f s))
  | Applied state =>
      Some (apply_circuit_snapshot state generation (success_threshold config)
              now reset_now s)
  end.

(** * Selectability *)

(** What happens while a selection is suspended or between its two critical
    sections: the observation returned with the state it resumes on, and the
    state after [apply_circuit_snapshot] as seen by the second lock. *)
Record Suspension := mkSuspension {
  sus_observe : SharedState -> SharedState * CircuitObserve;
  sus_between : SharedState -> SharedState;
  sus_now : Z;
  sus_reset_now : Z;
  sus_later : Z;
}.

(** [!is_in_cooldown() && is_healthy()]. *)
Definition locally_selectable (now : Z) (s : SharedState) : SharedState * bool :=
  let '(s, cooling) := is_in_cooldown now s in
  (s, negb cooling && is_healthy s).

(** One pass of the loop; [None] asks for another observation. *)
Definition selectable_once (config : RouterConfig) (w : Suspension) (s : SharedState)
    : SharedState * option bool :=
  let generation := fence_generation (fence s) in
  let '(s, obs) := sus_observe w s in
  match obs with
  | UseLocal => let '(s, b) := locally_selectable (sus_now w) s in (s, Some b)
  | Blocked => (s, Some false)
  | SharedState_obs state =>
      let s := apply_circuit_snapshot state generation (success_threshold config)
                 (sus_now w) (sus_reset_now w) s in
      let s := sus_between w s in
      if fence_generation (fence s) =? generation then
        if blocks_selection state then (s, Some false)
        else let '(s, b) := locally_selectable (sus_later w) s in (s, Some b)
      else (s, None)
  end.

(** [deployment_is_selectable_with_observer]: at most two observations. *)
Definition deployment_is_selectable_with_observer (config : RouterConfig)
    (w1 w2 : Suspension) (s : SharedState) : SharedState * bool :=
  match selectable_once config w1 s with
  | (s, Some b) => (s, b)
  | (s, None) =>
      match selectable_once config w2 s with
      | (s, Some b) => (s, b)
      | (s, None) => (s, false)
      end
  end.

(** * Lemmas *)

Lemma bump_generation_spec (f f' : LocalCircuitFence) :
  bump_generation f = Some f' ->
  fence_generation f' = fence_generation f + 1 /\
  local_cooldown_until f' = local_cooldown_until f /\
  failure_window f' = failure_window f /\
  local_failure_floor f' = local_failure_floor f /\
  local_recovery_successes f' = local_recovery_successes f.
Proof.
  unfold bump_generation, checked_add_u64. case_match; simpl; [|done].
  intros [= <-]. done.
Qed.

Lemma roll_exclusive_fence (now : Z) (s : SharedState) :
  fence (roll_exclusive now s) = fence s /\
  health (inner (roll_exclusive now s)) = health (inner s) /\
  cooldown_until (inner (roll_exclusive now s)) = cooldown_until (inner s).
Proof. unfold roll_exclusive. by case_match. Qed.

Lemma record_failure_fence (now reset_now : Z) (s : SharedState) :
  fence (fst (record_failure_with_minute_counters now reset_now s)) = fence s /\
  cooldown_until (inner (fst (record_failure_with_minute_counters now reset_now s)))
    = cooldown_until (inner s).
Proof.
  unfold record_failure_with_minute_counters, with_current_minute, roll_exclusive.
  simpl. repeat case_match; simplify_eq; simpl; done.
Qed.

Lemma protect_local_cooldown_spec (config : RouterConfig) (now : Z) (s : SharedState) :
  let s' := protect_local_cooldown config now s in
  fence_generation (fence s') = fence_generation (fence s) /\
  local_cooldown_until (fence s') = cooldown_until (inner s') /\
  wrap_u64 (now + cooldown_time_secs config) <= local_cooldown_until (fence s') /\
  local_cooldown_until (fence s) <= local_cooldown_until (fence s') /\
  health_status s' = Cooldown.
Proof.
  unfold protect_local_cooldown, enter_cooldown, fetch_add_u64. simpl.
  case_decide as Hd; simpl; split_and!; try done; lia.
Qed.

(** A deployment under a local cooldown until [D]: the fence remembers it and
    the published state shows it. *)
Definition cooling_until (D : Z) (s : SharedState) : Prop :=
  D <= local_cooldown_until (fence s) /\ D <= cooldown_until (inner s) /\
  health_status s = Cooldown.

(** A snapshot cannot lift a local cooldown before its end. *)
Lemma snapshot_fence_cooling (now threshold window D : Z) (f : LocalCircuitFence) :
  now < D -> D <= local_cooldown_until f ->
  local_cooldown_until (snapshot_fence now threshold window f) = local_cooldown_until f.
Proof.
  intros Hn HD. unfold snapshot_fence.
  repeat case_match; simpl in *; bool_arith; try done; lia.
Qed.

Lemma apply_section_cooling (state : CircuitState) (now threshold D : Z) (s : SharedState) :
  now < D -> D <= local_cooldown_until (fence s) ->
  cooling_until D (apply_section state now threshold s).
Proof.
  intros Hn HD. unfold apply_section.
  pose proof (snapshot_fence_cooling now threshold (minute_window_generation s) D (fence s)
    Hn HD) as Hl.
  set (f := snapshot_fence _ _ _ _) in *.
  assert (Hc : (now <? local_cooldown_until f) = true) by (apply Z.ltb_lt; lia).
  unfold cooling_until, health_status. rewrite Hc. simpl. rewrite Hl.
  split_and!; [lia|lia|done].
Qed.

Lemma apply_circuit_snapshot_cooling (state : CircuitState) (generation threshold : Z)
    (now reset_now D : Z) (s : SharedState) :
  now < D -> cooling_until D s ->
  cooling_until D (apply_circuit_snapshot state generation threshold now reset_now s).
Proof.
  intros Hn Hs. unfold apply_circuit_snapshot. case_match; [|done].
  unfold with_current_minute. case_match; simpl; apply apply_section_cooling; try done.
  - destruct (roll_exclusive_fence reset_now s) as (-> & _). apply Hs.
  - apply Hs.
Qed.

Lemma locally_selectable_cooling (now D : Z) (s : SharedState) :
  now < D -> cooling_until D s -> snd (locally_selectable now s) = false.
Proof.
  intros Hn (_ & Hc & Hh). unfold locally_selectable, is_in_cooldown, is_healthy.
  destruct (Z.eqb_spec (cooldown_until (inner s)) 0); simpl; [by rewrite Hh|].
  by rewrite (proj2 (Z.ltb_lt _ _)) by lia.
Qed.

(** Suspensions during which nothing lifts the local cooldown. *)
Definition calm (D : Z) (w : Suspension) : Prop :=
  (forall s, cooling_until D s -> cooling_until D (fst (sus_observe w s))) /\
  (forall s, cooling_until D s -> cooling_until D (sus_between w s)) /\
  sus_now w < D /\ sus_later w < D.

Lemma selectable_once_cooling (config : RouterConfig) (w : Suspension) (D : Z)
    (s : SharedState) :
  calm D w -> cooling_until D s ->
  match selectable_once config w s with
  | (s', Some b) => b = false
  | (s', None) => cooling_until D s'
  end.
Proof.
  intros (Ho & Hb & Hn & Hl) Hs. unfold selectable_once.
  specialize (Ho s Hs). destruct (sus_observe w s) as [s1 obs]. simpl in Ho.
  destruct obs as [|state|]; [| |done].
  - pose proof (locally_selectable_cooling (sus_now w) D s1 Hn Ho).
    by destruct (locally_selectable (sus_now w) s1).
  - pose proof (apply_circuit_snapshot_cooling state (fence_generation (fence s))
      (success_threshold config) (sus_now w) (sus_reset_now w) D s1 Hn Ho) as Ha.
    apply Hb in Ha. destruct (_ =? _); [|done]. destruct (blocks_selection state); [done|].
    pose proof (locally_selectable_cooling (sus_later w) D _ Hl Ha) as Hf.
    by destruct (locally_selectable (sus_later w) _).
Qed.

Lemma record_local_failure_cooling (config : RouterConfig) (reason : CooldownReason)
    (now reset_now cool_now : Z) (s s1 : SharedState) :
  reason_code reason = 1 -> 0 <= cool_now -> 0 <= cooldown_time_secs config ->
  cool_now + cooldown_time_secs config <= u64_max ->
  record_local_failure_locked config reason now reset_now cool_now s = Some s1 ->
  cooling_until (cool_now + cooldown_time_secs config) s1.
Proof.
  intros Hr Hn Hc Hfit. unfold record_local_failure_locked.
  destruct (bump_generation (fence s)) as [f|]; [|done]. simpl.
  destruct (record_failure_with_minute_counters _ _ _) as [s2 minute].
  assert (Hs : forall m t, should_cooldown config reason m t = Some true)
    by (by destruct reason).
  rewrite Hs. simpl. intros [= <-].
  match goal with |- cooling_until _ (protect_local_cooldown _ _ ?x) =>
    destruct (protect_local_cooldown_spec config cool_now x) as (_ & Heq & Hle & _ & Hh) end.
  rewrite wrap_u64_small in Hle by (unfold fits_u64; lia).
  unfold cooling_until. rewrite <- Heq. split_and!; [lia|lia|done].
Qed.

Lemma record_local_failure_generation (config : RouterConfig) (reason : CooldownReason)
    (now reset_now cool_now : Z) (s s1 : SharedState) :
  record_local_failure_locked config reason now reset_now cool_now s = Some s1 ->
  fence_generation (fence s1) = fence_generation (fence s) + 1.
Proof.
  unfold record_local_failure_locked.
  destruct (bump_generation (fence s)) as [f|] eqn:Hb; [|done]. simpl.
  apply bump_generation_spec in Hb as (Hg & _).
  pose proof (record_failure_fence now reset_now (set_fence f s)) as [Hf _].
  destruct (record_failure_with_minute_counters _ _ _) as [s2 minute]. simpl in Hf.
  match goal with |- context [should_cooldown ?c ?r ?m ?t] =>
    destruct (should_cooldown c r m t) as [[]|]; simpl; [| |done];
    set (s3 := t) end; intros [= <-].
  - destruct (protect_local_cooldown_spec config cool_now s3) as (-> & _).
    unfold s3; simpl. rewrite Hf. case_match; simpl; lia.
  - unfold s3; simpl. rewrite Hf. case_match; simpl; lia.
Qed.

Lemma with_current_minute_fence {T} (now reset_now : Z)
    (op : SharedState -> SharedState * T) (s : SharedState) :
  (forall x, fence (fst (op x)) = fence x) ->
  fence (fst (with_current_minute now reset_now op s)) = fence s.
Proof.
  intros Hop. unfold with_current_minute. case_match; rewrite Hop; [|done].
  apply roll_exclusive_fence.
Qed.

Lemma observe_usage_fence (tokens : Z) (admission : option AdmissionHold) (s : SharedState) :
  fence (fst (observe_usage tokens (record_success_usage tokens) admission s)) = fence s.
Proof.
  unfold observe_usage, record_local_observation, record_observation.
  destruct admission as [[h|]|]; try done. by destruct (completion h).
Qed.

Lemma record_success_generation (now reset_now tokens latency : Z)
    (admission admission' : option AdmissionHold) (s s1 : SharedState) :
  record_success_with_admission now reset_now tokens latency admission s
    = Some (s1, admission') ->
  fence_generation (fence s1) = fence_generation (fence s) + 1.
Proof.
  unfold record_success_with_admission.
  destruct (bump_generation (fence s)) as [f|] eqn:Hb; [|done].
  apply bump_generation_spec in Hb as (Hg & _). cbn -[with_current_minute].
  match goal with |- context [with_current_minute now reset_now ?op ?x] =>
    pose proof (with_current_minute_fence now reset_now op x
      (observe_usage_fence tokens admission)) as Hf;
    destruct (with_current_minute now reset_now op x) as [s2 a2] end.
  intros [= <- _]. simpl in *. rewrite Hf. by case_match.
Qed.

(** * Properties *)

(** An immediate failure takes the deployment out of rotation for its whole
    cooldown.  After a rate-limit, authentication, not-found, timeout or manual
    failure recorded at [cool_now], until [cool_now + cooldown_time_secs]: no
    sequence of shared snapshots - whatever they say and whenever they were
    observed - lifts the local cooldown, and no selection accepts the
    deployment, with local, shared or failed observations, as long as what
    runs meanwhile does not lift it either. *)
Theorem immediate_failure_blocks (config : RouterConfig) (reason : CooldownReason)
    (now reset_now cool_now : Z) (s s1 : SharedState)
    (Himm : reason_code reason = 1) (Hnow : 0 <= cool_now)
    (Hcool : 0 <= cooldown_time_secs config)
    (Hfit : cool_now + cooldown_time_secs config <= u64_max)
    (Hrec : record_local_failure_locked config reason now reset_now cool_now s = Some s1) :
  let D := cool_now + cooldown_time_secs config in
  (forall snapshots : list (CircuitState * Z * Z * Z * Z),
     Forall (fun x => snd (fst x) < D) snapshots ->
     cooling_until D (foldl (fun s '(st, gen, th, n, rn) =>
                               apply_circuit_snapshot st gen th n rn s) s1 snapshots)) /\
  (forall w1 w2, calm D w1 -> calm D w2 ->
     snd (deployment_is_selectable_with_observer config w1 w2 s1) = false).
Proof.
  intros D.
  assert (H1 : cooling_until D s1) by (by eapply record_local_failure_cooling).
  split.
  - clear Hrec. intros snaps Hall. revert s1 H1.
    induction Hall as [|[[[[st gen] th] n] rn] snaps Hn _ IH]; intros s1 H1; simpl; [done|].
    apply IH. by apply apply_circuit_snapshot_cooling.
  - intros w1 w2 Hw1 Hw2. unfold deployment_is_selectable_with_observer.
    pose proof (selectable_once_cooling config w1 D s1 Hw1 H1) as Ho1.
    destruct (selectable_once config w1 s1) as [s2 [b|]]; [done|].
    pose proof (selectable_once_cooling config w2 D s2 Hw2 Ho1) as Ho2.
    by destruct (selectable_once config w2 s2) as [s3 [b|]].
Qed.

Lemma immediate_failure_blocks_witness :
  exists s1,
    record_local_failure_locked RouterConfig_default ReasonRateLimit 100 100 100
      (DeploymentState_new 100) = Some s1 /\
    snd (deployment_is_selectable_with_observer RouterConfig_default
           (mkSuspension (fun s => (s, UseLocal)) id 104 104 104)
           (mkSuspension (fun s => (s, UseLocal)) id 104 104 104) s1) = false.
Proof.
  destruct (record_local_failure_locked RouterConfig_default ReasonRateLimit 100 100 100
      (DeploymentState_new 100)) as [s1|] eqn:E; [|vm_compute in E; discriminate].
  exists s1. split; [reflexivity|].
  refine (proj2 (immediate_failure_blocks RouterConfig_default ReasonRateLimit 100 100 100
    (DeploymentState_new 100) s1 _ _ _ _ E) _ _ _ _);
    try reflexivity; try (vm_compute; discriminate).
  - split_and!; simpl; try done; lia.
  - split_and!; simpl; try done; lia.
Defined.

(** A shared snapshot never overrides a newer local outcome: the snapshot
    was requested at the fence generation before a failure or a success was
    recorded, so applying it afterwards changes nothing. *)
Theorem stale_snapshot_ignored (config : RouterConfig) (reason : CooldownReason)
    (state : CircuitState) (now reset_now cool_now tokens latency threshold n rn : Z)
    (admission admission' : option AdmissionHold) (s s1 s2 : SharedState)
    (Hfail : record_local_failure_locked config reason now reset_now cool_now s = Some s1)
    (Hok : record_success_with_admission now reset_now tokens latency admission s
             = Some (s2, admission')) :
  apply_circuit_snapshot state (fence_generation (fence s)) threshold n rn s1 = s1 /\
  apply_circuit_snapshot state (fence_generation (fence s)) threshold n rn s2 = s2.
Proof.
  apply record_local_failure_generation in Hfail. apply record_success_generation in Hok.
  unfold apply_circuit_snapshot. rewrite Hfail, Hok.
  by destruct (Z.eqb_spec (fence_generation (fence s) + 1) (fence_generation (fence s))); [lia|].
Qed.

Lemma stale_snapshot_ignored_witness :
  let s := DeploymentState_new 100 in
  let st := mkCircuitState 0 0 0 0 1 true in
  match record_local_failure_locked RouterConfig_default ReasonTimeout 100 100 100 s,
        record_success_with_admission 100 100 5 5 None s with
  | Some s1, Some (s2, _) =>
      apply_circuit_snapshot st 0 3 101 101 s1 = s1 /\
      apply_circuit_snapshot st 0 3 101 101 s2 = s2
  | _, _ => False
  end.
Proof.
  intros s st.
  destruct (record_local_failure_locked RouterConfig_default ReasonTimeout 100 100 100 s)
    as [s1|] eqn:E1; [|vm_compute in E1; discriminate].
  destruct (record_success_with_admission 100 100 5 5 None s) as [[s2 a]|] eqn:E2;
    [|vm_compute in E2; discriminate].
  apply (stale_snapshot_ignored RouterConfig_default ReasonTimeout st 100 100 100 5 5 3 101 101
           None a s s1 s2 E1 E2).
Defined.

(** The counts a failure recorded in the current window sees. *)
Lemma record_failure_minute (now reset_now : Z) (s : SharedState) :
  minute_window_needs_roll now (minute_reset_at (inner s)) = false ->
  let '(s', m) := record_failure_with_minute_counters now reset_now s in
  minute_failures m = wrap_u32 (fails_this_minute (inner s) + 1) /\
  minute_successes m = successes_this_minute (inner s) /\
  total_requests (inner s') = wrap_u64 (total_requests (inner s) + 1) /\
  fail_requests (inner s') = wrap_u64 (fail_requests (inner s) + 1) /\
  (health_status s <> Cooldown -> health_status s' <> Cooldown).
Proof.
  intros Hr. unfold record_failure_with_minute_counters, with_current_minute. simpl.
  rewrite Hr. simpl. unfold health_status. simpl.
  destruct (health_of_u8 (health (inner s))) eqn:E; simpl; split_and!; try done;
    unfold health_status; simpl; congruence.
Qed.

(** The local breaker on plain failures.  In the current minute window, a
    deployment that is not cooling down enters cooldown exactly when the
    failures of the minute, this one included, reach [allowed_fails] and the
    outcomes of the minute reach [min_requests]. *)
Theorem consecutive_failures_trip_iff (config : RouterConfig) (now reset_now cool_now : Z)
    (s s1 : SharedState)
    (Hroll : minute_window_needs_roll now (minute_reset_at (inner s)) = false)
    (Hh : health_status s <> Cooldown)
    (Hf : 0 <= fails_this_minute (inner s) < u32_max)
    (Hs : 0 <= successes_this_minute (inner s) < u64_max - u32_max)
    (Hrec : record_local_failure_locked config ReasonConsecutiveFailures
              now reset_now cool_now s = Some s1) :
  health_status s1 = Cooldown <->
  allowed_fails config <= fails_this_minute (inner s) + 1 /\
  min_requests config <= successes_this_minute (inner s) + fails_this_minute (inner s) + 1.
Proof.
  unfold record_local_failure_locked in Hrec.
  destruct (bump_generation (fence s)) as [f|]; [|done]. simpl in Hrec.
  pose proof (record_failure_minute now reset_now (set_fence f s) Hroll) as Hm.
  destruct (record_failure_with_minute_counters _ _ _) as [s2 m].
  destruct Hm as (Hmf & Hms & _ & _ & Hh2). specialize (Hh2 Hh). simpl in Hmf, Hms.
  rewrite wrap_u32_small in Hmf by (unfold fits_u32; lia).
  unfold should_cooldown in Hrec. rewrite Hmf, Hms in Hrec.
  rewrite wrap_u64_small in Hrec by (unfold fits_u64, u64_max, u32_max in *; lia).
  simpl in Hrec. rewrite Z.add_assoc in Hrec.
  destruct (Z.leb_spec (allowed_fails config) (fails_this_minute (inner s) + 1));
    destruct (Z.leb_spec (min_requests config)
                (successes_this_minute (inner s) + fails_this_minute (inner s) + 1));
    simpl in Hrec; injection Hrec as <-.
  - match goal with |- health_status (protect_local_cooldown _ _ ?x) = _ <-> _ =>
      destruct (protect_local_cooldown_spec config cool_now x) as (_ & _ & _ & _ & ->) end.
    tauto.
  - split; [done|lia].
  - split; [done|lia].
  - split; [done|lia].
Qed.

Lemma consecutive_failures_trip_iff_witness :
  let s := upd_inner (fun i => set_fails_this_minute 2 (set_successes_this_minute 7 i))
             (DeploymentState_new 100) in
  match record_local_failure_locked RouterConfig_default ReasonConsecutiveFailures
          100 100 100 s with
  | Some s1 => health_status s1 = Cooldown
  | None => False
  end.
Proof.
  intros s.
  destruct (record_local_failure_locked RouterConfig_default ReasonConsecutiveFailures
          100 100 100 s) as [s1|] eqn:E; [|vm_compute in E; discriminate].
  apply (consecutive_failures_trip_iff RouterConfig_default 100 100 100 s s1);
    try exact E; try (vm_compute; split; congruence); vm_compute; congruence.
Defined.

(** The local high-failure-rate rule divides integers, so it trips only from
    51 % of failures on, while the shared script compares the exact rate: with
    101 failures in 200 requests the shared breaker opens and the local one
    does not. *)
Theorem high_failure_rate_rounds (config : RouterConfig) (m : MinuteCounters)
    (s : SharedState) (Htot : 0 < total_requests (inner s))
    (Hfail : 0 <= fail_requests (inner s)) (Hfit : fail_requests (inner s) * 100 <= u64_max) :
  (should_cooldown config ReasonHighFailureRate m s = Some true <->
     min_requests config <= total_requests (inner s) /\
     51 * total_requests (inner s) <= 100 * fail_requests (inner s)) /\
  (forall a c, a_reason a = 2 -> a_min_req a = min_requests config ->
     c_tot c = total_requests (inner s) -> c_fail c = fail_requests (inner s) ->
     (trips a c = true <->
        min_requests config <= total_requests (inner s) /\
        50 * total_requests (inner s) < 100 * fail_requests (inner s))).
Proof.
  split.
  - unfold should_cooldown. destruct (Z.leb_spec (min_requests config) (total_requests (inner s)));
      [|split; [done|lia]].
    destruct (Z.eqb_spec (total_requests (inner s)) 0); [lia|].
    rewrite wrap_u64_small by (unfold fits_u64; lia).
    split.
    + intros [= Hlt]. apply Z.ltb_lt in Hlt. split; [done|].
      pose proof (Z.mul_div_le (fail_requests (inner s) * 100) (total_requests (inner s)) Htot).
      nia.
    + intros [_ Hle]. f_equal. apply Z.ltb_lt.
      assert (51 <= fail_requests (inner s) * 100 / total_requests (inner s))
        by (apply Z.div_le_lower_bound; lia). lia.
  - intros a c Hr Hmin Ht Hf. unfold trips. rewrite Hr, Hmin, Ht, Hf. simpl.
    rewrite andb_true_iff, Z.leb_le, Z.ltb_lt. lia.
Qed.

Lemma high_failure_rate_rounds_witness :
  let s := upd_inner (fun i => set_total_requests 200 (set_fail_requests 101 i))
             (DeploymentState_new 100) in
  should_cooldown RouterConfig_default ReasonHighFailureRate (mkMinute 0 0 0 0 0) s
    <> Some true /\
  trips (mkCircuitArgs "fail" 100 1 "a" 3 10 5 3 2) (mkCircuit 0 0 200 101 0 0 1 1 "" 0) = true.
Proof.
  intros s.
  destruct (high_failure_rate_rounds RouterConfig_default (mkMinute 0 0 0 0 0) s) as [H1 H2];
    [vm_compute; reflexivity|vm_compute; congruence|vm_compute; congruence|].
  split.
  - intros H. apply H1 in H as [_ H]. vm_compute in H. congruence.
  - apply H2; [reflexivity..|]. vm_compute. split; congruence.
Defined.

(** Why an observation of [w], requested on [s0], may accept the final state. *)
Definition accepting (w : Suspension) (s0 s' : SharedState) (obs : CircuitObserve) : Prop :=
  match obs with
  | UseLocal => cooldown_until (inner s') = 0 \/ cooldown_until (inner s') <= sus_now w
  | SharedState_obs state =>
      blocks_selection state = false /\
      fence_generation (fence s') = fence_generation (fence s0) /\
      (cooldown_until (inner s') = 0 \/ cooldown_until (inner s') <= sus_later w)
  | Blocked => False
  end.

Lemma locally_selectable_sound (now : Z) (x y : SharedState) :
  locally_selectable now x = (y, true) ->
  is_healthy y = true /\ fence y = fence x /\
  (cooldown_until (inner y) = 0 \/ cooldown_until (inner y) <= now).
Proof.
  unfold locally_selectable.
  pose proof (is_in_cooldown_bool now x) as Hb. pose proof (is_in_cooldown_preserves now x) as Hp.
  destruct (is_in_cooldown now x) as [x' b]. simpl in Hb, Hp.
  destruct b; simpl; [done|]. intros [= -> Hh]. destruct Hp as (-> & _ & -> & _).
  split; [done|]. split; [done|].
  destruct (Z.eqb_spec (cooldown_until (inner x)) 0); [by left|].
  symmetry in Hb. apply andb_false_iff in Hb as [Hb|Hb]; bool_arith; [done|by right].
Qed.

Lemma selectable_once_sound (config : RouterConfig) (w : Suspension) (x y : SharedState) :
  selectable_once config w x = (y, Some true) ->
  is_healthy y = true /\
  exists s1 obs, sus_observe w x = (s1, obs) /\ accepting w x y obs.
Proof.
  unfold selectable_once. destruct (sus_observe w x) as [x1 obs] eqn:Eo.
  destruct obs as [|state|]; [| |done].
  - destruct (locally_selectable (sus_now w) x1) as [y' b] eqn:El.
    intros [= -> ->]. apply locally_selectable_sound in El as (? & _ & ?). eauto.
  - match goal with |- context [sus_between w ?z] => set (x2 := sus_between w z) end.
    destruct (Z.eqb_spec (fence_generation (fence x2)) (fence_generation (fence x))); [|done].
    destruct (blocks_selection state) eqn:Hb; [done|].
    destruct (locally_selectable (sus_later w) x2) as [y' b] eqn:El.
    intros [= -> ->]. apply locally_selectable_sound in El as (? & Hf & ?). split; [done|].
    exists x1, (SharedState_obs state). split; [done|]. simpl. rewrite Hf. by split_and!.
Qed.

(** Selection fails closed.  When a deployment is declared selectable, it is
    healthy or half-open, its cooldown is over, and the deciding observation
    was a local one or a shared one that does not block at the fence generation
    it was requested at; a failed (blocked) observation never accepts. *)
Theorem selectable_sound (config : RouterConfig) (w1 w2 : Suspension) (s s' : SharedState)
    (Hsel : deployment_is_selectable_with_observer config w1 w2 s = (s', true)) :
  is_healthy s' = true /\
  exists w s0 s1 obs, (w = w1 \/ w = w2) /\ sus_observe w s0 = (s1, obs) /\
    accepting w s0 s' obs.
Proof.
  unfold deployment_is_selectable_with_observer in Hsel.
  destruct (selectable_once config w1 s) as [x [b|]] eqn:E1.
  - simplify_eq. apply selectable_once_sound in E1 as (? & s1 & obs & ? & ?).
    split; [done|]. exists w1, s, s1, obs. auto.
  - destruct (selectable_once config w2 x) as [y [b|]] eqn:E2; [|done].
    simplify_eq. apply selectable_once_sound in E2 as (? & s1 & obs & ? & ?).
    split; [done|]. exists w2, x, s1, obs. auto.
Qed.

Lemma selectable_sound_witness :
  let w := mkSuspension (fun s => (s, UseLocal)) id 101 101 101 in
  is_healthy (fst (deployment_is_selectable_with_observer RouterConfig_default w w
                     (DeploymentState_new 100))) = true.
Proof.
  intros w.
  destruct (deployment_is_selectable_with_observer RouterConfig_default w w
              (DeploymentState_new 100)) as [s' b] eqn:E.
  assert (b = true) as -> by (vm_compute in E; congruence).
  exact (proj1 (selectable_sound RouterConfig_default w w _ s' E)).
Defined.
