(* ===== verification/AdmissionScript.v ===== *)
(** Shared admission: the Lua script every replica runs on one Redis hash per
    deployment ([storage/redis/admission.rs]) to reserve, settle, cancel and
    retain parallel slots, requests and tokens.

    The hash holds the counters and one field per lease, which the script
    prints and parses as [p:rpm:tpm:epoch:expiry]; [Lease] is the parsed field.
    Lua prints integers from 10^14 on with an exponent, which the pattern of
    [reclaim] does not read: the next call deletes such a field before anything
    else reads it, so [write_lease] stores nothing for it.  [reclaim] prints a
    lease it has just read with the minute of the clock, which is taken to be
    below 10^14.  The counters are exact below 2^53. *)

From S2P Require Import Prelude.

(** * State *)

Record Lease := mkLease {
  l_p : Z;
  l_rpm : Z;
  l_tpm : Z;
  l_epoch : Z;
  l_expiry : Z;     (* ms *)
}.

Record AdmissionHash := mkAdmission {
  h_p : Z;
  h_r : Z;
  h_t : Z;
  h_e : Z;
  h_leases : list (string * Lease);   (* in [HGETALL] order *)
}.

Definition AdmissionHash_empty : AdmissionHash := mkAdmission 0 0 0 0 [].

Record AdmissionArgs := mkAdmissionArgs {
  aa_op : string;
  aa_max_p : Z;
  aa_max_r : Z;
  aa_max_t : Z;
  aa_rpm_inc : Z;
  aa_tpm_inc : Z;
  aa_lease_id : string;
  aa_ttl : Z;
  aa_actual_tpm : Z;
}.

(** The reply of [redis.call('TIME')]: seconds and microseconds. *)
Record Clock := mkClock { clk_secs : Z; clk_micros : Z }.
Definition clk_now (k : Clock) : Z := clk_secs k * 1000 + clk_micros k / 1000.
Definition clk_epoch (k : Clock) : Z := clk_secs k / 60.

Record AdmissionState := mkAdmissionState {
  as_allowed : bool;
  as_parallel : Z;
  as_rpm : Z;
  as_tpm : Z;
}.

(** [None] is either [Err]: a wrong length or an error status. *)
Definition parse_admission_state (values : list Z) : option AdmissionState :=
  match values with
  | [v0; v1; v2; v3] =>
      if v0 <? 0 then None
      else Some (mkAdmissionState (v0 =? 1) (Z.max v1 0) (Z.max v2 0) (Z.max v3 0))
  | _ => None
  end.

(** * The script *)

(** The script's locals [p], [r], [t], [keep_until] with the remaining
    leases. *)
Record Locals := mkLocals {
  v_p : Z;
  v_r : Z;
  v_t : Z;
  v_keep : Z;
  v_leases : list (string * Lease);
}.

(** [save] clamps what it stores, not the locals. *)
Definition save (v : Locals) (e : Z) : AdmissionHash :=
  mkAdmission (Z.max 0 (v_p v)) (Z.max 0 (v_r v)) (Z.max 0 (v_t v)) e (v_leases v).

(** Whether the pattern [^(%d+):(%d+):(%d+):(%-?%d+):(%d+)$] reads the lease back
    from its [tostring]. *)
Definition reads_back (l : Lease) : bool :=
  forallb (fun x => (0 <=? x) && (x <? 10 ^ 14)) [l_p l; l_rpm l; l_tpm l; l_expiry l]
  && (Z.abs (l_epoch l) <? 10 ^ 14).

Definition write_lease (id : string) (l : Lease) : list (string * Lease) :=
  if reads_back l then [(id, l)] else [].

Section Script.
Variable k : Clock.
Variable a : AdmissionArgs.

Definition finishing : bool :=
  String.eqb (aa_op a) "settle" || String.eqb (aa_op a) "cancel"
  || String.eqb (aa_op a) "retain".

(** One lease of the loop of [reclaim]. *)
Definition reclaim_lease (window_changed : bool) (e : Z) (v : Locals)
    (f : string * Lease) : Locals :=
  let '(id, l) := f in
  if l_expiry l <=? clk_now k then
    let same := l_epoch l =? e in
    mkLocals (v_p v - l_p l) (if same then v_r v - l_rpm l else v_r v)
      (if same then v_t v - l_tpm l else v_t v) (v_keep v) (v_leases v)
  else
    let keep := if negb finishing || negb (String.eqb id (aa_lease_id a))
                then Z.max (v_keep v) (l_expiry l) else v_keep v in
    if window_changed
    then mkLocals (v_p v) (v_r v) (v_t v + l_tpm l) keep
           (v_leases v ++ [(id, mkLease (l_p l) 0 (l_tpm l) e (l_expiry l))])
    else mkLocals (v_p v) (v_r v) (v_t v) keep (v_leases v ++ [(id, l)]).

Definition reclaim (h : AdmissionHash) : Locals * Z :=
  let window_changed := h_e h <? clk_epoch k in
  let e := if window_changed then clk_epoch k else h_e h in
  let v0 := mkLocals (h_p h) (if window_changed then 0 else h_r h)
              (if window_changed then 0 else h_t h) ((clk_epoch k + 1) * 60000) [] in
  (foldl (reclaim_lease window_changed e) v0 (h_leases h), e).

Definition admission_reply (flag : Z) (v : Locals) : list Z := [flag; v_p v; v_r v; v_t v].

(** The [reserve] branch. *)
Definition reserve_denied (v : Locals) : bool :=
  ((0 <=? aa_max_p a) && (aa_max_p a <? v_p v + 1))
  || ((0 <=? aa_max_r a) && (aa_max_r a <? v_r v + aa_rpm_inc a))
  || ((0 <=? aa_max_t a) && (aa_max_t a <? v_t v + aa_tpm_inc a)).

Definition reserved_lease (e : Z) : Lease :=
  mkLease 1 (aa_rpm_inc a) (aa_tpm_inc a) e (clk_now k + Z.max (aa_ttl a) 1).

Definition reserve_granted (v : Locals) (e : Z) : Locals :=
  mkLocals (v_p v + 1) (v_r v + aa_rpm_inc a) (v_t v + aa_tpm_inc a)
    (Z.max (v_keep v) (clk_now k + Z.max (aa_ttl a) 1))
    (v_leases v ++ write_lease (aa_lease_id a) (reserved_lease e)).

Definition find_lease (leases : list (string * Lease)) : option Lease :=
  snd <$> List.find (fun f => String.eqb (fst f) (aa_lease_id a)) leases.

Definition remove_lease (leases : list (string * Lease)) : list (string * Lease) :=
  List.filter (fun f => negb (String.eqb (fst f) (aa_lease_id a))) leases.

(** The [finishing] branch, when the lease exists. *)
Definition finish_lease (v : Locals) (e : Z) (l : Lease) : Locals :=
  let same := l_epoch l =? e in
  let r := if same && String.eqb (aa_op a) "cancel" then v_r v - l_rpm l else v_r v in
  let t := if same then
             if String.eqb (aa_op a) "cancel" then v_t v - l_tpm l
             else if String.eqb (aa_op a) "settle" then v_t v - l_tpm l + aa_actual_tpm a
             else v_t v - l_tpm l + Z.max (l_tpm l) (aa_actual_tpm a)
           else v_t v in
  mkLocals (v_p v - l_p l) r t (v_keep v) (remove_lease (v_leases v)).

(** The hash, the reply and the time the key expires at. *)
Definition admission_script (stored : option AdmissionHash) : AdmissionHash * list Z * Z :=
  let '(v, e) := reclaim (default AdmissionHash_empty stored) in
  if String.eqb (aa_op a) "reserve" then
    if reserve_denied v then (save v e, admission_reply 0 v, v_keep v)
    else let v := reserve_granted v e in (save v e, admission_reply 1 v, v_keep v)
  else if finishing then
    match find_lease (v_leases v) with
    | Some l => let v := finish_lease v e l in (save v e, admission_reply 1 v, v_keep v)
    | None => (save v e, admission_reply 1 v, v_keep v)
    end
  else (save v e, admission_reply (-1) v, v_keep v).
End Script.

(** * Invariant *)

Definition lease_wf (e : Z) (f : string * Lease) : Prop :=
  l_p (snd f) = 1 /\ l_epoch (snd f) = e /\ 0 <= l_rpm (snd f) /\ 0 <= l_tpm (snd f).

Definition lease_rpm (f : string * Lease) : Z := l_rpm (snd f).
Definition lease_tpm (f : string * Lease) : Z := l_tpm (snd f).
Definition live (ls : list (string * Lease)) : Z := Z.of_nat (length ls).

(** Every counter is backed by the leases: slots exactly, requests and tokens
    at least by what the leases of the window reserved. *)
Record counters_inv (p r t e : Z) (ls : list (string * Lease)) : Prop := {
  ci_p : p = live ls;
  ci_r : sumZ (map lease_rpm ls) <= r;
  ci_t : sumZ (map lease_tpm ls) <= t;
  ci_wf : Forall (lease_wf e) ls;
  ci_ids : NoDup (map fst ls);
}.

Definition hash_inv (h : AdmissionHash) : Prop :=
  counters_inv (h_p h) (h_r h) (h_t h) (h_e h) (h_leases h).

Definition locals_inv (v : Locals) (e : Z) : Prop :=
  counters_inv (v_p v) (v_r v) (v_t v) e (v_leases v).

Lemma wf_rpm_nonneg (e : Z) (ls : list (string * Lease)) :
  Forall (lease_wf e) ls -> 0 <= sumZ (map lease_rpm ls).
Proof.
  intros H. apply sumZ_nonneg, Forall_map. apply (Forall_impl _ _ _ H). unfold lease_wf.
  intros [] (_ & _ & ? & _). done.
Qed.

Lemma wf_tpm_nonneg (e : Z) (ls : list (string * Lease)) :
  Forall (lease_wf e) ls -> 0 <= sumZ (map lease_tpm ls).
Proof.
  intros H. apply sumZ_nonneg, Forall_map. apply (Forall_impl _ _ _ H). unfold lease_wf.
  intros [] (_ & _ & _ & ?). done.
Qed.

Lemma save_inv (v : Locals) (e : Z) : locals_inv v e -> hash_inv (save v e).
Proof.
  intros [Hp Hr Ht Hw Hi]. pose proof (wf_rpm_nonneg e _ Hw). pose proof (wf_tpm_nonneg e _ Hw).
  constructor; simpl; try done; try lia. rewrite Hp. unfold live. lia.
Qed.

(** The loop of [reclaim]: what holds with [rest] still to visit. *)
Record loop_inv (changed : bool) (e0 e : Z) (v : Locals) (rest : list (string * Lease))
    : Prop := {
  li_p : v_p v = live (v_leases v) + live rest;
  li_r : sumZ (map lease_rpm (v_leases v))
         + (if changed then 0 else sumZ (map lease_rpm rest)) <= v_r v;
  li_t : sumZ (map lease_tpm (v_leases v))
         + (if changed then 0 else sumZ (map lease_tpm rest)) <= v_t v;
  li_wf : Forall (lease_wf e) (v_leases v);
  li_rest : Forall (lease_wf e0) rest;
  li_ids : NoDup (map fst (v_leases v) ++ map fst rest);
}.

Lemma live_app (ls ks : list (string * Lease)) : live (ls ++ ks) = live ls + live ks.
Proof. unfold live. rewrite length_app. lia. Qed.

Lemma live_cons (x : string * Lease) (ls : list (string * Lease)) :
  live (x :: ls) = 1 + live ls.
Proof. unfold live. simpl. lia. Qed.

Lemma reclaim_lease_inv (k : Clock) (a : AdmissionArgs) (changed : bool) (e0 e : Z)
    (v : Locals) (f : string * Lease) (rest : list (string * Lease)) :
  (e0 = e <-> changed = false) ->
  loop_inv changed e0 e v (f :: rest) ->
  loop_inv changed e0 e (reclaim_lease k a changed e v f) rest.
Proof.
  intros He [Hp Hr Ht Hw Hrest Hids]. destruct f as [id l].
  apply Forall_cons in Hrest as [(H1 & H2 & H3 & H4) Hrest]. simpl in *.
  rewrite live_cons in Hp.
  assert (Hd : NoDup (map fst (v_leases v) ++ map fst rest)).
  { apply NoDup_app in Hids as (? & Hn & Hn2). apply NoDup_app.
    split_and!; [done| |by apply NoDup_cons in Hn2 as [_ ?]].
    intros x Hx Hx'. apply (Hn x Hx). by right. }
  unfold reclaim_lease. destruct (Z.leb_spec (l_expiry l) (clk_now k)).
  - destruct changed.
    + rewrite (proj2 (Z.eqb_neq _ _)) by (rewrite H2; intros E; by apply He in E).
      constructor; simpl; try done; lia.
    + rewrite (proj2 (Z.eqb_eq _ _)) by (rewrite H2; tauto).
      constructor; simpl; try done; unfold lease_rpm, lease_tpm in *; simpl in *; lia.
  - assert (Hd' : forall x : Lease, NoDup (map fst (v_leases v ++ [(id, x)]) ++ map fst rest)).
    { intros x. rewrite map_app. simpl. by rewrite <- app_assoc. }
    destruct changed; constructor; simpl; try apply Hd'; try done;
      rewrite ?live_app, ?map_app, ?sumZ_app;
      unfold lease_rpm, lease_tpm, live in *; simpl in *; try lia.
    + apply Forall_app. split; [done|]. apply Forall_singleton. unfold lease_wf; simpl. lia.
    + apply Forall_app. split; [done|]. apply Forall_singleton. unfold lease_wf; simpl.
      assert (e0 = e) by tauto. split_and!; try lia.
Qed.

Lemma reclaim_loop_inv (k : Clock) (a : AdmissionArgs) (changed : bool) (e0 e : Z)
    (rest : list (string * Lease)) (v : Locals) :
  (e0 = e <-> changed = false) ->
  loop_inv changed e0 e v rest ->
  loop_inv changed e0 e (foldl (reclaim_lease k a changed e) v rest) [].
Proof.
  intros He. revert v. induction rest as [|f rest IH]; intros v Hv; simpl; [done|].
  apply IH. by apply reclaim_lease_inv.
Qed.

Lemma reclaim_inv (k : Clock) (a : AdmissionArgs) (h : AdmissionHash) :
  hash_inv h ->
  locals_inv (fst (reclaim k a h)) (snd (reclaim k a h)).
Proof.
  intros [Hp Hr Ht Hw Hi]. unfold reclaim. simpl.
  destruct (reclaim_loop_inv k a (h_e h <? clk_epoch k) (h_e h)
    (if h_e h <? clk_epoch k then clk_epoch k else h_e h) (h_leases h)
    (mkLocals (h_p h) (if h_e h <? clk_epoch k then 0 else h_r h)
       (if h_e h <? clk_epoch k then 0 else h_t h) ((clk_epoch k + 1) * 60000) []))
    as [Lp Lr Lt Lw _ Li].
  - destruct (Z.ltb_spec (h_e h) (clk_epoch k)); split; try done; lia.
  - constructor; simpl; try done;
      (unfold live in *; simpl; destruct (h_e h <? clk_epoch k); lia) || constructor.
  - rewrite app_nil_r in Li. constructor; try done.
    + rewrite Lp. unfold live. simpl. lia.
    + destruct (h_e h <? clk_epoch k); simpl in Lr; lia.
    + destruct (h_e h <? clk_epoch k); simpl in Lt; lia.
Qed.

Lemma remove_absent (a : AdmissionArgs) (ls : list (string * Lease)) :
  aa_lease_id a ∉ map fst ls -> remove_lease a ls = ls.
Proof.
  induction ls as [|[id l] ls IH]; simpl; [done|]. rewrite not_elem_of_cons. intros [Hne Hni].
  unfold remove_lease in *. simpl.
  rewrite (proj2 (String.eqb_neq _ _)) by congruence. simpl. by rewrite IH.
Qed.

(** Removing a lease that is there takes exactly it. *)
Lemma remove_lease_perm (a : AdmissionArgs) (ls : list (string * Lease)) (l : Lease) :
  NoDup (map fst ls) -> find_lease a ls = Some l ->
  ls ≡ₚ (aa_lease_id a, l) :: remove_lease a ls.
Proof.
  unfold find_lease. induction ls as [|[id x] ls IH]; simpl; [done|].
  intros [Hni Hnd]%NoDup_cons. unfold remove_lease in *. simpl.
  destruct (String.eqb_spec id (aa_lease_id a)) as [->|Hne]; simpl.
  - intros [= ->]. f_equiv. pose proof (remove_absent a ls Hni) as Hr.
    unfold remove_lease in Hr. by rewrite Hr.
  - intros Hf. rewrite (IH Hnd Hf) at 1. apply Permutation_swap.
Qed.

Lemma counters_perm (p r t e : Z) (ls ks : list (string * Lease)) :
  ls ≡ₚ ks -> counters_inv p r t e ls -> counters_inv p r t e ks.
Proof.
  intros Hp [H1 H2 H3 H4 H5]. constructor.
  - unfold live in *. by rewrite <- Hp.
  - rewrite (sumZ_Permutation _ (map lease_rpm ls)); [done|by rewrite Hp].
  - rewrite (sumZ_Permutation _ (map lease_tpm ls)); [done|by rewrite Hp].
  - by rewrite <- Hp.
  - by rewrite <- Hp.
Qed.

Lemma finish_lease_inv (a : AdmissionArgs) (v : Locals) (e : Z) (l : Lease) :
  locals_inv v e -> find_lease a (v_leases v) = Some l -> 0 <= aa_actual_tpm a ->
  locals_inv (finish_lease a v e l) e.
Proof.
  intros Hv Hf Ha. pose proof (ci_ids _ _ _ _ _ Hv) as Hnd.
  apply (counters_perm _ _ _ _ _ _ (remove_lease_perm a _ l Hnd Hf)) in Hv.
  destruct Hv as [Hp Hr Ht Hw Hi].
  apply Forall_cons in Hw as [(H1 & H2 & H3 & H4) Hw]. apply NoDup_cons in Hi as [_ Hi].
  rewrite live_cons in Hp. unfold lease_rpm, lease_tpm in *. simpl in *.
  unfold finish_lease. rewrite H2, Z.eqb_refl. simpl.
  constructor; simpl; try done; [lia| |]; repeat case_match; unfold lease_rpm, lease_tpm; lia.
Qed.

(** The lease id of a reservation is fresh (a random UUID). *)
Definition fresh_reserve (h : AdmissionHash) (a : AdmissionArgs) : Prop :=
  aa_op a = "reserve"%string -> aa_lease_id a ∉ map fst (h_leases h).

Definition args_wf (a : AdmissionArgs) : Prop :=
  0 <= aa_rpm_inc a /\ 0 <= aa_tpm_inc a /\ 0 <= aa_actual_tpm a.

(** The lease of a reservation has fields below 10^14. *)
Definition readable_reserve (k : Clock) (a : AdmissionArgs) (h : AdmissionHash) : Prop :=
  aa_op a = "reserve"%string -> reads_back (reserved_lease k a (snd (reclaim k a h))) = true.

Lemma reclaim_loop_ids (k : Clock) (a : AdmissionArgs) (c : bool) (e : Z) (id : string)
    (rest : list (string * Lease)) (v : Locals) :
  id ∈ map fst (v_leases (foldl (reclaim_lease k a c e) v rest)) ->
  id ∈ map fst (v_leases v) \/ id ∈ map fst rest.
Proof.
  revert v. induction rest as [|[i l] rest IH]; intros v; simpl; [by left|].
  intros [Hin|Hin]%IH; [|right; by right].
  unfold reclaim_lease in Hin. rewrite elem_of_cons.
  destruct (l_expiry l <=? clk_now k); [by left|].
  destruct c; simpl in Hin; rewrite map_app, elem_of_app in Hin;
    destruct Hin as [?|Hin]; simpl in *; auto; apply list_elem_of_singleton in Hin; auto.
Qed.

Lemma reserve_granted_inv (k : Clock) (a : AdmissionArgs) (v : Locals) (e : Z) :
  locals_inv v e -> args_wf a -> aa_lease_id a ∉ map fst (v_leases v) ->
  reads_back (reserved_lease k a e) = true ->
  locals_inv (reserve_granted k a v e) e.
Proof.
  intros [Hp Hr Ht Hw Hi] (H1 & H2 & _) Hn Hb. unfold reserve_granted, write_lease. rewrite Hb.
  constructor; simpl; rewrite ?live_app, ?map_app, ?sumZ_app;
    unfold lease_rpm, lease_tpm, live in *; simpl; try lia.
  - apply Forall_app. split; [done|]. apply Forall_singleton.
    unfold lease_wf. simpl. lia.
  - apply NoDup_app. split_and!; [done| |apply NoDup_singleton].
    intros x Hx ->%list_elem_of_singleton. done.
Qed.

Lemma admission_script_inv (k : Clock) (a : AdmissionArgs) (stored : option AdmissionHash) :
  let h := default AdmissionHash_empty stored in
  hash_inv h -> args_wf a -> fresh_reserve h a -> readable_reserve k a h ->
  hash_inv (fst (fst (admission_script k a stored))).
Proof.
  intros h Hh Ha Hf Hb. unfold admission_script, readable_reserve in *. fold h.
  pose proof (reclaim_inv k a h Hh) as Hv.
  assert (Hids : aa_lease_id a ∉ map fst (h_leases h) ->
                 aa_lease_id a ∉ map fst (v_leases (fst (reclaim k a h)))).
  { intros Hn Hin. unfold reclaim in Hin. simpl in Hin. apply reclaim_loop_ids in Hin as [Hin|Hin];
      [|done]. simpl in Hin. by apply not_elem_of_nil in Hin. }
  destruct (reclaim k a h) as [v e]. simpl in Hv, Hids, Hb.
  destruct (String.eqb_spec (aa_op a) "reserve") as [Hop|Hop].
  - destruct (reserve_denied a v); simpl; apply save_inv; [done|].
    apply reserve_granted_inv; auto.
  - destruct (finishing a); [|by apply save_inv].
    destruct (find_lease a (v_leases v)) as [l|] eqn:El; simpl; apply save_inv; [|done].
    apply finish_lease_inv; try done. apply Ha.
Qed.

(** ** Reclaiming never raises a counter *)

Lemma reclaim_loop_le (k : Clock) (a : AdmissionArgs) (c : bool) (e0 e : Z)
    (rest : list (string * Lease)) (v : Locals) :
  Forall (lease_wf e0) rest ->
  let v' := foldl (reclaim_lease k a c e) v rest in
  v_p v' <= v_p v /\ v_r v' <= v_r v /\
  v_t v' <= v_t v + (if c then sumZ (map lease_tpm rest) else 0).
Proof.
  intros Hw. revert v.
  induction Hw as [|[id l] rest (H1 & H2 & H3 & H4) _ IH]; intros v; cbn [foldl]; cbn zeta.
  - simpl. case_match; lia.
  - set (w := reclaim_lease k a c e v (id, l)).
    assert (Hd : v_p w <= v_p v /\ v_r w <= v_r v /\
                 v_t w <= v_t v + (if c then l_tpm l else 0)).
    { unfold w, reclaim_lease. simpl in *.
      destruct (l_expiry l <=? clk_now k), (l_epoch l =? e), c; simpl; lia. }
    specialize (IH w). cbn zeta in IH.
    change (sumZ (map lease_tpm ((id, l) :: rest))) with (l_tpm l + sumZ (map lease_tpm rest)).
    destruct c; lia.
Qed.

Lemma reclaim_le (k : Clock) (a : AdmissionArgs) (h : AdmissionHash) :
  hash_inv h ->
  let v := fst (reclaim k a h) in
  v_p v <= h_p h /\ v_r v <= h_r h /\ v_t v <= h_t h.
Proof.
  intros [Hp Hr Ht Hw Hi]. pose proof (wf_rpm_nonneg _ _ Hw). pose proof (wf_tpm_nonneg _ _ Hw).
  unfold reclaim. simpl. set (c := h_e h <? clk_epoch k).
  match goal with |- context [foldl (reclaim_lease k a c ?e) ?v0 _] =>
    pose proof (reclaim_loop_le k a c (h_e h) e (h_leases h) v0 Hw) as Hle end.
  simpl in Hle. destruct c; lia.
Qed.

(** A new window starts with what the carried leases reserved. *)
Lemma reclaim_new_window (k : Clock) (a : AdmissionArgs) (h : AdmissionHash) :
  hash_inv h -> (h_e h <? clk_epoch k) = true ->
  v_t (fst (reclaim k a h)) <= sumZ (map lease_tpm (h_leases h)).
Proof.
  intros [_ _ _ Hw _] Hc. unfold reclaim. rewrite Hc. simpl.
  match goal with |- context [foldl (reclaim_lease k a true ?e) ?v0 _] =>
    pose proof (reclaim_loop_le k a true (h_e h) e (h_leases h) v0 Hw) as Hle end.
  simpl in Hle. lia.
Qed.

Lemma reclaim_loop_held (k : Clock) (a : AdmissionArgs) (c : bool) (e0 e : Z)
    (rest : list (string * Lease)) (v : Locals) :
  Forall (lease_wf e0) rest ->
  sumZ (map lease_tpm (v_leases (foldl (reclaim_lease k a c e) v rest)))
  <= sumZ (map lease_tpm (v_leases v)) + sumZ (map lease_tpm rest).
Proof.
  intros Hw. revert v. induction Hw as [|[id l] rest (_ & _ & _ & H4) _ IH]; intros v.
  - simpl. lia.
  - cbn [foldl]. etrans; [apply IH|].
    change (sumZ (map lease_tpm ((id, l) :: rest))) with (l_tpm l + sumZ (map lease_tpm rest)).
    unfold reclaim_lease. simpl in H4.
    destruct (l_expiry l <=? clk_now k), c; simpl; rewrite ?map_app, ?sumZ_app; simpl;
      unfold lease_tpm; simpl; lia.
Qed.

(** Reclaiming never raises what the leases hold. *)
Lemma reclaim_held (k : Clock) (a : AdmissionArgs) (h : AdmissionHash) :
  hash_inv h ->
  sumZ (map lease_tpm (v_leases (fst (reclaim k a h)))) <= sumZ (map lease_tpm (h_leases h)).
Proof.
  intros [_ _ _ Hw _]. unfold reclaim. simpl.
  etrans; [by eapply reclaim_loop_held|]. simpl. lia.
Qed.

(** ** Leases kept by [reclaim] *)

Lemma reclaim_loop_kept (k : Clock) (a : AdmissionArgs) (c : bool) (e : Z)
    (rest : list (string * Lease)) (v : Locals) :
  let ok (w : Locals) (f : string * Lease) :=
    clk_now k < l_expiry (snd f) /\
    (finishing a = false \/ fst f <> aa_lease_id a -> l_expiry (snd f) <= v_keep w) in
  Forall (ok v) (v_leases v) ->
  let v' := foldl (reclaim_lease k a c e) v rest in Forall (ok v') (v_leases v').
Proof.
  intros ok. revert v. induction rest as [|[id l] rest IH]; intros v Hv; simpl; [done|].
  apply IH. unfold reclaim_lease.
  destruct (Z.leb_spec (l_expiry l) (clk_now k)); simpl; [exact Hv|].
  assert (Hold : forall keep, v_keep v <= keep ->
    Forall (fun f => clk_now k < l_expiry (snd f) /\
      (finishing a = false \/ fst f <> aa_lease_id a -> l_expiry (snd f) <= keep)) (v_leases v)).
  { intros keep Hk. apply (Forall_impl _ _ _ Hv). intros f [? Hf]. split; [done|].
    intros Hc. specialize (Hf Hc). lia. }
  assert (Hkeep : forall f, fst f = id -> l_expiry (snd f) = l_expiry l ->
    ok (mkLocals 0 0 0 (if negb (finishing a) || negb (String.eqb id (aa_lease_id a))
        then Z.max (v_keep v) (l_expiry l) else v_keep v) []) f).
  { intros f H1 H2. unfold ok. rewrite H1, H2. split; [done|]. simpl.
    destruct (finishing a); simpl; [|lia].
    destruct (String.eqb_spec id (aa_lease_id a)); simpl; intuition (congruence || lia). }
  destruct c; unfold ok; simpl; apply Forall_app;
    (split; [apply Hold; case_match; lia|]); apply Forall_singleton; by apply Hkeep.
Qed.

Lemma reclaim_kept (k : Clock) (a : AdmissionArgs) (h : AdmissionHash) :
  Forall (fun f => clk_now k < l_expiry (snd f) /\
            (finishing a = false \/ fst f <> aa_lease_id a ->
             l_expiry (snd f) <= v_keep (fst (reclaim k a h))))
    (v_leases (fst (reclaim k a h))).
Proof. unfold reclaim. simpl. apply reclaim_loop_kept. constructor. Qed.

Lemma remove_lease_not (a : AdmissionArgs) (ls : list (string * Lease)) (f : string * Lease) :
  f ∈ remove_lease a ls -> f ∈ ls /\ fst f <> aa_lease_id a.
Proof.
  unfold remove_lease. rewrite !list_elem_of_In, filter_In.
  intros [Hin Hn]. split; [done|]. apply negb_true_iff, String.eqb_neq in Hn. done.
Qed.

Lemma find_lease_absent (a : AdmissionArgs) (ls : list (string * Lease)) (f : string * Lease) :
  find_lease a ls = None -> f ∈ ls -> fst f <> aa_lease_id a.
Proof.
  unfold find_lease. intros Hn Hin Heq. destruct (List.find _ ls) eqn:E; [done|].
  eapply find_none in E; [|by apply list_elem_of_In]. simpl in E.
  apply String.eqb_neq in E. done.
Qed.

Lemma find_lease_none (a : AdmissionArgs) (ls : list (string * Lease)) :
  find_lease a ls = None <-> aa_lease_id a ∉ map fst ls.
Proof.
  split.
  - intros Hn Hin. change (map fst ls) with (fst <$> ls) in Hin.
    apply list_elem_of_fmap in Hin as ([i x] & Heq & Hin).
    by apply (find_lease_absent a ls (i, x) Hn Hin).
  - intros Hni. unfold find_lease. destruct (List.find _ _) as [f|] eqn:E; [|done].
    apply find_some in E as [Hin He]. apply String.eqb_eq in He. destruct Hni.
    change (map fst ls) with (fst <$> ls). apply list_elem_of_fmap. exists f. split; [done|]. by apply list_elem_of_In.
Qed.

Lemma find_lease_reclaim_none (k : Clock) (a : AdmissionArgs) (h : AdmissionHash) :
  find_lease a (h_leases h) = None ->
  find_lease a (v_leases (fst (reclaim k a h))) = None.
Proof.
  rewrite !find_lease_none. intros Hni Hin. unfold reclaim in Hin. simpl in Hin.
  apply reclaim_loop_ids in Hin as [Hin|Hin]; [|done]. simpl in Hin.
  by apply not_elem_of_nil in Hin.
Qed.

Lemma finish_absent (k : Clock) (a : AdmissionArgs) (h : AdmissionHash) :
  finishing a = true -> find_lease a (h_leases h) = None ->
  let w := fst (reclaim k a h) in
  snd (fst (admission_script k a (Some h))) = [1; v_p w; v_r w; v_t w].
Proof.
  intros Hop Hn w. pose proof (find_lease_reclaim_none k a h Hn) as Hf. unfold w.
  unfold admission_script. change (default AdmissionHash_empty (Some h)) with h.
  destruct (reclaim k a h) as [v e]. cbn [fst] in *.
  assert (Hr : String.eqb (aa_op a) "reserve" = false).
  { unfold finishing in Hop. destruct (String.eqb_spec (aa_op a) "reserve") as [E|]; [|done].
    by rewrite E in Hop. }
  by rewrite Hr, Hop, Hf.
Qed.

Lemma finish_present (k : Clock) (a : AdmissionArgs) (h : AdmissionHash) (l : Lease) :
  finishing a = true -> find_lease a (v_leases (fst (reclaim k a h))) = Some l ->
  admission_script k a (Some h) =
    let v := finish_lease a (fst (reclaim k a h)) (snd (reclaim k a h)) l in
    (save v (snd (reclaim k a h)), admission_reply 1 v, v_keep v).
Proof.
  intros Hop Hl. unfold admission_script.
  change (default AdmissionHash_empty (Some h)) with h.
  destruct (reclaim k a h) as [v e]. cbn [fst snd] in *.
  assert (Hr : String.eqb (aa_op a) "reserve" = false).
  { unfold finishing in Hop. destruct (String.eqb_spec (aa_op a) "reserve") as [E|]; [|done].
    by rewrite E in Hop. }
  by rewrite Hr, Hop, Hl.
Qed.

(** * Runs *)

(** A call and the hash it meets. *)
Definition call_ok (P R T : Z) (h : AdmissionHash) (k : Clock) (a : AdmissionArgs) : Prop :=
  args_wf a /\ fresh_reserve h a /\ readable_reserve k a h /\
  (aa_op a = "reserve"%string ->
   0 <= aa_max_p a <= P /\ 0 <= aa_max_r a <= R /\ 0 <= aa_max_t a <= T).

(** What a settle or retain reports above what its lease reserved. *)
Definition excess (k : Clock) (a : AdmissionArgs) (h : AdmissionHash) : Z :=
  match find_lease a (v_leases (fst (reclaim k a h))) with
  | Some l => if finishing a && negb (String.eqb (aa_op a) "cancel")
              then Z.max 0 (aa_actual_tpm a - l_tpm l) else 0
  | None => 0
  end.

(** The hashes reachable by calls of any replica whose limits are at most [P],
    [R] and [T], with what was reported above the reservations in the current
    window; between two calls Redis may expire the key. *)
Inductive reachable (P R T : Z) : Z -> option AdmissionHash -> Prop :=
| reach_empty : reachable P R T 0 None
| reach_expired over stored : reachable P R T over stored -> reachable P R T 0 None
| reach_call over stored k a :
    let h := default AdmissionHash_empty stored in
    reachable P R T over stored -> call_ok P R T h k a ->
    reachable P R T ((if h_e h <? clk_epoch k then 0 else over) + excess k a h)
      (Some (fst (fst (admission_script k a stored)))).

Record within (P R T over : Z) (h : AdmissionHash) : Prop := {
  wi_p : h_p h <= P;
  wi_r : h_r h <= R;
  wi_held : sumZ (map lease_tpm (h_leases h)) <= T;
  wi_over : 0 <= over;
  wi_t : h_t h <= T + over;
}.

Lemma excess_nonneg (k : Clock) (a : AdmissionArgs) (h : AdmissionHash) : 0 <= excess k a h.
Proof. unfold excess. repeat case_match; lia. Qed.

(** What [reclaim] leaves of the bounds, the window rolled. *)
Lemma reclaim_within (P R T over : Z) (h : AdmissionHash) (k : Clock) (a : AdmissionArgs) :
  hash_inv h -> within P R T over h ->
  let v := fst (reclaim k a h) in
  let over' := if h_e h <? clk_epoch k then 0 else over in
  v_p v <= P /\ v_r v <= R /\ sumZ (map lease_tpm (v_leases v)) <= T /\
  0 <= over' /\ v_t v <= T + over'.
Proof.
  intros Hh [H1 H2 H3 H4 H5]. cbv zeta. pose proof (reclaim_le k a h Hh) as (L1 & L2 & L3).
  pose proof (reclaim_held k a h Hh). pose proof (reclaim_new_window k a h Hh) as Hn.
  split_and!; try lia; destruct (h_e h <? clk_epoch k); try specialize (Hn eq_refl); lia.
Qed.

(** What finishing a lease does to the bounds. *)
Lemma finish_within (a : AdmissionArgs) (v : Locals) (e T over : Z) (l : Lease) :
  locals_inv v e -> find_lease a (v_leases v) = Some l -> args_wf a -> finishing a = true ->
  0 <= over -> v_t v <= T + over -> sumZ (map lease_tpm (v_leases v)) <= T ->
  let w := finish_lease a v e l in
  v_p w <= v_p v /\ v_r w <= v_r v /\ sumZ (map lease_tpm (v_leases w)) <= T /\
  v_t w <= T + (over + (if finishing a && negb (String.eqb (aa_op a) "cancel")
                        then Z.max 0 (aa_actual_tpm a - l_tpm l) else 0)).
Proof.
  intros Hv El (_ & _ & Ha) Hfin Ho Ht Hs.
  pose proof (remove_lease_perm a _ l (ci_ids _ _ _ _ _ Hv) El) as Hperm.
  pose proof (ci_wf _ _ _ _ _ Hv) as Hw. rewrite Hperm in Hw.
  apply Forall_cons in Hw as [(W1 & W2 & W3 & W4) _]. simpl in W1, W2, W3, W4.
  assert (Hsum : sumZ (map lease_tpm (v_leases v))
                 = l_tpm l + sumZ (map lease_tpm (remove_lease a (v_leases v)))).
  { rewrite (sumZ_Permutation _ (map lease_tpm ((aa_lease_id a, l) :: remove_lease a (v_leases v))));
      [done|by apply Permutation_map]. }
  unfold finish_lease. rewrite W1, W2, Z.eqb_refl, Hfin. simpl.
  split_and!; [lia| |lia|]; repeat case_match; simpl; lia.
Qed.

Lemma call_within (P R T over : Z) (stored : option AdmissionHash) (k : Clock)
    (a : AdmissionArgs) :
  let h := default AdmissionHash_empty stored in
  0 <= P -> 0 <= R -> 0 <= T -> hash_inv h -> within P R T over h -> call_ok P R T h k a ->
  within P R T ((if h_e h <? clk_epoch k then 0 else over) + excess k a h)
    (fst (fst (admission_script k a stored))).
Proof.
  intros h HP HR HT Hh Hin (Hwf & _ & Hread & Hlim).
  pose proof (reclaim_within P R T over h k a Hh Hin) as (L1 & L2 & L3 & L4 & L5).
  pose proof (reclaim_inv k a h Hh) as Hv. pose proof (excess_nonneg k a h) as He0.
  unfold excess in *. unfold admission_script. fold h. unfold readable_reserve in Hread.
  destruct (reclaim k a h) as [v e]. cbn [fst snd] in *.
  set (over' := if h_e h <? clk_epoch k then 0 else over) in *.
  destruct (String.eqb_spec (aa_op a) "reserve") as [Hop|Hop].
  - destruct (Hlim Hop) as (EP & ER & ET). specialize (Hread Hop).
    destruct (reserve_denied a v) eqn:Ed; [constructor; simpl; lia|].
    unfold reserve_denied in Ed. bool_arith.
    repeat match goal with H : (_ && _)%bool = false |- _ =>
      apply andb_false_iff in H as [?|?] end; bool_arith; try lia.
    pose proof (ci_t _ _ _ _ _ Hv). destruct Hwf as (? & ? & _).
    unfold reserve_granted, write_lease. rewrite Hread.
    constructor; simpl; rewrite ?map_app, ?sumZ_app; try lia.
    unfold lease_tpm in *. simpl. lia.
  - destruct (find_lease a (v_leases v)) as [l|] eqn:El;
      [|destruct (finishing a); constructor; simpl; lia].
    destruct (finishing a) eqn:Hfin; [|constructor; simpl in *; lia].
    pose proof (finish_within a v e T over' l Hv El Hwf Hfin L4 L5 L3) as (F1 & F2 & F3 & F4).
    rewrite Hfin in F4. revert F1 F2 F3 F4. generalize (finish_lease a v e l). intros w F1 F2 F3 F4.
    constructor; simpl in *; lia.
Qed.

Lemma empty_inv : hash_inv AdmissionHash_empty.
Proof. constructor; simpl; try done; constructor. Qed.

Lemma reachable_inv (P R T over : Z) (stored : option AdmissionHash) :
  0 <= P -> 0 <= R -> 0 <= T -> reachable P R T over stored ->
  hash_inv (default AdmissionHash_empty stored) /\
  within P R T over (default AdmissionHash_empty stored).
Proof.
  intros HP HR HT Hr.
  assert (H0 : within P R T 0 AdmissionHash_empty) by (constructor; simpl; lia).
  pose proof empty_inv. induction Hr as [|over stored _ _|over stored k a h _ [IHi IHw] Hok]; [done..|].
  change (default AdmissionHash_empty (Some ?x)) with x. split; [|by apply call_within].
  by apply admission_script_inv; [|apply Hok..].
Qed.

(** * Properties *)

(** C6: The shared limits hold across replicas.  Whatever the replicas call, in
    whatever order and at whatever clocks, window changes, lease expiry and key
    expiry included, and whatever usage they report: the deployment's live
    leases are exactly counted and never more than [P], the requests charged to
    the minute stay within [R], and what the live leases reserved within [T];
    the tokens charged to the minute, never less than that, exceed [T] by no
    more than what settlements of the same minute reported above their
    reservations ([reachable] adds it up).  Every reservation has limits from 0
    to [P], [R] and [T], none of them unlimited, a fresh identity and lease
    fields below 10^14, and the counts of every call are non-negative. *)
Theorem shared_limits_respected (P R T over : Z) (h : AdmissionHash)
    (HP : 0 <= P) (HR : 0 <= R) (HT : 0 <= T) (Hreach : reachable P R T over (Some h)) :
  live (h_leases h) = h_p h /\ live (h_leases h) <= P /\
  sumZ (map lease_rpm (h_leases h)) <= h_r h <= R /\
  sumZ (map lease_tpm (h_leases h)) <= T /\
  sumZ (map lease_tpm (h_leases h)) <= h_t h <= T + over.
Proof.
  destruct (reachable_inv P R T over (Some h) HP HR HT Hreach) as [[H1 H2 H3 _ _] [H4 H5 H6 _ H7]].
  simpl in *. split_and!; lia.
Qed.

Definition reserve_args (id : string) (tpm : Z) : AdmissionArgs :=
  mkAdmissionArgs "reserve" 1 5 100 1 tpm id 600000 0.

Definition settle_args (id : string) (actual : Z) : AdmissionArgs :=
  mkAdmissionArgs "settle" (-1) (-1) (-1) 0 0 id 1 actual.

Definition after_reserve : AdmissionHash :=
  fst (fst (admission_script (mkClock 600 0) (reserve_args "a" 60) None)).

Definition after_settle : AdmissionHash :=
  fst (fst (admission_script (mkClock 601 0) (settle_args "a" 130) (Some after_reserve))).

Lemma reserve_args_ok : call_ok 1 5 100 AdmissionHash_empty (mkClock 600 0) (reserve_args "a" 60).
Proof.
  split_and!; simpl; try done; try lia. intros _ H. vm_compute in H. inversion H.
Qed.

(** A reservation of 60 tokens that used 130: the minute is over its limit by no
    more than the 70 reported above the reservation. *)
Lemma shared_limits_respected_witness :
  reachable 1 5 100 70 (Some after_settle) /\ h_t after_settle = 130 /\
  h_t after_settle <= 100 + 70 /\ live (h_leases after_settle) <= 1 /\
  snd (fst (admission_script (mkClock 602 0) (reserve_args "b" 60) (Some after_settle)))
  = [0; 0; 1; 130].
Proof.
  assert (Hr : reachable 1 5 100 70 (Some after_settle)).
  { apply (reach_call 1 5 100 0 (Some after_reserve) (mkClock 601 0) (settle_args "a" 130)).
    - apply (reach_call 1 5 100 0 None (mkClock 600 0) (reserve_args "a" 60)); [apply reach_empty|exact reserve_args_ok].
    - split_and!; simpl; done || lia. }
  destruct (shared_limits_respected 1 5 100 70 after_settle) as (_ & H2 & _ & _ & _ & H3);
    [lia..|exact Hr|].
  split_and!; [exact Hr|reflexivity|exact H3|exact H2|reflexivity].
Defined.

(** The reservation reply is exact: it is granted precisely when, after expired
    leases are reclaimed and the window rolled, one more slot, [rpm_inc] more
    requests and [tpm_inc] more tokens fit every configured (non-negative)
    limit; a granted lease is charged, and stored when it reads back, a refused
    call stores no lease, and the key never expires before a lease it holds. *)
Theorem reserve_exact (k : Clock) (a : AdmissionArgs) (stored : option AdmissionHash)
    (Hop : aa_op a = "reserve"%string) :
  let v := fst (reclaim k a (default AdmissionHash_empty stored)) in
  let '(h', values, expire_at) := admission_script k a stored in
  let fits :=
    (0 <= aa_max_p a -> v_p v + 1 <= aa_max_p a) /\
    (0 <= aa_max_r a -> v_r v + aa_rpm_inc a <= aa_max_r a) /\
    (0 <= aa_max_t a -> v_t v + aa_tpm_inc a <= aa_max_t a) in
  (fits -> values = [1; v_p v + 1; v_r v + aa_rpm_inc a; v_t v + aa_tpm_inc a] /\
           h_leases h' = v_leases v ++ write_lease (aa_lease_id a)
             (reserved_lease k a (snd (reclaim k a (default AdmissionHash_empty stored))))) /\
  (~ fits -> values = [0; v_p v; v_r v; v_t v] /\ h_leases h' = v_leases v) /\
  Forall (fun f => l_expiry (snd f) <= expire_at) (h_leases h').
Proof.
  intros v. unfold admission_script.
  pose proof (reclaim_kept k a (default AdmissionHash_empty stored)) as Hk.
  destruct (reclaim k a (default AdmissionHash_empty stored)) as [v0 e] eqn:E.
  simpl in v, Hk. subst v. rewrite Hop, String.eqb_refl.
  assert (Hfin : finishing a = false) by (unfold finishing; by rewrite Hop).
  assert (Hkeep : forall keep, v_keep v0 <= keep ->
    Forall (fun f => l_expiry (snd f) <= keep) (v_leases v0)).
  { intros keep Hle. apply (Forall_impl _ _ _ Hk). intros f [_ Hf].
    specialize (Hf (or_introl Hfin)). lia. }
  set (fits := (0 <= aa_max_p a -> _) /\ _).
  assert (Hiff : reserve_denied a v0 = false <-> fits).
  { unfold reserve_denied, fits. rewrite !orb_false_iff, !andb_false_iff.
    rewrite !Z.leb_gt, !Z.ltb_ge. lia. }
  destruct (reserve_denied a v0).
  - assert (~ fits) by (rewrite <- Hiff; done).
    simpl. split_and!; try tauto; try done. apply Hkeep. lia.
  - assert fits by tauto. unfold reserve_granted; simpl. split_and!; try tauto.
    apply Forall_app. split; [apply Hkeep; lia|]. unfold write_lease.
    case_match; [apply Forall_singleton; simpl; lia|constructor].
Qed.

Lemma reserve_exact_witness :
  snd (fst (admission_script (mkClock 600 0) (reserve_args "a" 60) None)) = [1; 1; 1; 60].
Proof.
  pose proof (reserve_exact (mkClock 600 0) (reserve_args "a" 60) None eq_refl) as H.
  vm_compute in H |- *. apply H. split_and!; intros _; congruence.
Defined.

(** Finishing a lease.  A settle, cancel or retain of a live lease frees
    exactly its slot, and moves the tokens of the minute to what the operation
    says: settle charges the actual tokens instead of the estimate, retain the
    larger of both, cancel refunds tokens and requests; a second finish of the
    same lease finds none and moves nothing. *)
Theorem finish_exact (k : Clock) (a : AdmissionArgs) (h : AdmissionHash) (l : Lease)
    (Hinv : hash_inv h) (Hop : finishing a = true)
    (Hl : find_lease a (v_leases (fst (reclaim k a h))) = Some l) :
  let v := fst (reclaim k a h) in
  let '(h', values, _) := admission_script k a (Some h) in
  let cancel := String.eqb (aa_op a) "cancel" in
  let t := v_t v - l_tpm l +
           (if cancel then 0
            else if String.eqb (aa_op a) "settle" then aa_actual_tpm a
            else Z.max (l_tpm l) (aa_actual_tpm a)) in
  values = [1; v_p v - 1; if cancel then v_r v - l_rpm l else v_r v; t] /\
  h_leases h' = remove_lease a (v_leases v) /\ find_lease a (h_leases h') = None /\
  (forall k', let w := fst (reclaim k' a h') in
     snd (fst (admission_script k' a (Some h'))) = [1; v_p w; v_r w; v_t w]).
Proof.
  intros v. pose proof (reclaim_inv k a h Hinv) as Hv. fold v in Hv, Hl.
  rewrite (finish_present k a h l Hop Hl). fold v. cbn zeta iota.
  set (e := snd (reclaim k a h)) in *.
  pose proof (ci_ids _ _ _ _ _ Hv) as Hnd.
  pose proof (ci_wf _ _ _ _ _ Hv) as Hw. rewrite (remove_lease_perm a _ l Hnd Hl) in Hw.
  apply Forall_cons in Hw as [(W1 & W2 & _) _]. cbn [snd] in W1, W2.
  assert (Hnone : find_lease a (remove_lease a (v_leases v)) = None).
  { apply find_lease_none. intros Hin.
    change (map fst ?x) with (fst <$> x) in Hin.
    apply list_elem_of_fmap in Hin as ([i x] & Heq & Hin).
    by apply remove_lease_not in Hin as [_ Hne]. }
  split_and!; [|done|done|].
  - unfold admission_reply, finish_lease. simpl. rewrite W1, W2, Z.eqb_refl. simpl.
    repeat case_match; repeat f_equal; lia.
  - intros k'. by apply finish_absent.
Qed.

Lemma finish_exact_witness :
  let a := mkAdmissionArgs "settle" (-1) (-1) (-1) 0 0 "a" 1 25 in
  snd (fst (admission_script (mkClock 601 0) a (Some after_reserve))) = [1; 0; 1; 25].
Proof.
  intros a.
  assert (Hi : hash_inv after_reserve).
  { apply (reachable_inv 1 5 100 0 (Some after_reserve)); [lia..|].
    apply (reach_call 1 5 100 0 None (mkClock 600 0) (reserve_args "a" 60)); [apply reach_empty|exact reserve_args_ok]. }
  pose proof (finish_exact (mkClock 601 0) a after_reserve (mkLease 1 1 60 10 1200000) Hi
    eq_refl eq_refl) as H.
  vm_compute in H |- *. exact (proj1 H).
Defined.
