(* ===== verification/Strategy.v ===== *)
(** Routing strategies ([core/router/strategy_impl.rs]) and their dispatch
    ([Router::select_from_routing_contexts], [core/router/selection.rs]).

    Strategies choose among immutable snapshots of the candidates.  The random
    generator is an argument: [rng k n] is the [k]-th draw of
    [random_range(0..n)]. *)

From S2P Require Import Prelude Float64 RouterTypes RetryPolicy.
From Stdlib Require Import Floats.SpecFloat.

Record RoutingContext := mkContext {
  ctx_deployment_id : DeploymentId;
  ctx_weight : Z;              (* u32 *)
  ctx_priority : Z;            (* u32 *)
  ctx_active_requests : Z;     (* u32 *)
  ctx_tpm_current : Z;         (* u64 *)
  ctx_tpm_limit : option Z;    (* u64 *)
  ctx_rpm_current : Z;         (* u64 *)
  ctx_rpm_limit : option Z;    (* u64 *)
  ctx_avg_latency_us : Z;      (* u64 *)
}.

(** * Random strategies *)

Section Random.
Variable rng : nat -> Z -> Z.

(** The walk of the cumulative weights. *)
Fixpoint weighted_walk (point : Z) (contexts : list RoutingContext) : option RoutingContext :=
  match contexts with
  | [] => None
  | ctx :: contexts =>
      if point <? ctx_weight ctx then Some ctx
      else weighted_walk (point - ctx_weight ctx) contexts
  end.

(** [contexts.iter().map(|ctx| ctx.weight).sum::<u32>()] wraps. *)
Definition total_weight (contexts : list RoutingContext) : Z :=
  wrap_u32 (sumZ (map ctx_weight contexts)).

Definition weighted_random_from_context (contexts : list RoutingContext)
    : option RoutingContext :=
  match contexts with
  | [] => None
  | [ctx] => Some ctx
  | first :: _ =>
      let total := total_weight contexts in
      if total =? 0 then contexts !! Z.to_nat (rng 0 (Z.of_nat (length contexts)))
      else
        match weighted_walk (rng 0 total) contexts with
        | Some ctx => Some ctx
        | None => Some first
        end
  end.

(** The reservoir loop of [least_busy_from_context]; [draws] counts the calls
    of the generator. *)
Fixpoint least_busy_loop (draws : nat) (best : RoutingContext) (min_active tied : Z)
    (contexts : list RoutingContext) : RoutingContext :=
  match contexts with
  | [] => best
  | ctx :: contexts =>
      if ctx_active_requests ctx <? min_active
      then least_busy_loop draws ctx (ctx_active_requests ctx) 1 contexts
      else if ctx_active_requests ctx =? min_active then
        let tied := tied + 1 in
        let best := if rng draws tied =? 0 then ctx else best in
        least_busy_loop (S draws) best min_active tied contexts
      else least_busy_loop draws best min_active tied contexts
  end.

Definition least_busy_from_context (contexts : list RoutingContext) : option RoutingContext :=
  match contexts with
  | [] => None
  | [ctx] => Some ctx
  | first :: rest => Some (least_busy_loop 0 first (ctx_active_requests first) 1 rest)
  end.
End Random.

(** * Strategies that keep the first best candidate *)

(** The shared loop: a candidate replaces the best one when strictly better. *)
Fixpoint first_best {K} (better : K -> K -> bool) (key : RoutingContext -> K)
    (best : RoutingContext) (best_key : K) (contexts : list RoutingContext) : RoutingContext :=
  match contexts with
  | [] => best
  | ctx :: contexts =>
      if better (key ctx) best_key
      then first_best better key ctx (key ctx) contexts
      else first_best better key best best_key contexts
  end.

Definition from_contexts {K} (better : K -> K -> bool) (key : RoutingContext -> K)
    (init : K) (contexts : list RoutingContext) : option RoutingContext :=
  match contexts with
  | [] => None
  | first :: _ => Some (first_best better key first init contexts)
  end.

(** [ctx.tpm_current * 100] wraps. *)
Definition usage_pct (ctx : RoutingContext) : Z :=
  match ctx_tpm_limit ctx with
  | Some limit => if 0 <? limit then wrap_u64 (ctx_tpm_current ctx * 100) / limit else 0
  | None => 0
  end.

Definition lowest_usage_from_context : list RoutingContext -> option RoutingContext :=
  from_contexts Z.ltb usage_pct u64_max.

(** Average of the latencies observed so far. *)
Definition fallback_latency (contexts : list RoutingContext) : Z :=
  let observed := List.filter (fun c => 0 <? ctx_avg_latency_us c) contexts in
  let sum := foldl (fun acc c => sat_add_u64 acc (ctx_avg_latency_us c)) 0 observed in
  match observed with [] => 0 | _ => sum / Z.of_nat (length observed) end.

Definition effective_latency (avg : Z) (ctx : RoutingContext) : Z :=
  if ctx_avg_latency_us ctx =? 0 then avg else ctx_avg_latency_us ctx.

Definition lowest_latency_from_context (contexts : list RoutingContext)
    : option RoutingContext :=
  from_contexts Z.ltb (effective_latency (fallback_latency contexts)) u64_max contexts.

Definition lowest_priority_from_context : list RoutingContext -> option RoutingContext :=
  from_contexts Z.ltb ctx_priority u32_max.

(** [remaining as f64 / limit as f64], 1.0 without a limit. *)
Definition limit_distance (current : Z) (limit : option Z) : spec_float :=
  match limit with
  | Some limit =>
      if 0 <? limit then f64_div (f64_of_Z (sat_sub limit current)) (f64_of_Z limit)
      else f64_of_Z 1
  | None => f64_of_Z 1
  end.

(** [f64::min]; neither operand is a NaN here. *)
Definition f64_min (x y : spec_float) : spec_float := if SFltb y x then y else x.

Definition distance (ctx : RoutingContext) : spec_float :=
  f64_min (limit_distance (ctx_tpm_current ctx) (ctx_tpm_limit ctx))
    (limit_distance (ctx_rpm_current ctx) (ctx_rpm_limit ctx)).

Definition rate_limit_aware_from_context : list RoutingContext -> option RoutingContext :=
  from_contexts (fun d best => SFltb best d) distance (f64_of_Z (-1)).

(** * Round robin *)

(** Per-model counters; [fetch_add] on a [usize] wraps. *)
Definition round_robin_from_context (model_name : string) (contexts : list RoutingContext)
    (counters : gmap string Z) : gmap string Z * option RoutingContext :=
  match contexts with
  | [] => (counters, None)
  | [ctx] => (counters, Some ctx)
  | _ =>
      let counter := default 0 (counters !! model_name) in
      (<[model_name := wrap_u64 (counter + 1)]> counters,
       contexts !! Z.to_nat (counter mod Z.of_nat (length contexts)))
  end.

(** * Dispatch *)

Definition select_from_routing_contexts (rng : nat -> Z -> Z) (strategy : RoutingStrategy)
    (model_name : string) (contexts : list RoutingContext) (counters : gmap string Z)
    : gmap string Z * option DeploymentId :=
  let id := fmap ctx_deployment_id in
  match strategy with
  | SimpleShuffle => (counters, id (weighted_random_from_context rng contexts))
  | LeastBusy => (counters, id (least_busy_from_context rng contexts))
  | UsageBased => (counters, id (lowest_usage_from_context contexts))
  | LatencyBased => (counters, id (lowest_latency_from_context contexts))
  | PriorityBased => (counters, id (lowest_priority_from_context contexts))
  | RateLimitAware => (counters, id (rate_limit_aware_from_context contexts))
  | RoundRobin =>
      let '(counters, ctx) := round_robin_from_context model_name contexts counters in
      (counters, id ctx)
  end.

(** * Lemmas *)

(** What [random_range(0..n)] guarantees. *)
Definition rng_ok (rng : nat -> Z -> Z) : Prop := forall k n, 0 < n -> 0 <= rng k n < n.

Definition ctx_wf (c : RoutingContext) : Prop :=
  fits_u32 (ctx_weight c) /\ fits_u32 (ctx_priority c) /\ fits_u32 (ctx_active_requests c) /\
  fits_u64 (ctx_avg_latency_us c).

Lemma lookup_draw {A} (rng : nat -> Z -> Z) (k : nat) (l : list A) :
  rng_ok rng -> l <> [] -> exists x, l !! Z.to_nat (rng k (Z.of_nat (length l))) = Some x /\ x ∈ l.
Proof.
  intros Hr Hne. specialize (Hr k (Z.of_nat (length l))).
  destruct (lookup_lt_is_Some_2 l (Z.to_nat (rng k (Z.of_nat (length l))))) as [x Hx].
  - destruct l; [done|]. simpl in *. lia.
  - exists x. split; [done|]. by eapply list_elem_of_lookup_2.
Qed.

Lemma weighted_walk_elem (point : Z) (cs : list RoutingContext) (c : RoutingContext) :
  weighted_walk point cs = Some c -> c ∈ cs.
Proof.
  revert point. induction cs as [|x cs IH]; intros point; simpl; [done|].
  case_match; [intros [= ->]; by left|]. intros H'%IH. by right.
Qed.

Lemma weighted_walk_app (pre post : list RoutingContext) (c : RoutingContext) (point : Z) :
  Forall (fun x => 0 <= ctx_weight x) pre ->
  sumZ (map ctx_weight pre) <= point < sumZ (map ctx_weight pre) + ctx_weight c ->
  weighted_walk point (pre ++ c :: post) = Some c.
Proof.
  intros Hpre. revert point. induction Hpre as [|x pre Hx Hpre IH]; intros point; simpl.
  - intros. by rewrite (proj2 (Z.ltb_lt _ _)) by lia.
  - intros [Hlo Hhi]. pose proof (sumZ_nonneg (map ctx_weight pre) ltac:(by apply Forall_map)).
    rewrite (proj2 (Z.ltb_ge _ _)) by lia. apply IH. lia.
Qed.

Lemma least_busy_loop_spec (rng : nat -> Z -> Z) (cs : list RoutingContext) (draws : nat)
    (best : RoutingContext) (tied : Z) :
  let r := least_busy_loop rng draws best (ctx_active_requests best) tied cs in
  r ∈ best :: cs /\
  Forall (fun c => ctx_active_requests r <= ctx_active_requests c) (best :: cs).
Proof.
  revert draws best tied. induction cs as [|c cs IH]; intros draws best tied; simpl.
  - split; [by left|]. by apply Forall_singleton.
  - destruct (Z.ltb_spec (ctx_active_requests c) (ctx_active_requests best)).
    + destruct (IH draws c 1) as [Hin Hall]. split; [by right|].
      apply Forall_cons in Hall as [Hc Hall]. by repeat constructor; [lia|..].
    + destruct (Z.eqb_spec (ctx_active_requests c) (ctx_active_requests best)) as [He|].
      * destruct (rng draws (tied + 1) =? 0).
        -- destruct (IH (S draws) c (tied + 1)) as [Hin Hall]. rewrite He in *.
           split; [by right|]. apply Forall_cons in Hall as [Hc Hall].
           repeat constructor; [lia|lia|done].
        -- destruct (IH (S draws) best (tied + 1)) as [Hin Hall].
           split; [apply elem_of_cons in Hin; set_solver|].
           apply Forall_cons in Hall as [Hc Hall]. repeat constructor; [lia|lia|done].
      * destruct (IH draws best tied) as [Hin Hall].
        split; [apply elem_of_cons in Hin; set_solver|].
        apply Forall_cons in Hall as [Hc Hall]. repeat constructor; [lia|lia|done].
Qed.

Lemma first_best_elem {K} (better : K -> K -> bool) (key : RoutingContext -> K)
    (best : RoutingContext) (bk : K) (cs : list RoutingContext) :
  first_best better key best bk cs ∈ best :: cs.
Proof.
  revert best bk. induction cs as [|c cs IH]; intros best bk; simpl; [by left|].
  case_match; [right; apply IH|].
  specialize (IH best bk). apply elem_of_cons in IH as [->|]; [by left|]. right. by right.
Qed.

(** The integer loop returns the first candidate of minimal key. *)
Lemma first_best_min (key : RoutingContext -> Z) (best : RoutingContext) (bk : Z)
    (cs : list RoutingContext) :
  Forall (fun c => bk <= key c) cs /\ first_best Z.ltb key best bk cs = best \/
  exists pre c post, cs = pre ++ c :: post /\ first_best Z.ltb key best bk cs = c /\
    key c < bk /\ Forall (fun x => key c < key x) pre /\ Forall (fun x => key c <= key x) post.
Proof.
  revert best bk. induction cs as [|c cs IH]; intros best bk; simpl; [by left|].
  destruct (Z.ltb_spec (key c) bk).
  - right. destruct (IH c (key c)) as [[Hall ->]|(pre & d & post & -> & -> & Hd & Hp & Hq)].
    + by exists [], c, cs.
    + exists (c :: pre), d, post. split_and!; try done; [lia|]. by constructor.
  - destruct (IH best bk) as [[Hall ->]|(pre & d & post & -> & -> & Hd & Hp & Hq)].
    + left. split; [|done]. by constructor.
    + right. exists (c :: pre), d, post. split_and!; try done. constructor; [lia|done].
Qed.

(** A strategy's choice [r] is the first candidate of minimal key. *)
Definition first_minimal (key : RoutingContext -> Z) (cs : list RoutingContext)
    (r : RoutingContext) : Prop :=
  exists pre post, cs = pre ++ r :: post /\
    Forall (fun x => key r < key x) pre /\ Forall (fun x => key r <= key x) post.

Lemma from_contexts_min (key : RoutingContext -> Z) (init : Z) (cs : list RoutingContext) :
  cs <> [] -> Forall (fun c => key c <= init) cs ->
  exists r, from_contexts Z.ltb key init cs = Some r /\ first_minimal key cs r.
Proof.
  intros Hne Hall. destruct cs as [|first cs]; [done|]. cbn [from_contexts].
  destruct (first_best_min key first init (first :: cs))
    as [[Hge ->]|(pre & c & post & Heq & -> & _ & Hp & Hq)].
  - exists first. split; [done|]. exists [], cs. split_and!; try done.
    apply Forall_cons in Hall as [Hf Hall]. apply Forall_cons in Hge as [Hf' Hge].
    apply Forall_forall. intros x Hx. rewrite Forall_forall in Hge. specialize (Hge x Hx). lia.
  - exists c. split; [done|]. exists pre, post. by split_and!.
Qed.

Lemma usage_pct_range (c : RoutingContext) : usage_pct c <= u64_max.
Proof.
  unfold usage_pct. destruct (ctx_tpm_limit c) as [l|]; [|unfold u64_max; lia].
  destruct (Z.ltb_spec 0 l); [|unfold u64_max; lia].
  pose proof (wrap_u64_range (ctx_tpm_current c * 100)) as [? ?].
  apply Z.div_le_upper_bound; [lia|]. nia.
Qed.

Lemma sat_fold_range (cs : list RoutingContext) (acc : Z) :
  fits_u64 acc -> Forall ctx_wf cs ->
  fits_u64 (foldl (fun acc c => sat_add_u64 acc (ctx_avg_latency_us c)) acc cs).
Proof.
  intros Ha Hw. revert acc Ha. induction Hw as [|c cs (_ & _ & _ & Hc) _ IH]; intros acc Ha;
    simpl; [done|]. apply IH. auto with rust.
Qed.

Lemma fallback_latency_range (cs : list RoutingContext) :
  Forall ctx_wf cs -> fallback_latency cs <= u64_max.
Proof.
  intros Hw. unfold fallback_latency.
  assert (Hf : Forall ctx_wf (List.filter (fun c => 0 <? ctx_avg_latency_us c) cs)).
  { apply Forall_forall. intros x Hx. apply list_elem_of_In, filter_In in Hx as [Hx _].
    rewrite Forall_forall in Hw. apply Hw. by apply list_elem_of_In. }
  pose proof (sat_fold_range _ 0 ltac:(unfold fits_u64, u64_max; lia) Hf) as [? ?].
  case_match eqn:E; [unfold u64_max; lia|]. rewrite <- E.
  apply Z.div_le_upper_bound; [rewrite E; simpl; lia|].
  assert (1 <= Z.of_nat (length (List.filter (fun c => 0 <? ctx_avg_latency_us c) cs)))
    by (rewrite E; simpl; lia).
  rewrite E in *. nia.
Qed.

Lemma weighted_random_elem (rng : nat -> Z -> Z) (cs : list RoutingContext) :
  rng_ok rng -> cs <> [] ->
  exists c, weighted_random_from_context rng cs = Some c /\ c ∈ cs.
Proof.
  intros Hr Hne. destruct cs as [|a [|b cs]]; [done| |].
  - exists a. split; [done|by left].
  - unfold weighted_random_from_context. case_match.
    + destruct (lookup_draw rng 0 (a :: b :: cs) Hr) as (x & Hx & Hin); [done|]. by exists x.
    + case_match eqn:E.
      * apply weighted_walk_elem in E. by eexists.
      * exists a. split; [done|by left].
Qed.

Lemma least_busy_elem (rng : nat -> Z -> Z) (cs : list RoutingContext) :
  cs <> [] ->
  exists c, least_busy_from_context rng cs = Some c /\ c ∈ cs /\
    Forall (fun x => ctx_active_requests c <= ctx_active_requests x) cs.
Proof.
  intros Hne. destruct cs as [|a [|b cs]]; [done| |].
  - exists a. split_and!; [done|by left|by apply Forall_singleton].
  - unfold least_busy_from_context. eexists. split; [reflexivity|].
    apply least_busy_loop_spec.
Qed.

Lemma from_contexts_elem {K} (better : K -> K -> bool) (key : RoutingContext -> K)
    (init : K) (cs : list RoutingContext) :
  cs <> [] -> exists c, from_contexts better key init cs = Some c /\ c ∈ cs.
Proof.
  intros Hne. destruct cs as [|a cs]; [done|]. eexists. split; [reflexivity|].
  pose proof (first_best_elem better key a init (a :: cs)) as H.
  apply elem_of_cons in H as [->|H]; [by left|done].
Qed.

Lemma round_robin_elem (model : string) (cs : list RoutingContext) (counters : gmap string Z) :
  cs <> [] ->
  exists c, snd (round_robin_from_context model cs counters) = Some c /\ c ∈ cs.
Proof.
  intros Hne. destruct cs as [|a [|b cs]]; [done| |].
  - exists a. split; [done|by left].
  - unfold round_robin_from_context. cbn [snd].
    set (l := a :: b :: cs). set (n := default 0 (counters !! model)).
    destruct (lookup_lt_is_Some_2 l (Z.to_nat (n mod Z.of_nat (length l)))) as [x Hx].
    + pose proof (Z.mod_pos_bound n (Z.of_nat (length l)) ltac:(simpl; lia)). lia.
    + exists x. split; [done|]. by eapply list_elem_of_lookup_2.
Qed.

Lemma select_elem (rng : nat -> Z -> Z) (strategy : RoutingStrategy) (model : string)
    (cs : list RoutingContext) (counters : gmap string Z) :
  rng_ok rng -> cs <> [] ->
  exists c, snd (select_from_routing_contexts rng strategy model cs counters)
              = Some (ctx_deployment_id c) /\ c ∈ cs.
Proof.
  intros Hr Hne. unfold select_from_routing_contexts. destruct strategy; cbn [snd].
  - destruct (weighted_random_elem rng cs Hr Hne) as (c & -> & Hc). by exists c.
  - destruct (least_busy_elem rng cs Hne) as (c & -> & Hc & _). by exists c.
  - destruct (from_contexts_elem Z.ltb usage_pct u64_max cs Hne) as (c & Hc & Hin).
    exists c. split; [|done]. unfold lowest_usage_from_context. by rewrite Hc.
  - destruct (from_contexts_elem Z.ltb (effective_latency (fallback_latency cs)) u64_max cs Hne)
      as (c & Hc & Hin).
    exists c. split; [|done]. unfold lowest_latency_from_context. by rewrite Hc.
  - destruct (from_contexts_elem Z.ltb ctx_priority u32_max cs Hne) as (c & Hc & Hin).
    exists c. split; [|done]. unfold lowest_priority_from_context. by rewrite Hc.
  - destruct (from_contexts_elem (fun d best => SFltb best d) distance (f64_of_Z (-1)) cs Hne)
      as (c & Hc & Hin).
    exists c. split; [|done]. unfold rate_limit_aware_from_context. by rewrite Hc.
  - destruct (round_robin_elem model cs counters Hne) as (c & Hc & Hin).
    destruct (round_robin_from_context model cs counters) as [k o]. simpl in *. subst o.
    by exists c.
Qed.

(** * Properties *)

(** Weighted random selection is exactly proportional: with at least two
    candidates whose weights sum (in 32 bits) to a positive total, the draw
    selects a candidate precisely when it falls in the candidate's own interval
    of the cumulative weights, an interval of [weight] of the [total] equally
    likely points; a candidate of weight 0 is never chosen. *)
Theorem weighted_random_proportional (rng : nat -> Z -> Z) (pre post : list RoutingContext)
    (c : RoutingContext)
    (Hrng : rng_ok rng)
    (Hlen : (2 <= length (pre ++ c :: post))%nat)
    (Hw : Forall (fun x => 0 <= ctx_weight x) (pre ++ c :: post))
    (Hsum : 0 < sumZ (map ctx_weight (pre ++ c :: post)) <= u32_max) :
  let cs := pre ++ c :: post in
  let lo := sumZ (map ctx_weight pre) in
  let point := rng 0%nat (total_weight cs) in
  total_weight cs = lo + ctx_weight c + sumZ (map ctx_weight post) /\
  0 <= point < total_weight cs /\
  (lo <= point < lo + ctx_weight c -> weighted_random_from_context rng cs = Some c) /\
  (exists d, weighted_random_from_context rng cs = Some d /\ d ∈ cs /\ 0 < ctx_weight d).
Proof.
  intros cs lo point.
  assert (Ht : total_weight cs = sumZ (map ctx_weight cs)).
  { unfold total_weight. apply wrap_u32_small. unfold fits_u32. fold cs in Hsum. lia. }
  assert (Hp : 0 <= point < total_weight cs) by (apply Hrng; fold cs in Hsum; lia).
  assert (Hsel : weighted_random_from_context rng cs =
                 match weighted_walk point cs with Some d => Some d | None => head cs end).
  { unfold weighted_random_from_context. fold cs in Hlen, Hsum.
    destruct cs as [|x [|y l]] eqn:E; [simpl in Hlen; lia|simpl in Hlen; lia|].
    rewrite (proj2 (Z.eqb_neq _ _)) by lia. done. }
  split_and!; try apply Hp.
  - rewrite Ht. unfold cs, lo. rewrite map_app, sumZ_app. simpl. lia.
  - intros Hin. rewrite Hsel. unfold cs. rewrite weighted_walk_app; [done| |done].
    by apply Forall_app in Hw as [? _].
  - rewrite Hsel, Ht in *. clear Hsel Hlen Hsum Ht. fold cs in Hw.
    clearbody cs point. clear lo Hrng. revert point Hp.
    induction Hw as [|x l Hx Hl IH]; intros point [Hlo Hhi]; simpl in *; [lia|].
    destruct (Z.ltb_spec point (ctx_weight x)).
    + exists x. split_and!; [done|by left|lia].
    + destruct (IH (point - ctx_weight x)) as (d & Hd & Hin & Hpos); [lia|].
      destruct (weighted_walk (point - ctx_weight x) l) eqn:E.
      * injection Hd as ->. exists d. split_and!; [done|by right|done].
      * exfalso. clear - E Hlo Hhi H Hl.
        assert (Hw : forall p, 0 <= p < sumZ (map ctx_weight l) -> weighted_walk p l <> None).
        { clear - Hl. induction Hl as [|y l Hy Hl IH]; simpl; intros p Hp; [lia|].
          destruct (Z.ltb_spec p (ctx_weight y)); [done|]. apply IH. lia. }
        apply (Hw (point - ctx_weight x)); [lia|done].
Qed.

Definition example_ctx (id : string) (w active : Z) : RoutingContext :=
  mkContext id w 0 active 0 None 0 None 0.

Lemma weighted_random_proportional_witness :
  weighted_random_from_context (fun _ _ => 2) [example_ctx "a" 2 0; example_ctx "b" 3 0]
    = Some (example_ctx "b" 3 0).
Proof.
  pose (rng := fun (_ : nat) n => Z.min 2 (n - 1)).
  assert (Hr : rng_ok rng) by (unfold rng, rng_ok; intros; lia).
  destruct (weighted_random_proportional rng [example_ctx "a" 2 0] [] (example_ctx "b" 3 0))
    as (_ & _ & H & _); try exact Hr; try (simpl; unfold u32_max; lia).
  - repeat constructor; simpl; lia.
  - exact (H ltac:(vm_compute; split; congruence)).
Defined.

(** Every strategy selects one of the candidates, and the deterministic ones
    the right one: least-busy a candidate with the fewest active requests for
    every outcome of its tie-break, and usage-, latency- and priority-based
    routing the first candidate of minimal usage percentage, effective latency
    and priority value. *)
Theorem strategies_choose_best (rng : nat -> Z -> Z) (strategy : RoutingStrategy)
    (model : string) (cs : list RoutingContext) (counters : gmap string Z)
    (Hrng : rng_ok rng) (Hne : cs <> []) (Hwf : Forall ctx_wf cs) :
  exists c, snd (select_from_routing_contexts rng strategy model cs counters)
              = Some (ctx_deployment_id c) /\ c ∈ cs /\
    match strategy with
    | LeastBusy => Forall (fun x => ctx_active_requests c <= ctx_active_requests x) cs
    | UsageBased => first_minimal usage_pct cs c
    | LatencyBased => first_minimal (effective_latency (fallback_latency cs)) cs c
    | PriorityBased => first_minimal ctx_priority cs c
    | _ => True
    end.
Proof.
  assert (Hmin : forall key init,
    Forall (fun c => key c <= init) cs ->
    exists c, from_contexts Z.ltb key init cs = Some c /\ c ∈ cs /\ first_minimal key cs c).
  { intros key init Hall. destruct (from_contexts_min key init cs Hne Hall) as (c & Hc & Hm).
    exists c. split_and!; try done. destruct Hm as (pre & post & -> & _). set_solver. }
  destruct strategy; try (by destruct (select_elem rng SimpleShuffle model cs counters Hrng Hne)
    as (c & ? & ?); exists c).
  - destruct (least_busy_elem rng cs Hne) as (c & Hc & ? & ?).
    exists c. cbn. rewrite Hc. by split_and!.
  - destruct (Hmin usage_pct u64_max) as (c & Hc & ? & ?).
    { apply Forall_forall. intros x _. apply usage_pct_range. }
    exists c. cbn. unfold lowest_usage_from_context. rewrite Hc. by split_and!.
  - destruct (Hmin (effective_latency (fallback_latency cs)) u64_max) as (c & Hc & ? & ?).
    { apply (Forall_impl _ _ _ Hwf). intros x (_ & _ & _ & [_ Hl]).
      unfold effective_latency. case_match; [by apply fallback_latency_range|done]. }
    exists c. cbn. unfold lowest_latency_from_context. rewrite Hc. by split_and!.
  - destruct (Hmin ctx_priority u32_max) as (c & Hc & ? & ?).
    { apply (Forall_impl _ _ _ Hwf). intros x (_ & [_ Hp] & _). done. }
    exists c. cbn. unfold lowest_priority_from_context. rewrite Hc. by split_and!.
  - destruct (select_elem rng RateLimitAware model cs counters Hrng Hne) as (c & ? & ?).
    by exists c.
  - destruct (select_elem rng RoundRobin model cs counters Hrng Hne) as (c & ? & ?).
    by exists c.
Qed.

Lemma strategies_choose_best_witness :
  exists c, snd (select_from_routing_contexts (fun _ _ => 0) LeastBusy "m"
    [example_ctx "a" 1 3; example_ctx "b" 1 1; example_ctx "c" 1 2] ∅)
    = Some (ctx_deployment_id c) /\ ctx_active_requests c <= 1.
Proof.
  destruct (strategies_choose_best (fun _ _ => 0) LeastBusy "m"
    [example_ctx "a" 1 3; example_ctx "b" 1 1; example_ctx "c" 1 2] ∅)
    as (c & H1 & _ & H2).
  - intros k n Hn. lia.
  - discriminate.
  - repeat constructor; vm_compute; congruence.
  - exists c. split; [exact H1|]. rewrite Forall_forall in H2.
    apply (H2 (example_ctx "b" 1 1)). right. left.
Defined.

(** [k] consecutive round-robin selections of the same candidates. *)
Fixpoint rr_picks (model : string) (cs : list RoutingContext) (k : nat)
    (counters : gmap string Z) : list (option RoutingContext) :=
  match k with
  | O => []
  | S k =>
      let '(counters, c) := round_robin_from_context model cs counters in
      c :: rr_picks model cs k counters
  end.

Lemma rr_picks_lookup (model : string) (cs : list RoutingContext) (k : nat)
    (counters : gmap string Z) (v : Z) (i : nat) :
  (2 <= length cs)%nat -> default 0 (counters !! model) = v -> 0 <= v ->
  v + Z.of_nat k <= u64_max -> (i < k)%nat ->
  rr_picks model cs k counters !! i =
    Some (cs !! Z.to_nat ((v + Z.of_nat i) mod Z.of_nat (length cs))).
Proof.
  intros Hlen. revert counters v i. induction k as [|k IH]; intros counters v i Hv H0 Hk Hi;
    [lia|]. cbn [rr_picks].
  assert (Hrr : round_robin_from_context model cs counters =
    (<[model := wrap_u64 (v + 1)]> counters, cs !! Z.to_nat (v mod Z.of_nat (length cs)))).
  { unfold round_robin_from_context. rewrite Hv.
    destruct cs as [|a [|b cs]]; simpl in Hlen; [lia|lia|done]. }
  rewrite Hrr. destruct i as [|i]; cbn [lookup list_lookup].
  - rewrite Z.add_0_r. done.
  - etransitivity; [apply (IH _ (v + 1)); try lia|].
    2: { do 4 f_equal. lia. }
    rewrite lookup_insert_eq. simpl. apply wrap_u64_small. unfold fits_u64. lia.
Qed.

Lemma rr_picks_length (model : string) (cs : list RoutingContext) (k : nat)
    (counters : gmap string Z) : length (rr_picks model cs k counters) = k.
Proof.
  revert counters. induction k as [|k IH]; intros counters; simpl; [done|].
  destruct (round_robin_from_context model cs counters). simpl. by rewrite IH.
Qed.

(** Round robin is fair: any [n] consecutive selections among the same [n]
    candidates are a rotation of the candidate list, so each candidate is
    selected exactly once, starting where the model's counter stands. *)
Theorem round_robin_fair (model : string) (cs : list RoutingContext)
    (counters : gmap string Z)
    (Hlen : (2 <= length cs)%nat)
    (Hv : 0 <= default 0 (counters !! model))
    (Hfit : default 0 (counters !! model) + Z.of_nat (length cs) <= u64_max) :
  rr_picks model cs (length cs) counters =
    Some <$> rotate (Z.to_nat (default 0 (counters !! model) mod Z.of_nat (length cs))) cs /\
  rr_picks model cs (length cs) counters ≡ₚ Some <$> cs.
Proof.
  set (v := default 0 (counters !! model)) in *. set (n := length cs) in *.
  assert (Heq : rr_picks model cs n counters =
    Some <$> rotate (Z.to_nat (v mod Z.of_nat n)) cs).
  { apply list_eq_same_length with (n := n).
    - by rewrite length_fmap, length_rotate.
    - apply rr_picks_length.
    - intros i x y Hi Hx Hy. rewrite (rr_picks_lookup _ _ _ _ v) in Hx by (done || lia).
      rewrite list_lookup_fmap, lookup_rotate_r in Hy by done.
      unfold rotate_nat_add in Hy. fold n in Hx, Hy.
      rewrite Z2Nat.id in Hy by (apply Z.mod_pos_bound; lia).
      rewrite Zplus_mod_idemp_l in Hy. injection Hx as <-.
      destruct (cs !! Z.to_nat ((v + Z.of_nat i) mod Z.of_nat n)); simpl in *; congruence. }
  split; [done|]. rewrite Heq. apply fmap_Permutation. unfold rotate.
  by rewrite Permutation_app_comm, take_drop.
Qed.

Lemma round_robin_fair_witness :
  let cs := [example_ctx "a" 1 0; example_ctx "b" 1 0; example_ctx "c" 1 0] in
  rr_picks "m" cs 3 (<["m" := 4]> ∅) =
    [Some (example_ctx "b" 1 0); Some (example_ctx "c" 1 0); Some (example_ctx "a" 1 0)].
Proof.
  intros cs.
  destruct (round_robin_fair "m" cs (<["m" := 4]> ∅)) as [H _].
  - simpl. lia.
  - vm_compute. discriminate.
  - vm_compute. discriminate.
  - exact H.
Defined.
