(* ===== verification/Fallback.v ===== *)
(** Fallback configuration ([core/router/fallback.rs]): the four fallback maps,
    their validation and their lookup.

    The maps are behind locks that are never held across two operations, so the
    configuration is a record of maps.  The iteration order of a [HashMap] is
    unspecified; [validate] visits the keys in the order of [dom], and the
    theorems do not depend on it. *)

From stdpp Require Import sets fin_sets.
From S2P Require Import Prelude ProviderErrors RouterTypes.

Abbreviation FallbackMap := (gmap string (list string)).

Record FallbackConfig := mkFallbackConfig {
  general : FallbackMap;
  context_window : FallbackMap;
  content_policy : FallbackMap;
  rate_limit_map : FallbackMap;
}.

Definition FallbackConfig_new : FallbackConfig := mkFallbackConfig ∅ ∅ ∅ ∅.

Definition add_general (model : string) (fallbacks : list string) (c : FallbackConfig)
    : FallbackConfig :=
  mkFallbackConfig (<[model := fallbacks]> (general c)) (context_window c)
    (content_policy c) (rate_limit_map c).
Definition add_context_window (model : string) (fallbacks : list string)
    (c : FallbackConfig) : FallbackConfig :=
  mkFallbackConfig (general c) (<[model := fallbacks]> (context_window c))
    (content_policy c) (rate_limit_map c).
Definition add_content_policy (model : string) (fallbacks : list string)
    (c : FallbackConfig) : FallbackConfig :=
  mkFallbackConfig (general c) (context_window c)
    (<[model := fallbacks]> (content_policy c)) (rate_limit_map c).
Definition add_rate_limit (model : string) (fallbacks : list string)
    (c : FallbackConfig) : FallbackConfig :=
  mkFallbackConfig (general c) (context_window c) (content_policy c)
    (<[model := fallbacks]> (rate_limit_map c)).

Definition map_for_type (c : FallbackConfig) (t : FallbackType) : FallbackMap :=
  match t with
  | FGeneral => general c
  | FContextWindow => context_window c
  | FContentPolicy => content_policy c
  | FRateLimit => rate_limit_map c
  end.

Definition get_fallbacks_for_type (c : FallbackConfig) (model_name : string)
    (t : FallbackType) : list string :=
  default [] (map_for_type c t !! model_name).

Definition overwrite (c other : FallbackConfig) : FallbackConfig :=
  mkFallbackConfig (general other) (context_window other) (content_policy other)
    (rate_limit_map other).

(** * Validation *)

Section Validate.
Variable label : string.
Variable m : FallbackMap.
Variable start : string.

Definition cycle_error (target : string) : string :=
  label +:+ ": cycle involving '" +:+ start +:+ "' -> '" +:+ target +:+ "'".

(** The loop over the targets of a popped node. *)
Fixpoint visit_targets (targets : list string) (visited : gset string)
    (stack errors : list string) : gset string * list string * list string :=
  match targets with
  | [] => (visited, stack, errors)
  | target :: targets =>
      if decide (target ∈ visited)
      then visit_targets targets visited stack (errors ++ [cycle_error target])
      else visit_targets targets ({[target]} ∪ visited) (target :: stack) errors
  end.

(** [while let Some(node) = stack.pop()]; the head of the list is the top of
    the stack, and [None] means that the fuel ran out. *)
Fixpoint validate_loop (fuel : nat) (visited : gset string) (stack errors : list string)
    : option (list string) :=
  match stack with
  | [] => Some errors
  | node :: stack =>
      match fuel with
      | O => None
      | S fuel =>
          match m !! node with
          | Some targets =>
              let '(visited, stack, errors) := visit_targets targets visited stack errors in
              validate_loop fuel visited stack errors
          | None => validate_loop fuel visited stack errors
          end
      end
  end.

(** Every name the loop can visit. *)
Definition all_targets : gset string :=
  map_fold (fun _ ts acc => list_to_set ts ∪ acc) ∅ m.

Definition validate_fuel : nat := S (size all_targets).

Definition validate_start (errors : list string) : option (list string) :=
  validate_loop validate_fuel {[start]} [start] errors.
End Validate.

(** [for start in map.keys()]. *)
Fixpoint validate_keys (label : string) (m : FallbackMap) (keys errors : list string)
    : option (list string) :=
  match keys with
  | [] => Some errors
  | start :: keys =>
      errors ← validate_start label m start errors;
      validate_keys label m keys errors
  end.

Definition validate_map (label : string) (m : FallbackMap) (errors : list string)
    : option (list string) :=
  validate_keys label m (elements (dom m)) errors.

Definition validate (c : FallbackConfig) : option (result unit (list string)) :=
  errors ← validate_map "general" (general c) [];
  errors ← validate_map "context_window" (context_window c) errors;
  errors ← validate_map "content_policy" (content_policy c) errors;
  errors ← validate_map "rate_limit" (rate_limit_map c) errors;
  Some (match errors with [] => Ok tt | _ => Err errors end).

(** * Lemmas *)

(** [model -> target] in a fallback map. *)
Definition falls_back (m : FallbackMap) (model target : string) : Prop :=
  exists targets, m !! model = Some targets /\ target ∈ targets.

Definition acyclic (m : FallbackMap) : Prop := forall model, ~ tc (falls_back m) model model.

Lemma all_targets_spec (m : FallbackMap) (k : string) (ts : list string) :
  m !! k = Some ts -> list_to_set ts ⊆ all_targets m.
Proof.
  unfold all_targets. revert k ts.
  apply (map_fold_weak_ind (fun (acc : gset string) (m : FallbackMap) =>
    forall k ts, m !! k = Some ts -> (list_to_set ts : gset string) ⊆ acc)).
  - intros k ts H. by rewrite lookup_empty in H.
  - intros i x m' acc Hi IH k ts Hk. destruct (decide (i = k)) as [->|Hne].
    + rewrite lookup_insert_eq in Hk. injection Hk as ->. set_solver.
    + rewrite lookup_insert_ne in Hk by done. apply IH in Hk. set_solver.
Qed.

Section Lemmas.
Context (label : string) (m : FallbackMap) (start : string).

(** Each target is either reported or visited and pushed once. *)
Lemma visit_targets_spec (targets : list string) (visited : gset string)
    (stack errors : list string) (univ : gset string) :
  list_to_set targets ⊆ univ ->
  let '(visited', stack', errors') :=
    visit_targets label start targets visited stack errors in
  visited ⊆ visited' /\
  (length stack' + size (univ ∖ visited') = length stack + size (univ ∖ visited))%nat.
Proof.
  revert visited stack errors. induction targets as [|t ts IH]; intros visited stack errors Hu;
    simpl in *; [by split|]. case_decide as Hin.
  - apply IH. set_solver.
  - specialize (IH ({[t]} ∪ visited) (t :: stack) errors ltac:(set_solver)).
    destruct (visit_targets label start ts _ _ _) as [[v' s'] e'].
    destruct IH as (Hsub & Hlen). split; [set_solver|].
    rewrite Hlen. simpl.
    assert (univ ∖ visited = {[t]} ∪ univ ∖ ({[t]} ∪ visited)) as ->.
    { apply leibniz_equiv. intros x. destruct (decide (x = t)); set_solver. }
    rewrite (size_union (C := gset string) {[t]}) by set_solver. rewrite size_singleton. lia.
Qed.

(** Enough fuel: every iteration pops a name, and a name is pushed once. *)
Lemma validate_loop_total (fuel : nat) (visited : gset string) (stack errors : list string) :
  (length stack + size (all_targets m ∖ visited) <= fuel)%nat ->
  is_Some (validate_loop label m start fuel visited stack errors).
Proof.
  revert visited stack errors.
  induction fuel as [|fuel IH]; intros visited [|node stack] errors Hf; simpl in *; eauto; [lia|].
  destruct (m !! node) as [ts|] eqn:E; [|apply IH; lia].
  pose proof (visit_targets_spec ts visited stack errors (all_targets m)
    (all_targets_spec m node ts E)) as Hv.
  destruct (visit_targets label start ts visited stack errors) as [[v' s'] e'].
  destruct Hv as (_ & Hl). apply IH. lia.
Qed.

Lemma visit_targets_clean (targets : list string) (visited : gset string)
    (stack errors : list string) :
  snd (visit_targets label start targets visited stack errors) = [] ->
  errors = [] /\ (forall t, t ∈ targets -> t ∉ visited) /\
  let '(visited', stack', _) := visit_targets label start targets visited stack errors in
  visited ⊆ visited' /\ (forall t, t ∈ targets \/ t ∈ stack -> t ∈ stack').
Proof.
  revert visited stack errors. induction targets as [|t ts IH]; intros visited stack errors;
    simpl.
  - intros ->. split_and!; try done; set_solver.
  - case_decide as Hin; intros H; apply IH in H as (He & Hn & Hrest).
    + by destruct errors.
    + destruct (visit_targets _ _ _ _ _ _) as [[v' s'] e']. destruct Hrest as (Hsub & Hst).
      split_and!; [done|set_solver|set_solver|].
      intros x [Hx|Hx]; [apply elem_of_cons in Hx as [->|Hx]|]; apply Hst; set_solver.
Qed.

(** Errors are only ever added. *)
Lemma validate_loop_mono (fuel : nat) (visited : gset string) (stack errors : list string) :
  validate_loop label m start fuel visited stack errors = Some [] -> errors = [].
Proof.
  revert visited stack errors.
  induction fuel as [|fuel IH]; intros v [|y s] e; simpl; try congruence.
  destruct (m !! y) as [ys|]; [|apply IH].
  destruct (visit_targets label start ys v s e) as [[v2 s2] e2] eqn:Ev2.
  intros ->%IH. pose proof (visit_targets_clean ys v s e) as Hc. rewrite Ev2 in Hc.
  by apply Hc.
Qed.

(** A clean run never meets a visited name again: nothing reachable from the
    stack falls back to it. *)
Lemma validate_loop_clean (fuel : nat) (visited : gset string) (stack errors : list string)
    (target : string) :
  validate_loop label m start fuel visited stack errors = Some [] ->
  target ∈ visited ->
  errors = [] /\
  forall node n, node ∈ stack -> rtc (falls_back m) node n -> ~ falls_back m n target.
Proof.
  revert visited stack errors.
  induction fuel as [|fuel IH]; intros visited [|x stack] errors Hl Ht; simpl in Hl;
    try (injection Hl as ->; split; [done|]; intros ? ? []%not_elem_of_nil); [done|].
  destruct (m !! x) as [ts|] eqn:E.
  - destruct (visit_targets label start ts visited stack errors) as [[v' s'] e'] eqn:Ev.
    pose proof (IH v' s' e' Hl) as IH1.
    pose proof (visit_targets_clean ts visited stack errors) as Hc. rewrite Ev in Hc. simpl in Hc.
    pose proof (validate_loop_mono _ _ _ _ Hl) as ->.
    destruct (Hc eq_refl) as (-> & Hn & Hsub & Hst).
    destruct IH1 as (_ & Hpath); [set_solver|]. split; [done|].
    intros node n Hin Hr. apply elem_of_cons in Hin as [->|Hin].
    + inversion Hr as [|? y ? Hxy Hr']; subst.
      * intros (ts' & Hts & Hin). rewrite E in Hts. injection Hts as <-.
        by apply (Hn target).
      * destruct Hxy as (ts' & Hts & Hin). rewrite E in Hts. injection Hts as <-.
        apply (Hpath y); [|done]. apply Hst. by left.
    + apply (Hpath node); [|done]. apply Hst. by right.
  - destruct (IH visited stack errors Hl Ht) as (-> & Hpath). split; [done|].
    intros node n Hin Hr. apply elem_of_cons in Hin as [->|Hin]; [|by apply (Hpath node)].
    inversion Hr as [|? y ? Hxy Hr']; subst.
    + intros (ts' & Hts & _). congruence.
    + destruct Hxy as (ts' & Hts & _). congruence.
Qed.
End Lemmas.

Lemma validate_start_total (label : string) (m : FallbackMap) (start : string)
    (errors : list string) : is_Some (validate_start label m start errors).
Proof.
  apply validate_loop_total. unfold validate_fuel. simpl.
  assert (size (all_targets m ∖ {[start]}) <= size (all_targets m))%nat; [|lia].
  apply subseteq_size. set_solver.
Qed.

Lemma validate_keys_total (label : string) (m : FallbackMap) (keys errors : list string) :
  is_Some (validate_keys label m keys errors).
Proof.
  revert errors. induction keys as [|k keys IH]; intros errors; simpl; [by eexists|].
  destruct (validate_start_total label m k errors) as [e He]. rewrite He. simpl. apply IH.
Qed.

Lemma validate_keys_clean (label : string) (m : FallbackMap) (keys errors : list string) :
  validate_keys label m keys errors = Some [] ->
  errors = [] /\ forall k, k ∈ keys -> ~ tc (falls_back m) k k.
Proof.
  revert errors. induction keys as [|k keys IH]; intros errors; simpl.
  - intros [= ->]. split; [done|]. set_solver.
  - destruct (validate_start label m k errors) as [e|] eqn:E; simpl; [|done].
    intros [-> Hk]%IH. unfold validate_start in E.
    apply (validate_loop_clean _ _ _ _ _ _ _ k) in E as [-> Hp]; [|set_solver].
    split; [done|]. intros x Hx. apply elem_of_cons in Hx as [->|Hx]; [|by apply Hk].
    intros (n & Hr & Hn)%tc_last. apply (Hp k n); [by left|done|done].
Qed.

Lemma validate_map_total (label : string) (m : FallbackMap) (errors : list string) :
  is_Some (validate_map label m errors).
Proof. apply validate_keys_total. Qed.

Lemma validate_map_clean (label : string) (m : FallbackMap) (errors : list string) :
  validate_map label m errors = Some [] -> errors = [] /\ acyclic m.
Proof.
  intros [He Hk]%validate_keys_clean. split; [done|]. intros k Ht.
  apply (Hk k); [|done]. apply elem_of_elements, elem_of_dom.
  inversion Ht as [? ? (ts & Hts & _)|? ? ? (ts & Hts & _) _]; subst; by exists ts.
Qed.

(** * Properties *)

(** Validation of the fallback maps terminates on every configuration,
    cyclic ones included, and it accepts only configurations none of whose four
    maps has a chain of fallbacks that returns to its model; a rejection names
    at least one offending edge. *)
Theorem validate_sound (c : FallbackConfig) :
  exists r, validate c = Some r /\
    match r with
    | Ok _ => forall t, acyclic (map_for_type c t)
    | Err errors => errors <> []
    end.
Proof.
  unfold validate.
  destruct (validate_map_total "general" (general c) []) as [e1 H1]. rewrite H1. simpl.
  destruct (validate_map_total "context_window" (context_window c) e1) as [e2 H2].
  rewrite H2. simpl.
  destruct (validate_map_total "content_policy" (content_policy c) e2) as [e3 H3].
  rewrite H3. simpl.
  destruct (validate_map_total "rate_limit" (rate_limit_map c) e3) as [e4 H4].
  rewrite H4. simpl.
  destruct e4 as [|e e4]; eexists; (split; [reflexivity|]); [|done].
  apply validate_map_clean in H4 as [-> H4]. apply validate_map_clean in H3 as [-> H3].
  apply validate_map_clean in H2 as [-> H2]. apply validate_map_clean in H1 as [_ H1].
  by intros [].
Qed.

(** A model whose fallbacks share a further fallback is reported as a cycle. *)
Definition diamond : FallbackConfig :=
  add_general "a" ["b"; "c"] (add_general "b" ["d"] (add_general "c" ["d"]
    FallbackConfig_new)).

Lemma validate_rejects_diamond :
  acyclic (general diamond) /\
  validate diamond = Some (Err ["general: cycle involving 'a' -> 'd'"]).
Proof.
  split; [|vm_compute; reflexivity].
  set (rank := fun s : string => if String.eqb s "a" then 2%nat
                                 else if String.eqb s "d" then 0%nat else 1%nat).
  assert (Hdec : forall x y, falls_back (general diamond) x y -> (rank y < rank x)%nat).
  { intros x y (ts & Hts & Hin). unfold diamond, add_general in Hts. cbn [general] in Hts.
    repeat (rewrite lookup_insert in Hts; case_decide; subst).
    - injection Hts as <-.
      apply elem_of_cons in Hin as [->|Hin%list_elem_of_singleton]; [|subst]; vm_compute; lia.
    - injection Hts as <-. apply list_elem_of_singleton in Hin as ->. vm_compute; lia.
    - injection Hts as <-. apply list_elem_of_singleton in Hin as ->. vm_compute; lia.
    - done. }
  intros x Ht. assert (Hlt : forall a b, tc (falls_back (general diamond)) a b ->
    (rank b < rank a)%nat).
  { intros a b. induction 1 as [? ? ?%Hdec|? ? ? ?%Hdec]; lia. }
  apply Hlt in Ht. lia.
Qed.
