(* ===== verification/Aliases.v ===== *)
(** Model aliases: the checks of a configured alias map
    ([config/validation/config_validators.rs]), its normalisation
    ([core/router/gateway_aliases.rs]), and the alias graph of a routing snapshot
    ([core/router/unified.rs], [add_model_alias], [resolve_model_name]).

    A loop over the alias graph takes fuel; [None] means that it ran out, and
    the theorems show when it does not. *)

From stdpp Require Import sets fin_sets.
From S2P Require Import Prelude Text ProviderErrors RouterTypes.
#[local] Open Scope rust_scope.

Abbreviation AliasMap := (gmap string string).

(** * The alias graph of a snapshot *)

Definition MAX_ALIAS_HOPS : nat := 16.

(** [hops] steps of the loop of [resolve_model_name]. *)
Fixpoint follow (aliases : AliasMap) (hops : nat) (current : string) : string :=
  match hops with
  | O => current
  | S hops =>
      match aliases !! current with
      | Some next => follow aliases hops next
      | None => current
      end
  end.

Definition resolve_alias (aliases : AliasMap) (name : string) : string :=
  if decide (aliases = ∅) then name else follow aliases MAX_ALIAS_HOPS name.

Definition alias_cycle_error (alias model_name : string) : RouterError :=
  AliasCycle ("'" +:+ alias +:+ "' -> '" +:+ model_name +:+ "' would create a cycle").

(** [while let Some(next) = self.model_aliases.get(&current)]: whether the walk
    meets a visited name. *)
Fixpoint alias_walk (aliases : AliasMap) (fuel : nat) (visited : gset string)
    (current : string) : option bool :=
  match fuel with
  | O => None
  | S fuel =>
      match aliases !! current with
      | Some next =>
          if decide (next ∈ visited) then Some true
          else alias_walk aliases fuel ({[next]} ∪ visited) next
      | None => Some false
      end
  end.

Definition alias_fuel (aliases : AliasMap) : nat := (2 + size (dom aliases))%nat.

Definition add_alias (alias model_name : string) (aliases : AliasMap)
    : option (result AliasMap RouterError) :=
  if String.eqb alias model_name then Some (Err (alias_cycle_error alias model_name))
  else
    cyclic ← alias_walk aliases (alias_fuel aliases) {[alias]} model_name;
    Some (if cyclic : bool then Err (alias_cycle_error alias model_name)
          else Ok (<[alias := model_name]> aliases)).

(** * Configured aliases *)

(** The shape checks of one alias. *)
Definition alias_shape_error (alias target : string) : option string :=
  if String.eqb (trim alias) "" then Some "Model alias name cannot be empty"
  else if negb (String.eqb alias (trim alias))
  then Some ("Model alias name '" +:+ alias
             +:+ "' cannot contain leading or trailing whitespace")
  else if String.eqb (trim target) ""
  then Some ("Model alias '" +:+ alias +:+ "' target cannot be empty")
  else if String.eqb (trim alias) (trim target)
  then Some ("Model alias '" +:+ alias +:+ "' cannot target itself")
  else None.

Section Map.
Variable model_aliases : AliasMap.

Fixpoint check_shapes (names : list string) : option string :=
  match names with
  | [] => None
  | alias :: names =>
      match alias_shape_error alias (default "" (model_aliases !! alias)) with
      | Some e => Some e
      | None => check_shapes names
      end
  end.

(** The cycle search from one alias. *)
Fixpoint cycle_from (fuel : nat) (visited : gset string) (path : list string)
    (current : string) : option (option string) :=
  match fuel with
  | O => None
  | S fuel =>
      if decide (current ∈ visited)
      then Some (Some ("Model alias cycle detected: " +:+ join " -> " (path ++ [current])))
      else
        match model_aliases !! current with
        | None => Some None
        | Some next => cycle_from fuel ({[current]} ∪ visited) (path ++ [current]) next
        end
  end.

Fixpoint check_cycles (names : list string) : option (option string) :=
  match names with
  | [] => Some None
  | alias :: names =>
      e ← cycle_from (alias_fuel model_aliases) ∅ [] alias;
      match e with
      | Some e => Some (Some e)
      | None => check_cycles names
      end
  end.

Definition validate_model_alias_map : option (result unit string) :=
  let names := sorted_keys model_aliases in
  match check_shapes names with
  | Some e => Some (Err e)
  | None =>
      e ← check_cycles names;
      Some (match e with Some e => Err e | None => Ok tt end)
  end.

(** ** [normalize_model_aliases] *)

Variable canonical_models : gset string.

Fixpoint collision (names : list string) : option RouterError :=
  match names with
  | [] => None
  | alias :: names =>
      if decide (alias ∈ canonical_models)
      then Some (InvalidConfiguration ("model alias '" +:+ alias
                   +:+ "' collides with an enabled canonical model"))
      else collision names
  end.

(** [while let Some(next) = model_aliases.get(target)]: no visited set. *)
Fixpoint chase (fuel : nat) (target : string) : option string :=
  match fuel with
  | O => None
  | S fuel =>
      match model_aliases !! target with
      | Some next => chase fuel next
      | None => Some target
      end
  end.

Fixpoint normalize_names (fuel : nat) (names : list string) (normalized : AliasMap)
    : option (result AliasMap RouterError) :=
  match names with
  | [] => Some (Ok normalized)
  | alias :: names =>
      target ← chase fuel (default "" (model_aliases !! alias));
      if decide (target ∈ canonical_models)
      then normalize_names fuel names (<[alias := target]> normalized)
      else Some (Err (InvalidConfiguration ("model alias '" +:+ alias
             +:+ "' resolves to unavailable model '" +:+ target +:+ "'")))
  end.

Definition normalize_model_aliases (fuel : nat) : option (result AliasMap RouterError) :=
  let names := sorted_keys model_aliases in
  match collision names with
  | Some e => Some (Err e)
  | None => normalize_names fuel names ∅
  end.
End Map.

(** The alias part of [from_gateway_config_with_identity]: check, normalise,
    install in the snapshot in sorted order. *)
Fixpoint install_aliases (normalized : AliasMap) (names : list string) (aliases : AliasMap)
    : option (result AliasMap RouterError) :=
  match names with
  | [] => Some (Ok aliases)
  | alias :: names =>
      let? aliases := add_alias alias (default "" (normalized !! alias)) aliases in
      install_aliases normalized names aliases
  end.

Definition configure_aliases (model_aliases : AliasMap) (canonical_models : gset string)
    (aliases : AliasMap) : option (result AliasMap RouterError) :=
  r ← validate_model_alias_map model_aliases;
  match r with
  | Err e => Some (Err (InvalidConfiguration e))
  | Ok _ =>
      let? normalized :=
        normalize_model_aliases model_aliases canonical_models (alias_fuel model_aliases) in
      install_aliases normalized (sorted_keys normalized) aliases
  end.

(** * Lemmas *)

Definition alias_edge (m : AliasMap) (x y : string) : Prop := m !! x = Some y.

Definition aliases_acyclic (m : AliasMap) : Prop := forall x, ~ tc (alias_edge m) x x.

(** Termination measure of the walks: aliases not visited yet. *)
Lemma visit_measure (m : AliasMap) (visited : gset string) (x : string) :
  x ∈ dom m -> x ∉ visited ->
  (size (dom m ∖ ({[x]} ∪ visited)) < size (dom m ∖ visited))%nat.
Proof. intros Hd Hv. apply subset_size. set_solver. Qed.

Lemma alias_walk_total (m : AliasMap) (fuel : nat) (visited : gset string) (x : string) :
  (size (dom m ∖ visited) + 2 <= fuel)%nat -> is_Some (alias_walk m fuel visited x).
Proof.
  revert visited x. induction fuel as [|fuel IH]; intros visited x Hf; simpl; [lia|].
  destruct (m !! x) as [y|]; [|by eexists]. case_decide as Hy; [by eexists|].
  destruct (m !! y) as [z|] eqn:Ey.
  - apply IH. pose proof (visit_measure m visited y ltac:(by apply elem_of_dom_2 in Ey) Hy). lia.
  - destruct fuel as [|fuel]; [lia|]. simpl. rewrite Ey. by eexists.
Qed.

Lemma cycle_from_total (m : AliasMap) (fuel : nat) (visited : gset string)
    (path : list string) (x : string) :
  (size (dom m ∖ visited) + 2 <= fuel)%nat -> is_Some (cycle_from m fuel visited path x).
Proof.
  revert visited path x. induction fuel as [|fuel IH]; intros visited path x Hf; simpl; [lia|].
  case_decide as Hx; [by eexists|]. destruct (m !! x) as [y|] eqn:Ex; [|by eexists].
  apply IH. pose proof (visit_measure m visited x ltac:(by apply elem_of_dom_2 in Ex) Hx). lia.
Qed.

Lemma alias_fuel_enough (m : AliasMap) (visited : gset string) :
  (size (dom m ∖ visited) + 2 <= alias_fuel m)%nat.
Proof.
  unfold alias_fuel. assert (size (dom m ∖ visited) <= size (dom m))%nat; [|lia].
  apply subseteq_size. set_solver.
Qed.

(** A walk that ends without a cycle found never meets a visited name. *)
Lemma alias_walk_false (m : AliasMap) (fuel : nat) (visited : gset string) (x y z : string) :
  alias_walk m fuel visited x = Some false ->
  y ∈ visited -> rtc (alias_edge m) x z -> z <> x -> z <> y.
Proof.
  revert visited x. induction fuel as [|fuel IH]; intros visited x; simpl; [done|].
  destruct (m !! x) as [next|] eqn:Ex.
  - case_decide as Hn; [done|]. intros Hw Hy Hr Hne.
    inversion Hr as [|? u ? Hxu Hr']; subst; [done|].
    unfold alias_edge in Hxu. rewrite Ex in Hxu. injection Hxu as <-.
    destruct (decide (z = next)) as [->|Hzn]; [set_solver|].
    eapply IH; try done. set_solver.
  - intros _ _ Hr Hne. inversion Hr as [|? u ? Hxu Hr']; subst; [done|].
    unfold alias_edge in Hxu. congruence.
Qed.

(** A walk that finds a cycle found either a cycle of the graph or a way back to
    the name it started with. *)
Lemma alias_walk_true (m : AliasMap) (fuel : nat) (visited : gset string) (a x : string) :
  aliases_acyclic m ->
  (forall v, v ∈ visited -> v = a \/ rtc (alias_edge m) v x) ->
  alias_walk m fuel visited x = Some true -> rtc (alias_edge m) x a.
Proof.
  intros Hac. revert visited x. induction fuel as [|fuel IH]; intros visited x Hv; simpl;
    [done|].
  destruct (m !! x) as [next|] eqn:Ex; [|done]. case_decide as Hn.
  - intros _. destruct (Hv next Hn) as [->|Hr].
    + by eapply rtc_once.
    + exfalso. by apply (Hac next), (rtc_step_tc _ _ x).
  - intros Hw. eapply rtc_l; [exact Ex|]. apply (IH ({[next]} ∪ visited)); [|done].
    intros v [->%elem_of_singleton|Hvis]%elem_of_union; [right; apply rtc_refl|].
    destruct (Hv v Hvis) as [->|Hr]; [by left|]. right.
    eapply rtc_r; [done|]. exact Ex.
Qed.

(** Paths to [a] do not depend on where [a] points. *)
Lemma paths_to (m : AliasMap) (a t x : string) :
  rtc (alias_edge (<[a := t]> m)) x a <-> rtc (alias_edge m) x a.
Proof.
  assert (Hag : forall u v, u <> a -> alias_edge (<[a := t]> m) u v <-> alias_edge m u v).
  { intros u v Hu. unfold alias_edge. by rewrite lookup_insert_ne. }
  assert (Hstep : forall (R S : relation string), (forall u v, u <> a -> R u v -> S u v) ->
    forall u v, rtc R u v -> v = a -> rtc S u v).
  { intros R S HRS u v Hr. induction Hr as [|u w v Huw _ IH]; intros ->; [apply rtc_refl|].
    destruct (decide (u = a)) as [->|Hne]; [apply rtc_refl|].
    eapply rtc_l; [by apply HRS|by apply IH]. }
  split; intros Hr; (eapply Hstep; [|exact Hr|done]); intros u v Hu; by apply Hag.
Qed.

Lemma cycles_after_insert (m : AliasMap) (a t x y : string) :
  tc (alias_edge (<[a := t]> m)) x y ->
  tc (alias_edge m) x y \/
  rtc (alias_edge (<[a := t]> m)) x a /\ rtc (alias_edge (<[a := t]> m)) t y.
Proof.
  assert (Hedge : forall u v, alias_edge (<[a := t]> m) u v ->
    u = a /\ v = t \/ alias_edge m u v).
  { intros u v Huv. unfold alias_edge in *. rewrite lookup_insert in Huv.
    case_decide; [left; by simplify_eq|by right]. }
  induction 1 as [x y Hxy|x y z Hxy Htc IH].
  - destruct (Hedge x y Hxy) as [[-> ->]|?]; [right; split; apply rtc_refl|].
    left. by apply tc_once.
  - destruct (Hedge x y Hxy) as [[-> ->]|Hm].
    + right. split; [apply rtc_refl|]. by apply tc_rtc.
    + destruct IH as [IH|[IH1 IH2]]; [left; by eapply tc_l|].
      right. split; [|done]. by eapply rtc_l.
Qed.

Lemma insert_acyclic_iff (m : AliasMap) (a t : string) :
  aliases_acyclic m ->
  aliases_acyclic (<[a := t]> m) <-> ~ rtc (alias_edge m) t a.
Proof.
  intros Hac. rewrite <- (paths_to m a t t). split.
  - intros Hn Hr. apply (Hn a). eapply tc_rtc_r; [|exact Hr].
    apply tc_once. unfold alias_edge. apply lookup_insert_eq.
  - intros Hn x Ht. apply cycles_after_insert in Ht as [Ht|[Hxa Htx]].
    + by apply (Hac x).
    + apply Hn. by etrans.
Qed.

Lemma add_alias_spec (alias model_name : string) (m : AliasMap) :
  aliases_acyclic m ->
  (~ rtc (alias_edge m) model_name alias /\
   add_alias alias model_name m = Some (Ok (<[alias := model_name]> m))) \/
  (rtc (alias_edge m) model_name alias /\
   add_alias alias model_name m = Some (Err (alias_cycle_error alias model_name))).
Proof.
  intros Hac. unfold add_alias. destruct (String.eqb_spec alias model_name) as [->|Hne].
  - right. split; [apply rtc_refl|done].
  - destruct (alias_walk_total m (alias_fuel m) {[alias]} model_name (alias_fuel_enough m _))
      as [b Hb]. rewrite Hb. simpl. destruct b.
    + right. split; [|done]. eapply alias_walk_true; [done| |exact Hb].
      intros v ->%elem_of_singleton. by left.
    + left. split; [|done]. intros Hr.
      apply (alias_walk_false _ _ _ _ alias alias Hb); [set_solver|done|congruence|done].
Qed.

(** The walk of [follow] ends as soon as a name is no alias. *)
Lemma follow_terminal (m : AliasMap) (n k : nat) (x : string) :
  m !! follow m n x = None -> follow m (n + k) x = follow m n x.
Proof.
  revert x. induction n as [|n IH]; intros x; simpl.
  - intros Hx. destruct k; simpl; [done|]. by rewrite Hx.
  - destruct (m !! x) eqn:Ex; [apply IH|done].
Qed.

Lemma follow_path (m : AliasMap) (n : nat) (x : string) : rtc (alias_edge m) x (follow m n x).
Proof.
  revert x. induction n as [|n IH]; intros x; simpl; [apply rtc_refl|].
  destruct (m !! x) eqn:Ex; [|apply rtc_refl]. eapply rtc_l; [exact Ex|apply IH].
Qed.

Lemma resolve_alias_follow (m : AliasMap) (x : string) :
  resolve_alias m x = follow m MAX_ALIAS_HOPS x.
Proof. unfold resolve_alias. case_decide as H; [|done]. subst. simpl. by rewrite lookup_empty. Qed.

(** ** The configured map *)

Lemma cycle_from_none (m : AliasMap) (fuel : nat) (visited : gset string)
    (path : list string) (x : string) :
  cycle_from m fuel visited path x = Some None ->
  exists t, chase m fuel x = Some t /\ m !! t = None /\ rtc (alias_edge m) x t.
Proof.
  revert visited path x. induction fuel as [|fuel IH]; intros visited path x; simpl; [done|].
  case_decide; [done|]. destruct (m !! x) as [y|] eqn:Ex; intros H'.
  - destruct (IH _ _ _ H') as (t & Ht & Hn & Hr). exists t. split_and!; [done|done|].
    eapply rtc_l; [exact Ex|done].
  - exists x. by split_and!; [..|apply rtc_refl].
Qed.

Lemma chase_more (m : AliasMap) (fuel : nat) (x t : string) :
  chase m fuel x = Some t -> chase m (S fuel) x = Some t.
Proof.
  revert x. induction fuel as [|fuel IH]; intros x; [done|].
  intros Hc. simpl in Hc. change (chase m (S (S fuel)) x) with
    (match m !! x with Some next => chase m (S fuel) next | None => Some x end).
  destruct (m !! x); auto.
Qed.

Lemma check_cycles_none (m : AliasMap) (names : list string) :
  check_cycles m names = Some None ->
  forall a t, a ∈ names -> m !! a = Some t ->
  exists u, chase m (alias_fuel m) t = Some u /\ m !! u = None /\ rtc (alias_edge m) a u.
Proof.
  induction names as [|n names IH]; cbn [check_cycles]; intros Hc a t Ha Hat; [set_solver|].
  destruct (cycle_from m (alias_fuel m) ∅ [] n) as [[e|]|] eqn:E; try done.
  apply elem_of_cons in Ha as [->|Ha]; [|by apply (IH Hc a t)].
  apply cycle_from_none in E as (u & Hu & Hn & Hr). exists u. split_and!; try done.
  unfold alias_fuel in *. cbn [Nat.add chase] in Hu. rewrite Hat in Hu.
  by apply chase_more.
Qed.

Lemma check_cycles_total (m : AliasMap) (names : list string) : is_Some (check_cycles m names).
Proof.
  induction names as [|n names IH]; cbn [check_cycles]; [by eexists|].
  destruct (cycle_from_total m (alias_fuel m) ∅ [] n (alias_fuel_enough m _)) as [e He].
  rewrite He. cbn [mbind option_bind]. destruct e; [by eexists|done].
Qed.

Lemma collision_none (canonical : gset string) (names : list string) :
  collision canonical names = None -> forall a, a ∈ names -> a ∉ canonical.
Proof.
  induction names as [|n names IH]; simpl; intros Hc a Ha; [set_solver|].
  case_decide; [done|]. apply elem_of_cons in Ha as [->|Ha]; auto.
Qed.

(** What normalisation builds: every alias mapped to the end of its chain. *)
Definition normal_form (m : AliasMap) (canonical : gset string) (n : AliasMap) : Prop :=
  forall a t, n !! a = Some t ->
    t ∈ canonical /\ m !! t = None /\ is_Some (m !! a) /\ rtc (alias_edge m) a t.

Lemma normalize_names_spec (m : AliasMap) (canonical : gset string) (names : list string)
    (n : AliasMap) :
  (forall a, a ∈ names -> is_Some (m !! a)) ->
  (forall a t, a ∈ names -> m !! a = Some t -> exists u,
     chase m (alias_fuel m) t = Some u /\ m !! u = None /\ rtc (alias_edge m) a u) ->
  normal_form m canonical n ->
  exists r, normalize_names m canonical (alias_fuel m) names n = Some r /\
    match r with
    | Ok n' => normal_form m canonical n' /\ dom n' = dom n ∪ list_to_set names
    | Err _ => True
    end.
Proof.
  revert n. induction names as [|a names IH]; intros n Hdom Hch Hn; cbn [normalize_names].
  - eexists. split; [reflexivity|]. split; [done|]. set_solver.
  - destruct (Hdom a ltac:(by left)) as [t Ht]. rewrite Ht. cbn [default].
    destruct (Hch a t ltac:(by left) Ht) as (u & Hu & Hnone & Hr). unfold id. rewrite Hu.
    cbn [mbind option_bind]. case_decide as Hcan; [|by eexists].
    destruct (IH (<[a := u]> n)) as (r & Hrr & Hpost).
    + intros b Hb. apply Hdom. by right.
    + intros b v Hb. apply Hch. by right.
    + intros b v. rewrite lookup_insert. case_decide as E; [|apply Hn].
      intros [= <-]. subst b. split_and!; try done; by exists t.
    + exists r. split; [done|]. destruct r as [n'|]; [|done]. destruct Hpost as [H1 H2].
      split; [done|]. rewrite H2, dom_insert_L. simpl. set_solver.
Qed.

(** Installing a normalised map meets no cycle. *)
Lemma install_aliases_spec (n : AliasMap) (names : list string) (acc : AliasMap) :
  (forall a t, n !! a = Some t -> n !! t = None) ->
  (forall a, a ∈ names -> is_Some (n !! a)) ->
  acc ⊆ n ->
  exists acc', install_aliases n names acc = Some (Ok acc') /\ acc' ⊆ n /\
    dom acc' = dom acc ∪ list_to_set names.
Proof.
  intros Hterm. revert acc. induction names as [|a names IH]; intros acc Hdom Hsub;
    cbn [install_aliases].
  - exists acc. split_and!; [done|done|]. set_solver.
  - destruct (Hdom a ltac:(by left)) as [t Ht]. rewrite Ht. cbn [default]. unfold id.
    assert (Hat : a <> t) by (intros ->; specialize (Hterm _ _ Ht); congruence).
    assert (Hadd : add_alias a t acc = Some (Ok (<[a := t]> acc))).
    { unfold add_alias. rewrite (proj2 (String.eqb_neq _ _) Hat).
      destruct (acc !! t) as [u|] eqn:Eu.
      - eapply lookup_weaken in Eu; [|exact Hsub]. specialize (Hterm _ _ Ht). congruence.
      - unfold alias_fuel. cbn [Nat.add alias_walk]. by rewrite Eu. }
    rewrite Hadd. cbn [mbind option_bind].
    destruct (IH (<[a := t]> acc)) as (acc' & Hi & Hs & Hd).
    + intros b Hb. apply Hdom. by right.
    + by apply insert_subseteq_l.
    + exists acc'. split_and!; [done|done|]. rewrite Hd, dom_insert_L. simpl. set_solver.
Qed.

(** * Properties *)

(** Adding an alias to a snapshot never creates a cycle and never refuses
    more than it must.  On an acyclic alias map the walk of [add_model_alias]
    terminates; the alias is installed exactly when the map with it is still
    acyclic, also when it replaces an existing alias, and is refused as an alias
    cycle exactly when it is not. *)
Theorem add_alias_acyclic (m : AliasMap) (alias model_name : string)
    (Hac : aliases_acyclic m) :
  match add_alias alias model_name m with
  | Some (Ok m') => m' = <[alias := model_name]> m /\ aliases_acyclic m'
  | Some (Err e) =>
      e = alias_cycle_error alias model_name /\
      ~ aliases_acyclic (<[alias := model_name]> m)
  | None => False
  end.
Proof.
  destruct (add_alias_spec alias model_name m Hac) as [[Hn ->]|[Hr ->]]; (split; [done|]).
  - by apply insert_acyclic_iff.
  - rewrite insert_acyclic_iff by done. tauto.
Qed.

Lemma empty_acyclic : aliases_acyclic ∅.
Proof. intros x Ht. inversion Ht as [? ? H|? ? ? H]; unfold alias_edge in H; by rewrite lookup_empty in H. Qed.

Lemma add_alias_acyclic_witness :
  add_alias "gpt" "gpt-4o" ∅ = Some (Ok {["gpt" := "gpt-4o"]}) /\
  aliases_acyclic {["gpt" := "gpt-4o"]}.
Proof.
  pose proof (add_alias_acyclic ∅ "gpt" "gpt-4o" empty_acyclic) as H.
  vm_compute add_alias in H. cbv beta iota in H.
  destruct H as [Heq Ha]. split; [vm_compute; reflexivity|].
  exact Ha.
Defined.

(** Configured aliases are cycle-free, terminate and resolve in one hop.
    For every alias map and set of served models, checking, normalising and
    installing the map terminates without diverging on a chain; when it succeeds,
    the installed aliases are exactly the configured names, each resolves to a
    served model at the end of its configured chain, however long the chain,
    and served models and unknown names resolve to themselves. *)
Theorem configured_aliases_resolve (m : AliasMap) (canonical : gset string) :
  exists r, configure_aliases m canonical ∅ = Some r /\
    match r with
    | Ok installed =>
        dom installed = dom m /\
        (forall a, a ∈ dom m ->
           resolve_alias installed a ∈ canonical /\ (resolve_alias installed a ∉ dom m) /\
           rtc (alias_edge m) a (resolve_alias installed a)) /\
        (forall x, x ∉ dom m -> resolve_alias installed x = x) /\
        (forall x, x ∈ canonical -> resolve_alias installed x = x)
    | Err _ => True
    end.
Proof.
  unfold configure_aliases, validate_model_alias_map, normalize_model_aliases.
  destruct (check_shapes m (sorted_keys m)) as [e|]; [by eexists|].
  destruct (check_cycles_total m (sorted_keys m)) as [[e|] Hc]; rewrite Hc;
    cbn [mbind option_bind]; [by eexists|].
  destruct (collision canonical (sorted_keys m)) as [e|] eqn:Ecol; cbn [mbind option_bind];
    [by eexists|].
  destruct (normalize_names_spec m canonical (sorted_keys m) ∅) as (r & Hr & Hpost).
  { intros a Ha. by apply elem_of_sorted_keys. }
  { intros a t Ha. by apply (check_cycles_none m (sorted_keys m) Hc). }
  { intros a t Ha. by rewrite lookup_empty in Ha. }
  rewrite Hr. cbn [mbind option_bind]. destruct r as [n|e]; [|by eexists].
  destruct Hpost as [Hnf Hdom].
  assert (Hdm : dom n = dom m).
  { rewrite Hdom, dom_empty_L. apply set_eq. intros x.
    rewrite elem_of_union, elem_of_list_to_set, elem_of_sorted_keys, elem_of_dom. set_solver. }
  destruct (install_aliases_spec n (sorted_keys n) ∅) as (acc & Hi & Hs & Hd).
  { intros a t Ha. apply Hnf in Ha as (_ & Hn & _). apply not_elem_of_dom.
    rewrite Hdm. by apply not_elem_of_dom. }
  { intros a Ha. by apply elem_of_sorted_keys. }
  { apply map_empty_subseteq. }
  assert (acc = n) as ->.
  { apply subseteq_dom_eq; [done|]. rewrite Hd, dom_empty_L. intros x.
    rewrite elem_of_union, elem_of_list_to_set, elem_of_sorted_keys, elem_of_dom. set_solver. }
  eexists. split; [exact Hi|]. cbv beta iota. split; [done|].
  assert (Hself : forall x, x ∉ dom m -> resolve_alias n x = x).
  { intros x Hx. rewrite resolve_alias_follow. simpl.
    rewrite <- Hdm in Hx. apply not_elem_of_dom in Hx. by rewrite Hx. }
  split_and!; [|exact Hself|].
  - intros a Ha. rewrite <- Hdm in Ha. apply elem_of_dom in Ha as [t Ht].
    pose proof (Hnf _ _ Ht) as (Hcan & Hn & _ & Hpath).
    assert (resolve_alias n a = t) as ->.
    { rewrite resolve_alias_follow. simpl. rewrite Ht.
      apply not_elem_of_dom in Hn. rewrite <- Hdm in Hn. apply not_elem_of_dom in Hn.
      by rewrite Hn. }
    split_and!; [done| |done]. by apply not_elem_of_dom.
  - intros x Hx. apply Hself. intros Hin. apply elem_of_dom, elem_of_sorted_keys in Hin.
    by apply (collision_none _ _ Ecol x).
Qed.

(** The hop limit is no limit on insertion: a chain of 17 aliases, added one by
    one at run time, is accepted and its first name resolves to an alias. *)
Definition chain_name (n : nat) : string := "a" +:+ show (Z.of_nat n).

Fixpoint add_chain (n : nat) (m : AliasMap) : option AliasMap :=
  match n with
  | O => Some m
  | S n =>
      r ← add_alias (chain_name n) (chain_name (S n)) m;
      match r with Ok m => add_chain n m | Err _ => None end
  end.

Lemma long_chain_unresolved :
  exists m, add_chain 17 ∅ = Some m /\
    resolve_alias m (chain_name 0) = chain_name 16 /\
    m !! chain_name 16 = Some (chain_name 17).
Proof.
  destruct (add_chain 17 ∅) as [m|] eqn:E; [|vm_compute in E; discriminate].
  exists m. vm_compute in E. injection E as <-. vm_compute. done.
Qed.
