(* ===== verification/Snapshot.v ===== *)
(** Routing snapshots ([core/router/unified.rs], [RoutingSnapshot];
    [core/router/provider_identity.rs]): the deployments of one routing
    generation, the model index, the order of the model groups, the aliases and
    the configured provider names, and the operations that build the next
    generation.

    A snapshot is an immutable value; the runtime state its deployments share
    with other snapshots is in the [Store] of [Deployment].  [None] is a panic
    (the probe generation is exhausted) or a handle without a cell, which
    [Handle]s never are.  [P] is the type of providers, [M] the credential
    metadata. *)

From stdpp Require Import sets fin_sets.
From S2P Require Import Prelude ProviderErrors RouterTypes Deployment Aliases.

Record Deployment (P : Type) := mkDeployment {
  d_id : DeploymentId;
  d_provider : P;
  d_model : string;
  d_model_name : string;
  d_config : DeploymentConfig;
  d_state : Handle;
  d_tags : list string;
}.
Arguments mkDeployment {P}.
Arguments d_id {P}. Arguments d_provider {P}. Arguments d_model {P}.
Arguments d_model_name {P}. Arguments d_config {P}. Arguments d_state {P}.
Arguments d_tags {P}.

Definition set_state {P} (h : Handle) (d : Deployment P) : Deployment P :=
  mkDeployment (d_id d) (d_provider d) (d_model d) (d_model_name d) (d_config d) h (d_tags d).

Record RoutingSnapshot (P M : Type) := mkSnapshot {
  generation : Z;                                    (* u64 *)
  deployments : gmap string (Deployment P);
  model_index : gmap string (list DeploymentId);
  model_order : list string;
  model_aliases : AliasMap;
  provider_names : gmap string string;
  legacy_selector_metadata : gmap string M;
}.
Arguments mkSnapshot {P M}.
Arguments generation {P M}. Arguments deployments {P M}. Arguments model_index {P M}.
Arguments model_order {P M}. Arguments model_aliases {P M}. Arguments provider_names {P M}.
Arguments legacy_selector_metadata {P M}.

Section Operations.
Context {P M : Type}.
Variable provider_name : P -> string.      (* [Provider::name] *)

Implicit Types (s : RoutingSnapshot P M) (d : Deployment P).

Definition snapshot_empty (generation : Z) : RoutingSnapshot P M :=
  mkSnapshot generation ∅ ∅ [] ∅ ∅ ∅.

(** [model_order.remove(position)] of the first occurrence. *)
Fixpoint remove_first (x : string) (l : list string) : list string :=
  match l with
  | [] => []
  | y :: l => if String.eqb y x then l else y :: remove_first x l
  end.

(** The index and order components of [remove_from_model_index]. *)
Definition remove_entry (model_name : string) (id : DeploymentId)
    (index : gmap string (list DeploymentId)) (order : list string)
    : gmap string (list DeploymentId) * list string :=
  match index !! model_name with
  | Some entry =>
      match List.filter (fun did => negb (String.eqb did id)) entry with
      | [] => (delete model_name index, remove_first model_name order)
      | entry => (<[model_name := entry]> index, order)
      end
  | None => (index, order)
  end.

Definition remove_from_model_index (model_name : string) (id : DeploymentId) s
    : RoutingSnapshot P M :=
  let '(index, order) := remove_entry model_name id (model_index s) (model_order s) in
  mkSnapshot (generation s) (deployments s) index order (model_aliases s)
    (provider_names s) (legacy_selector_metadata s).

Definition add_entry (model_name : string) (id : DeploymentId)
    (index : gmap string (list DeploymentId)) (order : list string)
    : gmap string (list DeploymentId) * list string :=
  let order := match index !! model_name with
               | Some _ => order
               | None => order ++ [model_name]
               end in
  let entry := default [] (index !! model_name) in
  (<[model_name := if existsb (fun did => String.eqb did id) entry then entry
                   else entry ++ [id]]> index, order).

Definition retained_provider_name s (id fallback : string) : string :=
  default fallback (provider_names s !! id).

Definition state_for_insertion s d (st : Store) : option (Store * Handle) :=
  match deployments s !! d_id d with
  | Some existing =>
      for_snapshot_insertion_with_provider (h_provider_instance (d_state d))
        (d_state existing) st
  | None => for_snapshot_insertion (d_state d) st
  end.

Definition insert_deployment d (st : Store) s : option (Store * RoutingSnapshot P M) :=
  let model_name := d_model_name d in
  let id := d_id d in
  let name := retained_provider_name s id (provider_name (d_provider d)) in
  '(st, h) ← state_for_insertion s d st;
  let old := deployments s !! id in
  let s := mkSnapshot (generation s) (<[id := set_state h d]> (deployments s))
             (model_index s) (model_order s) (model_aliases s) (provider_names s)
             (legacy_selector_metadata s) in
  let s := match old with
           | Some old =>
               if negb (String.eqb (d_model_name old) model_name)
               then remove_from_model_index (d_model_name old) id s else s
           | None => s
           end in
  let '(index, order) := add_entry model_name id (model_index s) (model_order s) in
  Some (st, mkSnapshot (generation s) (deployments s) index order (model_aliases s)
              (<[id := name]> (provider_names s)) (legacy_selector_metadata s)).

Definition set_metadata (m : gmap string M) s : RoutingSnapshot P M :=
  mkSnapshot (generation s) (deployments s) (model_index s) (model_order s)
    (model_aliases s) (provider_names s) m.

Definition set_provider_names (n : gmap string string) s : RoutingSnapshot P M :=
  mkSnapshot (generation s) (deployments s) (model_index s) (model_order s)
    (model_aliases s) n (legacy_selector_metadata s).

Definition set_order (o : list string) s : RoutingSnapshot P M :=
  mkSnapshot (generation s) (deployments s) (model_index s) o
    (model_aliases s) (provider_names s) (legacy_selector_metadata s).

Definition set_generation (g : Z) s : RoutingSnapshot P M :=
  mkSnapshot g (deployments s) (model_index s) (model_order s)
    (model_aliases s) (provider_names s) (legacy_selector_metadata s).

Definition insert_deployment_with_legacy_metadata d (metadata : M) (st : Store) s
    : option (Store * RoutingSnapshot P M) :=
  '(st, s) ← insert_deployment d st s;
  Some (st, set_metadata (<[d_id d := metadata]> (legacy_selector_metadata s)) s).

Definition insert_gateway_deployment d (legacy_metadata : option M) (name : string)
    (st : Store) s : option (Store * RoutingSnapshot P M) :=
  '(st, s) ← match legacy_metadata with
             | Some metadata => insert_deployment_with_legacy_metadata d metadata st s
             | None => insert_deployment d st s
             end;
  Some (st, set_provider_names (<[d_id d := name]> (provider_names s)) s).

(** [remove_deployment] of a snapshot. *)
Definition snapshot_remove (id : string) s : RoutingSnapshot P M * option (Deployment P) :=
  let removed := deployments s !! id in
  let s := mkSnapshot (generation s) (delete id (deployments s)) (model_index s)
             (model_order s) (model_aliases s) (delete id (provider_names s))
             (delete id (legacy_selector_metadata s)) in
  (match removed with
   | Some d => remove_from_model_index (d_model_name d) id s
   | None => s
   end, removed).

(** First occurrences, in order. *)
Fixpoint dedup (seen : list string) (l : list string) : list string :=
  match l with
  | [] => []
  | x :: l => if decide (x ∈ seen) then dedup seen l else x :: dedup (x :: seen) l
  end.

(** The insertion loop of [from_deployments_preserving_state]. *)
Fixpoint insert_all (previous : RoutingSnapshot P M) (ds : list (Deployment P)) (st : Store)
    s : option (Store * RoutingSnapshot P M) :=
  match ds with
  | [] => Some (st, s)
  | d :: ds =>
      '(st, d) ← match deployments previous !! d_id d with
                 | Some old =>
                     '(st, h) ← for_snapshot_insertion_with_provider
                                  (h_provider_instance (d_state d)) (d_state old) st;
                     Some (st, set_state h d)
                 | None => Some (st, d)
                 end;
      '(st, s) ← insert_deployment d st s;
      insert_all previous ds st s
  end.

Definition from_deployments_preserving_state (ds : list (Deployment P))
    (previous : RoutingSnapshot P M) (st : Store) : option (Store * RoutingSnapshot P M) :=
  let input_model_order := dedup [] (map d_model_name ds) in
  let s := mkSnapshot (generation previous) ∅ ∅ [] (model_aliases previous) ∅ ∅ in
  '(st, s) ← insert_all previous ds st s;
  Some (st, set_order (List.filter
    (fun model_name => bool_decide (is_Some (model_index s !! model_name)))
    input_model_order) s).

(** [restore_provider_names]: [extend] with the names whose deployment is in
    the snapshot; the previous names win. *)
Definition restore_provider_names (previous : gmap string string) s : RoutingSnapshot P M :=
  set_provider_names
    (filter (fun p => is_Some (deployments s !! fst p)) previous ∪ provider_names s) s.

(** [add_model_alias] and [resolve_model_name] of a snapshot. *)
Definition add_model_alias (alias model_name : string) s
    : option (result (RoutingSnapshot P M) RouterError) :=
  r ← add_alias alias model_name (model_aliases s);
  Some (match r with
        | Ok aliases =>
            Ok (mkSnapshot (generation s) (deployments s) (model_index s) (model_order s)
                  aliases (provider_names s) (legacy_selector_metadata s))
        | Err e => Err e
        end).

Definition resolve_model_name s (name : string) : string := resolve_alias (model_aliases s) name.

(** * The router's current snapshot

    [update_routing_snapshot] and [try_update_routing_snapshot] run under the
    write lock; [next_generation] is the process-wide counter. *)
Record RouterSnapshots := mkRouterSnapshots {
  store : Store;
  next_routing_generation : Z;          (* u64 *)
  current : RoutingSnapshot P M;
}.

Definition publish (st : Store) (s : RoutingSnapshot P M) (r : RouterSnapshots)
    : option RouterSnapshots :=
  g ← checked_add_u64 (next_routing_generation r) 1;
  Some (mkRouterSnapshots st g (set_generation g s)).

Definition router_new (st : Store) (g : Z) : option RouterSnapshots :=
  g ← checked_add_u64 g 1;
  Some (mkRouterSnapshots st g (snapshot_empty g)).

Definition add_deployment d (r : RouterSnapshots) : option RouterSnapshots :=
  let s := set_metadata (delete (d_id d) (legacy_selector_metadata (current r))) (current r) in
  '(st, s) ← insert_deployment d (store r) s;
  publish st s r.

Definition remove_deployment (id : string) (r : RouterSnapshots)
    : option (RouterSnapshots * option (Deployment P)) :=
  let '(s, removed) := snapshot_remove id (current r) in
  r ← publish (store r) s r;
  Some (r, removed).

Definition set_model_list (ds : list (Deployment P)) (r : RouterSnapshots)
    : option RouterSnapshots :=
  '(st, s) ← from_deployments_preserving_state ds (current r) (store r);
  publish st (restore_provider_names (provider_names (current r)) s) r.

(** Installs nothing on an error. *)
Definition router_add_model_alias (alias model_name : string) (r : RouterSnapshots)
    : option (RouterSnapshots * result unit RouterError) :=
  res ← add_model_alias alias model_name (current r);
  match res with
  | Ok s => r ← publish (store r) s r; Some (r, Ok tt)
  | Err e => Some (r, Err e)
  end.

(** ** Queries *)

Definition get_deployment (id : string) (r : RouterSnapshots) : option (Deployment P) :=
  deployments (current r) !! id.

Definition get_deployments_for_model (model_name : string) (r : RouterSnapshots)
    : list DeploymentId :=
  default [] (model_index (current r) !! resolve_model_name (current r) model_name).

Definition list_models_in_insertion_order (r : RouterSnapshots) : list string :=
  model_order (current r).

(** [resolve_legacy_credential_with]; [matches] is the digest comparison. *)
Definition resolve_legacy_credential (matches : M -> bool) (model_name : string) s
    : result DeploymentId ProviderError :=
  let resolved_model := resolve_model_name s model_name in
  let candidates := default [] (model_index s !! resolved_model) in
  let matched := List.filter (fun id =>
    match legacy_selector_metadata s !! id with
    | Some metadata => matches metadata
    | None => false
    end) candidates in
  match matched with
  | [id] => Ok id
  | [] => Err (model_not_found (Lit "router") resolved_model)
  | _ => Err (configuration (Lit "router")
                "legacy credential selector matched multiple deployments")
  end.
End Operations.
Arguments RouterSnapshots : clear implicits.

(** * The index invariant *)

(** [names] gives the model group of each deployment. *)
Record index_wf (names : gmap string string) (index : gmap string (list DeploymentId))
    (order : list string) : Prop := {
  iw_in : forall m id, id ∈ default [] (index !! m) <-> names !! id = Some m;
  iw_entry : forall m ids, index !! m = Some ids -> ids <> [] /\ NoDup ids;
  iw_nodup : NoDup order;
  iw_order : forall m, m ∈ order <-> is_Some (index !! m);
}.

Definition names_of {P M} (s : RoutingSnapshot P M) : gmap string string :=
  d_model_name <$> deployments s.

Record snapshot_wf {P M} (s : RoutingSnapshot P M) : Prop := {
  sw_ids : forall id d, deployments s !! id = Some d -> d_id d = id;
  sw_index : index_wf (names_of s) (model_index s) (model_order s);
  sw_aliases : aliases_acyclic (model_aliases s);
  sw_providers : dom (provider_names s) = dom (deployments s);
  sw_metadata : dom (legacy_selector_metadata s) ⊆ dom (deployments s);
}.

Lemma elem_of_remove_first (x y : string) (l : list string) :
  NoDup l -> y ∈ remove_first x l <-> y ∈ l /\ y <> x.
Proof.
  induction 1 as [|z l Hz Hl IH]; simpl; [set_solver|].
  destruct (String.eqb_spec z x) as [->|Hne]; set_solver.
Qed.

Lemma NoDup_remove_first (x : string) (l : list string) : NoDup l -> NoDup (remove_first x l).
Proof.
  induction 1 as [|z l Hz Hl IH]; simpl; [constructor|].
  destruct (String.eqb_spec z x); [done|]. constructor; [|done].
  rewrite elem_of_remove_first by done. tauto.
Qed.

Lemma elem_of_retain (id x : string) (l : list string) :
  x ∈ List.filter (fun did => negb (String.eqb did id)) l <-> x ∈ l /\ x <> id.
Proof.
  rewrite !list_elem_of_In, filter_In, negb_true_iff, String.eqb_neq. done.
Qed.

Lemma NoDup_retain (id : string) (l : list string) :
  NoDup l -> NoDup (List.filter (fun did => negb (String.eqb did id)) l).
Proof.
  induction 1 as [|x l Hx Hl IH]; simpl; [constructor|].
  destruct (negb (String.eqb x id)); [|done]. constructor; [|done].
  rewrite elem_of_retain. tauto.
Qed.

Lemma existsb_eqb (id : string) (l : list string) :
  existsb (fun did => String.eqb did id) l = true <-> id ∈ l.
Proof.
  rewrite existsb_exists. split.
  - intros (x & Hx & ->%String.eqb_eq). by apply list_elem_of_In.
  - intros Hid. exists id. split; [by apply list_elem_of_In|apply String.eqb_refl].
Qed.

Lemma remove_entry_wf (names : gmap string string) (index : gmap string (list DeploymentId))
    (order : list string) (m id : string) :
  index_wf names index order -> names !! id = Some m ->
  let '(index', order') := remove_entry m id index order in
  index_wf (delete id names) index' order'.
Proof.
  intros [Hin Hent Hnd Hord] Hname. unfold remove_entry.
  assert (Hmem : id ∈ default [] (index !! m)) by by apply Hin.
  destruct (index !! m) as [entry|] eqn:Em; [|simpl in Hmem; set_solver].
  destruct (Hent m entry Em) as [_ Hnde].
  assert (Hother : forall m' x, m' <> m ->
    x ∈ default [] (index !! m') <-> delete id names !! x = Some m').
  { intros m' x Hm'. rewrite Hin, lookup_delete. case_decide as E; [subst x|done].
    split; [intros ?; congruence|done]. }
  assert (Hhere : forall x, x ∈ entry /\ x <> id <-> delete id names !! x = Some m).
  { intros x. pose proof (Hin m x) as Hx. rewrite Em in Hx. simpl in Hx.
    rewrite lookup_delete. case_decide as E.
    - subst x. split; [tauto|done].
    - rewrite <- Hx. naive_solver. }
  destruct (List.filter (fun did => negb (String.eqb did id)) entry) as [|y l] eqn:Ef.
  - constructor.
    + intros m' x. destruct (decide (m' = m)) as [->|Hne].
      * rewrite lookup_delete_eq. simpl. rewrite <- Hhere, <- elem_of_retain, Ef. done.
      * rewrite lookup_delete_ne by done. by apply Hother.
    + intros m' ids. rewrite lookup_delete. case_decide; [done|]. apply Hent.
    + by apply NoDup_remove_first.
    + intros m'. rewrite elem_of_remove_first, Hord by done. rewrite lookup_delete.
      case_decide as E; [subst m'|].
      * split; [tauto|by intros []].
      * naive_solver.
  - constructor.
    + intros m' x. destruct (decide (m' = m)) as [->|Hne].
      * rewrite lookup_insert_eq. simpl. by rewrite <- Hhere, <- elem_of_retain, Ef.
      * rewrite lookup_insert_ne by done. by apply Hother.
    + intros m' ids. rewrite lookup_insert. case_decide; [|apply Hent].
      intros [= <-]. split; [done|]. rewrite <- Ef. by apply NoDup_retain.
    + done.
    + intros m'. rewrite Hord, lookup_insert. case_decide; [subst m'|done].
      rewrite Em. split; by eexists.
Qed.

Lemma add_entry_wf (names : gmap string string) (index : gmap string (list DeploymentId))
    (order : list string) (m id : string) :
  index_wf names index order -> (names !! id = None \/ names !! id = Some m) ->
  let '(index', order') := add_entry m id index order in
  index_wf (<[id := m]> names) index' order'.
Proof.
  intros [Hin Hent Hnd Hord] Hname. unfold add_entry.
  set (entry := default [] (index !! m)).
  assert (Hnde : NoDup entry).
  { unfold entry. destruct (index !! m) as [l|] eqn:Em; [by apply (Hent m)|constructor]. }
  set (entry' := if existsb _ entry then entry else _).
  assert (He' : NoDup entry' /\ forall x, x ∈ entry' <-> x ∈ entry \/ x = id).
  { unfold entry'. destruct (existsb _ entry) eqn:Ex.
    - apply existsb_eqb in Ex. split; [done|]. intros x. naive_solver.
    - assert (id ∉ entry) by (rewrite <- existsb_eqb; congruence). split.
      + apply NoDup_app. split_and!; [done| |apply NoDup_singleton]. set_solver.
      + set_solver. }
  destruct He' as [Hnd' Hel]. constructor.
  - intros m' x. rewrite (lookup_insert names).
    destruct (decide (m = m')) as [<-|Hne].
    + rewrite lookup_insert_eq. simpl. rewrite Hel. unfold entry. rewrite Hin.
      case_decide; naive_solver.
    + rewrite lookup_insert_ne by done. rewrite Hin. case_decide as E; [subst x|done].
      destruct Hname; naive_solver.
  - intros m' ids. rewrite lookup_insert. case_decide; [|apply Hent].
    intros [= <-]. split; [|done]. intros Hnil.
    assert (Hid : id ∈ entry') by (apply Hel; by right). rewrite Hnil in Hid. set_solver.
  - destruct (index !! m) eqn:Em; [done|]. apply NoDup_app.
    split_and!; [done| |apply NoDup_singleton]. intros x Hx ->%list_elem_of_singleton.
    apply Hord in Hx. rewrite Em in Hx. by destruct Hx.
  - intros m'. rewrite lookup_insert. destruct (index !! m) eqn:Em.
    + rewrite Hord. case_decide; [subst m'|done]. rewrite Em. split; by eexists.
    + rewrite elem_of_app, Hord, list_elem_of_singleton. case_decide.
      * subst m'. split; [by eexists|by right].
      * naive_solver.
Qed.

Section Wf.
#[local] Opaque add_entry remove_entry.
Context {P M : Type} (provider_name : P -> string).
Implicit Types (s : RoutingSnapshot P M) (d : Deployment P).

Lemma insert_deployment_spec d (st st' : Store) s s' :
  insert_deployment provider_name d st s = Some (st', s') ->
  exists h, state_for_insertion s d st = Some (st', h) /\
    deployments s' = <[d_id d := set_state h d]> (deployments s) /\
    generation s' = generation s /\ model_aliases s' = model_aliases s /\
    legacy_selector_metadata s' = legacy_selector_metadata s /\
    provider_names s' = <[d_id d := retained_provider_name s (d_id d)
                                     (provider_name (d_provider d))]> (provider_names s) /\
    (index_wf (names_of s) (model_index s) (model_order s) ->
     index_wf (names_of s') (model_index s') (model_order s')).
Proof.
  unfold insert_deployment. intros H.
  destruct (state_for_insertion s d st) as [[st1 h]|]; [|done]. simpl in H.
  unfold remove_from_model_index in H. simpl in H.
  destruct (deployments s !! d_id d) as [old|] eqn:Eold; simpl in H.
  - destruct (String.eqb_spec (d_model_name old) (d_model_name d)) as [He|Hne]; simpl in H.
    + destruct (add_entry _ _ _ _) as [idx ord] eqn:Ea. simplify_eq.
      exists h. split_and!; try done. intros Hwf.
      unfold names_of. simpl. rewrite fmap_insert. simpl.
      pose proof (add_entry_wf (names_of s) (model_index s) (model_order s)
        (d_model_name d) (d_id d) Hwf) as Hadd. rewrite Ea in Hadd. apply Hadd.
      right. unfold names_of. by rewrite lookup_fmap, Eold, <- He.
    + destruct (remove_entry _ _ _ _) as [idx0 ord0] eqn:Er. simpl in H.
      destruct (add_entry _ _ idx0 ord0) as [idx ord] eqn:Ea. simplify_eq.
      exists h. split_and!; try done. intros Hwf.
      pose proof (remove_entry_wf (names_of s) (model_index s) (model_order s)
        (d_model_name old) (d_id d) Hwf) as Hrem. rewrite Er in Hrem.
      specialize (Hrem ltac:(unfold names_of; by rewrite lookup_fmap, Eold)).
      pose proof (add_entry_wf (delete (d_id d) (names_of s)) idx0 ord0
        (d_model_name d) (d_id d) Hrem) as Hadd. rewrite Ea in Hadd.
      unfold names_of. simpl. rewrite fmap_insert. simpl.
      rewrite <- insert_delete_eq. apply Hadd. left. by rewrite lookup_delete_eq.
  - destruct (add_entry _ _ _ _) as [idx ord] eqn:Ea. simplify_eq.
    exists h. split_and!; try done. intros Hwf.
    unfold names_of. simpl. rewrite fmap_insert. simpl.
    pose proof (add_entry_wf (names_of s) (model_index s) (model_order s)
      (d_model_name d) (d_id d) Hwf) as Hadd. rewrite Ea in Hadd. apply Hadd.
    left. unfold names_of. by rewrite lookup_fmap, Eold.
Qed.

Lemma insert_deployment_wf d (st st' : Store) s s' :
  snapshot_wf s -> insert_deployment provider_name d st s = Some (st', s') -> snapshot_wf s'.
Proof.
  intros [Hids Hidx Hal Hprov Hmeta] H.
  apply insert_deployment_spec in H as (h & _ & Hd & _ & Ha & Hm & Hp & Hi).
  constructor.
  - intros id x. rewrite Hd, lookup_insert. case_decide; [|apply Hids]. intros [= <-]. done.
  - by apply Hi.
  - by rewrite Ha.
  - rewrite Hp, Hd, !dom_insert_L, Hprov. done.
  - rewrite Hm, Hd, dom_insert_L. set_solver.
Qed.

Lemma set_metadata_wf (m : gmap string M) s :
  snapshot_wf s -> dom m ⊆ dom (deployments s) -> snapshot_wf (set_metadata m s).
Proof. intros [H1 H2 H3 H4 H5] Hm. by constructor. Qed.

Lemma set_provider_names_wf (n : gmap string string) s :
  snapshot_wf s -> dom n = dom (deployments s) -> snapshot_wf (set_provider_names n s).
Proof. intros [H1 H2 H3 H4 H5] Hn. by constructor. Qed.

Lemma set_generation_wf (g : Z) s : snapshot_wf s -> snapshot_wf (set_generation g s).
Proof. intros [H1 H2 H3 H4 H5]. by constructor. Qed.

Lemma snapshot_empty_wf (g : Z) : snapshot_wf (snapshot_empty (P := P) (M := M) g).
Proof.
  constructor; simpl.
  - intros id d. by rewrite lookup_empty.
  - unfold names_of. simpl. rewrite fmap_empty. constructor.
    + intros m id. rewrite !lookup_empty. simpl. set_solver.
    + intros m ids. by rewrite lookup_empty.
    + constructor.
    + intros m. rewrite lookup_empty. split; [set_solver|by intros []].
  - apply empty_acyclic.
  - by rewrite !dom_empty_L.
  - by rewrite !dom_empty_L.
Qed.

Lemma insert_gateway_deployment_wf d (metadata : option M) (name : string)
    (st st' : Store) s s' :
  snapshot_wf s ->
  insert_gateway_deployment provider_name d metadata name st s = Some (st', s') ->
  snapshot_wf s'.
Proof.
  intros Hs H. unfold insert_gateway_deployment, insert_deployment_with_legacy_metadata in H.
  destruct (insert_deployment provider_name d st s) as [[st1 s1]|] eqn:E;
    [|by destruct metadata].
  pose proof (insert_deployment_wf _ _ _ _ _ Hs E) as H1.
  apply insert_deployment_spec in E as (h & _ & Hd & _ & _ & _ & _ & _).
  pose proof (sw_providers _ H1) as Hp.
  assert (Hin : d_id d ∈ dom (deployments s1)) by (rewrite Hd, dom_insert_L; set_solver).
  destruct metadata as [md|]; simpl in H; simplify_eq;
    (apply set_provider_names_wf; [|simpl; rewrite dom_insert_L, Hp; set_solver]); [|done].
  apply set_metadata_wf; [done|]. rewrite dom_insert_L. pose proof (sw_metadata _ H1). set_solver.
Qed.

Lemma snapshot_remove_wf (id : string) s :
  snapshot_wf s -> snapshot_wf (fst (snapshot_remove id s)).
Proof.
  intros [H1 H2 H3 H4 H5]. unfold snapshot_remove.
  destruct (deployments s !! id) as [d|] eqn:E; simpl.
  - unfold remove_from_model_index. simpl.
    pose proof (remove_entry_wf (names_of s) (model_index s) (model_order s)
      (d_model_name d) id H2) as Hrem.
    destruct (remove_entry _ _ _ _) as [idx ord].
    specialize (Hrem ltac:(unfold names_of; by rewrite lookup_fmap, E)).
    constructor; simpl; try done.
    + intros i x. rewrite lookup_delete. case_decide; [done|apply H1].
    + unfold names_of in *. simpl. by rewrite fmap_delete.
    + by rewrite !dom_delete_L, H4.
    + rewrite !dom_delete_L. set_solver.
  - constructor; simpl; try done.
    + intros i x. rewrite lookup_delete. case_decide; [done|apply H1].
    + unfold names_of in *. simpl. rewrite fmap_delete, delete_id; [done|].
      by rewrite lookup_fmap, E.
    + by rewrite !dom_delete_L, H4.
    + rewrite !dom_delete_L. set_solver.
Qed.

Lemma insert_all_wf (prev : RoutingSnapshot P M) (ds : list (Deployment P))
    (st st' : Store) s s' :
  snapshot_wf s -> insert_all provider_name prev ds st s = Some (st', s') ->
  snapshot_wf s' /\ dom (deployments s') = dom (deployments s) ∪ list_to_set (map d_id ds) /\
  legacy_selector_metadata s' = legacy_selector_metadata s /\
  model_aliases s' = model_aliases s /\ generation s' = generation s.
Proof.
  revert st s. induction ds as [|d ds IH]; intros st s Hs; simpl.
  - intros [= <- <-]. split_and!; try done. set_solver.
  - intros H.
    assert (exists st1 h st2 s2,
      insert_deployment provider_name (set_state h d) st1 s = Some (st2, s2) /\
      insert_all provider_name prev ds st2 s2 = Some (st', s')) as (st1 & h & st2 & s2 & Hi & Hr).
    { destruct (deployments prev !! d_id d) as [old|]; simpl in H.
      - destruct (for_snapshot_insertion_with_provider _ _ _) as [[st1 h]|]; simpl in H; [|done].
        destruct (insert_deployment provider_name (set_state h d) st1 s) as [[st2 s2]|] eqn:E;
          simpl in H; [|done]. by exists st1, h, st2, s2.
      - destruct (insert_deployment provider_name d st s) as [[st2 s2]|] eqn:E;
          simpl in H; [|done]. exists st, (d_state d), st2, s2. split; [|done].
        by destruct d. }
    pose proof (insert_deployment_wf _ _ _ _ _ Hs Hi) as Hs2.
    apply insert_deployment_spec in Hi as (h' & _ & Hd & Hg & Ha & Hm & _ & _).
    destruct (IH _ _ Hs2 Hr) as (Hw & Hdom & Hm' & Ha' & Hg'). split_and!; try congruence.
    rewrite Hdom, Hd, dom_insert_L. simpl. set_solver.
Qed.

Lemma elem_of_dedup (seen l : list string) (x : string) :
  x ∈ dedup seen l <-> x ∈ l /\ x ∉ seen.
Proof.
  revert seen. induction l as [|y l IH]; intros seen; simpl; [set_solver|].
  case_decide as Hy; [rewrite IH; set_solver|].
  rewrite elem_of_cons, IH. destruct (decide (x = y)); set_solver.
Qed.

Lemma NoDup_dedup (seen l : list string) : NoDup (dedup seen l).
Proof.
  revert seen. induction l as [|y l IH]; intros seen; simpl; [constructor|].
  case_decide; [done|]. constructor; [|done]. rewrite elem_of_dedup. set_solver.
Qed.

(** The last input with an identifier wins. *)
Fixpoint last_with (id : string) (ds : list (Deployment P)) : option (Deployment P) :=
  match ds with
  | [] => None
  | d :: ds =>
      match last_with id ds with
      | Some x => Some x
      | None => if String.eqb (d_id d) id then Some d else None
      end
  end.

Lemma last_with_elem (id : string) (ds : list (Deployment P)) d :
  last_with id ds = Some d -> d ∈ ds /\ d_id d = id.
Proof.
  induction ds as [|x ds IH]; simpl; [done|]. destruct (last_with id ds) as [y|] eqn:E.
  - intros [= ->]. destruct (IH eq_refl). split; [by right|done].
  - destruct (String.eqb_spec (d_id x) id); [|done]. intros [= ->]. split; [by left|done].
Qed.

(** The store after carrying handles over: only probe lifecycles moved on, and
    only new probe cells appeared. *)
Definition counters_kept (st st' : Store) : Prop :=
  forall l c, cells st !! l = Some c -> exists g, cells st' !! l = Some (set_lifecycle g c).

Lemma set_lifecycle_self (c : SharedState) : set_lifecycle (lifecycle_generation c) c = c.
Proof. by destruct c. Qed.

Lemma set_lifecycle_twice (g1 g2 : Z) (c : SharedState) :
  set_lifecycle g2 (set_lifecycle g1 c) = set_lifecycle g2 c.
Proof. by destruct c. Qed.

Lemma counters_kept_refl (st : Store) : counters_kept st st.
Proof. intros l c Hc. exists (lifecycle_generation c). by rewrite set_lifecycle_self. Qed.

Lemma counters_kept_trans (st1 st2 st3 : Store) :
  counters_kept st1 st2 -> counters_kept st2 st3 -> counters_kept st1 st3.
Proof.
  intros H1 H2 l c Hc. destruct (H1 l c Hc) as [g1 Hg1]. destruct (H2 l _ Hg1) as [g2 Hg2].
  exists g2. by rewrite Hg2, set_lifecycle_twice.
Qed.

Lemma insertion_keeps (prov : N) (h h' : Handle) (st st' : Store) :
  for_snapshot_insertion_with_provider prov h st = Some (st', h') ->
  counters_kept st st' /\ h_shared h' = h_shared h.
Proof.
  intros H. apply for_snapshot_insertion_spec in H as (c & Hc & Hcells & _ & _ & Hs & _).
  split; [|done]. intros l x Hx. rewrite Hcells, lookup_insert. case_decide.
  - subst l. rewrite Hc in Hx. injection Hx as <-. by eexists.
  - exists (lifecycle_generation x). by rewrite set_lifecycle_self.
Qed.

(** The runtime state a deployment of [s] shares with [prev], if [prev] has
    one of the same identifier. *)
Definition shares_state (prev s : RoutingSnapshot P M) : Prop :=
  forall id d old, deployments s !! id = Some d -> deployments prev !! id = Some old ->
    h_shared (d_state d) = h_shared (d_state old).

Lemma insert_all_spec (prev : RoutingSnapshot P M) (ds : list (Deployment P))
    (st st' : Store) s s' :
  insert_all provider_name prev ds st s = Some (st', s') -> shares_state prev s ->
  shares_state prev s' /\ counters_kept st st' /\
  (forall id, match last_with id ds with
              | Some d => exists h, deployments s' !! id = Some (set_state h d)
              | None => deployments s' !! id = deployments s !! id
              end).
Proof.
  revert st s. induction ds as [|d ds IH]; intros st s; cbn [insert_all last_with].
  - intros [= <- <-] Hsh. by split_and!; [| apply counters_kept_refl |].
  - intros H Hsh.
    assert (exists st1 h st2 s2, counters_kept st st1 /\
      (forall old, deployments prev !! d_id d = Some old ->
         h_shared h = h_shared (d_state old)) /\
      insert_deployment provider_name (set_state h d) st1 s = Some (st2, s2) /\
      insert_all provider_name prev ds st2 s2 = Some (st', s'))
      as (st1 & h & st2 & s2 & Hk1 & Hh & Hi & Hr).
    { destruct (deployments prev !! d_id d) as [old|]; simpl in H.
      - destruct (for_snapshot_insertion_with_provider _ _ _) as [[st1 h]|] eqn:Ef;
          simpl in H; [|done].
        destruct (insert_deployment provider_name (set_state h d) st1 s) as [[st2 s2]|] eqn:E;
          simpl in H; [|done]. apply insertion_keeps in Ef as [Hk Hs].
        exists st1, h, st2, s2. split_and!; try done. by intros ? [= <-].
      - destruct (insert_deployment provider_name d st s) as [[st2 s2]|] eqn:E;
          simpl in H; [|done]. exists st, (d_state d), st2, s2.
        split_and!; [apply counters_kept_refl|done| |done]. by destruct d. }
    apply insert_deployment_spec in Hi as (h' & Hst & Hd & _). cbn [set_state d_id d_state] in *.
    assert (Hkeep : counters_kept st1 st2 /\
      forall old, deployments prev !! d_id d = Some old -> h_shared h' = h_shared (d_state old)).
    { unfold state_for_insertion in Hst. cbn [set_state d_id d_state] in Hst.
      destruct (deployments s !! d_id d) as [ex|] eqn:Ex.
      - apply insertion_keeps in Hst as [Hk Hs]. split; [done|]. intros old Hold.
        rewrite Hs. by eapply Hsh.
      - apply insertion_keeps in Hst as [Hk Hs]. split; [done|]. intros old Hold.
        rewrite Hs. by apply Hh. }
    destruct Hkeep as [Hk2 Hh'].
    destruct (IH st2 s2 Hr) as (Hsh' & Hk3 & Hlast).
    { intros id x old. rewrite Hd, lookup_insert. case_decide; [|apply Hsh].
      subst id. intros [= <-] Hold. by apply Hh'. }
    split_and!; [done|by eapply counters_kept_trans; [|eapply counters_kept_trans]|].
    intros id. specialize (Hlast id). destruct (last_with id ds); [done|].
    rewrite Hlast, Hd, lookup_insert.
    destruct (String.eqb_spec (d_id d) id) as [He|Hne]; case_decide; try done.
    eexists. by destruct d.
Qed.

Lemma from_deployments_spec (ds : list (Deployment P)) (prev : RoutingSnapshot P M)
    (st st' : Store) s' :
  snapshot_wf prev ->
  from_deployments_preserving_state provider_name ds prev st = Some (st', s') ->
  snapshot_wf s' /\ legacy_selector_metadata s' = ∅ /\
  shares_state prev s' /\ counters_kept st st' /\
  (forall id, match last_with id ds with
              | Some d => exists h, deployments s' !! id = Some (set_state h d)
              | None => deployments s' !! id = None
              end).
Proof.
  intros Hprev H. unfold from_deployments_preserving_state in H.
  set (s0 := mkSnapshot (P := P) (M := M) (generation prev) ∅ ∅ []
               (model_aliases prev) ∅ ∅) in *.
  assert (H0 : snapshot_wf s0).
  { destruct (snapshot_empty_wf (generation prev)) as [A1 A2 _ A4 A5].
    constructor; try done. apply Hprev. }
  destruct (insert_all provider_name prev ds st s0) as [[st1 s1]|] eqn:E; simpl in H; [|done].
  injection H as <- <-.
  destruct (insert_all_wf prev ds st st1 s0 s1 H0 E) as ([W1 W2 W3 W4 W5] & Hdom & Hm & _ & _).
  destruct (insert_all_spec prev ds st st1 s0 s1 E) as (Hsh & Hk & Hlast).
  { intros id d old Hd. unfold s0 in Hd. simpl in Hd. by rewrite lookup_empty in Hd. }
  split_and!; try done.
  constructor; simpl; try done.
  destruct W2 as [Hin Hent Hnd Hord]. constructor; simpl; try done.
  - rewrite NoDup_ListNoDup. apply Stdlib.Lists.List.NoDup_filter.
    rewrite <- NoDup_ListNoDup. apply NoDup_dedup.
  - intros m. rewrite list_elem_of_In, filter_In, <- list_elem_of_In, elem_of_dedup.
    rewrite bool_decide_eq_true. split; [tauto|]. intros Hm'. split; [|done].
    split; [|set_solver]. destruct Hm' as [ids Hids].
    destruct (Hent m ids Hids) as [Hne _]. destruct ids as [|id ids]; [done|].
    pose proof (Hin m id) as Hii. rewrite Hids in Hii. simpl in Hii.
    assert (Hn : names_of s1 !! id = Some m) by (apply Hii; by left).
    unfold names_of in Hn. rewrite lookup_fmap in Hn. specialize (Hlast id).
    destruct (last_with id ds) as [x|] eqn:Ex.
    + destruct Hlast as [h Hl]. rewrite Hl in Hn. simpl in Hn. injection Hn as <-.
      apply list_elem_of_In, in_map, list_elem_of_In. by apply last_with_elem in Ex as [? _].
    + rewrite Hlast in Hn. unfold s0 in Hn. simpl in Hn. by rewrite lookup_empty in Hn.
Qed.
End Wf.

(** * Every published snapshot

    What a router's writers do under the write lock; [OpOther] is another router
    of the process taking a generation, or any change of the shared runtime
    state between two writes. *)
Inductive router_op (P M : Type) :=
| OpAdd (d : Deployment P)
| OpRemove (id : string)
| OpSetList (ds : list (Deployment P))
| OpAlias (alias model_name : string)
| OpGateway (d : Deployment P) (metadata : option M) (name : string)
| OpOther (st : Store) (generation : Z).
Arguments OpAdd {P M}. Arguments OpRemove {P M}. Arguments OpSetList {P M}.
Arguments OpAlias {P M}. Arguments OpGateway {P M}. Arguments OpOther {P M}.

Section Run.
Context {P M : Type} (provider_name : P -> string).

Definition run_router_op (op : router_op P M) (r : RouterSnapshots P M)
    : option (RouterSnapshots P M) :=
  match op with
  | OpAdd d => add_deployment provider_name d r
  | OpRemove id => fst <$> remove_deployment id r
  | OpSetList ds => set_model_list provider_name ds r
  | OpAlias alias model_name => fst <$> router_add_model_alias alias model_name r
  | OpGateway d metadata name =>
      '(st, s) ← insert_gateway_deployment provider_name d metadata name (store r) (current r);
      publish st s r
  | OpOther st g =>
      if next_routing_generation r <=? g then Some (mkRouterSnapshots st g (current r)) else None
  end.

Fixpoint run_router_ops (ops : list (router_op P M)) (r : RouterSnapshots P M)
    : option (RouterSnapshots P M) :=
  match ops with
  | [] => Some r
  | op :: ops => r ← run_router_op op r; run_router_ops ops r
  end.

Record router_inv (r : RouterSnapshots P M) : Prop := {
  ri_wf : snapshot_wf (current r);
  ri_generation : generation (current r) <= next_routing_generation r;
}.

Lemma publish_spec (st : Store) (s : RoutingSnapshot P M) (r r' : RouterSnapshots P M) :
  publish st s r = Some r' ->
  next_routing_generation r' = next_routing_generation r + 1 /\ store r' = st /\
  current r' = set_generation (next_routing_generation r + 1) s.
Proof.
  unfold publish, checked_add_u64. case_match; simpl; [|done]. intros [= <-]. done.
Qed.

Lemma publish_inv (st : Store) (s : RoutingSnapshot P M) (r r' : RouterSnapshots P M) :
  snapshot_wf s -> router_inv r -> publish st s r = Some r' ->
  router_inv r' /\ generation (current r) < generation (current r').
Proof.
  intros Hs [_ Hg] (Hn & _ & Hc)%publish_spec. split; [constructor|].
  - rewrite Hc. by apply set_generation_wf.
  - rewrite Hc, Hn. done.
  - rewrite Hc. simpl. lia.
Qed.

Lemma set_model_list_names (ds : list (Deployment P)) (prev : RoutingSnapshot P M)
    (s : RoutingSnapshot P M) :
  snapshot_wf s -> snapshot_wf (restore_provider_names (provider_names prev) s).
Proof.
  intros Hs. apply set_provider_names_wf; [done|]. rewrite dom_union_L.
  rewrite (sw_providers _ Hs). apply set_eq. intros x.
  rewrite elem_of_union, elem_of_dom. split; [|by right].
  intros [[n Hn]|?]; [|done]. apply map_lookup_filter_Some in Hn as [_ Hx].
  by apply elem_of_dom.
Qed.

Lemma run_router_op_inv (op : router_op P M) (r r' : RouterSnapshots P M) :
  router_inv r -> run_router_op op r = Some r' ->
  router_inv r' /\ generation (current r) <= generation (current r').
Proof.
  intros Hr H. pose proof (ri_wf _ Hr) as Hw. destruct op as [d|id|ds|a m|d md n|st g]; simpl in H.
  - unfold add_deployment in H.
    destruct (insert_deployment _ _ _ _) as [[st s]|] eqn:E; simpl in H; [|done].
    apply publish_inv in H as [? ?]; [split; [done|lia]| |done].
    eapply insert_deployment_wf; [|exact E]. apply set_metadata_wf; [done|].
    rewrite dom_delete_L. pose proof (sw_metadata _ Hw). set_solver.
  - unfold remove_deployment in H. pose proof (snapshot_remove_wf id (current r) Hw) as Hs.
    destruct (snapshot_remove id (current r)) as [s removed]. simpl in *.
    destruct (publish (store r) s r) as [r1|] eqn:E; simpl in H; [|done].
    injection H as <-. apply publish_inv in E as [? ?]; try done. split; [done|lia].
  - unfold set_model_list in H.
    destruct (from_deployments_preserving_state _ _ _ _) as [[st s]|] eqn:E; simpl in H; [|done].
    apply from_deployments_spec in E as (Hs & _); [|done].
    apply publish_inv in H as [? ?]; [split; [done|lia]| |done].
    by apply set_model_list_names.
  - unfold router_add_model_alias, add_model_alias in H.
    pose proof (add_alias_spec a m (model_aliases (current r)) (sw_aliases _ Hw)) as Hadd.
    destruct (add_alias a m (model_aliases (current r))) as [[al|e]|] eqn:E; simpl in H;
      [| |done].
    + destruct (publish (store r) _ r) as [r1|] eqn:Ep; simpl in H; [|done].
      injection H as <-. apply publish_inv in Ep as [? ?]; [split; [done|lia]| |done].
      destruct Hw as [H1 H2 H3 H4 H5]. constructor; simpl; try done.
      destruct Hadd as [[Hn Heq]|[_ Heq]]; [|done]. injection Heq as ->.
      by apply insert_acyclic_iff.
    + injection H as <-. split; [done|lia].
  - destruct (insert_gateway_deployment _ _ _ _ _ _) as [[st s]|] eqn:E; simpl in H; [|done].
    apply insert_gateway_deployment_wf in E; [|done].
    apply publish_inv in H as [? ?]; try done. split; [done|lia].
  - destruct (Z.leb_spec (next_routing_generation r) g); [|done]. injection H as <-.
    split; [|simpl; lia]. constructor; simpl; [done|]. pose proof (ri_generation _ Hr). lia.
Qed.

Lemma run_router_ops_inv (ops : list (router_op P M)) (r r' : RouterSnapshots P M) :
  router_inv r -> run_router_ops ops r = Some r' ->
  router_inv r' /\ generation (current r) <= generation (current r').
Proof.
  revert r. induction ops as [|op ops IH]; intros r Hr; simpl.
  - intros [= <-]. split; [done|lia].
  - destruct (run_router_op op r) as [r1|] eqn:E; simpl; [|done]. intros H.
    apply run_router_op_inv in E as [H1 Hg1]; [|done].
    destruct (IH r1 H1 H) as [H2 Hg2]. split; [done|lia].
Qed.
End Run.

(** * Properties *)

(** C39: Every snapshot a router publishes is internally consistent.  After any
    sequence of additions, removals, replacements of the whole list, gateway
    insertions and alias additions, from a new router on: the index of a model
    group lists exactly the identifiers of the deployments of that group,
    without repetition and never as an empty group; the group order is a
    repetition-free enumeration of the indexed groups; every deployment has a
    configured provider name, no removed deployment leaves one or a credential
    selector behind; the aliases are acyclic; and the generation never goes
    back. *)
Theorem snapshots_consistent {P M : Type} (provider_name : P -> string) (st : Store) (g : Z)
    (ops : list (router_op P M)) (r0 r : RouterSnapshots P M)
    (Hnew : router_new st g = Some r0) (Hrun : run_router_ops provider_name ops r0 = Some r) :
  let s := current r in
  (forall m id, id ∈ default [] (model_index s !! m) <->
     exists d, deployments s !! id = Some d /\ d_id d = id /\ d_model_name d = m) /\
  (forall m ids, model_index s !! m = Some ids -> ids <> [] /\ NoDup ids) /\
  NoDup (model_order s) /\ (forall m, m ∈ model_order s <-> is_Some (model_index s !! m)) /\
  dom (provider_names s) = dom (deployments s) /\
  dom (legacy_selector_metadata s) ⊆ dom (deployments s) /\
  aliases_acyclic (model_aliases s) /\
  generation (current r0) <= generation s <= next_routing_generation r.
Proof.
  intros s.
  assert (H0 : router_inv r0).
  { unfold router_new, checked_add_u64 in Hnew. case_match; simpl in Hnew; [|done].
    injection Hnew as <-. constructor; simpl; [apply snapshot_empty_wf|lia]. }
  apply run_router_ops_inv in Hrun as [[[H1 [I1 I2 I3 I4] H3 H4 H5] Hg] Hgen]; [|done].
  split_and!; try done.
  intros m id. fold s in I1. rewrite I1. unfold names_of. rewrite lookup_fmap.
  destruct (deployments s !! id) as [d|] eqn:E; simpl.
  - split; [intros [= <-]; exists d; split_and!; [done|by apply H1|done]|].
    intros (? & [= <-] & _ & <-). done.
  - split; [done|]. by intros (? & ? & _).
Qed.

Definition example_handle : Handle := mkHandle 1 1 0 None 0.
Definition example_store : Store :=
  mkStore {[1%N := DeploymentState_new 100]} {[1%N := ProbeCell_new]}.
Definition example_deployment (id model_name : string) : Deployment string :=
  mkDeployment id "openai" "gpt-4-turbo" model_name DeploymentConfig_default example_handle [].

Lemma snapshots_consistent_witness :
  exists r, run_router_ops (M := unit) id
    [OpAdd (example_deployment "d1" "gpt-4"); OpAlias "g" "gpt-4";
     OpAdd (example_deployment "d1" "gpt-5")]
    (mkRouterSnapshots example_store 1 (snapshot_empty 1)) = Some r /\
  ("d1" ∈ default [] (model_index (current r) !! "gpt-5")) /\
  ("d1" ∉ default [] (model_index (current r) !! "gpt-4")).
Proof.
  destruct (run_router_ops (M := unit) id
    [OpAdd (example_deployment "d1" "gpt-4"); OpAlias "g" "gpt-4";
     OpAdd (example_deployment "d1" "gpt-5")]
    (mkRouterSnapshots example_store 1 (snapshot_empty 1))) as [r|] eqn:E;
    [|vm_compute in E; discriminate].
  destruct (snapshots_consistent id example_store 0 _ _ r eq_refl E) as (Hin & _).
  exists r. split; [done|]. rewrite !Hin. vm_compute in E. injection E as <-. split.
  - eexists. split; [vm_compute; reflexivity|done].
  - intros (d & Hd & _ & Hm). vm_compute in Hd. injection Hd as <-. discriminate.
Defined.

(** Replacing the deployment list keeps the live state of the deployments
    that stay.  The new snapshot holds exactly the deployments of the list, the
    last one of each identifier winning with its new configuration; a deployment
    whose identifier the router already served shares the very counters, limits
    ledger, circuit fence and cooldown of the one it replaces, whichever handle
    it was built with; the replacement itself changes no counter of any
    deployment, only probe lifecycles; and no credential selector survives. *)
Theorem set_model_list_keeps_state {P M : Type} (provider_name : P -> string)
    (ds : list (Deployment P)) (r r' : RouterSnapshots P M)
    (Hwf : snapshot_wf (current r)) (Hset : set_model_list provider_name ds r = Some r') :
  (forall id, match last_with id ds with
              | Some d => exists h, deployments (current r') !! id = Some (set_state h d)
              | None => deployments (current r') !! id = None
              end) /\
  (forall id d old, deployments (current r') !! id = Some d ->
     deployments (current r) !! id = Some old ->
     h_shared (d_state d) = h_shared (d_state old)) /\
  (forall l c, cells (store r) !! l = Some c ->
     exists g, cells (store r') !! l = Some (set_lifecycle g c)) /\
  legacy_selector_metadata (current r') = ∅ /\
  model_aliases (current r') = model_aliases (current r) /\
  generation (current r') = next_routing_generation r + 1.
Proof.
  unfold set_model_list in Hset.
  destruct (from_deployments_preserving_state _ _ _ _) as [[st s]|] eqn:E; simpl in Hset;
    [|done].
  pose proof E as E'.
  apply from_deployments_spec in E as (_ & Hm & Hsh & Hk & Hlast); [|done].
  apply publish_spec in Hset as (Hn & Hst & Hc). rewrite Hc, Hst. split_and!; try done.
  unfold from_deployments_preserving_state in E'.
  destruct (insert_all _ _ _ _ _) as [[st1 s1]|] eqn:Ei; simpl in E'; [|done].
  injection E' as <- <-. apply insert_all_wf in Ei as (_ & _ & _ & Ha & _); [done|].
  destruct (snapshot_empty_wf (P := P) (M := M) (generation (current r))) as [A1 A2 _ A4 A5].
  constructor; try done. apply Hwf.
Qed.

Lemma set_model_list_keeps_state_witness :
  exists r', set_model_list (M := unit) id [example_deployment "d1" "gpt-5"]
    (mkRouterSnapshots example_store 1
       (mkSnapshot 1 {["d1" := example_deployment "d1" "gpt-4"]} {["gpt-4" := ["d1"]]}
          ["gpt-4"] ∅ {["d1" := "openai"]} ∅)) = Some r' /\
  exists h, deployments (current r') !! "d1" = Some (set_state h (example_deployment "d1" "gpt-5"))
    /\ h_shared h = 1%N.
Proof.
  set (s := mkSnapshot (M := unit) 1 {["d1" := example_deployment "d1" "gpt-4"]}
    {["gpt-4" := ["d1"]]} ["gpt-4"] ∅ {["d1" := "openai"]} ∅).
  set (r := mkRouterSnapshots example_store 1 s).
  assert (Hs : snapshot_wf s).
  { destruct (insert_deployment id (example_deployment "d1" "gpt-4") example_store
      (snapshot_empty (M := unit) 1)) as [[st1 s1]|] eqn:E; [|vm_compute in E; discriminate].
    pose proof (insert_deployment_wf id _ _ _ _ _ (snapshot_empty_wf 1) E) as [W1 W2 W3 W4 W5].
    vm_compute in E. injection E as <- <-. constructor.
    - intros i d Hd. unfold s in Hd. simpl in Hd. apply lookup_singleton_Some in Hd as [<- <-].
      done.
    - exact W2.
    - exact W3.
    - exact W4.
    - exact W5. }
  destruct (set_model_list id [example_deployment "d1" "gpt-5"] r) as [r'|] eqn:E;
    [|vm_compute in E; discriminate].
  destruct (set_model_list_keeps_state id [example_deployment "d1" "gpt-5"] r r' Hs E)
    as (Hl & Hsh & _).
  exists r'. split; [done|]. destruct (Hl "d1") as [h Hh]. exists h. split; [done|].
  specialize (Hsh "d1" _ (example_deployment "d1" "gpt-4") Hh). apply Hsh. done.
Defined.
