(* ===== verification/RuntimeState.v ===== *)
(** Runtime state across configuration reloads ([core/router/runtime_state.rs],
    [RuntimeStateRegistry]; [Router::inherit_runtime_state] in
    [core/router/unified.rs]).

    A reload builds a new router with fresh deployments, and then lets each of
    them share the live state of the resource it stands for: the deployment
    identifier with the digest of the provider's construction inputs.  The
    registry also remembers resources that a revision dropped, as long as
    someone can still use them or their usage still counts.

    [pinned] says whether another handle than the registry's own lives
    ([Arc::strong_count(&self.inner) > 1]).  The digests are strings; how they
    are computed from a provider's configuration is not modelled. *)

From stdpp Require Import fin_maps gmap.
From S2P Require Import Prelude ProviderErrors RouterTypes Deployment Ledger Aliases Snapshot.

Abbreviation Registry := (gmap (string * string) Handle).

Section Registry.
Context {P M : Type}.
Variable pinned : N -> bool.
Variable has_probe_policy : Deployment P -> bool.   (* [health_check_policy.is_some()] *)
Variable config : RouterConfig.

Implicit Types (reg : Registry) (st : Store) (sn : RoutingSnapshot P M) (d : Deployment P).

(** The test of [prune_retired] on the state of an entry nobody else holds; it
    stops at the first reason to keep it. *)
Definition still_counts (now reset_now : Z) (s : SharedState) : SharedState * bool :=
  let '(s, minute) := minute_counters now reset_now s in
  if (0 <? active_requests (inner s)) || (0 <? minute_rpm minute) then (s, true)
  else
    let '(s, tpm) := admission_tpm now reset_now s in
    (s, (0 <? tpm) || (0 <? minute_failures minute) || (now <? cooldown_until (inner s))).

Fixpoint prune_entries (now reset_now : Z) (entries : list ((string * string) * Handle))
    (st : Store) reg : Store * Registry :=
  match entries with
  | [] => (st, reg)
  | (key, h) :: entries =>
      if pinned (h_shared h) then prune_entries now reset_now entries st reg
      else
        match cells st !! h_shared h with
        | Some s =>
            let '(s, keep) := still_counts now reset_now s in
            prune_entries now reset_now entries
              (mkStore (<[h_shared h := s]> (cells st)) (probes st))
              (if keep then reg else delete key reg)
        | None => prune_entries now reset_now entries st reg
        end
  end.

(** [prune_retired]. *)
Definition prune_retired (now reset_now : Z) st reg : Store * Registry :=
  prune_entries now reset_now (map_to_list reg) st reg.

(** [entry(..).or_insert_with(..)] for one deployment. *)
Definition remember_one (id : string) d reg : Registry :=
  match h_runtime_identity (d_state d) with
  | Some identity =>
      match reg !! (id, identity) with
      | Some _ => reg
      | None => <[(id, identity) := d_state d]> reg
      end
  | None => reg
  end.

(** [remember]; the order of the deployments does not matter. *)
Definition remember sn reg : Registry := map_fold remember_one reg (deployments sn).

Definition find (id : string) (h : Handle) reg : option Handle :=
  identity ← h_runtime_identity h;
  reg !! (id, identity).

(** The loop body of [inherit_runtime_state]: the handle the deployment goes on
    with. *)
Definition inherit_handle reg (id : string) d st : option (Store * Handle) :=
  match find id (d_state d) reg with
  | None => Some (st, d_state d)
  | Some prior =>
      '(st, h) ← for_snapshot_insertion_with_provider (h_provider_instance (d_state d)) prior st;
      s ← cells st !! h_shared h;
      let s := if negb (enable_pre_call_checks config) || negb (has_probe_policy d)
               then clear_disabled_probe_failure s else s in
      Some (mkStore (<[h_shared h := s]> (cells st)) (probes st), h)
  end.

Fixpoint inherit_all reg (entries : list (string * Deployment P)) st
    (ds : gmap string (Deployment P)) : option (Store * gmap string (Deployment P)) :=
  match entries with
  | [] => Some (st, ds)
  | (id, d) :: entries =>
      '(st, h) ← inherit_handle reg id d st;
      inherit_all reg entries st (<[id := set_state h d]> ds)
  end.

Definition set_deployments (ds : gmap string (Deployment P)) sn : RoutingSnapshot P M :=
  mkSnapshot (generation sn) ds (model_index sn) (model_order sn) (model_aliases sn)
    (provider_names sn) (legacy_selector_metadata sn).

(** [inherit_runtime_state]: [history] and [previous] are the registry and the
    current snapshot of the previous router, [r] is the new router. *)
Definition inherit_runtime_state (now reset_now : Z) (history : Registry)
    (previous : RoutingSnapshot P M) (r : RouterSnapshots P M)
    : option (RouterSnapshots P M * Registry) :=
  let '(st, reg) := prune_retired now reset_now (store r) history in
  let reg := remember previous reg in
  let sn := current r in
  '(st, ds) ← inherit_all reg (map_to_list (deployments sn)) st (deployments sn);
  let sn := set_deployments ds sn in
  r ← publish st sn r;
  Some (r, remember sn reg).
End Registry.

(** * Lemmas *)

(** What a resource has used and owes: everything selection and admission read,
    but for the window the minute counters belong to. *)
Definition usage (s : SharedState) :=
  (active_requests (inner s), rpm_current (inner s), tpm_current (inner s),
   fails_this_minute (inner s), cooldown_until (inner s), ledger s, fence s).

Definition usage_kept (keep : N -> Prop) (st st' : Store) : Prop :=
  forall l c, keep l -> cells st !! l = Some c ->
    exists c', cells st' !! l = Some c' /\ usage c' = usage c.

#[export] Instance usage_kept_preorder keep : PreOrder (usage_kept keep).
Proof.
  split.
  - intros st l c _ Hc. by exists c.
  - intros st1 st2 st3 H12 H23 l c Hl Hc. destruct (H12 l c Hl Hc) as (c2 & Hc2 & Hu).
    destruct (H23 l c2 Hl Hc2) as (c3 & Hc3 & Hu3). exists c3. by rewrite Hu3.
Qed.

(** The entries carry the identity they are filed under. *)
Definition registry_wf (reg : Registry) : Prop :=
  forall id i h, reg !! (id, i) = Some h -> h_runtime_identity h = Some i.

Section Lemmas.
Context {P M : Type}.
Variable pinned : N -> bool.
Variable has_probe_policy : Deployment P -> bool.
Variable config : RouterConfig.
Implicit Types (reg : Registry) (st : Store) (sn : RoutingSnapshot P M) (d : Deployment P).

(** An entry of the resource of [d], if there is one, is the state of [d]. *)
Definition consistent reg sn : Prop :=
  forall id d i h, deployments sn !! id = Some d -> h_runtime_identity (d_state d) = Some i ->
    reg !! (id, i) = Some h -> h_shared h = h_shared (d_state d).

Definition covers reg sn : Prop :=
  forall id d i, deployments sn !! id = Some d -> h_runtime_identity (d_state d) = Some i ->
    exists h, reg !! (id, i) = Some h /\ h_shared h = h_shared (d_state d).

Lemma covers_consistent reg sn : covers reg sn -> consistent reg sn.
Proof.
  intros Hc id d i h Hd Hi Hh. destruct (Hc id d i Hd Hi) as (h' & Hh' & Hs). by simplify_eq.
Qed.

(** ** Pruning *)

Definition pulse (s : SharedState) : Z * Z := (active_requests (inner s), cooldown_until (inner s)).

(** An operation of the minute gate that leaves the pulse alone. *)
Lemma gate_pulse {T} (now reset_now : Z) (op : SharedState -> SharedState * T) (s : SharedState) :
  (forall s, pulse (fst (op s)) = pulse s) ->
  pulse (fst (with_current_minute now reset_now op s)) = pulse s.
Proof.
  intros Hop. unfold with_current_minute, roll_exclusive. repeat case_match; by rewrite Hop.
Qed.

Lemma still_counts_spec (now reset_now : Z) (s : SharedState) :
  let '(s', keep) := still_counts now reset_now s in
  pulse s' = pulse s /\
  (keep = false -> active_requests (inner s) <= 0 /\ cooldown_until (inner s) <= now).
Proof.
  unfold still_counts.
  pose proof (gate_pulse now reset_now (fun s => (s, tt)) s (fun _ => eq_refl)) as H1.
  change (fst (with_current_minute now reset_now (fun s => (s, tt)) s))
    with (fst (minute_counters now reset_now s)) in H1.
  destruct (minute_counters now reset_now s) as [s1 minute]. simpl in H1.
  destruct ((0 <? active_requests (inner s1)) || _) eqn:Eb; [done|].
  pose proof (gate_pulse now reset_now (fun s => (s, sat_add_u64 (sat_add_u64
    (minute_tpm (observed_minute_counters s)) (active_estimate (ledger s)))
    (retained_unobserved (ledger s)))) s1 (fun _ => eq_refl)) as H2.
  fold (admission_tpm now reset_now s1) in H2.
  destruct (admission_tpm now reset_now s1) as [s2 tpm]. simpl in H2.
  split; [by rewrite H2|]. intros Hk. apply orb_false_elim in Hk as [_ Hk].
  apply orb_false_elim in Eb as [Eb _]. rewrite H1 in H2.
  injection H1 as Ha _. injection H2 as _ Hc. bool_arith. lia.
Qed.

(** Both readings of a cell whose pulse is the same. *)
Lemma pulse_transfer (now : Z) (o o' : option SharedState) :
  pulse <$> o = pulse <$> o' ->
  (forall c, o = Some c -> active_requests (inner c) <= 0 /\ cooldown_until (inner c) <= now) ->
  forall c, o' = Some c -> active_requests (inner c) <= 0 /\ cooldown_until (inner c) <= now.
Proof.
  intros Hp Ho c ->. destruct o as [y|]; [|done]. simpl in Hp. injection Hp as Ha Hc.
  rewrite <- Ha, <- Hc. by apply Ho.
Qed.

Lemma prune_entries_spec (now reset_now : Z) entries st reg st' reg' :
  prune_entries pinned now reset_now entries st reg = (st', reg') ->
  reg' ⊆ reg /\
  (forall l, pinned l = true -> cells st' !! l = cells st !! l) /\
  (forall l, pulse <$> cells st' !! l = pulse <$> cells st !! l) /\
  (forall k h, reg !! k = Some h -> reg' !! k = None -> exists h', (k, h') ∈ entries /\
     pinned (h_shared h') = false /\ forall c, cells st !! h_shared h' = Some c ->
       active_requests (inner c) <= 0 /\ cooldown_until (inner c) <= now).
Proof.
  revert st reg. induction entries as [|[key h] entries IH]; intros st reg; cbn [prune_entries].
  { intros [= <- <-]. split_and!; try done. congruence. }
  assert (Hskip : prune_entries pinned now reset_now entries st reg = (st', reg') ->
    reg' ⊆ reg /\ (forall l, pinned l = true -> cells st' !! l = cells st !! l) /\
    (forall l, pulse <$> cells st' !! l = pulse <$> cells st !! l) /\
    (forall k h0, reg !! k = Some h0 -> reg' !! k = None ->
       exists h', (k, h') ∈ (key, h) :: entries /\ pinned (h_shared h') = false /\
       forall c, cells st !! h_shared h' = Some c ->
         active_requests (inner c) <= 0 /\ cooldown_until (inner c) <= now)).
  { intros H. destruct (IH st reg H) as (H1 & H2 & H3 & H4). split_and!; try done.
    intros k h0 Hk Hn. destruct (H4 k h0 Hk Hn) as (h' & Hin & Hrest). exists h'.
    split; [by right|done]. }
  destruct (pinned (h_shared h)) eqn:Epin; [exact Hskip|].
  destruct (cells st !! h_shared h) as [c|] eqn:Ec; [|exact Hskip]. clear Hskip.
  pose proof (still_counts_spec now reset_now c) as Hcnt.
  destruct (still_counts now reset_now c) as [c1 keep]. destruct Hcnt as [Hpl Hkeep].
  set (st1 := mkStore _ _). intros H. destruct (IH st1 _ H) as (H1 & H2 & H3 & H4).
  assert (Hp : forall l, pulse <$> cells st1 !! l = pulse <$> cells st !! l).
  { intros l. unfold st1. simpl. rewrite lookup_insert. case_decide; [|done]. subst l.
    rewrite Ec. simpl. by rewrite Hpl. }
  split_and!.
  - destruct keep; [done|]. etrans; [done|]. apply delete_subseteq.
  - intros l Hl. rewrite (H2 l Hl). unfold st1. simpl. by rewrite lookup_insert_ne by congruence.
  - intros l. by rewrite H3, Hp.
  - intros k h0 Hk Hn.
    assert (Hrec : (if keep then reg else delete key reg) !! k = Some h0 ->
      exists h', (k, h') ∈ (key, h) :: entries /\ pinned (h_shared h') = false /\
        forall c0, cells st !! h_shared h' = Some c0 ->
          active_requests (inner c0) <= 0 /\ cooldown_until (inner c0) <= now).
    { intros Hk'. destruct (H4 k h0 Hk' Hn) as (h' & Hin & Hpin & Hc). exists h'.
      split_and!; [by right|done|]. exact (pulse_transfer now _ _ (Hp _) Hc). }
    destruct keep; [by apply Hrec|]. destruct (decide (k = key)) as [->|Hne].
    + exists h. split_and!; [by left|done|]. intros x Hx. simplify_eq. by apply Hkeep.
    + apply Hrec. by rewrite lookup_delete_ne.
Qed.

(** The entries handed to the pruning are those of the registry. *)
Lemma prune_retired_spec (now reset_now : Z) st reg st' reg' :
  prune_retired pinned now reset_now st reg = (st', reg') ->
  reg' ⊆ reg /\ usage_kept (fun l => pinned l = true) st st' /\
  (forall k h, reg !! k = Some h -> pinned (h_shared h) = true -> reg' !! k = Some h) /\
  (forall k h, reg !! k = Some h -> reg' !! k = None -> pinned (h_shared h) = false /\
     forall c, cells st !! h_shared h = Some c ->
       active_requests (inner c) <= 0 /\ cooldown_until (inner c) <= now).
Proof.
  intros H. apply prune_entries_spec in H as (Hsub & Hpin & _ & Hgone).
  assert (Hforget : forall k h, reg !! k = Some h -> reg' !! k = None ->
    pinned (h_shared h) = false /\ forall c, cells st !! h_shared h = Some c ->
       active_requests (inner c) <= 0 /\ cooldown_until (inner c) <= now).
  { intros k h Hk Hn. destruct (Hgone k h Hk Hn) as (h' & Hin & Hrest).
    apply elem_of_map_to_list in Hin. by simplify_eq. }
  split_and!; try done.
  - intros l c Hl Hc. exists c. by rewrite Hpin.
  - intros k h Hk Hp. destruct (reg' !! k) as [h'|] eqn:E.
    + pose proof (lookup_weaken _ _ _ _ E Hsub). by simplify_eq.
    + destruct (Hforget k h Hk E). congruence.
Qed.

(** ** Remembering *)

Lemma remember_spec sn reg id i :
  remember sn reg !! (id, i) =
    match reg !! (id, i) with
    | Some h => Some h
    | None =>
        d ← deployments sn !! id;
        if decide (h_runtime_identity (d_state d) = Some i) then Some (d_state d) else None
    end.
Proof.
  unfold remember. generalize (deployments sn) as ds.
  apply (map_fold_weak_ind (fun r ds => r !! (id, i) =
    match reg !! (id, i) with
    | Some h => Some h
    | None => d ← ds !! id;
        if decide (h_runtime_identity (d_state d) = Some i) then Some (d_state d) else None
    end)).
  - rewrite lookup_empty. by destruct (reg !! (id, i)).
  - intros x d ds r Hx IH. unfold remember_one.
    destruct (h_runtime_identity (d_state d)) as [i'|] eqn:Ei.
    + destruct (decide ((x, i') = (id, i))) as [[= -> ->]|Hne].
      * rewrite Hx in IH. rewrite lookup_insert_eq. simpl. rewrite Ei, decide_True by done.
        destruct (r !! (id, i)) as [h|] eqn:Er; destruct (reg !! (id, i)); try done;
          [by rewrite Er|by rewrite lookup_insert_eq].
      * transitivity (r !! (id, i)); [destruct (r !! (x, i')); [done|by rewrite lookup_insert_ne]|].
        rewrite IH. destruct (reg !! (id, i)); [done|]. rewrite lookup_insert. case_decide; [|done].
        subst x. rewrite Hx. simpl. rewrite Ei, decide_False by congruence. done.
    + rewrite IH. destruct (reg !! (id, i)); [done|]. rewrite lookup_insert. case_decide; [|done].
      subst x. rewrite Hx. simpl. by rewrite Ei, decide_False by congruence.
Qed.

Lemma remember_wf sn reg : registry_wf reg -> registry_wf (remember sn reg).
Proof.
  intros Hwf id i h. rewrite remember_spec. destruct (reg !! (id, i)) eqn:E.
  - intros [= <-]. by eapply Hwf.
  - destruct (deployments sn !! id) as [d|]; simpl; [|done]. case_decide; [|done]. by intros [= <-].
Qed.

Lemma remember_covers sn reg : consistent reg sn -> covers (remember sn reg) sn.
Proof.
  intros Hc id d i Hd Hi. rewrite remember_spec. destruct (reg !! (id, i)) as [h|] eqn:E.
  - exists h. split; [done|]. by eapply Hc.
  - rewrite Hd. simpl. rewrite decide_True by done. by exists (d_state d).
Qed.

(** ** Inheriting *)

(** The handle a deployment goes on with, against the registry. *)
Definition inherits reg (id : string) d (h : Handle) : Prop :=
  match find id (d_state d) reg with
  | None => h = d_state d
  | Some prior =>
      h_shared h = h_shared prior /\ h_runtime_identity h = h_runtime_identity prior /\
      h_provider_instance h = h_provider_instance (d_state d)
  end.

Lemma inherits_provider reg id d h :
  inherits reg id d h -> h_provider_instance h = h_provider_instance (d_state d).
Proof. unfold inherits. destruct (find id (d_state d) reg); [by intros (_ & _ & ?)|by intros ->]. Qed.

Lemma inherits_entry reg id d h i prior :
  inherits reg id d h -> h_runtime_identity (d_state d) = Some i -> reg !! (id, i) = Some prior ->
  h_shared h = h_shared prior.
Proof. unfold inherits, find. intros H Hi Hp. rewrite Hi in H. simpl in H. rewrite Hp in H. apply H. Qed.

Lemma inherits_fresh reg id d h i :
  inherits reg id d h -> h_runtime_identity (d_state d) = Some i -> reg !! (id, i) = None ->
  h = d_state d.
Proof. unfold inherits, find. intros H Hi Hp. rewrite Hi in H. simpl in H. by rewrite Hp in H. Qed.

Lemma inherits_consistent reg id d h h' i :
  registry_wf reg -> inherits reg id d h -> h_runtime_identity h = Some i ->
  reg !! (id, i) = Some h' -> h_shared h' = h_shared h.
Proof.
  intros Hwf H Hi Hp. unfold inherits, find in H.
  destruct (h_runtime_identity (d_state d)) as [i0|] eqn:E; simpl in H; [|congruence].
  destruct (reg !! (id, i0)) as [prior|] eqn:Er; [|congruence].
  destruct H as (-> & Hid & _). rewrite Hid, (Hwf _ _ _ Er) in Hi. congruence.
Qed.

Lemma clear_disabled_usage (s : SharedState) : usage (clear_disabled_probe_failure s) = usage s.
Proof. unfold clear_disabled_probe_failure. repeat case_match; done. Qed.

Lemma inherit_handle_spec reg id d st st' h :
  inherit_handle has_probe_policy config reg id d st = Some (st', h) ->
  usage_kept (fun _ => True) st st' /\ inherits reg id d h.
Proof.
  unfold inherit_handle, inherits. destruct (find id (d_state d) reg) as [prior|].
  2: { intros [= <- <-]. by split. }
  intros H. unfold for_snapshot_insertion_with_provider in H.
  destruct (cells st !! h_shared prior) as [c|] eqn:Ec; simpl in H; [|done].
  destruct (next_generation c) as [[c1 g]|] eqn:Eg; simpl in H; [|done].
  rewrite lookup_insert_eq in H. simpl in H. injection H as <- <-. split; [|done].
  assert (Hu : usage c1 = usage c).
  { unfold next_generation in Eg. destruct (checked_add_u64 _ _); simpl in Eg; [|done].
    by injection Eg as <- <-. }
  intros l x _ Hx. simpl. rewrite insert_insert_eq, lookup_insert. case_decide as Hl.
  - subst l. rewrite Ec in Hx. injection Hx as <-. eexists. split; [done|].
    destruct (_ || _); [rewrite clear_disabled_usage|]; done.
  - by exists x.
Qed.

Lemma inherit_all_spec reg entries st ds st' ds' :
  inherit_all has_probe_policy config reg entries st ds = Some (st', ds') ->
  NoDup entries.*1 ->
  usage_kept (fun _ => True) st st' /\
  (forall id, id ∉ entries.*1 -> ds' !! id = ds !! id) /\
  (forall id d, (id, d) ∈ entries ->
     exists h, ds' !! id = Some (set_state h d) /\ inherits reg id d h).
Proof.
  revert st ds. induction entries as [|[id0 d0] entries IH]; intros st ds; cbn [inherit_all].
  { intros [= <- <-] _. split_and!; [done|done|]. intros id d Hin. by apply not_elem_of_nil in Hin. }
  intros H Hnd. apply NoDup_cons in Hnd as [Hn Hnd]. fold (fmap fst entries) in Hn.
  destruct (inherit_handle _ _ reg id0 d0 st) as [[st1 h]|] eqn:Eh; simpl in H; [|done].
  apply inherit_handle_spec in Eh as [Hu Hi].
  destruct (IH st1 _ H Hnd) as (Hu' & Hout & Hin). split_and!.
  - by etrans.
  - intros id Hid. apply not_elem_of_cons in Hid as [Hne Hid].
    rewrite Hout by done. by rewrite lookup_insert_ne.
  - intros id d Hd. apply elem_of_cons in Hd as [[= -> ->]|Hd]; [|by apply Hin].
    exists h. split; [|done]. rewrite Hout by done. by rewrite lookup_insert_eq.
Qed.
End Lemmas.

(** * Property *)

(** A configuration reload keeps the live state of every resource that
    stays, and forgets only what nobody can use or owes.  When the previous
    router's registry agrees with its snapshot: every deployment of the new revision whose identifier and
    construction inputs the previous one had shares its counters, ledger, fence
    and cooldown; so does one whose resource an earlier revision dropped while
    someone held it; one of a resource never seen keeps its fresh state; each
    keeps its own provider client and configuration; no pinned usage changes.
    A resource is forgotten only when nobody else holds its state, no request is
    active on it and its cooldown is over.  And the new registry covers the new
    snapshot, so the next reload may rely on the same. *)
Theorem reload_keeps_usage {P M : Type} (pinned : N -> bool)
    (has_probe_policy : Deployment P -> bool) (config : RouterConfig) (now reset_now : Z)
    (history reg' : Registry) (previous : RoutingSnapshot P M) (r r' : RouterSnapshots P M)
    (Hwf : registry_wf history) (Hcons : consistent history previous)
    (Hreload : inherit_runtime_state pinned has_probe_policy config now reset_now history
                 previous r = Some (r', reg')) :
  (forall id d, deployments (current r) !! id = Some d ->
     exists h, deployments (current r') !! id = Some (set_state h d) /\
       h_provider_instance h = h_provider_instance (d_state d) /\
       forall i, h_runtime_identity (d_state d) = Some i ->
         (forall old, deployments previous !! id = Some old ->
            h_runtime_identity (d_state old) = Some i -> h_shared h = h_shared (d_state old)) /\
         (forall prior, history !! (id, i) = Some prior -> pinned (h_shared prior) = true ->
            h_shared h = h_shared prior) /\
         (history !! (id, i) = None -> deployments previous !! id = None -> h = d_state d)) /\
  usage_kept (fun l => pinned l = true) (store r) (store r') /\
  (forall k h, history !! k = Some h -> reg' !! k = None ->
     pinned (h_shared h) = false /\
     forall c, cells (store r) !! h_shared h = Some c ->
       active_requests (inner c) <= 0 /\ cooldown_until (inner c) <= now) /\
  registry_wf reg' /\ covers reg' (current r').
Proof.
  unfold inherit_runtime_state in Hreload.
  destruct (prune_retired pinned now reset_now (store r) history) as [st1 reg1] eqn:Ep.
  apply prune_retired_spec in Ep as (Hsub & Hu1 & Hkeep & Hforget).
  set (reg2 := remember previous reg1) in Hreload.
  destruct (inherit_all _ _ reg2 _ st1 _) as [[st2 ds]|] eqn:Ei; simpl in Hreload; [|done].
  unfold publish in Hreload. destruct (checked_add_u64 _ _) as [g|]; simpl in Hreload; [|done].
  injection Hreload as <- <-. simpl.
  assert (Hcov2 : covers reg2 previous).
  { apply remember_covers. intros id d i h Hd Hi Hh. eapply Hcons; [done|done|].
    by eapply lookup_weaken. }
  assert (Hreg2 : registry_wf reg2).
  { apply remember_wf. intros id i h Hh. eapply Hwf. by eapply lookup_weaken. }
  apply inherit_all_spec in Ei as (Hu2 & Hout & Hin); [|apply NoDup_fst_map_to_list].
  split_and!.
  - intros id d Hd. destruct (Hin id d) as (h & Hh & Hi); [by apply elem_of_map_to_list|].
    exists h. split; [done|]. split; [by apply inherits_provider in Hi|].
    intros i Hid. split_and!.
    + intros old Hold Hi'. destruct (Hcov2 id old i Hold Hi') as (h0 & Hh0 & <-).
      by eapply inherits_entry.
    + intros prior Hp Hpin. eapply inherits_entry; [done|done|]. unfold reg2.
      by rewrite remember_spec, (Hkeep _ _ Hp Hpin).
    + intros Hnone Hprev. eapply inherits_fresh; [done|done|]. unfold reg2.
      rewrite remember_spec, (lookup_weaken_None _ _ _ Hnone Hsub). by rewrite Hprev.
  - etrans; [done|]. intros l c _. by apply Hu2.
  - intros [id i] h Hh Hn. eapply Hforget; [done|].
    rewrite remember_spec in Hn. unfold reg2 in Hn. rewrite remember_spec in Hn.
    destruct (reg1 !! (id, i)); done.
  - by apply remember_wf.
  - apply (remember_covers (set_deployments ds (current r))). intros id d' i h Hd' Hi Hh. simpl in Hd'.
    destruct (deployments (current r) !! id) as [d|] eqn:Ed.
    2: { rewrite Hout in Hd'; [congruence|].
         intros ([id' d] & Heq & Hm)%list_elem_of_fmap. simpl in Heq. subst id'.
         apply elem_of_map_to_list in Hm. congruence. }
    destruct (Hin id d) as (h1 & Hh1 & Hinh); [by apply elem_of_map_to_list|].
    rewrite Hh1 in Hd'. injection Hd' as <-. simpl in *. by eapply inherits_consistent.
Qed.

(** A provider switched from model name [old] to [new] and reloaded: the
    deployment goes on with the counters of the one it replaces. *)
Definition example_of_identity (i : string) (l : N) (name : string) : Deployment string :=
  mkDeployment "d1" "openai" "gpt-4-turbo" name DeploymentConfig_default
    (mkHandle l l 0 (Some i) 0) [].

Lemma reload_keeps_usage_witness :
  exists r' reg' h,
    inherit_runtime_state (P := string) (M := unit) (fun _ => true) (fun _ => true)
      RouterConfig_default 130 120 ∅
      (mkSnapshot 1 {["d1" := example_of_identity "a" 1 "old"]} {["old" := ["d1"]]} ["old"]
         ∅ ∅ ∅)
      (mkRouterSnapshots
         (mkStore {[1%N := DeploymentState_new 100; 2%N := DeploymentState_new 130]}
            {[1%N := ProbeCell_new; 2%N := ProbeCell_new]}) 1
         (mkSnapshot 1 {["d1" := example_of_identity "a" 2 "new"]} {["new" := ["d1"]]} ["new"]
            ∅ ∅ ∅)) = Some (r', reg') /\
    deployments (current r') !! "d1" = Some (set_state h (example_of_identity "a" 2 "new")) /\
    h_shared h = 1%N.
Proof.
  set (previous := mkSnapshot (M := unit) 1 {["d1" := example_of_identity "a" 1 "old"]}
    {["old" := ["d1"]]} ["old"] ∅ ∅ ∅).
  set (r := mkRouterSnapshots _ _ _).
  destruct (inherit_runtime_state (fun _ => true) (fun _ => true) RouterConfig_default 130 120 ∅
    previous r) as [[r' reg']|] eqn:E; [|vm_compute in E; discriminate].
  assert (Hwf : registry_wf ∅) by (intros ? ? ? H; by rewrite lookup_empty in H).
  assert (Hcons : consistent ∅ previous) by (intros ? ? ? ? _ _ H; by rewrite lookup_empty in H).
  destruct (reload_keeps_usage (fun _ => true) (fun _ => true) RouterConfig_default 130 120 ∅
    reg' previous r r' Hwf Hcons E) as (Hd & _).
  destruct (Hd "d1" (example_of_identity "a" 2 "new") eq_refl) as (h & Hh & _ & Hid).
  exists r', reg', h. split_and!; [done|done|].
  destruct (Hid "a" eq_refl) as (Hold & _).
  by rewrite (Hold (example_of_identity "a" 1 "old") eq_refl eq_refl).
Defined.
