(* ===== verification/Admission.v ===== *)
(** The admission backend ([core/router/admission.rs]): the limits a deployment
    reserves against, in process or through the shared Redis script, the
    completion of a hold and its cleanup when it is dropped.

    The network is an argument: a [Fate] says whether a call of the script was
    executed and answered.  [hex_encode] is the function of the [hex] crate that
    names the shared hash; lease identifiers are fresh UUIDs. *)

From S2P Require Import Prelude ProviderErrors RouterTypes Deployment Ledger.
From S2P Require Import AdmissionScript Snapshot.

Inductive AdmissionBackend := AdmInProcess | AdmRedis (lease_ttl_ms : Z).

Definition DEFAULT_LEASE_TTL_MS : Z := 600000.

(** [AdmissionBackend::redis]: a disabled pool means local admission. *)
Definition admission_redis (is_noop : bool) : AdmissionBackend :=
  if is_noop then AdmInProcess else AdmRedis DEFAULT_LEASE_TTL_MS.

Inductive AdmissionReserve := Skipped | Denied | Unavailable | Granted (hold : AdmissionHold).

Definition option_limit (limit : option Z) : Z :=
  match limit with
  | Some v => if 0 <=? v then v else -1
  | None => -1
  end.

(** What becomes of a call: answered; executed, but the answer is lost; or
    never executed. *)
Inductive Fate := Answered | AnswerLost | NotExecuted.

Definition Hashes := gmap string AdmissionHash.

Definition admission_key (deployment_id : string) : string :=
  "litellm-rs:admission:v1:" +:+ deployment_id.

(** [invoke_admission]: [None] is any error. *)
Definition invoke_admission (fate : Fate) (k : Clock) (key : string) (a : AdmissionArgs)
    (redis : Hashes) : Hashes * option AdmissionState :=
  match fate with
  | NotExecuted => (redis, None)
  | _ =>
      let '(h, values, _) := admission_script k a (redis !! key) in
      (<[key := h]> redis,
       match fate with Answered => parse_admission_state values | _ => None end)
  end.

(** [admission_settle], [admission_retain] and [admission_cancel]. *)
Definition finish_args (op lease_id : string) (actual_tpm : Z) : AdmissionArgs :=
  mkAdmissionArgs op (-1) (-1) (-1) 0 0 lease_id 0 actual_tpm.

Definition completion_args (lease_id : string) (c : AdmissionCompletion) : AdmissionArgs :=
  match c with
  | ACancel => finish_args "cancel" lease_id 0
  | ASettle tokens => finish_args "settle" lease_id tokens
  | ARetain tokens => finish_args "retain" lease_id tokens
  end.

Section Backend.
Context {P : Type}.
Variable hex_encode : string -> string.
Implicit Types d : Deployment P.

Definition shared_state_id d : string :=
  match h_runtime_identity (d_state d) with
  | Some identity => d_id d +:+ ":" +:+ hex_encode identity
  | None => d_id d
  end.

Definition max_parallel d : Z := option_limit (max_parallel_requests (d_config d)).
Definition max_rpm d : Z := option_limit (to_i64 <$> rpm_limit (d_config d)).
Definition max_tpm d : Z := option_limit (to_i64 <$> tpm_limit (d_config d)).

Definition reserve_args d (lease_id : string) (ttl estimated_tokens : Z) : AdmissionArgs :=
  mkAdmissionArgs "reserve" (max_parallel d) (max_rpm d) (max_tpm d)
    (if 0 <=? max_rpm d then 1 else 0)
    (if 0 <=? max_tpm d then to_i64 (Z.max estimated_tokens 1) else 0)
    lease_id ttl 0.

(** [reserve_async].  [slot] says whether a cleanup permit was available. *)
Definition reserve_async (backend : AdmissionBackend) (now reset_now : Z) (slot : bool)
    (fate : Fate) (k : Clock) (lease_id : string) d (estimated_tokens : Z)
    (s : SharedState) (redis : Hashes) : SharedState * Hashes * AdmissionReserve :=
  if (max_parallel d <? 0) && (max_rpm d <? 0) && (max_tpm d <? 0) then (s, redis, Skipped)
  else
    match backend with
    | AdmInProcess =>
        match tpm_limit (d_config d) with
        | Some limit =>
            match reserve_local_tokens now reset_now (Z.max estimated_tokens 1) limit s with
            | (s, Some hold) => (s, redis, Granted (InProcessHold hold))
            | (s, None) => (s, redis, Denied)
            end
        | None => (s, redis, Skipped)
        end
    | AdmRedis ttl =>
        if negb slot then (s, redis, Unavailable)
        else
          let id := shared_state_id d in
          let '(redis, state) :=
            invoke_admission fate k (admission_key id)
              (reserve_args d lease_id ttl estimated_tokens) redis in
          (s, redis,
           match state with
           | Some state =>
               if as_allowed state
               then Granted (RedisHold (mkHoldInner lease_id id (Some ACancel)))
               else Denied
           | None => Unavailable
           end)
    end.
End Backend.

(** The completion [finish] installs before it suspends. *)
Definition remote_completion_of (op : string) (actual_tpm : Z) : AdmissionCompletion :=
  if String.eqb op "settle" then ASettle actual_tpm
  else if String.eqb op "retain" then ARetain actual_tpm
  else ACancel.

(** [finish]; the operation is one of "settle", "cancel" and "retain". *)
Definition admission_finish (backend : AdmissionBackend) (now reset_now : Z) (fate : Fate)
    (k : Clock) (op : string) (actual_tokens : Z) (hold : AdmissionHold)
    (s : SharedState) (redis : Hashes) : AdmissionHold * SharedState * Hashes :=
  match backend, hold with
  | AdmInProcess, InProcessHold h =>
      let '(h, s) := finish now reset_now op actual_tokens h s in (InProcessHold h, s, redis)
  | AdmInProcess, RedisHold _ => (hold, s, redis)
  | AdmRedis _, InProcessHold _ => (hold, s, redis)
  | AdmRedis _, RedisHold i =>
      let c := remote_completion_of op (to_i64 actual_tokens) in
      let i := set_remote_completion (Some c) i in
      let '(redis, state) :=
        invoke_admission fate k (admission_key (hold_deployment_id i))
          (completion_args (lease_id i) c) redis in
      (RedisHold (match state with
                  | Some _ => set_remote_completion None i
                  | None => i
                  end), s, redis)
  end.

(** [cancel_async], [settle_async] and [retain_async]. *)
Definition cancel_async (b : AdmissionBackend) (now reset_now : Z) (fate : Fate) (k : Clock) :=
  admission_finish b now reset_now fate k "cancel" 0.
Definition settle_async (b : AdmissionBackend) (now reset_now : Z) (fate : Fate) (k : Clock) :=
  admission_finish b now reset_now fate k "settle".
Definition retain_async (b : AdmissionBackend) (now reset_now : Z) (fate : Fate) (k : Clock) :=
  admission_finish b now reset_now fate k "retain".

(** The drop of the last reference: the in-process hold applies what it still
    holds; the Redis one hands it to the cleanup task, which sends it. *)
Definition drop_admission (now reset_now : Z) (fate : Fate) (k : Clock)
    (hold : AdmissionHold) (s : SharedState) (redis : Hashes) : SharedState * Hashes :=
  match hold with
  | InProcessHold h => (drop_hold now reset_now h s, redis)
  | RedisHold i =>
      match remote_completion i with
      | Some c =>
          (s, fst (invoke_admission fate k (admission_key (hold_deployment_id i))
                     (completion_args (lease_id i) c) redis))
      | None => (s, redis)
      end
  end.

(** * Properties *)

(** Admission fails closed.  With the shared backend a request is admitted
    without a hold only when the deployment configures no limit at all; a hold
    is granted exactly when the script was executed and answered that the
    reservation fits, and it then names the lease the script recorded; every
    failure - no cleanup capacity, a call lost or never executed - makes the
    deployment unavailable, and leaves the hash alone unless the script ran. *)
Theorem shared_reserve_fails_closed {P : Type} (hex_encode : string -> string) (ttl : Z)
    (now reset_now : Z) (slot : bool) (fate : Fate) (k : Clock) (lease : string)
    (d : Deployment P) (est : Z) (s : SharedState) (redis : Hashes) :
  let id := shared_state_id hex_encode d in
  let key := admission_key id in
  let unlimited := max_parallel_requests (d_config d) = None /\
    rpm_limit (d_config d) = None /\ tpm_limit (d_config d) = None in
  let script := admission_script k (reserve_args d lease ttl est) (redis !! key) in
  let ran := slot = true /\ fate <> NotExecuted in
  Forall (fun limit => forall v, limit = Some v -> 0 <= v)
    [max_parallel_requests (d_config d); rpm_limit (d_config d); tpm_limit (d_config d)] ->
  let '(s', redis', r) :=
    reserve_async hex_encode (AdmRedis ttl) now reset_now slot fate k lease d est s redis in
  s' = s /\
  (r = Skipped <-> unlimited) /\
  (forall hold, r = Granted hold <->
     ~ unlimited /\ slot = true /\ fate = Answered /\
     hold = RedisHold (mkHoldInner lease id (Some ACancel)) /\
     exists state, parse_admission_state (snd (fst script)) = Some state /\
                   as_allowed state = true) /\
  (~ unlimited -> slot = false \/ fate <> Answered -> r = Unavailable) /\
  (redis' = redis \/ ran /\ redis' = <[key := fst (fst script)]> redis).
Proof.
  intros id key unlimited script ran Hnn.
  apply Forall_cons in Hnn as [H1 Hnn]. apply Forall_cons in Hnn as [H2 Hnn].
  apply Forall_cons in Hnn as [H3 _].
  assert (Hlim : forall o, (forall v, o = Some v -> 0 <= v) ->
    (option_limit (to_i64 <$> o) <? 0) = true <-> o = None).
  { intros [v|] Hv; simpl; [|done]. specialize (Hv v eq_refl).
    unfold to_i64, i64_max. split; [|done].
    destruct (Z.leb_spec v (2 ^ 63 - 1)); case_match; bool_arith; intros; bool_arith; lia. }
  assert (Hpar : (max_parallel d <? 0) = true <-> max_parallel_requests (d_config d) = None).
  { unfold max_parallel. destruct (max_parallel_requests (d_config d)) as [v|]; simpl; [|done].
    specialize (H1 v eq_refl). rewrite (proj2 (Z.leb_le _ _) H1). split; [|done].
    intros; bool_arith; lia. }
  assert (Hun : (max_parallel d <? 0) && (max_rpm d <? 0) && (max_tpm d <? 0) = true <->
                unlimited).
  { rewrite !andb_true_iff, Hpar. unfold max_rpm, max_tpm. rewrite !Hlim by done.
    unfold unlimited. tauto. }
  unfold reserve_async. destruct (_ && _ && _) eqn:E.
  - pose proof (proj1 Hun eq_refl) as Hu. clear Hun Hlim Hpar.
    split_and!; [done| |naive_solver|tauto|by left]. tauto.
  - assert (Hn : ~ unlimited) by (intros Hu; apply Hun in Hu; congruence).
    clear Hun Hlim Hpar. clearbody unlimited.
    destruct slot; simpl.
    2: { split_and!; [done|naive_solver|naive_solver|done|by left]. }
    fold id key. unfold invoke_admission. fold script.
    destruct script as [[h values] t] eqn:Es. simpl.
    destruct fate; simpl.
    + destruct (parse_admission_state values) as [state|] eqn:Ep.
      * destruct (as_allowed state) eqn:Ea.
        -- split_and!; [done|naive_solver|naive_solver| |right; by split].
           intros _ [?|?]; done.
        -- split_and!; [done|naive_solver| | |right; by split].
           { intros hold. split; [done|]. intros (_ & _ & _ & _ & x & [= <-] & Hx). congruence. }
           intros _ [?|?]; done.
      * split_and!; [done|naive_solver|naive_solver|done|right; by split].
    + split_and!; [done|naive_solver|naive_solver|done|right; by split].
    + split_and!; [done|naive_solver|naive_solver|done|by left].
Qed.

Lemma invoke_hashes (fate : Fate) (k : Clock) (key : string) (a : AdmissionArgs)
    (redis : Hashes) :
  fst (invoke_admission fate k key a redis) =
  match fate with
  | NotExecuted => redis
  | _ => <[key := fst (fst (admission_script k a (redis !! key)))]> redis
  end.
Proof.
  unfold invoke_admission.
  destruct fate, (admission_script k a (redis !! key)) as [[h values] t]; done.
Qed.

Lemma invoke_answer (fate : Fate) (k : Clock) (key : string) (a : AdmissionArgs)
    (redis : Hashes) :
  snd (invoke_admission fate k key a redis) =
  match fate with
  | Answered => parse_admission_state (snd (fst (admission_script k a (redis !! key))))
  | _ => None
  end.
Proof.
  unfold invoke_admission.
  destruct fate, (admission_script k a (redis !! key)) as [[h values] t]; done.
Qed.

(** An execution of the finishing script answers as [Answered] parses it. *)
Definition answered (k : Clock) (a : AdmissionArgs) (stored : option AdmissionHash) : bool :=
  match parse_admission_state (snd (fst (admission_script k a stored))) with
  | Some _ => true
  | None => false
  end.

(** A hold is completed through the shared script by whoever gets through,
    and with what was known.  When the answered completion of a Redis hold is
    followed by its drop, the script has run exactly once with the requested
    operation; when the completion was never executed, the drop sends exactly the
    same operation with the same tokens in its place, never a cancellation of
    known usage; and a hold dropped without any completion is cancelled.  The
    in-process state is not touched. *)
Theorem redis_hold_completed (ttl : Z) (now reset_now now' reset_now' : Z) (fate fate' : Fate)
    (k k' : Clock) (op : string) (tokens : Z) (lease id : string)
    (pending : option AdmissionCompletion) (s : SharedState) (redis : Hashes)
    (Hop : op = "settle" \/ op = "retain" \/ op = "cancel")
    (Htok : op = "cancel" -> tokens = 0) :
  let key := admission_key id in
  let a := finish_args op lease (to_i64 tokens) in
  let run (k : Clock) := <[key := fst (fst (admission_script k a (redis !! key)))]> redis in
  let '(hold, s1, redis1) :=
    admission_finish (AdmRedis ttl) now reset_now fate k op tokens
      (RedisHold (mkHoldInner lease id pending)) s redis in
  let '(s2, redis2) := drop_admission now' reset_now' fate' k' hold s1 redis1 in
  s2 = s /\
  (fate = Answered -> answered k a (redis !! key) = true -> redis2 = run k) /\
  (fate = NotExecuted -> redis2 = match fate' with NotExecuted => redis | _ => run k' end) /\
  drop_admission now' reset_now' Answered k'
    (RedisHold (mkHoldInner lease id (Some ACancel))) s redis
  = (s, <[key := fst (fst (admission_script k' (finish_args "cancel" lease 0)
                             (redis !! key)))]> redis).
Proof.
  intros key a run.
  assert (Hargs : completion_args lease (remote_completion_of op (to_i64 tokens)) = a).
  { unfold a. destruct Hop as [-> | [-> | ->]]; [done|done|].
    rewrite (Htok eq_refl). done. }
  assert (Hdrop : forall i c r, remote_completion i = Some c ->
    drop_admission now' reset_now' fate' k' (RedisHold i) s r =
    (s, fst (invoke_admission fate' k' (admission_key (hold_deployment_id i))
               (completion_args (lease_id i) c) r))).
  { intros i c r Hi. unfold drop_admission. by rewrite Hi. }
  assert (Hcancel : drop_admission now' reset_now' Answered k'
      (RedisHold (mkHoldInner lease id (Some ACancel))) s redis
    = (s, <[key := fst (fst (admission_script k' (finish_args "cancel" lease 0)
                               (redis !! key)))]> redis)).
  { unfold drop_admission. cbn [remote_completion]. f_equal. apply invoke_hashes. }
  unfold admission_finish. cbn [set_remote_completion lease_id hold_deployment_id].
  rewrite Hargs. fold key.
  pose proof (invoke_hashes fate k key a redis) as Hh.
  pose proof (invoke_answer fate k key a redis) as Ha.
  destruct (invoke_admission fate k key a redis) as [redis1 state]. cbn [fst snd] in Hh, Ha.
  destruct state as [st|].
  - cbn [drop_admission remote_completion set_remote_completion].
    split_and!; [done| |intros ->; done|exact Hcancel].
    intros -> _. rewrite Hh. done.
  - rewrite (Hdrop _ (remote_completion_of op (to_i64 tokens))) by done.
    cbn [hold_deployment_id lease_id set_remote_completion]. rewrite Hargs. fold key.
    rewrite invoke_hashes.
    split_and!; [done| | |exact Hcancel].
    + intros -> Hans. unfold answered in Hans. rewrite <- Ha in Hans. done.
    + intros ->. rewrite Hh. by destruct fate'.
Qed.

Lemma redis_hold_completed_witness :
  let k := mkClock 100 0 in
  let stored := mkAdmission 1 1 10 1 [("l", mkLease 1 1 10 1 700000)] in
  let redis := <[admission_key "d" := stored]> ∅ in
  answered k (finish_args "settle" "l" 4) (Some stored) = true /\
  snd (let '(hold, s1, r1) :=
     admission_finish (AdmRedis 600000) 100 100 NotExecuted k "settle" 4
       (RedisHold (mkHoldInner "l" "d" (Some ACancel))) (DeploymentState_new 100) redis in
   drop_admission 100 100 Answered k hold s1 r1)
  = <[admission_key "d" := mkAdmission 0 1 4 1 []]> redis.
Proof.
  intros k stored redis. split; [vm_compute; reflexivity|].
  pose proof (redis_hold_completed 600000 100 100 100 100 NotExecuted Answered k k "settle" 4
    "l" "d" (Some ACancel) (DeploymentState_new 100) redis (or_introl eq_refl)
    ltac:(discriminate)) as H.
  cbn zeta in H.
  destruct (admission_finish _ _ _ _ _ _ _ _ _ _) as [[hold s1] r1].
  destruct (drop_admission _ _ _ _ _ _ _) as [s2 r2].
  destruct H as (_ & _ & H & _). cbn [snd]. rewrite (H eq_refl).
  vm_compute. reflexivity.
Defined.

Lemma shared_reserve_fails_closed_witness :
  let d := mkDeployment "d" tt "m" "m"
    (mkDeploymentConfig (Some 100) None None 1 60 0 None) (mkHandle 1 1 0 None 0) [] in
  snd (reserve_async (fun s => s) (AdmRedis 600000) 100 100 true AnswerLost (mkClock 100 0)
    "l" d 5 (DeploymentState_new 100) ∅) = Unavailable.
Proof.
  intros d.
  pose proof (shared_reserve_fails_closed (fun s => s) 600000 100 100 true AnswerLost
    (mkClock 100 0) "l" d 5 (DeploymentState_new 100) ∅) as H. cbn zeta in H.
  specialize (H ltac:(repeat constructor; simpl; intros ? [= <-]; lia)).
  destruct (reserve_async _ _ _ _ _ _ _ _ _ _ _ _) as [[s' redis'] r].
  destruct H as (_ & _ & _ & H & _). cbn [snd]. apply H; [|by right].
  intros (_ & _ & Hl). discriminate.
Defined.
