(* ===== verification/Selection.v ===== *)
(** Deployment selection ([core/router/selection.rs]): candidate filtering,
    strategy choice, reservation of the chosen deployment, and the lease that
    releases it.

    Selection suspends at its backends: the circuit observation, the admission
    reservation and its cancellation.  [Backends] is that interface; between two
    suspensions nothing else runs, and whatever other requests do meanwhile is
    part of the backend's step, the active-request counters they take and give
    back included.  The theorems are of the rely-guarantee kind: they rely on
    [LawfulBackends], that other requests account for their own slots, and
    guarantee the same of this one.  [InProcess] is the instance of a router
    without Redis.  The compare-and-swap loop on the active-request counter is
    modelled with its interleavings in [Slots], and refines the atomic
    [take_slot] used everywhere else. *)

From S2P Require Import Prelude ProviderErrors RouterTypes Deployment Ledger CircuitScript.
From S2P Require Import Circuit Strategy Aliases Snapshot AdmissionScript Admission.

(** * The world a request runs in *)

Record World (E : Type) := mkWorld {
  w_store : Store;
  w_round_robin : gmap string Z;     (* usize *)
  w_provider_selected : Z;           (* u64 *)
  w_strategy_used : Z;               (* u64 *)
  w_fallback_triggered : Z;          (* u64 *)
  w_now : Z;                         (* [current_timestamp] *)
  w_draws : nat;                     (* selections that have drawn *)
  w_slots : gmap N Z;                (* the slots this request holds, not in the code *)
  w_env : E;                         (* what the backends keep *)
}.
Arguments mkWorld {E}.
Arguments w_store {E}. Arguments w_round_robin {E}. Arguments w_provider_selected {E}.
Arguments w_strategy_used {E}. Arguments w_fallback_triggered {E}. Arguments w_now {E}.
Arguments w_draws {E}. Arguments w_slots {E}. Arguments w_env {E}.

Section World.
Context {E : Type}.
Implicit Types w : World E.

Definition set_store (st : Store) w : World E :=
  mkWorld st (w_round_robin w) (w_provider_selected w) (w_strategy_used w)
    (w_fallback_triggered w) (w_now w) (w_draws w) (w_slots w) (w_env w).

(** The state a handle points to; a handle never dangles, so the default is
    never read. *)
Definition get_cell (l : N) w : SharedState :=
  default (DeploymentState_new 0) (cells (w_store w) !! l).

Definition set_cell (l : N) (s : SharedState) w : World E :=
  set_store (mkStore (<[l := s]> (cells (w_store w))) (probes (w_store w))) w.

(** An operation on the state of one handle. *)
Definition on_cell {T} (l : N) (op : SharedState -> SharedState * T) w : World E * T :=
  let '(s, x) := op (get_cell l w) in (set_cell l s w, x).

Definition active (l : N) w : Z := active_requests (inner (get_cell l w)).

Definition count_selection w : World E :=
  mkWorld (w_store w) (w_round_robin w) (fetch_add_u64 (w_provider_selected w) 1)
    (fetch_add_u64 (w_strategy_used w) 1) (w_fallback_triggered w) (w_now w) (w_draws w)
    (w_slots w) (w_env w).

Definition set_round_robin (c : gmap string Z) w : World E :=
  mkWorld (w_store w) c (w_provider_selected w) (w_strategy_used w)
    (w_fallback_triggered w) (w_now w) (S (w_draws w)) (w_slots w) (w_env w).

Definition count_fallback w : World E :=
  mkWorld (w_store w) (w_round_robin w) (w_provider_selected w) (w_strategy_used w)
    (fetch_add_u64 (w_fallback_triggered w) 1) (w_now w) (w_draws w) (w_slots w) (w_env w).

(** ** Slots

    A request that increments the active-request counter of a handle holds a
    slot of it.  [slots] counts the slots this request holds; the rest of the
    counter is the slots of the others. *)
Definition slots (l : N) w : Z := default 0 (w_slots w !! l).

Definition add_slot (l : N) (n : Z) w : World E :=
  mkWorld (w_store w) (w_round_robin w) (w_provider_selected w) (w_strategy_used w)
    (w_fallback_triggered w) (w_now w) (w_draws w) (<[l := slots l w + n]> (w_slots w)) (w_env w).

Definition others (l : N) w : Z := active l w - slots l w.

(** Every counter accounts for the slots of this request, and the others hold
    fewer than 2^32 - 2. *)
Definition counters_ok w : Prop := forall l, 0 <= others l w < u32_max - 1.

(** The request holds nothing. *)
Definition idle w : Prop := forall l, slots l w = 0.

(** Nothing happened to the slots of this request, and the counters still
    account for them. *)
Definition quiet w (w' : World E) : Prop :=
  (forall l, slots l w' = slots l w) /\ (counters_ok w -> counters_ok w').
End World.

(** * The backends a selection suspends in *)

Class Backends (P E : Type) := {
  (** [deployment_is_selectable_async] *)
  selectable_async : Deployment P -> World E -> World E * bool;
  (** [AdmissionBackend::reserve_async] *)
  reserve_on : Deployment P -> Z -> World E -> World E * AdmissionReserve;
  (** [settle_async], [retain_async], [cancel_async] *)
  finish_on : string -> Z -> Deployment P -> AdmissionHold -> World E -> World E * AdmissionHold;
  (** the drop of the last reference of a hold *)
  drop_on : Deployment P -> AdmissionHold -> World E -> World E;
  (** [record_success_circuit_for_deployment_async] *)
  success_circuit_on : Deployment P -> World E -> World E;
  (** [record_failure_circuit_for_deployment_async] *)
  failure_circuit_on : Deployment P -> CooldownReason -> World E -> World E;
}.

(** What a selection relies on: other requests may take and release slots while a
    backend runs, but never one of this request. *)
Class LawfulBackends (P E : Type) `{Backends P E} : Prop := {
  selectable_quiet d w : quiet w (fst (selectable_async d w));
  reserve_quiet d n w : quiet w (fst (reserve_on d n w));
  finish_quiet op n d h w : quiet w (fst (finish_on op n d h w));
  drop_quiet d h w : quiet w (drop_on d h w);
  success_quiet d w : quiet w (success_circuit_on d w);
  failure_quiet d r w : quiet w (failure_circuit_on d r w);
}.

(** * Leases *)

Record DeploymentLease (P : Type) := mkLease_ {
  lease_deployment : Deployment P;
  release_on_drop : bool;
  lease_hold : option AdmissionHold;
  async_cleanup : bool;
}.
Arguments mkLease_ {P}. Arguments lease_deployment {P}. Arguments release_on_drop {P}.
Arguments lease_hold {P}. Arguments async_cleanup {P}.

Section Selection.
Context {P M E : Type} `{Backends P E}.
Variable rng : nat -> nat -> Z -> Z.       (* selection, draw, bound *)
Variable config : RouterConfig.

Implicit Types (w : World E) (d : Deployment P) (sn : RoutingSnapshot P M).

Definition DeploymentLease_new d (hold : option AdmissionHold) : DeploymentLease P :=
  mkLease_ d true hold true.

Definition synchronous_cleanup (l : DeploymentLease P) : DeploymentLease P :=
  mkLease_ (lease_deployment l) (release_on_drop l) (lease_hold l) false.

Definition shared_of d : N := h_shared (d_state d).

Definition release_selected_deployment d w : World E :=
  add_slot (shared_of d) (-1)
    (fst (on_cell (shared_of d) (fun s =>
       (upd_inner (fun i => set_active_requests (sat_sub (active_requests i) 1) i) s, tt)) w)).

(** [Drop for DeploymentLease], and the drop of the hold it still owns. *)
Definition drop_lease (lease : DeploymentLease P) w : World E :=
  let d := lease_deployment lease in
  let w := if release_on_drop lease then release_selected_deployment d w else w in
  match lease_hold lease with
  | Some hold =>
      if release_on_drop lease && negb (async_cleanup lease)
      then let '(w, hold) := finish_on "cancel" 0 d hold w in drop_on d hold w
      else drop_on d hold w
  | None => w
  end.

(** [into_deployment_id]: the counter stays taken. *)
Definition into_deployment_id (lease : DeploymentLease P) w : World E * DeploymentId :=
  let d := lease_deployment lease in
  let w := match lease_hold lease with
           | Some hold => let '(w, hold) := finish_on "cancel" 0 d hold w in drop_on d hold w
           | None => w
           end in
  (w, d_id d).

(** * Reservation *)

(** The linearisation of the compare-and-swap loop. *)
Definition take_slot (limit : option Z) (s : SharedState) : SharedState * bool :=
  let current := active_requests (inner s) in
  match limit with
  | Some limit =>
      if limit <=? current then (s, false)
      else (upd_inner (set_active_requests (current + 1)) s, true)
  | None => (upd_inner (set_active_requests (fetch_add_u32 current 1)) s, true)
  end.

(** The end of a reservation: the slot is taken, or the admission given back. *)
Definition take_local d (expected_model : string) (hold : option AdmissionHold) w
    : World E * result (option AdmissionHold) RouterError :=
  let '(w, local_ok) :=
    on_cell (shared_of d) (take_slot (max_parallel_requests (d_config d))) w in
  if local_ok : bool then (add_slot (shared_of d) 1 w, Ok hold)
  else
    let w := match hold with
             | Some hold => let '(w, hold) := finish_on "cancel" 0 d hold w in drop_on d hold w
             | None => w
             end in
    (w, Err (RateLimitExceeded expected_model)).

Definition try_reserve_deployment d (expected_model : string) (estimated_tokens : Z) w
    : World E * result (option AdmissionHold) RouterError :=
  if negb (String.eqb (d_model_name d) expected_model)
  then (w, Err (DeploymentNotFound (d_id d)))
  else
    let '(w, reserved) := reserve_on d estimated_tokens w in
    match reserved with
    | Skipped => take_local d expected_model None w
    | Denied => (w, Err (RateLimitExceeded expected_model))
    | Unavailable => (w, Err (NoAvailableDeployment expected_model))
    | Granted hold => take_local d expected_model (Some hold) w
    end.

(** * Candidates *)

Definition at_limit (current : Z) (limit : option Z) : bool :=
  match limit with Some limit => limit <=? current | None => false end.

(** The body of the candidate loop after [is_candidate]; [now] was read before
    the loop. *)
Definition build_context (now : Z) (id : DeploymentId) d w
    : World E * option RoutingContext :=
  let c := d_config d in
  let '(w, selectable) := selectable_async d w in
  if negb selectable then (w, None)
  else
    let active_requests := active (shared_of d) w in
    if at_limit active_requests (max_parallel_requests c) then (w, None)
    else
      let '(w, minute) := on_cell (shared_of d) (minute_counters now (w_now w)) w in
      let rpm := minute_rpm minute in
      if at_limit rpm (rpm_limit c) then (w, None)
      else
        let '(w, tpm) := on_cell (shared_of d) (admission_tpm now (w_now w)) w in
        if at_limit tpm (tpm_limit c) then (w, None)
        else
          (w, Some (mkContext id (weight c) (priority c) active_requests tpm (tpm_limit c)
                      rpm (rpm_limit c) (avg_latency_us (inner (get_cell (shared_of d) w))))).

Record Candidates := mkCandidates {
  existing_deployments : nat;
  matching_deployments : nat;
  routing_contexts : list RoutingContext;
}.

(** The loop's body on one identifier of the index. *)
Definition collect_one sn (resolved_name : string) (is_candidate : Deployment P -> bool)
    (now : Z) (id : DeploymentId) (c : Candidates) w : World E * Candidates :=
  match deployments sn !! id with
  | None => (w, c)
  | Some d =>
      if negb (String.eqb (d_model_name d) resolved_name) then (w, c)
      else
        let c := mkCandidates (S (existing_deployments c)) (matching_deployments c)
                   (routing_contexts c) in
        if negb (is_candidate d) then (w, c)
        else
          let c := mkCandidates (existing_deployments c) (S (matching_deployments c))
                     (routing_contexts c) in
          match build_context now id d w with
          | (w, Some ctx) =>
              (w, mkCandidates (existing_deployments c) (matching_deployments c)
                    (routing_contexts c ++ [ctx]))
          | (w, None) => (w, c)
          end
  end.

Fixpoint collect_candidates sn (resolved_name : string) (is_candidate : Deployment P -> bool)
    (now : Z) (ids : list DeploymentId) (c : Candidates) w : World E * Candidates :=
  match ids with
  | [] => (w, c)
  | id :: ids =>
      let '(w, c) := collect_one sn resolved_name is_candidate now id c w in
      collect_candidates sn resolved_name is_candidate now ids c w
  end.

(** * Selection *)

(** [Vec::swap_remove]. *)
Definition swap_remove {A} (i : nat) (l : list A) : list A :=
  match last l with
  | Some x => take (length l - 1) (<[i := x]> l)
  | None => []
  end.

Definition position (id : DeploymentId) (l : list RoutingContext) : option nat :=
  fst <$> list_find (fun ctx => ctx_deployment_id ctx = id) l.

(** [while !routing_contexts.is_empty()]; [None] means that the fuel ran out. *)
Fixpoint reserve_loop (fuel : nat) sn (model_name resolved_name : string)
    (estimated_tokens : Deployment P -> Z) (contexts : list RoutingContext) w
    : option (World E * result (DeploymentLease P) RouterError) :=
  match contexts with
  | [] => Some (w, Err (NoAvailableDeployment model_name))
  | _ =>
      match fuel with
      | O => None
      | S fuel =>
          let '(counters, selected) :=
            select_from_routing_contexts (rng (w_draws w)) (routing_strategy config)
              resolved_name contexts (w_round_robin w) in
          let w := set_round_robin counters w in
          match selected with
          | None => Some (w, Err (NoAvailableDeployment model_name))
          | Some selected_id =>
              match deployments sn !! selected_id with
              | None =>
                  reserve_loop fuel sn model_name resolved_name estimated_tokens contexts w
              | Some d =>
                  match try_reserve_deployment d resolved_name (estimated_tokens d) w with
                  | (w, Ok hold) => Some (count_selection w, Ok (DeploymentLease_new d hold))
                  | (w, Err _) =>
                      match position selected_id contexts with
                      | Some pos =>
                          reserve_loop fuel sn model_name resolved_name estimated_tokens
                            (swap_remove pos contexts) w
                      | None => Some (w, Err (NoAvailableDeployment model_name))
                      end
                  end
              end
          end
      end
  end.

Definition select_deployment_matching sn (model_name : string)
    (is_candidate : Deployment P -> bool) (no_matching : option RouterError)
    (estimated_tokens : Deployment P -> Z) w
    : option (World E * result (DeploymentLease P) RouterError) :=
  let resolved_name := resolve_model_name sn model_name in
  match model_index sn !! resolved_name with
  | None | Some [] => Some (w, Err (RModelNotFound model_name))
  | Some ids =>
      let '(w, c) := collect_candidates sn resolved_name is_candidate (w_now w) ids
                       (mkCandidates 0 0 []) w in
      match routing_contexts c with
      | [] =>
          Some (w, Err (match no_matching with
                        | Some err =>
                            if Nat.ltb 0 (existing_deployments c)
                               && Nat.eqb (matching_deployments c) 0
                            then err else NoAvailableDeployment model_name
                        | None => NoAvailableDeployment model_name
                        end))
      | contexts =>
          reserve_loop (length contexts) sn model_name resolved_name estimated_tokens contexts w
      end
  end.
End Selection.

(** * Capability selection

    [ProviderOps] is what selection asks of a provider: whether it supports a
    capability for a model, and whether its model identity lacks the catalog
    entry capability routing needs. *)
Class ProviderOps (P C : Type) := {
  supports_capability_for_model : P -> string -> C -> bool;
  capability_catalog_missing : P -> bool;
  capability_debug : C -> string;
}.

Section Capability.
Context {P M E C : Type} `{Backends P E} `{ProviderOps P C}.
Variable rng : nat -> nat -> Z -> Z.
Variable config : RouterConfig.

Definition no_matching_candidate_error (sn : RoutingSnapshot P M) (model_name : string)
    (capability : C) : RouterError :=
  let resolved_name := resolve_model_name sn model_name in
  let candidates := omap (fun id => deployments sn !! id)
                      (default [] (model_index sn !! resolved_name)) in
  let candidate_count := length candidates in
  let missing_mapping_count :=
    length (List.filter (fun d => capability_catalog_missing (d_provider d)) candidates) in
  if Nat.ltb 0 candidate_count && Nat.eqb candidate_count missing_mapping_count
  then InvalidConfiguration ("model '" +:+ model_name
         +:+ "' requires settings.model_identity_mappings." +:+ resolved_name
         +:+ ".capability_catalog_model before capability routing")
  else UnsupportedCapability model_name (capability_debug capability).

(** [select_deployment_lease_for_capability_matching_with_estimator]. *)
Definition select_for_capability (sn : RoutingSnapshot P M) (model_name : string)
    (capability : C) (is_candidate : Deployment P -> bool)
    (estimated_tokens : Deployment P -> Z) (w : World E)
    : option (World E * result (DeploymentLease P) RouterError) :=
  select_deployment_matching rng config sn model_name
    (fun d => supports_capability_for_model (d_provider d) (d_model d) capability
              && is_candidate d)
    (Some (no_matching_candidate_error sn model_name capability)) estimated_tokens w.
End Capability.

(** * The in-process instance *)

Section InProcess.
Context {P E : Type}.
Variable config : RouterConfig.
Implicit Types (w : World E) (d : Deployment P).

Definition local_selectable d w : World E * bool :=
  on_cell (h_shared (d_state d)) (locally_selectable (w_now w)) w.

Definition local_reserve d (estimated_tokens : Z) w : World E * AdmissionReserve :=
  on_cell (h_shared (d_state d)) (fun s =>
    let '(s, _, r) := reserve_async (fun i => i) AdmInProcess (w_now w) (w_now w) true NotExecuted
                        (mkClock 0 0) "" d estimated_tokens s ∅ in (s, r)) w.

Definition local_finish (op : string) (tokens : Z) d (hold : AdmissionHold) w
    : World E * AdmissionHold :=
  on_cell (h_shared (d_state d)) (fun s =>
    let '(h, s, _) := admission_finish AdmInProcess (w_now w) (w_now w) NotExecuted
                        (mkClock 0 0) op tokens hold s ∅ in (s, h)) w.

Definition local_drop d (hold : AdmissionHold) w : World E :=
  fst (on_cell (h_shared (d_state d)) (fun s =>
    (fst (drop_admission (w_now w) (w_now w) NotExecuted (mkClock 0 0) hold s ∅), tt)) w).

(** The local circuit write promotes a recovered deployment; a failure has
    nothing left to publish. *)
Definition local_success d w : World E :=
  fst (on_cell (h_shared (d_state d)) (fun s =>
    (complete_success_write config LocalWrite (fence_generation (fence s)) (w_now w) (w_now w) s,
     tt)) w).

Definition local_failure d (r : CooldownReason) w : World E := w.

Definition InProcess : Backends P E :=
  Build_Backends P E local_selectable local_reserve local_finish local_drop local_success
    local_failure.
End InProcess.

(** * Lemmas *)

Section Lemmas.
Context {E : Type}.
Implicit Types w : World E.

Lemma get_set_cell (l l' : N) (s : SharedState) w :
  get_cell l (set_cell l' s w) = if decide (l' = l) then s else get_cell l w.
Proof. unfold get_cell, set_cell. simpl. rewrite lookup_insert. by case_decide. Qed.

Lemma active_set_cell (l l' : N) (s : SharedState) w :
  active l (set_cell l' s w) = if decide (l' = l) then active_requests (inner s) else active l w.
Proof. unfold active. rewrite get_set_cell. by case_decide. Qed.

Lemma slots_add (l l' : N) (n : Z) w :
  slots l (add_slot l' n w) = slots l w + if decide (l' = l) then n else 0.
Proof.
  unfold slots at 1, add_slot. simpl. rewrite lookup_insert. case_decide; [by subst|].
  unfold slots. lia.
Qed.

#[export] Instance quiet_preorder : PreOrder (@quiet E).
Proof.
  split; [done|]. intros w1 w2 w3 [Ha Hb] [Hc Hd].
  split; [intros l; by rewrite Hc, Ha|auto].
Qed.

#[export] Instance idle_proper : Proper (quiet ==> impl) (@idle E).
Proof. intros w w' [Hs _] Hi l. by rewrite Hs. Qed.

(** An update that leaves the counter of the handle alone. *)
Lemma quiet_set_cell (l : N) (s : SharedState) w :
  active_requests (inner s) = active l w -> quiet w (set_cell l s w).
Proof.
  intros Hs. split; [done|]. intros Hok l'. specialize (Hok l'). unfold others in *.
  rewrite active_set_cell. change (slots l' (set_cell l s w)) with (slots l' w).
  case_decide; [subst|]; lia.
Qed.

Lemma quiet_on_cell {T} (l : N) (op : SharedState -> SharedState * T) w :
  (forall s, active_requests (inner (fst (op s))) = active_requests (inner s)) ->
  quiet w (fst (on_cell l op w)).
Proof.
  intros Hop. unfold on_cell. specialize (Hop (get_cell l w)).
  destruct (op (get_cell l w)) as [s x]. by apply quiet_set_cell.
Qed.

Lemma roll_active (now : Z) (s : SharedState) :
  active_requests (inner (roll_exclusive now s)) = active_requests (inner s).
Proof. unfold roll_exclusive. by case_match. Qed.

Lemma minute_gate_active {T} (now reset_now : Z) (op : SharedState -> SharedState * T)
    (s : SharedState) :
  (forall s, active_requests (inner (fst (op s))) = active_requests (inner s)) ->
  active_requests (inner (fst (with_current_minute now reset_now op s)))
  = active_requests (inner s).
Proof. intros Hop. unfold with_current_minute. case_match; rewrite Hop, ?roll_active; done. Qed.

Lemma minute_counters_active (now reset_now : Z) (s : SharedState) :
  active_requests (inner (fst (minute_counters now reset_now s))) = active_requests (inner s).
Proof. apply (minute_gate_active now reset_now (fun s => (s, tt))). done. Qed.

Lemma admission_tpm_active (now reset_now : Z) (s : SharedState) :
  active_requests (inner (fst (admission_tpm now reset_now s))) = active_requests (inner s).
Proof. by apply minute_gate_active. Qed.

Lemma is_in_cooldown_active (now : Z) (s : SharedState) :
  active_requests (inner (fst (is_in_cooldown now s))) = active_requests (inner s).
Proof. unfold is_in_cooldown. repeat case_match; done. Qed.

Lemma finish_prepared_active (now reset_now est : Z) (c : option Completion) (s : SharedState) :
  active_requests (inner (finish_prepared now reset_now est c s)) = active_requests (inner s).
Proof. unfold finish_prepared. destruct c; [|done]. by apply minute_gate_active. Qed.
End Lemmas.

(** The in-process backends are lawful. *)
Lemma in_process_lawful (P E : Type) (config : RouterConfig) :
  @LawfulBackends P E (InProcess config).
Proof.
  split; simpl.
  - intros d w. apply quiet_on_cell. intros s. unfold locally_selectable.
    pose proof (is_in_cooldown_active (w_now w) s) as Ha.
    destruct (is_in_cooldown (w_now w) s) as [s' b]. done.
  - intros d n w. apply quiet_on_cell. intros s. unfold reserve_async.
    destruct (_ && _ && _); [done|]. destruct (tpm_limit (d_config d)) as [lim|]; [|done].
    destruct (reserve_local_tokens _ _ _ _ s) as [s' [h|]] eqn:Er; simpl;
      change s' with (fst (s', @None LocalAdmissionHold));
      (replace (fst (s', None)) with (fst (reserve_local_tokens (w_now w) (w_now w)
         (Z.max n 1) lim s)) by by rewrite Er); apply minute_gate_active;
      intros x; unfold reserve_section; by case_match.
  - intros op n d h w. apply quiet_on_cell. intros s. destruct h as [h|i]; simpl; [|done].
    unfold finish. simpl. apply finish_prepared_active.
  - intros d h w. apply quiet_on_cell. intros s. destruct h as [h|i]; simpl.
    + apply finish_prepared_active.
    + by destruct (remote_completion i).
  - intros d w. apply quiet_on_cell. intros s. simpl.
    unfold complete_success_write, promote_from_local_success, promote_to_healthy_if_degraded.
    repeat case_match; done.
  - done.
Qed.

Section SelectionLemmas.
Context {P M E : Type} `{LawfulBackends P E}.
Variable rng : nat -> nat -> Z -> Z.
Variable config : RouterConfig.
Implicit Types (w : World E) (d : Deployment P) (sn : RoutingSnapshot P M).

(** The counter after one more request. *)
Definition one_more (d : Deployment P) (a : Z) : Z :=
  match max_parallel_requests (d_config d) with
  | Some _ => a + 1
  | None => wrap_u32 (a + 1)
  end.

(** A counter that includes this request is within the limit. *)
Definition within_limit (d : Deployment P) (a : Z) : Prop :=
  match max_parallel_requests (d_config d) with
  | Some limit => a <= limit
  | None => True
  end.

(** The request holds one more slot, of [d], than it did in [w]. *)
Definition slot_held d w (w' : World E) : Prop :=
  (forall l, slots l w' = slots l w + if decide (shared_of d = l) then 1 else 0) /\
  (idle w -> counters_ok w -> counters_ok w').

(** And it has just taken it: the counter is within the limit. *)
Definition slot_taken d w (w' : World E) : Prop :=
  slot_held d w w' /\ within_limit d (active (shared_of d) w').

Lemma slot_held_from d (w w1 w' : World E) : quiet w w1 -> slot_held d w1 w' -> slot_held d w w'.
Proof.
  intros Hq (Hs & Hok). split; [|intros ??].
  - intros l. by rewrite Hs, (proj1 Hq).
  - apply Hok; [by rewrite <- Hq|by apply Hq].
Qed.

Lemma slot_held_later d (w w1 w' : World E) : slot_held d w w1 -> quiet w1 w' -> slot_held d w w'.
Proof.
  intros (Hs & Hok) Hq. split; [|intros ??].
  - intros l. by rewrite (proj1 Hq), Hs.
  - apply Hq. by apply Hok.
Qed.

Lemma slot_taken_from d (w w1 w' : World E) :
  quiet w w1 -> slot_taken d w1 w' -> slot_taken d w w'.
Proof. intros Hq [Hh Hm]. split; [by eapply slot_held_from|done]. Qed.

Lemma give_back_quiet d (hold : option AdmissionHold) w :
  quiet w (match hold with
           | Some hold => let '(w, hold) := finish_on "cancel" 0 d hold w in drop_on d hold w
           | None => w
           end).
Proof.
  destruct hold as [h|]; [|done]. pose proof (finish_quiet "cancel" 0 d h w) as Hf.
  destruct (finish_on _ _ _ _ _) as [w1 h1]. etrans; [exact Hf|apply drop_quiet].
Qed.

(** Incrementing the counter below its limit, or without one. *)
Lemma take_counters d (s : SharedState) w :
  idle w -> counters_ok w -> active_requests (inner s) = one_more d (active (shared_of d) w) ->
  counters_ok (add_slot (shared_of d) 1 (set_cell (shared_of d) s w)).
Proof.
  intros Hi Hok Ha l. specialize (Hok l). specialize (Hi l). unfold others in *.
  rewrite slots_add. change (slots l (set_cell (shared_of d) s w)) with (slots l w).
  change (active l (add_slot (shared_of d) 1 (set_cell (shared_of d) s w)))
    with (active l (set_cell (shared_of d) s w)).
  rewrite active_set_cell. case_decide as Hd; [|lia]. subst l. rewrite Ha. unfold one_more.
  destruct (max_parallel_requests (d_config d)); [lia|].
  rewrite wrap_u32_small by (unfold fits_u32; lia). lia.
Qed.

Lemma take_local_spec d (expected : string) (hold : option AdmissionHold) w :
  match take_local d expected hold w with
  | (w', Ok _) => slot_taken d w w'
  | (w', Err _) => quiet w w'
  end.
Proof.
  unfold take_local, on_cell, take_slot, fetch_add_u32.
  change (active_requests (inner (get_cell (shared_of d) w))) with (active (shared_of d) w).
  assert (Htake : forall s, within_limit d (active_requests (inner s)) ->
    active_requests (inner s) = one_more d (active (shared_of d) w) ->
    slot_taken d w (add_slot (shared_of d) 1 (set_cell (shared_of d) s w))).
  { intros s Hu Ha. split; [split|].
    - intros l. by rewrite slots_add.
    - intros. by apply take_counters.
    - change (active (shared_of d) (add_slot (shared_of d) 1 (set_cell (shared_of d) s w)))
        with (active (shared_of d) (set_cell (shared_of d) s w)).
      by rewrite active_set_cell, decide_True. }
  unfold within_limit, one_more in Htake.
  destruct (max_parallel_requests (d_config d)) as [limit|]; [|by apply Htake].
  destruct (Z.leb_spec limit (active (shared_of d) w)); [|apply Htake; simpl; lia].
  etrans; [by apply quiet_set_cell|apply give_back_quiet].
Qed.

Lemma try_reserve_spec d (expected : string) (est : Z) w :
  match try_reserve_deployment d expected est w with
  | (w', Ok hold) => d_model_name d = expected /\ slot_taken d w w'
  | (w', Err _) => quiet w w'
  end.
Proof.
  unfold try_reserve_deployment. destruct (String.eqb_spec (d_model_name d) expected) as [He|];
    simpl; [|done].
  pose proof (reserve_quiet d est w) as Hq. destruct (reserve_on d est w) as [w1 r].
  simpl in Hq.
  assert (Htake : forall hold,
    match take_local d expected hold w1 with
    | (w', Ok _) => d_model_name d = expected /\ slot_taken d w w'
    | (w', Err _) => quiet w w'
    end).
  { intros hold. pose proof (take_local_spec d expected hold w1) as Ht.
    destruct (take_local d expected hold w1) as [w2 [h|e]].
    - split; [done|]. by eapply slot_taken_from.
    - by etrans. }
  destruct r as [| | |h]; simpl; [apply Htake|done|done|apply Htake].
Qed.

(** A deployment that passed the health and limit filter of a selection: it was
    selectable, and below each configured limit right after. *)
Definition vetted (now : Z) (id : DeploymentId) (d : Deployment P) : Prop :=
  exists w0 w1 : World E,
    selectable_async d w0 = (w1, true) /\
    at_limit (active (shared_of d) w1) (max_parallel_requests (d_config d)) = false /\
    let (s, minute) := minute_counters now (w_now w1) (get_cell (shared_of d) w1) in
    at_limit (minute_rpm minute) (rpm_limit (d_config d)) = false /\
    at_limit (snd (admission_tpm now (w_now w1) s)) (tpm_limit (d_config d)) = false.

Lemma build_context_spec (now : Z) (id : DeploymentId) d w :
  let '(w', o) := build_context now id d w in
  quiet w w' /\
  match o with
  | Some ctx => ctx_deployment_id ctx = id /\ vetted now id d
  | None => True
  end.
Proof.
  unfold build_context. pose proof (selectable_quiet d w) as Hs.
  destruct (selectable_async d w) as [w1 b] eqn:Hsel. simpl in Hs.
  destruct b; cbn [negb]; [|by split]. destruct (at_limit _ _) eqn:Ea; [by split|].
  pose proof (quiet_on_cell (shared_of d) (minute_counters now (w_now w1)) w1
    (minute_counters_active now (w_now w1))) as Hm.
  unfold on_cell at 1. unfold on_cell in Hm.
  destruct (minute_counters now (w_now w1) (get_cell (shared_of d) w1)) as [s1 minute] eqn:Em.
  simpl in Hm. assert (Hw : quiet w (set_cell (shared_of d) s1 w1)) by by etrans.
  destruct (at_limit (minute_rpm minute) _) eqn:Er; [by split|].
  pose proof (quiet_on_cell (shared_of d) (admission_tpm now (w_now w1))
    (set_cell (shared_of d) s1 w1) (admission_tpm_active now (w_now w1))) as Ht.
  unfold on_cell at 1. unfold on_cell in Ht. rewrite get_set_cell, decide_True in * by done.
  change (w_now (set_cell (shared_of d) s1 w1)) with (w_now w1).
  destruct (admission_tpm now (w_now w1) s1) as [s2 tpm] eqn:Et. simpl in Ht.
  assert (Hw2 : quiet w (set_cell (shared_of d) s2 (set_cell (shared_of d) s1 w1)))
    by by etrans.
  destruct (at_limit tpm _) eqn:El; [by split|]. split; [done|]. split; [done|].
  exists w, w1. rewrite Em, Et. by split_and!.
Qed.

(** A deployment of the snapshot a selection for the group may choose. *)
Definition eligible sn (resolved : string) (is_candidate : Deployment P -> bool)
    (ids : list DeploymentId) (id : DeploymentId) (d : Deployment P) : Prop :=
  id ∈ ids /\ deployments sn !! id = Some d /\ d_model_name d = resolved /\
  is_candidate d = true.

(** [eligible] without the caller's predicate, and both as tests on identifiers. *)
Definition served sn (resolved : string) (id : DeploymentId) : bool :=
  match deployments sn !! id with
  | Some d => String.eqb (d_model_name d) resolved
  | None => false
  end.

Definition matching sn (resolved : string) (is_candidate : Deployment P -> bool)
    (id : DeploymentId) : bool :=
  match deployments sn !! id with
  | Some d => String.eqb (d_model_name d) resolved && is_candidate d
  | None => false
  end.

Definition count (f : DeploymentId -> bool) (ids : list DeploymentId) : nat :=
  length (List.filter f ids).

Lemma count_zero (f : DeploymentId -> bool) (ids : list DeploymentId) :
  count f ids = 0%nat <-> forall id, id ∈ ids -> f id = false.
Proof.
  unfold count. rewrite length_zero_iff_nil. split.
  - intros Hn id Hin. destruct (f id) eqn:Ef; [|done].
    apply list_elem_of_In in Hin.
    destruct (in_nil (a:=id)). rewrite <- Hn. by apply filter_In.
  - intros Hall. destruct (List.filter f ids) as [|id l] eqn:El; [done|].
    assert (Hin : In id (List.filter f ids)) by (rewrite El; by left).
    apply filter_In in Hin as [Hin Hf]. apply list_elem_of_In in Hin.
    rewrite Hall in Hf; done.
Qed.

Lemma matching_eligible sn (resolved : string) (is_candidate : Deployment P -> bool)
    (ids : list DeploymentId) :
  count (matching sn resolved is_candidate) ids = 0%nat ->
  forall id d, ~ eligible sn resolved is_candidate ids id d.
Proof.
  intros Hz id d (Hin & Hd & Hm & Hc). apply (proj1 (count_zero _ _) Hz) in Hin.
  unfold matching in Hin. rewrite Hd, Hm, String.eqb_refl, Hc in Hin. done.
Qed.

Lemma served_exists sn (resolved : string) (ids : list DeploymentId) :
  (0 < count (served sn resolved) ids)%nat ->
  exists id d, id ∈ ids /\ deployments sn !! id = Some d /\ d_model_name d = resolved.
Proof.
  unfold count. intros Hp.
  destruct (List.filter (served sn resolved) ids) as [|id l] eqn:El; [simpl in Hp; lia|].
  assert (Hin : In id (List.filter (served sn resolved) ids)) by (rewrite El; by left).
  apply filter_In in Hin as [Hin Hs]. unfold served in Hs.
  destruct (deployments sn !! id) as [d|] eqn:Ed; [|done]. exists id, d.
  split_and!; [by apply list_elem_of_In|done|by apply String.eqb_eq].
Qed.

(** What collecting the candidates of [ids] adds to [c]. *)
Definition collected sn (resolved : string) (is_candidate : Deployment P -> bool) (now : Z)
    (ids : list DeploymentId) (c c' : Candidates) : Prop :=
  existing_deployments c' = (existing_deployments c + count (served sn resolved) ids)%nat /\
  matching_deployments c' =
    (matching_deployments c + count (matching sn resolved is_candidate) ids)%nat /\
  forall ctx, ctx ∈ routing_contexts c' -> ctx ∈ routing_contexts c \/
    exists d, eligible sn resolved is_candidate ids (ctx_deployment_id ctx) d /\
              vetted now (ctx_deployment_id ctx) d.

Lemma collect_one_spec sn (resolved : string) (is_candidate : Deployment P -> bool)
    (now : Z) (id : DeploymentId) (c : Candidates) w :
  let '(w', c') := collect_one sn resolved is_candidate now id c w in
  quiet w w' /\ collected sn resolved is_candidate now [id] c c'.
Proof.
  unfold collect_one, collected, count, served, matching, eligible. simpl.
  destruct (deployments sn !! id) as [d|] eqn:Ed;
    [|simpl; split_and!; try done; try lia; by left].
  destruct (String.eqb_spec (d_model_name d) resolved) as [Hm|Hm]; simpl;
    [|split_and!; try done; try lia; by left].
  destruct (is_candidate d) eqn:Ec; simpl; [|split_and!; try done; try lia; by left].
  pose proof (build_context_spec now id d w) as Hb.
  destruct (build_context now id d w) as [w1 [ctx|]]; destruct Hb as [Hw Hb]; simpl;
    split_and!; try done; try lia; [|by left].
  intros x Hx. apply elem_of_app in Hx as [Hx|Hx]; [by left|].
  apply list_elem_of_singleton in Hx as ->. right. exists d. destruct Hb as [-> Hv].
  split_and!; try done. by left.
Qed.

Lemma collect_candidates_spec sn (resolved : string) (is_candidate : Deployment P -> bool)
    (now : Z) (ids : list DeploymentId) (c : Candidates) w :
  let '(w', c') := collect_candidates sn resolved is_candidate now ids c w in
  quiet w w' /\ collected sn resolved is_candidate now ids c c'.
Proof.
  revert c w. induction ids as [|id ids IH]; intros c w; cbn [collect_candidates].
  - split; [done|]. unfold collected, count. simpl. split_and!; [lia|lia|by left].
  - pose proof (collect_one_spec sn resolved is_candidate now id c w) as Ho.
    destruct (collect_one sn resolved is_candidate now id c w) as [w1 c1].
    destruct Ho as (Hw1 & He1 & Hm1 & Hc1). specialize (IH c1 w1).
    destruct (collect_candidates sn resolved is_candidate now ids c1 w1) as [w' c'].
    destruct IH as (Hw & He & Hm & Hc).
    assert (Hcount : forall f, count f (id :: ids) = (count f [id] + count f ids)%nat).
    { intros f. unfold count. simpl. by destruct (f id). }
    split; [by etrans|]. split_and!; [rewrite Hcount; lia|rewrite Hcount; lia|].
    intros ctx Hin. destruct (Hc ctx Hin) as [Hin1|(d & (Hi & Hrest) & Hv)].
    + destruct (Hc1 ctx Hin1) as [|(d & (Hi & Hrest) & Hv)]; [by left|right].
      exists d. split; [|done]. split; [|done]. apply list_elem_of_singleton in Hi as ->. by left.
    + right. exists d. split; [|done]. split; [by right|done].
Qed.

Lemma swap_remove_spec {A} (i : nat) (l : list A) :
  l <> [] ->
  length (swap_remove i l) = (length l - 1)%nat /\ (forall x, x ∈ swap_remove i l -> x ∈ l).
Proof.
  intros Hne. unfold swap_remove. destruct (last l) as [y|] eqn:El.
  2: { apply last_None in El. congruence. }
  split.
  - rewrite length_take, length_insert. lia.
  - intros x Hx. apply list_elem_of_lookup in Hx as [j Hj].
    apply lookup_take_Some in Hj as [Hj _].
    destruct (decide (i = j)) as [->|Hij].
    + assert (j < length l)%nat.
      { apply lookup_lt_Some in Hj. by rewrite length_insert in Hj. }
      rewrite list_lookup_insert_eq in Hj by done. injection Hj as <-.
      rewrite last_lookup in El. by eapply list_elem_of_lookup_2.
    + rewrite list_lookup_insert_ne in Hj by done. by eapply list_elem_of_lookup_2.
Qed.

Lemma position_found (id : DeploymentId) (l : list RoutingContext) (c : RoutingContext) :
  c ∈ l -> ctx_deployment_id c = id -> is_Some (position id l).
Proof.
  intros Hin Hid. unfold position.
  destruct (list_find_elem_of (fun x => ctx_deployment_id x = id) l c Hin Hid) as [[i x] Hx].
  rewrite Hx. by eexists.
Qed.

(** What a successful selection hands out, and what it did to the counters. *)
Definition selected (now : Z) sn (resolved : string) (is_candidate : Deployment P -> bool)
    (ids : list DeploymentId) (w w' : World E) (lease : DeploymentLease P) : Prop :=
  let d := lease_deployment lease in
  (exists id, eligible sn resolved is_candidate ids id d /\ vetted now id d) /\
  release_on_drop lease = true /\ async_cleanup lease = true /\ slot_taken d w w'.

Lemma selected_from (now : Z) sn (resolved : string) (is_candidate : Deployment P -> bool)
    (ids : list DeploymentId) (w w1 w' : World E) (lease : DeploymentLease P) :
  quiet w w1 ->
  selected now sn resolved is_candidate ids w1 w' lease ->
  selected now sn resolved is_candidate ids w w' lease.
Proof. intros Hs (? & ? & ? & ?). split_and!; try done. by eapply slot_taken_from. Qed.

(** One iteration, with a candidate left. *)
Lemma reserve_loop_S sn (model_name resolved : string) (est : Deployment P -> Z) (fuel : nat)
    (contexts : list RoutingContext) w :
  contexts <> [] ->
  reserve_loop rng config (S fuel) sn model_name resolved est contexts w =
    let '(counters, selected) :=
      select_from_routing_contexts (rng (w_draws w)) (routing_strategy config)
        resolved contexts (w_round_robin w) in
    let w := set_round_robin counters w in
    match selected with
    | None => Some (w, Err (NoAvailableDeployment model_name))
    | Some selected_id =>
        match deployments sn !! selected_id with
        | None => reserve_loop rng config fuel sn model_name resolved est contexts w
        | Some d =>
            match try_reserve_deployment d resolved (est d) w with
            | (w, Ok hold) => Some (count_selection w, Ok (DeploymentLease_new d hold))
            | (w, Err _) =>
                match position selected_id contexts with
                | Some pos =>
                    reserve_loop rng config fuel sn model_name resolved est
                      (swap_remove pos contexts) w
                | None => Some (w, Err (NoAvailableDeployment model_name))
                end
            end
        end
    end.
Proof. by destruct contexts. Qed.

Lemma reserve_loop_spec sn (now : Z) (model_name resolved : string)
    (is_candidate : Deployment P -> bool)
    (est : Deployment P -> Z) (ids : list DeploymentId) (fuel : nat)
    (contexts : list RoutingContext) w :
  (forall k, rng_ok (rng k)) -> (length contexts <= fuel)%nat ->
  (forall ctx, ctx ∈ contexts ->
     exists d, eligible sn resolved is_candidate ids (ctx_deployment_id ctx) d /\
               vetted now (ctx_deployment_id ctx) d) ->
  exists w' r, reserve_loop rng config fuel sn model_name resolved est contexts w = Some (w', r) /\
    match r with
    | Ok lease => selected now sn resolved is_candidate ids w w' lease
    | Err e => e = NoAvailableDeployment model_name /\ quiet w w'
    end.
Proof.
  intros Hrng. revert contexts w. induction fuel as [|fuel IH]; intros contexts w Hlen Hel.
  { destruct contexts; [|simpl in Hlen; lia]. by do 2 eexists. }
  destruct (decide (contexts = [])) as [->|Hne]; [by do 2 eexists|].
  rewrite (reserve_loop_S _ _ _ _ _ _ _ Hne).
  destruct (select_elem (rng (w_draws w)) (routing_strategy config) resolved contexts
    (w_round_robin w) (Hrng _) Hne) as (c & Hsel & Hc).
  destruct (select_from_routing_contexts _ _ _ _ _) as [counters sel]. simpl in Hsel. subst sel.
  destruct (Hel c Hc) as (d & Hd). pose proof Hd as ((Hin & Hlook & Hm & Hcand) & Hv).
  cbv zeta. rewrite Hlook.
  pose proof (try_reserve_spec d resolved (est d) (set_round_robin counters w)) as Htry.
  destruct (try_reserve_deployment d resolved (est d) _) as [w1 [hold|e]].
  - do 2 eexists. split; [done|]. destruct Htry as [_ Ht]. split_and!; try done. by eexists.
  - destruct (position_found _ _ c Hc eq_refl) as [pos ->].
    destruct (swap_remove_spec pos contexts Hne) as [Hl Hsub].
    destruct (IH (swap_remove pos contexts) w1) as (w' & r & Hr & Hpost).
    + destruct contexts; [done|]. simpl in *. lia.
    + intros x Hx. apply Hel. by apply Hsub.
    + exists w', r. split; [done|]. destruct r as [lease|e']; [by eapply selected_from|].
      destruct Hpost as [-> Hl']. split; [done|]. by etrans.
Qed.

Lemma select_matching_spec sn (model_name : string) (is_candidate : Deployment P -> bool)
    (no_matching : option RouterError) (est : Deployment P -> Z) w :
  (forall k, rng_ok (rng k)) ->
  let resolved := resolve_model_name sn model_name in
  let ids := default [] (model_index sn !! resolved) in
  exists w' r,
    select_deployment_matching rng config sn model_name is_candidate no_matching est w
      = Some (w', r) /\
    match r with
    | Ok lease => selected (w_now w) sn resolved is_candidate ids w w' lease
    | Err e =>
        quiet w w' /\
        (e = RModelNotFound model_name /\ ids = [] \/
         ids <> [] /\
         (e = NoAvailableDeployment model_name \/
          no_matching = Some e /\
          (forall id d, ~ eligible sn resolved is_candidate ids id d) /\
          exists id d, id ∈ ids /\ deployments sn !! id = Some d /\ d_model_name d = resolved))
    end.
Proof.
  intros Hrng resolved ids. unfold select_deployment_matching. fold resolved. unfold ids.
  destruct (model_index sn !! resolved) as [[|i rest]|] eqn:Ei; cbn [default from_option].
  1, 3: do 2 eexists; split; [done|]; split; [done|]; by left.
  pose proof (collect_candidates_spec sn resolved is_candidate (w_now w) (i :: rest)
    (mkCandidates 0 0 []) w) as Hc.
  destruct (collect_candidates sn resolved is_candidate (w_now w) (i :: rest) _ w) as [w1 c].
  destruct Hc as (Ha & Hex & Hmat & Hctx). simpl in Hex, Hmat, Hctx.
  destruct (routing_contexts c) as [|c0 cs] eqn:Er.
  - do 2 eexists. split; [done|]. split; [done|]. right. split; [done|].
    destruct no_matching as [err|]; [|by left].
    destruct (Nat.ltb_spec 0 (existing_deployments c)); simpl; [|by left].
    destruct (Nat.eqb_spec (matching_deployments c) 0) as [Hz|]; [|by left].
    right. split_and!; [done| |].
    + apply matching_eligible. by rewrite <- Hmat.
    + apply served_exists. by rewrite <- Hex.
  - destruct (reserve_loop_spec sn (w_now w) model_name resolved is_candidate est (i :: rest)
      (length (c0 :: cs)) (c0 :: cs) w1 Hrng) as (w' & r & Hr & Hpost); [done| |].
    { intros ctx Hx. destruct (Hctx ctx Hx) as [Hn|?]; [set_solver|done]. }
    exists w', r. split; [exact Hr|]. destruct r as [lease|e]; [by eapply selected_from|].
    destruct Hpost as [-> Hl]. split; [by etrans|]. right. split; [done|]. by left.
Qed.
End SelectionLemmas.

(** * The compare-and-swap loop

    The requests racing for the slots of one deployment with a
    [max_parallel_requests] limit, at the granularity of the loop's atomic
    accesses: the first load, each compare-and-swap, which may also fail
    spuriously, and the release. *)
Module Slots.

Inductive thread := Idle | Trying (current : Z) | Holding.

Record state := mkState {
  counter : Z;                    (* active_requests, u32 *)
  threads : gmap N thread;
}.

Definition thread_of (s : state) (t : N) : thread := default Idle (threads s !! t).

Definition set_thread (t : N) (x : thread) (s : state) : state :=
  mkState (counter s) (<[t := x]> (threads s)).

Inductive step (limit : Z) : state -> state -> Prop :=
| step_load s t :
    thread_of s t = Idle -> step limit s (set_thread t (Trying (counter s)) s)
| step_full s t current :
    (* [current >= limit]: [break false] *)
    thread_of s t = Trying current -> limit <= current ->
    step limit s (set_thread t Idle s)
| step_swap s t current :
    (* the swap succeeds: [break true] *)
    thread_of s t = Trying current -> current < limit -> counter s = current ->
    step limit s (mkState (current + 1) (<[t := Holding]> (threads s)))
| step_retry s t current :
    (* the swap fails: [current = next] *)
    thread_of s t = Trying current -> current < limit ->
    step limit s (set_thread t (Trying (counter s)) s)
| step_release s t :
    thread_of s t = Holding ->
    step limit s (mkState (sat_sub (counter s) 1) (<[t := Idle]> (threads s))).

(** The specification: the same requests with an atomic [take_slot].  A refused
    request still has to learn of it. *)
Inductive phase := Outside | Refused | Inside.

Record spec := mkSpec {
  sp_state : SharedState;
  phases : gmap N phase;
}.

Definition phase_of (a : spec) (t : N) : phase := default Outside (phases a !! t).

Definition sp_active (a : spec) : Z := active_requests (inner (sp_state a)).

Definition release (s : SharedState) : SharedState :=
  upd_inner (fun i => set_active_requests (sat_sub (active_requests i) 1) i) s.

Inductive spec_step (limit : Z) : spec -> spec -> Prop :=
| spec_take a t s ok :
    phase_of a t = Outside -> take_slot (Some limit) (sp_state a) = (s, ok) ->
    spec_step limit a (mkSpec s (<[t := if ok then Inside else Refused]> (phases a)))
| spec_learn a t :
    phase_of a t = Refused -> spec_step limit a (mkSpec (sp_state a) (<[t := Outside]> (phases a)))
| spec_release a t :
    phase_of a t = Inside ->
    spec_step limit a (mkSpec (release (sp_state a)) (<[t := Outside]> (phases a))).

(** A request that holds a load at the limit has been refused. *)
Definition phase_of_thread (limit : Z) (x : thread) : phase :=
  match x with
  | Idle => Outside
  | Trying current => if limit <=? current then Refused else Outside
  | Holding => Inside
  end.

Definition simulates (limit : Z) (s : state) (a : spec) : Prop :=
  sp_active a = counter s /\ forall t, phase_of a t = phase_of_thread limit (thread_of s t).

Definition holds_slot (x : thread) : Z := match x with Holding => 1 | _ => 0 end.

Definition held (s : state) : Z := sum_map holds_slot (threads s).

Record inv (limit : Z) (s : state) : Prop := {
  inv_counter : counter s = held s;
  inv_limit : counter s <= limit;
}.

Lemma holds_slot_nonneg (m : gmap N thread) : map_Forall (fun _ x => 0 <= holds_slot x) m.
Proof. intros i x _. destruct x; simpl; lia. Qed.

Lemma held_set (s : state) (t : N) (x : thread) :
  sum_map holds_slot (<[t := x]> (threads s)) = held s - holds_slot (thread_of s t) + holds_slot x.
Proof.
  unfold held, thread_of. destruct (threads s !! t) as [y|] eqn:E.
  - by rewrite (sum_map_update _ _ t y x E).
  - rewrite sum_map_insert by done. simpl. lia.
Qed.

Lemma step_inv (limit : Z) (s s' : state) : inv limit s -> step limit s s' -> inv limit s'.
Proof.
  intros [Hc Hl] Hs. pose proof (sum_map_nonneg holds_slot _ (holds_slot_nonneg (threads s))).
  destruct Hs as [s t Ht|s t c Ht Hle|s t c Ht Hlt Heq|s t c Ht Hlt|s t Ht];
    constructor; unfold held; simpl; rewrite ?held_set, ?Ht; simpl; try lia.
  - unfold sat_sub. assert (1 <= held s); [|lia].
    unfold held. unfold thread_of in Ht. destruct (threads s !! t) as [y|] eqn:E; simpl in Ht;
      [|done]. subst y.
    pose proof (sum_map_ge holds_slot _ t Holding (holds_slot_nonneg _) E). done.
  - unfold sat_sub. fold (held s) in *. lia.
Qed.

Lemma thread_of_insert (n : Z) (m : gmap N thread) (t t' : N) (x : thread) (s : state) :
  m = threads s ->
  thread_of (mkState n (<[t := x]> m)) t' = if decide (t = t') then x else thread_of s t'.
Proof. intros ->. unfold thread_of. simpl. rewrite lookup_insert. by case_decide. Qed.

Lemma phase_of_insert (st : SharedState) (t t' : N) (x : phase) (a : spec) :
  phase_of (mkSpec st (<[t := x]> (phases a))) t' = if decide (t = t') then x else phase_of a t'.
Proof. unfold phase_of. simpl. rewrite lookup_insert. by case_decide. Qed.

(** Moving one thread on both sides keeps the simulation. *)
Lemma simulates_move (limit : Z) (s : state) (a : spec) (t : N) (x : thread) (n : Z)
    (st : SharedState) :
  simulates limit s a -> active_requests (inner st) = n ->
  simulates limit (mkState n (<[t := x]> (threads s)))
    (mkSpec st (<[t := phase_of_thread limit x]> (phases a))).
Proof.
  intros [_ Hp] Hn. split; [done|]. intros t'.
  rewrite (thread_of_insert _ _ _ _ _ s), phase_of_insert by done. by case_decide.
Qed.

(** Moving a thread on the side of the code only: the specification stutters. *)
Lemma simulates_stutter (limit : Z) (s : state) (a : spec) (t : N) (x : thread) :
  simulates limit s a -> phase_of_thread limit x = phase_of_thread limit (thread_of s t) ->
  simulates limit (set_thread t x s) a.
Proof.
  intros [Ha Hp] Hx. split; [done|]. intros t'. unfold set_thread.
  rewrite (thread_of_insert _ _ _ _ _ s), Hp by done. case_decide; [by subst|done].
Qed.

(** A load decides: at the limit it is the refusal, below it nothing yet. *)
Lemma simulates_load (limit : Z) (s : state) (a : spec) (t : N) :
  simulates limit s a -> phase_of_thread limit (thread_of s t) = Outside ->
  exists a', rtc (spec_step limit) a a' /\ simulates limit (set_thread t (Trying (counter s)) s) a'.
Proof.
  intros Hs Ht. destruct (Z.leb_spec limit (counter s)) as [Hfull|Hfree].
  - exists (mkSpec (sp_state a) (<[t := Refused]> (phases a))). split.
    + apply rtc_once. apply (spec_take limit a t (sp_state a) false); [by rewrite (proj2 Hs)|].
      unfold take_slot. fold (sp_active a). rewrite (proj1 Hs).
      by destruct (Z.leb_spec limit (counter s)); [|lia].
    + replace Refused with (phase_of_thread limit (Trying (counter s)))
        by (simpl; by destruct (Z.leb_spec limit (counter s)); [|lia]).
      apply simulates_move; [done|]. apply (proj1 Hs).
  - exists a. split; [apply rtc_refl|]. apply simulates_stutter; [done|]. rewrite Ht. simpl.
    by destruct (Z.leb_spec limit (counter s)); [lia|].
Qed.

Lemma simulates_step (limit : Z) (s s' : state) (a : spec) :
  simulates limit s a -> step limit s s' ->
  exists a', rtc (spec_step limit) a a' /\ simulates limit s' a'.
Proof.
  intros Hs Hstep. pose proof Hs as [Ha Hp].
  destruct Hstep as [s t Ht|s t c Ht Hle|s t c Ht Hlt Heq|s t c Ht Hlt|s t Ht];
    (assert (Hph : phase_of a t = phase_of_thread limit (thread_of s t)) by apply Hp);
    rewrite Ht in Hph; simpl in Hph.
  - apply simulates_load; [done|]. by rewrite Ht.
  - destruct (Z.leb_spec limit c); [|lia].
    exists (mkSpec (sp_state a) (<[t := phase_of_thread limit Idle]> (phases a))). split.
    + by apply rtc_once, spec_learn.
    + by apply simulates_move.
  - destruct (Z.leb_spec limit c); [lia|].
    exists (mkSpec (upd_inner (set_active_requests (c + 1)) (sp_state a))
              (<[t := phase_of_thread limit Holding]> (phases a))). split.
    + apply rtc_once. apply (spec_take limit a t _ true); [done|].
      unfold take_slot. fold (sp_active a). rewrite Ha, Heq.
      by destruct (Z.leb_spec limit c); [lia|].
    + by apply simulates_move.
  - apply simulates_load; [done|]. rewrite Ht. simpl. by destruct (Z.leb_spec limit c); [lia|].
  - exists (mkSpec (release (sp_state a)) (<[t := phase_of_thread limit Idle]> (phases a))). split.
    + by apply rtc_once, spec_release.
    + apply simulates_move; [done|]. simpl. fold (sp_active a). by rewrite Ha.
Qed.

Lemma simulates_steps (limit : Z) (s s' : state) (a : spec) :
  simulates limit s a -> rtc (step limit) s s' ->
  exists a', rtc (spec_step limit) a a' /\ simulates limit s' a'.
Proof.
  intros Hs Hr. revert a Hs. induction Hr as [s|s s1 s' Hst _ IH]; intros a Hs.
  - exists a. split; [apply rtc_refl|done].
  - destruct (simulates_step limit s s1 a Hs Hst) as (a1 & Hr1 & Hs1).
    destruct (IH a1 Hs1) as (a' & Hr2 & Hs2). exists a'. split; [by etrans|done].
Qed.

(** The compare-and-swap loop refines an atomic [take_slot].  Every
    interleaving of the loop's accesses is matched by a run in which each request
    takes its slot, or is refused one, in a single step on the deployment's
    state, and gives it back in another: at every moment the two agree on the
    active-request counter and on who holds a slot, and a request that is about
    to answer that the limit is reached was refused by [take_slot] at its last
    load. *)
Theorem loop_refines_take_slot (limit : Z) (ts : gmap N thread) (s : state) (st : SharedState)
    (Hidle : map_Forall (fun _ x => x = Idle) ts)
    (Hzero : active_requests (inner st) = 0)
    (Hreach : rtc (step limit) (mkState 0 ts) s) :
  exists a, rtc (spec_step limit) (mkSpec st ∅) a /\
    sp_active a = counter s /\
    (forall t, phase_of a t = Inside <-> thread_of s t = Holding) /\
    (forall t current, thread_of s t = Trying current -> limit <= current ->
       phase_of a t = Refused).
Proof.
  assert (H0 : simulates limit (mkState 0 ts) (mkSpec st ∅)).
  { split; [done|]. intros t. unfold phase_of, thread_of. simpl. rewrite lookup_empty.
    destruct (ts !! t) as [x|] eqn:E; [|done]. by rewrite (Hidle t x E). }
  destruct (simulates_steps limit _ _ _ H0 Hreach) as (a & Hr & Ha & Hp).
  exists a. split_and!; try done.
  - intros t. rewrite Hp. destruct (thread_of s t); simpl; [done| |done]. by case_match.
  - intros t c Ht Hle. rewrite Hp, Ht. simpl. by destruct (Z.leb_spec limit c); [|lia].
Qed.

Lemma loop_refines_take_slot_witness :
  let s1 := set_thread 1%N (Trying 0) (mkState 0 ∅) in
  let s2 := mkState 1 (<[1%N := Holding]> (threads s1)) in
  exists a, rtc (spec_step 1) (mkSpec (DeploymentState_new 0) ∅) a /\ sp_active a = 1 /\
    phase_of a 1%N = Inside.
Proof.
  intros s1 s2.
  assert (Hr : rtc (step 1) (mkState 0 ∅) s2).
  { eapply rtc_l; [apply (step_load 1 _ 1%N); reflexivity|].
    eapply rtc_l; [apply (step_swap 1 s1 1%N 0); (reflexivity || lia)|].
    apply rtc_refl. }
  destruct (loop_refines_take_slot 1 ∅ s2 (DeploymentState_new 0) (map_Forall_empty _)
    eq_refl Hr) as (a & Ha & Hc & Hp & _).
  exists a. split; [exact Ha|]. split; [exact Hc|]. apply Hp. reflexivity.
Defined.

(** C3: The concurrency limit of a deployment holds under every interleaving.
    However many requests race through the reservation loop, with stale loads,
    lost and spuriously failing compare-and-swaps and releases in between, the
    active-request counter always equals the number of requests that hold a
    slot, so a release never saturates, and never exceeds
    [max_parallel_requests]. *)
Theorem parallel_limit_respected (limit : Z) (ts : gmap N thread) (s : state)
    (Hlimit : 0 <= limit) (Hidle : map_Forall (fun _ x => x = Idle) ts)
    (Hreach : rtc (step limit) (mkState 0 ts) s) :
  counter s = sum_map holds_slot (threads s) /\ 0 <= counter s <= limit /\
  (forall t, thread_of s t = Holding -> 1 <= counter s).
Proof.
  assert (H0 : inv limit (mkState 0 ts)).
  { constructor; unfold held; simpl; [|done].
    clear - Hidle. induction ts as [|i x m Hi IH] using map_ind; [by rewrite sum_map_empty|].
    apply map_Forall_insert in Hidle as [-> Hm]; [|done].
    rewrite sum_map_insert by done. simpl. rewrite <- (IH Hm). lia. }
  pose proof (rtc_invariant (step limit) (inv limit) (step_inv limit) _ _ Hreach H0) as [Hc Hl].
  pose proof (sum_map_nonneg holds_slot _ (holds_slot_nonneg (threads s))) as Hn.
  unfold held in Hc. split_and!; try done; [lia|].
  intros t Ht. unfold thread_of in Ht. destruct (threads s !! t) as [y|] eqn:E; [|done].
  simpl in Ht. subst y. rewrite Hc.
  exact (sum_map_ge holds_slot _ t Holding (holds_slot_nonneg _) E).
Qed.

Lemma parallel_limit_respected_witness :
  exists s, rtc (step 1) (mkState 0 ∅) s /\ thread_of s 1%N = Holding /\
    thread_of s 2%N = Idle /\ counter s <= 1.
Proof.
  set (s1 := set_thread 1%N (Trying 0) (mkState 0 ∅)).
  set (s2 := set_thread 2%N (Trying 0) s1).
  set (s3 := mkState 1 (<[1%N := Holding]> (threads s2))).
  set (s4 := set_thread 2%N (Trying 1) s3).
  set (s5 := set_thread 2%N Idle s4).
  assert (Hr : rtc (step 1) (mkState 0 ∅) s5).
  { eapply rtc_l; [apply (step_load 1 _ 1%N); reflexivity|].
    eapply rtc_l; [apply (step_load 1 _ 2%N); reflexivity|].
    eapply rtc_l; [apply (step_swap 1 s2 1%N 0); (reflexivity || lia)|].
    eapply rtc_l; [apply (step_retry 1 s3 2%N 0); (reflexivity || lia)|].
    eapply rtc_l; [apply (step_full 1 s4 2%N 1); (reflexivity || lia)|].
    apply rtc_refl. }
  exists s5. split; [exact Hr|]. split; [reflexivity|]. split; [reflexivity|].
  destruct (parallel_limit_respected 1 ∅ s5 ltac:(lia) (map_Forall_empty _) Hr)
    as (_ & [_ H] & _). exact H.
Defined.
End Slots.

(** * Properties *)

(** C2: Selection is sound, total and accounts for one request.  For every
    lawful backend, routing strategy and outcome of the random draws, whatever
    other requests do to the counters meanwhile, a selection ends.  It returns a
    lease on a deployment of the snapshot that the index lists under the resolved
    model, that passes the caller's predicate, and that was selectable and below
    its parallel, request and token limits when it was examined; the request
    holds exactly one slot more, of that deployment, whose counter is within its
    limit with it, and the counters still account for every slot.  Or it
    returns an error and no slot: the model is unknown exactly when the index has
    no entry, and the caller's own error is reported only when the model is
    served but no deployment passes the predicate. *)
Theorem selection_sound {P M E : Type} `{LawfulBackends P E} (rng : nat -> nat -> Z -> Z)
    (config : RouterConfig) (sn : RoutingSnapshot P M) (model_name : string)
    (is_candidate : Deployment P -> bool) (no_matching : option RouterError)
    (est : Deployment P -> Z) (w : World E) (Hrng : forall k, rng_ok (rng k)) :
  let resolved := resolve_model_name sn model_name in
  let ids := default [] (model_index sn !! resolved) in
  exists w' r,
    select_deployment_matching rng config sn model_name is_candidate no_matching est w
      = Some (w', r) /\
    match r with
    | Ok lease => selected (w_now w) sn resolved is_candidate ids w w' lease
    | Err e =>
        quiet w w' /\
        (e = RModelNotFound model_name /\ ids = [] \/
         ids <> [] /\
         (e = NoAvailableDeployment model_name \/
          no_matching = Some e /\
          (forall id d, ~ eligible sn resolved is_candidate ids id d) /\
          exists id d, id ∈ ids /\ deployments sn !! id = Some d /\ d_model_name d = resolved))
    end.
Proof. by apply select_matching_spec. Qed.

Definition example_world : World unit :=
  mkWorld example_store ∅ 0 0 0 100 0 ∅ tt.

Definition example_snapshot : RoutingSnapshot string unit :=
  mkSnapshot 1 {["d1" := example_deployment "d1" "gpt-4"]} {["gpt-4" := ["d1"]]} ["gpt-4"]
    {["g" := "gpt-4"]} {["d1" := "openai"]} ∅.

Lemma example_rng_ok : forall k : nat, rng_ok ((fun _ _ _ => 0) k).
Proof. intros k j n Hn. lia. Qed.

Lemma selection_sound_witness :
  match @select_deployment_matching _ _ _ (InProcess RouterConfig_default)
          (fun _ _ _ => 0) RouterConfig_default example_snapshot "g" (fun _ => true) None
          (fun _ => 0) (set_cell 1 (upd_inner (set_health 1) (DeploymentState_new 100))
                          example_world) with
  | Some (w', Ok lease) =>
      d_id (lease_deployment lease) = "d1"%string /\ slots 1 w' = 1
  | _ => False
  end.
Proof.
  pose proof (@selection_sound _ _ _ (InProcess RouterConfig_default)
    (in_process_lawful _ _ RouterConfig_default) (fun _ _ _ => 0) RouterConfig_default
    example_snapshot "g" (fun _ => true) None (fun _ => 0)
    (set_cell 1 (upd_inner (set_health 1) (DeploymentState_new 100)) example_world)
    example_rng_ok) as (w' & r & Hs & Hr).
  rewrite Hs. destruct r as [lease|e].
  - destruct Hr as ((id & (Hin & Hd & _) & _) & _ & _ & (Ha & _) & _).
    assert (id = "d1"%string) as ->.
    { vm_compute in Hin. inversion Hin as [|? ? ? Hn]; subst; [done|inversion Hn]. }
    unfold example_snapshot in Hd. simpl in Hd. injection Hd as Hd.
    rewrite Ha, <- Hd. vm_compute. done.
  - vm_compute in Hs. discriminate.
Defined.
