(* ===== verification/Execution.v ===== *)
(** Request execution ([core/router/execute_impl.rs]): the retry loop of one
    model, the choice of the next candidate, the streaming variant, the
    single-shot variant and the loop over fallback models.

    The upstream call, the clock and the sleeping are an [ExecEnv]: each may
    change the world, which is what other requests do meanwhile.  The loops
    take fuel; a [run] says whether they finished, panicked - and in which
    world - or ran out of it.
    The second component of a finished loop is the history of upstream calls,
    in order, which the code does not keep. *)

From stdpp Require Import sets fin_sets.
From Stdlib Require Import Floats.SpecFloat.
From S2P Require Import Prelude ProviderErrors RouterTypes RetryPolicy Deployment Ledger.
From S2P Require Import CircuitScript Circuit Strategy Fallback Aliases Snapshot.
From S2P Require Import AdmissionScript Admission Selection.

Inductive run (E A : Type) := Done (value : A) | Panicked (at_world : World E) | OutOfFuel.
Arguments Done {E A} _. Arguments Panicked {E A} _. Arguments OutOfFuel {E A}.

(** [Result<(T, Option<u64>), (ProviderError, Option<Option<u64>>)>]. *)
Definition UpstreamResult (T : Type) : Type :=
  result (T * option Z) (ProviderError * option (option Z)).

Record ExecEnv (P E T : Type) := mkExecEnv {
  env_rng : nat -> nat -> Z -> Z;
  env_powf : spec_float -> spec_float -> spec_float;
  env_sample : World E -> spec_float;            (* [random_range(-1.0..=1.0)] *)
  env_elapsed : World E -> World E -> Z;         (* microseconds, [as u64] *)
  env_sleep : Z -> World E -> World E;
  env_upstream : Deployment P -> World E -> World E * UpstreamResult T;
}.
Arguments env_rng {P E T}. Arguments env_powf {P E T}. Arguments env_sample {P E T}.
Arguments env_elapsed {P E T}. Arguments env_sleep {P E T}. Arguments env_upstream {P E T}.

Section Lease.
Context {P E : Type} `{Backends P E}.
Implicit Types (w : World E) (lease : DeploymentLease P).

Definition set_hold (h : option AdmissionHold) lease : DeploymentLease P :=
  mkLease_ (lease_deployment lease) (release_on_drop lease) h (async_cleanup lease).

Definition preserve_admission_usage (actual_tokens : Z) lease : DeploymentLease P :=
  set_hold (hold_prepare_settlement actual_tokens <$> lease_hold lease) lease.

Definition preserve_admission_reservation (minimum_tokens : Z) lease : DeploymentLease P :=
  set_hold (hold_prepare_retention minimum_tokens <$> lease_hold lease) lease.

(** [DeploymentLease::record_success]; [None] is the exhausted generation. *)
Definition lease_record_success (tokens latency_us : Z) lease w
    : option (World E * DeploymentLease P) :=
  let l := shared_of (lease_deployment lease) in
  '(s, hold) ← record_success_with_admission (w_now w) (w_now w) tokens latency_us
                 (lease_hold lease) (get_cell l w);
  Some (set_cell l s w, set_hold hold lease).

Definition lease_record_interrupted_usage (tokens : Z) lease w
    : World E * DeploymentLease P :=
  let l := shared_of (lease_deployment lease) in
  let '(s, hold) := record_interrupted_usage_with_admission (w_now w) (w_now w) tokens
                      (lease_hold lease) (get_cell l w) in
  (set_cell l s w, set_hold hold lease).

(** [commit_admission_async], [retain_admission_async], [cancel_admission_async]:
    the hold is taken out of the lease and dropped after its completion. *)
Definition finish_admission (op : string) (tokens : Z) lease w
    : World E * DeploymentLease P :=
  match lease_hold lease with
  | Some hold =>
      let d := lease_deployment lease in
      let '(w, hold) := finish_on op tokens d hold w in
      (drop_on d hold w, set_hold None lease)
  | None => (w, lease)
  end.

(** The end of an attempt that failed upstream. *)
Definition finish_failed (completed_usage : option (option Z)) lease w : World E :=
  let '(w, lease) :=
    match completed_usage with
    | Some (Some tokens) => finish_admission "settle" tokens lease w
    | Some None => finish_admission "retain" 0 lease w
    | None => finish_admission "cancel" 0 lease w
    end in
  drop_lease lease w.

Definition observe_failed (completed_usage : option (option Z)) lease w
    : World E * DeploymentLease P :=
  match completed_usage with
  | Some tokens =>
      let lease := match tokens with
                   | Some tokens => preserve_admission_usage tokens lease
                   | None => preserve_admission_reservation 0 lease
                   end in
      lease_record_interrupted_usage (default 0 tokens) lease w
  | None => (w, lease)
  end.
End Lease.

Section Execution.
Context {P M E C T : Type} `{Backends P E} `{ProviderOps P C}.
Variable config : RouterConfig.
Variable env : ExecEnv P E T.

Implicit Types (w : World E) (d : Deployment P) (sn : RoutingSnapshot P M)
  (lease : DeploymentLease P) (excluded tried : gset string).

(** [record_execution_failure]. *)
Definition record_execution_failure d (r : CooldownReason) w : option (World E) :=
  let l := shared_of d in
  s ← record_local_failure config r (w_now w) (w_now w) (w_now w) (get_cell l w);
  Some (failure_circuit_on d r (set_cell l s w)).

(** * Choosing the next candidate *)

Definition select_candidate sn (model_name : string) (capability : option C)
    (estimated_tokens : Z) (is_candidate : Deployment P -> bool) w
    : option (World E * result (DeploymentLease P) RouterError) :=
  match capability with
  | Some capability =>
      select_for_capability (env_rng env) config sn model_name capability is_candidate
        (fun _ => estimated_tokens) w
  | None =>
      select_deployment_matching (env_rng env) config sn model_name is_candidate None
        (fun _ => 0) w
  end.

Definition candidate_allowed (prefer_untried : bool) excluded tried d : bool :=
  bool_decide (d_id d ∉ excluded) && (negb prefer_untried || bool_decide (d_id d ∉ tried)).

(** [UnsupportedCapability] or [NoAvailableDeployment]. *)
Definition is_unavailable (e : RouterError) : bool :=
  match e with UnsupportedCapability _ _ | NoAvailableDeployment _ => true | _ => false end.

(** The result carries [tried_deployments] as the code leaves it. *)
Definition select_retry_candidate sn (model_name : string) (capability : option C)
    (estimated_tokens : Z) excluded tried w
    : option (World E * gset string * result (DeploymentLease P) RouterError) :=
  '(w, r) ← select_candidate sn model_name capability estimated_tokens
              (candidate_allowed true excluded tried) w;
  match r with
  | Ok lease => Some (w, tried, Ok lease)
  | Err err =>
      if bool_decide (tried <> ∅) && is_unavailable err then
        '(w, r) ← select_candidate sn model_name capability estimated_tokens
                    (candidate_allowed false excluded tried) w;
        match r with
        | Ok lease => Some (w, ∅, Ok lease)
        | Err fallback_err => Some (w, tried, Err fallback_err)
        end
      else Some (w, tried, Err err)
  end.

(** * The retry loop of one model *)

(** [self.config.num_retries + 1] wraps. *)
Definition max_attempts_of (config : RouterConfig) : Z := wrap_u32 (num_retries config + 1).

(** [(value, deployment_id, model_used, attempts, latency_us)], or the error
    with the attempts. *)
Definition RetryResult : Type :=
  result (T * DeploymentId * string * Z * Z) (ProviderError * Z).

Definition unknown_error (capability : option C) : ProviderError :=
  Other (Lit "router")
    (match capability with
     | Some _ => "Unknown error during capability retry"
     | None => "Unknown error during retry"
     end).

(** The end of an attempt that succeeded upstream. *)
Definition finish_success (tokens_used : option Z) (latency_us : Z) lease w
    : option (World E) :=
  let lease := match tokens_used with
               | Some tokens => preserve_admission_usage tokens lease
               | None => preserve_admission_reservation 0 lease
               end in
  '(w, lease) ← lease_record_success (default 0 tokens_used) latency_us lease w;
  let w := success_circuit_on (lease_deployment lease) w in
  let '(w, lease) := match tokens_used with
                     | Some tokens => finish_admission "settle" tokens lease w
                     | None => finish_admission "retain" 0 lease w
                     end in
  Some (drop_lease lease w).

Definition sleep_for (delay : option Z) w : World E :=
  match delay with Some delay => env_sleep env delay w | None => w end.

(** The history of a run that called upstream on [id] first. *)
Definition log_call {R : Type} (id : DeploymentId)
    (r : run E (World E * list DeploymentId * R)) : run E (World E * list DeploymentId * R) :=
  match r with
  | Done (w, calls, res) => Done (w, id :: calls, res)
  | Panicked w => Panicked w
  | OutOfFuel => OutOfFuel
  end.

Section Loop.
Variable sn : RoutingSnapshot P M.
Variable model_name : string.
Variable capability : option C.
Variable estimated_tokens : Z.

Let max_attempts : Z := max_attempts_of config.

(** The parts of the loop's body take the rest of the loop as [again], a function
    of the attempt, the last error, the two sets and the world. *)
Section Body.
Variable again : Z -> option ProviderError -> gset string -> gset string -> World E ->
  run E (World E * list DeploymentId * RetryResult).

(** An iteration that found no candidate. *)
Definition no_candidate (router_err : RouterError) (att : Z) (last_error : option ProviderError)
    excluded tried w : run E (World E * list DeploymentId * RetryResult) :=
  let provider_err := router_error_to_provider_error router_err in
  let decision := decide config provider_err (unary att max_attempts) in
  let go_on :=
    if should_retry decision
    then again (att + 1) (Some provider_err) excluded tried (sleep_for (delay decision) w)
    else Done (w, [], Err (provider_err, att)) in
  match last_error with
  | Some err =>
      if is_unavailable router_err || bool_decide (excluded <> ∅)
      then Done (w, [], Err (err, att)) else go_on
  | None => go_on
  end.

(** The end of an iteration whose call failed. *)
Definition call_failed (err : ProviderError) (completed_usage : option (option Z))
    (lease : DeploymentLease P) (att : Z) excluded tried w
    : run E (World E * list DeploymentId * RetryResult) :=
  let d := lease_deployment lease in
  let '(w, lease) := observe_failed completed_usage lease w in
  match retryable_budget_scope err with
  | Some _ =>
      again att (Some err) ({[d_id d]} ∪ excluded) tried (finish_failed completed_usage lease w)
  | None =>
      let decision := decide_for_deployment (env_powf env) config (d_config d) err
                        (unary att max_attempts) (env_sample env w) in
      if should_retry decision then
        match record_execution_failure d ReasonConsecutiveFailures w with
        | Some w =>
            again (att + 1) (Some err) excluded ({[d_id d]} ∪ tried)
              (sleep_for (delay decision) (finish_failed completed_usage lease w))
        | None => Panicked w
        end
      else
        match record_execution_failure d (infer_cooldown_reason err) w with
        | Some w => Done (finish_failed completed_usage lease w, [], Err (err, att))
        | None => Panicked w
        end
  end.

(** An iteration with its lease; [start] is the world in which it began. *)
Definition call_selected (start : World E) (lease : DeploymentLease P) (att : Z) excluded tried w
    : run E (World E * list DeploymentId * RetryResult) :=
  let d := lease_deployment lease in
  let '(w, upstream) := env_upstream env d w in
  let latency_us := env_elapsed env start w in
  log_call (d_id d)
    match upstream with
    | Ok (value, tokens_used) =>
        match finish_success tokens_used latency_us lease w with
        | Some w => Done (w, [], Ok (value, d_id d, d_model d, att, latency_us))
        | None => Panicked w
        end
    | Err (err, completed_usage) => call_failed err completed_usage lease att excluded tried w
    end.
End Body.

(** [attempt += 1] cannot wrap: a retry is decided only below [max_attempts]. *)
Fixpoint execute_loop (fuel : nat) (att : Z) (last_error : option ProviderError)
    excluded tried w : run E (World E * list DeploymentId * RetryResult) :=
  if max_attempts <? att
  then Done (w, [], Err (default (unknown_error capability) last_error, max_attempts))
  else
    match fuel with
    | O => OutOfFuel
    | S fuel =>
        match select_retry_candidate sn model_name capability estimated_tokens excluded tried w
        with
        | None => OutOfFuel
        | Some (w', tried, Err router_err) =>
            no_candidate (execute_loop fuel) router_err att last_error excluded tried w'
        | Some (w', tried, Ok lease) =>
            call_selected (execute_loop fuel) w lease att excluded tried w'
        end
    end.

(** Every iteration either uses up an attempt or excludes a deployment. *)
Definition execute_fuel : nat :=
  (S (Z.to_nat max_attempts)
   + length (default [] (model_index sn !! resolve_model_name sn model_name)))%nat.

Definition execute_with_retry_inner w : run E (World E * list DeploymentId * RetryResult) :=
  execute_loop execute_fuel 1 None ∅ ∅ w.
End Loop.

(** ** The streaming variant

    [execute_stream_with_retry_inner] hands the lease over with the stream and
    remembers only the errors of upstream calls. *)

Definition StreamResult : Type := result (T * DeploymentLease P) ProviderError.

Section StreamLoop.
Variable sn : RoutingSnapshot P M.
Variable model_name : string.
Variable capability : C.
Variable estimated_tokens : Z.

Let max_attempts : Z := max_attempts_of config.

Section Body.
Variable again : Z -> option ProviderError -> gset string -> gset string -> World E ->
  run E (World E * list DeploymentId * StreamResult).

Definition stream_no_candidate (router_err : RouterError) (att : Z)
    (last_operation_error : option ProviderError) excluded tried w
    : run E (World E * list DeploymentId * StreamResult) :=
  let provider_err := router_error_to_provider_error router_err in
  let decision := decide config provider_err (stream_pre_output att max_attempts) in
  let go_on :=
    if should_retry decision
    then again (att + 1) last_operation_error excluded tried (sleep_for (delay decision) w)
    else Done (w, [], Err (default provider_err last_operation_error)) in
  match last_operation_error with
  | Some err => if is_unavailable router_err then Done (w, [], Err err) else go_on
  | None => go_on
  end.

Definition stream_failed (err : ProviderError) (lease : DeploymentLease P) (att : Z)
    excluded tried w : run E (World E * list DeploymentId * StreamResult) :=
  let d := lease_deployment lease in
  match retryable_budget_scope err with
  | Some _ =>
      again att (Some err) ({[d_id d]} ∪ excluded) tried (finish_failed None lease w)
  | None =>
      let decision := decide_for_deployment (env_powf env) config (d_config d) err
                        (stream_pre_output att max_attempts) (env_sample env w) in
      if should_retry decision then
        match record_execution_failure d ReasonConsecutiveFailures w with
        | Some w =>
            again (att + 1) (Some err) excluded ({[d_id d]} ∪ tried)
              (sleep_for (delay decision) (finish_failed None lease w))
        | None => Panicked w
        end
      else
        match record_execution_failure d (infer_cooldown_reason err) w with
        | Some w => Done (finish_failed None lease w, [], Err err)
        | None => Panicked w
        end
  end.

(** The operation of a stream reports no usage: its value is the stream. *)
Definition stream_selected (lease : DeploymentLease P) (att : Z) excluded tried w
    : run E (World E * list DeploymentId * StreamResult) :=
  let d := lease_deployment lease in
  let '(w, upstream) := env_upstream env d w in
  log_call (d_id d)
    match upstream with
    | Ok (stream, _) => Done (w, [], Ok (stream, lease))
    | Err (err, _) => stream_failed err lease att excluded tried w
    end.
End Body.

Fixpoint stream_loop (fuel : nat) (att : Z) (last_operation_error : option ProviderError)
    excluded tried w : run E (World E * list DeploymentId * StreamResult) :=
  if max_attempts <? att
  then Done (w, [], Err (default (Other (Lit "router") "Unknown error during streaming retry")
                           last_operation_error))
  else
    match fuel with
    | O => OutOfFuel
    | S fuel =>
        match select_retry_candidate sn model_name (Some capability) estimated_tokens
                excluded tried w with
        | None => OutOfFuel
        | Some (w, tried, Err router_err) =>
            stream_no_candidate (stream_loop fuel) router_err att last_operation_error
              excluded tried w
        | Some (w, tried, Ok lease) =>
            stream_selected (stream_loop fuel) lease att excluded tried w
        end
    end.

Definition execute_stream_with_retry_inner w
    : run E (World E * list DeploymentId * StreamResult) :=
  stream_loop (execute_fuel sn model_name) 1 None ∅ ∅ w.
End StreamLoop.

(** * Fallback models *)

Definition get_models_with_fallbacks_for_snapshot (fallback_config : FallbackConfig) sn
    (model_name : string) (t : FallbackType) : list string :=
  let resolved := resolve_model_name sn model_name in
  let fallbacks := get_fallbacks_for_type fallback_config resolved t in
  let fallbacks :=
    match fallbacks with
    | [] => if bool_decide (t = FGeneral) then []
            else get_fallbacks_for_type fallback_config resolved FGeneral
    | _ => fallbacks
    end in
  resolved :: fallbacks.

(** The models of [execute_with_selected_deployment_in_snapshot_typed]. *)
Definition models_to_try (fallback_config : FallbackConfig) sn (model_name : string)
    : list string :=
  take (1 + Z.to_nat (max_fallbacks config))
    (dedup [] (get_models_with_fallbacks_for_snapshot fallback_config sn model_name FGeneral)).

Fixpoint fallback_loop sn (capability : option C) (estimated_tokens : Z) (start : World E)
    (model_name : string) (models : list string) (is_fallback : bool) (total_attempts : Z)
    (last_error : option ProviderError) w
    : run E (World E * result (ExecutionResult T) ProviderError) :=
  match models with
  | [] => Done (w, Err (default (model_not_found (Lit "router") model_name) last_error))
  | model :: models =>
      let w := if is_fallback then count_fallback w else w in
      match execute_with_retry_inner sn model capability estimated_tokens w with
      | Done (w, _, Ok (value, id, model_used, attempts, _)) =>
          Done (w, Ok (build_execution_result value id (wrap_u32 (total_attempts + attempts))
                         model_used is_fallback (env_elapsed env start w)))
      | Done (w, _, Err (err, attempts)) =>
          fallback_loop sn capability estimated_tokens start model_name models true
            (wrap_u32 (total_attempts + attempts)) (Some err) w
      | Panicked w => Panicked w
      | OutOfFuel => OutOfFuel
      end
  end.

Definition execute_in_snapshot_typed (fallback_config : FallbackConfig) sn
    (model_name : string) (capability : option C) (estimated_tokens : Z) w
    : run E (World E * result (ExecutionResult T) ProviderError) :=
  fallback_loop sn capability estimated_tokens w model_name
    (models_to_try fallback_config sn model_name) false 0 None w.

(** [execute_with_selected_deployment]. *)
Definition execute_with_selected_deployment (debug_str : string -> string)
    (fallback_config : FallbackConfig) sn (model_name : string) w
    : run E (World E * result (ExecutionResult T) RouterError) :=
  match execute_in_snapshot_typed fallback_config sn model_name None 0 w with
  | Done (w, Ok r) => Done (w, Ok r)
  | Done (w, Err e) => Done (w, Err (provider_error_to_router_error debug_str e model_name))
  | Panicked w => Panicked w
  | OutOfFuel => OutOfFuel
  end.

(** [execute_once_with_selected_deployment]; its operation reports the usage. *)
Definition execute_once (debug_str : string -> string) sn (model_name : string) w
    : run E (World E * result (ExecutionResult T) RouterError) :=
  let start := w in
  match select_deployment_matching (env_rng env) config sn model_name (fun _ => true) None
          (fun _ => 0) w with
  | None => OutOfFuel
  | Some (w, Err e) => Done (w, Err e)
  | Some (w, Ok lease) =>
      let d := lease_deployment lease in
      let '(w, upstream) := env_upstream env d w in
      let latency_us := env_elapsed env start w in
      match upstream with
      | Ok (value, tokens_used) =>
          match finish_success (Some (default 0 tokens_used)) latency_us lease w with
          | Some w =>
              Done (w, Ok (build_execution_result value (d_id d) 1 (d_model d) false latency_us))
          | None => Panicked w
          end
      | Err (err, _) =>
          match record_execution_failure d (infer_cooldown_reason err) w with
          | Some w =>
              Done (finish_failed None lease w,
                    Err (provider_error_to_router_error debug_str err model_name))
          | None => Panicked w
          end
      end
  end.
End Execution.

(** * Lemmas *)

(** The slot a lease holds is the only thing an attempt takes and gives back. *)
Section Slots.
Context {P M E C T : Type} `{LawfulBackends P E} `{ProviderOps P C}.
Variable config : RouterConfig.
Variable env : ExecEnv P E T.

Implicit Types (w : World E) (d : Deployment P) (sn : RoutingSnapshot P M)
  (lease : DeploymentLease P) (excluded tried : gset string).

(** What the proofs rely on: proper draws, and other requests that account for
    their own slots while this one sleeps or waits for upstream. *)
Record env_ok : Prop := {
  ok_rng : forall k, rng_ok (env_rng env k);
  ok_sleep : forall t w, quiet w (env_sleep env t w);
  ok_upstream : forall d w, quiet w (fst (env_upstream env d w));
}.

Definition owns lease d : Prop := lease_deployment lease = d /\ release_on_drop lease = true.

(** The slot of [d] given back between two worlds. *)
Definition released d (w w' : World E) : Prop :=
  (forall l, slots l w' = slots l w - if base.decide (shared_of d = l) then 1 else 0) /\
  (slots (shared_of d) w = 1 -> counters_ok w -> counters_ok w').

Lemma released_from d (w w1 w' : World E) : quiet w w1 -> released d w1 w' -> released d w w'.
Proof.
  intros [Hs Hok] [Hr Hc]. split; [intros l; by rewrite Hr, Hs|].
  intros H1' H2'. apply Hc; [by rewrite Hs|by apply Hok].
Qed.

(** A slot taken from idle and given back leaves nothing behind. *)
Lemma takes_released d (w w1 w2 w' : World E) :
  idle w -> slot_taken d w w1 -> quiet w1 w2 -> released d w2 w' -> quiet w w'.
Proof.
  intros Hi ((Hs & Hok) & _) Hq Hr. apply (released_from d w1 w2 w' Hq) in Hr as [Hr Hc].
  split.
  - intros l. rewrite Hr, Hs. lia.
  - intros Hw. apply Hc; [|by apply Hok]. rewrite Hs, Hi, decide_True by done. done.
Qed.

Lemma record_success_active (now reset_now tokens latency : Z) (hold : option AdmissionHold)
    (s s' : SharedState) (hold' : option AdmissionHold) :
  record_success_with_admission now reset_now tokens latency hold s = Some (s', hold') ->
  active_requests (inner s') = active_requests (inner s).
Proof.
  unfold record_success_with_admission. intros Hr.
  destruct (bump_generation (fence s)) as [f|]; simpl in Hr; [|done].
  match type of Hr with context [with_current_minute now reset_now ?op ?st] =>
    pose proof (minute_gate_active now reset_now op st) as Hg;
    destruct (with_current_minute now reset_now op st) as [s1 h1] end.
  injection Hr as <- <-. simpl in *. rewrite Hg; [done|].
  intros x. unfold observe_usage, record_local_observation, record_observation.
  destruct hold as [[h|i]|]; simpl; [|done|done]. by destruct (completion h).
Qed.

Lemma record_interrupted_active (now reset_now tokens : Z) (hold : option AdmissionHold)
    (s : SharedState) :
  active_requests (inner (fst (record_interrupted_usage_with_admission now reset_now tokens
    hold s))) = active_requests (inner s).
Proof.
  apply minute_gate_active. intros x.
  unfold observe_usage, record_local_observation, record_observation.
  destruct hold as [[h|i]|]; simpl; [|done|done]. by destruct (completion h).
Qed.

Lemma record_local_failure_active (r : CooldownReason) (now reset_now cool_now : Z)
    (s s' : SharedState) :
  record_local_failure config r now reset_now cool_now s = Some s' ->
  active_requests (inner s') = active_requests (inner s).
Proof.
  unfold record_local_failure, record_local_failure_locked. intros Hr.
  destruct (bump_generation (fence s)) as [f|]; simpl in Hr; [|done].
  assert (Hf : active_requests (inner (fst (record_failure_with_minute_counters now reset_now
    (set_fence f s)))) = active_requests (inner s)).
  { unfold record_failure_with_minute_counters.
    match goal with |- context [with_current_minute now reset_now ?op ?st] =>
      pose proof (minute_gate_active now reset_now op st) as Hg;
      destruct (with_current_minute now reset_now op st) as [s1 m1] end.
    simpl in *. specialize (Hg ltac:(done)). repeat case_match; simpl; done. }
  destruct (record_failure_with_minute_counters now reset_now (set_fence f s)) as [s1 minute].
  simpl in Hf. destruct (should_cooldown _ _ _ _) as [cool|]; simpl in Hr; [|done].
  injection Hr as <-. destruct cool; simpl; [|done].
  unfold protect_local_cooldown, enter_cooldown. simpl. by case_decide.
Qed.

Lemma record_execution_failure_quiet d (r : CooldownReason) w w' :
  record_execution_failure config d r w = Some w' -> quiet w w'.
Proof.
  unfold record_execution_failure. intros Hr.
  destruct (record_local_failure _ _ _ _ _ _) as [s|] eqn:Es; simpl in Hr; [|done].
  injection Hr as <-. etrans; [|apply failure_quiet].
  apply quiet_set_cell. by apply record_local_failure_active in Es.
Qed.

(** A failure or success is recorded unless the fence generation is exhausted. *)
Lemma bump_panics (f : LocalCircuitFence) :
  bump_generation f = None -> u64_max <= fence_generation f.
Proof. unfold bump_generation, checked_add_u64. case_match; simpl; [done|]. bool_arith. lia. Qed.

Lemma record_execution_failure_panics d (r : CooldownReason) w :
  r <> ReasonHighFailureRate -> record_execution_failure config d r w = None ->
  exists l, u64_max <= fence_generation (fence (get_cell l w)).
Proof.
  intros Hhr. unfold record_execution_failure, record_local_failure, record_local_failure_locked.
  intros Hr. exists (shared_of d). apply bump_panics.
  destruct (bump_generation (fence (get_cell (shared_of d) w))) as [f|]; [|done].
  simpl in Hr. destruct (record_failure_with_minute_counters _ _ _) as [s1 minute].
  by destruct r.
Qed.

Lemma finish_admission_quiet (op : string) (n : Z) lease w d :
  owns lease d ->
  let '(w', lease') := finish_admission op n lease w in
  quiet w w' /\ owns lease' d /\ lease_hold lease' = None.
Proof.
  intros [Hd Hr]. unfold finish_admission. destruct (lease_hold lease) as [hold|] eqn:Eh.
  - pose proof (finish_quiet op n (lease_deployment lease) hold w) as Hf.
    destruct (finish_on _ _ _ _ _) as [w1 h1]. split_and!; try done.
    etrans; [exact Hf|apply drop_quiet].
  - by split_and!.
Qed.

Lemma drop_lease_released lease w d :
  owns lease d -> lease_hold lease = None -> released d w (drop_lease lease w).
Proof.
  intros [Hd Hr] Hh. unfold drop_lease. rewrite Hh, Hr, Hd.
  unfold release_selected_deployment, on_cell. simpl.
  set (w1 := set_cell (shared_of d) _ w). split; [intros l; rewrite slots_add|].
  - change (slots l w1) with (slots l w). case_decide; lia.
  - intros Hone Hok l. specialize (Hok l). unfold others in *. rewrite slots_add.
    change (slots l w1) with (slots l w).
    change (active l (add_slot (shared_of d) (-1) w1)) with (active l w1).
    unfold w1. rewrite active_set_cell. case_decide; [subst l|lia].
    simpl. unfold sat_sub. change (active_requests (inner (get_cell (shared_of d) w)))
      with (active (shared_of d) w). lia.
Qed.

Lemma finish_failed_released (completed : option (option Z)) lease w d :
  owns lease d -> released d w (finish_failed completed lease w).
Proof.
  intros Ho. unfold finish_failed.
  assert (Hfin : forall op n, released d w
    (let '(w, lease) := finish_admission op n lease w in drop_lease lease w)).
  { intros op n. pose proof (finish_admission_quiet op n lease w d Ho) as Hf.
    destruct (finish_admission op n lease w) as [w1 l1]. destruct Hf as (Hs & Ho1 & Hh).
    eapply released_from; [done|by apply drop_lease_released]. }
  destruct completed as [[n|]|]; apply Hfin.
Qed.

Lemma observe_failed_quiet (completed : option (option Z)) lease w d :
  owns lease d ->
  let '(w', lease') := observe_failed completed lease w in quiet w w' /\ owns lease' d.
Proof.
  intros [Hd Hr]. unfold observe_failed. destruct completed as [tokens|]; [|by split].
  set (lease1 := match tokens with Some t => _ | None => _ end).
  assert (Ho1 : owns lease1 d) by by destruct tokens.
  unfold lease_record_interrupted_usage.
  pose proof (record_interrupted_active (w_now w) (w_now w) (default 0 tokens)
    (lease_hold lease1) (get_cell (shared_of (lease_deployment lease1)) w)) as Ha.
  destruct (record_interrupted_usage_with_admission _ _ _ _ _) as [s h].
  split; [by apply quiet_set_cell|]. destruct Ho1. by split.
Qed.

Lemma finish_success_released (tokens : option Z) (latency : Z) lease w w' d :
  owns lease d -> finish_success tokens latency lease w = Some w' -> released d w w'.
Proof.
  intros Ho Hf. unfold finish_success in Hf.
  set (lease1 := match tokens with
                 | Some t => preserve_admission_usage t lease
                 | None => preserve_admission_reservation 0 lease
                 end) in Hf.
  assert (Ho1 : owns lease1 d) by (destruct Ho; by destruct tokens).
  clearbody lease1. unfold lease_record_success in Hf.
  destruct (record_success_with_admission _ _ _ _ _ _) as [[s h]|] eqn:Er; simpl in Hf; [|done].
  apply record_success_active in Er.
  set (lease2 := set_hold h lease1) in Hf.
  assert (Ho2 : owns lease2 d) by (destruct Ho1; by split).
  rewrite (proj1 Ho1) in Er, Hf. clearbody lease2.
  set (w2 := success_circuit_on _ _) in Hf.
  assert (Hw2 : quiet w w2).
  { etrans; [by apply quiet_set_cell|apply success_quiet]. }
  clearbody w2.
  assert (Hfin : forall op n,
    (let '(w, lease) := finish_admission op n lease2 w2 in Some (drop_lease lease w)) = Some w' ->
    released d w w').
  { intros op n. pose proof (finish_admission_quiet op n lease2 w2 d Ho2) as Hfa.
    destruct (finish_admission op n lease2 w2) as [w3 l3]. destruct Hfa as (Hs & Ho3 & Hh).
    intros [= <-]. eapply released_from; [by etrans|by apply drop_lease_released]. }
  destruct tokens; by eapply Hfin.
Qed.

Lemma finish_success_panics (tokens : option Z) (latency : Z) lease w :
  finish_success tokens latency lease w = None ->
  exists l, u64_max <= fence_generation (fence (get_cell l w)).
Proof.
  unfold finish_success, lease_record_success. intros Hf.
  set (lease1 := match tokens with
                 | Some t => preserve_admission_usage t lease
                 | None => preserve_admission_reservation 0 lease
                 end) in Hf.
  exists (shared_of (lease_deployment lease1)). apply bump_panics.
  unfold record_success_with_admission in Hf.
  destruct (bump_generation _) as [f|]; [|done]. simpl in Hf.
  destruct (with_current_minute _ _ _ _) as [s1 h1]. simpl in Hf.
  destruct tokens; destruct (finish_admission _ _ _ _); done.
Qed.

(** ** One selection *)

Definition candidates sn (model_name : string) : list (Deployment P) :=
  omap (fun id => deployments sn !! id)
    (default [] (model_index sn !! resolve_model_name sn model_name)).

Lemma select_candidate_spec sn (model_name : string) (capability : option C) (est : Z)
    (allowed : Deployment P -> bool) w :
  env_ok ->
  exists w' r, select_candidate config env sn model_name capability est allowed w = Some (w', r) /\
    match r with
    | Ok lease => exists d, owns lease d /\ d ∈ candidates sn model_name /\ allowed d = true /\
                            slot_taken d w w'
    | Err e => quiet w w'
    end.
Proof.
  intros [Hrng _ _]. unfold select_candidate, candidates.
  assert (Hgen : forall is_candidate no_matching estf,
    (forall d, is_candidate d = true -> allowed d = true) ->
    exists w' r, select_deployment_matching (env_rng env) config sn model_name is_candidate
                   no_matching estf w = Some (w', r) /\
      match r with
      | Ok lease => exists d, owns lease d /\
          d ∈ omap (fun id => deployments sn !! id)
                (default [] (model_index sn !! resolve_model_name sn model_name)) /\
          allowed d = true /\ slot_taken d w w'
      | Err e => quiet w w'
      end).
  { intros is_candidate no_matching estf Himp.
    destruct (select_matching_spec (env_rng env) config sn model_name is_candidate no_matching
      estf w Hrng) as (w' & r & Hs & Hr). exists w', r. split; [done|].
    destruct r as [lease|e].
    - destruct Hr as ((id & (Hin & Hd & _ & Hc) & _) & Hrel & _ & Ht).
      exists (lease_deployment lease). split_and!; try done; [|by apply Himp].
      apply list_elem_of_omap. by exists id.
    - destruct Hr as [Hr _]. done. }
  destruct capability as [c|]; [|by apply Hgen].
  unfold select_for_capability. apply Hgen. intros d Hd.
  by apply andb_prop in Hd as [_ ?].
Qed.

Lemma candidate_allowed_spec (prefer : bool) excluded tried d :
  candidate_allowed prefer excluded tried d = true <->
  (d_id d ∉ excluded) /\ (prefer = true -> d_id d ∉ tried).
Proof.
  unfold candidate_allowed. rewrite andb_true_iff, orb_true_iff, !bool_decide_eq_true.
  destruct prefer; simpl; naive_solver.
Qed.

(** The next candidate is one the budget has not excluded, and an untried one
    unless none of those can be had. *)
Lemma select_retry_candidate_spec sn (model_name : string) (capability : option C) (est : Z)
    excluded tried w :
  env_ok ->
  exists w' tried' r,
    select_retry_candidate config env sn model_name capability est excluded tried w
      = Some (w', tried', r) /\
    match r with
    | Ok lease => exists d, owns lease d /\ d ∈ candidates sn model_name /\
        (d_id d ∉ excluded) /\ slot_taken d w w' /\
        (tried' = tried /\ (d_id d ∉ tried) \/ tried <> ∅ /\ tried' = ∅)
    | Err e => quiet w w' /\ tried' = tried
    end.
Proof.
  intros Henv. unfold select_retry_candidate.
  destruct (select_candidate_spec sn model_name capability est
    (candidate_allowed true excluded tried) w Henv) as (w1 & r & -> & Hr). simpl.
  destruct r as [lease|err].
  - destruct Hr as (d & Ho & Hin & Ha & Ht). apply candidate_allowed_spec in Ha as [He Hn].
    do 3 eexists. split; [done|]. exists d. split_and!; try done. left. split; [done|].
    by apply Hn.
  - case_bool_decide as Htr; simpl; [|do 3 eexists; split; [done|]; by split].
    destruct (is_unavailable err); [|do 3 eexists; split; [done|]; by split].
    destruct (select_candidate_spec sn model_name capability est
      (candidate_allowed false excluded tried) w1 Henv) as (w2 & r2 & -> & Hr2). simpl.
    destruct r2 as [lease|err2].
    + destruct Hr2 as (d & Ho & Hin & Ha & Ht). apply candidate_allowed_spec in Ha as [He _].
      do 3 eexists. split; [done|]. exists d. split_and!; try done; [|by right].
      by eapply slot_taken_from.
    + do 3 eexists. split; [done|]. split; [|done]. by etrans.
Qed.

(** ** The loop *)

Definition remaining sn (model_name : string) excluded : nat :=
  length (filter (fun d => d_id d ∉ excluded) (candidates sn model_name)).

Lemma remaining_exclude sn (model_name : string) excluded d :
  d ∈ candidates sn model_name -> d_id d ∉ excluded ->
  (remaining sn model_name ({[d_id d]} ∪ excluded) < remaining sn model_name excluded)%nat.
Proof.
  unfold remaining. intros Hin Hne.
  induction (candidates sn model_name) as [|x l IH]; [set_solver|].
  rewrite !filter_cons. apply elem_of_cons in Hin as [->|Hin].
  - rewrite decide_False by set_solver. rewrite decide_True by done. simpl.
    assert (length (filter (fun y => d_id y ∉ {[d_id x]} ∪ excluded) l) <=
            length (filter (fun y => d_id y ∉ excluded) l))%nat; [|lia].
    clear. induction l as [|y l IH]; [done|]. rewrite !filter_cons.
    repeat case_decide; simpl; try lia. set_solver.
  - specialize (IH Hin). repeat case_decide; simpl; try lia. set_solver.
Qed.

Lemma remaining_bound sn (model_name : string) excluded :
  (remaining sn model_name excluded <=
   length (default [] (model_index sn !! resolve_model_name sn model_name)))%nat.
Proof.
  unfold remaining, candidates. etrans; [apply length_filter|].
  generalize (default [] (model_index sn !! resolve_model_name sn model_name)) as ids.
  induction ids as [|id ids IH]; [done|]. csimpl. destruct (deployments sn !! id); simpl; lia.
Qed.

Lemma decision_retries (c : RetryContext) (e : ProviderError) (fb : unit -> Z) :
  should_retry (decide_with_fallback_delay e c fb) = true -> attempt c < max_attempts c.
Proof.
  intros Hd. destruct (decide_cases e c fb) as [[d Hr]|[r Hr]]; rewrite Hr in Hd; [|done].
  by apply decide_retry_iff in Hr as (? & _).
Qed.

(** ** What a run of a loop from attempt [att] guarantees

    [Q] is what it says of the final world, the calls and the result; the number
    of calls still possible is bounded by the attempts and deployments left. *)
Definition calls_left sn (model_name : string) (att : Z) excluded : nat :=
  (Z.to_nat (max_attempts_of config + 1 - att) + remaining sn model_name excluded)%nat.

Definition run_post {R : Type} sn (model_name : string) (att : Z) excluded
    (Q : World E -> list DeploymentId -> R -> Prop)
    (o : run E (World E * list DeploymentId * R)) : Prop :=
  match o with
  | OutOfFuel => False
  | Panicked w' => exists l, u64_max <= fence_generation (fence (get_cell l w'))
  | Done (w', calls, r) =>
      (length calls <= calls_left sn model_name att excluded)%nat /\
      Forall (fun id => (id ∉ excluded) /\ id ∈ map d_id (candidates sn model_name)) calls /\
      Q w' calls r
  end.

Lemma run_post_weaken {R : Type} sn (model_name : string) (att att' : Z)
    (excluded excluded' : gset string) (Q Q' : World E -> list DeploymentId -> R -> Prop) o :
  (calls_left sn model_name att' excluded' <= calls_left sn model_name att excluded)%nat ->
  excluded ⊆ excluded' -> (forall w calls r, Q' w calls r -> Q w calls r) ->
  run_post sn model_name att' excluded' Q' o -> run_post sn model_name att excluded Q o.
Proof.
  intros Hl He HQ. destruct o as [[[w1 calls] r]|w1|]; simpl; try done.
  intros (H1' & H2' & H3'). split_and!; [lia| |by apply HQ].
  apply (Forall_impl _ _ _ H2'). intros id [Hn Hc]. split; [set_solver|done].
Qed.

(** Prepending a call, which used up an attempt or excluded its deployment. *)
Lemma run_post_called {R : Type} sn (model_name : string) (att att' : Z)
    (excluded excluded' : gset string) (Q Q' : World E -> list DeploymentId -> R -> Prop) d o :
  d ∈ candidates sn model_name -> d_id d ∉ excluded ->
  (calls_left sn model_name att' excluded' < calls_left sn model_name att excluded)%nat ->
  excluded ⊆ excluded' -> (forall w calls r, Q' w calls r -> Q w (d_id d :: calls) r) ->
  run_post sn model_name att' excluded' Q' o ->
  run_post sn model_name att excluded Q (log_call (d_id d) o).
Proof.
  intros Hd Hn Hl He HQ. destruct o as [[[w1 calls] r]|w1|]; simpl; try done.
  intros (H1' & H2' & H3'). split_and!; [lia| |by apply HQ].
  constructor.
  - split; [done|]. by apply list_elem_of_In, in_map, list_elem_of_In.
  - apply (Forall_impl _ _ _ H2'). intros id [Hni Hc]. split; [set_solver|done].
Qed.

(** A run that ends without a call. *)
Lemma run_post_done {R : Type} sn (model_name : string) (att : Z) excluded
    (Q : World E -> list DeploymentId -> R -> Prop) w r :
  Q w [] r -> run_post sn model_name att excluded Q (Done (w, [], r)).
Proof. intros HQ. simpl. split_and!; [lia|by constructor|done]. Qed.

Lemma calls_left_pos sn (model_name : string) (att : Z) excluded :
  att <= max_attempts_of config -> (0 < calls_left sn model_name att excluded)%nat.
Proof. unfold calls_left. lia. Qed.

Lemma calls_left_attempt sn (model_name : string) (att : Z) excluded :
  att <= max_attempts_of config ->
  (calls_left sn model_name (att + 1) excluded < calls_left sn model_name att excluded)%nat.
Proof. unfold calls_left. lia. Qed.

Lemma calls_left_exclude sn (model_name : string) (att : Z) excluded d :
  d ∈ candidates sn model_name -> d_id d ∉ excluded ->
  (calls_left sn model_name att ({[d_id d]} ∪ excluded) < calls_left sn model_name att excluded)%nat.
Proof.
  intros Hd Hn. unfold calls_left. pose proof (remaining_exclude sn model_name excluded d Hd Hn). lia.
Qed.

(** A run that ends with its only call. *)
Lemma run_post_last {R : Type} sn (model_name : string) (att : Z) excluded
    (Q : World E -> list DeploymentId -> R -> Prop) d w r :
  d ∈ candidates sn model_name -> d_id d ∉ excluded -> att <= max_attempts_of config ->
  Q w [d_id d] r ->
  run_post sn model_name att excluded Q (log_call (d_id d) (Done (w, [], r))).
Proof.
  intros Hd Hn Ha HQ. pose proof (calls_left_pos sn model_name att excluded Ha).
  simpl. split_and!; [lia| |done]. constructor; [|constructor]. split; [done|].
  by apply list_elem_of_In, in_map, list_elem_of_In.
Qed.

Lemma sleep_quiet (Henv : env_ok) (o : option Z) w : quiet w (sleep_for env o w).
Proof. destruct o as [t|]; [by apply ok_sleep|done]. Qed.

(** The slot taken by a selection is given back by the end of the attempt. *)
Lemma attempt_closed lease d (w w1 w2 w3 : World E) (completed : option (option Z)) :
  idle w -> slot_taken d w w1 -> owns lease d -> quiet w1 w2 -> quiet w2 w3 ->
  quiet w (finish_failed completed lease w3).
Proof.
  intros Hf Ht Ho H12 H23.
  eapply takes_released; [done|done| |by apply finish_failed_released]. by etrans.
Qed.

(** ** The retry loop *)
Section LoopSpec.
Variable sn : RoutingSnapshot P M.
Variable model_name : string.
Hypothesis Henv : env_ok.

Definition retry_post (att : Z) w (w' : World E) (calls : list DeploymentId)
    (r : RetryResult (T := T)) : Prop :=
  quiet w w' /\
  match r with
  | Ok (_, id, model_used, n, _) =>
      att <= n <= max_attempts_of config /\ last calls = Some id /\
      exists d, d ∈ candidates sn model_name /\ d_id d = id /\ d_model d = model_used
  | Err (_, n) => n <= max_attempts_of config /\ (att <= max_attempts_of config -> att <= n)
  end.

Lemma retry_post_later (att att' : Z) (w w1 w' : World E) calls r :
  quiet w w1 -> att <= att' <= max_attempts_of config ->
  retry_post att' w1 w' calls r -> retry_post att w w' calls r.
Proof.
  intros Hs Ha [H1' H2']. split; [by etrans|].
  destruct r as [[[[[? ?] ?] n] ?]|[? n]]; [destruct H2' as (? & ? & ?); split_and!; try done|]; lia.
Qed.

Lemma retry_post_cons (att att' : Z) (w w1 w' : World E) id calls r :
  quiet w w1 -> att <= att' <= max_attempts_of config ->
  retry_post att' w1 w' calls r -> retry_post att w w' (id :: calls) r.
Proof.
  intros Hs Ha Hr. apply (retry_post_later att att' w w1 w' calls r Hs Ha) in Hr as [H1' H2'].
  split; [done|]. destruct r as [[[[[? ?] ?] n] ?]|[? n]]; [|done].
  destruct H2' as (? & Hl & ?). split_and!; try done; [lia|lia|]. by destruct calls.
Qed.

(** The rest of the loop, good for [left] more calls. *)
Definition again_ok (left : nat) (again : Z -> option ProviderError -> gset string ->
    gset string -> World E -> run E (World E * list DeploymentId * RetryResult (T := T))) : Prop :=
  forall att e excluded tried w, idle w -> 0 <= att ->
    (calls_left sn model_name att excluded <= left)%nat ->
    run_post sn model_name att excluded (retry_post att w) (again att e excluded tried w).

Lemma no_candidate_spec left again router_err (att : Z) e excluded tried (w w1 : World E) :
  again_ok left again -> idle w -> 0 <= att <= max_attempts_of config ->
  (calls_left sn model_name att excluded <= S left)%nat -> quiet w w1 ->
  run_post sn model_name att excluded (retry_post att w)
    (no_candidate config env again router_err att e excluded tried w1).
Proof.
  intros Hagain Hfit Hatt Hleft Hs. unfold no_candidate.
  assert (Hgive : forall e, run_post sn model_name att excluded (retry_post att w)
                              (Done (w1, [], Err (e, att)))).
  { intros e'. apply run_post_done. split; [done|]. lia. }
  set (go_on := if should_retry _ then _ else _).
  assert (Hgo : run_post sn model_name att excluded (retry_post att w) go_on).
  { unfold go_on. destruct (should_retry _) eqn:Esr; [|apply Hgive].
    unfold decide in Esr. apply decision_retries in Esr. simpl in Esr.
    set (w2 := sleep_for _ _ _).
    assert (Hw2 : quiet w w2) by (etrans; [done|by apply sleep_quiet]).
    pose proof (calls_left_attempt sn model_name att excluded (proj2 Hatt)).
    eapply (run_post_weaken _ _ att (att + 1) excluded excluded _ (retry_post (att + 1) w2));
      [lia|done| |apply Hagain; [by eapply idle_proper|lia|lia]].
    intros w' calls r. apply retry_post_later; [done|lia]. }
  destruct e as [err|]; [|exact Hgo].
  destruct (is_unavailable router_err || _); [apply Hgive|exact Hgo].
Qed.

Lemma call_failed_spec left again err completed lease d (att : Z) excluded tried
    (w w1 w2 : World E) :
  again_ok left again -> idle w -> 0 <= att <= max_attempts_of config ->
  (calls_left sn model_name att excluded <= S left)%nat ->
  d ∈ candidates sn model_name -> d_id d ∉ excluded ->
  slot_taken d w w1 -> owns lease d -> quiet w1 w2 ->
  run_post sn model_name att excluded (retry_post att w)
    (log_call (d_id d) (call_failed config env again err completed lease att excluded tried w2)).
Proof.
  intros Hagain Hfit Hatt Hleft Hin Hne Htk Ho H12. unfold call_failed. rewrite (proj1 Ho).
  pose proof (observe_failed_quiet completed lease w2 d Ho) as Hob.
  destruct (observe_failed completed lease w2) as [w3 lease']. destruct Hob as [H23 Ho'].
  assert (H13 : quiet w1 w3) by (by etrans).
  pose proof (fun w4 => attempt_closed lease' d w w1 w3 w4 completed Hfit Htk Ho' H13) as Hend.
  pose proof (calls_left_exclude sn model_name att excluded d Hin Hne).
  pose proof (calls_left_attempt sn model_name att excluded (proj2 Hatt)).
  destruct (retryable_budget_scope err).
  - eapply (run_post_called _ _ att att excluded ({[d_id d]} ∪ excluded)); try done;
      [set_solver| |apply Hagain; [|lia|lia]].
    + intros w' calls r. apply retry_post_cons; [by apply Hend|lia].
    + eapply idle_proper; [by apply Hend|done].
  - destruct (should_retry _) eqn:Esr.
    + unfold decide_for_deployment in Esr. apply decision_retries in Esr. simpl in Esr.
      destruct (record_execution_failure config d _ w3) as [w4|] eqn:Erf;
        [|by apply record_execution_failure_panics in Erf].
      apply record_execution_failure_quiet, Hend in Erf.
      set (w5 := sleep_for _ _ _).
      assert (Hw5 : quiet w w5) by (etrans; [done|by apply sleep_quiet]).
      eapply (run_post_called _ _ att (att + 1) excluded excluded); try done;
        [|apply Hagain; [by eapply idle_proper|lia|lia]].
      intros w' calls r. apply retry_post_cons; [done|lia].
    + destruct (record_execution_failure config d _ w3) as [w4|] eqn:Erf.
      * apply record_execution_failure_quiet, Hend in Erf.
        apply run_post_last; try done; [lia|]. split; [done|lia].
      * apply record_execution_failure_panics in Erf; [done|].
        unfold infer_cooldown_reason. by repeat case_match.
Qed.

Lemma call_selected_spec left again start lease d (att : Z) excluded tried (w w1 : World E) :
  again_ok left again -> idle w -> 0 <= att <= max_attempts_of config ->
  (calls_left sn model_name att excluded <= S left)%nat ->
  d ∈ candidates sn model_name -> d_id d ∉ excluded -> slot_taken d w w1 -> owns lease d ->
  run_post sn model_name att excluded (retry_post att w)
    (call_selected config env again start lease att excluded tried w1).
Proof.
  intros Hagain Hfit Hatt Hleft Hin Hne Htk Ho. unfold call_selected. rewrite (proj1 Ho).
  pose proof (ok_upstream Henv d w1) as Hu. destruct (env_upstream env d w1) as [w2 upstream].
  simpl in Hu. destruct upstream as [[value tokens]|[err completed]];
    [|by eapply call_failed_spec].
  destruct (finish_success tokens _ lease w2) as [w3|] eqn:Ef;
    [|by apply finish_success_panics in Ef].
  apply (finish_success_released _ _ _ _ _ d Ho) in Ef.
  apply run_post_last; try done; [lia|]. split; [by eapply takes_released|].
  split_and!; [lia|lia|done|by exists d].
Qed.

Lemma execute_loop_spec (capability : option C) (est : Z) (fuel : nat) :
  again_ok fuel (execute_loop config env sn model_name capability est fuel).
Proof.
  induction fuel as [|fuel IH]; intros att e excluded tried w Hfit Hatt Hfuel;
    cbn [execute_loop];
    (destruct (Z.ltb_spec (max_attempts_of config) att) as [Hlt|Hge];
      [apply run_post_done; split; [done|lia]|]).
  - pose proof (calls_left_pos sn model_name att excluded Hge). lia.
  - destruct (select_retry_candidate_spec sn model_name capability est excluded tried w Henv)
      as (w1 & tried' & [lease|router_err] & -> & Hr).
    + destruct Hr as (d & Ho & Hin & Hne & Htk & _). by eapply call_selected_spec.
    + destruct Hr as [Hw1 ->]. by eapply no_candidate_spec.
Qed.
End LoopSpec.

Lemma execute_fuel_enough sn (model_name : string) :
  (calls_left sn model_name 1 ∅ <= execute_fuel config sn model_name)%nat.
Proof. unfold calls_left, execute_fuel. pose proof (remaining_bound sn model_name ∅). lia. Qed.

Lemma inner_spec sn (model_name : string) (capability : option C) (est : Z) w :
  env_ok -> idle w ->
  run_post sn model_name 1 ∅ (retry_post sn model_name 1 w)
    (execute_with_retry_inner config env sn model_name capability est w).
Proof. intros Henv Hfit. apply execute_loop_spec; try done. apply execute_fuel_enough. Qed.

(** ** The streaming loop *)
Section StreamSpec.
Variable sn : RoutingSnapshot P M.
Variable model_name : string.
Hypothesis Henv : env_ok.

(** A stream keeps the slot its lease owns; an error gives every slot back. *)
Definition stream_post w (w' : World E) (calls : list DeploymentId)
    (r : StreamResult (P := P) (T := T)) : Prop :=
  match r with
  | Ok (_, lease) => exists d, owns lease d /\ d ∈ candidates sn model_name /\
      last calls = Some (d_id d) /\ slot_held d w w'
  | Err _ => quiet w w'
  end.

Lemma stream_post_later w w1 w' calls r :
  quiet w w1 -> stream_post w1 w' calls r -> stream_post w w' calls r.
Proof.
  intros Hs. destruct r as [[stream lease]|e]; simpl; [|by etrans].
  intros (d & Ho & Hd & Hl & Ht). exists d. split_and!; try done.
  by eapply slot_held_from.
Qed.

Lemma stream_post_cons w w1 w' id calls r :
  quiet w w1 -> stream_post w1 w' calls r -> stream_post w w' (id :: calls) r.
Proof.
  intros Hs Hr. apply (stream_post_later w w1 w' calls r Hs) in Hr.
  destruct r as [[stream lease]|e]; [|done]. destruct Hr as (d & Ho & Hd & Hl & Ht).
  exists d. split_and!; try done. by destruct calls.
Qed.

Definition stream_again_ok (left : nat) (again : Z -> option ProviderError -> gset string ->
    gset string -> World E -> run E (World E * list DeploymentId * StreamResult (P := P) (T := T)))
    : Prop :=
  forall att e excluded tried w, idle w -> 0 <= att ->
    (calls_left sn model_name att excluded <= left)%nat ->
    run_post sn model_name att excluded (stream_post w) (again att e excluded tried w).

Lemma stream_no_candidate_spec left again router_err (att : Z) e excluded tried (w w1 : World E) :
  stream_again_ok left again -> idle w -> 0 <= att <= max_attempts_of config ->
  (calls_left sn model_name att excluded <= S left)%nat -> quiet w w1 ->
  run_post sn model_name att excluded (stream_post w)
    (stream_no_candidate config env again router_err att e excluded tried w1).
Proof.
  intros Hagain Hfit Hatt Hleft Hs. unfold stream_no_candidate.
  set (go_on := if should_retry _ then _ else _).
  assert (Hgo : run_post sn model_name att excluded (stream_post w) go_on).
  { unfold go_on. destruct (should_retry _) eqn:Esr; [|by apply run_post_done].
    unfold decide in Esr. apply decision_retries in Esr. simpl in Esr.
    set (w2 := sleep_for _ _ _).
    assert (Hw2 : quiet w w2) by (etrans; [done|by apply sleep_quiet]).
    pose proof (calls_left_attempt sn model_name att excluded (proj2 Hatt)).
    eapply (run_post_weaken _ _ att (att + 1) excluded excluded _ (stream_post w2));
      [lia|done| |apply Hagain; [by eapply idle_proper|lia|lia]].
    intros w' calls r. by apply stream_post_later. }
  destruct e as [err|]; [|exact Hgo].
  destruct (is_unavailable router_err); [by apply run_post_done|exact Hgo].
Qed.

Lemma stream_failed_spec left again err lease d (att : Z) excluded tried (w w1 w2 : World E) :
  stream_again_ok left again -> idle w -> 0 <= att <= max_attempts_of config ->
  (calls_left sn model_name att excluded <= S left)%nat ->
  d ∈ candidates sn model_name -> d_id d ∉ excluded ->
  slot_taken d w w1 -> owns lease d -> quiet w1 w2 ->
  run_post sn model_name att excluded (stream_post w)
    (log_call (d_id d) (stream_failed config env again err lease att excluded tried w2)).
Proof.
  intros Hagain Hfit Hatt Hleft Hin Hne Htk Ho H12. unfold stream_failed. rewrite (proj1 Ho).
  pose proof (fun w3 => attempt_closed lease d w w1 w2 w3 None Hfit Htk Ho H12) as Hend.
  pose proof (calls_left_exclude sn model_name att excluded d Hin Hne).
  pose proof (calls_left_attempt sn model_name att excluded (proj2 Hatt)).
  destruct (retryable_budget_scope err).
  - eapply (run_post_called _ _ att att excluded ({[d_id d]} ∪ excluded)); try done;
      [set_solver| |apply Hagain; [|lia|lia]].
    + intros w' calls r. apply stream_post_cons. by apply Hend.
    + eapply idle_proper; [by apply Hend|done].
  - destruct (should_retry _) eqn:Esr.
    + unfold decide_for_deployment in Esr. apply decision_retries in Esr. simpl in Esr.
      destruct (record_execution_failure config d _ w2) as [w4|] eqn:Erf;
        [|by apply record_execution_failure_panics in Erf].
      apply record_execution_failure_quiet, Hend in Erf.
      set (w5 := sleep_for _ _ _).
      assert (Hw5 : quiet w w5) by (etrans; [done|by apply sleep_quiet]).
      eapply (run_post_called _ _ att (att + 1) excluded excluded); try done;
        [|apply Hagain; [by eapply idle_proper|lia|lia]].
      intros w' calls r. by apply stream_post_cons.
    + destruct (record_execution_failure config d _ w2) as [w4|] eqn:Erf.
      * apply record_execution_failure_quiet, Hend in Erf.
        apply run_post_last; try done. lia.
      * apply record_execution_failure_panics in Erf; [done|].
        unfold infer_cooldown_reason. by repeat case_match.
Qed.

Lemma stream_selected_spec left again lease d (att : Z) excluded tried (w w1 : World E) :
  stream_again_ok left again -> idle w -> 0 <= att <= max_attempts_of config ->
  (calls_left sn model_name att excluded <= S left)%nat ->
  d ∈ candidates sn model_name -> d_id d ∉ excluded -> slot_taken d w w1 -> owns lease d ->
  run_post sn model_name att excluded (stream_post w)
    (stream_selected config env again lease att excluded tried w1).
Proof.
  intros Hagain Hfit Hatt Hleft Hin Hne Htk Ho. unfold stream_selected. rewrite (proj1 Ho).
  pose proof (ok_upstream Henv d w1) as Hu. destruct (env_upstream env d w1) as [w2 upstream].
  simpl in Hu. destruct upstream as [[stream tokens]|[err completed]];
    [|by eapply stream_failed_spec].
  apply run_post_last; try done; [lia|]. exists d. split_and!; try done.
  destruct Htk as [Hh _]. by eapply slot_held_later.
Qed.

Lemma stream_loop_spec (capability : C) (est : Z) (fuel : nat) :
  stream_again_ok fuel (stream_loop config env sn model_name capability est fuel).
Proof.
  induction fuel as [|fuel IH]; intros att e excluded tried w Hfit Hatt Hfuel;
    cbn [stream_loop];
    (destruct (Z.ltb_spec (max_attempts_of config) att) as [Hlt|Hge];
      [by apply run_post_done|]).
  - pose proof (calls_left_pos sn model_name att excluded Hge). lia.
  - destruct (select_retry_candidate_spec sn model_name (Some capability) est excluded tried w
      Henv) as (w1 & tried' & [lease|router_err] & -> & Hr).
    + destruct Hr as (d & Ho & Hin & Hne & Htk & _). by eapply stream_selected_spec.
    + destruct Hr as [Hw1 ->]. by eapply stream_no_candidate_spec.
Qed.
End StreamSpec.

(** The loop over the models, from any model on. *)
Lemma fallback_loop_spec sn (capability : option C) (est : Z) (start : World E)
    (model_name : string) (models : list string) (is_fallback : bool) (total : Z)
    (last_error : option ProviderError) w :
  env_ok -> idle w ->
  match fallback_loop config env sn capability est start model_name models is_fallback total
          last_error w with
  | OutOfFuel => False
  | Panicked w' => exists l, u64_max <= fence_generation (fence (get_cell l w'))
  | Done (w', r) =>
      quiet w w' /\
      match r with
      | Ok res => exists model d, model ∈ models /\ d ∈ candidates sn model /\
          d_id d = exec_deployment_id res /\ d_model d = exec_model_used res /\
          (exec_used_fallback res = false -> is_fallback = false /\ head models = Some model)
      | Err _ => True
      end
  end.
Proof.
  intros Henv. revert is_fallback total last_error w.
  induction models as [|model models IH]; intros is_fallback total last_error w Hfit; simpl;
    [done|].
  set (w0 := if is_fallback then count_fallback w else w).
  assert (Hw0 : quiet w w0) by (by destruct is_fallback).
  assert (Hf0 : idle w0) by (by eapply idle_proper).
  pose proof (inner_spec sn model capability est w0 Henv Hf0) as Hin.
  destruct (execute_with_retry_inner config env sn model capability est w0)
    as [[[w1 calls] [[[[[v id] mu] n] lat]|[err n]]]|w1|]; simpl in Hin; [| |done|done].
  - destruct Hin as (_ & _ & Hs & _ & _ & d & Hd & Hid & Hm).
    split; [by etrans|]. exists model, d.
    split_and!; try done. by left.
  - destruct Hin as (_ & _ & Hs & _).
    assert (Hw1 : quiet w w1) by (by etrans).
    specialize (IH true (wrap_u32 (total + n)) (Some err) w1 (idle_proper _ _ Hw1 Hfit)).
    destruct (fallback_loop _ _ _ _ _ _ _ _ _ _ _ _) as [[w2 r]|w2|]; [|done|done].
    destruct IH as [Hw2 Hr]. split; [by etrans|].
    destruct r as [res|]; [|done]. destruct Hr as (m & d & H1' & H2' & H3' & H4' & H5').
    exists m, d. split_and!; try done; [by right|]. intros Hu. by destruct (H5' Hu).
Qed.
End Slots.

Lemma max_attempts_small (config : RouterConfig) :
  0 <= num_retries config < u32_max -> max_attempts_of config = num_retries config + 1.
Proof. intros Hr. apply wrap_u32_small. unfold fits_u32. lia. Qed.

Lemma calls_candidates {P M : Type} (sn : RoutingSnapshot P M) (model_name : string)
    (excluded : gset string) (calls : list DeploymentId) :
  Forall (fun id => (id ∉ excluded) /\ id ∈ map d_id (candidates sn model_name)) calls ->
  Forall (fun id => exists d, d ∈ candidates sn model_name /\ d_id d = id) calls.
Proof.
  intros Hc. apply (Forall_impl _ _ _ Hc). intros id (_ & Hin).
  apply list_elem_of_In, in_map_iff in Hin as (d & <- & Hin). exists d.
  split; [by apply list_elem_of_In|done].
Qed.

(** * Properties *)

Section Properties.
Context {P M E C T : Type} `{LawfulBackends P E} `{ProviderOps P C}.

(** C1: Executing a request terminates, is bounded and leaks no slot.  For every
    lawful backend, upstream behaviour, strategy and draw, the retry loop of a
    model ends.  It makes at most [num_retries + 1] upstream calls plus one for
    each deployment a budget refusal excludes, all of them to deployments the
    index lists for the model; it reports between one and [num_retries + 1]
    attempts, and a success names the deployment of the last call and its model.
    However it ends, the request holds no slot, and whatever the requests beside
    it did, the active-request counters still account for all of theirs.  It can
    only panic in a world where a deployment has exhausted its 2^64 generations. *)
Theorem execution_bounded (config : RouterConfig) (env : ExecEnv P E T)
    (sn : RoutingSnapshot P M) (model_name : string) (capability : option C) (est : Z)
    (w : World E)
    (Henv : env_ok env) (Hidle : idle w)
    (Hretries : 0 <= num_retries config < u32_max) :
  let deployments_of := default [] (model_index sn !! resolve_model_name sn model_name) in
  match execute_with_retry_inner config env sn model_name capability est w with
  | OutOfFuel => False
  | Panicked w' => exists l, u64_max <= fence_generation (fence (get_cell l w'))
  | Done (w', calls, r) =>
      quiet w w' /\
      Z.of_nat (length calls) <= num_retries config + 1 + Z.of_nat (length deployments_of) /\
      Forall (fun id => exists d, d ∈ candidates sn model_name /\ d_id d = id) calls /\
      match r with
      | Ok (_, id, model_used, n, _) =>
          1 <= n <= num_retries config + 1 /\ last calls = Some id /\
          exists d, d ∈ candidates sn model_name /\ d_id d = id /\ d_model d = model_used
      | Err (_, n) => 1 <= n <= num_retries config + 1
      end
  end.
Proof.
  intros deployments_of.
  pose proof (max_attempts_small config Hretries) as Hmax.
  pose proof (inner_spec config env sn model_name capability est w Henv Hidle) as Hp.
  pose proof (remaining_bound sn model_name ∅) as Hb. fold deployments_of in Hb.
  destruct (execute_with_retry_inner _ _ _ _ _ _ _) as [[[w' calls] r]|w'|]; simpl in Hp;
    [|done|done].
  unfold calls_left, retry_post in Hp. rewrite Hmax in Hp. destruct Hp as (Hl & Hc & Hs & Hr).
  split_and!; [done|lia|by eapply calls_candidates|].
  destruct r as [[[[[? ?] ?] n] ?]|[? n]]; [done|]. lia.
Qed.

(** A retry prefers a deployment that was not tried.  The next candidate is
    never one that a budget refusal excluded.  It is a deployment not tried since
    the last full round, unless the selection among those failed for lack of an
    available deployment, in which case the round is forgotten and any other
    allowed deployment may serve; an error leaves the round as it was and no
    slot taken. *)
Theorem retry_prefers_untried (config : RouterConfig) (env : ExecEnv P E T)
    (sn : RoutingSnapshot P M) (model_name : string) (capability : option C) (est : Z)
    (excluded tried : gset string) (w : World E) (Henv : env_ok env) :
  exists w' tried' r,
    select_retry_candidate config env sn model_name capability est excluded tried w
      = Some (w', tried', r) /\
    match r with
    | Ok lease =>
        let d := lease_deployment lease in
        d ∈ candidates sn model_name /\ (d_id d ∉ excluded) /\
        (tried' = tried /\ (d_id d ∉ tried) \/
         tried' = ∅ /\ tried <> ∅ /\ exists w1 e,
           select_candidate config env sn model_name capability est
             (candidate_allowed true excluded tried) w = Some (w1, Err e) /\
           is_unavailable e = true)
    | Err _ => tried' = tried /\ quiet w w'
    end.
Proof.
  destruct (select_retry_candidate_spec config env sn model_name capability est excluded tried w
    Henv) as (w' & tried' & r & Hs & Hr).
  exists w', tried', r. split; [done|]. destruct r as [lease|e]; [|by destruct Hr].
  destruct Hr as (d & [Hd _] & Hin & Hne & _ & Ht). cbv zeta. rewrite Hd.
  split_and!; try done. destruct Ht as [[-> Hn]|[Htr ->]]; [by left|].
  unfold select_retry_candidate in Hs.
  destruct (select_candidate config env sn model_name capability est
    (candidate_allowed true excluded tried) w) as [[w1 [l1|e1]]|] eqn:E1; simpl in Hs; try done.
  - injection Hs as _ He _. done.
  - destruct (bool_decide (tried <> ∅) && is_unavailable e1) eqn:Eb; [|done].
    apply andb_prop in Eb as [_ Eb]. right. split_and!; try done. by exists w1, e1.
Qed.

(** Opening a stream terminates, is bounded and hands over exactly one slot.
    The streaming loop makes at most [num_retries + 1] upstream calls plus one
    for each deployment a budget refusal excludes.  When a stream opens, the
    lease that comes with it is on the deployment of the last call and owns the
    one active-request slot the request holds; every slot of an earlier failed
    call was given back, and all of them were when no stream opens. *)
Theorem streaming_bounded (config : RouterConfig) (env : ExecEnv P E T)
    (sn : RoutingSnapshot P M) (model_name : string) (capability : C) (est : Z) (w : World E)
    (Henv : env_ok env) (Hidle : idle w)
    (Hretries : 0 <= num_retries config < u32_max) :
  match execute_stream_with_retry_inner config env sn model_name capability est w with
  | OutOfFuel => False
  | Panicked w' => exists l, u64_max <= fence_generation (fence (get_cell l w'))
  | Done (w', calls, r) =>
      Z.of_nat (length calls) <= num_retries config + 1
        + Z.of_nat (length (default [] (model_index sn !! resolve_model_name sn model_name))) /\
      Forall (fun id => exists d, d ∈ candidates sn model_name /\ d_id d = id) calls /\
      match r with
      | Ok (_, lease) =>
          let d := lease_deployment lease in
          release_on_drop lease = true /\ d ∈ candidates sn model_name /\
          last calls = Some (d_id d) /\ slot_held d w w'
      | Err _ => quiet w w'
      end
  end.
Proof.
  pose proof (max_attempts_small config Hretries) as Hmax.
  pose proof (stream_loop_spec config env sn model_name Henv capability est
    (execute_fuel config sn model_name) 1 None ∅ ∅ w Hidle ltac:(lia)
    (execute_fuel_enough config sn model_name)) as Hp.
  pose proof (remaining_bound sn model_name ∅) as Hb. unfold execute_stream_with_retry_inner.
  destruct (stream_loop _ _ _ _ _ _ _ _ _ _ _ _) as [[[w' calls] r]|w'|]; simpl in Hp;
    [|done|done].
  unfold calls_left in Hp. rewrite Hmax in Hp. destruct Hp as (Hl & Hc & Hr).
  split_and!; [lia|by eapply calls_candidates|].
  destruct r as [[stream lease]|e]; [|done].
  destruct Hr as (d & [<- Hrel] & Hd & Hlast & Hh). by split_and!.
Qed.

(** Fallback is bounded, ordered and accounted for.  The models tried are
    the requested one, resolved, first, then its configured general fallbacks in
    order, each model once and at most [max_fallbacks] fallbacks, so a fallback
    cycle cannot loop; the whole execution terminates and leaks no slot; and a
    success comes from a deployment of one of these models, reported as a
    fallback unless it came from the first. *)
Theorem fallbacks_bounded (config : RouterConfig) (env : ExecEnv P E T)
    (fallback_config : FallbackConfig) (sn : RoutingSnapshot P M) (model_name : string)
    (capability : option C) (est : Z) (w : World E)
    (Henv : env_ok env) (Hidle : idle w) (Hfallbacks : 0 <= max_fallbacks config) :
  let resolved := resolve_model_name sn model_name in
  let models := models_to_try config fallback_config sn model_name in
  NoDup models /\ head models = Some resolved /\
  Z.of_nat (length models) <= 1 + max_fallbacks config /\
  (forall m, m ∈ models -> m = resolved \/ m ∈ get_fallbacks_for_type fallback_config resolved FGeneral)
  /\
  match execute_in_snapshot_typed config env fallback_config sn model_name capability est w with
  | OutOfFuel => False
  | Panicked w' => exists l, u64_max <= fence_generation (fence (get_cell l w'))
  | Done (w', r) =>
      quiet w w' /\
      match r with
      | Ok res => exists model d, model ∈ models /\ d ∈ candidates sn model /\
          d_id d = exec_deployment_id res /\ d_model d = exec_model_used res /\
          (exec_used_fallback res = false -> model = resolved)
      | Err _ => True
      end
  end.
Proof.
  intros resolved models.
  assert (Hall : get_models_with_fallbacks_for_snapshot fallback_config sn model_name FGeneral
    = resolved :: get_fallbacks_for_type fallback_config resolved FGeneral).
  { unfold get_models_with_fallbacks_for_snapshot. fold resolved.
    by destruct (get_fallbacks_for_type fallback_config resolved FGeneral). }
  assert (Hhead : head models = Some resolved).
  { unfold models, models_to_try. rewrite Hall. done. }
  split_and!; [| done | | |].
  - unfold models, models_to_try. eapply sublist_NoDup; [apply NoDup_dedup|apply sublist_take].
  - unfold models, models_to_try. rewrite length_take. lia.
  - intros m Hm. unfold models, models_to_try in Hm. rewrite Hall in Hm.
    apply (subseteq_take _ _ m) in Hm. apply elem_of_dedup in Hm as [Hm _].
    apply elem_of_cons in Hm as [->|Hm]; [by left|by right].
  - pose proof (fallback_loop_spec config env sn capability est w model_name models false 0 None
      w Henv Hidle) as Hl.
    unfold execute_in_snapshot_typed. fold models.
    destruct (fallback_loop _ _ _ _ _ _ _ _ _ _ _ _) as [[w' r]|w'|]; [|done|done].
    destruct Hl as [Hs Hr]. split; [done|]. destruct r as [res|]; [|done].
    destruct Hr as (m & d & H1' & H2' & H3' & H4' & H5'). exists m, d.
    split_and!; try done. intros Hu. destruct (H5' Hu) as [_ Hh].
    rewrite Hhead in Hh. congruence.
Qed.
End Properties.

(** * Witnesses *)

Definition example_ops : ProviderOps string unit :=
  Build_ProviderOps _ _ (fun _ _ _ => true) (fun _ => false) (fun _ => "Chat").

Definition example_env (upstream : UpstreamResult Z) : ExecEnv string unit Z :=
  mkExecEnv _ _ _ (fun _ _ _ => 0) (fun x _ => x) (fun _ => S754_zero false) (fun _ _ => 7)
    (fun _ w => w) (fun _ w => (w, upstream)).

Definition healthy_world : World unit :=
  set_cell 1 (upd_inner (set_health 1) (DeploymentState_new 100)) example_world.

Lemma example_env_ok (u : UpstreamResult Z) : env_ok (example_env u).
Proof. split; [|done|done]. intros k j n Hn. simpl. lia. Qed.

Lemma healthy_idle : idle healthy_world.
Proof. intros l. reflexivity. Qed.

Lemma execution_bounded_witness :
  match @execute_with_retry_inner string unit unit unit Z (InProcess RouterConfig_default)
          example_ops RouterConfig_default (example_env (Ok (42, Some 5))) example_snapshot "g"
          None 0 healthy_world with
  | Done (w', calls, Ok (value, id, _, n, _)) =>
      slots 1 w' = 0 /\ calls = ["d1"] /\ value = 42 /\ 1 <= n <= 4
  | _ => False
  end.
Proof.
  pose proof (@execution_bounded string unit unit unit Z (InProcess RouterConfig_default)
    (in_process_lawful _ _ _) example_ops RouterConfig_default (example_env (Ok (42, Some 5)))
    example_snapshot "g" None 0 healthy_world (example_env_ok _) healthy_idle
    ltac:(vm_compute; split; congruence)) as Hp.
  destruct (@execute_with_retry_inner string unit unit unit Z (InProcess RouterConfig_default)
    example_ops RouterConfig_default (example_env (Ok (42, Some 5))) example_snapshot "g"
    None 0 healthy_world) as [[[w' calls] [[[[[v id] mu] n] lat]|[err n]]]|w'|] eqn:Eq;
    [|vm_compute in Eq; discriminate|vm_compute in Eq; discriminate|done].
  destruct Hp as ([Ha _] & _ & _ & Hn & _). rewrite Ha.
  assert (calls = ["d1"] /\ v = 42) as [-> ->].
  { vm_compute in Eq. injection Eq as _ <- <-. done. }
  split; [reflexivity|]. split; [reflexivity|]. split; [reflexivity|]. exact Hn.
Defined.

Lemma retry_prefers_untried_witness :
  match @select_retry_candidate string unit unit unit Z (InProcess RouterConfig_default)
          example_ops RouterConfig_default (example_env (Ok (42, None))) example_snapshot "g"
          None 0 ∅ {["d1"]} healthy_world with
  | Some (_, tried', Ok lease) => d_id (lease_deployment lease) = "d1"%string /\ tried' = ∅
  | _ => False
  end.
Proof.
  destruct (@retry_prefers_untried string unit unit unit Z (InProcess RouterConfig_default)
    (in_process_lawful _ _ _) example_ops RouterConfig_default (example_env (Ok (42, None)))
    example_snapshot "g" None 0 ∅ {["d1"]} healthy_world (example_env_ok _))
    as (w' & tried' & r & Hs & Hr).
  rewrite Hs. destruct r as [lease|e]; [|vm_compute in Hs; discriminate].
  destruct Hr as (Hin & _ & Hr).
  generalize dependent (lease_deployment lease). intros d Hin Hr.
  assert (Hd : d = example_deployment "d1" "gpt-4").
  { apply list_elem_of_In in Hin. vm_compute in Hin. destruct Hin as [<-|[]]. reflexivity. }
  subst d. split; [reflexivity|]. destruct Hr as [[_ Hn]|[-> _]]; [|reflexivity].
  exfalso. apply Hn. apply elem_of_singleton. reflexivity.
Defined.

Lemma fallbacks_bounded_witness :
  models_to_try RouterConfig_default
    (add_general "gpt-4" ["b"; "gpt-4"; "b"] FallbackConfig_new) example_snapshot "g"
    = ["gpt-4"; "b"] /\
  match @execute_in_snapshot_typed string unit unit unit Z (InProcess RouterConfig_default)
          example_ops RouterConfig_default (example_env (Ok (42, Some 5)))
          (add_general "gpt-4" ["b"; "gpt-4"; "b"] FallbackConfig_new) example_snapshot "g"
          None 0 healthy_world with
  | Done (w', Ok res) => slots 1 w' = 0 /\ exec_deployment_id res = "d1"%string
  | _ => False
  end.
Proof.
  split; [vm_compute; reflexivity|].
  pose proof (@fallbacks_bounded string unit unit unit Z (InProcess RouterConfig_default)
    (in_process_lawful _ _ _) example_ops RouterConfig_default (example_env (Ok (42, Some 5)))
    (add_general "gpt-4" ["b"; "gpt-4"; "b"] FallbackConfig_new) example_snapshot "g" None 0
    healthy_world (example_env_ok _) healthy_idle ltac:(vm_compute; congruence))
    as (_ & _ & _ & _ & Hp).
  destruct (@execute_in_snapshot_typed string unit unit unit Z (InProcess RouterConfig_default)
    example_ops RouterConfig_default (example_env (Ok (42, Some 5))) _ example_snapshot "g"
    None 0 healthy_world) as [[w' [res|err]]|w'|] eqn:Eq;
    [|vm_compute in Eq; discriminate|vm_compute in Eq; discriminate|done].
  destruct Hp as [[Ha _] _]. rewrite Ha. split; [reflexivity|].
  vm_compute in Eq. injection Eq as _ <-. reflexivity.
Defined.

Lemma streaming_bounded_witness :
  match @execute_stream_with_retry_inner string unit unit unit Z (InProcess RouterConfig_default)
          example_ops RouterConfig_default (example_env (Ok (42, None))) example_snapshot "g"
          tt 0 healthy_world with
  | Done (w', calls, Ok (stream, lease)) =>
      slots 1 w' = 1 /\ calls = ["d1"] /\ release_on_drop lease = true
  | _ => False
  end.
Proof.
  pose proof (@streaming_bounded string unit unit unit Z (InProcess RouterConfig_default)
    (in_process_lawful _ _ _) example_ops RouterConfig_default (example_env (Ok (42, None)))
    example_snapshot "g" tt 0 healthy_world (example_env_ok _) healthy_idle
    ltac:(vm_compute; split; congruence)) as Hp.
  destruct (@execute_stream_with_retry_inner string unit unit unit Z (InProcess RouterConfig_default)
    example_ops RouterConfig_default (example_env (Ok (42, None))) example_snapshot "g"
    tt 0 healthy_world) as [[[w' calls] [[stream lease]|err]]|w'|] eqn:Eq;
    [|vm_compute in Eq; discriminate|vm_compute in Eq; discriminate|done].
  destruct Hp as (_ & _ & Hrel & _ & _ & Ha & _). rewrite Ha.
  assert (calls = ["d1"] /\ lease_deployment lease = example_deployment "d1" "gpt-4") as [-> Hd].
  { vm_compute in Eq. injection Eq as _ <- <- <-. done. }
  split; [|by split]. rewrite Hd. reflexivity.
Defined.
