(* ===== verification/StreamCompletion.v ===== *)
(** Completion of streams handed to a caller
    ([core/router/stream_completion.rs]).

    A stream that was opened owns the lease of its deployment until it ends.
    [RuntimeStreamCompletion] watches its chunks and, at the end, records what
    happened: usage, provider health and the completion of the admission hold.
    The caller may drop the stream between two chunks, and may drop either
    finishing operation at the points where it suspends; [Await] names those
    points, and the [_cut] methods of [StreamBackends] are the backend calls that
    were dropped there.

    A chunk is modelled by the fields the completion reads. *)

From S2P Require Import Prelude ProviderErrors RouterTypes RetryPolicy Deployment Ledger.
From S2P Require Import Circuit Snapshot AdmissionScript Admission Selection Execution.

(** * Chunks *)

Record FunctionCallDelta := mkFunctionCallDelta {
  fc_name : option string;
  fc_arguments : option string;
}.

Record ToolCallDelta := mkToolCallDelta {
  tc_index : Z;                      (* u32 *)
  tc_id : option string;
  tc_type : option string;
  tc_function : option FunctionCallDelta;
}.

Record AudioDelta := mkAudioDelta {
  audio_data : option string;
  audio_transcript : option string;
}.

(** [ThinkingDelta] is read through its content. *)
Record ChatDelta := mkChatDelta {
  delta_content : option string;
  delta_thinking : option (option string);
  delta_tool_calls : option (list ToolCallDelta);
  delta_function_call : option FunctionCallDelta;
  delta_audio : option AudioDelta;
}.

Definition thinking_content (d : ChatDelta) : option string := mjoin (delta_thinking d).

Record ChatChunk := mkChatChunk {
  chunk_choices : list ChatDelta;    (* the delta of each choice *)
  chunk_usage : option Z;            (* [usage.total_tokens], u32 *)
}.

Definition nonempty (value : option string) : bool :=
  match value with Some v => negb (String.eqb v "") | None => false end.

Definition function_output (f : FunctionCallDelta) : bool :=
  nonempty (fc_name f) || nonempty (fc_arguments f).

Definition is_some_and {A} (f : A -> bool) (o : option A) : bool :=
  match o with Some x => f x | None => false end.

Definition chunk_has_output (chunk : ChatChunk) : bool :=
  existsb (fun delta =>
    nonempty (delta_content delta)
    || nonempty (thinking_content delta)
    || is_some_and function_output (delta_function_call delta)
    || is_some_and (existsb (fun call => is_some_and function_output (tc_function call)))
         (delta_tool_calls delta)
    || is_some_and (fun audio => nonempty (audio_data audio) || nonempty (audio_transcript audio))
         (delta_audio delta)) (chunk_choices chunk).

(** * The completion *)

Record RuntimeStreamCompletion (P : Type) := mkStreamCompletion {
  sc_lease : option (DeploymentLease P);
  sc_usage : option Z;                           (* u64 *)
  usage_covers_output : bool;
  output_observed : bool;
  terminal_failure : option CooldownReason;
  outcome_recorded : bool;
}.
Arguments mkStreamCompletion {P}. Arguments sc_lease {P}. Arguments sc_usage {P}.
Arguments usage_covers_output {P}. Arguments output_observed {P}.
Arguments terminal_failure {P}. Arguments outcome_recorded {P}.

(** The backend calls of a finishing operation, whole or dropped where they
    suspend. *)
Class StreamBackends (P E : Type) := {
  (** [record_failure_with_reason_for_deployment_async]; [None] is a panic *)
  failure_write_on : Deployment P -> CooldownReason -> World E -> option (World E);
  failure_write_cut : Deployment P -> World E -> World E;
  success_circuit_cut : Deployment P -> World E -> World E;
  finish_cut : string -> Z -> Deployment P -> AdmissionHold -> World E -> World E * AdmissionHold;
}.

Class LawfulStreamBackends (P E : Type) `{StreamBackends P E} : Prop := {
  failure_write_quiet d r w w' : failure_write_on d r w = Some w' -> quiet w w';
  failure_cut_quiet d w : quiet w (failure_write_cut d w);
  success_cut_quiet d w : quiet w (success_circuit_cut d w);
  finish_cut_quiet op n d h w : quiet w (fst (finish_cut op n d h w));
}.

(** Where a finishing operation is dropped. *)
Inductive Await := AtCircuit | AtAdmission.

Section Completion.
Context {P E : Type} `{Backends P E} `{StreamBackends P E}.
Variable config : RouterConfig.
Implicit Types (w : World E) (lease : DeploymentLease P) (c : RuntimeStreamCompletion P).

Definition stream_completion lease : RuntimeStreamCompletion P :=
  mkStreamCompletion (Some lease) None false false None false.

Definition set_lease (l : option (DeploymentLease P)) c : RuntimeStreamCompletion P :=
  mkStreamCompletion l (sc_usage c) (usage_covers_output c) (output_observed c)
    (terminal_failure c) (outcome_recorded c).

Definition mark_recorded c : RuntimeStreamCompletion P :=
  mkStreamCompletion (sc_lease c) (sc_usage c) (usage_covers_output c) (output_observed c)
    (terminal_failure c) true.

Definition set_terminal (reason : CooldownReason) c : RuntimeStreamCompletion P :=
  mkStreamCompletion (sc_lease c) (sc_usage c) (usage_covers_output c) (output_observed c)
    (Some reason) (outcome_recorded c).

Definition observe_output c : RuntimeStreamCompletion P :=
  mkStreamCompletion (preserve_admission_reservation (default 0 (sc_usage c)) <$> sc_lease c)
    (sc_usage c) false true (terminal_failure c) (outcome_recorded c).

Definition observe_usage (tokens : Z) c : RuntimeStreamCompletion P :=
  mkStreamCompletion (preserve_admission_usage tokens <$> sc_lease c)
    (Some tokens) true (output_observed c) (terminal_failure c) (outcome_recorded c).

Definition observe_chunk (chunk : ChatChunk) c : RuntimeStreamCompletion P :=
  let c := if chunk_has_output chunk then observe_output c else c in
  match chunk_usage chunk with
  | Some tokens => observe_usage tokens c
  | None => c
  end.

(** [Drop], followed by the drop of the lease. *)
Definition drop c w : option (World E) :=
  match sc_lease c with
  | None => Some w
  | Some lease =>
      '(w, lease) ←
        (if outcome_recorded c then Some (w, lease)
         else match terminal_failure c with
              | Some reason =>
                  let l := shared_of (lease_deployment lease) in
                  s ← record_local_failure config reason (w_now w) (w_now w) (w_now w)
                        (get_cell l w);
                  Some (set_cell l s w, lease)
              | None =>
                  match sc_usage c with
                  | Some tokens => Some (lease_record_interrupted_usage tokens lease w)
                  | None =>
                      if output_observed c
                      then Some (lease_record_interrupted_usage 0 lease w) else Some (w, lease)
                  end
              end);
      Some (drop_lease lease w)
  end.

(** A completion of the hold that is dropped where it suspends: the hold was
    taken out of the lease and is dropped with the future. *)
Definition finish_admission_cut (op : string) (tokens : Z) lease w
    : World E * DeploymentLease P :=
  match lease_hold lease with
  | Some hold =>
      let d := lease_deployment lease in
      let '(w, hold) := finish_cut op tokens d hold w in
      (drop_on d hold w, set_hold None lease)
  | None => (w, lease)
  end.

(** The end of both operations: [finish] is the completion of the hold. *)
Definition close (cut : option Await) (op : string) (tokens : Z) lease c w : option (World E) :=
  match cut with
  | None =>
      (* [self.lease.take()]: nothing is left for the drop of [self] *)
      let '(w, lease) := finish_admission op tokens lease w in
      Some (drop_lease lease w)
  | Some _ =>
      let '(w, lease) := finish_admission_cut op tokens lease w in
      drop (set_lease (Some lease) c) w
  end.

(** [finish_success]; the lease is live. *)
Definition finish_success (cut : option Await) (latency_us : Z) lease c w : option (World E) :=
  let tokens := default 0 (sc_usage c) in
  let lease := if usage_covers_output c then preserve_admission_usage tokens lease
               else preserve_admission_reservation tokens lease in
  '(w, lease) ← lease_record_success tokens latency_us lease w;
  let c := mark_recorded (set_lease (Some lease) c) in
  match cut with
  | Some AtCircuit => drop c (success_circuit_cut (lease_deployment lease) w)
  | _ =>
      let w := success_circuit_on (lease_deployment lease) w in
      close cut (if usage_covers_output c then "settle" else "retain") tokens lease c w
  end.

Definition failure_reason (error : ProviderError) : CooldownReason :=
  match infer_cooldown_reason error with
  | ReasonRateLimit => ReasonRateLimit
  | ReasonAuthError => ReasonAuthError
  | ReasonNotFound => ReasonNotFound
  | _ => ReasonConsecutiveFailures
  end.

(** [finish_failure]; the lease is live. *)
Definition finish_failure (cut : option Await) (error : ProviderError) lease c w
    : option (World E) :=
  let reason := failure_reason error in
  let c := set_terminal reason c in
  let '(w, lease) :=
    match sc_usage c with
    | Some tokens => lease_record_interrupted_usage tokens lease w
    | None => if output_observed c then lease_record_interrupted_usage 0 lease w else (w, lease)
    end in
  let c := set_lease (Some lease) c in
  match cut with
  | Some AtCircuit => drop c (failure_write_cut (lease_deployment lease) w)
  | _ =>
      w ← failure_write_on (lease_deployment lease) reason w;
      let c := mark_recorded c in
      let tokens := default 0 (sc_usage c) in
      if usage_covers_output c then close cut "settle" tokens lease c w
      else if output_observed c then close cut "retain" tokens lease c w
      else close cut "cancel" 0 lease c w
  end.

(** * A whole stream: what its caller saw, then how it ended *)

Inductive StreamEvent := Chunk (chunk : ChatChunk) | Output | Usage (tokens : Z).

Definition observe (e : StreamEvent) c : RuntimeStreamCompletion P :=
  match e with
  | Chunk chunk => observe_chunk chunk c
  | Output => observe_output c
  | Usage tokens => observe_usage tokens c
  end.

Inductive StreamEnd :=
| Succeeded (cut : option Await) (latency_us : Z)
| Failed (cut : option Await) (error : ProviderError)
| Dropped.

Definition end_stream (e : StreamEnd) c w : option (World E) :=
  match e, sc_lease c with
  | Succeeded cut latency, Some lease => finish_success cut latency lease c w
  | Failed cut error, Some lease => finish_failure cut error lease c w
  | _, _ => drop c w
  end.

Definition run_stream lease (events : list StreamEvent) (e : StreamEnd) w : option (World E) :=
  end_stream e (fold_left (fun c e => observe e c) events (stream_completion lease)) w.
End Completion.

(** ** The in-process backends *)

Section InProcess.
Context {P E : Type}.
Variable config : RouterConfig.
Implicit Types (w : World E) (d : Deployment P).

Definition local_failure_write d (r : CooldownReason) w : option (World E) :=
  let l := shared_of d in
  s ← complete_failure_write config r LocalWrite 0 (w_now w) (w_now w) (w_now w) (get_cell l w);
  Some (set_cell l s w).

(** Without shared state the awaits of the finishing operations are ready at once
    ([unified.rs], [stream_completion.rs]): a
    call cannot be dropped between them, so the cut functions have nothing to
    do. *)
Definition InProcessStream : StreamBackends P E :=
  Build_StreamBackends P E local_failure_write (fun _ w => w) (fun _ w => w)
    (fun _ _ _ h w => (w, h)).
End InProcess.

Lemma in_process_stream_lawful (P E : Type) (config : RouterConfig) :
  @LawfulStreamBackends P E (InProcessStream config).
Proof.
  split; simpl; try done. intros d r w w'. unfold local_failure_write. simpl. intros Hf.
  destruct (record_local_failure _ _ _ _ _ _) as [s|] eqn:Es; simpl in Hf; [|done].
  injection Hf as <-. apply quiet_set_cell. by apply record_local_failure_active in Es.
Qed.

(** * The slot *)

Section Slot.
Context {P E : Type} `{LawfulBackends P E} `{LawfulStreamBackends P E}.
Variable config : RouterConfig.
Implicit Types (w : World E) (lease : DeploymentLease P) (c : RuntimeStreamCompletion P)
  (d : Deployment P).

(** The completion still owns the slot of [d]. *)
Definition live d c : Prop := exists lease, sc_lease c = Some lease /\ owns lease d.

Lemma drop_owned lease w d : owns lease d -> released d w (drop_lease lease w).
Proof.
  intros [Hd Hr]. destruct (lease_hold lease) as [hold|] eqn:Eh.
  2: { by apply drop_lease_released. }
  unfold drop_lease. rewrite Eh, Hr, Hd. simpl.
  assert (Hrel : released d w (release_selected_deployment d w)).
  { pose proof (drop_lease_released (set_hold None lease) w d (conj Hd Hr) eq_refl) as Hrel.
    unfold drop_lease in Hrel. simpl in Hrel. by rewrite Hr, Hd in Hrel. }
  assert (Hlater : forall w1 w2, released d w w1 -> quiet w1 w2 -> released d w w2).
  { intros w1 w2 [Ha Hb] [Hc Hok]. split; [intros l; by rewrite Hc, Ha|auto]. }
  eapply Hlater; [exact Hrel|]. destruct (negb (async_cleanup lease)); [|apply drop_quiet].
  pose proof (finish_quiet "cancel" 0 d hold (release_selected_deployment d w)) as Hf.
  destruct (finish_on _ _ _ _ _) as [w1 h1]. etrans; [exact Hf|apply drop_quiet].
Qed.

Lemma interrupted_quiet (n : Z) lease w d :
  owns lease d ->
  let '(w', lease') := lease_record_interrupted_usage n lease w in quiet w w' /\ owns lease' d.
Proof.
  intros [Hd Hr]. unfold lease_record_interrupted_usage.
  pose proof (record_interrupted_active (w_now w) (w_now w) n (lease_hold lease)
    (get_cell (shared_of (lease_deployment lease)) w)) as Ha.
  destruct (record_interrupted_usage_with_admission _ _ _ _ _) as [s h].
  split; [by apply quiet_set_cell|by split].
Qed.

Lemma drop_released c w w' d : live d c -> drop config c w = Some w' -> released d w w'.
Proof.
  intros (lease & Hl & Ho). unfold drop. rewrite Hl. intros Hd.
  match type of Hd with (?r ≫= _) = _ => destruct r as [[w1 lease1]|] eqn:Eo end; simpl in Hd; [|done].
  injection Hd as <-.
  assert (Hq : quiet w w1 /\ owns lease1 d).
  { destruct (outcome_recorded c); [by injection Eo as <- <-|].
    destruct (terminal_failure c) as [r|].
    - destruct (record_local_failure _ _ _ _ _ _) as [s|] eqn:Es; simpl in Eo; [|done].
      injection Eo as <- <-. split; [|done]. apply quiet_set_cell.
      by apply record_local_failure_active in Es.
    - pose proof (fun n => interrupted_quiet n lease w d Ho) as Hi.
      destruct (sc_usage c) as [n|]; [|destruct (output_observed c)].
      + specialize (Hi n). injection Eo as Eo. by rewrite Eo in Hi.
      + specialize (Hi 0). injection Eo as Eo. by rewrite Eo in Hi.
      + by injection Eo as <- <-. }
  destruct Hq as [Hq Ho1]. eapply released_from; [exact Hq|by apply drop_owned].
Qed.

Lemma finish_admission_cut_quiet (op : string) (n : Z) lease w d :
  owns lease d ->
  let '(w', lease') := finish_admission_cut op n lease w in quiet w w' /\ owns lease' d.
Proof.
  intros [Hd Hr]. unfold finish_admission_cut. destruct (lease_hold lease) as [hold|]; [|by split].
  pose proof (finish_cut_quiet op n (lease_deployment lease) hold w) as Hf.
  destruct (finish_cut _ _ _ _ _) as [w1 h1]. split; [|by split].
  etrans; [exact Hf|apply drop_quiet].
Qed.

Lemma close_released (cut : option Await) (op : string) (n : Z) lease c w w' d :
  owns lease d -> close config cut op n lease c w = Some w' -> released d w w'.
Proof.
  intros Ho. unfold close. destruct cut.
  - pose proof (finish_admission_cut_quiet op n lease w d Ho) as Hf.
    destruct (finish_admission_cut op n lease w) as [w1 lease1]. destruct Hf as [Hq Ho1].
    intros Hd. eapply released_from; [exact Hq|]. eapply drop_released; [|exact Hd].
    by exists lease1.
  - pose proof (finish_admission_quiet op n lease w d Ho) as Hf.
    destruct (finish_admission op n lease w) as [w1 lease1]. destruct Hf as (Hq & Ho1 & _).
    intros [= <-]. eapply released_from; [exact Hq|by apply drop_owned].
Qed.

Lemma finish_success_closes (cut : option Await) (latency : Z) lease c w w' d :
  owns lease d -> finish_success config cut latency lease c w = Some w' -> released d w w'.
Proof.
  intros Ho. unfold finish_success. set (lease1 := if usage_covers_output c then _ else _).
  assert (Ho1 : owns lease1 d) by (destruct Ho; unfold lease1; by destruct (usage_covers_output c)).
  clearbody lease1. unfold lease_record_success.
  destruct (record_success_with_admission _ _ _ _ _ _) as [[s h]|] eqn:Er; simpl; [|done].
  apply record_success_active in Er. set (lease2 := set_hold h lease1).
  assert (Ho2 : owns lease2 d) by (destruct Ho1; by split).
  assert (Hq : quiet w (set_cell (shared_of (lease_deployment lease1)) s w))
    by by apply quiet_set_cell.
  set (w1 := set_cell _ s w) in *. clearbody w1.
  assert (Hcut : forall w2, drop config (mark_recorded (set_lease (Some lease2) c)) w2 = Some w' ->
    quiet w1 w2 -> released d w w').
  { intros w2 Hd Hq2. eapply released_from; [by etrans|]. eapply drop_released; [|exact Hd].
    by exists lease2. }
  assert (Hclose : forall cut op n, close config cut op n lease2
    (mark_recorded (set_lease (Some lease2) c)) (success_circuit_on (lease_deployment lease2) w1)
    = Some w' -> released d w w').
  { intros cut' op n Hc. apply (close_released _ _ _ _ _ _ _ d) in Hc; [|done].
    eapply released_from; [|exact Hc]. etrans; [exact Hq|apply success_quiet]. }
  destruct cut as [[]|]; [|apply Hclose|apply Hclose].
  intros Hd. eapply Hcut; [exact Hd|apply success_cut_quiet].
Qed.

Lemma finish_failure_closes (cut : option Await) (error : ProviderError) lease c w w' d :
  owns lease d -> finish_failure config cut error lease c w = Some w' -> released d w w'.
Proof.
  intros Ho. unfold finish_failure. set (c1 := set_terminal _ c).
  match goal with |- context [match sc_usage c1 with Some _ => _ | None => ?x end] =>
    set (obs := match sc_usage c1 with
                | Some tokens => lease_record_interrupted_usage tokens lease w
                | None => x end) end.
  assert (Hq : quiet w (fst obs) /\ owns (snd obs) d).
  { unfold obs. pose proof (fun n => interrupted_quiet n lease w d Ho) as Hi.
    destruct (sc_usage c1) as [n|]; [|destruct (output_observed c1)]; [| |by split].
    - specialize (Hi n). by destruct (lease_record_interrupted_usage n lease w).
    - specialize (Hi 0). by destruct (lease_record_interrupted_usage 0 lease w). }
  destruct obs as [w1 lease1]. simpl in Hq. destruct Hq as [Hq Ho1].
  set (c2 := set_lease (Some lease1) c1).
  assert (Hclose : forall w2 cut op n, quiet w1 w2 ->
    close config cut op n lease1 (mark_recorded c2) w2 = Some w' -> released d w w').
  { intros w2 cut' op n Hq2 Hc. apply (close_released _ _ _ _ _ _ _ d) in Hc; [|done].
    eapply released_from; [|exact Hc]. by etrans. }
  assert (Hrest : forall cut, (w2 ← failure_write_on (lease_deployment lease1) (failure_reason error) w1;
     if usage_covers_output (mark_recorded c2)
     then close config cut "settle" (default 0 (sc_usage (mark_recorded c2))) lease1 (mark_recorded c2) w2
     else if output_observed (mark_recorded c2)
     then close config cut "retain" (default 0 (sc_usage (mark_recorded c2))) lease1 (mark_recorded c2) w2
     else close config cut "cancel" 0 lease1 (mark_recorded c2) w2) = Some w' -> released d w w').
  { intros cut' Hr. destruct (failure_write_on _ _ w1) as [w2|] eqn:Ef; simpl in Hr; [|done].
    apply failure_write_quiet in Ef.
    destruct (usage_covers_output c); [|destruct (output_observed c)]; by eapply Hclose. }
  destruct cut as [[]|]; [|apply Hrest|apply Hrest].
  intros Hd. apply (drop_released _ _ _ d) in Hd; [|by exists lease1].
  eapply released_from; [|exact Hd]. etrans; [exact Hq|apply failure_cut_quiet].
Qed.

Lemma observe_live (e : StreamEvent) c d : live d c -> live d (observe e c).
Proof.
  assert (Hout : forall c, live d c -> live d (observe_output c)).
  { intros c1 (lease & Hl & Hd & Hr). unfold observe_output, live. simpl. rewrite Hl. simpl.
    eexists. split; [done|by split]. }
  assert (Huse : forall n c, live d c -> live d (observe_usage n c)).
  { intros n c1 (lease & Hl & Hd & Hr). unfold observe_usage, live. simpl. rewrite Hl. simpl.
    eexists. split; [done|by split]. }
  intros Hc. destruct e as [chunk| |n]; simpl; [|by apply Hout|by apply Huse].
  unfold observe_chunk. destruct (chunk_has_output chunk), (chunk_usage chunk); auto.
Qed.

Lemma observe_all_live (events : list StreamEvent) c d :
  live d c -> live d (fold_left (fun c e => observe e c) events c).
Proof. revert c. induction events as [|e events IH]; intros c Hc; [done|]. by apply IH, observe_live. Qed.
End Slot.

(** C18: However a stream ends - read to its end, failed, dropped between two
    chunks, or either finishing operation dropped where it suspends - and
    whatever was observed before, the slot its lease owned is given back, once,
    and no other slot is touched. *)
Theorem stream_slot_released {P E : Type} `{LawfulBackends P E} `{LawfulStreamBackends P E}
    (config : RouterConfig) (lease : DeploymentLease P) (d : Deployment P)
    (events : list StreamEvent) (e : StreamEnd) (w w' : World E)
    (Ho : owns lease d) (Hrun : run_stream config lease events e w = Some w') :
  released d w w'.
Proof.
  unfold run_stream in Hrun. set (c := fold_left _ events _) in Hrun.
  assert (Hl : live d c).
  { apply observe_all_live. by exists lease. }
  clearbody c. destruct Hl as (lease1 & Hl & Ho1). unfold end_stream in Hrun. rewrite Hl in Hrun.
  destruct e as [cut latency|cut error|].
  - by eapply finish_success_closes.
  - by eapply finish_failure_closes.
  - eapply drop_released; [|exact Hrun]. by exists lease1.
Qed.

(** * The accounts of a deployment

    What anyone reads from now on: the counters of the minute window that is
    current at [now], the token ledger and the active requests. *)

Record Account := mkAccount {
  ac_tpm : Z;
  ac_rpm : Z;
  ac_successes : Z;
  ac_failures : Z;
  ac_active : Z;          (* tokens reserved by running requests *)
  ac_retained : Z;        (* tokens of finished requests nobody observed *)
  ac_requests : Z;        (* active requests *)
}.

Definition raw_account (s : SharedState) : Account :=
  mkAccount (tpm_current (inner s)) (rpm_current (inner s)) (successes_this_minute (inner s))
    (fails_this_minute (inner s)) (active_estimate (ledger s)) (retained_unobserved (ledger s))
    (active_requests (inner s)).

Definition account (now : Z) (s : SharedState) : Account :=
  raw_account (roll_minute_window now now s).

(** What a stream leaves in the accounts. *)
Definition charge (tokens : Z) (a : Account) : Account :=
  mkAccount (fetch_add_u64 (ac_tpm a) tokens) (fetch_add_u64 (ac_rpm a) 1) (ac_successes a)
    (ac_failures a) (ac_active a) (ac_retained a) (ac_requests a).
Definition count_success (a : Account) : Account :=
  mkAccount (ac_tpm a) (ac_rpm a) (fetch_add_u64 (ac_successes a) 1) (ac_failures a)
    (ac_active a) (ac_retained a) (ac_requests a).
Definition count_failure (a : Account) : Account :=
  mkAccount (ac_tpm a) (ac_rpm a) (ac_successes a) (fetch_add_u32 (ac_failures a) 1)
    (ac_active a) (ac_retained a) (ac_requests a).
Definition unreserve (estimate : Z) (retain : option Z) (a : Account) : Account :=
  mkAccount (ac_tpm a) (ac_rpm a) (ac_successes a) (ac_failures a)
    (wrap_u64 (ac_active a - estimate))
    (match retain with Some n => sat_add_u64 (ac_retained a) n | None => ac_retained a end)
    (ac_requests a).
Definition free_slot (a : Account) : Account :=
  mkAccount (ac_tpm a) (ac_rpm a) (ac_successes a) (ac_failures a) (ac_active a)
    (ac_retained a) (sat_sub (ac_requests a) 1).

(** What the caller saw, one signal after the other. *)
Inductive Signal := SawOutput | SawUsage (tokens : Z).

Definition signals_of (e : StreamEvent) : list Signal :=
  match e with
  | Chunk chunk =>
      (if chunk_has_output chunk then [SawOutput] else [])
      ++ match chunk_usage chunk with Some tokens => [SawUsage tokens] | None => [] end
  | Output => [SawOutput]
  | Usage tokens => [SawUsage tokens]
  end.
Definition signals (events : list StreamEvent) : list Signal := mbind signals_of events.

Definition usage_of (x : Signal) : option Z :=
  match x with SawUsage tokens => Some tokens | SawOutput => None end.

(** The usage reported last, and whether nothing was produced after it. *)
Definition last_usage (sig : list Signal) : option Z := last (omap usage_of sig).
Definition settles (sig : list Signal) : bool :=
  match last sig with Some (SawUsage _) => true | _ => false end.

(** The reference: one charge when anything is known, one outcome, the estimate
    replaced by what was reported, or kept where the report does not cover the
    output. *)
Definition stream_account (e : StreamEnd) (sig : list Signal) (estimate : option Z)
    (a : Account) : Account :=
  let used := default 0 (last_usage sig) in
  let known := match e, sig with
               | Succeeded _ _, _ => true
               | _, [] => false
               | _, _ => true
               end in
  let a := if known then charge used a else a in
  let a := match e with
           | Succeeded _ _ => count_success a
           | Failed _ _ => count_failure a
           | Dropped => a
           end in
  let a := match estimate with
           | Some estimate =>
               unreserve estimate
                 (if known && negb (settles sig)
                  then Some (sat_sub (Z.max estimate used) used) else None) a
           | None => a
           end in
  free_slot a.

Lemma needs_roll_self (now : Z) : minute_window_needs_roll now now = false.
Proof. unfold minute_window_needs_roll. rewrite Z.ltb_irrefl, Z.sub_diag. done. Qed.

Lemma gate_rolled {T} (now : Z) (op : SharedState -> SharedState * T) (s : SharedState) :
  with_current_minute now now op s = op (roll_minute_window now now s).
Proof. unfold roll_minute_window, with_current_minute. by case_match. Qed.

(** A state whose window is current at [now] is what it will be read as. *)
Lemma account_current (now : Z) (s : SharedState) :
  minute_window_needs_roll now (minute_reset_at (inner s)) = false -> account now s = raw_account s.
Proof. intros Hc. unfold account, roll_minute_window, with_current_minute. by rewrite Hc. Qed.

Lemma rolled_current (now : Z) (s : SharedState) :
  minute_window_needs_roll now (minute_reset_at (inner (roll_minute_window now now s))) = false.
Proof.
  unfold roll_minute_window, with_current_minute, roll_exclusive.
  destruct (minute_window_needs_roll now (minute_reset_at (inner s))) eqn:E; simpl; [|done].
  apply needs_roll_self.
Qed.

Lemma account_rolled (now : Z) (s : SharedState) :
  account now (roll_minute_window now now s) = account now s.
Proof. by rewrite account_current by apply rolled_current. Qed.

(** Updates of what the window does not touch. *)
Lemma account_proper (now : Z) (s s' : SharedState) :
  minute_reset_at (inner s') = minute_reset_at (inner s) -> raw_account s' = raw_account s ->
  account now s' = account now s.
Proof.
  intros Hr Ha. unfold account, roll_minute_window, with_current_minute, roll_exclusive. rewrite Hr.
  case_match; [|done]. cbn [fst]. unfold raw_account, finish_minute_reset in *. simpl in *.
  by injection Ha as _ _ _ _ -> _ ->.
Qed.

(** What a completion does to the estimate it holds. *)
Definition completed (hold : option LocalAdmissionHold) (observed : Z) (a : Account) : Account :=
  match hold with
  | Some (mkHold est (Some c)) =>
      match c with
      | Retain minimum => unreserve est (Some (sat_sub (Z.max est minimum) observed)) a
      | _ => unreserve est None a
      end
  | _ => a
  end.

Definition done_hold (hold : option LocalAdmissionHold) : option LocalAdmissionHold :=
  set_completion None <$> hold.

Definition in_process (hold : option LocalAdmissionHold) : option AdmissionHold :=
  InProcessHold <$> hold.

Lemma interrupted_account (now tokens : Z) (hold : option LocalAdmissionHold) (s : SharedState) :
  let '(s', h) := record_interrupted_usage_with_admission now now tokens (in_process hold) s in
  account now s' = completed hold tokens (charge tokens (account now s)) /\
  h = in_process (done_hold hold) /\ fence s' = fence s.
Proof.
  unfold record_interrupted_usage_with_admission. rewrite gate_rolled.
  assert (Hf : fence (roll_minute_window now now s) = fence s).
  { unfold roll_minute_window, with_current_minute, roll_exclusive. repeat case_match; done. }
  pose proof (rolled_current now s) as Hc. unfold account at 2.
  set (r := roll_minute_window now now s) in *. clearbody r.
  destruct hold as [[est [c|]]|]; simpl; (split_and!; [|done|done]);
    rewrite account_current by done; try done. by destruct c.
Qed.

Lemma roll_fence (now : Z) (s : SharedState) :
  fence (roll_minute_window now now s) = fence s.
Proof. unfold roll_minute_window, with_current_minute, roll_exclusive. repeat case_match; done. Qed.

Lemma success_account (now tokens latency : Z) (hold : option LocalAdmissionHold)
    (s : SharedState) :
  fence_generation (fence s) < u64_max ->
  exists s', record_success_with_admission now now tokens latency (in_process hold) s
             = Some (s', in_process (done_hold hold)) /\
    account now s' = completed hold tokens (count_success (charge tokens (account now s))).
Proof.
  intros Hg. unfold record_success_with_admission, bump_generation, checked_add_u64.
  rewrite (proj2 (Z.leb_le _ _)) by lia. simpl. rewrite gate_rolled.
  set (s1 := upd_inner _ _).
  assert (Ha : account now s1 = account now s) by by apply account_proper.
  rewrite <- Ha. unfold account at 2. pose proof (rolled_current now s1) as Hc.
  set (r := roll_minute_window now now s1) in *. clearbody r.
  destruct hold as [[est [c|]]|]; simpl; (eexists; split; [done|]);
    rewrite account_current by done; try done. by destruct c.
Qed.

Lemma failure_account (config : RouterConfig) (reason : CooldownReason) (now : Z)
    (s : SharedState) :
  reason <> ReasonHighFailureRate -> fence_generation (fence s) < u64_max ->
  exists s', record_local_failure config reason now now now s = Some s' /\
    account now s' = count_failure (account now s).
Proof.
  intros Hr Hg. unfold record_local_failure, record_local_failure_locked, bump_generation,
    checked_add_u64. rewrite (proj2 (Z.leb_le _ _)) by lia. simpl.
  unfold record_failure_with_minute_counters. rewrite gate_rolled.
  match goal with |- context [roll_minute_window now now ?x] => set (s1 := x) end.
  assert (Ha : account now s1 = account now s) by by apply account_proper.
  rewrite <- Ha. unfold account at 2. pose proof (rolled_current now s1) as Hc.
  set (r := roll_minute_window now now s1) in *. clearbody r. simpl.
  set (r1 := upd_inner (fun i => set_fails_this_minute _ i) r).
  assert (Hr1 : raw_account r1 = count_failure (raw_account r) /\
                minute_reset_at (inner r1) = minute_reset_at (inner r)) by by split.
  set (r2 := upd_inner _ r1).
  set (r3 := match health_status r2 with Healthy | Unknown => _ | _ => r2 end).
  assert (Hr3 : raw_account r3 = count_failure (raw_account r) /\
                minute_reset_at (inner r3) = minute_reset_at (inner r)).
  { unfold r3. repeat case_match; done. }
  set (s4 := set_fence _ r3).
  assert (Hcool : exists b, should_cooldown config reason (observed_minute_counters r1) s4 = Some b).
  { destruct reason; try congruence; simpl; by eexists. }
  destruct Hcool as [b ->]. simpl. eexists. split; [done|].
  assert (Hr4 : forall x, raw_account (if b then protect_local_cooldown config x s4 else s4)
                = count_failure (raw_account r) /\
     minute_reset_at (inner (if b then protect_local_cooldown config x s4 else s4))
     = minute_reset_at (inner r)).
  { intros x. destruct b; [|exact Hr3]. unfold protect_local_cooldown, enter_cooldown.
    case_decide; exact Hr3. }
  destruct (Hr4 now) as [Hx Hy]. rewrite account_current; [done|]. by rewrite Hy.
Qed.

(** Completing a hold that is dropped after it, or dropping it alone. *)
Lemma finish_account (now : Z) (est : Z) (c : option Completion) (s : SharedState) :
  (forall m, c = Some (Retain m) -> False) ->
  account now (finish_prepared now now est c s)
  = completed (Some (mkHold est c)) 0 (account now s) /\
  fence (finish_prepared now now est c s) = fence s.
Proof.
  intros Hc. unfold finish_prepared. destruct c as [c|]; [|done].
  rewrite gate_rolled. unfold account at 2. pose proof (rolled_current now s) as Hr.
  rewrite <- (roll_fence now s). set (r := roll_minute_window now now s) in *. clearbody r.
  cbn [fst]. split; [|done]. rewrite account_current by done.
  destruct c as [| |m]; [done|done|]. by specialize (Hc m).
Qed.

Section Accounts.
Context {P E : Type}.
Variable config : RouterConfig.
Implicit Types (w : World E) (d : Deployment P).

Local Instance here : Backends P E := InProcess config.
Local Instance here_stream : StreamBackends P E := InProcessStream config.

(** From [w] to [w'] only the cell [l] changed, its account by [f]. *)
Definition moved (l : N) (f : Account -> Account) w (w' : World E) : Prop :=
  w_now w' = w_now w /\ (forall l', l' <> l -> get_cell l' w' = get_cell l' w) /\
  account (w_now w) (get_cell l w') = f (account (w_now w) (get_cell l w)).

Lemma moved_refl l w : moved l (fun a => a) w w.
Proof. done. Qed.

Lemma moved_trans l f g (w w1 w2 : World E) :
  moved l f w w1 -> moved l g w1 w2 -> moved l (fun a => g (f a)) w w2.
Proof.
  intros (Hn & Ho & Ha) (Hn' & Ho' & Ha'). split_and!; [by rewrite Hn'| |].
  - intros l' Hl. by rewrite Ho', Ho.
  - rewrite Hn in Ha'. by rewrite Ha', Ha.
Qed.

Lemma moved_set l f (s : SharedState) w :
  account (w_now w) s = f (account (w_now w) (get_cell l w)) -> moved l f w (set_cell l s w).
Proof.
  intros Hs. split_and!; [done| |].
  - intros l' Hl. by rewrite get_set_cell, decide_False.
  - by rewrite get_set_cell, decide_True.
Qed.

Lemma moved_slot l f n (w w' : World E) : moved l f w w' -> moved l f w (add_slot l n w').
Proof. done. Qed.

(** A hold that is completed, or will be cancelled. *)
Inductive plain : option LocalAdmissionHold -> Prop :=
| plain_none : plain None
| plain_done est : plain (Some (mkHold est None))
| plain_cancel est : plain (Some (mkHold est (Some Cancel))).

Lemma plain_done_hold hold : plain (done_hold hold).
Proof. destruct hold as [[est c]|]; constructor. Qed.

Lemma done_completed hold n a : completed (done_hold hold) n a = a.
Proof. by destruct hold as [[est c]|]. Qed.

Lemma drop_on_moved d hold w :
  plain hold ->
  match in_process hold with
  | Some h => moved (shared_of d) (completed hold 0) w (drop_on d h w)
  | None => True
  end.
Proof.
  intros Hp. destruct hold as [[est c]|]; [|done]. simpl. unfold local_drop, on_cell. simpl.
  apply moved_set. apply finish_account. inversion Hp; done.
Qed.

Lemma drop_lease_moved d hold w :
  plain hold ->
  moved (shared_of d) (fun a => completed hold 0 (free_slot a)) w
    (drop_lease (DeploymentLease_new d (in_process hold)) w).
Proof.
  intros Hp. unfold drop_lease. simpl.
  assert (Hr : moved (shared_of d) free_slot w (release_selected_deployment d w)).
  { unfold release_selected_deployment, on_cell. apply moved_slot, moved_set.
    unfold account, roll_minute_window, with_current_minute, roll_exclusive. simpl.
    case_match; done. }
  pose proof (drop_on_moved d hold (release_selected_deployment d w) Hp) as Hd.
  destruct hold as [h|]; simpl in *; [|exact Hr]. exact (moved_trans _ _ _ _ _ _ Hr Hd).
Qed.

Lemma moved_ext l f g w (w' : World E) : (forall a, f a = g a) -> moved l f w w' -> moved l g w w'.
Proof. intros Hfg (Hn & Ho & Ha). split_and!; [done..|]. by rewrite <- Hfg. Qed.

(** A pending cancellation is finished by a cancellation. *)
Definition cancels hold (op : string) : Prop :=
  forall est, hold = Some (mkHold est (Some Cancel)) -> op = "cancel".

Lemma finish_admission_moved (op : string) (n : Z) d hold w :
  plain hold -> cancels hold op ->
  let '(w', lease') := finish_admission op n (DeploymentLease_new d (in_process hold)) w in
  moved (shared_of d) (completed hold 0) w w' /\ lease' = DeploymentLease_new d None.
Proof.
  intros Hp Hop. unfold finish_admission. inversion Hp as [|est|est]; subst; [done|..];
    simpl; unfold local_finish, on_cell; simpl; (split; [|done]).
  - eapply (moved_trans _ (fun a => a) (fun a => a)); apply moved_set; done.
  - rewrite (Hop est eq_refl). eapply (moved_trans _ _ (fun a => a)); [|apply moved_set; done].
    apply moved_set. exact (proj1 (finish_account (w_now w) est (Some Cancel) _ ltac:(done))).
Qed.

Lemma finish_admission_cut_moved (op : string) (n : Z) d hold w :
  plain hold ->
  let '(w', lease') := finish_admission_cut op n (DeploymentLease_new d (in_process hold)) w in
  moved (shared_of d) (completed hold 0) w w' /\ lease' = DeploymentLease_new d None.
Proof.
  intros Hp. unfold finish_admission_cut. pose proof (drop_on_moved d hold w Hp) as Hd.
  destruct hold as [h|]; [|done]. simpl in *. by split.
Qed.

Lemma close_moved (cut : option Await) (op : string) (n : Z) d hold
    (c : RuntimeStreamCompletion P) w :
  plain hold -> cancels hold op -> outcome_recorded c = true ->
  exists w', close config cut op n (DeploymentLease_new d (in_process hold)) c w = Some w' /\
    moved (shared_of d) (fun a => free_slot (completed hold 0 a)) w w'.
Proof.
  intros Hp Hop Hrec. unfold close. destruct cut as [x|].
  - pose proof (finish_admission_cut_moved op n d hold w Hp) as Hf.
    destruct (finish_admission_cut _ _ _ _) as [w1 lease1]. destruct Hf as [Hm ->].
    unfold drop. simpl. rewrite Hrec. simpl. eexists. split; [done|].
    eapply moved_trans; [exact Hm|]. apply (drop_lease_moved d None). constructor.
  - pose proof (finish_admission_moved op n d hold w Hp Hop) as Hf.
    destruct (finish_admission _ _ _ _) as [w1 lease1]. destruct Hf as [Hm ->].
    eexists. split; [done|].
    eapply moved_trans; [exact Hm|]. apply (drop_lease_moved d None). constructor.
Qed.

(** ** Outcomes *)

Lemma interrupted_moved (n : Z) d hold w :
  let '(w', lease') := lease_record_interrupted_usage n (DeploymentLease_new d (in_process hold)) w in
  moved (shared_of d) (fun a => completed hold n (charge n a)) w w' /\
  lease' = DeploymentLease_new d (in_process (done_hold hold)) /\
  fence (get_cell (shared_of d) w') = fence (get_cell (shared_of d) w).
Proof.
  unfold lease_record_interrupted_usage. simpl.
  pose proof (interrupted_account (w_now w) n hold (get_cell (shared_of d) w)) as Hi.
  destruct (record_interrupted_usage_with_admission _ _ _ _ _) as [s h].
  destruct Hi as (Ha & -> & Hf). split_and!; [by apply moved_set|done|].
  by rewrite get_set_cell, decide_True.
Qed.

Lemma success_moved (n latency : Z) d hold w :
  fence_generation (fence (get_cell (shared_of d) w)) < u64_max ->
  exists w', lease_record_success n latency (DeploymentLease_new d (in_process hold)) w
             = Some (w', DeploymentLease_new d (in_process (done_hold hold))) /\
    moved (shared_of d) (fun a => completed hold n (count_success (charge n a))) w w'.
Proof.
  intros Hg. unfold lease_record_success. simpl.
  destruct (success_account (w_now w) n latency hold (get_cell (shared_of d) w) Hg) as (s & -> & Ha).
  simpl. eexists. split; [done|]. by apply moved_set.
Qed.

Lemma local_failure_moved d (r : CooldownReason) w :
  r <> ReasonHighFailureRate -> fence_generation (fence (get_cell (shared_of d) w)) < u64_max ->
  exists s, record_local_failure config r (w_now w) (w_now w) (w_now w)
              (get_cell (shared_of d) w) = Some s /\
    moved (shared_of d) count_failure w (set_cell (shared_of d) s w).
Proof.
  intros Hr Hg.
  destruct (failure_account config r (w_now w) (get_cell (shared_of d) w) Hr Hg) as (s & -> & Ha).
  exists s. split; [done|]. by apply moved_set.
Qed.

Lemma success_circuit_moved d w : moved (shared_of d) (fun a => a) w (success_circuit_on d w).
Proof.
  simpl. unfold local_success, on_cell. apply moved_set. apply account_proper;
    unfold complete_success_write, promote_from_local_success, promote_to_healthy_if_degraded;
    repeat case_match; done.
Qed.

Lemma completed_free hold n a : completed hold n (free_slot a) = free_slot (completed hold n a).
Proof. by destruct hold as [[est [[]|]]|]. Qed.

(** ** What was observed *)

(** The completion the hold is prepared for after the signals. *)
Definition pending (sig : list Signal) : Completion :=
  match last sig with
  | None => Cancel
  | Some (SawUsage _) => Settle
  | Some SawOutput => Retain (default 0 (last_usage sig))
  end.

Definition prepared (est : option Z) (sig : list Signal) : option LocalAdmissionHold :=
  (fun est => mkHold est (Some (pending sig))) <$> est.

Definition is_output (x : Signal) : bool :=
  match x with SawOutput => true | SawUsage _ => false end.

Definition observed d (est : option Z) (sig : list Signal) : RuntimeStreamCompletion P :=
  mkStreamCompletion (Some (DeploymentLease_new d (in_process (prepared est sig))))
    (last_usage sig) (settles sig) (existsb is_output sig) None false.

Lemma last_usage_snoc (sig : list Signal) (x : Signal) :
  last_usage (sig ++ [x]) = match x with SawUsage n => Some n | SawOutput => last_usage sig end.
Proof.
  unfold last_usage. rewrite omap_app. destruct x; simpl; rewrite ?app_nil_r, ?last_snoc; done.
Qed.

Lemma observe_output_observed d est sig :
  observe_output (observed d est sig) = observed d est (sig ++ [SawOutput]).
Proof.
  unfold observed, observe_output, settles, prepared, pending. simpl.
  rewrite last_usage_snoc, last_snoc, existsb_app, orb_true_r. by destruct est.
Qed.

Lemma observe_usage_observed d est sig n :
  observe_usage n (observed d est sig) = observed d est (sig ++ [SawUsage n]).
Proof.
  unfold observed, observe_usage, settles, prepared, pending. simpl.
  rewrite last_usage_snoc, last_snoc, existsb_app, orb_false_r. by destruct est.
Qed.

Lemma observe_observed d est sig e :
  observe e (observed d est sig) = observed d est (sig ++ signals_of e).
Proof.
  destruct e as [chunk| |n]; simpl;
    [|apply observe_output_observed|apply observe_usage_observed].
  unfold observe_chunk. destruct (chunk_has_output chunk), (chunk_usage chunk) as [n|]; simpl.
  - rewrite observe_output_observed, observe_usage_observed, <- app_assoc. done.
  - apply observe_output_observed.
  - apply observe_usage_observed.
  - by rewrite app_nil_r.
Qed.

Lemma observe_all d est events :
  fold_left (fun c e => observe e c) events
    (stream_completion (DeploymentLease_new d (InProcessHold <$> ((fun e => mkHold e (Some Cancel)) <$> est))))
  = observed d est (signals events).
Proof.
  change (stream_completion _) with (observed d est []). change (signals events) with ([] ++ signals events).
  generalize (@nil Signal) as sig. induction events as [|e events IH]; intros sig; simpl.
  - by rewrite app_nil_r.
  - by rewrite observe_observed, IH, app_assoc.
Qed.

(** Either nothing was observed, or usage, or output without usage. *)
Lemma observed_cases sig :
  sig = [] \/
  (sig <> [] /\ exists n, last_usage sig = Some n) \/
  (sig <> [] /\ last_usage sig = None /\ existsb is_output sig = true /\ settles sig = false).
Proof.
  destruct sig as [|x sig _] using rev_ind; [by left|right].
  rewrite last_usage_snoc, existsb_app. unfold settles. rewrite last_snoc.
  assert (Hne : sig ++ [x] <> []) by by destruct sig.
  destruct x as [|n]; [|left; by eauto].
  destruct (last_usage sig) as [n|]; [left; by eauto|right].
  by rewrite orb_true_r.
Qed.

(** The charge of a stream that was seen. *)
Lemma charged_account est sig a :
  sig <> [] ->
  completed (prepared est sig) (default 0 (last_usage sig)) (charge (default 0 (last_usage sig)) a) =
  match est with
  | Some est =>
      unreserve est (if settles sig then None
                     else Some (sat_sub (Z.max est (default 0 (last_usage sig)))
                                  (default 0 (last_usage sig))))
        (charge (default 0 (last_usage sig)) a)
  | None => charge (default 0 (last_usage sig)) a
  end.
Proof.
  intros Hne. destruct est as [est|]; [|done]. simpl. unfold pending, settles.
  destruct sig as [|x sig _] using rev_ind; [done|]. rewrite last_snoc. by destruct x.
Qed.

Lemma settled_account e est sig (n : Z) a :
  e = Dropped -> sig <> [] -> default 0 (last_usage sig) = n ->
  free_slot (completed (prepared est sig) n (charge n a)) = stream_account e sig est a.
Proof.
  intros -> Hne <-. rewrite charged_account by done. unfold stream_account.
  destruct sig as [|x sig']; [done|]. simpl negb. cbv beta iota.
  destruct est; [|done]. by destruct (settles _).
Qed.

(** ** The endings *)

Lemma dropped_accounted d est sig w :
  exists w', drop config (observed d est sig) w = Some w' /\
    moved (shared_of d) (stream_account Dropped sig est) w w'.
Proof.
  unfold drop. simpl. destruct (observed_cases sig) as [->|[[Hne [n Hu]]|(Hne & Hu & Ho & Hs)]].
  - simpl. eexists. split; [done|]. eapply moved_ext; [|apply drop_lease_moved].
    + intros a. by destruct est.
    + destruct est; constructor.
  - rewrite Hu. simpl.
    pose proof (interrupted_moved n d (prepared est sig) w) as Hi.
    destruct (lease_record_interrupted_usage _ _ _) as [w1 lease1]. destruct Hi as (Hm & -> & _).
    simpl. eexists. split; [done|]. eapply moved_ext;
      [|eapply moved_trans; [exact Hm|apply drop_lease_moved, plain_done_hold]].
    intros a. cbv beta. rewrite done_completed. apply settled_account; [done|done|by rewrite Hu].
  - rewrite Hu, Ho. simpl.
    pose proof (interrupted_moved 0 d (prepared est sig) w) as Hi.
    destruct (lease_record_interrupted_usage _ _ _) as [w1 lease1]. destruct Hi as (Hm & -> & _).
    simpl. eexists. split; [done|]. eapply moved_ext;
      [|eapply moved_trans; [exact Hm|apply drop_lease_moved, plain_done_hold]].
    intros a. cbv beta. rewrite done_completed. apply settled_account; [done|done|by rewrite Hu].
Qed.

(** What [finish_success] prepares. *)
Definition final_hold (est : option Z) (sig : list Signal) : option LocalAdmissionHold :=
  (fun est => mkHold est (Some (if settles sig then Settle
                                else Retain (default 0 (last_usage sig))))) <$> est.

Lemma prepare_final d est sig :
  (if settles sig
   then preserve_admission_usage (default 0 (last_usage sig))
          (DeploymentLease_new d (in_process (prepared est sig)))
   else preserve_admission_reservation (default 0 (last_usage sig))
          (DeploymentLease_new d (in_process (prepared est sig))))
  = DeploymentLease_new d (in_process (final_hold est sig)).
Proof. unfold final_hold, prepared. destruct est; by destruct (settles sig). Qed.

Lemma success_accounted cut latency d est sig w :
  fence_generation (fence (get_cell (shared_of d) w)) < u64_max ->
  exists w', finish_success config cut latency (DeploymentLease_new d (in_process (prepared est sig)))
               (observed d est sig) w = Some w' /\
    moved (shared_of d) (stream_account (Succeeded cut latency) sig est) w w'.
Proof.
  intros Hg. unfold finish_success. cbn [sc_usage usage_covers_output observed].
  rewrite prepare_final. set (used := default 0 (last_usage sig)).
  destruct (success_moved used latency d (final_hold est sig) w Hg) as (w1 & -> & Hm).
  simpl. set (c := mark_recorded _).
  assert (Hfin : forall a, free_slot (completed (final_hold est sig) used (count_success (charge used a)))
                           = stream_account (Succeeded cut latency) sig est a).
  { intros a. unfold stream_account, final_hold. fold used. destruct est as [e|]; [|done]. simpl.
    by destruct (settles sig). }
  assert (Hclose : forall cut op n, exists w', close config cut op n
      (DeploymentLease_new d (in_process (done_hold (final_hold est sig)))) c
      (local_success config d w1) = Some w' /\
      moved (shared_of d) (stream_account (Succeeded cut latency) sig est) w w').
  { intros cut' op n.
    destruct (close_moved cut' op n d (done_hold (final_hold est sig)) c (local_success config d w1))
      as (w2 & Hc & Hm2); [apply plain_done_hold| |done|].
    { intros e He. by destruct est. }
    exists w2. split; [exact Hc|].
    eapply moved_ext; [exact Hfin|]. eapply moved_ext; cycle 1.
    { eapply moved_trans; [exact Hm|]. eapply moved_trans; [|exact Hm2].
      apply (success_circuit_moved d). }
    intros a. cbv beta. by rewrite done_completed. }
  destruct cut as [[]|]; [|apply Hclose|apply Hclose].
  unfold drop. simpl. eexists. split; [done|]. eapply moved_ext; [exact Hfin|].
  eapply moved_ext; cycle 1.
  { eapply moved_trans; [exact Hm|]. apply drop_lease_moved, plain_done_hold. }
  intros a. cbv beta. by rewrite done_completed.
Qed.

Lemma failure_reason_local (error : ProviderError) : failure_reason error <> ReasonHighFailureRate.
Proof. unfold failure_reason. by destruct (infer_cooldown_reason error). Qed.

(** After the usage of a failed stream is recorded: the failure, however far the
    operation gets. *)
Lemma failed_accounted (cut : option Await) (reason : CooldownReason) d hold
    (c : RuntimeStreamCompletion P) w :
  reason <> ReasonHighFailureRate -> fence_generation (fence (get_cell (shared_of d) w)) < u64_max ->
  plain hold -> outcome_recorded c = false -> terminal_failure c = Some reason ->
  sc_lease c = Some (DeploymentLease_new d (in_process hold)) ->
  (output_observed c = false /\ usage_covers_output c = false \/ hold = done_hold hold) ->
  exists w',
    match cut with
    | Some AtCircuit => drop config c (failure_write_cut d w)
    | _ =>
        w ← failure_write_on d reason w;
        let c := mark_recorded c in
        let tokens := default 0 (sc_usage c) in
        if usage_covers_output c
        then close config cut "settle" tokens (DeploymentLease_new d (in_process hold)) c w
        else if output_observed c
        then close config cut "retain" tokens (DeploymentLease_new d (in_process hold)) c w
        else close config cut "cancel" 0 (DeploymentLease_new d (in_process hold)) c w
    end = Some w' /\
    moved (shared_of d) (fun a => free_slot (completed hold 0 (count_failure a))) w w'.
Proof.
  intros Hr Hg Hp Hrec Hterm Hl Hhold.
  destruct (local_failure_moved d reason w Hr Hg) as (s & Hs & Hm).
  set (rest := w ← failure_write_on d reason w; _).
  assert (Hrest : exists w', rest = Some w' /\
    moved (shared_of d) (fun a => free_slot (completed hold 0 (count_failure a))) w w').
  { unfold rest. simpl. unfold local_failure_write. simpl. rewrite Hs. simpl.
    set (op := if usage_covers_output c then "settle"
               else if output_observed c then "retain" else "cancel").
    set (n := if usage_covers_output c then default 0 (sc_usage c)
              else if output_observed c then default 0 (sc_usage c) else 0).
    destruct (close_moved cut op n d hold (mark_recorded c) (set_cell (shared_of d) s w))
      as (w2 & Hc & Hm2); [done| |done|].
    { intros e ->. unfold op. destruct Hhold as [[-> ->]|Hh]; [done|]. discriminate Hh. }
    exists w2. split; [|exact (moved_trans _ _ _ _ _ _ Hm Hm2)]. rewrite <- Hc. unfold op, n.
    destruct (usage_covers_output c); [done|]. by destruct (output_observed c). }
  destruct cut as [[]|]; [|exact Hrest|exact Hrest].
  unfold drop. rewrite Hl, Hrec, Hterm. simpl. rewrite Hs. simpl. eexists. split; [done|].
  eapply moved_ext; [|eapply moved_trans; [exact Hm|by apply drop_lease_moved]].
  intros a. cbv beta. apply completed_free.
Qed.

Lemma failure_accounted cut error d est sig w :
  fence_generation (fence (get_cell (shared_of d) w)) < u64_max ->
  exists w', finish_failure config cut error (DeploymentLease_new d (in_process (prepared est sig)))
               (observed d est sig) w = Some w' /\
    moved (shared_of d) (stream_account (Failed cut error) sig est) w w'.
Proof.
  intros Hg. unfold finish_failure. set (c1 := set_terminal _ _).
  assert (Hcharged : forall n, sig <> [] -> default 0 (last_usage sig) = n ->
    (let '(w1, lease1) := lease_record_interrupted_usage n
         (DeploymentLease_new d (in_process (prepared est sig))) w in
     exists w',
       match cut with
       | Some AtCircuit => drop config (set_lease (Some lease1) c1) (failure_write_cut (lease_deployment lease1) w1)
       | _ =>
           w ← failure_write_on (lease_deployment lease1) (failure_reason error) w1;
           let c := mark_recorded (set_lease (Some lease1) c1) in
           let tokens := default 0 (sc_usage c) in
           if usage_covers_output c then close config cut "settle" tokens lease1 c w
           else if output_observed c then close config cut "retain" tokens lease1 c w
           else close config cut "cancel" 0 lease1 c w
       end = Some w' /\ moved (shared_of d) (stream_account (Failed cut error) sig est) w w')).
  { intros n Hne Hn. pose proof (interrupted_moved n d (prepared est sig) w) as Hi.
    destruct (lease_record_interrupted_usage _ _ _) as [w1 lease1]. destruct Hi as (Hm & -> & Hf).
    destruct (failed_accounted cut (failure_reason error) d (done_hold (prepared est sig))
      (set_lease (Some (DeploymentLease_new d (in_process (done_hold (prepared est sig))))) c1) w1
      (failure_reason_local error) ltac:(by rewrite Hf) (plain_done_hold _) eq_refl eq_refl eq_refl)
      as (w2 & Hw2 & Hm2); [right; by destruct est|].
    exists w2. split; [exact Hw2|]. eapply moved_ext; [|eapply moved_trans; [exact Hm|exact Hm2]].
    intros a. cbv beta. rewrite done_completed, <- Hn, charged_account by done.
    unfold stream_account. destruct sig as [|x sig']; [done|]. simpl negb. cbv beta iota.
    destruct est; [|done]. by destruct (settles _). }
  destruct (observed_cases sig) as [->|[[Hne [n Hu]]|(Hne & Hu & Ho & Hs)]].
  - simpl.
    destruct (failed_accounted cut (failure_reason error) d (prepared est [])
      (set_lease (Some (DeploymentLease_new d (in_process (prepared est [])))) c1) w
      (failure_reason_local error) Hg ltac:(destruct est; constructor) eq_refl eq_refl eq_refl
      ltac:(by left)) as (w2 & Hw2 & Hm2).
    exists w2. split; [exact Hw2|]. eapply moved_ext; [|exact Hm2].
    intros a. by destruct est.
  - change (sc_usage c1) with (last_usage sig). rewrite Hu.
    specialize (Hcharged n Hne ltac:(by rewrite Hu)).
    by destruct (lease_record_interrupted_usage n _ w).
  - change (sc_usage c1) with (last_usage sig). rewrite Hu.
    change (output_observed c1) with (existsb is_output sig). rewrite Ho.
    specialize (Hcharged 0 Hne ltac:(by rewrite Hu)).
    by destruct (lease_record_interrupted_usage 0 _ w).
Qed.
End Accounts.

(** C14: However a stream ends, the accounts of its deployment are exactly right,
    where the router has no shared state and its finishing operations therefore
    never suspend, and whose fence has generations left.  For any chunks observed and any ending, a mere drop of the
    stream included, the operation completes, and what the deployment then reads
    as is given by [stream_account]: the usage
    reported last is charged once when anything was observed or the stream was
    read to its end, and nothing otherwise; a success or a failure is counted
    once, a mere drop as neither; the estimate leaves the ledger, all of it when
    the usage covers the output, and otherwise it is kept as unobserved usage
    beyond what was reported; the slot is free again; and no other deployment is
    touched. *)
Theorem stream_accounted {P E : Type} (config : RouterConfig) (d : Deployment P)
    (estimate : option Z) (events : list StreamEvent) (e : StreamEnd) (w : World E)
    (Hg : fence_generation (fence (get_cell (shared_of d) w)) < u64_max) :
  let lease := DeploymentLease_new d
    ((fun estimate => InProcessHold (mkHold estimate (Some Cancel))) <$> estimate) in
  exists w',
    @run_stream P E (InProcess config) (InProcessStream config) config lease events e w = Some w' /\
    account (w_now w) (get_cell (shared_of d) w')
    = stream_account e (signals events) estimate (account (w_now w) (get_cell (shared_of d) w)) /\
    (forall l, l <> shared_of d -> get_cell l w' = get_cell l w).
Proof.
  intros lease. unfold run_stream.
  assert (Hl : lease = DeploymentLease_new d
    (InProcessHold <$> ((fun e => mkHold e (Some Cancel)) <$> estimate))).
  { unfold lease. by destruct estimate. }
  rewrite Hl, observe_all. set (sig := signals events).
  assert (Hend : exists w',
    @end_stream P E (InProcess config) (InProcessStream config) config e
      (observed d estimate sig) w = Some w' /\
    moved (shared_of d) (stream_account e sig estimate) w w').
  { destruct e as [cut latency|cut error|]; simpl.
    - by apply success_accounted.
    - by apply failure_accounted.
    - by apply dropped_accounted. }
  destruct Hend as (w' & Hw' & _ & Ho & Ha). by exists w'.
Qed.

(** A stream that reported usage, produced more, and was then dropped. *)
Definition example_stream_deployment : Deployment string :=
  mkDeployment "d" "openai" "gpt-4" "gpt" DeploymentConfig_default (mkHandle 1 1 0 None 0) [].

Definition example_stream_world : World unit :=
  mkWorld (mkStore {[1%N := set_ledger (mkLedger 100 0)
                       (upd_inner (set_active_requests 1) (DeploymentState_new 100))]} ∅)
    ∅ 0 0 0 110 0 {[1%N := 1]} tt.

Lemma stream_accounted_witness :
  exists w',
    @run_stream string unit (InProcess RouterConfig_default) (InProcessStream RouterConfig_default)
      RouterConfig_default
      (DeploymentLease_new example_stream_deployment (Some (InProcessHold (mkHold 100 (Some Cancel)))))
      [Output; Usage 30; Output] Dropped example_stream_world = Some w' /\
    account 110 (get_cell 1%N w') = mkAccount 30 1 0 0 0 70 0.
Proof.
  destruct (stream_accounted RouterConfig_default example_stream_deployment (Some 100)
    [Output; Usage 30; Output] Dropped example_stream_world) as (w' & Hw' & Ha & _).
  { vm_compute. reflexivity. }
  exists w'. split; [exact Hw'|]. change (shared_of example_stream_deployment) with 1%N in Ha.
  change 110 with (w_now example_stream_world). rewrite Ha. vm_compute. reflexivity.
Defined.

Lemma stream_slot_released_witness :
  exists w', @run_stream string unit (InProcess RouterConfig_default)
      (InProcessStream RouterConfig_default) RouterConfig_default
      (DeploymentLease_new example_stream_deployment None)
      [Output] (Failed (Some AtCircuit) (Timeout (Lit "openai") "slow")) example_stream_world
    = Some w' /\ released example_stream_deployment example_stream_world w'.
Proof.
  destruct (@run_stream string unit (InProcess RouterConfig_default)
      (InProcessStream RouterConfig_default) RouterConfig_default
      (DeploymentLease_new example_stream_deployment None)
      [Output] (Failed (Some AtCircuit) (Timeout (Lit "openai") "slow")) example_stream_world)
    as [w'|] eqn:Hrun; [|vm_compute in Hrun; discriminate].
  exists w'. split; [done|].
  exact (@stream_slot_released string unit (InProcess RouterConfig_default)
    (in_process_lawful string unit RouterConfig_default) (InProcessStream RouterConfig_default)
    (in_process_stream_lawful string unit RouterConfig_default) RouterConfig_default
    (DeploymentLease_new example_stream_deployment None) example_stream_deployment _ _ _ _
    (conj eq_refl eq_refl) Hrun).
Defined.
