(* ===== verification/RateLimiter.v ===== *)
(** The request rate limiter ([core/rate_limiter/]): three strategies over one
    entry per key, reservations that can be released, the cleanup task, and the
    choice between a Redis backend and the process.

    Instants and durations are nanoseconds.  A key's entry is locked during an
    operation; the clock is read before the lock, so it is an argument.  The
    Redis backend is the answer it gives. *)

From Stdlib Require Import Floats.SpecFloat.
From S2P Require Import Prelude Float64.

Inductive RateLimitStrategy := TokenBucket | FixedWindow | SlidingWindow.
Inductive RedisFailureMode := FailClosed | FailOpenLocal.

(** The fields of the configuration that the limiter enforces. *)
Record RateLimitConfig := mkRateLimitConfig {
  enabled : bool;
  strategy : RateLimitStrategy;
  default_rpm : Z;                         (* u32 *)
  requests_per_minute : option Z;          (* u32 *)
  redis_failure_mode : RedisFailureMode;
}.

Definition effective_rpm (c : RateLimitConfig) : Z := default (default_rpm c) (requests_per_minute c).

Record RateLimitResult := mkRateLimitResult {
  allowed : bool;
  current_count : Z;                       (* u32 *)
  limit : Z;                               (* u32 *)
  remaining : Z;                           (* u32 *)
  reset_after_secs : Z;                    (* u64 *)
  retry_after_secs : option Z;             (* u64 *)
}.

Record RateLimitEntry := mkRateLimitEntry {
  timestamps : list Z;
  tokens : spec_float;
  last_refill : Z;
}.

Definition set_timestamps (ts : list Z) (e : RateLimitEntry) : RateLimitEntry :=
  mkRateLimitEntry ts (tokens e) (last_refill e).

(** [RateLimitEntry::default], which reads the clock itself. *)
Definition entry_default (created : Z) : RateLimitEntry := mkRateLimitEntry [] f64_zero created.

Abbreviation Entries := (gmap string RateLimitEntry).

(** [duration_since] and [saturating_duration_since]. *)
Definition duration_since (now earlier : Z) : Z := Z.max 0 (now - earlier).

(** * Strategies

    Each returns the entry it leaves in the map and its answer. *)

Section Strategies.
Variable window : Z.

Definition retain_after (start : Z) (ts : list Z) : list Z :=
  List.filter (fun t => start <? t) ts.

Definition len_u32 (ts : list Z) : Z := wrap_u32 (Z.of_nat (length ts)).

(** The answer of the window strategies. *)
Definition window_result (limit count reset_after : Z) (record : bool) : RateLimitResult :=
  let allowed := count <? limit in
  let remaining := sat_sub limit count in
  mkRateLimitResult allowed count limit
    (if record && allowed then sat_sub remaining 1 else remaining) reset_after
    (if allowed then None else Some (Z.max reset_after 1)).

Definition check_sliding_window_impl (limit : Z) (record : bool) (now : Z) (e : RateLimitEntry)
    : RateLimitEntry * RateLimitResult :=
  let ts := retain_after (now - window) (timestamps e) in
  let current_count := len_u32 ts in
  let reset_after :=
    match ts with
    | oldest :: _ => as_secs (sat_sub window (duration_since now oldest))
    | [] => as_secs window
    end in
  let result := window_result limit current_count reset_after record in
  (set_timestamps (if allowed result && record then ts ++ [now] else ts) e, result).

(** [tokens] over [limit], [elapsed.as_secs_f64()], and the saturating casts. *)
Definition as_secs_f64 (d : Z) : spec_float :=
  f64_add (f64_of_Z (d / 10 ^ 9)) (f64_div (f64_of_Z (d mod 10 ^ 9)) (f64_of_Z (10 ^ 9))).

Definition f64_min (x y : spec_float) : spec_float :=
  match x, y with
  | S754_nan, _ => y
  | _, S754_nan => x
  | _, _ => if SFltb y x then y else x
  end.

Definition reservation_live (now t : Z) : bool := duration_since now t <? window.

Definition check_token_bucket_impl (limit : Z) (record : bool) (now : Z)
    (found : option RateLimitEntry) : RateLimitEntry * RateLimitResult :=
  let tokens_per_second := f64_div (f64_of_Z limit) (f64_of_Z 60) in
  let e := default (mkRateLimitEntry [] (f64_of_Z limit) now) found in
  let ts := List.filter (reservation_live now) (timestamps e) in
  let elapsed := duration_since now (last_refill e) in
  let new_tokens := f64_mul (as_secs_f64 elapsed) tokens_per_second in
  let tokens := f64_min (f64_add (tokens e) new_tokens) (f64_of_Z limit) in
  let allowed := SFleb (f64_of_Z 1) tokens in
  let current_count := f64_to_u32 (f64_sub (f64_of_Z limit) tokens) in
  let remaining := f64_to_u32 tokens in
  let reset_after :=
    if SFltb tokens (f64_of_Z 1)
    then f64_to_u64 (f64_ceil (f64_div (f64_sub (f64_of_Z 1) tokens) tokens_per_second))
    else 0 in
  (if allowed && record
   then mkRateLimitEntry (ts ++ [now]) (f64_sub tokens (f64_of_Z 1)) now
   else mkRateLimitEntry ts tokens now,
   mkRateLimitResult allowed current_count limit
     (if record && allowed then sat_sub remaining 1 else remaining) reset_after
     (if allowed then None else Some (Z.max reset_after 1))).

Definition check_fixed_window_impl (limit : Z) (record : bool) (now : Z) (e : RateLimitEntry)
    : RateLimitEntry * RateLimitResult :=
  let e := match timestamps e with
           | [] => mkRateLimitEntry [] (tokens e) now
           | _ => if window <=? duration_since now (last_refill e)
                  then mkRateLimitEntry [] (tokens e) now else e
           end in
  let current_count := len_u32 (timestamps e) in
  let elapsed := duration_since now (last_refill e) in
  let reset_after := as_secs (sat_sub window elapsed) in
  let result := window_result limit current_count reset_after record in
  (if allowed result && record then set_timestamps (timestamps e ++ [now]) e else e, result).
End Strategies.

(** * The limiter *)

Inductive RateLimitRecordSource := SourceDisabled | SourceLocal | SourceDistributed.

Record RateLimitReservation := mkReservation {
  source : RateLimitRecordSource;
  recorded_at : Z;
  expires_at : option Z;
}.

Definition reservation_new (source : RateLimitRecordSource) (recorded_at reset_after_secs : Z)
    : RateLimitReservation :=
  mkReservation source recorded_at
    (match source with
     | SourceDisabled => None
     | _ => Some (recorded_at + from_secs (Z.max reset_after_secs 1))
     end).

Definition remaining_window_secs (now : Z) (r : RateLimitReservation) : Z :=
  match expires_at r with
  | None => 0
  | Some expires_at =>
      let remaining := duration_since expires_at now in
      if remaining =? 0 then 0 else Z.max (as_secs remaining) 1
  end.

(** The answer of a configured Redis backend; [None] is an error. *)
Definition RedisAnswer (T : Type) : Type := option T.

Section Limiter.
Variable config : RateLimitConfig.
Variable window : Z.

Definition local_reservation_reset_after_secs (result : RateLimitResult) : Z :=
  match strategy config with
  | TokenBucket | SlidingWindow => as_secs window
  | FixedWindow => reset_after_secs result
  end.

Definition disabled_result : RateLimitResult :=
  let limit := effective_rpm config in mkRateLimitResult true 0 limit limit 0 None.

Definition redis_fail_closed_result (limit : Z) : RateLimitResult :=
  let reset := Z.max (as_secs window) 1 in
  mkRateLimitResult false limit limit 0 reset (Some reset).

(** The strategies on the map; [created] is the clock reading of a new default
    entry. *)
Definition check_impl (key : string) (limit : Z) (record : bool) (now created : Z)
    (entries : Entries) : Entries * RateLimitResult :=
  let '(e, result) :=
    match strategy config with
    | SlidingWindow =>
        check_sliding_window_impl window limit record now
          (default (entry_default created) (entries !! key))
    | TokenBucket => check_token_bucket_impl window limit record now (entries !! key)
    | FixedWindow =>
        check_fixed_window_impl window limit record now
          (default (entry_default created) (entries !! key))
    end in
  (<[key := e]> entries, result).

(** [check]; [redis] is the answer of the backend if there is one. *)
Definition check (redis : option (RedisAnswer RateLimitResult)) (key : string)
    (now created : Z) (entries : Entries) : Entries * RateLimitResult :=
  if negb (enabled config) then (entries, disabled_result)
  else
    let local := check_impl key (effective_rpm config) false now created entries in
    match redis with
    | Some (Some result) => (entries, result)
    | Some None =>
        match redis_failure_mode config with
        | FailClosed => (entries, redis_fail_closed_result (effective_rpm config))
        | FailOpenLocal => local
        end
    | None => local
    end.

(** [check_and_record_local] and the reservation made of its answer. *)
Definition record_local (key : string) (limit recorded_at created : Z) (entries : Entries)
    : Entries * RateLimitResult * RateLimitReservation :=
  let '(entries, result) := check_impl key limit true recorded_at created entries in
  (entries, result,
   if allowed result
   then reservation_new SourceLocal recorded_at (local_reservation_reset_after_secs result)
   else reservation_new SourceDisabled recorded_at 0).

Definition check_and_record_with_source_and_limit
    (redis : option (RedisAnswer RateLimitResult)) (key : string) (limit : Z)
    (now created : Z) (entries : Entries) : Entries * RateLimitResult * RateLimitReservation :=
  if negb (enabled config) then (entries, disabled_result, reservation_new SourceDisabled now 0)
  else
    match redis with
    | Some (Some result) =>
        (entries, result,
         if allowed result
         then reservation_new SourceDistributed now (reset_after_secs result)
         else reservation_new SourceDisabled now 0)
    | Some None =>
        match redis_failure_mode config with
        | FailClosed =>
            (entries, redis_fail_closed_result limit, reservation_new SourceDisabled now 0)
        | FailOpenLocal => record_local key limit now created entries
        end
    | None => record_local key limit now created entries
    end.

Definition check_and_record_with_source (redis : option (RedisAnswer RateLimitResult))
    (key : string) (now created : Z) (entries : Entries)
    : Entries * RateLimitResult * RateLimitReservation :=
  check_and_record_with_source_and_limit redis key (effective_rpm config) now created entries.

Definition check_and_record (redis : option (RedisAnswer RateLimitResult)) (key : string)
    (now created : Z) (entries : Entries) : Entries * RateLimitResult :=
  fst (check_and_record_with_source redis key now created entries).

(** [position] of a timestamp, and its removal. *)
Fixpoint remove_timestamp (t : Z) (ts : list Z) : option (list Z) :=
  match ts with
  | [] => None
  | x :: ts => if x =? t then Some ts else cons x <$> remove_timestamp t ts
  end.

(** [release_local] of a reservation: the entry, or nothing when it is removed.
    The other callers' [None] would pop the last timestamp; there are none. *)
Definition release_entry (recorded_at now : Z) (e : RateLimitEntry) : option RateLimitEntry :=
  let limit := f64_of_Z (effective_rpm config) in
  match strategy config with
  | SlidingWindow | FixedWindow =>
      match default (timestamps e) (remove_timestamp recorded_at (timestamps e)) with
      | [] => None
      | ts => Some (set_timestamps ts e)
      end
  | TokenBucket =>
      let ts := List.filter (reservation_live window now) (timestamps e) in
      let e :=
        match remove_timestamp recorded_at ts with
        | Some ts =>
            mkRateLimitEntry ts (f64_min (f64_add (tokens e) (f64_of_Z 1)) limit) (last_refill e)
        | None => set_timestamps ts e
        end in
      match timestamps e with
      | [] => if SFleb limit (tokens e) then None else Some e
      | _ => Some e
      end
  end.

Definition release_local (key : string) (recorded_at now : Z) (entries : Entries) : Entries :=
  match entries !! key with
  | Some e =>
      match release_entry recorded_at now e with
      | Some e => <[key := e]> entries
      | None => delete key entries
      end
  | None => entries
  end.

(** [release_recorded]: the entries, and the time to live a Redis backend is
    asked to release with. *)
Definition release_recorded (has_redis : bool) (key : string) (r : RateLimitReservation)
    (now : Z) (entries : Entries) : Entries * option Z :=
  if negb (enabled config) then (entries, None)
  else
    let remaining := remaining_window_secs now r in
    match source r with
    | SourceDisabled => (entries, None)
    | SourceLocal =>
        if remaining =? 0 then (entries, None)
        else (release_local key (recorded_at r) now entries, None)
    | SourceDistributed =>
        if (remaining =? 0) || negb has_redis then (entries, None)
        else (entries, Some remaining)
    end.

(** [record], deprecated: no limit is checked. *)
Definition record (key : string) (now created : Z) (entries : Entries) : Entries :=
  if negb (enabled config) then entries
  else
    let e := default (entry_default created) (entries !! key) in
    <[key := match strategy config with
             | SlidingWindow | FixedWindow => set_timestamps (timestamps e ++ [now]) e
             | TokenBucket => e
             end]> entries.

(** [cleanup] ([utils.rs]) of one entry. *)
Definition cleanup_entry (now : Z) (e : RateLimitEntry) : option RateLimitEntry :=
  match strategy config with
  | SlidingWindow =>
      match retain_after (now - window) (timestamps e) with
      | [] => None
      | ts => Some (set_timestamps ts e)
      end
  | FixedWindow =>
      match (if window <=? duration_since now (last_refill e) then [] else timestamps e) with
      | [] => None
      | ts => Some (set_timestamps ts e)
      end
  | TokenBucket =>
      match List.filter (reservation_live window now) (timestamps e) with
      | [] => if SFltb (tokens e) (f64_of_Z (effective_rpm config))
              then Some (set_timestamps [] e) else None
      | ts => Some (set_timestamps ts e)
      end
  end.

Definition cleanup (now : Z) (entries : Entries) : Entries := omap (cleanup_entry now) entries.

Definition status (redis : option (RedisAnswer RateLimitResult)) (key : string)
    (now created : Z) (entries : Entries) : Entries * option RateLimitResult :=
  if negb (enabled config) then (entries, None)
  else let '(entries, r) := check redis key now created entries in (entries, Some r).
End Limiter.

(** * Sequences of operations

    On a limiter without Redis.  Each carries the clock reading it works with. *)

Inductive RlOp :=
| RlCheck (key : string)
| RlRecord (key : string) (limit : Z)
| RlRelease (key : string) (recorded_at : Z)
| RlCleanup.

Section Run.
Variable config : RateLimitConfig.
Variable window : Z.

(** The entries after an operation, and what its caller learns. *)
Definition run_op (op : RlOp) (now : Z) (entries : Entries) : Entries * option RateLimitResult :=
  match op with
  | RlCheck key =>
      let '(entries, r) := check config window None key now now entries in (entries, Some r)
  | RlRecord key limit =>
      let '(entries, r, _) :=
        check_and_record_with_source_and_limit config window None key limit now now entries in
      (entries, Some r)
  | RlRelease key recorded_at => (release_local config window key recorded_at now entries, None)
  | RlCleanup => (cleanup config window now entries, None)
  end.

Fixpoint run_ops (ops : list (Z * RlOp)) (entries : Entries)
    : Entries * list (option RateLimitResult) :=
  match ops with
  | [] => (entries, [])
  | (now, op) :: ops =>
      let '(entries, r) := run_op op now entries in
      let '(entries, rs) := run_ops ops entries in
      (entries, r :: rs)
  end.
End Run.

(** * Lemmas *)

(** What the window strategies see of an entry. *)
Definition raw (found : option RateLimitEntry) : list Z * Z :=
  match found with Some e => (timestamps e, last_refill e) | None => ([], 0) end.

Section Views.
Variable config : RateLimitConfig.
Variable window : Z.
Implicit Types (v : list Z * Z) (es : Entries).

(** What is left of it at [now]. *)
Definition aged (now : Z) v : list Z * Z :=
  match strategy config with
  | FixedWindow =>
      match fst v with
      | [] => ([], 0)
      | _ => if window <=? duration_since now (snd v) then ([], 0) else v
      end
  | _ => (retain_after (now - window) (fst v), 0)
  end.

(** The decision on what is left, and the view it leaves. *)
Definition decide_view (limit : Z) (record : bool) (now : Z) v : (list Z * Z) * RateLimitResult :=
  let start := match strategy config, fst v with FixedWindow, [] => now | _, _ => snd v end in
  let reset :=
    match strategy config, fst v with
    | FixedWindow, _ => as_secs (sat_sub window (duration_since now start))
    | _, oldest :: _ => as_secs (sat_sub window (duration_since now oldest))
    | _, [] => as_secs window
    end in
  let result := window_result limit (len_u32 (fst v)) reset record in
  ((if allowed result && record then fst v ++ [now] else fst v, start), result).

Lemma retain_after_spec (start : Z) (ts : list Z) :
  retain_after start ts = filter (fun t => start < t) ts.
Proof.
  unfold retain_after. induction ts as [|t ts IH]; [done|]. simpl. rewrite filter_cons, IH.
  destruct (Z.ltb_spec start t), (decide (start < t)); first [done|lia].
Qed.

Lemma retain_after_twice (a b : Z) (ts : list Z) :
  a <= b -> retain_after b (retain_after a ts) = retain_after b ts.
Proof.
  intros Hab. rewrite !retain_after_spec, list_filter_filter. apply list_filter_iff. intros t. lia.
Qed.

Lemma aged_aged (now now' : Z) v : now <= now' -> aged now' (aged now v) = aged now' v.
Proof.
  intros Hn. unfold aged. destruct (strategy config); simpl.
  - by rewrite retain_after_twice by lia.
  - destruct v as [[|t ts] s]; [done|]. cbn [fst snd].
    destruct (Z.leb_spec window (duration_since now s)); [|done]. simpl.
    rewrite (proj2 (Z.leb_le _ _)); [done|]. unfold duration_since in *. lia.
  - by rewrite retain_after_twice by lia.
Qed.

Hypothesis Hstrategy : strategy config <> TokenBucket.

(** A check sees only what is left, and leaves the decided view. *)
Lemma check_impl_view (key : string) (limit : Z) (record : bool) (now : Z) es :
  let '(es', r) := check_impl config window key limit record now now es in
  r = snd (decide_view limit record now (aged now (raw (es !! key)))) /\
  aged now (raw (es' !! key))
  = aged now (fst (decide_view limit record now (aged now (raw (es !! key))))) /\
  (forall k, k <> key -> es' !! k = es !! k).
Proof.
  unfold check_impl, aged, decide_view. destruct (strategy config) eqn:Es; [done|..].
  - set (e := default (entry_default now) (es !! key)).
    assert (He : timestamps e = fst (raw (es !! key)) /\
                 (fst (raw (es !! key)) <> [] -> last_refill e = snd (raw (es !! key)))).
    { unfold e. by destruct (es !! key). }
    destruct He as [Hts Hlr]. unfold check_fixed_window_impl. rewrite Hts. simpl.
    destruct (raw (es !! key)) as [[|t ts] s] eqn:Er; cbn [fst snd] in *.
    + simpl. split_and!; [done| |intros k Hk; by rewrite lookup_insert_ne].
      rewrite lookup_insert_eq. simpl. by destruct (_ && _).
    + rewrite (Hlr ltac:(done)). destruct (window <=? duration_since now s) eqn:Ew; simpl.
      * split_and!; [done| |intros k Hk; by rewrite lookup_insert_ne].
        rewrite lookup_insert_eq. simpl. by destruct (_ && _).
      * rewrite Hts, (Hlr ltac:(done)). split_and!; [done| |intros k Hk; by rewrite lookup_insert_ne].
        rewrite lookup_insert_eq. simpl.
        destruct (_ && _); simpl; rewrite ?Hts, ?(Hlr ltac:(done)); simpl; by rewrite ?Ew.
  - set (e := default (entry_default now) (es !! key)).
    assert (Hts : timestamps e = fst (raw (es !! key))) by (unfold e; by destruct (es !! key)).
    unfold check_sliding_window_impl. rewrite Hts. simpl.
    split_and!; [done| |intros k Hk; by rewrite lookup_insert_ne].
    rewrite lookup_insert_eq. simpl. by destruct (_ && _).
Qed.

(** Two maps nobody can tell apart from [now] on. *)
Definition similar (now : Z) es (es' : Entries) : Prop :=
  forall k, aged now (raw (es !! k)) = aged now (raw (es' !! k)).

Lemma similar_later (now now' : Z) es es' :
  now <= now' -> similar now es es' -> similar now' es es'.
Proof.
  intros Hn Hs k. rewrite <- (aged_aged now now' (raw (es !! k))) by done.
  rewrite (Hs k). by apply aged_aged.
Qed.

Lemma cleanup_similar (now : Z) es : similar now (cleanup config window now es) es.
Proof.
  intros k. unfold cleanup. rewrite lookup_omap. destruct (es !! k) as [e|]; [|done]. simpl.
  unfold cleanup_entry, aged. destruct (strategy config) eqn:Es; [done|..]; simpl.
  - destruct (timestamps e) as [|t ts] eqn:Et; [by destruct (window <=? duration_since now (last_refill e))|].
    destruct (window <=? duration_since now (last_refill e)) eqn:Ew; simpl; [done|].
    by rewrite Ew.
  - pose proof (retain_after_twice (now - window) (now - window) (timestamps e) ltac:(lia)) as Ht.
    destruct (retain_after (now - window) (timestamps e)) as [|t ts] eqn:Er; [done|].
    cbn [raw set_timestamps timestamps fst]. by rewrite Ht.
Qed.

Lemma check_similar (key : string) (limit : Z) (record : bool) (now : Z) es es' :
  similar now es es' ->
  let '(es1, r1) := check_impl config window key limit record now now es in
  let '(es2, r2) := check_impl config window key limit record now now es' in
  r1 = r2 /\ similar now es1 es2.
Proof.
  intros Hs. pose proof (check_impl_view key limit record now es) as H1.
  pose proof (check_impl_view key limit record now es') as H2.
  destruct (check_impl _ _ _ _ _ _ _ es) as [es1 r1].
  destruct (check_impl _ _ _ _ _ _ _ es') as [es2 r2].
  destruct H1 as (-> & Hv1 & Ho1), H2 as (-> & Hv2 & Ho2). rewrite (Hs key). split; [done|].
  intros k. destruct (decide (k = key)) as [->|Hk].
  - by rewrite Hv1, Hv2, (Hs key).
  - rewrite Ho1, Ho2 by done. apply Hs.
Qed.

(** ** Releases *)

Definition removed (t : Z) (ts : list Z) : list Z := default ts (remove_timestamp t ts).

Lemma removed_cons (t x : Z) (ts : list Z) :
  removed t (x :: ts) = if x =? t then ts else x :: removed t ts.
Proof. unfold removed. simpl. destruct (x =? t); [done|]. by destruct (remove_timestamp t ts). Qed.

Lemma retain_removed (a t : Z) (ts : list Z) :
  retain_after a (removed t ts)
  = if a <? t then removed t (retain_after a ts) else retain_after a ts.
Proof.
  induction ts as [|x ts IH]; [by destruct (a <? t)|].
  rewrite removed_cons. simpl. destruct (Z.eqb_spec x t) as [->|Hne]; simpl.
  - destruct (a <? t); [by rewrite removed_cons, Z.eqb_refl|done].
  - rewrite IH. destruct (a <? t), (a <? x); try done.
    by rewrite removed_cons, (proj2 (Z.eqb_neq x t)).
Qed.

Lemma release_raw (key : string) (t now : Z) es :
  let es' := release_local config window key t now es in
  fst (raw (es' !! key)) = removed t (fst (raw (es !! key))) /\
  (fst (raw (es' !! key)) <> [] -> snd (raw (es' !! key)) = snd (raw (es !! key))) /\
  (forall k, k <> key -> es' !! k = es !! k).
Proof.
  unfold release_local, release_entry. destruct (es !! key) as [e|] eqn:Ek.
  2: { rewrite Ek. by split_and!. }
  destruct (strategy config); [done|..]; unfold removed; simpl;
    (destruct (default (timestamps e) (remove_timestamp t (timestamps e))) as [|x ts] eqn:Er;
     [rewrite lookup_delete_eq; split_and!; [by rewrite <- Er| |]; simpl; [done|];
        intros k Hk; by rewrite lookup_delete_ne
     |rewrite lookup_insert_eq; split_and!; [by rewrite <- Er|done|];
        intros k Hk; by rewrite lookup_insert_ne]).
Qed.

Lemma aged_removed (now t : Z) v v' :
  fst v' = removed t (fst v) -> (fst v' <> [] -> snd v' = snd v) ->
  aged now v' =
  (let a := aged now v in
   match strategy config with
   | FixedWindow => match removed t (fst a) with [] => ([], 0) | ts => (ts, snd a) end
   | _ => (if now - window <? t then removed t (fst a) else fst a, 0)
   end).
Proof.
  intros Hf Hs. unfold aged. destruct (strategy config) eqn:Es; [done|..]; cbn zeta.
  - destruct v as [[|x ts] s]; cbn [fst snd] in *.
    { unfold removed in Hf. simpl in Hf. by rewrite Hf. }
    destruct v' as [[|x' ts'] s']; cbn [fst snd] in *.
    + destruct (window <=? duration_since now s); cbn [fst snd]; [done|]. by rewrite <- Hf.
    + rewrite (Hs ltac:(done)). destruct (window <=? duration_since now s); cbn [fst snd]; [done|].
      by rewrite <- Hf.
  - by rewrite Hf, retain_removed.
Qed.

Lemma release_similar (key : string) (t now : Z) es es' :
  similar now es es' ->
  similar now (release_local config window key t now es) (release_local config window key t now es').
Proof.
  intros Hs k. destruct (release_raw key t now es) as (Hf1 & Hs1 & Ho1).
  destruct (release_raw key t now es') as (Hf2 & Hs2 & Ho2).
  destruct (decide (k = key)) as [->|Hk].
  - rewrite (aged_removed now t _ _ Hf1 Hs1), (aged_removed now t _ _ Hf2 Hs2). by rewrite (Hs key).
  - rewrite Ho1, Ho2 by done. apply Hs.
Qed.

(** ** Sequences *)

Lemma run_op_similar (op : RlOp) (now : Z) es es' :
  op <> RlCleanup -> similar now es es' ->
  let '(es1, r1) := run_op config window op now es in
  let '(es2, r2) := run_op config window op now es' in
  r1 = r2 /\ similar now es1 es2.
Proof.
  intros Hop Hs. destruct op as [key|key lim|key t|]; simpl; [| | |done].
  - unfold check. destruct (enabled config); simpl; [|done].
    pose proof (check_similar key (effective_rpm config) false now es es' Hs) as Hc.
    destruct (check_impl _ _ _ _ _ _ _ es) as [es1 r1].
    destruct (check_impl _ _ _ _ _ _ _ es') as [es2 r2]. by destruct Hc as [-> ?].
  - unfold check_and_record_with_source_and_limit, record_local.
    destruct (enabled config); simpl; [|done].
    pose proof (check_similar key lim true now es es' Hs) as Hc.
    destruct (check_impl _ _ _ _ _ _ _ es) as [es1 r1].
    destruct (check_impl _ _ _ _ _ _ _ es') as [es2 r2]. by destruct Hc as [-> ?].
  - split; [done|]. by apply release_similar.
Qed.
End Views.

Definition is_cleanup (op : Z * RlOp) : bool :=
  match snd op with RlCleanup => true | _ => false end.

(** Clock readings in the order in which the entries were locked. *)
Fixpoint in_order (now : Z) (ops : list (Z * RlOp)) : Prop :=
  match ops with [] => True | (t, _) :: ops => now <= t /\ in_order t ops end.

Lemma in_order_weaken (a b : Z) ops : a <= b -> in_order b ops -> in_order a ops.
Proof. destruct ops as [|[t op] ops]; simpl; [done|]. intros ? [? ?]. split; [lia|done]. Qed.

Lemma run_ops_cons (config : RateLimitConfig) (window now : Z) op ops es :
  snd (run_ops config window ((now, op) :: ops) es) =
  snd (run_op config window op now es)
  :: snd (run_ops config window ops (fst (run_op config window op now es))).
Proof.
  cbn [run_ops]. destruct (run_op config window op now es) as [es1 r]. cbn [fst snd].
  by destruct (run_ops config window ops es1).
Qed.

Lemma run_ops_similar (config : RateLimitConfig) (window now : Z) (ops : list (Z * RlOp))
    (es es' : Entries) :
  strategy config <> TokenBucket -> in_order now ops -> similar config window now es es' ->
  omap id (snd (run_ops config window ops es))
  = omap id (snd (run_ops config window (List.filter (fun op => negb (is_cleanup op)) ops) es')).
Proof.
  intros Hst. revert now es es'. induction ops as [|[t op] ops IH]; intros now es es' Ho Hs; [done|].
  destruct Ho as [Ht Ho]. apply (similar_later _ _ now t) in Hs; [|done].
  assert (Hstep : op <> RlCleanup ->
    omap id (snd (run_ops config window ((t, op) :: ops) es)) =
    omap id (snd (run_ops config window
      ((t, op) :: List.filter (fun op => negb (is_cleanup op)) ops) es'))).
  { intros Hop. rewrite !run_ops_cons.
    pose proof (run_op_similar config window Hst op t es es' Hop Hs) as Hr.
    destruct (run_op config window op t es) as [es1 r1].
    destruct (run_op config window op t es') as [es2 r2]. destruct Hr as [-> Hs'].
    cbn [fst snd]. specialize (IH t es1 es2 Ho Hs'). destruct r2; cbn; by rewrite IH. }
  destruct op; try (by apply Hstep). rewrite run_ops_cons. cbn [List.filter is_cleanup snd negb].
  apply (IH t (cleanup config window t es) es' Ho).
  intros k. by rewrite (cleanup_similar config window Hst t es k).
Qed.

(** * Properties *)

(** The cleanup task is invisible.  With the window strategies, running
    [cleanup] at any moments between the operations of any clients changes none
    of their answers - not whether a request is admitted, nor the counts, nor the
    times reported - as long as the clock readings follow the order of the
    operations. *)
Theorem cleanup_invisible (config : RateLimitConfig) (window now : Z) (ops : list (Z * RlOp))
    (es : Entries) (Hst : strategy config <> TokenBucket) (Ho : in_order now ops) :
  omap id (snd (run_ops config window ops es))
  = omap id (snd (run_ops config window (List.filter (fun op => negb (is_cleanup op)) ops) es)).
Proof. by eapply run_ops_similar. Qed.

Definition example_limits (s : RateLimitStrategy) : RateLimitConfig :=
  mkRateLimitConfig true s 2 None FailClosed.

Definition seconds (n : Z) : Z := from_secs n.

Lemma cleanup_invisible_witness :
  let ops := [(0, RlRecord "k" 2); (seconds 61, RlCleanup); (seconds 61, RlRecord "k" 2);
              (seconds 62, RlRecord "k" 2); (seconds 63, RlCheck "k")] in
  allowed <$> omap id (snd (run_ops (example_limits SlidingWindow) (seconds 60) ops ∅))
  = [true; true; true; false].
Proof.
  intros ops. unfold ops.
  rewrite (cleanup_invisible (example_limits SlidingWindow) (seconds 60) 0); [|discriminate|].
  - vm_compute. reflexivity.
  - simpl. unfold seconds, from_secs. lia.
Defined.

(** A release gives a token back up to the default limit: under a higher limit
    of its own a key loses the tokens above it.  Two requests of a hundred are
    recorded, and 97 remain for the third; when the first is released before,
    only 59 remain. *)
Lemma release_loses_tokens :
  let config := mkRateLimitConfig true TokenBucket 60 None FailClosed in
  let third release :=
    remaining <$> last (omap id (snd (run_ops config (seconds 60)
      ([(0, RlRecord "k" 100); (1, RlRecord "k" 100)] ++ release ++ [(2, RlRecord "k" 100)]) ∅))) in
  third [] = Some 97 /\ third [(2, RlRelease "k" 0)] = Some 59.
Proof. split; vm_compute; reflexivity. Qed.
