(* ===== verification/RateLimiterBounds.v ===== *)
(** How many requests the window strategies of [RateLimiter] let through over
    time, and when a refused client is let through again, on a limiter that
    counts by itself: none of the runs has Redis. *)

From S2P Require Import Prelude Float64 RateLimiter.

Section Bounds.
Variable config : RateLimitConfig.
Variable window : Z.
Variable key : string.

Implicit Types (es : Entries) (log : list Z).

Definition left_of (now : Z) es : list Z * Z := aged config window now (raw (es !! key)).

Definition granted (r : option RateLimitResult) : bool :=
  match r with Some r => allowed r | None => false end.

(** The requests of [key] that were admitted and not released. *)
Definition log_op (op : RlOp) (now : Z) es log : list Z :=
  match op with
  | RlRecord k _ =>
      if String.eqb k key && granted (snd (run_op config window op now es)) then log ++ [now]
      else log
  | RlRelease k t =>
      if String.eqb k key && bool_decide (t ∈ fst (left_of now es)) then removed t log else log
  | _ => log
  end.

Fixpoint admitted (ops : list (Z * RlOp)) es log : list Z :=
  match ops with
  | [] => log
  | (now, op) :: ops =>
      admitted ops (fst (run_op config window op now es)) (log_op op now es log)
  end.

(** The requests of a log in the window that ends at [t]. *)
Definition count (t : Z) log : Z :=
  Z.of_nat (length (filter (fun x => t - window < x /\ x <= t) log)).

(** * Counting *)

Lemma count_app t l k : count t (l ++ k) = count t l + count t k.
Proof. unfold count. rewrite filter_app, length_app. lia. Qed.

Lemma count_perm t l k : l ≡ₚ k -> count t l = count t k.
Proof. intros Hp. unfold count. by rewrite Hp. Qed.

Lemma count_length t l : 0 <= count t l <= Z.of_nat (length l).
Proof. unfold count. pose proof (length_filter (fun x => t - window < x /\ x <= t) l). lia. Qed.

Lemma count_old now t l : Forall (fun x => x <= now - window) l -> now <= t -> count t l = 0.
Proof.
  intros Hl Ht. unfold count. induction Hl as [|x l Hx Hl IH]; [done|].
  rewrite filter_cons_False by lia. done.
Qed.

Lemma count_early now t : t < now -> count t [now] = 0.
Proof. intros Ht. unfold count. rewrite filter_cons_False by lia. done. Qed.

Lemma removed_perm (t : Z) (ts : list Z) : t ∈ ts -> ts ≡ₚ t :: removed t ts.
Proof.
  induction ts as [|x ts IH]; intros Hin; [by apply not_elem_of_nil in Hin|].
  rewrite removed_cons. destruct (Z.eqb_spec x t) as [->|Hne]; [done|].
  apply elem_of_cons in Hin as [->|Hin]; [done|]. rewrite (IH Hin) at 1. apply perm_swap.
Qed.

Lemma removed_split (t : Z) (log rest ts : list Z) :
  log ≡ₚ rest ++ ts -> t ∈ ts -> removed t log ≡ₚ rest ++ removed t ts.
Proof.
  intros Hp Hin. apply (Permutation_cons_inv (a := t)).
  rewrite <- (removed_perm t log), Hp, (removed_perm t ts Hin) at 1.
  - by rewrite <- Permutation_middle.
  - rewrite Hp. apply elem_of_app. by right.
Qed.

Lemma removed_sub (t : Z) (ts : list Z) (P : Z -> Prop) : Forall P ts -> Forall P (removed t ts).
Proof.
  induction 1 as [|x ts Hx Hts IH]; [constructor|]. rewrite removed_cons. case_match; [done|].
  by constructor.
Qed.

Lemma removed_length (t : Z) (ts : list Z) : (length (removed t ts) <= length ts)%nat.
Proof.
  induction ts as [|x ts IH]; [done|]. rewrite removed_cons. case_match; simpl; lia.
Qed.

Lemma removed_count (t x : Z) log : count x (removed t log) <= count x log.
Proof.
  destruct (decide (t ∈ log)) as [Hin|Hn].
  - rewrite (count_perm x log (t :: removed t log)) by by apply removed_perm.
    change (t :: removed t log) with ([t] ++ removed t log). rewrite count_app.
    pose proof (count_length x [t]). lia.
  - assert (removed t log = log) as ->; [|lia].
    induction log as [|y log IH]; [done|]. rewrite removed_cons.
    apply not_elem_of_cons in Hn as [Hne Hn]. rewrite (proj2 (Z.eqb_neq y t)) by congruence.
    by rewrite IH.
Qed.

(** The expired part of a list and the rest. *)
Lemma retain_split (a : Z) (ts : list Z) :
  exists old, ts ≡ₚ old ++ retain_after a ts /\ Forall (fun x => x <= a) old.
Proof.
  induction ts as [|x ts (old & Hp & Ho)]; [by exists []|]. simpl.
  destruct (Z.ltb_spec a x).
  - exists old. split; [|done]. rewrite Hp at 1. apply Permutation_middle.
  - exists (x :: old). split; [by rewrite Hp at 1|by constructor].
Qed.

(** * One operation *)

Hypothesis Hwindow : 0 < window.
Hypothesis Henabled : enabled config = true.
Variable L : Z.
Hypothesis HL : 0 <= L <= u32_max.

Definition limited (op : RlOp) : Prop :=
  match op with RlRecord k limit => k = key -> limit <= L | _ => True end.

(** What an operation does to the key, seen at its time. *)
Inductive effect (now : Z) : list Z * Z -> list Z -> list Z * Z -> list Z -> Prop :=
| effect_none v log v' :
    fst v' = fst v -> (fst v <> [] -> snd v' = snd v) -> effect now v log v' log
| effect_push v log v' :
    fst v' = fst v ++ [now] -> len_u32 (fst v) < L -> (fst v <> [] -> snd v' = snd v) ->
    (strategy config = FixedWindow -> fst v = [] -> snd v' = now) ->
    effect now v log v' (log ++ [now])
| effect_release v log v' t :
    t ∈ fst v -> fst v' = removed t (fst v) -> (fst v' <> [] -> snd v' = snd v) ->
    effect now v log v' (removed t log).

Lemma duration_self (now : Z) : duration_since now now = 0.
Proof. unfold duration_since. lia. Qed.

(** A decided view is what is left of it. *)
Lemma decided_left (lim : Z) (rec : bool) (now : Z) v0 :
  strategy config <> TokenBucket ->
  let v := aged config window now v0 in
  let '(v1, r) := decide_view config window lim rec now v in
  let v' := aged config window now v1 in
  fst v' = (if allowed r && rec then fst v ++ [now] else fst v) /\
  (fst v <> [] -> snd v' = snd v) /\
  (strategy config = FixedWindow -> fst v = [] -> allowed r && rec = true -> snd v' = now) /\
  allowed r = (len_u32 (fst v) <? lim).
Proof.
  intros Hst. unfold decide_view, aged. destruct (strategy config); [done|..]; cbn zeta.
  - destruct v0 as [[|t ts] s0]; cbn [fst snd].
    + unfold window_result. cbn [fst snd allowed].
      destruct ((len_u32 [] <? lim) && rec); cbn [fst snd app].
      * rewrite duration_self, (proj2 (Z.leb_gt window 0)) by lia. by split_and!.
      * by split_and!.
    + destruct (window <=? duration_since now s0) eqn:Ew; cbn [fst snd]; unfold window_result;
        cbn [fst snd allowed].
      * destruct ((len_u32 [] <? lim) && rec); cbn [fst snd app].
        -- rewrite duration_self, (proj2 (Z.leb_gt window 0)) by lia. by split_and!.
        -- by split_and!.
      * destruct ((len_u32 (t :: ts) <? lim) && rec); cbn [fst snd app]; rewrite Ew; by split_and!.
  - set (ts := retain_after (now - window) (fst v0)). cbn [fst snd].
    assert (Hts : retain_after (now - window) ts = ts) by (apply retain_after_twice; lia).
    unfold window_result. cbn [fst snd allowed].
    split_and!; [|done|done|done].
    destruct ((len_u32 ts <? lim) && rec); cbn [fst]; [|done].
    unfold retain_after. rewrite List.filter_app. fold (retain_after (now - window) ts).
    rewrite Hts. simpl. by rewrite (proj2 (Z.ltb_lt _ _)) by lia.
Qed.

Lemma op_effect (op : RlOp) (now : Z) es log :
  strategy config <> TokenBucket -> limited op ->
  effect now (left_of now es) log (left_of now (fst (run_op config window op now es)))
    (log_op op now es log).
Proof.
  intros Hst Hlim. unfold left_of.
  assert (Hsame : forall es', es' !! key = es !! key ->
    effect now (aged config window now (raw (es !! key))) log
      (aged config window now (raw (es' !! key))) log) by (intros es' ->; by apply effect_none).
  destruct op as [k|k lim|k t|]; unfold log_op; cbn [run_op].
  - unfold check. rewrite Henabled. cbn [negb].
    pose proof (check_impl_view config window Hst k (effective_rpm config) false now es) as Hc.
    destruct (check_impl _ _ _ _ _ _ _ _) as [es' r]. cbn [fst snd].
    destruct Hc as (_ & Hv & Ho). destruct (decide (k = key)) as [->|Hne].
    2: { apply Hsame. by apply Ho. }
    pose proof (decided_left (effective_rpm config) false now (raw (es !! key)) Hst) as Hd.
    cbn zeta in Hd. rewrite Hv.
    destruct (decide_view _ _ _ _ _ _) as [v1 r1]. cbn [fst]. rewrite andb_false_r in Hd.
    destruct Hd as (Hf & Hs & _). by apply effect_none.
  - unfold check_and_record_with_source_and_limit, record_local. rewrite Henabled. cbn [negb].
    pose proof (check_impl_view config window Hst k lim true now es) as Hc.
    destruct (check_impl _ _ _ _ _ _ _ _) as [es' r]. cbn [fst snd granted].
    destruct Hc as (Hr & Hv & Ho). destruct (String.eqb_spec k key) as [->|Hne]; cbn [andb].
    2: { apply Hsame. apply Ho. congruence. }
    pose proof (decided_left lim true now (raw (es !! key)) Hst) as Hd. cbn zeta in Hd.
    rewrite Hv. destruct (decide_view _ _ _ _ _ _) as [v1 r1]. cbn [fst snd] in *. subst r1.
    rewrite andb_true_r in Hd. destruct Hd as (Hf & Hs & Hn & Ha).
    destruct (allowed r) eqn:Er.
    + apply effect_push; try done.
      * symmetry in Ha. apply Z.ltb_lt in Ha. specialize (Hlim eq_refl). lia.
      * intros Hfix He. by apply Hn.
    + by apply effect_none.
  - cbn [fst]. destruct (release_raw config window Hst k t now es) as (Hf & Hs & Ho).
    destruct (String.eqb_spec k key) as [->|Hne]; cbn [andb].
    2: { apply Hsame. apply Ho. congruence. }
    pose proof (aged_removed config window Hst now t _ _ Hf Hs) as Ha. cbn zeta in Ha.
    rewrite Ha. unfold left_of. set (v := aged config window now (raw (es !! key))).
    assert (Hin : forall ts, fst v = ts -> t ∉ ts -> removed t ts = ts).
    { intros ts _. induction ts as [|x ts IH]; intros Hn; [done|]. rewrite removed_cons.
      apply not_elem_of_cons in Hn as [H1 H2]. rewrite (proj2 (Z.eqb_neq x t)) by congruence.
      by rewrite IH. }
    destruct (strategy config) eqn:Est; [done|..].
    + case_bool_decide as Hmem.
      * eapply effect_release; [exact Hmem|by destruct (removed t (fst v))|].
        by destruct (removed t (fst v)).
      * rewrite (Hin _ eq_refl Hmem). destruct v as [[|x ts] s0] eqn:Ev; by apply effect_none.
    + assert (Hsnd : snd v = 0) by (unfold v, aged; by rewrite Est).
      assert (Hold : t ∈ fst v -> now - window < t).
      { unfold v, aged. rewrite Est. cbn [fst]. rewrite retain_after_spec.
        intros Hx. by apply list_elem_of_filter in Hx as [? _]. }
      case_bool_decide as Hmem.
      * rewrite (proj2 (Z.ltb_lt _ _)) by by apply Hold. by eapply effect_release.
      * rewrite (Hin _ eq_refl Hmem). apply effect_none; [by case_match|done].
  - cbn [fst]. rewrite <- (cleanup_similar config window Hst now es key).
    apply effect_none; done.
Qed.

Lemma left_later (now now' : Z) es :
  now <= now' -> left_of now' es = aged config window now' (left_of now es).
Proof. intros Hn. unfold left_of. by rewrite aged_aged. Qed.

Lemma len_u32_fits (ts : list Z) : Z.of_nat (length ts) <= L -> len_u32 ts = Z.of_nat (length ts).
Proof. intros Hl. unfold len_u32. apply wrap_u32_small. unfold fits_u32. lia. Qed.

(** The windows of a log hold at most [b] requests. *)
Definition sparse (b : Z) log : Prop := forall t, count t log <= b.

Lemma sparse_push (now b : Z) old rest log :
  sparse b log -> log ≡ₚ old ++ rest -> Forall (fun x => x <= now - window) old ->
  Z.of_nat (length rest) + 1 <= b -> sparse b (log ++ [now]).
Proof.
  intros Hs Hp Ho Hl t. destruct (Z.lt_ge_cases t now) as [Hlt|Hge].
  - rewrite count_app, count_early by done. specialize (Hs t). lia.
  - rewrite count_app, (count_perm t log (old ++ rest)) by done.
    rewrite count_app, (count_old now) by done.
    pose proof (count_length t rest). pose proof (count_length t [now]). simpl in *. lia.
Qed.

Lemma sparse_removed (b t : Z) log : sparse b log -> sparse b (removed t log).
Proof. intros Hs x. pose proof (removed_count t x log). specialize (Hs x). lia. Qed.

(** ** Sliding windows *)

Record sliding_inv (now : Z) (v : list Z * Z) log : Prop := {
  si_split : exists old, log ≡ₚ old ++ fst v /\ Forall (fun x => x <= now - window) old;
  si_length : Z.of_nat (length (fst v)) <= L;
  si_sparse : sparse L log;
}.

Lemma sliding_later (now now' : Z) v log :
  strategy config = SlidingWindow -> now <= now' -> sliding_inv now v log ->
  sliding_inv now' (aged config window now' v) log.
Proof.
  intros Hst Hn [(old & Hp & Ho) Hl Hs]. unfold aged. rewrite Hst. cbn [fst].
  destruct (retain_split (now' - window) (fst v)) as (out & Hp' & Hout).
  split; [|..|done]; cbn [fst].
  - exists (old ++ out). split; [by rewrite Hp, Hp', app_assoc at 1|].
    apply Forall_app. split; [|done]. eapply Forall_impl; [done|]. simpl. lia.
  - apply Permutation_length in Hp'. rewrite length_app in Hp'. lia.
Qed.

Lemma sliding_effect (now : Z) v log v' log' :
  sliding_inv now v log -> effect now v log v' log' -> sliding_inv now v' log'.
Proof.
  intros [(old & Hp & Ho) Hl Hs] He. destruct He as [v log v' Hf _|v log v' Hf Hlt _ _|v log v' t Hin Hf _].
  - split; [exists old|..]; rewrite ?Hf; done.
  - rewrite len_u32_fits in Hlt by done. split; rewrite ?Hf.
    + exists old. split; [by rewrite Hp, app_assoc at 1|done].
    + rewrite length_app. simpl. lia.
    + eapply sparse_push; try done. lia.
  - split; rewrite ?Hf.
    + exists old. split; [by apply removed_split|done].
    + pose proof (removed_length t (fst v)). lia.
    + by apply sparse_removed.
Qed.

(** ** Fixed windows

    The requests of the current window, those of the one before, and older
    ones. *)

Record fixed_inv (now : Z) (v : list Z * Z) log : Prop := {
  fi_split : exists older prev, log ≡ₚ older ++ prev ++ fst v /\
    Forall (fun x => x <= now - window) older /\ Z.of_nat (length prev) <= L /\
    (fst v <> [] -> Forall (fun x => x <= snd v) prev);
  fi_past : Forall (fun x => x <= now) log;
  fi_length : Z.of_nat (length (fst v)) <= L;
  fi_sparse : sparse (2 * L) log;
}.

Lemma fixed_later (now now' : Z) v log :
  strategy config = FixedWindow -> now <= now' -> fixed_inv now v log -> fixed_inv now' (aged config window now' v) log.
Proof.
  intros Hst Hn [(older & prev & Hp & Ho & Hl & Hprev) Hpast Hlen Hs].
  assert (Hpast' : Forall (fun x => x <= now') log)
    by (eapply Forall_impl; [done|]; simpl; lia).
  assert (Ho' : Forall (fun x => x <= now' - window) older)
    by (eapply Forall_impl; [done|]; simpl; lia).
  unfold aged. rewrite Hst. destruct v as [[|t ts] s0]; cbn [fst snd] in *.
  - split; cbn [fst snd]; try done. by exists older, prev.
  - destruct (Z.leb_spec window (duration_since now' s0)).
    2: { split; cbn [fst snd]; try done. by exists older, prev. }
    split; cbn [fst snd]; try done; [|simpl; lia].
    exists (older ++ prev), (t :: ts). rewrite app_nil_r. split_and!; try done.
    + by rewrite <- app_assoc.
    + apply Forall_app. split; [done|]. eapply Forall_impl; [by apply Hprev|]. simpl.
      intros x. unfold duration_since in *. lia.
Qed.

Lemma fixed_effect (now : Z) v log v' log' :
  strategy config = FixedWindow -> fixed_inv now v log -> effect now v log v' log' ->
  fixed_inv now v' log'.
Proof.
  intros Hst [(older & prev & Hp & Ho & Hl & Hprev) Hpast Hlen Hs] He.
  assert (Hprevpast : Forall (fun x => x <= now) prev).
  { rewrite Hp in Hpast. by apply Forall_app in Hpast as [_ [? _]%Forall_app]. }
  destruct He as [v log v' Hf Hsnd|v log v' Hf Hlt Hsnd Hnow|v log v' t Hin Hf Hsnd].
  - split; rewrite ?Hf; try done. exists older, prev. split_and!; try done.
    intros Hne. rewrite Hsnd by done. by apply Hprev.
  - rewrite len_u32_fits in Hlt by done. split; rewrite ?Hf.
    + exists older, prev. split_and!; try done.
      * by rewrite Hp, !app_assoc at 1.
      * intros _. destruct (fst v) as [|x ts] eqn:Ev.
        -- by rewrite Hnow.
        -- rewrite Hsnd by done. by apply Hprev.
    + apply Forall_app. split; [done|]. by repeat constructor.
    + rewrite length_app. simpl. lia.
    + eapply sparse_push; [done|exact Hp|done|]. rewrite length_app. lia.
  - split; rewrite ?Hf.
    + exists older, prev. split_and!; try done.
      * rewrite app_assoc. apply removed_split; [by rewrite <- app_assoc|done].
      * rewrite <- Hf. intros Hne. rewrite Hsnd by done. apply Hprev.
        intros He. rewrite He in Hin. by apply not_elem_of_nil in Hin.
    + by apply removed_sub.
    + pose proof (removed_length t (fst v)). lia.
    + by apply sparse_removed.
Qed.

(** ** Sequences *)

(** The clock reading of the last operation. *)
Fixpoint last_time (now : Z) (ops : list (Z * RlOp)) : Z :=
  match ops with [] => now | (t, _) :: ops => last_time t ops end.

Lemma run_inv (I : Z -> list Z * Z -> list Z -> Prop) :
  strategy config <> TokenBucket ->
  (forall now now' v log, now <= now' -> I now v log -> I now' (aged config window now' v) log) ->
  (forall now v log v' log', I now v log -> effect now v log v' log' -> I now v' log') ->
  forall ops now es log, in_order now ops -> Forall (fun x => limited (snd x)) ops ->
    I now (left_of now es) log ->
    I (last_time now ops) (left_of (last_time now ops) (fst (run_ops config window ops es)))
      (admitted ops es log).
Proof.
  intros Hst Hlater Heff ops. induction ops as [|[t op] ops IH]; intros now es log Ho Hlim Hi.
  - done.
  - destruct Ho as [Ht Ho]. apply Forall_cons in Hlim as [Hop Hlim]. cbn [admitted last_time].
    assert (Hrun : fst (run_ops config window ((t, op) :: ops) es)
                   = fst (run_ops config window ops (fst (run_op config window op t es)))).
    { cbn [run_ops]. destruct (run_op config window op t es) as [es1 r]. cbn [fst].
      by destruct (run_ops config window ops es1). }
    rewrite Hrun. apply (IH t); [done|done|]. eapply Heff; [|by apply op_effect].
    rewrite (left_later now t) by done. by eapply Hlater.
Qed.

Lemma left_nothing (now : Z) : fst (left_of now ∅) = [].
Proof. unfold left_of, aged. rewrite lookup_empty. by destruct (strategy config). Qed.

Lemma sparse_nil (b : Z) : 0 <= b -> sparse b [].
Proof. intros Hb t. unfold count. simpl. lia. Qed.

(** ** Waiting *)

Definition orderly (now : Z) (v : list Z * Z) (log : list Z) : Prop :=
  StronglySorted Z.le (fst v) /\ Forall (fun x => x <= now) (fst v) /\
  Z.of_nat (length (fst v)) <= L /\
  (strategy config = FixedWindow -> fst v <> [] -> snd v <= now).

Lemma Forall_retain (P : Z -> Prop) (a : Z) (ts : list Z) :
  Forall P ts -> Forall P (retain_after a ts).
Proof. induction 1 as [|x ts Hx Hts IH]; simpl; [constructor|]. case_match; [by constructor|done]. Qed.

Lemma retain_sorted (a : Z) (ts : list Z) :
  StronglySorted Z.le ts -> StronglySorted Z.le (retain_after a ts).
Proof.
  induction 1 as [|x ts Hs IH Hx]; simpl; [constructor|]. case_match; [|done].
  constructor; [done|]. by apply Forall_retain.
Qed.

Lemma removed_sorted (t : Z) (ts : list Z) :
  StronglySorted Z.le ts -> StronglySorted Z.le (removed t ts).
Proof.
  induction 1 as [|x ts Hs IH Hx]; [constructor|]. rewrite removed_cons. case_match; [done|].
  constructor; [done|]. by apply removed_sub.
Qed.

Lemma sorted_snoc (now : Z) (ts : list Z) :
  StronglySorted Z.le ts -> Forall (fun x => x <= now) ts -> StronglySorted Z.le (ts ++ [now]).
Proof.
  induction 1 as [|x ts Hs IH Hx]; intros Hl; simpl; [by repeat constructor|].
  apply Forall_cons in Hl as [H1 H2]. constructor; [by apply IH|].
  apply Forall_app. split; [done|by repeat constructor].
Qed.

Lemma orderly_later (now now' : Z) v log :
  now <= now' -> orderly now v log -> orderly now' (aged config window now' v) log.
Proof.
  intros Hn (Hs & Hp & Hl & Hst).
  assert (Hp' : Forall (fun x => x <= now') (fst v)) by (eapply Forall_impl; [done|]; simpl; lia).
  assert (Hst' : strategy config = FixedWindow -> fst v <> [] -> snd v <= now')
    by (intros Hf Hne; specialize (Hst Hf Hne); lia).
  assert (Hnil : orderly now' ([], 0) log) by (split_and!; [constructor|constructor|simpl; lia|done]).
  assert (Hret : strategy config <> FixedWindow ->
                 orderly now' (retain_after (now' - window) (fst v), 0) log).
  { intros Hne. split_and!; cbn [fst]; [by apply retain_sorted|by apply Forall_retain| |done].
    rewrite retain_after_spec.
    pose proof (length_filter (fun t => now' - window < t) (fst v)). lia. }
  unfold aged. destruct (strategy config) eqn:Est; [by apply Hret| |by apply Hret].
  destruct (fst v) eqn:Ev; [done|]. case_match; [done|]. unfold orderly. rewrite Ev.
  split_and!; try done. intros _. by apply Hst'.
Qed.

Lemma orderly_effect (now : Z) v log v' log' :
  orderly now v log -> effect now v log v' log' -> orderly now v' log'.
Proof.
  intros (Hs & Hp & Hl & Hst) He.
  destruct He as [v log v' Hf Hsnd|v log v' Hf Hlt Hsnd Hnow|v log v' t Hin Hf Hsnd];
    unfold orderly; rewrite Hf; split_and!; try done.
  - intros Hx Hne. rewrite Hsnd by done. by apply Hst.
  - by apply sorted_snoc.
  - apply Forall_app. split; [done|by repeat constructor].
  - rewrite len_u32_fits in Hlt by done. rewrite length_app. simpl. lia.
  - intros Hx _. destruct (fst v) as [|y ts] eqn:Ev; [by rewrite Hnow|].
    rewrite Hsnd by done. by apply Hst.
  - by apply removed_sorted.
  - by apply removed_sub.
  - pose proof (removed_length t (fst v)). lia.
  - rewrite <- Hf. intros Hx Hne. rewrite Hsnd by done. apply Hst; [done|].
    intros He. rewrite He in Hin. by apply not_elem_of_nil in Hin.
Qed.

Lemma seconds_left (d : Z) : d < from_secs (as_secs d + 1).
Proof. unfold from_secs, as_secs. pose proof (Z.mul_succ_div_gt d (10 ^ 9)). lia. Qed.

(** A refusal, and what the same key decides later when nothing happened. *)
Lemma refused_wait (now t : Z) v log :
  strategy config <> TokenBucket -> 0 < L ->
  orderly now (aged config window now v) log ->
  let '(v1, r) := decide_view config window L true now (aged config window now v) in
  allowed r = false ->
  exists secs, retry_after_secs r = Some secs /\
    1 <= secs <= Z.max 1 (as_secs window) /\
    (now + from_secs (secs + 1) <= t ->
     allowed (snd (decide_view config window L true t (aged config window t v1))) = true).
Proof.
  intros Hst HLp (Hs & Hp & Hl & Hstart). unfold decide_view, window_result.
  set (a := aged config window now v) in *. cbn [allowed snd fst].
  destruct (Z.ltb_spec (len_u32 (fst a)) L) as [Hlt|Hge]; cbn [andb retry_after_secs]; [done|].
  intros _. rewrite len_u32_fits in Hge by done.
  destruct (fst a) as [|o ts] eqn:Ea; [simpl in Hge; lia|].
  assert (Ho : o <= now) by by apply Forall_cons in Hp as [? _].
  assert (Hpos : forall d, 0 <= as_secs (sat_sub window (duration_since now d)) <= as_secs window).
  { intros d. unfold as_secs, sat_sub, duration_since. split; [apply Z.div_pos; lia|].
    apply Z.div_le_mono; lia. }
  destruct (strategy config) eqn:Est; [done|..].
  - set (start := snd a) in *. specialize (Hstart eq_refl ltac:(done)). eexists. split; [done|].
    set (reset := as_secs (sat_sub window (duration_since now start))).
    split; [specialize (Hpos start); fold reset in Hpos; lia|].
    intros Ht. unfold aged. rewrite Est. cbn [fst snd].
    rewrite (proj2 (Z.leb_le _ _)); [cbn [fst]; apply Z.ltb_lt; done|].
    pose proof (seconds_left (sat_sub window (duration_since now start))) as Hsec. fold reset in Hsec.
    unfold from_secs in *. unfold duration_since, sat_sub in *. lia.
  - eexists. split; [done|].
    set (reset := as_secs (sat_sub window (duration_since now o))).
    split; [specialize (Hpos o); fold reset in Hpos; lia|].
    intros Ht. unfold aged. rewrite Est. cbn [fst snd].
    pose proof (seconds_left (sat_sub window (duration_since now o))) as Hsec. fold reset in Hsec.
    assert (Hexp : (t - window <? o) = false).
    { apply Z.ltb_ge. unfold from_secs, duration_since, sat_sub in *. lia. }
    assert (Hret : (length (retain_after (t - window) (o :: ts)) <= length ts)%nat).
    { unfold retain_after. simpl. rewrite Hexp. fold (retain_after (t - window) ts).
      rewrite retain_after_spec. apply length_filter. }
    simpl in Hl, Hge. apply Z.ltb_lt. rewrite len_u32_fits by lia. lia.
Qed.
End Bounds.

(** * Properties *)

(** C40: On a limiter without Redis a sliding window never lets more than its
    limit through.  Starting from an empty limiter, however checks, admissions
    with limits of at most [L], releases and cleanups of any keys follow each
    other, every interval of the window's length contains at most [L] requests of
    a key that were admitted and not taken back.  (With Redis attached the
    limiter asks the fixed window of [RateLimitScript], whatever its strategy.) *)
Theorem sliding_window_limit (config : RateLimitConfig) (window : Z) (key : string) (L start : Z)
    (ops : list (Z * RlOp))
    (Hst : strategy config = SlidingWindow) (Hen : enabled config = true) (Hw : 0 < window)
    (HL : 0 <= L <= u32_max) (Ho : in_order start ops)
    (Hlim : Forall (fun x => limited key L (snd x)) ops) (t : Z) :
  count window t (admitted config window key ops ∅ []) <= L.
Proof.
  eapply (run_inv config window key Hw Hen L (sliding_inv window L)); try done.
  - congruence.
  - intros. by eapply sliding_later.
  - intros. by eapply sliding_effect.
  - split.
    + exists []. by rewrite left_nothing.
    + rewrite left_nothing. simpl. lia.
    + apply sparse_nil. lia.
Qed.

(** A fixed window lets at most twice its limit through in any interval of
    its length: starting from an empty limiter, for any sequence of checks,
    admissions with limits of at most [L], releases and cleanups, since two
    consecutive windows can meet inside the interval. *)
Theorem fixed_window_limit (config : RateLimitConfig) (window : Z) (key : string) (L start : Z)
    (ops : list (Z * RlOp))
    (Hst : strategy config = FixedWindow) (Hen : enabled config = true) (Hw : 0 < window)
    (HL : 0 <= L <= u32_max) (Ho : in_order start ops)
    (Hlim : Forall (fun x => limited key L (snd x)) ops) (t : Z) :
  count window t (admitted config window key ops ∅ []) <= 2 * L.
Proof.
  eapply (run_inv config window key Hw Hen L (fixed_inv window L)); try done.
  - congruence.
  - intros. by apply fixed_later with now.
  - intros. by eapply fixed_effect.
  - split.
    + exists [], []. rewrite left_nothing. split_and!; try done. simpl. lia.
    + done.
    + rewrite left_nothing. simpl. lia.
    + apply sparse_nil. lia.
Qed.

Definition burst : list (Z * RlOp) :=
  [(0, RlRecord "k" 3); (seconds 1, RlRelease "k" 0); (seconds 59, RlRecord "k" 3);
   (seconds 59, RlRecord "k" 3); (seconds 59, RlRecord "k" 3); (seconds 59, RlRecord "k" 3)].

Lemma sliding_window_limit_witness :
  count (seconds 60) (seconds 60)
    (admitted (example_limits SlidingWindow) (seconds 60) "k" burst ∅ []) <= 3 /\
  admitted (example_limits SlidingWindow) (seconds 60) "k" burst ∅ []
  = [seconds 59; seconds 59; seconds 59].
Proof.
  split; [|vm_compute; reflexivity].
  apply (sliding_window_limit (example_limits SlidingWindow) (seconds 60) "k" 3 0 burst
    eq_refl eq_refl); [vm_compute; reflexivity|vm_compute; split; discriminate|..].
  - unfold burst, seconds, from_secs. cbn [in_order]. lia.
  - unfold burst. repeat constructor; intros; simpl; lia.
Defined.

Definition boundary : list (Z * RlOp) :=
  [(0, RlRecord "k" 2); (seconds 59, RlRecord "k" 2); (seconds 60, RlRecord "k" 2);
   (seconds 60, RlRecord "k" 2); (seconds 60, RlRecord "k" 2)].

(** Three requests within a second, by a limit of two. *)
Lemma fixed_window_limit_witness :
  count (seconds 60) (seconds 60)
    (admitted (example_limits FixedWindow) (seconds 60) "k" boundary ∅ []) <= 4 /\
  count (seconds 60) (seconds 60)
    (admitted (example_limits FixedWindow) (seconds 60) "k" boundary ∅ []) = 3.
Proof.
  split; [|vm_compute; reflexivity].
  apply (fixed_window_limit (example_limits FixedWindow) (seconds 60) "k" 2 0 boundary
    eq_refl eq_refl); [vm_compute; reflexivity|vm_compute; split; discriminate|..].
  - unfold boundary, seconds, from_secs. cbn [in_order]. lia.
  - unfold boundary. repeat constructor; intros; simpl; lia.
Defined.

(** A refused client gets through.  After any sequence of operations on an
    empty limiter with limits of at most [L] > 0, a request refused by a window
    strategy is told to wait between one second and the window; and when nothing
    else is recorded for its key, one second later than that the same request is
    admitted. *)
Theorem refused_then_admitted (config : RateLimitConfig) (window : Z) (key : string)
    (L start now t : Z) (ops : list (Z * RlOp))
    (Hst : strategy config <> TokenBucket) (Hen : enabled config = true) (Hw : 0 < window)
    (HL : 0 < L <= u32_max) (Ho : in_order start ops) (Hnow : last_time start ops <= now)
    (Hlim : Forall (fun x => limited key L (snd x)) ops) :
  let es := fst (run_ops config window ops ∅) in
  let '(es', r, _) :=
    check_and_record_with_source_and_limit config window None key L now now es in
  allowed r = false ->
  exists secs, retry_after_secs r = Some secs /\ 1 <= secs <= Z.max 1 (as_secs window) /\
    (now + from_secs (secs + 1) <= t ->
     allowed (snd (fst (check_and_record_with_source_and_limit config window None key L t t es')))
     = true).
Proof.
  intros es. unfold check_and_record_with_source_and_limit, record_local. rewrite Hen. cbn [negb].
  assert (Hord : orderly config L now (left_of config window key now es) []).
  { pose proof (run_inv config window key Hw Hen L
      (fun now v _ => orderly config L now v []) Hst) as Hinv.
    rewrite (left_later config window key (last_time start ops) now) by done.
    eapply (orderly_later config window L ltac:(lia)); [done|].
    eapply (Hinv ltac:(intros; by eapply orderly_later; [lia|..])
                 ltac:(intros; by eapply orderly_effect; [lia|..]) ops start ∅ []); [done|done|].
    unfold orderly. rewrite left_nothing. split_and!; [constructor|constructor|simpl; lia|done]. }
  pose proof (check_impl_view config window Hst key L true now es) as Hc.
  destruct (check_impl config window key L true now now es) as [es' r].
  destruct Hc as (Hr & Hv & _). cbn [fst snd].
  pose proof (refused_wait config window Hw L ltac:(lia) now t (raw (es !! key)) [] Hst ltac:(lia) Hord)
    as Hwait.
  destruct (decide_view config window L true now _) as [v1 r1]. cbn [fst snd] in *. subst r1.
  intros Hrefused. destruct (Hwait Hrefused) as (secs & Hs & Hb & Hlater).
  exists secs. split_and!; [done|lia|lia|]. intros Ht.
  pose proof (check_impl_view config window Hst key L true t es') as Hc.
  destruct (check_impl config window key L true t t es') as [es2 r2].
  destruct Hc as (-> & _ & _). cbn [fst snd].
  assert (Hle : now <= t) by (unfold from_secs in Ht; lia).
  rewrite <- (aged_aged config window now t (raw (es' !! key))) by done.
  rewrite Hv, aged_aged by done. by apply Hlater.
Qed.

(** The wait is told in whole seconds, rounded down: at its end the client may
    still be refused. *)
Lemma retry_after_too_early :
  let ops := [(0, RlRecord "k" 1); (from_millis 500, RlRecord "k" 1);
              (from_millis 500 + seconds 59, RlRecord "k" 1);
              (from_millis 500 + seconds 60, RlRecord "k" 1)] in
  (fun r => (allowed r, retry_after_secs r)) <$>
    omap id (snd (run_ops (example_limits SlidingWindow) (seconds 60) ops ∅))
  = [(true, None); (false, Some 59); (false, Some 1); (true, None)].
Proof. vm_compute. reflexivity. Qed.

Lemma refused_then_admitted_witness :
  let es := fst (run_ops (example_limits SlidingWindow) (seconds 60) [(0, RlRecord "k" 1)] ∅) in
  let '(es', r, _) := check_and_record_with_source_and_limit (example_limits SlidingWindow)
    (seconds 60) None "k" 1 (seconds 20) (seconds 20) es in
  allowed r = false /\ retry_after_secs r = Some 40 /\
  allowed (snd (fst (check_and_record_with_source_and_limit (example_limits SlidingWindow)
    (seconds 60) None "k" 1 (seconds 61) (seconds 61) es'))) = true.
Proof.
  pose proof (refused_then_admitted (example_limits SlidingWindow) (seconds 60) "k" 1 0
    (seconds 20) (seconds 61) [(0, RlRecord "k" 1)] ltac:(discriminate) eq_refl
    ltac:(vm_compute; reflexivity) ltac:(vm_compute; split; [reflexivity|discriminate])
    ltac:(simpl; lia) ltac:(vm_compute; discriminate)
    ltac:(repeat constructor; intros; simpl; lia)) as H.
  cbn zeta in *.
  destruct (check_and_record_with_source_and_limit _ _ None "k" 1 (seconds 20) (seconds 20) _)
    as [[es' r] res] eqn:E.
  assert (Hr : r = mkRateLimitResult false 1 1 0 40 (Some 40)).
  { vm_compute in E. by injection E as _ <- _. }
  subst r. destruct (H eq_refl) as (secs & Hs & _ & Hlater).
  injection Hs as <-. split_and!; [done|done|]. apply Hlater. vm_compute. discriminate.
Defined.
