(* ===== verification/RateLimitScript.v ===== *)
(** The shared rate limit ([storage/redis/rate_limit.rs]): three Lua scripts over
    one Redis counter per key, and the parsing of their replies.

    A script runs atomically.  The key is gone once its deadline has passed;
    [TTL] answers -2 for a missing key, -1 for one without a deadline and
    otherwise the remaining time in whole seconds, whose rounding is the
    parameter [ttl_secs].  Times are milliseconds. *)

From S2P Require Import Prelude Float64 RateLimiter.

Record Counter := mkCounter {
  value : Z;
  deadline : option Z;
}.

(** The key as a command at [now] finds it. *)
Definition live (now : Z) (k : option Counter) : option Counter :=
  match k with
  | Some c =>
      match deadline c with
      | Some d => if now <? d then Some c else None
      | None => Some c
      end
  | None => None
  end.

Section Scripts.
Variable ttl_secs : Z -> Z.

(** [tonumber(redis.call("GET", key) or "0")]. *)
Definition redis_get (k : option Counter) : Z := match k with Some c => value c | None => 0 end.

Definition redis_ttl (now : Z) (k : option Counter) : Z :=
  match k with
  | Some c => match deadline c with Some d => ttl_secs (d - now) | None => -1 end
  | None => -2
  end.

Definition redis_expire (now secs : Z) (k : option Counter) : option Counter :=
  (fun c => mkCounter (value c) (Some (now + secs * 1000))) <$> k.

Definition redis_add (n : Z) (k : option Counter) : option Counter :=
  match k with
  | Some c => Some (mkCounter (value c + n) (deadline c))
  | None => Some (mkCounter n None)
  end.

(** [CHECK_AND_RECORD_SCRIPT]. *)
Definition check_and_record_script (limit window now : Z) (k : option Counter)
    : option Counter * list Z :=
  let k := live now k in
  let current := redis_get k in
  let ttl := redis_ttl now k in
  if limit <=? 0 then (k, [0; current; limit; 0; if ttl <? 0 then window else ttl])
  else if limit <=? current then
    if ttl <? 0 then (redis_expire now window k, [0; current; limit; 0; window])
    else (k, [0; current; limit; 0; ttl])
  else
    let k := redis_add 1 k in
    let current := redis_get k in
    let '(k, ttl) :=
      if (current =? 1) || (ttl <? 0) then (redis_expire now window k, window)
      else (k, redis_ttl now k) in
    (k, [1; current; limit; sat_sub limit current; ttl]).

(** [STATUS_SCRIPT]. *)
Definition status_script (limit window now : Z) (k : option Counter) : list Z :=
  let k := live now k in
  let current := redis_get k in
  let ttl := redis_ttl now k in
  [if current <? limit then 1 else 0; current; limit; sat_sub limit current;
   if ttl <? 0 then window else ttl].

(** [RELEASE_SCRIPT]. *)
Definition release_script (reservation_ttl now : Z) (k : option Counter) : option Counter * Z :=
  let k := live now k in
  if reservation_ttl <=? 0 then (k, 0)
  else
    let current := redis_get k in
    if current <=? 0 then (k, 0)
    else
      let ttl := redis_ttl now k in
      if ttl <? 0 then (k, current)
      else if reservation_ttl + 1 <? ttl then (k, current)
      else
        let k := redis_add (-1) k in
        let current := redis_get k in
        if current <=? 0 then (None, 0) else (k, current).

(** [parse_rate_limit_result]; [None] is the storage error. *)
Definition parse_rate_limit_result (values : list Z) : option RateLimitResult :=
  match values with
  | [allowed; current; limit; remaining; reset] =>
      let allowed := allowed =? 1 in
      let reset := Z.max reset 0 in
      Some (mkRateLimitResult allowed (wrap_u32 (Z.max current 0)) (wrap_u32 (Z.max limit 0))
              (wrap_u32 (Z.max remaining 0)) reset
              (if allowed then None else Some (Z.max reset 1)))
  | _ => None
  end.

(** The methods of the pool over one key; [noop] is a disabled pool, and an
    error of the connection or of the script is [RedisAnswer]'s [None].  The
    window is at least a second. *)
Definition noop_result (limit : Z) : RateLimitResult := mkRateLimitResult true 0 limit limit 0 None.

Definition rate_limit_check_and_record (noop : bool) (limit window_secs now : Z)
    (k : option Counter) : option Counter * RedisAnswer RateLimitResult :=
  if noop then (k, Some (noop_result limit))
  else
    let '(k, values) := check_and_record_script limit (Z.max window_secs 1) now k in
    (k, parse_rate_limit_result values).

Definition rate_limit_status (noop : bool) (limit window_secs now : Z) (k : option Counter)
    : RedisAnswer RateLimitResult :=
  if noop then Some (noop_result limit)
  else parse_rate_limit_result (status_script limit (Z.max window_secs 1) now k).

Definition rate_limit_release (noop : bool) (reservation_ttl_secs now : Z) (k : option Counter)
    : option Counter :=
  if noop || (reservation_ttl_secs =? 0) then k
  else fst (release_script reservation_ttl_secs now k).

(** * Sequences of scripts *)

Inductive RedisOp := RedisRecord (limit : Z) | RedisRelease (ttl : Z).

(** What the counter has counted since the key was created: the key, the
    requests admitted and those taken back. *)
Record Life := mkLife {
  key : option Counter;
  admissions : Z;
  releases : Z;
}.

Definition life_op (window now : Z) (op : RedisOp) (l : Life) : Life :=
  let '(mkLife k a r) :=
    match live now (key l) with
    | Some c => mkLife (Some c) (admissions l) (releases l)
    | None => mkLife None 0 0
    end in
  match op with
  | RedisRecord limit =>
      let '(k, res) := rate_limit_check_and_record false limit window now k in
      mkLife k (if match res with Some res => allowed res | None => false end then a + 1 else a) r
  | RedisRelease ttl =>
      let k' := rate_limit_release false ttl now k in
      mkLife k' a (r + (redis_get k - redis_get k'))
  end.

Fixpoint life_ops (window : Z) (ops : list (Z * RedisOp)) (l : Life) : Life :=
  match ops with
  | [] => l
  | (now, op) :: ops => life_ops window ops (life_op window now op l)
  end.
End Scripts.

(** Clock readings in order, and limits of at most [L]. *)
Fixpoint redis_in_order (now : Z) (ops : list (Z * RedisOp)) : Prop :=
  match ops with [] => True | (t, _) :: ops => now <= t /\ redis_in_order t ops end.

Definition redis_limited (L : Z) (op : RedisOp) : Prop :=
  match op with RedisRecord limit => limit <= L | RedisRelease _ => True end.

(** A counter counts what its key admitted since it was created, within the
    limit, and the key goes away. *)
Definition life_inv (L window now : Z) (l : Life) : Prop :=
  match key l with
  | None => True
  | Some c =>
      1 <= value c <= L /\ value c = admissions l - releases l /\
      0 <= releases l /\
      exists d, deadline c = Some d /\ d <= now + Z.max window 1 * 1000
  end.

Section Lemmas.
Variable ttl_secs : Z -> Z.
Hypothesis Httl : forall d, 0 < d -> 0 <= ttl_secs d.

Lemma live_age (L window now now' : Z) (l : Life) :
  life_inv L window now l -> now <= now' ->
  match live now' (key l) with
  | None => True
  | Some c => live now' (Some c) = Some c /\ life_inv L window now' (mkLife (Some c) (admissions l) (releases l)) /\
      exists d, deadline c = Some d /\ now' < d
  end.
Proof.
  unfold life_inv, live. destruct (key l) as [c|]; [|done].
  intros (Hv & Ha & Hr & d & Hd & Hle) Hn. rewrite Hd. destruct (Z.ltb_spec now' d); [|done].
  rewrite Hd, (proj2 (Z.ltb_lt now' d)) by done. split_and!; try done; try lia; simpl.
  - split_and!; try done; try lia. exists d. split; [done|lia].
  - by exists d.
Qed.

Lemma record_inv (L window now limit a r : Z) (k : option Counter) :
  0 <= L <= u32_max -> limit <= L -> life_inv L window now (mkLife k a r) ->
  (k = None -> a = 0 /\ r = 0) -> live now k = k ->
  (forall c, k = Some c -> exists d, deadline c = Some d /\ now < d) ->
  let '(k', res) := rate_limit_check_and_record ttl_secs false limit window now k in
  life_inv L window now
    (mkLife k' (if match res with Some res => allowed res | None => false end then a + 1 else a) r).
Proof.
  intros HL Hlim Hi Hnone Hlive Hd. unfold rate_limit_check_and_record, check_and_record_script.
  rewrite Hlive. unfold redis_ttl, redis_get. destruct k as [c|].
  - destruct Hi as (Hv & Ha & Hr & d & Hdl & Hle). simpl in Hv, Ha, Hr.
    destruct (Hd c eq_refl) as (d' & Hd' & Hlt). simplify_eq. rewrite Hdl.
    assert (Ht : 0 <= ttl_secs (d - now)) by (apply Httl; lia).
    destruct (Z.leb_spec limit 0); [|destruct (Z.leb_spec limit (value c))].
    + unfold life_inv. simpl. split_and!; try done; try lia. by exists d.
    + rewrite (proj2 (Z.ltb_ge _ 0)) by done. unfold life_inv. simpl.
      split_and!; try done; try lia. by exists d.
    + rewrite (proj2 (Z.ltb_ge (ttl_secs _) 0)) by done. cbn [redis_add value].
      rewrite (proj2 (Z.eqb_neq (value c + 1) 1)) by lia. cbn [orb].
      unfold life_inv. simpl. split_and!; try lia. by exists d.
  - destruct (Hnone eq_refl) as [-> ->]. destruct (Z.leb_spec limit 0); [done|]. simpl.
    unfold life_inv. simpl. split_and!; try lia. eexists. split; [done|lia].
Qed.

Lemma release_inv (L window now ttl a r : Z) (k : option Counter) :
  life_inv L window now (mkLife k a r) -> live now k = k ->
  let k' := rate_limit_release ttl_secs false ttl now k in
  life_inv L window now (mkLife k' a (r + (redis_get k - redis_get k'))).
Proof.
  intros Hi Hlive. unfold rate_limit_release, release_script. cbn [orb]. rewrite Hlive.
  assert (Hsame : life_inv L window now (mkLife k a (r + (redis_get k - redis_get k))))
    by by rewrite Z.sub_diag, Z.add_0_r.
  destruct (ttl =? 0); [done|]. destruct (ttl <=? 0); [done|].
  destruct (redis_get k <=? 0); [done|]. destruct (redis_ttl ttl_secs now k <? 0); [done|].
  destruct (ttl + 1 <? redis_ttl ttl_secs now k); [done|].
  destruct k as [c|]; [|done]. cbn [redis_add redis_get value].
  destruct Hi as (Hv & Ha & Hr & d & Hdl & Hle). simpl in Hv, Ha, Hr.
  destruct (Z.leb_spec (value c + -1) 0); cbn [fst redis_get value]; [done|].
  unfold life_inv. simpl. split_and!; try lia. by exists d.
Qed.

Lemma life_op_inv (L window now now' : Z) (op : RedisOp) (l : Life) :
  0 <= L <= u32_max -> redis_limited L op -> now <= now' -> life_inv L window now l ->
  life_inv L window now' (life_op ttl_secs window now' op l).
Proof.
  intros HL Hop Hn Hi. pose proof (live_age L window now now' l Hi Hn) as Hl.
  unfold life_op. destruct (live now' (key l)) as [c|].
  - destruct Hl as (Hlive & Hi' & Hd). destruct op as [limit|ttl].
    + pose proof (record_inv L window now' limit _ _ (Some c) HL Hop Hi' ltac:(done) Hlive
        ltac:(by intros ? [= <-])) as Hr.
      by destruct (rate_limit_check_and_record _ _ _ _ _ _).
    + by apply release_inv.
  - destruct op as [limit|ttl].
    + pose proof (record_inv L window now' limit 0 0 None HL Hop ltac:(done) ltac:(done) eq_refl
        ltac:(done)) as Hr.
      by destruct (rate_limit_check_and_record _ _ _ _ _ _).
    + by apply release_inv.
Qed.
End Lemmas.

(** The shared counter is exact, within the limit, and mortal.  From a
    missing key, for any admissions with limits of at most [L] and any releases,
    by any number of replicas, each script running atomically: while the key
    lives, its value is the number of requests admitted since it was created less
    those taken back, it is between one and the limit, and the key always has a
    deadline at most one window ahead, so no client is locked out for longer. *)
Theorem shared_window_exact (ttl_secs : Z -> Z) (L window start : Z)
    (ops : list (Z * RedisOp))
    (Httl : forall d, 0 < d -> 0 <= ttl_secs d) (HL : 0 <= L <= u32_max)
    (Ho : redis_in_order start ops) (Hlim : Forall (fun x => redis_limited L (snd x)) ops) :
  let l := life_ops ttl_secs window ops (mkLife None 0 0) in
  let last := fold_left (fun _ x => fst x) ops start in
  match key l with
  | None => True
  | Some c =>
      1 <= value c <= L /\ value c = admissions l - releases l /\ 0 <= releases l /\
      exists d, deadline c = Some d /\ d <= last + Z.max window 1 * 1000
  end.
Proof.
  intros l last. change (life_inv L window last l). unfold l, last. clear l last.
  assert (Hi : life_inv L window start (mkLife None 0 0)) by done.
  revert Hi. generalize (mkLife None 0 0). revert start Ho.
  induction ops as [|[t op] ops IH]; intros start Ho l Hi; [done|].
  apply Forall_cons in Hlim as [Hop Hlim]. destruct Ho as [Ht Ho]. cbn [life_ops fold_left fst].
  apply IH; [done|done|]. by eapply life_op_inv.
Qed.

(** Redis rounds the remaining time to the nearest second. *)
Definition nearest_second (ms : Z) : Z := (ms + 500) / 1000.

Lemma shared_window_exact_witness :
  let l := life_ops nearest_second 60
    [(0, RedisRecord 2); (10, RedisRecord 2); (20, RedisRecord 2); (30, RedisRelease 60);
     (40, RedisRecord 2)] (mkLife None 0 0) in
  key l = Some (mkCounter 2 (Some 60000)) /\ admissions l - releases l = 2.
Proof.
  intros l.
  pose proof (shared_window_exact nearest_second 2 60 0
    [(0, RedisRecord 2); (10, RedisRecord 2); (20, RedisRecord 2); (30, RedisRelease 60);
     (40, RedisRecord 2)]
    ltac:(intros d Hd; unfold nearest_second; apply Z.div_pos; lia)
    ltac:(vm_compute; split; discriminate) ltac:(simpl; lia)
    ltac:(repeat constructor; simpl; lia)) as H.
  fold l in H. cbn zeta in H.
  assert (Hk : key l = Some (mkCounter 2 (Some 60000))) by (vm_compute; reflexivity).
  rewrite Hk in H. destruct H as (_ & Hv & _). split; [done|]. by rewrite <- Hv.
Defined.
