(* ===== verification/Sse.v ===== *)
(** Server-sent events of provider streams ([core/providers/base/sse.rs],
    [base/sse/termination.rs]): the incremental parser over network chunks, the
    stream of its chunks, and the encoder of the gateway's own events
    ([core/streaming/types.rs]).

    The provider's transformer is the interface [SSETransformer]; it keeps a
    state of its own.  The network is the list of what the inner stream yields,
    one item per poll, and then its end. *)

From S2P Require Import Prelude Text ProviderErrors.

Record SSEEvent := mkSSEEvent {
  event_type : option bytes;
  data : bytes;
  event_id : option bytes;
  retry : option Z;                       (* u64 *)
}.

Definition no_event : SSEEvent := mkSSEEvent None [] None None.

Definition colon : Ascii.ascii := Ascii.ascii_of_nat 58.

(** [line.find(':')]: the field before it and what follows it. *)
Fixpoint split_colon (line : bytes) : option (bytes * bytes) :=
  match line with
  | [] => None
  | c :: line =>
      if Ascii.eqb c colon then Some ([], line)
      else '(field, value) ← split_colon line; Some (c :: field, value)
  end.

(** [SSEEvent::from_line]. *)
Definition from_line (line : bytes) : option SSEEvent :=
  match line with
  | [] => None
  | c :: _ =>
      if Ascii.eqb c colon then None
      else
        '(field, rest) ← split_colon line;
        let value := of_string (trim_start (to_string rest)) in
        let field := to_string field in
        if String.eqb field "data" then Some (mkSSEEvent None value None None)
        else if String.eqb field "event" then Some (mkSSEEvent (Some value) [] None None)
        else if String.eqb field "id" then Some (mkSSEEvent None [] (Some value) None)
        else if String.eqb field "retry" then
          retry_ms ← parse_u64 value; Some (mkSSEEvent None [] None (Some retry_ms))
        else None
  end.

Class SSETransformer (X C : Type) := {
  provider_name : static_str;
  is_end_marker : bytes -> bool;
  transform_chunk : bytes -> X -> X * result (option C) ProviderError;
  transform_stream_chunk : bytes -> X -> X * result (option C) ProviderError;
  take_stream_error_chunk : X -> X * option C;
  transformer_finish : X -> X * result (option C) ProviderError;
}.

(** The trait's default. *)
Definition default_is_end_marker (data : bytes) : bool :=
  String.eqb (trim (to_string data)) "[DONE]".

Section Parser.
Context {X C : Type} `{SSETransformer X C}.
(** [format!("{:?}", error)], and the text of a transport error. *)
Variable debug_str : ProviderError -> string.
Variable redact_sensitive_text : string -> string.

Record UnifiedSSEParser := mkParser {
  transformer : X;
  buffer : bytes;
  pending_utf8 : bytes;
  current_event : option SSEEvent;
  stream_finished : bool;
}.

Definition parser_new (x : X) : UnifiedSSEParser := mkParser x [] [] None false.

Record SSEBatch := mkBatch {
  chunks : list C;
  batch_error : option ProviderError;
}.

Definition set_transformer (x : X) (p : UnifiedSSEParser) : UnifiedSSEParser :=
  mkParser x (buffer p) (pending_utf8 p) (current_event p) (stream_finished p).
Definition set_event (e : option SSEEvent) (p : UnifiedSSEParser) : UnifiedSSEParser :=
  mkParser (transformer p) (buffer p) (pending_utf8 p) e (stream_finished p).
Definition set_input (b u : bytes) (p : UnifiedSSEParser) : UnifiedSSEParser :=
  mkParser (transformer p) b u (current_event p) (stream_finished p).
Definition set_finished (p : UnifiedSSEParser) : UnifiedSSEParser :=
  mkParser (transformer p) (buffer p) (pending_utf8 p) (current_event p) true.

(** A call of the transformer. *)
Definition on_transformer {T} (op : X -> X * T) (p : UnifiedSSEParser) : UnifiedSSEParser * T :=
  let '(x, r) := op (transformer p) in (set_transformer x p, r).

Definition process_event (event : SSEEvent) (stream_mode : bool) (p : UnifiedSSEParser)
    : UnifiedSSEParser * result (option C) ProviderError :=
  match data event with
  | [] => (p, Ok None)
  | _ =>
      if is_end_marker (data event) then
        let p := set_finished p in
        if stream_mode then on_transformer transformer_finish p else (p, Ok None)
      else if stream_mode then on_transformer (transform_stream_chunk (data event)) p
      else on_transformer (transform_chunk (data event)) p
  end.

(** A field line joins the event under way. *)
Definition add_field (event : SSEEvent) (current : option SSEEvent) : option SSEEvent :=
  match data event with
  | _ :: _ =>
      match current with
      | Some c =>
          Some (mkSSEEvent (event_type c)
                  (match data c with [] => data event | _ => data c ++ [newline] ++ data event end)
                  (event_id c) (retry c))
      | None => Some event
      end
  | [] =>
      match event_type event, event_id event, retry event with
      | None, None, None => current
      | _, _, _ =>
          match current with
          | Some c =>
              Some (mkSSEEvent
                      (match event_type event with Some t => Some t | None => event_type c end)
                      (data c)
                      (match event_id event with Some i => Some i | None => event_id c end)
                      (match retry event with Some r => Some r | None => retry c end))
          | None => Some event
          end
      end
  end.

Definition process_line (line : bytes) (stream_mode : bool) (p : UnifiedSSEParser)
    : UnifiedSSEParser * result (option C) ProviderError :=
  match line with
  | [] =>
      match current_event p with
      | Some event => process_event event stream_mode (set_event None p)
      | None => (p, Ok None)
      end
  | _ =>
      match from_line line with
      | Some event => (set_event (add_field event (current_event p)) p, Ok None)
      | None => (p, Ok None)
      end
  end.

(** The loop over the complete lines. *)
Fixpoint process_lines (ls : list bytes) (stream_mode : bool) (p : UnifiedSSEParser)
    (out : list C) : UnifiedSSEParser * SSEBatch :=
  match ls with
  | [] => (p, mkBatch out None)
  | line :: ls =>
      match process_line line stream_mode p with
      | (p, Err error) =>
          let '(p, chunk) := on_transformer take_stream_error_chunk p in
          (p, mkBatch (out ++ option_list chunk) (Some error))
      | (p, Ok chunk) =>
          let out := out ++ option_list chunk in
          if stream_finished p then (set_input [] [] p, mkBatch out None)
          else process_lines ls stream_mode p out
      end
  end.

(** [rposition] of the last byte that is not a continuation byte. *)
Fixpoint last_start (input : bytes) : option nat :=
  match input with
  | [] => None
  | b :: input =>
      match last_start input with
      | Some n => Some (S n)
      | None => if is_continuation b then None else Some 0%nat
      end
  end.

(** Where the incomplete sequence at the end of the input starts. *)
Definition keep_from (input : bytes) : nat :=
  let scan_start := (length input - 4)%nat in
  match last_start (drop scan_start input) with
  | Some offset =>
      let start := (scan_start + offset)%nat in
      if starts_incomplete (drop start input) then start else length input
  | None => length input
  end.

Definition process_bytes_with_mode (input : bytes) (stream_mode : bool) (p : UnifiedSSEParser)
    : UnifiedSSEParser * SSEBatch :=
  if stream_finished p then (p, mkBatch [] None)
  else
    let input := pending_utf8 p ++ input in
    let keep := keep_from input in
    let text := from_utf8_lossy (take keep input) in
    let p := set_input (buffer p ++ text) (drop keep input) p in
    match split_last_newline (buffer p) with
    | Some (complete_part, incomplete_part) =>
        process_lines (lines complete_part) stream_mode
          (set_input incomplete_part (pending_utf8 p) p) []
    | None => (p, mkBatch [] None)
    end.

Definition process_bytes (input : bytes) (p : UnifiedSSEParser)
    : UnifiedSSEParser * result (list C) ProviderError :=
  let '(p, batch) := process_bytes_with_mode input false p in
  (p, match batch_error batch with Some e => Err e | None => Ok (chunks batch) end).

Definition process_stream_bytes (input : bytes) : UnifiedSSEParser -> UnifiedSSEParser * SSEBatch :=
  process_bytes_with_mode input true.

(** * The end of a stream *)

Definition INVALIDATED_USAGE_STREAM_TYPE : string := "chat.completion.usage_invalidated".

Definition invalidates_stream_usage (e : ProviderError) : bool :=
  match e with
  | Streaming _ stream_type _ _ _ => String.eqb stream_type INVALIDATED_USAGE_STREAM_TYPE
  | _ => false
  end.

Definition combine_stream_errors (provider : static_str) (first finalization : ProviderError)
    : ProviderError :=
  if invalidates_stream_usage first then first
  else if invalidates_stream_usage finalization then finalization
  else
    let first := debug_str (redacted redact_sensitive_text first) in
    match redacted redact_sensitive_text finalization with
    | Streaming provider stream_type position _ message =>
        Streaming provider stream_type position None
          (message +:+ "; preceding stream error: " +:+ first)
    | finalization =>
        streaming_error provider "sse.termination" None None
          ("multiple stream errors: " +:+ first +:+ "; finalization: "
           +:+ debug_str finalization)
    end.

Definition finalize_transform_error (error : ProviderError) (p : UnifiedSSEParser)
    : UnifiedSSEParser * ProviderError :=
  let '(p, r) := on_transformer transformer_finish p in
  (p, match r with
      | Ok _ => error
      | Err finalization => combine_stream_errors provider_name error finalization
      end).

(** The closure of [finish_stream]: the last line, then the event under way. *)
Definition parse_rest (p : UnifiedSSEParser) : UnifiedSSEParser * list C * option ProviderError :=
  let line := buffer p ++ from_utf8_lossy (pending_utf8 p) in
  let p := set_input [] [] p in
  let '(p, out, error) :=
    match line with
    | [] => (p, [], None)
    | _ =>
        match process_line line true p with
        | (p, Ok chunk) => (p, option_list chunk, None)
        | (p, Err e) => (p, [], Some e)
        end
    end in
  match error with
  | Some e => (p, out, Some e)
  | None =>
      match current_event p with
      | Some event =>
          match process_event event true (set_event None p) with
          | (p, Ok chunk) => (p, out ++ option_list chunk, None)
          | (p, Err e) => (p, out, Some e)
          end
      | None => (p, out, None)
      end
  end.

Definition finish_stream (p : UnifiedSSEParser) : UnifiedSSEParser * SSEBatch :=
  if stream_finished p then (p, mkBatch [] None)
  else
    let '(p, out, parsed) := parse_rest p in
    let '(p, out) :=
      match parsed with
      | Some _ => let '(p, chunk) := on_transformer take_stream_error_chunk p in
                  (p, out ++ option_list chunk)
      | None => (p, out)
      end in
    let '(p, finalized) :=
      if stream_finished p then (p, Ok None) else on_transformer transformer_finish p in
    let p := set_finished p in
    (p, match parsed, finalized with
        | None, Ok chunk => mkBatch (out ++ option_list chunk) None
        | Some error, Ok _ => mkBatch out (Some error)
        | None, Err error => mkBatch out (Some error)
        | Some parse, Err lifecycle =>
            mkBatch out (Some (combine_stream_errors provider_name parse lifecycle))
        end).

(** * The stream of chunks *)

Definition MAX_CHUNK_BUFFER_SIZE : nat := Z.to_nat 10000.

(** What a poll of the network yields before it ends. *)
Inductive Item := NetBytes (input : bytes) | NetError (message : string) | NotReady.

Record UnifiedSSEStream := mkStream {
  inner : option (list Item);
  parser : UnifiedSSEParser;
  chunk_buffer : list C;
  pending_error : option ProviderError;
  finished : bool;
}.

Definition stream_new (items : list Item) (x : X) : UnifiedSSEStream :=
  mkStream (Some items) (parser_new x) [] None false.

Inductive Poll := Pending | Ready (item : option (result C ProviderError)).

(** A batch read from the network: the rest of the items, the parser, the batch
    and whether the stream is over. *)
Definition poll_inner (items : list Item) (p : UnifiedSSEParser)
    : option (list Item * UnifiedSSEParser * SSEBatch * bool) * list Item :=
  match items with
  | NotReady :: items => (None, items)
  | NetBytes input :: items =>
      let '(p, batch) := process_stream_bytes input p in
      match batch_error batch with
      | Some error =>
          let '(p, error) :=
            if stream_finished p then (p, error) else finalize_transform_error error p in
          (Some (items, p, mkBatch (chunks batch) (Some error), true), items)
      | None => (Some (items, p, batch, stream_finished p), items)
      end
  | NetError message :: items =>
      let error := network provider_name ("Stream error: " +:+ message) in
      let '(p, batch) := finish_stream p in
      (Some (items, p, mkBatch (chunks batch)
               (Some (match batch_error batch with
                      | Some finalization =>
                          combine_stream_errors provider_name error finalization
                      | None => error
                      end)), true), items)
  | [] =>
      let '(p, batch) := finish_stream p in (Some ([], p, batch, true), [])
  end.

(** The end of [poll_next]: the first of the chunks, the error, or the end. *)
Definition poll_batch (s : UnifiedSSEStream) : UnifiedSSEStream * Poll :=
  match chunk_buffer s with
  | c :: rest => (mkStream (inner s) (parser s) rest (pending_error s) (finished s),
                  Ready (Some (Ok c)))
  | [] =>
      match pending_error s with
      | Some e => (mkStream (inner s) (parser s) [] None (finished s), Ready (Some (Err e)))
      | None => (s, if finished s then Ready None else Pending)
      end
  end.

Definition overflow_error : ProviderError :=
  network provider_name "SSE chunk buffer exceeded limit of 10000 chunks".

Definition poll_next (s : UnifiedSSEStream) : UnifiedSSEStream * Poll :=
  match chunk_buffer s, pending_error s with
  | [], None =>
      if finished s then (s, Ready None)
      else
        match inner s with
        | None => (s, Ready None)
        | Some items =>
            match poll_inner items (parser s) with
            | (None, items) => (mkStream (Some items) (parser s) [] None false, Pending)
            | (Some (items, p, batch, over), _) =>
                let rest := if over : bool then None else Some items in
                if (MAX_CHUNK_BUFFER_SIZE <? length (chunks batch))%nat
                then (mkStream None p [] None true, Ready (Some (Err overflow_error)))
                else poll_batch (mkStream rest p (chunks batch) (batch_error batch) over)
            end
        end
  | _, _ => poll_batch s
  end.

(** Polling until the end; [None] means that the fuel ran out. *)
Fixpoint drain (fuel : nat) (s : UnifiedSSEStream) : option (list (result C ProviderError)) :=
  match fuel with
  | O => None
  | S fuel =>
      match poll_next s with
      | (s, Pending) => drain fuel s
      | (s, Ready (Some item)) => cons item <$> drain fuel s
      | (_, Ready None) => Some []
      end
  end.

(** * The reference: the whole body at once *)

(** The bytes a network delivers and how it ends. *)
Fixpoint body (items : list Item) : bytes * option string :=
  match items with
  | [] => ([], None)
  | NetBytes input :: items => let '(rest, ending) := body items in (input ++ rest, ending)
  | NetError message :: _ => ([], Some message)
  | NotReady :: items => body items
  end.

Definition outcome (batch : SSEBatch) : list (result C ProviderError) :=
  map Ok (chunks batch)
  ++ match batch_error batch with Some e => [Err e] | None => [] end.

(** What the stream ends with when its lines are used up. *)
Definition ending_of (ending : option string) (p : UnifiedSSEParser) : SSEBatch :=
  let batch := snd (finish_stream p) in
  match ending with
  | None => batch
  | Some message =>
      let error := network provider_name ("Stream error: " +:+ message) in
      mkBatch (chunks batch)
        (Some (match batch_error batch with
               | Some finalization => combine_stream_errors provider_name error finalization
               | None => error
               end))
  end.

(** Decode the bytes, cut the text into lines, process them in order; then, unless
    a line ended the stream, the ending. *)
Definition read_body (input : bytes) (ending : option string) (p : UnifiedSSEParser)
    : list SSEBatch :=
  let '(text, pending) := decode (pending_utf8 p) input in
  let '(ls, current) := feed_lines (buffer p) text in
  let '(p, batch) := process_lines ls true (set_input current pending p) [] in
  match batch_error batch with
  | Some e =>
      [mkBatch (chunks batch)
         (Some (if stream_finished p then e else snd (finalize_transform_error e p)))]
  | None => if stream_finished p then [batch] else [batch; ending_of ending p]
  end.

Definition stream_spec (input : bytes) (ending : option string) (x : X)
    : list (result C ProviderError) :=
  mbind outcome (read_body input ending (parser_new x)).

(** * Cutting the input *)

Lemma decode_byte_progress (p : bytes) (b : Ascii.ascii) (q : bytes) :
  decode_byte p b = ([], q) -> q <> [].
Proof.
  assert (Hs : forall q, start_sequence b = ([], q) -> q <> []).
  { intros q'. unfold start_sequence. destruct (utf8_width b) as [|[|w]]; try done.
    by intros [= <-]. }
  unfold decode_byte. destruct p as [|lead rest]; [apply Hs|].
  destruct (continues (lead :: rest) b).
  - case_match; [done|]. by intros [= <-].
  - destruct (start_sequence b) as [o r]. done.
Qed.

Lemma lossy_nil (input : bytes) : from_utf8_lossy input = [] -> input = [].
Proof.
  destruct input as [|b input _] using rev_ind; [done|].
  unfold from_utf8_lossy. rewrite decode_snoc.
  destruct (decode [] input) as [out p]. destruct (decode_byte p b) as [o q] eqn:Eb.
  intros He. apply app_eq_nil in He as [He Hf]. apply app_eq_nil in He as [_ ->].
  apply decode_byte_progress in Eb. by destruct q.
Qed.

Lemma last_start_app (a rest : bytes) (lead : Ascii.ascii) :
  is_continuation lead = false -> Forall (fun b => is_continuation b = true) rest ->
  last_start (a ++ lead :: rest) = Some (length a).
Proof.
  intros Hl Hr. induction a as [|b a IH]; simpl; [|by rewrite IH].
  assert (last_start rest = None) as ->; [|by rewrite Hl].
  induction Hr as [|b rest Hb Hr IH]; simpl; [done|]. by rewrite IH, Hb.
Qed.

(** An input that decodes to nothing for want of bytes is one incomplete sequence. *)
Lemma starts_incomplete_alone (input : bytes) :
  starts_incomplete input = true ->
  exists lead rest, input = lead :: rest /\ (2 <= utf8_width lead)%nat /\
    decode [] input = ([], input).
Proof.
  unfold starts_incomplete. pose proof (decode_pending input) as Hp.
  destruct (decode [] input) as [out pend] eqn:Ed. destruct out; [|done].
  destruct pend as [|x pend]; [done|]. intros _. destruct Hp as [Hsplit Halone].
  destruct (Hsplit ltac:(done)) as (before & lead & rest & Hin & Hpend & Hw & _ & _ & Hout).
  symmetry in Hout. apply lossy_nil in Hout. subst before. simpl in Hin. rewrite <- Hin.
  rewrite Hpend in Hin. by exists lead, rest.
Qed.

(** The cut keeps back exactly the incomplete sequence the decoder is in. *)
Lemma keep_from_spec (input out pend : bytes) :
  decode [] input = (out, pend) ->
  drop (keep_from input) input = pend /\ from_utf8_lossy (take (keep_from input) input) = out.
Proof.
  intros Ed. pose proof (decode_pending input) as Hp. rewrite Ed in Hp.
  assert (Hcut : forall n, starts_incomplete (drop n input) = true ->
    drop n input = pend /\ from_utf8_lossy (take n input) = out).
  { intros n (lead & rest & Heq & Hw & Halone)%starts_incomplete_alone.
    pose proof (decode_restart (take n input) _ _ _ Heq Hw Halone) as Hr.
    rewrite take_drop, Ed in Hr. by injection Hr as -> ->. }
  assert (Hall : pend = [] -> drop (length input) input = pend /\
    from_utf8_lossy (take (length input) input) = out).
  { intros ->. rewrite drop_all, firstn_all. split; [done|].
    unfold from_utf8_lossy. rewrite Ed. simpl. apply app_nil_r. }
  assert (Hpend : pend <> [] -> exists n,
    last_start (drop (length input - 4) input) = Some n /\
    starts_incomplete (drop (length input - 4 + n) input) = true).
  { intros Hne. destruct Hp as [Hsplit Halone].
    destruct (Hsplit Hne) as (before & lead & rest & Hin & Hpe & Hw & Hlen & Hcont & _).
    pose proof (width_le_4 lead). subst input. rewrite length_app in *.
    exists (length before - (length before + length pend - 4))%nat. split.
    - rewrite drop_app_le by lia. rewrite Hpe at 2.
      rewrite last_start_app by (done || by apply lead_not_continuation).
      by rewrite length_drop.
    - replace (_ + _)%nat with (length before) by lia. rewrite drop_app_length.
      unfold starts_incomplete. rewrite Halone. by destruct pend. }
  unfold keep_from. destruct (last_start _) as [n|] eqn:El.
  - destruct (starts_incomplete _) eqn:Es; [by apply Hcut|]. apply Hall.
    destruct pend as [|x pend]; [done|]. destruct (Hpend ltac:(done)) as (n' & [= <-] & Hs). congruence.
  - apply Hall. destruct pend as [|x pend]; [done|].
    destruct (Hpend ltac:(done)) as (n' & [=] & _).
Qed.

(** * The parser in pieces *)

(** A parser that reads on: what it holds back is an incomplete sequence and a
    line under way. *)
Record running (p : UnifiedSSEParser) : Prop := {
  run_live : stream_finished p = false;
  run_pending : decode [] (pending_utf8 p) = ([], pending_utf8 p);
  run_buffer : no_newline (buffer p);
}.

Lemma running_new (x : X) : running (parser_new x).
Proof. split; [done|done|constructor]. Qed.

(** The parser is a decoder, a cutter of lines and [process_line]. *)
Lemma process_bytes_as_lines (input : bytes) (mode : bool) (p : UnifiedSSEParser) :
  running p ->
  process_bytes_with_mode input mode p =
  (let '(text, pending) := decode (pending_utf8 p) input in
   let '(ls, current) := feed_lines (buffer p) text in
   process_lines ls mode (set_input current pending p) []).
Proof.
  intros [Hlive Hpend Hbuf]. unfold process_bytes_with_mode. rewrite Hlive.
  assert (Hd : decode [] (pending_utf8 p ++ input) = decode (pending_utf8 p) input).
  { rewrite decode_app, Hpend. by destruct (decode (pending_utf8 p) input). }
  destruct (decode (pending_utf8 p) input) as [text pending].
  apply keep_from_spec in Hd as [-> ->]. simpl.
  pose proof (complete_lines (buffer p) text Hbuf) as Hl.
  destruct (split_last_newline (buffer p ++ text)) as [[complete rest]|]; by rewrite Hl.
Qed.

(** Where the processing of lines stops. *)
Definition stops (r : UnifiedSSEParser * SSEBatch) : bool :=
  match batch_error (snd r) with Some _ => true | None => stream_finished (fst r) end.

Lemma process_lines_out (ls : list bytes) (mode : bool) (p : UnifiedSSEParser) (out : list C) :
  process_lines ls mode p out =
  (let '(p, batch) := process_lines ls mode p [] in
   (p, mkBatch (out ++ chunks batch) (batch_error batch))).
Proof.
  revert p out. induction ls as [|l ls IH]; intros p out; simpl; [by rewrite app_nil_r|].
  destruct (process_line l mode p) as [p1 [c|e]].
  - destruct (stream_finished p1); [done|]. rewrite IH, (IH p1 (option_list c)).
    destruct (process_lines ls mode p1 []) as [p2 b]. simpl. by rewrite app_assoc.
  - by destruct (on_transformer take_stream_error_chunk p1) as [p2 c].
Qed.

Lemma process_lines_app (l1 l2 : list bytes) (mode : bool) (p : UnifiedSSEParser) (out : list C) :
  stream_finished p = false ->
  process_lines (l1 ++ l2) mode p out =
  (let r := process_lines l1 mode p out in
   if stops r then r else process_lines l2 mode (fst r) (chunks (snd r))).
Proof.
  revert p out. induction l1 as [|l l1 IH]; intros p out Hf; simpl.
  - unfold stops. simpl. by rewrite Hf.
  - destruct (process_line l mode p) as [p1 [c|e]].
    + destruct (stream_finished p1) eqn:Hf1; [|by apply IH].
      unfold stops. simpl. by rewrite Hf1.
    + by destruct (on_transformer take_stream_error_chunk p1) as [p2 c].
Qed.

(** The lines read neither the buffer nor the bytes held back. *)
Lemma on_transformer_set_input {T} (op : X -> X * T) (b u : bytes) (p : UnifiedSSEParser) :
  on_transformer op (set_input b u p) =
  (let '(p, r) := on_transformer op p in (set_input b u p, r)).
Proof. unfold on_transformer. simpl. by destruct (op (transformer p)). Qed.

Lemma process_line_set_input (line : bytes) (mode : bool) (b u : bytes) (p : UnifiedSSEParser) :
  process_line line mode (set_input b u p) =
  (let '(p, r) := process_line line mode p in (set_input b u p, r)).
Proof.
  unfold process_line. destruct line as [|c line].
  - simpl. destruct (current_event p) as [event|]; [|done].
    change (set_event None (set_input b u p)) with (set_input b u (set_event None p)).
    unfold process_event. destruct (data event) as [|d ds]; [done|].
    change (set_finished (set_input b u (set_event None p)))
      with (set_input b u (set_finished (set_event None p))).
    rewrite !on_transformer_set_input. by repeat case_match.
  - by destruct (from_line (c :: line)).
Qed.

Lemma process_lines_set_input (ls : list bytes) (mode : bool) (b u : bytes)
    (p : UnifiedSSEParser) (out : list C) :
  stream_finished p = false ->
  process_lines ls mode (set_input b u p) out =
  (let r := process_lines ls mode p out in
   (match batch_error (snd r), stream_finished (fst r) with
    | None, true => fst r
    | _, _ => set_input b u (fst r)
    end, snd r)).
Proof.
  revert p out. induction ls as [|l ls IH]; intros p out Hf; simpl; [by rewrite Hf|].
  rewrite process_line_set_input. destruct (process_line l mode p) as [p1 [c|e]].
  - simpl. destruct (stream_finished p1) eqn:Hf1; [|by apply IH]. simpl. by rewrite Hf1.
  - rewrite on_transformer_set_input.
    by destruct (on_transformer take_stream_error_chunk p1) as [p2 c].
Qed.

Lemma process_line_input (line : bytes) (mode : bool) (p : UnifiedSSEParser) :
  buffer (fst (process_line line mode p)) = buffer p /\
  pending_utf8 (fst (process_line line mode p)) = pending_utf8 p.
Proof.
  assert (Hid : p = set_input (buffer p) (pending_utf8 p) p) by by destruct p.
  rewrite Hid, process_line_set_input. by destruct (process_line line mode p).
Qed.

Lemma process_lines_input (ls : list bytes) (mode : bool) (p : UnifiedSSEParser) (out : list C) :
  stream_finished p = false -> stops (process_lines ls mode p out) = false ->
  buffer (fst (process_lines ls mode p out)) = buffer p /\
  pending_utf8 (fst (process_lines ls mode p out)) = pending_utf8 p /\
  stream_finished (fst (process_lines ls mode p out)) = false.
Proof.
  intros Hf Hs. assert (Hid : p = set_input (buffer p) (pending_utf8 p) p) by by destruct p.
  revert Hs. rewrite Hid, process_lines_set_input by done. unfold stops. simpl.
  destruct (process_lines ls mode p out) as [p1 b]. simpl.
  destruct (batch_error b); [done|]. by destruct (stream_finished p1) eqn:Hf1; simpl; rewrite ?Hf1.
Qed.

Lemma decode_idem (pending input : bytes) :
  decode [] pending = ([], pending) ->
  decode [] (snd (decode pending input)) = ([], snd (decode pending input)).
Proof.
  intros Hp. pose proof (decode_pending (pending ++ input)) as Hi.
  rewrite decode_app, Hp in Hi. destruct (decode pending input) as [out q]. by destruct Hi.
Qed.

Definition out_of (ending : option string) (input : bytes) (p : UnifiedSSEParser)
    : list (result C ProviderError) :=
  mbind outcome (read_body input ending p).

(** What a batch that stopped the parser hands on. *)
Definition stopped (r : UnifiedSSEParser * SSEBatch) : SSEBatch :=
  match batch_error (snd r) with
  | Some e =>
      mkBatch (chunks (snd r))
        (Some (if stream_finished (fst r) then e else snd (finalize_transform_error e (fst r))))
  | None => snd r
  end.

Lemma finalize_set_input (e : ProviderError) (b u : bytes) (p : UnifiedSSEParser) :
  snd (finalize_transform_error e (set_input b u p)) = snd (finalize_transform_error e p).
Proof.
  unfold finalize_transform_error. rewrite on_transformer_set_input.
  by destruct (on_transformer transformer_finish p).
Qed.

(** Reading the bytes of one delivery first changes nothing. *)
Lemma out_of_step (ending : option string) (input rest : bytes) (p : UnifiedSSEParser) :
  running p ->
  let r := process_stream_bytes input p in
  out_of ending (input ++ rest) p =
    (if stops r then outcome (stopped r) else outcome (snd r) ++ out_of ending rest (fst r)) /\
  (stops r = false -> running (fst r) /\ batch_error (snd r) = None).
Proof.
  intros Hrun. pose proof Hrun as [Hlive Hpend Hbuf]. simpl. unfold process_stream_bytes.
  rewrite process_bytes_as_lines by done. unfold out_of, read_body. rewrite decode_app.
  pose proof (decode_idem _ input Hpend) as Hpend1.
  destruct (decode (pending_utf8 p) input) as [t1 u1]. simpl in Hpend1.
  destruct (decode u1 rest) as [t2 u2] eqn:Ed2. rewrite feed_lines_app.
  pose proof (feed_lines_rest _ t1 Hbuf) as Hbuf1.
  destruct (feed_lines (buffer p) t1) as [l1 b1]. simpl in Hbuf1.
  destruct (feed_lines b1 t2) as [l2 b2] eqn:Ef2.
  set (p2 := set_input b2 u2 p). rewrite (process_lines_app l1 l2 true p2 []) by done. simpl.
  replace p2 with (set_input b2 u2 (set_input b1 u1 p)) by done.
  rewrite process_lines_set_input by done.
  pose proof (process_lines_input l1 true (set_input b1 u1 p) [] Hlive) as Hin.
  destruct (process_lines l1 true (set_input b1 u1 p) []) as [p1 batch1] eqn:El. simpl in *.
  unfold stops, stopped in *. simpl in *.
  destruct (batch_error batch1) as [e|] eqn:Ee; simpl.
  { split; [|done]. rewrite Ee. simpl. rewrite finalize_set_input. by rewrite app_nil_r. }
  destruct (stream_finished p1) eqn:Hf1; simpl.
  { split; [|done]. rewrite Hf1, Ee, Hf1. simpl. by rewrite app_nil_r. }
  rewrite Hf1. destruct (Hin eq_refl) as (Hb & Hu & _). split; [|by split; [split; simpl; congruence|]].
  rewrite Hb, Hu, Ed2, Ef2, process_lines_out.
  destruct (process_lines l2 true (set_input b2 u2 p1) []) as [p3 b3]. simpl.
  assert (outcome batch1 = map Ok (chunks batch1)) as ->
    by (unfold outcome; rewrite Ee; apply app_nil_r).
  unfold outcome.
  destruct (batch_error b3) eqn:Eb3; [|destruct (stream_finished p3)]; simpl;
    by rewrite ?Eb3, ?app_nil_r, ?map_app, <- ?app_assoc.
Qed.

(** * Draining *)

(** The shape of a stream between two reads. *)
Definition holding (rest : option (list Item)) (p : UnifiedSSEParser) (b : SSEBatch) (over : bool)
    : UnifiedSSEStream :=
  mkStream rest p (chunks b) (batch_error b) over.

Lemma drain_ended (fuel : nat) (rest : option (list Item)) (p : UnifiedSSEParser) :
  drain (S fuel) (mkStream rest p [] None true) = Some [].
Proof. done. Qed.

(** The chunks of a batch come out in order, and then its error. *)
Lemma drain_holding (fuel : nat) (rest : option (list Item)) (p : UnifiedSSEParser)
    (b : SSEBatch) (over : bool) :
  drain (length (outcome b) + fuel) (holding rest p b over) =
  (fun r => outcome b ++ r) <$> drain fuel (mkStream rest p [] None over).
Proof.
  destruct b as [cs err]. unfold holding, outcome. simpl. revert fuel.
  induction cs as [|c cs IH]; intros fuel; simpl.
  - destruct err as [e|]; simpl.
    + by destruct (drain fuel (mkStream rest p [] None over)).
    + by destruct (drain fuel (mkStream rest p [] None over)).
  - rewrite IH. by destruct (drain fuel (mkStream rest p [] None over)).
Qed.

(** The first poll after a read hands on the first of what was read. *)
Lemma drain_read (fuel : nat) (s : UnifiedSSEStream) (rest : option (list Item))
    (p : UnifiedSSEParser) (b : SSEBatch) (over : bool) :
  poll_next s = poll_batch (holding rest p b over) -> (length (outcome b) < fuel)%nat ->
  drain fuel s =
  (fun r => outcome b ++ r) <$>
    (if over then Some []
     else drain (match outcome b with [] => pred fuel | _ => fuel - length (outcome b) end)
            (mkStream rest p [] None false)).
Proof.
  intros Hpoll Hfuel.
  assert (Hne : outcome b <> [] ->
    drain fuel s = (fun r => outcome b ++ r) <$>
      drain (fuel - length (outcome b)) (mkStream rest p [] None over)).
  { intros Hne. rewrite <- drain_holding.
    replace (_ + _)%nat with fuel by lia. destruct fuel as [|fuel]; [lia|]. cbn [drain].
    rewrite Hpoll. f_equal. unfold poll_next, holding. simpl. unfold outcome in Hne.
    by destruct (chunks b), (batch_error b). }
  destruct (outcome b) as [|r0 rs] eqn:Eo.
  - unfold outcome in Eo. destruct fuel as [|fuel]; [lia|]. cbn [drain]. rewrite Hpoll.
    unfold poll_batch, holding. simpl. destruct (chunks b) eqn:Ec, (batch_error b) eqn:Ee; try done.
    destruct over; [done|]. rewrite <- Ec, <- Ee at 1. simpl. rewrite Ec, Ee.
    by destruct (drain fuel _).
  - rewrite Hne by done. destruct over; [|done]. simpl in *.
    by destruct (fuel - S (length rs))%nat as [|k] eqn:Ek; [lia|].
Qed.

Lemma out_of_nil (ending : option string) (p : UnifiedSSEParser) :
  running p -> out_of ending [] p = outcome (ending_of ending p).
Proof.
  intros [Hlive _ _]. unfold out_of, read_body. simpl. rewrite Hlive.
  replace (set_input (buffer p) (pending_utf8 p) p) with p by by destruct p.
  simpl. apply app_nil_r.
Qed.

Lemma poll_read (items rest its : list Item) (p p1 : UnifiedSSEParser) (b : SSEBatch)
    (over : bool) :
  poll_inner items p = (Some (rest, p1, b, over), its) ->
  (length (chunks b) <= MAX_CHUNK_BUFFER_SIZE)%nat ->
  poll_next (mkStream (Some items) p [] None false) =
  poll_batch (holding (if over then None else Some rest) p1 b over).
Proof.
  intros Hp Hlen. unfold poll_next. simpl in *. rewrite Hp.
  by rewrite (proj2 (Nat.ltb_ge _ _)).
Qed.

(** A read that ends the stream. *)
Lemma drain_last (items rest its : list Item) (p p1 : UnifiedSSEParser) (b : SSEBatch)
    (fuel : nat) :
  poll_inner items p = (Some (rest, p1, b, true), its) ->
  (length (chunks b) <= MAX_CHUNK_BUFFER_SIZE)%nat -> (length (outcome b) < fuel)%nat ->
  drain fuel (mkStream (Some items) p [] None false) = Some (outcome b).
Proof.
  intros Hp Hmax Hfuel.
  rewrite (drain_read _ _ _ _ _ _ (poll_read _ _ _ _ _ _ _ Hp Hmax) Hfuel). simpl.
  by rewrite app_nil_r.
Qed.

(** A read that does not. *)
Lemma drain_next (items rest its : list Item) (p p1 : UnifiedSSEParser) (b : SSEBatch)
    (fuel : nat) (out : list (result C ProviderError)) :
  poll_inner items p = (Some (rest, p1, b, false), its) ->
  (length (chunks b) <= MAX_CHUNK_BUFFER_SIZE)%nat -> (length (outcome b) < fuel)%nat ->
  (forall k, (fuel - S (length (outcome b)) <= k)%nat ->
    drain k (mkStream (Some rest) p1 [] None false) = Some out) ->
  drain fuel (mkStream (Some items) p [] None false) = Some (outcome b ++ out).
Proof.
  intros Hp Hmax Hfuel Hrest.
  rewrite (drain_read _ _ _ _ _ _ (poll_read _ _ _ _ _ _ _ Hp Hmax) Hfuel). simpl.
  rewrite Hrest; [done|]. destruct (outcome b); simpl; lia.
Qed.

(** ** Deliveries that the buffer holds *)

(** No delivery, as the parser meets it, decodes to more chunks than the buffer
    holds: [poll_next] fails the stream otherwise. *)
Fixpoint fits (items : list Item) (p : UnifiedSSEParser) : Prop :=
  match items with
  | NetBytes input :: items =>
      let r := process_stream_bytes input p in
      (length (chunks (snd r)) <= MAX_CHUNK_BUFFER_SIZE)%nat /\ (stops r = false -> fits items (fst r))
  | NotReady :: items => fits items p
  | NetError _ :: _ | [] => True
  end.

Definition line_feeds (item : Item) : nat :=
  match item with NetBytes input => newlines input | _ => 0 end.

Lemma option_list_short {A} (o : option A) : (length (option_list o) <= 1)%nat.
Proof. destruct o; simpl; lia. Qed.

Lemma outcome_chunks (b : SSEBatch) : (length (chunks b) <= length (outcome b))%nat.
Proof. unfold outcome. rewrite length_app, length_map. lia. Qed.

(** A line yields at most one chunk. *)
Lemma process_lines_short (ls : list bytes) (mode : bool) (p : UnifiedSSEParser) (out : list C) :
  (length (chunks (snd (process_lines ls mode p out))) <= length out + length ls)%nat.
Proof.
  revert p out. induction ls as [|l ls IH]; intros p out; simpl; [lia|].
  destruct (process_line l mode p) as [p1 [c|e]].
  - pose proof (option_list_short c). destruct (stream_finished p1); simpl; rewrite ?length_app; [lia|].
    etrans; [apply IH|]. rewrite length_app. lia.
  - destruct (on_transformer take_stream_error_chunk p1) as [p2 c]. simpl. rewrite length_app.
    pose proof (option_list_short c). lia.
Qed.

Lemma process_bytes_short (input : bytes) (p : UnifiedSSEParser) : running p ->
  (length (chunks (snd (process_stream_bytes input p))) <= newlines input)%nat.
Proof.
  intros Hrun. unfold process_stream_bytes. rewrite process_bytes_as_lines by done.
  destruct (decode_newlines_pending (pending_utf8 p) input) as [Hd _];
    [apply pending_no_newlines, Hrun|].
  destruct (decode (pending_utf8 p) input) as [text pending].
  pose proof (feed_lines_newlines (buffer p) text) as Hl. destruct (feed_lines (buffer p) text) as [ls current].
  etrans; [apply process_lines_short|]. simpl in *. lia.
Qed.

(** The end of the body yields at most three. *)
Lemma finish_stream_short (p : UnifiedSSEParser) : (length (chunks (snd (finish_stream p))) <= 3)%nat.
Proof.
  unfold finish_stream. destruct (stream_finished p); simpl; [lia|].
  assert (Hp : (length (snd (fst (parse_rest p))) <= 2)%nat /\
               (snd (parse_rest p) <> None -> length (snd (fst (parse_rest p))) <= 1)%nat).
  { unfold parse_rest.
    assert (Hone : forall (o : option C), (length (option_list o) <= 1)%nat) by (intros; apply option_list_short).
    destruct (_ ++ _) as [|c0 line]; [|destruct (process_line _ _ _) as [p1 [c|e]]]; cbn;
      try (split; [lia|intros _; lia]);
      destruct (current_event _) as [event|]; cbn;
      try (destruct (process_event _ _ _) as [p2 [c'|e']]; cbn); rewrite ?length_app;
      try pose proof (Hone c); try pose proof (Hone c'); split; try done; intros; lia. }
  destruct (parse_rest p) as [[p1 out] [e|]]; cbn in Hp |- *.
  - destruct (on_transformer take_stream_error_chunk p1) as [p2 c]. pose proof (option_list_short c).
    destruct (if stream_finished p2 then _ else _) as [p3 [c'|e']]; cbn; rewrite length_app;
      destruct Hp as [_ Hp]; specialize (Hp ltac:(done)); lia.
  - destruct (if stream_finished p1 then _ else _) as [p3 [c'|e']]; cbn; rewrite ?length_app;
      try pose proof (option_list_short c'); lia.
Qed.

Lemma ending_fits (p : UnifiedSSEParser) (ending : option string) :
  (length (chunks (ending_of ending p)) <= MAX_CHUNK_BUFFER_SIZE)%nat.
Proof.
  assert (length (chunks (snd (finish_stream p))) <= MAX_CHUNK_BUFFER_SIZE)%nat.
  { etrans; [apply finish_stream_short|]. apply Nat.leb_le. vm_compute. reflexivity. }
  unfold ending_of. by destruct ending.
Qed.

(** Deliveries with no more line feeds than the buffer holds chunks. *)
Lemma fits_line_feeds (items : list Item) (p : UnifiedSSEParser) : running p ->
  Forall (fun item => line_feeds item <= MAX_CHUNK_BUFFER_SIZE)%nat items -> fits items p.
Proof.
  intros Hrun Hall. revert p Hrun. induction Hall as [|[input|message|] items Hi _ IH]; intros p Hrun; simpl; auto.
  split; [etrans; [by apply process_bytes_short|done]|].
  intros Hs. apply IH. by apply (out_of_step None input [] p Hrun).
Qed.

(** A body whose whole output the buffer holds. *)
Lemma fits_output (items : list Item) (p : UnifiedSSEParser) : running p ->
  (length (out_of (snd (body items)) (fst (body items)) p) <= MAX_CHUNK_BUFFER_SIZE)%nat -> fits items p.
Proof.
  revert p. induction items as [|[input|message|] items IH]; intros p Hrun; simpl; auto.
  destruct (body items) as [rest ending] eqn:Eb. simpl in *.
  pose proof (out_of_step ending input rest p Hrun) as [-> Hnext].
  pose proof (outcome_chunks (snd (process_stream_bytes input p))) as Hle.
  destruct (stops (process_stream_bytes input p)) eqn:Hs.
  - intros Hmax. split; [|done]. etrans; [|exact Hmax]. unfold stopped.
    pose proof (outcome_chunks (stopped (process_stream_bytes input p))) as Hle'. unfold stopped in *.
    by destruct (batch_error _).
  - rewrite length_app. intros Hmax. split; [lia|]. intros _. apply IH; [by apply Hnext|lia].
Qed.

Lemma drain_running (items : list Item) (p : UnifiedSSEParser) (fuel : nat) :
  let out := out_of (snd (body items)) (fst (body items)) p in
  running p -> fits items p ->
  (length items + length out < fuel)%nat ->
  drain fuel (mkStream (Some items) p [] None false) = Some out.
Proof.
  revert p fuel. induction items as [|[input|message|] items IH]; intros p fuel; simpl.
  - intros Hrun _. rewrite out_of_nil by done.
    apply (drain_last _ [] [] p (fst (finish_stream p))); [|apply ending_fits].
    unfold ending_of. simpl. by destruct (finish_stream p).
  - destruct (body items) as [rest ending] eqn:Eb. simpl in *. intros Hrun [Hfit Hrest].
    pose proof (out_of_step ending input rest p Hrun) as [-> Hnext].
    destruct (process_stream_bytes input p) as [p1 b] eqn:Ep. unfold stops, stopped in *.
    simpl in *. destruct (batch_error b) as [e|] eqn:Ee.
    { intros Hfuel. apply (drain_last _ items items p
        (if stream_finished p1 then p1 else fst (finalize_transform_error e p1))); [|done|lia].
      simpl. rewrite Ep, Ee. destruct (stream_finished p1); [done|].
      by destruct (finalize_transform_error e p1). }
    destruct (stream_finished p1) eqn:Hf1.
    { intros Hfuel. apply (drain_last _ items items p p1); [|done|lia].
      simpl. by rewrite Ep, Ee, Hf1. }
    destruct (Hnext eq_refl) as [Hrun1 _]. rewrite length_app. intros Hfuel.
    apply (drain_next _ items items p p1); [|done|lia|].
    + simpl. by rewrite Ep, Ee, Hf1.
    + intros k Hk. apply IH; [done|by apply Hrest|lia].
  - intros Hrun _. rewrite out_of_nil by done. intros Hfuel.
    apply (drain_last _ items items p (fst (finish_stream p))); [|apply ending_fits|lia].
    unfold ending_of. simpl. by destruct (finish_stream p).
  - intros Hrun Hfit Hfuel. destruct fuel as [|fuel]; [lia|]. cbn [drain].
    unfold poll_next. simpl. apply IH; [done|done|lia].
Qed.

(** C19: What a client reads from a provider stream depends on the bytes of the
    body and on how it ends, not on how the network splits it into deliveries or
    on when it is not ready, as long as no delivery has more than 10,000 line
    feeds or the whole stream hands on no more than 10,000 chunks and errors (a
    delivery that decodes to more than 10,000 chunks fails the stream): whatever
    the splits, also inside a UTF-8 sequence, a line or an event, polling ends,
    and it hands on, in order, the chunks of the whole body decoded once, cut into
    lines and processed line by line, then the one error or nothing; after an end
    marker or an error nothing more is read. *)
Theorem chunking_invisible (items : list Item) (x : X) (fuel : nat) :
  let out := stream_spec (fst (body items)) (snd (body items)) x in
  Forall (fun item => line_feeds item <= MAX_CHUNK_BUFFER_SIZE)%nat items \/
    (length out <= MAX_CHUNK_BUFFER_SIZE)%nat ->
  (length items + length out < fuel)%nat ->
  drain fuel (stream_new items x) = Some out.
Proof.
  intros out Hmax Hfuel. apply drain_running; [apply running_new| |done].
  destruct Hmax; [by apply fits_line_feeds; [apply running_new|]|by apply fits_output; [apply running_new|]].
Qed.
End Parser.

(** A transformer that numbers the chunks and refuses the data "bad", of which it
    still reports a chunk before the error. *)
#[local] Instance numbering : SSETransformer nat (nat * string) := {|
  provider_name := Lit "numbering";
  is_end_marker := default_is_end_marker;
  transform_chunk := fun data n => (S n, Ok (Some (n, to_string data)));
  transform_stream_chunk := fun data n =>
    if bytes_eqb data (of_string "bad") then (n, Err (network (Lit "numbering") "bad"))
    else (S n, Ok (Some (n, to_string data)));
  take_stream_error_chunk := fun n => (n, Some (n, "usage"%string));
  transformer_finish := fun n => (n, Ok None);
|}.

(** An "é" and a line are split over deliveries; the last delivery is never read. *)
Lemma chunking_invisible_witness :
  drain (fun _ => ""%string) id 20
    (stream_new
       [NetBytes (of_string "data: caf" ++ [Ascii.ascii_of_nat 195]); NotReady;
        NetBytes (Ascii.ascii_of_nat 169 :: newline :: newline :: of_string "da");
        NetBytes (of_string "ta: bad" ++ [newline; newline] ++ of_string "data: more");
        NetError "reset"] 0%nat) =
  Some [Ok (0%nat, utf8 [99; 97; 102; 195; 169]%nat); Ok (1%nat, "usage"%string);
        Err (network (Lit "numbering") "bad")].
Proof.
  etransitivity; [apply chunking_invisible|].
  - left. repeat (apply Forall_cons_2; [apply Nat.leb_le; vm_compute; reflexivity|]). apply Forall_nil_2.
  - apply Nat.leb_le. vm_compute. reflexivity.
  -  vm_compute. reflexivity.
Defined.
