(* ===== verification/StreamEvents.v ===== *)
(** The events the gateway sends ([core/streaming/types.rs], [core/streaming/utils.rs])
    and how the parser of [Sse] reads them back. *)

From S2P Require Import Prelude Text ProviderErrors Sse.

Record Event := mkEvent {
  event : option bytes;
  data : bytes;
}.

Definition text (s : string) : bytes := of_string s.

Definition event_new : Event := mkEvent None [].
Definition with_event (event : bytes) (e : Event) : Event := mkEvent (Some event) (data e).
Definition with_data (data : bytes) (e : Event) : Event := mkEvent (event e) data.

Definition to_bytes (e : Event) : bytes :=
  match event e with
  | Some event => text "event: " ++ event ++ [newline]
  | None => []
  end ++ text "data: " ++ data e ++ [newline; newline].

Definition create_heartbeat_event : Event :=
  with_data (text "ping") (with_event (text "heartbeat") event_new).

Definition done_event : Event := with_data (text "[DONE]") event_new.

(** [strip_prefix("data: ")]. *)
Definition parse_sse_line (line : bytes) : option bytes :=
  if bytes_eqb (take 6 line) (text "data: ") then Some (drop 6 line) else None.

Definition is_done_marker (data : bytes) : bool := bytes_eqb data (text "[DONE]").

Definition is_done_line (line : bytes) : bool :=
  let trimmed := of_string (trim (to_string line)) in
  bytes_eqb trimmed (text "data: [DONE]") || is_done_marker trimmed.

(** * Reading lines *)

(** A [str] is well-formed UTF-8: it decodes to itself. *)
Definition well_formed (s : bytes) : Prop := decode [] s = (s, []).

Lemma well_formed_app (a b : bytes) : well_formed a -> well_formed b -> well_formed (a ++ b).
Proof. unfold well_formed. intros Ha Hb. by rewrite decode_app, Ha, Hb. Qed.

Lemma to_of_string (s : string) : to_string (of_string s) = s.
Proof. apply String.string_of_list_ascii_of_string. Qed.
Lemma of_to_string (b : bytes) : of_string (to_string b) = b.
Proof. apply String.list_ascii_of_string_of_list_ascii. Qed.

Lemma substring_all (s : string) : String.substring 0 (String.length s) s = s.
Proof. induction s as [|c s IH]; simpl; [done|]. by rewrite IH. Qed.

(** The space after the colon goes, with the white space that follows it. *)
Lemma trim_start_space (d : string) :
  trim_start (String (Ascii.ascii_of_nat 32) d) = trim_start d.
Proof.
  unfold trim_start at 1. simpl String.length. cbn [trim_prefixes].
  assert (strip_one whitespace (String (Ascii.ascii_of_nat 32) d)
    = Some (String.substring 0 (String.length d) d)) as ->.
  { by destruct d. }
  by rewrite substring_all.
Qed.

(** A value that keeps its first and last byte on the way. *)
Record sendable (s : bytes) : Prop := {
  send_nonempty : s <> [];
  send_line : no_newline s;
  send_start : trim_start (to_string s) = to_string s;
  send_end : last s <> Some carriage_return;
  send_text : well_formed s;
}.

Lemma from_line_data (d : bytes) :
  sendable d -> from_line (text "data: " ++ d) = Some (mkSSEEvent None d None None).
Proof.
  intros Hs. change (from_line (text "data: " ++ d)) with
    (Some (mkSSEEvent None (of_string (trim_start (String (Ascii.ascii_of_nat 32) (to_string d))))
       None None)).
  by rewrite trim_start_space, (send_start _ Hs), of_to_string.
Qed.

Lemma strip_cr_keep (a d : bytes) :
  d <> [] -> last d <> Some carriage_return -> strip_cr (a ++ d) = a ++ d.
Proof.
  intros Hne Hl. destruct d as [|c d _] using rev_ind; [done|].
  rewrite last_snoc in Hl. unfold strip_cr. rewrite app_assoc, rev_app_distr. simpl.
  destruct (Ascii.eqb c carriage_return) eqn:E; [|done].
  apply Ascii.eqb_eq in E. by subst c.
Qed.

Lemma feed_line (line rest : bytes) :
  no_newline line ->
  feed_lines [] (line ++ newline :: rest) =
  (let '(ls, current) := feed_lines [] rest in (strip_cr line :: ls, current)).
Proof.
  intros Hl. rewrite feed_lines_app, feed_no_newline by done. simpl.
  by destruct (feed_lines [] rest).
Qed.

(** The line that opens a typed event. *)
Definition type_line (t : bytes) : bytes := strip_cr (text "event: " ++ t).

Definition event_lines (e : Event) : list bytes :=
  match event e with Some t => [type_line t] | None => [] end ++ [text "data: " ++ data e; []].

Definition event_ok (e : Event) : Prop :=
  sendable (data e) /\ (forall t, event e = Some t -> no_newline t /\ well_formed t).

Lemma no_newline_app (a b : bytes) : no_newline a -> no_newline b -> no_newline (a ++ b).
Proof. intros Ha Hb. by apply Forall_app. Qed.

Lemma feed_event (e : Event) (rest : bytes) :
  event_ok e ->
  feed_lines [] (to_bytes e ++ rest) =
  (let '(ls, current) := feed_lines [] rest in (event_lines e ++ ls, current)).
Proof.
  intros [Hs Ht]. unfold to_bytes, event_lines.
  assert (Hd : feed_lines [] ((text "data: " ++ data e ++ [newline; newline]) ++ rest) =
    (let '(ls, current) := feed_lines [] rest in ((text "data: " ++ data e) :: [] :: ls, current))).
  { replace ((text "data: " ++ data e ++ [newline; newline]) ++ rest)
      with ((text "data: " ++ data e) ++ newline :: ([] ++ newline :: rest))
      by by rewrite <- !app_assoc.
    rewrite feed_line by (apply no_newline_app; [by repeat constructor|apply Hs]).
    rewrite feed_line by constructor. rewrite strip_cr_keep by apply Hs.
    by destruct (feed_lines [] rest). }
  destruct (event e) as [t|].
  - destruct (Ht t eq_refl) as [Hnl _].
    transitivity (feed_lines [] ((text "event: " ++ t) ++ newline ::
      ((text "data: " ++ data e ++ [newline; newline]) ++ rest))).
    { f_equal. by rewrite <- !app_assoc. }
    rewrite feed_line by (apply no_newline_app; [by repeat constructor|done]).
    rewrite Hd. by destruct (feed_lines [] rest).
  - transitivity (feed_lines [] ((text "data: " ++ data e ++ [newline; newline]) ++ rest)); [done|].
    rewrite Hd. by destruct (feed_lines [] rest).
Qed.

(** * A client that keeps the data *)

(** It collects the data of the events up to the end marker. *)
#[export] Instance collector : SSETransformer unit bytes := {|
  provider_name := Lit "client";
  is_end_marker := default_is_end_marker;
  transform_chunk := fun data x => (x, Ok (Some data));
  transform_stream_chunk := fun data x => (x, Ok (Some data));
  take_stream_error_chunk := fun x => (x, None);
  transformer_finish := fun x => (x, Ok None);
|}.

Abbreviation Parser := (UnifiedSSEParser (X := unit)).

Lemma type_line_spec (t : bytes) :
  exists v, from_line (type_line t) = Some (mkSSEEvent (Some v) [] None None) /\ type_line t <> [].
Proof.
  assert (Hstrip : exists t', type_line t = text "event: " ++ t').
  { unfold type_line. destruct t as [|c t _] using rev_ind; [by exists []|].
    unfold strip_cr. rewrite app_assoc, rev_unit.
    destruct (Ascii.eqb c carriage_return).
    - exists t. by rewrite rev_involutive.
    - exists (t ++ [c]). by rewrite <- app_assoc. }
  destruct Hstrip as [t' ->].
  exists (of_string (trim_start (String (Ascii.ascii_of_nat 32) (to_string t')))). by split.
Qed.

Lemma process_event_lines (e : Event) (ls : list bytes) (p : Parser) (out : list bytes) :
  event_ok e -> current_event p = None -> stream_finished p = false ->
  process_lines (event_lines e ++ ls) true p out =
  (if default_is_end_marker (data e)
   then (Sse.set_input [] [] (set_finished p), mkBatch out None)
   else process_lines ls true p (out ++ [data e])).
Proof.
  intros [Hs _] Hc Hf. destruct p as [x b u cur fin]. simpl in *. subst cur fin.
  assert (Hdata : forall ev p', p' = mkParser x b u ev false ->
    (ev = None \/ exists v, ev = Some (mkSSEEvent (Some v) [] None None)) ->
    process_lines ((text "data: " ++ data e) :: [] :: ls) true p' out =
    (if default_is_end_marker (data e)
     then (mkParser x [] [] None true, mkBatch out None)
     else process_lines ls true (mkParser x b u None false) (out ++ [data e]))).
  { intros ev p' -> Hev. cbn [process_lines].
    assert (process_line (text "data: " ++ data e) true (mkParser x b u ev false) =
      (mkParser x b u (add_field (mkSSEEvent None (data e) None None) ev) false, Ok None)) as ->.
    { unfold process_line. rewrite from_line_data by done. done. }
    simpl. rewrite app_nil_r. pose proof (send_nonempty _ Hs) as Hne.
    unfold process_event, add_field. simpl.
    destruct (data e) as [|d ds]; [done|].
    destruct Hev as [->|[v ->]]; simpl; destruct (default_is_end_marker (d :: ds)); simpl;
      by rewrite ?app_nil_r. }
  unfold event_lines. destruct (event e) as [t|]; [|by apply (Hdata None); [|left]].
  destruct (type_line_spec t) as (v & Hv & Hne). cbn [app process_lines].
  assert (process_line (type_line t) true (mkParser x b u None false) =
    (mkParser x b u (Some (mkSSEEvent (Some v) [] None None)) false, Ok None)) as ->.
  { unfold process_line. destruct (type_line t) as [|c l]; [done|]. by rewrite Hv. }
  simpl stream_finished. cbn iota. simpl option_list. rewrite app_nil_r.
  by eapply Hdata; [|right; exists v].
Qed.

Definition encode (events : list Event) : bytes := mbind to_bytes events.

Lemma feed_events (events : list Event) (rest : bytes) :
  Forall event_ok events ->
  feed_lines [] (encode events ++ rest) =
  (let '(ls, current) := feed_lines [] rest in (mbind event_lines events ++ ls, current)).
Proof.
  intros Hall. induction Hall as [|e events He Hall IH]; simpl.
  - by destruct (feed_lines [] rest).
  - rewrite <- app_assoc, feed_event, IH by done.
    destruct (feed_lines [] rest). by rewrite app_assoc.
Qed.

Lemma event_well_formed (e : Event) : event_ok e -> well_formed (to_bytes e).
Proof.
  intros [Hs Ht]. unfold to_bytes. apply well_formed_app.
  - destruct (event e) as [t|]; [|done]. destruct (Ht t eq_refl).
    by repeat apply well_formed_app.
  - repeat apply well_formed_app; [done|apply Hs|done].
Qed.

Lemma encode_well_formed (events : list Event) : Forall event_ok events -> well_formed (encode events).
Proof.
  intros Hall. induction Hall as [|e events He Hall IH]; simpl; [done|].
  apply well_formed_app; [by apply event_well_formed|done].
Qed.

Lemma process_events (events : list Event) (ls : list bytes) (p : Parser) (out : list bytes) :
  Forall event_ok events ->
  Forall (fun e => default_is_end_marker (data e) = false) events ->
  current_event p = None -> stream_finished p = false ->
  process_lines (mbind event_lines events ++ ls) true p out =
  process_lines ls true p (out ++ map data events).
Proof.
  intros Hall Hdata Hc Hf. revert out. induction Hall as [|e events He Hall IH]; intros out; simpl.
  - by rewrite app_nil_r.
  - apply Forall_cons in Hdata as [Hd Hdata].
    rewrite <- app_assoc, process_event_lines, Hd, IH by done. by rewrite <- app_assoc.
Qed.

Lemma event_ok_done : event_ok done_event.
Proof. split; [|done]. split; [done|by repeat constructor|done|done|done]. Qed.

Section RoundTrip.
Variable debug_str : ProviderError -> string.
Variable redact_sensitive_text : string -> string.

Ltac fold_spec :=
  match goal with
  | |- context [out_of ?d ?r ?e ?i (parser_new ?x)] =>
      change (out_of d r e i (parser_new x)) with (stream_spec d r i e x)
  end.

Lemma read_events (events : list Event) (input : bytes) (ending : option string) :
  Forall event_ok events ->
  Forall (fun e => default_is_end_marker (data e) = false) events ->
  (exists rest, input = encode (events ++ [done_event]) ++ rest) \/
    (input = encode events /\ ending = None) ->
  stream_spec (X := unit) debug_str redact_sensitive_text input ending tt =
  map (fun e => Ok (data e)) events.
Proof.
  intros Hok Hdata Hin. unfold stream_spec, read_body.
  simpl buffer. simpl pending_utf8.
  destruct Hin as [[rest ->]|[-> ->]].
  - assert (Hok1 : Forall event_ok (events ++ [done_event])).
    { apply Forall_app. split; [done|]. by repeat constructor; apply event_ok_done. }
    rewrite decode_app, (encode_well_formed _ Hok1).
    destruct (decode [] rest) as [t u]. rewrite feed_events by done.
    destruct (feed_lines [] t) as [ls c]. rewrite bind_app, <- app_assoc.
    rewrite process_events by done.
    change ([done_event] ≫= event_lines) with (event_lines done_event ++ []).
    rewrite (app_nil_r (event_lines done_event)).
    rewrite process_event_lines; [|apply event_ok_done|done|done]. simpl.
    unfold outcome. simpl. rewrite ?app_nil_r. apply map_map.
  - rewrite (encode_well_formed _ Hok).
    pose proof (feed_events events [] Hok) as Hf. simpl in Hf. rewrite !app_nil_r in Hf. rewrite Hf.
    rewrite <- (app_nil_r (mbind event_lines events)), process_events by done. simpl.
    unfold outcome. simpl. rewrite ?app_nil_r. apply map_map.
Qed.

(** C20: What the gateway sends can be read back by its own stream parser: for any
    events whose data is a non-empty line of text that neither starts with white
    space nor ends in a carriage return and is not the end marker, and whose types
    are text without newline, the data comes out complete, unchanged and in order, however
    the network splits the encoded bytes, whether the body ends after them or
    continues after the done event in any way; there are no more than 10,000
    events, or no delivery of the network has more than 10,000 line feeds. *)
Theorem events_roundtrip (events : list Event) (items : list Item) (fuel : nat) :
  Forall event_ok events ->
  Forall (fun e => default_is_end_marker (data e) = false) events ->
  (exists rest, fst (body items) = encode (events ++ [done_event]) ++ rest) \/
    body items = (encode events, None) ->
  (length events <= MAX_CHUNK_BUFFER_SIZE)%nat \/
    Forall (fun item => line_feeds item <= MAX_CHUNK_BUFFER_SIZE)%nat items ->
  (length items + length events < fuel)%nat ->
  drain debug_str redact_sensitive_text fuel (stream_new items tt) =
  Some (map (fun e => Ok (data e)) events).
Proof.
  intros Hok Hdata Hbody Hmax Hfuel.
  assert (Hspec : stream_spec (X := unit) debug_str redact_sensitive_text
    (fst (body items)) (snd (body items)) tt = map (fun e => Ok (data e)) events).
  { apply read_events; [done|done|]. destruct Hbody as [Hr | ->]; [by left|by right]. }
  rewrite <- Hspec. apply drain_running; [apply running_new| |fold_spec; by rewrite Hspec, length_map].
  destruct Hmax as [Hmax|Hmax]; [|apply (fits_line_feeds debug_str redact_sensitive_text); [apply running_new|done]].
  apply (fits_output debug_str redact_sensitive_text); [apply running_new|]. fold_spec. by rewrite Hspec, length_map.
Qed.
End RoundTrip.

Definition example_events : list Event :=
  [create_heartbeat_event; with_data (text "[1, 2]") event_new].

Lemma events_roundtrip_witness :
  drain (fun _ => ""%string) id 10
    (stream_new
       [NetBytes (take 9 (encode (example_events ++ [done_event]))); NotReady;
        NetBytes (drop 9 (encode (example_events ++ [done_event]))); NetError "reset"] tt) =
  Some (map (fun e => Ok (data e)) example_events).
Proof.
  apply (events_roundtrip (fun _ => ""%string) id example_events).
  - repeat constructor; try done; injection H as <-; [by repeat constructor|done].
  - by repeat constructor.
  - left. exists []. vm_compute. reflexivity.
  - left. apply Nat.leb_le. vm_compute. reflexivity.
  - apply Nat.leb_le. vm_compute. reflexivity.
Defined.
