(* ===== verification/Ip.v ===== *)
(** Internet addresses as the gateway reads and writes them: the parser and the
    [Display] of Rust's [std::net] on addresses and socket addresses, and
    [to_canonical].

    An address is its bits: a 32-bit or a 128-bit integer.  The parser works on
    bytes; a step that fails leaves the input where it was, so it is a function
    from the input to a value and the rest. *)

From S2P Require Import Prelude Text.

Inductive IpAddr :=
| V4 (bits : Z)    (* u32 *)
| V6 (bits : Z).   (* u128 *)

#[export] Instance IpAddr_eq_dec : EqDecision IpAddr.
Proof. solve_decision. Defined.

Definition ip_eqb (a b : IpAddr) : bool := bool_decide (a = b).

Definition wf_ip (ip : IpAddr) : Prop :=
  match ip with V4 b => 0 <= b < 2 ^ 32 | V6 b => 0 <= b < 2 ^ 128 end.

(** [to_ipv4_mapped] and [to_canonical]. *)
Definition mapped_prefix : Z := 65535.
Definition to_canonical (ip : IpAddr) : IpAddr :=
  match ip with
  | V4 _ => ip
  | V6 b => if b / 2 ^ 32 =? mapped_prefix then V4 (b mod 2 ^ 32) else ip
  end.

Definition canonical (ip : IpAddr) : Prop := to_canonical ip = ip.

(** * The parser *)

Definition ascii_is (n : nat) (c : Ascii.ascii) : bool := Ascii.eqb c (Ascii.ascii_of_nat n).

(** [char::to_digit]. *)
Definition to_digit (radix : Z) (c : Ascii.ascii) : option Z :=
  let v := byte_value c in
  let d :=
    if in_bytes 48 57 c then v - 48
    else if in_bytes 97 122 c then v - 97 + 10
    else if in_bytes 65 90 c then v - 65 + 10
    else radix in
  if d <? radix then Some d else None.

Fixpoint span_digits (radix : Z) (s : bytes) : list Z * bytes :=
  match s with
  | [] => ([], [])
  | c :: rest =>
      match to_digit radix c with
      | Some d => let '(ds, rest) := span_digits radix rest in (d :: ds, rest)
      | None => ([], s)
      end
  end.

Definition digits_value (radix : Z) (ds : list Z) : Z :=
  fold_left (fun acc d => acc * radix + d) ds 0.

(** [Parser::read_number]: the digits up to the first other byte; a number that
    is too long or does not fit [max] is refused. *)
Definition read_number (radix : Z) (max_digits : option nat) (zero_prefix : bool) (max : Z)
    (s : bytes) : option (Z * bytes) :=
  let '(ds, rest) := span_digits radix s in
  let value := digits_value radix ds in
  let too_long :=
    match max_digits with Some n => Nat.ltb n (length ds) | None => false end in
  let bad_zero :=
    negb zero_prefix && Nat.ltb 1 (length ds) &&
    match ds with d :: _ => d =? 0 | [] => false end in
  if Nat.eqb (length ds) 0 || too_long || bad_zero || (max <? value) then None
  else Some (value, rest).

Definition read_given (n : nat) (s : bytes) : option bytes :=
  match s with c :: rest => if ascii_is n c then Some rest else None | [] => None end.

(** [read_separator]: nothing before the first element. *)
Definition read_separator {A} (first : bool) (sep : nat) (inner : bytes -> option (A * bytes))
    (s : bytes) : option (A * bytes) :=
  if first then inner s else s ← read_given sep s; inner s.

Definition read_octet : bytes -> option (Z * bytes) := read_number 10 (Some 3%nat) false u8_max.

Definition DOT : nat := 46.
Definition COLON : nat := 58.

Definition read_ipv4_addr (s : bytes) : option (Z * bytes) :=
  '(a, s) ← read_separator true DOT read_octet s;
  '(b, s) ← read_separator false DOT read_octet s;
  '(c, s) ← read_separator false DOT read_octet s;
  '(d, s) ← read_separator false DOT read_octet s;
  Some (((a * 256 + b) * 256 + c) * 256 + d, s).

(** [read_groups] into a slice of [slots] groups: the groups read, whether the
    last two are an embedded IPv4 address, and the rest. *)
Definition read_group : bytes -> option (Z * bytes) := read_number 16 (Some 4%nat) true u16_max.

Fixpoint read_groups (slots : nat) (first : bool) (s : bytes) : list Z * bool * bytes :=
  match slots with
  | O => ([], false, s)
  | S slots =>
      match (if Nat.leb 1 slots then read_separator first COLON read_ipv4_addr s else None) with
      | Some (v4, s) => ([v4 / 2 ^ 16; v4 mod 2 ^ 16], true, s)
      | None =>
          match read_separator first COLON read_group s with
          | Some (g, s) =>
              let '(gs, embedded, s) := read_groups slots false s in (g :: gs, embedded, s)
          | None => ([], false, s)
          end
      end
  end.

Definition groups_bits (gs : list Z) : Z := digits_value (2 ^ 16) gs.

Definition read_ipv6_addr (s : bytes) : option (Z * bytes) :=
  let '(head, head_ipv4, s) := read_groups 8 true s in
  if Nat.eqb (length head) 8 then Some (groups_bits head, s)
  else if head_ipv4 then None
  else
    s ← read_given COLON s;
    s ← read_given COLON s;
    let limit := (8 - (length head + 1))%nat in
    let '(tail, _, s) := read_groups limit true s in
    Some (groups_bits (head ++ repeat 0 (8 - length head - length tail) ++ tail), s).

Definition read_ip_addr (s : bytes) : option (IpAddr * bytes) :=
  match read_ipv4_addr s with
  | Some (b, s) => Some (V4 b, s)
  | None => '(b, s) ← read_ipv6_addr s; Some (V6 b, s)
  end.

Definition read_port (s : bytes) : option (Z * bytes) :=
  s ← read_given COLON s; read_number 10 None true u16_max s.

Definition read_scope_id (s : bytes) : option (Z * bytes) :=
  s ← read_given 37 s; read_number 10 None true u32_max s.

(** The address of a socket address; the port and the scope are dropped. *)
Definition read_socket_addr_v4 (s : bytes) : option (IpAddr * bytes) :=
  '(b, s) ← read_ipv4_addr s;
  '(_, s) ← read_port s;
  Some (V4 b, s).

Definition read_socket_addr_v6 (s : bytes) : option (IpAddr * bytes) :=
  s ← read_given 91 s;
  '(b, s) ← read_ipv6_addr s;
  let s := match read_scope_id s with Some (_, s) => s | None => s end in
  s ← read_given 93 s;
  '(_, s) ← read_port s;
  Some (V6 b, s).

Definition read_socket_addr (s : bytes) : option (IpAddr * bytes) :=
  match read_socket_addr_v4 s with
  | Some r => Some r
  | None => read_socket_addr_v6 s
  end.

(** [parse_with]: the whole input must be read. *)
Definition parse_with {A} (inner : bytes -> option (A * bytes)) (s : bytes) : option A :=
  match inner s with Some (a, []) => Some a | _ => None end.

(** [IpAddr::from_str], and [SocketAddr::from_str] for its address. *)
Definition ip_from_str (s : string) : option IpAddr := parse_with read_ip_addr (of_string s).
Definition socket_ip_from_str (s : string) : option IpAddr :=
  parse_with read_socket_addr (of_string s).

(** * Display *)

Definition digit_char (d : Z) : Ascii.ascii :=
  Ascii.ascii_of_nat (Z.to_nat (if d <? 10 then 48 + d else 87 + d)).

(** An integer in [radix], without leading zeros; [fuel] bounds the digits. *)
Fixpoint show_radix (fuel : nat) (radix n : Z) : bytes :=
  match fuel with
  | O => []
  | S fuel =>
      (if n <? radix then [] else show_radix fuel radix (n / radix)) ++ [digit_char (n mod radix)]
  end.

Definition show_octet : Z -> bytes := show_radix 3 10.
Definition show_group : Z -> bytes := show_radix 4 16.

Definition dot : bytes := [Ascii.ascii_of_nat DOT].
Definition colon : bytes := [Ascii.ascii_of_nat COLON].

Definition octets (b : Z) : list Z :=
  [b / 2 ^ 24; b / 2 ^ 16 mod 256; b / 2 ^ 8 mod 256; b mod 256].
Definition show_ipv4 (b : Z) : bytes :=
  match map show_octet (octets b) with
  | [a; b; c; d] => a ++ dot ++ b ++ dot ++ c ++ dot ++ d
  | _ => []
  end.

Definition groups (b : Z) : list Z :=
  map (fun k => b / 2 ^ (16 * Z.of_nat k) mod 2 ^ 16) [7; 6; 5; 4; 3; 2; 1; 0]%nat.

(** The first of the longest runs of zero groups: its start and its length. *)
Fixpoint zero_run (i start len : nat) (longest : nat * nat) (gs : list Z) : nat * nat :=
  match gs with
  | [] => longest
  | g :: gs =>
      if g =? 0 then
        let start := if Nat.eqb len 0 then i else start in
        let len := S len in
        zero_run (S i) start len (if Nat.ltb (snd longest) len then (start, len) else longest) gs
      else zero_run (S i) 0 0 longest gs
  end.

Fixpoint show_groups (gs : list Z) : bytes :=
  match gs with
  | [] => []
  | [g] => show_group g
  | g :: gs => show_group g ++ colon ++ show_groups gs
  end.

Definition show_ipv6 (b : Z) : bytes :=
  if b / 2 ^ 32 =? mapped_prefix then of_string "::ffff:" ++ show_ipv4 (b mod 2 ^ 32)
  else
    let gs := groups b in
    let '(start, len) := zero_run 0 0 0 (0, 0)%nat gs in
    if Nat.ltb 1 len
    then show_groups (firstn start gs) ++ of_string "::" ++ show_groups (skipn (start + len) gs)
    else show_groups gs.

Definition show_ip (ip : IpAddr) : bytes :=
  match ip with V4 b => show_ipv4 b | V6 b => show_ipv6 b end.
Definition ip_to_string (ip : IpAddr) : string := to_string (show_ip ip).

Example parse_examples :
  ip_from_str "192.168.1.1" = Some (V4 3232235777) /\ ip_from_str "::1" = Some (V6 1) /\
  ip_from_str "2001:db8::ffff:1" = Some (V6 42540766411282592856903984955948728321) /\
  ip_from_str "::ffff:1.2.3.4" = Some (V6 281470698652420) /\
  ip_from_str "01.2.3.4" = None /\ ip_from_str "1.2.3" = None /\ ip_from_str "1.2.3.256" = None /\
  ip_from_str "1:2:3:4:5:6:7:8:9" = None /\ ip_from_str ":::" = None /\
  socket_ip_from_str "1.2.3.4:5678" = Some (V4 16909060) /\
  socket_ip_from_str "[fe80::1%5]:443" = ip_from_str "fe80::1" /\
  socket_ip_from_str "1.2.3.4:65536" = None /\ socket_ip_from_str "::1:443" = None.
Proof. vm_compute. repeat split. Qed.

Example show_examples :
  ip_to_string (V4 3232235777) = "192.168.1.1" /\ ip_to_string (V6 1) = "::1" /\
  ip_to_string (V6 0) = "::" /\ ip_to_string (V6 281470698652420) = "::ffff:1.2.3.4" /\
  ip_to_string (V6 42540766411282592856903984955948728321) = "2001:db8::ffff:1" /\
  ip_to_string (V6 5192296858534827628530496329220096) = "1::" /\
  ip_to_string (V6 18446744073709551616) = "0:0:0:1::".
Proof. vm_compute. repeat split. Qed.
