(* ===== verification/IpText.v ===== *)
(** Facts about the text of internet addresses: every address is read back from
    the text it is written as, and what is read is well formed. *)

From S2P Require Import Prelude Text Ip.

(** * Reading what was written *)

(** The digits that [show_radix] writes. *)
Fixpoint digits_of (fuel : nat) (radix n : Z) : list Z :=
  match fuel with
  | O => []
  | S fuel => (if n <? radix then [] else digits_of fuel radix (n / radix)) ++ [n mod radix]
  end.

Lemma show_digits (fuel : nat) (radix n : Z) :
  show_radix fuel radix n = map digit_char (digits_of fuel radix n).
Proof.
  revert n. induction fuel as [|fuel IH]; intros n; [done|]. cbn [show_radix digits_of].
  rewrite map_app. destruct (n <? radix); [done|]. by rewrite IH.
Qed.

Lemma to_digit_char (radix d : Z) :
  0 <= d < radix -> radix <= 16 -> to_digit radix (digit_char d) = Some d.
Proof.
  intros Hd Hr.
  assert (H : to_digit 16 (digit_char d) = Some d).
  { assert (Hall : forallb (fun n => bool_decide (to_digit 16 (digit_char (Z.of_nat n)) = Some (Z.of_nat n)))
      (seq 0 16) = true) by (vm_compute; reflexivity).
    rewrite forallb_forall in Hall. specialize (Hall (Z.to_nat d)).
    rewrite Z2Nat.id in Hall by lia. apply bool_decide_eq_true in Hall; [done|].
    apply in_seq. lia. }
  revert H. unfold to_digit.
  destruct (in_bytes 48 57 (digit_char d)); [|destruct (in_bytes 97 122 (digit_char d));
    [|destruct (in_bytes 65 90 (digit_char d))]].
  all: repeat match goal with |- context [?a <? ?b] => destruct (Z.ltb_spec a b) end; intros [= HH].
  all: first [by rewrite HH | lia].
Qed.

Definition stops (radix : Z) (rest : bytes) : Prop :=
  match rest with [] => True | c :: _ => to_digit radix c = None end.

Lemma span_written (radix : Z) (ds : list Z) (rest : bytes) :
  radix <= 16 -> Forall (fun d => 0 <= d < radix) ds -> stops radix rest ->
  span_digits radix (map digit_char ds ++ rest) = (ds, rest).
Proof.
  intros Hr Hds Hrest. induction Hds as [|d ds Hd Hds IH]; simpl.
  - destruct rest as [|c rest]; [done|]. simpl. simpl in Hrest. by rewrite Hrest.
  - rewrite to_digit_char by done. by rewrite IH.
Qed.

Lemma digits_value_snoc (radix : Z) (ds : list Z) (d : Z) :
  digits_value radix (ds ++ [d]) = digits_value radix ds * radix + d.
Proof. unfold digits_value. by rewrite fold_left_app. Qed.

Lemma digits_of_spec (fuel : nat) (radix n : Z) :
  2 <= radix -> 0 <= n < radix ^ Z.of_nat fuel -> (0 < fuel)%nat ->
  let ds := digits_of fuel radix n in
  Forall (fun d => 0 <= d < radix) ds /\ digits_value radix ds = n /\
  (0 < length ds <= fuel)%nat /\ (hd 1 ds = 0 -> length ds = 1%nat).
Proof.
  intros Hr. revert n. induction fuel as [|fuel IH]; intros n Hn Hf; [lia|]. cbn [digits_of].
  pose proof (Z.mod_pos_bound n radix ltac:(lia)).
  destruct (Z.ltb_spec n radix).
  - simpl. split_and!; [by constructor| |lia|lia|done].
    unfold digits_value. simpl. rewrite Z.mod_small; lia.
  - assert (Hf' : (0 < fuel)%nat).
    { destruct fuel; [|lia]. rewrite Z.pow_1_r in Hn. lia. }
    assert (Hq : 0 <= n / radix < radix ^ Z.of_nat fuel).
    { split; [apply Z.div_pos; lia|]. apply Z.div_lt_upper_bound; [lia|].
      rewrite <- Z.pow_succ_r by lia. replace (Z.succ (Z.of_nat fuel)) with (Z.of_nat (S fuel)) by lia.
      lia. }
    destruct (IH _ Hq Hf') as (Hds & Hv & Hl & Hz). split_and!.
    + apply Forall_app. by split; [|constructor].
    + rewrite digits_value_snoc, Hv. pose proof (Z.div_mod n radix ltac:(lia)). lia.
    + rewrite length_app. simpl. lia.
    + rewrite length_app. simpl. lia.
    + rewrite length_app. destruct (digits_of fuel radix (n / radix)) as [|d ds]; [simpl in Hl; lia|].
      simpl. intros ->. exfalso. specialize (Hz eq_refl). destruct ds; [|done].
      pose proof (Z.div_le_mono radix n radix ltac:(lia) ltac:(lia)).
      rewrite Z.div_same in * by lia. unfold digits_value in Hv. simpl in Hv. lia.
Qed.

(** A number that was written is read back, whatever may follow it. *)
Lemma read_written (fuel : nat) (radix max n : Z) (zero_prefix : bool) (rest : bytes) :
  2 <= radix <= 16 -> 0 <= n < radix ^ Z.of_nat fuel -> (0 < fuel)%nat -> n <= max ->
  stops radix rest ->
  read_number radix (Some fuel) zero_prefix max (show_radix fuel radix n ++ rest) = Some (n, rest).
Proof.
  intros Hr Hn Hf Hm Hs. rewrite show_digits. unfold read_number.
  destruct (digits_of_spec fuel radix n ltac:(lia) Hn Hf) as (Hds & Hv & Hl & Hz).
  rewrite span_written, Hv by (done || lia).
  destruct (digits_of fuel radix n) as [|d ds]; [simpl in Hl; lia|].
  rewrite (proj2 (Nat.ltb_ge _ _)) by lia. rewrite (proj2 (Z.ltb_ge _ _)) by lia.
  destruct zero_prefix; simpl; [done|]. destruct (Z.eqb_spec d 0) as [->|]; [|by rewrite andb_false_r].
  specialize (Hz eq_refl). injection Hz as Hz. destruct ds; done.
Qed.

Lemma read_octet_written (n : Z) (rest : bytes) :
  0 <= n < 256 -> stops 10 rest -> read_octet (show_octet n ++ rest) = Some (n, rest).
Proof. intros. apply read_written; unfold u8_max; simpl; lia || done. Qed.

Lemma read_group_written (n : Z) (rest : bytes) :
  0 <= n < 2 ^ 16 -> stops 16 rest -> read_group (show_group n ++ rest) = Some (n, rest).
Proof. intros. apply read_written; unfold u16_max; simpl; lia || done. Qed.

Lemma read_octet_dot (n : Z) (rest : bytes) :
  0 <= n < 256 -> read_octet (show_octet n ++ dot ++ rest) = Some (n, dot ++ rest).
Proof. intros. by apply read_octet_written. Qed.

Lemma octets_spec (b : Z) :
  0 <= b < 2 ^ 32 ->
  exists w x y z, octets b = [w; x; y; z] /\ Forall (fun o => 0 <= o < 256) [w; x; y; z] /\
    ((w * 256 + x) * 256 + y) * 256 + z = b.
Proof.
  intros Hb. unfold octets. do 4 eexists. split; [done|].
  replace (b / 2 ^ 24) with (b / 2 ^ 8 / 2 ^ 8 / 2 ^ 8) by (rewrite !Z.div_div by lia; done).
  replace (b / 2 ^ 16) with (b / 2 ^ 8 / 2 ^ 8) by (rewrite !Z.div_div by lia; done).
  change (2 ^ 8) with 256. change (2 ^ 32) with 4294967296 in Hb.
  split; [repeat constructor|]; Z.div_mod_to_equations; lia.
Qed.

Lemma read_ipv4_written (b : Z) (rest : bytes) :
  0 <= b < 2 ^ 32 -> stops 10 rest -> read_ipv4_addr (show_ipv4 b ++ rest) = Some (b, rest).
Proof.
  intros Hb Hr. destruct (octets_spec b Hb) as (w & x & y & z & Ho & Hall & <-).
  unfold show_ipv4. rewrite Ho. cbn [map]. rewrite !Forall_cons in Hall.
  destruct Hall as (Hw & Hx & Hy & Hz & _).
  unfold read_ipv4_addr, read_separator. rewrite <- !app_assoc.
  rewrite read_octet_dot by done. cbn [mbind option_bind].
  change (read_given DOT (dot ++ ?s)) with (Some s). cbn [mbind option_bind].
  rewrite read_octet_dot by done. cbn [mbind option_bind].
  change (read_given DOT (dot ++ ?s)) with (Some s). cbn [mbind option_bind].
  rewrite read_octet_dot by done. cbn [mbind option_bind].
  change (read_given DOT (dot ++ ?s)) with (Some s). cbn [mbind option_bind].
  by rewrite read_octet_written.
Qed.

(** ** IPv6 *)

(** Groups after the first. *)
Definition chain (gs : list Z) : bytes := concat (map (fun g => colon ++ show_group g) gs).

Lemma show_groups_cons (g : Z) (gs : list Z) : show_groups (g :: gs) = show_group g ++ chain gs.
Proof.
  revert g. induction gs as [|h gs IH]; intros g.
  - by rewrite app_nil_r.
  - change (show_groups (g :: h :: gs)) with (show_group g ++ colon ++ show_groups (h :: gs)).
    rewrite IH. unfold chain. cbn [map concat]. by rewrite <- !app_assoc.
Qed.

Definition group_ok (g : Z) : Prop := 0 <= g < 2 ^ 16.

(** What may follow a group: nothing or a colon. *)
Definition at_colon (rest : bytes) : Prop := rest = [] \/ exists s, rest = colon ++ s.

Lemma colon_stops (radix : Z) (rest : bytes) : at_colon rest -> stops radix rest.
Proof.
  intros [->|[s ->]]; [done|]. cbn [stops colon app]. unfold to_digit.
  change (in_bytes 48 57 _) with false. change (in_bytes 97 122 _) with false.
  change (in_bytes 65 90 _) with false. cbn. by rewrite Z.ltb_irrefl.
Qed.

(** A group is not an octet with a dot after it. *)
Lemma hex_no_dot (ds : list Z) (rest : bytes) :
  Forall (fun d => 0 <= d < 16) ds -> at_colon rest ->
  read_given DOT (snd (span_digits 10 (map digit_char ds ++ rest))) = None.
Proof.
  intros Hds Hr. induction Hds as [|d ds Hd Hds IH]; cbn [map app span_digits].
  - by destruct Hr as [->|[s ->]].
  - destruct (to_digit 10 (digit_char d)) as [v|] eqn:E.
    + by destruct (span_digits 10 (map digit_char ds ++ rest)).
    + assert (Hall : forallb (fun n => negb (ascii_is DOT (digit_char (Z.of_nat n)))) (seq 0 16) = true)
        by (vm_compute; reflexivity).
      rewrite forallb_forall in Hall. specialize (Hall (Z.to_nat d)).
      rewrite Z2Nat.id in Hall by lia. simpl. apply negb_true_iff in Hall; [by rewrite Hall|].
      apply in_seq. lia.
Qed.

Lemma no_ipv4_group (g : Z) (rest : bytes) :
  group_ok g -> at_colon rest -> read_ipv4_addr (show_group g ++ rest) = None.
Proof.
  intros Hg Hr. unfold show_group. rewrite show_digits.
  destruct (digits_of_spec 4 16 g ltac:(lia) Hg ltac:(lia)) as (Hds & _).
  pose proof (hex_no_dot _ rest Hds Hr) as Hn.
  unfold read_ipv4_addr, read_separator, read_octet, read_number.
  destruct (span_digits 10 _) as [vs s]. cbn [snd] in Hn.
  destruct (_ || (u8_max <? _)); [done|]. cbn [mbind option_bind]. by rewrite Hn.
Qed.

(** The end of a chain of groups: the slice is full, or nothing or [::] is left. *)
Definition chain_ends (slots : nat) (first : bool) (rest : bytes) : Prop :=
  slots = 0%nat \/ rest = [] \/ exists s, rest = colon ++ colon ++ s.

Lemma read_groups_end (slots : nat) (rest : bytes) :
  rest = [] \/ (exists s, rest = colon ++ colon ++ s) ->
  forall first, read_groups slots first rest = ([], false, rest).
Proof. intros [->|[s ->]] []; destruct slots as [|[|slots]]; done. Qed.

Lemma read_chain (gs : list Z) (slots : nat) (rest : bytes) :
  Forall group_ok gs -> (length gs <= slots)%nat -> at_colon rest ->
  (length gs = slots \/ rest = [] \/ exists s, rest = colon ++ colon ++ s) ->
  read_groups slots false (chain gs ++ rest) = (gs, false, rest).
Proof.
  intros Hgs. revert slots. induction Hgs as [|g gs Hg Hgs IH]; intros slots Hl Hc He.
  - simpl. destruct He as [<-|He]; [done|]. by apply read_groups_end.
  - simpl in Hl, He. destruct slots as [|slots]; [lia|].
    assert (Hnext : at_colon (chain gs ++ rest)).
    { destruct gs as [|h gs]; [done|]. right. unfold chain. simpl. by rewrite <- !app_assoc; eexists. }
    unfold chain. cbn [map concat]. fold (chain gs). rewrite <- !app_assoc. cbn [read_groups].
    assert (Hs : forall A (f : bytes -> option (A * bytes)) s, read_separator false COLON f (colon ++ s) = f s)
      by done.
    rewrite !Hs, no_ipv4_group, read_group_written by (done || by apply colon_stops).
    replace (if Nat.leb 1 slots then None else None) with (@None (Z * bytes)) by (by destruct (Nat.leb 1 slots)).
    rewrite IH; [done|lia|done|]. destruct He as [He|He]; [left; lia|by right].
Qed.

Lemma read_groups_written (gs : list Z) (slots : nat) (rest : bytes) :
  Forall group_ok gs -> (length gs <= slots)%nat ->
  rest = [] \/ (exists s, rest = colon ++ colon ++ s) ->
  read_groups slots true (show_groups gs ++ rest) = (gs, false, rest).
Proof.
  intros Hgs Hl Hr. destruct Hgs as [|g gs Hg Hgs]; [by apply read_groups_end|].
  assert (Hc : at_colon rest) by (destruct Hr as [->|[s ->]]; [by left|right; by eexists]).
  rewrite show_groups_cons, <- app_assoc. simpl in Hl. destruct slots as [|slots]; [lia|].
  assert (Hnext : at_colon (chain gs ++ rest)).
  { destruct gs as [|h gs]; [done|]. right. unfold chain. simpl. by rewrite <- !app_assoc; eexists. }
  cbn [read_groups]. unfold read_separator.
  rewrite no_ipv4_group, read_group_written by (done || by apply colon_stops).
  replace (if Nat.leb 1 slots then None else None) with (@None (Z * bytes)) by (by destruct (Nat.leb 1 slots)).
  rewrite read_chain; [done|done|lia|done|by right].
Qed.

Lemma groups_spec (b : Z) :
  0 <= b < 2 ^ 128 ->
  length (groups b) = 8%nat /\ Forall group_ok (groups b) /\ groups_bits (groups b) = b.
Proof.
  intros Hb. split_and!; [done| |].
  { unfold groups. apply Forall_forall. intros g (k & -> & _)%list_elem_of_fmap.
    unfold group_ok. apply Z.mod_pos_bound. lia. }
  pose (q := fun k => b / 2 ^ (16 * Z.of_nat k)).
  assert (Hq : forall k, q k = q (S k) * 65536 + q k mod 65536).
  { intros k. unfold q.
    replace (2 ^ (16 * Z.of_nat (S k))) with (2 ^ (16 * Z.of_nat k) * 65536)
      by (rewrite Nat2Z.inj_succ, Z.mul_succ_r, Z.pow_add_r by lia; done).
    rewrite <- Z.div_div by lia. pose proof (Z.div_mod (b / 2 ^ (16 * Z.of_nat k)) 65536 ltac:(lia)). lia. }
  assert (H8 : q 8%nat = 0) by (unfold q; apply Z.div_small; done).
  assert (H0 : q 0%nat = b) by (unfold q; apply Z.div_1_r).
  change (groups_bits (groups b)) with
    (fold_left (fun acc d => acc * 65536 + d)
      (map (fun k => q k mod 65536) [7; 6; 5; 4; 3; 2; 1; 0]%nat) 0).
  cbn [map fold_left].
  pose proof (Hq 0%nat). pose proof (Hq 1%nat). pose proof (Hq 2%nat). pose proof (Hq 3%nat).
  pose proof (Hq 4%nat). pose proof (Hq 5%nat). pose proof (Hq 6%nat). pose proof (Hq 7%nat).
  clear Hq. clearbody q. lia.
Qed.

(** The groups [start .. start + len - 1] are zero. *)
Definition zeros (all : list Z) (run : nat * nat) : Prop :=
  forall j, (fst run <= j < fst run + snd run)%nat -> all !! j = Some 0.

Lemma zero_run_zeros (gs : list Z) (pre : list Z) (start len : nat) (longest : nat * nat) :
  zeros (pre ++ gs) (start, len) -> len = 0%nat \/ (start + len)%nat = length pre ->
  zeros (pre ++ gs) longest ->
  zeros (pre ++ gs) (zero_run (length pre) start len longest gs).
Proof.
  revert pre start len longest. induction gs as [|g gs IH]; intros pre start len longest Hc Hl Hb; [done|].
  replace (pre ++ g :: gs) with ((pre ++ [g]) ++ gs) in * by (by rewrite <- app_assoc).
  replace (S (length pre)) with (length (pre ++ [g])) in * by (rewrite length_app; simpl; lia).
  cbn [zero_run].
  replace (S (length pre)) with (length (pre ++ [g])) by (rewrite length_app; simpl; lia).
  destruct (Z.eqb_spec g 0) as [->|Hg].
  2: { apply IH; [|by left|done]. intros j Hj. simpl in Hj. lia. }
  assert (Hrun : zeros ((pre ++ [0]) ++ gs)
    (if Nat.eqb len 0 then length pre else start, S len)).
  { intros j Hj. cbn [fst snd] in Hj.
    destruct (Nat.eq_dec j (length pre)) as [->|Hne].
    - rewrite <- app_assoc. by apply list_lookup_middle.
    - destruct (Nat.eqb_spec len 0); [lia|]. apply Hc. simpl. lia. }
  apply IH; [done| |].
  - right. rewrite length_app. simpl. destruct (Nat.eqb_spec len 0); lia.
  - by destruct (Nat.ltb (snd longest) (S len)).
Qed.

Lemma zeros_take (all : list Z) (start len : nat) :
  zeros all (start, len) ->
  all = firstn start all ++ repeat 0 len ++ skipn (start + len) all.
Proof.
  revert start. induction len as [|len IH]; intros start Hz.
  - simpl. by rewrite Nat.add_0_r, take_drop.
  - rewrite (IH (S start)) at 1.
    + rewrite (take_S_r all start 0) by (apply Hz; simpl; lia). rewrite <- app_assoc.
      simpl. by replace (S (start + len))%nat with (start + S len)%nat by lia.
    + intros j Hj. apply Hz. simpl in *. lia.
Qed.

Lemma zeros_length (all : list Z) (start len : nat) :
  zeros all (start, len) -> (0 < len)%nat -> (start + len <= length all)%nat.
Proof.
  intros Hz Hl. assert (H : is_Some (all !! (start + len - 1)%nat)).
  { rewrite (Hz (start + len - 1)%nat); [done|]. simpl. lia. }
  apply lookup_lt_is_Some in H. lia.
Qed.

Lemma read_ipv6_groups (gs : list Z) :
  Forall group_ok gs -> length gs = 8%nat ->
  read_ipv6_addr (show_groups gs) = Some (groups_bits gs, []).
Proof.
  intros Hgs Hl. unfold read_ipv6_addr.
  rewrite <- (app_nil_r (show_groups gs)), read_groups_written by (done || lia || by left).
  by rewrite Hl.
Qed.

Lemma read_ipv6_compressed (head tail : list Z) :
  Forall group_ok head -> Forall group_ok tail -> (length head + length tail <= 6)%nat ->
  read_ipv6_addr (show_groups head ++ of_string "::" ++ show_groups tail) =
  Some (groups_bits (head ++ repeat 0 (8 - length head - length tail) ++ tail), []).
Proof.
  intros Hh Ht Hl. unfold read_ipv6_addr.
  change (of_string "::" ++ show_groups tail) with (colon ++ colon ++ show_groups tail).
  rewrite read_groups_written by (done || lia || (right; by eexists)).
  rewrite (proj2 (Nat.eqb_neq _ _)) by lia.
  change (read_given COLON (colon ++ ?s)) with (Some s). cbn [mbind option_bind].
  change (read_given COLON (colon ++ ?s)) with (Some s). cbn [mbind option_bind].
  rewrite <- (app_nil_r (show_groups tail)), read_groups_written by (done || lia || by left).
  done.
Qed.

Lemma no_ipv4_colon (s : bytes) : read_ipv4_addr (colon ++ s) = None.
Proof. done. Qed.

Lemma read_mapped (b : Z) :
  0 <= b < 2 ^ 32 ->
  read_ipv6_addr (of_string "::ffff:" ++ show_ipv4 b) = Some (mapped_prefix * 2 ^ 32 + b, []).
Proof.
  intros Hb. unfold read_ipv6_addr.
  change (of_string "::ffff:" ++ show_ipv4 b)
    with (colon ++ colon ++ show_group 65535 ++ colon ++ show_ipv4 b).
  rewrite read_groups_end by (right; by eexists). cbn [length Nat.eqb].
  change (read_given COLON (colon ++ ?s)) with (Some s). cbn [mbind option_bind].
  change (read_given COLON (colon ++ ?s)) with (Some s). cbn [mbind option_bind].
  change (8 - (0 + 1))%nat with 7%nat. cbn [read_groups Nat.leb]. unfold read_separator at 1 2.
  assert (Hc : at_colon (colon ++ show_ipv4 b)) by (right; by eexists).
  assert (Hg : group_ok 65535) by done.
  rewrite no_ipv4_group, read_group_written by (done || by apply colon_stops).
  unfold read_separator at 1. change (read_given COLON (colon ++ ?s)) with (Some s).
  cbn [mbind option_bind].
  rewrite <- (app_nil_r (show_ipv4 b)), read_ipv4_written by done.
  cbn [length]. f_equal. f_equal.
  change (groups_bits _) with ((65535 * 65536 + b / 65536) * 65536 + b mod 65536).
  pose proof (Z.div_mod b 65536 ltac:(lia)). unfold mapped_prefix. lia.
Qed.

(** The text of an IPv6 address is not that of an IPv4 address. *)
Lemma show_groups_no_ipv4 (gs : list Z) (rest : bytes) :
  Forall group_ok gs -> at_colon rest -> gs <> [] -> read_ipv4_addr (show_groups gs ++ rest) = None.
Proof.
  intros Hgs Hr Hne. destruct Hgs as [|g gs Hg Hgs]; [done|].
  rewrite show_groups_cons, <- app_assoc. apply no_ipv4_group; [done|].
  destruct gs as [|h gs]; [done|]. right. unfold chain. cbn [map concat]. rewrite <- !app_assoc. by eexists.
Qed.

(** An address is read back from its text. *)
Lemma ip_from_to_string (ip : IpAddr) : wf_ip ip -> ip_from_str (ip_to_string ip) = Some ip.
Proof.
  intros Hwf. unfold ip_from_str, ip_to_string, of_string, to_string, parse_with.
  rewrite String.list_ascii_of_string_of_list_ascii. unfold read_ip_addr.
  destruct ip as [b|b]; simpl in Hwf; cbn [show_ip].
  { by rewrite <- (app_nil_r (show_ipv4 b)), read_ipv4_written. }
  unfold show_ipv6. destruct (Z.eqb_spec (b / 2 ^ 32) mapped_prefix) as [Hm|_].
  { change (read_ipv4_addr (of_string "::ffff:" ++ _)) with (@None (Z * bytes)).
    rewrite read_mapped by (apply Z.mod_pos_bound; lia). cbn [mbind option_bind].
    rewrite <- Hm. by rewrite Z.mul_comm, <- Z.div_mod. }
  destruct (groups_spec b Hwf) as (Hl & Hgs & Hbits).
  destruct (zero_run 0 0 0 (0, 0)%nat (groups b)) as [start len] eqn:Er.
  assert (Hz : zeros (groups b) (start, len)).
  { rewrite <- Er. apply (zero_run_zeros (groups b) [] 0 0 (0, 0)%nat); try by left.
    all: intros j Hj; simpl in Hj; lia. }
  destruct (Nat.ltb_spec 1 len) as [Hlen|_].
  2: { rewrite <- (app_nil_r (show_groups _)), show_groups_no_ipv4, app_nil_r, read_ipv6_groups
         by (done || by left). cbn [mbind option_bind]. by rewrite Hbits. }
  pose proof (zeros_length _ _ _ Hz ltac:(lia)) as Hle.
  assert (Hno : read_ipv4_addr (show_groups (firstn start (groups b)) ++ of_string "::" ++
    show_groups (skipn (start + len) (groups b))) = None).
  { destruct (firstn start (groups b)) as [|g gs] eqn:Ef; [done|]. rewrite <- Ef.
    apply show_groups_no_ipv4; [by apply Forall_take|right; by eexists|by rewrite Ef]. }
  rewrite Hno, read_ipv6_compressed;
    [|by apply Forall_take|by apply Forall_drop|rewrite length_take, length_drop; lia].
  cbn [mbind option_bind]. rewrite length_take, length_drop, Hl.
  replace (8 - min start 8 - (8 - (start + len)))%nat with len by lia.
  by rewrite <- zeros_take, Hbits.
Qed.

(** ** What is read is well formed *)

Lemma to_digit_range (radix d : Z) (c : Ascii.ascii) :
  to_digit radix c = Some d -> 0 <= d < radix.
Proof.
  unfold to_digit.
  assert (Hb : 0 <= byte_value c) by (unfold byte_value; lia).
  destruct (in_bytes 48 57 c) eqn:E1; [|destruct (in_bytes 97 122 c) eqn:E2;
    [|destruct (in_bytes 65 90 c) eqn:E3]]; unfold in_bytes in *; bool_arith;
    match goal with |- context [?a <? ?b] => destruct (Z.ltb_spec a b) end; intros [= <-]; lia.
Qed.

Lemma span_digits_range (radix : Z) (s : bytes) :
  Forall (fun d => 0 <= d < radix) (fst (span_digits radix s)).
Proof.
  induction s as [|c s IH]; simpl; [constructor|].
  destruct (to_digit radix c) as [d|] eqn:E; [|constructor].
  destruct (span_digits radix s). constructor; [by eapply to_digit_range|done].
Qed.

Lemma digits_value_range (radix : Z) (ds : list Z) :
  0 < radix -> Forall (fun d => 0 <= d < radix) ds ->
  0 <= digits_value radix ds < radix ^ Z.of_nat (length ds).
Proof.
  intros Hr. induction ds as [|d ds IH] using rev_ind; [done|].
  intros [Hds Hd]%Forall_app. apply Forall_inv in Hd. rewrite digits_value_snoc, length_app.
  specialize (IH Hds). simpl. replace (Z.of_nat (length ds + 1)) with (Z.succ (Z.of_nat (length ds))) by lia.
  rewrite Z.pow_succ_r by lia. nia.
Qed.

Lemma read_number_range (radix max v : Z) (max_digits : option nat) (zero_prefix : bool)
    (s rest : bytes) :
  0 < radix -> read_number radix max_digits zero_prefix max s = Some (v, rest) -> 0 <= v <= max.
Proof.
  intros Hr. unfold read_number. pose proof (span_digits_range radix s) as Hds.
  destruct (span_digits radix s) as [ds r]. simpl in Hds.
  pose proof (digits_value_range radix ds Hr Hds).
  destruct (_ || (max <? _)) eqn:E; intros [= <- <-]. bool_arith. lia.
Qed.

Lemma read_ipv4_range (s rest : bytes) (b : Z) :
  read_ipv4_addr s = Some (b, rest) -> 0 <= b < 2 ^ 32.
Proof.
  unfold read_ipv4_addr, read_separator, read_octet.
  destruct (read_number _ _ _ _ s) as [[w s1]|] eqn:E1; [|done]. cbn [mbind option_bind].
  destruct (read_given DOT s1) as [s1'|]; [|done]. cbn [mbind option_bind].
  destruct (read_number _ _ _ _ s1') as [[x s2]|] eqn:E2; [|done]. cbn [mbind option_bind].
  destruct (read_given DOT s2) as [s2'|]; [|done]. cbn [mbind option_bind].
  destruct (read_number _ _ _ _ s2') as [[y s3]|] eqn:E3; [|done]. cbn [mbind option_bind].
  destruct (read_given DOT s3) as [s3'|]; [|done]. cbn [mbind option_bind].
  destruct (read_number _ _ _ _ s3') as [[z s4]|] eqn:E4; [|done]. cbn [mbind option_bind].
  intros [= <- _]. apply read_number_range in E1, E2, E3, E4; unfold u8_max in *; lia.
Qed.

Lemma read_groups_range (slots : nat) (first : bool) (s : bytes) :
  let '(gs, _, _) := read_groups slots first s in
  Forall group_ok gs /\ (length gs <= slots)%nat.
Proof.
  revert first s. induction slots as [|slots IH]; intros first s; cbn [read_groups].
  { by split; [constructor|simpl]. }
  destruct (if Nat.leb 1 slots then _ else None) as [[v4 s4]|] eqn:E4.
  { destruct (Nat.leb_spec 1 slots); [|done].
    assert (Hv : 0 <= v4 < 2 ^ 32).
    { unfold read_separator in E4. destruct first; [by eapply read_ipv4_range|].
      destruct (read_given COLON s); [|done]. by eapply read_ipv4_range. }
    split; [|simpl; lia]. unfold group_ok. constructor; [|constructor; [|constructor]].
    - split; [apply Z.div_pos; lia|]. apply Z.div_lt_upper_bound; lia.
    - apply Z.mod_pos_bound. lia. }
  destruct (read_separator first COLON read_group s) as [[g sg]|] eqn:Eg.
  2: { split; [constructor|simpl; lia]. }
  specialize (IH false sg). destruct (read_groups slots false sg) as [[gs e] r].
  destruct IH as [Hgs Hl]. split; [|simpl; lia]. constructor; [|done].
  assert (Hr : exists s', read_group s' = Some (g, sg)).
  { unfold read_separator in Eg. destruct first; [by eexists|].
    destruct (read_given COLON s); [by eexists|done]. }
  destruct Hr as [s' Hr]. unfold read_group in Hr. apply read_number_range in Hr; [|lia].
  unfold u16_max in Hr. unfold group_ok. lia.
Qed.

Lemma groups_bits_range (gs : list Z) :
  Forall group_ok gs -> (length gs <= 8)%nat -> 0 <= groups_bits gs < 2 ^ 128.
Proof.
  intros Hgs Hl. unfold groups_bits. pose proof (digits_value_range (2 ^ 16) gs ltac:(lia) Hgs).
  assert ((2 ^ 16) ^ Z.of_nat (length gs) <= 2 ^ 128); [|lia].
  change (2 ^ 128) with ((2 ^ 16) ^ 8). apply Z.pow_le_mono_r; lia.
Qed.

Lemma read_ipv6_range (s rest : bytes) (b : Z) :
  read_ipv6_addr s = Some (b, rest) -> 0 <= b < 2 ^ 128.
Proof.
  unfold read_ipv6_addr. pose proof (read_groups_range 8 true s) as Hh.
  destruct (read_groups 8 true s) as [[head e] s1]. destruct Hh as [Hh Hl].
  destruct (Nat.eqb (length head) 8).
  { intros [= <- _]. by apply groups_bits_range. }
  destruct e; [done|]. destruct (read_given COLON s1) as [s2|]; [|done]. cbn [mbind option_bind].
  destruct (read_given COLON s2) as [s3|]; [|done]. cbn [mbind option_bind].
  pose proof (read_groups_range (8 - (length head + 1)) true s3) as Ht.
  destruct (read_groups _ true s3) as [[tail e'] s4]. destruct Ht as [Ht Hlt].
  intros [= <- _]. apply groups_bits_range.
  - rewrite !Forall_app. split_and!; [done| |done]. apply Forall_forall. intros g Hg.
    apply list_elem_of_In, repeat_spec in Hg. subst. done.
  - rewrite !length_app, repeat_length. lia.
Qed.

Lemma ip_from_str_wf (s : string) (ip : IpAddr) : ip_from_str s = Some ip -> wf_ip ip.
Proof.
  unfold ip_from_str, parse_with, read_ip_addr.
  destruct (read_ipv4_addr (of_string s)) as [[b r]|] eqn:E4.
  { destruct r; intros [= <-]. by eapply read_ipv4_range. }
  destruct (read_ipv6_addr (of_string s)) as [[b r]|] eqn:E6; [|done]. cbn [mbind option_bind].
  destruct r; intros [= <-]. by eapply read_ipv6_range.
Qed.

Lemma read_socket_v6_wf (s rest : bytes) (ip : IpAddr) :
  read_socket_addr_v6 s = Some (ip, rest) -> wf_ip ip.
Proof.
  unfold read_socket_addr_v6. destruct (read_given 91 s) as [s1|]; [|done].
  cbn [mbind option_bind]. destruct (read_ipv6_addr s1) as [[b s2]|] eqn:E; [|done].
  cbn [mbind option_bind]. destruct (read_given 93 _) as [s3|]; [|done]. cbn [mbind option_bind].
  destruct (read_port s3) as [[p s4]|]; cbn [mbind option_bind]; [|done].
  intros [= <- _]. by eapply read_ipv6_range.
Qed.

Lemma socket_ip_from_str_wf (s : string) (ip : IpAddr) : socket_ip_from_str s = Some ip -> wf_ip ip.
Proof.
  unfold socket_ip_from_str, parse_with, read_socket_addr.
  destruct (read_socket_addr_v4 (of_string s)) as [[a r]|] eqn:E4.
  - destruct r; intros [= <-]. unfold read_socket_addr_v4 in E4.
    destruct (read_ipv4_addr (of_string s)) as [[b r]|] eqn:Eb; [|done]. cbn [mbind option_bind] in E4.
    destruct (read_port r) as [[p r']|]; [|done]. injection E4 as <- _. by eapply read_ipv4_range.
  - destruct (read_socket_addr_v6 (of_string s)) as [[a r]|] eqn:E6; [|done].
    destruct r; intros [= <-]. by eapply read_socket_v6_wf.
Qed.

Lemma to_canonical_wf (ip : IpAddr) : wf_ip ip -> wf_ip (to_canonical ip).
Proof.
  destruct ip as [b|b]; simpl; [done|]. destruct (_ =? _); [|done].
  intros _. simpl. apply Z.mod_pos_bound. lia.
Qed.

Lemma to_canonical_canonical (ip : IpAddr) : canonical (to_canonical ip).
Proof. unfold canonical. destruct ip as [b|b]; [done|]. simpl. by destruct (_ =? _) eqn:E; simpl; rewrite ?E. Qed.
