(* ===== verification/GatewayErrors.v ===== *)
(** The errors of the gateway ([utils/error/gateway_error/types.rs],
    [http_mapping.rs], [utils/error/canonical.rs]) and how each protocol answers
    them: as the gateway's own JSON ([gateway_error/response.rs]), as an OpenAI
    error ([routes/ai/openai_errors.rs]) and as an Anthropic error
    ([routes/ai/messages.rs]).  A [reqwest] or I/O error is its text. *)

From S2P Require Import Prelude ProviderErrors RouterTypes.

Inductive GatewayError :=
| GConfig (message : string)
| GStorage (message : string)
| GHttpClient (message : string)
| GSerialization (message : string)
| GIo (message : string)
| GAuth (message : string)
| GProvider (error : ProviderError)
| GRateLimit (message : string) (retry_after rpm_limit tpm_limit : option Z)
| GValidation (message : string)
| GTimeout (message : string)
| GNotFound (message : string)
| GConflict (message : string)
| GBadRequest (message : string)
| GInternal (message : string)
| GUnavailable (message : string)
| GNetwork (message : string)
| GForbidden (message : string)
| GNotImplemented (message : string).

(** * Classification *)

Definition gateway_canonical_code (e : GatewayError) : ErrorCode :=
  match e with
  | GConfig _ => CConfiguration
  | GAuth _ => CAuthentication
  | GForbidden _ => CAuthorization
  | GProvider provider_error => canonical_code provider_error
  | GRateLimit _ _ _ _ => CRateLimited
  | GValidation _ | GBadRequest _ => CInvalidRequest
  | GNotFound _ => CNotFound
  | GConflict _ => CConflict
  | GTimeout _ => CTimeout
  | GUnavailable _ => CUnavailable
  | GNetwork _ => CNetwork
  | GNotImplemented _ => CNotImplemented
  | GStorage _ | GHttpClient _ | GSerialization _ | GIo _ | GInternal _ => CInternal
  end.

(** [gateway_http_error_facts]; the facts and headers have the fields of those of
    providers. *)
Definition gateway_http_error_facts (e : GatewayError) : ProviderHttpErrorFacts :=
  match e with
  | GConfig _ => facts 500 "CONFIG_ERROR" "server_error" "internal_error"
  | GStorage _ => facts 503 "STORAGE_ERROR" "server_error" "service_unavailable"
  | GAuth _ => facts 401 "AUTH_ERROR" "authentication_error" "authentication_error"
  | GForbidden _ => facts 403 "FORBIDDEN" "permission_error" "permission_denied"
  | GProvider provider_error => provider_http_error_facts provider_error
  | GRateLimit _ retry_after rpm_limit tpm_limit =>
      with_headers (facts 429 "RATE_LIMIT_EXCEEDED" "rate_limit_error" "rate_limit_exceeded")
        (mkHeaders retry_after rpm_limit tpm_limit)
  | GValidation _ => facts 400 "VALIDATION_ERROR" "invalid_request_error" "invalid_request"
  | GNotFound _ => facts 404 "NOT_FOUND" "invalid_request_error" "not_found"
  | GConflict _ => facts 409 "CONFLICT" "invalid_request_error" "conflict"
  | GBadRequest _ => facts 400 "BAD_REQUEST" "invalid_request_error" "invalid_request"
  | GTimeout _ => facts 408 "TIMEOUT" "server_error" "timeout"
  | GUnavailable _ => facts 503 "SERVICE_UNAVAILABLE" "server_error" "service_unavailable"
  | GNetwork _ => facts 502 "NETWORK_ERROR" "server_error" "network_error"
  | GInternal _ => facts 500 "INTERNAL_ERROR" "server_error" "internal_error"
  | GNotImplemented _ => facts 501 "NOT_IMPLEMENTED" "invalid_request_error" "not_implemented"
  | GSerialization _ => facts 400 "SERIALIZATION_ERROR" "invalid_request_error" "invalid_request"
  | GHttpClient _ => facts 502 "HTTP_CLIENT_ERROR" "server_error" "network_error"
  | GIo _ => facts 500 "IO_ERROR" "server_error" "internal_error"
  end.

Definition gateway_canonical_retryable (e : GatewayError) : bool :=
  match e with
  | GProvider provider_error => canonical_retryable provider_error
  | _ => error_code_is_retryable (gateway_canonical_code e)
  end.

(** * Answers *)

(** What a client is told. *)
Record ErrorAnswer := mkAnswer {
  answer_status : Z;
  answer_headers : ProviderHttpErrorHeaders;
  answer_type : string;
  answer_code : option string;
  answer_param : option string;
  answer_message : string;
}.

(** An upstream error body, as [UpstreamErrorEnvelope] reads it; its code is that
    of [error_code_to_string]. *)
Record UpstreamErrorDetail := mkUpstream {
  up_message : option string;
  up_type : option string;
  up_param : option string;
  up_code : option string;
}.

Section Answers.
Variable redact_sensitive_text : string -> string.
Variable debug_str : string -> string.
(** [parse_upstream_error_detail]: serde's reading of a message. *)
Variable parse_upstream_error_detail : string -> option UpstreamErrorDetail.
(** The type and message of an Anthropic error body. *)
Variable anthropic_body : string -> option (string * string).

Definition gateway_error_display (e : GatewayError) : string :=
  match e with
  | GConfig m => "Configuration error: " +:+ m
  | GStorage m => "Storage error: " +:+ m
  | GHttpClient m => "HTTP client error: " +:+ m
  | GSerialization m => "Serialization error: " +:+ m
  | GIo m => "IO error: " +:+ m
  | GAuth m => "Authentication error: " +:+ m
  | GProvider p => "Provider error: " +:+ provider_error_display debug_str p
  | GRateLimit m _ _ _ => "Rate limit exceeded: " +:+ m
  | GValidation m => "Validation error: " +:+ m
  | GTimeout m => "Timeout error: " +:+ m
  | GNotFound m => "Not found: " +:+ m
  | GConflict m => "Conflict: " +:+ m
  | GBadRequest m => "Bad request: " +:+ m
  | GInternal m => "Internal server error: " +:+ m
  | GUnavailable m => "Service unavailable: " +:+ m
  | GNetwork m => "Network error: " +:+ m
  | GForbidden m => "Forbidden: " +:+ m
  | GNotImplemented m => "Not implemented: " +:+ m
  end.

(** The message of an answer: that of a provider error is redacted first. *)
Definition safe_message (e : GatewayError) : string :=
  match e with
  | GProvider p => provider_error_display debug_str (redacted redact_sensitive_text p)
  | _ => gateway_error_display e
  end.

(** [error_response_with_request_id]: [answer_type] is the canonical code. *)
Definition gateway_error_response (e : GatewayError) : ErrorAnswer * bool :=
  let f := gateway_http_error_facts e in
  (mkAnswer (status_code f) (headers f) (error_code_as_str (gateway_canonical_code e))
     (Some (gateway_code f)) None (safe_message e),
   gateway_canonical_retryable e).

(** [openai_error_spec]: an error body of the upstream replaces the fields it
    has. *)
Definition openai_error_spec (e : GatewayError) : ErrorAnswer :=
  let f := gateway_http_error_facts e in
  let safe := match e with GProvider p => GProvider (redacted redact_sensitive_text p) | _ => e end in
  let message :=
    match safe with
    | GProvider (ApiError _ _ m) => m
    | GProvider p => provider_error_display debug_str p
    | _ => gateway_error_display safe
    end in
  let spec := mkAnswer (status_code f) (headers f) (openai_error_type f) (Some (openai_code f))
                None message in
  match safe with
  | GProvider (ApiError _ _ _) =>
      match parse_upstream_error_detail message with
      | Some u =>
          mkAnswer (answer_status spec) (answer_headers spec)
            (default (answer_type spec) (up_type u))
            (match up_code u with Some c => Some c | None => answer_code spec end)
            (up_param u)
            (default message (up_message u))
      | None => spec
      end
  | _ => spec
  end.

Definition anthropic_error_kind (status : Z) : string :=
  if bool_decide (status ∈ [400; 402; 409; 422]) then "invalid_request_error"
  else if status =? 401 then "authentication_error"
  else if status =? 403 then "permission_error"
  else if status =? 404 then "not_found_error"
  else if status =? 413 then "request_too_large"
  else if status =? 429 then "rate_limit_error"
  else if status =? 529 then "overloaded_error"
  else "api_error".

(** [messages::error_response]: only the retry time is sent as a header; the
    body Anthropic itself answered is kept when it parses. *)
Definition anthropic_error_response (e : GatewayError) : ErrorAnswer :=
  let f := gateway_http_error_facts e in
  let own := (anthropic_error_kind (status_code f), safe_message e) in
  let native :=
    match e with
    | GProvider p =>
        match redacted redact_sensitive_text p with
        | ApiError provider _ message | RateLimit provider message _ _ _ _ =>
            if String.eqb (str_text provider) "anthropic" then anthropic_body message else None
        | _ => None
        end
    | _ => None
    end in
  let '(kind, message) := default own native in
  mkAnswer (status_code f) (mkHeaders (h_retry_after (headers f)) None None) kind None None message.

(** * Agreement of the protocols *)

Definition error_status (status : Z) : Prop := 400 <= status <= 599.

Lemma gateway_status_is_error (e : GatewayError) : error_status (status_code (gateway_http_error_facts e)).
Proof.
  unfold error_status.
  destruct e as [| | | | | |p| | | | | | | | | | |]; simpl; try lia.
  destruct p; simpl; try lia.
  - by case_match; simpl; lia.
  - unfold provider_api_error_facts, valid_status_or_bad_gateway, in_range.
    repeat case_match; simpl; bool_arith; lia.
Qed.

Lemma openai_status (e : GatewayError) :
  answer_status (openai_error_spec e) = status_code (gateway_http_error_facts e) /\
  answer_headers (openai_error_spec e) = headers (gateway_http_error_facts e).
Proof. unfold openai_error_spec. by repeat case_match. Qed.

Lemma anthropic_status (e : GatewayError) :
  answer_status (anthropic_error_response e) = status_code (gateway_http_error_facts e) /\
  h_retry_after (answer_headers (anthropic_error_response e)) =
    h_retry_after (headers (gateway_http_error_facts e)).
Proof. unfold anthropic_error_response. by case_match. Qed.

(** Whichever protocol a client speaks, it is told of a failure with the same
    status, an error, and the same time to wait before a retry. *)
Lemma protocols_agree (e : GatewayError) :
  let status := status_code (gateway_http_error_facts e) in
  error_status status /\
  answer_status (fst (gateway_error_response e)) = status /\
  answer_status (openai_error_spec e) = status /\
  answer_status (anthropic_error_response e) = status /\
  h_retry_after (answer_headers (openai_error_spec e)) =
    h_retry_after (answer_headers (fst (gateway_error_response e))) /\
  h_retry_after (answer_headers (anthropic_error_response e)) =
    h_retry_after (answer_headers (fst (gateway_error_response e))).
Proof.
  split; [apply gateway_status_is_error|].
  destruct (openai_status e) as [-> ->], (anthropic_status e) as [-> ->]. done.
Qed.

(** Texts of a provider error reach a client only through redaction: two errors
    that are redacted to the same and have the same facts and class are answered
    the same. *)
Lemma answers_redacted (p q : ProviderError) :
  redacted redact_sensitive_text p = redacted redact_sensitive_text q ->
  provider_http_error_facts p = provider_http_error_facts q ->
  openai_error_spec (GProvider p) = openai_error_spec (GProvider q) /\
  anthropic_error_response (GProvider p) = anthropic_error_response (GProvider q).
Proof.
  intros Hr Hf. split.
  - unfold openai_error_spec. cbn [gateway_http_error_facts]. by rewrite Hr, Hf.
  - unfold anthropic_error_response. cbn [gateway_http_error_facts safe_message]. by rewrite Hr, Hf.
Qed.
End Answers.
