(* ===== verification/BudgetScript.v ===== *)
(** Budgets shared by the replicas of the gateway ([storage/redis/budget.rs]): the
    Lua script that reserves, settles, cancels and resets over one Redis hash per
    budget, and the replies as the pool reads them.

    Amounts are billionths of a dollar.  Lua's numbers are exact below 2^53; the
    script prints a lease with [tostring], which writes integers from 10^14 on
    with an exponent, and reads it back with a pattern of digits. *)

From S2P Require Import Prelude ProviderErrors GatewayErrors.

Definition MAX_UNSETTLED_BUDGET_LEASES : Z := 65536.

(** * The hash *)

(** A lease as the pattern [^(%d+):(%d+):(%-?%d+)$] reads it. *)
Record BudgetLease := mkBudgetLease {
  bl_amount : Z;
  bl_expiry : Z;      (* ms *)
  bl_epoch : Z;
}.

Definition plain_digits (x : Z) : bool := (0 <=? x) && (x <? 10 ^ 14).
Definition plain_number (x : Z) : bool := (- 10 ^ 14 <? x) && (x <? 10 ^ 14).

(** [tostring(amount) .. ':' .. tostring(expiry) .. ':' .. tostring(epoch)], as it
    is read back. *)
Definition print_lease (amount expiry epoch : Z) : option BudgetLease :=
  if plain_digits amount && plain_digits expiry && plain_number epoch
  then Some (mkBudgetLease amount expiry epoch) else None.

(** The counters [c], [o] and [e], the leases [l:], the pending markers [p:] and
    the receipts [r:]. *)
Record BudgetHash := mkBudgetHash {
  h_committed : Z;
  h_outstanding : Z;
  h_epoch : Z;
  h_leases : gmap string (option BudgetLease);
  h_pending : gset string;
  h_receipts : gset string;
}.

Record BudgetLeaseArgs := mkBudgetArgs {
  ba_op : string;
  ba_now : Z;
  ba_period_epoch : Z;
  ba_amount : Z;
  ba_max_or_actual_or_force : Z;
  ba_seed_committed : Z;
  ba_lease_id : string;
  ba_ttl : Z;
}.

(** * The script *)

(** [seed]: what is written of an absent key. *)
Definition seed (a : BudgetLeaseArgs) (stored : option BudgetHash) : BudgetHash :=
  default (mkBudgetHash (ba_seed_committed a) 0 (Z.max 0 (ba_period_epoch a)) ∅ ∅ ∅) stored.

(** [release_leases] with [write_state(0, 0, epoch)]. *)
Definition release_all (epoch : Z) (h : BudgetHash) : BudgetHash :=
  mkBudgetHash 0 0 epoch ∅ (dom (h_leases h) ∪ h_pending h) (h_receipts h).

Definition maybe_period_reset (a : BudgetLeaseArgs) (h : BudgetHash) : BudgetHash :=
  if ba_period_epoch a <? 0 then h
  else if h_epoch h <? ba_period_epoch a then release_all (ba_period_epoch a) h else h.

(** The locals of [reclaim] after some of the fields. *)
Record Reclaimed := mkReclaimed {
  r_outstanding : Z;
  r_leases : gmap string (option BudgetLease);
  r_pending : gset string;
  r_unsettled : Z;
}.

Definition reclaim_field (now epoch : Z) (id : string) (printed : option BudgetLease)
    (r : Reclaimed) : Reclaimed :=
  match printed with
  | Some l =>
      if bl_expiry l <=? now then
        mkReclaimed
          (if bl_epoch l =? epoch then Z.max 0 (r_outstanding r - bl_amount l) else r_outstanding r)
          (r_leases r) ({[id]} ∪ r_pending r)
          (if bool_decide (id ∈ r_pending r) then r_unsettled r else r_unsettled r + 1)
      else mkReclaimed (r_outstanding r) (<[id := printed]> (r_leases r)) (r_pending r) (r_unsettled r + 1)
  | None => r
  end.

(** The scan of [HGETALL]: the markers that were pending before are counted too. *)
Definition reclaim_scan (now : Z) (h : BudgetHash) : Reclaimed :=
  map_fold (reclaim_field now (h_epoch h))
    (mkReclaimed (h_outstanding h) ∅ (h_pending h) (Z.of_nat (size (h_pending h))))
    (h_leases h).

Definition reclaim_leases (now : Z) (h : BudgetHash) : BudgetHash * Z :=
  let r := reclaim_scan now h in
  (mkBudgetHash (h_committed h) (r_outstanding r) (h_epoch h) (r_leases r) (r_pending r) (h_receipts h),
   r_unsettled r).

Definition budget_reply (flag : Z) (h : BudgetHash) : BudgetHash * list Z :=
  (h, [flag; h_committed h; h_outstanding h]).

(** [write_state] with the fields of one lease taken out. *)
Definition take_lease (id : string) (committed outstanding : Z) (h : BudgetHash) : BudgetHash :=
  mkBudgetHash committed outstanding (h_epoch h) (delete id (h_leases h)) (h_pending h ∖ {[id]}) (h_receipts h).

(** What is left outstanding when the hold of a lease is given back; [reserved]
    stands for an amount that cannot be read. *)
Definition give_back (reserved : Z) (lease : option BudgetLease) (h : BudgetHash) : Z :=
  match lease with
  | Some l =>
      if bl_epoch l =? h_epoch h then Z.max 0 (h_outstanding h - bl_amount l) else h_outstanding h
  | None => h_outstanding h
  end.

Definition run_reset (a : BudgetLeaseArgs) (h : BudgetHash) : BudgetHash * list Z :=
  if ba_max_or_actual_or_force a =? 1 then
    let epoch := if 0 <=? ba_period_epoch a then ba_period_epoch a else h_epoch h in
    (release_all epoch h, [1; 0; 0])
  else budget_reply 1 h.

Definition run_reserve (a : BudgetLeaseArgs) (unsettled : Z) (h : BudgetHash) : BudgetHash * list Z :=
  if MAX_UNSETTLED_BUDGET_LEASES <=? unsettled then budget_reply (-2) h
  else if ba_max_or_actual_or_force a <? h_committed h + h_outstanding h + ba_amount a
  then budget_reply 0 h
  else
    budget_reply 1
      (mkBudgetHash (h_committed h) (h_outstanding h + ba_amount a) (h_epoch h)
         (<[ba_lease_id a := print_lease (ba_amount a) (ba_now a + Z.max 1 (ba_ttl a)) (h_epoch h)]>
            (h_leases h))
         (h_pending h) (h_receipts h)).

Definition run_settle_response (a : BudgetLeaseArgs) (h : BudgetHash) : BudgetHash * list Z :=
  let id := ba_lease_id a in
  if bool_decide (id ∈ h_receipts h) then budget_reply 0 h
  else
    let outstanding :=
      match h_leases h !! id with Some lease => give_back 0 lease h | None => h_outstanding h end in
    let h := take_lease id (h_committed h + ba_max_or_actual_or_force a) outstanding h in
    budget_reply 1
      (mkBudgetHash (h_committed h) (h_outstanding h) (h_epoch h) (h_leases h) (h_pending h)
         ({[id]} ∪ h_receipts h)).

Definition run_settle (a : BudgetLeaseArgs) (h : BudgetHash) : BudgetHash * list Z :=
  let id := ba_lease_id a in
  let charged := h_committed h + ba_max_or_actual_or_force a in
  match h_leases h !! id with
  | None =>
      if bool_decide (id ∈ h_pending h)
      then budget_reply 1 (take_lease id charged (h_outstanding h) h)
      else budget_reply 1 h
  | Some lease => budget_reply 1 (take_lease id charged (give_back (ba_amount a) lease h) h)
  end.

Definition run_cancel (a : BudgetLeaseArgs) (h : BudgetHash) : BudgetHash * list Z :=
  let id := ba_lease_id a in
  let outstanding :=
    match h_leases h !! id with
    | Some lease => give_back (ba_amount a) lease h
    | None => h_outstanding h
    end in
  budget_reply 1 (take_lease id (h_committed h) outstanding h).

Definition budget_lease_script (a : BudgetLeaseArgs) (stored : option BudgetHash) : BudgetHash * list Z :=
  let h := maybe_period_reset a (seed a stored) in
  let '(h, unsettled) := reclaim_leases (ba_now a) h in
  if String.eqb (ba_op a) "reset" then run_reset a h
  else if String.eqb (ba_op a) "reserve" then run_reserve a unsettled h
  else if String.eqb (ba_op a) "settle_response" then run_settle_response a h
  else if String.eqb (ba_op a) "settle" then run_settle a h
  else if String.eqb (ba_op a) "cancel" then run_cancel a h
  else budget_reply (-1) h.

(** * The replies *)

Record BudgetLeaseState := mkBudgetState {
  bs_allowed : bool;
  bs_committed : Z;
  bs_outstanding : Z;
}.

Definition parse_budget_lease_state (values : list Z) : GatewayError + BudgetLeaseState :=
  match values with
  | [v0; v1; v2] =>
      if v0 =? -2 then
        inl (GUnavailable
               "Redis budget reservation capacity reached (65536 unfinished leases)")
      else if v0 <? 0 then
        inl (GStorage "Redis budget-lease script returned an error status")
      else inr (mkBudgetState (v0 =? 1) (Z.max v1 0) (Z.max v2 0))
  | _ =>
      inl (GStorage ("Unexpected Redis budget-lease result length: "
                       +:+ pretty (Z.of_nat (length values))))
  end.

(** * The operations of the pool *)

Definition budget_lease_key (scope name : string) : string :=
  "litellm-rs:budget:v1:" +:+ scope +:+ ":" +:+ name.

Definition BudgetStore := gmap string BudgetHash.

(** How a call goes: without a pool, without a permit or a connection, or with a
    failed command, whose write the server may have applied. *)
Record BudgetCall := mkBudgetCall {
  call_noop : bool;
  call_permit : option GatewayError;       (* the error of the permit or of the connection *)
  call_applied : bool;
  call_failure : option GatewayError;      (* of the command, applied or not *)
}.

Definition call_ok : BudgetCall := mkBudgetCall false None true None.

Definition invoke_budget_lease (c : BudgetCall) (key : string) (a : BudgetLeaseArgs)
    (s : BudgetStore) : BudgetStore * (GatewayError + BudgetLeaseState) :=
  if call_noop c then (s, inl (GStorage "budget redis backend is unavailable"))
  else match call_permit c with
  | Some e => (s, inl e)
  | None =>
      let '(h, reply) := budget_lease_script a (s !! key) in
      match call_failure c with
      | Some e => (if call_applied c then <[key := h]> s else s, inl e)
      | None => (<[key := h]> s, parse_budget_lease_state reply)
      end
  end.

Definition budget_reserve (amount max seed_committed period_epoch : Z) (lease_id : string)
    (now_ms ttl_ms : Z) : BudgetLeaseArgs :=
  mkBudgetArgs "reserve" now_ms period_epoch amount max seed_committed lease_id ttl_ms.

Definition budget_settle (reserved actual period_epoch : Z) (lease_id : string) (now_ms : Z)
    : BudgetLeaseArgs :=
  mkBudgetArgs "settle" now_ms period_epoch reserved actual 0 lease_id 0.

Definition budget_settle_response (reserved actual period_epoch : Z) (lease_id : string)
    (now_ms : Z) : BudgetLeaseArgs :=
  mkBudgetArgs "settle_response" now_ms period_epoch reserved actual 0 lease_id 0.

Definition budget_cancel (reserved period_epoch : Z) (lease_id : string) (now_ms : Z)
    : BudgetLeaseArgs :=
  mkBudgetArgs "cancel" now_ms period_epoch reserved 0 0 lease_id 0.

Definition budget_reset (period_epoch now_ms : Z) (force : bool) : BudgetLeaseArgs :=
  mkBudgetArgs "reset" now_ms period_epoch 0 (if force then 1 else 0) 0 "" 0.
