(* ===== verification/BudgetLedger.v ===== *)
(** What the shared budget script promises: a ledger with one map of unfinished
    reservations, each holding its amount until it expires or the period turns,
    and charged when it is finished.  The hash of the script, with its counter of
    outstanding amounts, its leases and its pending markers, implements it. *)

From S2P Require Import Prelude ProviderErrors GatewayErrors BudgetScript.

(** * The ledger *)

Inductive Hold :=
| Held (amount expiry : Z)
| Released.

Record Ledger := mkLedger {
  led_committed : Z;
  led_epoch : Z;
  led_unfinished : gmap string Hold;
  led_receipts : gset string;
}.

Definition hold_amount (x : Hold) : Z := match x with Held amount _ => amount | Released => 0 end.

Definition led_outstanding (L : Ledger) : Z := sum_map hold_amount (led_unfinished L).

Definition expire_hold (now : Z) (x : Hold) : Hold :=
  match x with
  | Held amount expiry => if expiry <=? now then Released else Held amount expiry
  | Released => Released
  end.

Definition led_release (epoch : Z) (L : Ledger) : Ledger :=
  mkLedger 0 epoch ((fun _ => Released) <$> led_unfinished L) (led_receipts L).

Definition led_roll (period : Z) (L : Ledger) : Ledger :=
  if (0 <=? period) && (led_epoch L <? period) then led_release period L else L.

Definition led_expire (now : Z) (L : Ledger) : Ledger :=
  mkLedger (led_committed L) (led_epoch L) (expire_hold now <$> led_unfinished L) (led_receipts L).

Definition led_finish (id : string) (charge : Z) (L : Ledger) : Ledger :=
  mkLedger (led_committed L + charge) (led_epoch L) (delete id (led_unfinished L)) (led_receipts L).

Definition led_reply (flag : Z) (L : Ledger) : Ledger * list Z :=
  (L, [flag; led_committed L; led_outstanding L]).

Definition led_reserve (a : BudgetLeaseArgs) (L : Ledger) : Ledger * list Z :=
  if MAX_UNSETTLED_BUDGET_LEASES <=? Z.of_nat (size (led_unfinished L)) then led_reply (-2) L
  else if ba_max_or_actual_or_force a <? led_committed L + led_outstanding L + ba_amount a
  then led_reply 0 L
  else led_reply 1
         (mkLedger (led_committed L) (led_epoch L)
            (<[ba_lease_id a := Held (ba_amount a) (ba_now a + Z.max 1 (ba_ttl a))]> (led_unfinished L))
            (led_receipts L)).

Definition led_step (a : BudgetLeaseArgs) (L : Ledger) : Ledger * list Z :=
  let id := ba_lease_id a in
  let L := led_expire (ba_now a) (led_roll (ba_period_epoch a) L) in
  if String.eqb (ba_op a) "reset" then
    if ba_max_or_actual_or_force a =? 1 then
      led_reply 1 (led_release (if 0 <=? ba_period_epoch a then ba_period_epoch a else led_epoch L) L)
    else led_reply 1 L
  else if String.eqb (ba_op a) "reserve" then led_reserve a L
  else if String.eqb (ba_op a) "settle_response" then
    if bool_decide (id ∈ led_receipts L) then led_reply 0 L
    else let L := led_finish id (ba_max_or_actual_or_force a) L in
         led_reply 1 (mkLedger (led_committed L) (led_epoch L) (led_unfinished L)
                        ({[id]} ∪ led_receipts L))
  else if String.eqb (ba_op a) "settle" then
    match led_unfinished L !! id with
    | None => led_reply 1 L
    | Some _ => led_reply 1 (led_finish id (ba_max_or_actual_or_force a) L)
    end
  else if String.eqb (ba_op a) "cancel" then led_reply 1 (led_finish id 0 L)
  else led_reply (-1) L.

(** * The hash as a ledger *)

Definition hold_of (l : option BudgetLease) : Hold :=
  match l with Some l => Held (bl_amount l) (bl_expiry l) | None => Held 0 0 end.

Definition lease_amount (l : option BudgetLease) : Z := hold_amount (hold_of l).

Definition unfinished_of (leases : gmap string (option BudgetLease)) (pending : gset string)
    : gmap string Hold :=
  (hold_of <$> leases) ∪ gset_to_gmap Released pending.

Definition ledger_of (h : BudgetHash) : Ledger :=
  mkLedger (h_committed h) (h_epoch h) (unfinished_of (h_leases h) (h_pending h)) (h_receipts h).

(** A lease the script can read back, of the hash's epoch. *)
Definition lease_current (epoch : Z) (l : option BudgetLease) : Prop :=
  match l with Some l => bl_epoch l = epoch /\ 0 <= bl_amount l | None => False end.

Record exact (h : BudgetHash) : Prop := mkExact {
  ex_current : map_Forall (fun _ => lease_current (h_epoch h)) (h_leases h);
  ex_outstanding : h_outstanding h = sum_map lease_amount (h_leases h);
  ex_disjoint : dom (h_leases h) ## h_pending h;
  ex_epoch : 0 <= h_epoch h < 10 ^ 14;
}.

(** Arguments whose lease prints in plain digits, and a fresh identity. *)
Record args_ok (a : BudgetLeaseArgs) : Prop := mkArgsOk {
  ao_amount : 0 <= ba_amount a < 10 ^ 14;
  ao_expiry : 0 <= ba_now a + Z.max 1 (ba_ttl a) < 10 ^ 14;
  ao_period : ba_period_epoch a < 10 ^ 14;
}.

Definition fresh_for (a : BudgetLeaseArgs) (L : Ledger) : Prop :=
  ba_op a = "reserve" -> led_unfinished L !! ba_lease_id a = None.

(** * The script implements the ledger *)

Section Views.
Implicit Types (leases : gmap string (option BudgetLease)) (pending : gset string).

Lemma unfinished_of_lookup leases pending id :
  unfinished_of leases pending !! id
  = match leases !! id with
    | Some l => Some (hold_of l)
    | None => if bool_decide (id ∈ pending) then Some Released else None
    end.
Proof.
  unfold unfinished_of. rewrite lookup_union, lookup_fmap.
  destruct (leases !! id) as [l|]; simpl; [by rewrite union_Some_l|].
  rewrite (left_id None _), lookup_gset_to_gmap. case_bool_decide.
  - by rewrite option_guard_True.
  - by rewrite option_guard_False.
Qed.

Lemma unfinished_of_disjoint leases pending :
  dom leases ## pending -> (hold_of <$> leases) ##ₘ gset_to_gmap Released pending.
Proof. intros Hd. apply map_disjoint_dom. by rewrite dom_fmap_L, dom_gset_to_gmap. Qed.

Lemma unfinished_of_outstanding leases pending :
  dom leases ## pending ->
  sum_map hold_amount (unfinished_of leases pending) = sum_map lease_amount leases.
Proof.
  intros Hd. unfold unfinished_of. rewrite sum_map_union by by apply unfinished_of_disjoint.
  rewrite sum_map_fmap, (sum_map_zero _ (gset_to_gmap _ _)), Z.add_0_r.
  - done.
  - by intros id x [_ <-]%lookup_gset_to_gmap_Some.
Qed.

Lemma unfinished_of_size leases pending :
  dom leases ## pending ->
  size (unfinished_of leases pending) = (size leases + size pending)%nat.
Proof.
  intros Hd. unfold unfinished_of. rewrite map_size_disj_union by by apply unfinished_of_disjoint.
  by rewrite map_size_fmap, <- (size_dom (gset_to_gmap Released pending)), dom_gset_to_gmap.
Qed.

Lemma unfinished_of_delete leases pending id :
  unfinished_of (delete id leases) (pending ∖ {[id]}) = delete id (unfinished_of leases pending).
Proof.
  apply map_eq. intros j. rewrite unfinished_of_lookup.
  destruct (decide (j = id)) as [->|Hj].
  - rewrite !lookup_delete_eq, bool_decide_eq_false_2; [done|set_solver].
  - rewrite !lookup_delete_ne, unfinished_of_lookup by done.
    destruct (leases !! j); [done|].
    by rewrite (bool_decide_ext (j ∈ pending ∖ {[id]}) (j ∈ pending)) by set_solver.
Qed.
End Views.

Lemma ledger_of_outstanding h :
  exact h -> led_outstanding (ledger_of h) = h_outstanding h.
Proof.
  intros H. rewrite (ex_outstanding _ H). apply unfinished_of_outstanding, ex_disjoint, H.
Qed.

Lemma ledger_of_reply flag h :
  exact h -> led_reply flag (ledger_of h) = (ledger_of h, (budget_reply flag h).2).
Proof. intros H. unfold led_reply, budget_reply. by rewrite ledger_of_outstanding. Qed.

Lemma release_all_exact epoch h : 0 <= epoch < 10 ^ 14 -> exact h -> exact (release_all epoch h).
Proof.
  intros He H. split; cbn; [done | by rewrite sum_map_empty | set_solver | done].
Qed.

Lemma release_all_ledger epoch h :
  ledger_of (release_all epoch h) = led_release epoch (ledger_of h).
Proof.
  unfold ledger_of, led_release; cbn. f_equal. apply map_eq. intros id.
  rewrite lookup_fmap, !unfinished_of_lookup, lookup_empty.
  destruct (h_leases h !! id) as [l|] eqn:E.
  - rewrite bool_decide_eq_true_2; [done|]. apply elem_of_union_l. by apply elem_of_dom_2 in E.
  - apply not_elem_of_dom in E.
    rewrite (bool_decide_ext (id ∈ dom (h_leases h) ∪ h_pending h) (id ∈ h_pending h)) by set_solver.
    by case_bool_decide.
Qed.

Lemma period_reset_refines a h :
  args_ok a -> exact h ->
  exact (maybe_period_reset a h) /\
  ledger_of (maybe_period_reset a h) = led_roll (ba_period_epoch a) (ledger_of h).
Proof.
  intros Ha H. pose proof (ao_period _ Ha). pose proof (ex_epoch _ H).
  unfold maybe_period_reset, led_roll; cbn.
  destruct (Z.ltb_spec (ba_period_epoch a) 0) as [Hp|Hp].
  - rewrite (proj2 (Z.leb_gt _ _)) by done. done.
  - rewrite (proj2 (Z.leb_le _ _)) by done. cbn.
    destruct (h_epoch h <? ba_period_epoch a); [|done].
    split; [apply release_all_exact; [lia|done] | apply release_all_ledger].
Qed.

(** ** The scan *)

Definition lease_live (now : Z) (l : option BudgetLease) : Prop :=
  match l with Some l => now < bl_expiry l | None => False end.
Definition lease_expired (now : Z) (l : option BudgetLease) : Prop :=
  match l with Some l => bl_expiry l <= now | None => False end.

#[global] Instance lease_live_dec now l : Decision (lease_live now l).
Proof. destruct l; cbn; apply _. Defined.
#[global] Instance lease_expired_dec now l : Decision (lease_expired now l).
Proof. destruct l; cbn; apply _. Defined.

Lemma live_not_expired now epoch l :
  lease_current epoch l -> lease_live now l <-> ~ lease_expired now l.
Proof. destruct l; cbn; [lia | done]. Qed.

Section Scan.
Variable now : Z.
Variable h : BudgetHash.
Hypothesis Hcur : map_Forall (fun _ => lease_current (h_epoch h)) (h_leases h).
Notation live := (filter (fun kv : string * option BudgetLease => lease_live now (snd kv))).
Notation expired := (filter (fun kv : string * option BudgetLease => lease_expired now (snd kv))).

(** What the scan has done after the leases of [m]. *)
Definition scanned (r : Reclaimed) (m : gmap string (option BudgetLease)) : Prop :=
  map_Forall (fun _ => lease_current (h_epoch h)) m -> m ⊆ h_leases h ->
  r_leases r = live m /\
  r_pending r = h_pending h ∪ dom (expired m) /\
  r_unsettled r = Z.of_nat (size (r_pending r)) + Z.of_nat (size (r_leases r)) /\
  (sum_map lease_amount m <= h_outstanding h ->
   r_outstanding r = h_outstanding h - sum_map lease_amount (expired m)).

Lemma reclaim_scanned : scanned (reclaim_scan now h) (h_leases h).
Proof.
  unfold reclaim_scan. apply (map_fold_weak_ind scanned).
  - intros _ _. rewrite !map_filter_empty, dom_empty_L, sum_map_empty. cbn.
    rewrite map_size_empty, union_empty_r_L. repeat split; lia.
  - intros id l m r Hid IH Hm Hsub. apply map_Forall_insert in Hm as [Hl Hm]; [|done].
    destruct (IH Hm) as (Hrl & Hrp & Hru & Hro).
    { etrans; [|apply Hsub]. by apply insert_subseteq. }
    assert (Hfresh : live m !! id = None) by by apply map_lookup_filter_None; left.
    destruct l as [l|]; [|done]. destruct Hl as [He Ha]. cbn.
    assert (Hnn : map_Forall (fun _ x => 0 <= lease_amount x) m).
    { intros j x Hx. specialize (Hm _ _ Hx). destruct x; [apply Hm | done]. }
    pose proof (sum_map_nonneg _ _ Hnn).
    rewrite sum_map_insert by done. change (lease_amount (Some l)) with (bl_amount l).
    destruct (Z.leb_spec (bl_expiry l) now) as [Hexp|Hexp]; cbn.
    + rewrite (map_filter_insert_False _ m), (map_filter_insert_True _ m) by (cbn; lia).
      rewrite delete_id, dom_insert_L by done. repeat split; [done | set_solver | |].
      * case_bool_decide.
        -- by rewrite (proj1 (subseteq_union_L {[id]} (r_pending r))) by set_solver.
        -- rewrite size_union by set_solver. rewrite size_singleton. lia.
      * intros Hsum. pose proof (sum_map_filter_le lease_amount
          (fun kv : string * option BudgetLease => lease_expired now (snd kv)) m Hnn).
        rewrite Hro by lia.
        rewrite (proj2 (Z.eqb_eq _ _) He), sum_map_insert.
        2:{ apply map_lookup_filter_None. by left. }
        change (lease_amount (Some l)) with (bl_amount l). lia.
    + rewrite (map_filter_insert_True _ m), (map_filter_insert_False _ m) by (cbn; lia).
      rewrite delete_id by done. repeat split; [by rewrite Hrl | done | |].
      * rewrite map_size_insert_None by by rewrite Hrl. lia.
      * intros Hsum. apply Hro. lia.
Qed.
End Scan.

Lemma expired_unfinished now h id :
  exact h ->
  let live := filter (fun kv : string * option BudgetLease => lease_live now (snd kv)) (h_leases h) in
  let expired := filter (fun kv : string * option BudgetLease => lease_expired now (snd kv)) (h_leases h) in
  unfinished_of live (h_pending h ∪ dom expired) !! id
  = expire_hold now <$> unfinished_of (h_leases h) (h_pending h) !! id.
Proof.
  intros H live expired. subst live expired. rewrite !unfinished_of_lookup.
  destruct (h_leases h !! id) as [l|] eqn:E.
  - pose proof (ex_current _ H _ _ E) as Hl. destruct l as [l|]; [|done]. cbn.
    destruct (Z.leb_spec (bl_expiry l) now) as [Hx|Hx].
    + rewrite (proj2 (map_lookup_filter_None _ _ _)), bool_decide_eq_true_2; [done| |].
      * apply elem_of_union_r, elem_of_dom. exists (Some l). by apply map_lookup_filter_Some.
      * right. intros l' E'. simplify_eq. cbn. lia.
    + by rewrite (proj2 (map_lookup_filter_Some _ _ _ (Some l))).
  - rewrite (proj2 (map_lookup_filter_None _ _ _)) by by left.
    rewrite (bool_decide_ext _ (id ∈ h_pending h)).
    + by case_bool_decide.
    + rewrite elem_of_union. split; [|by left]. intros [?|Hx]; [done|]. exfalso. revert Hx.
      apply not_elem_of_dom, map_lookup_filter_None. by left.
Qed.

Lemma reclaim_refines now h :
  exact h ->
  exact (reclaim_leases now h).1 /\
  ledger_of (reclaim_leases now h).1 = led_expire now (ledger_of h) /\
  (reclaim_leases now h).2 = Z.of_nat (size (led_unfinished (ledger_of (reclaim_leases now h).1))).
Proof.
  intros H. pose proof (ex_current _ H) as Hcur. pose proof (ex_disjoint _ H) as Hd.
  destruct (reclaim_scanned now h) as (Hrl & Hrp & Hru & Hro); [done..|].
  specialize (Hro ltac:(by rewrite (ex_outstanding _ H))).
  assert (Hcompl : forall kv : string * option BudgetLease, h_leases h !! kv.1 = Some kv.2 ->
            lease_live now kv.2 <-> ~ lease_expired now kv.2).
  { intros [i l] E. apply (live_not_expired _ (h_epoch h)). by apply (Hcur i). }
  assert (Hdisj : dom (r_leases (reclaim_scan now h)) ## r_pending (reclaim_scan now h)).
  { rewrite Hrl, Hrp. intros id [l [E Hl]%map_lookup_filter_Some]%elem_of_dom [Hp|Hp]%elem_of_union.
    - apply (Hd id); [by apply elem_of_dom_2 in E | done].
    - apply elem_of_dom in Hp as [l' [E' Hl']%map_lookup_filter_Some]. simplify_eq.
      by apply (Hcompl (id, l)) in Hl. }
  assert (He : exact (reclaim_leases now h).1).
  { split; cbn; [ | | done | apply H].
    - rewrite Hrl. intros i l [E _]%map_lookup_filter_Some. by apply (Hcur i).
    - rewrite Hro, Hrl, (ex_outstanding _ H).
      rewrite (sum_map_filter_split _ (fun kv => lease_expired now (snd kv)) (h_leases h)).
      rewrite (proj1 (map_filter_ext (fun kv => lease_live now (snd kv))
                        (fun kv => ~ lease_expired now (snd kv)) (h_leases h))); [lia|].
      intros i l E. by apply (Hcompl (i, l)). }
  split; [done|]. split.
  - unfold ledger_of, led_expire. cbn. f_equal. apply map_eq. intros id.
    rewrite Hrl, Hrp, lookup_fmap. by apply expired_unfinished.
  - cbn. rewrite unfinished_of_size by done. lia.
Qed.

(** ** The operations *)

Definition given_back (reserved : Z) (id : string) (h : BudgetHash) : Z :=
  match h_leases h !! id with Some lease => give_back reserved lease h | None => h_outstanding h end.

Lemma take_lease_refines reserved id committed h :
  exact h ->
  exact (take_lease id committed (given_back reserved id h) h) /\
  ledger_of (take_lease id committed (given_back reserved id h) h)
  = mkLedger committed (h_epoch h) (delete id (led_unfinished (ledger_of h))) (h_receipts h).
Proof.
  intros H. split.
  - split; cbn.
    + apply map_Forall_delete, H.
    + unfold given_back, give_back. destruct (h_leases h !! id) as [l|] eqn:E.
      * pose proof (ex_current _ H _ _ E) as Hl. destruct l as [l|]; [|done]. destruct Hl as [He Ha].
        rewrite (proj2 (Z.eqb_eq _ _) He), (sum_map_delete _ _ _ _ E), <- (ex_outstanding _ H).
        change (lease_amount (Some l)) with (bl_amount l).
        enough (bl_amount l <= h_outstanding h) by lia.
        rewrite (ex_outstanding _ H).
        apply (sum_map_ge lease_amount (h_leases h) id (Some l)); [|done].
        intros j x Hx. pose proof (ex_current _ H _ _ Hx). destruct x; [cbn in *; tauto | done].
      * by rewrite delete_id, (ex_outstanding _ H).
    + rewrite dom_delete_L. pose proof (ex_disjoint _ H). set_solver.
    + apply H.
  - unfold ledger_of; cbn. by rewrite unfinished_of_delete.
Qed.

Lemma print_lease_plain amount expiry epoch :
  0 <= amount < 10 ^ 14 -> 0 <= expiry < 10 ^ 14 -> 0 <= epoch < 10 ^ 14 ->
  print_lease amount expiry epoch = Some (mkBudgetLease amount expiry epoch).
Proof.
  intros. unfold print_lease. destruct (plain_digits amount && plain_digits expiry && plain_number epoch) eqn:E;
    [done|]. unfold plain_digits, plain_number in E. lia.
Qed.

Lemma reserve_refines a h :
  args_ok a -> exact h -> ba_lease_id a ∉ dom (h_leases h) ∪ h_pending h ->
  let h' := mkBudgetHash (h_committed h) (h_outstanding h + ba_amount a) (h_epoch h)
    (<[ba_lease_id a := print_lease (ba_amount a) (ba_now a + Z.max 1 (ba_ttl a)) (h_epoch h)]>
       (h_leases h)) (h_pending h) (h_receipts h) in
  exact h' /\
  ledger_of h' = mkLedger (h_committed h) (h_epoch h)
    (<[ba_lease_id a := Held (ba_amount a) (ba_now a + Z.max 1 (ba_ttl a))]>
       (led_unfinished (ledger_of h))) (h_receipts h).
Proof.
  intros [Ham Hex Hpe] H Hfresh h'. pose proof (ex_epoch _ H). apply not_elem_of_union in Hfresh as [Hl Hp].
  pose proof (proj1 (not_elem_of_dom _ _) Hl) as Hln.
  subst h'. rewrite print_lease_plain by lia. split.
  - split; cbn; [ | | |done].
    + apply map_Forall_insert_2; [cbn; lia | apply H].
    + rewrite sum_map_insert, (ex_outstanding _ H) by done.
      change (lease_amount (Some ?l)) with (bl_amount l). cbn. lia.
    + rewrite dom_insert_L. pose proof (ex_disjoint _ H). set_solver.
  - unfold ledger_of; cbn. f_equal. unfold unfinished_of. by rewrite fmap_insert, <- insert_union_l.
Qed.

Lemma reset_refines a h :
  args_ok a -> exact h ->
  exact (run_reset a h).1 /\
  (ledger_of (run_reset a h).1, (run_reset a h).2)
  = if ba_max_or_actual_or_force a =? 1
    then led_reply 1 (led_release (if 0 <=? ba_period_epoch a then ba_period_epoch a else h_epoch h)
                        (ledger_of h))
    else led_reply 1 (ledger_of h).
Proof.
  intros Ha H. pose proof (ao_period _ Ha). pose proof (ex_epoch _ H).
  unfold run_reset. destruct (_ =? 1); [|by rewrite ledger_of_reply].
  assert (He : exact (release_all (if 0 <=? ba_period_epoch a then ba_period_epoch a else h_epoch h) h)).
  { apply release_all_exact; [|done]. destruct (Z.leb_spec 0 (ba_period_epoch a)); lia. }
  split; [done|]. cbn [fst snd]. rewrite <- release_all_ledger, ledger_of_reply by done. done.
Qed.

Lemma reserve_step_refines a unsettled h :
  args_ok a -> exact h -> ba_lease_id a ∉ dom (h_leases h) ∪ h_pending h ->
  unsettled = Z.of_nat (size (led_unfinished (ledger_of h))) ->
  exact (run_reserve a unsettled h).1 /\
  (ledger_of (run_reserve a unsettled h).1, (run_reserve a unsettled h).2) = led_reserve a (ledger_of h).
Proof.
  intros Ha H Hf ->. destruct (reserve_refines a h Ha H Hf) as [He Hl].
  unfold run_reserve, led_reserve. rewrite ledger_of_outstanding by done. cbn [led_committed ledger_of].
  case_match; [by rewrite ledger_of_reply|]. case_match; [by rewrite ledger_of_reply|].
  split; [done|]. etrans; [|apply (f_equal (led_reply 1) Hl)]. by rewrite ledger_of_reply.
Qed.

Lemma settle_response_refines a h :
  exact h ->
  exact (run_settle_response a h).1 /\
  (ledger_of (run_settle_response a h).1, (run_settle_response a h).2)
  = let L := ledger_of h in let id := ba_lease_id a in
    if bool_decide (id ∈ led_receipts L) then led_reply 0 L
    else let L := led_finish id (ba_max_or_actual_or_force a) L in
         led_reply 1 (mkLedger (led_committed L) (led_epoch L) (led_unfinished L)
                        ({[id]} ∪ led_receipts L)).
Proof.
  intros H. unfold run_settle_response. cbn [led_receipts ledger_of].
  case_bool_decide; [by rewrite ledger_of_reply|].
  destruct (take_lease_refines 0 (ba_lease_id a) (h_committed h + ba_max_or_actual_or_force a) h H)
    as [[Hc Ho Hd Hp] Hl].
  fold (given_back 0 (ba_lease_id a) h).
  set (h1 := take_lease _ _ _ _) in *. cbn [fst snd budget_reply].
  set (h2 := mkBudgetHash _ _ _ _ _ _).
  assert (He : exact h2) by by split.
  split; [done|]. cbn zeta.
  assert (Hl2 : ledger_of h2 = mkLedger (led_committed (ledger_of h1)) (led_epoch (ledger_of h1))
    (led_unfinished (ledger_of h1)) ({[ba_lease_id a]} ∪ led_receipts (ledger_of h1))) by done.
  rewrite Hl in Hl2. etrans; [|apply (f_equal (led_reply 1) Hl2)]. by rewrite ledger_of_reply.
Qed.

Lemma settle_refines a h :
  exact h ->
  exact (run_settle a h).1 /\
  (ledger_of (run_settle a h).1, (run_settle a h).2)
  = match led_unfinished (ledger_of h) !! ba_lease_id a with
    | None => led_reply 1 (ledger_of h)
    | Some _ => led_reply 1 (led_finish (ba_lease_id a) (ba_max_or_actual_or_force a) (ledger_of h))
    end.
Proof.
  intros H. set (c := h_committed h + ba_max_or_actual_or_force a).
  destruct (take_lease_refines (ba_amount a) (ba_lease_id a) c h H) as [He Hl].
  assert (Hfin : led_finish (ba_lease_id a) (ba_max_or_actual_or_force a) (ledger_of h)
                 = ledger_of (take_lease (ba_lease_id a) c (given_back (ba_amount a) (ba_lease_id a) h) h))
    by by rewrite Hl.
  rewrite Hfin, ledger_of_reply by done. unfold run_settle. cbn [led_unfinished ledger_of].
  rewrite unfinished_of_lookup. unfold given_back in *. destruct (h_leases h !! ba_lease_id a); [done|].
  case_bool_decide; [done|]. by rewrite ledger_of_reply.
Qed.

Lemma cancel_refines a h :
  exact h ->
  exact (run_cancel a h).1 /\
  (ledger_of (run_cancel a h).1, (run_cancel a h).2)
  = led_reply 1 (led_finish (ba_lease_id a) 0 (ledger_of h)).
Proof.
  intros H.
  destruct (take_lease_refines (ba_amount a) (ba_lease_id a) (h_committed h) h H) as [He Hl].
  split; [done|].
  assert (Hfin : led_finish (ba_lease_id a) 0 (ledger_of h)
                 = ledger_of (take_lease (ba_lease_id a) (h_committed h)
                                (given_back (ba_amount a) (ba_lease_id a) h) h)).
  { rewrite Hl. unfold led_finish; cbn. by rewrite Z.add_0_r. }
  by rewrite Hfin, ledger_of_reply.
Qed.

Lemma led_roll_lookup period L id :
  led_unfinished L !! id = None -> led_unfinished (led_roll period L) !! id = None.
Proof. intros H. unfold led_roll. case_match; [|done]. cbn. by rewrite lookup_fmap, H. Qed.

Lemma unfinished_none h id :
  led_unfinished (ledger_of h) !! id = None -> id ∉ dom (h_leases h) ∪ h_pending h.
Proof.
  cbn. rewrite unfinished_of_lookup. destruct (h_leases h !! id) eqn:E; [done|].
  apply not_elem_of_dom in E. case_bool_decide; [done|]. set_solver.
Qed.

Lemma script_refines a h :
  args_ok a -> exact h -> fresh_for a (ledger_of h) ->
  exact (budget_lease_script a (Some h)).1 /\
  (ledger_of (budget_lease_script a (Some h)).1, (budget_lease_script a (Some h)).2)
  = led_step a (ledger_of h).
Proof.
  intros Ha H Hf. destruct (period_reset_refines a h Ha H) as [H1 L1].
  destruct (reclaim_refines (ba_now a) _ H1) as (H2 & L2 & U2).
  unfold budget_lease_script, led_step. change (seed a (Some h)) with h.
  rewrite <- L1, <- L2.
  destruct (reclaim_leases (ba_now a) (maybe_period_reset a h)) as [h2 unsettled] eqn:E. cbn [fst snd] in *.
  destruct (String.eqb_spec (ba_op a) "reset"); [by apply reset_refines|].
  destruct (String.eqb_spec (ba_op a) "reserve") as [Hop|].
  { apply reserve_step_refines; [done..| |done]. apply unfinished_none. rewrite L2; cbn.
    rewrite lookup_fmap. fold (ledger_of (maybe_period_reset a h)).
    pose proof (led_roll_lookup (ba_period_epoch a) _ _ (Hf Hop)) as Hn. rewrite <- L1 in Hn.
    cbn in Hn. by rewrite Hn. }
  destruct (String.eqb_spec (ba_op a) "settle_response"); [by apply settle_response_refines|].
  destruct (String.eqb_spec (ba_op a) "settle"); [by apply settle_refines|].
  destruct (String.eqb_spec (ba_op a) "cancel"); [by apply cancel_refines|].
  by rewrite ledger_of_reply.
Qed.

(** * Runs from an absent key *)

Definition led_seed (a : BudgetLeaseArgs) : Ledger :=
  mkLedger (ba_seed_committed a) (Z.max 0 (ba_period_epoch a)) ∅ ∅.

Definition led_call (a : BudgetLeaseArgs) (L : option Ledger) : Ledger * list Z :=
  led_step a (default (led_seed a) L).

Fixpoint script_run (l : list BudgetLeaseArgs) (stored : option BudgetHash)
    : option BudgetHash * list (list Z) :=
  match l with
  | [] => (stored, [])
  | a :: l =>
      let '(h, reply) := budget_lease_script a stored in
      let '(final, replies) := script_run l (Some h) in (final, reply :: replies)
  end.

Fixpoint led_run (l : list BudgetLeaseArgs) (L : option Ledger) : option Ledger * list (list Z) :=
  match l with
  | [] => (L, [])
  | a :: l =>
      let '(L', reply) := led_call a L in
      let '(final, replies) := led_run l (Some L') in (final, reply :: replies)
  end.

(** Every call has readable arguments, and no reservation reuses the identity of
    an unfinished one. *)
Fixpoint run_ok (l : list BudgetLeaseArgs) (L : option Ledger) : Prop :=
  match l with
  | [] => True
  | a :: l => args_ok a /\ fresh_for a (default (led_seed a) L) /\ run_ok l (Some (led_call a L).1)
  end.

Lemma seed_exact a : args_ok a -> exact (seed a None) /\ ledger_of (seed a None) = led_seed a.
Proof.
  intros Ha. pose proof (ao_period _ Ha). split.
  - split; cbn; [done | by rewrite sum_map_empty | set_solver | lia].
  - done.
Qed.

Lemma run_refines l stored :
  (forall h, stored = Some h -> exact h) -> run_ok l (ledger_of <$> stored) ->
  (ledger_of <$> (script_run l stored).1, (script_run l stored).2) = led_run l (ledger_of <$> stored) /\
  (forall h, (script_run l stored).1 = Some h -> exact h).
Proof.
  revert stored. induction l as [|a l IH]; intros stored Hs Hok; [done|].
  destruct Hok as (Ha & Hf & Hok). cbn [script_run led_run]. unfold led_call in *.
  assert (exact (seed a stored) /\ ledger_of (seed a stored) = default (led_seed a) (ledger_of <$> stored))
    as [He Hl].
  { destruct stored as [h|]; [|exact (seed_exact a Ha)].
    split; [by apply Hs | done]. }
  assert (Hsc : budget_lease_script a stored = budget_lease_script a (Some (seed a stored))) by done.
  rewrite Hsc, <- Hl in *. destruct (script_refines a _ Ha He Hf) as [He' Hstep].
  destruct (budget_lease_script a (Some (seed a stored))) as [h reply] eqn:E. cbn [fst snd] in *.
  rewrite <- Hstep in *. cbn [fst] in Hok.
  specialize (IH (Some h) ltac:(by intros ? [= <-]) Hok). cbn in IH.
  destruct (script_run l (Some h)) as [final replies], (led_run l (Some (ledger_of h))) as [Lf rl].
  cbn in *. destruct IH as [IH1 IH2]. by simplify_eq.
Qed.
