(* ===== verification/BudgetGuarantees.v ===== *)
(** What the shared budgets guarantee over whole runs of the script: the replies
    are those of a ledger, a reservation is charged by the operation that finishes
    it first and by no other, and the spend stays within the limits the
    reservations were granted under, up to charges above what they held. *)

From S2P Require Import Prelude ProviderErrors GatewayErrors BudgetScript BudgetLedger.

(** * Runs of the ledger *)

Definition led_rolled (a : BudgetLeaseArgs) (L : Ledger) : Ledger :=
  led_expire (ba_now a) (led_roll (ba_period_epoch a) L).

(** A call of the script that only brings the hash up to date. *)
Definition read_call (a : BudgetLeaseArgs) : BudgetLeaseArgs :=
  mkBudgetArgs "reset" (ba_now a) (ba_period_epoch a) 0 0 (ba_seed_committed a) ""
    (ba_ttl a).

Definition flag_of (reply : list Z) : Z := default (-3) (head reply).

Definition call_grants (id : string) (call : BudgetLeaseArgs * list Z) : bool :=
  String.eqb (ba_op call.1) "reserve" && String.eqb (ba_lease_id call.1) id && (flag_of call.2 =? 1).

Definition call_finishes (id : string) (call : BudgetLeaseArgs * list Z) : bool :=
  (String.eqb (ba_op call.1) "settle" || String.eqb (ba_op call.1) "cancel"
   || String.eqb (ba_op call.1) "settle_response")
  && String.eqb (ba_lease_id call.1) id && (flag_of call.2 =? 1).

(** Whether [id] was granted and not finished since, by the log of the calls. *)
Definition open_after (id : string) (log : list (BudgetLeaseArgs * list Z)) : bool :=
  foldl (fun b call => if call_grants id call then true
                       else if call_finishes id call then false else b) false log.

Definition unfinished (id : string) (L : Ledger) : bool :=
  bool_decide (is_Some (led_unfinished L !! id)).

(** What a call charges above what its reservation still holds. *)
Definition overrun (a : BudgetLeaseArgs) (L : Ledger) : Z :=
  let id := ba_lease_id a in
  let charged := if String.eqb (ba_op a) "settle" then unfinished id L
                 else String.eqb (ba_op a) "settle_response"
                      && negb (bool_decide (id ∈ led_receipts L)) in
  if charged
  then Z.max 0 (ba_max_or_actual_or_force a - default 0 (hold_amount <$> led_unfinished L !! id))
  else 0.

Fixpoint overruns (l : list BudgetLeaseArgs) (L : option Ledger) : Z :=
  match l with
  | [] => 0
  | a :: l =>
      overrun a (led_rolled a (default (led_seed a) L)) + overruns l (Some (led_call a L).1)
  end.

(** * Steps of the ledger *)

Lemma unfinished_rolled id a L : unfinished id (led_rolled a L) = unfinished id L.
Proof.
  apply bool_decide_ext. unfold led_rolled; cbn. rewrite lookup_fmap.
  unfold led_roll. case_match; cbn; rewrite ?lookup_fmap; by rewrite ?fmap_is_Some.
Qed.

Lemma unfinished_finish id a charge L :
  unfinished id (led_finish a charge L) = if String.eqb a id then false else unfinished id L.
Proof.
  unfold unfinished, led_finish; cbn. destruct (String.eqb_spec a id) as [->|Hne].
  - rewrite lookup_delete_eq. apply bool_decide_eq_false_2. by intros [? [=]].
  - by rewrite lookup_delete_ne.
Qed.

Lemma unfinished_release id epoch L : unfinished id (led_release epoch L) = unfinished id L.
Proof. apply bool_decide_ext. cbn. by rewrite lookup_fmap, fmap_is_Some. Qed.

Lemma unfinished_step id a L :
  unfinished id (led_step a L).1
  = if call_grants id (a, (led_step a L).2) then true
    else if call_finishes id (a, (led_step a L).2) then false else unfinished id L.
Proof.
  rewrite <- (unfinished_rolled id a L). unfold led_step. fold (led_rolled a L).
  generalize (led_rolled a L) as R. intros R. unfold call_grants, call_finishes; cbn [fst snd].
  destruct (String.eqb_spec (ba_op a) "reset") as [->|H1].
  { cbn. case_match; [apply unfinished_release | done]. }
  destruct (String.eqb_spec (ba_op a) "reserve") as [->|H2].
  { cbn. unfold led_reserve. destruct (_ <=? _); [cbn; by rewrite ?andb_false_r|].
    destruct (_ <? _); cbn; [by rewrite ?andb_false_r|]. rewrite ?andb_true_r. unfold unfinished; cbn. destruct (String.eqb_spec (ba_lease_id a) id) as [->|Hne].
    - rewrite lookup_insert_eq. by apply bool_decide_eq_true_2.
    - by rewrite lookup_insert_ne. }
  destruct (String.eqb_spec (ba_op a) "settle_response") as [->|H3].
  { cbn. case_match; cbn; [by rewrite ?andb_false_r|]. rewrite ?andb_true_r.
    apply (unfinished_finish id (ba_lease_id a) (ba_max_or_actual_or_force a) R). }
  destruct (String.eqb_spec (ba_op a) "settle") as [->|H4].
  { cbn. case_match eqn:E; cbn; rewrite ?andb_true_r; [apply unfinished_finish|].
    destruct (String.eqb_spec (ba_lease_id a) id) as [<-|]; [|done].
    unfold unfinished. rewrite E. apply bool_decide_eq_false_2. by intros [? [=]]. }
  destruct (String.eqb_spec (ba_op a) "cancel") as [_|H5]; [|done].
  cbn. rewrite ?andb_true_r. apply unfinished_finish.
Qed.

Lemma led_run_open l L id (before : list (BudgetLeaseArgs * list Z)) :
  (forall L0, L = Some L0 -> unfinished id L0 = open_after id before) ->
  (L = None -> open_after id before = false) ->
  forall L', (led_run l L).1 = Some L' ->
  unfinished id L' = open_after id (before ++ zip l (led_run l L).2).
Proof.
  revert L before. induction l as [|a l IH]; intros L before HS HN L' Hrun.
  - cbn in *. rewrite app_nil_r. by apply HS.
  - cbn [led_run] in *. unfold led_call in *.
    pose proof (unfinished_step id a (default (led_seed a) L)) as Hst.
    destruct (led_step a (default (led_seed a) L)) as [L1 reply]. cbn [fst snd] in *.
    assert (H0 : unfinished id (default (led_seed a) L) = open_after id before).
    { destruct L as [L0|]; [by apply HS|]. by rewrite HN. }
    specialize (IH (Some L1) (before ++ [(a, reply)])).
    destruct (led_run l (Some L1)) as [final replies]. cbn [fst snd zip zip_with] in *.
    rewrite (cons_middle _ before), app_assoc. apply IH; [|done|done].
    intros L0 [= <-]. rewrite Hst, H0. unfold open_after. by rewrite foldl_app.
Qed.

(** * The spend *)

Definition led_spend (L : Ledger) : Z := led_committed L + led_outstanding L.

Definition holds_nonneg (L : Ledger) : Prop :=
  map_Forall (fun _ x => 0 <= hold_amount x) (led_unfinished L).

Lemma hold_le L id :
  holds_nonneg L -> default 0 (hold_amount <$> led_unfinished L !! id) <= led_outstanding L.
Proof.
  intros H. destruct (led_unfinished L !! id) eqn:E; cbn; [by eapply sum_map_ge | by apply sum_map_nonneg].
Qed.

Lemma outstanding_finish id charge L :
  led_outstanding (led_finish id charge L)
  = led_outstanding L - default 0 (hold_amount <$> led_unfinished L !! id).
Proof.
  unfold led_outstanding, led_finish; cbn. destruct (led_unfinished L !! id) eqn:E; cbn.
  - by apply sum_map_delete.
  - rewrite delete_id by done. lia.
Qed.

Lemma outstanding_release epoch L : led_outstanding (led_release epoch L) = 0.
Proof. unfold led_outstanding; cbn. rewrite sum_map_fmap. by apply sum_map_zero. Qed.

Lemma release_nonneg epoch L : holds_nonneg (led_release epoch L).
Proof. intros i x Hx. cbn in Hx. apply lookup_fmap_Some in Hx as (? & <- & _). done. Qed.

Lemma finish_nonneg id charge L : holds_nonneg L -> holds_nonneg (led_finish id charge L).
Proof. intros H. by apply map_Forall_delete. Qed.

Lemma rolled_spend a L B :
  0 <= B -> holds_nonneg L -> led_spend L <= B ->
  holds_nonneg (led_rolled a L) /\ led_spend (led_rolled a L) <= B.
Proof.
  intros HB Hn Hs. unfold led_rolled.
  assert (holds_nonneg (led_roll (ba_period_epoch a) L) /\
          led_spend (led_roll (ba_period_epoch a) L) <= B) as [Hn1 Hs1].
  { unfold led_roll. case_match; [|done]. split; [apply release_nonneg|].
    unfold led_spend. rewrite outstanding_release. done. }
  generalize dependent (led_roll (ba_period_epoch a) L). intros R Hn1 Hs1. split.
  - intros i x Hx. apply lookup_fmap_Some in Hx as (y & <- & Hy). specialize (Hn1 _ _ Hy).
    destruct y; cbn in *; [case_match; cbn; lia | done].
  - unfold led_spend in *; cbn. etrans; [|exact Hs1]. apply Z.add_le_mono_l, sum_map_fmap_le.
    intros i x Hx. specialize (Hn1 _ _ Hx). destruct x; cbn in *; [case_match; cbn; lia | done].
Qed.

Lemma finish_spend id charge L B :
  holds_nonneg L -> led_spend L <= B ->
  led_spend (led_finish id charge L)
  <= B + Z.max 0 (charge - default 0 (hold_amount <$> led_unfinished L !! id)).
Proof. intros Hn Hs. unfold led_spend in *. rewrite outstanding_finish. cbn. lia. Qed.

(** What a reservation was granted under. *)
Definition limit_within (M : Z) (a : BudgetLeaseArgs) : Prop :=
  ba_op a = "reserve" -> ba_max_or_actual_or_force a <= M.

Lemma step_spend a L B :
  0 <= B -> 0 <= ba_amount a -> limit_within B a -> holds_nonneg L -> led_spend L <= B ->
  holds_nonneg (led_step a L).1 /\ led_spend (led_step a L).1 <= B + overrun a (led_rolled a L).
Proof.
  intros HB Ha HM Hn Hs. destruct (rolled_spend a L B HB Hn Hs) as [Hn1 Hs1]. clear Hn Hs.
  unfold led_step. fold (led_rolled a L). revert Hn1 Hs1.
  generalize (led_rolled a L) as R. intros R Hn Hs. unfold overrun.
  destruct (String.eqb_spec (ba_op a) "reset") as [->|H1].
  { cbn. case_match; cbn; [|split; [done|lia]]. split; [apply release_nonneg|].
    unfold led_spend. rewrite outstanding_release. cbn. lia. }
  destruct (String.eqb_spec (ba_op a) "reserve") as [E|H2].
  { specialize (HM E). rewrite E. cbn. unfold led_reserve. destruct (_ <=? _); [cbn; split; [done|lia]|].
    destruct (Z.ltb_spec (ba_max_or_actual_or_force a) (led_committed R + led_outstanding R + ba_amount a));
      cbn; [split; [done|lia]|].
    split; [by apply map_Forall_insert_2|]. unfold led_spend, led_outstanding in *; cbn.
    pose proof (hold_le R (ba_lease_id a) Hn) as Hle. unfold led_outstanding in Hle.
    destruct (led_unfinished R !! ba_lease_id a) as [x|] eqn:Hx; cbn in Hle.
    - rewrite (sum_map_update _ _ _ _ _ Hx). specialize (Hn _ _ Hx). cbn in *. lia.
    - rewrite sum_map_insert by done. cbn. lia. }
  destruct (String.eqb_spec (ba_op a) "settle_response") as [->|H3].
  { cbn. case_match; cbn; [split; [done|lia]|]. split; [by apply (finish_nonneg (ba_lease_id a) 0)|].
    apply (finish_spend (ba_lease_id a) (ba_max_or_actual_or_force a) R B); done. }
  destruct (String.eqb_spec (ba_op a) "settle") as [_|H4].
  { unfold unfinished. destruct (led_unfinished R !! ba_lease_id a) eqn:E; cbn; [|split; [done|lia]].
    split; [by apply finish_nonneg|].
    pose proof (finish_spend (ba_lease_id a) (ba_max_or_actual_or_force a) R B Hn Hs) as Hf.
    by rewrite E in Hf. }
  cbn. destruct (String.eqb_spec (ba_op a) "cancel") as [_|H5]; cbn; [|split; [done|lia]].
  split; [by apply finish_nonneg|]. pose proof (finish_spend (ba_lease_id a) 0 R B Hn Hs) as Hf.
  destruct (led_unfinished R !! ba_lease_id a) as [x|] eqn:E; cbn in Hf; [specialize (Hn _ _ E); cbn in Hn|]; lia.
Qed.

Lemma led_step_unsettled a L :
  Z.of_nat (size (led_unfinished L)) <= MAX_UNSETTLED_BUDGET_LEASES ->
  Z.of_nat (size (led_unfinished (led_step a L).1)) <= MAX_UNSETTLED_BUDGET_LEASES.
Proof.
  intros Hs.
  assert (Hr : Z.of_nat (size (led_unfinished (led_rolled a L))) <= MAX_UNSETTLED_BUDGET_LEASES).
  { unfold led_rolled; cbn. rewrite map_size_fmap. unfold led_roll. case_match; [|done].
    cbn. by rewrite map_size_fmap. }
  assert (Hf : forall id charge, Z.of_nat (size (led_unfinished (led_finish id charge (led_rolled a L))))
                <= MAX_UNSETTLED_BUDGET_LEASES).
  { intros id charge. generalize dependent (led_rolled a L). intros R HR. cbn.
    rewrite map_size_delete. case_match; cbn; lia. }
  clear Hs. unfold led_step. fold (led_rolled a L). revert Hr Hf. generalize (led_rolled a L) as R.
  intros R Hr Hf. pose proof (Hf (ba_lease_id a) 0) as Hd. cbn in Hd.
  repeat case_match; cbn; rewrite ?map_size_fmap; try done.
  unfold led_reserve. destruct (Z.leb_spec MAX_UNSETTLED_BUDGET_LEASES (Z.of_nat (size (led_unfinished R))));
    [done|]. case_match; cbn; [done|].
  rewrite map_size_insert. case_match; cbn; lia.
Qed.

Definition spend_ok (B : Z) (L : Ledger) : Prop :=
  holds_nonneg L /\ led_spend L <= B /\
  Z.of_nat (size (led_unfinished L)) <= MAX_UNSETTLED_BUDGET_LEASES.

(** What a key that does not exist yet is created with: the committed spend the
    first caller has read before ([provider_reservations.rs]). *)
Definition first_seed (l : list BudgetLeaseArgs) : Z :=
  default 0 (ba_seed_committed <$> head l).

Lemma run_spend l L B :
  0 <= B -> run_ok l L -> Forall (limit_within B) l ->
  (L = None -> first_seed l <= B) ->
  (forall L0, L = Some L0 -> spend_ok B L0) ->
  forall L', (led_run l L).1 = Some L' -> spend_ok (B + overruns l L) L'.
Proof.
  revert L B. induction l as [|a l IH]; intros L B HB Hok HM Hseed HL L' Hrun.
  - cbn in *. rewrite Z.add_0_r. by apply HL.
  - destruct Hok as (Ha & _ & Hok). apply Forall_cons_1 in HM as [HMa HM].
    assert (H0 : spend_ok B (default (led_seed a) L)).
    { destruct L as [L0|]; [by apply HL|]. specialize (Hseed eq_refl). cbn in Hseed.
      split; [done|]. split; [|done]. unfold led_spend. cbn. unfold led_outstanding; cbn. rewrite sum_map_empty. lia. }
    destruct H0 as (Hn & Hs & Hu).
    destruct (step_spend a _ B HB (proj1 (ao_amount _ Ha)) HMa Hn Hs) as [Hn1 Hs1].
    pose proof (led_step_unsettled a _ Hu) as Hu1.
    set (o := overrun a (led_rolled a (default (led_seed a) L))) in *.
    assert (0 <= o) by (unfold o, overrun; case_match; lia).
    cbn [led_run overruns] in *. unfold led_call in *. fold o. rewrite Z.add_assoc.
    destruct (led_step a (default (led_seed a) L)) as [L1 reply]. cbn [fst] in *.
    destruct (led_run l (Some L1)) as [final replies] eqn:E. cbn [fst] in *.
    apply (IH (Some L1) (B + o)); [lia|done| |done|by intros ? [= <-]|by rewrite E].
    eapply Forall_impl; [exact HM|]. intros x Hx Hop. specialize (Hx Hop). lia.
Qed.

(** * The guarantees *)

(** C8: over every run of calls with readable arguments and fresh identities the
    script answers what the ledger of unfinished reservations answers, and the
    hash it leaves is the ledger's. *)
Theorem budget_refines l :
  run_ok l None ->
  (script_run l None).2 = (led_run l None).2 /\
  ledger_of <$> (script_run l None).1 = (led_run l None).1.
Proof.
  intros Hok. destruct (run_refines l None ltac:(done) Hok) as [Href _]. cbn in Href. by rewrite <- Href.
Qed.

(** A reservation that expires, a second one in its place, and both settled, the
    first of them twice ([lease_finish_is_idempotent_after_settlement_expiry_and_rollover]). *)
Definition expired_scenario : list BudgetLeaseArgs :=
  [budget_reserve 10 10 0 10 "old" 1000 100; budget_reserve 10 10 0 10 "new" 1101 100;
   budget_settle 10 4 10 "old" 1102; budget_settle 10 4 10 "old" 1103;
   budget_settle 10 3 10 "new" 1104].

Lemma expired_scenario_ok : run_ok expired_scenario None.
Proof. repeat split; try (cbn; lia); intros Hop; try done; vm_compute; reflexivity. Qed.

Lemma budget_refines_witness :
  run_ok expired_scenario None /\ (script_run expired_scenario None).2 = (led_run expired_scenario None).2 /\
  (led_run expired_scenario None).2 = [[1; 0; 10]; [1; 0; 10]; [1; 4; 10]; [1; 4; 10]; [1; 7; 0]].
Proof.
  split; [exact expired_scenario_ok|]. split; [|vm_compute; reflexivity].
  apply (budget_refines expired_scenario expired_scenario_ok).
Defined.

(** ** A settlement against a read *)

Lemma settle_after_read a h :
  ba_op a = "settle" ->
  budget_lease_script a (Some h) = run_settle a (budget_lease_script (read_call a) (Some h)).1.
Proof.
  intros Hop. unfold budget_lease_script. cbn [seed]. rewrite Hop.
  change (maybe_period_reset (read_call a) h) with (maybe_period_reset a h).
  change (ba_now (read_call a)) with (ba_now a). by destruct (reclaim_leases _ _).
Qed.

(** The whole of what a settlement does to a hash that is up to date. *)
Definition settled (a : BudgetLeaseArgs) (h after : BudgetHash) : Prop :=
  let id := ba_lease_id a in
  exists hold, led_unfinished (ledger_of h) !! id = Some hold /\
  after = mkBudgetHash (h_committed h + ba_max_or_actual_or_force a) (h_outstanding h - hold_amount hold)
            (h_epoch h) (delete id (h_leases h)) (h_pending h ∖ {[id]}) (h_receipts h).

Lemma run_settle_whole a h :
  exact h ->
  if unfinished (ba_lease_id a) (ledger_of h) then settled a h (run_settle a h).1
  else run_settle a h = budget_reply 1 h.
Proof.
  intros H. unfold unfinished, settled, run_settle. cbn [ledger_of led_unfinished].
  pose proof (unfinished_of_lookup (h_leases h) (h_pending h) (ba_lease_id a)) as Hl.
  destruct (h_leases h !! ba_lease_id a) as [lease|] eqn:E.
  - rewrite Hl, bool_decide_eq_true_2 by eauto. exists (hold_of lease). split; [done|].
    pose proof (ex_current _ H _ _ E) as Hc. destruct lease as [l|]; [|done]. destruct Hc as [He Hamount].
    assert (Hle : bl_amount l <= h_outstanding h).
    { rewrite (ex_outstanding _ H). apply (sum_map_ge lease_amount _ (ba_lease_id a) (Some l)); [|done].
      intros i x Hx. pose proof (ex_current _ H _ _ Hx) as Hx'. destruct x; [apply Hx'|done]. }
    unfold budget_reply, take_lease, give_back. rewrite He, Z.eqb_refl, Z.max_r; [done|cbn; lia].
  - rewrite Hl. case_bool_decide as Hp.
    + rewrite bool_decide_eq_true_2 by eauto. exists Released. split; [done|].
      unfold budget_reply, take_lease. cbn. by rewrite Z.sub_0_r.
    + by rewrite bool_decide_eq_false_2 by (by intros [? [=]]).
Qed.

(** C9: a settlement changes the budget exactly when the reservation was granted
    and has not been finished since, however late it comes, after the lease has
    expired, the period has turned or the budget was reset: it charges its
    amount, gives back what the reservation still holds and takes the
    reservation out.  Otherwise, as when it comes a second time, it leaves the
    hash, its holds and its receipts exactly as a read does. *)
Theorem charged_exactly_once l h a :
  run_ok l None -> (script_run l None).1 = Some h -> args_ok a -> ba_op a = "settle" ->
  let read := (budget_lease_script (read_call a) (Some h)).1 in
  let after := (budget_lease_script a (Some h)).1 in
  if open_after (ba_lease_id a) (zip l (script_run l None).2) then settled a read after
  else after = read.
Proof.
  intros Hok Hrun Ha Hop read after. destruct (run_refines l None ltac:(done) Hok) as [Href Hex].
  specialize (Hex h Hrun). cbn in Href. rewrite Hrun in Href. cbn in Href.
  assert (Hra : args_ok (read_call a)) by (destruct Ha; split; cbn; lia).
  destruct (script_refines (read_call a) h Hra Hex ltac:(done)) as [Hread HR].
  apply (f_equal fst) in HR. cbn [fst] in HR. fold read in Hread, HR.
  change (led_step (read_call a) (ledger_of h)).1 with (led_rolled a (ledger_of h)) in HR.
  pose proof (led_run_open l None (ba_lease_id a) [] ltac:(done) ltac:(done) (ledger_of h)) as Hopen.
  rewrite <- Href in Hopen. specialize (Hopen eq_refl). cbn [fst snd app] in Hopen. rewrite <- Hopen.
  rewrite <- (unfinished_rolled _ a), <- HR. unfold after. rewrite settle_after_read by done. fold read.
  pose proof (run_settle_whole a read Hread) as Hw. destruct (unfinished (ba_lease_id a) (ledger_of read)); [exact Hw|by rewrite Hw].
Qed.

(** The first settlement of a lease that has expired, and the second. *)
Lemma charged_exactly_once_witness :
  let late := budget_settle 10 4 10 "old" 1102 in
  let again := budget_settle 10 4 10 "old" 1103 in
  (exists h, (script_run (firstn 2 expired_scenario) None).1 = Some h /\
   settled late (budget_lease_script (read_call late) (Some h)).1 (budget_lease_script late (Some h)).1) /\
  (exists h, (script_run (firstn 3 expired_scenario) None).1 = Some h /\
   (budget_lease_script again (Some h)).1 = (budget_lease_script (read_call again) (Some h)).1).
Proof.
  intros late again. split.
  - assert (Hok : run_ok (firstn 2 expired_scenario) None)
      by (repeat split; try (cbn; lia); intros Hop; try done; vm_compute; reflexivity).
    assert (Ho : open_after "old" (zip (firstn 2 expired_scenario)
              (script_run (firstn 2 expired_scenario) None).2) = true) by (vm_compute; reflexivity).
    destruct (script_run (firstn 2 expired_scenario) None).1 as [h|] eqn:E; [|vm_compute in E; discriminate].
    exists h. split; [reflexivity|].
    pose proof (charged_exactly_once _ h late Hok E ltac:(split; cbn; lia) eq_refl) as Hc.
    cbv zeta in Hc. change (ba_lease_id late) with "old" in Hc. rewrite Ho in Hc. exact Hc.
  - assert (Hok : run_ok (firstn 3 expired_scenario) None)
      by (repeat split; try (cbn; lia); intros Hop; try done; vm_compute; reflexivity).
    assert (Ho : open_after "old" (zip (firstn 3 expired_scenario)
              (script_run (firstn 3 expired_scenario) None).2) = false) by (vm_compute; reflexivity).
    destruct (script_run (firstn 3 expired_scenario) None).1 as [h|] eqn:E; [|vm_compute in E; discriminate].
    exists h. split; [reflexivity|].
    pose proof (charged_exactly_once _ h again Hok E ltac:(split; cbn; lia) eq_refl) as Hc.
    cbv zeta in Hc. change (ba_lease_id again) with "old" in Hc. rewrite Ho in Hc. exact Hc.
Defined.

(** C10: what a budget has spent and holds is at most the largest limit its
    reservations were granted under, or what it had spent before the first call
    ([first_seed]: a process seeds a new key from the spend it has recorded), up
    to what settlements charged above the hold they gave back; and it never has
    more than 65,536 unfinished reservations. *)
Theorem budget_spend_bounded l h M :
  0 <= M -> run_ok l None -> Forall (limit_within M) l -> (script_run l None).1 = Some h ->
  h_committed h + h_outstanding h <= Z.max M (first_seed l) + overruns l None /\
  Z.of_nat (size (h_leases h) + size (h_pending h)) <= MAX_UNSETTLED_BUDGET_LEASES.
Proof.
  intros HM Hok Hlim Hrun. destruct (run_refines l None ltac:(done) Hok) as [Href Hex].
  specialize (Hex h Hrun). rewrite Hrun in Href. cbn in Href.
  assert (HlimB : Forall (limit_within (Z.max M (first_seed l))) l).
  { eapply Forall_impl; [exact Hlim|]. intros x Hx Hop. specialize (Hx Hop). lia. }
  destruct (run_spend l None (Z.max M (first_seed l)) ltac:(lia) Hok HlimB ltac:(lia) ltac:(done)
    (ledger_of h) ltac:(by rewrite <- Href)) as (_ & Hs & Hu).
  split.
  - unfold led_spend in Hs. by rewrite ledger_of_outstanding in Hs.
  - cbn in Hu. rewrite unfinished_of_size in Hu by apply (ex_disjoint _ Hex). exact Hu.
Qed.

Lemma budget_spend_bounded_witness :
  exists h, (script_run expired_scenario None).1 = Some h /\
  h_committed h + h_outstanding h <= 10 + overruns expired_scenario None /\
  overruns expired_scenario None = 4 /\ first_seed expired_scenario = 0.
Proof.
  destruct (script_run expired_scenario None).1 as [h|] eqn:E; [|vm_compute in E; discriminate].
  exists h. split; [reflexivity|]. split; [|split; vm_compute; reflexivity].
  apply (budget_spend_bounded expired_scenario h 10); [lia|exact expired_scenario_ok| |exact E].
  repeat constructor; intros Hop; cbn; lia || discriminate Hop.
Defined.

(** * What the printing loses *)

Lemma scan_unreadable now h :
  map_Forall (fun _ l => l = None) (h_leases h) ->
  reclaim_scan now h
  = mkReclaimed (h_outstanding h) ∅ (h_pending h) (Z.of_nat (size (h_pending h))).
Proof.
  intros Hall. unfold reclaim_scan. revert Hall.
  apply (map_fold_weak_ind (fun r m => map_Forall (fun _ l => l = None) m ->
           r = mkReclaimed (h_outstanding h) ∅ (h_pending h) (Z.of_nat (size (h_pending h))))); [done|].
  intros id l m r Hid IH Hm. apply map_Forall_insert in Hm as [-> Hm]; [by apply IH | done].
Qed.

(** A lease of 10^14 billionths or more is printed with an exponent, which the
    pattern of the script does not read: the next call drops it, its settlement
    charges nothing, and its hold is never given back within the period. *)
Lemma unprintable_lease_lost h a s :
  h_leases h = ∅ -> h_pending h = ∅ ->
  ba_op a = "reserve" -> ba_period_epoch a = h_epoch h -> 10 ^ 14 <= ba_amount a ->
  h_committed h + h_outstanding h + ba_amount a <= ba_max_or_actual_or_force a ->
  ba_op s = "settle" -> ba_lease_id s = ba_lease_id a -> ba_period_epoch s = h_epoch h ->
  exists h',
    budget_lease_script a (Some h)
    = (h', [1; h_committed h; h_outstanding h + ba_amount a]) /\
    (budget_lease_script s (Some h')).2 = [1; h_committed h; h_outstanding h + ba_amount a].
Proof.
  intros Hl Hp Hop Hpe Hbig Hfit Hsop Hid Hspe.
  destruct h as [c o e leases pending receipts]. cbn in *. subst leases pending.
  assert (Hroll : forall b h1, h_epoch h1 = e -> ba_period_epoch b = e -> maybe_period_reset b h1 = h1).
  { intros b h1 E1 E2. unfold maybe_period_reset. rewrite E1, E2, Z.ltb_irrefl. by case_match. }
  eexists. split.
  - unfold budget_lease_script. cbn [seed default Datatypes.id]. rewrite Hroll, Hop by done.
    rewrite scan_unreadable by apply map_Forall_empty. cbn. unfold run_reserve; cbn.
    rewrite (proj2 (Z.ltb_ge _ _)) by lia. reflexivity.
  - unfold budget_lease_script. cbn [seed default Datatypes.id]. rewrite Hroll, Hsop by done.
    unfold print_lease, plain_digits. rewrite (proj2 (Z.ltb_ge (ba_amount a) _)), andb_false_r by done.
    cbn [andb]. rewrite insert_empty, scan_unreadable by by apply map_Forall_singleton.
    cbn. unfold run_settle; cbn. by rewrite lookup_empty.
Qed.
