(* ===== verification/BudgetAmounts.v ===== *)
(** Money in the budgets ([core/budget/mod.rs]): fixed-point amounts in billionths
    of a dollar, stored as dollars in double precision and read back.  The
    storing loses nothing below 2^51 billionths, about 2.25 million dollars.

    In the files of the budgets a [Result] is a sum, its error on the left. *)

From Stdlib Require Import Floats.SpecFloat.
From S2P Require Import Prelude Float64 Rounding.

Definition i128_max : Z := 2 ^ 127 - 1.

Inductive BudgetAmountError := NonFinite | Negative | Overflow.

Definition BudgetAmount := Z.

Definition BUDGET_AMOUNT_SCALE : spec_float := f64_of_Z (10 ^ 9).

(** [f64::round] of a finite number: half away from zero. *)
Definition f64_round (x : spec_float) : Z :=
  match x with
  | S754_finite s m e =>
      let q := if 0 <=? e then Z.pos m * 2 ^ e else (2 * Z.pos m + 2 ^ (- e)) / (2 * 2 ^ (- e)) in
      if s then - q else q
  | _ => 0
  end.

(** The rounded value is compared with [i128::MAX as f64], which is 2^127, and
    then saturates. *)
Definition from_f64 (amount : spec_float) : BudgetAmountError + BudgetAmount :=
  if negb (f64_is_finite amount) then inl NonFinite
  else if SFltb amount f64_zero then inl Negative
  else
    let scaled := f64_mul amount BUDGET_AMOUNT_SCALE in
    if negb (f64_is_finite scaled) || (2 ^ 127 <? f64_round scaled) then inl Overflow
    else inr (Z.min i128_max (f64_round scaled)).

Definition as_f64 (a : BudgetAmount) : spec_float := f64_div (f64_of_Z a) BUDGET_AMOUNT_SCALE.

Definition amount_checked_add (a b : BudgetAmount) : BudgetAmountError + BudgetAmount :=
  if (- 2 ^ 127 <=? a + b) && (a + b <=? i128_max) then inr (a + b) else inl Overflow.

Definition amount_checked_sub (a b : BudgetAmount) : BudgetAmountError + BudgetAmount :=
  if a <? b then inl Negative
  else if (- 2 ^ 127 <=? a - b) && (a - b <=? i128_max) then inr (a - b) else inl Negative.

Definition amount_saturating_sub (a b : BudgetAmount) : BudgetAmount :=
  Z.max 0 (Z.min i128_max (Z.max (- 2 ^ 127) (a - b))).

Definition from_scaled (value : Z) : BudgetAmount := Z.max 0 value.

(** The [?] operator on a [Result]. *)
Notation "'let!' x ':=' r 'in' k" := (match r with inr x => k | inl e => inl e end)
  (at level 10, x name, r at level 100, k at level 200) : rust_scope.
#[local] Open Scope rust_scope.

Definition budget_can_spend (current_spend max_budget : spec_float) (enabled : bool)
    (amount : spec_float) : BudgetAmountError + bool :=
  let! amount := from_f64 amount in
  if negb enabled then inr true
  else
    let! current := from_f64 current_spend in
    let! max := from_f64 max_budget in
    let! total := amount_checked_add current amount in
    inr (total <=? max).

Definition add_budget_spend (current_spend amount : spec_float) : BudgetAmountError + BudgetAmount :=
  let! current := from_f64 current_spend in
  let! amount := from_f64 amount in
  amount_checked_add current amount.

Definition settle_budget_spend (current_spend : spec_float) (reserved actual : BudgetAmount)
    (same_reset_epoch : bool) : BudgetAmountError + BudgetAmount :=
  let! current := from_f64 current_spend in
  amount_checked_add (if same_reset_epoch then amount_saturating_sub current reserved else current) actual.

Definition release_budget_spend (current_spend : spec_float) (reserved : BudgetAmount)
    (same_reset_epoch : bool) : BudgetAmountError + BudgetAmount :=
  let! current := from_f64 current_spend in
  inr (if same_reset_epoch then amount_saturating_sub current reserved else current).

(** * What the storing keeps *)

Definition amount_bound : Z := 2 ^ 51.

Lemma f64_round_near (m : positive) (e n K h : Z) :
  0 <= K -> 0 <= e + K -> 2 * h < 2 ^ K -> Z.abs (Z.pos m * 2 ^ (e + K) - n * 2 ^ K) <= h ->
  f64_round (S754_finite false m e) = n.
Proof.
  intros HK He Hh Hclose. pose proof (pow2_pos K HK) as HKp. pose proof (pow2_pos (e + K) He) as HG.
  cbn. destruct (Z.leb_spec 0 e) as [Hpos|Hneg].
  - rewrite (Z.pow_add_r 2 e K) in Hclose by lia. nia.
  - pose proof (pow2_pos (- e) ltac:(lia)) as HF.
    assert (HFG : 2 ^ K = 2 ^ (- e) * 2 ^ (e + K)) by (rewrite <- Z.pow_add_r by lia; f_equal; lia).
    symmetry. apply (Z.div_unique_pos _ _ _ (2 * Z.pos m + 2 ^ (- e) - 2 * 2 ^ (- e) * n)); [|lia].
    rewrite HFG in *. set (F := 2 ^ (- e)) in *. set (G := 2 ^ (e + K)) in *.
    assert (2 * Z.abs (Z.pos m - n * F) * G < F * G) by nia.
    assert (2 * Z.abs (Z.pos m - n * F) < F) by nia. nia.
Qed.

Lemma scale_normal : exists m, BUDGET_AMOUNT_SCALE = S754_finite false m (- 23) /\ normal_mantissa m /\
  Z.pos m = 10 ^ 9 * 2 ^ 23.
Proof. exists (10 ^ 9 * 2 ^ 23)%positive. by vm_compute. Qed.

Lemma as_f64_close n :
  0 < n < amount_bound ->
  exists mp ep, f64_mul (as_f64 n) BUDGET_AMOUNT_SCALE = S754_finite false mp ep /\
  SFltb (as_f64 n) f64_zero = false /\ f64_is_finite (as_f64 n) = true /\
  f64_round (S754_finite false mp ep) = n.
Proof.
  unfold amount_bound. intros Hn.
  destruct (f64_of_Z_exact n ltac:(lia)) as (m1 & k & Hz & Hm1 & Hk & Hval).
  destruct scale_normal as (m2 & Hs & Hm2 & _).
  destruct (f64_div_close m1 (- k) m2 (- 23)) as (mr & er & Hdiv & Hmr & Her & Hderr); [done|done|lia|lia|].
  destruct (f64_mul_close mr er m2 (- 23)) as (mp & ep & Hmul & Hmp & Hep & Hmerr); [done|done|lia|lia|].
  assert (Has : as_f64 n = S754_finite false mr er) by by unfold as_f64; rewrite Hz, Hs.
  exists mp, ep. rewrite Has, Hs. split; [done|]. split; [done|]. split; [done|].
  unfold normal_mantissa in *.
  assert (Hk2 : 2 <= k).
  { destruct (Z.lt_ge_cases k 2) as [Hlt|]; [|done]. exfalso.
    assert (2 ^ k <= 2 ^ 1) by (apply Z.pow_le_mono_r; lia). nia. }
  apply (f64_round_near mp ep n (53 + k) (2 * Z.pos m1 + 1)); [lia|lia| |].
  - assert (2 ^ 55 <= 2 ^ (53 + k)) by (apply Z.pow_le_mono_r; lia). lia.
  - set (t := er - (- k - -23 - 53)) in *.
    replace (ep + (53 + k)) with ((ep - (er + -23)) + t) by (unfold t; lia).
    rewrite (Z.pow_add_r 2 53 k), (Z.mul_comm (2 ^ 53)), Z.mul_assoc, <- Hval by lia.
    rewrite Z.pow_add_r by (unfold t; lia). rewrite Z.mul_assoc.
    pose proof (pow2_pos t ltac:(unfold t; lia)) as Ht.
    set (A := Z.pos mp * 2 ^ (ep - (er + -23))) in *. set (T := 2 ^ t) in *.
    assert (HB : Z.abs (Z.pos mr * Z.pos m2 * T - Z.pos m1 * 2 ^ 53) <= Z.pos m1) by lia.
    assert (HA : 2 ^ 53 * Z.abs (A * T - Z.pos mr * Z.pos m2 * T) <= Z.pos mr * Z.pos m2 * T) by nia.
    lia.
Qed.

Lemma as_f64_read n : 0 <= n < amount_bound -> from_f64 (as_f64 n) = inr n.
Proof.
  intros Hn. destruct (Z.eq_dec n 0) as [->|Hne]; [by vm_compute|].
  destruct (as_f64_close n ltac:(lia)) as (mp & ep & Hmul & Hlt & Hfin & Hround).
  unfold from_f64. rewrite Hfin, Hlt, Hmul, Hround. cbn [negb f64_is_finite orb].
  unfold amount_bound in *. rewrite (proj2 (Z.ltb_ge _ _)) by lia.
  rewrite Z.min_r by (unfold i128_max; lia). done.
Qed.

(** C12: an amount below 2^51 billionths of a dollar, about 2.25 million dollars,
    is read back exactly from the dollars in double precision it is stored as:
    the two roundings of the division and the multiplication by 10^9 never add up
    to half a billionth. *)
Theorem amount_roundtrip (n : BudgetAmount) : 0 <= n < 2 ^ 51 -> from_f64 (as_f64 n) = inr n.
Proof. apply as_f64_read. Qed.

Lemma amount_roundtrip_witness : 0 <= 1234567890123 < 2 ^ 51 /\ from_f64 (as_f64 1234567890123) = inr 1234567890123.
Proof. split; [lia | apply (amount_roundtrip 1234567890123); lia]. Defined.

(** Above it an amount may not be: 9,007,199.254740993 dollars are not. *)
Example amount_not_kept : from_f64 (as_f64 (2 ^ 53 + 1)) = inr (2 ^ 53).
Proof. vm_compute. reflexivity. Qed.
