(* ===== verification/BudgetBackend.v ===== *)
(** The shared backend of the provider and model budgets
    ([core/budget/distributed.rs]): each operation is one call of the script, and
    every failure of that call is an error of the operation, never a grant.

    The instants are those of [chrono], whose calendar is a parameter. *)

From S2P Require Import Prelude ProviderErrors GatewayErrors BudgetScript BudgetAmounts.

(** What the budgets use of a UTC instant of [chrono]. *)
Class Calendar := {
  date_naive : Z -> Z;
  iso_week : Z -> Z * Z;                 (* year and week *)
  year_month : Z -> Z * Z;
  midnight : Z -> Z;                     (* the timestamps the epochs are made of *)
  monday_midnight : Z -> Z;
  first_of_month : Z -> Z;
}.

Inductive ResetPeriod := Daily | Weekly | Monthly | Never.

Inductive BudgetReservationError :=
| InvalidAmount (error : BudgetAmountError)
| BudgetExceeded
| ProviderBudgetExceeded
| ModelBudgetExceeded
| ActualExceedsReservation
| BackendUnavailable.

Inductive BudgetLeaseScope := ScopeProvider | ScopeModel.

Definition scope_str (s : BudgetLeaseScope) : string :=
  match s with ScopeProvider => "provider" | ScopeModel => "model" end.

Definition exceeded_error (s : BudgetLeaseScope) : BudgetReservationError :=
  match s with
  | ScopeProvider => ProviderBudgetExceeded
  | ScopeModel => ModelBudgetExceeded
  end.

(** [Redis]'s pool is the store the operations are given. *)
Inductive BudgetLeaseBackend :=
| InProcess
| Redis (lease_ttl_ms : Z).

Definition BUDGET_LEASE_TTL_MS : Z := 600000.

Definition redis_with_ttl (pool_is_noop : bool) (lease_ttl_ms : Z) : BudgetLeaseBackend :=
  if pool_is_noop then InProcess else Redis (Z.max lease_ttl_ms 1).

Definition backend_redis (pool_is_noop : bool) : BudgetLeaseBackend :=
  redis_with_ttl pool_is_noop BUDGET_LEASE_TTL_MS.

Definition is_distributed (b : BudgetLeaseBackend) : bool :=
  match b with InProcess => false | Redis _ => true end.

Record LeaseSnapshot := mkSnapshot { ls_committed : BudgetAmount; ls_outstanding : BudgetAmount }.

Record ReservedLease := mkReservedLease {
  rl_lease_id : string;
  rl_period_epoch : Z;
  rl_snapshot : LeaseSnapshot;
}.

(** What an operation meets outside: how its call goes, the clock and the
    identity of a new lease. *)
Record BudgetEnv := mkEnv {
  env_call : BudgetCall;
  env_now_ms : Z;
  env_uuid : string;
}.

Definition budget_period_epoch `{Calendar} (period : ResetPeriod) (now : Z) : Z :=
  match period with
  | Never => -1
  | Daily => midnight now
  | Weekly => monday_midnight now
  | Monthly => first_of_month now
  end.

Definition amount_to_i64 (amount : BudgetAmount) : BudgetReservationError + Z :=
  if (- 2 ^ 63 <=? amount) && (amount <=? i64_max) then inr amount else inl (InvalidAmount Overflow).

Definition from_i64 (value : Z) : BudgetAmount := from_scaled (Z.max value 0).

Definition lease_snapshot (s : BudgetLeaseState) : LeaseSnapshot :=
  mkSnapshot (from_i64 (bs_committed s)) (from_i64 (bs_outstanding s)).

(** [run_redis]: whatever the error, the backend is unavailable. *)
Definition run_redis (s : BudgetLeaseScope) (name : string) (env : BudgetEnv) (a : BudgetLeaseArgs)
    (st : BudgetStore) : BudgetStore * (BudgetReservationError + BudgetLeaseState) :=
  let '(st, r) := invoke_budget_lease (env_call env) (budget_lease_key (scope_str s) name) a st in
  (st, match r with inr state => inr state | inl _ => inl BackendUnavailable end).

#[local] Open Scope rust_scope.

Definition backend_reserve (b : BudgetLeaseBackend) (s : BudgetLeaseScope) (name : string)
    (amount max seed_committed : BudgetAmount) (period_epoch : Z) (env : BudgetEnv)
    (st : BudgetStore) : BudgetStore * (BudgetReservationError + ReservedLease) :=
  match b with
  | InProcess => (st, inl BackendUnavailable)
  | Redis lease_ttl_ms =>
      match amount_to_i64 amount, amount_to_i64 max, amount_to_i64 seed_committed with
      | inl e, _, _ => (st, inl e)
      | inr _, inl e, _ => (st, inl e)
      | inr _, inr _, inl e => (st, inl e)
      | inr amount, inr max, inr seed_committed =>
          let '(st, r) :=
            run_redis s name env
              (budget_reserve amount max seed_committed period_epoch (env_uuid env)
                 (env_now_ms env) lease_ttl_ms) st in
          (st, let! state := r in
               if negb (bs_allowed state) then inl (exceeded_error s)
               else inr (mkReservedLease (env_uuid env) period_epoch (lease_snapshot state)))
      end
  end.

Definition backend_settle (b : BudgetLeaseBackend) (s : BudgetLeaseScope) (name lease_id : string)
    (reserved actual : BudgetAmount) (period_epoch : Z) (env : BudgetEnv) (st : BudgetStore)
    : BudgetStore * (BudgetReservationError + LeaseSnapshot) :=
  match b with
  | InProcess => (st, inl BackendUnavailable)
  | Redis _ =>
      match amount_to_i64 reserved, amount_to_i64 actual with
      | inl e, _ => (st, inl e)
      | inr _, inl e => (st, inl e)
      | inr reserved, inr actual =>
          let '(st, r) :=
            run_redis s name env
              (budget_settle reserved actual period_epoch lease_id (env_now_ms env)) st in
          (st, let! state := r in inr (lease_snapshot state))
      end
  end.

Definition backend_settle_response (b : BudgetLeaseBackend) (s : BudgetLeaseScope)
    (name lease_id : string) (reserved actual : BudgetAmount) (period_epoch : Z) (env : BudgetEnv)
    (st : BudgetStore) : BudgetStore * (BudgetReservationError + LeaseSnapshot * bool) :=
  match b with
  | InProcess => (st, inl BackendUnavailable)
  | Redis _ =>
      match amount_to_i64 reserved, amount_to_i64 actual with
      | inl e, _ => (st, inl e)
      | inr _, inl e => (st, inl e)
      | inr reserved, inr actual =>
          let '(st, r) :=
            run_redis s name env
              (budget_settle_response reserved actual period_epoch lease_id (env_now_ms env)) st in
          (st, let! state := r in inr (lease_snapshot state, bs_allowed state))
      end
  end.

Definition backend_cancel (b : BudgetLeaseBackend) (s : BudgetLeaseScope) (name lease_id : string)
    (reserved : BudgetAmount) (period_epoch : Z) (env : BudgetEnv) (st : BudgetStore)
    : BudgetStore * (BudgetReservationError + LeaseSnapshot) :=
  match b with
  | InProcess => (st, inl BackendUnavailable)
  | Redis _ =>
      match amount_to_i64 reserved with
      | inl e => (st, inl e)
      | inr reserved =>
          let '(st, r) :=
            run_redis s name env (budget_cancel reserved period_epoch lease_id (env_now_ms env)) st in
          (st, let! state := r in inr (lease_snapshot state))
      end
  end.

(** [spawn_cancel]: the task that runs later; its failure is logged. *)
Definition spawn_cancel (b : BudgetLeaseBackend) (s : BudgetLeaseScope) (name lease_id : string)
    (reserved : BudgetAmount) (period_epoch : Z) (env : BudgetEnv) (st : BudgetStore) : BudgetStore :=
  match b with
  | InProcess => st
  | Redis _ =>
      match amount_to_i64 reserved with
      | inl _ => st
      | inr reserved =>
          (invoke_budget_lease (env_call env) (budget_lease_key (scope_str s) name)
             (budget_cancel reserved period_epoch lease_id (env_now_ms env)) st).1
      end
  end.

Definition backend_reset (b : BudgetLeaseBackend) (s : BudgetLeaseScope) (name : string)
    (period_epoch : Z) (env : BudgetEnv) (st : BudgetStore)
    : BudgetStore * (BudgetReservationError + LeaseSnapshot) :=
  match b with
  | InProcess => (st, inr (mkSnapshot 0 0))
  | Redis _ =>
      let '(st, r) := run_redis s name env (budget_reset period_epoch (env_now_ms env) true) st in
      (st, let! state := r in inr (lease_snapshot state))
  end.

(** * Failing closed *)

Lemma run_redis_ok s name env a st st' state :
  run_redis s name env a st = (st', inr state) ->
  exists h reply,
    budget_lease_script a (st !! budget_lease_key (scope_str s) name) = (h, reply) /\
    st' = <[budget_lease_key (scope_str s) name := h]> st /\
    parse_budget_lease_state reply = inr state.
Proof.
  unfold run_redis, invoke_budget_lease. intros H.
  destruct (call_noop (env_call env)); [done|]. destruct (call_permit (env_call env)); [done|].
  destruct (budget_lease_script a (st !! budget_lease_key (scope_str s) name)) as [h reply].
  destruct (call_failure (env_call env)); [by destruct (call_applied (env_call env))|].
  exists h, reply. destruct (parse_budget_lease_state reply); simplify_eq. done.
Qed.

Lemma amount_to_i64_ok a x : amount_to_i64 a = inr x -> x = a.
Proof. unfold amount_to_i64. intros H. by destruct (_ && _); simplify_eq. Qed.

(** A grant of the backend is a grant of the script, written in the store. *)
Lemma backend_reserve_granted b s name amount max seed epoch env st st' lease :
  backend_reserve b s name amount max seed epoch env st = (st', inr lease) ->
  exists ttl h c o, b = Redis ttl /\
    budget_lease_script (budget_reserve amount max seed epoch (env_uuid env) (env_now_ms env) ttl)
      (st !! budget_lease_key (scope_str s) name) = (h, [1; c; o]) /\
    st' = <[budget_lease_key (scope_str s) name := h]> st /\
    rl_lease_id lease = env_uuid env /\ rl_period_epoch lease = epoch.
Proof.
  unfold backend_reserve. intros H. destruct b as [|ttl]; [done|].
  destruct (amount_to_i64 amount) as [?|a1] eqn:E1; [done|]. destruct (amount_to_i64 max) as [?|a2] eqn:E2; [done|].
  destruct (amount_to_i64 seed) as [?|a3] eqn:E3; [done|]. apply amount_to_i64_ok in E1 as ->, E2 as ->, E3 as ->.
  destruct (run_redis s name env _ st) as [st1 [e|state]] eqn:E; cbn in H; [done|].
  apply run_redis_ok in E as (h & reply & Hs & -> & Hp).
  destruct (bs_allowed state) eqn:Ha; cbn in H; [|done]. simplify_eq.
  destruct reply as [|v0 [|v1 [|v2 [|]]]]; try done. cbn in Hp.
  destruct (v0 =? -2); [done|]. destruct (v0 <? 0); [done|]. simplify_eq. cbn in Ha.
  apply Z.eqb_eq in Ha as ->. exists ttl, h, v1, v2. done.
Qed.
