(* ===== verification/BudgetLimits.v ===== *)
(** Budgets of providers and models ([core/budget/types.rs],
    [core/budget/provider_limits.rs]): the limits, the manager that keeps them
    with its request counters, its outstanding amounts and the events it hands to
    the persistence worker.  [ProviderBudgetManager] and [ModelBudgetManager] are
    the same code; [lm_scope] tells which one a manager is.

    Every method that takes the clock takes the instant [now]. *)

From Stdlib Require Import Floats.SpecFloat.
From S2P Require Import Prelude Float64 ProviderErrors GatewayErrors BudgetScript BudgetAmounts BudgetBackend.

Inductive Currency := USD | EUR | GBP | JPY | CNY.

Inductive BudgetStatus := StatusOk | StatusWarning | StatusExceeded.

#[global] Instance BudgetStatus_dec : EqDecision BudgetStatus.
Proof. solve_decision. Defined.
#[global] Instance BudgetLeaseScope_dec : EqDecision BudgetLeaseScope.
Proof. solve_decision. Defined.

(** * Limits *)

(** [ProviderBudget] and [ModelBudget]. *)
Record LimitBudget := mkLimit {
  lb_name : string;
  lb_max_budget : spec_float;
  lb_current_spend : spec_float;
  lb_soft_limit : spec_float;
  lb_reset_period : ResetPeriod;
  lb_currency : Currency;
  lb_enabled : bool;
  lb_created_at : Z;
  lb_updated_at : Z;
  lb_last_reset_at : option Z;
}.

(** The literal [0.8]. *)
Definition soft_fraction : spec_float := f64_div (f64_of_Z 8) (f64_of_Z 10).

Definition limit_new (name : string) (max_budget : spec_float) (now : Z) : LimitBudget :=
  mkLimit name max_budget f64_zero (f64_mul max_budget soft_fraction) Monthly USD true now now (Some now).

Definition limit_status (b : LimitBudget) : BudgetStatus :=
  if SFleb (lb_max_budget b) (lb_current_spend b) then StatusExceeded
  else if SFleb (lb_soft_limit b) (lb_current_spend b) then StatusWarning
  else StatusOk.

(** [f64::max] with zero: a NaN gives zero. *)
Definition limit_remaining (b : LimitBudget) : spec_float :=
  let left := f64_sub (lb_max_budget b) (lb_current_spend b) in
  if SFltb f64_zero left then left else f64_zero.

Definition limit_usage_percentage (b : LimitBudget) : spec_float :=
  if SFleb (lb_max_budget b) f64_zero then f64_zero
  else f64_mul (f64_div (lb_current_spend b) (lb_max_budget b)) (f64_of_Z 100).

Definition limit_can_spend (b : LimitBudget) (amount : spec_float) : bool :=
  match budget_can_spend (lb_current_spend b) (lb_max_budget b) (lb_enabled b) amount with
  | inr allowed => allowed
  | inl _ => false
  end.

Definition set_spend (spend : spec_float) (now : Z) (b : LimitBudget) : LimitBudget :=
  mkLimit (lb_name b) (lb_max_budget b) spend (lb_soft_limit b) (lb_reset_period b) (lb_currency b)
    (lb_enabled b) (lb_created_at b) now (lb_last_reset_at b).

Definition limit_record_spend (amount : spec_float) (now : Z) (b : LimitBudget) : LimitBudget :=
  match add_budget_spend (lb_current_spend b) amount with
  | inr spend => set_spend (as_f64 spend) now b
  | inl _ => b
  end.

Definition limit_reset (now : Z) (b : LimitBudget) : LimitBudget :=
  mkLimit (lb_name b) (lb_max_budget b) f64_zero (lb_soft_limit b) (lb_reset_period b) (lb_currency b)
    (lb_enabled b) (lb_created_at b) now (Some now).

Definition later_pair (a b : Z * Z) : bool :=
  (b.1 <? a.1) || ((a.1 =? b.1) && (b.2 <? a.2)).

Definition limit_should_reset `{Calendar} (now : Z) (b : LimitBudget) : bool :=
  match lb_reset_period b, lb_last_reset_at b with
  | Never, _ => false
  | _, None => true
  | Daily, Some last => date_naive last <? date_naive now
  | Weekly, Some last => later_pair (iso_week now) (iso_week last)
  | Monthly, Some last => later_pair (year_month now) (year_month last)
  end.

(** * Configuration and persistence *)

(** [ProviderLimitConfig] and [ModelLimitConfig]. *)
Record LimitConfig := mkLimitConfig {
  lc_max_budget : spec_float;
  lc_reset_period : ResetPeriod;
  lc_soft_limit_percentage : spec_float;
  lc_currency : Currency;
  lc_enabled : bool;
}.

Definition limit_config_new (max_budget : spec_float) (period : ResetPeriod) : LimitConfig :=
  mkLimitConfig max_budget period soft_fraction USD true.

Record BudgetLimitSnapshot := mkLimitSnapshot {
  sn_kind : BudgetLeaseScope;
  sn_name : string;
  sn_max_budget : spec_float;
  sn_current_spend : spec_float;
  sn_soft_limit : spec_float;
  sn_reset_period : ResetPeriod;
  sn_currency : Currency;
  sn_enabled : bool;
  sn_last_reset_at : option Z;
  sn_request_count : Z;
}.

Inductive BudgetPersistenceEvent :=
| Upsert (snapshot : BudgetLimitSnapshot)
| Delete (kind : BudgetLeaseScope) (name : string).

(** * The manager *)

(** [lm_events] is what [send_persistence_event] was given, in order. *)
Record LimitManager := mkLimitManager {
  lm_scope : BudgetLeaseScope;
  lm_budgets : gmap string LimitBudget;
  lm_request_counts : gmap string Z;
  lm_reserved_spend : gmap string BudgetAmount;
  lm_enabled : bool;
  lm_events : list BudgetPersistenceEvent;
  lm_backend : BudgetLeaseBackend;
}.

Definition limit_manager_new (scope : BudgetLeaseScope) : LimitManager :=
  mkLimitManager scope ∅ ∅ ∅ true [] InProcess.

Definition with_redis (pool_is_noop : bool) (m : LimitManager) : LimitManager :=
  mkLimitManager (lm_scope m) (lm_budgets m) (lm_request_counts m) (lm_reserved_spend m) (lm_enabled m)
    (lm_events m) (backend_redis pool_is_noop).

Definition set_enabled (enabled : bool) (m : LimitManager) : LimitManager :=
  mkLimitManager (lm_scope m) (lm_budgets m) (lm_request_counts m) (lm_reserved_spend m) enabled
    (lm_events m) (lm_backend m).

Definition put_budgets (budgets : gmap string LimitBudget) (m : LimitManager) : LimitManager :=
  mkLimitManager (lm_scope m) budgets (lm_request_counts m) (lm_reserved_spend m) (lm_enabled m)
    (lm_events m) (lm_backend m).

Definition put_counts (counts : gmap string Z) (m : LimitManager) : LimitManager :=
  mkLimitManager (lm_scope m) (lm_budgets m) counts (lm_reserved_spend m) (lm_enabled m)
    (lm_events m) (lm_backend m).

Definition put_reserved (reserved : gmap string BudgetAmount) (m : LimitManager) : LimitManager :=
  mkLimitManager (lm_scope m) (lm_budgets m) (lm_request_counts m) reserved (lm_enabled m)
    (lm_events m) (lm_backend m).

Definition send_persistence_event (e : BudgetPersistenceEvent) (m : LimitManager) : LimitManager :=
  mkLimitManager (lm_scope m) (lm_budgets m) (lm_request_counts m) (lm_reserved_spend m) (lm_enabled m)
    (lm_events m ++ [e]) (lm_backend m).

Definition outstanding_of (m : LimitManager) (name : string) : BudgetAmount :=
  default 0 (lm_reserved_spend m !! name).

Definition committed_spend (current_spend : spec_float) (reserved : BudgetAmount) : spec_float :=
  match release_budget_spend current_spend reserved true with
  | inr amount => as_f64 amount
  | inl _ => current_spend
  end.

Definition snapshot_for (m : LimitManager) (b : LimitBudget) : BudgetLimitSnapshot :=
  mkLimitSnapshot (lm_scope m) (lb_name b) (lb_max_budget b)
    (committed_spend (lb_current_spend b) (outstanding_of m (lb_name b)))
    (lb_soft_limit b) (lb_reset_period b) (lb_currency b) (lb_enabled b) (lb_last_reset_at b)
    (default 0 (lm_request_counts m !! lb_name b)).

Definition restore_snapshot (s : BudgetLimitSnapshot) (now : Z) (m : LimitManager) : LimitManager :=
  if negb (bool_decide (sn_kind s = lm_scope m)) then m
  else
    let b := limit_new (sn_name s) (sn_max_budget s) now in
    let b := mkLimit (lb_name b) (lb_max_budget b) (sn_current_spend s) (sn_soft_limit s)
               (sn_reset_period s) (sn_currency s) (sn_enabled s) (lb_created_at b) (lb_updated_at b)
               (sn_last_reset_at s) in
    put_counts (<[sn_name s := sn_request_count s]> (lm_request_counts m))
      (put_budgets (<[sn_name s := b]> (lm_budgets m)) m).

Definition sync_lease_snapshot (name : string) (s : LeaseSnapshot) (now : Z) (m : LimitManager)
    : LimitManager :=
  let total := match amount_checked_add (ls_committed s) (ls_outstanding s) with
               | inr total => total | inl _ => ls_committed s end in
  let m := put_budgets (alter (set_spend (as_f64 total) now) name (lm_budgets m)) m in
  if ls_outstanding s =? 0 then put_reserved (delete name (lm_reserved_spend m)) m
  else put_reserved (<[name := ls_outstanding s]> (lm_reserved_spend m)) m.

Definition reset_distributed_lease `{Calendar} (name : string) (period : ResetPeriod) (now : Z)
    (env : BudgetEnv) (m : LimitManager) (st : BudgetStore) : LimitManager * BudgetStore :=
  if negb (is_distributed (lm_backend m)) then (m, st)
  else
    let '(st, r) := backend_reset (lm_backend m) (lm_scope m) name (budget_period_epoch period now) env st in
    (match r with inr s => sync_lease_snapshot name s now m | inl _ => m end, st).

(** ** Setting and removing limits *)

Definition percentage_valid (p : spec_float) : bool :=
  f64_is_finite p && SFleb f64_zero p && SFleb p (f64_of_Z 1).

Definition apply_config (config : LimitConfig) (percentage : spec_float) (b : LimitBudget) : LimitBudget :=
  mkLimit (lb_name b) (lc_max_budget config) (lb_current_spend b)
    (f64_mul (lc_max_budget config) percentage) (lc_reset_period config) (lc_currency config)
    (lc_enabled config) (lb_created_at b) (lb_updated_at b) (lb_last_reset_at b).

Definition set_limit_optional (name : string) (config : LimitConfig) (percentage : option spec_float)
    (now : Z) (m : LimitManager) : LimitManager :=
  let p := default (lc_soft_limit_percentage config) percentage in
  if negb (f64_is_finite (lc_max_budget config)) || SFleb (lc_max_budget config) f64_zero then m
  else if negb (percentage_valid p) then m
  else
    let b :=
      match lm_budgets m !! name with
      | Some b =>
          let kept := default (f64_div (lb_soft_limit b) (lb_max_budget b)) percentage in
          set_spend (lb_current_spend b) now (apply_config config kept b)
      | None => apply_config config p (limit_new name (lc_max_budget config) now)
      end in
    let snapshot := snapshot_for m b in
    let m := put_budgets (<[name := b]> (lm_budgets m)) m in
    let m := put_counts (partial_alter (fun c => Some (default 0 c)) name (lm_request_counts m)) m in
    send_persistence_event (Upsert snapshot) m.

Definition set_limit (name : string) (config : LimitConfig) (now : Z) (m : LimitManager) : LimitManager :=
  set_limit_optional name config (Some (lc_soft_limit_percentage config)) now m.

Definition remove_limit (name : string) (m : LimitManager) : LimitManager * bool :=
  let removed := bool_decide (is_Some (lm_budgets m !! name)) in
  let m := put_budgets (delete name (lm_budgets m)) m in
  let m := put_counts (delete name (lm_request_counts m)) m in
  let m := put_reserved (delete name (lm_reserved_spend m)) m in
  (if removed then send_persistence_event (Delete (lm_scope m) name) m else m, removed).

Definition has_limit (name : string) (m : LimitManager) : bool :=
  bool_decide (is_Some (lm_budgets m !! name)).

Definition soft_limit_percentage (name : string) (m : LimitManager) : option spec_float :=
  (fun b => f64_div (lb_soft_limit b) (lb_max_budget b)) <$> lm_budgets m !! name.

(** ** Checking and recording *)

Definition check_budget (name : string) (m : LimitManager) : BudgetStatus :=
  if negb (lm_enabled m) then StatusOk
  else match lm_budgets m !! name with
  | Some b => if negb (lb_enabled b) then StatusOk else limit_status b
  | None => StatusOk
  end.

Definition can_spend (name : string) (amount : spec_float) (m : LimitManager) : bool :=
  match from_f64 amount with
  | inl _ => false
  | inr _ =>
      if negb (lm_enabled m) then true
      else match lm_budgets m !! name with Some b => limit_can_spend b amount | None => true end
  end.

(** [fetch_add] on the counter of [name], where there is one. *)
Definition count_request (name : string) (m : LimitManager) : LimitManager :=
  put_counts (alter (fun c => wrap_u64 (c + 1)) name (lm_request_counts m)) m.

Definition record_spend (name : string) (amount : spec_float) (now : Z) (m : LimitManager)
    : LimitManager * option BudgetStatus :=
  match SFleb amount f64_zero, from_f64 amount with
  | false, inr _ =>
      let m := count_request name m in
      match lm_budgets m !! name with
      | None => (m, None)
      | Some b =>
          let b := limit_record_spend amount now b in
          let m := put_budgets (<[name := b]> (lm_budgets m)) m in
          (send_persistence_event (Upsert (snapshot_for m b)) m, Some (limit_status b))
      end
  | _, _ => (m, None)
  end.

(** [ProviderUsageStats] and [ModelUsageStats]. *)
Record LimitUsageStats := mkUsage {
  us_name : string;
  us_current_spend : spec_float;
  us_max_budget : spec_float;
  us_remaining : spec_float;
  us_usage_percentage : spec_float;
  us_status : BudgetStatus;
  us_reset_period : ResetPeriod;
  us_last_reset_at : option Z;
  us_request_count : Z;
}.

Definition limit_usage_of (m : LimitManager) (name : string) (b : LimitBudget) : LimitUsageStats :=
  mkUsage name (lb_current_spend b) (lb_max_budget b) (limit_remaining b) (limit_usage_percentage b)
    (limit_status b) (lb_reset_period b) (lb_last_reset_at b)
    (default 0 (lm_request_counts m !! name)).

Definition get_usage (name : string) (m : LimitManager) : option LimitUsageStats :=
  limit_usage_of m name <$> lm_budgets m !! name.

Definition list_usage (m : LimitManager) : list LimitUsageStats :=
  (fun nb => limit_usage_of m nb.1 nb.2) <$> map_to_list (lm_budgets m).

Definition get_available (m : LimitManager) : list string :=
  if negb (lm_enabled m) then (map_to_list (lm_budgets m)).*1
  else (filter (fun nb : string * LimitBudget =>
          negb (lb_enabled nb.2) || negb (bool_decide (limit_status nb.2 = StatusExceeded)))
        (map_to_list (lm_budgets m))).*1.

Definition get_exceeded (m : LimitManager) : list string :=
  (filter (fun nb : string * LimitBudget =>
     lb_enabled nb.2 && bool_decide (limit_status nb.2 = StatusExceeded)) (map_to_list (lm_budgets m))).*1.

(** ** Resets *)

(** What both resets do to one budget before the shared backend is told. *)
Definition reset_entry (name : string) (b : LimitBudget) (now : Z) (m : LimitManager) : LimitManager :=
  let b := limit_reset now b in
  let m := put_budgets (<[name := b]> (lm_budgets m)) m in
  let m := put_counts (alter (fun _ => 0) name (lm_request_counts m)) m in
  put_reserved (delete name (lm_reserved_spend m)) m.

Definition reset_budget `{Calendar} (name : string) (now : Z) (env : BudgetEnv) (m : LimitManager)
    (st : BudgetStore) : LimitManager * BudgetStore * bool :=
  match lm_budgets m !! name with
  | None => (m, st, false)
  | Some b =>
      let m := reset_entry name b now m in
      let snapshot := snapshot_for m (limit_reset now b) in
      let '(m, st) := reset_distributed_lease name (lb_reset_period b) now env m st in
      (send_persistence_event (Upsert snapshot) m, st, true)
  end.

(** One entry of the iteration of [reset_due_budgets]. *)
Definition reset_due_entry `{Calendar} (now : Z) (acc : LimitManager * list (string * ResetPeriod))
    (nb : string * LimitBudget) : LimitManager * list (string * ResetPeriod) :=
  let '(m, resets) := acc in
  let '(name, b) := nb in
  if limit_should_reset now b then
    let m := reset_entry name b now m in
    (send_persistence_event (Upsert (snapshot_for m (limit_reset now b))) m,
     resets ++ [(name, lb_reset_period b)])
  else acc.

(** [env_of] is what the call for each budget meets. *)
Definition reset_due_budgets `{Calendar} (now : Z) (env_of : string -> BudgetEnv) (m : LimitManager)
    (st : BudgetStore) : LimitManager * BudgetStore * list string :=
  let '(m, resets) := foldl (reset_due_entry now) (m, []) (map_to_list (lm_budgets m)) in
  let '(m, st) :=
    foldl (fun acc np => reset_distributed_lease np.1 np.2 now (env_of np.1) acc.1 acc.2) (m, st) resets in
  (m, st, resets.*1).
