(* ===== verification/BudgetReservations.v ===== *)
(** Reservations of the provider and model budgets
    ([core/budget/provider_reservations.rs], [core/budget/unified_limits.rs]): the
    spend a request may cause is held before it runs, and settled, cancelled or
    given back by [Drop]; a request holds both its provider's and its model's
    budget.

    An operation that consumes a reservation ends with its [Drop]: where the code
    returns early, the model runs [drop_reservation]. *)

From Stdlib Require Import Floats.SpecFloat.
From S2P Require Import Prelude Float64 ProviderErrors GatewayErrors BudgetScript BudgetAmounts BudgetBackend BudgetLimits.

#[local] Open Scope rust_scope.

(** [ProviderBudgetReservation] and [ModelBudgetReservation]; the manager they
    hold is the one the operations are given. *)
Record LimitReservation := mkReservation {
  lr_name : string;
  lr_reserved : BudgetAmount;
  lr_reset_at : option Z;
  lr_tracked : bool;
  lr_settled : bool;
  lr_lease_id : option string;
  lr_period_epoch : Z;
}.

Definition tracked (name : string) (reserved : BudgetAmount) (reset_at : option Z) : LimitReservation :=
  mkReservation name reserved reset_at true false None 0.

Definition untracked (name : string) (reserved : BudgetAmount) : LimitReservation :=
  mkReservation name reserved None false false None 0.

Definition with_lease (lease_id : string) (period_epoch : Z) (r : LimitReservation) : LimitReservation :=
  mkReservation (lr_name r) (lr_reserved r) (lr_reset_at r) (lr_tracked r) (lr_settled r)
    (Some lease_id) period_epoch.

(** * Outstanding amounts *)

Definition add_outstanding (name : string) (reserved : BudgetAmount) (m : LimitManager)
    : BudgetReservationError + LimitManager :=
  match lm_reserved_spend m !! name with
  | Some held =>
      match amount_checked_add held reserved with
      | inr next => inr (put_reserved (<[name := next]> (lm_reserved_spend m)) m)
      | inl e => inl (InvalidAmount e)
      end
  | None => inr (put_reserved (<[name := reserved]> (lm_reserved_spend m)) m)
  end.

Definition release_outstanding (name : string) (reserved : BudgetAmount) (m : LimitManager)
    : LimitManager :=
  match lm_reserved_spend m !! name with
  | Some held =>
      let next := amount_saturating_sub held reserved in
      if next =? 0 then put_reserved (delete name (lm_reserved_spend m)) m
      else put_reserved (<[name := next]> (lm_reserved_spend m)) m
  | None => m
  end.

(** * Reserving *)

Definition invalid {A} (r : BudgetAmountError + A) : BudgetReservationError + A :=
  match r with inr x => inr x | inl e => inl (InvalidAmount e) end.

(** The part of [reserve_*_spend] for a shared backend; the guard of the budget
    is dropped before the call. *)
Definition reserve_distributed `{Calendar} (name : string) (reserved : BudgetAmount) (b : LimitBudget)
    (now : Z) (env : BudgetEnv) (m : LimitManager) (st : BudgetStore)
    : LimitManager * BudgetStore * (BudgetReservationError + LimitReservation) :=
  match from_f64 (lb_max_budget b) with
  | inl e => (m, st, inl (InvalidAmount e))
  | inr max =>
      let epoch := budget_period_epoch (lb_reset_period b) now in
      let spend := match from_f64 (lb_current_spend b) with inr x => x | inl _ => 0 end in
      let seed := amount_saturating_sub spend (outstanding_of m name) in
      let '(st, lease) :=
        backend_reserve (lm_backend m) (lm_scope m) name reserved max seed epoch env st in
      match lease with
      | inl e => (m, st, inl e)
      | inr lease =>
          (sync_lease_snapshot name (rl_snapshot lease) now m, st,
           inr (with_lease (rl_lease_id lease) (rl_period_epoch lease)
                  (tracked name reserved (lb_last_reset_at b))))
      end
  end.

(** The part for the process itself. *)
Definition reserve_local (name : string) (max_amount : spec_float) (reserved : BudgetAmount)
    (b : LimitBudget) (now : Z) (m : LimitManager)
    : LimitManager * (BudgetReservationError + LimitReservation) :=
  match invalid (budget_can_spend (lb_current_spend b) (lb_max_budget b) true max_amount) with
  | inl e => (m, inl e)
  | inr false => (m, inl (exceeded_error (lm_scope m)))
  | inr true =>
      match invalid (add_budget_spend (lb_current_spend b) max_amount) with
      | inl e => (m, inl e)
      | inr spend =>
          match add_outstanding name reserved m with
          | inl e => (m, inl e)
          | inr m =>
              (put_budgets (<[name := set_spend (as_f64 spend) now b]> (lm_budgets m)) m,
               inr (tracked name reserved (lb_last_reset_at b)))
          end
      end
  end.

Definition reserve_spend `{Calendar} (name : string) (max_amount : spec_float) (now : Z)
    (env : BudgetEnv) (m : LimitManager) (st : BudgetStore)
    : LimitManager * BudgetStore * (BudgetReservationError + LimitReservation) :=
  match invalid (from_f64 max_amount) with
  | inl e => (m, st, inl e)
  | inr reserved =>
      if negb (lm_enabled m) then (m, st, inr (untracked name reserved))
      else match lm_budgets m !! name with
      | None => (m, st, inr (untracked name reserved))
      | Some b =>
          if negb (lb_enabled b) then (m, st, inr (untracked name reserved))
          else if is_distributed (lm_backend m) then reserve_distributed name reserved b now env m st
          else let '(m, r) := reserve_local name max_amount reserved b now m in (m, st, r)
      end
  end.

(** * Releasing and settling in the process *)

Definition same_epoch (b : LimitBudget) (reset_at : option Z) : bool :=
  bool_decide (lb_last_reset_at b = reset_at).

Definition release_reservation (name : string) (reserved : BudgetAmount) (reset_at : option Z)
    (now : Z) (m : LimitManager) : LimitManager :=
  match lm_budgets m !! name with
  | None => m
  | Some b =>
      let same := same_epoch b reset_at in
      match release_budget_spend (lb_current_spend b) reserved same with
      | inl _ => m
      | inr spend =>
          let m := if same then release_outstanding name reserved m else m in
          let b := set_spend (as_f64 spend) now b in
          let m := put_budgets (<[name := b]> (lm_budgets m)) m in
          send_persistence_event (Upsert (snapshot_for m b)) m
      end
  end.

Definition settle_reservation (name : string) (reserved actual : BudgetAmount) (reset_at : option Z)
    (now : Z) (m : LimitManager)
    : LimitManager * (BudgetReservationError + option BudgetStatus) :=
  match lm_budgets m !! name with
  | None => (m, inr None)
  | Some b =>
      let same := same_epoch b reset_at in
      match invalid (settle_budget_spend (lb_current_spend b) reserved actual same) with
      | inl e => (m, inl e)
      | inr spend =>
          let m := if same then release_outstanding name reserved m else m in
          let b := set_spend (as_f64 spend) now b in
          let m := put_budgets (<[name := b]> (lm_budgets m)) m in
          let m := count_request name m in
          (send_persistence_event (Upsert (snapshot_for m b)) m, inr (Some (limit_status b)))
      end
  end.

Definition can_settle_reservation (name : string) (reserved actual : BudgetAmount)
    (reset_at : option Z) (m : LimitManager) : BudgetReservationError + bool :=
  match lm_budgets m !! name with
  | None => inr false
  | Some b =>
      let! _ := invalid (settle_budget_spend (lb_current_spend b) reserved actual
                           (same_epoch b reset_at)) in
      inr true
  end.

Definition finish_distributed_settle (name : string) (m : LimitManager)
    : LimitManager * option BudgetStatus :=
  let m := count_request name m in
  match lm_budgets m !! name with
  | None => (m, None)
  | Some b => (send_persistence_event (Upsert (snapshot_for m b)) m, Some (limit_status b))
  end.

(** * A reservation of one budget *)

Definition drop_reservation (r : LimitReservation) (now : Z) (env : BudgetEnv) (m : LimitManager)
    (st : BudgetStore) : LimitManager * BudgetStore :=
  if lr_tracked r && negb (lr_settled r) then
    match lr_lease_id r with
    | Some id =>
        (m, spawn_cancel (lm_backend m) (lm_scope m) (lr_name r) id (lr_reserved r)
              (lr_period_epoch r) env st)
    | None => (release_reservation (lr_name r) (lr_reserved r) (lr_reset_at r) now m, st)
    end
  else (m, st).

(** [settle]; [drop_env] is what a cancellation spawned by [Drop] would meet. *)
Definition reservation_settle (r : LimitReservation) (actual_amount : spec_float) (now : Z)
    (env drop_env : BudgetEnv) (m : LimitManager) (st : BudgetStore)
    : LimitManager * BudgetStore * (BudgetReservationError + option BudgetStatus) :=
  match invalid (from_f64 actual_amount) with
  | inl e => (drop_reservation r now drop_env m st, inl e)
  | inr actual =>
      match lr_lease_id r with
      | Some id =>
          let '(st, s) :=
            backend_settle (lm_backend m) (lm_scope m) (lr_name r) id (lr_reserved r) actual
              (lr_period_epoch r) env st in
          match s with
          | inl e => (m, st, inl e)
          | inr s =>
              let m := sync_lease_snapshot (lr_name r) s now m in
              let '(m, status) := finish_distributed_settle (lr_name r) m in
              (m, st, inr status)
          end
      | None =>
          if lr_tracked r then
            let '(m, s) :=
              settle_reservation (lr_name r) (lr_reserved r) actual (lr_reset_at r) now m in
            match s with
            | inl e => (drop_reservation r now drop_env m st, inl e)
            | inr status => (m, st, inr status)
            end
          else
            let '(m, status) := record_spend (lr_name r) (as_f64 actual) now m in (m, st, inr status)
      end
  end.

Definition reservation_cancel (r : LimitReservation) (now : Z) (env spawn_env : BudgetEnv)
    (m : LimitManager) (st : BudgetStore) : LimitManager * BudgetStore :=
  match lr_lease_id r with
  | Some id =>
      let '(st, s) :=
        backend_cancel (lm_backend m) (lm_scope m) (lr_name r) id (lr_reserved r)
          (lr_period_epoch r) env st in
      match s with
      | inr s => (sync_lease_snapshot (lr_name r) s now m, st)
      | inl _ =>
          (m, spawn_cancel (lm_backend m) (lm_scope m) (lr_name r) id (lr_reserved r)
                (lr_period_epoch r) spawn_env st)
      end
  | None =>
      if lr_tracked r
      then (release_reservation (lr_name r) (lr_reserved r) (lr_reset_at r) now m, st)
      else (m, st)
  end.

(** * Provider and model together *)

Record UnifiedBudgetLimits := mkUnified { ul_providers : LimitManager; ul_models : LimitManager }.

Definition unified_new : UnifiedBudgetLimits :=
  mkUnified (limit_manager_new ScopeProvider) (limit_manager_new ScopeModel).

Record UnifiedBudgetReservation := mkUnifiedReservation {
  ur_provider : LimitReservation;
  ur_model : LimitReservation;
}.

Definition unified_can_spend (provider model : string) (amount : spec_float) (u : UnifiedBudgetLimits)
    : bool :=
  can_spend provider amount (ul_providers u) && can_spend model amount (ul_models u).

Definition unified_record_spend (provider model : string) (amount : spec_float) (now : Z)
    (u : UnifiedBudgetLimits) : UnifiedBudgetLimits :=
  mkUnified (record_spend provider amount now (ul_providers u)).1
    (record_spend model amount now (ul_models u)).1.

Definition filter_available_providers (providers : list string) (u : UnifiedBudgetLimits) : list string :=
  let exceeded := get_exceeded (ul_providers u) in
  filter (fun p => p ∉ exceeded) providers.

Definition is_provider_available (provider : string) (u : UnifiedBudgetLimits) : bool :=
  negb (bool_decide (check_budget provider (ul_providers u) = StatusExceeded)).

Definition is_model_available (model : string) (u : UnifiedBudgetLimits) : bool :=
  negb (bool_decide (check_budget model (ul_models u) = StatusExceeded)).

(** Each snapshot is restored in the manager of its kind. *)
Definition from_snapshots (snapshots : list BudgetLimitSnapshot) (now : Z) : UnifiedBudgetLimits :=
  foldl (fun u s => match sn_kind s with
                    | ScopeProvider => mkUnified (restore_snapshot s now (ul_providers u)) (ul_models u)
                    | ScopeModel => mkUnified (ul_providers u) (restore_snapshot s now (ul_models u))
                    end) unified_new snapshots.

Definition unified_with_redis (pool_is_noop : bool) (u : UnifiedBudgetLimits) : UnifiedBudgetLimits :=
  mkUnified (with_redis pool_is_noop (ul_providers u)) (with_redis pool_is_noop (ul_models u)).

Definition unified_reset_due `{Calendar} (now : Z) (provider_env model_env : string -> BudgetEnv)
    (u : UnifiedBudgetLimits) (st : BudgetStore)
    : UnifiedBudgetLimits * BudgetStore * (list string * list string) :=
  let '(p, st, providers) := reset_due_budgets now provider_env (ul_providers u) st in
  let '(m, st, models) := reset_due_budgets now model_env (ul_models u) st in
  (mkUnified p m, st, (providers, models)).

(** What the calls of one operation meet, for each scope: the call itself and a
    cancellation spawned after it. *)
Record UnifiedEnv := mkUnifiedEnv {
  ue_provider : BudgetEnv;
  ue_model : BudgetEnv;
  ue_provider_after : BudgetEnv;
  ue_model_after : BudgetEnv;
  ue_provider_spawn : BudgetEnv;
}.

Definition unified_reserve `{Calendar} (provider model : string) (max_amount : spec_float) (now : Z)
    (env : UnifiedEnv) (u : UnifiedBudgetLimits) (st : BudgetStore)
    : UnifiedBudgetLimits * BudgetStore * (BudgetReservationError + UnifiedBudgetReservation) :=
  let '(p, st, rp) := reserve_spend provider max_amount now (ue_provider env) (ul_providers u) st in
  match rp with
  | inl e => (mkUnified p (ul_models u), st, inl e)
  | inr rp =>
      let '(m, st, rm) := reserve_spend model max_amount now (ue_model env) (ul_models u) st in
      match rm with
      | inr rm => (mkUnified p m, st, inr (mkUnifiedReservation rp rm))
      | inl e =>
          let '(p, st) :=
            reservation_cancel rp now (ue_provider_after env) (ue_provider_spawn env) p st in
          (mkUnified p m, st, inl e)
      end
  end.

Definition unified_drop (r : UnifiedBudgetReservation) (now : Z) (env : UnifiedEnv)
    (u : UnifiedBudgetLimits) (st : BudgetStore) : UnifiedBudgetLimits * BudgetStore :=
  let '(p, st) := drop_reservation (ur_provider r) now (ue_provider_after env) (ul_providers u) st in
  let '(m, st) := drop_reservation (ur_model r) now (ue_model_after env) (ul_models u) st in
  (mkUnified p m, st).

(** The checks before either scope is settled. *)
Definition unified_can_settle (r : UnifiedBudgetReservation) (actual : BudgetAmount)
    (u : UnifiedBudgetLimits) : BudgetReservationError + unit :=
  let check rs m :=
    if lr_tracked rs
    then let! _ := can_settle_reservation (lr_name rs) (lr_reserved rs) actual (lr_reset_at rs) m in
         inr tt
    else inr tt in
  let! _ := check (ur_provider r) (ul_providers u) in
  check (ur_model r) (ul_models u).

(** Both scopes are settled whatever happens to the first. *)
Definition unified_settle (r : UnifiedBudgetReservation) (actual_amount : spec_float) (now : Z)
    (env : UnifiedEnv) (u : UnifiedBudgetLimits) (st : BudgetStore)
    : UnifiedBudgetLimits * BudgetStore
      * (BudgetReservationError + option BudgetStatus * option BudgetStatus) :=
  match invalid (from_f64 actual_amount) with
  | inl e => (unified_drop r now env u st, inl e)
  | inr actual =>
      match unified_can_settle r actual u with
      | inl e => (unified_drop r now env u st, inl e)
      | inr _ =>
          let '(p, st, sp) :=
            reservation_settle (ur_provider r) actual_amount now (ue_provider env)
              (ue_provider_after env) (ul_providers u) st in
          let '(m, st, sm) :=
            reservation_settle (ur_model r) actual_amount now (ue_model env)
              (ue_model_after env) (ul_models u) st in
          (mkUnified p m, st,
           let! sp := sp in let! sm := sm in inr (sp, sm))
      end
  end.

Definition unified_cancel (r : UnifiedBudgetReservation) (now : Z) (env : UnifiedEnv)
    (u : UnifiedBudgetLimits) (st : BudgetStore) : UnifiedBudgetLimits * BudgetStore :=
  let '(p, st) :=
    reservation_cancel (ur_provider r) now (ue_provider env) (ue_provider_after env) (ul_providers u) st in
  let '(m, st) :=
    reservation_cancel (ur_model r) now (ue_model env) (ue_model_after env) (ul_models u) st in
  (mkUnified p m, st).

(** * Leases that outlive the request *)

(** The leases of a background response, by which it is settled later. *)
Record ResponseBudgetLeases := mkResponseLeases {
  rb_provider : option (string * Z);
  rb_model : option (string * Z);
  rb_reserved : spec_float;
}.

(** [f64::min] of two amounts, neither of them a NaN. *)
Definition unified_reserved_amount (r : UnifiedBudgetReservation) : spec_float :=
  let p := as_f64 (lr_reserved (ur_provider r)) in
  let m := as_f64 (lr_reserved (ur_model r)) in
  if SFltb m p then m else p.

Definition lease_of (r : LimitReservation) : option (string * Z) :=
  (fun id => (id, lr_period_epoch r)) <$> lr_lease_id r.

Definition response_leases (r : UnifiedBudgetReservation)
    : BudgetReservationError + ResponseBudgetLeases :=
  let local rs := lr_tracked rs && negb (bool_decide (is_Some (lr_lease_id rs))) in
  if local (ur_provider r) || local (ur_model r) then inl BackendUnavailable
  else inr (mkResponseLeases (lease_of (ur_provider r)) (lease_of (ur_model r))
              (unified_reserved_amount r)).

Definition mark_settled (r : LimitReservation) : LimitReservation :=
  mkReservation (lr_name r) (lr_reserved r) (lr_reset_at r) (lr_tracked r) true (lr_lease_id r)
    (lr_period_epoch r).

(** [detach_response]: marked settled, and then dropped. *)
Definition detach_response (r : UnifiedBudgetReservation) (now : Z) (env : UnifiedEnv)
    (u : UnifiedBudgetLimits) (st : BudgetStore) : UnifiedBudgetLimits * BudgetStore :=
  unified_drop (mkUnifiedReservation (mark_settled (ur_provider r)) (mark_settled (ur_model r))) now env u st.

Definition settle_response_lease (name : string) (lease : option (string * Z))
    (reserved actual : BudgetAmount) (now : Z) (env : BudgetEnv) (m : LimitManager) (st : BudgetStore)
    : LimitManager * BudgetStore * (BudgetReservationError + unit) :=
  match lease with
  | None => (m, st, inr tt)
  | Some (id, epoch) =>
      let '(st, r) :=
        backend_settle_response (lm_backend m) (lm_scope m) name id reserved actual epoch env st in
      match r with
      | inl e => (m, st, inl e)
      | inr (s, applied) =>
          let m := sync_lease_snapshot name s now m in
          ((if applied then (finish_distributed_settle name m).1 else m), st, inr tt)
      end
  end.

Definition settle_response_leases (provider model : string) (leases : ResponseBudgetLeases)
    (cost : spec_float) (now : Z) (env : UnifiedEnv) (u : UnifiedBudgetLimits) (st : BudgetStore)
    : UnifiedBudgetLimits * BudgetStore * (BudgetReservationError + unit) :=
  match invalid (from_f64 (rb_reserved leases)), invalid (from_f64 cost) with
  | inl e, _ => (u, st, inl e)
  | inr _, inl e => (u, st, inl e)
  | inr reserved, inr actual =>
      let '(p, st, rp) :=
        settle_response_lease provider (rb_provider leases) reserved actual now (ue_provider env)
          (ul_providers u) st in
      match rp with
      | inl e => (mkUnified p (ul_models u), st, inl e)
      | inr _ =>
          let '(m, st, rm) :=
            settle_response_lease model (rb_model leases) reserved actual now (ue_model env)
              (ul_models u) st in
          (mkUnified p m, st, rm)
      end
  end.
