(* ===== verification/BudgetConservation.v ===== *)
(** The budgets of one process keep the same ledger as the shared script: what is
    reserved is held until the reservation is settled or cancelled, a settlement
    charges its actual cost, and a reset releases the holds.  The dollars in
    double precision lose nothing of it below 2^51 billionths. *)

From Stdlib Require Import Floats.SpecFloat.
From S2P Require Import Prelude Float64 ProviderErrors GatewayErrors BudgetScript BudgetLedger BudgetGuarantees BudgetAmounts BudgetBackend BudgetLimits BudgetReservations.

#[local] Open Scope rust_scope.

Lemma map_Forall2_lookup_r `{Countable K} {A B} (R : K -> A -> B -> Prop) (m1 : gmap K A)
    (m2 : gmap K B) i y :
  map_Forall2 R m1 m2 -> m2 !! i = Some y -> exists x, m1 !! i = Some x /\ R i x y.
Proof. intros Hm Hi. specialize (Hm i). rewrite Hi in Hm. inversion Hm; eauto. Qed.

Lemma map_Forall2_lookup_l `{Countable K} {A B} (R : K -> A -> B -> Prop) (m1 : gmap K A)
    (m2 : gmap K B) i x :
  map_Forall2 R m1 m2 -> m1 !! i = Some x -> exists y, m2 !! i = Some y /\ R i x y.
Proof. intros Hm Hi. specialize (Hm i). rewrite Hi in Hm. inversion Hm; eauto. Qed.

(** * Amounts in bounds *)

Lemma checked_add_small a b :
  0 <= a < amount_bound -> 0 <= b < amount_bound -> amount_checked_add a b = inr (a + b).
Proof.
  unfold amount_bound, amount_checked_add, i128_max. intros.
  rewrite (proj2 (Z.leb_le (- 2 ^ 127) _)), (proj2 (Z.leb_le _ (2 ^ 127 - 1))) by lia. done.
Qed.

Lemma saturating_sub_small a b :
  0 <= b <= a -> a < amount_bound -> amount_saturating_sub a b = a - b.
Proof. unfold amount_bound, amount_saturating_sub, i128_max. lia. Qed.

Lemma can_spend_small cur max n M :
  0 <= cur < amount_bound -> 0 <= n < amount_bound -> from_f64 max = inr M ->
  budget_can_spend (as_f64 cur) max true (as_f64 n) = inr (cur + n <=? M).
Proof.
  intros Hc Hn HM. unfold budget_can_spend.
  rewrite (as_f64_read n), (as_f64_read cur), HM by done. cbn.
  by rewrite checked_add_small.
Qed.

Lemma add_spend_small cur n :
  0 <= cur < amount_bound -> 0 <= n < amount_bound ->
  add_budget_spend (as_f64 cur) (as_f64 n) = inr (cur + n).
Proof.
  intros Hc Hn. unfold add_budget_spend. rewrite (as_f64_read cur), (as_f64_read n) by done.
  by apply checked_add_small.
Qed.

Lemma settle_spend_small cur reserved actual (same : bool) :
  0 <= reserved -> (same = true -> reserved <= cur) -> 0 <= cur < amount_bound ->
  0 <= actual < amount_bound ->
  settle_budget_spend (as_f64 cur) reserved actual same
  = inr (cur - (if same then reserved else 0) + actual).
Proof.
  intros Hr Hle Hc Ha. unfold settle_budget_spend. rewrite (as_f64_read cur) by done.
  destruct same; [specialize (Hle eq_refl)|].
  - rewrite saturating_sub_small by lia. apply checked_add_small; lia.
  - rewrite Z.sub_0_r. by apply checked_add_small.
Qed.

Lemma release_spend_small cur reserved (same : bool) :
  0 <= reserved -> (same = true -> reserved <= cur) -> 0 <= cur < amount_bound ->
  release_budget_spend (as_f64 cur) reserved same = inr (cur - (if same then reserved else 0)).
Proof.
  intros Hr Hle Hc. unfold release_budget_spend. rewrite (as_f64_read cur) by done. cbn. f_equal.
  destruct same; [apply saturating_sub_small; [specialize (Hle eq_refl)|]; lia | lia].
Qed.

(** * The outstanding amounts *)

Lemma add_outstanding_small name n m :
  0 <= outstanding_of m name < amount_bound -> 0 <= n < amount_bound ->
  exists m', add_outstanding name n m = inr m' /\ outstanding_of m' name = outstanding_of m name + n /\
    lm_budgets m' = lm_budgets m /\ lm_enabled m' = lm_enabled m /\ lm_backend m' = lm_backend m /\
    lm_scope m' = lm_scope m.
Proof.
  unfold add_outstanding, outstanding_of. intros Ho Hn.
  destruct (lm_reserved_spend m !! name) as [held|]; cbn in Ho |- *.
  - rewrite checked_add_small by done. eexists. split; [done|]. cbn. by rewrite lookup_insert_eq.
  - eexists. split; [done|]. cbn. by rewrite lookup_insert_eq.
Qed.

Lemma release_outstanding_small name n m :
  0 <= n <= outstanding_of m name -> outstanding_of m name < amount_bound ->
  outstanding_of (release_outstanding name n m) name = outstanding_of m name - n /\
  lm_budgets (release_outstanding name n m) = lm_budgets m /\
  lm_enabled (release_outstanding name n m) = lm_enabled m /\
  lm_backend (release_outstanding name n m) = lm_backend m /\
  lm_scope (release_outstanding name n m) = lm_scope m.
Proof.
  unfold release_outstanding, outstanding_of. intros Hn Ho.
  destruct (lm_reserved_spend m !! name) as [held|] eqn:E; cbn in Hn, Ho.
  - rewrite saturating_sub_small by lia. destruct (Z.eqb_spec (held - n) 0) as [Hz|Hz]; cbn.
    + rewrite lookup_delete_eq. cbn. split; [lia|done].
    + rewrite lookup_insert_eq. done.
  - rewrite E. cbn. split; [lia|done].
Qed.

(** * One budget of the process *)

Section InProcess.
Context `{Calendar}.
Variables (name : string) (limit : Z).
(** What the shared backend would meet, which is not used. *)
Variables (env drop_env : BudgetEnv) (st : BudgetStore).

Inductive LimitOp :=
| OpReserve (id : string) (amount : Z)
| OpSettle (id : string) (actual : Z)
| OpCancel (id : string)
| OpDrop (id : string)
| OpReset.

(** The manager with the reservations that are open, by their owner. *)
Definition LimitState : Type := LimitManager * gmap string LimitReservation.

(** One operation at the instant [now], and whether it was refused. *)
Definition limit_step (op : LimitOp) (now : Z) (s : LimitState) : LimitState * bool :=
  let '(m, rs) := s in
  match op with
  | OpReserve id amount =>
      match reserve_spend name (as_f64 amount) now env m st with
      | (m, _, inr r) => ((m, <[id := r]> rs), true)
      | (m, _, inl _) => ((m, rs), false)
      end
  | OpSettle id actual =>
      match rs !! id with
      | Some r =>
          match reservation_settle r (as_f64 actual) now env drop_env m st with
          | (m, _, inr _) => ((m, delete id rs), true)
          | (m, _, inl _) => ((m, delete id rs), false)
          end
      | None => (s, true)
      end
  | OpCancel id =>
      match rs !! id with
      | Some r => (((reservation_cancel r now env drop_env m st).1, delete id rs), true)
      | None => (s, true)
      end
  | OpDrop id =>
      match rs !! id with
      | Some r => (((drop_reservation r now env m st).1, delete id rs), true)
      | None => (s, true)
      end
  | OpReset => (((reset_budget name now env m st).1.1, rs), true)
  end.

(** The same operation on the ledger, whose holds do not expire. *)
Definition ledger_step (op : LimitOp) (L : Ledger) : Ledger * bool :=
  match op with
  | OpReserve id amount =>
      if led_committed L + led_outstanding L + amount <=? limit
      then (mkLedger (led_committed L) (led_epoch L) (<[id := Held amount 0]> (led_unfinished L))
              (led_receipts L), true)
      else (L, false)
  | OpSettle id actual =>
      match led_unfinished L !! id with
      | Some _ => (led_finish id actual L, true)
      | None => (L, true)
      end
  | OpCancel id | OpDrop id => (led_finish id 0 L, true)
  | OpReset => (led_release (led_epoch L) L, true)
  end.

Definition not_after (clock : Z) (t : option Z) : Prop :=
  match t with Some t => t <= clock | None => True end.

(** The reservation of an open hold. *)
Definition reservation_of (b : LimitBudget) (clock : Z) (r : LimitReservation) (x : Hold) : Prop :=
  lr_name r = name /\ lr_tracked r = true /\ lr_settled r = false /\ lr_lease_id r = None /\
  0 <= lr_reserved r /\ not_after clock (lr_reset_at r) /\
  x = (if same_epoch b (lr_reset_at r) then Held (lr_reserved r) 0 else Released).

Record keeps (clock : Z) (s : LimitState) (L : Ledger) : Prop := mkKeeps {
  kp_enabled : lm_enabled s.1 = true;
  kp_backend : lm_backend s.1 = InProcess;
  kp_budget : exists b, lm_budgets s.1 !! name = Some b /\ lb_enabled b = true /\
    from_f64 (lb_max_budget b) = inr limit /\
    lb_current_spend b = as_f64 (led_committed L + led_outstanding L) /\
    not_after clock (lb_last_reset_at b) /\
    map_Forall2 (fun _ => reservation_of b clock) s.2 (led_unfinished L);
  kp_outstanding : outstanding_of s.1 name = led_outstanding L;
  kp_committed : 0 <= led_committed L;
  kp_bound : led_committed L + led_outstanding L < amount_bound;
}.

Lemma keeps_holds_nonneg b clock (rs : gmap string LimitReservation) L :
  map_Forall2 (fun _ => reservation_of b clock) rs (led_unfinished L) -> holds_nonneg L.
Proof.
  intros Hrel id x Hx. destruct (map_Forall2_lookup_r _ _ _ _ _ Hrel Hx) as (r & _ & Hr).
  destruct Hr as (_ & _ & _ & _ & Hr & _ & ->). by destruct (same_epoch b (lr_reset_at r)).
Qed.

(** What an open reservation still holds. *)
Definition held_by (b : LimitBudget) (r : LimitReservation) : Z :=
  if same_epoch b (lr_reset_at r) then lr_reserved r else 0.

Lemma keeps_held b clock (rs : gmap string LimitReservation) L id r :
  map_Forall2 (fun _ => reservation_of b clock) rs (led_unfinished L) -> rs !! id = Some r ->
  0 <= held_by b r <= led_outstanding L /\
  led_unfinished L !! id = Some (if same_epoch b (lr_reset_at r) then Held (lr_reserved r) 0 else Released) /\
  led_outstanding (led_finish id 0 L) = led_outstanding L - held_by b r.
Proof.
  intros Hrel Hr. pose proof (keeps_holds_nonneg _ _ _ _ Hrel) as Hn.
  destruct (map_Forall2_lookup_l _ _ _ _ _ Hrel Hr) as (x & Hx & Hres).
  destruct Hres as (_ & _ & _ & _ & Hnn & _ & ->).
  pose proof (hold_le L id Hn) as Hle. pose proof (outstanding_finish id 0 L) as Hout.
  rewrite Hx in Hle, Hout. cbn in Hle, Hout. rewrite Hx. unfold held_by.
  destruct (same_epoch b (lr_reset_at r)); cbn in *; (split; [lia|]); (split; [done|lia]).
Qed.

Lemma keeps_finish clock now m m' rs L id r b charge :
  keeps clock (m, rs) L -> lm_budgets m !! name = Some b -> rs !! id = Some r ->
  0 <= charge -> led_committed L + charge + led_outstanding L - held_by b r < amount_bound ->
  lm_enabled m' = lm_enabled m -> lm_backend m' = lm_backend m ->
  lm_budgets m' !! name
    = Some (set_spend (as_f64 (led_committed L + led_outstanding L - held_by b r + charge)) now b) ->
  outstanding_of m' name = outstanding_of m name - held_by b r ->
  keeps clock (m', delete id rs) (led_finish id charge L).
Proof.
  intros [He Hbk (b0 & Hb & Hbe & Hmax & Hcur & Hlast & Hrel) Ho Hc Hbd] Hb' Hr Hch Hbound He' Hbk' Hnew Hout.
  cbn in *. assert (b0 = b) by congruence. subst b0. destruct (keeps_held _ _ _ _ _ _ Hrel Hr) as (Hheld & Hx & Hfin).
  assert (Hfin' : led_outstanding (led_finish id charge L) = led_outstanding L - held_by b r) by exact Hfin.
  split; cbn [fst snd]; rewrite ?Hfin'; [congruence|congruence| |lia|cbn; lia|cbn; lia].
  eexists. split; [exact Hnew|]. cbn. split; [done|]. split; [done|]. split; [f_equal; lia|].
  split; [done|]. by apply map_Forall2_delete.
Qed.

Lemma released_small b r m :
  0 <= lr_reserved r -> 0 <= held_by b r <= outstanding_of m name -> outstanding_of m name < amount_bound ->
  let m' := if same_epoch b (lr_reset_at r) then release_outstanding name (lr_reserved r) m else m in
  outstanding_of m' name = outstanding_of m name - held_by b r /\
  lm_budgets m' = lm_budgets m /\ lm_enabled m' = lm_enabled m /\ lm_backend m' = lm_backend m.
Proof.
  unfold held_by. intros Hnn Hh Ho. destruct (same_epoch b (lr_reset_at r)); cbn zeta.
  - destruct (release_outstanding_small name (lr_reserved r) m) as (? & ? & ? & ? & _); [lia|lia|done].
  - split; [lia|done].
Qed.

Section Open.
Variables (clock now : Z) (m : LimitManager) (rs : gmap string LimitReservation) (L : Ledger).
Variables (id : string) (r : LimitReservation).
Hypothesis (HK : keeps clock (m, rs) L).
Hypothesis (Hr : rs !! id = Some r).

Lemma release_keeps :
  keeps clock (release_reservation name (lr_reserved r) (lr_reset_at r) now m, delete id rs)
    (led_finish id 0 L).
Proof.
  pose proof HK as [He Hbk (b & Hb & Hbe & Hmax & Hcur & Hlast & Hrel) Ho Hc Hbd].
  cbn [fst snd] in *. destruct (keeps_held _ _ _ _ _ _ Hrel Hr) as (Hheld & _ & _).
  destruct (map_Forall2_lookup_l _ _ _ _ _ Hrel Hr) as (x & _ & (_ & _ & _ & _ & Hnn & _ & _)).
  destruct (released_small b r m) as (Q1 & Q2 & Q3 & Q4); [done|lia|lia|].
  unfold release_reservation. rewrite Hb, Hcur, release_spend_small; [|done| |lia].
  2:{ intros E. unfold held_by in Hheld. rewrite E in Hheld. lia. }
  change (if same_epoch b (lr_reset_at r) then lr_reserved r else 0) with (held_by b r).
  set (m1 := if same_epoch b (lr_reset_at r) then _ else _) in *.
  apply (keeps_finish clock now m _ rs L id r b 0); [exact HK|done|done|lia|lia|exact Q3|exact Q4| |].
  - cbn. by rewrite lookup_insert_eq, Z.add_0_r.
  - cbn. by rewrite <- Q1.
Qed.

Lemma settle_keeps actual :
  0 <= actual < amount_bound -> led_spend (led_finish id actual L) < amount_bound ->
  exists status,
  (settle_reservation name (lr_reserved r) actual (lr_reset_at r) now m).2 = inr status /\
  keeps clock ((settle_reservation name (lr_reserved r) actual (lr_reset_at r) now m).1, delete id rs)
    (led_finish id actual L).
Proof.
  intros Ha Hsp. pose proof HK as [He Hbk (b & Hb & Hbe & Hmax & Hcur & Hlast & Hrel) Ho Hc Hbd].
  cbn [fst snd] in *. destruct (keeps_held _ _ _ _ _ _ Hrel Hr) as (Hheld & _ & Hfin).
  assert (Hfin' : led_outstanding (led_finish id actual L) = led_outstanding L - held_by b r) by exact Hfin.
  unfold led_spend in Hsp. rewrite Hfin' in Hsp. cbn in Hsp.
  destruct (map_Forall2_lookup_l _ _ _ _ _ Hrel Hr) as (x & _ & (_ & _ & _ & _ & Hnn & _ & _)).
  destruct (released_small b r m) as (Q1 & Q2 & Q3 & Q4); [done|lia|lia|].
  unfold settle_reservation. rewrite Hb, Hcur, settle_spend_small; [|done| |lia|done].
  2:{ intros E. unfold held_by in Hheld. rewrite E in Hheld. lia. }
  change (if same_epoch b (lr_reset_at r) then lr_reserved r else 0) with (held_by b r).
  cbn [invalid]. set (m1 := if same_epoch b (lr_reset_at r) then _ else _) in *.
  eexists. split; [done|]. cbn [fst].
  apply (keeps_finish clock now m _ rs L id r b actual); [exact HK|done|done|lia|lia|exact Q3|exact Q4| |].
  - cbn. by rewrite lookup_insert_eq.
  - cbn. by rewrite <- Q1.
Qed.
End Open.

Lemma not_after_le clock clock' t : not_after clock t -> clock <= clock' -> not_after clock' t.
Proof. destruct t; cbn; lia. Qed.

Lemma keeps_later clock clock' s L : keeps clock s L -> clock <= clock' -> keeps clock' s L.
Proof.
  intros [He Hbk (b & Hb & Hbe & Hmax & Hcur & Hlast & Hrel) Ho Hc Hbd] Hle.
  split; try done. exists b. split; [done|]. split; [done|]. split; [done|]. split; [done|].
  split; [by eapply not_after_le|]. apply (map_Forall2_impl _ _ _ _ Hrel).
  intros id r x (?&?&?&?&?&Hna&?). unfold reservation_of. split_and!; try done. by eapply not_after_le.
Qed.

Hypothesis limit_small : limit < amount_bound.

Lemma reserve_keeps clock now m rs L id n :
  keeps clock (m, rs) L -> 0 <= n < amount_bound -> rs !! id = None ->
  let '(s', granted) := limit_step (OpReserve id n) now (m, rs) in
  keeps clock s' (ledger_step (OpReserve id n) L).1 /\ granted = (ledger_step (OpReserve id n) L).2.
Proof.
  intros HK Hn Hid. pose proof HK as [He Hbk (b & Hb & Hbe & Hmax & Hcur & Hlast & Hrel) Ho Hc Hbd].
  cbn [fst snd] in *. pose proof (keeps_holds_nonneg _ _ _ _ Hrel) as Hnn.
  assert (Hout : 0 <= led_outstanding L) by by apply sum_map_nonneg.
  unfold limit_step, ledger_step, reserve_spend. rewrite as_f64_read by done. cbn [invalid].
  rewrite He, Hb, Hbe, Hbk. cbn [negb is_distributed]. unfold reserve_local.
  rewrite Hcur, (can_spend_small _ _ _ limit) by (done || lia). cbn [invalid].
  destruct (Z.leb_spec (led_committed L + led_outstanding L + n) limit) as [Hle|Hgt]; [|done].
  rewrite add_spend_small by lia. cbn [invalid].
  destruct (add_outstanding_small name n m) as (m1 & -> & Q1 & Q2 & Q3 & Q4 & _); [lia|done|].
  cbn [fst snd]. split; [|done].
  assert (Hu : led_unfinished L !! id = None).
  { destruct (led_unfinished L !! id) eqn:E; [|done].
    destruct (map_Forall2_lookup_r _ _ _ _ _ Hrel E) as (? & ? & _). congruence. }
  assert (Hsum : led_outstanding (mkLedger (led_committed L) (led_epoch L)
            (<[id:=Held n 0]> (led_unfinished L)) (led_receipts L)) = n + led_outstanding L).
  { unfold led_outstanding; cbn. by rewrite sum_map_insert. }
  split; rewrite ?Hsum; cbn; [congruence|congruence| |rewrite <- Ho; unfold outstanding_of in *; cbn; lia|lia|lia].
  eexists. split; [by rewrite lookup_insert_eq|]. cbn. split; [done|]. split; [done|].
  split; [f_equal; lia|]. split; [done|]. apply map_Forall2_insert_2; [|done].
  unfold reservation_of; cbn. split_and!; try done; [lia|].
  unfold same_epoch; cbn. by rewrite bool_decide_eq_true_2.
Qed.

Lemma reset_keeps clock now m rs L :
  keeps clock (m, rs) L -> clock < now ->
  keeps now ((reset_budget name now env m st).1.1, rs) (led_release (led_epoch L) L).
Proof.
  intros [He Hbk (b & Hb & Hbe & Hmax & Hcur & Hlast & Hrel) Ho Hc Hbd] Hnow. cbn [fst snd] in *.
  assert (Hz : led_outstanding (led_release (led_epoch L) L) = 0) by apply outstanding_release.
  unfold reset_budget. rewrite Hb. unfold reset_distributed_lease. cbn [lm_backend reset_entry].
  unfold reset_entry at 1; cbn [lm_backend put_reserved put_counts put_budgets]. rewrite Hbk. cbn [negb is_distributed].
  split; rewrite ?Hz; cbn; [done|done| | |lia|unfold amount_bound; lia].
  - eexists. split; [by rewrite lookup_insert_eq|]. cbn. split; [done|]. split; [done|].
    split; [by vm_compute|]. split; [lia|]. intros id. specialize (Hrel id). rewrite lookup_fmap.
    destruct Hrel as [r x (?&?&?&?&?&Hna&?)|]; constructor. unfold reservation_of. split_and!; try done.
    + eapply not_after_le; [done|lia].
    + unfold same_epoch; cbn. rewrite bool_decide_eq_false_2; [done|]. intros E. rewrite <- E in Hna. cbn in Hna. lia.
  - unfold outstanding_of; cbn. by rewrite lookup_delete_eq.
Qed.

(** Amounts in bounds, fresh owners, and a spend that stays in bounds. *)
Definition limit_op_ok (op : LimitOp) (L : Ledger) : Prop :=
  match op with
  | OpReserve id amount => 0 <= amount < amount_bound /\ led_unfinished L !! id = None
  | OpSettle id actual => 0 <= actual < amount_bound /\ led_spend (led_finish id actual L) < amount_bound
  | _ => True
  end.

Lemma keeps_none clock s L id : keeps clock s L -> led_unfinished L !! id = None <-> s.2 !! id = None.
Proof.
  intros [_ _ (b & _ & _ & _ & _ & _ & Hrel) _ _ _]. specialize (Hrel id). inversion Hrel; done.
Qed.

Lemma open_reservation clock m rs L id r :
  keeps clock (m, rs) L -> rs !! id = Some r ->
  lr_name r = name /\ lr_tracked r = true /\ lr_settled r = false /\ lr_lease_id r = None /\
  is_Some (led_unfinished L !! id).
Proof.
  intros [_ _ (b & _ & _ & _ & _ & _ & Hrel) _ _ _] Hr.
  destruct (map_Forall2_lookup_l _ _ _ _ _ Hrel Hr) as (x & Hx & (?&?&?&?&_)). rewrite Hx. eauto.
Qed.

Lemma finish_nothing clock m rs L id :
  keeps clock (m, rs) L -> rs !! id = None -> led_finish id 0 L = L.
Proof.
  intros HK Hr. apply (keeps_none _ _ _ id) in HK. apply HK in Hr. destruct L; unfold led_finish; cbn in *.
  by rewrite Z.add_0_r, delete_id.
Qed.

Lemma limit_step_keeps op clock now s L :
  keeps clock s L -> clock < now -> limit_op_ok op L ->
  keeps now (limit_step op now s).1 (ledger_step op L).1 /\
  (limit_step op now s).2 = (ledger_step op L).2.
Proof.
  intros HK Hnow Hok. destruct s as [m rs]. pose proof (keeps_later _ now _ _ HK ltac:(lia)) as HK'.
  destruct op as [id n|id a|id|id|].
  - destruct Hok as [Hn Hid]. apply (keeps_none _ _ _ id HK) in Hid.
    pose proof (reserve_keeps now now m rs L id n HK' Hn Hid) as Hstep.
    by destruct (limit_step (OpReserve id n) now (m, rs)) as [s' granted].
  - cbn. destruct (rs !! id) as [r|] eqn:Hr.
    + destruct (open_reservation _ _ _ _ _ _ HK Hr) as (Hnm & Ht & Hs & Hl & x & Hx).
      destruct Hok as [Ha Hsp].
      destruct (settle_keeps now now m rs L id r HK' Hr a Ha Hsp) as (status & Hst & Hkeeps).
      unfold reservation_settle. rewrite (as_f64_read a) by done. cbn [invalid]. rewrite Hl, Ht, Hnm, Hx.
      destruct (settle_reservation name (lr_reserved r) a (lr_reset_at r) now m) as [m1 s1].
      cbn in Hst, Hkeeps. by subst s1.
    + pose proof (proj2 (keeps_none _ _ _ id HK) Hr) as Hx. by rewrite Hx.
  - cbn. destruct (rs !! id) as [r|] eqn:Hr; [|by rewrite (finish_nothing _ _ _ _ _ HK Hr)].
    destruct (open_reservation _ _ _ _ _ _ HK Hr) as (Hnm & Ht & Hs & Hl & _).
    unfold reservation_cancel. rewrite Hl, Ht, Hnm. split; [|done]. by apply release_keeps.
  - cbn. destruct (rs !! id) as [r|] eqn:Hr; [|by rewrite (finish_nothing _ _ _ _ _ HK Hr)].
    destruct (open_reservation _ _ _ _ _ _ HK Hr) as (Hnm & Ht & Hs & Hl & _).
    unfold drop_reservation. rewrite Hl, Ht, Hs, Hnm. split; [|done]. by apply release_keeps.
  - split; [|done]. by apply (reset_keeps clock).
Qed.

(** Runs, with the instants of the operations. *)
Fixpoint limit_run (l : list (LimitOp * Z)) (s : LimitState) : LimitState * list bool :=
  match l with
  | [] => (s, [])
  | (op, now) :: l =>
      let '(s, granted) := limit_step op now s in
      let '(s, answers) := limit_run l s in (s, granted :: answers)
  end.

Fixpoint ledger_run (l : list (LimitOp * Z)) (L : Ledger) : Ledger * list bool :=
  match l with
  | [] => (L, [])
  | (op, _) :: l =>
      let '(L, granted) := ledger_step op L in
      let '(L, answers) := ledger_run l L in (L, granted :: answers)
  end.

Fixpoint limit_run_ok (l : list (LimitOp * Z)) (clock : Z) (L : Ledger) : Prop :=
  match l with
  | [] => True
  | (op, now) :: l => clock < now /\ limit_op_ok op L /\ limit_run_ok l now (ledger_step op L).1
  end.

Lemma limit_run_keeps l clock s L :
  keeps clock s L -> limit_run_ok l clock L ->
  (exists clock', keeps clock' (limit_run l s).1 (ledger_run l L).1) /\
  (limit_run l s).2 = (ledger_run l L).2.
Proof.
  revert clock s L. induction l as [|[op now] l IH]; intros clock s L HK Hok; [by split; [exists clock|]|].
  destruct Hok as (Hnow & Hop & Hok). destruct (limit_step_keeps op clock now s L HK Hnow Hop) as [Hk Ha].
  cbn [limit_run ledger_run]. destruct (limit_step op now s) as [s1 a1], (ledger_step op L) as [L1 b1].
  cbn [fst snd] in *. destruct (IH now s1 L1 Hk Hok) as [Hk' Ha'].
  destruct (limit_run l s1), (ledger_run l L1). cbn [fst snd] in *. by subst.
Qed.

(** Setting a limit on a name without one starts an empty ledger. *)
Definition empty_ledger : Ledger := mkLedger 0 0 ∅ ∅.

Lemma set_limit_keeps config now m :
  lm_enabled m = true -> lm_backend m = InProcess -> lm_budgets m !! name = None ->
  outstanding_of m name = 0 -> lc_enabled config = true ->
  from_f64 (lc_max_budget config) = inr limit -> SFleb (lc_max_budget config) f64_zero = false ->
  percentage_valid (lc_soft_limit_percentage config) = true ->
  keeps now (set_limit name config now m, ∅) empty_ledger.
Proof.
  intros He Hb Hn Ho Hce Hmax Hpos Hpct. unfold set_limit, set_limit_optional. cbn [default].
  assert (Hfin : f64_is_finite (lc_max_budget config) = true).
  { unfold from_f64 in Hmax. by destruct (f64_is_finite (lc_max_budget config)). }
  unfold Datatypes.id. rewrite Hfin, Hpos, Hpct, Hn. cbn [negb orb].
  split; cbn; [done|done| |done|lia|by vm_compute].
  eexists. split; [by rewrite lookup_insert_eq|]. cbn. split; [done|]. split; [done|].
  split; [by vm_compute|]. split; [lia|]. intros id. rewrite !lookup_empty. constructor.
Qed.
End InProcess.

(** * Provider and model together *)

Lemma reserve_local_cancelled name n reserved b now later m m' r :
  lm_backend m = InProcess -> lm_budgets m !! name = Some b -> 0 <= n < amount_bound -> reserved = n ->
  (exists x, lb_current_spend b = as_f64 x /\ 0 <= outstanding_of m name <= x /\ x + n < amount_bound) ->
  reserve_local name (as_f64 n) reserved b now m = (m', inr r) ->
  let m2 := release_reservation (lr_name r) (lr_reserved r) (lr_reset_at r) later m' in
  lr_lease_id r = None /\ lr_tracked r = true /\
  lb_current_spend <$> lm_budgets m2 !! name = lb_current_spend <$> lm_budgets m !! name /\
  outstanding_of m2 name = outstanding_of m name.
Proof.
  intros Hbk Hb Hn -> (x & Hx & Ho & Hsum) Hres. unfold reserve_local in Hres.
  destruct (invalid (budget_can_spend _ _ _ _)) as [|[|]]; [done| |done].
  rewrite Hx, add_spend_small in Hres by lia. cbn [invalid] in Hres.
  destruct (add_outstanding_small name n m) as (m1 & Hadd & Q1 & Q2 & _); [lia|done|].
  rewrite Hadd in Hres. simplify_eq. cbn zeta. split; [done|]. split; [done|].
  unfold release_reservation. cbn [lr_name lr_reserved lr_reset_at tracked lm_budgets put_budgets].
  rewrite lookup_insert_eq. unfold same_epoch. cbn [lb_last_reset_at lb_current_spend set_spend].
  rewrite bool_decide_eq_true_2, release_spend_small by (done || lia).
  set (m3 := put_budgets _ m1).
  destruct (release_outstanding_small name n m3) as (R1 & R2 & _).
  { unfold outstanding_of in *; cbn in *. lia. } { unfold outstanding_of in *; cbn in *. lia. }
  cbn. rewrite lookup_insert_eq, Hb. cbn. split.
  - rewrite Hx. do 2 f_equal. lia.
  - change (outstanding_of (release_outstanding name n m3) name = outstanding_of m name).
    rewrite R1. unfold outstanding_of in *; cbn in *. lia.
Qed.

(** The budget of [name] can take [n] more without leaving the bounds. *)
Definition room_for (n : Z) (name : string) (m : LimitManager) : Prop :=
  forall b, lm_budgets m !! name = Some b ->
    exists x, lb_current_spend b = as_f64 x /\ 0 <= outstanding_of m name <= x /\ x + n < amount_bound.

Definition same_spend (name : string) (m m' : LimitManager) : Prop :=
  lb_current_spend <$> lm_budgets m' !! name = lb_current_spend <$> lm_budgets m !! name /\
  outstanding_of m' name = outstanding_of m name.

Lemma reserve_spend_in_process `{Calendar} name n now later env c1 c2 m st :
  lm_backend m = InProcess -> 0 <= n < amount_bound -> room_for n name m ->
  let '(m', st', r) := reserve_spend name (as_f64 n) now env m st in
  st' = st /\
  match r with
  | inl _ => m' = m
  | inr r => (reservation_cancel r later c1 c2 m' st).2 = st /\
             same_spend name m (reservation_cancel r later c1 c2 m' st).1
  end.
Proof.
  intros Hbk Hn Hroom. unfold reserve_spend. rewrite as_f64_read by done. cbn [invalid].
  destruct (lm_enabled m); [|done]. destruct (lm_budgets m !! name) as [b|] eqn:Hb; [|done].
  destruct (lb_enabled b); [|done]. rewrite Hbk. cbn [negb is_distributed].
  destruct (reserve_local name (as_f64 n) n b now m) as [m' [e|r]] eqn:Hres.
  - split; [done|]. revert Hres. unfold reserve_local. intros Hres. repeat case_match; by simplify_eq.
  - split; [done|].
    destruct (reserve_local_cancelled name n n b now later m m' r Hbk Hb Hn eq_refl (Hroom b Hb) Hres)
      as (Hl & Ht & Hsp & Ho).
    unfold reservation_cancel. by rewrite Hl, Ht.
Qed.

(** C13: where no shared backend is attached to either scope, a request whose
    provider has the money but whose model has not is refused and leaves both
    budgets' spend and holds as they were, while the amounts stay in the range
    that is stored exactly ([room_for]).  With a shared backend the
    cancellation is a call that can fail, and the provider's hold then stays. *)
Theorem unified_reserve_atomic `{Calendar} provider model n now env u st u' st' e :
  lm_backend (ul_providers u) = InProcess -> lm_backend (ul_models u) = InProcess ->
  0 <= n < amount_bound -> room_for n provider (ul_providers u) -> room_for n model (ul_models u) ->
  unified_reserve provider model (as_f64 n) now env u st = (u', st', inl e) ->
  st' = st /\ ul_models u' = ul_models u /\ same_spend provider (ul_providers u) (ul_providers u').
Proof.
  intros Hp Hm Hn Hrp Hrm. unfold unified_reserve.
  pose proof (reserve_spend_in_process provider n now now (ue_provider env) (ue_provider_after env)
                (ue_provider_spawn env) (ul_providers u) st Hp Hn Hrp) as HP.
  destruct (reserve_spend provider _ _ _ _ _) as [[p st1] [e1|r1]]; destruct HP as [-> HP].
  { subst p. by intros [= <- <- <-]. }
  pose proof (reserve_spend_in_process model n now now (ue_model env) (ue_model env) (ue_model env)
                (ul_models u) st Hm Hn Hrm) as HM.
  destruct (reserve_spend model _ _ _ _ _) as [[m st2] [e2|r2]]; destruct HM as [-> HM]; [|done].
  destruct HP as [Hst Hsame].
  destruct (reservation_cancel r1 now _ _ p st) as [p' st3]. cbn in *. subst.
  by intros [= <- <- <-].
Qed.

(** * Settling both scopes *)

Lemma keys_differ a b : budget_lease_key (scope_str ScopeProvider) a <> budget_lease_key (scope_str ScopeModel) b.
Proof. unfold budget_lease_key; cbn. by intros [=]. Qed.

Lemma invoke_other c key key' a st : key <> key' -> (invoke_budget_lease c key a st).1 !! key' = st !! key'.
Proof.
  intros Hne. unfold invoke_budget_lease. destruct (call_noop c); [done|].
  destruct (call_permit c); [done|]. destruct (budget_lease_script a (st !! key)) as [h reply].
  destruct (call_failure c); [destruct (call_applied c); [|done]|]; cbn [fst]; by apply lookup_insert_ne.
Qed.

Lemma spawn_cancel_other b s name id reserved epoch env st key :
  budget_lease_key (scope_str s) name <> key ->
  spawn_cancel b s name id reserved epoch env st !! key = st !! key.
Proof.
  intros Hne. unfold spawn_cancel. destruct b; [done|]. destruct (amount_to_i64 reserved); [done|].
  by apply invoke_other.
Qed.

Lemma backend_settle_other b s name id reserved actual epoch env st key :
  budget_lease_key (scope_str s) name <> key ->
  (backend_settle b s name id reserved actual epoch env st).1 !! key = st !! key.
Proof.
  intros Hne. unfold backend_settle, run_redis. destruct b; [done|]. destruct (amount_to_i64 reserved); [done|].
  destruct (amount_to_i64 actual) as [|x]; [done|].
  pose proof (invoke_other (env_call env) _ key (budget_settle z x epoch id (env_now_ms env)) st Hne) as Ho.
  by destruct (invoke_budget_lease _ _ _ _).
Qed.

Lemma drop_other r now env m st key :
  budget_lease_key (scope_str (lm_scope m)) (lr_name r) <> key ->
  (drop_reservation r now env m st).2 !! key = st !! key.
Proof.
  intros Hne. unfold drop_reservation. destruct (_ && _); [|done]. destruct (lr_lease_id r); [|done].
  by apply spawn_cancel_other.
Qed.

Lemma reservation_settle_other r amount now env drop_env m st key :
  budget_lease_key (scope_str (lm_scope m)) (lr_name r) <> key ->
  (reservation_settle r amount now env drop_env m st).1.2 !! key = st !! key.
Proof.
  intros Hne. unfold reservation_settle. destruct (invalid (from_f64 amount)) as [|actual]; [by apply drop_other|].
  destruct (lr_lease_id r) as [id|] eqn:Hl.
  - pose proof (backend_settle_other (lm_backend m) (lm_scope m) (lr_name r) id (lr_reserved r) actual
                  (lr_period_epoch r) env st key Hne) as Ho.
    destruct (backend_settle _ _ _ _ _ _ _ _ _) as [st' [e|s]]; [done|].
    by destruct (finish_distributed_settle _ _).
  - destruct (lr_tracked r) eqn:Ht; [|by destruct (record_spend _ _ _ _)].
    destruct (settle_reservation _ _ _ _ _ _) as [m' [e|status]]; [|done].
    unfold drop_reservation. rewrite Hl, Ht. by destruct (negb (lr_settled r)).
Qed.

(** settling a request settles its model's shared budget whatever becomes of
    its provider's: an unreachable provider backend, or a settlement whose answer
    is lost, never turns the model's actual cost into a refund. *)
Theorem settle_reaches_model r n now env u st id ttl reserved epoch :
  0 <= n < amount_bound -> unified_can_settle r n u = inr tt ->
  lm_scope (ul_providers u) = ScopeProvider -> lm_scope (ul_models u) = ScopeModel ->
  lm_backend (ul_models u) = Redis ttl ->
  lr_lease_id (ur_model r) = Some id -> lr_reserved (ur_model r) = reserved ->
  lr_period_epoch (ur_model r) = epoch -> 0 <= reserved <= i64_max ->
  env_call (ue_model env) = call_ok ->
  let key := budget_lease_key (scope_str ScopeModel) (lr_name (ur_model r)) in
  let settle := budget_settle reserved n epoch id (env_now_ms (ue_model env)) in
  (unified_settle r (as_f64 n) now env u st).1.2 !! key
  = Some (budget_lease_script settle (st !! key)).1.
Proof.
  intros Hn Hcan Hsp Hsm Hb Hl Hres Hep Hr Hcall key settle. unfold unified_settle.
  rewrite as_f64_read by done. cbn [invalid]. rewrite Hcan.
  pose proof (reservation_settle_other (ur_provider r) (as_f64 n) now (ue_provider env)
                (ue_provider_after env) (ul_providers u) st key) as Ho.
  destruct (reservation_settle (ur_provider r) _ _ _ _ _ _) as [[p st1] sp]. cbn [fst snd] in Ho.
  rewrite Hsp in Ho. specialize (Ho (keys_differ _ _)).
  unfold reservation_settle. rewrite as_f64_read by done. cbn [invalid].
  rewrite Hl, Hb, Hres, Hep, Hsm. unfold backend_settle, amount_to_i64, run_redis, invoke_budget_lease.
  rewrite Hcall. cbn [call_noop call_permit call_failure call_ok].
  assert (Hn64 : (- 2 ^ 63 <=? n) && (n <=? i64_max) = true) by (unfold amount_bound, i64_max in *; lia).
  assert (Hr64 : (- 2 ^ 63 <=? reserved) && (reserved <=? i64_max) = true) by lia.
  rewrite Hn64, Hr64. fold key settle. rewrite Ho.
  destruct (budget_lease_script settle (st !! key)) as [h reply].
  destruct (parse_budget_lease_state reply); cbn [fst snd].
  - apply lookup_insert_eq.
  - destruct (finish_distributed_settle _ _). apply lookup_insert_eq.
Qed.

(** * A budget from its first limit *)

(** C11: a budget of the process keeps the ledger of its reservations from the
    moment its limit is set: a reservation is granted exactly when the spend and
    the holds leave room for it, a settlement charges its actual cost and gives
    back the hold, a cancelled or dropped reservation charges nothing, and after a
    reset late settlements are charged to the new period without touching its
    holds; the stored dollars read back as what was charged and is held. *)
Theorem in_process_refines `{Calendar} name limit env drop_env st config now m l :
  lm_enabled m = true -> lm_backend m = InProcess -> lm_budgets m !! name = None ->
  outstanding_of m name = 0 -> lc_enabled config = true -> limit < amount_bound ->
  from_f64 (lc_max_budget config) = inr limit -> SFleb (lc_max_budget config) f64_zero = false ->
  percentage_valid (lc_soft_limit_percentage config) = true ->
  limit_run_ok limit l now empty_ledger ->
  let run := limit_run name env drop_env st l (set_limit name config now m, ∅) in
  let L := (ledger_run limit l empty_ledger).1 in
  run.2 = (ledger_run limit l empty_ledger).2 /\
  exists b, lm_budgets run.1.1 !! name = Some b /\
    from_f64 (lb_current_spend b) = inr (led_committed L + led_outstanding L) /\
    outstanding_of run.1.1 name = led_outstanding L /\
    from_f64 (lb_max_budget b) = inr limit /\ dom run.1.2 = dom (led_unfinished L).
Proof.
  intros He Hb Hn Ho Hce Hlim Hmax Hpos Hpct Hok run L.
  pose proof (set_limit_keeps name limit config now m He Hb Hn Ho Hce Hmax Hpos Hpct) as HK.
  destruct (limit_run_keeps name limit env drop_env st Hlim l now _ _ HK Hok) as [[clock Hk] Ha].
  split; [exact Ha|]. fold run L in Hk.
  destruct Hk as [_ _ (b & Hb' & _ & Hm & Hcur & _ & Hrel) Hout Hc Hbd].
  pose proof (keeps_holds_nonneg _ _ _ _ _ Hrel) as Hnn.
  assert (0 <= led_outstanding L) by by apply sum_map_nonneg.
  exists b. split; [done|]. split; [rewrite Hcur; apply as_f64_read; lia|].
  split; [done|]. split; [done|]. apply set_eq. intros id. rewrite !elem_of_dom. specialize (Hrel id).
  inversion Hrel; split; intros [? ?]; congruence || eauto.
Qed.

(** ** Concrete runs *)

#[local] Instance some_calendar : Calendar := {|
  date_naive := fun t => t / 86400; iso_week := fun t => (0, t / 604800);
  year_month := fun t => (0, t / 2592000); midnight := fun t => t; monday_midnight := fun t => t;
  first_of_month := fun t => t |}.

Definition ten_dollars : LimitConfig := limit_config_new (f64_of_Z 10) Daily.
Definition some_env : BudgetEnv := mkEnv call_ok 0 "".

(** Four dollars held, seven refused, three charged, six held over a reset and
    charged five after it. *)
Definition some_run : list (LimitOp * Z) :=
  [(OpReserve "a" (4 * 10 ^ 9), 1); (OpReserve "b" (7 * 10 ^ 9), 2); (OpSettle "a" (3 * 10 ^ 9), 3);
   (OpReserve "c" (6 * 10 ^ 9), 4); (OpReset, 5); (OpReserve "d" (2 * 10 ^ 9), 6);
   (OpSettle "c" (5 * 10 ^ 9), 7); (OpCancel "d", 8)].

Lemma some_run_ok : limit_run_ok (10 * 10 ^ 9) some_run 0 empty_ledger.
Proof.
  unfold some_run. cbn [limit_run_ok limit_op_ok]. split_and!; try exact I; try lia; vm_compute; try done.
Qed.

Lemma in_process_refines_witness :
  let run := limit_run "openai" some_env some_env ∅ some_run
               (set_limit "openai" ten_dollars 0 (limit_manager_new ScopeProvider), ∅) in
  run.2 = [true; false; true; true; true; true; true; true] /\
  (exists b, lm_budgets run.1.1 !! "openai" = Some b /\ from_f64 (lb_current_spend b) = inr (5 * 10 ^ 9)).
Proof.
  intros run.
  assert (Hmax : from_f64 (lc_max_budget ten_dollars) = inr (10 * 10 ^ 9)) by (vm_compute; reflexivity).
  destruct (in_process_refines "openai" (10 * 10 ^ 9) some_env some_env ∅ ten_dollars 0
              (limit_manager_new ScopeProvider) some_run eq_refl eq_refl eq_refl eq_refl eq_refl
              ltac:(vm_compute; reflexivity) Hmax ltac:(vm_compute; reflexivity)
              ltac:(vm_compute; reflexivity) some_run_ok) as (Ha & b & Hb & Hs & _).
  split; [etrans; [exact Ha | vm_compute; reflexivity]|]. exists b. split; [exact Hb|].
  etrans; [exact Hs | vm_compute; reflexivity].
Defined.

(** The provider has room and the model's budget is spent. *)
Definition poor_model : UnifiedBudgetLimits :=
  mkUnified (set_limit "openai" ten_dollars 0 (limit_manager_new ScopeProvider))
    (set_limit "gpt-4" (limit_config_new (f64_of_Z 1) Daily) 0 (limit_manager_new ScopeModel)).

Definition some_unified_env : UnifiedEnv := mkUnifiedEnv some_env some_env some_env some_env some_env.

Lemma unified_reserve_atomic_witness :
  exists u' st',
  unified_reserve "openai" "gpt-4" (as_f64 (4 * 10 ^ 9)) 1 some_unified_env poor_model ∅
  = (u', st', inl ModelBudgetExceeded) /\
  same_spend "openai" (ul_providers poor_model) (ul_providers u').
Proof.
  destruct (unified_reserve "openai" "gpt-4" (as_f64 (4 * 10 ^ 9)) 1 some_unified_env poor_model ∅)
    as [[u' st'] r] eqn:E.
  assert (Hr : r = inl ModelBudgetExceeded) by (apply (f_equal snd) in E; cbn [snd] in E; rewrite <- E; vm_compute; reflexivity).
  subst r. exists u', st'. split; [reflexivity|].
  assert (Hroom : forall n name m, 0 <= n < 2 ^ 50 ->
            lb_current_spend <$> lm_budgets m !! name = Some f64_zero -> outstanding_of m name = 0 ->
            room_for n name m).
  { intros n name m Hn Hb Ho b Hbb. rewrite Hbb in Hb. exists 0. rewrite Ho.
    split; [cbn in Hb; injection Hb as ->; vm_compute; reflexivity|]. unfold amount_bound. lia. }
  apply (unified_reserve_atomic "openai" "gpt-4" (4 * 10 ^ 9) 1 some_unified_env poor_model ∅ u' st'
           ModelBudgetExceeded); [reflexivity|reflexivity|unfold amount_bound; lia| | |exact E].
  - apply Hroom; [lia|vm_compute; reflexivity|vm_compute; reflexivity].
  - apply Hroom; [lia|vm_compute; reflexivity|vm_compute; reflexivity].
Defined.

(** Both scopes shared, the provider's backend down. *)
Definition shared_limits : UnifiedBudgetLimits :=
  mkUnified (with_redis false (limit_manager_new ScopeProvider))
    (with_redis false (limit_manager_new ScopeModel)).

Definition provider_down : UnifiedEnv :=
  let down := mkEnv (mkBudgetCall false (Some (GUnavailable "down")) false None) 1000 "" in
  let up := mkEnv call_ok 1000 "" in
  mkUnifiedEnv down up down up down.

Definition shared_reservation : UnifiedBudgetReservation :=
  let r name id := mkReservation name (10 ^ 9) None true false (Some id) 0 in
  mkUnifiedReservation (r "openai" "p1") (r "gpt-4" "m1").

Lemma settle_reaches_model_witness :
  let key := budget_lease_key "model" "gpt-4" in
  let st := <[key := mkBudgetHash 0 (10 ^ 9) 0 {["m1" := Some (mkBudgetLease (10 ^ 9) 600000 0)]} ∅ ∅]> ∅ in
  (unified_settle shared_reservation (as_f64 (10 ^ 8)) 5 provider_down shared_limits st).1.2 !! key
  = Some (mkBudgetHash (10 ^ 8) 0 0 ∅ ∅ ∅).
Proof.
  intros key st.
  assert (Hs := settle_reaches_model shared_reservation (10 ^ 8) 5 provider_down shared_limits st "m1"
    BUDGET_LEASE_TTL_MS (10 ^ 9) 0 ltac:(unfold amount_bound; lia) ltac:(vm_compute; reflexivity)
    eq_refl eq_refl eq_refl eq_refl eq_refl eq_refl ltac:(unfold i64_max; lia) eq_refl).
  etrans; [exact Hs|]. vm_compute. reflexivity.
Defined.
