(* ===== verification/BudgetTracker.v ===== *)
(** Budgets of users, teams and keys ([core/budget/types.rs], [tracker.rs]): one
    budget per scope, with the alerts it has raised, and the reservations of
    spend.

    A [Budget] is the limit of [BudgetLimits] with an identity, a scope and
    metadata: its methods are the same code.  An operation on one key is one step,
    as the map's guard makes it. *)

From Stdlib Require Import Ascii Floats.SpecFloat.
From S2P Require Import Prelude Float64 GatewayErrors BudgetAmounts BudgetBackend BudgetLimits BudgetReservations.

#[local] Open Scope rust_scope.

(** * Scopes *)

Inductive BudgetScope :=
| User (id : string)
| Team (id : string)
| ApiKey (id : string)
| Provider (id : string)
| Model (id : string)
| Global.

Definition scope_to_key (s : BudgetScope) : string :=
  match s with
  | User id => "user:" +:+ id
  | Team id => "team:" +:+ id
  | ApiKey id => "api_key:" +:+ id
  | Provider id => "provider:" +:+ id
  | Model id => "model:" +:+ id
  | Global => "global"
  end.

(** [splitn(2, ':')], when it has two parts. *)
Fixpoint split_colon (s : string) : option (string * string) :=
  match s with
  | EmptyString => None
  | String c s =>
      if Ascii.eqb c ":"%char then Some (EmptyString, s)
      else '(a, b) ← split_colon s; Some (String c a, b)
  end.

Definition scope_from_key (key : string) : option BudgetScope :=
  if String.eqb key "global" then Some Global
  else
    '(kind, id) ← split_colon key;
    if String.eqb kind "user" then Some (User id)
    else if String.eqb kind "team" then Some (Team id)
    else if String.eqb kind "api_key" then Some (ApiKey id)
    else if String.eqb kind "provider" then Some (Provider id)
    else if String.eqb kind "model" then Some (Model id)
    else None.

(** * Budgets *)

Record Budget := mkBudget {
  bg_id : string;
  bg_scope : BudgetScope;
  bg_metadata : gmap string string;
  bg_limit : LimitBudget;      (* the other fields, and the methods *)
}.

Definition budget_new (id name : string) (scope : BudgetScope) (max_budget : spec_float) (now : Z) : Budget :=
  mkBudget id scope ∅ (limit_new name max_budget now).

Definition on_limit (f : LimitBudget -> LimitBudget) (b : Budget) : Budget :=
  mkBudget (bg_id b) (bg_scope b) (bg_metadata b) (f (bg_limit b)).

Definition budget_status (b : Budget) : BudgetStatus := limit_status (bg_limit b).
Definition budget_current (b : Budget) : spec_float := lb_current_spend (bg_limit b).
Definition budget_record_spend (amount : spec_float) (now : Z) (b : Budget) : Budget :=
  on_limit (limit_record_spend amount now) b.
Definition budget_reset (now : Z) (b : Budget) : Budget := on_limit (limit_reset now) b.

Record BudgetCheckResult := mkCheck {
  bc_allowed : bool;
  bc_status : BudgetStatus;
  bc_current_spend : spec_float;
  bc_max_budget : spec_float;
  bc_remaining : spec_float;
  bc_usage_percentage : spec_float;
  bc_budget_id : string;
  bc_scope : BudgetScope;
}.

Definition from_budget (b : Budget) (request_amount : spec_float) : BudgetCheckResult :=
  mkCheck (limit_can_spend (bg_limit b) request_amount) (budget_status b) (budget_current b)
    (lb_max_budget (bg_limit b)) (limit_remaining (bg_limit b)) (limit_usage_percentage (bg_limit b))
    (bg_id b) (bg_scope b).

Definition f64_infinity : spec_float := S754_infinity false.

Definition no_budget : BudgetCheckResult :=
  mkCheck true StatusOk f64_zero f64_infinity f64_infinity f64_zero "" Global.

(** * The tracker *)

Record AlertState := mkAlerts { soft_limit_alerted : bool; exceeded_alerted : bool }.

Definition no_alerts : AlertState := mkAlerts false false.

Record BudgetTracker := mkTracker {
  bt_budgets : gmap string Budget;
  bt_alert_states : gmap string AlertState;
}.

Definition tracker_new : BudgetTracker := mkTracker ∅ ∅.

Definition put_budget (key : string) (b : Budget) (t : BudgetTracker) : BudgetTracker :=
  mkTracker (<[key := b]> (bt_budgets t)) (bt_alert_states t).

Definition register_budget (b : Budget) (t : BudgetTracker) : BudgetTracker :=
  let key := scope_to_key (bg_scope b) in
  mkTracker (<[key := b]> (bt_budgets t)) (<[key := no_alerts]> (bt_alert_states t)).

Definition try_register_budget (b : Budget) (t : BudgetTracker) : BudgetTracker * bool :=
  match bt_budgets t !! scope_to_key (bg_scope b) with
  | Some _ => (t, false)
  | None => (register_budget b t, true)
  end.

Definition unregister_budget (scope : BudgetScope) (t : BudgetTracker) : BudgetTracker :=
  let key := scope_to_key scope in
  mkTracker (delete key (bt_budgets t)) (delete key (bt_alert_states t)).

Definition has_soft_limit_alert (key : string) (t : BudgetTracker) : bool :=
  default false (soft_limit_alerted <$> bt_alert_states t !! key).

Definition has_exceeded_alert (key : string) (t : BudgetTracker) : bool :=
  default false (exceeded_alerted <$> bt_alert_states t !! key).

Definition mark_soft_limit_alerted (key : string) (t : BudgetTracker) : BudgetTracker :=
  mkTracker (bt_budgets t)
    (alter (fun s => mkAlerts true (exceeded_alerted s)) key (bt_alert_states t)).

Definition mark_exceeded_alerted (key : string) (t : BudgetTracker) : BudgetTracker :=
  mkTracker (bt_budgets t)
    (alter (fun s => mkAlerts (soft_limit_alerted s) true) key (bt_alert_states t)).

Record SpendResult := mkSpendResult {
  sr_budget_id : string;
  sr_scope : BudgetScope;
  sr_previous_status : BudgetStatus;
  sr_new_status : BudgetStatus;
  sr_current_spend : spec_float;
  sr_max_budget : spec_float;
  sr_remaining : spec_float;
  should_alert_soft_limit : bool;
  should_alert_exceeded : bool;
}.

Definition should_alert (r : SpendResult) : bool := should_alert_soft_limit r || should_alert_exceeded r.
Definition status_changed (r : SpendResult) : bool :=
  negb (bool_decide (sr_previous_status r = sr_new_status r)).

(** The alerts of [record_spend] and [settle_reserved], and their result; [b] is
    the budget after the spend. *)
Definition raise_alerts (key : string) (b : Budget) (previous_status : BudgetStatus) (t : BudgetTracker)
    : BudgetTracker * SpendResult :=
  let new_status := budget_status b in
  let soft := bool_decide (new_status = StatusWarning) && bool_decide (previous_status = StatusOk)
              && negb (has_soft_limit_alert key t) in
  let exceeded := bool_decide (new_status = StatusExceeded) && negb (bool_decide (previous_status = StatusExceeded))
                  && negb (has_exceeded_alert key t) in
  let t := if soft then mark_soft_limit_alerted key t else t in
  let t := if exceeded then mark_exceeded_alerted key t else t in
  (t, mkSpendResult (bg_id b) (bg_scope b) previous_status new_status (budget_current b)
        (lb_max_budget (bg_limit b)) (limit_remaining (bg_limit b)) soft exceeded).

Definition tracker_record_spend (scope : BudgetScope) (amount : spec_float) (now : Z) (t : BudgetTracker)
    : BudgetTracker * option SpendResult :=
  match from_f64 amount with
  | inl _ => (t, None)
  | inr _ =>
      let key := scope_to_key scope in
      match bt_budgets t !! key with
      | None => (t, None)
      | Some b =>
          let previous_status := budget_status b in
          let b := budget_record_spend amount now b in
          let '(t, r) := raise_alerts key b previous_status (put_budget key b t) in
          (t, Some r)
      end
  end.

(** ** Checks *)

Definition tracker_check_spend (scope : BudgetScope) (amount : spec_float) (t : BudgetTracker) : BudgetCheckResult :=
  match bt_budgets t !! scope_to_key scope with
  | Some b => from_budget b amount
  | None => no_budget
  end.

Definition tracker_check_budget (scope : BudgetScope) (t : BudgetTracker) : BudgetCheckResult :=
  tracker_check_spend scope f64_zero t.

Definition get_remaining (scope : BudgetScope) (t : BudgetTracker) : spec_float :=
  match bt_budgets t !! scope_to_key scope with
  | Some b => limit_remaining (bg_limit b)
  | None => f64_infinity
  end.

Definition get_current_spend (scope : BudgetScope) (t : BudgetTracker) : spec_float :=
  match bt_budgets t !! scope_to_key scope with Some b => budget_current b | None => f64_zero end.

Definition get_budget (scope : BudgetScope) (t : BudgetTracker) : option Budget :=
  bt_budgets t !! scope_to_key scope.

Definition get_all_budgets (t : BudgetTracker) : list Budget := (map_to_list (bt_budgets t)).*2.

Definition budget_count (t : BudgetTracker) : Z := Z.of_nat (size (bt_budgets t)).
Definition has_budget (scope : BudgetScope) (t : BudgetTracker) : bool :=
  bool_decide (is_Some (bt_budgets t !! scope_to_key scope)).

Definition get_warning_budgets (t : BudgetTracker) : list Budget :=
  filter (fun b => budget_status b = StatusWarning) (get_all_budgets t).
Definition get_exceeded_budgets (t : BudgetTracker) : list Budget :=
  filter (fun b => budget_status b = StatusExceeded) (get_all_budgets t).

Definition get_budgets_by_type (scope_type : string) (t : BudgetTracker) : list Budget :=
  (filter (fun kb : string * Budget =>
     String.prefix (scope_type +:+ ":") kb.1
     || (String.eqb scope_type "global" && String.eqb kb.1 "global")) (map_to_list (bt_budgets t))).*2.

(** [update_fn] is the caller's closure. *)
Definition tracker_update_budget (scope : BudgetScope) (update_fn : Budget -> Budget) (now : Z) (t : BudgetTracker)
    : BudgetTracker * bool :=
  let key := scope_to_key scope in
  match bt_budgets t !! key with
  | Some b =>
      let b := update_fn b in
      (put_budget key (on_limit (fun l => set_spend (lb_current_spend l) now l) b) t, true)
  | None => (t, false)
  end.

(** ** Resets *)

(** [budget.reset()] and the reset of its alert state. *)
Definition reset_one (key alerts_key : string) (b : Budget) (now : Z) (t : BudgetTracker) : BudgetTracker :=
  let t := put_budget key (budget_reset now b) t in
  mkTracker (bt_budgets t) (alter (fun _ => no_alerts) alerts_key (bt_alert_states t)).

Definition tracker_reset_budget (scope : BudgetScope) (now : Z) (t : BudgetTracker) : BudgetTracker * bool :=
  let key := scope_to_key scope in
  match bt_budgets t !! key with
  | Some b => (reset_one key key b now t, true)
  | None => (t, false)
  end.

(** One entry of [reset_budgets]; a pass reads the clock once. *)
Definition reset_due `{Calendar} (now : Z) (key : string) (t : BudgetTracker) : BudgetTracker * option string :=
  match bt_budgets t !! key with
  | Some b =>
      if limit_should_reset now (bg_limit b)
      then (reset_one key (scope_to_key (bg_scope b)) b now t, Some (bg_id b))
      else (t, None)
  | None => (t, None)
  end.

Fixpoint reset_each `{Calendar} (now : Z) (keys : list string) (t : BudgetTracker) : BudgetTracker * list string :=
  match keys with
  | [] => (t, [])
  | key :: keys =>
      let '(t, id) := reset_due now key t in
      let '(t, ids) := reset_each now keys t in
      (t, option_list id ++ ids)
  end.

Definition reset_budgets `{Calendar} (now : Z) (t : BudgetTracker) : BudgetTracker * list string :=
  reset_each now (map_to_list (bt_budgets t)).*1 t.

(** * Reservations *)

(** The tracker it holds is the one the operations are given. *)
Record BudgetReservation := mkBudgetReservation {
  br_scope : BudgetScope;
  br_key : option string;
  br_reserved : BudgetAmount;
  br_reset_at : option Z;
  br_previous_status : BudgetStatus;
  br_settled : bool;
}.

Definition untracked_reservation (scope : BudgetScope) (reserved : BudgetAmount) : BudgetReservation :=
  mkBudgetReservation scope None reserved None StatusOk false.

Definition is_tracked (r : BudgetReservation) : bool := bool_decide (is_Some (br_key r)).
Definition reserved_amount (r : BudgetReservation) : spec_float := as_f64 (br_reserved r).

Definition tracker_reserve_spend (scope : BudgetScope) (max_amount : spec_float) (now : Z) (t : BudgetTracker)
    : BudgetTracker * (BudgetReservationError + BudgetReservation) :=
  match invalid (from_f64 max_amount) with
  | inl e => (t, inl e)
  | inr reserved =>
      let key := scope_to_key scope in
      match bt_budgets t !! key with
      | None => (t, inr (untracked_reservation scope reserved))
      | Some b =>
          let l := bg_limit b in
          let reservation reserved :=
            mkBudgetReservation scope (Some key) reserved (lb_last_reset_at l) (budget_status b) false in
          if negb (lb_enabled l) then (t, inr (reservation 0))
          else
            match invalid (budget_can_spend (lb_current_spend l) (lb_max_budget l) (lb_enabled l) max_amount) with
            | inl e => (t, inl e)
            | inr false => (t, inl BudgetExceeded)
            | inr true =>
                match invalid (add_budget_spend (lb_current_spend l) max_amount) with
                | inl e => (t, inl e)
                | inr spend => (put_budget key (on_limit (set_spend (as_f64 spend) now) b) t, inr (reservation reserved))
                end
            end
      end
  end.

Definition release_reserved (key : string) (reserved : BudgetAmount) (reset_at : option Z) (now : Z)
    (t : BudgetTracker) : BudgetTracker :=
  match bt_budgets t !! key with
  | Some b =>
      match release_budget_spend (budget_current b) reserved (same_epoch (bg_limit b) reset_at) with
      | inr spend => put_budget key (on_limit (set_spend (as_f64 spend) now) b) t
      | inl _ => t
      end
  | None => t
  end.

Definition settle_reserved (key : string) (reserved actual : BudgetAmount) (reset_at : option Z)
    (reservation_previous_status : BudgetStatus) (now : Z) (t : BudgetTracker)
    : BudgetTracker * (BudgetReservationError + option SpendResult) :=
  match bt_budgets t !! key with
  | None => (t, inr None)
  | Some b =>
      let same := same_epoch (bg_limit b) reset_at in
      let previous_status := if same then reservation_previous_status else budget_status b in
      match invalid (settle_budget_spend (budget_current b) reserved actual same) with
      | inl e => (t, inl e)
      | inr spend =>
          let b := on_limit (set_spend (as_f64 spend) now) b in
          let '(t, r) := raise_alerts key b previous_status (put_budget key b t) in
          (t, inr (Some r))
      end
  end.

Definition tracker_drop (r : BudgetReservation) (now : Z) (t : BudgetTracker) : BudgetTracker :=
  match br_settled r, br_key r with
  | false, Some key => release_reserved key (br_reserved r) (br_reset_at r) now t
  | _, _ => t
  end.

(** Where the code returns early, the reservation is dropped. *)
Definition tracker_settle (r : BudgetReservation) (actual_amount : spec_float) (now : Z) (t : BudgetTracker)
    : BudgetTracker * (BudgetReservationError + option SpendResult) :=
  match invalid (from_f64 actual_amount) with
  | inl e => (tracker_drop r now t, inl e)
  | inr actual =>
      match br_key r with
      | None => (t, inr None)
      | Some key =>
          let '(t, result) :=
            settle_reserved key (br_reserved r) actual (br_reset_at r) (br_previous_status r) now t in
          match result with
          | inl e => (tracker_drop r now t, inl e)
          | inr result => (t, inr result)
          end
      end
  end.

Definition tracker_cancel (r : BudgetReservation) (now : Z) (t : BudgetTracker) : BudgetTracker :=
  match br_key r with
  | Some key => release_reserved key (br_reserved r) (br_reset_at r) now t
  | None => t
  end.

(** * Keys of scopes *)

(** The budgets of different scopes are kept apart, and a key read back is the
    scope it was written for. *)
Lemma scope_roundtrip (s : BudgetScope) : scope_from_key (scope_to_key s) = Some s.
Proof. destruct s; done. Qed.

Lemma scope_to_key_inj (s s' : BudgetScope) : scope_to_key s = scope_to_key s' -> s = s'.
Proof. intros He. pose proof (scope_roundtrip s) as Hs. rewrite He, scope_roundtrip in Hs. congruence. Qed.
