(* ===== verification/BudgetManager.v ===== *)
(** The manager of the budgets of users, teams and keys
    ([core/budget/manager.rs]): validation in front of the tracker, and the
    alerts that have been raised, over runs. *)

From Stdlib Require Import Floats.SpecFloat.
From S2P Require Import Prelude Text Float64 GatewayErrors BudgetAmounts BudgetBackend BudgetLimits BudgetReservations BudgetTracker.

Record BudgetConfig := mkBudgetConfig {
  cf_name : string;
  cf_max_budget : spec_float;
  cf_soft_limit : option spec_float;
  cf_reset_period : option ResetPeriod;
  cf_currency : option Currency;
  cf_enabled : option bool;
  cf_metadata : option (gmap string string);
}.

Definition budget_config_new (name : string) (max_budget : spec_float) : BudgetConfig :=
  mkBudgetConfig name max_budget None None None None None.

Record BudgetManagerConfig := mkManagerConfig {
  mc_enabled : bool;
  mc_default_soft_limit_percentage : spec_float;
  mc_block_on_exceeded : bool;
  mc_auto_reset_enabled : bool;
  mc_reset_check_interval_secs : Z;
}.

Definition BudgetManagerConfig_default : BudgetManagerConfig :=
  mkManagerConfig true soft_fraction true true 60.

Record BudgetManager := mkManager { bm_tracker : BudgetTracker; bm_config : BudgetManagerConfig }.

Definition manager_new : BudgetManager := mkManager tracker_new BudgetManagerConfig_default.

Definition with_tracker (t : BudgetTracker) : BudgetManager := mkManager t BudgetManagerConfig_default.

Definition put_tracker (t : BudgetTracker) (m : BudgetManager) : BudgetManager := mkManager t (bm_config m).

(** The checks of [create_budget] and [update_budget]. *)
Definition config_error (config : BudgetConfig) : option GatewayError :=
  if negb (f64_is_finite (cf_max_budget config)) || SFleb (cf_max_budget config) f64_zero
  then Some (GValidation "max_budget must be finite and greater than 0")
  else
    match cf_soft_limit config with
    | Some soft_limit =>
        if negb (f64_is_finite soft_limit) || SFltb soft_limit f64_zero
        then Some (GValidation "soft_limit must be finite and non-negative")
        else None
    | None => None
    end.

Definition soft_limit_of (config : BudgetConfig) (m : BudgetManager) : spec_float :=
  default (f64_mul (cf_max_budget config) (mc_default_soft_limit_percentage (bm_config m)))
    (cf_soft_limit config).

(** The assignments [create_budget] and the closure of [update_budget] share. *)
Definition configure (name : string) (soft_limit : spec_float) (config : BudgetConfig) (b : Budget) : Budget :=
  let l := bg_limit b in
  mkBudget (bg_id b) (bg_scope b) (default (bg_metadata b) (cf_metadata config))
    (mkLimit name (cf_max_budget config) (lb_current_spend l) soft_limit
       (default (lb_reset_period l) (cf_reset_period config))
       (default (lb_currency l) (cf_currency config))
       (default (lb_enabled l) (cf_enabled config))
       (lb_created_at l) (lb_updated_at l) (lb_last_reset_at l)).

(** [id] is the new identifier. *)
Definition create_budget (scope : BudgetScope) (config : BudgetConfig) (id : string) (now : Z) (m : BudgetManager)
    : BudgetManager * result Budget GatewayError :=
  match config_error config with
  | Some e => (m, Err e)
  | None =>
      if String.eqb (trim (cf_name config)) "" then (m, Err (GValidation "Budget name cannot be empty"))
      else
        let b := configure (cf_name config) (soft_limit_of config m) config
                   (budget_new id (cf_name config) scope (cf_max_budget config) now) in
        let '(t, registered) := try_register_budget b (bm_tracker m) in
        if registered then (put_tracker t m, Ok b)
        else (m, Err (GConflict ("Budget already exists for scope: " +:+ scope_to_key scope)))
  end.

Definition not_found (scope : BudgetScope) : GatewayError :=
  GNotFound ("Budget not found for scope: " +:+ scope_to_key scope).

Definition update_budget (scope : BudgetScope) (config : BudgetConfig) (now : Z) (m : BudgetManager)
    : BudgetManager * result Budget GatewayError :=
  if negb (has_budget scope (bm_tracker m)) then (m, Err (not_found scope))
  else
    match config_error config with
    | Some e => (m, Err e)
    | None =>
        let '(t, updated) :=
          tracker_update_budget scope (configure (cf_name config) (soft_limit_of config m) config) now (bm_tracker m) in
        if updated then
          match get_budget scope t with
          | Some b => (put_tracker t m, Ok b)
          | None => (put_tracker t m, Err (GInternal "Failed to retrieve updated budget"))
          end
        else (put_tracker t m, Err (GInternal "Failed to update budget"))
    end.

Definition delete_budget (scope : BudgetScope) (m : BudgetManager) : BudgetManager * result unit GatewayError :=
  if negb (has_budget scope (bm_tracker m)) then (m, Err (not_found scope))
  else (put_tracker (unregister_budget scope (bm_tracker m)) m, Ok tt).

Definition manager_get_budget (scope : BudgetScope) (m : BudgetManager) : result Budget GatewayError :=
  match get_budget scope (bm_tracker m) with Some b => Ok b | None => Err (not_found scope) end.

Definition get_budget_by_id (id : string) (m : BudgetManager) : option Budget :=
  List.find (fun b => String.eqb (bg_id b) id) (get_all_budgets (bm_tracker m)).

Definition list_budgets_filtered (scope_type : option string) (status : option BudgetStatus) (m : BudgetManager)
    : list Budget :=
  let budgets := match scope_type with
                 | Some t => get_budgets_by_type t (bm_tracker m)
                 | None => get_all_budgets (bm_tracker m)
                 end in
  match status with
  | Some s => filter (fun b => budget_status b = s) budgets
  | None => budgets
  end.

Definition manager_record_spend (scope : BudgetScope) (amount : spec_float) (now : Z) (m : BudgetManager)
    : BudgetManager * option SpendResult :=
  if SFleb amount f64_zero then (m, None)
  else
    let '(t, r) := tracker_record_spend scope amount now (bm_tracker m) in (put_tracker t m, r).

Definition manager_check_spend (scope : BudgetScope) (amount : spec_float) (m : BudgetManager) : BudgetCheckResult :=
  if negb (mc_enabled (bm_config m)) then no_budget
  else
    let result := tracker_check_spend scope amount (bm_tracker m) in
    if negb (mc_block_on_exceeded (bm_config m)) && negb (bc_allowed result)
    then mkCheck true (bc_status result) (bc_current_spend result) (bc_max_budget result) (bc_remaining result)
           (bc_usage_percentage result) (bc_budget_id result) (bc_scope result)
    else result.

Definition manager_reset_budget (scope : BudgetScope) (now : Z) (m : BudgetManager)
    : BudgetManager * result unit GatewayError :=
  if negb (has_budget scope (bm_tracker m)) then (m, Err (not_found scope))
  else (put_tracker (tracker_reset_budget scope now (bm_tracker m)).1 m, Ok tt).

Definition run_periodic_reset `{Calendar} (now : Z) (m : BudgetManager) : BudgetManager * list string :=
  let '(t, ids) := reset_budgets now (bm_tracker m) in (put_tracker t m, ids).

(** One turn of the loop of [start_reset_task], after its sleep. *)
Definition reset_task_turn `{Calendar} (now : Z) (m : BudgetManager) : BudgetManager :=
  if mc_auto_reset_enabled (bm_config m) then (run_periodic_reset now m).1 else m.

Definition manager_update_config (config : BudgetManagerConfig) (m : BudgetManager) : BudgetManager :=
  mkManager (bm_tracker m) config.

Definition manager_set_enabled (enabled : bool) (m : BudgetManager) : BudgetManager :=
  let c := bm_config m in
  mkManager (bm_tracker m) (mkManagerConfig enabled (mc_default_soft_limit_percentage c)
    (mc_block_on_exceeded c) (mc_auto_reset_enabled c) (mc_reset_check_interval_secs c)).

Record BudgetSummary := mkSummary {
  bs_total_budgets : Z;
  bs_total_allocated : spec_float;
  bs_total_spent : spec_float;
  bs_total_remaining : spec_float;
  bs_ok_count : Z;
  bs_warning_count : Z;
  bs_exceeded_count : Z;
}.

Definition count_status (status : BudgetStatus) (budgets : list Budget) : Z :=
  Z.of_nat (length (filter (fun b => budget_status b = status) budgets)).

Definition get_summary (m : BudgetManager) : BudgetSummary :=
  let budgets := get_all_budgets (bm_tracker m) in
  let allocated := foldl (fun acc b => f64_add acc (lb_max_budget (bg_limit b))) f64_zero budgets in
  let spent := foldl (fun acc b => f64_add acc (budget_current b)) f64_zero budgets in
  let left := f64_sub allocated spent in
  mkSummary (Z.of_nat (length budgets)) allocated spent
    (if SFltb f64_zero left then left else f64_zero)
    (count_status StatusOk budgets) (count_status StatusWarning budgets) (count_status StatusExceeded budgets).
