(* ===== verification/BudgetAlerts.v ===== *)
(** The alerts of budgets ([core/budget/types.rs], [core/budget/alerts.rs]): which
    alerts a spend creates, where they are kept and which webhooks are told.  The
    HTTP client is the outcome of each request. *)

From Stdlib Require Import Floats.SpecFloat.
From S2P Require Import Prelude Float64 GatewayErrors BudgetAmounts BudgetBackend BudgetLimits BudgetReservations BudgetTracker.

Inductive AlertSeverity := AlertInfo | AlertWarning | AlertCritical.

Inductive BudgetAlertType := SoftLimitReached | AlertBudgetExceeded | BudgetReset | ApproachingLimit.

#[global] Instance AlertSeverity_dec : EqDecision AlertSeverity.
Proof. solve_decision. Defined.

(** [format!] of a number with so many decimals. *)
Class FixedFormat := { f64_fixed : nat -> spec_float -> string }.

Record BudgetAlert := mkAlert {
  al_id : string;
  al_budget_id : string;
  al_scope : BudgetScope;
  al_type : BudgetAlertType;
  al_severity : AlertSeverity;
  al_message : string;
  al_current_spend : spec_float;
  al_threshold : spec_float;
  al_max_budget : spec_float;
  al_created_at : Z;
  al_acknowledged : bool;
  al_acknowledged_at : option Z;
}.

Definition severity_of (t : BudgetAlertType) : AlertSeverity :=
  match t with
  | SoftLimitReached | ApproachingLimit => AlertWarning
  | AlertBudgetExceeded => AlertCritical
  | BudgetReset => AlertInfo
  end.

Section Alert.
Context `{FixedFormat}.

Definition alert_message (t : BudgetAlertType) (b : Budget) : string :=
  let l := bg_limit b in
  let name := "Budget '" +:+ lb_name l +:+ "' " in
  let amounts := ": $" +:+ f64_fixed 2 (lb_current_spend l) +:+ " of $" +:+ f64_fixed 2 (lb_max_budget l)
                 +:+ " (" +:+ f64_fixed 1 (limit_usage_percentage l) +:+ "%)" in
  match t with
  | SoftLimitReached => name +:+ "has reached soft limit" +:+ amounts
  | AlertBudgetExceeded => name +:+ "has been exceeded" +:+ amounts
  | BudgetReset => name +:+ "has been reset"
  | ApproachingLimit => name +:+ "is approaching limit" +:+ amounts
  end.

(** [id] is the new identifier. *)
Definition alert_new (b : Budget) (t : BudgetAlertType) (threshold : spec_float) (id : string) (now : Z) : BudgetAlert :=
  mkAlert id (bg_id b) (bg_scope b) t (severity_of t) (alert_message t b) (budget_current b) threshold
    (lb_max_budget (bg_limit b)) now false None.
End Alert.

Definition acknowledge (now : Z) (a : BudgetAlert) : BudgetAlert :=
  mkAlert (al_id a) (al_budget_id a) (al_scope a) (al_type a) (al_severity a) (al_message a) (al_current_spend a)
    (al_threshold a) (al_max_budget a) (al_created_at a) true (Some now).

(** * Where alerts are kept *)

Record AlertStorage := mkStorage {
  st_alerts : gmap string BudgetAlert;
  st_by_budget : gmap string (list string);
  st_history : list BudgetAlert;
  st_max_history_size : nat;
}.

Definition storage_new (max_history_size : nat) : AlertStorage := mkStorage ∅ ∅ [] max_history_size.

Definition trim_history (size : nat) (history : list BudgetAlert) : list BudgetAlert :=
  drop (length history - size) history.

Definition add_alert (a : BudgetAlert) (s : AlertStorage) : AlertStorage :=
  mkStorage (<[al_id a := a]> (st_alerts s))
    (partial_alter (fun ids => Some (default [] ids ++ [al_id a])) (al_budget_id a) (st_by_budget s))
    (trim_history (st_max_history_size s) (st_history s ++ [a])) (st_max_history_size s).

Definition get_alerts_for_budget (budget_id : string) (s : AlertStorage) : list BudgetAlert :=
  omap (fun id => st_alerts s !! id) (default [] (st_by_budget s !! budget_id)).

Definition get_unacknowledged_alerts (s : AlertStorage) : list BudgetAlert :=
  filter (fun a => al_acknowledged a = false) (map_to_list (st_alerts s)).*2.

Definition get_alerts_by_severity (severity : AlertSeverity) (s : AlertStorage) : list BudgetAlert :=
  filter (fun a => al_severity a = severity) (map_to_list (st_alerts s)).*2.

Definition put_alerts (alerts : gmap string BudgetAlert) (s : AlertStorage) : AlertStorage :=
  mkStorage alerts (st_by_budget s) (st_history s) (st_max_history_size s).

Definition acknowledge_alert (id : string) (now : Z) (s : AlertStorage) : AlertStorage * bool :=
  match st_alerts s !! id with
  | Some a => (put_alerts (<[id := acknowledge now a]> (st_alerts s)) s, true)
  | None => (s, false)
  end.

(** The loop of [acknowledge_alerts_for_budget]. *)
Fixpoint acknowledge_each (ids : list string) (now : Z) (s : AlertStorage) : AlertStorage * Z :=
  match ids with
  | [] => (s, 0)
  | id :: ids =>
      match st_alerts s !! id with
      | Some a =>
          if al_acknowledged a then acknowledge_each ids now s
          else
            let s := put_alerts (<[id := acknowledge now a]> (st_alerts s)) s in
            let '(s, count) := acknowledge_each ids now s in (s, count + 1)
      | None => acknowledge_each ids now s
      end
  end.

Definition acknowledge_alerts_for_budget (budget_id : string) (now : Z) (s : AlertStorage) : AlertStorage * Z :=
  acknowledge_each (default [] (st_by_budget s !! budget_id)) now s.

Definition get_alert_history (limit : option nat) (s : AlertStorage) : list BudgetAlert :=
  take (default (length (st_history s)) limit) (rev (st_history s)).

Definition clear_alerts (s : AlertStorage) : AlertStorage :=
  mkStorage ∅ ∅ (st_history s) (st_max_history_size s).

Definition clear_acknowledged_alerts (s : AlertStorage) : AlertStorage * Z :=
  let remaining := filter (fun ia => al_acknowledged ia.2 = false) (st_alerts s) in
  (mkStorage remaining (filter (fun id => is_Some (remaining !! id)) <$> st_by_budget s)
     (st_history s) (st_max_history_size s),
   Z.of_nat (size (st_alerts s)) - Z.of_nat (size remaining)).

Record AlertStats := mkStats {
  total_alerts : Z; unacknowledged : Z; info_count : Z; warning_count : Z; critical_count : Z;
  soft_limit_alerts : Z; exceeded_alerts : Z; reset_alerts : Z; approaching_limit_alerts : Z;
}.

Definition count_alert (a : BudgetAlert) (s : AlertStats) : AlertStats :=
  let one (b : bool) (n : Z) := if b then n + 1 else n in
  let sev := al_severity a in
  mkStats (total_alerts s + 1) (one (negb (al_acknowledged a)) (unacknowledged s))
    (one (bool_decide (sev = AlertInfo)) (info_count s))
    (one (bool_decide (sev = AlertWarning)) (warning_count s))
    (one (bool_decide (sev = AlertCritical)) (critical_count s))
    (match al_type a with SoftLimitReached => soft_limit_alerts s + 1 | _ => soft_limit_alerts s end)
    (match al_type a with AlertBudgetExceeded => exceeded_alerts s + 1 | _ => exceeded_alerts s end)
    (match al_type a with BudgetReset => reset_alerts s + 1 | _ => reset_alerts s end)
    (match al_type a with ApproachingLimit => approaching_limit_alerts s + 1 | _ => approaching_limit_alerts s end).

Definition get_alert_stats (s : AlertStorage) : AlertStats :=
  foldr count_alert (mkStats 0 0 0 0 0 0 0 0 0) (map_to_list (st_alerts s)).*2.

(** * Webhooks *)

Record WebhookConfig := mkWebhook {
  wh_url : string;
  wh_headers : gmap string string;
  wh_severities : list AlertSeverity;
  wh_enabled : bool;
  wh_timeout_secs : Z;
  wh_max_retries : Z;
}.

Definition WebhookConfig_default : WebhookConfig := mkWebhook "" ∅ [AlertWarning; AlertCritical] true 30 3.

(** The webhooks an alert is sent to, in order. *)
Definition send_webhook_notifications (webhooks : list WebhookConfig) (a : BudgetAlert) : list WebhookConfig :=
  filter (fun w => wh_enabled w = true /\ al_severity a ∈ wh_severities w) webhooks.

(** What becomes of one attempt: the policy rejects the request before it is
    sent, it is answered with success, or it fails. *)
Inductive webhook_outcome := Rejected | Delivered | Undelivered.

(** [send_single_webhook] after [retries] attempts: the delays, in milliseconds,
    before each later attempt, and whether it was delivered.  [None] when
    [outcome] is not known for long enough. *)
Fixpoint send_single_webhook (max_retries retries : Z) (outcomes : list webhook_outcome)
    : option (list Z * bool) :=
  match outcomes with
  | [] => None
  | Rejected :: _ => Some ([], false)
  | Delivered :: _ => Some ([], true)
  | Undelivered :: outcomes =>
      let retries := retries + 1 in
      if max_retries <=? retries then Some ([], false)
      else
        '(delays, delivered) ← send_single_webhook max_retries retries outcomes;
        Some (wrap_u64 (100 * wrap_u64 (2 ^ retries)) :: delays, delivered)
  end.

(** * The manager *)

Record AlertConfig := mkAlertConfig {
  ac_enabled : bool;
  ac_soft_limit_percentage : spec_float;
  ac_warning_thresholds : list spec_float;
  ac_max_history_size : nat;
  ac_duplicate_suppression_secs : Z;
}.

Definition percent (n : Z) : spec_float := f64_div (f64_of_Z n) (f64_of_Z 100).

Definition AlertConfig_default : AlertConfig :=
  mkAlertConfig true soft_fraction [percent 90; percent 95] 1000 3600.

Record BudgetAlertManager := mkAlertManager {
  am_alerts : AlertStorage;
  am_webhooks : list WebhookConfig;
  am_config : AlertConfig;
}.

Definition alert_manager_new (config : AlertConfig) : BudgetAlertManager :=
  mkAlertManager (storage_new (ac_max_history_size config)) [] config.

Definition clear_webhooks (m : BudgetAlertManager) : BudgetAlertManager :=
  mkAlertManager (am_alerts m) [] (am_config m).

Definition alert_update_config (config : AlertConfig) (m : BudgetAlertManager) : BudgetAlertManager :=
  mkAlertManager (am_alerts m) (am_webhooks m) config.

Definition alert_set_enabled (enabled : bool) (m : BudgetAlertManager) : BudgetAlertManager :=
  let c := am_config m in
  alert_update_config (mkAlertConfig enabled (ac_soft_limit_percentage c) (ac_warning_thresholds c)
    (ac_max_history_size c) (ac_duplicate_suppression_secs c)) m.

Section Manager.
Context `{FixedFormat}.

(** The manager, and the webhooks told of the alert. *)
Definition create_alert (b : Budget) (t : BudgetAlertType) (threshold : spec_float) (id : string) (now : Z)
    (m : BudgetAlertManager) : BudgetAlertManager * list WebhookConfig :=
  let a := alert_new b t threshold id now in
  (mkAlertManager (add_alert a (am_alerts m)) (am_webhooks m) (am_config m),
   send_webhook_notifications (am_webhooks m) a).

(** The loop over the additional thresholds: the first one that was just crossed,
    as the code tells. *)
Fixpoint crossed_threshold (r : SpendResult) (b : Budget) (thresholds : list spec_float) : option spec_float :=
  match thresholds with
  | [] => None
  | threshold_pct :: thresholds =>
      let threshold := f64_mul (lb_max_budget (bg_limit b)) threshold_pct in
      if SFleb threshold (sr_current_spend r)
         && SFltb (f64_sub (sr_current_spend r) (f64_sub (sr_max_budget r) (sr_remaining r))) threshold
      then Some threshold
      else crossed_threshold r b thresholds
  end.

(** [ids] are the new identifiers. *)
Definition process_spend_result (r : SpendResult) (b : Budget) (ids : nat -> string) (now : Z)
    (m : BudgetAlertManager) : BudgetAlertManager * list WebhookConfig :=
  if negb (ac_enabled (am_config m)) then (m, [])
  else
    let '(m, told) :=
      if should_alert_soft_limit r
      then create_alert b SoftLimitReached (lb_soft_limit (bg_limit b)) (ids 0%nat) now m else (m, []) in
    if should_alert_exceeded r then
      let '(m, told') := create_alert b AlertBudgetExceeded (lb_max_budget (bg_limit b)) (ids 1%nat) now m in
      (m, told ++ told')
    else
      match crossed_threshold r b (ac_warning_thresholds (am_config m)) with
      | Some threshold =>
          let '(m, told') := create_alert b ApproachingLimit threshold (ids 1%nat) now m in (m, told ++ told')
      | None => (m, told)
      end.

Definition create_reset_alert (b : Budget) (id : string) (now : Z) (m : BudgetAlertManager)
    : BudgetAlertManager * list WebhookConfig :=
  if negb (ac_enabled (am_config m)) then (m, []) else create_alert b BudgetReset f64_zero id now m.
End Manager.

(** * Retries *)

(** A webhook is tried at most [max_retries] times, and at least once. *)
Lemma webhook_attempts (max_retries : Z) (outcomes : list webhook_outcome) (retries : Z) :
  Z.max 1 (max_retries - retries) <= Z.of_nat (length outcomes) ->
  exists delays delivered, send_single_webhook max_retries retries outcomes = Some (delays, delivered) /\
    Z.of_nat (length delays) < Z.max 1 (max_retries - retries).
Proof.
  revert retries. induction outcomes as [|o outcomes IH]; intros retries Hlen; cbn [length] in Hlen; [lia|].
  destruct o; cbn; [do 2 eexists; split; [done|cbn; lia]..|].
  destruct (Z.leb_spec max_retries (retries + 1)) as [Hle|Hlt]; [do 2 eexists; split; [done|cbn; lia]|].
  destruct (IH (retries + 1)) as (delays & delivered & -> & Hd); [lia|].
  do 2 eexists. split; [done|]. cbn [length]. lia.
Qed.

(** * Thresholds *)

(** [max_budget - remaining] is the current spend, so that the second comparison
    of [crossed_threshold] holds whatever the previous spend: each later spend
    above nine tenths raises the alert again. *)
Section Repeats.
#[local] Instance no_format : FixedFormat := {| f64_fixed _ _ := "?" |}.

Definition spend_once (amount : Z) (t : BudgetTracker) : BudgetTracker * option BudgetAlertType :=
  let '(t, r) := tracker_record_spend Global (f64_of_Z amount) 0 t in
  match r, get_budget Global t with
  | Some r, Some b =>
      let '(m, _) := process_spend_result r b (fun n => String.String (Ascii.ascii_of_nat n) "") 0
                       (alert_manager_new AlertConfig_default) in
      (t, al_type <$> last (st_history (am_alerts m)))
  | _, _ => (t, None)
  end.

Lemma approaching_limit_repeats :
  let t := register_budget (budget_new "b" "b" Global (f64_of_Z 100) 0) tracker_new in
  let '(t, first) := spend_once 91 t in
  let '(t, second) := spend_once 1 t in
  let '(t, third) := spend_once 4 t in
  first = Some ApproachingLimit /\ second = Some ApproachingLimit /\ third = Some ApproachingLimit.
Proof. by vm_compute. Qed.
End Repeats.
