(* ===== verification/BudgetAlerting.v ===== *)
(** The alerts of the budgets over runs of the manager and of reservations: each
    is raised when its threshold is crossed, once until the budget is renewed. *)

From Stdlib Require Import Floats.SpecFloat.
From S2P Require Import Prelude Float64 GatewayErrors BudgetAmounts BudgetBackend BudgetLimits BudgetReservations BudgetTracker BudgetManager.

(** * Runs *)

(** [BRelease] is the cancellation or the drop of a reservation. *)
Inductive budget_op :=
| BCreate (scope : BudgetScope) (config : BudgetConfig) (id : string) (now : Z)
| BUpdate (scope : BudgetScope) (config : BudgetConfig) (now : Z)
| BDelete (scope : BudgetScope)
| BRecord (scope : BudgetScope) (amount : spec_float) (now : Z)
| BReserve (scope : BudgetScope) (amount : spec_float) (now : Z)
| BSettle (r : BudgetReservation) (amount : spec_float) (now : Z)
| BRelease (r : BudgetReservation) (now : Z)
| BReset (scope : BudgetScope) (now : Z)
| BPeriodic (now : Z).

(** What an operation did to the alerts of a key: a spend with its result, or
    the budget was created, deleted or reset. *)
Inductive alert_event :=
| Spent (key : string) (r : SpendResult)
| Renewed (key : string).

Section Runs.
Context `{Calendar}.

(** The keys [reset_each] resets, the latest first. *)
Fixpoint renewed_keys (now : Z) (keys : list string) (t : BudgetTracker) : list alert_event :=
  match keys with
  | [] => []
  | key :: keys =>
      let '(t, id) := reset_due now key t in
      renewed_keys now keys t ++ match id with Some _ => [Renewed key] | None => [] end
  end.

Definition budget_step (o : budget_op) (m : BudgetManager) : BudgetManager * list alert_event :=
  match o with
  | BCreate scope config id now =>
      let '(m, r) := create_budget scope config id now m in
      (m, if is_ok r then [Renewed (scope_to_key scope)] else [])
  | BUpdate scope config now => ((update_budget scope config now m).1, [])
  | BDelete scope =>
      let '(m, r) := delete_budget scope m in (m, if is_ok r then [Renewed (scope_to_key scope)] else [])
  | BRecord scope amount now =>
      let '(m, r) := manager_record_spend scope amount now m in
      (m, match r with Some r => [Spent (scope_to_key scope) r] | None => [] end)
  | BReserve scope amount now =>
      (put_tracker (tracker_reserve_spend scope amount now (bm_tracker m)).1 m, [])
  | BSettle r amount now =>
      let '(t, result) := tracker_settle r amount now (bm_tracker m) in
      (put_tracker t m,
       match br_key r, result with Some key, inr (Some r) => [Spent key r] | _, _ => [] end)
  | BRelease r now => (put_tracker (tracker_cancel r now (bm_tracker m)) m, [])
  | BReset scope now =>
      let '(m, r) := manager_reset_budget scope now m in (m, if is_ok r then [Renewed (scope_to_key scope)] else [])
  | BPeriodic now =>
      ((run_periodic_reset now m).1, renewed_keys now (map_to_list (bt_budgets (bm_tracker m))).*1 (bm_tracker m))
  end.

(** The manager and the events so far, the latest first. *)
Fixpoint budget_run (ops : list budget_op) (m : BudgetManager) (history : list alert_event)
    : BudgetManager * list alert_event :=
  match ops with
  | [] => (m, history)
  | o :: ops => let '(m, events) := budget_step o m in budget_run ops m (events ++ history)
  end.

(** An alert of this kind was raised for the key since the budget was last
    renewed. *)
Fixpoint raised (kind : SpendResult -> bool) (key : string) (history : list alert_event) : bool :=
  match history with
  | [] => false
  | Spent key' r :: history => (bool_decide (key' = key) && kind r) || raised kind key history
  | Renewed key' :: history => if decide (key' = key) then false else raised kind key history
  end.

(** * The invariant *)

Definition key_ok (h : list alert_event) (key : string) (b : option Budget) (s : option AlertState) : Prop :=
  match b, s with
  | Some b, Some s =>
      scope_to_key (bg_scope b) = key /\
      soft_limit_alerted s = raised should_alert_soft_limit key h /\
      exceeded_alerted s = raised should_alert_exceeded key h
  | None, None => True
  | _, _ => False
  end.

Definition alerts_ok (t : BudgetTracker) (h : list alert_event) : Prop :=
  forall key, key_ok h key (bt_budgets t !! key) (bt_alert_states t !! key).

(** Only the events of the key itself matter. *)
Definition about (e : alert_event) : string := match e with Spent key _ | Renewed key => key end.

Lemma key_ok_other h e key b s : about e <> key -> key_ok h key b s -> key_ok (e :: h) key b s.
Proof.
  intros Hne. unfold key_ok. destruct b, s; try done. destruct e as [key' r|key']; cbn [about raised] in *.
  - rewrite (bool_decide_eq_false_2 (key' = key)) by done. intros Hk. exact Hk.
  - destruct (decide (key' = key)); [done|]. intros Hk. exact Hk.
Qed.

Lemma alerts_budget t h key b0 :
  alerts_ok t h -> bt_budgets t !! key = Some b0 ->
  scope_to_key (bg_scope b0) = key /\ exists s, bt_alert_states t !! key = Some s /\
    soft_limit_alerted s = raised should_alert_soft_limit key h /\
    exceeded_alerted s = raised should_alert_exceeded key h.
Proof.
  intros Hok Hb. specialize (Hok key). rewrite Hb in Hok. unfold key_ok in Hok.
  destruct (bt_alert_states t !! key) as [s|]; [|done]. destruct Hok as (? & ? & ?). eauto.
Qed.

Lemma put_keeps t h key b0 b :
  alerts_ok t h -> bt_budgets t !! key = Some b0 -> bg_scope b = bg_scope b0 ->
  alerts_ok (put_budget key b t) h.
Proof.
  intros Hok Hb Hs k. cbn. destruct (decide (key = k)) as [<-|Hne].
  - rewrite lookup_insert_eq. destruct (alerts_budget _ _ _ _ Hok Hb) as (Hk & s & -> & ? & ?).
    unfold key_ok. rewrite Hs. done.
  - rewrite lookup_insert_ne by done. apply Hok.
Qed.

(** ** What a spend has to tell *)

(** The stored spend has reached the limit, or the soft limit and not the limit. *)
Definition at_limit (b : Budget) : bool := SFleb (lb_max_budget (bg_limit b)) (lb_current_spend (bg_limit b)).
Definition at_soft_limit (b : Budget) : bool :=
  SFleb (lb_soft_limit (bg_limit b)) (lb_current_spend (bg_limit b)) && negb (at_limit b).

(** The result of a spend that leaves its budget as [after], when the budget was
    in the status [previous] and [h] is what happened before. *)
Definition spend_told (h : list alert_event) (key : string) (previous : BudgetStatus) (after : Budget) : SpendResult :=
  mkSpendResult (bg_id after) (bg_scope after) previous (budget_status after) (budget_current after)
    (lb_max_budget (bg_limit after)) (limit_remaining (bg_limit after))
    (at_soft_limit after && bool_decide (previous = StatusOk) && negb (raised should_alert_soft_limit key h))
    (at_limit after && negb (bool_decide (previous = StatusExceeded)) && negb (raised should_alert_exceeded key h)).

Lemma status_at_limit b : bool_decide (budget_status b = StatusExceeded) = at_limit b.
Proof. unfold budget_status, limit_status, at_limit. by repeat case_match. Qed.

Lemma status_at_soft_limit b : bool_decide (budget_status b = StatusWarning) = at_soft_limit b.
Proof.
  unfold budget_status, limit_status, at_soft_limit, at_limit. by destruct (SFleb _ _), (SFleb _ _).
Qed.

(** [raise_alerts] raises exactly what has not been raised, and remembers it. *)
Lemma raise_keeps t h key b0 b previous :
  alerts_ok t h -> bt_budgets t !! key = Some b0 -> bg_scope b = bg_scope b0 ->
  let '(t', r) := raise_alerts key b previous (put_budget key b t) in
  alerts_ok t' (Spent key r :: h) /\ bt_budgets t' !! key = Some b /\ r = spend_told h key previous b.
Proof.
  intros Hok Hb Hs. destruct (alerts_budget _ _ _ _ Hok Hb) as (Hk & s & Hst & Hsoft & Hexc).
  assert (Hsa : has_soft_limit_alert key (put_budget key b t) = soft_limit_alerted s).
  { unfold has_soft_limit_alert. cbn. by rewrite Hst. }
  assert (Hea : has_exceeded_alert key (put_budget key b t) = exceeded_alerted s).
  { unfold has_exceeded_alert. cbn. by rewrite Hst. }
  unfold raise_alerts. rewrite Hsa, Hea. cbv zeta.
  set (soft := bool_decide (budget_status b = StatusWarning) && _ && _).
  set (exceeded := bool_decide (budget_status b = StatusExceeded) && _ && _).
  split; [|split].
  2: { destruct soft, exceeded; apply lookup_insert_eq. }
  2: { unfold spend_told. by rewrite <- Hsoft, <- Hexc, <- status_at_soft_limit, <- status_at_limit. }
  intros k.
  destruct (decide (key = k)) as [<-|Hne].
  - assert (Hgoal : key_ok (Spent key (mkSpendResult (bg_id b) (bg_scope b) previous (budget_status b)
        (budget_current b) (lb_max_budget (bg_limit b)) (limit_remaining (bg_limit b)) soft exceeded) :: h) key
        (Some b) (Some (mkAlerts (soft || soft_limit_alerted s) (exceeded || exceeded_alerted s)))).
    { unfold key_ok. cbn [raised bg_scope soft_limit_alerted exceeded_alerted].
      rewrite Hs, (bool_decide_eq_true_2 (key = key)), <- Hsoft, <- Hexc by done. done. }
    destruct s as [s1 s2]. cbn in *.
    destruct soft, exceeded; cbn in *; rewrite ?lookup_alter_eq, Hst, lookup_insert_eq; exact Hgoal.
  - apply key_ok_other; [done|]. specialize (Hok k).
    destruct soft, exceeded; cbn; rewrite ?lookup_alter_ne, lookup_insert_ne by done; exact Hok.
Qed.

Lemma key_ok_renewed h key b : scope_to_key (bg_scope b) = key -> key_ok (Renewed key :: h) key (Some b) (Some no_alerts).
Proof. intros Hk. unfold key_ok. cbn [raised]. by destruct (decide (key = key)). Qed.

Lemma register_keeps t h b :
  alerts_ok t h -> alerts_ok (register_budget b t) (Renewed (scope_to_key (bg_scope b)) :: h).
Proof.
  intros Hok k. cbn. destruct (decide (scope_to_key (bg_scope b) = k)) as [<-|Hne].
  - rewrite !lookup_insert_eq. by apply key_ok_renewed.
  - rewrite !lookup_insert_ne by done. apply key_ok_other; [done|apply Hok].
Qed.

Lemma unregister_keeps t h scope :
  alerts_ok t h -> alerts_ok (unregister_budget scope t) (Renewed (scope_to_key scope) :: h).
Proof.
  intros Hok k. cbn. destruct (decide (scope_to_key scope = k)) as [<-|Hne].
  - by rewrite !lookup_delete_eq.
  - rewrite !lookup_delete_ne by done. apply key_ok_other; [done|apply Hok].
Qed.

Lemma reset_one_keeps t h key b now :
  alerts_ok t h -> bt_budgets t !! key = Some b -> alerts_ok (reset_one key key b now t) (Renewed key :: h).
Proof.
  intros Hok Hb k. destruct (alerts_budget _ _ _ _ Hok Hb) as (Hk & s & Hst & _). cbn.
  destruct (decide (key = k)) as [<-|Hne].
  - rewrite lookup_insert_eq, lookup_alter_eq, Hst. by apply key_ok_renewed.
  - rewrite lookup_insert_ne, lookup_alter_ne by done. apply key_ok_other; [done|apply Hok].
Qed.

Lemma reset_each_keeps now keys : forall t h,
  alerts_ok t h -> alerts_ok (reset_each now keys t).1 (renewed_keys now keys t ++ h).
Proof.
  induction keys as [|key keys IH]; intros t h Hok; [done|]. cbn.
  assert (Hone : alerts_ok (reset_due now key t).1
            (match (reset_due now key t).2 with Some _ => [Renewed key] | None => [] end ++ h)).
  { unfold reset_due. destruct (bt_budgets t !! key) as [b|] eqn:Hb; [|done].
    destruct (limit_should_reset now (bg_limit b)); [|done].
    destruct (alerts_budget _ _ _ _ Hok Hb) as (-> & _). by apply reset_one_keeps. }
  destruct (reset_due now key t) as [t' id]. cbn in Hone. specialize (IH _ _ Hone).
  destruct (reset_each now keys t') as [t'' ids]. cbn in *. by rewrite <- app_assoc.
Qed.

Lemma release_keeps_alerts t h key reserved reset_at now :
  alerts_ok t h -> alerts_ok (release_reserved key reserved reset_at now t) h.
Proof.
  intros Hok. unfold release_reserved. destruct (bt_budgets t !! key) as [b|] eqn:Hb; [|done].
  destruct (release_budget_spend _ _ _); [done|]. by eapply put_keeps.
Qed.

Lemma reserve_keeps_alerts t h scope amount now :
  alerts_ok t h -> alerts_ok (tracker_reserve_spend scope amount now t).1 h.
Proof.
  intros Hok. unfold tracker_reserve_spend. destruct (invalid (from_f64 amount)); [done|].
  destruct (bt_budgets t !! _) as [b0|] eqn:Hb; [|done]. destruct (negb _); [done|].
  destruct (invalid (budget_can_spend _ _ _ _)) as [|[]]; [done| |done].
  destruct (invalid (add_budget_spend _ _)); [done|]. by eapply put_keeps.
Qed.

(** * One step *)

(** The status a spend starts from: that of the budget, and for a reservation
    settled within its period that of the budget when it was made. *)
Definition status_before (o : budget_op) (b : Budget) : BudgetStatus :=
  match o with
  | BSettle r _ _ => if same_epoch (bg_limit b) (br_reset_at r) then br_previous_status r else budget_status b
  | _ => budget_status b
  end.

(** What is asked of the events of a step. *)
Definition events_exact (o : budget_op) (m : BudgetManager) (h : list alert_event) : Prop :=
  forall key r, Spent key r ∈ (budget_step o m).2 ->
  exists b b', bt_budgets (bm_tracker m) !! key = Some b /\
    bt_budgets (bm_tracker (budget_step o m).1) !! key = Some b' /\
    bg_id b' = bg_id b /\ bg_scope b' = bg_scope b /\ r = spend_told h key (status_before o b) b'.

Lemma events_none o m h : (forall key r, Spent key r ∉ (budget_step o m).2) -> events_exact o m h.
Proof. intros Hno key r Hin. by destruct (Hno key r). Qed.

Lemma renewed_no_spend now keys t key r : Spent key r ∉ renewed_keys now keys t.
Proof.
  revert t. induction keys as [|k keys IH]; intros t; cbn; [set_solver|].
  destruct (reset_due now k t) as [t' [id|]]; rewrite elem_of_app; intros [Hin|Hin]; [by apply IH in Hin|set_solver|by apply IH in Hin|set_solver].
Qed.

(** A spend of one budget, recorded or settled. *)
Lemma spend_step o m h key b0 b :
  alerts_ok (bm_tracker m) h -> bt_budgets (bm_tracker m) !! key = Some b0 ->
  bg_id b = bg_id b0 -> bg_scope b = bg_scope b0 ->
  let '(t', r) := raise_alerts key b (status_before o b0) (put_budget key b (bm_tracker m)) in
  budget_step o m = (put_tracker t' m, [Spent key r]) ->
  alerts_ok (bm_tracker (budget_step o m).1) ((budget_step o m).2 ++ h) /\ events_exact o m h.
Proof.
  intros Hok Hb Hid Hs.
  pose proof (raise_keeps (bm_tracker m) h key b0 b (status_before o b0) Hok Hb Hs) as Hr.
  destruct (raise_alerts _ _ _ _) as [t' r]. destruct Hr as (Hok' & Hb' & Hr). intros Hstep.
  unfold events_exact. rewrite Hstep. split; [done|].
  intros k r' [= -> ->]%list_elem_of_singleton. exists b0, b. done.
Qed.

Lemma record_step_ok scope amount now m h :
  alerts_ok (bm_tracker m) h ->
  alerts_ok (bm_tracker (budget_step (BRecord scope amount now) m).1) ((budget_step (BRecord scope amount now) m).2 ++ h)
  /\ events_exact (BRecord scope amount now) m h.
Proof.
  intros Hok.
  assert (Hidle : budget_step (BRecord scope amount now) m = (m, []) ->
    alerts_ok (bm_tracker (budget_step (BRecord scope amount now) m).1)
      ((budget_step (BRecord scope amount now) m).2 ++ h) /\ events_exact (BRecord scope amount now) m h).
  { intros E. unfold events_exact. rewrite E. split; [done|]. set_solver. }
  destruct (SFleb amount f64_zero) eqn:Ez.
  { apply Hidle. cbn. unfold manager_record_spend. by rewrite Ez. }
  destruct (from_f64 amount) as [|n] eqn:En.
  { apply Hidle. cbn. unfold manager_record_spend, tracker_record_spend. rewrite Ez, En. by destruct m. }
  destruct (bt_budgets (bm_tracker m) !! scope_to_key scope) as [b|] eqn:Hb.
  2: { apply Hidle. cbn. unfold manager_record_spend, tracker_record_spend. rewrite Ez, En, Hb. by destruct m. }
  pose proof (spend_step (BRecord scope amount now) m h _ b (budget_record_spend amount now b) Hok Hb eq_refl eq_refl) as Hs.
  cbn [status_before] in Hs. destruct (raise_alerts _ _ _ _) as [t' r] eqn:E. apply Hs.
  cbn. unfold manager_record_spend, tracker_record_spend. by rewrite Ez, En, Hb, E.
Qed.

(** A settlement that fails drops the reservation and tells nothing. *)
Lemma settle_step_ok r amount now m h :
  alerts_ok (bm_tracker m) h ->
  alerts_ok (bm_tracker (budget_step (BSettle r amount now) m).1) ((budget_step (BSettle r amount now) m).2 ++ h)
  /\ events_exact (BSettle r amount now) m h.
Proof.
  intros Hok.
  assert (Hquiet : forall t, alerts_ok t h -> budget_step (BSettle r amount now) m = (put_tracker t m, []) ->
    alerts_ok (bm_tracker (budget_step (BSettle r amount now) m).1)
      ((budget_step (BSettle r amount now) m).2 ++ h) /\ events_exact (BSettle r amount now) m h).
  { intros t Ht E. unfold events_exact. rewrite E. split; [done|]. set_solver. }
  assert (Hdrop : alerts_ok (tracker_drop r now (bm_tracker m)) h).
  { unfold tracker_drop. repeat case_match; try done. by apply release_keeps_alerts. }
  destruct (invalid (from_f64 amount)) as [|actual] eqn:En.
  { apply (Hquiet _ Hdrop). cbn. unfold tracker_settle. rewrite En. by destruct (br_key r). }
  destruct (br_key r) as [key|] eqn:Ek.
  2: { apply (Hquiet _ Hok). cbn. unfold tracker_settle. by rewrite En, Ek. }
  destruct (bt_budgets (bm_tracker m) !! key) as [b|] eqn:Hb.
  2: { apply (Hquiet _ Hok). cbn. unfold tracker_settle, settle_reserved. by rewrite En, Ek, Hb. }
  destruct (invalid (settle_budget_spend (budget_current b) (br_reserved r) actual
    (same_epoch (bg_limit b) (br_reset_at r)))) as [e|spend] eqn:Es.
  { apply (Hquiet _ Hdrop). cbn. unfold tracker_settle, settle_reserved. by rewrite En, Ek, Hb, Es. }
  pose proof (spend_step (BSettle r amount now) m h key b (on_limit (set_spend (as_f64 spend) now) b)
    Hok Hb eq_refl eq_refl) as Hs.
  cbn [status_before] in Hs. destruct (raise_alerts _ _ _ _) as [t' r'] eqn:E. apply Hs.
  cbn. unfold tracker_settle, settle_reserved. by rewrite En, Ek, Hb, Es, E.
Qed.

Lemma budget_step_ok o m h :
  alerts_ok (bm_tracker m) h ->
  alerts_ok (bm_tracker (budget_step o m).1) ((budget_step o m).2 ++ h) /\ events_exact o m h.
Proof.
  intros Hok.
  destruct o as [scope config id now|scope config now|scope|scope amount now|scope amount now|r amount now|r now|
    scope now|now]; [| | |by apply record_step_ok| |by apply settle_step_ok| | |];
    (split; [|try (apply events_none; cbn; unfold create_budget, delete_budget, manager_reset_budget;
                   repeat case_match; set_solver)]); cbn [budget_step].
  - unfold create_budget. destruct (config_error config); [done|]. destruct (String.eqb _ _); [done|].
    unfold try_register_budget. destruct (bt_budgets _ !! _); [done|]. cbn.
    by apply (register_keeps _ _ (configure _ _ _ (budget_new _ _ scope _ _))).
  - unfold update_budget. destruct (negb _); [done|]. destruct (config_error config); [done|].
    unfold tracker_update_budget. destruct (bt_budgets _ !! _) as [b|] eqn:Hb; [|done].
    assert (Hput : forall b', bg_scope b' = bg_scope b ->
      alerts_ok (put_budget (scope_to_key scope) b' (bm_tracker m)) h) by (intros; by eapply put_keeps).
    cbn [fst snd]. destruct (get_budget _ _); cbn; by apply Hput.
  - unfold delete_budget. destruct (negb _); [done|]. by apply unregister_keeps.
  - by apply reserve_keeps_alerts.
  - unfold tracker_cancel. cbn. destruct (br_key r); [by apply release_keeps_alerts|done].
  - unfold manager_reset_budget, has_budget, tracker_reset_budget.
    destruct (bt_budgets _ !! _) as [b|] eqn:Hb; cbn; [|done]. by apply reset_one_keeps.
  - unfold run_periodic_reset, reset_budgets.
    pose proof (reset_each_keeps now (map_to_list (bt_budgets (bm_tracker m))).*1 _ _ Hok) as Hr.
    by destruct (reset_each _ _ _).
  - apply events_none, renewed_no_spend.
Qed.

(** A reservation records the status of its budget and the period it was made in. *)
Lemma reservation_status scope amount now t r key :
  (tracker_reserve_spend scope amount now t).2 = inr r -> br_key r = Some key ->
  exists b, bt_budgets t !! key = Some b /\ br_previous_status r = budget_status b /\
    br_reset_at r = lb_last_reset_at (bg_limit b).
Proof. unfold tracker_reserve_spend. repeat case_match; cbn; intros; simplify_eq/=; eauto. Qed.

Lemma budget_run_ok ops : forall m h,
  alerts_ok (bm_tracker m) h -> alerts_ok (bm_tracker (budget_run ops m h).1) (budget_run ops m h).2.
Proof.
  induction ops as [|o ops IH]; intros m h Hok; [done|]. cbn.
  destruct (budget_step_ok o m h Hok) as [Hok' _]. destruct (budget_step o m) as [m' events]. by apply IH.
Qed.

(** C17: over any run of the budgets, with spends recorded and reservations of any
    kind settled, the result of a spend is exact: it reports the spend, the limit
    and what is left of the budget after it, and the status before and after it,
    where a reservation settled within its period starts from the status the
    budget had when it was reserved.  It raises an alert exactly when the spend
    takes its budget across the threshold, from below the soft limit to the soft
    limit but not the limit, or from below the limit to the limit, and no alert
    of that kind was raised since the budget was last created or reset: no
    crossing is missed and none is told twice. *)
Theorem alerts_exact (config : BudgetManagerConfig) (ops : list budget_op) (o : budget_op) :
  let m := (budget_run ops (mkManager tracker_new config) []).1 in
  let history := (budget_run ops (mkManager tracker_new config) []).2 in
  (forall key r, Spent key r ∈ (budget_step o m).2 ->
   exists b b', bt_budgets (bm_tracker m) !! key = Some b /\
     bt_budgets (bm_tracker (budget_step o m).1) !! key = Some b' /\
     bg_id b' = bg_id b /\ bg_scope b' = bg_scope b /\ r = spend_told history key (status_before o b) b') /\
  (forall scope amount now r key,
   (tracker_reserve_spend scope amount now (bm_tracker m)).2 = inr r -> br_key r = Some key ->
   exists b, bt_budgets (bm_tracker m) !! key = Some b /\ br_previous_status r = budget_status b /\
     br_reset_at r = lb_last_reset_at (bg_limit b)).
Proof.
  intros m history. split; [|intros; by eapply reservation_status].
  apply (budget_step_ok o m history), budget_run_ok.
  intros k. unfold tracker_new. cbn [bm_tracker bt_budgets bt_alert_states]. by rewrite !lookup_empty.
Qed.
End Runs.

(** A budget of 100 dollars: 85 are spent, then 20, then 5 more. *)
#[local] Instance days : Calendar := {|
  date_naive := fun t => t / 86400; iso_week := fun t => (0, t / 604800);
  year_month := fun t => (0, t / 2592000); midnight := fun t => t; monday_midnight := fun t => t;
  first_of_month := fun t => t |}.

Definition spend_ops : list budget_op :=
  [BCreate Global (budget_config_new "all" (f64_of_Z 100)) "id" 0; BRecord Global (f64_of_Z 85) 1].

Definition over_limit : budget_op := BRecord Global (f64_of_Z 20) 2.
Definition further_over : budget_op := BRecord Global (f64_of_Z 5) 3.

Definition spend_result (before : list budget_op) (o : budget_op) : list SpendResult :=
  omap (fun e => match e with Spent _ r => Some r | Renewed _ => None end)
    (budget_step o (budget_run before (mkManager tracker_new BudgetManagerConfig_default) []).1).2.

Definition first_over : list SpendResult := Eval vm_compute in spend_result spend_ops over_limit.
Definition second_over : list SpendResult :=
  Eval vm_compute in spend_result (spend_ops ++ [over_limit]) further_over.

Lemma alerts_exact_witness :
  Forall (fun r => should_alert_exceeded r = true /\ sr_previous_status r = StatusWarning) first_over /\
  length first_over = 1%nat /\
  Forall (fun r => should_alert_exceeded r = false) second_over /\ length second_over = 1%nat.
Proof.
  split_and!; [|done| |done]; (constructor; [|constructor]).
  - match goal with |- should_alert_exceeded ?x = _ /\ _ => set (r := x) end.
    destruct (proj1 (alerts_exact BudgetManagerConfig_default spend_ops over_limit) "global" r)
      as (b & b' & Hb & Hb' & _ & _ & ->); [vm_compute; left|].
    vm_compute in Hb, Hb'. injection Hb as <-. injection Hb' as <-. split; by vm_compute.
  - match goal with |- should_alert_exceeded ?x = _ => set (r := x) end.
    destruct (proj1 (alerts_exact BudgetManagerConfig_default (spend_ops ++ [over_limit]) further_over) "global" r)
      as (b & b' & Hb & Hb' & _ & _ & ->); [vm_compute; left|].
    vm_compute in Hb, Hb'. injection Hb as <-. injection Hb' as <-. by vm_compute.
Defined.
