(* ===== verification/BudgetTrackerLedger.v ===== *)
(** A budget of the tracker keeps the ledger of its reservations, with spends
    recorded beside them. *)

From Stdlib Require Import Floats.SpecFloat.
From S2P Require Import Prelude Float64 GatewayErrors BudgetScript BudgetLedger BudgetGuarantees BudgetAmounts BudgetBackend BudgetLimits BudgetReservations BudgetConservation BudgetTracker.

#[local] Open Scope rust_scope.

(** What a reservation of the tracker has in common with that of a limit. *)
Definition as_limit (key : string) (r : BudgetReservation) : LimitReservation :=
  mkReservation key (br_reserved r) (br_reset_at r) true (br_settled r) None 0.

Section Tracker.
Variables (scope : BudgetScope) (limit : Z).
Hypothesis limit_small : limit < amount_bound.

Notation key := (scope_to_key scope).

Inductive TrackerOp :=
| TReserve (id : string) (amount : Z)
| TSettle (id : string) (actual : Z)
| TCancel (id : string)
| TDrop (id : string)
| TRecord (amount : Z)
| TReset.

(** The tracker with the reservations that are open, by their owner. *)
Definition TrackerState : Type := BudgetTracker * gmap string BudgetReservation.

(** One operation at the instant [now], and whether it was refused. *)
Definition tracker_step (op : TrackerOp) (now : Z) (s : TrackerState) : TrackerState * bool :=
  let '(t, rs) := s in
  match op with
  | TReserve id amount =>
      match tracker_reserve_spend scope (as_f64 amount) now t with
      | (t, inr r) => ((t, <[id := r]> rs), true)
      | (t, inl _) => ((t, rs), false)
      end
  | TSettle id actual =>
      match rs !! id with
      | Some r =>
          match tracker_settle r (as_f64 actual) now t with
          | (t, inr _) => ((t, delete id rs), true)
          | (t, inl _) => ((t, delete id rs), false)
          end
      | None => (s, true)
      end
  | TCancel id =>
      match rs !! id with Some r => ((tracker_cancel r now t, delete id rs), true) | None => (s, true) end
  | TDrop id =>
      match rs !! id with Some r => ((tracker_drop r now t, delete id rs), true) | None => (s, true) end
  | TRecord amount =>
      let '(t, r) := tracker_record_spend scope (as_f64 amount) now t in ((t, rs), bool_decide (is_Some r))
  | TReset => (((tracker_reset_budget scope now t).1, rs), true)
  end.

(** The same operation on the ledger. *)
Definition tracker_ledger_step (op : TrackerOp) (L : Ledger) : Ledger * bool :=
  match op with
  | TReserve id amount => ledger_step limit (OpReserve id amount) L
  | TSettle id actual => ledger_step limit (OpSettle id actual) L
  | TCancel id | TDrop id => (led_finish id 0 L, true)
  | TRecord amount =>
      (mkLedger (led_committed L + amount) (led_epoch L) (led_unfinished L) (led_receipts L), true)
  | TReset => (led_release (led_epoch L) L, true)
  end.

Record tracks_ledger (clock : Z) (s : TrackerState) (L : Ledger) : Prop := mkTracks {
  tl_budget : exists b, bt_budgets s.1 !! key = Some b /\ lb_enabled (bg_limit b) = true /\
    from_f64 (lb_max_budget (bg_limit b)) = inr limit /\
    budget_current b = as_f64 (led_committed L + led_outstanding L) /\
    not_after clock (lb_last_reset_at (bg_limit b)) /\
    map_Forall2 (fun _ => reservation_of key (bg_limit b) clock) (as_limit key <$> s.2) (led_unfinished L);
  tl_open : map_Forall (fun _ r => br_key r = Some key) s.2;
  tl_committed : 0 <= led_committed L;
  tl_bound : led_committed L + led_outstanding L < amount_bound;
}.

(** An open reservation, and what it holds. *)
Lemma tracks_held clock t rs L id r b :
  tracks_ledger clock (t, rs) L -> bt_budgets t !! key = Some b -> rs !! id = Some r ->
  br_key r = Some key /\ br_settled r = false /\ 0 <= br_reserved r /\
  0 <= held_by (bg_limit b) (as_limit key r) <= led_outstanding L /\
  is_Some (led_unfinished L !! id) /\
  led_outstanding (led_finish id 0 L) = led_outstanding L - held_by (bg_limit b) (as_limit key r).
Proof.
  intros [(b0 & Hb & _ & _ & _ & _ & Hrel) Hopen _ _] Hb' Hr. cbn in *. assert (b0 = b) by congruence. subst b0.
  assert (Hr' : (as_limit key <$> rs) !! id = Some (as_limit key r)) by by rewrite lookup_fmap, Hr.
  destruct (keeps_held _ _ _ _ _ _ _ Hrel Hr') as (Hheld & Hx & Hfin).
  destruct (map_Forall2_lookup_l _ _ _ _ _ Hrel Hr') as (x & _ & (_ & _ & Hs & _ & Hnn & _)).
  split; [exact (Hopen id r Hr)|]. split_and!; [done|done|lia|lia|by eexists|done].
Qed.

(** The end of a reservation that charges [charge]. *)
Lemma tracks_finish clock now t t' rs L id r b charge :
  tracks_ledger clock (t, rs) L -> bt_budgets t !! key = Some b -> rs !! id = Some r -> 0 <= charge ->
  led_spend (led_finish id charge L) < amount_bound ->
  bt_budgets t' !! key = Some (on_limit (set_spend
    (as_f64 (led_committed L + led_outstanding L - held_by (bg_limit b) (as_limit key r) + charge)) now) b) ->
  tracks_ledger clock (t', delete id rs) (led_finish id charge L).
Proof.
  intros HK Hb Hr Hch Hbound Hnew. destruct (tracks_held _ _ _ _ _ _ _ HK Hb Hr) as (_ & _ & _ & Hheld & _ & Hfin).
  destruct HK as [(b0 & Hb0 & He & Hmax & Hcur & Hlast & Hrel) Hopen Hc Hbd]. cbn in *.
  assert (b0 = b) by congruence. subst b0.
  assert (Hfin' : led_outstanding (led_finish id charge L)
                  = led_outstanding L - held_by (bg_limit b) (as_limit key r)) by exact Hfin.
  unfold led_spend in Hbound. split; cbn [fst snd]; rewrite ?Hfin' in *; [|by apply map_Forall_delete|cbn; lia|done].
  eexists. split; [exact Hnew|]. cbn. split; [done|]. split; [done|]. split; [f_equal; lia|]. split; [done|].
  rewrite fmap_delete. by apply map_Forall2_delete.
Qed.

Lemma release_tracks clock now t rs L id r :
  tracks_ledger clock (t, rs) L -> rs !! id = Some r ->
  tracks_ledger clock (release_reserved key (br_reserved r) (br_reset_at r) now t, delete id rs) (led_finish id 0 L).
Proof.
  intros HK Hr. pose proof HK as [(b & Hb & _ & _ & Hcur & _) _ Hc Hbd]. cbn in *.
  destruct (tracks_held _ _ _ _ _ _ _ HK Hb Hr) as (_ & _ & Hnn & Hheld & _ & Hfin).
  unfold release_reserved. rewrite Hb, Hcur, release_spend_small; [|done| |lia].
  2:{ intros E. unfold held_by in Hheld. cbn in Hheld. rewrite E in Hheld. lia. }
  change (if same_epoch (bg_limit b) (br_reset_at r) then br_reserved r else 0)
    with (held_by (bg_limit b) (as_limit key r)).
  eapply tracks_finish; [exact HK|exact Hb|exact Hr|lia|unfold led_spend; rewrite Hfin; cbn; lia|].
  cbn. rewrite lookup_insert_eq, Z.add_0_r. done.
Qed.

(** [raise_alerts] leaves the budgets. *)
Lemma raise_budgets k b previous t : bt_budgets (raise_alerts k b previous t).1 = bt_budgets t.
Proof. unfold raise_alerts. cbn. repeat case_match; done. Qed.

Lemma settle_tracks clock now t rs L id r actual :
  tracks_ledger clock (t, rs) L -> rs !! id = Some r -> 0 <= actual < amount_bound ->
  led_spend (led_finish id actual L) < amount_bound ->
  exists x, (tracker_settle r (as_f64 actual) now t).2 = inr x /\
    tracks_ledger clock ((tracker_settle r (as_f64 actual) now t).1, delete id rs) (led_finish id actual L).
Proof.
  intros HK Hr Ha Hsp. pose proof HK as [(b & Hb & _ & _ & Hcur & _) _ Hc Hbd]. cbn in *.
  destruct (tracks_held _ _ _ _ _ _ _ HK Hb Hr) as (Hk & _ & Hnn & Hheld & _ & _).
  unfold tracker_settle. rewrite as_f64_read by done. cbn [invalid]. rewrite Hk. unfold settle_reserved.
  rewrite Hb, Hcur, settle_spend_small; [|done| |lia|done].
  2:{ intros E. unfold held_by in Hheld. cbn in Hheld. rewrite E in Hheld. lia. }
  change (if same_epoch (bg_limit b) (br_reset_at r) then br_reserved r else 0)
    with (held_by (bg_limit b) (as_limit key r)). cbn [invalid].
  set (b' := on_limit _ b). set (previous := if same_epoch _ _ then _ else _).
  pose proof (raise_budgets key b' previous (put_budget key b' t)) as Hbs.
  destruct (raise_alerts key b' previous (put_budget key b' t)) as [t' x]. eexists. split; [done|].
  eapply tracks_finish; [exact HK|exact Hb|exact Hr|lia|done|].
  cbn in *. by rewrite Hbs, lookup_insert_eq.
Qed.

Lemma reserve_tracks clock now t rs L id n :
  tracks_ledger clock (t, rs) L -> 0 <= n < amount_bound -> rs !! id = None ->
  let '(s', granted) := tracker_step (TReserve id n) now (t, rs) in
  tracks_ledger clock s' (tracker_ledger_step (TReserve id n) L).1 /\
  granted = (tracker_ledger_step (TReserve id n) L).2.
Proof.
  intros HK Hn Hid. pose proof HK as [(b & Hb & He & Hmax & Hcur & Hlast & Hrel) Hopen Hc Hbd]. cbn [fst snd] in *.
  pose proof (keeps_holds_nonneg _ _ _ _ _ Hrel) as Hnn.
  assert (Hout : 0 <= led_outstanding L) by by apply sum_map_nonneg.
  unfold tracker_step, tracker_ledger_step, ledger_step, tracker_reserve_spend. rewrite as_f64_read by done. cbn [invalid].
  rewrite Hb, He. cbn [negb]. change (lb_current_spend (bg_limit b)) with (budget_current b).
  rewrite Hcur, (can_spend_small _ _ _ limit) by (done || lia). cbn [invalid].
  destruct (Z.leb_spec (led_committed L + led_outstanding L + n) limit) as [Hle|Hgt]; [|done].
  rewrite add_spend_small by lia. cbn [invalid fst snd]. split; [|done].
  assert (Hu : led_unfinished L !! id = None).
  { destruct (led_unfinished L !! id) eqn:E; [|done].
    destruct (map_Forall2_lookup_r _ _ _ _ _ Hrel E) as (? & Hx & _). by rewrite lookup_fmap, Hid in Hx. }
  assert (Hsum : led_outstanding (mkLedger (led_committed L) (led_epoch L)
            (<[id:=Held n 0]> (led_unfinished L)) (led_receipts L)) = n + led_outstanding L).
  { unfold led_outstanding; cbn. by rewrite sum_map_insert. }
  split; rewrite ?Hsum; cbn [fst snd led_committed]; [|by apply map_Forall_insert_2|lia|lia].
  eexists. split; [cbn; by rewrite lookup_insert_eq|]. cbn. split; [done|]. split; [done|].
  split; [f_equal; lia|]. split; [done|]. rewrite fmap_insert. apply map_Forall2_insert_2; [|done].
  unfold reservation_of; cbn. split_and!; try done; [lia|].
  unfold same_epoch; cbn. by rewrite bool_decide_eq_true_2.
Qed.

Lemma record_tracks clock now t rs L n :
  tracks_ledger clock (t, rs) L -> 0 <= n < amount_bound -> led_committed L + led_outstanding L + n < amount_bound ->
  let '(s', done) := tracker_step (TRecord n) now (t, rs) in
  tracks_ledger clock s' (tracker_ledger_step (TRecord n) L).1 /\ done = true.
Proof.
  intros HK Hn Hsum. pose proof HK as [(b & Hb & He & Hmax & Hcur & Hlast & Hrel) Hopen Hc Hbd]. cbn [fst snd] in *.
  pose proof (sum_map_nonneg _ _ (keeps_holds_nonneg _ _ _ _ _ Hrel)) as Hout. fold (led_outstanding L) in Hout.
  cbn [tracker_step tracker_ledger_step fst]. unfold tracker_record_spend. rewrite as_f64_read, Hb by done.
  pose proof (raise_budgets key (budget_record_spend (as_f64 n) now b) (budget_status b)
                (put_budget key (budget_record_spend (as_f64 n) now b) t)) as Hbs.
  destruct (raise_alerts _ _ _ _) as [t' x]. cbn [fst] in Hbs. split; [|by rewrite bool_decide_eq_true_2].
  split; cbn [fst snd led_committed]; [|done|lia|unfold led_outstanding in *; cbn in *; lia].
  eexists. rewrite Hbs. cbn [put_budget bt_budgets]. split; [by rewrite lookup_insert_eq|].
  unfold budget_record_spend, limit_record_spend, on_limit, budget_current in *. cbn [bg_limit].
  rewrite Hcur, add_spend_small by lia. cbn. split; [done|]. split; [done|].
  split; [unfold led_outstanding; cbn; f_equal; lia|done].
Qed.

Lemma reset_tracks clock now t rs L :
  tracks_ledger clock (t, rs) L -> clock < now ->
  tracks_ledger now ((tracker_reset_budget scope now t).1, rs) (led_release (led_epoch L) L).
Proof.
  intros [(b & Hb & He & Hmax & Hcur & Hlast & Hrel) Hopen Hc Hbd] Hnow. cbn [fst snd] in *.
  assert (Hz : led_outstanding (led_release (led_epoch L) L) = 0) by apply outstanding_release.
  unfold tracker_reset_budget. rewrite Hb.
  split; rewrite ?Hz; cbn [fst snd]; [|done|cbn; lia|cbn; unfold amount_bound; lia].
  eexists. split; [cbn; by rewrite lookup_insert_eq|]. cbn. split; [done|]. split; [done|].
  split; [by vm_compute|]. split; [lia|]. intros id. specialize (Hrel id).
  rewrite (lookup_fmap _ (led_unfinished L)).
  destruct Hrel as [r x (?&?&?&?&?&Hna&?)|]; constructor. unfold reservation_of. split_and!; try done.
  - eapply not_after_le; [done|lia].
  - unfold same_epoch; cbn. rewrite bool_decide_eq_false_2; [done|]. intros E. rewrite <- E in Hna. cbn in Hna. lia.
Qed.

Lemma tracks_later clock clock' s L : tracks_ledger clock s L -> clock <= clock' -> tracks_ledger clock' s L.
Proof.
  intros [(b & Hb & He & Hmax & Hcur & Hlast & Hrel) Ho Hc Hbd] Hle. split; try done.
  exists b. split_and!; try done; [by eapply not_after_le|]. apply (map_Forall2_impl _ _ _ _ Hrel).
  intros id r x (?&?&?&?&?&Hna&?). unfold reservation_of. split_and!; try done. by eapply not_after_le.
Qed.

Lemma tracks_none clock s L id : tracks_ledger clock s L -> led_unfinished L !! id = None <-> s.2 !! id = None.
Proof.
  intros [(b & _ & _ & _ & _ & _ & Hrel) _ _ _]. specialize (Hrel id). rewrite lookup_fmap in Hrel.
  destruct (s.2 !! id); inversion Hrel; done.
Qed.

(** Amounts in bounds, fresh owners, and a spend that stays in bounds. *)
Definition tracker_op_ok (op : TrackerOp) (L : Ledger) : Prop :=
  match op with
  | TReserve id amount => limit_op_ok (OpReserve id amount) L
  | TSettle id actual => limit_op_ok (OpSettle id actual) L
  | TRecord amount => 0 <= amount < amount_bound /\ led_spend L + amount < amount_bound
  | _ => True
  end.

(** The end of a reservation that is not open changes nothing. *)
Lemma tracks_nothing clock t rs L id : tracks_ledger clock (t, rs) L -> rs !! id = None -> led_finish id 0 L = L.
Proof.
  intros HK Hr. apply (tracks_none _ _ _ id) in HK. apply HK in Hr. destruct L; unfold led_finish; cbn in *.
  by rewrite Z.add_0_r, delete_id.
Qed.

Lemma tracker_step_tracks op clock now s L :
  tracks_ledger clock s L -> clock < now -> tracker_op_ok op L ->
  tracks_ledger now (tracker_step op now s).1 (tracker_ledger_step op L).1 /\
  (tracker_step op now s).2 = (tracker_ledger_step op L).2.
Proof.
  intros HK Hnow Hok. destruct s as [t rs]. pose proof (tracks_later _ now _ _ HK ltac:(lia)) as HK'.
  destruct op as [id n|id a|id|id|n|].
  - destruct Hok as [Hn Hid]. apply (tracks_none _ _ _ id HK) in Hid.
    pose proof (reserve_tracks now now t rs L id n HK' Hn Hid) as Hstep.
    by destruct (tracker_step (TReserve id n) now (t, rs)) as [s' granted].
  - cbn. destruct (rs !! id) as [r|] eqn:Hr.
    + pose proof HK as [(b & Hb & _) _ _ _]. destruct (tracks_held _ _ _ _ _ _ _ HK Hb Hr) as (_ & _ & _ & _ & [x Hx] & _).
      destruct Hok as [Ha Hsp]. destruct (settle_tracks now now t rs L id r a HK' Hr Ha Hsp) as (y & Hy & Hkeeps).
      destruct (tracker_settle r (as_f64 a) now t) as [t1 s1]. cbn in Hy, Hkeeps. subst s1. by rewrite Hx.
    + pose proof (proj2 (tracks_none _ _ _ id HK) Hr) as Hx. by rewrite Hx.
  - cbn. destruct (rs !! id) as [r|] eqn:Hr; [|by rewrite (tracks_nothing _ _ _ _ _ HK Hr)].
    pose proof HK as [(b & Hb & _) _ _ _]. destruct (tracks_held _ _ _ _ _ _ _ HK Hb Hr) as (Hk & _).
    unfold tracker_cancel. rewrite Hk. split; [|done]. by apply release_tracks.
  - cbn. destruct (rs !! id) as [r|] eqn:Hr; [|by rewrite (tracks_nothing _ _ _ _ _ HK Hr)].
    pose proof HK as [(b & Hb & _) _ _ _]. destruct (tracks_held _ _ _ _ _ _ _ HK Hb Hr) as (Hk & Hs & _).
    unfold tracker_drop. rewrite Hk, Hs. split; [|done]. by apply release_tracks.
  - destruct Hok as [Hn Hsp]. unfold led_spend in Hsp.
    pose proof (record_tracks now now t rs L n HK' Hn Hsp) as Hstep.
    by destruct (tracker_step (TRecord n) now (t, rs)) as [s' granted].
  - split; [|done]. by apply (reset_tracks clock).
Qed.

(** Runs, with the instants of the operations. *)
Fixpoint tracker_run (l : list (TrackerOp * Z)) (s : TrackerState) : TrackerState * list bool :=
  match l with
  | [] => (s, [])
  | (op, now) :: l =>
      let '(s, granted) := tracker_step op now s in
      let '(s, answers) := tracker_run l s in (s, granted :: answers)
  end.

Fixpoint tracker_ledger_run (l : list (TrackerOp * Z)) (L : Ledger) : Ledger * list bool :=
  match l with
  | [] => (L, [])
  | (op, _) :: l =>
      let '(L, granted) := tracker_ledger_step op L in
      let '(L, answers) := tracker_ledger_run l L in (L, granted :: answers)
  end.

Fixpoint tracker_run_ok (l : list (TrackerOp * Z)) (clock : Z) (L : Ledger) : Prop :=
  match l with
  | [] => True
  | (op, now) :: l => clock < now /\ tracker_op_ok op L /\ tracker_run_ok l now (tracker_ledger_step op L).1
  end.

Lemma tracker_run_tracks l clock s L :
  tracks_ledger clock s L -> tracker_run_ok l clock L ->
  (exists clock', tracks_ledger clock' (tracker_run l s).1 (tracker_ledger_run l L).1) /\
  (tracker_run l s).2 = (tracker_ledger_run l L).2.
Proof.
  revert clock s L. induction l as [|[op now] l IH]; intros clock s L HK Hok; [by split; [exists clock|]|].
  destruct Hok as (Hnow & Hop & Hok). destruct (tracker_step_tracks op clock now s L HK Hnow Hop) as [Hk Ha].
  cbn [tracker_run tracker_ledger_run]. destruct (tracker_step op now s) as [s1 a1], (tracker_ledger_step op L) as [L1 b1].
  cbn [fst snd] in *. destruct (IH now s1 L1 Hk Hok) as [Hk' Ha'].
  destruct (tracker_run l s1), (tracker_ledger_run l L1). cbn [fst snd] in *. by subst.
Qed.

Lemma register_tracks id name max now t :
  from_f64 max = inr limit ->
  tracks_ledger now (register_budget (budget_new id name scope max now) t, ∅) empty_ledger.
Proof.
  intros Hmax. split; cbn [fst snd]; [|apply map_Forall_empty|cbn; lia|by vm_compute].
  eexists. split; [cbn; by rewrite lookup_insert_eq|]. cbn. split; [done|]. split; [done|].
  split; [by vm_compute|]. split; [lia|]. intros i. rewrite lookup_fmap, !lookup_empty. constructor.
Qed.
End Tracker.

(** C16: a budget of a user, a team, a key or any other scope answers, from its
    registration on, as the ledger of its reservations does and stores the
    ledger's spend: a reservation is granted exactly when committed and reserved
    spend leave room for it, a settlement charges its actual cost once, a
    cancelled or dropped reservation charges nothing, a reset forgets what was
    spent and reserved before it, and spends recorded beside add up. *)
Theorem tracker_conserves (scope : BudgetScope) (limit : Z) (id name : string) (max : spec_float) (now : Z)
    (t : BudgetTracker) (l : list (TrackerOp * Z)) :
  limit < amount_bound -> from_f64 max = inr limit -> tracker_run_ok limit l now empty_ledger ->
  let run := tracker_run scope l (register_budget (budget_new id name scope max now) t, ∅) in
  let ledger := tracker_ledger_run limit l empty_ledger in
  run.2 = ledger.2 /\ from_f64 (get_current_spend scope run.1.1) = inr (led_spend ledger.1).
Proof.
  intros Hlim Hmax Hok run ledger.
  destruct (tracker_run_tracks scope limit Hlim l now _ _ (register_tracks scope limit id name max now t Hmax) Hok)
    as [(clock' & [(b & Hb & _ & _ & Hcur & _ & Hrel) _ Hc Hbd]) Ha].
  split; [exact Ha|]. unfold get_current_spend. fold run in Hb. rewrite Hb, Hcur.
  pose proof (sum_map_nonneg _ _ (keeps_holds_nonneg _ _ _ _ _ Hrel)) as Hout.
  rewrite as_f64_read; [done|]. split; [|exact Hbd]. unfold led_outstanding. lia.
Qed.

(** Four of ten dollars held, seven refused, three charged, two recorded, four
    held over a reset and charged five after it. *)
Definition tracker_example : list (TrackerOp * Z) :=
  [(TReserve "a" (4 * 10 ^ 9), 1); (TReserve "b" (7 * 10 ^ 9), 2); (TSettle "a" (3 * 10 ^ 9), 3);
   (TRecord (2 * 10 ^ 9), 4); (TReserve "c" (4 * 10 ^ 9), 5); (TReset, 6); (TReserve "d" (2 * 10 ^ 9), 7);
   (TSettle "c" (5 * 10 ^ 9), 8); (TDrop "d", 9)].

Lemma tracker_conserves_witness :
  let run := tracker_run (User "ada") tracker_example
               (register_budget (budget_new "1" "Ada" (User "ada") (f64_of_Z 10) 0) tracker_new, ∅) in
  run.2 = [true; false; true; true; true; true; true; true; true] /\
  from_f64 (get_current_spend (User "ada") run.1.1) = inr (5 * 10 ^ 9).
Proof.
  intros run.
  destruct (tracker_conserves (User "ada") (10 * 10 ^ 9) "1" "Ada" (f64_of_Z 10) 0 tracker_new tracker_example)
    as [Ha Hs]; [by vm_compute|by vm_compute| |].
  - unfold tracker_example. cbn [tracker_run_ok tracker_op_ok limit_op_ok].
    split_and!; try exact I; try lia; vm_compute; try done.
  - split; [exact Ha|exact Hs].
Defined.
