(* ===== verification/BudgetRouting.v ===== *)
(** Routing with budgets ([core/router/budget_routing.rs]): which providers and
    models a request may still use, and the reservation it makes. *)

From Stdlib Require Import Floats.SpecFloat.
From S2P Require Import Prelude Float64 GatewayErrors BudgetScript BudgetAmounts BudgetBackend BudgetLimits BudgetReservations.

Record BudgetAwareRouter := mkBudgetRouter {
  bw_limits : UnifiedBudgetLimits;
  bw_log_warnings : bool;
  bw_warning_threshold : spec_float;
}.

Definition budget_router_new (limits : UnifiedBudgetLimits) : BudgetAwareRouter :=
  mkBudgetRouter limits true soft_fraction.

Definition with_warnings (log_warnings : bool) (r : BudgetAwareRouter) : BudgetAwareRouter :=
  mkBudgetRouter (bw_limits r) log_warnings (bw_warning_threshold r).

Definition with_warning_threshold (threshold : spec_float) (r : BudgetAwareRouter) : BudgetAwareRouter :=
  mkBudgetRouter (bw_limits r) (bw_log_warnings r) (f64_clamp f64_zero (f64_of_Z 1) threshold).

Definition put_limits (limits : UnifiedBudgetLimits) (r : BudgetAwareRouter) : BudgetAwareRouter :=
  mkBudgetRouter limits (bw_log_warnings r) (bw_warning_threshold r).

(** What the two filters keep. *)
Definition within_budget (m : LimitManager) (names : list string) : list string :=
  filter (fun name => check_budget name m <> StatusExceeded) names.

Definition router_filter_providers (providers : list string) (r : BudgetAwareRouter) : list string :=
  within_budget (ul_providers (bw_limits r)) providers.

Definition router_filter_models (models : list string) (r : BudgetAwareRouter) : list string :=
  within_budget (ul_models (bw_limits r)) models.

Record ScopeCheck := mkScopeCheck { ck_allowed : bool; ck_status : BudgetStatus; ck_remaining : spec_float }.

Definition remaining_of (name : string) (m : LimitManager) : spec_float :=
  match get_usage name m with Some u => us_remaining u | None => S754_infinity false end.

(** [check_provider] and [check_model]. *)
Definition check_scope (name : string) (estimated_cost : spec_float) (m : LimitManager) : ScopeCheck :=
  mkScopeCheck (can_spend name estimated_cost m) (check_budget name m) (remaining_of name m).

Record RequestBudgetCheck := mkRequestCheck {
  rc_allowed : bool;
  rc_provider_status : BudgetStatus;
  rc_model_status : BudgetStatus;
  rc_provider_remaining : spec_float;
  rc_model_remaining : spec_float;
  rc_reason : option string;
}.

Definition can_make_request (provider model : string) (estimated_cost : spec_float) (r : BudgetAwareRouter)
    : RequestBudgetCheck :=
  let provider_check := check_scope provider estimated_cost (ul_providers (bw_limits r)) in
  let model_check := check_scope model estimated_cost (ul_models (bw_limits r)) in
  mkRequestCheck (ck_allowed provider_check && ck_allowed model_check)
    (ck_status provider_check) (ck_status model_check)
    (ck_remaining provider_check) (ck_remaining model_check)
    (if negb (ck_allowed provider_check) then Some ("Provider '" +:+ provider +:+ "' has exceeded budget")
     else if negb (ck_allowed model_check) then Some ("Model '" +:+ model +:+ "' has exceeded budget")
     else None).

Definition reserve_request `{Calendar} (provider model : string) (estimated_cost : spec_float) (now : Z)
    (env : UnifiedEnv) (r : BudgetAwareRouter) (st : BudgetStore)
    : BudgetAwareRouter * BudgetStore * (BudgetReservationError + UnifiedBudgetReservation) :=
  let '(u, st, result) := unified_reserve provider model estimated_cost now env (bw_limits r) st in
  (put_limits u r, st, result).

Definition router_record_spend (provider model : string) (cost : spec_float) (now : Z) (r : BudgetAwareRouter)
    : BudgetAwareRouter :=
  put_limits (unified_record_spend provider model cost now (bw_limits r)) r.

Definition get_fallback_provider (fallbacks : list string) (r : BudgetAwareRouter) : option string :=
  List.find (fun provider => is_provider_available provider (bw_limits r)) fallbacks.

(** [b.1.partial_cmp(&a.1)], incomparable numbers being equal: [a] goes before
    [b] unless it has less left. *)
Definition not_less (a b : string * spec_float) : bool :=
  match SFcompare b.2 a.2 with Some Gt => false | _ => true end.

(** [sort_by], which is stable. *)
Fixpoint insert_by (le : string * spec_float -> string * spec_float -> bool) (x : string * spec_float)
    (l : list (string * spec_float)) : list (string * spec_float) :=
  match l with
  | [] => [x]
  | y :: l => if le x y then x :: y :: l else y :: insert_by le x l
  end.

Definition sort_by (le : string * spec_float -> string * spec_float -> bool) (l : list (string * spec_float))
    : list (string * spec_float) :=
  foldr (insert_by le) [] l.

Definition get_providers_by_remaining_budget (providers : list string) (r : BudgetAwareRouter) : list string :=
  let available := filter (fun p => is_provider_available p (bw_limits r) = true) providers in
  (sort_by not_less (map (fun p => (p, remaining_of p (ul_providers (bw_limits r)))) available)).*1.

(** * Amounts that are read *)

Lemma mul_sign m1 e1 m2 e2 :
  match f64_mul (S754_finite false m1 e1) (S754_finite false m2 e2) with S754_finite true _ _ => False | _ => True end.
Proof.
  unfold f64_mul, SFmul. cbn [xorb]. unfold binary_round_aux.
  destruct (shr_fexp _ _ _ _ _) as [mrs e]. destruct (shr_fexp _ _ _ _ _) as [mrs' e'].
  destruct (shr_m mrs'); [done| |done]. by destruct (e' <=? _).
Qed.

Lemma from_f64_range x n : from_f64 x = inr n -> 0 <= n <= i128_max.
Proof.
  unfold from_f64. destruct (f64_is_finite x) eqn:Hf; [|done]. destruct (SFltb x f64_zero) eqn:Hneg; [done|].
  destruct (_ || _); [done|]. intros [= <-].
  assert (0 <= f64_round (f64_mul x BUDGET_AMOUNT_SCALE)); [|unfold i128_max; lia].
  destruct x as [[]|[]| |[] m e]; try done. change BUDGET_AMOUNT_SCALE with (S754_finite false 8388608000000000 (-23)).
  pose proof (mul_sign m e 8388608000000000 (-23)) as Hs.
  destruct (f64_mul _ _) as [[]|[]| |[] m' e']; try done. cbn [f64_round].
  destruct (0 <=? e'); [apply Z.mul_nonneg_nonneg; [lia|apply Z.pow_nonneg; lia]|].
  pose proof (Z.pow_nonneg 2 (- e') ltac:(lia)).
  destruct (Z.eq_dec (2 * 2 ^ (- e')) 0) as [->|]; [by rewrite Zdiv_0_r|apply Z.div_pos; lia].
Qed.

(** * The check and the reservation agree *)

(** No more is outstanding for a budget than it has spent: a budget of one
    process keeps this ([BudgetConservation.keeps]). *)
Definition covered (name : string) (m : LimitManager) : Prop :=
  forall b spend, lm_budgets m !! name = Some b -> from_f64 (lb_current_spend b) = inr spend ->
    0 <= outstanding_of m name <= spend.

Lemma add_outstanding_fits name n m : 0 <= n -> 0 <= outstanding_of m name -> outstanding_of m name + n <= i128_max ->
  exists m', add_outstanding name n m = inr m'.
Proof.
  unfold add_outstanding, outstanding_of. intros Hn Ho Hsum. destruct (lm_reserved_spend m !! name) as [held|]; [|eauto].
  cbn in *. unfold amount_checked_add. unfold i128_max in *.
  rewrite (proj2 (Z.leb_le _ _)), (proj2 (Z.leb_le _ _)) by lia. eauto.
Qed.

Lemma can_spend_reserves `{Calendar} name amount now env m st :
  lm_backend m = InProcess -> covered name m ->
  let '(_, st', r) := reserve_spend name amount now env m st in
  st' = st /\ can_spend name amount m = match r with inr _ => true | inl _ => false end.
Proof.
  intros Hbk Hcov. unfold can_spend, reserve_spend. destruct (from_f64 amount) as [e|n] eqn:Hn; cbn [invalid]; [done|].
  destruct (lm_enabled m); cbn [negb]; [|done]. destruct (lm_budgets m !! name) as [b|] eqn:Hb; [|done].
  unfold limit_can_spend, reserve_local, budget_can_spend, add_budget_spend. rewrite Hn, Hbk. cbn [is_distributed].
  destruct (lb_enabled b); cbn [negb]; [|done].
  destruct (from_f64 (lb_current_spend b)) as [|cur] eqn:Hcur; [done|].
  destruct (from_f64 (lb_max_budget b)) as [|max] eqn:Hmax; [done|].
  destruct (amount_checked_add cur n) as [|total] eqn:Hadd; [done|]. cbn [invalid].
  destruct (Z.leb_spec total max) as [Hle|]; [|done].
  destruct (Hcov b cur Hb Hcur) as [Ho1 Ho2]. pose proof (from_f64_range _ _ Hn). pose proof (from_f64_range _ _ Hmax).
  assert (total = cur + n) as -> by (unfold amount_checked_add in Hadd; repeat case_match; congruence).
  destruct (add_outstanding_fits name n m) as [m' Hm']; [lia|lia|lia|]. by rewrite Hm'.
Qed.

(** What a refusal of one scope is told as: the scope is out of budget, or the
    amount cannot be read. *)
Lemma reserve_spend_error `{Calendar} name amount now env m st e :
  lm_backend m = InProcess -> (reserve_spend name amount now env m st).2 = inl e ->
  e = exceeded_error (lm_scope m) \/ exists error, e = InvalidAmount error.
Proof.
  intros Hbk. unfold reserve_spend, reserve_local, add_outstanding, invalid. rewrite Hbk. cbn [is_distributed].
  repeat case_match; cbn; simplify_eq; intros; simplify_eq; eauto.
Qed.

(** C15: where no shared backend is attached and no budget has more outstanding
    than it has spent, which budgets of one process keep, a request is allowed by
    the check exactly when the reservation made in its place is granted, whatever the
    estimated cost; the reservation fails as the first scope that refuses does,
    the provider before the model, and the reason of the check names that scope:
    the provider when the reservation reports the provider's budget exceeded,
    the model when it reports the model's. *)
Theorem budget_check_exact `{Calendar} (provider model : string) (cost : spec_float) (now : Z) (env : UnifiedEnv)
    (r : BudgetAwareRouter) (st : BudgetStore) :
  let providers := ul_providers (bw_limits r) in
  let models := ul_models (bw_limits r) in
  lm_backend providers = InProcess -> lm_backend models = InProcess ->
  lm_scope providers = ScopeProvider -> lm_scope models = ScopeModel ->
  covered provider providers -> covered model models ->
  let check := can_make_request provider model cost r in
  let result := (reserve_request provider model cost now env r st).2 in
  let blames_provider := rc_reason check = Some ("Provider '" +:+ provider +:+ "' has exceeded budget") in
  let blames_model := rc_reason check = Some ("Model '" +:+ model +:+ "' has exceeded budget") in
  match (reserve_spend provider cost now (ue_provider env) providers st).2,
        (reserve_spend model cost now (ue_model env) models st).2 with
  | inl e, _ => rc_allowed check = false /\ result = inl e /\ blames_provider
  | inr _, inl e => rc_allowed check = false /\ result = inl e /\ blames_model
  | inr p, inr m =>
      rc_allowed check = true /\ result = inr (mkUnifiedReservation p m) /\ rc_reason check = None
  end /\
  (result = inl ProviderBudgetExceeded -> blames_provider) /\
  (result = inl ModelBudgetExceeded -> blames_model).
Proof.
  intros providers models Hp Hm Hsp Hsm Hcp Hcm check result blames_provider blames_model.
  pose proof (can_spend_reserves provider cost now (ue_provider env) providers st Hp Hcp) as HP.
  pose proof (can_spend_reserves model cost now (ue_model env) models st Hm Hcm) as HM.
  pose proof (fun e => reserve_spend_error provider cost now (ue_provider env) providers st e Hp) as EP.
  pose proof (fun e => reserve_spend_error model cost now (ue_model env) models st e Hm) as EM.
  rewrite Hsp in EP. rewrite Hsm in EM. unfold blames_provider, blames_model, check, result.
  unfold can_make_request, reserve_request, unified_reserve, check_scope.
  cbn [rc_allowed rc_reason ck_allowed]. fold providers models.
  destruct (reserve_spend provider _ _ _ _ _) as [[p st1] rp]. destruct HP as [-> ->].
  destruct rp as [e|rp]; cbn [fst snd] in *.
  { destruct (EP e eq_refl) as [->|[error ->]]; cbn; done. }
  destruct (reserve_spend model _ _ _ _ _) as [[m st2] rm]. destruct HM as [-> ->].
  destruct rm as [e|rm]; cbn [fst snd] in *; [|done].
  destruct (reservation_cancel _ _ _ _ _ _). destruct (EM e eq_refl) as [->|[error ->]]; cbn; done.
Qed.

(** * The order by what is left *)

Lemma insert_by_perm le x l : insert_by le x l ≡ₚ x :: l.
Proof.
  induction l as [|y l IH]; [done|]. cbn. destruct (le x y); [done|]. rewrite IH. apply Permutation_swap.
Qed.

Lemma sort_by_perm le l : sort_by le l ≡ₚ l.
Proof. induction l as [|x l IH]; [done|]. cbn. by rewrite insert_by_perm, IH. Qed.

(** The order loses no available provider and adds none. *)
Lemma remaining_order_complete (providers : list string) (r : BudgetAwareRouter) :
  get_providers_by_remaining_budget providers r ≡ₚ
  filter (fun p => is_provider_available p (bw_limits r) = true) providers.
Proof.
  unfold get_providers_by_remaining_budget. rewrite sort_by_perm.
  generalize (filter (fun p => is_provider_available p (bw_limits r) = true) providers). intros l.
  induction l as [|p l IH]; [done|]. cbn. by rewrite IH.
Qed.

(** Ten dollars for the provider and one for the model. *)
#[local] Instance days : Calendar := {|
  date_naive := fun t => t / 86400; iso_week := fun t => (0, t / 604800);
  year_month := fun t => (0, t / 2592000); midnight := fun t => t; monday_midnight := fun t => t;
  first_of_month := fun t => t |}.

Definition small_budgets : BudgetAwareRouter :=
  budget_router_new (mkUnified
    (set_limit "openai" (limit_config_new (f64_of_Z 10) Daily) 0 (limit_manager_new ScopeProvider))
    (set_limit "gpt-4" (limit_config_new (f64_of_Z 1) Daily) 0 (limit_manager_new ScopeModel))).

Definition no_env : UnifiedEnv :=
  let env := mkEnv call_ok 0 "" in mkUnifiedEnv env env env env env.

Lemma small_budgets_covered :
  covered "openai" (ul_providers (bw_limits small_budgets)) /\
  covered "gpt-4" (ul_models (bw_limits small_budgets)).
Proof. split; intros b spend Hb Hs; apply from_f64_range in Hs; vm_compute; by destruct spend, Hs. Qed.

(** A dollar is granted; four are more than the model has left, and twelve more
    than the provider has. *)
Lemma budget_check_exact_witness :
  (exists reservation, (reserve_request "openai" "gpt-4" (f64_of_Z 1) 1 no_env small_budgets ∅).2 = inr reservation) /\
  rc_reason (can_make_request "openai" "gpt-4" (f64_of_Z 4) small_budgets) = Some "Model 'gpt-4' has exceeded budget" /\
  rc_reason (can_make_request "openai" "gpt-4" (f64_of_Z 12) small_budgets)
  = Some "Provider 'openai' has exceeded budget".
Proof.
  destruct small_budgets_covered as [Hp Hm].
  split_and!.
  - destruct (budget_check_exact "openai" "gpt-4" (f64_of_Z 1) 1 no_env small_budgets ∅
      eq_refl eq_refl eq_refl eq_refl Hp Hm) as [H _].
    destruct (reserve_spend "openai" _ _ _ _ _).2 as [e|p] eqn:E1; [vm_compute in E1; discriminate|].
    destruct (reserve_spend "gpt-4" _ _ _ _ _).2 as [e|m] eqn:E2; [vm_compute in E2; discriminate|].
    eexists. apply H.
  - apply (budget_check_exact "openai" "gpt-4" (f64_of_Z 4) 1 no_env small_budgets ∅
      eq_refl eq_refl eq_refl eq_refl Hp Hm). by vm_compute.
  - apply (budget_check_exact "openai" "gpt-4" (f64_of_Z 12) 1 no_env small_budgets ∅
      eq_refl eq_refl eq_refl eq_refl Hp Hm). by vm_compute.
Defined.
