(* ===== verification/CacheTypes.v ===== *)
(** The data of the response cache ([core/cache/types.rs]): keys, entries and
    their expiry, the form an entry has in Redis, the configuration and the
    counters.

    An [Instant] is in nanoseconds, a Unix time in seconds; a function that
    reads a clock takes each reading as an argument, in the order of the code. *)

From Stdlib Require Import Floats.SpecFloat.
From S2P Require Import Prelude Float64.

(** * Keys *)

Record CacheKey := mkCacheKey { ck_key : string; ck_hash : Z }.

#[export] Instance CacheKey_eq_dec : EqDecision CacheKey.
Proof. solve_decision. Defined.

#[export] Instance CacheKey_countable : Countable CacheKey.
Proof.
  refine (inj_countable' (fun k => (ck_key k, ck_hash k)) (fun p => mkCacheKey p.1 p.2) _).
  by intros [].
Defined.

(** SHA-256, of a library: the digest's bytes. *)
Class Sha256 := { sha256 : string -> list Z }.

(** [u64::from_be_bytes] of the first eight bytes. *)
Definition from_be_bytes (bytes : list Z) : Z := foldl (fun n b => 256 * n + b) 0 bytes.

Section Keys.
Context `{Sha256}.

Definition compute_hash (key : string) : Z := from_be_bytes (take 8 (sha256 key)).

Definition cache_key_new (key : string) : CacheKey := mkCacheKey key (compute_hash key).

Definition cache_key_from_parts (prefix : string) (parts : list string) : CacheKey :=
  cache_key_new (join ":" (prefix :: parts)).
End Keys.

Definition to_redis_key (k : CacheKey) : string := "litellm:cache:" +:+ ck_key k.

(** * Entries *)

Record CacheEntry (T : Type) := mkEntry {
  ce_value : T;
  ce_ttl : Z;
  ce_created_at : Z;
  ce_expires_at_unix : Z;
  ce_access_count : Z;
  ce_last_accessed : Z;
  ce_size_bytes : Z;
}.
Arguments mkEntry {T} _ _ _ _ _ _ _.
Arguments ce_value {T} _.
Arguments ce_ttl {T} _.
Arguments ce_created_at {T} _.
Arguments ce_expires_at_unix {T} _.
Arguments ce_access_count {T} _.
Arguments ce_last_accessed {T} _.
Arguments ce_size_bytes {T} _.

(** [Instant::elapsed]: zero when the instant is later than [now]. *)
Definition elapsed (created_at now : Z) : Z := sat_sub now created_at.

Section Entries.
Context {T : Type}.
Implicit Types (e : CacheEntry T) (v : T).

Definition entry_new v (ttl now now_unix : Z) : CacheEntry T :=
  mkEntry v ttl now (wrap_u64 (now_unix + as_secs ttl)) 0 now 0.

Definition entry_with_size v (ttl now now_unix size_bytes : Z) : CacheEntry T :=
  let e := entry_new v ttl now now_unix in
  mkEntry (ce_value e) (ce_ttl e) (ce_created_at e) (ce_expires_at_unix e) (ce_access_count e)
    (ce_last_accessed e) size_bytes.

Definition entry_is_expired e (now : Z) : bool := ce_ttl e <? elapsed (ce_created_at e) now.

(** The clock is read twice, first for [is_expired]. *)
Definition entry_remaining_ttl e (now1 now2 : Z) : option Z :=
  if entry_is_expired e now1 then None else Some (sat_sub (ce_ttl e) (elapsed (ce_created_at e) now2)).

Definition entry_touch e (now : Z) : CacheEntry T :=
  mkEntry (ce_value e) (ce_ttl e) (ce_created_at e) (ce_expires_at_unix e)
    (wrap_u64 (ce_access_count e + 1)) now (ce_size_bytes e).

Definition entry_age e (now : Z) : Z := elapsed (ce_created_at e) now.
End Entries.

(** * Entries in Redis *)

Record SerializableCacheEntry (T : Type) := mkSerializable {
  se_value : T;
  se_ttl_secs : Z;
  se_created_at_unix : Z;
  se_expires_at_unix : Z;
  se_access_count : Z;
  se_size_bytes : Z;
}.
Arguments mkSerializable {T} _ _ _ _ _ _.
Arguments se_value {T} _.
Arguments se_ttl_secs {T} _.
Arguments se_created_at_unix {T} _.
Arguments se_expires_at_unix {T} _.
Arguments se_access_count {T} _.
Arguments se_size_bytes {T} _.

Section Serializable.
Context {T : Type}.
Implicit Types (e : CacheEntry T) (s : SerializableCacheEntry T).

Definition serializable_from e (now_unix now : Z) : SerializableCacheEntry T :=
  mkSerializable (ce_value e) (as_secs (ce_ttl e))
    (sat_sub now_unix (as_secs (elapsed (ce_created_at e) now)))
    (ce_expires_at_unix e) (ce_access_count e) (ce_size_bytes e).

(** [Instant::now() - Duration::from_secs(age_secs)]: an [Instant] is signed
    where the gateway runs. *)
Definition into_cache_entry s (now_unix now1 now2 : Z) : CacheEntry T :=
  let age_secs := sat_sub now_unix (se_created_at_unix s) in
  mkEntry (se_value s) (from_secs (se_ttl_secs s)) (now1 - from_secs age_secs)
    (se_expires_at_unix s) (se_access_count s) now2 (se_size_bytes s).

Definition serializable_is_expired s (now_unix : Z) : bool := se_expires_at_unix s <=? now_unix.
End Serializable.

(** * Configuration *)

Inductive EvictionPolicy := LRU | LFU | TTL | FIFO.

#[export] Instance EvictionPolicy_eq_dec : EqDecision EvictionPolicy.
Proof. solve_decision. Defined.

Definition eviction_policy_str (p : EvictionPolicy) : string :=
  match p with LRU => "lru" | LFU => "lfu" | TTL => "ttl" | FIFO => "fifo" end.

Inductive CacheMode := MemoryOnly | RedisOnly | Dual.

#[export] Instance CacheMode_eq_dec : EqDecision CacheMode.
Proof. solve_decision. Defined.

Record DualCacheConfig := mkDualCacheConfig {
  max_size : Z;
  default_ttl : Z;
  eviction_policy : EvictionPolicy;
  mode : CacheMode;
  enable_stats : bool;
  cleanup_interval : Z;
  key_prefix : string;
  enable_compression : bool;
  compression_threshold : Z;
}.

Definition DualCacheConfig_default : DualCacheConfig :=
  mkDualCacheConfig 10000 (from_secs 3600) LRU Dual true (from_secs 60) "litellm:cache" false 1024.

Definition config_memory_only : DualCacheConfig :=
  mkDualCacheConfig 10000 (from_secs 3600) LRU MemoryOnly true (from_secs 60) "litellm:cache" false 1024.

Definition config_redis_only : DualCacheConfig :=
  mkDualCacheConfig 10000 (from_secs 3600) LRU RedisOnly true (from_secs 60) "litellm:cache" false 1024.

Definition with_max_size (c : DualCacheConfig) (size : Z) : DualCacheConfig :=
  mkDualCacheConfig size (default_ttl c) (eviction_policy c) (mode c) (enable_stats c)
    (cleanup_interval c) (key_prefix c) (enable_compression c) (compression_threshold c).

Definition with_ttl (c : DualCacheConfig) (ttl : Z) : DualCacheConfig :=
  mkDualCacheConfig (max_size c) ttl (eviction_policy c) (mode c) (enable_stats c)
    (cleanup_interval c) (key_prefix c) (enable_compression c) (compression_threshold c).

Definition with_eviction_policy (c : DualCacheConfig) (p : EvictionPolicy) : DualCacheConfig :=
  mkDualCacheConfig (max_size c) (default_ttl c) p (mode c) (enable_stats c)
    (cleanup_interval c) (key_prefix c) (enable_compression c) (compression_threshold c).

(** * Counters

    [AtomicCacheStats] and its [snapshot], which loads every counter. *)

Record CacheStats := mkStats {
  memory_hits : Z;
  memory_misses : Z;
  redis_hits : Z;
  redis_misses : Z;
  writes : Z;
  deletions : Z;
  evictions : Z;
  entry_count : Z;
  total_size_bytes : Z;
}.

Definition stats_new : CacheStats := mkStats 0 0 0 0 0 0 0 0 0.

Section Stats.
Variable s : CacheStats.

Definition record_memory_hit : CacheStats :=
  mkStats (wrap_u64 (memory_hits s + 1)) (memory_misses s) (redis_hits s) (redis_misses s) (writes s)
    (deletions s) (evictions s) (entry_count s) (total_size_bytes s).
Definition record_memory_miss : CacheStats :=
  mkStats (memory_hits s) (wrap_u64 (memory_misses s + 1)) (redis_hits s) (redis_misses s) (writes s)
    (deletions s) (evictions s) (entry_count s) (total_size_bytes s).
Definition record_redis_hit : CacheStats :=
  mkStats (memory_hits s) (memory_misses s) (wrap_u64 (redis_hits s + 1)) (redis_misses s) (writes s)
    (deletions s) (evictions s) (entry_count s) (total_size_bytes s).
Definition record_redis_miss : CacheStats :=
  mkStats (memory_hits s) (memory_misses s) (redis_hits s) (wrap_u64 (redis_misses s + 1)) (writes s)
    (deletions s) (evictions s) (entry_count s) (total_size_bytes s).
Definition record_write : CacheStats :=
  mkStats (memory_hits s) (memory_misses s) (redis_hits s) (redis_misses s) (wrap_u64 (writes s + 1))
    (deletions s) (evictions s) (entry_count s) (total_size_bytes s).
Definition record_deletion : CacheStats :=
  mkStats (memory_hits s) (memory_misses s) (redis_hits s) (redis_misses s) (writes s)
    (wrap_u64 (deletions s + 1)) (evictions s) (entry_count s) (total_size_bytes s).
Definition record_eviction : CacheStats :=
  mkStats (memory_hits s) (memory_misses s) (redis_hits s) (redis_misses s) (writes s)
    (deletions s) (wrap_u64 (evictions s + 1)) (entry_count s) (total_size_bytes s).
Definition set_entry_count (count : Z) : CacheStats :=
  mkStats (memory_hits s) (memory_misses s) (redis_hits s) (redis_misses s) (writes s)
    (deletions s) (evictions s) count (total_size_bytes s).
Definition set_total_size (size : Z) : CacheStats :=
  mkStats (memory_hits s) (memory_misses s) (redis_hits s) (redis_misses s) (writes s)
    (deletions s) (evictions s) (entry_count s) size.
Definition add_total_size (size : Z) : CacheStats :=
  set_total_size (wrap_u64 (total_size_bytes s + size)).
Definition sub_total_size (size : Z) : CacheStats :=
  set_total_size (sat_sub (total_size_bytes s) size).

Definition total_hits : Z := wrap_u64 (memory_hits s + redis_hits s).
Definition total_misses : Z := wrap_u64 (memory_misses s + redis_misses s).
Definition total_requests : Z := wrap_u64 (total_hits + total_misses).

(** [hits as f64 / total as f64], zero when there was no request. *)
Definition rate (hits total : Z) : spec_float :=
  if total =? 0 then f64_zero else f64_div (f64_of_Z hits) (f64_of_Z total).

Definition hit_rate : spec_float := rate total_hits total_requests.
Definition memory_hit_rate : spec_float :=
  rate (memory_hits s) (wrap_u64 (memory_hits s + memory_misses s)).
Definition redis_hit_rate : spec_float :=
  rate (redis_hits s) (wrap_u64 (redis_hits s + redis_misses s)).
End Stats.

Definition stats_reset (_ : CacheStats) : CacheStats := stats_new.

(** * Expiry *)

Section Expiry.
Context {T : Type}.
Implicit Types e : CacheEntry T.

(** An entry whose creation is not in the future expires once its age exceeds
    its time to live. *)
Lemma expired_after e now : 0 <= ce_ttl e -> entry_is_expired e now = true <-> ce_created_at e + ce_ttl e < now.
Proof. unfold entry_is_expired, elapsed, sat_sub. intros. rewrite Z.ltb_lt. lia. Qed.

Lemma expired_monotone e now now' : now <= now' -> entry_is_expired e now = true -> entry_is_expired e now' = true.
Proof. unfold entry_is_expired, elapsed, sat_sub. rewrite !Z.ltb_lt. lia. Qed.

(** An entry read back from Redis at once has the same value and counters; its
    times are those of the first one, up to the second. *)
Lemma serializable_roundtrip e now_unix now :
  0 <= ce_ttl e -> 0 <= ce_created_at e <= now -> 0 <= as_secs (elapsed (ce_created_at e) now) <= now_unix ->
  let e' := into_cache_entry (serializable_from e now_unix now) now_unix now now in
  ce_value e' = ce_value e /\ ce_size_bytes e' = ce_size_bytes e /\ ce_access_count e' = ce_access_count e /\
  ce_expires_at_unix e' = ce_expires_at_unix e /\
  ce_ttl e - 10 ^ 9 < ce_ttl e' <= ce_ttl e /\
  ce_created_at e <= ce_created_at e' < ce_created_at e + 10 ^ 9.
Proof.
  unfold into_cache_entry, serializable_from, elapsed, sat_sub, as_secs, from_secs. simpl.
  intros Httl Hc Ha. rewrite (Z.max_r 0 (now - _)) in * by lia.
  set (a := (now - ce_created_at e)) in *.
  pose proof (Z.div_mod (ce_ttl e) (10 ^ 9) ltac:(lia)).
  pose proof (Z.mod_pos_bound (ce_ttl e) (10 ^ 9) ltac:(lia)).
  pose proof (Z.div_mod a (10 ^ 9) ltac:(lia)).
  pose proof (Z.mod_pos_bound a (10 ^ 9) ltac:(lia)).
  repeat split; try done; try lia.
Qed.
End Expiry.
