(* ===== verification/MemoryCache.v ===== *)
(** The in-memory layer of the response cache ([core/cache/memory.rs]): entries
    with a time to live, access metadata sharded by the key's hash, and per
    shard an index of the keys eviction samples.

    This file holds the operations, each run without interference; the steps
    they interleave in are those of [MemoryCacheThreads].  An operation is given
    the readings of the clocks it takes; one eviction is given one. *)

From S2P Require Import Prelude CacheTypes.

(** The [LruCache] of the crate [lru], as the candidate indexes use it. *)
Class LruCache (Q : Type) := {
  lru_unbounded : Q;
  lru_put : CacheKey -> Q -> Q;
  lru_pop : CacheKey -> Q -> Q;
  lru_promote : CacheKey -> Q -> Q;
  lru_peek : Q -> option CacheKey;
  lru_clear : Q -> Q;
  lru_len : Q -> nat;
}.

(** Its documented behaviour, on the keys from the least recently used on. *)
Class LawfulLruCache (Q : Type) `{LruCache Q} := {
  lru_keys : Q -> list CacheKey;
  lru_keys_unbounded : lru_keys lru_unbounded = [];
  lru_keys_put k q : lru_keys (lru_put k q) = filter (fun k' => k' <> k) (lru_keys q) ++ [k];
  lru_keys_pop k q : lru_keys (lru_pop k q) = filter (fun k' => k' <> k) (lru_keys q);
  lru_keys_promote k q : k ∈ lru_keys q ->
    lru_keys (lru_promote k q) = filter (fun k' => k' <> k) (lru_keys q) ++ [k];
  lru_peek_head q : lru_peek q = head (lru_keys q);
  lru_keys_clear q : lru_keys (lru_clear q) = [];
  lru_len_keys q : lru_len q = length (lru_keys q);
}.

(** * State *)

Definition EVICTION_SAMPLE_SIZE : nat := 64.
Definition MIN_ACCESS_SHARDS : Z := 4.
Definition MAX_ACCESS_SHARDS : Z := 64.

Record CacheAccessMeta := mkMeta { last_access_tick : Z; am_access_count : Z }.

Definition meta_new (insert_tick : Z) : CacheAccessMeta := mkMeta insert_tick 0.

Definition meta_record_access (m : CacheAccessMeta) (tick : Z) : CacheAccessMeta * Z :=
  (mkMeta tick (wrap_u64 (am_access_count m + 1)), wrap_u64 (am_access_count m + 1)).

Definition meta_reset_for_insert (m : CacheAccessMeta) (tick : Z) : CacheAccessMeta := mkMeta tick 0.

Definition meta_snapshot (m : CacheAccessMeta) : Z * Z := (last_access_tick m, am_access_count m).

Record EvictionCandidate := mkCandidate {
  cand_key : CacheKey;
  cand_last_access_tick : Z;
  cand_access_count : Z;
  cand_created_at : Z;
  cand_remaining_ttl : option Z;
}.

(** A shard of [access_meta] and the one of [access_queue] of the same index. *)
Record AccessShard (Q : Type) := mkShard {
  access_meta : gmap CacheKey CacheAccessMeta;
  access_queue : Q;
}.
Arguments mkShard {Q} _ _.
Arguments access_meta {Q} _.
Arguments access_queue {Q} _.

Record InMemoryCache (T Q : Type) := mkCache {
  mc_cache : gmap CacheKey (CacheEntry T);
  mc_shards : list (AccessShard Q);
  mc_access_clock : Z;
  mc_eviction_cursor : Z;
  mc_config : DualCacheConfig;
  mc_stats : CacheStats;
}.
Arguments mkCache {T Q} _ _ _ _ _ _.
Arguments mc_cache {T Q} _.
Arguments mc_shards {T Q} _.
Arguments mc_access_clock {T Q} _.
Arguments mc_eviction_cursor {T Q} _.
Arguments mc_config {T Q} _.
Arguments mc_stats {T Q} _.

(** [usize::next_power_of_two], then [clamp]. *)
Definition default_access_shard_count (available_parallelism : option Z) : Z :=
  let n := default MIN_ACCESS_SHARDS available_parallelism in
  Z.min MAX_ACCESS_SHARDS (Z.max MIN_ACCESS_SHARDS (2 ^ Z.log2_up n)).

Section Operations.
Context {T Q : Type} `{LruCache Q}.
Implicit Types (c : InMemoryCache T Q) (key : CacheKey) (e : CacheEntry T).

Definition memory_with_stats (available_parallelism : option Z) (config : DualCacheConfig)
    (stats : CacheStats) : InMemoryCache T Q :=
  mkCache ∅
    (replicate (Z.to_nat (default_access_shard_count available_parallelism)) (mkShard ∅ lru_unbounded))
    0 0 config stats.

Definition memory_new (available_parallelism : option Z) (config : DualCacheConfig) : InMemoryCache T Q :=
  memory_with_stats available_parallelism config stats_new.

Definition set_cache c (m : gmap CacheKey (CacheEntry T)) : InMemoryCache T Q :=
  mkCache m (mc_shards c) (mc_access_clock c) (mc_eviction_cursor c) (mc_config c) (mc_stats c).
Definition set_shards c (s : list (AccessShard Q)) : InMemoryCache T Q :=
  mkCache (mc_cache c) s (mc_access_clock c) (mc_eviction_cursor c) (mc_config c) (mc_stats c).
Definition set_cursor c (cursor : Z) : InMemoryCache T Q :=
  mkCache (mc_cache c) (mc_shards c) (mc_access_clock c) cursor (mc_config c) (mc_stats c).
Definition upd_stats c (f : CacheStats -> CacheStats) : InMemoryCache T Q :=
  mkCache (mc_cache c) (mc_shards c) (mc_access_clock c) (mc_eviction_cursor c) (mc_config c)
    (f (mc_stats c)).

Definition memory_len c : Z := Z.of_nat (size (mc_cache c)).
Definition memory_is_empty c : bool := memory_len c =? 0.
Definition memory_keys c : list CacheKey := elements (dom (mc_cache c)).

(** [self.stats.set_entry_count(self.cache.len())]. *)
Definition count_entries c : InMemoryCache T Q :=
  upd_stats c (fun s => set_entry_count s (memory_len c)).

(** [DashMap::remove_if]. *)
Definition remove_if c key (p : CacheEntry T -> bool) : option (InMemoryCache T Q * CacheEntry T) :=
  match mc_cache c !! key with
  | Some e => if p e then Some (set_cache c (delete key (mc_cache c)), e) else None
  | None => None
  end.

(** * Access metadata *)

(** [fetch_add(1) + 1]. *)
Definition next_access_tick c : InMemoryCache T Q * Z :=
  let tick := wrap_u64 (mc_access_clock c + 1) in
  (mkCache (mc_cache c) (mc_shards c) tick (mc_eviction_cursor c) (mc_config c) (mc_stats c), tick).

Definition access_shard_index c key : nat :=
  Z.to_nat (ck_hash key mod Z.of_nat (length (mc_shards c))).

Definition shard_at c (i : nat) : AccessShard Q := nth i (mc_shards c) (mkShard ∅ lru_unbounded).

Definition put_shard c (i : nat) (s : AccessShard Q) : InMemoryCache T Q :=
  set_shards c (<[i := s]> (mc_shards c)).

Definition reset_access_meta_for_insert c key : InMemoryCache T Q :=
  let i := access_shard_index c key in
  if decide (mc_cache c !! key = None) then c
  else
    let '(c, tick) := next_access_tick c in
    let s := shard_at c i in
    let m := match access_meta s !! key with
             | Some meta => meta_reset_for_insert meta tick
             | None => meta_new tick
             end in
    put_shard c i (mkShard (<[key := m]> (access_meta s)) (lru_put key (access_queue s))).

Definition record_access c key : InMemoryCache T Q * Z :=
  let '(c, tick) := next_access_tick c in
  let i := access_shard_index c key in
  let s := shard_at c i in
  match access_meta s !! key with
  | Some meta =>
      let '(meta, count) := meta_record_access meta tick in
      (put_shard c i (mkShard (<[key := meta]> (access_meta s)) (access_queue s)), count)
  | None => (c, 0)
  end.

Definition remove_access_meta c key : InMemoryCache T Q :=
  let i := access_shard_index c key in
  if decide (mc_cache c !! key = None) then
    let s := shard_at c i in
    put_shard c i (mkShard (delete key (access_meta s)) (lru_pop key (access_queue s)))
  else c.

(** * Eviction *)

(** The rotation of [sample_eviction_keys], [attempts] times. *)
Fixpoint rotate (attempts : nat) (queue : Q) : Q * list CacheKey :=
  match attempts with
  | O => (queue, [])
  | S attempts =>
      match lru_peek queue with
      | None => (queue, [])
      | Some key =>
          let '(queue, sampled) := rotate attempts (lru_promote key queue) in
          (queue, key :: sampled)
      end
  end.

Definition sample_eviction_keys c (shard_index budget : nat) : InMemoryCache T Q * list CacheKey :=
  if Nat.eqb budget 0 then (c, [])
  else
    let s := shard_at c shard_index in
    let attempts := Nat.min (Nat.min (budget * 2) EVICTION_SAMPLE_SIZE) (lru_len (access_queue s)) in
    let '(queue, sampled) := rotate attempts (access_queue s) in
    (put_shard c shard_index (mkShard (access_meta s) queue), sampled).

(** [EvictionCandidate { .. }] of a sampled key, when its metadata and its
    entry are there; a key without an entry loses its metadata. *)
Definition inspect c (shard_index : nat) (now : Z) key : InMemoryCache T Q * option (EvictionCandidate * CacheEntry T) :=
  match access_meta (shard_at c shard_index) !! key with
  | None => (c, None)
  | Some meta =>
      match mc_cache c !! key with
      | Some e =>
          let '(tick, count) := meta_snapshot meta in
          (c, Some (mkCandidate key tick count (ce_created_at e) (entry_remaining_ttl e now now), e))
      | None => (remove_access_meta c key, None)
      end
  end.

(** [for key in sampled] of [eviction_candidates]. *)
Fixpoint inspect_all c (shard_index target : nat) (now : Z) (sampled : list CacheKey)
    (candidates : list EvictionCandidate) : InMemoryCache T Q * list EvictionCandidate :=
  match sampled with
  | [] => (c, candidates)
  | key :: sampled =>
      let '(c, r) := inspect c shard_index now key in
      let candidates :=
        match r with
        | Some (cand, _) => if Nat.ltb (length candidates) target then candidates ++ [cand] else candidates
        | None => candidates
        end in
      inspect_all c shard_index target now sampled candidates
  end.

(** [for offset in 0..shard_count] of [eviction_candidates]. *)
Fixpoint collect c (start target : nat) (now : Z) (offsets : list nat)
    (candidates : list EvictionCandidate) : InMemoryCache T Q * list EvictionCandidate :=
  match offsets with
  | [] => (c, candidates)
  | offset :: offsets =>
      if Nat.leb target (length candidates) then (c, candidates)
      else
        let shard_index := Nat.modulo (start + offset) (length (mc_shards c)) in
        let '(c, sampled) := sample_eviction_keys c shard_index (target - length candidates) in
        let '(c, candidates) := inspect_all c shard_index target now sampled candidates in
        collect c start target now offsets candidates
  end.

(** [fetch_add(1) % shard_count] on the cursor. *)
Definition next_start c : InMemoryCache T Q * nat :=
  (set_cursor c (wrap_u64 (mc_eviction_cursor c + 1)),
   Z.to_nat (mc_eviction_cursor c mod Z.of_nat (length (mc_shards c)))).

Definition eviction_candidates c (now : Z) : InMemoryCache T Q * list EvictionCandidate :=
  let target := Nat.min (size (mc_cache c)) EVICTION_SAMPLE_SIZE in
  if memory_is_empty c then (c, [])
  else
    let '(c, start) := next_start c in
    collect c start target now (seq 0 (length (mc_shards c))) [].

(** [for key in sampled] of [expired_eviction_candidate]. *)
Fixpoint inspect_expired c (shard_index : nat) (now : Z) (sampled : list CacheKey)
    (expired : option EvictionCandidate) : InMemoryCache T Q * option EvictionCandidate :=
  match sampled with
  | [] => (c, expired)
  | key :: sampled =>
      let '(c, r) := inspect c shard_index now key in
      let expired :=
        match r, expired with
        | Some (cand, e), None => if entry_is_expired e now then Some cand else None
        | _, _ => expired
        end in
      inspect_expired c shard_index now sampled expired
  end.

Fixpoint collect_expired c (start inspected : nat) (now : Z) (offsets : list nat)
    : InMemoryCache T Q * option EvictionCandidate :=
  match offsets with
  | [] => (c, None)
  | offset :: offsets =>
      if Nat.leb EVICTION_SAMPLE_SIZE inspected then (c, None)
      else
        let shard_index := Nat.modulo (start + offset) (length (mc_shards c)) in
        let '(c, sampled) := sample_eviction_keys c shard_index (EVICTION_SAMPLE_SIZE - inspected) in
        let inspected := (inspected + length sampled)%nat in
        let '(c, expired) := inspect_expired c shard_index now sampled None in
        match expired with
        | Some cand => (c, Some cand)
        | None => collect_expired c start inspected now offsets
        end
  end.

Definition expired_eviction_candidate c (now : Z) : InMemoryCache T Q * option EvictionCandidate :=
  let '(c, start) := next_start c in
  collect_expired c start 0 now (seq 0 (length (mc_shards c))).

(** [Iterator::min_by_key]: the first of the least elements. *)
Fixpoint min_by {A} (lt : A -> A -> bool) (best : A) (l : list A) : A :=
  match l with
  | [] => best
  | x :: l => min_by lt (if lt x best then x else best) l
  end.

Definition min_by_key (lt : EvictionCandidate -> EvictionCandidate -> bool)
    (l : list EvictionCandidate) : option EvictionCandidate :=
  match l with [] => None | x :: l => Some (min_by lt x l) end.

Definition lru_lt (a b : EvictionCandidate) : bool :=
  cand_last_access_tick a <? cand_last_access_tick b.
Definition lfu_lt (a b : EvictionCandidate) : bool :=
  (cand_access_count a <? cand_access_count b)
  || ((cand_access_count a =? cand_access_count b) && lru_lt a b).
Definition ttl_lt (a b : EvictionCandidate) : bool :=
  default 0 (cand_remaining_ttl a) <? default 0 (cand_remaining_ttl b).
Definition fifo_lt (a b : EvictionCandidate) : bool := cand_created_at a <? cand_created_at b.

Definition evict_candidate c (cand : EvictionCandidate) : InMemoryCache T Q * bool :=
  match remove_if c (cand_key cand) (fun e => ce_created_at e =? cand_created_at cand) with
  | Some (c, removed) =>
      let c := upd_stats c (fun s => sub_total_size s (ce_size_bytes removed)) in
      let c := upd_stats c record_eviction in
      let c := count_entries c in
      (remove_access_meta c (cand_key cand), true)
  | None => (remove_access_meta c (cand_key cand), false)
  end.

(** The body [evict_lru], [evict_lfu] and [evict_fifo] share. *)
Definition evict_least (lt : EvictionCandidate -> EvictionCandidate -> bool) c (now : Z)
    : InMemoryCache T Q * bool :=
  let '(c, candidates) := eviction_candidates c now in
  match min_by_key lt candidates with
  | Some cand => evict_candidate c cand
  | None => (c, false)
  end.

Definition evict_lru := evict_least lru_lt.
Definition evict_lfu := evict_least lfu_lt.
Definition evict_fifo := evict_least fifo_lt.

Definition evict_ttl c (now : Z) : InMemoryCache T Q * bool :=
  let '(c, expired) := expired_eviction_candidate c now in
  match expired with
  | Some cand => evict_candidate c cand
  | None => evict_least ttl_lt c now
  end.

Definition evict_by_policy c (now : Z) : InMemoryCache T Q * bool :=
  match eviction_policy (mc_config c) with
  | LRU => evict_lru c now
  | LFU => evict_lfu c now
  | TTL => evict_ttl c now
  | FIFO => evict_fifo c now
  end.

(** [for _ in 0..EVICTION_SAMPLE_SIZE]. *)
Fixpoint evict_attempts (attempts : nat) c (now : Z) : InMemoryCache T Q * bool :=
  match attempts with
  | O => (c, false)
  | S attempts =>
      let '(c, removed) := evict_by_policy c now in
      if removed || (memory_len c <? max_size (mc_config c)) then (c, removed)
      else evict_attempts attempts c now
  end.

Definition evict_one c (now : Z) : InMemoryCache T Q * bool := evict_attempts EVICTION_SAMPLE_SIZE c now.

(** * The public operations *)

(** The first branch of the lookups: an expired entry is removed. *)
Definition remove_expired c key (now : Z) : option (InMemoryCache T Q) :=
  match remove_if c key (fun e => entry_is_expired e now) with
  | Some (c, removed) =>
      let c := remove_access_meta c key in
      let c := upd_stats c (fun s => sub_total_size s (ce_size_bytes removed)) in
      Some (count_entries c)
  | None => None
  end.

Definition memory_get c key (now : Z) : InMemoryCache T Q * option T :=
  match remove_expired c key now with
  | Some c => (upd_stats c record_memory_miss, None)
  | None =>
      match mc_cache c !! key with
      | Some entry =>
          let '(c, _) := record_access c key in
          (upd_stats c record_memory_hit, Some (ce_value entry))
      | None => (upd_stats c record_memory_miss, None)
      end
  end.

Definition memory_peek c key (now : Z) : InMemoryCache T Q * option T :=
  match remove_expired c key now with
  | Some c => (c, None)
  | None =>
      match mc_cache c !! key with
      | Some entry => let '(c, _) := record_access c key in (c, Some (ce_value entry))
      | None => (c, None)
      end
  end.

(** [snapshot.access_count = ..; snapshot.last_accessed = ..]. *)
Definition accessed e (access_count now : Z) : CacheEntry T :=
  mkEntry (ce_value e) (ce_ttl e) (ce_created_at e) (ce_expires_at_unix e) access_count now
    (ce_size_bytes e).

Definition memory_get_entry c key (now1 now2 : Z) : InMemoryCache T Q * option (CacheEntry T) :=
  match remove_expired c key now1 with
  | Some c => (upd_stats c record_memory_miss, None)
  | None =>
      match mc_cache c !! key with
      | Some entry =>
          let '(c, access_count) := record_access c key in
          (upd_stats c record_memory_hit, Some (accessed entry access_count now2))
      | None => (upd_stats c record_memory_miss, None)
      end
  end.

Definition memory_peek_entry c key (now1 now2 : Z) : InMemoryCache T Q * option (CacheEntry T) :=
  match remove_expired c key now1 with
  | Some c => (c, None)
  | None =>
      match mc_cache c !! key with
      | Some entry =>
          let '(c, access_count) := record_access c key in
          (c, Some (accessed entry access_count now2))
      | None => (c, None)
      end
  end.

(** The part of [set_with_ttl] and of [set_with_size] after the entry is made. *)
Definition insert_entry c key (entry : CacheEntry T) : InMemoryCache T Q :=
  let old := mc_cache c !! key in
  let c := set_cache c (<[key := entry]> (mc_cache c)) in
  let c := reset_access_meta_for_insert c key in
  let c := upd_stats c record_write in
  let c := match old with
           | Some old_entry => upd_stats c (fun s => sub_total_size s (ce_size_bytes old_entry))
           | None => c
           end in
  let c := upd_stats c (fun s => add_total_size s (ce_size_bytes entry)) in
  count_entries c.

(** [if self.cache.len() >= self.config.max_size]. *)
Definition make_room c (now : Z) : InMemoryCache T Q :=
  if max_size (mc_config c) <=? memory_len c then (evict_one c now).1 else c.

Definition memory_set_with_ttl c key (value : T) (ttl now1 now2 now_unix : Z) : InMemoryCache T Q :=
  insert_entry (make_room c now1) key (entry_new value ttl now2 now_unix).

Definition memory_set_with_size c key (value : T) (ttl size_bytes now1 now2 now_unix : Z)
    : InMemoryCache T Q :=
  insert_entry (make_room c now1) key (entry_with_size value ttl now2 now_unix size_bytes).

Definition memory_set c key (value : T) (now1 now2 now_unix : Z) : InMemoryCache T Q :=
  memory_set_with_ttl c key value (default_ttl (mc_config c)) now1 now2 now_unix.

(** The part of [delete] and [delete_if] after the entry is removed. *)
Definition forget_deleted c key (removed : CacheEntry T) : InMemoryCache T Q :=
  let c := remove_access_meta c key in
  let c := upd_stats c record_deletion in
  let c := upd_stats c (fun s => sub_total_size s (ce_size_bytes removed)) in
  count_entries c.

Definition memory_delete c key : InMemoryCache T Q * bool :=
  match remove_if c key (fun _ => true) with
  | Some (c, removed) => (forget_deleted c key removed, true)
  | None => (c, false)
  end.

Definition memory_delete_if c key (predicate : T -> bool) (now : Z) : InMemoryCache T Q * option T :=
  match remove_if c key (fun e => negb (entry_is_expired e now) && predicate (ce_value e)) with
  | Some (c, removed) => (forget_deleted c key removed, Some (ce_value removed))
  | None => (c, None)
  end.

Definition memory_exists c key (now : Z) : InMemoryCache T Q * bool :=
  match remove_if c key (fun e => entry_is_expired e now) with
  | Some (c, _) => (count_entries (remove_access_meta c key), false)
  | None => (c, if decide (mc_cache c !! key = None) then false else true)
  end.

Definition memory_ttl c key (now1 now2 : Z) : option Z :=
  entry ← mc_cache c !! key; entry_remaining_ttl entry now1 now2.

(** The body of the loop of [clear]. *)
Definition clear_shard c (index : nat) : InMemoryCache T Q :=
  let s := shard_at c index in
  let queue := lru_clear (access_queue s) in
  let kept := filter (fun km => is_Some (mc_cache c !! km.1)) (access_meta s) in
  put_shard c index
    (mkShard kept (foldl (fun queue key => lru_put key queue) queue (elements (dom kept)))).

Definition memory_clear c : InMemoryCache T Q :=
  let c := set_cache c ∅ in
  let c := foldl clear_shard c (seq 0 (length (mc_shards c))) in
  upd_stats (set_cursor c 0) stats_reset.

(** The second loop of [cleanup_expired]. *)
Fixpoint remove_each_expired c (expired_keys : list CacheKey) (now : Z) (count : Z) : InMemoryCache T Q * Z :=
  match expired_keys with
  | [] => (c, count)
  | key :: expired_keys =>
      match remove_if c key (fun e => entry_is_expired e now) with
      | Some (c, removed) =>
          let c := upd_stats c (fun s => sub_total_size s (ce_size_bytes removed)) in
          let c := remove_access_meta c key in
          let c := upd_stats c record_eviction in
          remove_each_expired c expired_keys now (count + 1)
      | None => remove_each_expired c expired_keys now count
      end
  end.

Definition cleanup_expired c (now : Z) : InMemoryCache T Q :=
  let expired_keys := elements (dom (filter (fun ke => Is_true (entry_is_expired ke.2 now)) (mc_cache c))) in
  let '(c, count) := remove_each_expired c expired_keys now 0 in
  if 0 <? count then count_entries c else c.
End Operations.

(** * An index of keys *)

Definition touch_key (k : CacheKey) (q : list CacheKey) : list CacheKey :=
  filter (fun k' => k' <> k) q ++ [k].

#[export] Instance list_lru : LruCache (list CacheKey) := {|
  lru_unbounded := [];
  lru_put := touch_key;
  lru_pop k q := filter (fun k' => k' <> k) q;
  lru_promote k q := if decide (k ∈ q) then touch_key k q else q;
  lru_peek := head;
  lru_clear _ := [];
  lru_len := length;
|}.

#[export] Instance list_lru_lawful : LawfulLruCache (list CacheKey).
Proof.
  refine {| lru_keys := fun q => q |}; try done.
  intros k q Hk. simpl. by rewrite decide_True.
Defined.
