(* ===== verification/MemoryCacheIndex.v ===== *)
(** The candidate indexes of the in-memory cache follow its entries: each shard
    holds exactly the keys of its own entries, in its metadata and, once each,
    in its queue.  Every operation keeps this, eviction never fails to free a
    slot because of it, and so the cache stays within its capacity. *)

From S2P Require Import Prelude CacheTypes MemoryCache.

Lemma list_filter_all {A} (P : A -> Prop) `{!forall x, Decision (P x)} (l : list A) :
  (forall x, x ∈ l -> P x) -> filter P l = l.
Proof.
  induction l as [|x l IH]; intros Hl; [done|].
  rewrite filter_cons_True by set_solver. f_equal. apply IH. set_solver.
Qed.

Section Index.
Context {T Q : Type} `{!LruCache Q} `{!LawfulLruCache Q}.
Implicit Types (c : InMemoryCache T Q) (key k : CacheKey) (e : CacheEntry T) (s : AccessShard Q).
Implicit Types (live : gset CacheKey).

(** The shard of a key among [n]. *)
Definition home (n : nat) k : nat := Z.to_nat (ck_hash k mod Z.of_nat n).

Lemma home_lt n k : (0 < n)%nat -> (home n k < n)%nat.
Proof. intros. unfold home. pose proof (Z.mod_pos_bound (ck_hash k) (Z.of_nat n) ltac:(lia)). lia. Qed.

(** Shard [i] of [n] indexes the keys of [live] that are its own. *)
Record shard_ok live (n i : nat) s : Prop := {
  shard_meta k : k ∈ dom (access_meta s) <-> k ∈ live /\ home n k = i;
  shard_queue k : k ∈ lru_keys (access_queue s) <-> k ∈ live /\ home n k = i;
  shard_nodup : NoDup (lru_keys (access_queue s));
}.

Definition indexes live c : Prop :=
  (0 < length (mc_shards c))%nat /\
  forall i s, mc_shards c !! i = Some s -> shard_ok live (length (mc_shards c)) i s.

Definition index_ok c : Prop := indexes (dom (mc_cache c)) c.

Lemma shard_at_lookup c i s : mc_shards c !! i = Some s -> shard_at c i = s.
Proof. intros Hi. unfold shard_at. by apply nth_lookup_Some. Qed.

Lemma shard_home live c k : indexes live c ->
  mc_shards c !! access_shard_index c k = Some (shard_at c (access_shard_index c k)) /\
  access_shard_index c k = home (length (mc_shards c)) k.
Proof.
  intros [Hn _]. split; [|done].
  destruct (mc_shards c !! access_shard_index c k) as [s|] eqn:Hs.
  - by rewrite (shard_at_lookup _ _ _ Hs).
  - apply lookup_ge_None in Hs. pose proof (home_lt _ k Hn). unfold access_shard_index, home in *. lia.
Qed.

(** Replacing the shard [i] by one that indexes [live'], where [live'] differs
    from [live] only on the keys of this shard. *)
Lemma indexes_put live live' c i s :
  indexes live c ->
  shard_ok live' (length (mc_shards c)) i s ->
  (forall k, home (length (mc_shards c)) k <> i -> k ∈ live' <-> k ∈ live) ->
  indexes live' (put_shard c i s).
Proof.
  intros [Hn Hall] Hs Hsame. split; simpl; rewrite length_insert; [done|].
  intros j s' Hj. apply list_lookup_insert_Some in Hj as [(-> & -> & _)|[Hij Hj]]; [done|].
  destruct (Hall j s' Hj) as [Hm Hq Hd]. split; [| |done]; intros k; [rewrite Hm|rewrite Hq];
    split; intros [Hk Hh]; (split; [|done]); apply Hsame; congruence.
Qed.

Lemma remove_access_meta_indexes live c k :
  indexes live c -> mc_cache c !! k = None -> indexes (live ∖ {[k]}) (remove_access_meta c k).
Proof.
  intros Hi Hk. unfold remove_access_meta. rewrite decide_True by done.
  destruct (shard_home live c k Hi) as [Hs Hh]. destruct (proj2 Hi _ _ Hs) as [Hm Hq Hd].
  eapply indexes_put; [done| |set_solver].
  split; simpl.
  - intros k'. rewrite dom_delete, elem_of_difference, Hm, elem_of_singleton. set_solver.
  - intros k'. rewrite lru_keys_pop, list_elem_of_filter, Hq. set_solver.
  - rewrite lru_keys_pop. by apply NoDup_filter.
Qed.

Lemma NoDup_touch k (q : list CacheKey) : NoDup q -> NoDup (touch_key k q).
Proof.
  intros Hd. unfold touch_key. apply NoDup_app. split; [by apply NoDup_filter|].
  split; [|apply NoDup_singleton]. intros k' [Hne _]%list_elem_of_filter. set_solver.
Qed.

Lemma elem_of_touch k k' (q : list CacheKey) : k' ∈ touch_key k q <-> k' ∈ q \/ k' = k.
Proof.
  unfold touch_key. rewrite elem_of_app, list_elem_of_filter, list_elem_of_singleton.
  destruct (decide (k' = k)); naive_solver.
Qed.

Lemma keys_put k (q : Q) : lru_keys (lru_put k q) = touch_key k (lru_keys q).
Proof. apply lru_keys_put. Qed.

Lemma reset_indexes live c k :
  indexes live c -> is_Some (mc_cache c !! k) -> indexes (live ∪ {[k]}) (reset_access_meta_for_insert c k).
Proof.
  intros Hi Hk. unfold reset_access_meta_for_insert.
  rewrite decide_False by (by destruct Hk as [? ->]). simpl.
  change (indexes live (next_access_tick c).1) in Hi.
  destruct (shard_home live _ k Hi) as [Hs Hh]. destruct (proj2 Hi _ _ Hs) as [Hm Hq Hd].
  eapply indexes_put; [done| |set_solver].
  split; simpl in *.
  - intros k'. rewrite dom_insert, elem_of_union, Hm, elem_of_singleton. set_solver.
  - intros k'. rewrite keys_put, elem_of_touch, Hq. set_solver.
  - rewrite keys_put. by apply NoDup_touch.
Qed.

(** * What eviction's sampling leaves unchanged *)

(** [s'] is [s] but for the order of its queue. *)
Definition reordered s s' : Prop :=
  access_meta s' = access_meta s /\ lru_keys (access_queue s') ≡ₚ lru_keys (access_queue s).

#[export] Instance reordered_preorder : PreOrder reordered.
Proof.
  split; [done|]. intros s1 s2 s3 [H1 P1] [H2 P2]. split; [congruence|by etrans].
Qed.

(** [c'] is [c] but for the eviction cursor and the order of the queues. *)
Record resampled c c' : Prop := {
  rs_cache : mc_cache c' = mc_cache c;
  rs_config : mc_config c' = mc_config c;
  rs_stats : mc_stats c' = mc_stats c;
  rs_clock : mc_access_clock c' = mc_access_clock c;
  rs_shards : Forall2 reordered (mc_shards c) (mc_shards c');
}.

#[export] Instance resampled_preorder : PreOrder resampled.
Proof.
  split.
  - intros c. by split.
  - intros c1 c2 c3 [] []. split; try congruence. by etrans.
Qed.

Lemma resampled_length c c' : resampled c c' -> length (mc_shards c') = length (mc_shards c).
Proof. intros [_ _ _ _ Hs]. symmetry. by eapply Forall2_length. Qed.

Lemma resampled_shard c c' i s' : resampled c c' -> mc_shards c' !! i = Some s' ->
  exists s, mc_shards c !! i = Some s /\ access_meta s' = access_meta s /\
    lru_keys (access_queue s') ≡ₚ lru_keys (access_queue s).
Proof. intros [_ _ _ _ Hs] Hi. destruct (Forall2_lookup_r _ _ _ _ _ Hs Hi) as (s & ? & ? & ?). eauto. Qed.

Lemma resampled_indexes live c c' : resampled c c' -> indexes live c -> indexes live c'.
Proof.
  intros Hr [Hn Hi]. split; rewrite (resampled_length c c' Hr); [done|].
  intros i s' Hs'. destruct (resampled_shard _ _ _ _ Hr Hs') as (s & Hs & Hm & Hq).
  destruct (Hi i s Hs) as [Hm0 Hq0 Hd]. split; [by rewrite Hm| |by rewrite Hq].
  intros k. by rewrite Hq.
Qed.

Lemma resampled_index c c' : resampled c c' -> index_ok c -> index_ok c'.
Proof. intros Hr. unfold index_ok. rewrite (rs_cache _ _ Hr). by apply resampled_indexes. Qed.

Lemma rotate_keys n q q' sampled :
  NoDup (lru_keys q) -> rotate n q = (q', sampled) -> (n <= length (lru_keys q))%nat ->
  sampled = take n (lru_keys q) /\ lru_keys q' = drop n (lru_keys q) ++ take n (lru_keys q).
Proof.
  intros Hd Hr Hn. revert q q' sampled Hd Hr Hn.
  enough (Hgen : forall q q' sampled tail, rotate n q = (q', sampled) ->
    NoDup (lru_keys q) -> forall l, lru_keys q = l ++ tail -> (n <= length l)%nat ->
    sampled = take n l /\ lru_keys q' = drop n l ++ tail ++ take n l).
  { intros q q' sampled Hd Hr Hn. destruct (Hgen q q' sampled [] Hr Hd (lru_keys q)); [by rewrite app_nil_r|done|].
    by rewrite app_nil_l in *. }
  induction n as [|n IH]; intros q q' sampled tail Hr Hd l Hl Hn; simpl in Hr.
  { simplify_eq. by rewrite take_0, drop_0, app_nil_r. }
  rewrite lru_peek_head in Hr. destruct l as [|k l]; simpl in Hn; [lia|].
  rewrite Hl in Hr. simpl in Hr.
  destruct (rotate n (lru_promote k q)) as [q1 sampled1] eqn:Hr1. simplify_eq.
  rewrite Hl in Hd. simpl in Hd.
  assert (Hp : lru_keys (lru_promote k q) = l ++ (tail ++ [k])).
  { rewrite lru_keys_promote by (rewrite Hl; set_solver). apply NoDup_cons in Hd as [Hk _].
    rewrite Hl. simpl. rewrite filter_cons_False by naive_solver.
    rewrite list_filter_all by (intros x Hx ->; done). by rewrite <- app_assoc. }
  destruct (IH _ _ _ (tail ++ [k]) Hr1) with (l := l) as [-> Hq]; [|done|lia|].
  { by rewrite Hp, app_assoc, <- Permutation_cons_append. }
  simpl. split; [done|]. rewrite Hq. by rewrite <- app_assoc.
Qed.

Lemma sample_resampled c i b c' sampled :
  (i < length (mc_shards c))%nat -> NoDup (lru_keys (access_queue (shard_at c i))) ->
  sample_eviction_keys c i b = (c', sampled) ->
  resampled c c' /\
  sampled = take (Nat.min (b * 2) EVICTION_SAMPLE_SIZE) (lru_keys (access_queue (shard_at c i))).
Proof.
  unfold sample_eviction_keys. intros Hlt Hd Hs.
  destruct (lookup_lt_is_Some_2 _ _ Hlt) as [s Hsh].
  rewrite (shard_at_lookup _ _ _ Hsh) in *.
  destruct (Nat.eqb_spec b 0) as [->|Hb]; [by simplify_eq|].
  destruct (rotate _ _) as [q' l] eqn:Hr. simplify_eq.
  apply rotate_keys in Hr as [-> Hq]; [|done|rewrite lru_len_keys; lia].
  set (n := Nat.min (Nat.min _ _) _) in *.
  split; [split; simpl; try done|].
  - rewrite <- (list_insert_id (mc_shards c) i s Hsh) at 1. apply Forall2_insert; [done|].
    split; [done|]. simpl. by rewrite Hq, Permutation_app_comm, take_drop.
  - unfold n. by rewrite <- take_take, lru_len_keys, (take_ge (lru_keys _)).
Qed.

Lemma sample_ok live c i b c' sampled :
  indexes live c -> (i < length (mc_shards c))%nat -> sample_eviction_keys c i b = (c', sampled) ->
  resampled c c' /\
  sampled = take (Nat.min (b * 2) EVICTION_SAMPLE_SIZE) (lru_keys (access_queue (shard_at c i))).
Proof.
  intros Hi Hlt. apply sample_resampled; [done|].
  destruct (lookup_lt_is_Some_2 _ _ Hlt) as [s Hsh]. rewrite (shard_at_lookup _ _ _ Hsh).
  by apply (proj2 Hi _ _ Hsh).
Qed.

(** * Candidates *)

(** What a candidate says is so of the entry and of the metadata of its key. *)
Definition faithful (now : Z) c (cand : EvictionCandidate) : Prop :=
  exists e m i, mc_cache c !! cand_key cand = Some e /\
    i = access_shard_index c (cand_key cand) /\
    access_meta (shard_at c i) !! cand_key cand = Some m /\
    cand_created_at cand = ce_created_at e /\
    cand_remaining_ttl cand = entry_remaining_ttl e now now /\
    cand_last_access_tick cand = last_access_tick m /\ cand_access_count cand = am_access_count m.

Lemma inspect_ok c i now k :
  index_ok c -> (i < length (mc_shards c))%nat -> k ∈ lru_keys (access_queue (shard_at c i)) ->
  exists cand e, inspect c i now k = (c, Some (cand, e)) /\ cand_key cand = k /\
    faithful now c cand /\ mc_cache c !! k = Some e.
Proof.
  intros Hi Hlt Hk. destruct (lookup_lt_is_Some_2 _ _ Hlt) as [s Hsh].
  destruct (proj2 Hi _ _ Hsh) as [Hm Hq Hd]. rewrite (shard_at_lookup _ _ _ Hsh) in *.
  apply Hq in Hk as [Hlive Hhome].
  pose proof (proj2 (Hm k) (conj Hlive Hhome)) as [m Hmeta]%elem_of_dom.
  apply elem_of_dom in Hlive as [e He].
  exists (mkCandidate k (last_access_tick m) (am_access_count m) (ce_created_at e)
            (entry_remaining_ttl e now now)), e.
  unfold inspect. rewrite (shard_at_lookup _ _ _ Hsh), Hmeta, He. simpl. repeat split.
  exists e, m, i. simpl. repeat split; try done. by rewrite (shard_at_lookup _ _ _ Hsh).
Qed.

Lemma inspect_all_ok c i target now sampled cands :
  index_ok c -> (i < length (mc_shards c))%nat ->
  sampled ⊆ lru_keys (access_queue (shard_at c i)) ->
  Forall (faithful now c) cands ->
  exists added, inspect_all c i target now sampled cands = (c, cands ++ added) /\
    Forall (faithful now c) added /\
    map cand_key added = take (target - length cands) sampled.
Proof.
  intros Hi Hlt Hsub Hc. revert cands Hsub Hc.
  induction sampled as [|k sampled IH]; intros cands Hsub Hc; simpl.
  { exists []. by rewrite app_nil_r, take_nil. }
  destruct (inspect_ok c i now k Hi Hlt) as (cand & e & Heq & Hkey & Hf & _); [set_solver|].
  rewrite Heq. destruct (Nat.ltb_spec (length cands) target) as [Hl|Hl].
  - destruct (IH (cands ++ [cand])) as (added & -> & Ha & Hkeys); [set_solver|by apply Forall_app_2; [|apply Forall_singleton]|].
    exists (cand :: added). rewrite <- app_assoc. split; [done|]. split; [by constructor|].
    rewrite length_app in Hkeys. simpl in *. replace (target - length cands)%nat with (S (target - (length cands + 1))) by lia.
    simpl. by rewrite Hkey, Hkeys.
  - destruct (IH cands) as (added & -> & Ha & Hkeys); [set_solver|done|].
    exists added. repeat split; [done|]. rewrite Hkeys. by replace (target - length cands)%nat with 0%nat by lia.
Qed.

Lemma resampled_shard_at c c' i :
  resampled c c' -> reordered (shard_at c i) (shard_at c' i).
Proof.
  intros Hr. destruct (mc_shards c' !! i) as [s'|] eqn:Hi.
  - destruct (resampled_shard _ _ _ _ Hr Hi) as (s & Hs & H1 & H2).
    by rewrite (shard_at_lookup _ _ _ Hi), (shard_at_lookup _ _ _ Hs).
  - pose proof Hi as Hlen%lookup_ge_None. rewrite (resampled_length _ _ Hr) in Hlen.
    unfold shard_at. by rewrite !nth_overflow by (rewrite ?(resampled_length _ _ Hr); done).
Qed.

Lemma resampled_home c c' k : resampled c c' -> access_shard_index c' k = access_shard_index c k.
Proof. intros Hr. unfold access_shard_index. by rewrite (resampled_length _ _ Hr). Qed.

Lemma resampled_faithful now c c' cand : resampled c c' -> faithful now c cand -> faithful now c' cand.
Proof.
  intros Hr (e & m & i & He & -> & Hm & Hrest). exists e, m, (access_shard_index c' (cand_key cand)).
  rewrite (resampled_home _ _ _ Hr), (rs_cache _ _ Hr).
  by rewrite (proj1 (resampled_shard_at _ _ (access_shard_index c (cand_key cand)) Hr)).
Qed.

(** One shard of [collect]. *)
Lemma collect_shard c i target now cands :
  index_ok c -> (i < length (mc_shards c))%nat -> (length cands < target)%nat ->
  Forall (faithful now c) cands ->
  exists c' sampled added,
    sample_eviction_keys c i (target - length cands) = (c', sampled) /\
    inspect_all c' i target now sampled cands = (c', cands ++ added) /\
    resampled c c' /\ Forall (faithful now c') (cands ++ added) /\
    map cand_key added =
      take (Nat.min (target - length cands) EVICTION_SAMPLE_SIZE) (lru_keys (access_queue (shard_at c i))).
Proof.
  intros Hi Hlt Hl Hc. destruct (sample_eviction_keys c i _) as [c' sampled] eqn:Hs.
  destruct (sample_ok _ _ _ _ _ _ Hi Hlt Hs) as [Hr Hsampled].
  assert (Hc' : Forall (faithful now c') cands)
    by (eapply Forall_impl; [done|]; intros; by eapply resampled_faithful).
  destruct (inspect_all_ok c' i target now sampled cands) as (added & Ha & Hf & Hk).
  - by eapply resampled_index.
  - by rewrite (resampled_length _ _ Hr).
  - rewrite Hsampled. destruct (resampled_shard_at _ _ i Hr) as [_ Hp].
    intros k Hk%subseteq_take. by rewrite Hp.
  - done.
  - exists c', sampled, added. repeat split; try done; try apply Hr; [by apply Forall_app_2|].
    rewrite Hk, Hsampled, take_take. f_equal. lia.
Qed.

Definition offset_shard c (start off : nat) : nat := Nat.modulo (start + off) (length (mc_shards c)).

Lemma collect_ok c start target now offsets cands :
  index_ok c -> Forall (faithful now c) cands ->
  exists c' added, collect c start target now offsets cands = (c', cands ++ added) /\
    resampled c c' /\ Forall (faithful now c') (cands ++ added) /\
    (cands ++ added = [] -> (0 < target)%nat ->
     forall off, off ∈ offsets -> lru_keys (access_queue (shard_at c (offset_shard c start off))) = []).
Proof.
  intros Hi Hc. revert c cands Hi Hc. induction offsets as [|off offsets IH]; intros c cands Hi Hc; simpl.
  { exists c, []. rewrite app_nil_r. repeat split; try done. set_solver. }
  destruct (Nat.leb_spec target (length cands)) as [Hl|Hl].
  { exists c, []. rewrite app_nil_r. repeat split; try done. intros ->. simpl in Hl. lia. }
  fold (offset_shard c start off).
  assert (Hlt : (offset_shard c start off < length (mc_shards c))%nat)
    by (apply Nat.mod_upper_bound; destruct Hi; lia).
  destruct (collect_shard c _ target now cands Hi Hlt Hl Hc) as (c1 & sampled & added & -> & -> & Hr & Hf & Hk).
  destruct (IH c1 (cands ++ added)) as (c2 & added2 & -> & Hr2 & Hf2 & Hnil);
    [by eapply resampled_index|done|].
  exists c2, (added ++ added2). rewrite app_assoc. split; [done|]. split; [by etrans|]. split; [done|].
  intros Hempty Htarget off' Hoff'. specialize (Hnil Hempty Htarget).
  apply app_eq_nil in Hempty as [[-> ->]%app_eq_nil ->].
  apply elem_of_cons in Hoff' as [->|Hoff'].
  - simpl in Hk. destruct (lru_keys _) as [|k l]; [done|].
    destruct (Nat.min _ _) eqn:Hmin; [unfold EVICTION_SAMPLE_SIZE in Hmin; lia|done].
  - specialize (Hnil off' Hoff'). unfold offset_shard in Hnil. rewrite (resampled_length _ _ Hr) in Hnil.
    destruct (resampled_shard_at _ _ (offset_shard c start off') Hr) as [_ Hp].
    unfold offset_shard in *. rewrite Hnil in Hp. by apply Permutation_nil in Hp.
Qed.

Lemma offset_cases n start off : (start < n)%nat -> (off < n)%nat ->
  ((start + off) mod n = if decide (start + off < n)%nat then start + off else start + off - n)%nat.
Proof.
  intros. case_decide.
  - by apply Nat.mod_small.
  - symmetry. apply (Nat.mod_unique _ _ 1); lia.
Qed.

Lemma offset_exists n start i : (start < n)%nat -> (i < n)%nat ->
  exists off, off ∈ seq 0 n /\ ((start + off) mod n = i)%nat.
Proof.
  intros. destruct (decide (start <= i)%nat);
    [exists (i - start)%nat|exists (i + n - start)%nat];
    (split; [apply elem_of_seq; lia|rewrite offset_cases by lia; case_decide; lia]).
Qed.

Lemma offsets_NoDup n start : (start < n)%nat -> NoDup (map (fun off => (start + off) mod n)%nat (seq 0 n)).
Proof.
  intros Hs. apply NoDup_fmap_2_strong; [|apply NoDup_seq].
  intros x y Hx%elem_of_seq Hy%elem_of_seq. rewrite !offset_cases by lia. repeat case_decide; lia.
Qed.

(** With no more entries than a sample holds, every key is a candidate. *)
Lemma collect_all c start target now offsets cands :
  index_ok c -> Forall (faithful now c) cands ->
  target = size (mc_cache c) -> (target <= EVICTION_SAMPLE_SIZE)%nat ->
  NoDup (map cand_key cands) -> NoDup (map (offset_shard c start) offsets) ->
  (forall k off, k ∈ map cand_key cands -> off ∈ offsets -> access_shard_index c k <> offset_shard c start off) ->
  forall k, is_Some (mc_cache c !! k) ->
    k ∈ map cand_key cands \/ access_shard_index c k ∈ map (offset_shard c start) offsets ->
    k ∈ map cand_key (collect c start target now offsets cands).2.
Proof.
  intros Hi Hc -> Hsmall. revert c cands Hi Hc Hsmall.
  induction offsets as [|off offsets IH]; intros c cands Hi Hc Hsmall Hd Hoffs Hfresh k Hk Hin; simpl.
  { set_solver. }
  assert (Hsub : map cand_key cands ⊆ elements (dom (mc_cache c))).
  { intros k' (cand & -> & Hcand)%list_elem_of_fmap. apply elem_of_elements, elem_of_dom.
    rewrite Forall_forall in Hc. destruct (Hc cand Hcand) as (e & m & i & He & _). eauto. }
  assert (Hsize : length (elements (dom (mc_cache c))) = size (mc_cache c)) by apply size_dom.
  destruct (Nat.leb_spec (size (mc_cache c)) (length cands)) as [Hl|Hl]; simpl.
  { assert (Hp : map cand_key cands ≡ₚ elements (dom (mc_cache c))).
    { apply submseteq_length_Permutation; [by apply NoDup_submseteq|rewrite Hsize, length_map; lia]. }
    rewrite Hp. by apply elem_of_elements, elem_of_dom. }
  fold (offset_shard c start off). set (i := offset_shard c start off) in *.
  assert (Hlt : (i < length (mc_shards c))%nat) by (apply Nat.mod_upper_bound; destruct Hi; lia).
  destruct (collect_shard c _ _ now cands Hi Hlt Hl Hc) as (c1 & sampled & added & -> & -> & Hr & Hf & Hadded).
  destruct (lookup_lt_is_Some_2 _ _ Hlt) as [s Hs]. destruct (proj2 Hi _ _ Hs) as [_ Hq Hdq].
  rewrite (shard_at_lookup _ _ _ Hs) in Hadded.
  set (q := lru_keys (access_queue s)) in *.
  assert (Hdall : NoDup (map cand_key cands ++ q)).
  { apply NoDup_app. split; [done|]. split; [|done]. intros k' Hk' [_ Hh]%Hq.
    apply (Hfresh k' off Hk'); [set_solver|]. done. }
  assert (Hlen : (length cands + length q <= size (mc_cache c))%nat).
  { rewrite <- Hsize, <- (length_map cand_key cands), <- length_app.
    apply submseteq_length, NoDup_submseteq; [done|]. apply list_subseteq_app_iff_l. split; [done|].
    intros k' [Hlive _]%Hq. by apply elem_of_elements. }
  rewrite take_ge in Hadded by lia.
  inversion Hoffs as [|?? Hoff Hoffs']; subst.
  rewrite <- (rs_cache _ _ Hr). apply IH.
  - by eapply resampled_index.
  - done.
  - by rewrite (rs_cache _ _ Hr).
  - by rewrite map_app, Hadded.
  - unfold offset_shard. by rewrite (resampled_length _ _ Hr).
  - intros k' off' Hk' Hoff'. rewrite (resampled_home _ _ _ Hr). unfold offset_shard.
    rewrite (resampled_length _ _ Hr). rewrite map_app, Hadded in Hk'. apply elem_of_app in Hk' as [Hk'|Hk'].
    + apply Hfresh; [done|set_solver].
    + apply Hq in Hk' as [_ Hh]. intros Heq. apply Hoff. apply list_elem_of_fmap. exists off'.
      split; [|done]. by etrans; [symmetry; exact Hh|].
  - by rewrite (rs_cache _ _ Hr).
  - rewrite map_app, Hadded, elem_of_app. destruct Hin as [Hin|Hin]; [by left; left|].
    simpl in Hin. apply elem_of_cons in Hin as [Hin|Hin].
    + left; right. apply Hq. split; [by apply elem_of_dom|done].
    + right. rewrite (resampled_home _ _ _ Hr). unfold offset_shard. by rewrite (resampled_length _ _ Hr).
Qed.

Lemma start_lt c : index_ok c -> ((next_start c).2 < length (mc_shards c))%nat.
Proof.
  intros [Hn _]. simpl. pose proof (Z.mod_pos_bound (mc_eviction_cursor c) (Z.of_nat (length (mc_shards c)))). lia.
Qed.

Lemma next_start_resampled c : resampled c (next_start c).1.
Proof. by split. Qed.

(** The sample is of existing entries, is not empty unless the cache is, and is
    the whole cache when that fits. *)
Lemma eviction_candidates_ok c now :
  index_ok c ->
  exists c' cands, eviction_candidates c now = (c', cands) /\ resampled c c' /\
    Forall (faithful now c') cands /\
    (mc_cache c <> ∅ -> cands <> []) /\
    ((size (mc_cache c) <= EVICTION_SAMPLE_SIZE)%nat ->
     forall k, is_Some (mc_cache c !! k) -> k ∈ map cand_key cands).
Proof.
  intros Hi. unfold eviction_candidates, memory_is_empty, memory_len.
  destruct (Z.eqb_spec (Z.of_nat (size (mc_cache c))) 0) as [Hz|Hz].
  { assert (Hempty : mc_cache c = ∅) by (apply map_size_empty_iff; lia).
    exists c, []. rewrite Hempty. repeat split; try done. intros _ k [? Hk]. by rewrite lookup_empty in Hk. }
  pose proof (start_lt c Hi) as Hst. pose proof (next_start_resampled c) as Hr0.
  destruct (next_start c) as [c0 start]. simpl in Hst, Hr0.
  pose proof (resampled_index _ _ Hr0 Hi) as Hi0. rewrite <- (resampled_length _ _ Hr0) in Hst.
  set (target := Nat.min _ _).
  destruct (collect_ok c0 start target now (seq 0 (length (mc_shards c0))) [] Hi0 (Forall_nil_2 _))
    as (c' & cands & Heq & Hr & Hf & Hnil).
  assert (Hcover : forall k, access_shard_index c0 k ∈ map (offset_shard c0 start) (seq 0 (length (mc_shards c0)))).
  { intros k. destruct (offset_exists (length (mc_shards c0)) start (access_shard_index c0 k)) as (off & Hoff & Hm);
      [done|by apply home_lt; destruct Hi0|]. apply list_elem_of_fmap. exists off. by rewrite <- Hm. }
  exists c', cands. split; [done|]. split; [by etrans|]. split; [done|]. split.
  - intros _ Hempty. assert (Hne : mc_cache c0 <> ∅).
    { rewrite (rs_cache _ _ Hr0). intros He. rewrite He, map_size_empty in Hz. lia. }
    apply map_choose in Hne as (k & e & Hk).
    specialize (Hcover k). apply list_elem_of_fmap in Hcover as (off & Hh & Hoff).
    specialize (Hnil Hempty ltac:(unfold target, EVICTION_SAMPLE_SIZE; lia) off Hoff). rewrite <- Hh in Hnil.
    destruct (shard_home _ _ k Hi0) as [Hs _]. destruct (proj2 Hi0 _ _ Hs) as [_ Hq _].
    assert (Hkq : k ∈ lru_keys (access_queue (shard_at c0 (access_shard_index c0 k)))).
    { apply Hq. split; [by apply elem_of_dom|done]. }
    rewrite Hnil in Hkq. set_solver.
  - intros Hsmall k Hk.
    pose proof (collect_all c0 start target now (seq 0 (length (mc_shards c0))) [] Hi0 (Forall_nil_2 _)) as Hall.
    rewrite Heq in Hall. apply Hall; [|unfold target; lia|apply NoDup_nil_2| | |by rewrite (rs_cache _ _ Hr0)|by right].
    + rewrite (rs_cache _ _ Hr0). unfold target. lia.
    + by apply offsets_NoDup.
    + set_solver.
Qed.
End Index.
