(* ===== verification/MemoryCacheOps.v ===== *)
(** What each operation of the in-memory cache does to its entries, to the
    metadata of their keys and to the access clock; the invariant of the
    candidate indexes, the bound on the number of entries and the counters
    that follow. *)

From S2P Require Import Prelude CacheTypes MemoryCache MemoryCacheIndex.

Section Ops.
Context {T Q : Type} `{!LruCache Q} `{!LawfulLruCache Q}.
Implicit Types (c : InMemoryCache T Q) (key k : CacheKey) (e : CacheEntry T) (s : AccessShard Q).

(** The metadata of a key. *)
Definition meta_of c k : option CacheAccessMeta := access_meta (shard_at c (access_shard_index c k)) !! k.

Lemma meta_of_live c k : index_ok c -> is_Some (meta_of c k) <-> is_Some (mc_cache c !! k).
Proof.
  intros Hi. destruct (shard_home _ _ k Hi) as [Hs _]. destruct (proj2 Hi _ _ Hs) as [Hm _ _].
  unfold meta_of. rewrite <- !elem_of_dom, Hm. naive_solver.
Qed.

Lemma meta_of_put c i s k : (i < length (mc_shards c))%nat ->
  meta_of (put_shard c i s) k =
    if decide (access_shard_index c k = i) then access_meta s !! k else meta_of c k.
Proof.
  intros Hi. unfold meta_of, shard_at, access_shard_index, put_shard. simpl. rewrite length_insert.
  set (j := Z.to_nat _). case_decide as Hj.
  - rewrite Hj. by rewrite (nth_lookup_Some _ _ _ s) by by apply list_lookup_insert_eq.
  - by rewrite !nth_lookup, list_lookup_insert_ne.
Qed.

Lemma meta_of_resampled c c' k : resampled c c' -> meta_of c' k = meta_of c k.
Proof.
  intros Hr. unfold meta_of. rewrite (resampled_home _ _ _ Hr).
  by rewrite (proj1 (resampled_shard_at _ _ (access_shard_index c k) Hr)).
Qed.

Lemma shard_index_lt c k : index_ok c -> (access_shard_index c k < length (mc_shards c))%nat.
Proof. intros [Hn _]. by apply home_lt. Qed.

(** * The three changes an operation makes *)

(** [c'] is [c] without the entry of [k]. *)
Record removed c k c' : Prop := {
  rem_cache : mc_cache c' = delete k (mc_cache c);
  rem_index : index_ok c';
  rem_config : mc_config c' = mc_config c;
  rem_clock : mc_access_clock c' = mc_access_clock c;
  rem_meta k' : k' <> k -> meta_of c' k' = meta_of c k';
}.

(** [c'] is [c] after the metadata of [k] became [m] at the next tick. *)
Record ticked c k (m : option CacheAccessMeta) c' : Prop := {
  tick_config : mc_config c' = mc_config c;
  tick_clock : mc_access_clock c' = wrap_u64 (mc_access_clock c + 1);
  tick_meta : meta_of c' k = m;
  tick_others k' : k' <> k -> meta_of c' k' = meta_of c k';
}.

Definition next_tick c : Z := wrap_u64 (mc_access_clock c + 1).

Lemma removed_stats c k c' f : removed c k c' -> removed c k (upd_stats c' f).
Proof. intros []. by split. Qed.

Lemma remove_if_removed c k p c1 e :
  index_ok c -> remove_if c k p = Some (c1, e) ->
  mc_cache c !! k = Some e /\ p e = true /\ removed c k (remove_access_meta c1 k).
Proof.
  intros Hi. unfold remove_if. destruct (mc_cache c !! k) as [e'|] eqn:He; [|done].
  destruct (p e') eqn:Hp; [|done]. intros [= <- <-]. split; [done|]. split; [done|].
  set (c1 := set_cache c (delete k (mc_cache c))).
  assert (Hnone : mc_cache c1 !! k = None) by apply lookup_delete_eq.
  pose proof (remove_access_meta_indexes (dom (mc_cache c)) c1 k Hi Hnone) as Hi1.
  unfold remove_access_meta in *. rewrite decide_True in * by done. split; try done.
  - unfold index_ok. simpl. by rewrite dom_delete_L.
  - intros k' Hk. rewrite meta_of_put by by apply (shard_index_lt c). case_decide as Hh; [|done].
    simpl. rewrite lookup_delete_ne by done. unfold meta_of. change (access_shard_index c k') with (access_shard_index c1 k').
    by rewrite Hh.
Qed.

Lemma record_access_ticked c k :
  index_ok c ->
  let r := record_access c k in
  mc_cache r.1 = mc_cache c /\ mc_stats r.1 = mc_stats c /\ index_ok r.1 /\
  ticked c k ((fun m => mkMeta (next_tick c) (wrap_u64 (am_access_count m + 1))) <$> meta_of c k) r.1 /\
  r.2 = match meta_of c k with Some m => wrap_u64 (am_access_count m + 1) | None => 0 end.
Proof.
  intros Hi. unfold record_access. simpl. set (c1 := (next_access_tick c).1).
  change (access_shard_index _ k) with (access_shard_index c k).
  change (shard_at _ (access_shard_index c k)) with (shard_at c (access_shard_index c k)).
  fold (meta_of c k). destruct (meta_of c k) as [m|] eqn:Hm; simpl.
  2: { split; [done|]. split; [done|]. split; [exact Hi|]. split; [by split|done]. }
  pose proof (shard_index_lt c k Hi) as Hlt.
  destruct (shard_home _ _ k Hi) as [Hs Hh]. destruct (proj2 Hi _ _ Hs) as [Hmeta Hq Hd].
  split; [done|]. split; [done|]. split; [|split; [split; try done|done]].
  - apply (indexes_put (dom (mc_cache c)) _ c1); [done| |done]. split; simpl; [|done..].
    intros k'. rewrite dom_insert, elem_of_union, elem_of_singleton, Hmeta.
    assert (k ∈ dom (mc_cache c)) by (apply elem_of_dom, meta_of_live; eauto).
    naive_solver.
  - rewrite meta_of_put by done. rewrite decide_True by done. apply lookup_insert_eq.
  - intros k' Hk. rewrite meta_of_put by done. case_decide as Hk'; [|done]. simpl.
    rewrite lookup_insert_ne by done. unfold meta_of. by rewrite <- Hk'.
Qed.

Lemma reset_ticked c k e :
  index_ok c ->
  let c' := reset_access_meta_for_insert (set_cache c (<[k := e]> (mc_cache c))) k in
  mc_cache c' = <[k := e]> (mc_cache c) /\ mc_stats c' = mc_stats c /\ index_ok c' /\
  ticked c k (Some (mkMeta (next_tick c) 0)) c'.
Proof.
  intros Hi. set (c1 := set_cache c (<[k := e]> (mc_cache c))). simpl.
  assert (Hk : mc_cache c1 !! k = Some e) by apply lookup_insert_eq.
  pose proof (reset_indexes (dom (mc_cache c)) c1 k Hi (mk_is_Some _ _ Hk)) as Hi1.
  pose proof (shard_index_lt c k Hi) as Hlt.
  unfold reset_access_meta_for_insert in *. rewrite decide_False in * by by rewrite Hk. simpl in *.
  split; [done|]. split; [done|]. split.
  { unfold index_ok. simpl. by rewrite dom_insert_L, union_comm_L. }
  split; try done.
  - rewrite meta_of_put by done. rewrite decide_True by done. simpl. rewrite lookup_insert_eq.
    by destruct (access_meta _ !! k).
  - intros k' Hk'. rewrite meta_of_put by done. case_decide as Hh; [|done]. simpl.
    rewrite lookup_insert_ne by done. unfold meta_of. by rewrite <- Hh.
Qed.

(** * Eviction *)

Lemma faithful_meta now c cand :
  faithful now c cand -> exists e m, mc_cache c !! cand_key cand = Some e /\
    meta_of c (cand_key cand) = Some m /\ cand_created_at cand = ce_created_at e /\
    cand_remaining_ttl cand = entry_remaining_ttl e now now /\
    cand_last_access_tick cand = last_access_tick m /\ cand_access_count cand = am_access_count m.
Proof. intros (e & m & i & He & -> & Hm & Hrest). by exists e, m. Qed.

(** The counters after an eviction. *)
Definition evicted_stats c e : CacheStats :=
  set_entry_count (record_eviction (sub_total_size (mc_stats c) (ce_size_bytes e)))
    (memory_len c - 1).

Lemma memory_len_delete c k e : mc_cache c !! k = Some e ->
  Z.of_nat (size (delete k (mc_cache c))) = memory_len c - 1.
Proof.
  intros He. unfold memory_len. rewrite (map_size_delete_Some _ _ (mk_is_Some _ _ He)).
  assert (size (mc_cache c) <> 0%nat); [|lia]. intros Hz%map_size_empty_iff. by rewrite Hz in He.
Qed.

Lemma evict_candidate_ok c now cand :
  index_ok c -> faithful now c cand ->
  exists c' e, evict_candidate c cand = (c', true) /\ mc_cache c !! cand_key cand = Some e /\
    removed c (cand_key cand) c' /\ mc_stats c' = evicted_stats c e.
Proof.
  intros Hi (e & m & He & _ & Hc & _)%faithful_meta. unfold evict_candidate.
  destruct (remove_if c (cand_key cand) _) as [[c1 e1]|] eqn:Hr.
  - destruct (remove_if_removed _ _ _ _ _ Hi Hr) as (He1 & _ & Hrem).
    assert (e1 = e) by congruence. subst e1.
    unfold remove_if in Hr. rewrite He, Hc, Z.eqb_refl in Hr. injection Hr as <-.
    pose proof (memory_len_delete _ _ _ He) as Hlen.
    unfold remove_access_meta in *. rewrite decide_True in * by apply lookup_delete_eq.
    eexists _, e. split; [done|]. split; [done|]. split.
    + destruct Hrem as [H1 H2 H3 H4 H5]. by split.
    + unfold evicted_stats. by rewrite <- Hlen.
  - unfold remove_if in Hr. rewrite He, Hc, Z.eqb_refl in Hr. done.
Qed.

(** [c'] is [c] less one entry, chosen among those [P] admits. *)
Definition evicted (P : EvictionCandidate -> Prop) (now : Z) c c' : Prop :=
  exists cand e, faithful now c cand /\ P cand /\ mc_cache c !! cand_key cand = Some e /\
    removed c (cand_key cand) c' /\ mc_stats c' = evicted_stats c e.

Lemma resampled_faithful_back now c c' cand : resampled c c' -> faithful now c' cand -> faithful now c cand.
Proof.
  intros Hr (e & m & i & He & -> & Hm & Hrest). exists e, m, (access_shard_index c (cand_key cand)).
  rewrite <- (rs_cache _ _ Hr). rewrite (resampled_home _ _ _ Hr) in Hm.
  by rewrite <- (proj1 (resampled_shard_at _ _ (access_shard_index c (cand_key cand)) Hr)).
Qed.

Lemma removed_resampled c c1 k c' : resampled c c1 -> removed c1 k c' -> removed c k c'.
Proof.
  intros Hr []. split.
  - by rewrite rem_cache0, (rs_cache _ _ Hr).
  - done.
  - by rewrite rem_config0, (rs_config _ _ Hr).
  - by rewrite rem_clock0, (rs_clock _ _ Hr).
  - intros k' Hk. rewrite rem_meta0 by done. by apply meta_of_resampled.
Qed.

Lemma evicted_resampled (P P' : EvictionCandidate -> Prop) now c c1 c' :
  resampled c c1 -> evicted P now c1 c' -> (forall cand, P cand -> P' cand) -> evicted P' now c c'.
Proof.
  intros Hr (cand & e & Hf & HP & He & Hrem & Hs) HPP. exists cand, e.
  split; [by eapply resampled_faithful_back|]. split; [auto|].
  split; [by rewrite <- (rs_cache _ _ Hr)|]. split; [by eapply removed_resampled|].
  rewrite Hs. unfold evicted_stats, memory_len. by rewrite (rs_stats _ _ Hr), (rs_cache _ _ Hr).
Qed.

Lemma evict_resampled (P : EvictionCandidate -> Prop) now c c1 cand :
  index_ok c -> resampled c c1 -> faithful now c1 cand -> P cand ->
  exists c', evict_candidate c1 cand = (c', true) /\ evicted P now c c'.
Proof.
  intros Hi Hr Hf HP.
  destruct (evict_candidate_ok c1 now cand (resampled_index _ _ Hr Hi) Hf) as (c' & e & Heq & He & Hrem & Hs).
  exists c'. split; [done|]. apply (evicted_resampled P) with c1; [done| |done].
  by exists cand, e.
Qed.

(** An order given by a key: asymmetric, and its complement transitive. *)
Record weak_order {A} (lt : A -> A -> bool) : Prop := {
  wo_asym x y : lt x y = true -> lt y x = false;
  wo_trans x y z : lt y x = false -> lt z y = false -> lt z x = false;
}.

Lemma min_by_least {A} (lt : A -> A -> bool) best l : weak_order lt ->
  min_by lt best l ∈ best :: l /\ forall x, x ∈ best :: l -> lt x (min_by lt best l) = false.
Proof.
  intros Hw. revert best. induction l as [|y l IH]; intros best; simpl.
  { split; [set_solver|]. intros x ->%list_elem_of_singleton. destruct (lt best best) eqn:Hb; [|done].
    by rewrite (wo_asym _ Hw _ _ Hb) in Hb. }
  destruct (IH (if lt y best then y else best)) as [Hin Hle]. destruct (lt y best) eqn:Hyb.
  - split; [set_solver|]. intros x [->|[->|Hx]%elem_of_cons]%elem_of_cons.
    + apply (wo_trans _ Hw _ y); [apply Hle; set_solver|by apply (wo_asym _ Hw)].
    + apply Hle. set_solver.
    + apply Hle. set_solver.
  - split; [set_solver|]. intros x [->|[->|Hx]%elem_of_cons]%elem_of_cons.
    + apply Hle. set_solver.
    + apply (wo_trans _ Hw _ best); [apply Hle; set_solver|done].
    + apply Hle. set_solver.
Qed.

Lemma min_by_key_least lt cands : weak_order lt -> cands <> [] ->
  exists cand, min_by_key lt cands = Some cand /\ cand ∈ cands /\ forall x, x ∈ cands -> lt x cand = false.
Proof.
  intros Hw Hne. destruct cands as [|x l]; [done|]. exists (min_by lt x l). split; [done|].
  by apply min_by_least.
Qed.

Lemma faithful_unique now c cand cand' :
  faithful now c cand -> faithful now c cand' -> cand_key cand = cand_key cand' -> cand = cand'.
Proof.
  intros (e & m & He & Hm & ? & ? & ? & ?)%faithful_meta (e' & m' & He' & Hm' & ? & ? & ? & ?)%faithful_meta Hk.
  rewrite Hk in He, Hm. simplify_eq. destruct cand, cand'. simpl in *. congruence.
Qed.

(** In a cache no larger than the sample the victim is least of all. *)
Definition least_of (lt : EvictionCandidate -> EvictionCandidate -> bool) (now : Z) c
    (cand : EvictionCandidate) : Prop :=
  (size (mc_cache c) <= EVICTION_SAMPLE_SIZE)%nat ->
  forall cand', faithful now c cand' -> lt cand' cand = false.

Lemma evict_least_ok lt c now : weak_order lt -> index_ok c -> mc_cache c <> ∅ ->
  exists c', evict_least lt c now = (c', true) /\ evicted (least_of lt now c) now c c'.
Proof.
  intros Hw Hi Hne. unfold evict_least.
  destruct (eviction_candidates_ok c now Hi) as (c1 & cands & -> & Hr & Hf & Hnil & Hall).
  destruct (min_by_key_least lt cands Hw (Hnil Hne)) as (cand & -> & Hin & Hle).
  rewrite Forall_forall in Hf. apply evict_resampled with (now := now); auto.
  intros Hsmall cand' Hf'. apply Hle.
  assert (is_Some (mc_cache c !! cand_key cand')) as Hk.
  { destruct (faithful_meta _ _ _ Hf') as (e & ? & He & _). eauto. }
  destruct (proj1 (list_elem_of_fmap _ _ _) (Hall Hsmall _ Hk)) as (cand2 & Hkey & Hin2).
  assert (cand' = cand2) as ->; [|done].
  eapply faithful_unique; [done| |done]. eapply resampled_faithful_back; [done|]. by apply Hf.
Qed.

Lemma evict_least_empty lt c now : mc_cache c = ∅ -> evict_least lt c now = (c, false).
Proof. intros He. unfold evict_least, eviction_candidates, memory_is_empty, memory_len. by rewrite He. Qed.

(** The candidate [evict_ttl] prefers has expired. *)
Lemma inspect_expired_ok c i now sampled expired :
  index_ok c -> (i < length (mc_shards c))%nat ->
  sampled ⊆ lru_keys (access_queue (shard_at c i)) ->
  from_option (fun cand => faithful now c cand /\ cand_remaining_ttl cand = None) True expired ->
  exists found, inspect_expired c i now sampled expired = (c, found) /\
    from_option (fun cand => faithful now c cand /\ cand_remaining_ttl cand = None) True found.
Proof.
  intros Hi Hlt Hsub Hexp. revert expired Hsub Hexp.
  induction sampled as [|k sampled IH]; intros expired Hsub Hexp; simpl; [by exists expired|].
  destruct (inspect_ok c i now k Hi Hlt) as (cand & e & -> & Hkey & Hf & He); [set_solver|].
  apply IH; [set_solver|]. destruct expired as [cand'|]; [done|].
  destruct (entry_is_expired e now) eqn:Hx; [|done]. split; [done|].
  destruct (faithful_meta _ _ _ Hf) as (e' & m & He' & _ & _ & -> & _).
  rewrite Hkey, He in He'. simplify_eq. unfold entry_remaining_ttl. by rewrite Hx.
Qed.

Lemma collect_expired_ok c start inspected now offsets :
  index_ok c ->
  exists c' found, collect_expired c start inspected now offsets = (c', found) /\ resampled c c' /\
    from_option (fun cand => faithful now c' cand /\ cand_remaining_ttl cand = None) True found.
Proof.
  intros Hi. revert c inspected Hi. induction offsets as [|off offsets IH]; intros c inspected Hi; cbn [collect_expired].
  { by exists c, None. }
  destruct (Nat.leb _ _); [by exists c, None|].
  assert (Hlt : (offset_shard c start off < length (mc_shards c))%nat)
    by (apply Nat.mod_upper_bound; destruct Hi; lia).
  fold (offset_shard c start off).
  destruct (sample_eviction_keys c _ _) as [c1 sampled] eqn:Hs.
  destruct (sample_ok _ _ _ _ _ _ Hi Hlt Hs) as [Hr Hsampled].
  destruct (inspect_expired_ok c1 (offset_shard c start off) now sampled None) as (found & -> & Hf).
  - by eapply resampled_index.
  - by rewrite (resampled_length _ _ Hr).
  - rewrite Hsampled. destruct (resampled_shard_at _ _ (offset_shard c start off) Hr) as [_ Hp].
    intros k Hk%subseteq_take. by rewrite Hp.
  - done.
  - destruct found as [cand|]; [by exists c1, (Some cand)|].
    destruct (IH c1 (inspected + length sampled)%nat) as (c2 & found & Heq & Hr2 & Hf2); [by eapply resampled_index|].
    exists c2, found. split; [done|]. split; [by etrans|done].
Qed.

Lemma expired_eviction_candidate_ok c now :
  index_ok c ->
  exists c' found, expired_eviction_candidate c now = (c', found) /\ resampled c c' /\
    from_option (fun cand => faithful now c' cand /\ cand_remaining_ttl cand = None) True found.
Proof.
  intros Hi. unfold expired_eviction_candidate.
  pose proof (next_start_resampled c) as Hr. destruct (next_start c) as [c0 start]. simpl in Hr.
  destruct (collect_expired_ok c0 start 0 now (seq 0 (length (mc_shards c0)))) as (c' & found & -> & Hr' & Hf);
    [by eapply resampled_index|].
  exists c', found. split; [done|]. split; [by etrans|done].
Qed.

Definition policy_lt (p : EvictionPolicy) : EvictionCandidate -> EvictionCandidate -> bool :=
  match p with LRU => lru_lt | LFU => lfu_lt | TTL => ttl_lt | FIFO => fifo_lt end.

Lemma policy_weak_order p : weak_order (policy_lt p).
Proof.
  destruct p; split; simpl; unfold lfu_lt, lru_lt, ttl_lt, fifo_lt; intros; bool_arith;
    rewrite ?orb_true_iff, ?orb_false_iff, ?andb_true_iff, ?andb_false_iff, ?Z.ltb_lt, ?Z.ltb_ge,
      ?Z.eqb_eq, ?Z.eqb_neq in *; lia.
Qed.

Lemma remaining_nonneg now c cand : faithful now c cand -> 0 <= default 0 (cand_remaining_ttl cand).
Proof.
  intros (e & m & _ & _ & _ & -> & _)%faithful_meta. unfold entry_remaining_ttl, sat_sub.
  case_match; simpl; lia.
Qed.

Lemma evict_by_policy_ok c now : index_ok c -> mc_cache c <> ∅ ->
  exists c', evict_by_policy c now = (c', true) /\
    evicted (least_of (policy_lt (eviction_policy (mc_config c))) now c) now c c'.
Proof.
  intros Hi Hne. unfold evict_by_policy. destruct (eviction_policy (mc_config c)) eqn:Hp;
    try (apply evict_least_ok; [|done..]; by apply (policy_weak_order LRU)
         || apply (policy_weak_order LFU) || apply (policy_weak_order FIFO)).
  unfold evict_ttl. destruct (expired_eviction_candidate_ok c now Hi) as (c1 & found & -> & Hr & Hf).
  destruct found as [cand|]; simpl in Hf.
  - destruct Hf as [Hf Hnone]. apply evict_resampled with (now := now); [done..|].
    intros _ cand' Hf'. simpl. unfold ttl_lt. rewrite Hnone. simpl.
    pose proof (remaining_nonneg _ _ _ Hf'). lia.
  - destruct (evict_least_ok ttl_lt c1 now (policy_weak_order TTL)) as (c' & -> & Hev).
    + by eapply resampled_index.
    + by rewrite (rs_cache _ _ Hr).
    + exists c'. split; [done|]. eapply evicted_resampled; [done..|].
      intros cand Hleast Hsmall cand2 Hf2.
      apply Hleast; [by rewrite (rs_cache _ _ Hr)|by eapply resampled_faithful].
Qed.

Lemma evict_one_ok c now : index_ok c -> mc_cache c <> ∅ ->
  exists c', evict_one c now = (c', true) /\
    evicted (least_of (policy_lt (eviction_policy (mc_config c))) now c) now c c'.
Proof.
  intros Hi Hne. destruct (evict_by_policy_ok c now Hi Hne) as (c' & Heq & Hev).
  exists c'. split; [|done]. unfold evict_one, EVICTION_SAMPLE_SIZE. cbn [evict_attempts]. by rewrite Heq.
Qed.

(** On an empty cache eviction finds nothing. *)
Lemma evict_one_empty c now : index_ok c -> mc_cache c = ∅ -> resampled c (evict_one c now).1.
Proof.
  intros Hi He. unfold evict_one. generalize EVICTION_SAMPLE_SIZE. intros n. revert c Hi He.
  induction n as [|n IH]; intros c Hi He; [done|]. simpl.
  assert (Hp : exists c1, evict_by_policy c now = (c1, false) /\ resampled c c1).
  { unfold evict_by_policy, evict_lru, evict_lfu, evict_fifo, evict_ttl.
    destruct (eviction_policy _); try (exists c; by rewrite evict_least_empty).
    destruct (expired_eviction_candidate_ok c now Hi) as (c1 & [cand|] & -> & Hr & Hf).
    - destruct Hf as [(e & m & Hc & _)%faithful_meta _]. by rewrite (rs_cache _ _ Hr), He, lookup_empty in Hc.
    - exists c1. split; [|done]. apply evict_least_empty. by rewrite (rs_cache _ _ Hr). }
  destruct Hp as (c1 & -> & Hr). simpl. case_match; [done|].
  etrans; [done|]. apply IH; [by eapply resampled_index|by rewrite (rs_cache _ _ Hr)].
Qed.

(** * Insertion, removal, expiry and clearing *)

Lemma make_room_ok c now : index_ok c ->
  let c' := make_room c now in
  (memory_len c < max_size (mc_config c) /\ c' = c) \/
  (max_size (mc_config c) <= 0 /\ mc_cache c = ∅ /\ resampled c c') \/
  (max_size (mc_config c) <= memory_len c /\ mc_cache c <> ∅ /\
   evicted (least_of (policy_lt (eviction_policy (mc_config c))) now c) now c c').
Proof.
  intros Hi. unfold make_room. simpl.
  destruct (Z.leb_spec (max_size (mc_config c)) (memory_len c)) as [Hl|Hl]; [|by left].
  right. destruct (decide (mc_cache c = ∅)) as [He|Hne].
  - left. split; [unfold memory_len in Hl; rewrite He in Hl; by simpl in Hl|].
    split; [done|]. by apply evict_one_empty.
  - right. split; [done|]. split; [done|]. by destruct (evict_one_ok c now Hi Hne) as (c' & -> & Hev).
Qed.

Lemma ticked_stats c k m c' f : ticked c k m c' -> ticked c k m (upd_stats c' f).
Proof. intros []. by split. Qed.

Lemma insert_entry_ok c k e : index_ok c ->
  let c' := insert_entry c k e in
  mc_cache c' = <[k := e]> (mc_cache c) /\ index_ok c' /\
  ticked c k (Some (mkMeta (next_tick c) 0)) c' /\ entry_count (mc_stats c') = memory_len c' /\
  total_size_bytes (mc_stats c') =
    wrap_u64 (match mc_cache c !! k with
              | Some old => sat_sub (total_size_bytes (mc_stats c)) (ce_size_bytes old)
              | None => total_size_bytes (mc_stats c)
              end + ce_size_bytes e).
Proof.
  intros Hi. destruct (reset_ticked c k e Hi) as (Hc & Hs & Hi' & Ht). unfold insert_entry. simpl.
  set (c1 := reset_access_meta_for_insert _ _) in *. rewrite <- Hs.
  destruct (mc_cache c !! k) as [old|]; simpl; (split; [done|]; split; [exact Hi'|]; split; [|done]);
    by repeat apply ticked_stats.
Qed.

(** [c'] is [c] without the entries of [ks]. *)
Record dropped c (ks : gset CacheKey) c' : Prop := {
  drop_cache k : mc_cache c' !! k = if decide (k ∈ ks) then None else mc_cache c !! k;
  drop_index : index_ok c';
  drop_config : mc_config c' = mc_config c;
  drop_clock : mc_access_clock c' = mc_access_clock c;
  drop_meta k : k ∉ ks -> meta_of c' k = meta_of c k;
}.

Lemma dropped_refl c : index_ok c -> dropped c ∅ c.
Proof. intros. by split. Qed.

Lemma dropped_trans c1 c2 c3 ks1 ks2 : dropped c1 ks1 c2 -> dropped c2 ks2 c3 -> dropped c1 (ks1 ∪ ks2) c3.
Proof.
  intros [] []. split; try congruence.
  - intros k. rewrite drop_cache1, drop_cache0. repeat case_decide; set_solver.
  - intros k Hk. rewrite drop_meta1, drop_meta0 by set_solver. done.
Qed.

Lemma removed_dropped c k c' : removed c k c' -> dropped c {[k]} c'.
Proof.
  intros []. split; try done.
  - intros k'. rewrite rem_cache0. case_decide as Hk.
    + apply elem_of_singleton in Hk as ->. apply lookup_delete_eq.
    + apply lookup_delete_ne. set_solver.
  - intros k' Hk. apply rem_meta0. set_solver.
Qed.

Lemma dropped_stats c ks c' f : dropped c ks c' -> dropped c ks (upd_stats c' f).
Proof. intros []. by split. Qed.

Lemma dropped_len c ks c' : dropped c ks c' -> memory_len c' <= memory_len c.
Proof.
  intros []. unfold memory_len. apply inj_le, map_subseteq_size. apply map_subseteq_spec. intros k e.
  rewrite drop_cache0. by case_decide.
Qed.

Lemma remove_expired_ok c key now : index_ok c ->
  match remove_expired c key now with
  | Some c' => exists e, mc_cache c !! key = Some e /\ entry_is_expired e now = true /\ removed c key c' /\
      entry_count (mc_stats c') = memory_len c'
  | None => forall e, mc_cache c !! key = Some e -> entry_is_expired e now = false
  end.
Proof.
  intros Hi. unfold remove_expired. destruct (remove_if c key _) as [[c1 e]|] eqn:Hr.
  - destruct (remove_if_removed _ _ _ _ _ Hi Hr) as (He & Hx & Hrem).
    exists e. split; [done|]. split; [done|]. split; [|done]. unfold count_entries. by do 2 apply removed_stats.
  - intros e He. unfold remove_if in Hr. rewrite He in Hr. by destruct (entry_is_expired e now).
Qed.

Lemma forget_deleted_ok c c1 key p e : index_ok c -> remove_if c key p = Some (c1, e) ->
  mc_cache c !! key = Some e /\ p e = true /\ removed c key (forget_deleted c1 key e) /\
  entry_count (mc_stats (forget_deleted c1 key e)) = memory_len (forget_deleted c1 key e).
Proof.
  intros Hi Hr. destruct (remove_if_removed _ _ _ _ _ Hi Hr) as (He & Hp & Hrem).
  split; [done|]. split; [done|]. split; [|done]. unfold forget_deleted, count_entries.
  by do 3 apply removed_stats.
Qed.

Lemma remove_if_None c key p : remove_if c key p = None ->
  forall e, mc_cache c !! key = Some e -> p e = false.
Proof. unfold remove_if. intros Hr e He. rewrite He in Hr. by destruct (p e). Qed.

Lemma remove_each_expired_ok c keys now count : index_ok c ->
  exists c' count' ks, remove_each_expired c keys now count = (c', count') /\ dropped c ks c' /\
    (forall k, k ∈ ks <-> k ∈ keys /\ exists e, mc_cache c !! k = Some e /\ entry_is_expired e now = true) /\
    count <= count' /\ (count' = count -> c' = c).
Proof.
  intros Hi. revert c count Hi. induction keys as [|key keys IH]; intros c count Hi; simpl.
  { exists c, count, ∅. split; [done|]. split; [by apply dropped_refl|]. split; [set_solver|]. done. }
  destruct (remove_if c key _) as [[c1 e]|] eqn:Hr.
  - pose proof (remove_if_removed c key _ c1 e Hi Hr) as (He & Hx & Hrem).
    unfold remove_if in Hr. rewrite He, Hx in Hr. injection Hr as <-.
    set (c2 := upd_stats (remove_access_meta _ _) _).
    assert (Hdr : dropped c {[key]} c2).
    { apply dropped_stats. apply removed_dropped in Hrem. destruct Hrem.
      unfold remove_access_meta in *. rewrite decide_True in * by apply lookup_delete_eq. by split. }
    destruct (IH c2 (count + 1)) as (c3 & count' & ks & -> & Hd & Hks & Hc & Heq); [apply Hdr|].
    exists c3, count', ({[key]} ∪ ks). split; [done|]. split; [by eapply dropped_trans|]. split; [|lia].
    intros k. rewrite elem_of_union, elem_of_singleton, Hks, elem_of_cons.
    rewrite (drop_cache _ _ _ Hdr). case_decide as Hk; rewrite elem_of_singleton in Hk.
    + split; [|by left]. intros _. split; [by left|]. rewrite Hk. eauto.
    + split; [intros [->|[Hin Hex]]; [done|by auto]|intros [[->|Hin] Hex]; [done|by auto]].
  - destruct (IH c count Hi) as (c' & count' & ks & -> & Hd & Hks & Hc & Heq).
    exists c', count', ks. split; [done|]. split; [done|]. split; [|done].
    intros k. rewrite Hks, elem_of_cons. split; [intros [Hin Hex]; by auto|].
    intros [[->|Hin] (e & He & Hx)]; [|by eauto]. by rewrite (remove_if_None _ _ _ Hr e He) in Hx.
Qed.

Definition expired_keys c (now : Z) : gset CacheKey :=
  dom (filter (fun ke => Is_true (entry_is_expired ke.2 now)) (mc_cache c)).

Lemma elem_of_expired_keys c now k :
  k ∈ expired_keys c now <-> exists e, mc_cache c !! k = Some e /\ entry_is_expired e now = true.
Proof.
  unfold expired_keys. rewrite elem_of_dom. split.
  - intros [e [He Hx]%map_lookup_filter_Some]. exists e. split; [done|]. by apply Is_true_eq_true.
  - intros (e & He & Hx). exists e. apply map_lookup_filter_Some. split; [done|]. simpl. by rewrite Hx.
Qed.

Lemma cleanup_expired_ok c now : index_ok c ->
  dropped c (expired_keys c now) (cleanup_expired c now) /\
  (entry_count (mc_stats c) = memory_len c ->
   entry_count (mc_stats (cleanup_expired c now)) = memory_len (cleanup_expired c now)).
Proof.
  intros Hi. unfold cleanup_expired. fold (expired_keys c now).
  destruct (remove_each_expired_ok c (elements (expired_keys c now)) now 0 Hi)
    as (c' & count & ks & -> & Hd & Hks & Hc & Heq).
  assert (ks = expired_keys c now) as ->.
  { apply set_eq. intros k. rewrite Hks, elem_of_elements, elem_of_expired_keys. naive_solver. }
  destruct (Z.ltb_spec 0 count).
  - split; [by apply dropped_stats|done].
  - split; [done|]. by rewrite Heq by lia.
Qed.

Lemma clear_shard_ok c l : mc_cache c = ∅ -> Forall (fun i => (i < length (mc_shards c))%nat) l ->
  let c' := foldl clear_shard c l in
  mc_cache c' = ∅ /\ mc_config c' = mc_config c /\ mc_access_clock c' = mc_access_clock c /\
  length (mc_shards c') = length (mc_shards c) /\
  forall i s, mc_shards c' !! i = Some s ->
    mc_shards c !! i = Some s /\ i ∉ l \/ access_meta s = ∅ /\ lru_keys (access_queue s) = [].
Proof.
  intros He Hl. revert c He Hl. induction l as [|i l IH]; intros c He Hl; simpl.
  { repeat split; try done. intros j s Hs. left. split; [done|set_solver]. }
  apply Forall_cons in Hl as [Hi Hl].
  destruct (IH (clear_shard c i)) as (Hc & Hcfg & Hclk & Hlen & Hsh);
    [done|simpl; by rewrite length_insert|].
  simpl in Hlen. rewrite length_insert in Hlen. repeat split; [done..|].
  intros j s Hs. destruct (Hsh j s Hs) as [[Hj Hnot]|Hempty]; [|by right].
  simpl in Hj. apply list_lookup_insert_Some in Hj as [(<- & <- & _)|[Hne Hj]].
  - right. simpl. assert (Hf : filter (fun km : CacheKey * CacheAccessMeta => is_Some (mc_cache c !! km.1))
      (access_meta (shard_at c i)) = ∅).
    { apply map_empty. intros k. apply map_lookup_filter_None. right. intros m _. simpl.
      rewrite He, lookup_empty. by intros [? ?]. }
    rewrite Hf. split; [done|]. rewrite dom_empty_L, elements_empty. apply lru_keys_clear.
  - left. split; [done|]. set_solver.
Qed.

Lemma memory_clear_ok c : index_ok c ->
  let c' := memory_clear c in
  mc_cache c' = ∅ /\ index_ok c' /\ mc_config c' = mc_config c /\ mc_access_clock c' = mc_access_clock c /\
  entry_count (mc_stats c') = 0.
Proof.
  intros [Hn _]. unfold memory_clear. cbn zeta.
  change (length (mc_shards (set_cache c ∅))) with (length (mc_shards c)).
  destruct (clear_shard_ok (set_cache c ∅) (seq 0 (length (mc_shards c)))) as (Hc & Hcfg & Hclk & Hlen & Hsh);
    [done|apply Forall_forall; intros i Hi%elem_of_seq; simpl; lia|].
  simpl in *. set (c1 := foldl _ _ _) in *.
  split; [done|]. split; [|done]. split; simpl; [lia|]. intros i s Hs. rewrite Hc, dom_empty_L.
  destruct (Hsh i s Hs) as [[Hs' Hnot]|[Hm Hq]].
  - exfalso. apply Hnot, elem_of_seq. apply lookup_lt_Some in Hs'. lia.
  - split; [rewrite Hm|rewrite Hq|rewrite Hq; apply NoDup_nil_2]; set_solver.
Qed.
End Ops.
