(* ===== verification/MemoryCacheRuns.v ===== *)
(** Runs of the in-memory cache: its operations as one step, the invariant
    every reachable state has, and what a lookup may return. *)

From S2P Require Import Prelude CacheTypes MemoryCache MemoryCacheIndex MemoryCacheOps.

(** * Operations and answers *)

Inductive memory_op (T : Type) :=
| OpGet (key : CacheKey) (now : Z)
| OpPeek (key : CacheKey) (now : Z)
| OpGetEntry (key : CacheKey) (now1 now2 : Z)
| OpPeekEntry (key : CacheKey) (now1 now2 : Z)
| OpSet (key : CacheKey) (value : T) (ttl now1 now2 now_unix : Z)
| OpSetSize (key : CacheKey) (value : T) (ttl size_bytes now1 now2 now_unix : Z)
| OpDelete (key : CacheKey)
| OpDeleteIf (key : CacheKey) (predicate : T -> bool) (now : Z)
| OpExists (key : CacheKey) (now : Z)
| OpClear
| OpCleanup (now : Z).
Arguments OpGet {T} _ _.
Arguments OpPeek {T} _ _.
Arguments OpGetEntry {T} _ _ _.
Arguments OpPeekEntry {T} _ _ _.
Arguments OpSet {T} _ _ _ _ _ _.
Arguments OpSetSize {T} _ _ _ _ _ _ _.
Arguments OpDelete {T} _.
Arguments OpDeleteIf {T} _ _ _.
Arguments OpExists {T} _ _.
Arguments OpClear {T}.
Arguments OpCleanup {T} _.

(** What the caller sees: a value, whether something was found, or nothing. *)
Inductive memory_answer (T : Type) :=
| Returned (value : option T)
| Found (found : bool)
| Done.
Arguments Returned {T} _.
Arguments Found {T} _.
Arguments Done {T}.

Section Runs.
Context {T Q : Type} `{!LruCache Q}.
Implicit Types (c : InMemoryCache T Q) (o : memory_op T) (key k : CacheKey) (e : CacheEntry T).

Definition memory_step c o : InMemoryCache T Q * memory_answer T :=
  match o with
  | OpGet key now => let '(c, v) := memory_get c key now in (c, Returned v)
  | OpPeek key now => let '(c, v) := memory_peek c key now in (c, Returned v)
  | OpGetEntry key now1 now2 =>
      let '(c, e) := memory_get_entry c key now1 now2 in (c, Returned (ce_value <$> e))
  | OpPeekEntry key now1 now2 =>
      let '(c, e) := memory_peek_entry c key now1 now2 in (c, Returned (ce_value <$> e))
  | OpSet key value ttl now1 now2 now_unix => (memory_set_with_ttl c key value ttl now1 now2 now_unix, Done)
  | OpSetSize key value ttl size_bytes now1 now2 now_unix =>
      (memory_set_with_size c key value ttl size_bytes now1 now2 now_unix, Done)
  | OpDelete key => let '(c, b) := memory_delete c key in (c, Found b)
  | OpDeleteIf key predicate now => let '(c, v) := memory_delete_if c key predicate now in (c, Returned v)
  | OpExists key now => let '(c, b) := memory_exists c key now in (c, Found b)
  | OpClear => (memory_clear c, Done)
  | OpCleanup now => (cleanup_expired c now, Done)
  end.

Fixpoint memory_run c (ops : list (memory_op T)) : InMemoryCache T Q * list (memory_answer T) :=
  match ops with
  | [] => (c, [])
  | o :: ops =>
      let '(c, a) := memory_step c o in
      let '(c, answers) := memory_run c ops in
      (c, a :: answers)
  end.
End Runs.

(** * The four kinds of step

    Each operation is one of: a lookup that hits, the loss of some keys, an
    insertion (with what made room for it), or a clear. *)

Section Kinds.
Context {T Q : Type} `{!LruCache Q} `{!LawfulLruCache Q}.
Implicit Types (c : InMemoryCache T Q) (o : memory_op T) (key k : CacheKey) (e : CacheEntry T).

(** [c'] is [c] after a hit on [k]. *)
Definition touched c k c' : Prop :=
  mc_cache c' = mc_cache c /\ index_ok c' /\
  exists m count, meta_of c k = Some m /\ ticked c k (Some (mkMeta (next_tick c) count)) c'.

Definition inserted c k e c' : Prop :=
  mc_cache c' = <[k := e]> (mc_cache c) /\ index_ok c' /\ ticked c k (Some (mkMeta (next_tick c) 0)) c'.

(** What [make_room] does. *)
Definition roomy (now : Z) c c' : Prop :=
  (memory_len c < max_size (mc_config c) /\ c' = c) \/
  (max_size (mc_config c) <= 0 /\ mc_cache c = ∅ /\ resampled c c') \/
  (max_size (mc_config c) <= memory_len c /\ mc_cache c <> ∅ /\
   evicted (least_of (policy_lt (eviction_policy (mc_config c))) now c) now c c').

Inductive kind_of_step c : memory_op T -> InMemoryCache T Q -> memory_answer T -> Prop :=
| step_hit o k now e c' :
    o = OpGet k now \/ o = OpPeek k now \/ (exists now2, o = OpGetEntry k now now2 \/ o = OpPeekEntry k now now2) ->
    mc_cache c !! k = Some e -> entry_is_expired e now = false -> touched c k c' ->
    kind_of_step c o c' (Returned (Some (ce_value e)))
| step_expired o k now e c' :
    o = OpGet k now \/ o = OpPeek k now \/ (exists now2, o = OpGetEntry k now now2 \/ o = OpPeekEntry k now now2) ->
    mc_cache c !! k = Some e -> entry_is_expired e now = true -> dropped c {[k]} c' ->
    kind_of_step c o c' (Returned None)
| step_miss o k now c' :
    o = OpGet k now \/ o = OpPeek k now \/ (exists now2, o = OpGetEntry k now now2 \/ o = OpPeekEntry k now now2) ->
    mc_cache c !! k = None -> dropped c ∅ c' ->
    kind_of_step c o c' (Returned None)
| step_set o k v ttl now1 now2 now_unix e c1 c' :
    o = OpSet k v ttl now1 now2 now_unix /\ e = entry_new v ttl now2 now_unix \/
    (exists size_bytes, o = OpSetSize k v ttl size_bytes now1 now2 now_unix /\
       e = entry_with_size v ttl now2 now_unix size_bytes) ->
    roomy now1 c c1 -> inserted c1 k e c' ->
    kind_of_step c o c' Done
| step_delete k c' :
    dropped c {[k]} c' ->
    kind_of_step c (OpDelete k) c' (Found (bool_decide (is_Some (mc_cache c !! k))))
| step_delete_if_matched k p now e c' :
    mc_cache c !! k = Some e -> entry_is_expired e now = false -> p (ce_value e) = true ->
    dropped c {[k]} c' ->
    kind_of_step c (OpDeleteIf k p now) c' (Returned (Some (ce_value e)))
| step_delete_if_other k p now c' :
    (forall e, mc_cache c !! k = Some e -> entry_is_expired e now = false -> p (ce_value e) = false) ->
    dropped c ∅ c' ->
    kind_of_step c (OpDeleteIf k p now) c' (Returned None)
| step_exists_expired k now e c' :
    mc_cache c !! k = Some e -> entry_is_expired e now = true -> dropped c {[k]} c' ->
    kind_of_step c (OpExists k now) c' (Found false)
| step_exists k now c' :
    (forall e, mc_cache c !! k = Some e -> entry_is_expired e now = false) -> dropped c ∅ c' ->
    kind_of_step c (OpExists k now) c' (Found (bool_decide (is_Some (mc_cache c !! k))))
| step_clear c' :
    mc_cache c' = ∅ -> index_ok c' -> mc_config c' = mc_config c ->
    mc_access_clock c' = mc_access_clock c ->
    kind_of_step c OpClear c' Done
| step_cleanup now c' :
    dropped c (expired_keys c now) c' ->
    kind_of_step c (OpCleanup now) c' Done.

Lemma lookup_touched c k e f : index_ok c -> mc_cache c !! k = Some e ->
  touched c k (upd_stats (record_access c k).1 f).
Proof.
  intros Hi He. destruct (record_access_ticked c k Hi) as (Hc & _ & Hi' & Ht & _).
  assert (is_Some (meta_of c k)) as [m Hm] by (apply meta_of_live; eauto).
  rewrite Hm in Ht. split; [done|]. split; [exact Hi'|]. eexists m, _. split; [done|].
  apply ticked_stats. exact Ht.
Qed.

Lemma upd_stats_id c : upd_stats c (fun s => s) = c.
Proof. by destruct c. Qed.

(** The lookups share their first branches. *)
Lemma lookup_kind c o k now :
  index_ok c ->
  o = OpGet k now \/ o = OpPeek k now \/ (exists now2, o = OpGetEntry k now now2 \/ o = OpPeekEntry k now now2) ->
  kind_of_step c o (memory_step c o).1 (memory_step c o).2.
Proof.
  intros Hi Ho. pose proof (remove_expired_ok c k now Hi) as Hr.
  destruct (remove_expired c k now) as [c'|] eqn:Hx.
  - destruct Hr as (e & He & Hexp & Hrem%removed_dropped & _).
    assert ((memory_step c o).2 = Returned None /\ dropped c {[k]} (memory_step c o).1) as [-> Hd].
    { destruct Ho as [->|[->|(now2 & [->| ->])]]; simpl;
        unfold memory_get, memory_peek, memory_get_entry, memory_peek_entry; rewrite Hx; simpl;
        (split; [done|]); by try apply dropped_stats. }
    by eapply step_expired.
  - destruct (mc_cache c !! k) as [e|] eqn:He.
    + pose proof (fun f => lookup_touched c k e f Hi He) as Ht.
      destruct (record_access c k) as [c' count] eqn:Hra. simpl in Ht.
      assert ((memory_step c o).2 = Returned (Some (ce_value e)) /\ touched c k (memory_step c o).1) as [-> Hd].
      { destruct Ho as [->|[->|(now2 & [->| ->])]]; simpl;
          unfold memory_get, memory_peek, memory_get_entry, memory_peek_entry; rewrite Hx, He, Hra; simpl;
          (split; [done|]); try apply Ht; rewrite <- (upd_stats_id c'); apply Ht. }
      by eapply step_hit; eauto.
    + assert ((memory_step c o).2 = Returned None /\ dropped c ∅ (memory_step c o).1) as [-> Hd].
      { destruct Ho as [->|[->|(now2 & [->| ->])]]; simpl;
          unfold memory_get, memory_peek, memory_get_entry, memory_peek_entry; rewrite Hx, He; simpl;
          (split; [done|]); try apply dropped_stats; by apply dropped_refl. }
      by eapply step_miss.
Qed.

Lemma insert_kind c k e now : index_ok c -> exists c1,
  roomy now c c1 /\ inserted c1 k e (insert_entry (make_room c now) k e) /\
  entry_count (mc_stats (insert_entry (make_room c now) k e)) =
    memory_len (insert_entry (make_room c now) k e).
Proof.
  intros Hi. exists (make_room c now). pose proof (make_room_ok c now Hi) as Hroom.
  assert (Hi1 : index_ok (make_room c now)).
  { destruct Hroom as [[_ ->]|[(_ & _ & Hr)|(_ & _ & cand & e' & _ & _ & _ & [] & _)]]; [done| |done].
    by eapply resampled_index. }
  destruct (insert_entry_ok _ k e Hi1) as (Hc & Hi2 & Ht & Hcount & _). done.
Qed.

Lemma delete_kind c k : index_ok c ->
  kind_of_step c (OpDelete k) (memory_step c (OpDelete k)).1 (memory_step c (OpDelete k)).2.
Proof.
  intros Hi. simpl. unfold memory_delete.
  assert (Hd : forall b c', b = bool_decide (is_Some (mc_cache c !! k)) -> dropped c {[k]} c' ->
    kind_of_step c (OpDelete k) c' (Found b)) by (intros b c' ->; apply step_delete).
  destruct (remove_if c k _) as [[c1 e]|] eqn:Hr; simpl; apply Hd.
  - destruct (forget_deleted_ok _ _ _ _ _ Hi Hr) as (He & _). by rewrite He.
  - destruct (forget_deleted_ok _ _ _ _ _ Hi Hr) as (_ & _ & Hrem & _). by apply removed_dropped.
  - destruct (mc_cache c !! k) eqn:He; [|done]. by pose proof (remove_if_None _ _ _ Hr _ He).
  - destruct (mc_cache c !! k) as [e|] eqn:He; [by pose proof (remove_if_None _ _ _ Hr _ He)|].
    split; try done. intros k'. case_decide as Hk; [|done]. by apply elem_of_singleton in Hk as ->.
Qed.

Lemma memory_step_kind c o : index_ok c ->
  kind_of_step c o (memory_step c o).1 (memory_step c o).2.
Proof.
  intros Hi.
  destruct o as [k now|k now|k now now2|k now now2|k v ttl now1 now2 u|k v ttl sz now1 now2 u|k|k p now|k now| |now];
    try (eapply lookup_kind; by eauto); [..|by apply delete_kind| | | |]; simpl.
  - destruct (insert_kind c k (entry_new v ttl now2 u) now1 Hi) as (c1 & Hroom & Hins & _).
    by eapply step_set; eauto.
  - destruct (insert_kind c k (entry_with_size v ttl now2 u sz) now1 Hi) as (c1 & Hroom & Hins & _).
    by eapply step_set; eauto.
  - unfold memory_delete_if. destruct (remove_if c k _) as [[c1 e]|] eqn:Hr; simpl.
    + destruct (forget_deleted_ok _ _ _ _ _ Hi Hr) as (He & [Hx Hp]%andb_prop & Hrem & _).
      eapply step_delete_if_matched; [done|by apply negb_true_iff|done|by apply removed_dropped].
    + apply step_delete_if_other; [|by apply dropped_refl]. intros e He Hx.
      pose proof (remove_if_None _ _ _ Hr _ He) as Hb. simpl in Hb. by rewrite Hx in Hb.
  - unfold memory_exists. destruct (remove_if c k _) as [[c1 e]|] eqn:Hr; simpl.
    + destruct (remove_if_removed _ _ _ _ _ Hi Hr) as (He & Hx & Hrem).
      eapply step_exists_expired; [done..|]. by apply dropped_stats, removed_dropped.
    + replace (if decide (mc_cache c !! k = None) then false else true)
        with (bool_decide (is_Some (mc_cache c !! k))).
      * apply step_exists; [|by apply dropped_refl]. by apply remove_if_None.
      * destruct (mc_cache c !! k); [by rewrite decide_False|by rewrite decide_True].
  - destruct (memory_clear_ok c Hi) as (Hc & Hi' & Hcfg & Hclk & _). by apply step_clear.
  - apply step_cleanup. by apply cleanup_expired_ok.
Qed.
End Kinds.

(** * The invariant *)

Section Invariant.
Context {T Q : Type} `{!LruCache Q} `{!LawfulLruCache Q}.
Implicit Types (c : InMemoryCache T Q) (o : memory_op T) (key k : CacheKey) (e : CacheEntry T).

Definition within_capacity c : Prop := memory_len c <= Z.max 1 (max_size (mc_config c)).

Definition counted c : Prop := entry_count (mc_stats c) = memory_len c.

Lemma roomy_len now c c1 : within_capacity c -> roomy now c c1 ->
  memory_len c1 + 1 <= Z.max 1 (max_size (mc_config c)) /\ mc_config c1 = mc_config c.
Proof.
  unfold within_capacity. intros Hw [[Hl ->]|[(Hm & He & Hr)|(Hm & Hne & cand & e & _ & _ & He & Hrem & _)]].
  - split; [lia|done].
  - split; [|by apply rs_config]. unfold memory_len. rewrite (rs_cache _ _ Hr), He, map_size_empty. lia.
  - split; [|by apply (rem_config _ _ _ Hrem)]. unfold memory_len at 1.
    rewrite (rem_cache _ _ _ Hrem), (memory_len_delete _ _ _ He). lia.
Qed.

Lemma inserted_len c k e c' : inserted c k e c' -> memory_len c' <= memory_len c + 1 /\ mc_config c' = mc_config c.
Proof.
  intros (Hc & _ & Ht). split; [|by apply Ht]. unfold memory_len. rewrite Hc.
  destruct (mc_cache c !! k) eqn:He.
  - rewrite map_size_insert_Some by eauto. lia.
  - rewrite map_size_insert_None by done. lia.
Qed.

Lemma kind_index c o c' a : index_ok c -> kind_of_step c o c' a -> index_ok c'.
Proof. intros Hi Hk. inversion Hk; simplify_eq; unfold touched, inserted in *; naive_solver (eauto using drop_index). Qed.

Lemma kind_capacity c o c' a : within_capacity c -> kind_of_step c o c' a ->
  within_capacity c' /\ mc_config c' = mc_config c.
Proof.
  intros Hw Hk. unfold within_capacity in *.
  assert (Hdrop : forall ks, dropped c ks c' ->
    memory_len c' <= Z.max 1 (max_size (mc_config c')) /\ mc_config c' = mc_config c).
  { intros ks Hd. rewrite (drop_config _ _ _ Hd). pose proof (dropped_len _ _ _ Hd). split; [lia|done]. }
  inversion Hk; simplify_eq; eauto.
  - destruct H2 as (Hc & _ & m & count & _ & Ht). rewrite (tick_config _ _ _ _ Ht).
    split; [|done]. unfold memory_len in *. by rewrite Hc.
  - destruct (roomy_len _ _ _ Hw H0) as [Hl Hcfg]. destruct (inserted_len _ _ _ _ H1) as [Hl' Hcfg'].
    rewrite Hcfg', Hcfg. split; [lia|done].
  - rewrite H1. split; [|done]. unfold memory_len. rewrite H, map_size_empty. lia.
Qed.

Lemma lookup_counted c k now c' : index_ok c -> counted c ->
  (c' = (memory_get c k now).1 \/ c' = (memory_peek c k now).1 \/
   exists now2, c' = (memory_get_entry c k now now2).1 \/ c' = (memory_peek_entry c k now now2).1) ->
  counted c'.
Proof.
  intros Hi Hc Hor. pose proof (remove_expired_ok c k now Hi) as Hr.
  destruct (record_access_ticked c k Hi) as (Hca & Hst & _).
  assert (Hra : counted (record_access c k).1) by (unfold counted, memory_len; by rewrite Hst, Hca).
  destruct Hor as [->|[->|(now2 & [->| ->])]];
    unfold memory_get, memory_peek, memory_get_entry, memory_peek_entry;
    (destruct (remove_expired c k now) as [c1|]; [by destruct Hr as (e & _ & _ & _ & Hcount)|]);
    (destruct (mc_cache c !! k); [by destruct (record_access c k)|done]).
Qed.

Lemma memory_step_counted c o : index_ok c -> counted c -> counted (memory_step c o).1.
Proof.
  intros Hi Hc.
  destruct o as [k now|k now|k now now2|k now now2|k v ttl now1 now2 u|k v ttl sz now1 now2 u|k|k p now|k now| |now]; simpl.
  - assert (counted (memory_get c k now).1) by (eapply lookup_counted; eauto).
    by destruct (memory_get c k now).
  - assert (counted (memory_peek c k now).1) by (eapply lookup_counted; eauto).
    by destruct (memory_peek c k now).
  - assert (counted (memory_get_entry c k now now2).1) by (eapply lookup_counted; eauto).
    by destruct (memory_get_entry c k now now2).
  - assert (counted (memory_peek_entry c k now now2).1) by (eapply lookup_counted; eauto).
    by destruct (memory_peek_entry c k now now2).
  - by destruct (insert_kind c k (entry_new v ttl now2 u) now1 Hi) as (c1 & _ & _ & Hcount).
  - by destruct (insert_kind c k (entry_with_size v ttl now2 u sz) now1 Hi) as (c1 & _ & _ & Hcount).
  - unfold memory_delete. destruct (remove_if c k _) as [[c1 e]|] eqn:Hr; [|done].
    by apply (forget_deleted_ok _ _ _ _ _ Hi Hr).
  - unfold memory_delete_if. destruct (remove_if c k _) as [[c1 e]|] eqn:Hr; [|done].
    by apply (forget_deleted_ok _ _ _ _ _ Hi Hr).
  - unfold memory_exists. by destruct (remove_if c k _) as [[c1 e]|].
  - destruct (memory_clear_ok c Hi) as (Hm & _ & _ & _ & Hz). unfold counted, memory_len. by rewrite Hz, Hm.
  - by apply cleanup_expired_ok.
Qed.

Definition healthy c : Prop := index_ok c /\ within_capacity c /\ counted c.

Lemma healthy_step c o : healthy c -> healthy (memory_step c o).1 /\ mc_config (memory_step c o).1 = mc_config c.
Proof.
  intros (Hi & Hw & Hc). pose proof (memory_step_kind c o Hi) as Hk.
  destruct (kind_capacity _ _ _ _ Hw Hk) as [Hw' Hcfg]. split; [|done].
  split; [by eapply kind_index|]. split; [done|]. by apply memory_step_counted.
Qed.

Lemma healthy_run c ops : healthy c -> healthy (memory_run c ops).1 /\ mc_config (memory_run c ops).1 = mc_config c.
Proof.
  revert c. induction ops as [|o ops IH]; intros c Hh; simpl; [done|].
  destruct (healthy_step c o Hh) as [Hh' Hcfg]. destruct (memory_step c o) as [c1 a]. simpl in *.
  destruct (IH c1 Hh') as [Hh2 Hcfg2]. destruct (memory_run c1 ops). simpl in *. split; [done|congruence].
Qed.

Lemma shard_count_pos p : 4 <= default_access_shard_count p <= 64.
Proof. unfold default_access_shard_count, MAX_ACCESS_SHARDS, MIN_ACCESS_SHARDS. lia. Qed.

Lemma healthy_new p config : healthy (memory_new p config : InMemoryCache T Q).
Proof.
  pose proof (shard_count_pos p). split; [split|split].
  - simpl. rewrite length_replicate. lia.
  - intros i s [-> _]%lookup_replicate_1. simpl.
    split; simpl; rewrite ?lru_keys_unbounded; [set_solver|set_solver|apply NoDup_nil_2].
  - unfold within_capacity, memory_len. simpl. rewrite map_size_empty. lia.
  - done.
Qed.
End Invariant.

Section Guarantee.
Context {T Q : Type} `{!LruCache Q} `{!LawfulLruCache Q}.

(** C23: whatever the operations, policy and sizes, at the end of each
    one: the cache holds at most [max_size] entries (one, when that is zero), the
    entry counter is their number, and each shard's metadata and candidate queue
    hold exactly the keys of the shard's own entries, once each. *)
Theorem memory_cache_healthy (available_parallelism : option Z) (config : DualCacheConfig)
    (ops : list (memory_op T)) :
  let c := (memory_run (memory_new available_parallelism config : InMemoryCache T Q) ops).1 in
  memory_len c <= Z.max 1 (max_size config) /\
  entry_count (mc_stats c) = memory_len c /\
  forall i s, mc_shards c !! i = Some s ->
    NoDup (lru_keys (access_queue s)) /\
    forall k, (k ∈ lru_keys (access_queue s) <-> k ∈ dom (mc_cache c) /\ access_shard_index c k = i) /\
              (k ∈ dom (access_meta s) <-> k ∈ dom (mc_cache c) /\ access_shard_index c k = i).
Proof.
  destruct (healthy_run (memory_new available_parallelism config : InMemoryCache T Q) ops
              (healthy_new available_parallelism config)) as [([_ Hi] & Hw & Hc) Hcfg].
  simpl in *. unfold within_capacity in Hw. rewrite Hcfg in Hw. split; [done|]. split; [done|].
  intros i s Hs. destruct (Hi i s Hs) as [Hm Hq Hd]. split; [done|]. intros k. split; [apply Hq|apply Hm].
Qed.
End Guarantee.

(** Five keys into two slots with the policy LFU, a read and a deletion between. *)
Definition crowded_ops : list (memory_op Z) :=
  (fun n => OpSet (mkCacheKey "k" n) n 100 n n 0) <$> [1; 2; 3; 4; 5].

Definition crowded : InMemoryCache Z (list CacheKey) :=
  (memory_run (memory_new (Some 8) (with_eviction_policy (with_max_size DualCacheConfig_default 2) LFU))
     (crowded_ops ++ [OpGet (mkCacheKey "k" 5) 6; OpDelete (mkCacheKey "k" 4)])).1.

Lemma memory_cache_healthy_witness :
  dom (mc_cache crowded) = {[mkCacheKey "k" 5]} /\ entry_count (mc_stats crowded) = 1 /\
  memory_len crowded <= Z.max 1 2.
Proof.
  split; [by vm_compute|]. split; [by vm_compute|].
  exact (proj1 (memory_cache_healthy (Some 8) (with_eviction_policy (with_max_size DualCacheConfig_default 2) LFU)
    (crowded_ops ++ [OpGet (mkCacheKey "k" 5) 6; OpDelete (mkCacheKey "k" 4)]))).
Defined.
