(* ===== verification/MemoryCacheSpec.v ===== *)
(** The in-memory cache against a map with no bound: whatever its policy, every
    answer is that of the map, or that nothing is there; and while fewer keys
    than its capacity are written it forgets nothing but what expires. *)

From S2P Require Import Prelude CacheTypes MemoryCache MemoryCacheIndex MemoryCacheOps MemoryCacheRuns.

(** * The map without a bound *)

Section Map.
Context {T : Type}.
Implicit Types (m : gmap CacheKey (CacheEntry T)) (o : memory_op T) (k : CacheKey) (e : CacheEntry T).

Definition unexpired m k (now : Z) : option (CacheEntry T) :=
  e ← m !! k; if entry_is_expired e now then None else Some e.

Definition map_step m o : gmap CacheKey (CacheEntry T) * memory_answer T :=
  match o with
  | OpGet k now | OpPeek k now | OpGetEntry k now _ | OpPeekEntry k now _ =>
      (m, Returned (ce_value <$> unexpired m k now))
  | OpSet k v ttl _ now2 now_unix => (<[k := entry_new v ttl now2 now_unix]> m, Done)
  | OpSetSize k v ttl size_bytes _ now2 now_unix =>
      (<[k := entry_with_size v ttl now2 now_unix size_bytes]> m, Done)
  | OpDelete k => (delete k m, Found (bool_decide (is_Some (m !! k))))
  | OpDeleteIf k p now =>
      match unexpired m k now with
      | Some e => if p (ce_value e) then (delete k m, Returned (Some (ce_value e))) else (m, Returned None)
      | None => (m, Returned None)
      end
  | OpExists k now => (m, Found (bool_decide (is_Some (unexpired m k now))))
  | OpClear => (∅, Done)
  | OpCleanup _ => (m, Done)
  end.

Fixpoint map_run m (ops : list (memory_op T)) : list (memory_answer T) :=
  match ops with
  | [] => []
  | o :: ops => let '(m, a) := map_step m o in a :: map_run m ops
  end.

(** The answer [a] is [b], or that nothing is there. *)
Definition forgets (a b : memory_answer T) : Prop := a = b \/ a = Returned None \/ a = Found false.

(** The readings of the clock of one operation, and those of a run in order. *)
Definition op_span o (t : Z) : Z * Z :=
  match o with
  | OpGet _ now | OpPeek _ now | OpGetEntry _ now _ | OpPeekEntry _ now _
  | OpDeleteIf _ _ now | OpExists _ now | OpCleanup now => (now, now)
  | OpSet _ _ _ now1 now2 _ | OpSetSize _ _ _ _ now1 now2 _ => (now1, now2)
  | OpDelete _ | OpClear => (t, t)
  end.

Fixpoint in_order (t : Z) (ops : list (memory_op T)) : Prop :=
  match ops with
  | [] => True
  | o :: ops => t <= (op_span o t).1 <= (op_span o t).2 /\ in_order (op_span o t).2 ops
  end.

(** The answer [a] is the map's; or an unconditional deletion, which reads no
    clock, finds gone an entry that had expired at [t], the last reading. *)
Definition exact m (t : Z) o (a : memory_answer T) : Prop :=
  a = (map_step m o).2 \/
  exists k e, o = OpDelete k /\ m !! k = Some e /\ entry_is_expired e t = true /\ a = Found false.

(** Every answer is exact, for the map and the clock it meets. *)
Fixpoint exact_run m (t : Z) (ops : list (memory_op T)) (answers : list (memory_answer T)) : Prop :=
  match ops, answers with
  | [], [] => True
  | o :: ops, a :: answers => exact m t o a /\ exact_run (map_step m o).1 (op_span o t).2 ops answers
  | _, _ => False
  end.

Definition written o : gset CacheKey :=
  match o with OpSet k _ _ _ _ _ | OpSetSize k _ _ _ _ _ _ => {[k]} | _ => ∅ end.

Fixpoint all_written (ops : list (memory_op T)) : gset CacheKey :=
  match ops with [] => ∅ | o :: ops => written o ∪ all_written ops end.
End Map.

Section MapRefinement.
Context {T Q : Type} `{!LruCache Q} `{!LawfulLruCache Q}.
Implicit Types (c : InMemoryCache T Q) (o : memory_op T) (k : CacheKey) (e : CacheEntry T).
Implicit Types (m : gmap CacheKey (CacheEntry T)).

(** What of [m] has not expired is in the cache. *)
Definition whole (now : Z) c m : Prop :=
  forall k e, m !! k = Some e -> entry_is_expired e now = false -> mc_cache c !! k = Some e.

Lemma whole_later now now' c m : now <= now' -> whole now c m -> whole now' c m.
Proof.
  intros Hle Hw k e He Hx. apply Hw; [done|]. destruct (entry_is_expired e now) eqn:Hx'; [|done].
  by rewrite (expired_monotone e now now' Hle Hx') in Hx.
Qed.

Lemma dropped_backed c ks c' m : dropped c ks c' -> mc_cache c ⊆ m -> mc_cache c' ⊆ m.
Proof.
  intros Hd Hsub. apply map_subseteq_spec. intros k e. rewrite (drop_cache _ _ _ Hd).
  case_decide; [done|]. intros Hc. by eapply lookup_weaken.
Qed.

Lemma dropped_whole now c ks c' m : dropped c ks c' -> whole now c m ->
  (forall k e, k ∈ ks -> mc_cache c !! k = Some e -> entry_is_expired e now = true) -> whole now c' m.
Proof.
  intros Hd Hw Hks k e He Hx. rewrite (drop_cache _ _ _ Hd). pose proof (Hw k e He Hx) as Hc.
  case_decide as Hk; [|done]. by rewrite (Hks k e Hk Hc) in Hx.
Qed.

Lemma roomy_backed now c c1 m : roomy now c c1 -> mc_cache c ⊆ m -> mc_cache c1 ⊆ m.
Proof.
  intros [[_ ->]|[(_ & _ & Hr)|(_ & _ & cand & e & _ & _ & _ & Hrem & _)]] Hsub; [done| |].
  - by rewrite (rs_cache _ _ Hr).
  - rewrite (rem_cache _ _ _ Hrem). etrans; [apply delete_subseteq|done].
Qed.

(** The lookup of an unexpired entry of the map. *)
Lemma unexpired_Some m k now e : unexpired m k now = Some e <-> m !! k = Some e /\ entry_is_expired e now = false.
Proof.
  unfold unexpired. destruct (m !! k) as [e'|]; simpl; [|naive_solver].
  destruct (entry_is_expired e' now) eqn:Hx; naive_solver congruence.
Qed.

Lemma unexpired_None m k now :
  (forall e, m !! k = Some e -> entry_is_expired e now = true) -> unexpired m k now = None.
Proof. unfold unexpired. intros Hx. destruct (m !! k) as [e|]; [|done]. simpl. by rewrite Hx. Qed.

Lemma lookup_step m o k now t :
  o = OpGet k now \/ o = OpPeek k now \/ (exists now2, o = OpGetEntry k now now2 \/ o = OpPeekEntry k now now2) ->
  map_step m o = (m, Returned (ce_value <$> unexpired m k now)) /\ op_span o t = (now, now).
Proof. by intros [->|[->|(now2 & [->| ->])]]. Qed.

(** One step: the cache stays within the map and its answer may only forget. *)
Lemma map_step_backed c m o c' a : mc_cache c ⊆ m -> kind_of_step c o c' a ->
  mc_cache c' ⊆ (map_step m o).1 /\ forgets a (map_step m o).2.
Proof.
  intros Hsub Hk. destruct Hk as [o k now e c' Ho He Hx (Hc & _)|o k now e c' Ho He Hx Hd|o k now c' Ho He Hd|
    o k v ttl now1 now2 u e c1 c' Ho Hroom (Hc & _)|k c' Hd|k p now e c' He Hx Hp Hd|k p now c' Hnot Hd|
    k now e c' He Hx Hd|k now c' Hnot Hd|c' Hc _ _ _|now c' Hd].
  - assert (Hu : unexpired m k now = Some e) by (apply unexpired_Some; split; [by eapply lookup_weaken|done]).
    destruct (lookup_step m o k now 0 Ho) as [-> _]. rewrite Hc, Hu. split; [done|by left].
  - destruct (lookup_step m o k now 0 Ho) as [-> _]. split; [by eapply dropped_backed|by right; left].
  - destruct (lookup_step m o k now 0 Ho) as [-> _]. split; [by eapply dropped_backed|by right; left].
  - rewrite Hc. pose proof (roomy_backed _ _ _ _ Hroom Hsub).
    destruct Ho as [[-> ->]|(sz & -> & ->)]; simpl; (split; [by apply insert_mono|by left]).
  - simpl. split.
    + apply map_subseteq_spec. intros k' e. rewrite (drop_cache _ _ _ Hd). case_decide as Hk; [done|].
      rewrite lookup_delete_ne by set_solver. intros Hc. by eapply lookup_weaken.
    + destruct (mc_cache c !! k) as [e|] eqn:He; [|by right; right].
      left. by rewrite (lookup_weaken _ _ _ _ He Hsub).
  - assert (Hu : unexpired m k now = Some e) by (apply unexpired_Some; split; [by eapply lookup_weaken|done]).
    simpl. rewrite Hu, Hp. simpl. split; [|by left].
    apply map_subseteq_spec. intros k' e'. rewrite (drop_cache _ _ _ Hd). case_decide as Hk; [done|].
    rewrite lookup_delete_ne by set_solver. intros Hc. by eapply lookup_weaken.
  - simpl. destruct (unexpired m k now) as [e|] eqn:Hu; [destruct (p (ce_value e)) eqn:Hp|]; simpl;
      (split; [|by right; left]); [|by eapply dropped_backed|by eapply dropped_backed].
    apply unexpired_Some in Hu as [He Hx].
    apply map_subseteq_spec. intros k' e'. rewrite (drop_cache _ _ _ Hd). case_decide as Hk'; [done|].
    intros Hc. assert (Hm : m !! k' = Some e') by by eapply lookup_weaken.
    rewrite lookup_delete_ne; [done|]. intros ->. simplify_eq. by rewrite (Hnot _ Hc Hx) in Hp.
  - split; [by eapply dropped_backed|by right; right].
  - simpl. split; [by eapply dropped_backed|]. destruct (mc_cache c !! k) as [e|] eqn:He; [|by right; right].
    left. assert (Hu : unexpired m k now = Some e)
      by (apply unexpired_Some; split; [by eapply lookup_weaken|by apply Hnot]). by rewrite Hu.
  - rewrite Hc. split; [done|by left].
  - split; [by eapply dropped_backed|by left].
Qed.

(** An unconditional deletion against the map. *)
Lemma delete_exact c m k c' a t :
  mc_cache c ⊆ m -> whole t c m -> kind_of_step c (OpDelete k) c' a -> exact m t (OpDelete k) a.
Proof.
  intros Hsub Hw Hk.
  assert (a = Found (bool_decide (is_Some (mc_cache c !! k)))) as ->.
  { inversion Hk; subst; try done; naive_solver. }
  unfold exact. simpl. destruct (mc_cache c !! k) as [e|] eqn:He.
  { left. by rewrite (lookup_weaken _ _ _ _ He Hsub). }
  destruct (m !! k) as [e|] eqn:Hm; [|by left]. right. exists k, e. split_and!; try done.
  destruct (entry_is_expired e t) eqn:Hx; [done|]. by rewrite (Hw k e Hm Hx) in He.
Qed.

(** With room for one more entry, nothing is forgotten but what expires. *)
Lemma map_step_whole c m o c' a t :
  mc_cache c ⊆ m -> whole t c m -> memory_len c < max_size (mc_config c) ->
  t <= (op_span o t).1 <= (op_span o t).2 -> kind_of_step c o c' a ->
  whole (op_span o t).2 c' (map_step m o).1 /\ exact m t o a.
Proof.
  intros Hsub Hw Hlen Ht Hk.
  cut (whole (op_span o t).2 c' (map_step m o).1 /\
       ((forall k, o <> OpDelete k) -> a = (map_step m o).2)).
  { intros [Hwhole Ha]. split; [done|]. destruct o; try (left; by apply Ha). by eapply delete_exact. }
  assert (Hnone : forall k now, t <= now -> (forall e, mc_cache c !! k = Some e -> entry_is_expired e now = true) ->
    unexpired m k now = None).
  { intros k now Hnow Hall. apply unexpired_None. intros e He. destruct (entry_is_expired e now) eqn:Hx; [done|].
    rewrite <- Hx. apply Hall. by apply (whole_later t now c m Hnow Hw). }
  assert (Hsome : forall k now e, mc_cache c !! k = Some e -> entry_is_expired e now = false ->
    unexpired m k now = Some e) by (intros k now e He Hx; apply unexpired_Some; split; [by eapply lookup_weaken|done]).
  assert (Hsame : forall now, t <= now -> dropped c ∅ c' -> whole now c' m)
    by (intros now Hnow Hd; eapply dropped_whole; [done|by apply (whole_later t now)|set_solver]).
  assert (Hkey : forall k now, t <= now -> dropped c {[k]} c' ->
    (forall e, mc_cache c !! k = Some e -> entry_is_expired e now = true) -> whole now c' m).
  { intros k now Hnow Hd Hx. eapply dropped_whole; [done|by apply (whole_later t now)|].
    intros k' e' ->%elem_of_singleton. apply Hx. }
  assert (Hdel : forall k now, t <= now -> dropped c {[k]} c' -> whole now c' (delete k m)).
  { intros k now Hnow Hd k' e' Hm Hx. apply lookup_delete_Some in Hm as [Hne Hm].
    rewrite (drop_cache _ _ _ Hd), decide_False by set_solver. by apply (whole_later t now c m Hnow Hw). }
  destruct Hk as [o k now e c' Ho He Hx (Hc & _)|o k now e c' Ho He Hx Hd|o k now c' Ho He Hd|
    o k v ttl now1 now2 u e c1 c' Ho Hroom (Hc & _)|k c' Hd|k p now e c' He Hx Hp Hd|k p now c' Hnot Hd|
    k now e c' He Hx Hd|k now c' Hnot Hd|c' Hc _ _ _|now c' Hd].
  - destruct (lookup_step m o k now t Ho) as (-> & Hspan). rewrite Hspan in *. simpl in *.
    rewrite (Hsome k now e He Hx). split; [|done].
    intros k' e'. rewrite Hc. apply (whole_later t now c m); [lia|done].
  - destruct (lookup_step m o k now t Ho) as (-> & Hspan). rewrite Hspan in *. simpl in *.
    rewrite (Hnone k now) by (lia || congruence). split; [|done]. apply (Hkey k); [lia|done|congruence].
  - destruct (lookup_step m o k now t Ho) as (-> & Hspan). rewrite Hspan in *. simpl in *.
    rewrite (Hnone k now) by (lia || congruence). split; [|done]. apply Hsame; [lia|done].
  - assert (Hc1 : c1 = c) by (destruct Hroom as [[_ ->]|[(? & He & _)|(? & _)]];
      [done|unfold memory_len in Hlen; lia|lia]). subst c1.
    assert (Hins : forall now, t <= now -> whole now c' (<[k := e]> m)).
    { intros now Hnow k' e' Hm Hx. rewrite Hc. apply lookup_insert_Some in Hm as [[-> ->]|[Hne Hm]].
      - apply lookup_insert_eq.
      - rewrite lookup_insert_ne by done. by apply (whole_later t now c m Hnow Hw). }
    destruct Ho as [[-> ->]|(sz & -> & ->)]; simpl in *; (split; [apply Hins; lia|done]).
  - simpl in *. split; [apply Hdel; [lia|done]|intros Hne; by destruct (Hne k)].
  - simpl in *. rewrite (Hsome k now e He Hx), Hp. simpl. split; [apply Hdel; [lia|done]|done].
  - simpl in *. destruct (unexpired m k now) as [e|] eqn:Hu; [|split; [apply Hsame; [lia|done]|done]].
    apply unexpired_Some in Hu as [He Hx].
    assert (Hc : mc_cache c !! k = Some e) by (apply (whole_later t now c m); [lia|done..]).
    rewrite (Hnot e Hc Hx). simpl. split; [apply Hsame; [lia|done]|done].
  - simpl in *. rewrite (Hnone k now) by (lia || congruence). split; [|done].
    apply (Hkey k); [lia|done|congruence].
  - simpl in *. split; [apply Hsame; [lia|done]|].
    destruct (mc_cache c !! k) as [e|] eqn:He.
    + by rewrite (Hsome k now e He (Hnot e eq_refl)).
    + by rewrite (Hnone k now) by (lia || congruence).
  - simpl in *. split; [|done]. intros k e He. by rewrite lookup_empty in He.
  - simpl in *. split; [|done]. eapply dropped_whole; [done|by apply (whole_later t now); [lia|]|].
    intros k e (e' & He' & Hx)%elem_of_expired_keys He. congruence.
Qed.

Lemma map_step_keys m o : dom (map_step m o).1 ⊆ dom m ∪ written o.
Proof.
  destruct o as [k now|k now|k now now2|k now now2|k v ttl now1 now2 u|k v ttl sz now1 now2 u|k|k p now|k now| |now];
    simpl; try set_solver.
  repeat case_match; simpl; set_solver.
Qed.

(** The answers of a run against those of the map. *)
Lemma map_run_forgets c m ops : healthy c -> mc_cache c ⊆ m ->
  Forall2 forgets (memory_run c ops).2 (map_run m ops).
Proof.
  revert c m. induction ops as [|o ops IH]; intros c m Hh Hsub; simpl; [constructor|].
  pose proof (memory_step_kind c o (proj1 Hh)) as Hk. destruct (map_step_backed _ _ _ _ _ Hsub Hk) as [Hsub' Ha].
  destruct (healthy_step c o Hh) as [Hh' _].
  destruct (memory_step c o) as [c1 a], (map_step m o) as [m1 b]. simpl in *.
  specialize (IH c1 m1 Hh' Hsub'). destruct (memory_run c1 ops). by constructor.
Qed.

Lemma map_run_exact c m ops t : healthy c -> mc_cache c ⊆ m -> whole t c m -> in_order t ops ->
  Z.of_nat (size (dom m ∪ all_written ops)) < max_size (mc_config c) ->
  exact_run m t ops (memory_run c ops).2.
Proof.
  revert c m t. induction ops as [|o ops IH]; intros c m t Hh Hsub Hw Ht Hsize; simpl; [done|].
  destruct Ht as [Ht Hrest]. pose proof (memory_step_kind c o (proj1 Hh)) as Hk.
  destruct (map_step_backed _ _ _ _ _ Hsub Hk) as [Hsub' _].
  assert (Hlen : memory_len c < max_size (mc_config c)).
  { eapply Z.le_lt_trans; [|done]. unfold memory_len. rewrite <- size_dom. apply inj_le, subseteq_size.
    apply subseteq_dom in Hsub. simpl. set_solver. }
  destruct (map_step_whole _ _ _ _ _ t Hsub Hw Hlen Ht Hk) as [Hw' Ha].
  destruct (healthy_step c o Hh) as [Hh' Hcfg]. pose proof (map_step_keys m o) as Hkeys.
  destruct (memory_step c o) as [c1 a]. simpl in *.
  specialize (IH c1 _ _ Hh' Hsub' Hw' Hrest). destruct (memory_run c1 ops). split; [done|].
  apply IH. rewrite Hcfg. eapply Z.le_lt_trans; [|exact Hsize]. apply inj_le, subseteq_size. set_solver.
Qed.
End MapRefinement.

Section MapGuarantee.
Context {T Q : Type} `{!LruCache Q} `{!LawfulLruCache Q}.

(** C21: the answers of any run of the in-memory cache are, one by one, those of a
    map without a bound or that nothing is there: a lookup never returns a value
    other than the last one written, nor one that has expired or was deleted.
    When the readings of the clock do not go back and fewer keys than the
    capacity are written, every answer is that of the map, but for a plain
    deletion of an entry that had expired at the last reading of the clock:
    it may find the entry already gone. *)
Theorem memory_cache_refines_map (available_parallelism : option Z) (config : DualCacheConfig)
    (ops : list (memory_op T)) (t : Z) :
  let answers := (memory_run (memory_new available_parallelism config : InMemoryCache T Q) ops).2 in
  Forall2 forgets answers (map_run ∅ ops) /\
  (in_order t ops -> Z.of_nat (size (all_written ops)) < max_size config ->
   exact_run ∅ t ops answers).
Proof.
  pose proof (healthy_new (T := T) (Q := Q) available_parallelism config) as Hh. split.
  - by apply map_run_forgets.
  - intros Ht Hsize. apply (map_run_exact _ ∅ ops t); [done|done| |done|].
    + intros k e He. by rewrite lookup_empty in He.
    + by rewrite dom_empty_L, union_empty_l_L.
Qed.
End MapGuarantee.

(** Two writes of one key, a deletion of another and reads before and after the
    second value expires. *)
Definition map_example : list (memory_op Z) :=
  [OpSet (mkCacheKey "a" 1) 1 100 0 0 0; OpSet (mkCacheKey "b" 2) 2 100 1 1 0; OpSet (mkCacheKey "a" 1) 3 100 2 2 0;
   OpDelete (mkCacheKey "b" 2); OpGet (mkCacheKey "a" 1) 3; OpGet (mkCacheKey "b" 2) 3;
   OpExists (mkCacheKey "a" 1) 103; OpGet (mkCacheKey "a" 1) 103].

Lemma memory_cache_refines_map_witness :
  map_run ∅ map_example =
    [Done; Done; Done; Found true; Returned (Some 3); Returned None; Found false; Returned None] /\
  exact_run ∅ 0 map_example
    (memory_run (memory_new (Some 8) DualCacheConfig_default : InMemoryCache Z (list CacheKey)) map_example).2.
Proof.
  split; [by vm_compute|].
  apply (memory_cache_refines_map (Some 8) DualCacheConfig_default map_example 0).
  - simpl. lia.
  - by vm_compute.
Defined.
