(* ===== verification/MemoryCacheLru.v ===== *)
(** With the policy LRU, and as long as one eviction samples every entry, the
    in-memory cache is an LRU list with expiry that makes room before it looks
    whether the key is there; it is the textbook LRU list where no key but the
    oldest is overwritten while the list is full. *)

From S2P Require Import Prelude CacheTypes MemoryCache MemoryCacheIndex MemoryCacheOps MemoryCacheRuns.

(** * The reference: entries from the least recently used on *)

Section Reference.
Context {T : Type}.
Notation lru_list := (list (CacheKey * CacheEntry T)).
Implicit Types (l : lru_list) (k : CacheKey) (e : CacheEntry T).

Fixpoint assoc k l : option (CacheEntry T) :=
  match l with
  | [] => None
  | (k', e) :: l => if decide (k' = k) then Some e else assoc k l
  end.

Definition without k l : lru_list := filter (fun p => p.1 <> k) l.

(** [k] becomes the most recently used. *)
Definition use k e l : lru_list := without k l ++ [(k, e)].

Definition lru_lookup k (now : Z) l : lru_list * memory_answer T :=
  match assoc k l with
  | Some e => if entry_is_expired e now then (without k l, Returned None) else (use k e l, Returned (Some (ce_value e)))
  | None => (l, Returned None)
  end.

Definition evict_oldest (capacity : Z) l : lru_list :=
  if capacity <=? Z.of_nat (length l) then tail l else l.

(** The textbook insertion: an entry goes only to make room for a new key. *)
Definition lru_insert (capacity : Z) k e l : lru_list :=
  use k e (match assoc k l with Some _ => l | None => evict_oldest capacity l end).

(** The insertion of [set_with_ttl] and [set_with_size]: room is made first. *)
Definition room_first_insert (capacity : Z) k e l : lru_list := use k e (evict_oldest capacity l).

(** A step, for either insertion. *)
Definition lru_step (insert : CacheKey -> CacheEntry T -> lru_list -> lru_list) l (o : memory_op T)
    : lru_list * memory_answer T :=
  match o with
  | OpGet k now | OpPeek k now | OpGetEntry k now _ | OpPeekEntry k now _ => lru_lookup k now l
  | OpSet k v ttl _ now2 now_unix => (insert k (entry_new v ttl now2 now_unix) l, Done)
  | OpSetSize k v ttl size_bytes _ now2 now_unix =>
      (insert k (entry_with_size v ttl now2 now_unix size_bytes) l, Done)
  | OpDelete k => (without k l, Found (bool_decide (is_Some (assoc k l))))
  | OpDeleteIf k p now =>
      match assoc k l with
      | Some e =>
          if negb (entry_is_expired e now) && p (ce_value e)
          then (without k l, Returned (Some (ce_value e))) else (l, Returned None)
      | None => (l, Returned None)
      end
  | OpExists k now =>
      match assoc k l with
      | Some e => if entry_is_expired e now then (without k l, Found false) else (l, Found true)
      | None => (l, Found false)
      end
  | OpClear => ([], Done)
  | OpCleanup now => (filter (fun p => entry_is_expired p.2 now = false) l, Done)
  end.

Fixpoint lru_run insert l (ops : list (memory_op T)) : list (memory_answer T) :=
  match ops with
  | [] => []
  | o :: ops => let '(l, a) := lru_step insert l o in a :: lru_run insert l ops
  end.

(** While the list is full, no key is overwritten but the oldest. *)
Definition overwrites_oldest_only (capacity : Z) l (o : memory_op T) : Prop :=
  match o with
  | OpSet k _ _ _ _ _ | OpSetSize k _ _ _ _ _ _ =>
      capacity <= Z.of_nat (length l) -> assoc k l = None \/ head l.*1 = Some k
  | _ => True
  end.

Fixpoint no_full_overwrite (capacity : Z) l (ops : list (memory_op T)) : Prop :=
  match ops with
  | [] => True
  | o :: ops =>
      overwrites_oldest_only capacity l o /\
      no_full_overwrite capacity (lru_step (lru_insert capacity) l o).1 ops
  end.

Lemma insert_textbook capacity k e l :
  (capacity <= Z.of_nat (length l) -> assoc k l = None \/ head l.*1 = Some k) ->
  room_first_insert capacity k e l = lru_insert capacity k e l.
Proof.
  unfold room_first_insert, lru_insert, evict_oldest.
  destruct (Z.leb_spec capacity (Z.of_nat (length l))) as [Hle|]; [|by destruct (assoc k l)].
  intros Hk. destruct (Hk Hle) as [->|Hhead]; [done|].
  destruct l as [|[k' e'] l]; [done|]. injection Hhead as ->. simpl. rewrite decide_True by done.
  unfold use, without. by rewrite filter_cons_False by naive_solver.
Qed.

Lemma run_textbook capacity l ops : no_full_overwrite capacity l ops ->
  lru_run (room_first_insert capacity) l ops = lru_run (lru_insert capacity) l ops.
Proof.
  revert l. induction ops as [|o ops IH]; intros l; [done|]. intros [Ho Hops]. cbn [lru_run].
  assert (lru_step (room_first_insert capacity) l o = lru_step (lru_insert capacity) l o) as ->.
  { destruct o; try done; cbn in *; by rewrite insert_textbook. }
  destruct (lru_step (lru_insert capacity) l o) as [l' a]. f_equal. by apply IH.
Qed.

Lemma assoc_without k k' l : assoc k' (without k l) = if decide (k' = k) then None else assoc k' l.
Proof.
  induction l as [|[k1 e] l IH]; simpl; [by case_decide|]. unfold without in *.
  destruct (decide (k1 = k)) as [->|Hne].
  - rewrite filter_cons_False by naive_solver. rewrite IH. repeat case_decide; congruence.
  - rewrite filter_cons_True by done. simpl. rewrite IH. repeat case_decide; congruence.
Qed.

Lemma assoc_app k l1 l2 : assoc k (l1 ++ l2) = match assoc k l1 with Some e => Some e | None => assoc k l2 end.
Proof. induction l1 as [|[k1 e] l1 IH]; simpl; [done|]. by case_decide. Qed.

Lemma assoc_use k k' e l : assoc k' (use k e l) = if decide (k' = k) then Some e else assoc k' l.
Proof.
  unfold use. rewrite assoc_app, assoc_without. simpl.
  repeat case_decide; try congruence. by destruct (assoc k' l).
Qed.

Lemma assoc_Some k e l : NoDup l.*1 -> assoc k l = Some e <-> (k, e) ∈ l.
Proof.
  induction l as [|[k1 e1] l IH]; simpl; [set_solver|]. intros [Hk Hd]%NoDup_cons.
  rewrite elem_of_cons. case_decide as Hk1.
  - subst k1. split; [intros [= ->]; by left|]. intros [[= ->]|Hin]; [done|].
    destruct Hk. apply list_elem_of_fmap. by exists (k, e).
  - rewrite IH by done. naive_solver.
Qed.

Lemma assoc_list_to_map k l : (list_to_map l : gmap CacheKey (CacheEntry T)) !! k = assoc k l.
Proof.
  induction l as [|[k1 e1] l IH]; simpl; [apply lookup_empty|].
  case_decide as Hk; [subst; apply lookup_insert_eq|by rewrite lookup_insert_ne].
Qed.
End Reference.

(** * The cache keeps the list in the order of its ticks *)

Section Tracks.
Context {T Q : Type} `{!LruCache Q} `{!LawfulLruCache Q}.
Notation lru_list := (list (CacheKey * CacheEntry T)).
Implicit Types (c : InMemoryCache T Q) (l : lru_list) (k : CacheKey) (e : CacheEntry T).

Definition tick_of c k : Z := default 0 (last_access_tick <$> meta_of c k).

Record tracks c l : Prop := {
  tr_nodup : NoDup l.*1;
  tr_assoc k : assoc k l = mc_cache c !! k;
  tr_order : StronglySorted (fun p q => tick_of c p.1 < tick_of c q.1) l;
  tr_clock k : is_Some (mc_cache c !! k) -> tick_of c k <= mc_access_clock c;
}.

Lemma tracks_size c l : tracks c l -> size (mc_cache c) = length l.
Proof.
  intros [Hd Ha _ _]. assert (mc_cache c = list_to_map l) as ->.
  { apply map_eq. intros k. by rewrite assoc_list_to_map, Ha. }
  by apply map_size_list_to_map.
Qed.

Lemma tracks_elem c l p : tracks c l -> p ∈ l -> mc_cache c !! p.1 = Some p.2.
Proof. intros Htr Hp. rewrite <- (tr_assoc _ _ Htr). apply assoc_Some; [apply Htr|]. by destruct p. Qed.

Lemma StronglySorted_impl_in {A} (R R' : relation A) (l : list A) :
  (forall x y, x ∈ l -> y ∈ l -> R x y -> R' x y) -> StronglySorted R l -> StronglySorted R' l.
Proof.
  intros HR. induction 1 as [|x l Hs IH Hall]; constructor; [apply IH; set_solver|].
  rewrite Forall_forall in *. intros y Hy. apply HR; [set_solver|set_solver|by apply Hall].
Qed.

Lemma StronglySorted_filter {A} (R : relation A) (P : A -> Prop) `{!forall x, Decision (P x)} (l : list A) :
  StronglySorted R l -> StronglySorted R (filter P l).
Proof.
  induction 1 as [|x l Hs IH Hall]; [constructor|]. rewrite filter_cons. case_decide; [|done].
  constructor; [done|]. rewrite Forall_forall in *. intros y [_ Hy]%list_elem_of_filter. by apply Hall.
Qed.

Lemma NoDup_fst_filter (P : CacheKey * CacheEntry T -> Prop) `{!forall x, Decision (P x)} l :
  NoDup l.*1 -> NoDup (filter P l).*1.
Proof. intros Hd. eapply sublist_NoDup; [done|]. apply fmap_sublist, sublist_filter. Qed.

(** Losing keys. *)
Lemma tracks_filter c c' l (P : CacheKey * CacheEntry T -> Prop) `{!forall x, Decision (P x)} :
  tracks c l ->
  (forall k, mc_cache c' !! k = match mc_cache c !! k with
                                | Some e => if decide (P (k, e)) then Some e else None
                                | None => None
                                end) ->
  (forall k e, mc_cache c !! k = Some e -> P (k, e) -> meta_of c' k = meta_of c k) ->
  mc_access_clock c' = mc_access_clock c ->
  tracks c' (filter P l).
Proof.
  intros Htr Hcache Hmeta Hclock.
  assert (Htick : forall p, p ∈ filter P l -> tick_of c' p.1 = tick_of c p.1).
  { intros p [HP Hp]%list_elem_of_filter. unfold tick_of. erewrite Hmeta; [done|by apply (tracks_elem c l)|].
    by destruct p. }
  pose proof (NoDup_fst_filter P l (tr_nodup _ _ Htr)) as Hd.
  split; [done| | |].
  - intros k. rewrite Hcache. apply option_eq. intros e. rewrite (assoc_Some _ _ _ Hd), list_elem_of_filter.
    rewrite <- (assoc_Some _ _ _ (tr_nodup _ _ Htr)), (tr_assoc _ _ Htr).
    destruct (mc_cache c !! k) as [e'|]; [|naive_solver]. case_decide; naive_solver.
  - apply (StronglySorted_impl_in (fun p q => tick_of c p.1 < tick_of c q.1)).
    + intros p q Hp Hq. by rewrite (Htick p Hp), (Htick q Hq).
    + apply StronglySorted_filter, Htr.
  - intros k [e He]. rewrite Hclock. pose proof (Hcache k) as Hk. rewrite He in Hk.
    destruct (mc_cache c !! k) as [e'|] eqn:Hck; [|done]. case_decide as HP; [|done].
    unfold tick_of. rewrite (Hmeta k e' Hck HP). apply (tr_clock _ _ Htr). eauto.
Qed.

(** A use of [k] at a new tick. *)
Lemma tracks_use c c' l k e m :
  tracks c l -> mc_cache c' = <[k := e]> (mc_cache c) -> ticked c k (Some m) c' ->
  last_access_tick m = next_tick c -> mc_access_clock c < u64_max -> 0 <= mc_access_clock c ->
  tracks c' (use k e l).
Proof.
  intros Htr Hc [_ Hclk Hm Hothers] Hlast Hmax Hpos.
  assert (Hnext : next_tick c = mc_access_clock c + 1).
  { unfold next_tick. apply wrap_u64_small. unfold fits_u64. lia. }
  assert (Hk : tick_of c' k = mc_access_clock c + 1) by (unfold tick_of; rewrite Hm; simpl; by rewrite Hlast).
  assert (Htick : forall p, p ∈ without k l -> tick_of c' p.1 = tick_of c p.1 /\ tick_of c p.1 <= mc_access_clock c).
  { intros p [Hne Hp]%list_elem_of_filter. unfold tick_of. rewrite Hothers by done. split; [done|].
    apply (tr_clock _ _ Htr). by rewrite (tracks_elem _ _ _ Htr Hp). }
  split.
  - unfold use. rewrite fmap_app. apply NoDup_app. split; [by apply NoDup_fst_filter, Htr|].
    split; [|apply NoDup_singleton]. intros x (p & -> & [Hne _]%list_elem_of_filter)%list_elem_of_fmap. set_solver.
  - intros k'. rewrite assoc_use, Hc, (tr_assoc _ _ Htr). case_decide as Hkk.
    + subst. by rewrite lookup_insert_eq.
    + by rewrite lookup_insert_ne.
  - unfold use. apply (StronglySorted_impl_in (fun p q => tick_of c' p.1 < tick_of c' q.1)); [done|].
    assert (Hs : StronglySorted (fun p q : CacheKey * CacheEntry T => tick_of c' p.1 < tick_of c' q.1) (without k l)).
    { apply (StronglySorted_impl_in (fun p q => tick_of c p.1 < tick_of c q.1)).
      - intros p q Hp Hq. by rewrite (proj1 (Htick p Hp)), (proj1 (Htick q Hq)).
      - apply StronglySorted_filter, Htr. }
    revert Hs Htick. generalize (without k l). intros l1 Hs Htick.
    induction Hs as [|p l1 Hs IH Hall]; simpl; [repeat constructor|]. constructor.
    + apply IH. intros q Hq. apply Htick. set_solver.
    + apply Forall_app. split; [done|]. apply Forall_singleton. simpl.
      destruct (Htick p) as [-> Hle]; [set_solver|]. lia.
  - intros k' [e' He']. rewrite Hclk. fold (next_tick c). rewrite Hnext.
    destruct (decide (k' = k)) as [->|Hne]; [lia|]. unfold tick_of. rewrite Hothers by done.
    rewrite Hc, lookup_insert_ne in He' by done. pose proof (tr_clock _ _ Htr k' (mk_is_Some _ _ He')).
    unfold tick_of in *. lia.
Qed.

(** * Steps *)

Lemma tracks_resampled c c' l : resampled c c' -> tracks c l -> tracks c' l.
Proof.
  intros Hr [Hd Ha Ho Hk].
  assert (Ht : forall k, tick_of c' k = tick_of c k) by (intros k; unfold tick_of; by rewrite (meta_of_resampled c c')).
  split; [done| | |].
  - intros k. by rewrite (rs_cache _ _ Hr).
  - eapply StronglySorted_impl_in; [|done]. intros p q _ _. by rewrite !Ht.
  - intros k. rewrite (rs_cache _ _ Hr), Ht, (rs_clock _ _ Hr). apply Hk.
Qed.

Lemma tracks_dropped c c' l (ks : gset CacheKey) : tracks c l -> dropped c ks c' ->
  tracks c' (filter (fun p => p.1 ∉ ks) l).
Proof.
  intros Htr [Hc _ _ Hclk Hm]. apply (tracks_filter c); [done| | |done].
  - intros k. rewrite Hc. destruct (mc_cache c !! k); repeat case_decide; naive_solver.
  - intros k e _ Hk. by apply Hm.
Qed.

Lemma filter_notin_singleton k l : filter (fun p => p.1 ∉ ({[k]} : gset CacheKey)) l = without k l.
Proof. apply list_filter_iff. intros p. set_solver. Qed.

Lemma tracks_without c c' l k : tracks c l -> dropped c {[k]} c' -> tracks c' (without k l).
Proof. intros Htr Hd. rewrite <- filter_notin_singleton. by apply (tracks_dropped c). Qed.

Lemma tracks_same c c' l : tracks c l -> dropped c ∅ c' -> tracks c' l.
Proof.
  intros Htr Hd. pose proof (tracks_dropped c c' l ∅ Htr Hd) as Ht.
  by rewrite list_filter_all in Ht by set_solver.
Qed.

Lemma faithful_exists now c k e : index_ok c -> mc_cache c !! k = Some e ->
  exists cand, faithful now c cand /\ cand_key cand = k /\ cand_last_access_tick cand = tick_of c k.
Proof.
  intros Hi He. assert (is_Some (meta_of c k)) as [m Hm] by (apply meta_of_live; eauto).
  exists (mkCandidate k (last_access_tick m) (am_access_count m) (ce_created_at e) (entry_remaining_ttl e now now)).
  split; [|split; [done|unfold tick_of; by rewrite Hm]]. exists e, m, (access_shard_index c k). done.
Qed.

Lemma faithful_tick now c cand : faithful now c cand -> cand_last_access_tick cand = tick_of c (cand_key cand).
Proof. intros (e & m & _ & Hm & _ & _ & -> & _)%faithful_meta. unfold tick_of. by rewrite Hm. Qed.

(** The victim is the head of the list. *)
Lemma evicted_head now c c' l : index_ok c -> tracks c l -> (size (mc_cache c) <= EVICTION_SAMPLE_SIZE)%nat ->
  evicted (least_of lru_lt now c) now c c' -> tracks c' (tail l).
Proof.
  intros Hi Htr Hsmall (cand & e & Hf & Hleast & He & Hrem & _).
  assert (Hin : (cand_key cand, e) ∈ l).
  { apply assoc_Some; [apply Htr|]. by rewrite (tr_assoc _ _ Htr). }
  destruct l as [|[k e'] l]; [set_solver|].
  assert (Hk : cand_key cand = k).
  { destruct (decide (cand_key cand = k)) as [|Hne]; [done|]. exfalso.
    assert (Hl : (cand_key cand, e) ∈ l) by set_solver.
    pose proof (tr_order _ _ Htr) as Hs. inversion Hs as [|? ? _ Hall]; subst.
    rewrite Forall_forall in Hall. specialize (Hall _ Hl). simpl in Hall.
    destruct (faithful_exists now c k e' Hi) as (cand' & Hf' & _ & Htick).
    { apply (tracks_elem c ((k, e') :: l) (k, e') Htr). set_solver. }
    specialize (Hleast Hsmall cand' Hf'). unfold lru_lt in Hleast. rewrite Htick, (faithful_tick _ _ _ Hf) in Hleast.
    lia. }
  rewrite Hk in Hrem. apply removed_dropped in Hrem. pose proof (tracks_without _ _ _ _ Htr Hrem) as Ht.
  unfold without in Ht. rewrite filter_cons_False in Ht by naive_solver. rewrite list_filter_all in Ht; [done|].
  intros p Hp. pose proof (tr_nodup _ _ Htr) as Hd. simpl in Hd. apply NoDup_cons in Hd as [Hnot _].
  intros <-. apply Hnot. apply list_elem_of_fmap. eauto.
Qed.

Lemma roomy_tracks now c c1 l : index_ok c -> tracks c l -> (size (mc_cache c) <= EVICTION_SAMPLE_SIZE)%nat ->
  eviction_policy (mc_config c) = LRU -> roomy now c c1 ->
  tracks c1 (evict_oldest (max_size (mc_config c)) l) /\
  mc_access_clock c1 = mc_access_clock c.
Proof.
  intros Hi Htr Hsmall Hp Hroom. unfold evict_oldest. rewrite <- (tracks_size _ _ Htr). fold (memory_len c).
  destruct Hroom as [[Hl ->]|[(Hm & He & Hr)|(Hm & Hne & Hev)]].
  - by rewrite (proj2 (Z.leb_gt _ _)).
  - assert (l = []) as ->.
    { pose proof (tracks_size _ _ Htr) as Hs. rewrite He, map_size_empty in Hs. by destruct l. }
    simpl. split; [|by apply rs_clock]. case_match; by eapply tracks_resampled.
  - rewrite (proj2 (Z.leb_le _ _)) by done. rewrite Hp in Hev. split; [by eapply evicted_head|].
    destruct Hev as (cand & e & _ & _ & _ & Hrem & _). by apply (rem_clock _ _ _ Hrem).
Qed.

Lemma lru_lookup_step insert l o k now :
  o = OpGet k now \/ o = OpPeek k now \/ (exists now2, o = OpGetEntry k now now2 \/ o = OpPeekEntry k now now2) ->
  lru_step insert l o = lru_lookup k now l.
Proof. by intros [->|[->|(now2 & [->| ->])]]. Qed.

Lemma insert_lookup_id c k e : mc_cache c !! k = Some e -> <[k := e]> (mc_cache c) = mc_cache c.
Proof. apply insert_id. Qed.

Lemma lru_step_ok c l o c' a :
  index_ok c -> tracks c l -> (size (mc_cache c) <= EVICTION_SAMPLE_SIZE)%nat ->
  eviction_policy (mc_config c) = LRU -> 0 <= mc_access_clock c < u64_max ->
  kind_of_step c o c' a ->
  tracks c' (lru_step (room_first_insert (max_size (mc_config c))) l o).1 /\
  a = (lru_step (room_first_insert (max_size (mc_config c))) l o).2 /\
  0 <= mc_access_clock c' <= mc_access_clock c + 1.
Proof.
  intros Hi Htr Hsmall Hp Hclk Hk.
  assert (Hnext : next_tick c = mc_access_clock c + 1)
    by (unfold next_tick; apply wrap_u64_small; unfold fits_u64; lia).
  assert (Hdrop : forall ks, dropped c ks c' -> 0 <= mc_access_clock c' <= mc_access_clock c + 1)
    by (intros ks Hd; rewrite (drop_clock _ _ _ Hd); lia).
  pose proof (tr_assoc _ _ Htr) as Ha.
  destruct Hk as [o k now e c' Ho He Hx (Hc & _ & m & count & Hm & Ht)|o k now e c' Ho He Hx Hd|o k now c' Ho He Hd|
    o k v ttl now1 now2 u e c1 c' Ho Hroom (Hc & _ & Ht)|k c' Hd|k p now e c' He Hx Hpe Hd|k p now c' Hnot Hd|
    k now e c' He Hx Hd|k now c' Hnot Hd|c' Hc Hi' _ Hclk'|now c' Hd].
  - rewrite (lru_lookup_step _ _ _ _ _ Ho). unfold lru_lookup. rewrite Ha, He, Hx. simpl.
    split; [|split; [done|rewrite (tick_clock _ _ _ _ Ht); fold (next_tick c); lia]].
    apply (tracks_use c c' l k e _ Htr) in Ht; [done| |done|lia|lia]. by rewrite insert_lookup_id.
  - rewrite (lru_lookup_step _ _ _ _ _ Ho). unfold lru_lookup. rewrite Ha, He, Hx. simpl.
    split; [by apply (tracks_without c)|]. eauto.
  - rewrite (lru_lookup_step _ _ _ _ _ Ho). unfold lru_lookup. rewrite Ha, He. simpl.
    split; [by apply (tracks_same c)|]. eauto.
  - destruct (roomy_tracks _ _ _ _ Hi Htr Hsmall Hp Hroom) as [Htr1 Hclk1].
    assert (Hins : tracks c' (room_first_insert (max_size (mc_config c)) k e l)).
    { unfold room_first_insert. eapply (tracks_use c1); [done|done|done|done|lia|lia]. }
    assert (0 <= mc_access_clock c' <= mc_access_clock c + 1).
    { rewrite (tick_clock _ _ _ _ Ht), Hclk1. fold (next_tick c). lia. }
    by destruct Ho as [[-> ->]|(sz & -> & ->)].
  - simpl. rewrite Ha. split; [by apply (tracks_without c)|]. eauto.
  - simpl. rewrite Ha, He, Hx, Hpe. simpl. split; [by apply (tracks_without c)|]. eauto.
  - simpl. rewrite Ha. destruct (mc_cache c !! k) as [e|] eqn:He; [destruct (entry_is_expired e now) eqn:Hx|]; simpl.
    + split; [by apply (tracks_same c)|]. eauto.
    + rewrite (Hnot e eq_refl Hx). simpl. split; [by apply (tracks_same c)|]. eauto.
    + split; [by apply (tracks_same c)|]. eauto.
  - simpl. rewrite Ha, He, Hx. simpl. split; [by apply (tracks_without c)|]. eauto.
  - simpl. rewrite Ha. destruct (mc_cache c !! k) as [e|] eqn:He; simpl.
    + rewrite (Hnot e eq_refl). simpl. split; [by apply (tracks_same c)|]. eauto.
    + split; [by apply (tracks_same c)|]. eauto.
  - simpl. split; [|split; [done|rewrite Hclk'; lia]]. split; simpl.
    + apply NoDup_nil_2.
    + intros k. by rewrite Hc, lookup_empty.
    + constructor.
    + intros k [e He]. by rewrite Hc, lookup_empty in He.
  - simpl. split; [|eauto]. destruct Hd as [Hc _ _ Hclk' Hm]. apply (tracks_filter c); [done| | |done].
    + intros k. rewrite Hc. pose proof (elem_of_expired_keys c now k) as Hx.
      destruct (mc_cache c !! k) as [e|]; [|by case_decide]. destruct (entry_is_expired e now) eqn:Hex.
      * rewrite decide_True by (apply Hx; eauto). rewrite decide_False; [done|]. simpl. congruence.
      * rewrite decide_False by (rewrite Hx; intros (e' & [= <-] & ?); congruence). by rewrite decide_True.
    + intros k e He Hx. apply Hm. rewrite elem_of_expired_keys. intros (e' & He' & Hx'). simpl in Hx. congruence.
Qed.

Lemma lru_run_ok c l ops :
  healthy c -> tracks c l -> eviction_policy (mc_config c) = LRU ->
  max_size (mc_config c) <= Z.of_nat EVICTION_SAMPLE_SIZE ->
  0 <= mc_access_clock c -> mc_access_clock c + Z.of_nat (length ops) <= u64_max ->
  (memory_run c ops).2 = lru_run (room_first_insert (max_size (mc_config c))) l ops.
Proof.
  revert c l. induction ops as [|o ops IH]; intros c l Hh Htr Hp Hmax Hpos Hclk; [done|].
  cbn [memory_run lru_run length] in *. destruct Hh as (Hi & Hw & Hcount).
  assert (Hsmall : (size (mc_cache c) <= EVICTION_SAMPLE_SIZE)%nat).
  { unfold within_capacity, memory_len, EVICTION_SAMPLE_SIZE in *. lia. }
  pose proof (memory_step_kind c o Hi) as Hk.
  destruct (lru_step_ok c l o _ _ Hi Htr Hsmall Hp ltac:(lia) Hk) as (Htr' & Ha & Hclk').
  destruct (healthy_step c o (conj Hi (conj Hw Hcount))) as [Hh' Hcfg].
  destruct (memory_step c o) as [c1 a], (lru_step _ l o) as [l1 b]. simpl in *.
  specialize (IH c1 l1 Hh' Htr'). rewrite Hcfg in IH. destruct (memory_run c1 ops). simpl in *.
  rewrite Ha, IH; [done|done|done|lia|lia].
Qed.

Lemma tracks_new p config : tracks (memory_new p config : InMemoryCache T Q) [].
Proof.
  split; [apply NoDup_nil_2| |constructor|].
  - intros k. simpl. by rewrite lookup_empty.
  - intros k [e He]. simpl in He. by rewrite lookup_empty in He.
Qed.
End Tracks.

Section Guarantee.
Context {T Q : Type} `{!LruCache Q} `{!LawfulLruCache Q}.

(** C22: with the policy LRU and a capacity of at most the eviction sample
    (64), every run of the in-memory cache answers exactly as an LRU list with
    expiry that makes room before it looks whether the written key is there,
    until the access clock wraps around; and where no key but the oldest is
    overwritten while the list is full, exactly as the textbook LRU list.
    Overwriting another key at capacity evicts an entry the textbook keeps
    ([overwrite_evicts]). *)
Theorem memory_cache_is_lru (available_parallelism : option Z) (config : DualCacheConfig)
    (ops : list (memory_op T)) :
  eviction_policy config = LRU -> max_size config <= Z.of_nat EVICTION_SAMPLE_SIZE ->
  Z.of_nat (length ops) <= u64_max ->
  let answers := (memory_run (memory_new available_parallelism config : InMemoryCache T Q) ops).2 in
  answers = lru_run (room_first_insert (max_size config)) [] ops /\
  (no_full_overwrite (max_size config) [] ops -> answers = lru_run (lru_insert (max_size config)) [] ops).
Proof.
  intros Hp Hmax Hlen answers.
  assert (Ha : answers = lru_run (room_first_insert (max_size config)) [] ops).
  { apply (lru_run_ok (memory_new available_parallelism config) []); try done.
    - apply healthy_new.
    - apply tracks_new. }
  split; [done|]. intros Hno. rewrite Ha. by apply run_textbook.
Qed.
End Guarantee.

(** Two slots: reading [a] saves it from the third insertion. *)
Definition key_of (s : string) : CacheKey := mkCacheKey s (Z.of_nat (String.length s)).

Definition lru_example : list (memory_op Z) :=
  [OpSet (key_of "a") 1 100 0 0 0; OpSet (key_of "b") 2 100 1 1 0; OpGet (key_of "a") 2;
   OpSet (key_of "cc") 3 100 3 3 0; OpGet (key_of "a") 4; OpGet (key_of "b") 5; OpGet (key_of "cc") 6;
   OpGet (key_of "cc") 200].

Lemma memory_cache_is_lru_witness :
  (memory_run (memory_new (Some 8) (with_max_size DualCacheConfig_default 2)
     : InMemoryCache Z (list CacheKey)) lru_example).2 = lru_run (lru_insert 2) [] lru_example /\
  lru_run (lru_insert 2) [] lru_example =
    [Done; Done; Returned (Some 1); Done; Returned (Some 1); Returned None; Returned (Some 3); Returned None].
Proof.
  split; [|by vm_compute].
  apply (memory_cache_is_lru (Some 8) (with_max_size DualCacheConfig_default 2) lru_example);
    [done|done|by vm_compute|].
  cbn. repeat split; intros Hfull; vm_compute in Hfull |- *; auto.
Defined.

(** Two slots: writing [b] again evicts [a], which the textbook list keeps. *)
Definition overwrite_example : list (memory_op Z) :=
  [OpSet (key_of "a") 1 100 0 0 0; OpSet (key_of "b") 2 100 1 1 0; OpSet (key_of "b") 3 100 2 2 0;
   OpGet (key_of "a") 3].

Lemma overwrite_evicts :
  (memory_run (memory_new (Some 8) (with_max_size DualCacheConfig_default 2)
     : InMemoryCache Z (list CacheKey)) overwrite_example).2 = [Done; Done; Done; Returned None] /\
  lru_run (lru_insert 2) [] overwrite_example = [Done; Done; Done; Returned (Some 1)].
Proof. by vm_compute. Qed.
