(* ===== verification/MemoryCacheThreads.v ===== *)
(** The in-memory cache under concurrency ([core/cache/memory.rs]).

    The entries are in one map and the index in another place: an operation first
    changes the map, atomically, and then brings the index of the key's shard up
    to date under the lock of that shard's queue, in three or more steps that
    others interleave with.  A job is what an operation still has to do for the
    index: it waits for a lock or holds the lock of a shard.  The theorem is that
    whatever the interleaving, the index is exact once no job is left. *)

From S2P Require Import Prelude CacheTypes MemoryCache MemoryCacheIndex MemoryCacheOps MemoryCacheRuns.

(** * Jobs *)

(** [reset_access_meta_for_insert], [remove_access_meta] and the loop of
    [clear], with the shards it has still to visit, before they lock. *)
Inductive waiting_job :=
| WaitReset (key : CacheKey)
| WaitRemove (key : CacheKey)
| WaitClear (shards : list nat).

(** The same, once they hold the lock of a shard. *)
Inductive locked_job :=
| ResetCheck (key : CacheKey)       (* before [contains_key] *)
| ResetMeta (key : CacheKey)        (* before the metadata is written *)
| ResetQueue (key : CacheKey)       (* before [queue.put] *)
| RemoveCheck (key : CacheKey)
| RemoveMeta (key : CacheKey)
| RemoveQueue (key : CacheKey)
| ClearQueue (shards : list nat)    (* before [queue.clear] *)
| ClearRetain (todo : gset CacheKey) (shards : list nat)   (* [shard.retain], the keys left to visit *)
| ClearPut (todo : gset CacheKey) (shards : list nat).     (* [queue.put] of the keys left *)

Record world (T Q : Type) := mkWorld {
  w_memory : InMemoryCache T Q;
  w_waiting : list waiting_job;
  w_locks : gmap nat locked_job;     (* the lock of a shard and its holder *)
}.
Arguments mkWorld {T Q} _ _ _.
Arguments w_memory {T Q} _.
Arguments w_waiting {T Q} _.
Arguments w_locks {T Q} _.

Section Steps.
Context {T Q : Type} `{!LruCache Q}.
Implicit Types (c : InMemoryCache T Q) (k : CacheKey) (e : CacheEntry T) (w : world T Q) (i : nat).

(** Writes of one shard. *)
Definition upd_meta c i (f : gmap CacheKey CacheAccessMeta -> gmap CacheKey CacheAccessMeta) : InMemoryCache T Q :=
  let s := shard_at c i in put_shard c i (mkShard (f (access_meta s)) (access_queue s)).
Definition upd_queue c i (f : Q -> Q) : InMemoryCache T Q :=
  let s := shard_at c i in put_shard c i (mkShard (access_meta s) (f (access_queue s))).

(** [self.next_access_tick()] and the write of the metadata. *)
Definition write_meta c i k : InMemoryCache T Q :=
  let '(c, tick) := next_access_tick c in
  upd_meta c i (fun meta => <[k := match meta !! k with
                                   | Some m => meta_reset_for_insert m tick
                                   | None => meta_new tick
                                   end]> meta).

(** The shard whose lock a job waits for. *)
Definition wants c (j : waiting_job) : option nat :=
  match j with
  | WaitReset k | WaitRemove k => Some (access_shard_index c k)
  | WaitClear shards => head shards
  end.

Definition acquired (j : waiting_job) : locked_job :=
  match j with
  | WaitReset k => ResetCheck k
  | WaitRemove k => RemoveCheck k
  | WaitClear shards => ClearQueue (tail shards)
  end.

(** One step of the holder of the lock of shard [i]: the shared memory and the
    job after it, [None] when it releases the lock.  The entries [retain] and
    the loop after it visit come in any order. *)
Inductive locked_step c i : locked_job -> InMemoryCache T Q -> locked_job + option waiting_job -> Prop :=
| reset_present k : is_Some (mc_cache c !! k) -> locked_step c i (ResetCheck k) c (inl (ResetMeta k))
| reset_absent k : mc_cache c !! k = None -> locked_step c i (ResetCheck k) c (inr None)
| reset_meta k : locked_step c i (ResetMeta k) (write_meta c i k) (inl (ResetQueue k))
| reset_queue k : locked_step c i (ResetQueue k) (upd_queue c i (lru_put k)) (inr None)
| remove_present k : is_Some (mc_cache c !! k) -> locked_step c i (RemoveCheck k) c (inr None)
| remove_absent k : mc_cache c !! k = None -> locked_step c i (RemoveCheck k) c (inl (RemoveMeta k))
| remove_meta k : locked_step c i (RemoveMeta k) (upd_meta c i (delete k)) (inl (RemoveQueue k))
| remove_queue k : locked_step c i (RemoveQueue k) (upd_queue c i (lru_pop k)) (inr None)
| clear_queue rest :
    locked_step c i (ClearQueue rest) (upd_queue c i lru_clear)
      (inl (ClearRetain (dom (access_meta (shard_at c i))) rest))
| retain_keep k todo rest : k ∈ todo -> is_Some (mc_cache c !! k) ->
    locked_step c i (ClearRetain todo rest) c (inl (ClearRetain (todo ∖ {[k]}) rest))
| retain_drop k todo rest : k ∈ todo -> mc_cache c !! k = None ->
    locked_step c i (ClearRetain todo rest) (upd_meta c i (delete k)) (inl (ClearRetain (todo ∖ {[k]}) rest))
| retain_done rest :
    locked_step c i (ClearRetain ∅ rest) c (inl (ClearPut (dom (access_meta (shard_at c i))) rest))
| put_one k todo rest : k ∈ todo ->
    locked_step c i (ClearPut todo rest) (upd_queue c i (lru_put k)) (inl (ClearPut (todo ∖ {[k]}) rest))
| put_done rest : locked_step c i (ClearPut ∅ rest) c (inr (Some (WaitClear rest))).

(** A step of a job: taking a lock that is free, a step under it, or the end of
    [clear]. *)
Inductive job_step : world T Q -> world T Q -> Prop :=
| job_acquire c before j after locks i :
    wants c j = Some i -> locks !! i = None ->
    job_step (mkWorld c (before ++ j :: after) locks) (mkWorld c (before ++ after) (<[i := acquired j]> locks))
| job_locked c waiting locks i h c' h' :
    locks !! i = Some h -> locked_step c i h c' (inl h') ->
    job_step (mkWorld c waiting locks) (mkWorld c' waiting (<[i := h']> locks))
| job_release c waiting locks i h c' j :
    locks !! i = Some h -> locked_step c i h c' (inr j) ->
    job_step (mkWorld c waiting locks) (mkWorld c' (option_list j ++ waiting) (delete i locks))
| job_cleared c before after locks :
    job_step (mkWorld c (before ++ WaitClear [] :: after) locks)
      (mkWorld (upd_stats (set_cursor c 0) stats_reset) (before ++ after) locks).

(** What the operations do outside the locks, and the sampling of eviction,
    which runs under one. *)
Inductive shared_step : world T Q -> world T Q -> Prop :=
| shared_insert c waiting locks k e :
    shared_step (mkWorld c waiting locks)
      (mkWorld (set_cache c (<[k := e]> (mc_cache c))) (WaitReset k :: waiting) locks)
| shared_remove c waiting locks k e :
    mc_cache c !! k = Some e ->
    shared_step (mkWorld c waiting locks)
      (mkWorld (set_cache c (delete k (mc_cache c))) (WaitRemove k :: waiting) locks)
| shared_unindex c waiting locks k :      (* [remove_access_meta] without a removal *)
    shared_step (mkWorld c waiting locks) (mkWorld c (WaitRemove k :: waiting) locks)
| shared_clear c waiting locks :
    shared_step (mkWorld c waiting locks)
      (mkWorld (set_cache c ∅) (WaitClear (seq 0 (length (mc_shards c))) :: waiting) locks)
| shared_access c waiting locks k :
    shared_step (mkWorld c waiting locks) (mkWorld (record_access c k).1 waiting locks)
| shared_sample c waiting locks i budget :
    locks !! i = None -> (i < length (mc_shards c))%nat ->
    shared_step (mkWorld c waiting locks) (mkWorld (sample_eviction_keys c i budget).1 waiting locks)
| shared_cursor c waiting locks :
    shared_step (mkWorld c waiting locks) (mkWorld (next_start c).1 waiting locks)
| shared_stats c waiting locks f :
    shared_step (mkWorld c waiting locks) (mkWorld (upd_stats c f) waiting locks).

Definition world_step w w' : Prop := job_step w w' \/ shared_step w w'.
End Steps.

(** * The invariant *)

Section Invariant.
Context {T Q : Type} `{!LruCache Q} `{!LawfulLruCache Q}.
Implicit Types (c : InMemoryCache T Q) (k : CacheKey) (e : CacheEntry T) (w : world T Q) (i : nat).

Definition in_meta c k : Prop := k ∈ dom (access_meta (shard_at c (access_shard_index c k))).
Definition in_queue c k : Prop := k ∈ lru_keys (access_queue (shard_at c (access_shard_index c k))).

(** Whether [k] will be in the metadata, in the queue, when the holder of its
    lock lets go. *)
Definition will_meta c (h : option locked_job) k : Prop :=
  match h with
  | Some (ResetMeta k') => k = k' \/ in_meta c k
  | Some (RemoveMeta k') => k <> k' /\ in_meta c k
  | _ => in_meta c k
  end.
Definition will_queue c (h : option locked_job) k : Prop :=
  match h with
  | Some (ResetMeta k') | Some (ResetQueue k') => k = k' \/ in_queue c k
  | Some (RemoveMeta k') | Some (RemoveQueue k') => k <> k' /\ in_queue c k
  | Some (ClearRetain _ _) | Some (ClearPut _ _) => in_meta c k
  | _ => in_queue c k
  end.

(** A job that will look whether [k] is there to index it, or to remove it. *)
Definition will_reset w k : Prop :=
  WaitReset k ∈ w_waiting w \/ w_locks w !! access_shard_index (w_memory w) k = Some (ResetCheck k).
Definition clears (i home : nat) k (h : locked_job) : Prop :=
  match h with
  | ClearQueue rest => i = home \/ home ∈ rest
  | ClearRetain todo rest => k ∈ todo \/ home ∈ rest
  | ClearPut _ rest => home ∈ rest
  | _ => False
  end.
Definition will_remove w k : Prop :=
  let home := access_shard_index (w_memory w) k in
  WaitRemove k ∈ w_waiting w \/ w_locks w !! home = Some (RemoveCheck k) \/
  (exists rest, WaitClear rest ∈ w_waiting w /\ home ∈ rest) \/
  (exists i h, w_locks w !! i = Some h /\ clears i home k h).

(** The shards [clear] has still to visit. *)
Definition pending_shards (h : locked_job) : list nat :=
  match h with ClearQueue rest | ClearRetain _ rest | ClearPut _ rest => rest | _ => [] end.

(** What is so of the key a holder works on, and of a shard being cleared. *)
Definition placed c i (h : locked_job) : Prop :=
  match h with
  | ResetCheck k | ResetMeta k | RemoveCheck k | RemoveMeta k | RemoveQueue k => access_shard_index c k = i
  | ResetQueue k => access_shard_index c k = i /\ k ∈ dom (access_meta (shard_at c i))
  | ClearQueue _ => True
  | ClearRetain todo _ => lru_keys (access_queue (shard_at c i)) = [] /\ todo ⊆ dom (access_meta (shard_at c i))
  | ClearPut todo _ => forall k, k ∈ dom (access_meta (shard_at c i)) <->
      k ∈ lru_keys (access_queue (shard_at c i)) \/ k ∈ todo
  end.

Definition shard_own c i : Prop :=
  NoDup (lru_keys (access_queue (shard_at c i))) /\
  (forall k, k ∈ dom (access_meta (shard_at c i)) -> access_shard_index c k = i) /\
  (forall k, k ∈ lru_keys (access_queue (shard_at c i)) -> access_shard_index c k = i).

Definition shards_of (j : waiting_job) : list nat := match j with WaitClear rest => rest | _ => [] end.

Record index_inv w : Prop := {
  ix_shards : (0 < length (mc_shards (w_memory w)))%nat;
  ix_own i : (i < length (mc_shards (w_memory w)))%nat -> shard_own (w_memory w) i;
  ix_waiting j i : j ∈ w_waiting w -> i ∈ shards_of j -> (i < length (mc_shards (w_memory w)))%nat;
  ix_locks i h : w_locks w !! i = Some h ->
    (i < length (mc_shards (w_memory w)))%nat /\ placed (w_memory w) i h /\
    forall i', i' ∈ pending_shards h -> (i' < length (mc_shards (w_memory w)))%nat;
  ix_present k : is_Some (mc_cache (w_memory w) !! k) ->
    will_reset w k \/
    let h := w_locks w !! access_shard_index (w_memory w) k in
    will_meta (w_memory w) h k /\ will_queue (w_memory w) h k;
  ix_absent k : mc_cache (w_memory w) !! k = None ->
    will_remove w k \/
    let h := w_locks w !! access_shard_index (w_memory w) k in
    ~ will_meta (w_memory w) h k /\ ~ will_queue (w_memory w) h k;
}.

(** * Steps that leave the shards alone *)

Lemma index_same c c' k : length (mc_shards c') = length (mc_shards c) -> access_shard_index c' k = access_shard_index c k.
Proof. unfold access_shard_index. by intros ->. Qed.

(** [c'] has the same keys in its metadata and queues as [c]. *)
Definition same_index c c' : Prop :=
  length (mc_shards c') = length (mc_shards c) /\
  forall i, dom (access_meta (shard_at c' i)) = dom (access_meta (shard_at c i)) /\
    lru_keys (access_queue (shard_at c' i)) ≡ₚ lru_keys (access_queue (shard_at c i)).

Lemma same_index_refl c : same_index c c.
Proof. done. Qed.

Lemma same_index_will c c' h k : same_index c c' ->
  (will_meta c' h k <-> will_meta c h k) /\ (will_queue c' h k <-> will_queue c h k).
Proof.
  intros [Hlen Hs]. unfold will_meta, will_queue, in_meta, in_queue. rewrite (index_same _ _ _ Hlen).
  destruct (Hs (access_shard_index c k)) as [-> Hq].
  assert (Hq' : k ∈ lru_keys (access_queue (shard_at c' (access_shard_index c k))) <->
                k ∈ lru_keys (access_queue (shard_at c (access_shard_index c k)))) by by rewrite Hq.
  destruct h as [[]|]; tauto.
Qed.

Lemma same_index_own c c' i : same_index c c' -> shard_own c i -> shard_own c' i.
Proof.
  intros [Hlen Hs] (Hd & Hm & Hq). destruct (Hs i) as [Hm' Hq']. split; [by rewrite Hq'|].
  split; intros k; rewrite (index_same _ _ _ Hlen); [rewrite Hm'; apply Hm|rewrite Hq'; apply Hq].
Qed.

Lemma same_index_placed c c' i h : same_index c c' -> placed c i h -> placed c' i h.
Proof.
  intros [Hlen Hs]. destruct (Hs i) as [Hm Hq].
  destruct h; simpl; rewrite ?(index_same _ _ _ Hlen), ?Hm; try done.
  - intros [Hnil Hsub]. rewrite Hnil in Hq. by apply Permutation_nil_r in Hq.
  - intros Hall k. by rewrite Hq.
Qed.

(** The general step without a change of the index: jobs are added or move from
    a queue to a lock, and the map changes where a job will look. *)
Lemma inv_shared w w' :
  index_inv w -> same_index (w_memory w) (w_memory w') -> w_locks w' = w_locks w ->
  (forall j, j ∈ w_waiting w -> j ∈ w_waiting w') ->
  (forall j i, j ∈ w_waiting w' -> i ∈ shards_of j -> (i < length (mc_shards (w_memory w)))%nat) ->
  (forall k, is_Some (mc_cache (w_memory w') !! k) -> is_Some (mc_cache (w_memory w) !! k) \/ WaitReset k ∈ w_waiting w') ->
  (forall k, mc_cache (w_memory w') !! k = None -> mc_cache (w_memory w) !! k = None \/ will_remove w' k) ->
  index_inv w'.
Proof.
  intros Hinv Hsame Hlocks Hsub Hbound Hpresent Habsent. destruct Hsame as [Hlen Hs]. pose proof (conj Hlen Hs) as Hsame.
  split.
  - rewrite Hlen. apply Hinv.
  - intros i Hi. rewrite Hlen in Hi. eapply same_index_own; [done|]. by apply Hinv.
  - rewrite Hlen. done.
  - rewrite Hlocks, Hlen. intros i h Hh. destruct (ix_locks _ Hinv i h Hh) as (Hi & Hp & Hb).
    split; [done|]. split; [by eapply same_index_placed|done].
  - intros k Hk. destruct (Hpresent k Hk) as [Hk'|Hj]; [|by left; left].
    destruct (ix_present _ Hinv k Hk') as [[Hj|Hl]|Hw]; [by left; left; apply Hsub| |right].
    + left; right. by rewrite Hlocks, (index_same _ _ _ Hlen).
    + rewrite Hlocks, (index_same _ _ _ Hlen). simpl in *. by rewrite !(proj1 (same_index_will _ _ _ _ Hsame)), !(proj2 (same_index_will _ _ _ _ Hsame)).
  - intros k Hk. destruct (Habsent k Hk) as [Hk'|Hj]; [|by left].
    destruct (ix_absent _ Hinv k Hk') as [Hr|Hw]; [left|right].
    + unfold will_remove in *. rewrite Hlocks, (index_same _ _ _ Hlen).
      destruct Hr as [Hj|[Hl|[(rest & Hj & Hin)|Hl]]]; [left; by apply Hsub|by right; left|
        right; right; left; exists rest; split; [by apply Hsub|done]|by right; right; right].
    + rewrite Hlocks, (index_same _ _ _ Hlen). simpl in *. by rewrite !(proj1 (same_index_will _ _ _ _ Hsame)), !(proj2 (same_index_will _ _ _ _ Hsame)).
Qed.

Lemma shard_at_put c i j s : (i < length (mc_shards c))%nat ->
  shard_at (put_shard c i s) j = if decide (j = i) then s else shard_at c j.
Proof.
  intros Hi. unfold shard_at, put_shard. simpl. case_decide as Hj.
  - subst. by apply nth_lookup_Some, list_lookup_insert_eq.
  - by rewrite !nth_lookup, list_lookup_insert_ne.
Qed.

Lemma resampled_same c c' : resampled c c' -> same_index c c'.
Proof.
  intros Hr. split; [by apply resampled_length|]. intros i.
  destruct (resampled_shard_at _ _ i Hr) as [Hm Hq]. by rewrite Hm.
Qed.

Lemma record_access_same c k : (0 < length (mc_shards c))%nat ->
  same_index c (record_access c k).1 /\ mc_cache (record_access c k).1 = mc_cache c.
Proof.
  intros Hn. unfold record_access. simpl. set (c1 := mkCache _ _ _ _ _ _).
  change (access_shard_index c1 k) with (access_shard_index c k). set (i := access_shard_index c k).
  change (shard_at c1 i) with (shard_at c i).
  destruct (access_meta (shard_at c i) !! k) as [m|] eqn:Hm; [|done]. simpl. split; [|done].
  split; [simpl; apply length_insert|]. intros j. rewrite shard_at_put by by apply (home_lt _ k).
  case_decide as Hj; [|done]. subst j. simpl. split; [|done].
  rewrite dom_insert_L. apply elem_of_dom_2 in Hm. set_solver.
Qed.

Lemma shared_step_inv w w' : shared_step w w' -> index_inv w -> index_inv w'.
Proof.
  intros Hstep Hinv. pose proof (ix_waiting _ Hinv) as Hb. pose proof (ix_shards _ Hinv) as Hn.
  assert (Hcons : forall j0, shards_of j0 = [] -> forall j i, j ∈ j0 :: w_waiting w -> i ∈ shards_of j ->
    (i < length (mc_shards (w_memory w)))%nat).
  { intros j0 Hj0 j i [->|Hj]%elem_of_cons; [rewrite Hj0; set_solver|by apply Hb]. }
  destruct Hstep as [c waiting locks k e|c waiting locks k e He|c waiting locks k|c waiting locks|
    c waiting locks k|c waiting locks i budget Hfree Hi|c waiting locks|c waiting locks f]; simpl in *.
  - eapply inv_shared; simpl; [done|done|done|set_solver|by apply Hcons| |].
    + intros k' Hk'. destruct (decide (k' = k)) as [->|Hne]; [right; set_solver|left].
      by rewrite lookup_insert_ne in Hk'.
    + intros k' [Hk' _]%lookup_insert_None. by left.
  - eapply inv_shared; simpl; [done|done|done|set_solver|by apply Hcons| |].
    + intros k' [e' [_ Hk']%lookup_delete_Some]. left. eauto.
    + intros k' Hk'. destruct (decide (k' = k)) as [->|Hne].
      * right; left. simpl. set_solver.
      * left. by rewrite lookup_delete_ne in Hk'.
  - eapply inv_shared; simpl; [done|done|done|set_solver|by apply Hcons|by left|by left].
  - eapply inv_shared; simpl; [done|done|done|set_solver| | |].
    + intros j i [->|Hj]%elem_of_cons; [|by apply Hb]. simpl. rewrite elem_of_seq. lia.
    + intros k [e Hk]. by rewrite lookup_empty in Hk.
    + intros k _. right; right; right; left. eexists. split; [by left|]. apply elem_of_seq.
      split; [lia|]. by apply (home_lt _ k).
  - destruct (record_access_same c k Hn) as [Hsame Hc].
    eapply inv_shared; simpl; [done|done|done|done|done| |]; intros k'; rewrite Hc; by left.
  - destruct (sample_eviction_keys c i budget) as [c' sampled] eqn:Hs.
    destruct (ix_own _ Hinv i Hi) as [Hd _].
    destruct (sample_resampled _ _ _ _ _ Hi Hd Hs) as [Hr _].
    eapply inv_shared; simpl; [done|by apply resampled_same|done|done|done| |];
      intros k'; rewrite (rs_cache _ _ Hr); by left.
  - eapply inv_shared; simpl; [done|done|done|done|done|by left|by left].
  - eapply inv_shared; simpl; [done|done|done|done|done|by left|by left].
Qed.

(** * Steps under a lock

    Only the keys of the locked shard need an argument. *)

Lemma inv_local w w' i h :
  index_inv w -> w_locks w !! i = Some h ->
  mc_cache (w_memory w') = mc_cache (w_memory w) ->
  length (mc_shards (w_memory w')) = length (mc_shards (w_memory w)) ->
  (forall j, j <> i -> shard_at (w_memory w') j = shard_at (w_memory w) j) ->
  (forall j, j <> i -> w_locks w' !! j = w_locks w !! j) ->
  (forall j, j ∈ w_waiting w -> j ∈ w_waiting w') ->
  (forall j i', j ∈ w_waiting w' -> i' ∈ shards_of j -> j ∈ w_waiting w \/ i' ∈ pending_shards h) ->
  shard_own (w_memory w') i ->
  (forall h', w_locks w' !! i = Some h' -> placed (w_memory w') i h' /\ pending_shards h' ⊆ pending_shards h) ->
  (forall k, k ∈ dom (access_meta (shard_at (w_memory w) i)) -> access_shard_index (w_memory w) k = i) ->
  (forall home, home ∈ pending_shards h ->
     (exists h', w_locks w' !! i = Some h' /\ home ∈ pending_shards h') \/
     exists rest, WaitClear rest ∈ w_waiting w' /\ home ∈ rest) ->
  (forall k, access_shard_index (w_memory w) k = i -> is_Some (mc_cache (w_memory w) !! k) ->
     h = ResetCheck k \/ will_meta (w_memory w) (Some h) k /\ will_queue (w_memory w) (Some h) k ->
     will_meta (w_memory w') (w_locks w' !! i) k /\ will_queue (w_memory w') (w_locks w' !! i) k) ->
  (forall k, access_shard_index (w_memory w) k = i -> mc_cache (w_memory w) !! k = None ->
     h = RemoveCheck k \/ clears i i k h /\ i ∉ pending_shards h \/
       ~ will_meta (w_memory w) (Some h) k /\ ~ will_queue (w_memory w) (Some h) k ->
     (exists h', w_locks w' !! i = Some h' /\ clears i i k h') \/
     ~ will_meta (w_memory w') (w_locks w' !! i) k /\ ~ will_queue (w_memory w') (w_locks w' !! i) k) ->
  index_inv w'.
Proof.
  intros Hinv Hh Hcache Hlen Hshards Hlocks Hsub Hnew Hown Hplaced Hmeta Hpend Hpresent Habsent.
  destruct (ix_locks _ Hinv i h Hh) as (Hi & Hp & Hb).
  assert (Hfar : forall h0 k, access_shard_index (w_memory w) k <> i ->
    (will_meta (w_memory w') h0 k <-> will_meta (w_memory w) h0 k) /\
    (will_queue (w_memory w') h0 k <-> will_queue (w_memory w) h0 k)).
  { intros h0 k Hk. unfold will_meta, will_queue, in_meta, in_queue. rewrite (index_same _ _ _ Hlen).
    by rewrite Hshards. }
  assert (Hpassed : forall k home, home = access_shard_index (w_memory w) k -> home ∈ pending_shards h ->
    will_remove w' k).
  { intros k home -> Hin. destruct (Hpend _ Hin) as [(h' & Hh' & Hin')|(rest & Hj & Hin')].
    - right; right; right. exists i, h'. split; [done|]. rewrite (index_same _ _ _ Hlen).
      destruct h'; simpl in *; try set_solver.
    - right; right; left. exists rest. by rewrite (index_same _ _ _ Hlen). }
  split.
  - rewrite Hlen. apply Hinv.
  - intros j Hj. rewrite Hlen in Hj. destruct (decide (j = i)) as [->|Hne]; [done|].
    destruct (ix_own _ Hinv j Hj) as (Hd & Hm & Hq). unfold shard_own. rewrite Hshards by done.
    split; [done|]. split; intros k; rewrite (index_same _ _ _ Hlen); auto.
  - rewrite Hlen. intros j i' Hj Hi'. destruct (Hnew j i' Hj Hi') as [Hj'|Hin]; [|by apply Hb].
    by apply (ix_waiting _ Hinv j).
  - rewrite Hlen. intros j h' Hh'. destruct (decide (j = i)) as [->|Hne].
    + destruct (Hplaced h' Hh') as [Hp' Hsub']. split; [done|]. split; [done|]. intros i' Hi'. apply Hb. set_solver.
    + rewrite Hlocks in Hh' by done. destruct (ix_locks _ Hinv j h' Hh') as (Hj & Hpj & Hbj).
      split; [done|]. split; [|done].
      destruct h'; simpl in *; rewrite ?(index_same _ _ _ Hlen), ?Hshards by done; done.
  - intros k. rewrite Hcache. intros Hk. rewrite (index_same _ _ _ Hlen).
    pose proof (ix_present _ Hinv k Hk) as Hold. unfold will_reset in *. rewrite (index_same _ _ _ Hlen).
    destruct (decide (access_shard_index (w_memory w) k = i)) as [Hki|Hki].
    + rewrite Hki in *. rewrite Hh in Hold. destruct Hold as [[Hj|[= ->]]|Hw]; [by left; left; apply Hsub| |];
        right; apply Hpresent; auto.
    + rewrite Hlocks by done. destruct Hold as [[Hj|Hl]|Hw]; [by left; left; apply Hsub|by left; right|right].
      simpl in *. by rewrite !(proj1 (Hfar _ _ Hki)), !(proj2 (Hfar _ _ Hki)).
  - intros k. rewrite Hcache. intros Hk. rewrite (index_same _ _ _ Hlen).
    pose proof (ix_absent _ Hinv k Hk) as Hold.
    assert (Hgoal : (WaitRemove k ∈ w_waiting w \/ w_locks w !! access_shard_index (w_memory w) k = Some (RemoveCheck k)
        /\ access_shard_index (w_memory w) k <> i \/ (exists rest, WaitClear rest ∈ w_waiting w /\ access_shard_index (w_memory w) k ∈ rest)
        \/ (exists j h0, w_locks w !! j = Some h0 /\ j <> i /\ clears j (access_shard_index (w_memory w) k) k h0)
        \/ access_shard_index (w_memory w) k ∈ pending_shards h) -> will_remove w' k).
    { intros [Hj|[[Hl Hki]|[(rest & Hj & Hin)|[(j & h0 & Hl & Hne & Hc)|Hin]]]].
      - left. by apply Hsub.
      - right; left. by rewrite (index_same _ _ _ Hlen), Hlocks.
      - right; right; left. exists rest. rewrite (index_same _ _ _ Hlen). auto.
      - right; right; right. exists j, h0. rewrite (index_same _ _ _ Hlen). by rewrite Hlocks.
      - by eapply Hpassed. }
    destruct (decide (access_shard_index (w_memory w) k = i)) as [Hki|Hki].
    + rewrite Hki in *. rewrite Hh in Hold.
      destruct (decide (i ∈ pending_shards h)) as [Hin|Hnin]; [left; apply Hgoal; by right; right; right; right|].
      assert (Hlocal : (h = RemoveCheck k \/ clears i i k h /\ i ∉ pending_shards h \/
        ~ will_meta (w_memory w) (Some h) k /\ ~ will_queue (w_memory w) (Some h) k) ->
        will_remove w' k \/ ~ will_meta (w_memory w') (w_locks w' !! i) k /\ ~ will_queue (w_memory w') (w_locks w' !! i) k).
      { intros Hor. destruct (Habsent k Hki Hk Hor) as [(h' & Hh' & Hc)|Hw]; [left|by right].
        right; right; right. exists i, h'. by rewrite (index_same _ _ _ Hlen), Hki. }
      destruct Hold as [[Hj|[Hl|[Hj|(j & h0 & Hl & Hc)]]]|Hw]; [left; apply Hgoal; by left| |left; apply Hgoal; right; right; left; by rewrite Hki in Hj| |].
      * rewrite Hki, Hh in Hl. injection Hl as ->. apply Hlocal. by left.
      * destruct (decide (j = i)) as [->|Hne]; [|left; apply Hgoal; right; right; right; left; exists j, h0; by rewrite Hki in Hc].
        rewrite Hki in Hc. assert (h0 = h) as -> by congruence. apply Hlocal. by right; left.
      * apply Hlocal. by right; right.
    + rewrite Hlocks by done. destruct Hold as [[Hj|[Hl|[Hj|(j & h0 & Hl & Hc)]]]|Hw].
      * left. apply Hgoal. by left.
      * left. apply Hgoal. by right; left.
      * left. apply Hgoal. by right; right; left.
      * left. apply Hgoal. destruct (decide (j = i)) as [->|Hne]; [|right; right; right; left; by exists j, h0].
        right; right; right; right. assert (h0 = h) as -> by congruence.
        destruct h; simpl in *; try done; [by destruct Hc|]. destruct Hc as [Hk0|]; [|done].
        destruct Hp as [_ Hsubd]. by rewrite (Hmeta k (Hsubd k Hk0)) in Hki.
      * right. simpl in *. by rewrite !(proj1 (Hfar _ _ Hki)), !(proj2 (Hfar _ _ Hki)).
Qed.

(** The keys of a shard's metadata and of its queue. *)
Definition meta_keys c i : gset CacheKey := dom (access_meta (shard_at c i)).
Definition queue_keys c i : list CacheKey := lru_keys (access_queue (shard_at c i)).

Lemma locked_frame c i h c' r : (i < length (mc_shards c))%nat -> locked_step c i h c' r ->
  mc_cache c' = mc_cache c /\ length (mc_shards c') = length (mc_shards c) /\
  forall j, j <> i -> shard_at c' j = shard_at c j.
Proof.
  intros Hi Hs.
  assert (Hput : forall s, length (mc_shards (put_shard c i s)) = length (mc_shards c) /\
    forall j, j <> i -> shard_at (put_shard c i s) j = shard_at c j).
  { intros s. split; [simpl; apply length_insert|]. intros j Hj. rewrite shard_at_put by done. by case_decide. }
  destruct Hs; simpl; try done; (split; [done|]); try apply Hput.
Qed.

(** The keys of the locked shard after a step. *)
Definition step_keys (h : locked_job) (k0 : CacheKey) (m : gset CacheKey) (q : list CacheKey)
    : gset CacheKey * list CacheKey :=
  match h with
  | ResetMeta k => ({[k]} ∪ m, q)
  | ResetQueue k => (m, touch_key k q)
  | RemoveMeta k => (m ∖ {[k]}, q)
  | RemoveQueue k => (m, filter (fun k' => k' <> k) q)
  | ClearQueue _ => (m, [])
  | ClearRetain _ _ => (m ∖ {[k0]}, q)
  | ClearPut _ _ => (m, touch_key k0 q)
  | _ => (m, q)
  end.

Lemma upd_meta_keys c i f : (i < length (mc_shards c))%nat ->
  meta_keys (upd_meta c i f) i = dom (f (access_meta (shard_at c i))) /\
  queue_keys (upd_meta c i f) i = queue_keys c i.
Proof. intros Hi. unfold meta_keys, queue_keys, upd_meta. rewrite !shard_at_put by done. by rewrite !decide_True. Qed.

Lemma upd_queue_keys c i f : (i < length (mc_shards c))%nat ->
  meta_keys (upd_queue c i f) i = meta_keys c i /\
  queue_keys (upd_queue c i f) i = lru_keys (f (access_queue (shard_at c i))).
Proof. intros Hi. unfold meta_keys, queue_keys, upd_queue. rewrite !shard_at_put by done. by rewrite !decide_True. Qed.

Lemma write_meta_keys c i k : (i < length (mc_shards c))%nat ->
  meta_keys (write_meta c i k) i = {[k]} ∪ meta_keys c i /\ queue_keys (write_meta c i k) i = queue_keys c i.
Proof.
  intros Hi. unfold write_meta. simpl. set (c1 := mkCache _ _ _ _ _ _).
  destruct (upd_meta_keys c1 i (fun meta => <[k := match meta !! k with
      | Some m => meta_reset_for_insert m (wrap_u64 (mc_access_clock c + 1))
      | None => meta_new (wrap_u64 (mc_access_clock c + 1)) end]> meta) Hi) as [Hm Hq].
  rewrite Hm, Hq, dom_insert_L. done.
Qed.

Definition will_meta_in (m : gset CacheKey) (h : option locked_job) k : Prop :=
  match h with
  | Some (ResetMeta k') => k = k' \/ k ∈ m
  | Some (RemoveMeta k') => k <> k' /\ k ∈ m
  | _ => k ∈ m
  end.
Definition will_queue_in (m : gset CacheKey) (q : list CacheKey) (h : option locked_job) k : Prop :=
  match h with
  | Some (ResetMeta k') | Some (ResetQueue k') => k = k' \/ k ∈ q
  | Some (RemoveMeta k') | Some (RemoveQueue k') => k <> k' /\ k ∈ q
  | Some (ClearRetain _ _) | Some (ClearPut _ _) => k ∈ m
  | _ => k ∈ q
  end.

Lemma will_in c i h k : access_shard_index c k = i ->
  (will_meta c h k <-> will_meta_in (meta_keys c i) h k) /\
  (will_queue c h k <-> will_queue_in (meta_keys c i) (queue_keys c i) h k).
Proof. by intros <-. Qed.

Lemma placed_in c i h : placed c i h <->
  match h with
  | ResetCheck k | ResetMeta k | RemoveCheck k | RemoveMeta k | RemoveQueue k => access_shard_index c k = i
  | ResetQueue k => access_shard_index c k = i /\ k ∈ meta_keys c i
  | ClearQueue _ => True
  | ClearRetain todo _ => queue_keys c i = [] /\ todo ⊆ meta_keys c i
  | ClearPut todo _ => forall k, k ∈ meta_keys c i <-> k ∈ queue_keys c i \/ k ∈ todo
  end.
Proof. done. Qed.

Definition next_lock (r : locked_job + option waiting_job) : option locked_job :=
  match r with inl h => Some h | inr _ => None end.

(** What a step under a lock has to keep, on the keys of the shard. *)
Record keeps (cache : gmap CacheKey (CacheEntry T)) (own : CacheKey -> Prop) i h (m m' : gset CacheKey)
    (q q' : list CacheKey) (r : locked_job + option waiting_job) : Prop := {
  kp_nodup : NoDup q -> NoDup q';
  kp_meta k : k ∈ m' -> k ∈ m \/ own k;
  kp_queue k : k ∈ q' -> k ∈ q \/ own k;
  kp_placed :
    match r with
    | inl (ResetCheck k | ResetMeta k | RemoveCheck k | RemoveMeta k | RemoveQueue k) => own k
    | inl (ResetQueue k) => own k /\ k ∈ m'
    | inl (ClearRetain todo _) => q' = [] /\ todo ⊆ m'
    | inl (ClearPut todo _) => forall k, k ∈ m' <-> k ∈ q' \/ k ∈ todo
    | _ => True
    end;
  kp_shards : match r with
    | inl h' => pending_shards h' = pending_shards h
    | inr (Some j) => j = WaitClear (pending_shards h)
    | inr None => pending_shards h = []
    end;
  kp_present k : own k -> is_Some (cache !! k) ->
    h = ResetCheck k \/ will_meta_in m (Some h) k /\ will_queue_in m q (Some h) k ->
    will_meta_in m' (next_lock r) k /\ will_queue_in m' q' (next_lock r) k;
  kp_absent k : own k -> cache !! k = None ->
    h = RemoveCheck k \/ clears i i k h /\ i ∉ pending_shards h \/
      ~ will_meta_in m (Some h) k /\ ~ will_queue_in m q (Some h) k ->
    (exists h', r = inl h' /\ clears i i k h') \/
    ~ will_meta_in m' (next_lock r) k /\ ~ will_queue_in m' q' (next_lock r) k;
}.

Definition key_job (h : locked_job) : Prop :=
  match h with ClearQueue _ | ClearRetain _ _ | ClearPut _ _ => False | _ => True end.

Section Keeps.
Context c i (Hi : (i < length (mc_shards c))%nat).
Let own k : Prop := access_shard_index c k = i.

Lemma keeps_key h c' r : key_job h -> placed c i h -> locked_step c i h c' r ->
  keeps (mc_cache c) own i h (meta_keys c i) (meta_keys c' i) (queue_keys c i) (queue_keys c' i) r.
Proof.
  intros Hjob Hp Hs. rewrite placed_in in Hp.
  assert (Hsome : forall k, is_Some (mc_cache c !! k) -> mc_cache c !! k = None -> False)
    by (intros k [? Hk] Hn; congruence).
  destruct Hs as [k He|k He|k|k|k He|k He|k|k|rest|k todo rest Hk He|k todo rest Hk He|rest|k todo rest Hk|rest];
    try done; clear Hjob;
    try destruct (write_meta_keys c i k Hi) as [-> ->];
    try destruct (upd_meta_keys c i (delete k) Hi) as [-> ->];
    try destruct (upd_queue_keys c i (lru_put k) Hi) as [-> ->];
    try destruct (upd_queue_keys c i (lru_pop k) Hi) as [-> ->];
    try rewrite dom_delete_L; fold (meta_keys c i); try rewrite keys_put; try rewrite lru_keys_pop;
    fold (queue_keys c i); generalize dependent (meta_keys c i); generalize (queue_keys c i); intros q m;
    (split; simpl; intros;
     rewrite ?elem_of_touch, ?list_elem_of_filter, ?elem_of_union, ?elem_of_difference, ?elem_of_singleton in *;
     first [done|by apply NoDup_touch|by apply NoDup_filter|naive_solver]).
Qed.

Lemma keeps_clear_queue rest :
  let c' := upd_queue c i lru_clear in
  keeps (mc_cache c) own i (ClearQueue rest) (meta_keys c i) (meta_keys c' i) (queue_keys c i) (queue_keys c' i)
    (inl (ClearRetain (meta_keys c i) rest)).
Proof.
  destruct (upd_queue_keys c i lru_clear Hi) as [Hm Hq]. rewrite lru_keys_clear in Hq.
  simpl. rewrite Hm, Hq. generalize (meta_keys c i), (queue_keys c i). intros m q.
  split; simpl; [intros; apply NoDup_nil_2|auto|set_solver|done|done| |].
  - intros k _ _ [?|[Hkm _]]; [done|]. done.
  - intros k _ _ _. destruct (decide (k ∈ m)); [left; eexists; split; [done|by left]|right; done].
Qed.

Lemma keeps_retain k todo rest : k ∈ todo -> queue_keys c i = [] -> todo ⊆ meta_keys c i ->
  is_Some (mc_cache c !! k) ->
  keeps (mc_cache c) own i (ClearRetain todo rest) (meta_keys c i) (meta_keys c i) (queue_keys c i) (queue_keys c i)
    (inl (ClearRetain (todo ∖ {[k]}) rest)).
Proof.
  generalize (meta_keys c i), (queue_keys c i). intros m q Hk Hq Hsub [e He].
  split; simpl; [done|auto|auto|split; [done|set_solver]|done|naive_solver|].
  intros k' _ Hnone [Hx|[[[Hx|Hx] Hr]|Hx]]; [done| |done|by right].
  left. eexists. split; [done|]. left. assert (k' <> k) by congruence. set_solver.
Qed.

Lemma keeps_retain_drop k todo rest : k ∈ todo -> queue_keys c i = [] -> todo ⊆ meta_keys c i ->
  mc_cache c !! k = None ->
  let c' := upd_meta c i (delete k) in
  keeps (mc_cache c) own i (ClearRetain todo rest) (meta_keys c i) (meta_keys c' i) (queue_keys c i) (queue_keys c' i)
    (inl (ClearRetain (todo ∖ {[k]}) rest)).
Proof.
  destruct (upd_meta_keys c i (delete k) Hi) as [Hm Hq0]. rewrite dom_delete_L in Hm.
  fold (meta_keys c i) in Hm. simpl. rewrite Hm, Hq0.
  generalize (meta_keys c i), (queue_keys c i). intros m q Hk Hq Hsub He.
  split; simpl; [done|set_solver|auto|split; [done|set_solver]|done| |].
  - intros k' _ [e He'] [?|[Hkm _]]; [done|]. assert (k' <> k) by congruence. set_solver.
  - intros k' _ Hnone [Hx|[[[Hx|Hx] Hr]|Hx]]; [done| |done|right; set_solver].
    destruct (decide (k' = k)) as [->|Hne]; [right; set_solver|].
    left. eexists. split; [done|]. left. set_solver.
Qed.

Lemma keeps_retain_done rest : queue_keys c i = [] ->
  keeps (mc_cache c) own i (ClearRetain ∅ rest) (meta_keys c i) (meta_keys c i) (queue_keys c i) (queue_keys c i)
    (inl (ClearPut (meta_keys c i) rest)).
Proof.
  generalize (meta_keys c i), (queue_keys c i). intros m q Hq.
  split; simpl; [done|auto|auto| |done|naive_solver|].
  - intros k. rewrite Hq. set_solver.
  - intros k _ _ [Hx|[[[Hx|Hx] Hr]|Hx]]; [done|set_solver|done|by right].
Qed.

Lemma keeps_put k todo rest : k ∈ todo ->
  (forall k', k' ∈ meta_keys c i <-> k' ∈ queue_keys c i \/ k' ∈ todo) ->
  (forall k', k' ∈ meta_keys c i -> own k') ->
  let c' := upd_queue c i (lru_put k) in
  keeps (mc_cache c) own i (ClearPut todo rest) (meta_keys c i) (meta_keys c' i) (queue_keys c i) (queue_keys c' i)
    (inl (ClearPut (todo ∖ {[k]}) rest)).
Proof.
  destruct (upd_queue_keys c i (lru_put k) Hi) as [Hm Hq]. rewrite keys_put in Hq.
  fold (queue_keys c i) in Hq. simpl. rewrite Hm, Hq.
  generalize (meta_keys c i), (queue_keys c i). intros m q Hk Hall Hown.
  split; simpl; [apply NoDup_touch|auto| | |done|naive_solver|].
  - intros k' [Hk'| ->]%elem_of_touch; [by left|]. right. apply Hown, Hall. by right.
  - intros k'. rewrite Hall, elem_of_touch, elem_of_difference, elem_of_singleton.
    destruct (decide (k' = k)) as [->|]; tauto.
  - intros k' _ _ [Hx|[[Hx Hr]|Hx]]; [done|done|by right].
Qed.

Lemma keeps_put_done rest :
  (forall k', k' ∈ meta_keys c i <-> k' ∈ queue_keys c i \/ k' ∈ (∅ : gset CacheKey)) ->
  keeps (mc_cache c) own i (ClearPut ∅ rest) (meta_keys c i) (meta_keys c i) (queue_keys c i) (queue_keys c i)
    (inr (Some (WaitClear rest))).
Proof.
  generalize (meta_keys c i), (queue_keys c i). intros m q Hall.
  split; simpl; [done|auto|auto|done|done| |].
  - intros k _ _ [?|[Hk _]]; [done|]. split; [done|]. apply Hall in Hk. set_solver.
  - intros k _ _ [Hx|[[Hx Hr]|[Hx _]]]; [done|done|right]. split; [done|]. intros Hk. apply Hx, Hall. by left.
Qed.

Lemma own_step_keeps h c' r : placed c i h -> shard_own c i -> locked_step c i h c' r ->
  keeps (mc_cache c) own i h (meta_keys c i) (meta_keys c' i) (queue_keys c i) (queue_keys c' i) r.
Proof.
  intros Hp Hown Hs. assert (key_job h \/ ~ key_job h) as [Hj|Hj] by (destruct h; simpl; tauto).
  { by apply keeps_key. }
  destruct Hs as [| | | | | | | |rest|k todo rest Hk He|k todo rest Hk He|rest|k todo rest Hk|rest]; try done;
    rewrite placed_in in Hp.
  - apply keeps_clear_queue.
  - apply keeps_retain; by try apply Hp.
  - apply keeps_retain_drop; by try apply Hp.
  - apply keeps_retain_done, Hp.
  - apply keeps_put; [done..|]. apply Hown.
  - by apply keeps_put_done.
Qed.
End Keeps.

Lemma locked_inv c waiting waiting' locks locks' i h c' r :
  index_inv (mkWorld c waiting locks) -> locks !! i = Some h -> locked_step c i h c' r ->
  locks' !! i = next_lock r -> (forall j, j <> i -> locks' !! j = locks !! j) ->
  waiting' = match r with inr (Some j) => j :: waiting | _ => waiting end ->
  index_inv (mkWorld c' waiting' locks').
Proof.
  intros Hinv Hh Hs Hi' Hothers ->. destruct (ix_locks _ Hinv i h Hh) as (Hi & Hp & _). simpl in Hi, Hp.
  pose proof (ix_own _ Hinv i Hi) as Hown. simpl in Hown.
  destruct (locked_frame c i h c' r Hi Hs) as (Hcache & Hlen & Hshards).
  destruct (own_step_keeps c i Hi h c' r Hp Hown Hs) as [Hd Hm Hq Hpl Hsh Hpr Hab].
  destruct Hown as (Hown1 & Hown2 & Hown3).
  assert (Hidx : forall k, access_shard_index c' k = access_shard_index c k) by (intros; by apply index_same).
  eapply (inv_local (mkWorld c waiting locks) _ i h); simpl; try done.
  - destruct r as [|[]]; set_solver.
  - intros j i' Hj Hi''. destruct r as [|[j0|]]; [by left| |by left].
    apply elem_of_cons in Hj as [->|]; [right|by left]. by rewrite Hsh in Hi''.
  - unfold shard_own. fold (queue_keys c' i). fold (meta_keys c' i). split; [by apply Hd|].
    split; intros k; rewrite Hidx; [intros [|]%Hm|intros [|]%Hq]; auto.
  - intros h'. rewrite Hi'. destruct r as [h1|]; [|done]. intros [= ->]. split; [|by rewrite Hsh].
    rewrite placed_in. destruct h'; simpl in *; rewrite ?Hidx; done.
  - intros home Hin. destruct r as [h1|[j|]].
    + left. exists h1. split; [done|by rewrite Hsh].
    + right. exists (pending_shards h). split; [rewrite <- Hsh; by left|done].
    + rewrite Hsh in Hin. set_solver.
  - intros k Hk Hsome Hor. destruct (will_in c i (Some h) k Hk) as [H1 H2].
    destruct (will_in c' i (locks' !! i) k) as [H3 H4]; [by rewrite Hidx|].
    rewrite H1, H2 in Hor. rewrite H3, H4, Hi'. auto.
  - intros k Hk Hnone Hor. destruct (will_in c i (Some h) k Hk) as [H1 H2].
    destruct (will_in c' i (locks' !! i) k) as [H3 H4]; [by rewrite Hidx|].
    rewrite H1, H2 in Hor. rewrite H3, H4, Hi'.
    destruct (Hab k Hk Hnone Hor) as [(h' & -> & Hc)|Hw]; [left; by exists h'|by right].
Qed.

(** Taking a lock turns a waiting job into its holder. *)
Lemma acquire_inv c before j after locks i :
  wants c j = Some i -> locks !! i = None ->
  index_inv (mkWorld c (before ++ j :: after) locks) ->
  index_inv (mkWorld c (before ++ after) (<[i := acquired j]> locks)).
Proof.
  intros Hj Hfree Hinv. pose proof (ix_shards _ Hinv) as Hn. simpl in Hn.
  assert (Hjin : j ∈ before ++ j :: after) by set_solver.
  assert (Hi : (i < length (mc_shards c))%nat).
  { destruct j as [k|k|rest]; simpl in Hj; [injection Hj as <-; by apply (home_lt _ k)..|].
    destruct rest as [|i0 rest]; [done|]. injection Hj as ->.
    apply (ix_waiting _ Hinv _ i Hjin). simpl. set_solver. }
  assert (Hlock : forall k, access_shard_index c k = i -> <[i := acquired j]> locks !! access_shard_index c k = Some (acquired j))
    by (intros k ->; apply lookup_insert_eq).
  assert (Hsame : forall k, 
    will_meta c (<[i := acquired j]> locks !! access_shard_index c k) k = will_meta c (locks !! access_shard_index c k) k /\
    will_queue c (<[i := acquired j]> locks !! access_shard_index c k) k = will_queue c (locks !! access_shard_index c k) k).
  { intros k. destruct (decide (access_shard_index c k = i)) as [Hk|Hk].
    - rewrite Hlock, Hk, Hfree by done. by destruct j.
    - by rewrite lookup_insert_ne. }
  split; simpl.
  - done.
  - apply Hinv.
  - intros j' i' Hj' Hi'. apply (ix_waiting _ Hinv j' i'); [simpl; set_solver|done].
  - intros i' h [(<- & <-)|[Hne Hh]]%lookup_insert_Some; [|by apply (ix_locks _ Hinv)].
    split; [done|]. destruct j as [k|k|rest]; simpl in *.
    + injection Hj as <-. split; [done|set_solver].
    + injection Hj as <-. split; [done|set_solver].
    + split; [done|]. intros i' Hi'. apply (ix_waiting _ Hinv _ i' Hjin). simpl.
      destruct rest; [done|]. simpl in *. set_solver.
  - intros k Hk. destruct (Hsame k) as [-> ->].
    destruct (ix_present _ Hinv k Hk) as [[Hw|Hl]|Hw]; [|left; right|by right]; simpl in *.
    + left. apply elem_of_app in Hw as [Hw|[<-|Hw]%elem_of_cons]; [left; set_solver| |left; set_solver].
      right. simpl. injection Hj as <-. apply lookup_insert_eq.
    + rewrite lookup_insert_ne; [done|congruence].
  - intros k Hk. destruct (Hsame k) as [-> ->].
    destruct (ix_absent _ Hinv k Hk) as [[Hw|[Hl|[(rest & Hw & Hin)|(i' & h & Hl & Hc)]]]|Hw]; [left..|by right];
      unfold will_remove; simpl in *.
    + apply elem_of_app in Hw as [Hw|[<-|Hw]%elem_of_cons]; [left; set_solver| |left; set_solver].
      right; left. injection Hj as <-. apply lookup_insert_eq.
    + right; left. rewrite lookup_insert_ne; [done|congruence].
    + apply elem_of_app in Hw as [Hw|[<-|Hw]%elem_of_cons];
        [right; right; left; exists rest; set_solver| |right; right; left; exists rest; set_solver].
      right; right; right. exists i, (ClearQueue (tail rest)). split; [apply lookup_insert_eq|].
      destruct rest as [|i0 rest]; [done|]. simpl in *. injection Hj as ->. set_solver.
    + right; right; right. exists i', h. split; [|done]. rewrite lookup_insert_ne; [done|congruence].
Qed.

Lemma job_step_inv w w' : job_step w w' -> index_inv w -> index_inv w'.
Proof.
  intros Hstep Hinv. destruct Hstep as [c before j after locks i Hj Hfree|c waiting locks i h c' h' Hh Hs|
    c waiting locks i h c' j Hh Hs|c before after locks].
  - by apply acquire_inv.
  - eapply (locked_inv c waiting _ locks _ i h c' (inl h')); try done; [apply lookup_insert_eq|].
    intros. by apply lookup_insert_ne.
  - eapply (locked_inv c waiting _ locks _ i h c' (inr j)); try done; [apply lookup_delete_eq| |by destruct j].
    intros. by apply lookup_delete_ne.
  - assert (Hsub : forall j, j ∈ before ++ WaitClear [] :: after -> j = WaitClear [] \/ j ∈ before ++ after) by set_solver.
    split; simpl.
    + apply (ix_shards _ Hinv).
    + apply (ix_own _ Hinv).
    + intros j i Hj Hi. apply (ix_waiting _ Hinv j i); [simpl; set_solver|done].
    + apply (ix_locks _ Hinv).
    + intros k Hk. destruct (ix_present _ Hinv k Hk) as [[Hw|Hl]|Hw]; [|by left; right|by right].
      left; left. simpl in *. by destruct (Hsub _ Hw).
    + intros k Hk. destruct (ix_absent _ Hinv k Hk) as [[Hw|[Hl|[(rest & Hw & Hin)|Hl]]]|Hw]; [left..|by right].
      * left. simpl in *. by destruct (Hsub _ Hw).
      * by right; left.
      * right; right; left. exists rest. simpl in *. destruct (Hsub _ Hw) as [[= ->]|]; [set_solver|done].
      * by right; right; right.
Qed.

Lemma world_step_inv w w' : index_inv w -> world_step w w' -> index_inv w'.
Proof. intros Hinv [Hs|Hs]; [by eapply job_step_inv|by eapply shared_step_inv]. Qed.

(** A cache whose index is exact, with no job. *)
Lemma index_inv_start c : index_ok c -> index_inv (mkWorld c [] ∅).
Proof.
  intros Hi. assert (Hs : forall i, (i < length (mc_shards c))%nat -> shard_ok (dom (mc_cache c)) (length (mc_shards c)) i (shard_at c i)).
  { intros i Hlt. destruct (lookup_lt_is_Some_2 _ _ Hlt) as [s Hs]. rewrite (shard_at_lookup _ _ _ Hs). by apply Hi. }
  assert (Hk : forall k, shard_ok (dom (mc_cache c)) (length (mc_shards c)) (access_shard_index c k) (shard_at c (access_shard_index c k)))
    by (intros k; by apply Hs, shard_index_lt).
  split; simpl.
  - apply Hi.
  - intros i Hlt. destruct (Hs i Hlt) as [Hm Hq Hd]. split; [done|]. split; intros k; [intros [_ ?]%Hm|intros [_ ?]%Hq]; done.
  - set_solver.
  - intros i h Hh. by rewrite lookup_empty in Hh.
  - intros k Hsome. right. rewrite lookup_empty. destruct (Hk k) as [Hm Hq _]. simpl.
    split; [apply Hm|apply Hq]; (split; [by apply elem_of_dom|done]).
  - intros k Hnone. right. rewrite lookup_empty. destruct (Hk k) as [Hm Hq _]. simpl.
    split; [intros [Hin _]%Hm|intros [Hin _]%Hq]; apply elem_of_dom in Hin as [e He]; congruence.
Qed.

(** With no job left the index is exact. *)
Lemma index_inv_quiet c : index_inv (mkWorld c [] ∅) -> index_ok c.
Proof.
  intros Hinv. pose proof (ix_shards _ Hinv) as Hn. simpl in Hn. split; [done|]. intros i s Hs.
  pose proof (lookup_lt_Some _ _ _ Hs) as Hlt. destruct (ix_own _ Hinv i Hlt) as (Hd & Hm & Hq). simpl in *.
  rewrite (shard_at_lookup _ _ _ Hs) in *.
  assert (Hnoreset : forall k, ~ will_reset (mkWorld c [] ∅) k).
  { intros k [Hw|Hl]; simpl in *; [set_solver|by rewrite lookup_empty in Hl]. }
  assert (Hnoremove : forall k, ~ will_remove (mkWorld c [] ∅) k).
  { intros k [Hw|[Hl|[(rest & Hw & _)|(i' & h & Hl & _)]]]; simpl in *; [set_solver| |set_solver|];
      by rewrite lookup_empty in Hl. }
  assert (Hin : forall k, access_shard_index c k = i -> k ∈ dom (mc_cache c) ->
    k ∈ dom (access_meta s) /\ k ∈ lru_keys (access_queue s)).
  { intros k Hk [e He]%elem_of_dom. destruct (ix_present _ Hinv k) as [Hw|Hw]; [simpl; eauto|by destruct (Hnoreset k)|].
    simpl in Hw. rewrite lookup_empty in Hw. unfold will_meta, will_queue, in_meta, in_queue in Hw.
    by rewrite Hk, (shard_at_lookup _ _ _ Hs) in Hw. }
  assert (Hout : forall k, access_shard_index c k = i -> k ∉ dom (mc_cache c) ->
    k ∉ dom (access_meta s) /\ k ∉ lru_keys (access_queue s)).
  { intros k Hk He%not_elem_of_dom. destruct (ix_absent _ Hinv k He) as [Hw|Hw]; [by destruct (Hnoremove k)|].
    simpl in Hw. rewrite lookup_empty in Hw. unfold will_meta, will_queue, in_meta, in_queue in Hw.
    by rewrite Hk, (shard_at_lookup _ _ _ Hs) in Hw. }
  split; [| |done]; intros k; (split; [intros Hx|intros [Hx Hk]; by apply Hin]).
  - pose proof (Hm k Hx) as Hk. split; [|done]. destruct (decide (k ∈ dom (mc_cache c))) as [|Hnot]; [done|].
    by destruct (Hout k Hk Hnot).
  - pose proof (Hq k Hx) as Hk. split; [|done]. destruct (decide (k ∈ dom (mc_cache c))) as [|Hnot]; [done|].
    by destruct (Hout k Hk Hnot).
Qed.
End Invariant.

(** * Alone, the jobs are the operations of the sequential model *)

Section Alone.
Context {T Q : Type} `{!LruCache Q} `{!LawfulLruCache Q}.
Implicit Types (c : InMemoryCache T Q) (k : CacheKey).

Lemma put_shard_twice c i (s s' : AccessShard Q) : put_shard (put_shard c i s) i s' = put_shard c i s'.
Proof. unfold put_shard, set_shards. simpl. by rewrite list_insert_insert_eq. Qed.

Lemma reset_alone c k : (0 < length (mc_shards c))%nat ->
  rtc job_step (mkWorld c [WaitReset k] ∅) (mkWorld (reset_access_meta_for_insert c k) [] ∅).
Proof.
  intros Hn. pose proof (home_lt _ k Hn) as Hi. set (i := access_shard_index c k).
  eapply rtc_l; [apply (job_acquire c [] (WaitReset k) [] ∅ i eq_refl), lookup_empty|]. simpl.
  unfold reset_access_meta_for_insert. case_decide as Hk.
  - eapply rtc_l; [eapply job_release; [apply lookup_insert_eq|by apply reset_absent]|]. simpl.
    by rewrite delete_insert_eq, delete_empty.
  - eapply rtc_l; [eapply job_locked; [apply lookup_insert_eq|apply reset_present; by destruct (mc_cache c !! k)]|].
    eapply rtc_l; [eapply job_locked; [apply lookup_insert_eq|apply reset_meta]|].
    eapply rtc_l; [eapply job_release; [apply lookup_insert_eq|apply reset_queue]|]. simpl.
    rewrite !insert_insert_eq, delete_insert_eq, delete_empty.
    unfold upd_queue, write_meta, upd_meta. simpl. rewrite !shard_at_put by done. rewrite !decide_True by done.
    simpl. by rewrite put_shard_twice.
Qed.

Lemma remove_alone c k : (0 < length (mc_shards c))%nat ->
  rtc job_step (mkWorld c [WaitRemove k] ∅) (mkWorld (remove_access_meta c k) [] ∅).
Proof.
  intros Hn. pose proof (home_lt _ k Hn) as Hi. set (i := access_shard_index c k).
  eapply rtc_l; [apply (job_acquire c [] (WaitRemove k) [] ∅ i eq_refl), lookup_empty|]. simpl.
  unfold remove_access_meta. case_decide as Hk.
  - eapply rtc_l; [eapply job_locked; [apply lookup_insert_eq|by apply remove_absent]|].
    eapply rtc_l; [eapply job_locked; [apply lookup_insert_eq|apply remove_meta]|].
    eapply rtc_l; [eapply job_release; [apply lookup_insert_eq|apply remove_queue]|]. simpl.
    rewrite !insert_insert_eq, delete_insert_eq, delete_empty.
    unfold upd_queue, upd_meta. rewrite !shard_at_put by done. rewrite !decide_True by done.
    simpl. by rewrite put_shard_twice.
  - eapply rtc_l; [eapply job_release; [apply lookup_insert_eq|apply remove_present; by destruct (mc_cache c !! k)]|].
    simpl. by rewrite delete_insert_eq, delete_empty.
Qed.
End Alone.

(** * Termination of the jobs *)

Section Termination.
Context {T Q : Type} `{!LruCache Q} `{!LawfulLruCache Q}.
Implicit Types (c : InMemoryCache T Q) (k : CacheKey) (w : world T Q) (i : nat) (U : gset CacheKey).

Definition idle w : Prop := w_waiting w = [] /\ w_locks w = ∅.

(** A lock never waits: some job has a step as long as there is one. *)
Lemma locked_progress c i h : exists c' r, locked_step c i h c' r.
Proof.
  destruct h as [k|k|k|k|k|k|rest|todo rest|todo rest];
    try (destruct (mc_cache c !! k) as [e|] eqn:He; [eexists _, _; by constructor|eexists _, _; by constructor]);
    try (eexists _, _; by constructor).
  - destruct (set_choose_or_empty todo) as [[k Hk]| ->%leibniz_equiv]; [|eexists _, _; apply retain_done].
    destruct (mc_cache c !! k) as [e|] eqn:He; eexists _, _; [eapply retain_keep|eapply retain_drop]; eauto.
  - destruct (set_choose_or_empty todo) as [[k Hk]| ->%leibniz_equiv]; eexists _, _;
      [by apply (put_one c i k)|apply put_done].
Qed.

Lemma job_progress w : idle w \/ exists w', job_step w w'.
Proof.
  destruct w as [c waiting locks]. destruct (decide (locks = ∅)) as [->|Hne].
  - destruct waiting as [|j waiting]; [by left|right].
    destruct (wants c j) as [i|] eqn:Hj.
    + eexists. apply (job_acquire c [] j waiting ∅ i Hj), lookup_empty.
    + destruct j as [| |[|]]; try done. eexists. apply (job_cleared c [] waiting ∅).
  - right. apply map_choose in Hne as (i & h & Hh).
    destruct (locked_progress c i h) as (c' & [h'|j] & Hs); eexists; [by eapply job_locked|by eapply job_release].
Qed.

(** The keys the jobs can index are among [U]. *)
Definition reset_key (h : locked_job) : option CacheKey :=
  match h with ResetCheck k | ResetMeta k => Some k | _ => None end.

Record inside U w : Prop := {
  in_shards i : meta_keys (w_memory w) i ⊆ U;
  in_waiting k : WaitReset k ∈ w_waiting w -> k ∈ U;
  in_locks i h k : w_locks w !! i = Some h -> reset_key h = Some k -> k ∈ U;
}.

Section Weight.
Variable B : Z.

Definition clear_weight (shards : list nat) : Z := 1 + Z.of_nat (length shards) * (2 * B + 5).

Definition waiting_weight (j : waiting_job) : Z :=
  match j with WaitReset _ | WaitRemove _ => 4 | WaitClear shards => clear_weight shards end.

Definition locked_weight (h : locked_job) : Z :=
  match h with
  | ResetCheck _ | RemoveCheck _ => 3
  | ResetMeta _ | RemoveMeta _ => 2
  | ResetQueue _ | RemoveQueue _ => 1
  | ClearQueue rest => 2 * B + 4 + clear_weight rest
  | ClearRetain todo rest => Z.of_nat (size todo) + B + 3 + clear_weight rest
  | ClearPut todo rest => Z.of_nat (size todo) + 2 + clear_weight rest
  end.

Definition work w : Z := sumZ (waiting_weight <$> w_waiting w) + sum_map locked_weight (w_locks w).

Definition after_weight (r : locked_job + option waiting_job) : Z :=
  match r with inl h => locked_weight h | inr (Some j) => waiting_weight j | inr None => 0 end.

Lemma locked_step_weight c i h c' r : Z.of_nat (size (meta_keys c i)) <= B ->
  locked_step c i h c' r -> after_weight r < locked_weight h.
Proof.
  intros HB Hs. assert (Hdiff : forall (todo : gset CacheKey) k, k ∈ todo -> (size (todo ∖ {[k]}) < size todo)%nat)
    by (intros todo k Hk; apply subset_size; set_solver).
  destruct Hs as [| | | | | | | |rest|k todo rest Hk He|k todo rest Hk He|rest|k todo rest Hk|rest];
    simpl; unfold meta_keys in HB; try lia; specialize (Hdiff todo k Hk); lia.
Qed.

Lemma acquired_weight c j i : wants c j = Some i -> locked_weight (acquired j) < waiting_weight j.
Proof.
  destruct j as [| |[|]]; simpl; try done; intros; try lia. unfold clear_weight. simpl. lia.
Qed.

Lemma sumZ_middle {A} (f : A -> Z) l1 x l2 : sumZ (f <$> l1 ++ x :: l2) = f x + sumZ (f <$> l1 ++ l2).
Proof. rewrite !fmap_app, fmap_cons, !sumZ_app. change (sumZ (f x :: (f <$> l2))) with (f x + sumZ (f <$> l2)). lia. Qed.

Lemma job_step_work w w' : 0 <= B -> (forall i, Z.of_nat (size (meta_keys (w_memory w) i)) <= B) ->
  job_step w w' -> work w' < work w.
Proof.
  intros HB Hsize Hs. unfold work.
  destruct Hs as [c before j after locks i Hj Hfree|c waiting locks i h c' h' Hh Hs|
    c waiting locks i h c' j Hh Hs|c before after locks]; simpl in *.
  - rewrite sumZ_middle, sum_map_insert by done. pose proof (acquired_weight _ _ _ Hj). lia.
  - rewrite (sum_map_update _ _ _ _ _ Hh). pose proof (locked_step_weight _ _ _ _ _ (Hsize i) Hs). simpl in *. lia.
  - rewrite (sum_map_delete _ _ _ _ Hh). pose proof (locked_step_weight _ _ _ _ _ (Hsize i) Hs).
    destruct j as [j|]; [change (sumZ (waiting_weight <$> option_list (Some j) ++ waiting))
      with (waiting_weight j + sumZ (waiting_weight <$> waiting))|]; simpl in *; lia.
  - rewrite sumZ_middle. simpl. unfold clear_weight. simpl. lia.
Qed.

Lemma work_nonneg w : 0 <= B -> 0 <= work w.
Proof.
  intros HB. unfold work. assert (0 <= sumZ (waiting_weight <$> w_waiting w)).
  { apply sumZ_nonneg, Forall_fmap, Forall_forall. intros [] _; simpl; unfold clear_weight; lia. }
  assert (0 <= sum_map locked_weight (w_locks w)); [|lia].
  apply sum_map_nonneg. intros i [] _; simpl; unfold clear_weight; lia.
Qed.
End Weight.

Lemma locked_meta_inside c i h c' r j : (i < length (mc_shards c))%nat -> locked_step c i h c' r ->
  meta_keys c' j ⊆ meta_keys c j ∪ (match reset_key h with Some k => {[k]} | None => ∅ end).
Proof.
  intros Hi Hs. destruct (decide (j = i)) as [->|Hne].
  - destruct Hs as [k He|k He|k|k|k He|k He|k|k|rest|k todo rest Hk He|k todo rest Hk He|rest|k todo rest Hk|rest];
      try set_solver;
      try (destruct (write_meta_keys c i k Hi) as [-> _]; set_solver);
      try (destruct (upd_queue_keys c i (lru_put k) Hi) as [-> _]; set_solver);
      try (destruct (upd_queue_keys c i (lru_pop k) Hi) as [-> _]; set_solver);
      try (destruct (upd_meta_keys c i (delete k) Hi) as [-> _]; rewrite dom_delete_L; unfold meta_keys; set_solver).
    destruct (upd_queue_keys c i lru_clear Hi) as [-> _]. set_solver.
  - destruct (locked_frame c i h c' r Hi Hs) as (_ & _ & Hsh). unfold meta_keys. rewrite Hsh by done. set_solver.
Qed.

Lemma inside_step U w w' : index_inv w -> inside U w -> job_step w w' -> inside U w'.
Proof.
  intros Hinv [Hsh Hw Hl] Hs. pose proof (ix_locks _ Hinv) as Hlocks.
  destruct Hs as [c before j after locks i Hj Hfree|c waiting locks i h c' h' Hh Hs|
    c waiting locks i h c' j Hh Hs|c before after locks]; simpl in *.
  - split; simpl; [done|intros k Hk; apply Hw; set_solver|].
    intros i' h k [(<- & <-)|[Hne Hh]]%lookup_insert_Some Hk; [|by eapply Hl].
    apply Hw. destruct j; simpl in Hk; simplify_eq. set_solver.
  - destruct (Hlocks i h Hh) as [Hi _]. split; simpl; [|done|].
    + intros j. pose proof (locked_meta_inside _ _ _ _ _ j Hi Hs) as Hj. specialize (Hsh j).
      destruct (reset_key h) as [k|] eqn:Hk; [|set_solver]. pose proof (Hl i h k Hh Hk). set_solver.
    + intros i' h1 k [(<- & <-)|[Hne Hh1]]%lookup_insert_Some Hk; [|by eapply Hl].
      inversion Hs; subst; simpl in *; try done. by apply (Hl i _ k Hh).
  - destruct (Hlocks i h Hh) as [Hi _]. split; simpl.
    + intros i'. pose proof (locked_meta_inside _ _ _ _ _ i' Hi Hs) as Hj. specialize (Hsh i').
      destruct (reset_key h) as [k|] eqn:Hk; [|set_solver]. pose proof (Hl i h k Hh Hk). set_solver.
    + intros k Hk. apply Hw. destruct j as [j|]; [|done]. simpl in Hk.
      apply elem_of_cons in Hk as [<-|Hk]; [inversion Hs|done].
    + intros i' h1 k [_ Hh1]%lookup_delete_Some Hk. by eapply Hl.
  - split; simpl; [done|intros k Hk; apply Hw; set_solver|done].
Qed.

Definition wait_key (j : waiting_job) : option CacheKey := match j with WaitReset k => Some k | _ => None end.

Lemma inside_exists w : exists U, inside U w.
Proof.
  exists (⋃ (meta_keys (w_memory w) <$> seq 0 (length (mc_shards (w_memory w))))
     ∪ list_to_set (omap wait_key (w_waiting w))
     ∪ list_to_set (omap (fun ih => reset_key ih.2) (map_to_list (w_locks w)))).
  split.
  - intros i. destruct (decide (i < length (mc_shards (w_memory w)))%nat) as [Hi|Hi].
    + intros k Hk. apply elem_of_union_l, elem_of_union_l, elem_of_union_list. eexists. split; [|done].
      apply list_elem_of_fmap. exists i. split; [done|]. apply elem_of_seq. lia.
    + unfold meta_keys, shard_at. rewrite nth_overflow by lia. simpl. rewrite dom_empty_L. set_solver.
  - intros k Hk. apply elem_of_union_l, elem_of_union_r, elem_of_list_to_set, list_elem_of_omap. by exists (WaitReset k).
  - intros i h k Hh Hk. apply elem_of_union_r, elem_of_list_to_set, list_elem_of_omap. exists (i, h).
    split; [by apply elem_of_map_to_list|done].
Qed.

(** The jobs of any state run out. *)
Lemma jobs_terminate w : index_inv w -> exists bound, forall n w', nsteps job_step n w w' -> (n <= bound)%nat.
Proof.
  intros Hinv. destruct (inside_exists w) as [U HU]. set (B := Z.of_nat (size U)).
  exists (Z.to_nat (work B w)). intros n w' Hs.
  enough (Z.of_nat n <= work B w) by lia.
  induction Hs as [w|n w1 w2 w3 H12 H23 IH]; [pose proof (work_nonneg B w); lia|].
  assert (Hdec : work B w2 < work B w1).
  { apply job_step_work; [lia| |done]. intros i. unfold B. apply inj_le, subseteq_size. apply HU. }
  specialize (IH (job_step_inv _ _ H12 Hinv) (inside_step _ _ _ Hinv HU H12)). lia.
Qed.
End Termination.

Section Guarantee.
Context {T Q : Type} `{!LruCache Q} `{!LawfulLruCache Q}.

(** C24: in every state that concurrent operations on a new in-memory cache can
    reach, step by step, the jobs still to be done for the index come to an end
    whatever the order they run in: their steps are bounded, and while a job is
    left one has a step.  When none is left, each shard's metadata and candidate
    queue hold exactly the keys of its entries: no insertion lost its slot, and
    no removal, expiry, eviction or [clear] left an orphan. *)
Theorem memory_cache_index_settles (available_parallelism : option Z) (config : DualCacheConfig) (w : world T Q) :
  rtc world_step (mkWorld (memory_new available_parallelism config) [] ∅) w ->
  (exists bound, forall n w', nsteps job_step n w w' -> (n <= bound)%nat) /\
  (idle w \/ exists w', job_step w w') /\
  (idle w -> forall i s, mc_shards (w_memory w) !! i = Some s ->
     NoDup (lru_keys (access_queue s)) /\
     forall k, (k ∈ lru_keys (access_queue s) <->
                  k ∈ dom (mc_cache (w_memory w)) /\ access_shard_index (w_memory w) k = i) /\
               (k ∈ dom (access_meta s) <->
                  k ∈ dom (mc_cache (w_memory w)) /\ access_shard_index (w_memory w) k = i)).
Proof.
  intros Hr. assert (Hinv : index_inv w).
  { eapply (rtc_invariant world_step index_inv); [by apply world_step_inv|exact Hr|].
    apply index_inv_start. apply (healthy_new available_parallelism config). }
  split; [by apply jobs_terminate|]. split; [apply job_progress|].
  intros [Hw Hl] i s Hs. destruct w as [c waiting locks]. simpl in *. subst.
  destruct (index_inv_quiet c Hinv) as [_ Hi]. destruct (Hi i s Hs) as [Hm Hq Hd].
  split; [done|]. intros k. split; [apply Hq|apply Hm].
Qed.
End Guarantee.

(** A key is deleted before its insertion has indexed it, and the deletion
    indexes first. *)
Definition race_cache : InMemoryCache Z (list CacheKey) := memory_new (Some 8) DualCacheConfig_default.

Lemma race_run : exists w, rtc world_step (mkWorld race_cache [] ∅) w /\ idle w.
Proof.
  set (k := mkCacheKey "a" 3). set (e := entry_new 1 100 0 0 : CacheEntry Z).
  eexists. split; [|shelve].
  eapply rtc_l; [right; apply (shared_insert _ _ _ k e)|].
  eapply rtc_l; [right; apply (shared_remove _ _ _ k e), lookup_insert_eq|].
  eapply rtc_l; [left; eapply (job_acquire _ [] (WaitRemove k) [WaitReset k] _ 3); [reflexivity|apply lookup_empty]|].
  eapply rtc_l; [left; eapply job_locked; [apply lookup_insert_eq|apply remove_absent, lookup_delete_eq]|].
  eapply rtc_l; [left; eapply job_locked; [apply lookup_insert_eq|apply remove_meta]|].
  eapply rtc_l; [left; eapply job_release; [apply lookup_insert_eq|apply remove_queue]|].
  eapply rtc_l; [left; eapply (job_acquire _ [] (WaitReset k) [] _ 3); [reflexivity|apply lookup_delete_eq]|].
  eapply rtc_l; [left; eapply job_release; [apply lookup_insert_eq|apply reset_absent, lookup_delete_eq]|].
  apply rtc_refl.
  Unshelve. split; [done|]. by vm_compute.
Qed.

Lemma memory_cache_index_settles_witness : exists w : world Z (list CacheKey),
  rtc world_step (mkWorld race_cache [] ∅) w /\ idle w /\
  forall i s, mc_shards (w_memory w) !! i = Some s -> NoDup (access_queue s).
Proof.
  destruct race_run as (w & Hr & Hidle). exists w. split; [exact Hr|]. split; [exact Hidle|].
  destruct (memory_cache_index_settles (Some 8) DualCacheConfig_default w Hr) as (_ & _ & Hq).
  intros i s Hs. exact (proj1 (Hq Hidle i s Hs)).
Defined.
