(* ===== verification/RedisCache.v ===== *)
(** The Redis layer of the response cache ([core/cache/redis_cache.rs]) over the
    basic operations of the pool ([storage/redis/cache.rs], [batch.rs]).

    The server, with what other processes do to it, is a parameter: each command
    is a function of its state, which may fail.  So is serde's text of an entry. *)

From S2P Require Import Prelude ProviderErrors GatewayErrors CacheTypes.

(** * Commands *)

(** The commands of the crate [redis] that the cache's pool sends; an error is
    already a [GatewayError].  [cmd_del_if_equals] is the script that deletes a
    key whose value is the one given. *)
Class RedisCommands (S : Type) := {
  cmd_get : string -> S -> S * result (option string) GatewayError;
  cmd_mget : list string -> S -> S * result (list (option string)) GatewayError;
  cmd_set_ex : string -> string -> Z -> S -> S * result unit GatewayError;
  cmd_set : string -> string -> S -> S * result unit GatewayError;
  cmd_del : string -> S -> S * result unit GatewayError;
  cmd_del_if_equals : string -> string -> S -> S * result Z GatewayError;
  cmd_scan_del : string -> S -> S * result Z GatewayError;
  cmd_exists : string -> S -> S * result bool GatewayError;
  cmd_ttl : string -> S -> S * result Z GatewayError;
  cmd_ping : S -> S * result unit GatewayError;
}.

(** [serde_json] on the entries of a cache: the text, or what serde says. *)
Class EntryJson (T : Type) := {
  entry_to_string : SerializableCacheEntry T -> string + string;
  entry_from_str : string -> option (SerializableCacheEntry T);
}.

Declare Scope redis_scope.
Delimit Scope redis_scope with redis.

(** [m.await?]. *)
Notation "'await' x ':=' m 'in' k" := (fun st => match m st with
  | (st, Ok x) => k st
  | (st, Err e) => (st, Err e)
  end) (at level 10, x name, m at level 100, k at level 200) : redis_scope.

(** [m.await] whose result is matched on, or dropped. *)
Notation "'outcome' x ':=' m 'in' k" := (fun st => let '(st, x) := m st in k st)
  (at level 10, x name, m at level 100, k at level 200) : redis_scope.

#[local] Open Scope redis_scope.

Definition ret {S A : Type} (x : A) (st : S) : S * result A GatewayError := (st, Ok x).
Definition fail {S A : Type} (e : GatewayError) (st : S) : S * result A GatewayError := (st, Err e).

(** * The pool *)

Record RedisPool := mkPool { noop_mode : bool; is_cluster : bool }.

Section Pool.
Context {S : Type} `{RedisCommands S} (pool : RedisPool).

Definition pool_get (key : string) : S -> S * result (option string) GatewayError :=
  if noop_mode pool then ret None else cmd_get key.

Definition pool_set (key value : string) (ttl : option Z) : S -> S * result unit GatewayError :=
  if noop_mode pool then ret tt
  else match ttl with Some ttl_seconds => cmd_set_ex key value ttl_seconds | None => cmd_set key value end.

Definition pool_delete (key : string) : S -> S * result unit GatewayError :=
  if noop_mode pool then ret tt else cmd_del key.

Definition pool_delete_if_equals (key expected : string) : S -> S * result bool GatewayError :=
  if noop_mode pool then ret false
  else await deleted := cmd_del_if_equals key expected in ret (0 <? deleted).

Definition pool_delete_by_prefix (prefix : string) : S -> S * result Z GatewayError :=
  if noop_mode pool then ret 0 else cmd_scan_del prefix.

Definition pool_exists (key : string) : S -> S * result bool GatewayError :=
  if noop_mode pool then ret false else cmd_exists key.

Definition pool_ttl (key : string) : S -> S * result Z GatewayError :=
  if noop_mode pool then ret (-2) else cmd_ttl key.

(** A cluster is asked for one key at a time. *)
Fixpoint get_each (keys : list string) : S -> S * result (list (option string)) GatewayError :=
  match keys with
  | [] => ret []
  | key :: keys => await value := pool_get key in await values := get_each keys in ret (value :: values)
  end.

Definition pool_mget (keys : list string) : S -> S * result (list (option string)) GatewayError :=
  if noop_mode pool then ret (replicate (length keys) None)
  else if is_cluster pool then get_each keys
  else cmd_mget keys.
End Pool.

(** * The cache *)

(** The server and the counters the layers share. *)
Record RedisState (S : Type) := mkRedisState { rs_server : S; rs_counters : CacheStats }.
Arguments mkRedisState {S} _ _.
Arguments rs_server {S} _.
Arguments rs_counters {S} _.

Section Cache.
Context {S T : Type} `{RedisCommands S} `{EntryJson T} (pool : RedisPool) (config : DualCacheConfig).
Implicit Types (key : CacheKey) (value : T).

Notation redis A := (RedisState S -> RedisState S * result A GatewayError).

Definition on_server {A} (m : S -> S * result A GatewayError) : redis A :=
  fun st => let '(server, r) := m (rs_server st) in (mkRedisState server (rs_counters st), r).

(** An update of the counters, then the rest. *)
Definition count {A} (f : CacheStats -> CacheStats) (m : redis A) : redis A :=
  fun st => m (mkRedisState (rs_server st) (f (rs_counters st))).

Definition make_redis_key key : string := key_prefix config +:+ ":" +:+ ck_key key.

Definition serialize (e : SerializableCacheEntry T) : redis string :=
  match entry_to_string e with
  | inr data => ret data
  | inl e => fail (GConfig ("Failed to serialize cache value: " +:+ e))
  end.

(** The lookup [get] and [get_entry] share; [found] is what they make of a live
    entry. *)
Definition lookup {A} (found : SerializableCacheEntry T -> A) key (now_unix : Z) : redis (option A) :=
  if noop_mode pool then count record_redis_miss (ret None)
  else
    let redis_key := make_redis_key key in
    await data := on_server (pool_get pool redis_key) in
    match data with
    | Some data =>
        match entry_from_str data with
        | Some entry =>
            if serializable_is_expired entry now_unix then
              outcome _ := on_server (pool_delete pool redis_key) in
              count record_redis_miss (ret None)
            else count record_redis_hit (ret (Some (found entry)))
        | None =>
            outcome _ := on_server (pool_delete pool redis_key) in
            count record_redis_miss (ret None)
        end
    | None => count record_redis_miss (ret None)
    end.

Definition redis_get key (now_unix : Z) : redis (option T) := lookup se_value key now_unix.

Definition redis_get_entry key (now_unix1 now_unix2 now1 now2 : Z) : redis (option (CacheEntry T)) :=
  lookup (fun e => into_cache_entry e now_unix2 now1 now2) key now_unix1.

(** The part of the three writes after the entry is made. *)
Definition put_entry key (e : CacheEntry T) (ttl now_unix now : Z) : redis unit :=
  await data := serialize (serializable_from e now_unix now) in
  let redis_key := make_redis_key key in
  await _done := on_server (pool_set pool redis_key data (Some (as_secs ttl))) in
  count record_write (ret tt).

Definition redis_set_with_ttl key value (ttl now1 now_unix1 now_unix2 now2 : Z) : redis unit :=
  if noop_mode pool then ret tt
  else put_entry key (entry_new value ttl now1 now_unix1) ttl now_unix2 now2.

Definition redis_set key value (now1 now_unix1 now_unix2 now2 : Z) : redis unit :=
  redis_set_with_ttl key value (default_ttl config) now1 now_unix1 now_unix2 now2.

Definition redis_set_with_size key value (ttl size_bytes now1 now_unix1 now_unix2 now2 : Z) : redis unit :=
  if noop_mode pool then ret tt
  else put_entry key (entry_with_size value ttl now1 now_unix1 size_bytes) ttl now_unix2 now2.

Definition redis_set_entry key (e : CacheEntry T) (now1 now2 now_unix now3 : Z) : redis unit :=
  if noop_mode pool then ret tt
  else put_entry key e (default (from_secs 1) (entry_remaining_ttl e now1 now2)) now_unix now3.

Definition redis_delete key : redis bool :=
  if noop_mode pool then ret false
  else
    let redis_key := make_redis_key key in
    await existed := on_server (pool_exists pool redis_key) in
    if existed : bool then
      await _done := on_server (pool_delete pool redis_key) in
      count record_deletion (ret existed)
    else ret existed.

Definition MAX_CAS_ATTEMPTS : nat := 8.

(** [for attempt in 1..=MAX_CAS_ATTEMPTS]; attempt [n] reads the clock as
    [now_unix n]. *)
Fixpoint cas_delete (redis_key : string) (predicate : T -> bool) (now_unix : nat -> Z) (attempts : nat)
    : redis (option T) :=
  match attempts with
  | O => fail (GInternal ("Redis conditional delete exhausted CAS retries for key " +:+ redis_key))
  | Datatypes.S attempts =>
      await data := on_server (pool_get pool redis_key) in
      match data with
      | None => ret None
      | Some data =>
          match entry_from_str data with
          | None =>
              await deleted := on_server (pool_delete_if_equals pool redis_key data) in
              if deleted : bool then ret None else cas_delete redis_key predicate now_unix attempts
          | Some entry =>
              if serializable_is_expired entry (now_unix attempts) then
                await deleted := on_server (pool_delete_if_equals pool redis_key data) in
                if deleted : bool then ret None else cas_delete redis_key predicate now_unix attempts
              else if negb (predicate (se_value entry)) then ret None
              else
                await deleted := on_server (pool_delete_if_equals pool redis_key data) in
                if deleted : bool then count record_deletion (ret (Some (se_value entry)))
                else cas_delete redis_key predicate now_unix attempts
          end
      end
  end.

Definition redis_delete_if key (predicate : T -> bool) (now_unix : nat -> Z) : redis (option T) :=
  if noop_mode pool then ret None
  else cas_delete (make_redis_key key) predicate now_unix MAX_CAS_ATTEMPTS.

Definition redis_clear : redis Z :=
  if noop_mode pool then ret 0
  else on_server (pool_delete_by_prefix pool (key_prefix config +:+ ":")).

Definition redis_exists key : redis bool :=
  if noop_mode pool then ret false else on_server (pool_exists pool (make_redis_key key)).

Definition redis_ttl key : redis (option Z) :=
  if noop_mode pool then ret None
  else
    await ttl_secs := on_server (pool_ttl pool (make_redis_key key)) in
    if ttl_secs <? 0 then ret None else ret (Some (from_secs ttl_secs)).

Definition redis_is_available (st : RedisState S) : RedisState S * bool :=
  if noop_mode pool then (st, false)
  else let '(st, r) := on_server cmd_ping st in (st, is_ok r).

(** The loop of [get_many] over what [MGET] returned. *)
Fixpoint read_many (raw : list (string * option string)) (now_unix : Z) : redis (list (option T)) :=
  match raw with
  | [] => ret []
  | (redis_key, data) :: raw =>
      let missed := await results := read_many raw now_unix in ret (None :: results) in
      match data with
      | Some data =>
          match entry_from_str data with
          | Some entry =>
              if negb (serializable_is_expired entry now_unix) then
                count record_redis_hit
                  (await results := read_many raw now_unix in ret (Some (se_value entry) :: results))
              else
                outcome _ := on_server (pool_delete pool redis_key) in count record_redis_miss missed
          | None =>
              outcome _ := on_server (pool_delete pool redis_key) in count record_redis_miss missed
          end
      | None => count record_redis_miss missed
      end
  end.

Definition redis_get_many (keys : list CacheKey) (now_unix : Z) : redis (list (option T)) :=
  if noop_mode pool || Nat.eqb (length keys) 0 then ret (replicate (length keys) None)
  else
    let redis_keys := map make_redis_key keys in
    await raw_values := on_server (pool_mget pool redis_keys) in
    read_many (zip redis_keys raw_values) now_unix.

(** The entries and, for each, the readings of the clocks. *)
Fixpoint redis_set_many (entries : list ((CacheKey * T * Z) * (Z * Z * Z * Z))) : redis unit :=
  match entries with
  | [] => ret tt
  | ((key, value, ttl), (now1, now_unix1, now_unix2, now2)) :: entries =>
      if noop_mode pool then ret tt
      else
        await _done := redis_set_with_ttl key value ttl now1 now_unix1 now_unix2 now2 in
        redis_set_many entries
  end.

Fixpoint delete_each (keys : list CacheKey) (deleted : Z) : redis Z :=
  match keys with
  | [] => ret deleted
  | key :: keys =>
      await gone := redis_delete key in
      delete_each keys (if gone : bool then deleted + 1 else deleted)
  end.

Definition redis_delete_many (keys : list CacheKey) : redis Z :=
  if noop_mode pool || Nat.eqb (length keys) 0 then ret 0 else delete_each keys 0.
End Cache.
