(* ===== verification/DualCache.v ===== *)
(** The two-tier response cache ([core/cache/dual.rs]): the in-memory layer, the
    Redis layer and the barriers that keep a conditionally deleted value from
    coming back.

    An operation that takes the key's lock runs to its end before another one on
    that key; [DualCacheLocks] models the locks themselves.  An operation is given
    the successive readings of its clocks. *)

From S2P Require Import Prelude ProviderErrors GatewayErrors CacheTypes MemoryCache RedisCache.

#[local] Open Scope redis_scope.

(** The n-th reading of the monotonic clock and of the Unix clock. *)
Record Clock := mkClock { instant : nat -> Z; unix : nat -> Z }.

Record StaleWriteBarrier := mkBarrier { sb_identity : Z; sb_expires_at : Z }.

Record DualCache (T Q S : Type) := mkDual {
  dc_memory : InMemoryCache T Q;       (* its counters are those of all layers *)
  dc_server : S;
  dc_barriers : gmap CacheKey (list StaleWriteBarrier);
}.
Arguments mkDual {T Q S} _ _ _.
Arguments dc_memory {T Q S} _.
Arguments dc_server {T Q S} _.
Arguments dc_barriers {T Q S} _.

(** [self.redis] of [with_write_identity]. *)
Definition redis_layer (m : CacheMode) (redis_pool : option RedisPool) : option RedisPool :=
  match m, redis_pool with
  | MemoryOnly, _ => None
  | _, Some pool => Some pool
  | RedisOnly, None => None
  | Dual, None => None
  end.

Section Dual.
Context {T Q S : Type} `{LruCache Q} `{RedisCommands S} `{EntryJson T}.
Context (config : DualCacheConfig) (redis_pool : option RedisPool) (write_identity : T -> option Z).
Implicit Types (d : DualCache T Q S) (key : CacheKey) (value : T) (clk : Clock).

Notation dual A := (DualCache T Q S -> DualCache T Q S * result A GatewayError).

Definition dual_new (available_parallelism : option Z) (server : S) : DualCache T Q S :=
  mkDual (memory_new available_parallelism config) server ∅.

Definition the_redis : option RedisPool := redis_layer (mode config) redis_pool.

(** A call of the memory layer. *)
Definition on_memory {A} (m : InMemoryCache T Q -> InMemoryCache T Q * A) : dual A :=
  fun d => let '(memory, r) := m (dc_memory d) in (mkDual memory (dc_server d) (dc_barriers d), Ok r).

Definition on_memory_ (m : InMemoryCache T Q -> InMemoryCache T Q) : dual unit :=
  on_memory (fun memory => (m memory, tt)).

(** A call of the Redis layer. *)
Definition on_redis {A} (m : RedisState S -> RedisState S * result A GatewayError) : dual A :=
  fun d =>
    let '(st, r) := m (mkRedisState (dc_server d) (mc_stats (dc_memory d))) in
    (mkDual (upd_stats (dc_memory d) (fun _ => rs_counters st)) (rs_server st) (dc_barriers d), r).

Definition set_barriers d (b : gmap CacheKey (list StaleWriteBarrier)) : DualCache T Q S :=
  mkDual (dc_memory d) (dc_server d) b.

(** * Barriers *)

Definition live_barriers (now : Z) (barriers : list StaleWriteBarrier) : list StaleWriteBarrier :=
  filter (fun b => now < sb_expires_at b) barriers.

Definition prune_expired_barriers_map (now : Z) (barriers : gmap CacheKey (list StaleWriteBarrier))
    : gmap CacheKey (list StaleWriteBarrier) :=
  filter (fun kb => kb.2 <> []) (live_barriers now <$> barriers).

Definition has_identity (identity : Z) (barriers : list StaleWriteBarrier) : bool :=
  existsb (fun b => sb_identity b =? identity) barriers.

(** The two readings are the ones of the barrier's expiry and of [now]. *)
Definition install_stale_write_barrier key value (now1 now2 : Z) d : DualCache T Q S :=
  match write_identity value with
  | None => d
  | Some identity =>
      let barrier := mkBarrier identity (now1 + default_ttl config) in
      let barriers := match dc_barriers d !! key with
                      | Some barriers =>
                          let barriers := live_barriers now2 barriers in
                          if has_identity identity barriers then barriers else barriers ++ [barrier]
                      | None => [barrier]
                      end in
      set_barriers d (<[key := barriers]> (dc_barriers d))
  end.

Definition install key value (now1 now2 : Z) : dual unit :=
  fun d => (install_stale_write_barrier key value now1 now2 d, Ok tt).

Definition is_stale_write_blocked key value (now : Z) : dual bool :=
  fun d =>
    match dc_barriers d !! key with
    | None => (d, Ok false)
    | Some barriers =>
        let barriers := live_barriers now barriers in
        match barriers with
        | [] => (set_barriers d (delete key (dc_barriers d)), Ok false)
        | _ :: _ =>
            (set_barriers d (<[key := barriers]> (dc_barriers d)),
             Ok match write_identity value with
                | Some identity => has_identity identity barriers
                | None => false
                end)
        end
    end.

(** * Lookups *)

Definition fill_l1_from_l2 key clk : dual (option T) :=
  match the_redis with
  | None => ret None
  | Some pool =>
      await cached := on_memory (fun m => memory_peek m key (instant clk 1)) in
      match cached with
      | Some value => ret (Some value)
      | None =>
          await found := on_redis (redis_get pool config key (unix clk 0)) in
          match found with
          | Some fresh =>
              await blocked := is_stale_write_blocked key fresh (instant clk 2) in
              if blocked : bool then ret None
              else
                await _done := on_memory_ (fun m =>
                  memory_set m key fresh (instant clk 3) (instant clk 4) (unix clk 1)) in
                ret (Some fresh)
          | None => ret None
          end
      end
  end.

Definition get_dual key clk : dual (option T) :=
  await cached := on_memory (fun m => memory_get m key (instant clk 0)) in
  match cached with
  | Some value => ret (Some value)
  | None => match the_redis with None => ret None | Some _ => fill_l1_from_l2 key clk end
  end.

Definition dual_get key clk : dual (option T) :=
  match mode config with
  | MemoryOnly => on_memory (fun m => memory_get m key (instant clk 0))
  | RedisOnly =>
      match the_redis with Some pool => on_redis (redis_get pool config key (unix clk 0)) | None => ret None end
  | Dual => get_dual key clk
  end.

Definition get_entry_dual key clk : dual (option (CacheEntry T)) :=
  await cached := on_memory (fun m => memory_get_entry m key (instant clk 0) (instant clk 1)) in
  match cached with
  | Some entry => ret (Some entry)
  | None =>
      match the_redis with
      | None => ret None
      | Some pool =>
          await existing := on_memory (fun m => memory_peek_entry m key (instant clk 2) (instant clk 3)) in
          match existing with
          | Some entry => ret (Some entry)
          | None =>
              await found := on_redis
                (redis_get_entry pool config key (unix clk 0) (unix clk 1) (instant clk 4) (instant clk 5)) in
              match found with
              | Some fresh =>
                  await blocked := is_stale_write_blocked key (ce_value fresh) (instant clk 6) in
                  if blocked : bool then ret None
                  else
                    await _done := on_memory_ (fun m =>
                      memory_set_with_size m key (ce_value fresh) (ce_ttl fresh) (ce_size_bytes fresh)
                        (instant clk 7) (instant clk 8) (unix clk 2)) in
                    ret (Some fresh)
              | None => ret None
              end
          end
      end
  end.

Definition dual_get_entry key clk : dual (option (CacheEntry T)) :=
  match mode config with
  | MemoryOnly => on_memory (fun m => memory_get_entry m key (instant clk 0) (instant clk 1))
  | RedisOnly =>
      match the_redis with
      | Some pool =>
          on_redis (redis_get_entry pool config key (unix clk 0) (unix clk 1) (instant clk 0) (instant clk 1))
      | None => ret None
      end
  | Dual => get_entry_dual key clk
  end.

(** * Writes *)

(** A write of the Redis layer whose failure is only logged. *)
Definition best_effort {A} (m : dual A) : dual unit := outcome _ := m in ret tt.

Definition set_memory_only key value (ttl : Z) clk : dual unit :=
  await blocked := is_stale_write_blocked key value (instant clk 0) in
  if blocked : bool then ret tt
  else on_memory_ (fun m => memory_set_with_ttl m key value ttl (instant clk 1) (instant clk 2) (unix clk 0)).

Definition set_dual key value (ttl : Z) clk : dual unit :=
  await blocked := is_stale_write_blocked key value (instant clk 0) in
  if blocked : bool then ret tt
  else
    await _done := on_memory_ (fun m =>
      memory_set_with_ttl m key value ttl (instant clk 1) (instant clk 2) (unix clk 0)) in
    match the_redis with
    | Some pool => best_effort (on_redis
        (redis_set_with_ttl pool config key value ttl (instant clk 3) (unix clk 1) (unix clk 2) (instant clk 4)))
    | None => ret tt
    end.

Definition dual_set_with_ttl key value (ttl : Z) clk : dual unit :=
  match mode config with
  | MemoryOnly => set_memory_only key value ttl clk
  | RedisOnly =>
      match the_redis with
      | Some pool => on_redis
          (redis_set_with_ttl pool config key value ttl (instant clk 0) (unix clk 0) (unix clk 1) (instant clk 1))
      | None => ret tt
      end
  | Dual => set_dual key value ttl clk
  end.

Definition dual_set key value clk : dual unit := dual_set_with_ttl key value (default_ttl config) clk.

Definition dual_set_with_size key value (ttl size_bytes : Z) clk : dual unit :=
  match mode config with
  | MemoryOnly =>
      await blocked := is_stale_write_blocked key value (instant clk 0) in
      if blocked : bool then ret tt
      else on_memory_ (fun m =>
        memory_set_with_size m key value ttl size_bytes (instant clk 1) (instant clk 2) (unix clk 0))
  | RedisOnly =>
      match the_redis with
      | Some pool => on_redis (redis_set_with_size pool config key value ttl size_bytes
          (instant clk 0) (unix clk 0) (unix clk 1) (instant clk 1))
      | None => ret tt
      end
  | Dual =>
      await blocked := is_stale_write_blocked key value (instant clk 0) in
      if blocked : bool then ret tt
      else
        await _done := on_memory_ (fun m =>
          memory_set_with_size m key value ttl size_bytes (instant clk 1) (instant clk 2) (unix clk 0)) in
        match the_redis with
        | Some pool => best_effort (on_redis (redis_set_with_size pool config key value ttl size_bytes
            (instant clk 3) (unix clk 1) (unix clk 2) (instant clk 4)))
        | None => ret tt
        end
  end.

(** * Deletions *)

Definition dual_delete key : dual bool :=
  match mode config with
  | MemoryOnly => on_memory (fun m => memory_delete m key)
  | RedisOnly => match the_redis with Some pool => on_redis (redis_delete pool config key) | None => ret false end
  | Dual =>
      await deleted := on_memory (fun m => memory_delete m key) in
      match the_redis with
      | Some pool =>
          outcome gone := on_redis (redis_delete pool config key) in
          ret (match gone with Ok true => true | _ => deleted end)
      | None => ret deleted
      end
  end.

Definition dual_delete_if key (predicate : T -> bool) clk : dual bool :=
  match mode config with
  | MemoryOnly =>
      await removed := on_memory (fun m => memory_delete_if m key predicate (instant clk 0)) in
      match removed with
      | Some removed =>
          await _done := install key removed (instant clk 1) (instant clk 2) in
          ret true
      | None => ret false
      end
  | RedisOnly =>
      match the_redis with
      | Some pool =>
          await removed := on_redis (redis_delete_if pool config key predicate (unix clk)) in
          ret (match removed with Some _ => true | None => false end)
      | None => ret false
      end
  | Dual =>
      await removed := on_memory (fun m => memory_delete_if m key predicate (instant clk 0)) in
      match removed with
      | Some removed =>
          await _done := install key removed (instant clk 1) (instant clk 2) in
          match the_redis with
          | Some pool =>
              await _l2 := on_redis (redis_delete_if pool config key (fun _ => true) (unix clk)) in
              ret true
          | None => ret true
          end
      | None =>
          match the_redis with
          | Some pool =>
              await removed := on_redis (redis_delete_if pool config key predicate (unix clk)) in
              match removed with
              | Some removed =>
                  await _done := install key removed (instant clk 1) (instant clk 2) in
                  ret true
              | None => ret false
              end
          | None => ret false
          end
      end
  end.

(** * The rest *)

Definition dual_exists key clk : dual bool :=
  match mode config with
  | MemoryOnly => on_memory (fun m => memory_exists m key (instant clk 0))
  | RedisOnly => match the_redis with Some pool => on_redis (redis_exists pool config key) | None => ret false end
  | Dual =>
      await there := on_memory (fun m => memory_exists m key (instant clk 0)) in
      if there : bool then ret true
      else match the_redis with Some pool => on_redis (redis_exists pool config key) | None => ret false end
  end.

Definition dual_ttl key clk : dual (option Z) :=
  let in_memory := on_memory (fun m => (m, memory_ttl m key (instant clk 0) (instant clk 1))) in
  match mode config with
  | MemoryOnly => in_memory
  | RedisOnly => match the_redis with Some pool => on_redis (redis_ttl pool config key) | None => ret None end
  | Dual =>
      await ttl := in_memory in
      match ttl with
      | Some ttl => ret (Some ttl)
      | None => match the_redis with Some pool => on_redis (redis_ttl pool config key) | None => ret None end
      end
  end.

(** An error of Redis ends [clear] with the barriers still there. *)
Definition dual_clear : dual unit :=
  await _done := on_memory_ memory_clear in
  match (if decide (mode config = MemoryOnly) then None else the_redis) with
  | Some pool =>
      await _deleted := on_redis (redis_clear pool config) in
      fun d => (set_barriers d ∅, Ok tt)
  | None => fun d => (set_barriers d ∅, Ok tt)
  end.

(** The cleanup task's [prune_expired_barriers_map], and the one of the memory
    layer. *)
Definition dual_cleanup clk : dual unit :=
  await _done := on_memory_ (fun m => cleanup_expired m (instant clk 0)) in
  fun d => (set_barriers d (prune_expired_barriers_map (instant clk 1) (dc_barriers d)), Ok tt).

(** * Batches: each key comes with its clock *)

Fixpoint dual_get_many (keys : list (CacheKey * Clock)) : dual (list (option T)) :=
  match keys with
  | [] => ret []
  | (key, clk) :: keys =>
      await value := dual_get key clk in
      await results := dual_get_many keys in
      ret (value :: results)
  end.

Fixpoint dual_set_many (entries : list (CacheKey * T * Z * Clock)) : dual unit :=
  match entries with
  | [] => ret tt
  | (key, value, ttl, clk) :: entries =>
      await _done := dual_set_with_ttl key value ttl clk in
      dual_set_many entries
  end.

Fixpoint dual_delete_many (keys : list CacheKey) (deleted : Z) : dual Z :=
  match keys with
  | [] => ret deleted
  | key :: keys =>
      await gone := dual_delete key in
      dual_delete_many keys (if gone : bool then deleted + 1 else deleted)
  end.

(** One key of [warm_from_redis]. *)
Definition warm_one (pool : RedisPool) key clk : dual bool :=
  await there := on_memory (fun m => memory_exists m key (instant clk 0)) in
  if there : bool then ret false
  else
    await there := on_memory (fun m => memory_exists m key (instant clk 1)) in
    if there : bool then ret false
    else
      outcome found := on_redis
        (redis_get_entry pool config key (unix clk 0) (unix clk 1) (instant clk 2) (instant clk 3)) in
      match found with
      | Ok (Some fresh) =>
          await blocked := is_stale_write_blocked key (ce_value fresh) (instant clk 4) in
          if blocked : bool then ret false
          else
            await _done := on_memory_ (fun m =>
              memory_set_with_size m key (ce_value fresh) (ce_ttl fresh) (ce_size_bytes fresh)
                (instant clk 5) (instant clk 6) (unix clk 2)) in
            ret true
      | Ok None | Err _ => ret false
      end.

Fixpoint warm_each (pool : RedisPool) (keys : list (CacheKey * Clock)) (warmed : Z) : dual Z :=
  match keys with
  | [] => ret warmed
  | (key, clk) :: keys =>
      await warmed_key := warm_one pool key clk in
      warm_each pool keys (if warmed_key : bool then warmed + 1 else warmed)
  end.

Definition warm_from_redis (keys : list (CacheKey * Clock)) : dual Z :=
  match the_redis with
  | Some pool => if decide (mode config = MemoryOnly) then ret 0 else warm_each pool keys 0
  | None => ret 0
  end.

(** Written without the key's lock and whatever the barriers. *)
Fixpoint warm_with_entries (entries : list (CacheKey * T * Z * Clock)) (warmed : Z) : dual Z :=
  match entries with
  | [] => ret warmed
  | (key, value, ttl, clk) :: entries =>
      await there := on_memory (fun m => memory_exists m key (instant clk 0)) in
      if there : bool then warm_with_entries entries warmed
      else
        await _done := on_memory_ (fun m =>
          memory_set_with_ttl m key value ttl (instant clk 1) (instant clk 2) (unix clk 0)) in
        warm_with_entries entries (warmed + 1)
  end.

Definition dual_memory_len d : Z := memory_len (dc_memory d).
Definition dual_is_memory_empty d : bool := memory_is_empty (dc_memory d).
Definition dual_stats d : CacheStats := mc_stats (dc_memory d).
Definition dual_is_redis_available : dual bool :=
  match the_redis with
  | Some pool => on_redis (fun st => let '(st, b) := redis_is_available pool st in (st, Ok b))
  | None => ret false
  end.
End Dual.
