(* ===== verification/DualCacheBarriers.v ===== *)
(** A value that a conditional deletion removed from the two-tier cache does not
    come back while its barrier lasts: not by a lookup of either layer, not by a
    write, a read-through fill or a warm-up, whatever Redis holds or answers. *)

From S2P Require Import Prelude ProviderErrors GatewayErrors CacheTypes MemoryCache MemoryCacheIndex.
From S2P Require Import MemoryCacheOps MemoryCacheRuns RedisCache DualCache.

#[local] Open Scope redis_scope.

(** * Operations *)

Inductive dual_op (T : Type) :=
| DGet (key : CacheKey) (clk : Clock)
| DGetEntry (key : CacheKey) (clk : Clock)
| DSet (key : CacheKey) (value : T) (ttl : Z) (clk : Clock)
| DSetSize (key : CacheKey) (value : T) (ttl size_bytes : Z) (clk : Clock)
| DDelete (key : CacheKey)
| DDeleteIf (key : CacheKey) (predicate : T -> bool) (clk : Clock)
| DExists (key : CacheKey) (clk : Clock)
| DCleanup (clk : Clock)
| DWarm (keys : list (CacheKey * Clock))
| DClear
| DWarmWith (entries : list (CacheKey * T * Z * Clock)).
Arguments DGet {T} _ _.
Arguments DGetEntry {T} _ _.
Arguments DSet {T} _ _ _ _.
Arguments DSetSize {T} _ _ _ _ _.
Arguments DDelete {T} _.
Arguments DDeleteIf {T} _ _ _.
Arguments DExists {T} _ _.
Arguments DCleanup {T} _.
Arguments DWarm {T} _.
Arguments DClear {T}.
Arguments DWarmWith {T} _.

Section Run.
Context {T Q S : Type} `{LruCache Q} `{RedisCommands S} `{EntryJson T}.
Context (config : DualCacheConfig) (redis_pool : option RedisPool) (write_identity : T -> option Z).

Definition dual_step (o : dual_op T) (d : DualCache T Q S) : DualCache T Q S :=
  match o with
  | DGet key clk => (dual_get config redis_pool write_identity key clk d).1
  | DGetEntry key clk => (dual_get_entry config redis_pool write_identity key clk d).1
  | DSet key value ttl clk => (dual_set_with_ttl config redis_pool write_identity key value ttl clk d).1
  | DSetSize key value ttl size_bytes clk =>
      (dual_set_with_size config redis_pool write_identity key value ttl size_bytes clk d).1
  | DDelete key => (dual_delete config redis_pool key d).1
  | DDeleteIf key predicate clk => (dual_delete_if config redis_pool write_identity key predicate clk d).1
  | DExists key clk => (dual_exists config redis_pool key clk d).1
  | DCleanup clk => (dual_cleanup clk d).1
  | DWarm keys => (warm_from_redis config redis_pool write_identity keys d).1
  | DClear => (dual_clear config redis_pool d).1
  | DWarmWith entries => (warm_with_entries entries 0 d).1
  end.

Definition dual_run (ops : list (dual_op T)) (d : DualCache T Q S) : DualCache T Q S :=
  foldl (fun d o => dual_step o d) d ops.
End Run.

(** * Effects on the memory layer *)

Section Memory.
Context {T Q : Type} `{!LruCache Q} `{!LawfulLruCache Q}.
Implicit Types (c : InMemoryCache T Q) (k : CacheKey) (e : CacheEntry T).

(** [c'] has no entry that [c] has not. *)
Definition shrunk c c' : Prop := index_ok c' /\ mc_cache c' ⊆ mc_cache c.

Lemma dropped_subset c ks c' : dropped c ks c' -> mc_cache c' ⊆ mc_cache c.
Proof.
  intros Hd. apply map_subseteq_spec. intros k e. rewrite (drop_cache _ _ _ Hd). by case_decide.
Qed.

Lemma roomy_subset now c c1 : roomy now c c1 -> mc_cache c1 ⊆ mc_cache c.
Proof.
  intros [[_ ->]|[(_ & _ & Hr)|(_ & _ & cand & e & _ & _ & _ & Hrem & _)]]; [done| |].
  - by rewrite (rs_cache _ _ Hr).
  - rewrite (rem_cache _ _ _ Hrem). apply delete_subseteq.
Qed.

(** The entry a step writes. *)
Definition writes_of (o : memory_op T) : option (CacheKey * CacheEntry T) :=
  match o with
  | OpSet k v ttl _ now2 now_unix => Some (k, entry_new v ttl now2 now_unix)
  | OpSetSize k v ttl size_bytes _ now2 now_unix => Some (k, entry_with_size v ttl now2 now_unix size_bytes)
  | _ => None
  end.

Lemma memory_step_shrunk c o : index_ok c -> writes_of o = None -> shrunk c (memory_step c o).1.
Proof.
  intros Hi Ho. pose proof (memory_step_kind c o Hi) as Hk. split; [by eapply kind_index|].
  destruct Hk as [o k now e c' _ _ _ (Hc & _)|o k now e c' _ _ _ Hd|o k now c' _ _ Hd|
    o k v ttl now1 now2 u e c1 c' Hset _ _|k c' Hd|k p now e c' _ _ _ Hd|k p now c' _ Hd|
    k now e c' _ _ Hd|k now c' _ Hd|c' Hc _ _ _|now c' Hd]; try by eapply dropped_subset.
  - by rewrite Hc.
  - by destruct Hset as [[-> _]|(sz & -> & _)].
  - rewrite Hc. apply map_empty_subseteq.
Qed.

Lemma memory_step_wrote c o k e : index_ok c -> writes_of o = Some (k, e) ->
  index_ok (memory_step c o).1 /\ mc_cache (memory_step c o).1 ⊆ <[k := e]> (mc_cache c).
Proof.
  intros Hi Ho. pose proof (memory_step_kind c o Hi) as Hk. split; [by eapply kind_index|].
  assert (Hlook : forall k' now, o = OpGet k' now \/ o = OpPeek k' now \/
    (exists now2, o = OpGetEntry k' now now2 \/ o = OpPeekEntry k' now now2) -> False)
    by (intros k' now [->|[->|(now2 & [->| ->])]]; done).
  destruct Hk as [o k' now e' c' Hl _ _ _|o k' now e' c' Hl _ _ _|o k' now c' Hl _ _|
    o k' v ttl now1 now2 u e' c1 c' Hset Hroom (Hc & _)| | | | | | |]; try done; try by destruct (Hlook _ _ Hl).
  assert (k' = k /\ e' = e) as [-> ->] by (destruct Hset as [[-> ->]|(sz & -> & ->)]; simpl in Ho; naive_solver).
  rewrite Hc. apply insert_mono. by eapply roomy_subset.
Qed.

(** A lookup's answer is an entry that has not expired. *)
Lemma memory_step_returned c o k now v : index_ok c ->
  o = OpGet k now \/ o = OpPeek k now \/ (exists now2, o = OpGetEntry k now now2 \/ o = OpPeekEntry k now now2) ->
  (memory_step c o).2 = Returned (Some v) ->
  exists e, mc_cache c !! k = Some e /\ entry_is_expired e now = false /\ ce_value e = v.
Proof.
  intros Hi Ho Ha. pose proof (lookup_kind c o k now Hi Ho) as Hk. rewrite Ha in Hk.
  inversion Hk as [o' k' now' e c' Ho' He Hx Ht Heq1 Heq2 Heq3| | | | |k' p now' e c' He Hx Hp Hd Heq1| | | | |]; subst.
  - exists e. assert (k' = k /\ now' = now) as [-> ->] by (destruct Ho as [->|[->|(? & [->| ->])]]; naive_solver).
    done.
  - by destruct Ho as [|[|(? & [|])]].
Qed.
End Memory.

(** * A logic of the operations

    [I] is kept by a computation whose result, if it has one, satisfies [P]. *)

Section Logic.
Context {T Q S : Type} `{!LruCache Q} `{!LawfulLruCache Q} `{!RedisCommands S} `{!EntryJson T}.
Context (config : DualCacheConfig) (redis_pool : option RedisPool) (write_identity : T -> option Z).
Notation cache := (DualCache T Q S).
Notation dual A := (cache -> cache * result A GatewayError).
Implicit Types (d : cache) (key k : CacheKey) (value : T) (e : CacheEntry T) (clk : Clock) (c : InMemoryCache T Q).

Context (I : cache -> Prop) (allowed : CacheKey -> T -> Prop) (timely : Z -> Prop).

Definition keeps_dual {A} (m : dual A) (P : A -> Prop) : Prop :=
  forall d, I d -> I (m d).1 /\ forall x, (m d).2 = Ok x -> P x.

Definition any {A} (_ : A) : Prop := True.

Lemma keeps_ret {A} (x : A) (P : A -> Prop) : P x -> keeps_dual (ret x) P.
Proof. intros HP d Hd. split; [done|]. by intros y [= <-]. Qed.

Lemma keeps_await {A B} (m : dual A) (f : A -> dual B) (P : A -> Prop) (R : B -> Prop) :
  keeps_dual m P -> (forall x, P x -> keeps_dual (f x) R) -> keeps_dual (await x := m in f x) R.
Proof.
  intros Hm Hf d Hd. destruct (Hm d Hd) as [Hd' HP]. destruct (m d) as [d1 [x|er]]; simpl in *.
  - apply Hf; [by apply HP|done].
  - split; [done|]. intros y Hy. done.
Qed.

Lemma keeps_outcome {A B} (m : dual A) (f : result A GatewayError -> dual B) (P : A -> Prop) (R : B -> Prop) :
  keeps_dual m P -> (forall r, (forall x, r = Ok x -> P x) -> keeps_dual (f r) R) ->
  keeps_dual (outcome x := m in f x) R.
Proof.
  intros Hm Hf d Hd. destruct (Hm d Hd) as [Hd' HP]. destruct (m d) as [d1 r]. simpl in *. by apply Hf.
Qed.

Lemma keeps_any {A} (m : dual A) (P : A -> Prop) : keeps_dual m P -> keeps_dual m any.
Proof. intros Hm d Hd. by destruct (Hm d Hd). Qed.

(** What [I] asks of the parts. *)
Record promises : Prop := {
  pr_index d : I d -> index_ok (dc_memory d);
  pr_shrunk d c : I d -> shrunk (dc_memory d) c -> I (mkDual c (dc_server d) (dc_barriers d));
  pr_redis d stats server : I d ->
    I (mkDual (upd_stats (dc_memory d) (fun _ => stats)) server (dc_barriers d));
  pr_write d c k e : I d -> allowed k (ce_value e) -> index_ok c ->
    mc_cache c ⊆ <[k := e]> (mc_cache (dc_memory d)) -> I (mkDual c (dc_server d) (dc_barriers d));
  pr_lookup d k e now : I d -> timely now -> mc_cache (dc_memory d) !! k = Some e ->
    entry_is_expired e now = false -> allowed k (ce_value e);
  pr_blocked key value now : timely now ->
    keeps_dual (is_stale_write_blocked write_identity key value now) (fun b => b = false -> allowed key value);
  pr_install key value now1 now2 : timely now2 ->
    keeps_dual (install config write_identity key value now1 now2) any;
  pr_prune d now : I d -> timely now ->
    I (set_barriers d (prune_expired_barriers_map now (dc_barriers d)));
}.

Context (Hpr : promises).
Let I_index := pr_index Hpr.
Let I_shrunk := pr_shrunk Hpr.
Let I_redis := pr_redis Hpr.
Let I_write := pr_write Hpr.
Let I_lookup := pr_lookup Hpr.
Let I_blocked := pr_blocked Hpr.
Let I_install := pr_install Hpr.
Let I_prune := pr_prune Hpr.

Lemma keeps_redis {A} (m : RedisState S -> RedisState S * result A GatewayError) : keeps_dual (on_redis m) any.
Proof.
  intros d Hd. unfold on_redis. destruct (m _) as [st r]. simpl. split; [by apply I_redis|done].
Qed.

Lemma keeps_memory {A} (m : InMemoryCache T Q -> InMemoryCache T Q * A) (o : memory_op T) (P : A -> Prop) :
  writes_of o = None -> (forall c, (m c).1 = (memory_step c o).1) ->
  (forall d, I d -> P (m (dc_memory d)).2) -> keeps_dual (on_memory m) P.
Proof.
  intros Ho Hm HP d Hd. unfold on_memory. pose proof (Hm (dc_memory d)) as H1. specialize (HP d Hd).
  destruct (m (dc_memory d)) as [c x]. simpl in *. subst c. split.
  - apply I_shrunk; [done|]. apply memory_step_shrunk; [by apply I_index|done].
  - by intros y [= <-].
Qed.

Lemma keeps_write (m : InMemoryCache T Q -> InMemoryCache T Q) key e :
  allowed key (ce_value e) ->
  (forall c, exists o, m c = (memory_step c o).1 /\ writes_of o = Some (key, e)) -> keeps_dual (on_memory_ m) any.
Proof.
  intros Hal Hm d Hd. unfold on_memory_, on_memory. simpl. destruct (Hm (dc_memory d)) as (o & -> & Ho).
  destruct (memory_step_wrote _ _ _ _ (I_index d Hd) Ho) as [Hi Hsub]. split; [by eapply I_write|done].
Qed.

(** The lookups of the memory layer. *)
Definition sound {A} (key : CacheKey) (value_of : A -> T) (r : option A) : Prop :=
  forall x, r = Some x -> allowed key (value_of x).

Lemma keeps_lookup {A} (m : InMemoryCache T Q -> InMemoryCache T Q * option A) (value_of : A -> T) key now o :
  timely now ->
  o = OpGet key now \/ o = OpPeek key now \/ (exists now2, o = OpGetEntry key now now2 \/ o = OpPeekEntry key now now2) ->
  (forall c, memory_step c o = ((m c).1, Returned (value_of <$> (m c).2))) ->
  keeps_dual (on_memory m) (sound key value_of).
Proof.
  intros Hnow Ho Hm. apply (keeps_memory m o).
  - by destruct Ho as [->|[->|(now2 & [->| ->])]].
  - intros c. by rewrite Hm.
  - intros d Hd x Hx. destruct (memory_step_returned (dc_memory d) o key now (value_of x)) as (e & He & Hex & <-);
      [by apply I_index|done|by rewrite Hm, Hx|by eapply I_lookup].
Qed.

Lemma keeps_get key now : timely now -> keeps_dual (on_memory (fun m => memory_get m key now)) (sound key id).
Proof.
  intros Hnow. apply (keeps_lookup _ _ _ now (OpGet key now) Hnow); [by left|]. intros c. simpl.
  destruct (memory_get c key now) as [? [|]]; done.
Qed.
Lemma keeps_peek key now : timely now -> keeps_dual (on_memory (fun m => memory_peek m key now)) (sound key id).
Proof.
  intros Hnow. apply (keeps_lookup _ _ _ now (OpPeek key now) Hnow); [by right; left|]. intros c. simpl.
  destruct (memory_peek c key now) as [? [|]]; done.
Qed.
Lemma keeps_get_entry key now now2 : timely now ->
  keeps_dual (on_memory (fun m => memory_get_entry m key now now2)) (sound key ce_value).
Proof.
  intros Hnow. apply (keeps_lookup _ _ _ now (OpGetEntry key now now2) Hnow); [by eauto|]. intros c. simpl.
  by destruct (memory_get_entry c key now now2).
Qed.
Lemma keeps_peek_entry key now now2 : timely now ->
  keeps_dual (on_memory (fun m => memory_peek_entry m key now now2)) (sound key ce_value).
Proof.
  intros Hnow. apply (keeps_lookup _ _ _ now (OpPeekEntry key now now2) Hnow); [by eauto|]. intros c. simpl.
  by destruct (memory_peek_entry c key now now2).
Qed.

Lemma keeps_exists key now : keeps_dual (on_memory (fun m => memory_exists m key now)) any.
Proof. apply (keeps_memory _ (OpExists key now)); [done| |done]. intros c. simpl. by destruct (memory_exists c key now). Qed.
Lemma keeps_delete key : keeps_dual (on_memory (fun m => memory_delete m key)) any.
Proof. apply (keeps_memory _ (OpDelete key)); [done| |done]. intros c. simpl. by destruct (memory_delete c key). Qed.
Lemma keeps_delete_if key p now : keeps_dual (on_memory (fun m => memory_delete_if m key p now)) any.
Proof.
  apply (keeps_memory _ (OpDeleteIf key p now)); [done| |done]. intros c. simpl.
  by destruct (memory_delete_if c key p now).
Qed.
Lemma keeps_set key value ttl now1 now2 u : allowed key value ->
  keeps_dual (on_memory_ (fun m => memory_set_with_ttl m key value ttl now1 now2 u)) any.
Proof.
  intros Hal. apply (keeps_write _ key (entry_new value ttl now2 u)); [done|].
  intros c. by exists (OpSet key value ttl now1 now2 u).
Qed.
Lemma keeps_set_size key value ttl size now1 now2 u : allowed key value ->
  keeps_dual (on_memory_ (fun m => memory_set_with_size m key value ttl size now1 now2 u)) any.
Proof.
  intros Hal. apply (keeps_write _ key (entry_with_size value ttl now2 u size)); [done|].
  intros c. by exists (OpSetSize key value ttl size now1 now2 u).
Qed.
Lemma keeps_set_default key value now1 now2 u : allowed key value ->
  keeps_dual (on_memory_ (fun m => memory_set m key value now1 now2 u)) any.
Proof.
  intros Hal d Hd.
  destruct (keeps_set key value (default_ttl (mc_config (dc_memory d))) now1 now2 u Hal d Hd) as [HI _].
  by split.
Qed.

(** ** The operations *)

Definition ticking clk : Prop := forall n, timely (instant clk n).

(** One computation after another. *)
Ltac then_ rule :=
  eapply keeps_await; [eapply rule; try match goal with H : ticking _ |- _ => apply H end|].

Lemma keeps_fill key clk : ticking clk ->
  keeps_dual (fill_l1_from_l2 config redis_pool write_identity key clk) (sound key id).
Proof.
  intros Hclk. unfold fill_l1_from_l2. destruct (the_redis _ _) as [pool|]; [|by apply keeps_ret].
  then_ keeps_peek. intros [v|] Hv; [by apply keeps_ret|].
  then_ @keeps_redis. intros [v|] _; [|by apply keeps_ret].
  then_ I_blocked. intros [] Hb; [by apply keeps_ret|].
  eapply keeps_await; [apply keeps_set_default; by apply Hb|]. intros _ _. apply keeps_ret. intros x [= <-]. by apply Hb.
Qed.

Lemma keeps_dual_get key clk : ticking clk -> mode config <> RedisOnly ->
  keeps_dual (dual_get config redis_pool write_identity key clk) (sound key id).
Proof.
  intros Hclk Hmode. unfold dual_get. destruct (mode config); [by apply keeps_get|done|].
  unfold get_dual. then_ keeps_get. intros [v|] Hv; [by apply keeps_ret|].
  destruct (the_redis _ _); [by apply keeps_fill|by apply keeps_ret].
Qed.

Lemma keeps_dual_get_entry key clk : ticking clk -> mode config <> RedisOnly ->
  keeps_dual (dual_get_entry config redis_pool write_identity key clk) (sound key ce_value).
Proof.
  intros Hclk Hmode. unfold dual_get_entry. destruct (mode config); [by apply keeps_get_entry|done|].
  unfold get_entry_dual. then_ keeps_get_entry. intros [v|] Hv; [by apply keeps_ret|].
  destruct (the_redis _ _) as [pool|]; [|by apply keeps_ret].
  then_ keeps_peek_entry. intros [v|] Hv'; [by apply keeps_ret|].
  then_ @keeps_redis. intros [v|] _; [|by apply keeps_ret].
  then_ I_blocked. intros [] Hb; [by apply keeps_ret|].
  eapply keeps_await; [apply keeps_set_size; by apply Hb|]. intros _ _.
  apply keeps_ret. intros x [= <-]. by apply Hb.
Qed.

Lemma keeps_best_effort {A} (m : RedisState S -> RedisState S * result A GatewayError) :
  keeps_dual (best_effort (on_redis m)) any.
Proof. eapply keeps_outcome; [apply keeps_redis|]. intros r _. by apply keeps_ret. Qed.

Lemma keeps_dual_set key value ttl clk : ticking clk ->
  keeps_dual (dual_set_with_ttl config redis_pool write_identity key value ttl clk) any.
Proof.
  intros Hclk. unfold dual_set_with_ttl, set_memory_only, set_dual. destruct (mode config).
  - then_ I_blocked. intros [] Hb; [by apply keeps_ret|]. apply keeps_set. by apply Hb.
  - destruct (the_redis _ _); [apply keeps_redis|by apply keeps_ret].
  - then_ I_blocked. intros [] Hb; [by apply keeps_ret|].
    eapply keeps_await; [apply keeps_set; by apply Hb|]. intros _ _.
    destruct (the_redis _ _); [apply keeps_best_effort|by apply keeps_ret].
Qed.

Lemma keeps_dual_set_size key value ttl size clk : ticking clk ->
  keeps_dual (dual_set_with_size config redis_pool write_identity key value ttl size clk) any.
Proof.
  intros Hclk. unfold dual_set_with_size. destruct (mode config).
  - then_ I_blocked. intros [] Hb; [by apply keeps_ret|]. apply keeps_set_size. by apply Hb.
  - destruct (the_redis _ _); [apply keeps_redis|by apply keeps_ret].
  - then_ I_blocked. intros [] Hb; [by apply keeps_ret|].
    eapply keeps_await; [apply keeps_set_size; by apply Hb|]. intros _ _.
    destruct (the_redis _ _); [apply keeps_best_effort|by apply keeps_ret].
Qed.

Lemma keeps_dual_delete key : keeps_dual (dual_delete config redis_pool key) any.
Proof.
  unfold dual_delete. destruct (mode config); [apply keeps_delete| |].
  - destruct (the_redis _ _); [apply keeps_redis|by apply keeps_ret].
  - then_ keeps_delete. intros b _. destruct (the_redis _ _); [|by apply keeps_ret].
    eapply keeps_outcome; [apply keeps_redis|]. intros res _. by apply keeps_ret.
Qed.

Lemma keeps_dual_delete_if key p clk : ticking clk ->
  keeps_dual (dual_delete_if config redis_pool write_identity key p clk) any.
Proof.
  intros Hclk. unfold dual_delete_if. destruct (mode config).
  - then_ keeps_delete_if. intros [v|] _; [|by apply keeps_ret].
    then_ I_install. intros _ _. by apply keeps_ret.
  - destruct (the_redis _ _); [|by apply keeps_ret].
    then_ @keeps_redis. intros res _. by apply keeps_ret.
  - then_ keeps_delete_if. intros [v|] _.
    + then_ I_install. intros _ _. destruct (the_redis _ _); [|by apply keeps_ret].
      then_ @keeps_redis. intros res _. by apply keeps_ret.
    + destruct (the_redis _ _); [|by apply keeps_ret].
      then_ @keeps_redis. intros [v|] _; [|by apply keeps_ret].
      then_ I_install. intros _ _. by apply keeps_ret.
Qed.

Lemma keeps_dual_exists key clk : keeps_dual (dual_exists config redis_pool key clk) any.
Proof.
  unfold dual_exists. destruct (mode config); [apply keeps_exists| |].
  - destruct (the_redis _ _); [apply keeps_redis|by apply keeps_ret].
  - then_ keeps_exists. intros [] _; [by apply keeps_ret|].
    destruct (the_redis _ _); [apply keeps_redis|by apply keeps_ret].
Qed.

Lemma keeps_dual_cleanup clk : ticking clk -> keeps_dual (dual_cleanup clk) any.
Proof.
  intros Hclk. unfold dual_cleanup. eapply keeps_await.
  - unfold on_memory_. apply (keeps_memory _ (OpCleanup (instant clk 0)) any); done.
  - intros _ _ d Hd. split; [by apply I_prune|done].
Qed.

Lemma keeps_warm_one pool key clk : ticking clk ->
  keeps_dual (warm_one config write_identity pool key clk) any.
Proof.
  intros Hclk. unfold warm_one. then_ keeps_exists. intros [] _; [by apply keeps_ret|].
  then_ keeps_exists. intros [] _; [by apply keeps_ret|].
  eapply keeps_outcome; [apply keeps_redis|]. intros [[v|]|er] _; try by apply keeps_ret.
  then_ I_blocked. intros [] Hb; [by apply keeps_ret|].
  eapply keeps_await; [apply keeps_set_size; by apply Hb|]. intros _ _. by apply keeps_ret.
Qed.

Lemma keeps_warm keys : Forall (fun kc => ticking kc.2) keys ->
  keeps_dual (warm_from_redis config redis_pool write_identity keys) any.
Proof.
  intros Hall. unfold warm_from_redis. destruct (the_redis _ _) as [pool|]; [|by apply keeps_ret].
  case_decide; [by apply keeps_ret|]. generalize 0. revert Hall.
  induction 1 as [|[key clk] keys Hclk _ IH]; intros n; simpl; [by apply keeps_ret|].
  then_ keeps_warm_one. intros b _. apply IH.
Qed.

(** The readings of an operation. *)
Definition op_ticking (o : dual_op T) : Prop :=
  match o with
  | DGet _ clk | DGetEntry _ clk | DSet _ _ _ clk | DSetSize _ _ _ _ clk | DDeleteIf _ _ clk
  | DExists _ clk | DCleanup clk => ticking clk
  | DWarm keys => Forall (fun kc => ticking kc.2) keys
  | DDelete _ | DClear => True
  | DWarmWith entries => Forall (fun ec => ticking ec.2) entries
  end.

(** Every operation but [clear] and [warm_with_entries] keeps [I]. *)
Definition guarded (o : dual_op T) : Prop := match o with DClear | DWarmWith _ => False | _ => True end.

Lemma keeps_step o : op_ticking o -> guarded o -> mode config <> RedisOnly ->
  forall d, I d -> I (dual_step config redis_pool write_identity o d).
Proof.
  intros Ht Hg Hmode d Hd. destruct o; simpl in *; try done.
  - by apply (keeps_dual_get key clk).
  - by apply (keeps_dual_get_entry key clk).
  - by apply (keeps_dual_set key value ttl clk).
  - by apply (keeps_dual_set_size key value ttl size_bytes clk).
  - by apply (keeps_dual_delete key).
  - by apply (keeps_dual_delete_if key predicate clk).
  - by apply (keeps_dual_exists key clk).
  - by apply (keeps_dual_cleanup clk).
  - by apply (keeps_warm keys).
Qed.
End Logic.

(** * The index of the memory layer stays exact *)

Section Healthy.
Context {T Q S : Type} `{!LruCache Q} `{!LawfulLruCache Q} `{!RedisCommands S} `{!EntryJson T}.
Context (config : DualCacheConfig) (redis_pool : option RedisPool) (write_identity : T -> option Z).
Notation cache := (DualCache T Q S).
Implicit Types (d : cache) (key k : CacheKey) (value v : T) (e : CacheEntry T) (clk : Clock).

Definition indexed d : Prop := index_ok (dc_memory d).

Lemma blocked_memory key value now d :
  dc_memory (is_stale_write_blocked write_identity key value now d).1 = dc_memory d.
Proof. unfold is_stale_write_blocked. destruct (dc_barriers d !! key); [|done]. by destruct (live_barriers _ _). Qed.

Lemma install_memory key value now1 now2 d :
  dc_memory (install_stale_write_barrier config write_identity key value now1 now2 d) = dc_memory d.
Proof. unfold install_stale_write_barrier. by destruct (write_identity value). Qed.

Lemma indexed_promises : promises config write_identity indexed (fun _ _ => True) (fun _ => True).
Proof.
  split; try done.
  - by intros d c _ [Hc _].
  - intros key value now _ d Hd. unfold indexed. by rewrite blocked_memory.
  - intros key value now1 now2 _ d Hd. unfold indexed. simpl. by rewrite install_memory.
Qed.

Lemma indexed_step o d : indexed d -> mode config <> RedisOnly ->
  indexed (dual_step config redis_pool write_identity o d).
Proof.
  intros Hd Hmode. pose proof indexed_promises as HP.
  assert (guarded o \/ ~ guarded o) as [Hg|Hg] by (destruct o; simpl; tauto).
  { eapply keeps_step; try done. destruct o; simpl; try done. by apply Forall_forall. }
  destruct o as [| | | | | | | | | |entries]; simpl in *; try done; clear Hg.
  - unfold dual_clear. destruct (if decide _ then _ else _) as [pool|].
    + eapply (keeps_await indexed _ (fun _ => await _deleted := on_redis (redis_clear pool config) in
        fun d => (set_barriers d ∅, Ok tt)) any any); [|intros _ _|done].
      * by eapply (keeps_memory _ _ _ _ _ HP _ OpClear any).
      * eapply (keeps_await indexed _ _ any any); [by eapply keeps_redis|]. by intros _ _ d' Hd'.
    + eapply (keeps_await indexed _ (fun _ d => (set_barriers d ∅, Ok tt)) any any); [|by intros _ _ d' Hd'|done].
      by eapply (keeps_memory _ _ _ _ _ HP _ OpClear any).
  - revert d Hd. generalize 0. induction entries as [|[[[key value] ttl] clk] entries IH]; intros n d Hd; [done|].
    cbn [warm_with_entries].
    eapply (keeps_await indexed _ _ any any); [by eapply keeps_exists| |done].
    intros [] _; [intros d' Hd'; split; [by apply IH|done]|].
    eapply (keeps_await indexed _ _ any any); [by eapply keeps_set|].
    intros _ _ d' Hd'. split; [by apply IH|done].
Qed.

Lemma indexed_run ops d : indexed d -> mode config <> RedisOnly ->
  indexed (dual_run config redis_pool write_identity ops d).
Proof.
  intros Hd Hmode. unfold dual_run. revert d Hd. induction ops as [|o ops IH]; intros d Hd; [done|].
  simpl. apply IH. by apply indexed_step.
Qed.

Lemma indexed_new p server : indexed (dual_new config p server : cache).
Proof. apply healthy_new. Qed.
End Healthy.

(** * A barred identity *)

Section Barred.
Context {T Q S : Type} `{!LruCache Q} `{!LawfulLruCache Q} `{!RedisCommands S} `{!EntryJson T}.
Context (config : DualCacheConfig) (redis_pool : option RedisPool) (write_identity : T -> option Z).
Notation cache := (DualCache T Q S).
Implicit Types (d : cache) (key : CacheKey) (value v : T) (e : CacheEntry T) (clk : Clock).

(** The key, the identity, since when and until when. *)
Context (k : CacheKey) (identity since until : Z).

Definition barred d : Prop := exists bs b, dc_barriers d !! k = Some bs /\ b ∈ bs /\
  sb_identity b = identity /\ until <= sb_expires_at b.

Definition gone d : Prop := forall e, mc_cache (dc_memory d) !! k = Some e ->
  entry_is_expired e since = false -> write_identity (ce_value e) <> Some identity.

Definition held d : Prop := index_ok (dc_memory d) /\ barred d /\ gone d.
Definition other key value : Prop := key = k -> write_identity value <> Some identity.
Definition in_time (now : Z) : Prop := since <= now < until.

Lemma has_identity_in b bs : b ∈ bs -> has_identity (sb_identity b) bs = true.
Proof.
  intros Hb. unfold has_identity. apply existsb_exists. exists b. split; [by apply list_elem_of_In|apply Z.eqb_refl].
Qed.

Lemma live_in now b bs : b ∈ bs -> now < sb_expires_at b -> b ∈ live_barriers now bs.
Proof. intros Hb Hn. by apply list_elem_of_filter. Qed.

Lemma barred_other d b key bs : key <> k -> barred d -> dc_barriers b = <[key := bs]> (dc_barriers d) -> barred b.
Proof. intros Hne (bs0 & b0 & Hbs & Hrest) Hb. exists bs0, b0. by rewrite Hb, lookup_insert_ne. Qed.

Lemma held_blocked key value now : in_time now ->
  keeps_dual held (is_stale_write_blocked write_identity key value now) (fun b => b = false -> other key value).
Proof.
  intros [_ Hnow] d (Hi & Hb & Hg). unfold held, other, gone.
  rewrite (blocked_memory write_identity key value now d).
  destruct (decide (key = k)) as [->|Hne].
  - destruct Hb as (bs & b & Hbs & Hin & Hid & Hu). unfold is_stale_write_blocked. rewrite Hbs.
    assert (Hlive : b ∈ live_barriers now bs) by (apply live_in; [done|lia]).
    pose proof (has_identity_in _ _ Hlive) as Hhas. rewrite Hid in Hhas.
    destruct (live_barriers now bs) as [|b1 bs1] eqn:Hl; [set_solver|]. split.
    + split; [done|]. split; [|done]. exists (b1 :: bs1), b. simpl. by rewrite lookup_insert_eq.
    + intros x Hok Hx _ Hv. cbn [snd] in Hok. rewrite Hv, Hhas in Hok. congruence.
  - split; [|by intros x _ _ ->]. split; [done|]. split; [|done].
    unfold is_stale_write_blocked. destruct (dc_barriers d !! key) as [bs|]; [|done].
    destruct (live_barriers now bs) as [|b1 bs1]; simpl; [|by eapply barred_other].
    destruct Hb as (bs0 & b0 & Hbs & Hrest). exists bs0, b0. simpl. by rewrite lookup_delete_ne.
Qed.

Lemma held_install key value now1 now2 : in_time now2 ->
  keeps_dual held (install config write_identity key value now1 now2) any.
Proof.
  intros [_ Hnow] d (Hi & Hb & Hg). split; [|done]. unfold held, gone. simpl.
  rewrite install_memory. split; [done|]. split; [|done].
  unfold install_stale_write_barrier. destruct (write_identity value) as [id|]; [|done].
  destruct (decide (key = k)) as [->|Hne]; [|by eapply barred_other].
  destruct Hb as (bs & b & Hbs & Hin & Hid & Hu). rewrite Hbs.
  assert (Hlive : b ∈ live_barriers now2 bs) by (apply live_in; [done|lia]).
  eexists _, b. simpl. rewrite lookup_insert_eq. split; [done|]. split; [|done].
  destruct (has_identity _ _); [done|]. set_solver.
Qed.

Lemma held_promises : promises config write_identity held other in_time.
Proof.
  split.
  - by intros d [Hi _].
  - intros d c (_ & Hb & Hg) [Hc Hsub]. split; [done|]. split; [done|].
    intros e He. simpl in He. apply Hg. by eapply lookup_weaken.
  - intros d stats server (Hi & Hb & Hg). done.
  - intros d c k' e (_ & Hb & Hg) Hal Hc Hsub. split; [done|]. split; [done|].
    intros e' He' Hx. simpl in He'. pose proof (lookup_weaken _ _ _ _ He' Hsub) as Hi.
    apply lookup_insert_Some in Hi as [[Hk ->]|[Hne Hi]]; [by apply Hal|by apply Hg].
  - intros d k' e now (_ & _ & Hg) [Hs _] He Hx ->. apply Hg; [done|].
    destruct (entry_is_expired e since) eqn:Hx'; [|done].
    by rewrite (expired_monotone e since now Hs Hx') in Hx.
  - intros key value now. apply held_blocked.
  - intros key value now1 now2. apply held_install.
  - intros d now (Hi & (bs & b & Hbs & Hin & Hid & Hu) & Hg) [_ Hnow]. split; [done|]. split; [|done].
    exists (live_barriers now bs), b. simpl.
    assert (Hlive : b ∈ live_barriers now bs) by (apply live_in; [done|lia]).
    split; [|done]. unfold prune_expired_barriers_map. apply map_lookup_filter_Some.
    rewrite lookup_fmap, Hbs. split; [done|]. simpl. intros Hnil. rewrite Hnil in Hlive. set_solver.
Qed.

Lemma held_run ops d : mode config <> RedisOnly -> held d ->
  Forall (fun o => guarded o /\ op_ticking in_time o) ops ->
  held (dual_run config redis_pool write_identity ops d).
Proof.
  intros Hmode Hd Hall. unfold dual_run. revert d Hd. induction Hall as [|o ops [Hg Ht] _ IH]; intros d Hd; [done|].
  simpl. apply IH. by eapply keeps_step; [apply held_promises|..].
Qed.
End Barred.

(** * The deletion *)

Section Deletion.
Context {T Q S : Type} `{!LruCache Q} `{!LawfulLruCache Q} `{!RedisCommands S} `{!EntryJson T}.
Context (config : DualCacheConfig) (redis_pool : option RedisPool) (write_identity : T -> option Z).
Notation cache := (DualCache T Q S).
Implicit Types (d : cache) (k : CacheKey) (v : T) (e : CacheEntry T) (clk : Clock) (p : T -> bool).

(** [cas_delete] only deletes what satisfies the predicate. *)
Lemma cas_delete_satisfies pool redis_key p now_unix attempts (st : RedisState S) v :
  (cas_delete pool redis_key p now_unix attempts st).2 = Ok (Some v) -> p v = true.
Proof.
  revert st. induction attempts as [|n IH]; intros st; simpl; [done|].
  destruct (on_server _ st) as [st1 [[data|]|er]]; simpl; try done.
  destruct (entry_from_str data) as [entry|].
  - destruct (serializable_is_expired _ _).
    + destruct (on_server _ st1) as [st2 [[]|er]]; simpl; try done. apply IH.
    + destruct (p (se_value entry)) eqn:Hp; simpl; [|done].
      destruct (on_server _ st1) as [st2 [[]|er]]; simpl; try done; [|apply IH]. by intros [= <-].
  - destruct (on_server _ st1) as [st2 [[]|er]]; simpl; try done. apply IH.
Qed.

Lemma delete_if_satisfies pool k p now_unix (st : RedisState S) v :
  (redis_delete_if pool config k p now_unix st).2 = Ok (Some v) -> p v = true.
Proof. unfold redis_delete_if. destruct (noop_mode pool); [done|]. apply cas_delete_satisfies. Qed.

(** A call of the Redis layer only changes the counters of the memory layer. *)
Lemma on_redis_frame {A} (m : RedisState S -> RedisState S * result A GatewayError) d :
  (on_redis m d).2 = (m (mkRedisState (dc_server d) (mc_stats (dc_memory d)))).2 /\
  (exists f, dc_memory (on_redis m d).1 = upd_stats (dc_memory d) f) /\
  dc_barriers (on_redis m d).1 = dc_barriers d.
Proof. unfold on_redis. destruct (m _) as [st r]. simpl. eauto. Qed.

(** [delete_if] removes [v], from the memory layer or else from Redis. *)
Definition removes d k p clk v : Prop :=
  let '(m, r) := memory_delete_if (dc_memory d) k p (instant clk 0) in
  r = Some v \/
  r = None /\ mode config = Dual /\ exists pool, the_redis config redis_pool = Some pool /\
    (on_redis (redis_delete_if pool config k p (unix clk)) (mkDual m (dc_server d) (dc_barriers d))).2 = Ok (Some v).

Lemma removes_from_memory d k p clk v :
  (memory_delete_if (dc_memory d) k p (instant clk 0)).2 = Some v -> removes d k p clk v.
Proof. unfold removes. destruct (memory_delete_if _ _ _ _) as [m r]. by left. Qed.

(** How long its identity is barred: an earlier barrier that is still live is not
    prolonged. *)
Definition barred_until d k (identity now1 now2 : Z) : Z :=
  match List.find (fun b => sb_identity b =? identity)
          (live_barriers now2 (default [] (dc_barriers d !! k))) with
  | Some b => sb_expires_at b
  | None => now1 + default_ttl config
  end.

Lemma install_bars d k v identity now1 now2 : write_identity v = Some identity ->
  barred k identity (barred_until d k identity now1 now2)
    (install_stale_write_barrier config write_identity k v now1 now2 d).
Proof.
  intros Hv. unfold barred, barred_until, install_stale_write_barrier. rewrite Hv. simpl. rewrite lookup_insert_eq.
  destruct (dc_barriers d !! k) as [bs|]; simpl.
  2: { eexists _, _. split; [done|]. split; [by left|]. simpl. done. }
  destruct (List.find _ (live_barriers now2 bs)) as [b|] eqn:Hf.
  - apply find_some in Hf as [Hin%list_elem_of_In Hid%Z.eqb_eq]. subst identity.
    exists (live_barriers now2 bs), b. by rewrite (has_identity_in _ _ Hin).
  - eexists _, (mkBarrier identity (now1 + default_ttl config)). split; [done|]. split; [|done].
    destruct (has_identity identity (live_barriers now2 bs)) eqn:Hh; [|set_solver].
    apply existsb_exists in Hh as (b & Hin & Hid). by rewrite (find_none _ _ Hf b Hin) in Hid.
Qed.

(** What the deletion leaves: the barrier, and no live entry of that identity. *)
Lemma delete_if_holds d k p clk v identity :
  index_ok (dc_memory d) -> mode config <> RedisOnly ->
  (forall x, write_identity x = Some identity -> p x = p v) ->
  instant clk 0 <= instant clk 2 -> write_identity v = Some identity -> removes d k p clk v ->
  held write_identity k identity (instant clk 2) (barred_until d k identity (instant clk 1) (instant clk 2))
    (dual_delete_if config redis_pool write_identity k p clk d).1.
Proof.
  intros Hi Hmode Hp Hclk Hid Hrem. unfold removes in Hrem.
  pose proof (memory_step_kind (dc_memory d) (OpDeleteIf k p (instant clk 0)) Hi) as Hk. simpl in Hk.
  destruct (memory_delete_if (dc_memory d) k p (instant clk 0)) as [m r] eqn:Hm. simpl in Hk.
  set (until := barred_until d k identity (instant clk 1) (instant clk 2)).
  assert (Hinstall : index_ok m -> gone write_identity k identity (instant clk 2) (mkDual m (dc_server d) (dc_barriers d)) ->
    forall d0, dc_memory d0 = m \/ (exists s, dc_memory d0 = upd_stats m s) -> dc_barriers d0 = dc_barriers d ->
    held write_identity k identity (instant clk 2) until
      (install_stale_write_barrier config write_identity k v (instant clk 1) (instant clk 2) d0)).
  { intros Him Hgone d0 Hd0 Hb0. unfold held, gone. rewrite install_memory.
    split; [destruct Hd0 as [->|[s ->]]; exact Him|]. split.
    - assert (until = barred_until d0 k identity (instant clk 1) (instant clk 2)) as -> by
        (unfold until, barred_until; by rewrite Hb0). by apply install_bars.
    - intros e He Hx. apply Hgone; [|done]. by destruct Hd0 as [Hd0|[s Hd0]]; rewrite Hd0 in He. }
  assert (Hfound : r = Some v -> index_ok m /\ gone write_identity k identity (instant clk 2) (mkDual m (dc_server d) (dc_barriers d))).
  { intros ->. inversion Hk as [| | | | |k' p' now e c' He Hx Hpe Hd Heq1| | | | |]; subst;
      [by destruct_or!; naive_solver|].
    split; [by apply Hd|]. intros e' He'. simpl in He'. rewrite (drop_cache _ _ _ Hd), decide_True in He' by set_solver. done. }
  assert (Hother : r = None -> p v = true -> index_ok m /\ gone write_identity k identity (instant clk 2) (mkDual m (dc_server d) (dc_barriers d))).
  { intros -> Hpv. inversion Hk as [|o' k' now e c' Ho|o' k' now c' Ho| | | |k' p' now c' Hnot Hd Heq1| | | |]; subst;
      [by destruct_or!; naive_solver|by destruct_or!; naive_solver|].
    split; [by apply Hd|]. intros e He Hx Hide. simpl in He. rewrite (drop_cache _ _ _ Hd), decide_False in He by set_solver.
    assert (Hx0 : entry_is_expired e (instant clk 0) = false).
    { destruct (entry_is_expired e (instant clk 0)) eqn:Hx0; [|done]. by rewrite (expired_monotone e _ _ Hclk Hx0) in Hx. }
    specialize (Hnot e He Hx0). by rewrite (Hp _ Hide), Hpv in Hnot. }
  unfold dual_delete_if, on_memory. destruct (mode config) eqn:Hmd; [|done|]; cbn beta; rewrite Hm.
  - destruct Hrem as [->|(_ & ? & _)]; [|done]. destruct (Hfound eq_refl) as [Him Hg]. simpl.
    apply Hinstall; [done|done|by left|done].
  - destruct Hrem as [->|(-> & _ & pool & Hpool & Hr)].
    + destruct (Hfound eq_refl) as [Him Hg]. simpl.
      destruct (the_redis config redis_pool) as [pool|]; simpl; [|apply Hinstall; [done|done|by left|done]].
      assert (Hh : held write_identity k identity (instant clk 2) until
        (install_stale_write_barrier config write_identity k v (instant clk 1) (instant clk 2)
           (mkDual m (dc_server d) (dc_barriers d)))) by (apply Hinstall; [done|done|by left|done]).
      pose proof (keeps_redis config write_identity _ _ _ (held_promises config write_identity k identity (instant clk 2) until)
        (redis_delete_if pool config k (fun _ => true) (unix clk)) _ Hh) as [Hh' _].
      by destruct (on_redis _ _) as [d1 [x|er]].
    + simpl. rewrite Hpool.
      pose proof (on_redis_frame (redis_delete_if pool config k p (unix clk))
        (mkDual m (dc_server d) (dc_barriers d))) as (Hres & (f & Hmem) & Hbar). rewrite Hres in Hr.
      destruct (Hother eq_refl (delete_if_satisfies _ _ _ _ _ _ Hr)) as [Him Hg].
      rewrite Hr in Hres. destruct (on_redis _ _) as [d1 r1]. cbn [fst snd dc_memory dc_barriers] in *.
      rewrite Hres. simpl.
      apply Hinstall; [done|done| |done]. right. by exists f.
Qed.
End Deletion.

Section Guarantee.
Context {T Q S : Type} `{!LruCache Q} `{!LawfulLruCache Q} `{!RedisCommands S} `{!EntryJson T}.
Context (config : DualCacheConfig) (redis_pool : option RedisPool) (write_identity : T -> option Z).

(** C25: once [delete_if] has removed a value from the memory layer or from Redis,
    no lookup of that key returns a value of the same identity until the barrier
    expires, whatever operations run in between (but [clear], which lifts the
    barriers, and [warm_with_entries], which ignores them) and whatever Redis
    answers.  The barrier lasts the default time to live, from this deletion or
    from an earlier one of the same identity whose barrier is still live.  The
    predicate may not tell apart values of that identity. *)
Theorem deleted_value_barred (available_parallelism : option Z) (server : S) (before after : list (dual_op T))
    (k : CacheKey) (predicate : T -> bool) (clk clk' : Clock) (v : T) (identity : Z) :
  let deleted := dual_run config redis_pool write_identity before
                   (dual_new config available_parallelism server : DualCache T Q S) in
  let until := barred_until config deleted k identity (instant clk 1) (instant clk 2) in
  let now := dual_run config redis_pool write_identity after
               (dual_delete_if config redis_pool write_identity k predicate clk deleted).1 in
  mode config <> RedisOnly ->
  write_identity v = Some identity ->
  (forall x, write_identity x = Some identity -> predicate x = predicate v) ->
  instant clk 0 <= instant clk 2 ->
  removes config redis_pool deleted k predicate clk v ->
  Forall (fun o => guarded o /\ op_ticking (in_time (instant clk 2) until) o) after ->
  ticking (in_time (instant clk 2) until) clk' ->
  (forall x, (dual_get config redis_pool write_identity k clk' now).2 = Ok (Some x) ->
     write_identity x <> Some identity) /\
  (forall e, (dual_get_entry config redis_pool write_identity k clk' now).2 = Ok (Some e) ->
     write_identity (ce_value e) <> Some identity).
Proof.
  intros deleted until now Hmode Hid Hp Hclk Hrem Hafter Hclk'.
  assert (Hi : indexed deleted) by (apply indexed_run; [apply indexed_new|done]).
  pose proof (delete_if_holds config redis_pool write_identity deleted k predicate clk v identity
                Hi Hmode Hp Hclk Hid Hrem) as Hheld.
  pose proof (held_run config redis_pool write_identity k identity (instant clk 2) until after _ Hmode Hheld Hafter) as Hnow.
  pose proof (held_promises config write_identity (S := S) (Q := Q) k identity (instant clk 2) until) as Hpr.
  split; intros x Hx.
  - destruct (keeps_dual_get config redis_pool write_identity _ _ _ Hpr k clk' Hclk' Hmode _ Hnow) as [_ Hget].
    by apply (Hget _ Hx x).
  - destruct (keeps_dual_get_entry config redis_pool write_identity _ _ _ Hpr k clk' Hclk' Hmode _ Hnow) as [_ Hget].
    by apply (Hget _ Hx x).
Qed.
End Guarantee.

(** A Redis that always answers the same entry and claims to delete it. *)
#[local] Instance stubborn_redis : RedisCommands unit := {|
  cmd_get _ st := (st, Ok (Some "entry"));
  cmd_mget keys st := (st, Ok (map (fun _ => Some "entry") keys));
  cmd_set_ex _ _ _ st := (st, Ok tt);
  cmd_set _ _ st := (st, Ok tt);
  cmd_del _ st := (st, Ok tt);
  cmd_del_if_equals _ _ st := (st, Ok 1);
  cmd_scan_del _ st := (st, Ok 0);
  cmd_exists _ st := (st, Ok true);
  cmd_ttl _ st := (st, Ok 100);
  cmd_ping st := (st, Ok tt);
|}.

#[local] Instance stubborn_json : EntryJson Z := {|
  entry_to_string _ := inr "entry";
  entry_from_str _ := Some (mkSerializable 7 3600 0 u64_max 0 0);
|}.

Definition at_time (now : Z) : Clock := mkClock (fun _ => now) (fun _ => now).

Definition some_key : CacheKey := mkCacheKey "k" 5.

Definition some_pool : option RedisPool := Some (mkPool false false).

Definition before_ops : list (dual_op Z) := [DSet some_key 7 100 (at_time 0)].
Definition after_ops : list (dual_op Z) := [DSet some_key 7 100 (at_time 20); DGet some_key (at_time 30)].

Lemma deleted_value_barred_witness :
  let deleted := dual_run DualCacheConfig_default some_pool Some before_ops
                   (dual_new DualCacheConfig_default (Some 4) tt : DualCache Z (list CacheKey) unit) in
  let now := dual_run DualCacheConfig_default some_pool Some after_ops
               (dual_delete_if DualCacheConfig_default some_pool Some some_key (Z.eqb 7) (at_time 10) deleted).1 in
  barred_until DualCacheConfig_default deleted some_key 7 10 10 = 10 + from_secs 3600 /\
  (dual_get DualCacheConfig_default some_pool Some some_key (at_time 40) now).2 = Ok None /\
  (forall x, (dual_get DualCacheConfig_default some_pool Some some_key (at_time 40) now).2 = Ok (Some x) ->
     Some x <> Some 7).
Proof.
  intros deleted now. split; [by vm_compute|]. split; [by vm_compute|].
  apply (deleted_value_barred DualCacheConfig_default some_pool Some (Some 4) tt before_ops after_ops
    some_key (Z.eqb 7) (at_time 10) (at_time 40) 7 7).
  - done.
  - done.
  - intros x [= ->]. done.
  - done.
  - apply removes_from_memory. by vm_compute.
  - repeat constructor; by vm_compute.
  - intros n. by vm_compute.
Defined.
