(* ===== verification/DualCacheLocks.v ===== *)
(** The per-key locks of the two-tier cache ([core/cache/dual.rs]): the map of
    mutexes, the leases on them and what [clear] does to the map.

    A mutex is a number, made when a key is first leased.  Each step is one access
    of the map, atomic under its shard's lock, or one [Arc] dropped. *)

From S2P Require Import Prelude CacheTypes.

(** Who holds [Arc]s of mutexes, or has still to look at the map. *)
Inductive holder :=
| Leased (key : CacheKey) (mutex : nat)                   (* an [L1FillLockLease] *)
| Releasing (key : CacheKey)                              (* its [drop], before [remove_if] *)
| Clearing (clones : list (CacheKey * nat))               (* [clear], up to [drop(guards)] *)
| ClearDropping (clones : list (CacheKey * nat))          (* [drop(active_locks)] *)
| ClearRetaining (todo : gset CacheKey).                  (* the last [retain], the entries left *)

Record LockState := mkLocks {
  l1_fill_locks : gmap CacheKey nat;
  next_mutex : nat;
  holders : list holder;
}.

(** The mutexes a holder has an [Arc] of, each with its key. *)
Definition arcs (h : holder) : list (CacheKey * nat) :=
  match h with
  | Leased key mutex => [(key, mutex)]
  | Clearing clones | ClearDropping clones => clones
  | Releasing _ | ClearRetaining _ => []
  end.

(** [Arc::strong_count] of a mutex in the map: the map's own and the holders'. *)
Definition strong_count (s : LockState) (mutex : nat) : nat :=
  S (length (filter (fun km => km.2 = mutex) (concat (arcs <$> holders s)))).

(** [entry(key).or_insert_with(..).clone()]. *)
Definition acquire_lease (key : CacheKey) (s : LockState) : LockState :=
  match l1_fill_locks s !! key with
  | Some mutex => mkLocks (l1_fill_locks s) (next_mutex s) (Leased key mutex :: holders s)
  | None =>
      mkLocks (<[key := next_mutex s]> (l1_fill_locks s)) (S (next_mutex s))
        (Leased key (next_mutex s) :: holders s)
  end.

(** [remove_if(key, |_, existing| strong_count(existing) == 1)]. *)
Definition remove_unused (key : CacheKey) (s : LockState) : gmap CacheKey nat :=
  match l1_fill_locks s !! key with
  | Some mutex => if decide (strong_count s mutex = 1%nat) then delete key (l1_fill_locks s) else l1_fill_locks s
  | None => l1_fill_locks s
  end.

(** One entry of [retain(|_, lock| strong_count(lock) > 1)]. *)
Definition retain_one (key : CacheKey) (s : LockState) : gmap CacheKey nat :=
  match l1_fill_locks s !! key with
  | Some mutex => if decide (1 < strong_count s mutex)%nat then l1_fill_locks s else delete key (l1_fill_locks s)
  | None => l1_fill_locks s
  end.

(** [fails] allows [clear] to end early, on an error of Redis or when its future
    is dropped: its [Arc]s go, and [retain] is not reached. *)
Inductive lock_step (fails : bool) : LockState -> LockState -> Prop :=
| step_acquire key s : lock_step fails s (acquire_lease key s)
| step_drop_arc locks next before key mutex after :
    lock_step fails (mkLocks locks next (before ++ Leased key mutex :: after))
      (mkLocks locks next (before ++ Releasing key :: after))
| step_release locks next before key after :
    let s := mkLocks locks next (before ++ after) in
    lock_step fails (mkLocks locks next (before ++ Releasing key :: after))
      (mkLocks (remove_unused key s) next (before ++ after))
| step_clear_begin s : lock_step fails s (mkLocks (l1_fill_locks s) (next_mutex s) (Clearing [] :: holders s))
| step_clear_clone locks next before clones after key mutex :
    locks !! key = Some mutex ->
    lock_step fails (mkLocks locks next (before ++ Clearing clones :: after))
      (mkLocks locks next (before ++ Clearing ((key, mutex) :: clones) :: after))
| step_clear_done locks next before clones after :
    lock_step fails (mkLocks locks next (before ++ Clearing clones :: after))
      (mkLocks locks next (before ++ ClearDropping clones :: after))
| step_clear_drop locks next before clone clones after :
    lock_step fails (mkLocks locks next (before ++ ClearDropping (clone :: clones) :: after))
      (mkLocks locks next (before ++ ClearDropping clones :: after))
| step_retain_begin locks next before after :
    lock_step fails (mkLocks locks next (before ++ ClearDropping [] :: after))
      (mkLocks locks next (before ++ ClearRetaining (dom locks) :: after))
| step_retain locks next before todo after key :
    (* an entry made meanwhile may be visited too *)
    let s := mkLocks locks next (before ++ ClearRetaining (todo ∖ {[key]}) :: after) in
    lock_step fails (mkLocks locks next (before ++ ClearRetaining todo :: after))
      (mkLocks (retain_one key s) next (before ++ ClearRetaining (todo ∖ {[key]}) :: after))
| step_retain_done locks next before after :
    lock_step fails (mkLocks locks next (before ++ ClearRetaining ∅ :: after))
      (mkLocks locks next (before ++ after))
| step_clear_failed locks next before clones after :
    fails = true ->
    lock_step fails (mkLocks locks next (before ++ Clearing clones :: after))
      (mkLocks locks next (before ++ after)).

(** * The invariant *)

Definition all_arcs (s : LockState) : list (CacheKey * nat) := concat (arcs <$> holders s).

(** Who will still look at the entry of a key. *)
Definition will_visit (key : CacheKey) (h : holder) : Prop :=
  match h with
  | Leased key' _ | Releasing key' => key' = key
  | Clearing _ | ClearDropping _ => True
  | ClearRetaining todo => key ∈ todo
  end.

Record lock_inv (fails : bool) (s : LockState) : Prop := {
  li_current key mutex : (key, mutex) ∈ all_arcs s -> l1_fill_locks s !! key = Some mutex;
  li_fresh key mutex : l1_fill_locks s !! key = Some mutex -> (mutex < next_mutex s)%nat;
  li_inj key key' mutex : l1_fill_locks s !! key = Some mutex -> l1_fill_locks s !! key' = Some mutex -> key = key';
  li_visited key : fails = false -> is_Some (l1_fill_locks s !! key) -> exists h, h ∈ holders s /\ will_visit key h;
}.

Lemma all_arcs_app locks next before h after :
  all_arcs (mkLocks locks next (before ++ h :: after)) ≡ₚ arcs h ++ all_arcs (mkLocks locks next (before ++ after)).
Proof.
  unfold all_arcs. simpl. rewrite !fmap_app, fmap_cons, !concat_app. simpl.
  by rewrite Permutation_app_swap_app.
Qed.

(** A mutex whose count is one has no holder, and the other way round. *)
Lemma strong_count_one s mutex : strong_count s mutex = 1%nat <-> forall key, (key, mutex) ∉ all_arcs s.
Proof.
  unfold strong_count. fold (all_arcs s). split.
  - intros Hc key Hin. assert (Hf : (key, mutex) ∈ filter (fun km => km.2 = mutex) (all_arcs s))
      by by apply list_elem_of_filter.
    destruct (filter _ (all_arcs s)); [set_solver|done].
  - intros Hno. f_equal. destruct (filter _ (all_arcs s)) as [|[key m] l] eqn:Hf; [done|].
    assert (Hin : (key, m) ∈ filter (fun km => km.2 = mutex) (all_arcs s)) by (rewrite Hf; by left).
    apply list_elem_of_filter in Hin as [Hm Hin]. simpl in Hm. subst. by destruct (Hno key).
Qed.

(** Both ways of taking an entry out take it only when nobody holds it. *)
Definition pruned (key : CacheKey) (s : LockState) (locks : gmap CacheKey nat) : Prop :=
  locks = l1_fill_locks s /\ (forall mutex, l1_fill_locks s !! key = Some mutex -> exists k, (k, mutex) ∈ all_arcs s) \/
  locks = delete key (l1_fill_locks s) /\ forall mutex, l1_fill_locks s !! key = Some mutex ->
    forall k, (k, mutex) ∉ all_arcs s.

Lemma held_arc s mutex : strong_count s mutex <> 1%nat -> exists k, (k, mutex) ∈ all_arcs s.
Proof.
  unfold strong_count. fold (all_arcs s). intros Hc.
  destruct (filter _ (all_arcs s)) as [|[key m] l] eqn:Hf; [done|].
  assert (Hin : (key, m) ∈ filter (fun km => km.2 = mutex) (all_arcs s)) by (rewrite Hf; by left).
  apply list_elem_of_filter in Hin as [Hm Hin]. simpl in Hm. subst. eauto.
Qed.

Lemma remove_unused_pruned key s : pruned key s (remove_unused key s).
Proof.
  unfold pruned, remove_unused. destruct (l1_fill_locks s !! key) as [m|] eqn:Hk; [|left; done].
  case_decide as Hc; [right|left]; (split; [done|]); intros mutex [= <-].
  - by apply strong_count_one.
  - by apply held_arc.
Qed.

Lemma retain_one_pruned key s : pruned key s (retain_one key s).
Proof.
  unfold pruned, retain_one. destruct (l1_fill_locks s !! key) as [m|] eqn:Hk; [|left; done].
  assert (strong_count s m <> 0%nat) by (unfold strong_count; lia).
  case_decide as Hc; [left|right]; (split; [done|]); intros mutex [= <-].
  - apply held_arc. lia.
  - apply strong_count_one. lia.
Qed.

(** A holder that goes or changes, the map being pruned at [key]: those that
    remain still hold current mutexes and visit the other entries. *)
Lemma inv_pruned fails locks next hs hs' key locks' s :
  lock_inv fails (mkLocks locks next hs) -> s = mkLocks locks next hs' ->
  (forall km, km ∈ all_arcs s -> km ∈ all_arcs (mkLocks locks next hs)) ->
  pruned key s locks' ->
  (forall k, k <> key -> fails = false -> forall h, h ∈ hs -> will_visit k h -> exists h', h' ∈ hs' /\ will_visit k h') ->
  (forall k m, (k, m) ∈ all_arcs s -> exists h', h' ∈ hs' /\ will_visit k h') ->
  lock_inv fails (mkLocks locks' next hs').
Proof.
  intros [Hc Hf Hi Hv] -> Harcs Hpr Hvis Hheld. simpl in *.
  assert (Hsub : forall k m, locks' !! k = Some m -> locks !! k = Some m).
  { intros k m Hk. destruct Hpr as [[-> _]|[-> _]]; [done|]. by apply lookup_delete_Some in Hk as [_ ?]. }
  split; simpl.
  - intros k m Hin. pose proof (Hc k m (Harcs _ Hin)) as Hk. destruct Hpr as [[-> _]|[-> Hno]]; [done|].
    rewrite lookup_delete_ne; [done|]. intros ->. by apply (Hno m Hk k).
  - intros k m Hk. by eapply Hf, Hsub.
  - intros k k' m Hk Hk'. eapply Hi; by apply Hsub.
  - intros k Hfails [m Hk]. destruct (decide (k = key)) as [->|Hne].
    + destruct Hpr as [[-> Hex]|[-> _]]; [|by rewrite lookup_delete_eq in Hk].
      destruct (Hex m Hk) as [k' Hin]. assert (k' = key) as -> by (eapply Hi; [by apply Hc, Harcs|done]).
      by apply (Hheld key m).
    + destruct (Hv k Hfails (mk_is_Some _ _ (Hsub _ _ Hk))) as (h & Hin & Hw). by eapply Hvis.
Qed.

(** A holder changes and the map does not. *)
Lemma inv_holder fails locks next before h h' after :
  lock_inv fails (mkLocks locks next (before ++ h :: after)) ->
  (forall k m, (k, m) ∈ arcs h' -> locks !! k = Some m) ->
  (forall k, is_Some (locks !! k) -> will_visit k h -> will_visit k h') ->
  lock_inv fails (mkLocks locks next (before ++ h' :: after)).
Proof.
  intros [Hc Hf Hi Hv] Harcs Hvis. split; simpl in *; [|done|done|].
  - intros k m Hin. rewrite all_arcs_app in Hin. apply elem_of_app in Hin as [Hin|Hin]; [by apply Harcs|].
    apply Hc. rewrite all_arcs_app. set_solver.
  - intros k Hfails Hk. destruct (Hv k Hfails Hk) as (h0 & Hin & Hw).
    apply elem_of_app in Hin as [Hin|[->|Hin]%elem_of_cons]; [exists h0|exists h'|exists h0]; set_solver.
Qed.

Lemma arcs_visit k m h : (k, m) ∈ arcs h -> will_visit k h.
Proof. destruct h; simpl; try done; set_solver. Qed.

Lemma all_arcs_visit s k m : (k, m) ∈ all_arcs s -> exists h, h ∈ holders s /\ will_visit k h.
Proof.
  unfold all_arcs. intros (l & Hl & Hin)%list_elem_of_In%in_concat.
  apply list_elem_of_In, list_elem_of_fmap in Hl as (h & -> & Hh). exists h. split; [done|].
  eapply arcs_visit. by apply list_elem_of_In.
Qed.

Lemma lock_step_inv fails s s' : lock_step fails s s' -> lock_inv fails s -> lock_inv fails s'.
Proof.
  intros Hs Hinv. destruct Hs as [key s|locks next before key mutex after|locks next before key after s|s|
    locks next before clones after key mutex Hk|locks next before clones after|locks next before clone clones after|
    locks next before after|locks next before todo after key s|locks next before after|
    locks next before clones after Hfails].
  - destruct Hinv as [Hc Hf Hi Hv]. unfold acquire_lease.
    destruct (l1_fill_locks s !! key) as [mutex|] eqn:Hk; split; simpl.
    + intros k m [[= -> ->]|Hin]%elem_of_cons; [done|by apply Hc].
    + done.
    + done.
    + intros k Hfails Hsome. destruct (Hv k Hfails Hsome) as (h & Hin & Hw). exists h. set_solver.
    + intros k m [[= -> ->]|Hin]%elem_of_cons; [apply lookup_insert_eq|]. pose proof (Hc k m Hin) as Hk'.
      rewrite lookup_insert_ne; [done|]. intros ->. by rewrite Hk in Hk'.
    + intros k m [[<- <-]|[_ Hk']]%lookup_insert_Some; [lia|]. specialize (Hf k m Hk'). lia.
    + intros k k' m [[<- <-]|[_ Hk1]]%lookup_insert_Some [[<- Hm]|[_ Hk2]]%lookup_insert_Some; [done| | |by eapply Hi].
      * specialize (Hf _ _ Hk2). lia.
      * subst m. specialize (Hf _ _ Hk1). lia.
    + intros k Hfails [m [[<- _]|[_ Hk']]%lookup_insert_Some].
      * eexists. split; [by left|done].
      * destruct (Hv k Hfails (mk_is_Some _ _ Hk')) as (h & Hin & Hw). exists h. set_solver.
  - eapply inv_holder; [done|set_solver|done].
  - eapply (inv_pruned _ _ _ _ _ key); [exact Hinv|done| |apply remove_unused_pruned| |].
    + intros km Hin. rewrite all_arcs_app. set_solver.
    + intros k Hne _ h Hin Hw. exists h. split; [|done].
      apply elem_of_app in Hin as [Hin|[->|Hin]%elem_of_cons]; [set_solver| |set_solver]. simpl in Hw. congruence.
    + intros k m Hin. apply (all_arcs_visit _ _ _ Hin).
  - destruct Hinv as [Hc Hf Hi Hv]. split; simpl; [exact Hc|done|done|].
    intros k Hfails Hk. destruct (Hv k Hfails Hk) as (h & Hin & Hw). exists h. set_solver.
  - eapply inv_holder; [done| |done]. intros k m [[= -> ->]|Hin]%elem_of_cons; [done|].
    apply (li_current _ _ Hinv). rewrite all_arcs_app. set_solver.
  - eapply inv_holder; [done| |done]. intros k m Hin.
    apply (li_current _ _ Hinv). rewrite all_arcs_app. set_solver.
  - eapply inv_holder; [done| |done]. intros k m Hin.
    apply (li_current _ _ Hinv). rewrite all_arcs_app. simpl. set_solver.
  - eapply inv_holder; [done|set_solver|]. intros k Hk _. by apply elem_of_dom.
  - eapply (inv_pruned _ _ _ _ _ key); [exact Hinv|done| |apply retain_one_pruned| |].
    + intros km. unfold s. rewrite !all_arcs_app. done.
    + intros k Hne _ h Hin Hw. apply elem_of_app in Hin as [Hin|[->|Hin]%elem_of_cons].
      * exists h. set_solver.
      * exists (ClearRetaining (todo ∖ {[key]})). simpl in *. set_solver.
      * exists h. set_solver.
    + intros k m Hin. apply (all_arcs_visit _ _ _ Hin).
  - destruct Hinv as [Hc Hf Hi Hv]. split; simpl in *; [|done|done|].
    + intros k m Hin. apply Hc. rewrite all_arcs_app. set_solver.
    + intros k Hfails Hk. destruct (Hv k Hfails Hk) as (h & Hin & Hw). exists h. split; [|done].
      apply elem_of_app in Hin as [Hin|[->|Hin]%elem_of_cons]; [set_solver| |set_solver]. simpl in Hw. set_solver.
  - destruct Hinv as [Hc Hf Hi Hv]. split; simpl in *; [|done|done|congruence].
    intros k m Hin. apply Hc. rewrite all_arcs_app. set_solver.
Qed.

Definition no_locks : LockState := mkLocks ∅ 0 [].

Lemma no_locks_inv fails : lock_inv fails no_locks.
Proof. split; simpl; [set_solver|done|done|]. intros k _ [m Hk]. done. Qed.

(** C26: two leases are on the same mutex exactly when they are on the same key: the
    operations on one key exclude each other, and those on different keys never
    wait for one another, whatever leases end and whatever [clear] removes from
    the map meanwhile.  The map holds no entry once no lease and no [clear] is
    left, provided no [clear] ended early. *)
Theorem fill_locks_exclusive (fails : bool) (s : LockState) :
  rtc (lock_step fails) no_locks s ->
  (forall key mutex key' mutex', Leased key mutex ∈ holders s -> Leased key' mutex' ∈ holders s ->
     mutex = mutex' <-> key = key') /\
  (fails = false -> holders s = [] -> l1_fill_locks s = ∅).
Proof.
  intros Hr. assert (Hinv : lock_inv fails s).
  { eapply (rtc_invariant (lock_step fails) (lock_inv fails)); [|exact Hr|apply no_locks_inv].
    intros x y Hx Hxy. by eapply lock_step_inv. }
  destruct Hinv as [Hc Hf Hi Hv]. split.
  - assert (Hheld : forall key mutex, Leased key mutex ∈ holders s -> l1_fill_locks s !! key = Some mutex).
    { intros key mutex Hin. apply Hc. unfold all_arcs. apply list_elem_of_In, in_concat. exists [(key, mutex)].
      split; [|by left]. apply list_elem_of_In, list_elem_of_fmap. by exists (Leased key mutex). }
    intros key mutex key' mutex' H1%Hheld H2%Hheld. split; intros ->; [by eapply Hi|congruence].
  - intros Hfails Hnone. apply map_empty. intros key. destruct (l1_fill_locks s !! key) as [m|] eqn:Hk; [|done].
    destruct (Hv key Hfails (mk_is_Some _ _ Hk)) as (h & Hin & _). rewrite Hnone in Hin. set_solver.
Qed.

(** Two tasks lease the lock of one key, a third that of another, and all are
    done with them. *)
Definition first_key : CacheKey := mkCacheKey "a" 1.
Definition second_key : CacheKey := mkCacheKey "b" 2.
Definition three_leases : LockState := acquire_lease first_key (acquire_lease second_key (acquire_lease first_key no_locks)).

Lemma fill_locks_exclusive_witness :
  (forall key mutex key' mutex', Leased key mutex ∈ holders three_leases -> Leased key' mutex' ∈ holders three_leases ->
     mutex = mutex' <-> key = key') /\
  (false = false -> holders three_leases = [] -> l1_fill_locks three_leases = ∅).
Proof.
  apply (fill_locks_exclusive false three_leases).
  eapply rtc_l; [apply (step_acquire false first_key)|].
  eapply rtc_l; [apply (step_acquire false second_key)|].
  eapply rtc_l; [apply (step_acquire false first_key)|apply rtc_refl].
Defined.
