(* ===== verification/Principals.v ===== *)
(** Who may call the gateway, as data: users, API keys with their runtime
    policy, teams and their members, and the context of a request
    ([core/models/], [core/types/context.rs], [server/routes/ai/context.rs]).

    An identifier is the text of its Uuid.  A point in time is a number of
    nanoseconds since the epoch.  The JSON a key carries and its reading by serde
    are an interface. *)

From Stdlib Require Import Floats.SpecFloat.
From S2P Require Import Prelude Float64.

Inductive UserRole := SuperAdmin | Admin | Manager | RegularUser | Viewer | ApiUser.
Inductive UserStatus := UserActive | UserInactive | UserSuspended | UserPending | UserDeleted.

#[export] Instance UserRole_eq_dec : EqDecision UserRole.
Proof. solve_decision. Defined.
#[export] Instance UserStatus_eq_dec : EqDecision UserStatus.
Proof. solve_decision. Defined.

(** The fields of a [User] that authentication reads. *)
Record User := mkUser {
  u_id : string;
  role : UserRole;
  u_status : UserStatus;
}.

Definition user_is_active (u : User) : bool := bool_decide (u_status u = UserActive).

(** [has_role]: administrators have every role below theirs. *)
Definition has_role (u : User) (target : UserRole) : bool :=
  match role u, target with
  | SuperAdmin, _ => true
  | Admin, (Admin | Manager | RegularUser | Viewer | ApiUser) => true
  | Manager, (Manager | RegularUser | Viewer | ApiUser) => true
  | current, target => bool_decide (current = target)
  end.

Inductive TeamStatus := TeamActive | TeamInactive | TeamSuspended | TeamDeleted.
#[export] Instance TeamStatus_eq_dec : EqDecision TeamStatus.
Proof. solve_decision. Defined.

Record Team := mkTeam { t_id : string; t_status : TeamStatus }.
Definition team_is_active (t : Team) : bool := bool_decide (t_status t = TeamActive).

Inductive MemberStatus := MemberActive | MemberPending | MemberSuspended | MemberLeft.
#[export] Instance MemberStatus_eq_dec : EqDecision MemberStatus.
Proof. solve_decision. Defined.

Record TeamMember := mkMember { m_team : string; m_user : string; m_status : MemberStatus }.
Definition member_is_active (m : TeamMember) : bool := bool_decide (m_status m = MemberActive).

Record RateLimits := mkRateLimits {
  rpm : option Z;          (* u32 *)
  tpm : option Z;
  rpd : option Z;
  tpd : option Z;
  concurrent : option Z;
}.

(** [UsageStats] of a key; [KeyUsageStats] ([core/keys/types.rs]) has the same
    fields. *)
Record UsageStats := mkUsageStats {
  total_requests : Z;             (* u64 *)
  total_tokens : Z;               (* u64 *)
  total_cost : spec_float;
  requests_today : Z;             (* u32 *)
  tokens_today : Z;               (* u32 *)
  cost_today : spec_float;
  unpriced_requests : Z;          (* u64 *)
  unpriced_tokens : Z;            (* u64 *)
  unpriced_cost : spec_float;
  last_unpriced_at : option Z;
  last_reset : Z;
}.

(** The runtime policy of a key, stored as JSON in its metadata. *)
Record RuntimeKeyPermissions := mkRuntime {
  allowed_models : list string;
  allowed_endpoints : list string;
  max_tokens_per_request : option Z;   (* u32 *)
  is_admin : bool;
  custom_permissions : list string;
}.

(** JSON values and what the code reads of them: [get] and [is_null],
    [serde_json::from_value] for the policy, and a field that is the text of a
    Uuid ([as_str] and [Uuid::parse_str]). *)
Class JsonValues := {
  Json : Type;
  json_get : Json -> string -> option Json;
  json_is_null : Json -> bool;
  from_value : Json -> option RuntimeKeyPermissions;
  json_uuid : Json -> option string;
}.

Section Keys.
Context `{JsonValues}.

Record Metadata := mkMetadata {
  meta_id : string;
  created_at : Z;
  updated_at : Z;
  version : Z;                          (* i64 *)
  extra : gmap string Json;
}.

(** [Metadata::new]. *)
Definition metadata_new (id : string) (now : Z) : Metadata := mkMetadata id now now 1 ∅.

Definition touch (now : Z) (m : Metadata) : Metadata :=
  mkMetadata (meta_id m) (created_at m) now (version m + 1) (extra m).

Record ApiKey := mkApiKey {
  metadata : Metadata;
  key_name : string;
  key_hash : string;
  key_prefix : string;
  key_user_id : option string;
  key_team_id : option string;
  permissions : list string;
  rate_limits : option RateLimits;
  expires_at : option Z;
  is_active : bool;
  last_used_at : option Z;
  usage_stats : UsageStats;
}.

Definition key_id (k : ApiKey) : string := meta_id (metadata k).

(** The [__core_keys] entry of the metadata. *)
Definition CORE_KEYS_EXTRA_NAMESPACE : string := "__core_keys".
Definition core_keys (k : ApiKey) : option Json := extra (metadata k) !! CORE_KEYS_EXTRA_NAMESPACE.

(** [runtime_key_permissions]; an error is a policy that does not parse. *)
Definition runtime_key_permissions (key : ApiKey) : result (option RuntimeKeyPermissions) string :=
  match core_keys key with
  | None => Ok None
  | Some payload =>
      match json_get payload "permissions" with
      | None => Ok None
      | Some p =>
          if json_is_null p then Ok None
          else match from_value p with
               | Some policy => Ok (Some policy)
               | None => Err "API key runtime policy is invalid"
               end
      end
  end.

Definition api_key_budget_id (key : ApiKey) : option string :=
  payload ← core_keys key;
  budget ← json_get payload "budget_id";
  json_uuid budget.

(** [effective_requests_per_minute] ([rate_limit_key_policy.rs]) of the key
    attached to a request. *)
Definition effective_requests_per_minute (api_key : option ApiKey) (default_rpm : option Z)
    : option Z :=
  match (key ← api_key; limits ← rate_limits key; rpm limits) with
  | Some limit => Some limit
  | None => default_rpm
  end.
End Keys.

(** The identity entries of a [RequestContext]; the Uuids in its metadata are
    written and read back as text. *)
Record RequestContext := mkContext {
  user_id : option string;
  api_key_id : option string;
  api_key_budget : option string;
  team_id : option string;
}.

Definition context_new : RequestContext := mkContext None None None None.

Definition set_user_id (u : option string) (c : RequestContext) : RequestContext :=
  mkContext u (api_key_id c) (api_key_budget c) (team_id c).
Definition set_api_key_id (k : string) (c : RequestContext) : RequestContext :=
  mkContext (user_id c) (Some k) (api_key_budget c) (team_id c).
(** [set_api_key_budget_id] and [clear_api_key_budget_id]. *)
Definition put_api_key_budget_id (b : option string) (c : RequestContext) : RequestContext :=
  mkContext (user_id c) (api_key_id c) b (team_id c).
(** [set_team_id] and [clear_team_id]. *)
Definition put_team_id (t : option string) (c : RequestContext) : RequestContext :=
  mkContext (user_id c) (api_key_id c) (api_key_budget c) t.
