(* ===== verification/ClientKey.v ===== *)
(** Whom a request is counted against ([server/middleware/rate_limit.rs]): the authenticated caller, or
    the address of the client, which a trusted proxy forwards in
    [X-Forwarded-For].

    A request is what the middleware reads of it: the address of its peer, the
    values of the header fields of each name in order, and the identity an
    earlier middleware attached. *)

From S2P Require Import Prelude Text Ip IpText Principals.

Record Request := mkRequest {
  peer_addr : option IpAddr;
  get_all : string -> list bytes;
  shared_context : option RequestContext;    (* SharedRequestContext extension *)
  plain_context : option RequestContext;     (* RequestContext extension *)
}.

(** The first value of a field. *)
Definition get (r : Request) (name : string) : option bytes := head (get_all r name).

(** * Network identity *)

Definition parse_ip (value : string) : option IpAddr :=
  let value := trim value in
  to_canonical <$>
    match ip_from_str value with
    | Some ip => Some ip
    | None => socket_ip_from_str value
    end.

Definition is_trusted_proxy (ip : IpAddr) (trusted_proxies : list string) : bool :=
  existsb (fun proxy => ip_eqb proxy ip) (omap parse_ip trusted_proxies).

(** [split] of bytes at a separator: at least one piece. *)
Fixpoint split_on (sep : Ascii.ascii) (s : bytes) : list bytes :=
  match s with
  | [] => [[]]
  | c :: s =>
      match split_on sep s with
      | piece :: pieces =>
          if Ascii.eqb c sep then [] :: piece :: pieces else (c :: piece) :: pieces
      | [] => [[c]]
      end
  end.

Definition comma : Ascii.ascii := Ascii.ascii_of_nat 44.

(** [str::from_utf8] succeeds. *)
Definition is_utf8 (s : bytes) : bool := bytes_eqb (from_utf8_lossy s) s.

(** The hops of all fields, the nearest first: the fields from the last, each
    split from its end. *)
Definition hops (fields : list bytes) : list bytes :=
  concat (map (fun field => rev (split_on comma field)) (rev fields)).

(** The loops of [last_untrusted_xff_ip]; a malformed hop ends them. *)
Fixpoint walk_hops (trusted_proxies : list string) (fallback : option IpAddr)
    (entries : list bytes) : option IpAddr :=
  match entries with
  | [] => fallback
  | entry :: entries =>
      if negb (is_utf8 entry) then None
      else
        match parse_ip (to_string entry) with
        | None => None
        | Some ip =>
            if negb (is_trusted_proxy ip trusted_proxies) then Some ip
            else walk_hops trusted_proxies (Some (default ip fallback)) entries
        end
  end.

Definition last_untrusted_xff_ip (fields : list bytes) (trusted_proxies : list string)
    : option IpAddr :=
  walk_hops trusted_proxies None (hops fields).

(** The address [network_client_key_from_parts] writes. *)
Definition network_client_ip (peer : option IpAddr) (fields : list bytes)
    (trusted_proxies : list string) : option IpAddr :=
  peer_ip ← to_canonical <$> peer;
  Some (if is_trusted_proxy peer_ip trusted_proxies
        then default peer_ip (last_untrusted_xff_ip fields trusted_proxies)
        else peer_ip).

Definition network_client_key_from_parts (peer : option IpAddr) (fields : list bytes)
    (trusted_proxies : list string) : option string :=
  (fun ip => "ip:" +:+ ip_to_string ip) <$> network_client_ip peer fields trusted_proxies.

Definition xff (r : Request) : list bytes := get_all r "X-Forwarded-For".

Definition network_client_key (r : Request) (trusted_proxies : list string) : string :=
  default "ip:unknown" (network_client_key_from_parts (peer_addr r) (xff r) trusted_proxies).

Definition trusted_network_client_key (r : Request) (trusted_proxies : list string)
    : option string :=
  network_client_key_from_parts (peer_addr r) (xff r) trusted_proxies.

(** [get_client_identifier] ([auth.rs]): nothing without a peer. *)
Definition get_client_identifier (r : Request) (trusted_proxies : list string) : option string :=
  peer_addr r ≫= fun _ => Some (network_client_key r trusted_proxies).

(** * Authenticated identity *)

Definition client_key_from_context (context : RequestContext) : option string :=
  match api_key_id context with
  | Some id => Some ("api_key:" +:+ id)
  | None =>
      user ← trim <$> user_id context;
      if String.eqb user "" then None else Some ("user:" +:+ user)
  end.

(** The shared context decides when there is one, whatever it names. *)
Definition authenticated_client_key (r : Request) : option string :=
  match shared_context r with
  | Some context => client_key_from_context context
  | None => plain_context r ≫= client_key_from_context
  end.

Definition extract_client_key (r : Request) (trusted_proxies : list string) : string :=
  match authenticated_client_key r with
  | Some identity => identity
  | None => network_client_key r trusted_proxies
  end.

(** * The identity behind a key *)

Inductive Identity :=
| ByKey (id : string)
| ByUser (id : string)
| ByAddress (ip : IpAddr)
| Nobody.

Definition identity_from_context (context : RequestContext) : option Identity :=
  match api_key_id context with
  | Some id => Some (ByKey id)
  | None =>
      user ← trim <$> user_id context;
      if String.eqb user "" then None else Some (ByUser user)
  end.

Definition identity (r : Request) (trusted_proxies : list string) : Identity :=
  let context := match shared_context r with Some c => Some c | None => plain_context r end in
  match context ≫= identity_from_context with
  | Some who => who
  | None =>
      match network_client_ip (peer_addr r) (xff r) trusted_proxies with
      | Some ip => ByAddress ip
      | None => Nobody
      end
  end.

Definition identity_key (who : Identity) : string :=
  match who with
  | ByKey id => "api_key:" +:+ id
  | ByUser id => "user:" +:+ id
  | ByAddress ip => "ip:" +:+ ip_to_string ip
  | Nobody => "ip:unknown"
  end.

(** * Hops that proxies add *)

(** A proxy appends the address of its peer, in a field of its own or at the
    end of the last one. *)
Definition forward (own_field : bool) (hop : bytes) (fields : list bytes) : list bytes :=
  match rev fields with
  | last :: before => if own_field then fields ++ [hop] else rev before ++ [last ++ comma :: hop]
  | [] => [hop]
  end.

Definition forward_all (fields : list bytes) (path : list (bool * bytes)) : list bytes :=
  fold_left (fun fields hop => forward (fst hop) (snd hop) fields) path fields.

(** A hop as an honest proxy writes it. *)
Record hop_of (ip : IpAddr) (hop : bytes) : Prop := {
  ho_whole : comma ∉ hop;
  ho_utf8 : is_utf8 hop = true;
  ho_ip : parse_ip (to_string hop) = Some ip;
}.

Lemma split_nonempty (sep : Ascii.ascii) (s : bytes) : split_on sep s <> [].
Proof. destruct s as [|c s]; [done|]. simpl. destruct (split_on sep s); [done|]. by destruct (Ascii.eqb c sep). Qed.

Lemma split_whole (sep : Ascii.ascii) (s : bytes) : sep ∉ s -> split_on sep s = [s].
Proof.
  induction s as [|c s IH]; [done|]. intros Hn. simpl.
  rewrite IH by (intros ?; apply Hn; by constructor).
  destruct (Ascii.eqb_spec c sep) as [->|]; [|done]. destruct Hn. constructor.
Qed.

Lemma split_last (sep : Ascii.ascii) (s hop : bytes) :
  sep ∉ hop -> split_on sep (s ++ sep :: hop) = split_on sep s ++ [hop].
Proof.
  intros Hn. induction s as [|c s IH]; simpl.
  - by rewrite split_whole, Ascii.eqb_refl.
  - rewrite IH. pose proof (split_nonempty sep s). destruct (split_on sep s) as [|p ps]; [done|].
    simpl. by destruct (Ascii.eqb c sep).
Qed.

Lemma hops_snoc (fields : list bytes) (field : bytes) :
  hops (fields ++ [field]) = rev (split_on comma field) ++ hops fields.
Proof. unfold hops. by rewrite rev_app_distr. Qed.

(** However it is appended, a hop comes first. *)
Lemma hops_forward (own_field : bool) (hop : bytes) (fields : list bytes) :
  comma ∉ hop -> hops (forward own_field hop fields) = hop :: hops fields.
Proof.
  intros Hn. unfold forward. destruct (rev fields) as [|last before] eqn:Er.
  - apply (f_equal (@rev _)) in Er. rewrite rev_involutive in Er. subst fields.
    change [hop] with ([] ++ [hop]). by rewrite hops_snoc, split_whole.
  - apply (f_equal (@rev _)) in Er. rewrite rev_involutive in Er. simpl in Er. subst fields.
    destruct own_field.
    + by rewrite hops_snoc, split_whole.
    + by rewrite !hops_snoc, split_last, rev_app_distr.
Qed.

Lemma hops_forward_all (path : list (bool * bytes)) (fields : list bytes) :
  Forall (fun hop => comma ∉ snd hop) path ->
  hops (forward_all fields path) = rev (map snd path) ++ hops fields.
Proof.
  revert fields. induction path as [|[own hop] path IH]; intros fields Hp; [done|].
  apply Forall_cons in Hp as [Hh Hp]. unfold forward_all. simpl. fold (forward_all (forward own hop fields) path).
  rewrite IH, hops_forward by done. by rewrite <- app_assoc.
Qed.

(** Trusted hops are passed over. *)
Lemma walk_trusted (trusted_proxies : list string) (near rest : list bytes) :
  Forall (fun hop => exists ip, hop_of ip hop /\ is_trusted_proxy ip trusted_proxies = true) near ->
  forall fallback, exists fallback',
    walk_hops trusted_proxies fallback (near ++ rest) = walk_hops trusted_proxies fallback' rest.
Proof.
  intros Hn. induction Hn as [|hop near (ip & [_ Hu Hp] & Ht) _ IH]; intros fallback; [by exists fallback|].
  cbn [app walk_hops]. rewrite Hu, Hp, Ht. apply IH.
Qed.

Lemma network_client_ip_wf (peer : option IpAddr) (fields : list bytes) (trusted : list string) (ip : IpAddr) :
  (forall p, peer = Some p -> wf_ip p) -> network_client_ip peer fields trusted = Some ip ->
  wf_ip ip /\ canonical ip.
Proof.
  intros Hwf. unfold network_client_ip. destruct peer as [p|]; [|done]. cbn [fmap option_fmap option_map mbind option_bind].
  intros [= <-].
  assert (Hp : wf_ip (to_canonical p) /\ canonical (to_canonical p)).
  { split; [by apply to_canonical_wf, Hwf|apply to_canonical_canonical]. }
  destruct (is_trusted_proxy _ _); [|done].
  assert (Hw : forall entries fb found,
    (forall a, fb = Some a -> wf_ip a /\ canonical a) ->
    walk_hops trusted fb entries = Some found -> wf_ip found /\ canonical found).
  { induction entries as [|e entries IH]; intros fb found Hfb; cbn [walk_hops]; [apply Hfb|].
    destruct (negb (is_utf8 e)); [done|]. destruct (parse_ip (to_string e)) as [a|] eqn:Ea; [|done].
    assert (Ha : wf_ip a /\ canonical a).
    { unfold parse_ip in Ea. apply fmap_Some in Ea as (b & Eb & ->).
      split; [apply to_canonical_wf|apply to_canonical_canonical].
      destruct (ip_from_str _) eqn:E1; [injection Eb as <-; by eapply ip_from_str_wf|].
      by eapply socket_ip_from_str_wf. }
    destruct (negb (is_trusted_proxy a trusted)); [by intros [= <-]|].
    apply IH. intros c [= <-]. destruct fb as [d|]; simpl; [by apply Hfb|done]. }
  unfold last_untrusted_xff_ip. destruct (walk_hops trusted None (hops fields)) as [a|] eqn:E; [|done].
  apply (Hw (hops fields) None a); [done|exact E].
Qed.

(** * Keys and identities *)

Lemma identity_written (r : Request) (trusted : list string) :
  extract_client_key r trusted = identity_key (identity r trusted).
Proof.
  unfold extract_client_key, authenticated_client_key, identity, network_client_key,
    network_client_key_from_parts.
  assert (Hc : forall c, client_key_from_context c = identity_key <$> identity_from_context c).
  { intros c. unfold client_key_from_context, identity_from_context.
    destruct (api_key_id c); [done|]. destruct (user_id c) as [u|]; [|done]. simpl.
    by destruct (String.eqb (trim u) ""). }
  assert (Hn : default "ip:unknown" ((fun ip => "ip:" +:+ ip_to_string ip) <$>
      network_client_ip (peer_addr r) (xff r) trusted) =
    identity_key match network_client_ip (peer_addr r) (xff r) trusted with
                 | Some ip => ByAddress ip | None => Nobody end).
  { by destruct (network_client_ip _ _ _). }
  destruct (shared_context r) as [c|]; [|destruct (plain_context r) as [c|]; [|exact Hn]];
    cbn [mbind option_bind]; rewrite Hc; by destruct (identity_from_context c).
Qed.

Definition wf_identity (who : Identity) : Prop :=
  match who with ByAddress ip => wf_ip ip | _ => True end.

Lemma string_app_inj (p a b : string) : p +:+ a = p +:+ b -> a = b.
Proof. induction p as [|c p IH]; simpl; [done|]. intros [= H]. by apply IH. Qed.

Lemma identity_key_inj (a b : Identity) :
  wf_identity a -> wf_identity b -> identity_key a = identity_key b -> a = b.
Proof.
  intros Ha Hb. destruct a as [i|i|p|], b as [j|j|q|]; cbn [identity_key]; intros He;
    try discriminate He; try (apply string_app_inj in He; by subst).
  - apply string_app_inj in He. f_equal.
    pose proof (ip_from_to_string p Ha) as H1. rewrite He, (ip_from_to_string q Hb) in H1. by injection H1.
  - change "ip:unknown" with ("ip:" +:+ "unknown") in He. apply string_app_inj in He.
    pose proof (ip_from_to_string p Ha) as H1. by rewrite He in H1.
  - change "ip:unknown" with ("ip:" +:+ "unknown") in He. apply string_app_inj in He.
    pose proof (ip_from_to_string q Hb) as H1. by rewrite <- He in H1.
  - done.
Qed.

Definition peer_wf (r : Request) : Prop := forall p, peer_addr r = Some p -> wf_ip p.

Lemma identity_wf (r : Request) (trusted : list string) :
  peer_wf r -> wf_identity (identity r trusted).
Proof.
  intros Hp. unfold identity. destruct (_ ≫= identity_from_context) as [who|] eqn:E.
  - apply bind_Some in E as (c & _ & E). unfold identity_from_context in E.
    destruct (api_key_id c); [by injection E as <-|]. destruct (user_id c) as [u|]; [|done].
    simpl in E. destruct (String.eqb (trim u) ""); [done|]. by injection E as <-.
  - destruct (network_client_ip _ _ _) as [ip|] eqn:En; [|done].
    by apply (network_client_ip_wf _ _ _ _ Hp) in En as [? _].
Qed.

(** Requests share a counter exactly when they have the same caller: the same
    API key, the same user, or, when nobody is authenticated, the same address
    however it is written.  Callers of different kinds never share one. *)
Theorem counted_by_caller (r r' : Request) (trusted trusted' : list string) :
  peer_wf r -> peer_wf r' ->
  extract_client_key r trusted = extract_client_key r' trusted' <->
  identity r trusted = identity r' trusted'.
Proof.
  intros Hr Hr'. rewrite !identity_written. split; [|by intros ->].
  apply identity_key_inj; by apply identity_wf.
Qed.

(** A client cannot choose the address it is counted under.  The fields of a
    peer that is no trusted proxy are not read at all.  Behind trusted proxies
    that append the address they were called from, the address is that of the
    client, whatever the fields it sent itself contain. *)
Theorem forged_hops_ignored (trusted : list string) (peer client : IpAddr) (hop : bytes)
    (own_field : bool) (path : list (bool * bytes)) (forged : list bytes) :
  (is_trusted_proxy (to_canonical peer) trusted = false ->
    network_client_key_from_parts (Some peer) forged trusted =
    Some ("ip:" +:+ ip_to_string (to_canonical peer))) /\
  (is_trusted_proxy (to_canonical peer) trusted = true ->
    hop_of client hop -> is_trusted_proxy client trusted = false ->
    Forall (fun hop => exists ip, hop_of ip (snd hop) /\ is_trusted_proxy ip trusted = true) path ->
    network_client_key_from_parts (Some peer)
      (forward_all forged ((own_field, hop) :: path)) trusted =
    Some ("ip:" +:+ ip_to_string client)).
Proof.
  unfold network_client_key_from_parts, network_client_ip. cbn [fmap option_fmap option_map mbind option_bind].
  split; [by intros ->|]. intros -> [Hw Hu Hp] Hc Hpath. do 3 f_equal.
  unfold last_untrusted_xff_ip. rewrite hops_forward_all.
  2: { constructor; [done|]. eapply Forall_impl; [exact Hpath|]. by intros h (ip & [] & _). }
  cbn [map rev snd]. rewrite <- app_assoc.
  destruct (walk_trusted trusted (rev (map snd path)) ([hop] ++ hops forged)) with (fallback := @None IpAddr)
    as [fb ->].
  { apply Forall_rev, Forall_map. exact Hpath. }
  cbn [app walk_hops]. by rewrite Hu, Hp, Hc.
Qed.

Definition text (s : string) : bytes := of_string s.

Lemma example_hops :
  hop_of (V4 3405803786) (text " 203.0.113.10") /\ hop_of (V4 167772162) (text " 10.0.0.2").
Proof.
  split; (split; [|vm_compute; reflexivity|vm_compute; reflexivity]).
  all: intros H; apply list_elem_of_In in H; vm_compute in H; by repeat destruct H as [H|H].
Qed.

(** The client forges two hops; the proxies 10.0.0.2 and 10.0.0.1 forward it. *)
Lemma forged_hops_ignored_witness :
  network_client_key_from_parts (Some (V4 167772161))
    (forward_all [text "198.51.100.1, 198.51.100.2"]
      [(false, text " 203.0.113.10"); (true, text " 10.0.0.2")]) ["10.0.0.1"; "10.0.0.2:443"] =
  Some "ip:203.0.113.10".
Proof.
  destruct example_hops as [Hc Hp].
  destruct (forged_hops_ignored ["10.0.0.1"; "10.0.0.2:443"] (V4 167772161) (V4 3405803786)
    (text " 203.0.113.10") false [(true, text " 10.0.0.2")] [text "198.51.100.1, 198.51.100.2"]) as [_ H].
  etransitivity; [apply H|vm_compute; reflexivity].
  - vm_compute. reflexivity.
  - exact Hc.
  - vm_compute. reflexivity.
  - constructor; [|constructor]. exists (V4 167772162). split; [exact Hp|vm_compute; reflexivity].
Defined.

(** An IPv4 address and the IPv6 address it is mapped to are the same caller. *)
Lemma counted_by_caller_witness :
  let r ip := mkRequest (Some ip) (fun _ => []) None None in
  extract_client_key (r (V4 3405803786)) [] = extract_client_key (r (V6 (65535 * 2 ^ 32 + 3405803786))) [].
Proof.
  intros r. apply (counted_by_caller (r (V4 3405803786)) (r (V6 (65535 * 2 ^ 32 + 3405803786))) [] []).
  - intros p [= <-]. done.
  - intros p [= <-]. done.
  - vm_compute. reflexivity.
Defined.
