(* ===== verification/RequestLimits.v ===== *)
(** The gateway's request limits ([server/middleware/rate_limit.rs]): every check
    goes to the global limiter when there is one, and otherwise to a store of
    trackers in the process, which is kept bounded by evicting the trackers that
    have been idle longest.

    Checks of different requests follow each other.  The clock readings of a
    check, and the answer of a Redis backend behind the global limiter, are
    arguments. *)

From S2P Require Import Prelude Text Ip Principals ClientKey RateLimiter.

Definition MAX_FALLBACK_ENTRIES : Z := 10000.
Definition fallback_window : Z := from_secs 60.

(** * The tracker of a key: its timestamps *)

Abbreviation Store := (gmap string (list Z)).

(** [KeyTracker::release]. *)
Definition tracker_release (recorded_at : Z) (ts : list Z) : list Z :=
  default ts (remove_timestamp recorded_at ts).

(** [KeyTracker::check_and_record]: the timestamps left, whether the request is
    allowed, the wait otherwise and the time recorded. *)
Definition tracker_check_and_record (limit window now : Z) (ts : list Z)
    : list Z * (bool * Z * option Z) :=
  let ts := List.filter (fun t => duration_since now t <? window) ts in
  let count := len_u32 ts in
  if limit <=? count then
    (ts, (false,
          match ts with
          | oldest :: _ => Z.max (as_secs (sat_sub window (duration_since now oldest))) 1
          | [] => as_secs window
          end, None))
  else (ts ++ [now], (true, 0, Some now)).

(** * Capacity *)

Definition live_tracker (window now : Z) (ts : list Z) : bool :=
  match last ts with Some t => duration_since now t <? window | None => false end.

(** [Option<Instant>] in its order, [None] first. *)
Definition last_le (a b : string * list Z) : bool :=
  match last (snd a), last (snd b) with
  | None, _ => true
  | Some _, None => false
  | Some s, Some t => s <=? t
  end.

Section Store.
(** The order in which a [DashMap] is iterated. *)
Variable iteration : Store -> list (string * list Z).

(** [enforce_fallback_capacity]. *)
Definition enforce_fallback_capacity (window now : Z) (store : Store) : Store :=
  let store := filter (fun e => Is_true (live_tracker window now (snd e))) store in
  let overflow := sat_sub (Z.of_nat (size store)) MAX_FALLBACK_ENTRIES in
  if overflow =? 0 then store
  else
    let candidates := merge_sort (fun a b => Is_true (last_le a b)) (iteration store) in
    foldr (fun e store => delete (fst e) store) store (firstn (Z.to_nat overflow) candidates).

(** * Checks *)

Inductive LimiterSource := GlobalLimiter | FallbackLimiter.

Inductive RecordedRateLimitReservation :=
| RecordedGlobal (reservation : RateLimitReservation)
| RecordedFallback (recorded_at : Z).

Record RateLimitPass := mkPass {
  pass_source : LimiterSource;
  pass_limit : Z;
  pass_remaining : Z;
  reservation : RecordedRateLimitReservation;
}.

Record RateLimitRejection := mkRejection {
  rejection_source : LimiterSource;
  retry_after : Z;
  rejection_limit : Z;
}.

(** What the process keeps: the entries of the global limiter, once it is
    initialised, and the fallback store. *)
Record Limits := mkLimits {
  global_limiter : option Entries;
  fallback_store : Store;
}.

(** The readings of one check: the clock, the clock again for the creation of an
    entry and for the eviction, and the answer of Redis. *)
Record Reading := mkReading {
  now : Z;
  created : Z;
  later : Z;
  redis : option (RedisAnswer RateLimitResult);
}.

Variable config : RateLimitConfig.     (* of the global limiter *)
Variable window : Z.

(** The check against the fallback store. *)
Definition check_fallback (key : string) (requests_per_minute : Z) (rd : Reading) (store : Store)
    : Store * result RateLimitPass RateLimitRejection :=
  let '(ts, (allowed, retry, recorded)) :=
    tracker_check_and_record requests_per_minute fallback_window (now rd)
      (default [] (store !! key)) in
  let store := <[key := ts]> store in
  let store := if MAX_FALLBACK_ENTRIES <? Z.of_nat (size store)
               then enforce_fallback_capacity fallback_window (later rd) store else store in
  (store,
   if negb allowed then Err (mkRejection FallbackLimiter retry requests_per_minute)
   else
     match recorded with
     | None => Err (mkRejection FallbackLimiter (Z.max (as_secs fallback_window) 1) requests_per_minute)
     | Some recorded_at =>
         let remaining :=
           match store !! key with
           | Some ts => sat_sub requests_per_minute (len_u32 ts)
           | None => requests_per_minute
           end in
         Ok (mkPass FallbackLimiter requests_per_minute remaining (RecordedFallback recorded_at))
     end).

Definition check_rate_limit_key (key : string) (requests_per_minute : Z) (rd : Reading)
    (s : Limits) : Limits * result RateLimitPass RateLimitRejection :=
  match global_limiter s with
  | Some entries =>
      let '(entries, result, reservation) :=
        check_and_record_with_source_and_limit config window (redis rd) key requests_per_minute
          (now rd) (created rd) entries in
      (mkLimits (Some entries) (fallback_store s),
       if negb (allowed result)
       then Err (mkRejection GlobalLimiter (default 60 (retry_after_secs result)) requests_per_minute)
       else Ok (mkPass GlobalLimiter requests_per_minute (remaining result) (RecordedGlobal reservation)))
  | None =>
      let '(store, answer) := check_fallback key requests_per_minute rd (fallback_store s) in
      (mkLimits None store, answer)
  end.

(** * Reservations *)

Inductive AuthRateLimitReservation :=
| Reserved (key : string) (source : RecordedRateLimitReservation)
| NoopReservation.

(** [release]: what is asked of Redis is returned. *)
Definition release (has_redis : bool) (r : AuthRateLimitReservation) (now : Z) (s : Limits)
    : Limits * option Z :=
  match r with
  | NoopReservation => (s, None)
  | Reserved key (RecordedGlobal source) =>
      match global_limiter s with
      | Some entries =>
          let '(entries, asked) := release_recorded config window has_redis key source now entries in
          (mkLimits (Some entries) (fallback_store s), asked)
      | None => (s, None)
      end
  | Reserved key (RecordedFallback recorded_at) =>
      (mkLimits (global_limiter s)
        (match fallback_store s !! key with
         | Some ts =>
             match tracker_release recorded_at ts with
             | [] => delete key (fallback_store s)
             | ts => <[key := ts]> (fallback_store s)
             end
         | None => fallback_store s
         end), None)
  end.

(** * The middleware and the checks around authentication *)

(** [RateLimitError]: the wait and the limit reported with a 429. *)
Record RateLimitError := mkRateLimitError { error_retry_after : Z; error_limit : Z }.

Definition rejected (r : RateLimitRejection) : RateLimitError :=
  mkRateLimitError (retry_after r) (rejection_limit r).

Definition reserve_rate_limit_for_auth_attempt (r : Request) (requests_per_minute : Z)
    (trusted_proxies : list string) (rd : Reading) (s : Limits)
    : Limits * result AuthRateLimitReservation RateLimitError :=
  let key := extract_client_key r trusted_proxies in
  let '(s, answer) := check_rate_limit_key key requests_per_minute rd s in
  (s, match answer with
      | Ok pass => Ok (Reserved key (reservation pass))
      | Err rejection => Err (rejected rejection)
      end).

Definition enforce_rate_limit_for_rejected_auth (r : Request) (requests_per_minute : Z)
    (trusted_proxies : list string) (rd : Reading) (s : Limits)
    : Limits * result unit RateLimitError :=
  let key := extract_client_key r trusted_proxies in
  let '(s, answer) := check_rate_limit_key key requests_per_minute rd s in
  (s, match answer with
      | Ok _ => Ok tt
      | Err rejection => Err (rejected rejection)
      end).

(** [enforce_socket_request_rate]: the wait of a rejected socket event. *)
Definition enforce_socket_request_rate (context : RequestContext) (requests_per_minute : Z)
    (rd : Reading) (s : Limits) : Limits * result unit Z :=
  match client_key_from_context context with
  | None => (s, Err 60)
  | Some key =>
      let '(s, answer) := check_rate_limit_key key requests_per_minute rd s in
      (s, match answer with Ok _ => Ok tt | Err rejection => Err (retry_after rejection) end)
  end.

(** [RateLimitMiddlewareService::call]: [Ok] goes on to the service. *)
Definition rate_limit_call `{JsonValues} (r : Request) (api_key : option ApiKey)
    (requests_per_minute : option Z) (trusted_proxies : list string) (rd : Reading) (s : Limits)
    : Limits * result unit RateLimitError :=
  match effective_requests_per_minute api_key requests_per_minute with
  | None => (s, Ok tt)
  | Some limit =>
      let '(s, answer) := check_rate_limit_key (extract_client_key r trusted_proxies) limit rd s in
      (s, match answer with
          | Ok _ => Ok tt
          | Err rejection => Err (rejected rejection)
          end)
  end.
End Store.

(** * Sequences of checks and releases

    A caller holds the reservation of each check that passed, and may release
    any of them. *)

Inductive LimitOp :=
| OpCheck (key : string) (requests_per_minute : Z)
| OpRelease (i : nat).

(** What a caller learns: the limit and what remains, or the limit and the wait. *)
Definition answer_of (r : result RateLimitPass RateLimitRejection) : result (Z * Z) (Z * Z) :=
  match r with
  | Ok pass => Ok (pass_limit pass, pass_remaining pass)
  | Err rejection => Err (rejection_limit rejection, retry_after rejection)
  end.

Definition held_of (key : string) (r : result RateLimitPass RateLimitRejection)
    : option AuthRateLimitReservation :=
  match r with Ok pass => Some (Reserved key (reservation pass)) | Err _ => None end.

Section Sequences.
Variable iteration : Store -> list (string * list Z).
Variable config : RateLimitConfig.
Variable window : Z.

Definition at_time (t : Z) : Reading := mkReading t t t None.

Definition limit_step (t : Z) (op : LimitOp) (held : list (option AuthRateLimitReservation))
    (s : Limits) : Limits * option AuthRateLimitReservation * option (result (Z * Z) (Z * Z)) :=
  match op with
  | OpCheck key requests_per_minute =>
      let '(s, r) := check_rate_limit_key iteration config window key requests_per_minute (at_time t) s in
      (s, held_of key r, Some (answer_of r))
  | OpRelease i =>
      match held !! i with
      | Some (Some r) => (fst (release config window false r t s), None, None)
      | _ => (s, None, None)
      end
  end.

Fixpoint run_limits (ops : list (Z * LimitOp)) (held : list (option AuthRateLimitReservation))
    (s : Limits) : list (option (result (Z * Z) (Z * Z))) :=
  match ops with
  | [] => []
  | (t, op) :: ops =>
      let '(s, kept, answer) := limit_step t op held s in
      answer :: run_limits ops (held ++ [kept]) s
  end.
End Sequences.

Definition op_key (op : Z * LimitOp) : option string :=
  match snd op with OpCheck key _ => Some key | OpRelease _ => None end.

Definition clients (ops : list (Z * LimitOp)) : gset string := list_to_set (omap op_key ops).

Definition op_typed (op : Z * LimitOp) : Prop :=
  match snd op with OpCheck _ limit => fits_u32 limit | OpRelease _ => True end.

Fixpoint in_clock_order (start : Z) (ops : list (Z * LimitOp)) : Prop :=
  match ops with [] => True | (t, _) :: ops => start <= t /\ in_clock_order t ops end.

(** * The store against the limiter *)

Lemma filter_live (window now : Z) (ts : list Z) :
  0 < window ->
  List.filter (fun t => duration_since now t <? window) ts = retain_after (now - window) ts.
Proof.
  intros Hw. unfold retain_after, duration_since. apply List.filter_ext. intros t.
  destruct (Z.ltb_spec (Z.max 0 (now - t)) window), (Z.ltb_spec (now - window) t); lia.
Qed.

Lemma len_u32_snoc (ts : list Z) (t limit : Z) :
  fits_u32 limit -> len_u32 ts < limit -> len_u32 (ts ++ [t]) = len_u32 ts + 1.
Proof.
  unfold fits_u32, u32_max, len_u32, wrap_u32. intros Hl Hlt. rewrite length_app. simpl.
  rewrite Nat2Z.inj_add. change (Z.of_nat 1) with 1.
  pose proof (Z.mod_pos_bound (Z.of_nat (length ts)) (2 ^ 32) ltac:(lia)).
  rewrite Z.add_mod by lia. rewrite (Z.mod_small 1) by lia. apply Z.mod_small. lia.
Qed.

Section Equivalence.
Variable iteration : Store -> list (string * list Z).
Variable config : RateLimitConfig.
Hypothesis Henabled : enabled config = true.
Hypothesis Hsliding : strategy config = SlidingWindow.
Variable keys : gset string.
Hypothesis Hkeys : Z.of_nat (size keys) <= MAX_FALLBACK_ENTRIES.

Abbreviation W := fallback_window.

(** The entries of a limiter and a store hold the same live timestamps. *)
Definition same_live (t : Z) (es : Entries) (store : Store) : Prop :=
  forall k, retain_after (t - W) (fst (raw (es !! k))) = retain_after (t - W) (default [] (store !! k)).

Definition same_held (a b : option AuthRateLimitReservation) : Prop :=
  match a, b with
  | None, None => True
  | Some (Reserved k (RecordedGlobal r)), Some (Reserved k' (RecordedFallback at_)) =>
      k = k' /\ r = reservation_new SourceLocal at_ 60
  | _, _ => False
  end.

Record Sim (t : Z) (es : Entries) (store : Store) : Prop := {
  sim_live : same_live t es store;
  sim_keys : dom store ⊆ keys;
}.

Lemma sim_later (t t' : Z) es store : t <= t' -> Sim t es store -> Sim t' es store.
Proof.
  intros Ht [Hl Hk]. split; [|done]. intros k.
  rewrite <- (retain_after_twice (t - W) (t' - W)), (Hl k), retain_after_twice by lia. done.
Qed.

Lemma small_store (store : Store) : dom store ⊆ keys -> (MAX_FALLBACK_ENTRIES <? Z.of_nat (size store)) = false.
Proof.
  intros Hd. apply Z.ltb_ge. rewrite <- size_dom. pose proof (subseteq_size _ _ Hd). lia.
Qed.

(** The global limiter's check, by the branch it takes. *)
Lemma global_check (t limit : Z) (key : string) es :
  let e := default (entry_default t) (es !! key) in
  let ts := retain_after (t - W) (fst (raw (es !! key))) in
  let reset := match ts with
               | oldest :: _ => as_secs (sat_sub W (duration_since t oldest))
               | [] => as_secs W
               end in
  check_and_record_with_source_and_limit config W None key limit t t es =
  if len_u32 ts <? limit
  then (<[key := set_timestamps (ts ++ [t]) e]> es,
        mkRateLimitResult true (len_u32 ts) limit (sat_sub (sat_sub limit (len_u32 ts)) 1) reset None,
        reservation_new SourceLocal t 60)
  else (<[key := set_timestamps ts e]> es,
        mkRateLimitResult false (len_u32 ts) limit (sat_sub limit (len_u32 ts)) reset
          (Some (Z.max reset 1)),
        reservation_new SourceDisabled t 0).
Proof.
  intros e ts reset.
  unfold check_and_record_with_source_and_limit, record_local, check_impl, check_sliding_window_impl.
  rewrite Henabled, Hsliding. cbn [negb]. fold e.
  replace (timestamps e) with (fst (raw (es !! key))) by (unfold e; by destruct (es !! key)).
  fold ts. fold reset. unfold window_result, local_reservation_reset_after_secs.
  rewrite Hsliding. by destruct (len_u32 ts <? limit).
Qed.

Lemma check_sim (t limit : Z) (key : string) es store :
  fits_u32 limit -> key ∈ keys -> Sim t es store ->
  let '(s', answer) := check_rate_limit_key iteration config W key limit (at_time t)
    (mkLimits (Some es) ∅) in
  let '(s2', answer2) := check_rate_limit_key iteration config W key limit (at_time t)
    (mkLimits None store) in
  (exists es', s' = mkLimits (Some es') ∅ /\ s2' = mkLimits None (fallback_store s2') /\
     Sim t es' (fallback_store s2')) /\
  answer_of answer = answer_of answer2 /\ same_held (held_of key answer) (held_of key answer2).
Proof.
  intros Hlim Hkey [Hl Hk]. pose proof (Hl key) as Hts.
  assert (HW : 0 < W) by (unfold fallback_window, from_secs; lia).
  unfold check_rate_limit_key. cbn [global_limiter fallback_store redis at_time now created].
  rewrite global_check. unfold check_fallback, tracker_check_and_record.
  cbn [at_time now later]. rewrite filter_live by done. rewrite <- Hts.
  set (ts := retain_after (t - W) (fst (raw (es !! key)))).
  assert (Hdom : forall ts', dom (<[key := ts']> store) ⊆ keys).
  { intros ts'. rewrite dom_insert_L. set_solver. }
  assert (Hsim : forall ts' e, timestamps e = ts' -> Sim t (<[key := e]> es) (<[key := ts']> store)).
  { intros ts' e He. split; [|apply Hdom]. intros k. destruct (decide (k = key)) as [->|Hne].
    - rewrite !lookup_insert_eq. simpl. by rewrite He.
    - rewrite !lookup_insert_ne by done. apply Hl. }
  rewrite Z.leb_antisym. destruct (Z.ltb_spec (len_u32 ts) limit) as [Hc|Hc]; cbn [negb allowed].
  - rewrite small_store by apply Hdom. rewrite lookup_insert_eq.
    split; [eexists; split_and!; [done|done|by apply Hsim]|].
    cbn [answer_of held_of pass_limit pass_remaining remaining]. split; [|done].
    rewrite (len_u32_snoc ts t limit) by done. do 2 f_equal. unfold sat_sub. lia.
  - rewrite small_store by apply Hdom.
    split; [eexists; split_and!; [done|done|by apply Hsim]|].
    cbn [answer_of held_of rejection_limit retry_after retry_after_secs default]. split; [|done].
    clearbody ts. destruct ts; done.
Qed.

Lemma release_sim (t at_ : Z) (key : string) es store s :
  Sim t es store ->
  Sim t (fst (release_recorded config W false key (reservation_new SourceLocal at_ 60) t es))
    (fallback_store (fst (release config W false (Reserved key (RecordedFallback at_)) t
      (mkLimits s store)))).
Proof.
  intros [Hl Hk]. unfold release_recorded. rewrite Henabled. cbn [negb source reservation_new].
  unfold remaining_window_secs. cbn [expires_at].
  change (from_secs (Z.max 60 1)) with W.
  assert (Hst : forall k, default [] (fallback_store (fst (release config W false
      (Reserved key (RecordedFallback at_)) t (mkLimits s store))) !! k) =
    if bool_decide (k = key) then removed at_ (default [] (store !! k)) else default [] (store !! k)).
  { intros k. cbn [release fst fallback_store global_limiter].
    destruct (store !! key) as [ts|] eqn:Ek.
    - unfold tracker_release. fold (removed at_ ts).
      destruct (bool_decide_reflect (k = key)) as [->|Hne]; rewrite ?Ek.
      + change (default [] (Some ts)) with ts.
        destruct (removed at_ ts); [by rewrite lookup_delete_eq|by rewrite lookup_insert_eq].
      + by destruct (removed at_ ts); [rewrite lookup_delete_ne|rewrite lookup_insert_ne].
    - destruct (bool_decide_reflect (k = key)) as [->|Hne]; [|done]. by rewrite Ek. }
  split.
  2: { transitivity (dom store); [|done]. cbn [release fst fallback_store].
       destruct (store !! key) eqn:Ek; [|done].
       assert (key ∈ dom store) by (by apply elem_of_dom_2 in Ek).
       destruct (tracker_release at_ l); [rewrite dom_delete_L|rewrite dom_insert_L]; set_solver. }
  intros k. rewrite Hst.
  assert (Hrem : (if (if duration_since (at_ + W) t =? 0 then 0
      else Z.max (as_secs (duration_since (at_ + W) t)) 1) =? 0 then true else false) = (at_ <=? t - W)).
  { unfold duration_since. destruct (Z.eqb_spec (Z.max 0 (at_ + W - t)) 0); cbn [Z.eqb].
    - symmetry. apply Z.leb_le. lia.
    - rewrite (proj2 (Z.eqb_neq (Z.max _ 1) 0)) by lia. symmetry. apply Z.leb_gt. lia. }
  destruct (_ =? 0) in Hrem |- *; cbn [fst].
  - rewrite (Hl k). symmetry in Hrem. apply Z.leb_le in Hrem.
    case_bool_decide; [|done]. rewrite retain_removed. by rewrite (proj2 (Z.ltb_ge _ _)).
  - destruct (release_raw config W ltac:(rewrite Hsliding; done) key at_ t es) as (Hf & _ & Ho).
    change (recorded_at (reservation_new SourceLocal at_ 60)) with at_. case_bool_decide as Hc.
    + subst k. rewrite Hf, !retain_removed, (Hl key). done.
    + rewrite Ho by done. apply Hl.
Qed.

Definition Sims (t : Z) (s s2 : Limits) (held held2 : list (option AuthRateLimitReservation)) : Prop :=
  (exists es, s = mkLimits (Some es) ∅ /\ s2 = mkLimits None (fallback_store s2) /\
     Sim t es (fallback_store s2)) /\ Forall2 same_held held held2.

Lemma step_sim (t t' : Z) (op : LimitOp) s s2 held held2 :
  t <= t' -> op_typed (t', op) -> (forall k, op_key (t', op) = Some k -> k ∈ keys) ->
  Sims t s s2 held held2 ->
  let '(s', kept, answer) := limit_step iteration config W t' op held s in
  let '(s2', kept2, answer2) := limit_step iteration config W t' op held2 s2 in
  answer = answer2 /\ Sims t' s' s2' (held ++ [kept]) (held2 ++ [kept2]).
Proof.
  intros Ht Hop Hk [(es & -> & -> & Hs) Hh]. cbn [fallback_store].
  apply (sim_later t t') in Hs; [|done]. destruct op as [key limit|i]; cbn [limit_step].
  - pose proof (check_sim t' limit key es (fallback_store s2) Hop (Hk key eq_refl) Hs) as Hc.
    destruct (check_rate_limit_key _ _ _ _ _ _ (mkLimits (Some es) ∅)) as [s' r].
    destruct (check_rate_limit_key _ _ _ _ _ _ (mkLimits None _)) as [s2' r2].
    destruct Hc as (Hst & -> & Hr). split; [done|]. split; [done|].
    apply Forall2_app; [done|]. by constructor.
  - assert (Hn : Forall2 same_held (held ++ [None]) (held2 ++ [None]))
      by (apply Forall2_app; [done|by constructor]).
    assert (Hsame : Sims t' (mkLimits (Some es) ∅) (mkLimits None (fallback_store s2))
      (held ++ [None]) (held2 ++ [None])) by (split; [by exists es|done]).
    destruct (held !! i) as [r|] eqn:Er.
    2: { rewrite Forall2_lookup in Hh. specialize (Hh i). rewrite Er in Hh.
         inversion Hh as [|Hx Hy]. by split. }
    destruct (Forall2_lookup_l _ _ _ i r Hh Er) as (r2 & -> & Hr).
    destruct r as [[key [res|at_]|]|], r2 as [[key2 [res2|at2]|]|]; try done.
    destruct Hr as [<- ->]. split; [done|]. split; [|done].
    pose proof (release_sim t' at2 key es (fallback_store s2) None Hs) as Hrel.
    cbn [release global_limiter fallback_store] in Hrel |- *.
    destruct (release_recorded config W false key _ t' es) as [es' asked]. cbn [fst] in Hrel |- *.
    by exists es'.
Qed.

Lemma run_sim (ops : list (Z * LimitOp)) (t : Z) s s2 held held2 :
  in_clock_order t ops -> Forall op_typed ops -> clients ops ⊆ keys ->
  Sims t s s2 held held2 ->
  run_limits iteration config W ops held s = run_limits iteration config W ops held2 s2.
Proof.
  revert t s s2 held held2. induction ops as [|[t' op] ops IH]; intros t s s2 held held2 Ho Hty Hcl Hs; [done|].
  destruct Ho as [Ht Ho]. apply Forall_cons in Hty as [Hop Hty]. unfold clients in Hcl. simpl in Hcl.
  assert (Hk : forall k, op_key (t', op) = Some k -> k ∈ keys).
  { intros k Hkey. rewrite Hkey in Hcl. set_solver. }
  pose proof (step_sim t t' op s s2 held held2 Ht Hop Hk Hs) as Hst. cbn [run_limits].
  destruct (limit_step _ _ _ _ _ _ s) as [[s' kept] answer].
  destruct (limit_step _ _ _ _ _ _ s2) as [[s2' kept2] answer2].
  destruct Hst as [-> Hs']. f_equal. apply (IH t'); [done|done| |done].
  destruct (op_key (t', op)); unfold clients; set_solver.
Qed.
End Equivalence.

(** The fallback answers as the limiter it stands in for.  While no more
    clients call than the store has room for, any sequence of checks and releases
    gets the same answers - admitted or not, what remains, how long to wait -
    from the trackers in the process as from an initialised global limiter with
    the sliding window strategy and no Redis. *)
Theorem fallback_same_answers (iteration : Store -> list (string * list Z)) (config : RateLimitConfig)
    (start : Z) (ops : list (Z * LimitOp)) :
  enabled config = true -> strategy config = SlidingWindow ->
  in_clock_order start ops -> Forall op_typed ops ->
  Z.of_nat (size (clients ops)) <= MAX_FALLBACK_ENTRIES ->
  run_limits iteration config fallback_window ops [] (mkLimits None ∅) =
  run_limits iteration config fallback_window ops [] (mkLimits (Some ∅) ∅).
Proof.
  intros He Hst Ho Hty Hsz. symmetry.
  apply (run_sim iteration config He Hst (clients ops) Hsz ops start); [done|done|done|].
  split; [|constructor]. exists ∅. split_and!; [done|done|]. split; [|set_solver].
  intros k. cbn [fallback_store]. by rewrite !lookup_empty.
Qed.

Lemma fallback_same_answers_witness :
  let ops := [(0, OpCheck "ip:10.0.0.1" 2); (from_secs 1, OpCheck "ip:10.0.0.1" 2);
              (from_secs 2, OpCheck "ip:10.0.0.1" 2); (from_secs 3, OpRelease 0);
              (from_secs 4, OpCheck "ip:10.0.0.1" 2); (from_secs 5, OpCheck "ip:10.0.0.1" 2)] in
  run_limits (fun m => map_to_list m) (example_limits SlidingWindow) fallback_window ops []
    (mkLimits (Some ∅) ∅) =
  [Some (Ok (2, 1)); Some (Ok (2, 0)); Some (Err (2, 58)); None; Some (Ok (2, 0)); Some (Err (2, 56))].
Proof.
  intros ops.
  rewrite <- (fallback_same_answers (fun m => map_to_list m) (example_limits SlidingWindow) 0 ops).
  - vm_compute. reflexivity.
  - reflexivity.
  - reflexivity.
  - repeat split; discriminate.
  - repeat constructor; discriminate.
  - vm_compute. discriminate.
Defined.

(** * Capacity *)

Section Capacity.
Variable iteration : Store -> list (string * list Z).
(** Iterating a map yields its entries, each once. *)
Hypothesis Hiteration : forall m, iteration m ≡ₚ map_to_list m.

#[local] Instance last_le_total : Total (fun a b => Is_true (last_le a b)).
Proof.
  intros [k ts] [k' ts']. unfold last_le. simpl. destruct (last ts), (last ts'); simpl; try by (left + right).
  destruct (Z.leb_spec z z0); [by left|right]. apply Is_true_true, Z.leb_le. lia.
Qed.

#[local] Instance last_le_trans : Transitive (fun a b => Is_true (last_le a b)).
Proof.
  intros [k ts] [k' ts'] [k'' ts'']. unfold last_le. simpl.
  destruct (last ts), (last ts'), (last ts''); simpl; try done.
  rewrite !Is_true_true, !Z.leb_le. lia.
Qed.

Lemma delete_all (l : list (string * list Z)) (m : Store) (k : string) :
  foldr (fun e store => delete (fst e) store) m l !! k =
  if bool_decide (k ∈ map fst l) then None else m !! k.
Proof.
  induction l as [|[k' ts] l IH]; cbn [foldr map fst].
  - by rewrite bool_decide_false by (intros H; inversion H).
  - destruct (decide (k = k')) as [->|Hne].
    + rewrite lookup_delete_eq, bool_decide_true by (by left). done.
    + rewrite lookup_delete_ne, IH by done.
      by rewrite (bool_decide_ext (k ∈ map fst l) (k ∈ k' :: map fst l))
        by (rewrite elem_of_cons; naive_solver).
Qed.

Lemma delete_all_size (l : list (string * list Z)) (m : Store) :
  NoDup (map fst l) -> (forall e, e ∈ l -> m !! fst e = Some (snd e)) ->
  (size (foldr (fun e store => delete (fst e) store) m l) + length l)%nat = size m.
Proof.
  induction l as [|[k ts] l IH]; intros Hnd Hin; simpl; [lia|]. simpl in Hnd.
  apply NoDup_cons in Hnd as [Hk Hnd].
  assert (Hmk : m !! k = Some ts) by (apply (Hin (k, ts)); by left).
  rewrite map_size_delete_Some.
  - rewrite <- IH; [|done|intros e He; apply Hin; by right].
    assert (0 < size (foldr (fun e store => delete (fst e) store) m l))%nat; [|lia].
    apply Nat.neq_0_lt_0. intros Hz%map_size_empty_iff.
    pose proof (delete_all l m k) as Hd. by rewrite Hz, bool_decide_false, Hmk in Hd by done.
  - rewrite delete_all, bool_decide_false, Hmk by done. by eexists.
Qed.

(** What the eviction does to the store: nothing idle stays, the size is within
    the bound, and a live tracker goes only if none that stays was used before. *)
Lemma enforce_spec (window now : Z) (store : Store) :
  let kept := enforce_fallback_capacity iteration window now store in
  Z.of_nat (size kept) <= MAX_FALLBACK_ENTRIES /\
  (forall k ts, kept !! k = Some ts -> store !! k = Some ts) /\
  (forall k ts, store !! k = Some ts -> live_tracker window now ts = true -> kept !! k = None ->
    Z.of_nat (size kept) = MAX_FALLBACK_ENTRIES /\
    forall k' ts', kept !! k' = Some ts' -> Is_true (last_le (k, ts) (k', ts'))).
Proof.
  cbn zeta. unfold enforce_fallback_capacity.
  set (live := filter _ store). set (sorted := merge_sort _ _).
  assert (Hlive : forall k ts, live !! k = Some ts <->
    store !! k = Some ts /\ live_tracker window now ts = true).
  { intros k ts. unfold live. rewrite map_lookup_filter_Some. simpl. by rewrite Is_true_true. }
  assert (Hmax : 0 <= MAX_FALLBACK_ENTRIES) by done.
  unfold sat_sub. destruct (Z.eqb_spec (Z.max 0 (Z.of_nat (size live) - MAX_FALLBACK_ENTRIES)) 0) as [Hz|Hz].
  { split_and!; [lia|by intros k ts [? _]%Hlive|].
    intros k ts Hk Hl Hn. by rewrite (proj2 (Hlive k ts)) in Hn. }
  set (n := Z.to_nat (Z.max 0 (Z.of_nat (size live) - MAX_FALLBACK_ENTRIES))).
  assert (Hperm : sorted ≡ₚ map_to_list live).
  { unfold sorted. by rewrite merge_sort_Permutation. }
  assert (Hlen : length sorted = size live) by (by rewrite Hperm, length_map_to_list).
  assert (Hnd : NoDup (map fst sorted)).
  { change (map fst sorted) with (sorted.*1). rewrite Hperm. apply NoDup_fst_map_to_list. }
  assert (Hel : forall e, e ∈ sorted <-> live !! fst e = Some (snd e)).
  { intros [k ts]. by rewrite Hperm, elem_of_map_to_list. }
  assert (Hss : StronglySorted (fun a b => Is_true (last_le a b)) sorted).
  { unfold sorted. apply (StronglySorted_merge_sort _). }
  assert (Hsplit : sorted = firstn n sorted ++ skipn n sorted) by (symmetry; apply take_drop).
  assert (Hsize : size (foldr (fun e store => delete (fst e) store) live (firstn n sorted)) =
    Z.to_nat MAX_FALLBACK_ENTRIES).
  { pose proof (delete_all_size (firstn n sorted) live) as Hd. rewrite length_take in Hd.
    assert (size (foldr (fun e store => delete (fst e) store) live (firstn n sorted)) + min n (length sorted)
      = size live)%nat; [apply Hd|lia].
    - rewrite Hsplit, map_app in Hnd. by apply NoDup_app in Hnd as [? _].
    - intros e He. apply Hel. rewrite Hsplit. apply elem_of_app. by left. }
  rewrite Hsize. split_and!; [lia| |].
  - intros k ts. rewrite delete_all. destruct (bool_decide _); [done|]. by intros [? _]%Hlive.
  - intros k ts Hk Hl. rewrite delete_all.
    assert (Hkl : live !! k = Some ts) by by apply Hlive.
    destruct (bool_decide_reflect (k ∈ map fst (firstn n sorted))) as [Hin|]; [|by rewrite Hkl].
    intros _. split; [lia|]. intros k' ts'. rewrite delete_all.
    destruct (bool_decide_reflect (k' ∈ map fst (firstn n sorted))) as [|Hout]; [done|]. intros Hk'.
    rewrite Hsplit in Hss. apply StronglySorted_app_1_elem_of with (x1 := (k, ts)) (x2 := (k', ts')) in Hss; [done| |].
    + apply list_elem_of_fmap in Hin as ([k0 ts0] & -> & Hin). simpl in *.
      assert (He : live !! k0 = Some ts0).
      { apply (Hel (k0, ts0)). rewrite Hsplit. apply elem_of_app. by left. }
      rewrite Hkl in He. by injection He as ->.
    + assert (Hin' : (k', ts') ∈ firstn n sorted ++ skipn n sorted).
      { rewrite <- Hsplit. by apply (Hel (k', ts')). }
      apply elem_of_app in Hin' as [Hin'|Hin']; [|done]. destruct Hout.
      apply list_elem_of_fmap. by exists (k', ts').
Qed.
End Capacity.

(** The fallback store stays within its bound, and forgets the right trackers.
    A check on a store within [MAX_FALLBACK_ENTRIES] leaves one within it.  A
    tracker of another client with requests in the window is dropped only when the
    store is full of trackers that were all used since. *)
Theorem fallback_bounded (iteration : Store -> list (string * list Z)) (key : string)
    (requests_per_minute : Z) (rd : Reading) (store : Store) :
  (forall m, iteration m ≡ₚ map_to_list m) ->
  Z.of_nat (size store) <= MAX_FALLBACK_ENTRIES ->
  let kept := fst (check_fallback iteration key requests_per_minute rd store) in
  Z.of_nat (size kept) <= MAX_FALLBACK_ENTRIES /\
  (forall k ts, k <> key -> store !! k = Some ts ->
    live_tracker fallback_window (later rd) ts = true ->
    kept !! k = Some ts \/
    Z.of_nat (size kept) = MAX_FALLBACK_ENTRIES /\
    forall k' ts', kept !! k' = Some ts' -> Is_true (last_le (k, ts) (k', ts'))).
Proof.
  intros Hit Hsz. unfold check_fallback.
  destruct (tracker_check_and_record _ _ _ _) as [ts0 [[ok retry] recorded]]. cbn [fst].
  destruct (Z.ltb_spec MAX_FALLBACK_ENTRIES (Z.of_nat (size (<[key := ts0]> store)))) as [Hb|Hb]; cbn zeta.
  - destruct (enforce_spec iteration Hit fallback_window (later rd) (<[key := ts0]> store)) as (H1 & H2 & H3).
    split; [done|]. intros k ts Hk Hts Hl.
    assert (Hts' : <[key := ts0]> store !! k = Some ts) by by rewrite lookup_insert_ne.
    destruct (enforce_fallback_capacity _ _ _ _ !! k) as [ts1|] eqn:E.
    + left. apply H2 in E. congruence.
    + right. by apply H3.
  - split; [done|]. intros k ts Hk Hts _. left. by rewrite lookup_insert_ne.
Qed.

Lemma fallback_bounded_witness :
  let kept := fst (check_fallback map_to_list "b" 1 (at_time (from_secs 5)) {["a" := [from_secs 1]]}) in
  kept !! "a" = Some [from_secs 1] \/ Z.of_nat (size kept) = MAX_FALLBACK_ENTRIES.
Proof.
  intros kept.
  destruct (fallback_bounded map_to_list "b" 1 (at_time (from_secs 5)) {["a" := [from_secs 1]]}
    ltac:(done) ltac:(vm_compute; discriminate)) as [_ H].
  destruct (H "a" [from_secs 1] ltac:(discriminate) ltac:(vm_compute; reflexivity)
    ltac:(vm_compute; reflexivity)) as [H1|[H1 _]]; [by left|by right].
Defined.
