(* ===== verification/IpAccess.v ===== *)
(** Access control by address ([core/ip_access/]): rules over addresses and CIDR
    ranges, the controller with its lists, and the middleware that lets a request
    through or blocks it.

    The lists are behind locks; every operation is one step.  Logging is left
    out.  What the server hands to the middleware, the text of the peer's address
    and the value of the forwarding field as text, are arguments. *)

From S2P Require Import Prelude Text Ip IpText ClientKey.

Inductive IpAccessError :=
| ConfigError (message : string)
| InvalidIp (message : string)
| InvalidCidr (message : string)
| AccessDenied (message : string).

Inductive IpAccessMode := Allowlist | Blocklist | Disabled.
#[export] Instance IpAccessMode_eq_dec : EqDecision IpAccessMode.
Proof. solve_decision. Defined.

(** * CIDR ranges *)

Record CidrRange := mkCidr {
  network : IpAddr;
  prefix_len : Z;              (* u8 *)
  mask_v4 : option Z;          (* u32 *)
  mask_v6 : option Z;          (* u128 *)
}.

(** [!0 << (width - prefix_len)] on an unsigned integer of [width] bits; a shift
    by the whole width is avoided. *)
Definition prefix_mask (width prefix_len : Z) : Z :=
  if prefix_len =? 0 then 0
  else Z.land (Z.shiftl (2 ^ width - 1) (width - prefix_len)) (2 ^ width - 1).

Definition cidr_new (network : IpAddr) (prefix_len : Z) : result CidrRange IpAccessError :=
  match network with
  | V4 _ =>
      if 32 <? prefix_len
      then Err (InvalidCidr ("IPv4 prefix length " +:+ pretty prefix_len +:+ " exceeds 32"))
      else Ok (mkCidr network prefix_len (Some (prefix_mask 32 prefix_len)) None)
  | V6 _ =>
      if 128 <? prefix_len
      then Err (InvalidCidr ("IPv6 prefix length " +:+ pretty prefix_len +:+ " exceeds 128"))
      else Ok (mkCidr network prefix_len None (Some (prefix_mask 128 prefix_len)))
  end.

Definition contains (c : CidrRange) (ip : IpAddr) : bool :=
  match network c, ip with
  | V4 net, V4 addr =>
      match mask_v4 c with Some mask => Z.land net mask =? Z.land addr mask | None => false end
  | V6 net, V6 addr =>
      match mask_v6 c with Some mask => Z.land net mask =? Z.land addr mask | None => false end
  | _, _ => false
  end.

Definition slash : Ascii.ascii := Ascii.ascii_of_nat 47.

(** [str::parse::<u8>]. *)
Definition parse_u8 (text : bytes) : option Z :=
  v ← parse_u64 text; if v <=? u8_max then Some v else None.

Definition cidr_from_str (s : string) : result CidrRange IpAccessError :=
  match split_on slash (of_string s) with
  | [address; length] =>
      match ip_from_str (to_string address) with
      | None => Err (InvalidCidr ("Invalid network address: " +:+ to_string address))
      | Some network =>
          match parse_u8 length with
          | None => Err (InvalidCidr ("Invalid prefix length: " +:+ to_string length))
          | Some prefix_len => cidr_new network prefix_len
          end
      end
  | _ => Err (InvalidCidr ("Invalid CIDR format: " +:+ s))
  end.

(** * Rules *)

Record IpRule := mkRule {
  value : string;
  rule_ip : option IpAddr;
  rule_cidr : option CidrRange;
  description : option string;
  rule_enabled : bool;
}.

Definition rule_parse (value : string)
    : result (option IpAddr * option CidrRange) IpAccessError :=
  let value := trim value in
  if existsb (Ascii.eqb slash) (of_string value) then
    match cidr_from_str value with
    | Ok cidr => Ok (None, Some cidr)
    | Err e => Err e
    end
  else
    match ip_from_str value with
    | Some ip => Ok (Some ip, None)
    | None => Err (InvalidIp value)
    end.

Definition rule_new (value : string) : result IpRule IpAccessError :=
  match rule_parse value with
  | Ok (ip, cidr) => Ok (mkRule value ip cidr None true)
  | Err e => Err e
  end.

Definition with_description (d : string) (r : IpRule) : IpRule :=
  mkRule (value r) (rule_ip r) (rule_cidr r) (Some d) (rule_enabled r).

Definition matches (r : IpRule) (ip : IpAddr) : bool :=
  if negb (rule_enabled r) then false
  else
    match rule_ip r with
    | Some own => ip_eqb own ip
    | None => match rule_cidr r with Some cidr => contains cidr ip | None => false end
    end.

(** * Configuration *)

Record IpRuleConfig := mkRuleConfig {
  config_value : string;
  config_description : option string;
  config_enabled : bool;
}.

Record IpAccessConfig := mkIpAccess {
  enabled : bool;
  mode : IpAccessMode;
  allowlist : list IpRuleConfig;
  blocklist : list IpRuleConfig;
  always_allow : list string;
  exclude_paths : list string;
  trust_proxy : bool;
  max_proxy_hops : Z;          (* usize *)
  blocked_message : string;
  blocked_status : Z;          (* u16 *)
}.

Definition default_excluded_paths : list string := ["/health"; "/ready"; "/live"].

Definition config_default : IpAccessConfig :=
  mkIpAccess false Blocklist [] [] [] default_excluded_paths false 1 "Access denied" 403.

(** [collect] into a [Result]: the first error. *)
Fixpoint collect {A E} (l : list (result A E)) : result (list A) E :=
  match l with
  | [] => Ok []
  | Err e :: _ => Err e
  | Ok x :: l => match collect l with Ok xs => Ok (x :: xs) | Err e => Err e end
  end.

Definition rule_from_config (c : IpRuleConfig) : result IpRule IpAccessError :=
  match rule_new (config_value c) with
  | Ok rule =>
      Ok match config_description c with Some d => with_description d rule | None => rule end
  | Err e => Err e
  end.

(** [build_allowlist_rules] and [build_blocklist_rules]. *)
Definition build_rules (rules : list IpRuleConfig) : result (list IpRule) IpAccessError :=
  collect (map rule_from_config (List.filter config_enabled rules)).

Definition build_always_allow_rules (c : IpAccessConfig) : result (list IpRule) IpAccessError :=
  collect (map rule_new (always_allow c)).

Definition validate (c : IpAccessConfig) : result unit string :=
  if enabled c && bool_decide (mode c = Allowlist) && match allowlist c with [] => true | _ => false end
  then Err "Allowlist mode enabled but no IPs in allowlist"
  else Ok tt.

Definition is_path_excluded (c : IpAccessConfig) (path : string) : bool :=
  existsb (fun p => String.prefix p path) (exclude_paths c).

(** * The controller *)

Record IpAccessControl := mkControl {
  config : IpAccessConfig;
  allow_rules : list IpRule;
  block_rules : list IpRule;
  always_rules : list IpRule;
}.

Definition control_new (c : IpAccessConfig) : result IpAccessControl IpAccessError :=
  match build_rules (allowlist c) with
  | Err e => Err e
  | Ok allow =>
      match build_rules (blocklist c) with
      | Err e => Err e
      | Ok block =>
          match build_always_allow_rules c with
          | Err e => Err e
          | Ok always => Ok (mkControl c allow block always)
          end
      end
  end.

Definition control_disabled : IpAccessControl := mkControl config_default [] [] [].

Definition is_enabled (c : IpAccessControl) : bool :=
  enabled (config c) && negb (bool_decide (mode (config c) = Disabled)).

Definition check_allowlist (c : IpAccessControl) (ip : IpAddr) : bool :=
  existsb (fun rule => matches rule ip) (allow_rules c).
Definition check_blocklist (c : IpAccessControl) (ip : IpAddr) : bool :=
  negb (existsb (fun rule => matches rule ip) (block_rules c)).

Definition is_ip_allowed (c : IpAccessControl) (ip : IpAddr) : bool :=
  if negb (is_enabled c) then true
  else if existsb (fun rule => matches rule ip) (always_rules c) then true
  else
    match mode (config c) with
    | Allowlist => check_allowlist c ip
    | Blocklist => check_blocklist c ip
    | Disabled => true
    end.

Definition is_allowed (c : IpAccessControl) (ip_str : string) : bool :=
  if negb (is_enabled c) then true
  else match ip_from_str ip_str with Some ip => is_ip_allowed c ip | None => false end.

Definition check_access (c : IpAccessControl) (ip_str : string) : result unit IpAccessError :=
  if is_allowed c ip_str then Ok tt else Err (AccessDenied ip_str).

Definition set_allow (rules : list IpRule) (c : IpAccessControl) : IpAccessControl :=
  mkControl (config c) rules (block_rules c) (always_rules c).
Definition set_block (rules : list IpRule) (c : IpAccessControl) : IpAccessControl :=
  mkControl (config c) (allow_rules c) rules (always_rules c).

Definition add_to_allowlist (ip : string) (c : IpAccessControl)
    : IpAccessControl * result unit IpAccessError :=
  match rule_new ip with
  | Ok rule => (set_allow (allow_rules c ++ [rule]) c, Ok tt)
  | Err e => (c, Err e)
  end.
Definition add_to_blocklist (ip : string) (c : IpAccessControl)
    : IpAccessControl * result unit IpAccessError :=
  match rule_new ip with
  | Ok rule => (set_block (block_rules c ++ [rule]) c, Ok tt)
  | Err e => (c, Err e)
  end.

Definition other_value (ip : string) (r : IpRule) : bool := negb (String.eqb (value r) ip).

(** The controller, and whether a rule was removed. *)
Definition remove_from_allowlist (ip : string) (c : IpAccessControl) : IpAccessControl * bool :=
  let rules := List.filter (other_value ip) (allow_rules c) in
  (set_allow rules c, Nat.ltb (length rules) (length (allow_rules c))).
Definition remove_from_blocklist (ip : string) (c : IpAccessControl) : IpAccessControl * bool :=
  let rules := List.filter (other_value ip) (block_rules c) in
  (set_block rules c, Nat.ltb (length rules) (length (block_rules c))).

Definition get_allowlist (c : IpAccessControl) : list string := map value (allow_rules c).
Definition get_blocklist (c : IpAccessControl) : list string := map value (block_rules c).

(** The hop [max_proxy_hops] from the right. *)
Definition extract_client_ip (c : IpAccessControl) (remote_addr : string)
    (forwarded_for : option string) : string :=
  if negb (trust_proxy (config c)) then remote_addr
  else
    match forwarded_for with
    | Some xff =>
        let ips := map (fun piece => trim (to_string piece)) (split_on comma (of_string xff)) in
        let hop_index := sat_sub (Z.of_nat (length ips)) (max_proxy_hops (config c)) in
        if hop_index <? Z.of_nat (length ips)
        then default remote_addr (ips !! Z.to_nat hop_index)
        else remote_addr
    | None => remote_addr
    end.

(** * The middleware *)

Inductive Verdict :=
| Forwarded                                    (* to the service *)
| Blocked (status : Z) (message : string).     (* answered here *)

(** [StatusCode::from_u16] accepts three digits. *)
Definition blocked_code (c : IpAccessConfig) : Z :=
  if (100 <=? blocked_status c) && (blocked_status c <=? 999) then blocked_status c else 403.

Definition ip_access_call (c : IpAccessControl) (path : string) (peer : option string)
    (forwarded_for : option string) : Verdict :=
  if is_path_excluded (config c) path then Forwarded
  else if negb (is_enabled c) then Forwarded
  else
    let remote_addr := default "unknown" peer in
    let client_ip := extract_client_ip c remote_addr forwarded_for in
    if negb (is_allowed c client_ip)
    then Blocked (blocked_code (config c)) (blocked_message (config c))
    else Forwarded.

(** * What a range covers *)

(** The leading [p] bits agree. *)
Definition in_prefix (net : IpAddr) (p : Z) (ip : IpAddr) : Prop :=
  match net, ip with
  | V4 a, V4 b => a / 2 ^ (32 - p) = b / 2 ^ (32 - p)
  | V6 a, V6 b => a / 2 ^ (128 - p) = b / 2 ^ (128 - p)
  | _, _ => False
  end.

(** The mask of a prefix of [p] bits: the leading [p] of [w] bits are set. *)
Definition leading_bits (w p m : Z) : Prop :=
  forall i, 0 <= i -> Z.testbit m i = (w - p <=? i) && (i <? w).

Lemma prefix_mask_bits (w p : Z) : 0 <= p <= w -> leading_bits w p (prefix_mask w p).
Proof.
  intros Hp i Hi. unfold prefix_mask. destruct (Z.eqb_spec p 0) as [->|Hne].
  - rewrite Z.bits_0. destruct (Z.leb_spec (w - 0) i), (Z.ltb_spec i w); lia || done.
  - replace (2 ^ w - 1) with (Z.ones w) by (rewrite Z.ones_equiv; lia).
    rewrite Z.land_spec, Z.shiftl_spec by done.
    rewrite (Z.testbit_ones_nonneg w i) by lia.
    destruct (Z.leb_spec (w - p) i).
    + rewrite Z.testbit_ones_nonneg by lia. destruct (Z.ltb_spec i w), (Z.ltb_spec (i - (w - p)) w); lia || done.
    + by rewrite Z.testbit_neg_r by lia.
Qed.

Lemma high_bits (w x i : Z) : 0 <= x < 2 ^ w -> w <= i -> 0 <= w -> Z.testbit x i = false.
Proof.
  intros Hx Hi Hw. destruct (Z.eq_dec x 0) as [->|Hne]; [apply Z.bits_0|].
  apply Z.bits_above_log2; [lia|]. apply Z.log2_lt_pow2; [lia|].
  assert (2 ^ w <= 2 ^ i) by (apply Z.pow_le_mono_r; lia). lia.
Qed.

(** Comparing under the mask compares the leading bits. *)
Lemma masked_eq (w p a b m : Z) :
  0 <= p <= w -> 0 <= a < 2 ^ w -> 0 <= b < 2 ^ w -> leading_bits w p m ->
  Z.land a m = Z.land b m <-> a / 2 ^ (w - p) = b / 2 ^ (w - p).
Proof.
  intros Hp Ha Hb Hm. rewrite <- !Z.shiftr_div_pow2 by lia. split; intros H.
  - apply Z.bits_inj'. intros i Hi. rewrite !Z.shiftr_spec by done.
    destruct (Z.ltb_spec (i + (w - p)) w) as [Hlt|Hge].
    + apply (f_equal (fun x => Z.testbit x (i + (w - p)))) in H.
      rewrite !Z.land_spec, Hm in H by lia.
      rewrite (proj2 (Z.leb_le _ _)), (proj2 (Z.ltb_lt _ _)), !andb_true_r in H by lia. done.
    + by rewrite !(high_bits w) by lia.
  - apply Z.bits_inj'. intros i Hi. rewrite !Z.land_spec, Hm by lia.
    destruct (Z.leb_spec (w - p) i); [|by rewrite !andb_false_r].
    apply (f_equal (fun x => Z.testbit x (i - (w - p)))) in H. rewrite !Z.shiftr_spec in H by lia.
    replace (i - (w - p) + (w - p)) with i in H by lia. by rewrite H.
Qed.

Definition width (ip : IpAddr) : Z := match ip with V4 _ => 32 | V6 _ => 128 end.

Record wf_cidr (c : CidrRange) : Prop := {
  wc_network : wf_ip (network c);
  wc_prefix : 0 <= prefix_len c <= width (network c);
  wc_masks :
    match network c, mask_v4 c, mask_v6 c with
    | V4 _, Some m, None => leading_bits 32 (prefix_len c) m
    | V6 _, None, Some m => leading_bits 128 (prefix_len c) m
    | _, _, _ => False
    end;
}.

Lemma contains_prefix (c : CidrRange) (ip : IpAddr) :
  wf_cidr c -> wf_ip ip -> contains c ip = true <-> in_prefix (network c) (prefix_len c) ip.
Proof.
  destruct c as [net p m4 m6]. intros [Hn Hp Hm] Hip. cbn in *. unfold contains, in_prefix. cbn.
  destruct net as [a|a], ip as [b|b], m4 as [m4|], m6 as [m6|]; try done; cbn in *;
    rewrite Z.eqb_eq; apply masked_eq; done || lia.
Qed.

Lemma parse_u8_range (text : bytes) (v : Z) : parse_u8 text = Some v -> 0 <= v <= u8_max.
Proof.
  unfold parse_u8. destruct (parse_u64 text) as [x|] eqn:E; [|done]. cbn [mbind option_bind].
  destruct (Z.leb_spec x u8_max); [|done]. intros [= <-]. split; [|done].
  assert (Hd : forall t acc y, 0 <= acc -> parse_digits acc t = Some y -> 0 <= y).
  { induction t as [|c t IH]; simpl; intros acc y Hacc; [by intros [= <-]|].
    destruct (in_bytes 48 57 c) eqn:Ec; [|done]. destruct (_ <=? u64_max); [|done].
    apply IH. unfold in_bytes in Ec. bool_arith. lia. }
  unfold parse_u64 in E. destruct text as [|c t]; [done|].
  destruct (Ascii.eqb c _); [destruct t; [done|]|]; by eapply Hd in E.
Qed.

Lemma cidr_from_str_wf (s : string) (c : CidrRange) : cidr_from_str s = Ok c -> wf_cidr c.
Proof.
  unfold cidr_from_str. destruct (split_on slash (of_string s)) as [|a [|l [|]]]; try done.
  destruct (ip_from_str (to_string a)) as [net|] eqn:En; [|done]. apply ip_from_str_wf in En.
  destruct (parse_u8 l) as [p|] eqn:Ep; [|done]. apply parse_u8_range in Ep.
  unfold cidr_new. destruct net as [b|b].
  - destruct (Z.ltb_spec 32 p); [done|]. intros [= <-]. split; [done|simpl; lia|]. apply prefix_mask_bits. lia.
  - destruct (Z.ltb_spec 128 p); [done|]. intros [= <-]. split; [done|simpl; lia|]. apply prefix_mask_bits. lia.
Qed.

(** A rule is one address or one range. *)
Definition wf_rule (r : IpRule) : Prop :=
  match rule_ip r, rule_cidr r with
  | Some ip, None => wf_ip ip
  | None, Some c => wf_cidr c
  | _, _ => False
  end.

Lemma rule_new_wf (text : string) (r : IpRule) :
  rule_new text = Ok r -> wf_rule r /\ value r = text /\ rule_enabled r = true.
Proof.
  unfold rule_new, rule_parse.
  destruct (existsb _ _).
  - destruct (cidr_from_str (trim text)) as [c|e] eqn:Ec; [|done]. intros [= <-].
    split_and!; [|done|done]. by apply cidr_from_str_wf in Ec.
  - destruct (ip_from_str (trim text)) as [ip|] eqn:Ei; [|done]. intros [= <-].
    split_and!; [|done|done]. by apply ip_from_str_wf in Ei.
Qed.

(** The addresses that the text of a rule stands for. *)
Definition covers (text : string) (ip : IpAddr) : Prop :=
  match rule_parse text with
  | Ok (Some own, _) => own = ip
  | Ok (None, Some c) => in_prefix (network c) (prefix_len c) ip
  | _ => False
  end.

Lemma matches_covers (text : string) (r : IpRule) (ip : IpAddr) :
  rule_new text = Ok r -> wf_ip ip -> matches r ip = true <-> covers text ip.
Proof.
  intros Hr Hip. destruct (rule_new_wf _ _ Hr) as (Hwf & _ & _).
  unfold rule_new in Hr. unfold covers. destruct (rule_parse text) as [[own cidr]|e]; [|done].
  injection Hr as <-. unfold matches, wf_rule in *. cbn in *.
  destruct own as [own|]; [apply bool_decide_eq_true|]. destruct cidr as [c|]; [|done].
  by apply contains_prefix.
Qed.

(** * Lists of rules *)

Lemma collect_spec {A B E} (f : A -> result B E) (l : list A) (rs : list B) :
  collect (map f l) = Ok rs -> Forall2 (fun x r => f x = Ok r) l rs.
Proof.
  revert rs. induction l as [|x l IH]; intros rs; simpl; [by intros [= <-]|].
  destruct (f x) as [r|e] eqn:Ef; [|done]. destruct (collect (map f l)) as [rs'|e]; [|done].
  intros [= <-]. constructor; [done|by apply IH].
Qed.

Lemma rule_from_config_spec (c : IpRuleConfig) (r : IpRule) :
  rule_from_config c = Ok r ->
  exists plain, rule_new (config_value c) = Ok plain /\ (forall ip, matches r ip = matches plain ip) /\
    (wf_rule r <-> wf_rule plain).
Proof.
  unfold rule_from_config. destruct (rule_new (config_value c)) as [plain|e] eqn:E; [|done].
  intros [= <-]. exists plain. by destruct (config_description c).
Qed.

(** The enabled entries of a list cover an address. *)
Definition listed (rules : list IpRuleConfig) (ip : IpAddr) : Prop :=
  exists c, c ∈ rules /\ config_enabled c = true /\ covers (config_value c) ip.

Lemma existsb_matches {A} (f : A -> result IpRule IpAccessError) (P : A -> Prop) (l : list A)
    (rules : list IpRule) (ip : IpAddr) :
  Forall2 (fun x r => f x = Ok r) l rules ->
  (forall x r, f x = Ok r -> matches r ip = true <-> P x) ->
  existsb (fun rule => matches rule ip) rules = true <-> exists x, x ∈ l /\ P x.
Proof.
  intros Hl HP. induction Hl as [|x r l rules Hx Hl IH]; simpl.
  - split; [done|]. intros (x & Hx & _). inversion Hx.
  - rewrite orb_true_iff, IH, (HP x r Hx). split.
    + intros [H|(y & Hy & H)]; [exists x; split; [by left|done]|exists y; split; [by right|done]].
    + intros (y & Hy & H). apply elem_of_cons in Hy as [->|Hy]; [by left|right; by exists y].
Qed.

Lemma build_rules_spec (rules : list IpRuleConfig) (built : list IpRule) (ip : IpAddr) :
  build_rules rules = Ok built -> wf_ip ip ->
  existsb (fun rule => matches rule ip) built = true <-> listed rules ip.
Proof.
  intros Hb Hip. unfold build_rules in Hb. apply collect_spec in Hb.
  rewrite (existsb_matches _ (fun c => covers (config_value c) ip) _ _ _ Hb).
  - unfold listed. split; intros (c & Hc & H).
    + apply list_elem_of_In, filter_In in Hc as [Hc He]. exists c. by apply list_elem_of_In in Hc.
    + destruct H as [He H]. exists c. split; [|done]. by apply list_elem_of_In, filter_In; split; [apply list_elem_of_In|].
  - intros c r Hr. apply rule_from_config_spec in Hr as (plain & Hp & Hm & _).
    rewrite Hm. by apply matches_covers.
Qed.

Lemma build_always_spec (c : IpAccessConfig) (built : list IpRule) (ip : IpAddr) :
  build_always_allow_rules c = Ok built -> wf_ip ip ->
  existsb (fun rule => matches rule ip) built = true <-> exists text, text ∈ always_allow c /\ covers text ip.
Proof.
  intros Hb Hip. apply collect_spec in Hb. apply (existsb_matches _ _ _ _ _ Hb).
  intros text r Hr. by apply matches_covers.
Qed.

(** ** The decision *)

(** What a controller decides, when its lists of rules cover what [always],
    [allow] and [block] say. *)
Lemma call_exact (ctl : IpAccessControl) (always allow block : IpAddr -> Prop) (path : string)
    (peer forwarded_for : option string) :
  (forall ip, wf_ip ip -> existsb (fun rule => matches rule ip) (always_rules ctl) = true <-> always ip) ->
  (forall ip, wf_ip ip -> existsb (fun rule => matches rule ip) (allow_rules ctl) = true <-> allow ip) ->
  (forall ip, wf_ip ip -> existsb (fun rule => matches rule ip) (block_rules ctl) = true <-> block ip) ->
  ip_access_call ctl path peer forwarded_for = Forwarded <->
  is_path_excluded (config ctl) path = true \/ enabled (config ctl) = false \/ mode (config ctl) = Disabled \/
  exists ip, ip_from_str (extract_client_ip ctl (default "unknown" peer) forwarded_for) = Some ip /\
    (always ip \/ (mode (config ctl) = Allowlist /\ allow ip) \/ (mode (config ctl) = Blocklist /\ ~ block ip)).
Proof.
  intros Hw Ha Hb. unfold ip_access_call, is_allowed, is_ip_allowed, check_allowlist, check_blocklist, is_enabled.
  destruct (is_path_excluded (config ctl) path); [by split; [left|]|].
  destruct (enabled (config ctl)); cbn [andb negb]; [|split; [by right; left|done]].
  destruct (bool_decide_reflect (mode (config ctl) = Disabled)) as [Hm|Hm]; cbn [negb];
    [by split; [right; right; left|]|].
  destruct (ip_from_str _) as [ip|] eqn:Ei.
  2: { split; [done|]. intros [|[|[|(ip & [=] & _)]]]; done. }
  assert (Hip : wf_ip ip) by by apply ip_from_str_wf in Ei.
  specialize (Hw ip Hip). specialize (Ha ip Hip). specialize (Hb ip Hip).
  destruct (existsb _ (always_rules ctl)).
  { split; [|done]. intros _. do 3 right. exists ip. split; [done|]. left. by apply Hw. }
  destruct (mode (config ctl)); [..|done].
  - destruct (existsb _ (allow_rules ctl)); split; try done.
    + intros _. do 3 right. exists ip. split; [done|]. right; left. split; [done|]. by apply Ha.
    + intros [|[|[|(ip' & [= <-] & [H|[[_ H]|[H _]]])]]]; try done; [by apply Hw in H|by apply Ha in H].
  - destruct (existsb _ (block_rules ctl)); cbn [negb]; split; try done.
    + intros [|[|[|(ip' & [= <-] & [H|[[H _]|[_ H]]])]]]; try done; [by apply Hw in H|].
      by destruct H; apply Hb.
    + intros _. do 3 right. exists ip. split; [done|]. right; right. split; [done|].
      intros H. by apply Hb in H.
Qed.

(** * Properties *)

(** C34: The policy is what the configuration says.  A controller that was built
    lets a request through exactly when its path is excluded, the control is off,
    or the text taken for the address of the client is an address that an
    always-allowed entry covers, or that an enabled entry of the allowlist covers
    in allowlist mode, or that no enabled entry of the blocklist covers in
    blocklist mode, where a range covers the addresses of its family with the same
    leading bits.  Text that is no address is blocked. *)
Theorem access_exact (c : IpAccessConfig) (ctl : IpAccessControl) (path : string)
    (peer forwarded_for : option string) :
  control_new c = Ok ctl ->
  ip_access_call ctl path peer forwarded_for = Forwarded <->
  is_path_excluded c path = true \/ enabled c = false \/ mode c = Disabled \/
  exists ip, ip_from_str (extract_client_ip ctl (default "unknown" peer) forwarded_for) = Some ip /\
    ((exists text, text ∈ always_allow c /\ covers text ip) \/
     (mode c = Allowlist /\ listed (allowlist c) ip) \/
     (mode c = Blocklist /\ ~ listed (blocklist c) ip)).
Proof.
  intros Hnew. unfold control_new in Hnew.
  destruct (build_rules (allowlist c)) as [allow|e] eqn:Ea; [|done].
  destruct (build_rules (blocklist c)) as [block|e] eqn:Eb; [|done].
  destruct (build_always_allow_rules c) as [always|e] eqn:Ew; [|done].
  injection Hnew as <-. apply (call_exact (mkControl c allow block always)); cbn.
  - intros ip Hip. by apply build_always_spec.
  - intros ip Hip. by apply build_rules_spec.
  - intros ip Hip. by apply build_rules_spec.
Qed.

Definition office : IpAccessConfig :=
  mkIpAccess true Blocklist [] [mkRuleConfig "203.0.113.0/24" (Some "abuse") true;
    mkRuleConfig "2001:db8::/32" None true; mkRuleConfig "192.0.2.1" None false]
    ["203.0.113.10"] default_excluded_paths true 1 "Access denied" 403.

Definition office_control : IpAccessControl :=
  Eval vm_compute in match control_new office with Ok ctl => ctl | Err _ => control_disabled end.

Lemma office_built : control_new office = Ok office_control.
Proof. vm_compute. reflexivity. Qed.

(** 203.0.113.9 is blocked; 203.0.113.10 is always allowed. *)
Lemma access_exact_witness :
  ip_access_call office_control "/v1/models" (Some "10.0.0.1") (Some "1.1.1.1, 203.0.113.10") = Forwarded /\
  covers "203.0.113.10" (V4 3405803786).
Proof.
  assert (H : covers "203.0.113.10" (V4 3405803786)) by (vm_compute; reflexivity).
  split; [|exact H].
  apply (access_exact office office_control "/v1/models" (Some "10.0.0.1") (Some "1.1.1.1, 203.0.113.10")
    office_built).
  right; right; right. exists (V4 3405803786). split; [vm_compute; reflexivity|].
  left. exists "203.0.113.10". split; [by left|exact H].
Defined.

(** ** Changes at run time *)

Inductive AccessOp :=
| AddAllow (ip : string)
| AddBlock (ip : string)
| RemoveAllow (ip : string)
| RemoveBlock (ip : string).

Definition run_access_op (c : IpAccessControl) (op : AccessOp) : IpAccessControl :=
  match op with
  | AddAllow ip => fst (add_to_allowlist ip c)
  | AddBlock ip => fst (add_to_blocklist ip c)
  | RemoveAllow ip => fst (remove_from_allowlist ip c)
  | RemoveBlock ip => fst (remove_from_blocklist ip c)
  end.

Definition well_typed (c : IpAccessControl) : Prop :=
  Forall wf_rule (allow_rules c) /\ Forall wf_rule (block_rules c) /\ Forall wf_rule (always_rules c).

Lemma run_access_op_typed (c : IpAccessControl) (op : AccessOp) :
  well_typed c -> well_typed (run_access_op c op).
Proof.
  intros (Ha & Hb & Hw).
  assert (Hf : forall ip rules, Forall wf_rule rules -> Forall wf_rule (List.filter (other_value ip) rules)).
  { intros ip rules Hr. apply Forall_forall. intros r Hin.
    apply list_elem_of_In, filter_In in Hin as [Hin _]. rewrite Forall_forall in Hr.
    by apply Hr, list_elem_of_In. }
  assert (Hn : forall ip r rules, rule_new ip = Ok r -> Forall wf_rule rules -> Forall wf_rule (rules ++ [r])).
  { intros ip r rules Hr Hrs. apply Forall_app. split; [done|]. constructor; [|done].
    by apply (rule_new_wf ip). }
  destruct op as [ip|ip|ip|ip]; simpl;
    [unfold add_to_allowlist; destruct (rule_new ip) eqn:E|unfold add_to_blocklist; destruct (rule_new ip) eqn:E| |];
    split_and!; simpl; eauto.
Qed.

(** Every rule of a controller is one address or one range; addresses are within
    their width, a prefix is no longer than the addresses of its family, and the
    mask kept for that family, the only one, has exactly its leading bits. *)
Lemma rules_well_formed (c : IpAccessConfig) (ctl : IpAccessControl) (ops : list AccessOp) :
  control_new c = Ok ctl -> well_typed (fold_left run_access_op ops ctl).
Proof.
  intros Hnew. assert (H0 : well_typed ctl).
  { unfold control_new in Hnew.
    destruct (build_rules (allowlist c)) as [allow|e] eqn:Ea; [|done].
    destruct (build_rules (blocklist c)) as [block|e] eqn:Eb; [|done].
    destruct (build_always_allow_rules c) as [always|e] eqn:Ew; [|done].
    injection Hnew as <-. unfold build_rules, build_always_allow_rules in *.
    assert (Hc : forall l rs, Forall2 (fun x r => rule_from_config x = Ok r) l rs -> Forall wf_rule rs).
    { intros l rs Hl. induction Hl as [|x r l rs Hx _ IH]; constructor; [|done].
      apply rule_from_config_spec in Hx as (plain & Hp & _ & Hw). apply Hw. by destruct (rule_new_wf _ _ Hp). }
    apply collect_spec in Ea, Eb, Ew. split_and!; [by eapply Hc|by eapply Hc|].
    clear -Ew. induction Ew as [|x r l rs Hx _ IH]; constructor; [|done]. by destruct (rule_new_wf _ _ Hx). }
  clear Hnew. revert ctl H0. induction ops as [|op ops IH]; intros ctl H0; [done|].
  simpl. apply IH. by apply run_access_op_typed.
Qed.

(** *** Changes as edits of the configuration *)

(** A text is added when it is a rule, and taken out wherever it was written so. *)
Definition with_entry (text : string) (entries : list IpRuleConfig) : list IpRuleConfig :=
  match rule_parse text with Ok _ => entries ++ [mkRuleConfig text None true] | Err _ => entries end.
Definition without_entry (text : string) (entries : list IpRuleConfig) : list IpRuleConfig :=
  List.filter (fun entry => negb (String.eqb (config_value entry) text)) entries.

(** The entries of the allowlist and of the blocklist. *)
Definition edit (entries : list IpRuleConfig * list IpRuleConfig) (op : AccessOp)
    : list IpRuleConfig * list IpRuleConfig :=
  match op with
  | AddAllow text => (with_entry text entries.1, entries.2)
  | AddBlock text => (entries.1, with_entry text entries.2)
  | RemoveAllow text => (without_entry text entries.1, entries.2)
  | RemoveBlock text => (entries.1, without_entry text entries.2)
  end.

Definition edited (c : IpAccessConfig) (ops : list AccessOp) : list IpRuleConfig * list IpRuleConfig :=
  fold_left edit ops (allowlist c, blocklist c).

Lemma build_rules_cons (c : IpRuleConfig) (entries : list IpRuleConfig) :
  build_rules (c :: entries) =
  if config_enabled c then
    match rule_from_config c with
    | Err e => Err e
    | Ok r => match build_rules entries with Ok rs => Ok (r :: rs) | Err e => Err e end
    end
  else build_rules entries.
Proof. unfold build_rules. simpl. destruct (config_enabled c); [|done]. simpl. by destruct (rule_from_config c). Qed.

Lemma build_rules_add (entries : list IpRuleConfig) (rules : list IpRule) (text : string) :
  build_rules entries = Ok rules ->
  build_rules (with_entry text entries)
  = Ok (match rule_new text with Ok r => rules ++ [r] | Err _ => rules end).
Proof.
  intros Hb. unfold with_entry. destruct (rule_new text) as [r|e] eqn:Hr.
  2: { unfold rule_new in Hr. by destruct (rule_parse text) as [[]|]. }
  assert (exists p, rule_parse text = Ok p) as [p ->]
    by (unfold rule_new in Hr; destruct (rule_parse text); [by eexists|done]).
  revert rules Hb. induction entries as [|c entries IH]; intros rules Hb.
  - injection Hb as <-. unfold build_rules. simpl. unfold rule_from_config. cbn [config_value config_description].
    by rewrite Hr.
  - simpl. rewrite build_rules_cons in Hb |- *. destruct (config_enabled c); [|by apply IH].
    destruct (rule_from_config c) as [r0|]; [|done].
    destruct (build_rules entries) as [rs|]; [|done]. injection Hb as <-. by rewrite (IH rs eq_refl).
Qed.

Lemma rule_from_config_value (c : IpRuleConfig) (r : IpRule) :
  rule_from_config c = Ok r -> value r = config_value c.
Proof.
  unfold rule_from_config. destruct (rule_new (config_value c)) as [plain|] eqn:E; [|done]. intros [= <-].
  apply rule_new_wf in E as (_ & Hv & _). by destruct (config_description c).
Qed.

Lemma build_rules_remove (entries : list IpRuleConfig) (rules : list IpRule) (text : string) :
  build_rules entries = Ok rules ->
  build_rules (without_entry text entries) = Ok (List.filter (other_value text) rules).
Proof.
  revert rules. induction entries as [|c entries IH]; intros rules Hb; [by injection Hb as <-|].
  unfold without_entry in *. simpl. rewrite build_rules_cons in Hb. destruct (config_enabled c) eqn:He.
  - destruct (rule_from_config c) as [r|] eqn:Hr; [|done].
    destruct (build_rules entries) as [rs|]; [|done]. injection Hb as <-. specialize (IH rs eq_refl). simpl.
    unfold other_value at 1. rewrite (rule_from_config_value c r Hr).
    destruct (negb _); [|done]. by rewrite build_rules_cons, He, Hr, IH.
  - specialize (IH rules Hb). destruct (negb _); [|done]. by rewrite build_rules_cons, He.
Qed.

(** A controller whose rules are those of [entries]. *)
Definition built_from (c : IpAccessConfig) (entries : list IpRuleConfig * list IpRuleConfig)
    (ctl : IpAccessControl) : Prop :=
  config ctl = c /\ build_rules entries.1 = Ok (allow_rules ctl) /\ build_rules entries.2 = Ok (block_rules ctl) /\
  build_always_allow_rules c = Ok (always_rules ctl).

Lemma run_built (c : IpAccessConfig) (ops : list AccessOp) : forall entries ctl,
  built_from c entries ctl -> built_from c (fold_left edit ops entries) (fold_left run_access_op ops ctl).
Proof.
  induction ops as [|op ops IH]; intros entries ctl H; [done|]. simpl. apply IH.
  destruct H as (Hc & Ha & Hb & Hw). destruct op as [text|text|text|text]; cbn [edit run_access_op].
  - apply (build_rules_add _ _ text) in Ha. unfold add_to_allowlist.
    by destruct (rule_new text); split_and!.
  - apply (build_rules_add _ _ text) in Hb. unfold add_to_blocklist.
    by destruct (rule_new text); split_and!.
  - apply (build_rules_remove _ _ text) in Ha. by split_and!.
  - apply (build_rules_remove _ _ text) in Hb. by split_and!.
Qed.

(** C36: Changes at run time act as edits of the configuration.  After any run of
    additions and removals a controller lets a request through exactly when its
    path is excluded, the control is off, or the address of the client is covered
    by an always-allowed entry, or in allowlist mode by an enabled entry of the
    edited allowlist, or in blocklist mode by no enabled entry of the edited
    blocklist: a text that is no rule is not added, and one that is taken out is
    taken out of its own list, wherever it was written so. *)
Theorem updates_exact (c : IpAccessConfig) (ctl : IpAccessControl) (ops : list AccessOp) (path : string)
    (peer forwarded_for : option string) :
  control_new c = Ok ctl ->
  ip_access_call (fold_left run_access_op ops ctl) path peer forwarded_for = Forwarded <->
  is_path_excluded c path = true \/ enabled c = false \/ mode c = Disabled \/
  exists ip, ip_from_str (extract_client_ip ctl (default "unknown" peer) forwarded_for) = Some ip /\
    ((exists text, text ∈ always_allow c /\ covers text ip) \/
     (mode c = Allowlist /\ listed (edited c ops).1 ip) \/
     (mode c = Blocklist /\ ~ listed (edited c ops).2 ip)).
Proof.
  intros Hnew.
  assert (H0 : built_from c (allowlist c, blocklist c) ctl).
  { unfold control_new in Hnew. destruct (build_rules (allowlist c)) as [allow|e] eqn:Ea; [|done].
    destruct (build_rules (blocklist c)) as [block|e] eqn:Eb; [|done].
    destruct (build_always_allow_rules c) as [always|e] eqn:Ew; [|done]. by injection Hnew as <-. }
  assert (He : extract_client_ip (fold_left run_access_op ops ctl) = extract_client_ip ctl).
  { unfold extract_client_ip. by rewrite (proj1 (run_built c ops _ _ H0)), (proj1 H0). }
  destruct (run_built c ops _ _ H0) as (Hc & Ha & Hb & Hw). rewrite <- He.
  pose proof (call_exact (fold_left run_access_op ops ctl) (fun ip => exists text, text ∈ always_allow c /\ covers text ip)
    (listed (edited c ops).1) (listed (edited c ops).2) path peer forwarded_for) as Hcall.
  rewrite Hc in Hcall. apply Hcall.
  - intros ip Hip. by apply build_always_spec.
  - intros ip Hip. by apply build_rules_spec.
  - intros ip Hip. by apply build_rules_spec.
Qed.

(** 198.51.100.7 is blocked once its range has been added, and 203.0.113.9 let
    through once its own has been removed. *)
Definition office_changes : list AccessOp :=
  [AddBlock "198.51.100.0/24"; AddBlock "bad"; RemoveBlock "203.0.113.0/24"].

Lemma updates_exact_witness :
  ip_access_call (fold_left run_access_op office_changes office_control) "/v1/models" (Some "203.0.113.9") None
  = Forwarded /\
  ip_access_call (fold_left run_access_op office_changes office_control) "/v1/models" (Some "198.51.100.7") None
  <> Forwarded.
Proof.
  split; [|vm_compute; discriminate].
  apply (updates_exact office office_control office_changes "/v1/models" (Some "203.0.113.9") None office_built).
  right; right; right. exists (V4 3405803785). split; [vm_compute; reflexivity|]. right; right. split; [reflexivity|].
  intros (entry & Hin & Hen & Hcov). vm_compute in Hin.
  repeat (apply elem_of_cons in Hin as [->|Hin]; [vm_compute in Hen, Hcov; try done|]).
  by apply not_elem_of_nil in Hin.
Defined.

(** ** Forwarded addresses *)

Lemma split_app (sep : Ascii.ascii) (a b : bytes) :
  split_on sep (a ++ sep :: b) = split_on sep a ++ split_on sep b.
Proof.
  induction a as [|c a IH]; simpl.
  - pose proof (split_nonempty sep b). destruct (split_on sep b); [done|]. by rewrite Ascii.eqb_refl.
  - rewrite IH. pose proof (split_nonempty sep a). destruct (split_on sep a) as [|p ps]; [done|].
    simpl. by destruct (Ascii.eqb c sep).
Qed.

Lemma of_string_app (a b : string) : of_string (a +:+ b) = of_string a ++ of_string b.
Proof. unfold of_string. induction a as [|c a IH]; [done|]. simpl. by f_equal. Qed.

(** Behind its proxies a client cannot move the hop that is taken for its
    address.  When the control trusts [h] hops, at least one, and the last [h]
    pieces of the field are what the proxies appended, the address is the first of
    them, whatever comes before. *)
Theorem trusted_hop_fixed (ctl : IpAccessControl) (remote forged appended : string)
    (hop : bytes) (nearer : list bytes) :
  trust_proxy (config ctl) = true -> 0 < max_proxy_hops (config ctl) ->
  split_on comma (of_string appended) = hop :: nearer ->
  Z.of_nat (length (hop :: nearer)) = max_proxy_hops (config ctl) ->
  extract_client_ip ctl remote (Some (forged +:+ "," +:+ appended)) = trim (to_string hop).
Proof.
  intros Ht Hh Hs Hl. unfold extract_client_ip. rewrite Ht. cbn [negb].
  rewrite !of_string_app. change (of_string "," ++ ?x) with (comma :: x).
  rewrite split_app, Hs, map_app, length_app, !length_map.
  set (front := map _ (split_on comma (of_string forged))).
  assert (Hf : length front = length (split_on comma (of_string forged))) by apply length_map.
  rewrite <- Hf, <- Hl. cbn [length map].
  assert (Hidx : sat_sub (Z.of_nat (length front + S (length nearer))) (Z.of_nat (S (length nearer)))
    = Z.of_nat (length front)) by (unfold sat_sub; lia).
  rewrite Hidx, (proj2 (Z.ltb_lt _ _)), Nat2Z.id by lia.
  by rewrite list_lookup_middle.
Qed.

Lemma trusted_hop_fixed_witness :
  extract_client_ip office_control "10.0.0.1" (Some ("203.0.113.10" +:+ "," +:+ " 203.0.113.9")) = "203.0.113.9".
Proof.
  rewrite (trusted_hop_fixed office_control "10.0.0.1" "203.0.113.10" " 203.0.113.9"
    (of_string " 203.0.113.9") []); [vm_compute; reflexivity|..];
    vm_compute; reflexivity.
Defined.

(** The controller compares addresses as they are written: on a dual-stack socket
    the peer of a blocked IPv4 client is an IPv4-mapped IPv6 address, which no
    IPv4 rule matches.  The request limits use the canonical address. *)
Lemma mapped_address_evades_blocklist :
  is_allowed office_control "203.0.113.9" = false /\
  is_allowed office_control "::ffff:203.0.113.9" = true /\
  parse_ip "::ffff:203.0.113.9" = parse_ip "203.0.113.9".
Proof. vm_compute. repeat split. Qed.
