(* ===== verification/StrOps.v ===== *)
(** The [str] functions of Rust's standard library that work on prefixes,
    suffixes and patterns, on strings as bytes. *)

From S2P Require Import Prelude Text.

Definition starts_with (s prefix : string) : bool := String.prefix prefix s.

Definition strip_prefix (s prefix : string) : option string :=
  if String.prefix prefix s
  then Some (String.substring (String.length prefix) (String.length s - String.length prefix) s)
  else None.

Definition ends_with (s suffix : string) : bool :=
  String.prefix (rev_string suffix) (rev_string s).

Definition strip_suffix (s suffix : string) : option string :=
  if ends_with s suffix
  then Some (String.substring 0 (String.length s - String.length suffix) s)
  else None.

(** [str::contains] of a string. *)
Fixpoint str_contains (s pattern : string) : bool :=
  String.prefix pattern s ||
  match s with EmptyString => false | String _ s => str_contains s pattern end.

(** [trim_end_matches] of one character. *)
Fixpoint drop_leading (c : Ascii.ascii) (s : bytes) : bytes :=
  match s with
  | x :: rest => if Ascii.eqb x c then drop_leading c rest else s
  | [] => []
  end.
Definition trim_end_matches (c : Ascii.ascii) (s : string) : string :=
  to_string (rev (drop_leading c (rev (of_string s)))).

(** ASCII letters in lower case; other bytes are left alone. *)
Definition to_lower (c : Ascii.ascii) : Ascii.ascii :=
  if in_bytes 65 90 c then Ascii.ascii_of_nat (Ascii.nat_of_ascii c + 32) else c.
Definition to_ascii_lowercase (s : string) : string := to_string (map to_lower (of_string s)).
Definition eq_ignore_ascii_case (a b : string) : bool :=
  String.eqb (to_ascii_lowercase a) (to_ascii_lowercase b).

Definition is_ascii_alphanumeric (c : Ascii.ascii) : bool :=
  in_bytes 48 57 c || in_bytes 65 90 c || in_bytes 97 122 c.

Definition mem (x : string) (l : list string) : bool := existsb (String.eqb x) l.

Lemma mem_spec (x : string) (l : list string) : mem x l = true <-> x ∈ l.
Proof.
  unfold mem. rewrite existsb_exists. split.
  - intros (y & Hy & ->%String.eqb_eq). by apply list_elem_of_In.
  - intros Hx. exists x. split; [by apply list_elem_of_In|apply String.eqb_refl].
Qed.

Example str_examples :
  strip_prefix "Bearer abc" "Bearer " = Some "abc" /\ ends_with "/v1/chat" "/chat" = true /\
  strip_suffix "gpt-*" "*" = Some "gpt-" /\ str_contains "a:generateContent" ":gen" = true /\
  trim_end_matches (Ascii.ascii_of_nat 47) "/v1/models//" = "/v1/models" /\
  eq_ignore_ascii_case "X-Api-Key" "x-api-key" = true.
Proof. vm_compute. repeat split. Qed.

(** * What they compute *)

Lemma prefix_spec (p s : string) : String.prefix p s = true <-> exists rest, s = p +:+ rest.
Proof.
  revert s. induction p as [|c p IH]; intros s.
  - split; [by exists s|]. by destruct s.
  - destruct s as [|d s]; [split; [done|by intros [r H]]|].
    change (String.prefix (String c p) (String d s))
      with (if Ascii.ascii_dec c d then String.prefix p s else false).
    change (String c p +:+ ?r) with (String c (p +:+ r)).
    destruct (Ascii.ascii_dec c d) as [->|Hne].
    + rewrite IH. split; intros [r H]; exists r; [by subst s|]. by injection H.
    + split; [done|]. intros [r H]. by injection H as ->.
Qed.

Lemma substring_whole (s : string) : String.substring 0 (String.length s) s = s.
Proof. induction s as [|c s IH]; [done|]. simpl. by rewrite IH. Qed.

Lemma substring_drop (p rest : string) (n : nat) :
  n = String.length rest -> String.substring (String.length p) n (p +:+ rest) = rest.
Proof. intros ->. induction p as [|c p IH]; [apply substring_whole|exact IH]. Qed.

Lemma length_app_string (a b : string) : String.length (a +:+ b) = (String.length a + String.length b)%nat.
Proof. induction a as [|c a IH]; [done|]. change (S (String.length (a +:+ b)) = S (String.length a + String.length b)). by rewrite IH. Qed.

Lemma strip_prefix_spec (s p rest : string) : strip_prefix s p = Some rest <-> s = p +:+ rest.
Proof.
  unfold strip_prefix. destruct (String.prefix p s) eqn:E.
  - apply prefix_spec in E as [r ->]. rewrite substring_drop by (rewrite length_app_string; lia).
    split; [by intros [= ->]|]. intros H. f_equal. clear -H.
    induction p as [|c p IH]; [done|]. injection H as H. by apply IH.
  - split; [done|]. intros ->. assert (String.prefix p (p +:+ rest) = true); [|congruence].
    apply prefix_spec. by exists rest.
Qed.

Lemma rev_string_app (a b : string) : rev_string (a +:+ b) = rev_string b +:+ rev_string a.
Proof.
  unfold rev_string.
  assert (Ha : forall x y, String.list_ascii_of_string (x +:+ y) =
    String.list_ascii_of_string x ++ String.list_ascii_of_string y).
  { intros x y. induction x as [|c x IH]; [done|]. simpl. by rewrite IH. }
  assert (Hs : forall x y, String.string_of_list_ascii (x ++ y) =
    String.string_of_list_ascii x +:+ String.string_of_list_ascii y).
  { intros x y. induction x as [|c x IH]; [done|]. simpl. by rewrite IH. }
  by rewrite Ha, rev_app_distr, Hs.
Qed.

Lemma rev_string_involutive (s : string) : rev_string (rev_string s) = s.
Proof.
  unfold rev_string. rewrite String.list_ascii_of_string_of_list_ascii, rev_involutive.
  apply String.string_of_list_ascii_of_string.
Qed.

Lemma ends_with_spec (s suffix : string) : ends_with s suffix = true <-> exists p, s = p +:+ suffix.
Proof.
  unfold ends_with. rewrite prefix_spec. split.
  - intros [r H]. exists (rev_string r). apply (f_equal rev_string) in H.
    by rewrite rev_string_involutive, rev_string_app, rev_string_involutive in H.
  - intros [p ->]. exists (rev_string p). apply rev_string_app.
Qed.

Lemma strip_suffix_spec (s suffix p : string) : strip_suffix s suffix = Some p <-> s = p +:+ suffix.
Proof.
  assert (Hsub : forall a b, String.substring 0 (String.length a) (a +:+ b) = a).
  { intros a b. induction a as [|c a IH]; simpl; [by destruct b|]. by rewrite IH. }
  unfold strip_suffix. destruct (ends_with s suffix) eqn:E.
  - apply ends_with_spec in E as [q ->]. rewrite length_app_string, Nat.add_sub, Hsub.
    split; [by intros [= ->]|]. intros H. f_equal. apply (f_equal rev_string) in H.
    rewrite !rev_string_app in H. rewrite <- (rev_string_involutive q), <- (rev_string_involutive p).
    f_equal. revert H. generalize (rev_string suffix). intros x. induction x as [|c x IH]; simpl; [done|].
    intros [= H]. by apply IH.
  - split; [done|]. intros ->. assert (ends_with (p +:+ suffix) suffix = true); [|congruence].
    apply ends_with_spec. by exists p.
Qed.
