(* ===== verification/Credentials.v ===== *)
(** What a request presents as credentials, and which routes need none
    ([server/middleware/helpers.rs], [server/middleware/auth.rs]).

    The validity of a header name and the text of a header value are those of the
    HTTP library. *)

From S2P Require Import Prelude Text StrOps Ip Principals ClientKey.

Inductive AuthMethod :=
| Jwt (token : string)
| ApiKeyMethod (key : string)
| Session (session_id : string)
| NoMethod.

Section Headers.
Variable to_str : bytes -> option string.        (* HeaderValue::to_str *)
Variable header_name : string -> bool.           (* HeaderName::try_from succeeds *)

(** The first value of a field, when it is text. *)
Definition header_text (r : Request) (name : string) : option string := get r name ≫= to_str.

Definition get_header_value (r : Request) (name : string) : option string :=
  let trimmed := trim name in
  if String.eqb trimmed "" || eq_ignore_ascii_case trimmed "authorization"
     || eq_ignore_ascii_case trimmed "cookie"
  then None
  else if header_name trimmed then header_text r (to_ascii_lowercase trimmed) else None.

Definition authorization_method (auth_str : string) : option AuthMethod :=
  match strip_prefix auth_str "Bearer " with
  | Some token => Some (Jwt token)
  | None =>
      match strip_prefix auth_str "ApiKey " with
      | Some key => Some (ApiKeyMethod key)
      | None => if starts_with auth_str "gw-" then Some (ApiKeyMethod auth_str) else None
      end
  end.

Definition semicolon : Ascii.ascii := Ascii.ascii_of_nat 59.

(** The first cookie named [session]. *)
Fixpoint session_cookie (cookies : list bytes) : option string :=
  match cookies with
  | [] => None
  | cookie :: cookies =>
      match strip_prefix (trim (to_string cookie)) "session=" with
      | Some session_id => Some session_id
      | None => session_cookie cookies
      end
  end.

Definition extract_auth_method_with_api_key_header (r : Request) (api_key_header : string)
    : AuthMethod :=
  match header_text r "authorization" ≫= authorization_method with
  | Some method => method
  | None =>
      match get_header_value r api_key_header with
      | Some key => ApiKeyMethod key
      | None =>
          match (if eq_ignore_ascii_case api_key_header "x-api-key" then None
                 else get_header_value r "x-api-key") with
          | Some key => ApiKeyMethod key
          | None =>
              match header_text r "cookie" ≫= fun cookie =>
                      session_cookie (split_on semicolon (of_string cookie)) with
              | Some session_id => Session session_id
              | None => NoMethod
              end
          end
      end
  end.

Definition extract_auth_method (r : Request) : AuthMethod :=
  extract_auth_method_with_api_key_header r "x-api-key".
End Headers.

(** * Routes *)

Definition PUBLIC_ROUTES : list string :=
  ["/health"; "/health/ready"; "/auth/login"; "/auth/login/callback"; "/auth/register";
   "/auth/forgot-password"; "/auth/reset-password"; "/auth/verify-email"; "/admin/dashboard";
   "/admin/dashboard/app.css"; "/admin/dashboard/app.js"; "/admin/dashboard/budget.js";
   "/admin/dashboard/providers.js"; "/admin/dashboard/provider-health.js";
   "/admin/dashboard/routing-inventory.js"; "/admin/dashboard/request-ledger.js";
   "/admin/dashboard/routing-policy.js"; "/docs"; "/openapi.json"].

Definition is_public_route (path : string) : bool := mem path PUBLIC_ROUTES.

Definition bypasses_header_auth (path : string) (auth_method : AuthMethod) : bool :=
  if String.eqb path "/health/ready" then
    match auth_method with NoMethod => true | _ => false end
  else is_public_route path || String.eqb path "/auth/refresh".

Definition requires_auth_verification (auth_method : AuthMethod) : bool :=
  match auth_method with Jwt _ | ApiKeyMethod _ | Session _ => true | NoMethod => false end.

Definition is_admin_route (path : string) : bool :=
  existsb (fun route => String.eqb path route || starts_with path (route +:+ "/")) ["/admin"; "/api/admin"].

Definition is_api_route (path : string) : bool :=
  existsb (fun route => starts_with path route)
    ["/v1/chat/completions"; "/v1/embeddings"; "/v1/images"; "/v1/audio"; "/v1/models"].
