(* ===== verification/Authorization.v ===== *)
(** What an authenticated caller may do ([server/routes/ai/context.rs],
    [server/routes/ai/mod.rs]): the operation a path stands for, the permissions
    of users and keys, and the runtime policy of a key over endpoints, models and
    output tokens. *)

From S2P Require Import Prelude Text StrOps Principals.

(** * Operations *)

Definition slash_char : Ascii.ascii := Ascii.ascii_of_nat 47.

Definition operation_for_path (path : string) : option string :=
  let n := trim_end_matches slash_char path in
  let exactly p := String.eqb n p in
  let under p := starts_with n p in
  let ends p := ends_with n p in
  if exactly "/v1/realtime" then Some "realtime"
  else if exactly "/v1/chat/completions" || exactly "/v1/messages"
          || (under "/v1/engines/" && ends "/chat/completions")
          || (under "/openai/deployments/" && ends "/chat/completions") then Some "chat"
  else if exactly "/completions" || exactly "/v1/completions"
          || (under "/engines/" && ends "/completions")
          || (under "/v1/engines/" && ends "/completions")
          || (under "/openai/deployments/" && ends "/completions") then Some "completions"
  else if exactly "/v1/embeddings" || (under "/v1/engines/" && ends "/embeddings")
          || (under "/openai/deployments/" && ends "/embeddings") then Some "embeddings"
  else if under "/v1/images/" then Some "images"
  else if under "/v1/audio/" then Some "audio"
  else if exactly "/moderations" || exactly "/v1/moderations" then Some "moderations"
  else if exactly "/rerank" || exactly "/v1/rerank" then Some "rerank"
  else if exactly "/v1/files" || under "/v1/files/" then Some "files"
  else if exactly "/v1/fine_tuning/jobs" || under "/v1/fine_tuning/jobs/" then Some "fine_tuning"
  else if exactly "/v1/models" || exactly "/v1/engines" then Some "models"
  else if under "/v1/models/" || under "/v1/engines/" then
    if str_contains n ":generateContent" || str_contains n ":streamGenerateContent"
    then Some "chat" else Some "models"
  else if exactly "/v1/responses" || under "/v1/responses/" then Some "chat"
  else if exactly "/v1/batches" || under "/v1/batches/" then Some "batches"
  else if under "/v1beta/models/" || under "/gemini/v1beta/models/" || under "/gemini/v1/models/"
  then Some "chat"
  else None.

Definition is_openai_compatible_path (path : string) : bool :=
  match operation_for_path path with
  | Some operation => negb (String.eqb operation "messages")
  | None => false
  end.

(** * Permissions *)

Definition is_management_operation (operation : string) : bool :=
  mem operation ["keys.list_all"; "api_keys.read"; "api_keys.write"; "api_keys.delete";
                 "users.manage"; "config.manage"; "teams.manage"; "analytics.admin"].

Definition is_private_operation (operation : string) : bool :=
  starts_with operation "a2a." || starts_with operation "mcp.".

Definition permission_matches_operation (permission operation : string) : bool :=
  String.eqb permission operation
  || bool_decide (strip_prefix permission "api." = Some operation)
  || (String.eqb permission "use:api" && negb (is_management_operation operation)
      && negb (starts_with operation "a2a.") && negb (starts_with operation "mcp.")).

Definition is_admin_permission (permission : string) : bool :=
  String.eqb permission "*" || String.eqb permission "system.admin".

Section Policy.
Context `{JsonValues}.

Definition api_key_has_admin_permission_checked (key : ApiKey) : result bool string :=
  match runtime_key_permissions key with
  | Err e => Err e
  | Ok runtime =>
      let direct := existsb is_admin_permission (permissions key) in
      let runtime_admin :=
        match runtime with
        | Some p => is_admin p || existsb is_admin_permission (custom_permissions p)
        | None => false
        end in
      Ok (direct || runtime_admin)
  end.

(** A policy that does not parse grants nothing. *)
Definition api_key_has_admin_permission (key : ApiKey) : bool :=
  match api_key_has_admin_permission_checked key with Ok b => b | Err _ => false end.

Definition api_key_has_explicit_operation_permissions (key : ApiKey) : bool :=
  match permissions key with
  | _ :: _ => true
  | [] =>
      match runtime_key_permissions key with
      | Ok (Some p) => is_admin p || negb (bool_decide (custom_permissions p = []))
      | _ => false
      end
  end.

Definition api_key_has_operation_permission (key : ApiKey) (operation : string) : bool :=
  existsb (fun p => permission_matches_operation p operation) (permissions key) ||
  match runtime_key_permissions key with
  | Ok (Some p) => existsb (fun p => permission_matches_operation p operation) (custom_permissions p)
  | _ => false
  end.

Definition user_is_admin (u : User) : bool :=
  match role u with SuperAdmin | Admin => true | _ => false end.

Definition on_key (f : ApiKey -> bool) (key : option ApiKey) : bool :=
  match key with Some key => f key | None => false end.
Definition on_user (f : User -> bool) (u : option User) : bool :=
  match u with Some u => f u | None => false end.

Definition check_permission (user : option User) (api_key : option ApiKey) (operation : string) : bool :=
  match user, api_key with
  | None, None => false
  | _, _ =>
      if on_key api_key_has_admin_permission api_key then true
      else if on_key (fun k => api_key_has_operation_permission k operation) api_key then true
      else if bool_decide (is_Some api_key) && is_private_operation operation then false
      else if on_key api_key_has_explicit_operation_permissions api_key then false
      else if on_user user_is_admin user then true
      else if is_management_operation operation then false
      else true
  end.

(** * The runtime policy of a key *)

Definition pattern_allows (pattern value : string) : bool :=
  String.eqb pattern "*" || String.eqb pattern value
  || match strip_suffix pattern "*" with Some prefix => starts_with value prefix | None => false end.

Definition pattern_list_allows (patterns : list string) (value : string) : bool :=
  match patterns with
  | [] => true
  | _ => existsb (fun pattern => pattern_allows pattern value) patterns
  end.

Definition api_key_allows_endpoint (api_key : option ApiKey) (endpoint : string) : result bool string :=
  match api_key with
  | None => Ok true
  | Some key =>
      match runtime_key_permissions key with
      | Err e => Err e
      | Ok None => Ok true
      | Ok (Some p) => Ok (pattern_list_allows (allowed_endpoints p) endpoint)
      end
  end.

Definition api_key_output_limit (key : ApiKey) : result (option Z) string :=
  match runtime_key_permissions key with
  | Err e => Err e
  | Ok runtime => Ok (runtime ≫= max_tokens_per_request)
  end.

Inductive KeyPolicyError :=
| PolicyInvalid (message : string)
| ModelForbidden (model : string)
| TokensExceeded (requested limit : Z).

Definition enforce_key_model_and_token_limits (key : ApiKey) (model : string)
    (requested_tokens : option Z) : result unit KeyPolicyError :=
  match runtime_key_permissions key with
  | Err e => Err (PolicyInvalid e)
  | Ok None => Ok tt
  | Ok (Some p) =>
      if negb (pattern_list_allows (allowed_models p) model) then Err (ModelForbidden model)
      else
        match max_tokens_per_request p, requested_tokens with
        | Some limit, Some requested =>
            if limit <? requested then Err (TokensExceeded requested limit) else Ok tt
        | _, _ => Ok tt
        end
  end.

(** [enforce_api_key_model_and_token_limits] of the key attached to a request. *)
Definition enforce_api_key_model_and_token_limits (api_key : option ApiKey) (model : string)
    (requested_tokens : option Z) : result unit KeyPolicyError :=
  match api_key with
  | None => Ok tt
  | Some key => enforce_key_model_and_token_limits key model requested_tokens
  end.
End Policy.

(** * What permissions grant *)

(** A permission names the operation, names it under [api.], or is [use:api],
    which covers ordinary operations. *)
Definition grants (permission operation : string) : Prop :=
  permission = operation \/ permission = "api." +:+ operation \/
  permission = "use:api" /\ is_management_operation operation = false /\
  is_private_operation operation = false.

Lemma permission_matches_grants (permission operation : string) :
  permission_matches_operation permission operation = true <-> grants permission operation.
Proof.
  unfold permission_matches_operation, grants, is_private_operation.
  rewrite !orb_true_iff, !andb_true_iff, !negb_true_iff, !String.eqb_eq, orb_false_iff.
  rewrite bool_decide_eq_true, strip_prefix_spec. naive_solver.
Qed.

Section Meaning.
Context `{JsonValues}.

(** The permissions a key lists itself and in its runtime policy. *)
Definition listed_permissions (key : ApiKey) : list string :=
  permissions key ++
  match runtime_key_permissions key with Ok (Some p) => custom_permissions p | _ => [] end.

(** A key has every permission: its policy is sound, and says so. *)
Definition admin_key (key : ApiKey) : Prop :=
  is_ok (runtime_key_permissions key) = true /\
  ((exists p, p ∈ listed_permissions key /\ is_admin_permission p = true) \/
   exists p, runtime_key_permissions key = Ok (Some p) /\ is_admin p = true).

Lemma existsb_app_elem (f : string -> bool) (l : list string) :
  existsb f l = true <-> exists p, p ∈ l /\ f p = true.
Proof.
  rewrite existsb_exists. split; intros (p & Hp & Hf); exists p; by rewrite ?list_elem_of_In in *.
Qed.

Lemma admin_key_spec (key : ApiKey) : api_key_has_admin_permission key = true <-> admin_key key.
Proof.
  unfold api_key_has_admin_permission, api_key_has_admin_permission_checked, admin_key, listed_permissions.
  destruct (runtime_key_permissions key) as [[p|]|e]; cbn [is_ok].
  - rewrite !orb_true_iff, !existsb_app_elem. setoid_rewrite elem_of_app. split.
    + intros [(q & ? & ?)|[?|(q & ? & ?)]]; (split; [done|]); [left|right|left]; eauto.
    + intros [_ [(q & [?|?] & ?)|(q & [= <-] & ?)]]; eauto.
  - rewrite orb_false_r, existsb_app_elem, app_nil_r. split; [by split; [|left]|].
    by intros [_ [?|(q & ? & _)]].
  - split; [done|]. by intros [? _].
Qed.

Lemma operation_permission_spec (key : ApiKey) (operation : string) :
  api_key_has_operation_permission key operation = true <->
  exists p, p ∈ listed_permissions key /\ grants p operation.
Proof.
  unfold api_key_has_operation_permission, listed_permissions.
  setoid_rewrite <- permission_matches_grants. setoid_rewrite elem_of_app.
  rewrite orb_true_iff, existsb_app_elem.
  destruct (runtime_key_permissions key) as [[p|]|e]; rewrite ?existsb_app_elem; split.
  1: intros [(q & ? & ?)|(q & ? & ?)]; eauto.
  1: intros (q & [?|?] & ?); eauto.
  all: try (intros [(q & ? & ?)|?]; [eauto|done]).
  all: intros (q & [?|Hq] & ?); [eauto|inversion Hq].
Qed.

(** A key restricts its bearer when it lists permissions of its own. *)
Lemma explicit_spec (key : ApiKey) :
  api_key_has_admin_permission key = false ->
  api_key_has_explicit_operation_permissions key = true <-> listed_permissions key <> [].
Proof.
  unfold api_key_has_admin_permission, api_key_has_admin_permission_checked,
    api_key_has_explicit_operation_permissions, listed_permissions.
  destruct (permissions key) as [|q qs]; [|done].
  destruct (runtime_key_permissions key) as [[p|]|e]; cbn [app existsb orb]; [|done|done].
  intros Ha. apply orb_false_elim in Ha as [-> _]. cbn [orb].
  by rewrite negb_true_iff, bool_decide_eq_false.
Qed.

(** C33: Keys confine their bearers.  A key without administrator permission that
    lists permissions allows exactly the operations one of them grants, whatever
    the role of its owner, a super administrator included.  A key that lists none
    allows what its owner may do except the private integrations, and a caller
    without a key what its role allows: management operations are for
    administrators.  Nobody unauthenticated is allowed anything. *)
Theorem keys_confine (user : option User) (api_key : option ApiKey) (operation : string) :
  check_permission user api_key operation = true <->
  match api_key with
  | Some key =>
      admin_key key \/
      (exists p, p ∈ listed_permissions key /\ grants p operation) \/
      listed_permissions key = [] /\ is_private_operation operation = false /\
      (is_management_operation operation = true -> on_user user_is_admin user = true)
  | None =>
      user <> None /\ (is_management_operation operation = true -> on_user user_is_admin user = true)
  end.
Proof.
  destruct api_key as [key|].
  - assert (Hc : check_permission user (Some key) operation =
      if api_key_has_admin_permission key then true
       else if api_key_has_operation_permission key operation then true
       else if bool_decide (is_Some (Some key)) && is_private_operation operation then false
       else if api_key_has_explicit_operation_permissions key then false
       else if on_user user_is_admin user then true
       else if is_management_operation operation then false else true) by (destruct user; reflexivity).
    rewrite Hc. clear Hc. rewrite <- admin_key_spec, <- operation_permission_spec.
    rewrite (bool_decide_eq_true_2 (is_Some (Some key))) by by eexists.
    destruct (api_key_has_admin_permission key) eqn:Ea; [by split; [left|]|].
    pose proof (explicit_spec key Ea) as He.
    destruct (api_key_has_operation_permission key operation); [by split; [right; left|]|].
    cbn [andb]. destruct (is_private_operation operation); [naive_solver|].
    destruct (api_key_has_explicit_operation_permissions key).
    + split; [done|]. intros [|[|(Hn & _)]]; try done. by destruct (proj1 He eq_refl).
    + assert (Hn : listed_permissions key = []).
      { destruct (listed_permissions key) as [|x xs]; [done|]. by assert (false = true) by by apply He. }
      destruct (on_user user_is_admin user), (is_management_operation operation); naive_solver.
  - destruct user as [u|]; [|naive_solver].
    unfold check_permission. cbn [on_user on_key]. destruct (user_is_admin u), (is_management_operation operation);
      rewrite ?bool_decide_eq_false_2 by (by intros [? [=]]); naive_solver.
Qed.
End Meaning.

(** ** Patterns *)

Definition pattern_covers (pattern value : string) : Prop :=
  pattern = "*" \/ pattern = value \/
  exists p rest, pattern = p +:+ "*" /\ value = p +:+ rest.

Lemma pattern_allows_spec (pattern value : string) :
  pattern_allows pattern value = true <-> pattern_covers pattern value.
Proof.
  unfold pattern_allows, pattern_covers. rewrite !orb_true_iff, !String.eqb_eq.
  destruct (strip_suffix pattern "*") as [p|] eqn:E.
  - apply strip_suffix_spec in E. unfold starts_with. rewrite prefix_spec. split.
    + intros [[?|?]|[r ->]]; [by left|by right; left|right; right; by exists p, r].
    + intros [?|[?|(q & r & Hq & ->)]]; [by left; left|by left; right|]. right. exists r. f_equal.
      assert (Hs : strip_suffix pattern "*" = Some q) by by apply strip_suffix_spec.
      apply strip_suffix_spec in E. congruence.
  - split; [intros [[?|?]|?]; [by left|by right; left|done]|].
    intros [?|[?|(q & r & Hq & ->)]]; [by left; left|by left; right|].
    apply strip_suffix_spec in Hq. congruence.
Qed.

Lemma pattern_list_spec (patterns : list string) (value : string) :
  pattern_list_allows patterns value = true <->
  patterns = [] \/ exists p, p ∈ patterns /\ pattern_covers p value.
Proof.
  unfold pattern_list_allows. destruct patterns as [|q qs]; [by split; [left|]|].
  rewrite existsb_app_elem. setoid_rewrite pattern_allows_spec.
  split; [by right|by intros [|]].
Qed.

(** A key's policy over models and output tokens is enforced.  A request is let
    through exactly when the key has no policy, or the policy parses, its model
    patterns are empty or one covers the model, and the tokens asked for are
    within the limit if both are given.  A policy that does not parse lets
    nothing through. *)
Theorem key_policy_enforced `{JsonValues} (key : ApiKey) (model : string) (requested : option Z) :
  enforce_key_model_and_token_limits key model requested = Ok tt <->
  runtime_key_permissions key = Ok None \/
  exists p, runtime_key_permissions key = Ok (Some p) /\
    (allowed_models p = [] \/ exists m, m ∈ allowed_models p /\ pattern_covers m model) /\
    (forall limit tokens, max_tokens_per_request p = Some limit -> requested = Some tokens -> tokens <= limit).
Proof.
  unfold enforce_key_model_and_token_limits.
  destruct (runtime_key_permissions key) as [[p|]|e].
  - pose proof (pattern_list_spec (allowed_models p) model) as Hp.
    destruct (pattern_list_allows (allowed_models p) model); cbn [negb].
    + split.
      * intros Ht. right. exists p. split_and!; [done|by apply Hp|]. intros limit tokens Hl ->.
        rewrite Hl in Ht. destruct (Z.ltb_spec limit tokens); [done|lia].
      * intros [[=]|(q & [= <-] & _ & Ht)].
        destruct (max_tokens_per_request p) as [limit|]; [|done]. destruct requested as [tokens|]; [|done].
        rewrite (proj2 (Z.ltb_ge _ _)); [done|by apply Ht].
    + split; [done|]. intros [[=]|(q & [= <-] & Hm & _)]. by apply Hp in Hm.
  - by split; [left|].
  - split; [done|]. by intros [[=]|(q & [=] & _)].
Qed.
