(* ===== verification/Tokens.v ===== *)
(** The tokens the gateway issues and accepts ([auth/jwt/]): access, refresh,
    password reset, email verification and invitation tokens.

    Signing and checking are those of the [jsonwebtoken] library, an interface
    with the laws the code relies on.  The payload is the claims with the marker
    of the team scope: serialised claims without a marker are read back as claims
    whose marker is absent. *)

From S2P Require Import Prelude.

Inductive TokenType := Access | Refresh | PasswordReset | EmailVerification | Invitation.
#[export] Instance TokenType_eq_dec : EqDecision TokenType.
Proof. solve_decision. Defined.

Record Claims := mkClaims {
  sub : string;
  iat : Z;                       (* u64 *)
  exp : Z;                       (* u64 *)
  iss : string;
  aud : string;
  jti : string;
  claim_role : string;
  claim_permissions : list string;
  claim_team : option string;
  session_id : option string;
  token_type : TokenType;
}.

Inductive TeamScopeMarker := Absent | Present (version : Z).   (* u8 *)

Record AccessTokenClaims := mkAccess {
  public : Claims;
  team_scope_version : TeamScopeMarker;
}.

(** A proof that a membership and its team are active; only
    [validate_active_team] makes one. *)
Record VerifiedActiveTeam := mkVerified { verified_user : string; verified_team : string }.

Definition matches_user (v : VerifiedActiveTeam) (user_id : string) : bool :=
  String.eqb (verified_user v) user_id.

Record TokenPair := mkPair {
  access_token : string;
  refresh_token : string;
  pair_type : string;
  expires_in : Z;
}.

(** * The signing library *)

Record Validation := mkValidation { issuer_is : string; audience_is : string }.

Class JwtLibrary := {
  SigningKey : Type;
  encode : SigningKey -> AccessTokenClaims -> result string string;
  (** [decode] under a validation at a time, in seconds. *)
  decode : SigningKey -> Validation -> Z -> string -> result AccessTokenClaims string;
  leeway : Z;
}.

(** Documented behaviour: what is accepted was signed with the key for this
    issuer and audience and has not expired, and a token that was signed is
    accepted under the same conditions with the claims it was made of. *)
Class JwtLaws `(JwtLibrary) := {
  decode_encoded : forall key c token v now c',
    encode key c = Ok token -> decode key v now token = Ok c' ->
    c' = c /\ iss (public c) = issuer_is v /\ aud (public c) = audience_is v /\
    now <= exp (public c) + leeway;
  decode_accepts : forall key c token v now,
    encode key c = Ok token -> iss (public c) = issuer_is v -> aud (public c) = audience_is v ->
    now <= exp (public c) -> decode key v now token = Ok c;
}.

Section Handler.
Context `{JwtLibrary}.

Record JwtHandler := mkHandler {
  signing_key : SigningKey;      (* encoding and decoding key of the same secret *)
  expiration : Z;                (* u64 *)
  issuer : string;
}.

Variable h : JwtHandler.

(** * Issuing

    [now] is the clock in seconds, [jti] the random identifier. *)

Definition encode_plain (c : Claims) : result string string := encode (signing_key h) (mkAccess c Absent).

Definition encode_access_token (now : Z) (jti user_id role : string) (permissions : list string)
    (team_id session_id : option string) : result string string :=
  encode (signing_key h)
    (mkAccess
      (mkClaims user_id now (wrap_u64 (now + expiration h)) (issuer h) "api" jti role permissions
        team_id session_id Access)
      (Present 1)).

Definition create_access_token (now : Z) (jti user_id role : string) (permissions : list string)
    (team_id session_id : option string) : result string string :=
  match team_id with
  | Some _ => Err "Active team selection requires verified membership"
  | None => encode_access_token now jti user_id role permissions None session_id
  end.

Definition create_access_token_for_verified_team (now : Z) (jti user_id role : string)
    (permissions : list string) (team : VerifiedActiveTeam) (session_id : option string)
    : result string string :=
  if negb (matches_user team user_id) then Err "Verified team proof does not match token subject"
  else encode_access_token now jti user_id role permissions (Some (verified_team team)) session_id.

Definition create_refresh_token (now : Z) (jti user_id : string) (session_id : option string)
    : result string string :=
  encode_plain
    (mkClaims user_id now (wrap_u64 (now + wrap_u64 (expiration h * 24))) (issuer h) "refresh" jti
      "" [] None session_id Refresh).

Definition pair_of (access refresh : result string string) : result TokenPair string :=
  match access with
  | Err e => Err e
  | Ok access =>
      match refresh with
      | Err e => Err e
      | Ok refresh => Ok (mkPair access refresh "Bearer" (expiration h))
      end
  end.

(** The two tokens are made one after the other, each with its own clock reading
    and identifier. *)
Definition create_token_pair (now now' : Z) (jti jti' user_id role : string)
    (permissions : list string) (team_id session_id : option string) : result TokenPair string :=
  pair_of (create_access_token now jti user_id role permissions team_id session_id)
    (create_refresh_token now' jti' user_id session_id).

Definition create_token_pair_for_verified_team (now now' : Z) (jti jti' user_id role : string)
    (permissions : list string) (team : VerifiedActiveTeam) (session_id : option string)
    : result TokenPair string :=
  pair_of (create_access_token_for_verified_team now jti user_id role permissions team session_id)
    (create_refresh_token now' jti' user_id session_id).

Definition create_password_reset_token (now : Z) (jti user_id : string) : result string string :=
  encode_plain
    (mkClaims user_id now (wrap_u64 (now + 3600)) (issuer h) "password_reset" jti "" [] None None
      PasswordReset).

Definition create_email_verification_token (now : Z) (jti user_id : string) : result string string :=
  encode_plain
    (mkClaims user_id now (wrap_u64 (now + 86400)) (issuer h) "email_verification" jti "" [] None None
      EmailVerification).

Definition create_invitation_token (now : Z) (jti user_id team_id role : string)
    : result string string :=
  encode_plain
    (mkClaims user_id now (wrap_u64 (now + 604800)) (issuer h) "invitation" jti role []
      (Some team_id) None Invitation).

(** * Accepting *)

Definition decode_for (audience : string) (now : Z) (token : string)
    : result AccessTokenClaims string :=
  decode (signing_key h) (mkValidation (issuer h) audience) now token.

Definition verify_access_token_with_provenance (now : Z) (token : string)
    : result AccessTokenClaims string :=
  match decode_for "api" now token with
  | Err e => Err ("JWT error: " +:+ e)
  | Ok claims =>
      match team_scope_version claims with
      | Present version =>
          if negb (version =? 1) then Err "Unsupported access-token team scope version" else Ok claims
      | Absent => Ok claims
      end
  end.

Definition verify_access_token (now : Z) (token : string) : result Claims string :=
  match verify_access_token_with_provenance now token with
  | Ok claims => Ok (public claims)
  | Err e => Err e
  end.

(** Verification of a token of one type for one audience. *)
Definition verify_typed (audience : string) (type : TokenType) (wrong_type : string) (now : Z)
    (token : string) : result Claims string :=
  match decode_for audience now token with
  | Err e => Err ("JWT error: " +:+ e)
  | Ok claims =>
      if bool_decide (token_type (public claims) = type) then Ok (public claims) else Err wrong_type
  end.

Definition verify_refresh_token (now : Z) (token : string) : result string string :=
  match verify_typed "refresh" Refresh "Invalid token type for refresh" now token with
  | Ok claims => Ok (sub claims)
  | Err e => Err e
  end.

Definition verify_password_reset_token (now : Z) (token : string) : result string string :=
  match verify_typed "password_reset" PasswordReset "Invalid token type for password reset" now token with
  | Ok claims => Ok (sub claims)
  | Err e => Err e
  end.

Definition verify_email_verification_token (now : Z) (token : string) : result string string :=
  match verify_typed "email_verification" EmailVerification
          "Invalid token type for email verification" now token with
  | Ok claims => Ok (sub claims)
  | Err e => Err e
  end.

Definition verify_invitation_token (now : Z) (token : string)
    : result (string * string * string) string :=
  match verify_typed "invitation" Invitation "Invalid token type for invitation" now token with
  | Err e => Err e
  | Ok claims =>
      match claim_team claims with
      | Some team_id => Ok (sub claims, team_id, claim_role claims)
      | None => Err "Missing team ID in invitation token"
      end
  end.

(** * Utilities ([utils.rs]) *)

(** [None] is a clock before the epoch. *)
Definition is_token_expired (now : option Z) (claims : Claims) : bool :=
  exp claims <? default u64_max now.

Definition time_until_expiry (now : option Z) (claims : Claims) : option Z :=
  now ← now; if now <? exp claims then Some (exp claims - now) else None.
End Handler.

(** * Purposes *)

(** What a token can be issued as, with the data of its maker. *)
Inductive Issue :=
| IssueAccess (role : string) (permissions : list string) (session : option string)
| IssueTeamAccess (role : string) (permissions : list string) (team : VerifiedActiveTeam)
    (session : option string)
| IssueRefresh (session : option string)
| IssuePasswordReset
| IssueEmailVerification
| IssueInvitation (team_id role : string).

Definition purpose (i : Issue) : TokenType :=
  match i with
  | IssueAccess _ _ _ | IssueTeamAccess _ _ _ _ => Access
  | IssueRefresh _ => Refresh
  | IssuePasswordReset => PasswordReset
  | IssueEmailVerification => EmailVerification
  | IssueInvitation _ _ => Invitation
  end.

Section Purposes.
Context `{JwtLaws}.
Variable h : JwtHandler.

Definition issue (i : Issue) (now : Z) (jti user_id : string) : result string string :=
  match i with
  | IssueAccess role permissions session =>
      create_access_token h now jti user_id role permissions None session
  | IssueTeamAccess role permissions team session =>
      create_access_token_for_verified_team h now jti user_id role permissions team session
  | IssueRefresh session => create_refresh_token h now jti user_id session
  | IssuePasswordReset => create_password_reset_token h now jti user_id
  | IssueEmailVerification => create_email_verification_token h now jti user_id
  | IssueInvitation team_id role => create_invitation_token h now jti user_id team_id role
  end.

(** The verifier of each purpose, and the subject it accepts. *)
Definition subject_for (p : TokenType) (now : Z) (token : string) : option string :=
  match p with
  | Access => match verify_access_token h now token with Ok c => Some (sub c) | Err _ => None end
  | Refresh => match verify_refresh_token h now token with Ok u => Some u | Err _ => None end
  | PasswordReset => match verify_password_reset_token h now token with Ok u => Some u | Err _ => None end
  | EmailVerification =>
      match verify_email_verification_token h now token with Ok u => Some u | Err _ => None end
  | Invitation =>
      match verify_invitation_token h now token with Ok (u, _, _) => Some u | Err _ => None end
  end.

(** Seconds a token of each kind lives. *)
Definition lifetime (p : TokenType) : Z :=
  match p with
  | Access => expiration h
  | Refresh => expiration h * 24
  | PasswordReset => 3600
  | EmailVerification => 86400
  | Invitation => 604800
  end.

Definition audience (p : TokenType) : string :=
  match p with
  | Access => "api" | Refresh => "refresh" | PasswordReset => "password_reset"
  | EmailVerification => "email_verification" | Invitation => "invitation"
  end.

Lemma audience_inj (p q : TokenType) : audience p = audience q -> p = q.
Proof. by destruct p, q. Qed.

Definition expires (p : TokenType) (now : Z) : Z :=
  match p with
  | Refresh => wrap_u64 (now + wrap_u64 (expiration h * 24))
  | p => wrap_u64 (now + lifetime p)
  end.

(** The claims of an issued token. *)
Lemma issue_claims (i : Issue) (now : Z) (jti user_id token : string) :
  issue i now jti user_id = Ok token ->
  exists c, encode (signing_key h) c = Ok token /\ sub (public c) = user_id /\
    iss (public c) = issuer h /\ aud (public c) = audience (purpose i) /\
    token_type (public c) = purpose i /\ exp (public c) = expires (purpose i) now /\
    (team_scope_version c = Absent \/ team_scope_version c = Present 1) /\
    (purpose i = Invitation -> is_Some (claim_team (public c))).
Proof.
  destruct i as [r ps s|r ps t s|s| | |t r]; cbn [issue purpose].
  1: unfold create_access_token, encode_access_token.
  2: unfold create_access_token_for_verified_team, encode_access_token; destruct (negb _); [done|].
  all: intros He; eexists; split; [exact He|]; cbn; split_and!; try done; try (by left); try (by right).
Qed.

(** A verifier accepts only its own audience, at most the leeway too late. *)
Lemma subject_for_sound (q : TokenType) (now : Z) (token user_id : string) :
  subject_for q now token = Some user_id ->
  exists c, decode (signing_key h) (mkValidation (issuer h) (audience q)) now token = Ok c /\
    sub (public c) = user_id.
Proof.
  destruct q; cbn [subject_for audience];
    unfold verify_access_token, verify_access_token_with_provenance, verify_refresh_token,
      verify_password_reset_token, verify_email_verification_token, verify_invitation_token,
      verify_typed, decode_for.
  1: destruct (decode _ _ _ _) as [c|e] eqn:E; [|done]; destruct (team_scope_version c) as [|v];
       [|destruct (negb (v =? 1)); [done|]]; intros [= <-]; by exists c.
  all: destruct (decode _ _ _ _) as [c|e] eqn:E; [|done];
       destruct (bool_decide (token_type (public c) = _)); [|done].
  4: destruct (claim_team (public c)); [|done].
  all: intros [= <-]; by exists c.
Qed.

(** What was issued for a purpose is accepted for it while it lives. *)
Lemma subject_for_complete (i : Issue) (now now' : Z) (jti user_id token : string) :
  issue i now jti user_id = Ok token -> now' <= expires (purpose i) now ->
  subject_for (purpose i) now' token = Some user_id.
Proof.
  intros Hi Hn. destruct (issue_claims _ _ _ _ _ Hi) as (c & He & Hs & Hiss & Haud & Hty & Hexp & Hv & Ht).
  assert (Hd : decode (signing_key h) (mkValidation (issuer h) (audience (purpose i))) now' token = Ok c).
  { eapply decode_accepts; [exact He|exact Hiss|exact Haud|lia]. }
  revert Hd Hty Ht. generalize (purpose i). intros p Hd Hty Ht.
  destruct p; cbn [subject_for audience] in *;
    unfold verify_access_token, verify_access_token_with_provenance, verify_refresh_token,
      verify_password_reset_token, verify_email_verification_token, verify_invitation_token,
      verify_typed, decode_for; rewrite Hd.
  1: destruct Hv as [-> | ->]; cbn; by rewrite Hs.
  all: rewrite bool_decide_eq_true_2 by done.
  4: destruct (Ht eq_refl) as [t ->].
  all: by rewrite Hs.
Qed.
End Purposes.

(** C35: A token serves one purpose, for its lifetime.  Whatever is issued - access
    with or without a team, refresh, password reset, email verification or
    invitation - is accepted by the verifier of its purpose, for its subject,
    until it expires, and is refused by the verifier of every other purpose at any
    time, and by its own later than the leeway after it expires. *)
Theorem token_purposes `{JwtLaws} (h : JwtHandler) (i : Issue) (q : TokenType) (now now' : Z)
    (jti user_id token : string) :
  0 <= now -> 0 <= expiration h -> now + expiration h * 24 <= u64_max -> now + 604800 <= u64_max ->
  issue h i now jti user_id = Ok token ->
  (now' <= now + lifetime h (purpose i) -> subject_for h (purpose i) now' token = Some user_id) /\
  (forall other, subject_for h q now' token = Some other ->
    q = purpose i /\ other = user_id /\ now' <= now + lifetime h q + leeway).
Proof.
  intros Hn Hx Hb Hb' Hi.
  assert (Hexp : forall p, expires h p now = now + lifetime h p).
  { intros p. destruct p; cbn [expires lifetime]; rewrite ?(wrap_u64_small (_ * 24)) by (unfold fits_u64; lia);
      apply wrap_u64_small; unfold fits_u64; lia. }
  split.
  - intros Hlt. eapply subject_for_complete; [exact Hi|]. by rewrite Hexp.
  - intros other Ho. destruct (issue_claims h _ _ _ _ _ Hi) as (c & He & Hs & Hiss & Haud & Hty & Hc & _).
    destruct (subject_for_sound h _ _ _ _ Ho) as (c' & Hd & Hs').
    destruct (decode_encoded _ _ _ _ _ _ He Hd) as (-> & _ & Ha & Ht). cbn [audience_is] in Ha.
    assert (Hq : q = purpose i) by (apply audience_inj; congruence). subst q.
    rewrite Hc, Hexp in Ht. split_and!; congruence || lia.
Qed.

(** * An example library

    A token is its key and payload written in binary. *)

Definition zero : Ascii.ascii := Ascii.ascii_of_nat 48.
Definition one : Ascii.ascii := Ascii.ascii_of_nat 49.

Fixpoint pos_text (p : positive) : string :=
  match p with
  | xH => ""
  | xO p => String zero (pos_text p)
  | xI p => String one (pos_text p)
  end.

Fixpoint text_pos (s : string) : option positive :=
  match s with
  | EmptyString => Some xH
  | String c s =>
      p ← text_pos s;
      if Ascii.eqb c zero then Some (xO p) else if Ascii.eqb c one then Some (xI p) else None
  end.

Lemma text_pos_text (p : positive) : text_pos (pos_text p) = Some p.
Proof. induction p as [p IH|p IH|]; simpl; [by rewrite IH|by rewrite IH|done]. Qed.

Abbreviation Payload :=
  ((string * Z * Z * string * string) * (string * string * list string * option string * option string * nat)
   * option Z)%type.

Definition type_number (t : TokenType) : nat :=
  match t with Access => 0 | Refresh => 1 | PasswordReset => 2 | EmailVerification => 3 | Invitation => 4 end.
Definition number_type (n : nat) : TokenType :=
  match n with 0 => Access | 1 => Refresh | 2 => PasswordReset | 3 => EmailVerification | _ => Invitation end%nat.

Definition payload (c : AccessTokenClaims) : Payload :=
  let p := public c in
  ((sub p, iat p, exp p, iss p, aud p),
   (jti p, claim_role p, claim_permissions p, claim_team p, session_id p, type_number (token_type p)),
   match team_scope_version c with Absent => None | Present v => Some v end).

Definition of_payload (x : Payload) : AccessTokenClaims :=
  let '((s, i, e, isr, a), (j, r, ps, t, ses, ty), m) := x in
  mkAccess (mkClaims s i e isr a j r ps t ses (number_type ty))
    (match m with None => Absent | Some v => Present v end).

Lemma of_payload_payload (c : AccessTokenClaims) : of_payload (payload c) = c.
Proof. destruct c as [[s i e isr a j r ps t ses ty] [|v]]; by destruct ty. Qed.

Definition accepted (v : Validation) (now : Z) (c : AccessTokenClaims) : bool :=
  String.eqb (iss (public c)) (issuer_is v) && String.eqb (aud (public c)) (audience_is v)
  && (now <=? exp (public c) + 60).

#[export] Instance example_library : JwtLibrary := {|
  SigningKey := string;
  encode key c := Ok (pos_text (countable.encode (key, payload c)));
  decode key v now token :=
    match text_pos token ≫= countable.decode (A := string * Payload) with
    | Some (key', x) =>
        if String.eqb key key' && accepted v now (of_payload x) then Ok (of_payload x) else Err "refused"
    | None => Err "refused"
    end;
  leeway := 60;
|}.

#[export] Instance example_laws : JwtLaws example_library.
Proof.
  assert (Hd : forall key c token v now, encode key c = Ok token ->
    decode key v now token = if accepted v now c then Ok c else Err "refused").
  { intros key c token v now [= <-]. cbn [decode example_library].
    rewrite text_pos_text. cbn [mbind option_bind]. rewrite decode_encode.
    by rewrite String.eqb_refl, of_payload_payload. }
  split.
  - intros key c token v now c' He. rewrite (Hd _ _ _ _ _ He). unfold accepted.
    destruct (_ && _) eqn:E; [|done]. intros [= <-]. bool_arith.
    split_and!; [done|by apply String.eqb_eq|by apply String.eqb_eq|done].
  - intros key c token v now He Hi Ha Hn. rewrite (Hd _ _ _ _ _ He). unfold accepted.
    rewrite Hi, Ha, !String.eqb_refl. rewrite (proj2 (Z.leb_le _ _)); [done|]. simpl. lia.
Qed.

Definition example_handler : JwtHandler := mkHandler "secret" 3600 "litellm-rs".

(** A refresh token is no access token. *)
Lemma token_purposes_witness :
  exists token, create_refresh_token example_handler 1000 "id" "u1" None = Ok token /\
    subject_for example_handler Refresh 5000 token = Some "u1" /\
    subject_for example_handler Access 5000 token = None.
Proof.
  destruct (create_refresh_token example_handler 1000 "id" "u1" None) as [token|e] eqn:E; [|discriminate E].
  exists token. split; [reflexivity|].
  pose proof (token_purposes example_handler (IssueRefresh None) Access 1000 5000 "id" "u1" token
    ltac:(lia) ltac:(discriminate) ltac:(vm_compute; discriminate) ltac:(vm_compute; discriminate) E)
    as [H1 H2].
  split; [apply H1; vm_compute; discriminate|].
  destruct (subject_for example_handler Access 5000 token) as [other|]; [|reflexivity].
  destruct (H2 other eq_refl) as [H _]. discriminate H.
Defined.
