(* ===== verification/KeyStore.v ===== *)
(** API keys in the database ([storage/database/seaorm_db/api_key_ops.rs],
    [core/keys/database_repository.rs], [db_update.rs], [db_mapping.rs]) under
    concurrent operations.

    An operation is a program of SQL statements.  Statements of different
    operations interleave in any order, and any statement may fail: without
    effect, or after its effect when the answer is lost.  A row is the key that
    its columns encode; a key hash is unique and an identifier is the primary key
    ([migration/m20240101_000005_create_api_keys_table.rs]). *)

From Stdlib Require Import Floats.SpecFloat.
From S2P Require Import Prelude Float64 ProviderErrors GatewayErrors Principals.

(** * The runtime policy of a managed key *)

(** [KeyPermissions] has the fields that [RuntimeKeyPermissions] reads back, and
    [KeyRateLimits] those of [RateLimits]. *)
Definition KeyPermissions : Type := RuntimeKeyPermissions.
Definition KeyRateLimits : Type := RateLimits.

Record CoreKeysExtraPayload (J : Type) := mkPayload {
  description : option string;
  budget_id : option string;
  payload_permissions : option KeyPermissions;
  payload_metadata : J;
}.
Arguments mkPayload {J} _ _ _ _.
Arguments description {J} _.
Arguments budget_id {J} _.
Arguments payload_permissions {J} _.
Arguments payload_metadata {J} _.

(** serde's writing and reading of a payload, and JSON's [null]. *)
Class PayloadJson `{JsonValues} := {
  json_null : Json;
  payload_to_value : CoreKeysExtraPayload Json -> result Json string;
  payload_from_value : Json -> option (CoreKeysExtraPayload Json);
}.

(** An update of a managed key; [None] leaves a field as it is. *)
Record UpdateKeyConfig (J : Type) := mkUpdate {
  new_name : option string;
  new_description : option (option string);
  new_permissions : option KeyPermissions;
  new_rate_limits : option KeyRateLimits;
  new_budget_id : option (option string);
  new_expires_at : option (option Z);
  new_metadata : option J;
}.
Arguments mkUpdate {J} _ _ _ _ _ _ _.
Arguments new_name {J} _.
Arguments new_description {J} _.
Arguments new_permissions {J} _.
Arguments new_rate_limits {J} _.
Arguments new_budget_id {J} _.
Arguments new_expires_at {J} _.
Arguments new_metadata {J} _.

Definition to_domain_rate_limits (l : KeyRateLimits) : option RateLimits :=
  match l with mkRateLimits None None None None None => None | _ => Some l end.

Definition from_domain_rate_limits (l : option RateLimits) : KeyRateLimits :=
  default (mkRateLimits None None None None None) l.

Definition to_domain_permissions (p : KeyPermissions) : list string :=
  if is_admin p && negb (existsb (String.eqb "system.admin") (custom_permissions p))
  then custom_permissions p ++ ["system.admin"] else custom_permissions p.

Definition derive_permissions_from_domain (raw : list string) : KeyPermissions :=
  mkRuntime [] [] None (existsb (String.eqb "system.admin") raw) raw.

(** The table of keys, by identifier. *)
Abbreviation Rows := (gmap string ApiKey).

Section Store.
Context `{PayloadJson}.

Definition parse_payload (extra : gmap string Json) : CoreKeysExtraPayload Json :=
  default (mkPayload None None None json_null)
    (extra !! CORE_KEYS_EXTRA_NAMESPACE ≫= payload_from_value).

Definition write_payload (extra : gmap string Json) (p : CoreKeysExtraPayload Json)
    : result (gmap string Json) GatewayError :=
  match payload_to_value p with
  | Ok v => Ok (<[CORE_KEYS_EXTRA_NAMESPACE := v]> extra)
  | Err e => Err (GSerialization e)
  end.

(** [apply_update_config]; [now] is read by [touch]. *)
Definition apply_update_config (now : Z) (key : ApiKey) (c : UpdateKeyConfig Json)
    : result ApiKey GatewayError :=
  let payload := parse_payload (extra (metadata key)) in
  let payload :=
    mkPayload (default (description payload) (new_description c))
      (default (budget_id payload) (new_budget_id c))
      (match new_permissions c with Some p => Some p | None => payload_permissions payload end)
      (default (payload_metadata payload) (new_metadata c)) in
  let m := touch now (metadata key) in
  match write_payload (extra m) payload with
  | Err e => Err e
  | Ok extra =>
      Ok (mkApiKey (mkMetadata (meta_id m) (created_at m) (updated_at m) (version m) extra)
            (default (key_name key) (new_name c))
            (key_hash key) (key_prefix key) (key_user_id key) (key_team_id key)
            (match new_permissions c with Some p => to_domain_permissions p | None => permissions key end)
            (match new_rate_limits c with Some l => to_domain_rate_limits l | None => rate_limits key end)
            (default (expires_at key) (new_expires_at c))
            (is_active key) (last_used_at key) (usage_stats key))
  end.

(** * Statements and programs *)

Inductive Stmt :=
| FindById (id : string)
| FindByHash (hash : string)
| InsertRow (row : ApiKey)
| UpdateWhere (id : string) (version : Z) (assign : ApiKey -> ApiKey)
| DeleteById (id : string)
| DeleteExpired (now : Z).

Inductive Answer :=
| ARow (row : option ApiKey)
| AAffected (rows : Z)
| AError (message : string).

Definition row_with_hash (hash : string) (db : Rows) : option ApiKey :=
  snd <$> head (filter (fun p => key_hash p.2 = hash) (map_to_list db)).

Definition expired_row (now : Z) (k : ApiKey) : Prop :=
  match expires_at k with Some t => t < now | None => False end.
#[export] Instance expired_row_dec (now : Z) (k : ApiKey) : Decision (expired_row now k).
Proof. unfold expired_row. destruct (expires_at k); apply _. Defined.

(** What a statement does and answers. *)
Definition exec (s : Stmt) (db : Rows) : Rows * Answer :=
  match s with
  | FindById id => (db, ARow (db !! id))
  | FindByHash hash => (db, ARow (row_with_hash hash db))
  | InsertRow row =>
      match db !! key_id row, row_with_hash (key_hash row) db with
      | None, None => (<[key_id row := row]> db, AAffected 1)
      | _, _ => (db, AError "unique constraint violated")
      end
  | UpdateWhere id v assign =>
      match db !! id with
      | Some row =>
          if bool_decide (version (metadata row) = v)
          then (<[id := assign row]> db, AAffected 1) else (db, AAffected 0)
      | None => (db, AAffected 0)
      end
  | DeleteById id =>
      match db !! id with
      | Some _ => (delete id db, AAffected 1)
      | None => (db, AAffected 0)
      end
  | DeleteExpired now =>
      (filter (fun p => ~ expired_row now p.2) db,
       AAffected (Z.of_nat (size (filter (fun p => expired_row now p.2) db))))
  end.

(** A program: its result, or a statement and what follows its answer. *)
Inductive Prog (A : Type) :=
| Return (a : A)
| Query (s : Stmt) (next : Answer -> Prog A).
Arguments Return {A} _.
Arguments Query {A} _ _.

Definition Op (A : Type) := Prog (result A GatewayError).

Definition storage_error {A} (message : string) : Op A :=
  Return (Err (GStorage ("Database error: " +:+ message))).

(** [.one(..).await.map_err(GatewayError::from)?] *)
Definition one {A} (s : Stmt) (next : option ApiKey -> Op A) : Op A :=
  Query s (fun a => match a with
                    | ARow r => next r
                    | AError m => storage_error m
                    | AAffected _ => storage_error "unexpected result"
                    end).

(** [.exec(..).await.map_err(GatewayError::from)?] *)
Definition affected {A} (s : Stmt) (next : Z -> Op A) : Op A :=
  Query s (fun a => match a with
                    | AAffected n => next n
                    | AError m => storage_error m
                    | ARow _ => storage_error "unexpected result"
                    end).

Definition not_found : GatewayError := GNotFound "API key not found".
Definition modified_concurrently : GatewayError := GConflict "API key was modified concurrently".

(** [as i32], and [+] on it. *)
Definition wrap_i32 (x : Z) : Z := (x + 2 ^ 31) mod 2 ^ 32 - 2 ^ 31.

Definition stamp (now : Z) (v : Z) (k : ApiKey) : ApiKey :=
  let m := metadata k in
  mkApiKey (mkMetadata (meta_id m) (created_at m) now v (extra m)) (key_name k) (key_hash k)
    (key_prefix k) (key_user_id k) (key_team_id k) (permissions k) (rate_limits k) (expires_at k)
    (is_active k) (last_used_at k) (usage_stats k).

(** The transaction that every operation on one row repeats: read the row, write
    columns where the version is still the one read, and fail with a conflict when
    it is not.  [assign] is what is written, from the row that was read. *)
Definition versioned_update (id : string) (now : Z) (assign : ApiKey -> ApiKey -> ApiKey) : Op unit :=
  one (FindById id) (fun model =>
    match model with
    | None => Return (Err not_found)
    | Some model =>
        let current_version := version (metadata model) in
        let next_version := wrap_i32 (current_version + 1) in
        affected (UpdateWhere id current_version
                    (fun row => stamp now next_version (assign model row)))
          (fun n => Return (if n =? 0 then Err modified_concurrently else Ok tt))
    end).

(** * Operations *)

Definition set_active (b : bool) (k : ApiKey) : ApiKey :=
  mkApiKey (metadata k) (key_name k) (key_hash k) (key_prefix k) (key_user_id k) (key_team_id k)
    (permissions k) (rate_limits k) (expires_at k) b (last_used_at k) (usage_stats k).
Definition set_permissions (p : list string) (k : ApiKey) : ApiKey :=
  mkApiKey (metadata k) (key_name k) (key_hash k) (key_prefix k) (key_user_id k) (key_team_id k)
    p (rate_limits k) (expires_at k) (is_active k) (last_used_at k) (usage_stats k).
Definition set_rate_limits (l : option RateLimits) (k : ApiKey) : ApiKey :=
  mkApiKey (metadata k) (key_name k) (key_hash k) (key_prefix k) (key_user_id k) (key_team_id k)
    (permissions k) l (expires_at k) (is_active k) (last_used_at k) (usage_stats k).
Definition set_expiration (e : option Z) (k : ApiKey) : ApiKey :=
  mkApiKey (metadata k) (key_name k) (key_hash k) (key_prefix k) (key_user_id k) (key_team_id k)
    (permissions k) (rate_limits k) e (is_active k) (last_used_at k) (usage_stats k).
Definition set_last_used (t : Z) (k : ApiKey) : ApiKey :=
  mkApiKey (metadata k) (key_name k) (key_hash k) (key_prefix k) (key_user_id k) (key_team_id k)
    (permissions k) (rate_limits k) (expires_at k) (is_active k) (Some t) (usage_stats k).
Definition set_usage (u : UsageStats) (k : ApiKey) : ApiKey :=
  mkApiKey (metadata k) (key_name k) (key_hash k) (key_prefix k) (key_user_id k) (key_team_id k)
    (permissions k) (rate_limits k) (expires_at k) (is_active k) (last_used_at k) u.

(** [create_api_key]: the version is stored as an [i32]. *)
Definition create_api_key (key : ApiKey) : Op ApiKey :=
  affected (InsertRow (stamp (updated_at (metadata key)) (wrap_i32 (version (metadata key))) key))
    (fun _ => Return (Ok key)).

Definition find_api_key_by_hash (hash : string) : Op (option ApiKey) :=
  one (FindByHash hash) (fun r => Return (Ok r)).
Definition find_api_key_by_id (id : string) : Op (option ApiKey) :=
  one (FindById id) (fun r => Return (Ok r)).

Definition deactivate_api_key (id : string) (now : Z) : Op unit :=
  versioned_update id now (fun _ row => set_active false row).
Definition set_api_key_active (id : string) (b : bool) (now : Z) : Op unit :=
  versioned_update id now (fun _ row => set_active b row).
Definition update_api_key_permissions (id : string) (p : list string) (now : Z) : Op unit :=
  versioned_update id now (fun _ row => set_permissions p row).
Definition update_api_key_rate_limits (id : string) (l : RateLimits) (now : Z) : Op unit :=
  versioned_update id now (fun _ row => set_rate_limits (Some l) row).
Definition update_api_key_expiration (id : string) (e : option Z) (now : Z) : Op unit :=
  versioned_update id now (fun _ row => set_expiration e row).
Definition update_api_key_last_used (id : string) (now : Z) : Op unit :=
  versioned_update id now (fun _ row => set_last_used now row).

(** The usage statistics after one more record; the daily counters are those of
    the row, whatever day it is. *)
Definition add_usage (requests tokens : Z) (cost : spec_float) (unpriced : bool) (now : Z)
    (u : UsageStats) : UsageStats :=
  mkUsageStats
    (sat_add_u64 (total_requests u) requests)
    (sat_add_u64 (total_tokens u) tokens)
    (f64_add (total_cost u) cost)
    (sat_add_u32 (requests_today u) (Z.min requests u32_max))
    (sat_add_u32 (tokens_today u) (Z.min tokens u32_max))
    (f64_add (cost_today u) cost)
    (if unpriced then sat_add_u64 (unpriced_requests u) requests else unpriced_requests u)
    (if unpriced then sat_add_u64 (unpriced_tokens u) tokens else unpriced_tokens u)
    (if unpriced then f64_add (unpriced_cost u) cost else unpriced_cost u)
    (if unpriced then Some now else last_unpriced_at u)
    (last_reset u).

(** [update_api_key_usage] and [add_api_key_usage]. *)
Definition update_api_key_usage (id : string) (requests tokens : Z) (cost : spec_float)
    (unpriced : bool) (now : Z) : Op unit :=
  versioned_update id now (fun model row =>
    set_usage (add_usage requests tokens cost unpriced now (usage_stats model)) row).

(** [update_api_key]: writes every column from the key it is given, with the
    version of the row it reads itself; then reads the row back. *)
Definition overwrite (key row : ApiKey) : ApiKey :=
  mkApiKey
    (mkMetadata (meta_id (metadata row)) (created_at (metadata row)) (updated_at (metadata row))
       (version (metadata row)) (extra (metadata key)))
    (key_name key) (key_hash key) (key_prefix key) (key_user_id key) (key_team_id key)
    (permissions key) (rate_limits key) (expires_at key) (is_active key) (last_used_at key)
    (usage_stats key).

Fixpoint bind {A B} (p : Op A) (k : A -> Op B) : Op B :=
  match p with
  | Return (Ok a) => k a
  | Return (Err e) => Return (Err e)
  | Query s next => Query s (fun a => bind (next a) k)
  end.

Definition update_api_key (key : ApiKey) (now : Z) : Op ApiKey :=
  bind (versioned_update (key_id key) now (fun _ row => overwrite key row)) (fun _ =>
    one (FindById (key_id key)) (fun r =>
      Return (match r with Some k => Ok k | None => Err (GInternal "API key not found after update") end))).

(** [delete_api_key] and [delete_expired_api_keys]. *)
Definition delete_api_key (id : string) : Op unit :=
  affected (DeleteById id) (fun n => Return (if n =? 0 then Err not_found else Ok tt)).
Definition delete_expired_api_keys (now : Z) : Op Z :=
  affected (DeleteExpired now) (fun n => Return (Ok n)).

(** [DatabaseKeyRepository::update]: reads the key in a transaction of its own
    before [update_api_key]. *)
Definition repository_update (id : string) (c : UpdateKeyConfig Json) (read_at now : Z) : Op ApiKey :=
  one (FindById id) (fun r =>
    match r with
    | None => Return (Err not_found)
    | Some key =>
        match apply_update_config read_at key c with
        | Err e => Return (Err e)
        | Ok key => update_api_key key now
        end
    end).
End Store.
Arguments Return {_ A} _.
Arguments Query {_ A} _ _.

(** * An example of the JSON interface *)

Inductive ExampleJson :=
| JNull
| JText (text : string)
| JPermissions (p : KeyPermissions)
| JPayload (p : CoreKeysExtraPayload ExampleJson).

Definition example_get (j : ExampleJson) (field : string) : option ExampleJson :=
  match j with
  | JPayload p =>
      if String.eqb field "permissions"
      then Some (match payload_permissions p with Some q => JPermissions q | None => JNull end)
      else if String.eqb field "budget_id"
      then Some (match budget_id p with Some b => JText b | None => JNull end)
      else None
  | _ => None
  end.

Definition example_json : JsonValues := {|
  Json := ExampleJson;
  json_get := example_get;
  json_is_null j := match j with JNull => true | _ => false end;
  from_value j := match j with JPermissions p => Some p | _ => None end;
  json_uuid j := match j with JText t => Some t | _ => None end;
|}.

Definition example_payload : @PayloadJson example_json := {|
  json_null := JNull : @Json example_json;
  payload_to_value p := Ok (JPayload p : @Json example_json);
  payload_from_value j := match j with JPayload p => Some p | _ => None end;
|}.
