(* ===== verification/KeyConcurrency.v ===== *)
(** Concurrent operations on the API keys of the database: what a revocation
    guarantees whatever runs beside it, and that recorded usage is neither lost nor
    counted twice.  Both depend on the version column; the one operation that does
    not carry the version it read, the update of a managed key, breaks both, as
    the last lemmas show. *)

From Stdlib Require Import Floats.SpecFloat.
From S2P Require Import Prelude Float64 ProviderErrors GatewayErrors Principals KeyStore.

Section Concurrency.
Context `{PayloadJson}.

(** * Operations side by side *)

Inductive DbOp :=
| OpCreate (key : ApiKey)
| OpDeactivate (id : string) (now : Z)
| OpSetActive (id : string) (b : bool) (now : Z)
| OpUpdate (id : string) (config : UpdateKeyConfig Json) (read_at now : Z)
| OpPermissions (id : string) (p : list string) (now : Z)
| OpRateLimits (id : string) (l : RateLimits) (now : Z)
| OpExpiration (id : string) (e : option Z) (now : Z)
| OpLastUsed (id : string) (now : Z)
| OpUsage (id : string) (requests tokens : Z) (cost : spec_float) (unpriced : bool) (now : Z)
| OpDelete (id : string)
| OpDeleteExpired (now : Z).

Definition discard {A} (p : Op A) : Op unit := bind p (fun _ => Return (Ok tt)).

Definition program (op : DbOp) : Op unit :=
  match op with
  | OpCreate key => discard (create_api_key key)
  | OpDeactivate id now => deactivate_api_key id now
  | OpSetActive id b now => set_api_key_active id b now
  | OpUpdate id c read_at now => discard (repository_update id c read_at now)
  | OpPermissions id p now => update_api_key_permissions id p now
  | OpRateLimits id l now => update_api_key_rate_limits id l now
  | OpExpiration id e now => update_api_key_expiration id e now
  | OpLastUsed id now => update_api_key_last_used id now
  | OpUsage id requests tokens cost unpriced now =>
      update_api_key_usage id requests tokens cost unpriced now
  | OpDelete id => delete_api_key id
  | OpDeleteExpired now => discard (delete_expired_api_keys now)
  end.

(** A statement is executed and answered, executed with its answer lost, or not
    executed. *)
Inductive Fate := Answered | AnswerLost (message : string) | NotExecuted (message : string).

Definition exec_fate (f : Fate) (s : Stmt) (db : Rows) : Rows * Answer :=
  match f with
  | Answered => exec s db
  | AnswerLost m => (fst (exec s db), AError m)
  | NotExecuted m => (db, AError m)
  end.

(** An update that changes a row. *)
Definition writes (f : Fate) (s : Stmt) (db : Rows) : bool :=
  match f, s with
  | NotExecuted _, _ => false
  | _, UpdateWhere id v _ =>
      match db !! id with Some row => bool_decide (version (metadata row) = v) | None => false end
  | _, _ => false
  end.

Record Task := mkTask { t_op : DbOp; t_prog : Op unit }.

Inductive Event :=
| EStart (op : DbOp)
| EWrite (op : DbOp)
| EDone (op : DbOp) (r : result unit GatewayError)
| EOther.

Inductive step : Rows * list Task -> Event -> Rows * list Task -> Prop :=
| step_start op db ts : step (db, ts) (EStart op) (db, ts ++ [mkTask op (program op)])
| step_query op s next f db ts1 ts2 :
    step (db, ts1 ++ mkTask op (Query s next) :: ts2)
      (if writes f s db then EWrite op else EOther)
      (fst (exec_fate f s db), ts1 ++ mkTask op (next (snd (exec_fate f s db))) :: ts2)
| step_done op r db ts1 ts2 :
    step (db, ts1 ++ mkTask op (Return r) :: ts2) (EDone op r) (db, ts1 ++ ts2)
| step_drop t db ts1 ts2 : step (db, ts1 ++ t :: ts2) EOther (db, ts1 ++ ts2).

Inductive steps : Rows * list Task -> list Event -> Rows * list Task -> Prop :=
| steps_nil s : steps s [] s
| steps_snoc s tr s1 e s2 : steps s tr s1 -> step s1 e s2 -> steps s (tr ++ [e]) s2.

Lemma steps_app s tr1 s1 tr2 s2 : steps s tr1 s1 -> steps s1 tr2 s2 -> steps s (tr1 ++ tr2) s2.
Proof.
  intros H1 H2. induction H2; [by rewrite app_nil_r|]. rewrite app_assoc. by eapply steps_snoc; [apply IHsteps|].
Qed.

Lemma in_middle {A} (t : A) (ts1 ts2 : list A) : t ∈ ts1 ++ t :: ts2.
Proof. set_solver. Qed.

Lemma in_sides {A} (t x : A) (ts1 ts2 : list A) :
  t ∈ ts1 \/ t ∈ ts2 -> t ∈ ts1 ++ x :: ts2.
Proof. set_solver. Qed.

Lemma steps_snoc_inv s tr e s' :
  steps s (tr ++ [e]) s' -> exists s1, steps s tr s1 /\ step s1 e s'.
Proof.
  intros Hs. remember (tr ++ [e]) as full eqn:Heq.
  destruct Hs as [s|s tr0 s1 e0 s2 Hs Hstep]; [by destruct tr|].
  apply app_inj_tail in Heq as [-> ->]. eauto.
Qed.

(** * Safe programs

    [ok] holds of the rows and is kept by every statement of a program, provided
    [seen] holds of what the program reads. *)
Section Safe.
Variables ok seen : string -> ApiKey -> Prop.

Definition Good (db : Rows) : Prop := map_Forall ok db.

Definition stmt_safe (s : Stmt) : Prop :=
  match s with
  | InsertRow row => ok (key_id row) row
  | UpdateWhere i _ assign => forall row, ok i row -> ok i (assign row)
  | _ => True
  end.

Definition answer_ok (s : Stmt) (a : Answer) : Prop :=
  match s, a with
  | FindById i, ARow (Some r) => seen i r
  | _, _ => True
  end.

Fixpoint safe {A} (p : Prog A) : Prop :=
  match p with
  | Return _ => True
  | Query s next => stmt_safe s /\ forall a, answer_ok s a -> safe (next a)
  end.

Lemma exec_good (f : Fate) (s : Stmt) (db : Rows) :
  Good db -> stmt_safe s -> Good (fst (exec_fate f s db)).
Proof.
  unfold Good. intros Hdb Hs.
  assert (Hgood : map_Forall ok (fst (exec s db))).
  { destruct s as [i|hash|row|i v assign|i|now]; simpl in *; try done.
    - repeat case_match; try done. by apply map_Forall_insert_2.
    - destruct (db !! i) eqn:Hi; [|done]. case_bool_decide; [|done]. simpl.
      apply map_Forall_insert_2; [|done]. apply Hs. by apply Hdb.
    - case_match; [|done]. simpl. by apply map_Forall_delete.
    - intros j k Hj. apply map_lookup_filter_Some in Hj as [Hj _]. by apply Hdb. }
  by destruct f.
Qed.

Lemma safe_bind {A B} (p : Op A) (k : A -> Op B) :
  safe p -> (forall a, safe (k a)) -> safe (bind p k).
Proof.
  intros Hp Hk. induction p as [[a|e]|s next IH]; simpl; auto.
  destruct Hp as [Hs Hnext]. split; auto.
Qed.

Lemma safe_one {A} (s : Stmt) (k : option ApiKey -> Op A) :
  stmt_safe s -> (forall r, answer_ok s (ARow r) -> safe (k r)) -> safe (one s k).
Proof. intros Hs Hk. split; [done|]. intros [] Ha; simpl; auto. Qed.

Lemma safe_affected {A} (s : Stmt) (k : Z -> Op A) :
  stmt_safe s -> (forall n, safe (k n)) -> safe (affected s k).
Proof. intros Hs Hk. split; [done|]. intros [] Ha; simpl; auto. Qed.

Lemma safe_versioned (i : string) (now : Z) (assign : ApiKey -> ApiKey -> ApiKey) :
  (forall model row v, seen i model -> ok i row -> ok i (stamp now v (assign model row))) ->
  safe (versioned_update i now assign).
Proof.
  intros Ha. apply safe_one; [done|]. intros [model|] Hm; [|done].
  apply safe_affected; [|done]. simpl. intros row Hrow. by apply Ha.
Qed.
End Safe.

Lemma exec_answer (ok : string -> ApiKey -> Prop) (f : Fate) (s : Stmt) (db : Rows) :
  Good ok db -> answer_ok ok s (snd (exec_fate f s db)).
Proof.
  intros Hdb. destruct f; simpl; destruct s as [i| | | | |]; simpl; try done; try (by repeat case_match).
  destruct (db !! i) eqn:Hi; [|done]. by apply Hdb.
Qed.

Lemma safe_weaken {A} (ok seen seen' : string -> ApiKey -> Prop) (p : Prog A) :
  (forall i k, seen' i k -> seen i k) -> safe ok seen p -> safe ok seen' p.
Proof.
  intros Hw Hp. induction p as [|s next IH]; simpl in *; [done|].
  destruct Hp as [Hs Hnext]. split; [done|]. intros a Ha. apply IH, Hnext.
  destruct s, a as [[r|]| |]; simpl in *; auto.
Qed.

(** Tasks of operations in [P] that are safe stay so. *)
Definition all_safe (ok seen : string -> ApiKey -> Prop) (P : DbOp -> Prop) (ts : list Task) : Prop :=
  forall t, t ∈ ts -> P (t_op t) -> safe ok seen (t_prog t).

Lemma step_safe (ok seen : string -> ApiKey -> Prop) (P : DbOp -> Prop) s e s' :
  step s e s' -> Good seen (fst s) -> all_safe ok seen P (snd s) ->
  (forall op, e = EStart op -> P op -> safe ok seen (program op)) ->
  all_safe ok seen P (snd s').
Proof.
  intros Hstep Hdb Hts Hop. destruct Hstep; simpl in *; intros task Ht HP.
  - apply elem_of_app in Ht as [Ht|Ht%list_elem_of_singleton]; [by apply Hts|].
    subst task. by apply Hop.
  - apply elem_of_app in Ht as [Ht|[->|Ht]%elem_of_cons].
    1,3: apply Hts; [apply in_sides; auto|done].
    simpl. destruct (Hts (mkTask op (Query s next)) ltac:(set_solver) HP) as [_ Hnext].
    apply Hnext. by apply exec_answer.
  - apply Hts; [set_solver|done].
  - apply Hts; [set_solver|done].
Qed.

Lemma step_good (ok : string -> ApiKey -> Prop) s e s' :
  step s e s' -> Good ok (fst s) -> all_safe ok ok (fun _ => True) (snd s) -> Good ok (fst s').
Proof.
  intros Hstep Hdb Hts. destruct Hstep; simpl in *; try done.
  apply exec_good; [done|]. by destruct (Hts (mkTask op (Query s next)) ltac:(set_solver) I).
Qed.

Lemma steps_good (ok : string -> ApiKey -> Prop) s tr s' :
  steps s tr s' -> Good ok (fst s) -> all_safe ok ok (fun _ => True) (snd s) ->
  (forall op, EStart op ∈ tr -> safe ok ok (program op)) ->
  Good ok (fst s') /\ all_safe ok ok (fun _ => True) (snd s').
Proof.
  intros Hsteps. induction Hsteps as [s|s tr s1 e s2 Hsteps IH Hstep]; intros Hdb Hts Hop; [done|].
  destruct IH as [Hdb1 Hts1]; [done..|set_solver|]. split; [by eapply step_good|].
  eapply step_safe; [done..|]. intros op -> _. apply Hop. set_solver.
Qed.

Lemma steps_safe (ok seen : string -> ApiKey -> Prop) (P : DbOp -> Prop) s tr s' :
  steps s tr s' -> Good seen (fst s) -> all_safe seen seen (fun _ => True) (snd s) ->
  all_safe ok seen P (snd s) ->
  (forall op, EStart op ∈ tr -> safe seen seen (program op)) ->
  (forall op, EStart op ∈ tr -> P op -> safe ok seen (program op)) ->
  all_safe ok seen P (snd s').
Proof.
  intros Hsteps Hdb Hall Hts Hop HP.
  induction Hsteps as [s|s tr s1 e s2 Hsteps IH Hstep]; [done|].
  destruct (steps_good seen s tr s1 Hsteps) as [Hdb1 _]; [done..|set_solver|].
  eapply step_safe; [done..| |].
  - apply IH; set_solver.
  - intros op -> Hp. apply HP; set_solver.
Qed.

(** Every statement of a program is one of [Q]. *)
Fixpoint each {A} (Q : Stmt -> Prop) (p : Prog A) : Prop :=
  match p with
  | Return _ => True
  | Query s next => Q s /\ forall a, each Q (next a)
  end.

Lemma steps_each (Q : Stmt -> Prop) (P : DbOp -> Prop) s tr s' :
  steps s tr s' -> (forall op, P op -> each Q (program op)) ->
  (forall t, t ∈ snd s -> P (t_op t) -> each Q (t_prog t)) ->
  forall t, t ∈ snd s' -> P (t_op t) -> each Q (t_prog t).
Proof.
  intros Hsteps HP Hs. induction Hsteps as [s|s tr s1 e s2 Hsteps IH Hstep]; [done|].
  specialize (IH Hs). destruct Hstep; simpl in *; intros task Ht HPt.
  - apply elem_of_app in Ht as [Ht|Ht%list_elem_of_singleton]; [by apply IH|].
    subst task. by apply HP.
  - apply elem_of_app in Ht as [Ht|[->|Ht]%elem_of_cons].
    1,3: apply IH; [apply in_sides; auto|done].
    destruct (IH (mkTask op (Query s0 next)) ltac:(set_solver) HPt) as [_ Hnext]. apply Hnext.
  - apply IH; [set_solver|done].
  - apply IH; [set_solver|done].
Qed.

Lemma each_versioned (Q : Stmt -> Prop) (i : string) (now : Z) (assign : ApiKey -> ApiKey -> ApiKey) :
  Q (FindById i) ->
  (forall v model next, Q (UpdateWhere i v (fun row => stamp now next (assign model row)))) ->
  each Q (versioned_update i now assign).
Proof.
  intros Hf Hu. split; [done|]. intros [[model|]| |]; simpl; try done.
  split; [apply Hu|]. by intros [].
Qed.

(** The statement behind a write. *)
Lemma write_stmt s op s' :
  step s (EWrite op) s' ->
  exists i v assign next row, mkTask op (Query (UpdateWhere i v assign) next) ∈ snd s /\
    fst s !! i = Some row /\ version (metadata row) = v /\ fst s' = <[i := assign row]> (fst s).
Proof.
  intros Hstep. inversion Hstep as [|op' s0 next f db ts1 ts2 H1 H2 H3| |]; subst.
  destruct (writes f s0 db) eqn:Hw; [|done]. injection H2 as ->.
  destruct s0 as [| | |i v assign| |]; try (by destruct f).
  assert (Hrow : exists row, db !! i = Some row /\ version (metadata row) = v).
  { destruct f; simpl in Hw; try done; (destruct (db !! i) as [row|] eqn:Hi; [|done]); exists row;
      (split; [done|]); by apply bool_decide_eq_true in Hw. }
  destruct Hrow as (row & Hi & Hv).
  exists i, v, assign, next, row. split_and!; [simpl; set_solver|done..|].
  assert (He : fst (exec (UpdateWhere i v assign) db) = <[i := assign row]> db).
  { simpl. rewrite Hi. by rewrite bool_decide_eq_true_2. }
  destruct f; simpl in *; try done.
Qed.

(** * Revocation *)
Section Revocation.
Variables id hash : string.

(** Rows are stored under their identifier, and the hash is that of one row. *)
Definition placed (i : string) (k : ApiKey) : Prop :=
  key_id k = i /\ (i = id <-> key_hash k = hash).
Definition revoked (i : string) (k : ApiKey) : Prop :=
  placed i k /\ (i = id -> is_active k = false).

(** A key that is created is another key. *)
Definition others_key (op : DbOp) : Prop :=
  match op with OpCreate key => key_id key <> id /\ key_hash key <> hash | _ => True end.
(** An operation that can write the key as active. *)
Definition reactivates (op : DbOp) : Prop :=
  match op with OpSetActive i b _ => i = id /\ b = true | _ => False end.
Definition updates (op : DbOp) : Prop :=
  match op with OpUpdate i _ _ _ => i = id | _ => False end.

Lemma apply_update_kept (now : Z) (key key' : ApiKey) (c : UpdateKeyConfig Json) :
  apply_update_config now key c = Ok key' ->
  key_id key' = key_id key /\ key_hash key' = key_hash key /\ is_active key' = is_active key.
Proof.
  unfold apply_update_config. case_match; [|done]. intros [= <-]. by destruct key as [[]].
Qed.

Lemma update_safe (ok seen : string -> ApiKey -> Prop) (i : string) (c : UpdateKeyConfig Json)
    (read_at now : Z) :
  (forall k, seen i k -> key_id k = i) ->
  (forall key key' row v, seen i key -> apply_update_config read_at key c = Ok key' -> ok i row ->
    ok i (stamp now v (overwrite key' row))) ->
  safe ok seen (program (OpUpdate i c read_at now)).
Proof.
  intros Hid Hok. apply safe_bind; [|done]. apply safe_one; [done|]. intros [key|] Hkey; [|done].
  destruct (apply_update_config read_at key c) as [key'|] eqn:Hc; [|done].
  destruct (apply_update_kept _ _ _ _ Hc) as (Hi & _). rewrite (Hid key Hkey) in Hi.
  apply safe_bind.
  - rewrite Hi. apply safe_versioned. intros _ row v _. by eapply Hok.
  - intros _. apply safe_one; [done|]. by intros [].
Qed.

Lemma program_placed (op : DbOp) : others_key op -> safe placed placed (program op).
Proof.
  intros Ho.
  destruct op; try (by apply safe_versioned; intros model row v _ []);
    try (by apply safe_bind; [apply safe_affected|]); try (by apply safe_affected).
  - apply safe_bind; [|done]. apply safe_affected; [|done]. destruct Ho. by split.
  - apply update_safe; [by intros k []|].
    intros key key' row v [Hi Hh] Hc [Hr _].
    destruct (apply_update_kept _ _ _ _ Hc) as (_ & Hkh & _). split; [done|]. cbn. by rewrite Hkh.
Qed.

Lemma program_revoked (op : DbOp) :
  others_key op -> ~ reactivates op -> safe revoked revoked (program op).
Proof.
  intros Ho Hr.
  destruct op as [key|i now|i b now|i c t now|i p now|i l now|i e now|i now|i n m cost u now|i|now];
    try (by apply safe_versioned; intros model row v _ []);
    try (by apply safe_bind; [apply safe_affected|]); try (by apply safe_affected).
  - apply safe_bind; [|done]. apply safe_affected; [|done]. destruct Ho as [Hi Hh]. by split.
  - apply safe_versioned. intros _ row v _ [Hp Hact]. split; [done|]. intros ->.
    by destruct b; [destruct Hr|].
  - apply update_safe; [by intros k [[] _]|].
    intros key key' row v [[Hi Hh] Ha] Hc [[Hri _] _].
    destruct (apply_update_kept _ _ _ _ Hc) as (_ & Hkh & Hka).
    split; [split; [done|]; cbn; by rewrite Hkh|]. intros Heq. cbn. rewrite Hka. by apply Ha.
Qed.

(** In flight at the revocation, whatever they had read before. *)
Lemma program_quiet (op : DbOp) :
  others_key op /\ ~ reactivates op /\ ~ updates op -> safe revoked placed (program op).
Proof.
  intros (Ho & Hr & Hu).
  destruct op as [key|i now|i b now|i c t now|i p now|i l now|i e now|i now|i n m cost u now|i|now];
    try (by apply safe_versioned; intros model row v _ []);
    try (by apply safe_bind; [apply safe_affected|]); try (by apply safe_affected).
  - apply safe_bind; [|done]. apply safe_affected; [|done]. destruct Ho as [Hi Hh]. by split.
  - apply safe_versioned. intros _ row v _ [Hp Hact]. split; [done|]. intros ->.
    by destruct b; [destruct Hr|].
  - apply update_safe; [by intros k []|].
    intros key key' row v [Hi Hh] Hc [[Hri _] _].
    destruct (apply_update_kept _ _ _ _ Hc) as (_ & Hkh & _).
    split; [split; [done|]; cbn; by rewrite Hkh|]. intros ->. by destruct Hu.
Qed.

(** From the write that revokes the key on, the row stays inactive. *)
Lemma revoked_forever db0 tr0 now db ts tr db' ts' :
  Good placed db0 ->
  steps (db0, []) (tr0 ++ [EWrite (OpDeactivate id now)]) (db, ts) ->
  (forall t, t ∈ ts -> ~ reactivates (t_op t) /\ ~ updates (t_op t)) ->
  steps (db, ts) tr (db', ts') ->
  (forall op, EStart op ∈ tr0 -> others_key op) ->
  (forall op, EStart op ∈ tr -> others_key op /\ ~ reactivates op) ->
  Good revoked db'.
Proof.
  intros Hdb0 Htr0 Hflight Htr Hop0 Hop.
  apply steps_snoc_inv in Htr0 as ([db1 ts1] & Htr0 & Hlast).
  destruct (steps_good placed _ _ _ Htr0) as [Hdb1 Hts1]; [done|by intros ? ?%elem_of_nil|..].
  { intros op Ho. apply program_placed, Hop0, Ho. }
  set (P := fun op => ~ reactivates op /\ ~ updates op).
  assert (Hq1 : all_safe revoked placed P ts1).
  { apply (steps_safe _ _ P _ _ _ Htr0); try done; try (by intros ? ?%elem_of_nil).
    - intros op Ho. apply program_placed, Hop0, Ho.
    - intros op Ho []. apply program_quiet. by split; [apply Hop0|]. }
  assert (Hdb : Good revoked db).
  { pose proof (step_good placed _ _ _ Hlast Hdb1 Hts1) as Hplaced. simpl in Hplaced.
    apply write_stmt in Hlast as (i & v & assign & next & row & Ht & Hrow & _ & Hdb).
    assert (Hdea : i = id /\ forall row, is_active (assign row) = false).
    { destruct (steps_each (fun s => match s with
        | UpdateWhere i _ assign => i = id /\ forall row, is_active (assign row) = false
        | _ => True end) (fun op => op = OpDeactivate id now) _ _ _ Htr0) with
        (t := mkTask (OpDeactivate id now) (Query (UpdateWhere i v assign) next)) as [? _]; try done.
      - intros op ->. by apply each_versioned.
      - by intros ? ?%elem_of_nil. }
    destruct Hdea as [-> Hact]. simpl in *. intros j k Hj. split; [by apply Hplaced|]. intros ->.
    rewrite Hdb, lookup_insert_eq in Hj. by injection Hj as <-. }
  assert (Hts : all_safe revoked revoked (fun _ => True) ts).
  { intros t Ht _. apply (safe_weaken _ placed); [by intros ? ? []|].
    apply (step_safe revoked placed P _ _ _ Hlast); try done.
    by apply Hflight. }
  apply (steps_good revoked _ _ _ Htr); [done..|].
  intros op Ho. destruct (Hop op Ho). by apply program_revoked.
Qed.
End Revocation.
(** * Usage *)
Section Usage.
Variable id : string.

(** The requests an operation adds to the key. *)
Definition charge (op : DbOp) : Z :=
  match op with OpUsage i requests _ _ _ _ => if String.eqb i id then requests else 0 | _ => 0 end.

Definition started (e : Event) : Z := match e with EStart op => charge op | _ => 0 end.
Definition written (e : Event) : Z := match e with EWrite op => charge op | _ => 0 end.
Definition succeeded (e : Event) : Z := match e with EDone op (Ok _) => charge op | _ => 0 end.
Definition total (f : Event -> Z) (tr : list Event) : Z := sumZ (map f tr).

Definition at_its_id (i : string) (k : ApiKey) : Prop := key_id k = i.
Definition creates (op : DbOp) : Prop :=
  match op with OpCreate key => key_id key = id | _ => False end.

Definition requests_of (k : ApiKey) : Z := total_requests (usage_stats k).
Definition version_of (k : ApiKey) : Z := version (metadata k).

(** ** What a task can still do to the row

    [hist] are the states the row has had.  An update that the version lets
    through is made from the row as it is. *)
Definition accountable (n : Z) (hist : list ApiKey) (s : Stmt) : Prop :=
  match s with
  | UpdateWhere i v assign =>
      (i <> id -> n = 0) /\
      (i = id -> exists model, model ∈ hist /\ v = version_of model /\
        (fits_u64 (requests_of model) ->
          requests_of (assign model) = sat_add_u64 (requests_of model) n) /\
        version_of (assign model) = wrap_i32 (v + 1))
  | InsertRow row => key_id row <> id
  | _ => True
  end.

Definition read_from (hist : list ApiKey) (s : Stmt) (a : Answer) : Prop :=
  match s, a with
  | FindById i, ARow (Some r) => key_id r = i /\ (i = id -> r ∈ hist)
  | _, _ => True
  end.

Fixpoint acct {A} (n : Z) (hist : list ApiKey) (p : Prog A) : Prop :=
  match p with
  | Return _ => True
  | Query s next =>
      accountable n hist s /\
      forall later a, hist `prefix_of` later -> read_from later s a -> acct n later (next a)
  end.

Lemma acct_later {A} (n : Z) (hist later : list ApiKey) (p : Prog A) :
  hist `prefix_of` later -> acct n hist p -> acct n later p.
Proof.
  destruct p as [|s next]; intros Hpre; [done|]. intros [Hs Hnext]. split.
  - destruct s; simpl in *; try done. destruct Hs as [Hz Hs]. split; [done|].
    intros Hi. destruct (Hs Hi) as (m & Hm & Hrest). exists m. split; [|done]. by eapply elem_of_prefix.
  - intros l a Hl. apply Hnext. by etrans.
Qed.

Lemma acct_bind {A B} (n : Z) (hist : list ApiKey) (p : Op A) (k : A -> Op B) :
  acct n hist p -> (forall a later, hist `prefix_of` later -> acct n later (k a)) ->
  acct n hist (bind p k).
Proof.
  revert hist. induction p as [[a|e]|s next IH]; intros hist Hp Hk; simpl in *; try done.
  - by apply Hk.
  - destruct Hp as [Hs Hnext]. split; [done|]. intros l a Hl Ha. apply IH; [by apply Hnext|].
    intros b m Hm. apply Hk. by etrans.
Qed.

Lemma acct_find {A} (n : Z) (hist : list ApiKey) (i : string) (k : option ApiKey -> Op A) :
  (forall r later, hist `prefix_of` later -> read_from later (FindById i) (ARow r) ->
    acct n later (k r)) ->
  acct n hist (one (FindById i) k).
Proof. intros Hk. split; [done|]. intros l [] Hl Ha; simpl; [by apply Hk|done..]. Qed.

Lemma acct_affected {A} (n : Z) (hist : list ApiKey) (s : Stmt) (k : Z -> Op A) :
  accountable n hist s -> (forall m later, acct n later (k m)) -> acct n hist (affected s k).
Proof. intros Hs Hk. split; [done|]. intros l [] Hl Ha; simpl; auto. Qed.

Lemma acct_versioned (n : Z) (hist : list ApiKey) (i : string) (now : Z)
    (assign : ApiKey -> ApiKey -> ApiKey) :
  (i <> id -> n = 0) ->
  (i = id -> forall model, fits_u64 (requests_of model) ->
    requests_of (assign model model) = sat_add_u64 (requests_of model) n) ->
  acct n hist (versioned_update i now assign).
Proof.
  intros Hz Ha. apply acct_find. intros [model|] later _ Hr; [|done].
  apply acct_affected; [|done]. split; [done|]. intros ->. destruct Hr as [_ Hr]. exists model.
  split_and!; [by apply Hr|done| |done]. by apply Ha.
Qed.

Lemma sat_add_zero (x : Z) : fits_u64 x -> x = sat_add_u64 x 0.
Proof. unfold fits_u64, sat_add_u64. lia. Qed.

(** Every operation but an update of this very key. *)
Lemma program_acct (hist : list ApiKey) (op : DbOp) :
  ~ updates id op -> ~ creates op -> acct (charge op) hist (program op).
Proof.
  intros Hu Hc.
  destruct op as [key|i now|i b now|i c t now|i p now|i l now|i e now|i now|i n m cost u now|i|now];
    cbn [charge];
    try (by apply acct_versioned; [done|]; intros _ model Hm; rewrite <- sat_add_zero);
    try (by apply acct_bind; [apply acct_affected|]); try (by apply acct_affected).
  - apply acct_bind; [|done]. apply acct_find. intros [key|] later _ Hr; [|done].
    destruct (apply_update_config t key c) as [key'|] eqn:Hc'; [|done].
    destruct (apply_update_kept _ _ _ _ Hc') as (Hi & _). destruct Hr as [Hr _].
    apply acct_bind.
    + apply acct_versioned; [done|]. intros Hid. destruct Hu. cbn. congruence.
    + intros _ l _. apply acct_find. by intros [].
  - apply acct_versioned.
    + intros Hi. by rewrite (proj2 (String.eqb_neq i id) Hi).
    + intros -> model Hm. by rewrite String.eqb_refl.
Qed.

(** Reading, writing once, answering [Ok] only when a row was written. *)
Definition one_write (p : Op unit) : Prop :=
  match p with
  | Return _ => True
  | Query (UpdateWhere _ _ _) next =>
      forall a, exists r, next a = Return r /\ (r = Ok tt -> exists n, a = AAffected n /\ n <> 0)
  | Query _ _ => False
  end.

Definition usage_shape (p : Op unit) : Prop :=
  match p with
  | Query (FindById _) next => forall a, one_write (next a) /\ next a <> Return (Ok tt)
  | p => one_write p
  end.

Lemma usage_program_shape i n m cost u now :
  usage_shape (program (OpUsage i n m cost u now)).
Proof.
  intros [[model|]| |]; simpl; try done. split; [|done].
  intros [|k|]; simpl; eexists; (split; [done|]); try done.
  destruct (Z.eqb_spec k 0); [done|]. by exists k.
Qed.

(** What a task still owes: a write, or its answer. *)
Definition owes_write (t : Task) : Z := match t_prog t with Query _ _ => charge (t_op t) | _ => 0 end.
Definition owes_answer (t : Task) : Z :=
  match t_prog t with Return (Ok _) => charge (t_op t) | _ => 0 end.
Definition owed (f : Task -> Z) (ts : list Task) : Z := sumZ (map f ts).

Lemma owed_app (f : Task -> Z) ts1 ts2 : owed f (ts1 ++ ts2) = owed f ts1 + owed f ts2.
Proof. unfold owed. by rewrite map_app, sumZ_app. Qed.
Lemma owed_cons (f : Task -> Z) t ts : owed f (t :: ts) = f t + owed f ts.
Proof. done. Qed.
Lemma total_snoc (f : Event -> Z) tr e : total f (tr ++ [e]) = total f tr + f e.
Proof. unfold total. rewrite map_app, sumZ_app. simpl. lia. Qed.

(** The invariant of an execution. *)
Record Accounted (k0 : ApiKey) (tr : list Event) (hist : list ApiKey) (s : Rows * list Task) : Prop := {
  acc_rows : Good at_its_id (fst s);
  acc_safe : all_safe at_its_id at_its_id (fun _ => True) (snd s);
  acc_hist : forall j k, hist !! j = Some k ->
    version_of k = wrap_i32 (version_of k0 + Z.of_nat j) /\ fits_u64 (requests_of k);
  acc_length : (length hist <= S (length tr))%nat;
  acc_row : exists k, last hist = Some k /\ (fst s !! id = Some k \/ fst s !! id = None) /\
    requests_of k = Z.min u64_max (requests_of k0 + total written tr);
  acc_tasks : forall t, t ∈ snd s ->
    acct (charge (t_op t)) hist (t_prog t) /\ (charge (t_op t) <> 0 -> usage_shape (t_prog t)) /\
    0 <= charge (t_op t);
  acc_answers : total succeeded tr + owed owes_answer (snd s) <= total written tr;
  acc_writes : total written tr + owed owes_write (snd s) <= total started tr;
}.
Lemma program_at_its_id (op : DbOp) : safe at_its_id at_its_id (program op).
Proof.
  destruct op; try (by apply safe_versioned);
    try (by apply safe_bind; [apply safe_affected|]); try (by apply safe_affected).
  apply update_safe; [done|]. by intros.
Qed.

Lemma wrap_i32_step (v d : Z) : wrap_i32 (wrap_i32 (v + d) + 1) = wrap_i32 (v + (d + 1)).
Proof.
  unfold wrap_i32. f_equal.
  replace ((v + d + 2 ^ 31) mod 2 ^ 32 - 2 ^ 31 + 1 + 2 ^ 31) with ((v + d + 2 ^ 31) mod 2 ^ 32 + 1) by lia.
  rewrite Zplus_mod_idemp_l. f_equal. lia.
Qed.

Lemma wrap_i32_inj (v d e : Z) :
  0 <= d < 2 ^ 32 -> 0 <= e < 2 ^ 32 -> wrap_i32 (v + d) = wrap_i32 (v + e) -> d = e.
Proof.
  unfold wrap_i32. intros Hd He Heq.
  assert (Hm : (v + d + 2 ^ 31) mod 2 ^ 32 = (v + e + 2 ^ 31) mod 2 ^ 32) by lia.
  pose proof (Z.div_mod (v + d + 2 ^ 31) (2 ^ 32) ltac:(lia)).
  pose proof (Z.div_mod (v + e + 2 ^ 31) (2 ^ 32) ltac:(lia)). nia.
Qed.

(** The version lets an update through only if it was made from the row as it
    is. *)
Lemma version_pins (k0 : ApiKey) tr hist s model row :
  Accounted k0 tr hist s -> Z.of_nat (length tr) < 2 ^ 32 - 1 ->
  model ∈ hist -> last hist = Some row -> version_of model = version_of row -> model = row.
Proof.
  intros Hacc Htr Hm Hlast Hv. apply list_elem_of_lookup in Hm as [j Hj].
  rewrite last_lookup in Hlast.
  destruct (acc_hist _ _ _ _ Hacc _ _ Hj) as [Hvm _].
  destruct (acc_hist _ _ _ _ Hacc _ _ Hlast) as [Hvr _].
  pose proof (acc_length _ _ _ _ Hacc) as Hlen.
  apply lookup_lt_Some in Hj as Hlj.
  rewrite Hvm, Hvr in Hv. apply wrap_i32_inj in Hv; [|lia..].
  apply Nat2Z.inj in Hv. congruence.
Qed.

Lemma exec_fate_others (f : Fate) (s : Stmt) (db : Rows) (n : Z) (hist : list ApiKey) :
  accountable n hist s -> writes f s db = false ->
  fst (exec_fate f s db) !! id = db !! id \/ fst (exec_fate f s db) !! id = None.
Proof.
  intros Hs Hw.
  assert (Hexec : writes Answered s db = false ->
    fst (exec s db) !! id = db !! id \/ fst (exec s db) !! id = None).
  { clear Hw. intros Hw. destruct s as [i|h|row|i v assign|i|now]; simpl in *; try (by left).
    - repeat case_match; simpl; try (by left). left. by rewrite lookup_insert_ne.
    - destruct (db !! i); [|by left]. rewrite Hw. by left.
    - destruct (db !! i) eqn:Hi; [|by left]. simpl. destruct (decide (i = id)) as [->|Hne].
      + right. apply lookup_delete_eq.
      + left. by rewrite lookup_delete_ne.
    - match goal with |- ?m !! id = _ \/ _ => destruct (m !! id) eqn:Hf end; [left|by right].
      by apply map_lookup_filter_Some in Hf as [-> _]. }
  destruct f; simpl in *; [by apply Hexec..|by left].
Qed.
Lemma accounted_start (k0 : ApiKey) tr hist db ts op :
  Accounted k0 tr hist (db, ts) -> ~ updates id op -> ~ creates op -> 0 <= charge op ->
  Accounted k0 (tr ++ [EStart op]) hist (db, ts ++ [mkTask op (program op)]).
Proof.
  intros [] Hu Hc Hn.
  assert (Hprog : charge op <> 0 -> usage_shape (program op)).
  { destruct op; try done. intros _. apply usage_program_shape. }
  assert (Ho : owes_answer (mkTask op (program op)) = 0 /\ owes_write (mkTask op (program op)) <= charge op).
  { destruct op; try (by split); try (split; [done|reflexivity]). }
  split; simpl in *; try done.
  - intros t Ht _. apply elem_of_app in Ht as [Ht|Ht%list_elem_of_singleton]; [by apply acc_safe0|].
    subst t. apply program_at_its_id.
  - rewrite length_app. simpl. lia.
  - destruct acc_row0 as (k & Hk). exists k. by rewrite total_snoc, Z.add_0_r.
  - intros t Ht. apply elem_of_app in Ht as [Ht|Ht%list_elem_of_singleton]; [by apply acc_tasks0|].
    subst t. simpl. split_and!; [by apply program_acct|done..].
  - rewrite owed_app, owed_cons, !total_snoc. destruct Ho as [-> _]. simpl. unfold owed at 2. simpl. lia.
  - rewrite owed_app, owed_cons, !total_snoc. simpl. unfold owed at 2. simpl. lia.
Qed.

Lemma owes_nonneg (t : Task) : 0 <= charge (t_op t) -> 0 <= owes_write t /\ 0 <= owes_answer t.
Proof. intros Hc. unfold owes_write, owes_answer. destruct (t_prog t) as [[]|]; lia. Qed.

(** A task leaves, with its answer or without. *)
Lemma accounted_leave (k0 : ApiKey) tr hist db ts1 t ts2 e :
  Accounted k0 tr hist (db, ts1 ++ t :: ts2) ->
  written e = 0 -> started e = 0 -> succeeded e <= owes_answer t ->
  Accounted k0 (tr ++ [e]) hist (db, ts1 ++ ts2).
Proof.
  intros [] Hw Hs Ha. simpl in *.
  destruct (owes_nonneg t) as [Hq1 Hq2]; [apply acc_tasks0; set_solver|].
  rewrite owed_app, owed_cons in *.
  split; simpl in *; try done.
  - intros t' Ht'. apply acc_safe0. set_solver.
  - rewrite length_app. simpl. lia.
  - destruct acc_row0 as (k & Hk). exists k. by rewrite total_snoc, Hw, Z.add_0_r.
  - intros t' Ht'. apply acc_tasks0. set_solver.
  - rewrite owed_app, !total_snoc. lia.
  - rewrite owed_app, !total_snoc. lia.
Qed.

(** What the answer of a statement leaves the task to owe. *)
Lemma usage_next (f : Fate) (s : Stmt) (next : Answer -> Op unit) (db : Rows) (op : DbOp) :
  (charge op <> 0 -> usage_shape (Query s next)) -> 0 <= charge op ->
  let t := mkTask op (next (snd (exec_fate f s db))) in
  (charge op <> 0 -> usage_shape (t_prog t)) /\
  owes_answer t <= (if writes f s db then charge op else 0) /\
  owes_write t <= (if writes f s db then 0 else charge op).
Proof.
  intros Hshape Hpos t. destruct (Z.eq_dec (charge op) 0) as [Hz|Hnz].
  { unfold owes_answer, owes_write. cbn [t_op t]. rewrite Hz. split; [done|].
    destruct (t_prog t) as [[]|]; destruct (writes f s db); lia. }
  specialize (Hshape Hnz).
  destruct s as [i|h|row|i v assign|i|now]; try done.
  - assert (Hw : writes f (FindById i) db = false) by (by destruct f). rewrite Hw.
    destruct (Hshape (snd (exec_fate f (FindById i) db))) as [Hone Hne]. fold t in Hone, Hne.
    split_and!.
    + intros _. unfold t. cbn [t_prog]. destruct (next _) as [|[] ?]; done.
    + unfold owes_answer, t. cbn [t_prog t_op]. destruct (next _) as [[[]|]|]; done.
    + unfold owes_write. destruct (t_prog t); cbn; lia.
  - destruct (Hshape (snd (exec_fate f (UpdateWhere i v assign) db))) as (r & Hr & Hok).
    unfold t, owes_write, owes_answer. cbn [t_prog t_op]. rewrite Hr. split_and!; [done| |by destruct (writes _ _ _)].
    destruct r as [[]|]; [|by destruct (writes _ _ _)].
    destruct (Hok eq_refl) as (n & Ha & Hn).
    destruct f; simpl in *; try done.
    destruct (db !! i); [|by injection Ha as <-]. destruct (bool_decide _); [done|by injection Ha as <-].
Qed.
Lemma writes_row (f : Fate) (s : Stmt) (db : Rows) :
  writes f s db = true ->
  exists i v assign row, s = UpdateWhere i v assign /\ db !! i = Some row /\ version_of row = v /\
    fst (exec_fate f s db) = <[i := assign row]> db.
Proof.
  intros Hw. destruct s as [| | |i v assign| |]; try (by destruct f).
  destruct (db !! i) as [row|] eqn:Hi; [|by destruct f; simpl in Hw; rewrite ?Hi in Hw].
  assert (Hv : version_of row = v).
  { destruct f; simpl in Hw; rewrite ?Hi in Hw; try done; by apply bool_decide_eq_true in Hw. }
  exists i, v, assign, row. split_and!; [done..|].
  assert (He : fst (exec (UpdateWhere i v assign) db) = <[i := assign row]> db).
  { simpl. rewrite Hi. by rewrite bool_decide_eq_true_2. }
  destruct f; simpl in *; done.
Qed.

(** The states of the row after a statement. *)
Lemma query_history (k0 : ApiKey) tr hist db ts (f : Fate) op s next :
  Accounted k0 tr hist (db, ts) -> mkTask op (Query s next) ∈ ts ->
  Z.of_nat (length tr) < 2 ^ 32 - 1 ->
  let e := if writes f s db then EWrite op else EOther in
  exists hist', hist `prefix_of` hist' /\ (length hist' <= S (length hist))%nat /\
    (forall j k, hist' !! j = Some k ->
      version_of k = wrap_i32 (version_of k0 + Z.of_nat j) /\ fits_u64 (requests_of k)) /\
    exists k, last hist' = Some k /\
      (fst (exec_fate f s db) !! id = Some k \/ fst (exec_fate f s db) !! id = None) /\
      requests_of k = Z.min u64_max (requests_of k0 + total written (tr ++ [e])).
Proof.
  intros Hacc Ht Htr e. pose proof Hacc as [].
  destruct acc_row0 as (k & Hlast & Hrow & Hreq). simpl in *.
  destruct (acc_tasks0 _ Ht) as ((Hstmt & _) & _ & Hpos). cbn [t_op] in *.
  assert (Hsame : (writes f s db = true -> charge op = 0) ->
    (fst (exec_fate f s db) !! id = db !! id \/ fst (exec_fate f s db) !! id = None) ->
    exists hist', hist `prefix_of` hist' /\ (length hist' <= S (length hist))%nat /\
    (forall j k, hist' !! j = Some k ->
      version_of k = wrap_i32 (version_of k0 + Z.of_nat j) /\ fits_u64 (requests_of k)) /\
    exists k, last hist' = Some k /\
      (fst (exec_fate f s db) !! id = Some k \/ fst (exec_fate f s db) !! id = None) /\
      requests_of k = Z.min u64_max (requests_of k0 + total written (tr ++ [e]))).
  { intros Hzero Hkeep. exists hist. split_and!; [done|lia|done|]. exists k. split_and!; [done| |].
    - destruct Hkeep as [->| ->]; [done|by right].
    - rewrite total_snoc, Hreq. f_equal. unfold e. destruct (writes f s db); simpl; [|lia].
      rewrite Hzero by done. lia. }
  destruct (writes f s db) eqn:Hw; [|apply Hsame; [done|by eapply exec_fate_others]].
  apply writes_row in Hw as (i & v & assign & row & -> & Hi & Hv & Hdb).
  destruct Hstmt as [Hz Hid]. destruct (decide (i = id)) as [->|Hne].
  2:{ apply Hsame; [by intros; apply Hz|]. rewrite Hdb. left. by rewrite lookup_insert_ne. }
  clear Hsame. destruct (Hid eq_refl) as (model & Hm & -> & Hassign & Hversion).
  destruct Hrow as [Hrow|Hrow]; [|congruence]. rewrite Hi in Hrow. injection Hrow as <-.
  assert (model = row) as -> by (by eapply version_pins).
  assert (Hk : fits_u64 (requests_of row)).
  { rewrite last_lookup in Hlast. by apply acc_hist0 in Hlast as []. }
  exists (hist ++ [assign row]). split_and!; [by apply prefix_app_r|rewrite length_app; simpl; lia| |].
  - intros j k Hj. apply lookup_app_Some in Hj as [Hj|[Hlen Hj]]; [by apply acc_hist0|].
    apply list_lookup_singleton_Some in Hj as [Hj <-].
    assert (Hl : j = length hist) by lia.
    rewrite last_lookup in Hlast. apply lookup_lt_Some in Hlast as Hlt.
    apply acc_hist0 in Hlast as [Hver _]. split.
    + rewrite Hversion, Hver, wrap_i32_step. do 2 f_equal. lia.
    + rewrite Hassign by done. unfold fits_u64, sat_add_u64 in *. cbn [t_op] in *. lia.
  - exists (assign row). split_and!; [by rewrite last_snoc|left; by rewrite Hdb, lookup_insert_eq|].
    rewrite Hassign by done. rewrite total_snoc. unfold e. cbn [written].
    rewrite Hreq. unfold sat_add_u64. lia.
Qed.

Lemma accounted_query (k0 : ApiKey) tr hist db ts1 ts2 (f : Fate) op s next :
  Accounted k0 tr hist (db, ts1 ++ mkTask op (Query s next) :: ts2) ->
  Z.of_nat (length tr) < 2 ^ 32 - 1 ->
  exists hist', Accounted k0 (tr ++ [if writes f s db then EWrite op else EOther]) hist'
    (fst (exec_fate f s db), ts1 ++ mkTask op (next (snd (exec_fate f s db))) :: ts2).
Proof.
  intros Hacc Htr.
  destruct (query_history k0 tr hist db _ f op s next Hacc (in_middle _ _ _) Htr)
    as (hist' & Hpre & Hlen & Hhist & k & Hlast & Hrow & Hreq).
  pose proof Hacc as []. simpl in *. exists hist'.
  destruct (acc_tasks0 (mkTask op (Query s next)) (in_middle _ _ _)) as ((Hstmt & Hnext) & Hshape & Hpos).
  cbn [t_op t_prog] in *.
  destruct (acc_safe0 (mkTask op (Query s next)) (in_middle _ _ _) I) as [Hs1 Hs2].
  destruct (usage_next f s next db op Hshape Hpos) as (Hshape' & Hans & Hwr).
  rewrite owed_app, owed_cons in *.
  split; simpl; try done.
  - by apply exec_good.
  - intros t Ht _. apply elem_of_app in Ht as [Ht|[->|Ht]%elem_of_cons].
    1,3: apply acc_safe0; [apply in_sides; auto|done].
    apply Hs2. by apply exec_answer.
  - rewrite length_app. simpl. lia.
  - by exists k.
  - intros t Ht. apply elem_of_app in Ht as [Ht|[->|Ht]%elem_of_cons].
    1,3: destruct (acc_tasks0 t (in_sides t _ ts1 ts2 ltac:(auto))) as (Ha & Hrest); split; [by eapply acct_later|done].
    split_and!; try done. apply Hnext; [done|].
    pose proof (exec_answer at_its_id f s db acc_rows0) as Hid.
    destruct f; simpl; destruct s as [i| | | | |]; simpl in *; try done; try (by repeat case_match).
    destruct (db !! i) eqn:Hi; [|done]. split; [done|]. intros ->.
    destruct acc_row0 as (k' & Hl & Hr & _). destruct Hr as [Hr|Hr]; rewrite Hi in Hr; [|done].
    injection Hr as <-. eapply elem_of_prefix; [|done]. rewrite last_lookup in Hl. by eapply list_elem_of_lookup_2.
  - rewrite owed_app, owed_cons, !total_snoc.
    destruct (writes f s db); cbn [succeeded written]; unfold owes_answer at 2 in acc_answers0; simpl in *; lia.
  - rewrite owed_app, owed_cons, !total_snoc. unfold owes_write at 2 in acc_writes0. cbn [t_prog t_op] in acc_writes0.
    destruct (writes f s db); cbn [started written]; simpl in *; lia.
Qed.

(** C30: Recorded usage is neither lost nor counted twice.  Whatever operations but
    an update of this key's configuration or a creation of the key run side by
    side on the keys, in any interleaving and with any failing, cancelled or
    unanswered statements, the request counter of the key is its initial value
    plus exactly the usage whose write reached the row, saturating; every record
    that was answered is among those, and none is written twice.  An update of
    the configuration writes back the counter it has read, and can lose usage
    ([update_loses_usage]). *)
Theorem usage_not_lost (k0 k : ApiKey) (db0 db : Rows) (tr : list Event) (ts : list Task) :
  Good at_its_id db0 -> db0 !! id = Some k0 ->
  fits_u64 (requests_of k0) -> - 2 ^ 31 <= version_of k0 < 2 ^ 31 ->
  (forall op, EStart op ∈ tr -> ~ updates id op /\ ~ creates op /\ 0 <= charge op) ->
  Z.of_nat (length tr) < 2 ^ 32 ->
  steps (db0, []) tr (db, ts) -> db !! id = Some k ->
  requests_of k = Z.min u64_max (requests_of k0 + total written tr) /\
  total succeeded tr <= total written tr <= total started tr.
Proof.
  intros Hdb0 Hk0 Hfits Hv Hops Hlen Hsteps Hk.
  assert (Hinv : exists hist, Accounted k0 tr hist (db, ts)).
  { remember (db0, []) as s0 eqn:Hs0. remember (db, ts) as s eqn:Hs. clear Hs Hk.
    induction Hsteps as [s'|s' tr s1 e s2 Hsteps IH Hstep]; subst.
    - exists [k0]. split; simpl; try done; try (by intros ? ?%elem_of_nil).
      + intros [|] k1 Hj; [|done]. injection Hj as <-. split; [|done].
        unfold wrap_i32. rewrite Z.add_0_r, Z.mod_small by lia. lia.
      + exists k0. split_and!; [done|by left|]. unfold fits_u64 in Hfits. cbn. lia.
    - rewrite length_app in Hlen. simpl in Hlen.
      destruct IH as [hist Hacc]; [set_solver|lia|done|].
      destruct Hstep as [op db1 ts1|op s next f db1 ts1 ts2|op r db1 ts1 ts2|t db1 ts1 ts2].
      + exists hist. destruct (Hops op) as (? & ? & ?); [set_solver|]. by apply accounted_start.
      + apply accounted_query with (hist := hist); [done|lia].
      + exists hist. eapply accounted_leave; [done..|]. unfold owes_answer. by destruct r.
      + exists hist. eapply accounted_leave; [done..|]. simpl.
        destruct (acc_tasks _ _ _ _ Hacc t (in_middle _ _ _)) as (_ & _ & Hpos).
        by destruct (owes_nonneg t Hpos). }
  destruct Hinv as [hist []]. simpl in *. destruct acc_row0 as (k' & _ & [Hrow|Hrow] & Hreq); [|congruence].
  rewrite Hk in Hrow. injection Hrow as <-. split; [done|].
  assert (Hsum : 0 <= owed owes_answer ts /\ 0 <= owed owes_write ts).
  { unfold owed. split; apply sumZ_nonneg, Forall_forall; intros x (t & -> & Ht)%list_elem_of_fmap;
      destruct (acc_tasks0 t Ht) as (_ & _ & Hpos); by destruct (owes_nonneg t Hpos). }
  lia.
Qed.
End Usage.

(** * Schedules

    An execution chosen move by move, for concrete runs. *)
Inductive Move :=
| Begin (op : DbOp)
| Advance (i : nat) (f : Fate)
| Cancel (i : nat).

Definition move (m : Move) (s : Rows * list Task) : option (Event * (Rows * list Task)) :=
  let '(db, ts) := s in
  match m with
  | Begin op => Some (EStart op, (db, ts ++ [mkTask op (program op)]))
  | Advance i f =>
      t ← ts !! i;
      match t_prog t with
      | Query q next =>
          Some (if writes f q db then EWrite (t_op t) else EOther,
                (fst (exec_fate f q db),
                 take i ts ++ mkTask (t_op t) (next (snd (exec_fate f q db))) :: drop (S i) ts))
      | Return r => Some (EDone (t_op t) r, (db, take i ts ++ drop (S i) ts))
      end
  | Cancel i => t ← ts !! i; Some (EOther, (db, take i ts ++ drop (S i) ts))
  end.

Fixpoint moves (ms : list Move) (s : Rows * list Task) : option (list Event * (Rows * list Task)) :=
  match ms with
  | [] => Some ([], s)
  | m :: ms =>
      '(e, s) ← move m s;
      '(tr, s) ← moves ms s;
      Some (e :: tr, s)
  end.

Lemma move_step m s e s' : move m s = Some (e, s') -> step s e s'.
Proof.
  destruct s as [db ts]. destruct m as [op|i f|i]; simpl.
  - intros [= <- <-]. constructor.
  - intros (t & Ht & Hm)%bind_Some. rewrite <- (take_drop_middle ts i t Ht) at 1.
    destruct t as [op [r|q next]]; injection Hm as <- <-; constructor.
  - intros (t & Ht & [= <- <-])%bind_Some. rewrite <- (take_drop_middle ts i t Ht) at 1. constructor.
Qed.

Lemma moves_steps ms s tr s' : moves ms s = Some (tr, s') -> steps s tr s'.
Proof.
  revert s tr. induction ms as [|m ms IH]; simpl; intros s tr.
  - intros [= <- <-]. constructor.
  - intros ([e s1] & Hm & ([tr' s2] & Hms & [= <- <-])%bind_Some)%bind_Some.
    apply (steps_app s [e] s1 tr' s2); [|by apply IH].
    apply (steps_snoc s [] s e s1); [apply steps_nil|by apply (move_step m)].
Qed.
End Concurrency.

(** * Examples *)

#[local] Existing Instance example_json.
#[local] Existing Instance example_payload.

Definition no_usage : UsageStats :=
  mkUsageStats 0 0 f64_zero 0 0 f64_zero 0 0 f64_zero None 0.

Definition example_key : ApiKey :=
  mkApiKey (metadata_new "key" 0) "ci" "hash" "gw-a...wxyz" None None ["api.chat"] None None true None
    no_usage.

Definition rename : UpdateKeyConfig Json := mkUpdate (Some "ci 2") None None None None None None.

(** Requests that two records of usage run side by side add, one of which meets a
    conflict, and a third whose answer is lost. *)
Definition busy : list Move :=
  [Begin (OpUsage "key" 3 100 f64_zero false 5); Begin (OpUsage "key" 4 100 f64_zero false 5);
   Advance 0 Answered; Advance 1 Answered; Advance 1 Answered; Advance 0 Answered; Advance 1 Answered;
   Advance 0 Answered; Begin (OpUsage "key" 5 1 f64_zero true 9); Advance 0 Answered;
   Advance 0 (AnswerLost "timeout"); Begin (OpPermissions "key" [] 10); Advance 0 Answered; Cancel 0].

Definition busy_run := Eval vm_compute in moves busy ({["key" := example_key]}, []).

Lemma usage_not_lost_witness :
  match busy_run with
  | Some (tr, (db, ts)) =>
      match db !! "key" with
      | Some k =>
          (requests_of k = Z.min u64_max (requests_of example_key + total (written "key") tr) /\
           total (succeeded "key") tr <= total (written "key") tr <= total (started "key") tr) /\
          (requests_of k, total (succeeded "key") tr, total (written "key") tr, total (started "key") tr)
            = (9, 4, 9, 12)
      | None => False
      end
  | None => False
  end.
Proof.
  unfold busy_run. split; [|vm_compute; reflexivity].
  eapply (usage_not_lost "key" example_key _ {["key" := example_key]}).
  - intros i k Hk. apply lookup_singleton_Some in Hk as [<- <-]. reflexivity.
  - reflexivity.
  - split; vm_compute; discriminate.
  - split; vm_compute; congruence.
  - intros op Hop. repeat (apply elem_of_cons in Hop as [Hop|Hop]; [try (injection Hop as ->); try discriminate Hop|]);
      try (by apply elem_of_nil in Hop); repeat split; simpl; try tauto; vm_compute; discriminate.
  - vm_compute. reflexivity.
  - apply (moves_steps busy). vm_compute. reflexivity.
  - vm_compute. reflexivity.
Defined.

(** The update of a key's configuration is the exception: what it writes is the key
    it read in an earlier transaction.  Beside a revocation it can bring the key
    back, after the revocation was answered. *)
Definition revoke_beside_update : list Move :=
  [Begin (OpUpdate "key" rename 5 8); Advance 0 Answered; Begin (OpDeactivate "key" 7);
   Advance 1 Answered; Advance 1 Answered; Advance 1 Answered;
   Advance 0 Answered; Advance 0 Answered; Advance 0 Answered; Advance 0 Answered].

Lemma update_reactivates :
  exists tr db ts, steps ({["key" := example_key]}, []) tr (db, ts) /\
    existsb (fun e => match e with EDone (OpDeactivate _ _) (Ok _) => true | _ => false end) tr = true /\
    (is_active <$> db !! "key") = Some true.
Proof.
  assert (Hr : match moves revoke_beside_update ({["key" := example_key]}, []) with
    | Some (tr, (db, ts)) =>
        existsb (fun e => match e with EDone (OpDeactivate _ _) (Ok _) => true | _ => false end) tr = true /\
        (is_active <$> db !! "key") = Some true
    | None => False end) by (vm_compute; by split).
  destruct (moves _ _) as [[tr [db ts]]|] eqn:Hm; [|done].
  exists tr, db, ts. split; [by apply (moves_steps revoke_beside_update)|done].
Qed.

(** And beside a record of usage it takes the usage back. *)
Definition usage_beside_update : list Move :=
  [Begin (OpUpdate "key" rename 5 8); Advance 0 Answered;
   Begin (OpUsage "key" 3 100 f64_zero false 7);
   Advance 1 Answered; Advance 1 Answered; Advance 1 Answered;
   Advance 0 Answered; Advance 0 Answered; Advance 0 Answered; Advance 0 Answered].

Lemma update_loses_usage :
  exists tr db ts, steps ({["key" := example_key]}, []) tr (db, ts) /\
    total (succeeded "key") tr = 3 /\ (requests_of <$> db !! "key") = Some 0.
Proof.
  assert (Hr : match moves usage_beside_update ({["key" := example_key]}, []) with
    | Some (tr, (db, ts)) => total (succeeded "key") tr = 3 /\ (requests_of <$> db !! "key") = Some 0
    | None => False end) by (vm_compute; by split).
  destruct (moves _ _) as [[tr [db ts]]|] eqn:Hm; [|done].
  exists tr, db, ts. split; [by apply (moves_steps usage_beside_update)|done].
Qed.
