(* ===== verification/Authentication.v ===== *)
(** Who a request comes from ([auth/system.rs], [auth/api_key/creation.rs],
    [management.rs], [permissions.rs]): the verification of API keys and of access
    tokens against users and teams, and the creation of keys.

    The database is seen through its answers to the queries of one
    authentication, which may fail and may each see another state. *)

From S2P Require Import Prelude Text StrOps Float64 ProviderErrors GatewayErrors Principals Credentials.
From S2P Require Import Tokens KeyStore KeyConcurrency.

(** * Creation of keys *)

Definition VALID_PERMISSIONS : list string :=
  ["*"; "users.read"; "users.write"; "users.delete"; "teams.read"; "teams.write"; "teams.delete";
   "api.chat"; "api.embeddings"; "api.images"; "api.realtime"; "api_keys.read"; "api_keys.write";
   "api_keys.delete"; "analytics.read"; "system.admin"].

(** [char::is_control] on UTF-8: U+0000 to U+001F, U+007F, and U+0080 to U+009F. *)
Fixpoint has_control (s : bytes) : bool :=
  match s with
  | [] => false
  | c :: rest =>
      let n := Ascii.nat_of_ascii c in
      (n <? 32)%nat || (n =? 127)%nat
      || ((n =? 194)%nat && match rest with
                            | d :: _ => (Ascii.nat_of_ascii d <? 160)%nat
                            | [] => false
                            end)
      || has_control rest
  end.

Definition is_name_byte (c : Ascii.ascii) : bool :=
  is_ascii_alphanumeric c || bool_decide (Ascii.nat_of_ascii c = 45%nat)
  || bool_decide (Ascii.nat_of_ascii c = 95%nat).

Definition scoped_permission (perm : string) : bool :=
  match (match strip_prefix perm "mcp." with Some s => Some s | None => strip_prefix perm "a2a." end) with
  | Some server => negb (String.eqb server "") && forallb is_name_byte (of_string server)
  | None => false
  end.

Definition unknown_permission (perm : string) : GatewayError :=
  GValidation ("Unknown permission: '" +:+ perm +:+ "'. Valid permissions: "
               +:+ join ", " (tail VALID_PERMISSIONS)).

(** [validate_create_key_input]: the first unknown permission is reported. *)
Definition validate_create_key_input (name : string) (permissions : list string)
    : result unit GatewayError :=
  if String.eqb name "" then Err (GValidation "API key name must not be empty")
  else if 255 <? Z.of_nat (String.length name)
  then Err (GValidation "API key name must not exceed 255 characters")
  else if has_control (of_string name)
  then Err (GValidation "API key name must not contain control characters")
  else
    match find (fun p => negb (mem p VALID_PERMISSIONS) && negb (scoped_permission p)) permissions with
    | Some p => Err (unknown_permission p)
    | None => Ok tt
    end.

(** [extract_api_key_prefix]; a generated key is ASCII. *)
Definition extract_api_key_prefix (key : string) : string :=
  let n := String.length key in
  if (8 <=? n)%nat then String.substring 0 4 key +:+ "..." +:+ String.substring (n - 4) 4 key else key.

Record CreateApiKeyRequest := mkCreate {
  req_name : string;
  req_user_id : option string;
  req_team_id : option string;
  req_permissions : list string;
  req_rate_limits : option RateLimits;
  req_expires_at : option Z;
}.

(** * Answers of the database *)

Record AuthStorage `{JsonValues} := mkStorage {
  find_key_by_hash : string -> result (option ApiKey) GatewayError;
  find_user_by_id : string -> result (option User) GatewayError;
  team_for_authentication : string -> result (option Team) GatewayError;
  get_team : string -> result (option Team) GatewayError;
  get_member : string -> string -> result (option TeamMember) GatewayError;
}.
Arguments mkStorage {_} _ _ _ _ _.
Arguments find_key_by_hash {_} _ _.
Arguments find_user_by_id {_} _ _.
Arguments team_for_authentication {_} _ _.
Arguments get_team {_} _ _.
Arguments get_member {_} _ _ _.

Definition LAST_USED_THROTTLE : Z := from_secs (5 * 60).

Section Verification.
Context `{JsonValues}.
(** [hex::encode] of the digests. *)
Variable sha256_hex : string -> string.
Variable hmac_sha256_hex : string -> string -> string.

Definition hash_api_key (api_key : string) (hmac_secret : option string) : string :=
  match hmac_secret with
  | Some secret => hmac_sha256_hex secret api_key
  | None => sha256_hex api_key
  end.

Variable hmac_secret : option string.

(** ** Programs on the database *)

Definition new_key (request : CreateApiKeyRequest) (raw_key id : string) (now : Z) : ApiKey :=
  mkApiKey (metadata_new id now) (req_name request) (hash_api_key raw_key hmac_secret)
    (extract_api_key_prefix raw_key) (req_user_id request) (req_team_id request)
    (req_permissions request) (req_rate_limits request) (req_expires_at request) true None
    (mkUsageStats 0 0 f64_zero 0 0 f64_zero 0 0 f64_zero None 0).

(** [create_key_with_options], with the key that is generated. *)
Definition create_key_with_options (request : CreateApiKeyRequest) (raw_key id : string) (now : Z)
    : Op (ApiKey * string) :=
  match validate_create_key_input (req_name request) (req_permissions request) with
  | Err e => Return (Err e)
  | Ok _ => bind (create_api_key (new_key request raw_key id now)) (fun stored => Return (Ok (stored, raw_key)))
  end.

Definition create_key (user_id team_id : option string) (name : string) (permissions : list string)
    (raw_key id : string) (now : Z) : Op (ApiKey * string) :=
  create_key_with_options (mkCreate name user_id team_id permissions None None) raw_key id now.

(** [revoke_key]; what is asked of the cache changes nothing here. *)
Definition revoke_key (id : string) (now : Z) : Op unit := deactivate_api_key id now.

Definition regenerate_key (key_id raw_key id : string) (now revoked_at : Z) : Op (ApiKey * string) :=
  one (FindById key_id) (fun r =>
    match r with
    | None => Return (Err not_found)
    | Some old_key =>
        let request := mkCreate (key_name old_key) (key_user_id old_key) (key_team_id old_key)
                         (permissions old_key) (rate_limits old_key) (expires_at old_key) in
        bind (create_key_with_options request raw_key id now) (fun created =>
        bind (revoke_key key_id revoked_at) (fun _ => Return (Ok created)))
    end).

(** [permissions.rs] *)
Definition key_has_permission (key : ApiKey) (permission : string) : bool :=
  mem permission (permissions key) || mem "*" (permissions key).
Definition has_any_permission (key : ApiKey) (ps : list string) : bool :=
  if mem "*" (permissions key) then true else existsb (fun p => mem p (permissions key)) ps.
Definition has_all_permissions (key : ApiKey) (ps : list string) : bool :=
  if mem "*" (permissions key) then true else forallb (fun p => mem p (permissions key)) ps.

(** ** Verification of a key *)

Variable st : AuthStorage.

Definition api_key_owner_invalid_reason (key : ApiKey) (user : option User) : option string :=
  match key_user_id key with
  | None => None
  | Some _ =>
      match user with
      | None => Some "Associated user was not found"
      | Some u => if negb (user_is_active u) then Some "Associated user is inactive" else None
      end
  end.

Definition principal_invalid_reason (key : ApiKey) (user : option User)
    : result (option string) GatewayError :=
  match api_key_owner_invalid_reason key user with
  | Some reason => Ok (Some reason)
  | None =>
      match key_team_id key with
      | None => Ok None
      | Some team_id =>
          match team_for_authentication st team_id with
          | Err e => Err e
          | Ok None => Ok (Some "Associated team was not found")
          | Ok (Some team) =>
              if negb (String.eqb (t_id team) team_id) then Ok (Some "Associated team was not found")
              else if negb (team_is_active team) then Ok (Some "Associated team is inactive")
              else Ok None
          end
      end
  end.

Definition key_is_expired (now : Z) (key : ApiKey) : bool :=
  match expires_at key with Some t => t <? now | None => false end.

Definition owner (key : ApiKey) : result (option User) GatewayError :=
  match key_user_id key with Some id => find_user_by_id st id | None => Ok None end.

(** [update_last_used]: the throttle cache, and whether a write is started. *)
Definition update_last_used (id : string) (now : Z) (cache : gmap string Z) : gmap string Z * bool :=
  match cache !! id with
  | Some last => if now - last <? LAST_USED_THROTTLE then (cache, false) else (<[id := now]> cache, true)
  | None => (<[id := now]> cache, true)
  end.

(** What verification answers, with the cache and the write it leaves. *)
Definition verify_key (raw_key : string) (now instant : Z) (cache : gmap string Z)
    : gmap string Z * bool * result (option (ApiKey * option User)) GatewayError :=
  match find_key_by_hash st (hash_api_key raw_key hmac_secret) with
  | Err e => (cache, false, Err e)
  | Ok None => (cache, false, Ok None)
  | Ok (Some key) =>
      if negb (is_active key) then (cache, false, Ok None)
      else if key_is_expired now key then (cache, false, Ok None)
      else
        match owner key with
        | Err e => (cache, false, Err e)
        | Ok user =>
            match principal_invalid_reason key user with
            | Err e => (cache, false, Err e)
            | Ok (Some _) => (cache, false, Ok None)
            | Ok None => (update_last_used (key_id key) instant cache, Ok (Some (key, user)))
            end
        end
  end.

Record ApiKeyVerification := mkVerification {
  ver_api_key : ApiKey;
  ver_user : option User;
  is_valid : bool;
  invalid_reason : option string;
}.

(** [verify_key_detailed]; [id] and [at] are those of the blank key it returns
    when there is none. *)
Definition verify_key_detailed (raw_key : string) (now instant : Z) (id : string) (at_time : Z)
    (cache : gmap string Z)
    : gmap string Z * bool * result ApiKeyVerification GatewayError :=
  let blank :=
    mkApiKey (metadata_new id at_time) "" "" "" None None [] None None false None
      (mkUsageStats 0 0 f64_zero 0 0 f64_zero 0 0 f64_zero None 0) in
  match find_key_by_hash st (hash_api_key raw_key hmac_secret) with
  | Err e => (cache, false, Err e)
  | Ok None => (cache, false, Ok (mkVerification blank None false (Some "API key not found")))
  | Ok (Some key) =>
      if negb (is_active key)
      then (cache, false, Ok (mkVerification key None false (Some "API key is inactive")))
      else if key_is_expired now key
      then (cache, false, Ok (mkVerification key None false (Some "API key is expired")))
      else
        match owner key with
        | Err e => (cache, false, Err e)
        | Ok user =>
            match principal_invalid_reason key user with
            | Err e => (cache, false, Err e)
            | Ok (Some reason) => (cache, false, Ok (mkVerification key user false (Some reason)))
            | Ok None =>
                (update_last_used (key_id key) instant cache, Ok (mkVerification key user true None))
            end
        end
  end.
End Verification.

(** * Requests *)

Record AuthResult `{JsonValues} := mkAuthResult {
  success : bool;
  auth_user : option User;
  auth_api_key : option ApiKey;
  auth_error : option string;
  context : RequestContext;
}.
Arguments mkAuthResult {_} _ _ _ _ _.

Definition user_permissions (u : User) : list string :=
  match role u with
  | Admin => ["read:all"; "write:all"; "delete:all"; "manage:users"; "manage:api_keys"; "manage:teams"]
  | SuperAdmin => ["read:all"; "write:all"; "delete:all"; "manage:users"; "manage:api_keys";
                   "manage:teams"; "manage:system"]
  | Manager => ["read:team"; "write:team"; "manage:team_users"; "manage:team_api_keys"]
  | RegularUser => ["read:own"; "write:own"; "use:api"]
  | ApiUser => ["use:api"]
  | Viewer => ["read:own"]
  end.

Section Authentication.
Context `{JsonValues} `{JwtLibrary}.
Variable sha256_hex : string -> string.
Variable hmac_sha256_hex : string -> string -> string.
Variable hmac_secret : option string.
Variable h : JwtHandler.
Variable st : AuthStorage.

Definition rejection (reason : string) (ctx : RequestContext) : AuthResult :=
  mkAuthResult false None None (Some reason) ctx.

Definition validate_active_team (user_id team_id : string)
    : result (option VerifiedActiveTeam) GatewayError :=
  match get_team st team_id with
  | Err e => Err e
  | Ok None => Ok None
  | Ok (Some team) =>
      if negb (String.eqb (t_id team) team_id) || negb (team_is_active team) then Ok None
      else
        match get_member st team_id user_id with
        | Err e => Err e
        | Ok None => Ok None
        | Ok (Some member) =>
            if negb (String.eqb (m_team member) team_id) || negb (String.eqb (m_user member) user_id)
               || negb (member_is_active member)
            then Ok None else Ok (Some (mkVerified user_id team_id))
        end
  end.

Definition authenticate_jwt (token : string) (now : Z) (ctx : RequestContext)
    : result AuthResult GatewayError :=
  match verify_access_token_with_provenance h now token with
  | Err e => Ok (rejection ("Invalid JWT token: " +:+ e) ctx)
  | Ok access =>
      let claims := public access in
      if negb (bool_decide (token_type claims = Access))
      then Ok (rejection "Invalid token type: expected access token" ctx)
      else
        match find_user_by_id st (sub claims) with
        | Err e => Err e
        | Ok None => Ok (rejection "User not found" ctx)
        | Ok (Some user) =>
            if negb (user_is_active user) then Ok (rejection "User account is not active" ctx)
            else
              let ctx := set_user_id (Some (u_id user)) ctx in
              let accept ctx := Ok (mkAuthResult true (Some user) None None ctx) in
              match team_scope_version access with
              | Absent => accept (put_team_id None ctx)
              | Present version =>
                  if version =? 1 then
                    match claim_team claims with
                    | None => accept (put_team_id None ctx)
                    | Some team_id =>
                        match validate_active_team (u_id user) team_id with
                        | Err e => Err e
                        | Ok None => Ok (rejection "Selected team is not active" ctx)
                        | Ok (Some verified) => accept (put_team_id (Some (verified_team verified)) ctx)
                        end
                    end
                  else Ok (rejection "Unsupported access-token team scope version" ctx)
              end
        end
  end.

Definition key_context (key : ApiKey) (ctx : RequestContext) : RequestContext :=
  put_team_id (key_team_id key)
    (set_user_id (key_user_id key)
       (put_api_key_budget_id (api_key_budget_id key) (set_api_key_id (key_id key) ctx))).

Definition authenticate_api_key (key : string) (now instant : Z) (cache : gmap string Z)
    (ctx : RequestContext) : gmap string Z * bool * result AuthResult GatewayError :=
  let '(cache, persist, answer) :=
    verify_key sha256_hex hmac_sha256_hex hmac_secret st key now instant cache in
  (cache, persist,
   match answer with
   | Ok (Some (key, user)) => Ok (mkAuthResult true user (Some key) None (key_context key ctx))
   | Ok None => Ok (rejection "Invalid API key" ctx)
   | Err e => Err e
   end).

(** [authenticate]: a session is never accepted. *)
Definition authenticate (method : AuthMethod) (now instant : Z) (cache : gmap string Z)
    (ctx : RequestContext) : gmap string Z * bool * result AuthResult GatewayError :=
  match method with
  | Jwt token => (cache, false, authenticate_jwt token now ctx)
  | ApiKeyMethod key => authenticate_api_key key now instant cache ctx
  | Session _ => (cache, false, Ok (rejection "Session authentication is not yet implemented" ctx))
  | NoMethod => (cache, false, Ok (rejection "No authentication provided" ctx))
  end.

Abbreviation answer method now instant cache ctx := (snd (authenticate method now instant cache ctx)).

(** * What authentication establishes *)

(** A team that [user] may act for. *)
Definition active_member (user_id team_id : string) : Prop :=
  exists team member,
    get_team st team_id = Ok (Some team) /\ t_id team = team_id /\ t_status team = TeamActive /\
    get_member st team_id user_id = Ok (Some member) /\ m_team member = team_id /\
    m_user member = user_id /\ m_status member = MemberActive.

(** A key is good: itself, its owner and its team. *)
Definition owner_ok (key : ApiKey) (user : option User) : Prop :=
  match key_user_id key with
  | None => user = None
  | Some id => exists u, user = Some u /\ find_user_by_id st id = Ok (Some u) /\ u_status u = UserActive
  end.
Definition team_ok (key : ApiKey) : Prop :=
  forall id, key_team_id key = Some id ->
    exists team, team_for_authentication st id = Ok (Some team) /\ t_id team = id /\ t_status team = TeamActive.
Definition key_ok (now : Z) (key : ApiKey) (user : option User) : Prop :=
  is_active key = true /\ (forall t, expires_at key = Some t -> now <= t) /\ owner_ok key user /\ team_ok key.

(** The principal that a credential stands for, and the context it gives. *)
Definition authentic (method : AuthMethod) (now : Z) (ctx : RequestContext) (r : AuthResult) : Prop :=
  match method with
  | Jwt token =>
      exists access user team,
        verify_access_token_with_provenance h now token = Ok access /\
        token_type (public access) = Access /\
        find_user_by_id st (sub (public access)) = Ok (Some user) /\ u_status user = UserActive /\
        match team_scope_version access, claim_team (public access) with
        | Present _, Some t => team = Some t /\ active_member (u_id user) t
        | _, _ => team = None
        end /\
        r = mkAuthResult true (Some user) None None
              (put_team_id team (set_user_id (Some (u_id user)) ctx))
  | ApiKeyMethod raw =>
      exists key user,
        find_key_by_hash st (hash_api_key sha256_hex hmac_sha256_hex raw hmac_secret) = Ok (Some key) /\
        key_ok now key user /\
        r = mkAuthResult true user (Some key) None (key_context key ctx)
  | Session _ | NoMethod => False
  end.

Lemma user_active_iff (u : User) : user_is_active u = true <-> u_status u = UserActive.
Proof. apply bool_decide_eq_true. Qed.
Lemma team_active_iff (t : Team) : team_is_active t = true <-> t_status t = TeamActive.
Proof. apply bool_decide_eq_true. Qed.
Lemma member_active_iff (m : TeamMember) : member_is_active m = true <-> m_status m = MemberActive.
Proof. apply bool_decide_eq_true. Qed.

Lemma validate_active_team_iff (user_id team_id : string) (v : VerifiedActiveTeam) :
  validate_active_team user_id team_id = Ok (Some v) <->
  v = mkVerified user_id team_id /\ active_member user_id team_id.
Proof.
  unfold validate_active_team, active_member.
  rewrite <- (and_comm (exists _, _)). split.
  - destruct (get_team st team_id) as [[team|]|]; try done.
    destruct (String.eqb_spec (t_id team) team_id); [|done].
    destruct (team_is_active team) eqn:Ht; [|done]. apply team_active_iff in Ht. simpl.
    destruct (get_member st team_id user_id) as [[m|]|]; try done.
    destruct (String.eqb_spec (m_team m) team_id); [|done].
    destruct (String.eqb_spec (m_user m) user_id); [|done].
    destruct (member_is_active m) eqn:Hm; [|done]. apply member_active_iff in Hm.
    intros [= <-]. split; [|done]. by exists team, m.
  - intros [(team & m & -> & <- & Ht & Hm & Hmt & Hmu & Hs) ->].
    rewrite String.eqb_refl, (proj2 (team_active_iff team) Ht). simpl. rewrite Hm.
    rewrite Hmt, Hmu, !String.eqb_refl, (proj2 (member_active_iff m) Hs). done.
Qed.

Lemma principal_valid_iff (key : ApiKey) (user : option User) :
  owner st key = Ok user ->
  principal_invalid_reason st key user = Ok None <-> owner_ok key user /\ team_ok key.
Proof.
  unfold owner, principal_invalid_reason, api_key_owner_invalid_reason, owner_ok, team_ok. intros Ho.
  assert (Hteam : match key_team_id key with
    | None => Ok None
    | Some team_id =>
        match team_for_authentication st team_id with
        | Err e => Err e
        | Ok None => Ok (Some "Associated team was not found")
        | Ok (Some team) =>
            if negb (String.eqb (t_id team) team_id) then Ok (Some "Associated team was not found")
            else if negb (team_is_active team) then Ok (Some "Associated team is inactive") else Ok None
        end
    end = Ok None <-> team_ok key).
  { unfold team_ok. destruct (key_team_id key) as [id|]; [|by split].
    destruct (team_for_authentication st id) as [[t|]|] eqn:Ht; simpl;
      [|split; [done|intros Hall; destruct (Hall id eq_refl) as (? & ? & _); congruence]..].
    destruct (String.eqb_spec (t_id t) id) as [Hid|Hid]; simpl.
    2:{ split; [done|]. intros Hall. destruct (Hall id eq_refl) as (? & ? & ? & _). congruence. }
    destruct (team_is_active t) eqn:Ha; simpl.
    - split; [|done]. intros _ i [= <-]. exists t. by apply team_active_iff in Ha.
    - split; [done|]. intros Hall. destruct (Hall id eq_refl) as (t' & Ht' & _ & Hs).
      assert (t' = t) as -> by congruence. apply team_active_iff in Hs. congruence. }
  unfold team_ok in Hteam. destruct (key_user_id key) as [id|].
  - destruct user as [u|]; [|split; [done|intros [(? & ? & _) _]; done]].
    destruct (user_is_active u) eqn:Hu; simpl.
    + rewrite Hteam. apply user_active_iff in Hu. split; [|tauto]. intros Ht. split; [|done]. by exists u.
    + split; [done|]. intros [(? & [= <-] & _ & Hs) _]. apply user_active_iff in Hs. congruence.
  - injection Ho as <-. rewrite Hteam. tauto.
Qed.
Lemma expired_iff (now : Z) (key : ApiKey) :
  key_is_expired now key = false <-> forall t, expires_at key = Some t -> now <= t.
Proof.
  unfold key_is_expired. destruct (expires_at key) as [t|]; [|by split].
  split; [intros Hl t' [= <-]; lia|]. intros Hl. specialize (Hl t eq_refl). lia.
Qed.

Lemma owner_ok_owner (key : ApiKey) (user : option User) : owner_ok key user -> owner st key = Ok user.
Proof.
  unfold owner_ok, owner. destruct (key_user_id key); [|by intros ->]. by intros (u & -> & Hu & _).
Qed.

Lemma verify_key_iff (raw : string) (now instant : Z) (cache : gmap string Z) (key : ApiKey) (user : option User) :
  snd (verify_key sha256_hex hmac_sha256_hex hmac_secret st raw now instant cache) = Ok (Some (key, user)) <->
  find_key_by_hash st (hash_api_key sha256_hex hmac_sha256_hex raw hmac_secret) = Ok (Some key) /\
  key_ok now key user.
Proof.
  unfold verify_key, key_ok.
  destruct (find_key_by_hash st _) as [[k|]|]; simpl; try (split; [done|by intros [? _]]).
  destruct (is_active k) eqn:Hact; simpl; [|split; [done|intros ([= <-] & Ha & _); congruence]].
  destruct (key_is_expired now k) eqn:Hexp; simpl.
  { split; [done|]. intros ([= <-] & _ & He & _). apply expired_iff in He. congruence. }
  pose proof (proj1 (expired_iff now k) Hexp) as He.
  destruct (owner st k) as [u|e] eqn:Ho; simpl.
  2:{ split; [done|]. intros ([= <-] & _ & _ & Hu & _). apply owner_ok_owner in Hu. congruence. }
  pose proof (principal_valid_iff k u Ho) as Hp.
  destruct (principal_invalid_reason st k u) as [[reason|]|] eqn:Hr; simpl.
  - split; [done|]. intros ([= <-] & _ & _ & Hu & Ht). pose proof (owner_ok_owner _ _ Hu) as Hu'.
    assert (user = u) as -> by congruence. by pose proof (proj2 Hp (conj Hu Ht)).
  - split; [intros [= <- <-]; destruct (proj1 Hp eq_refl); by split_and!|].
    intros ([= <-] & _ & _ & Hu & _). apply owner_ok_owner in Hu. by assert (user = u) as -> by congruence.
  - split; [done|]. intros ([= <-] & _ & _ & Hu & Ht). pose proof (owner_ok_owner _ _ Hu) as Hu'.
    assert (user = u) as -> by congruence. by pose proof (proj2 Hp (conj Hu Ht)).
Qed.

Lemma provenance_version (now : Z) (token : string) (access : AccessTokenClaims) (version : Z) :
  verify_access_token_with_provenance h now token = Ok access ->
  team_scope_version access = Present version -> version = 1.
Proof.
  unfold verify_access_token_with_provenance. destruct (decode_for h _ now token) as [c|]; [|done].
  destruct (team_scope_version c) as [|v] eqn:Hv; [by intros [= <-]; rewrite Hv|].
  destruct (Z.eqb_spec v 1); [|done]. intros [= <-]. rewrite Hv. by intros [= <-].
Qed.

Lemma authenticate_jwt_iff (token : string) (now : Z) (ctx : RequestContext) (r : AuthResult) :
  authenticate_jwt token now ctx = Ok r /\ success r = true <-> authentic (Jwt token) now ctx r.
Proof.
  unfold authenticate_jwt, authentic.
  destruct (verify_access_token_with_provenance h now token) as [access|e] eqn:Hver.
  2:{ split; [by intros [[= <-] ?]|]. intros (? & ? & ? & ? & _). congruence. }
  case_bool_decide as Htype; simpl.
  2:{ split; [by intros [[= <-] ?]|]. intros (a & ? & ? & ? & ? & _). congruence. }
  destruct (find_user_by_id st (sub (public access))) as [[user|]|] eqn:Huser;
    [|split; [by intros [? ?]; simplify_eq|intros (a & ? & ? & ? & _ & Hu & _); simplify_eq; congruence]..].
  destruct (user_is_active user) eqn:Hact; simpl.
  2:{ split; [by intros [[= <-] ?]|]. intros (a & u & ? & [= <-] & _ & Hu & Hs & _).
      rewrite Huser in Hu. injection Hu as <-. apply user_active_iff in Hs. congruence. }
  apply user_active_iff in Hact as Hs.
  assert (Hauthentic : forall team,
    match team_scope_version access, claim_team (public access) with
    | Present _, Some t => team = Some t /\ active_member (u_id user) t
    | _, _ => team = None
    end ->
    (exists access0 user0 team0,
       (Ok access : result AccessTokenClaims string) = Ok access0 /\ token_type (public access0) = Access /\
       find_user_by_id st (sub (public access0)) = Ok (Some user0) /\ u_status user0 = UserActive /\
       match team_scope_version access0, claim_team (public access0) with
       | Present _, Some t => team0 = Some t /\ active_member (u_id user0) t
       | _, _ => team0 = None
       end /\
       r = mkAuthResult true (Some user0) None None (put_team_id team0 (set_user_id (Some (u_id user0)) ctx))) <->
    r = mkAuthResult true (Some user) None None (put_team_id team (set_user_id (Some (u_id user)) ctx))).
  { intros team Hteam. split.
    - intros (a & u & t & [= <-] & _ & Hu & _ & Ht & ->). assert (u = user) as -> by congruence.
      repeat case_match; destruct_and?; simplify_eq; done.
    - intros ->. by exists access, user, team. }
  assert (Haccept : forall c, (Ok (mkAuthResult true (Some user) None None c) : result AuthResult GatewayError) = Ok r /\
      success r = true <-> r = mkAuthResult true (Some user) None None c).
  { intros c. split; [by intros [[= <-] _]|by intros ->]. }
  destruct (team_scope_version access) as [|version] eqn:Hscope.
  { rewrite Haccept. by rewrite (Hauthentic None). }
  assert (version = 1) as -> by (by eapply provenance_version). simpl.
  destruct (claim_team (public access)) as [t|] eqn:Hteam.
  2:{ rewrite Haccept. by rewrite (Hauthentic None). }
  pose proof (validate_active_team_iff (u_id user) t) as Hval.
  destruct (validate_active_team (u_id user) t) as [[v|]|e] eqn:Hv.
  - destruct (proj1 (Hval v) eq_refl) as [-> Hmember]. simpl.
    rewrite Haccept. by rewrite (Hauthentic (Some t)).
  - split; [by intros [[= <-] ?]|]. intros (a & u & team & [= <-] & _ & Hu & _ & Ht & _).
    rewrite Hscope, Hteam in Ht. assert (u = user) as -> by congruence. destruct Ht as [_ Ht].
    by pose proof (proj2 (Hval (mkVerified (u_id user) t)) (conj eq_refl Ht)).
  - split; [by intros [? ?]|]. intros (a & u & team & [= <-] & _ & Hu & _ & Ht & _).
    rewrite Hscope, Hteam in Ht. assert (u = user) as -> by congruence. destruct Ht as [_ Ht].
    by pose proof (proj2 (Hval (mkVerified (u_id user) t)) (conj eq_refl Ht)).
Qed.

(** C31: Authentication succeeds for exactly the credentials that stand for an
    active principal, and with that principal's identity: an access token of a
    user who is active, in the team the token selects only while the user is an
    active member of that active team; a stored key that is active and not
    expired, whose owner and team, if it has them, are active.  Sessions and
    requests without credentials never succeed. *)
Theorem authentication_exact (method : AuthMethod) (now instant : Z) (cache : gmap string Z)
    (ctx : RequestContext) (r : AuthResult) :
  (answer method now instant cache ctx = Ok r /\ success r = true) <-> authentic method now ctx r.
Proof.
  destruct method as [token|raw|session|]; simpl.
  - apply authenticate_jwt_iff.
  - unfold authenticate_api_key.
    pose proof (verify_key_iff raw now instant cache) as Hv.
    destruct (verify_key _ _ _ _ _ _ _ _) as [[c p] [[[key user]|]|e]]; simpl in *.
    + destruct (proj1 (Hv key user) eq_refl) as [Hk Hok]. split; [intros [[= <-] _]; by exists key, user|].
      intros (k & u & Hk' & Hok' & ->). pose proof (proj2 (Hv k u) (conj Hk' Hok')) as [= -> ->]. done.
    + split; [by intros [[= <-] ?]|]. intros (k & u & Hk & Hok & _). by pose proof (proj2 (Hv k u) (conj Hk Hok)).
    + split; [by intros [? _]|]. intros (k & u & Hk & Hok & _). by pose proof (proj2 (Hv k u) (conj Hk Hok)).
  - split; [by intros [[= <-] ?]|done].
  - split; [by intros [[= <-] ?]|done].
Qed.

(** The two verifications of a key agree, in what they answer and in what they
    leave behind. *)
Lemma verifications_agree (raw : string) (now instant : Z) (id : string) (at_time : Z) (cache : gmap string Z) :
  let '(c1, p1, v1) := verify_key sha256_hex hmac_sha256_hex hmac_secret st raw now instant cache in
  let '(c2, p2, v2) :=
    verify_key_detailed sha256_hex hmac_sha256_hex hmac_secret st raw now instant id at_time cache in
  c1 = c2 /\ p1 = p2 /\
  match v1, v2 with
  | Err e, Err e' => e = e'
  | Ok found, Ok v =>
      found = (if is_valid v then Some (ver_api_key v, ver_user v) else None) /\
      (is_valid v = true <-> invalid_reason v = None)
  | _, _ => False
  end.
Proof.
  unfold verify_key, verify_key_detailed.
  destruct (find_key_by_hash st _) as [[k|]|]; simpl; try (by split_and!).
  destruct (is_active k); simpl; [|by split_and!].
  destruct (key_is_expired now k); simpl; [by split_and!|].
  destruct (owner st k) as [u|]; simpl; [|by split_and!].
  destruct (principal_invalid_reason st k u) as [[reason|]|]; simpl; try (by split_and!).
  destruct (update_last_used _ _ _). by split_and!.
Qed.

(** A revocation is final for authentication.  Once the write of a revocation
    has reached the key's row, whatever other operations on keys run, fail or are
    cancelled in any interleaving, and however the database answers, no later
    authentication with the key's secret succeeds; provided no update of the key's
    configuration was in flight and nobody sets the key active again. *)
Theorem revocation_final `{!PayloadJson} (id raw : string) (revoked_at : Z) db0 tr0 db ts tr db' ts'
    (now instant : Z) (cache : gmap string Z) (ctx : RequestContext) (r : AuthResult) :
  let hash := hash_api_key sha256_hex hmac_sha256_hex raw hmac_secret in
  Good (placed id hash) db0 ->
  steps (db0, []) (tr0 ++ [EWrite (OpDeactivate id revoked_at)]) (db, ts) ->
  (forall t, t ∈ ts -> ~ reactivates id (t_op t) /\ ~ updates id (t_op t)) ->
  steps (db, ts) tr (db', ts') ->
  (forall op, EStart op ∈ tr0 -> others_key id hash op) ->
  (forall op, EStart op ∈ tr -> others_key id hash op /\ ~ reactivates id op) ->
  (find_key_by_hash st hash = Ok (row_with_hash hash db') \/ exists e, find_key_by_hash st hash = Err e) ->
  answer (ApiKeyMethod raw) now instant cache ctx = Ok r -> success r = false.
Proof.
  intros hash Hdb0 Htr0 Hflight Htr Hop0 Hop Hst Hans.
  destruct (success r) eqn:Hs; [|done]. exfalso.
  assert (Hauth : authentic (ApiKeyMethod raw) now ctx r).
  { revert Hans. simpl. unfold authenticate_api_key.
    pose proof (verify_key_iff raw now instant cache) as Hv.
    destruct (verify_key _ _ _ _ _ _ _ _) as [[c p] [[[key user]|]|e]]; simpl in *; intros [= <-]; try done.
    destruct (proj1 (Hv key user) eq_refl). by exists key, user. }
  destruct Hauth as (key & user & Hkey & (Hact & _) & _). fold hash in Hkey.
  destruct Hst as [Hst|[e Hst]]; rewrite Hst in Hkey; [|done]. injection Hkey as Hrow.
  pose proof (revoked_forever id hash db0 tr0 revoked_at db ts tr db' ts' Hdb0 Htr0 Hflight Htr Hop0 Hop) as Hgood.
  unfold row_with_hash in Hrow.
  destruct (filter (fun p => key_hash p.2 = hash) (map_to_list db')) as [|[i k] rest] eqn:Hf; [done|].
  injection Hrow as ->.
  assert (Hin : (i, key) ∈ filter (fun p => key_hash p.2 = hash) (map_to_list db')) by (rewrite Hf; by left).
  apply list_elem_of_filter in Hin as [Hh Hin]. apply elem_of_map_to_list in Hin. simpl in Hh.
  destruct (Hgood i key Hin) as [[_ Hplace] Hinactive]. rewrite Hinactive in Hact; [done|]. by apply Hplace.
Qed.
End Authentication.

(** * Example *)

#[local] Existing Instance example_json.
#[local] Existing Instance example_payload.

Definition secret_key : ApiKey :=
  mkApiKey (metadata_new "key" 0) "ci" "gw-secret" "gw-s...cret" None None ["api.chat"] None None true
    None no_usage.

(** The revocation, with a record of usage answered beside it; then an update and
    an attempt to use the key. *)
Definition revoke_moves : list Move :=
  [Begin (OpUsage "key" 3 100 f64_zero false 5); Begin (OpDeactivate "key" 7); Advance 0 Answered;
   Advance 0 Answered; Advance 1 Answered; Advance 1 (AnswerLost "timeout")].
Definition after_moves : list Move :=
  [Begin (OpUpdate "key" rename 8 9); Advance 0 Answered; Advance 0 Answered; Advance 0 Answered;
   Advance 0 Answered; Advance 0 Answered; Advance 0 Answered; Advance 0 Answered].

Definition revoked_state := Eval vm_compute in default ([], (∅, [])) (moves revoke_moves ({["key" := secret_key]}, [])).
Definition later_state := Eval vm_compute in default ([], (∅, [])) (moves after_moves (snd revoked_state)).

Definition example_storage (db : Rows) : AuthStorage :=
  mkStorage (fun h => Ok (row_with_hash h db)) (fun _ => Ok None) (fun _ => Ok None) (fun _ => Ok None)
    (fun _ _ => Ok None).

Abbreviation attempt db :=
  (snd (authenticate (H0 := example_library) (fun k => k) (fun s k => s +:+ k) None example_handler
     (example_storage db) (ApiKeyMethod "gw-secret") 10 0 ∅ context_new)).

Lemma revocation_final_witness :
  (forall r, attempt (fst (snd later_state)) = Ok r -> success r = false) /\
  is_ok (attempt (fst (snd later_state))) = true /\
  match attempt {["key" := secret_key]} with Ok r => success r = true | Err _ => False end.
Proof.
  split; [|split; vm_compute; reflexivity].
  intros r Hr.
  apply (revocation_final (H0 := example_library) (fun k => k) (fun s k => s +:+ k) None example_handler
           (example_storage (fst (snd later_state))) "key" "gw-secret" 7
           {["key" := secret_key]} (removelast (fst revoked_state)) (fst (snd revoked_state)) (snd (snd revoked_state))
           (fst later_state) (fst (snd later_state)) (snd (snd later_state)) 10 0 ∅ context_new r);
    [| | | | | |by left|exact Hr]; clear Hr.
  - intros i k Hk. apply lookup_singleton_Some in Hk as [<- <-]. split; [reflexivity|by split].
  - apply (moves_steps revoke_moves). vm_compute. reflexivity.
  - intros t Ht. cbn in Ht.
    repeat (apply elem_of_cons in Ht as [->|Ht]; [split; simpl; tauto|]). by apply elem_of_nil in Ht.
  - apply (moves_steps after_moves). vm_compute. reflexivity.
  - intros op Hop. cbn in Hop.
    repeat (apply elem_of_cons in Hop as [Hop|Hop]; [try (injection Hop as ->; exact I); try discriminate Hop|]).
    by apply elem_of_nil in Hop.
  - intros op Hop. cbn in Hop.
    repeat (apply elem_of_cons in Hop as [Hop|Hop]; [try (injection Hop as ->; split; simpl; tauto); try discriminate Hop|]).
    by apply elem_of_nil in Hop.
Defined.
