(* ===== verification/AuthMiddleware.v ===== *)
(** The authentication middleware ([server/middleware/auth.rs],
    [AuthMiddlewareService::call]), as the composition of its parts: the routes
    that need no credentials, the count of the request against its network
    client, the brute-force limiter, the authentication of the credentials, the
    policy of the key and the permission for the operation.

    A call is a process: each of its awaits, and each effect on the limiters, is a
    step whose answer is given by the part it calls.  Dropping the call between
    two steps drops the reservations it holds. *)

From S2P Require Import Prelude Text ProviderErrors GatewayErrors Principals Ip ClientKey RequestLimits.
From S2P Require Import Credentials Authorization Tokens KeyStore Authentication.

(** The configuration the middleware loads. *)
Record AuthGatewayConfig := mkGatewayConfig {
  enable_jwt : bool;
  enable_api_key : bool;
  allow_anonymous : bool;
  api_key_header : string;
  rate_limit_enabled : bool;
  rate_limit_rpm : Z;                  (* u32 *)
  trusted_proxies : list string;
}.

Inductive Response := FromService | Answered (a : ErrorAnswer).

Section Middleware.
Context `{JsonValues}.

(** * Processes *)

Inductive Call :=
| Finish (r : Response)
| CheckRate (key : string) (limit : Z) (next : result RateLimitPass RateLimitRejection -> Call)
| ReleaseRate (res : AuthRateLimitReservation) (next : Call)
| ReserveAttempt (client : option string) (next : result unit Z -> Call)
| SettleAttempt (failed : bool) (next : Call)
| Authenticate (m : AuthMethod) (ctx : RequestContext) (next : result AuthResult GatewayError -> Call)
| Serve (ctx : RequestContext) (user : option User) (key : option ApiKey) (next : Call).

Inductive Event :=
| Checked (key : string) (limit : Z) (answer : result RateLimitPass RateLimitRejection)
| Released (res : AuthRateLimitReservation)
| AttemptReserved (client : option string) (answer : result unit Z)
| Settled (failed : bool)
| Authenticated (m : AuthMethod) (ctx : RequestContext) (answer : result AuthResult GatewayError)
| Served (ctx : RequestContext) (user : option User) (key : option ApiKey).

(** What a call does: its response, or none when it is dropped. *)
Inductive runs : Call -> list Event -> option Response -> Prop :=
| runs_finish r : runs (Finish r) [] (Some r)
| runs_dropped c : runs c [] None
| runs_check key limit next a tr o :
    runs (next a) tr o -> runs (CheckRate key limit next) (Checked key limit a :: tr) o
| runs_release res next tr o :
    runs next tr o -> runs (ReleaseRate res next) (Released res :: tr) o
| runs_reserve client next a tr o :
    runs (next a) tr o -> runs (ReserveAttempt client next) (AttemptReserved client a :: tr) o
| runs_settle failed next tr o :
    runs next tr o -> runs (SettleAttempt failed next) (Settled failed :: tr) o
| runs_authenticate m ctx next a tr o :
    runs (next a) tr o -> runs (Authenticate m ctx next) (Authenticated m ctx a :: tr) o
| runs_serve ctx user key next tr o :
    runs next tr o -> runs (Serve ctx user key next) (Served ctx user key :: tr) o.

(** A run whose answers come from given parts. *)
Record Parts := mkParts {
  part_check : string -> Z -> result RateLimitPass RateLimitRejection;
  part_attempt : option string -> result unit Z;
  part_authenticate : AuthMethod -> RequestContext -> result AuthResult GatewayError;
}.

Fixpoint drive (p : Parts) (c : Call) : list Event * Response :=
  let step e rest := (e :: fst rest, snd rest) in
  match c with
  | Finish r => ([], r)
  | CheckRate key limit next =>
      let a := part_check p key limit in step (Checked key limit a) (drive p (next a))
  | ReleaseRate res next => step (Released res) (drive p next)
  | ReserveAttempt client next =>
      let a := part_attempt p client in step (AttemptReserved client a) (drive p (next a))
  | SettleAttempt failed next => step (Settled failed) (drive p next)
  | Authenticate m ctx next =>
      let a := part_authenticate p m ctx in step (Authenticated m ctx a) (drive p (next a))
  | Serve ctx user key next => step (Served ctx user key) (drive p next)
  end.

Lemma drive_runs (p : Parts) (c : Call) : runs c (fst (drive p c)) (Some (snd (drive p c))).
Proof. induction c; simpl; by constructor. Qed.

(** * Responses *)

Variable redact_sensitive_text debug_str : string -> string.
Variable parse_upstream_error_detail : string -> option UpstreamErrorDetail.
Variable anthropic_body : string -> option (string * string).

Abbreviation openai_answer := (openai_error_spec redact_sensitive_text debug_str parse_upstream_error_detail).
Abbreviation anthropic_answer := (anthropic_error_response redact_sensitive_text debug_str anthropic_body).

Definition no_headers : ProviderHttpErrorHeaders := mkHeaders None None None.

(** An error of the web framework: a status and a text. *)
Definition plain_error (status : Z) (message : string) : ErrorAnswer :=
  mkAnswer status no_headers "" None None message.

(** [middleware_gateway_error_response] *)
Definition middleware_gateway_error_response (path : string) (fallback_error : ErrorAnswer)
    (openai_error : GatewayError) : Response :=
  if String.eqb path "/v1/messages" then Answered (anthropic_answer openai_error)
  else if is_openai_compatible_path path then Answered (openai_answer openai_error)
  else Answered fallback_error.

Definition unauthorized_response (path message : string) : Response :=
  middleware_gateway_error_response path (plain_error 401 message) (GAuth message).
Definition forbidden_response (path message : string) : Response :=
  middleware_gateway_error_response path (plain_error 403 message) (GForbidden message).

Definition AUTHENTICATION_SERVICE_UNAVAILABLE_MESSAGE : string :=
  "Authentication service temporarily unavailable".

Definition authentication_unavailable_response (path : string) : Response :=
  let m := AUTHENTICATION_SERVICE_UNAVAILABLE_MESSAGE in
  if String.eqb path "/v1/messages" then Answered (anthropic_answer (GInternal m))
  else if is_openai_compatible_path path
  then Answered (mkAnswer 500 no_headers "server_error" (Some "internal_error") None m)
  else Answered (plain_error 500 m).

(** [RateLimitError::gateway_error] and its own response, whose limit header has
    another name. *)
Definition rate_limited_message : string :=
  "Rate limit exceeded. Please retry after the indicated seconds.".
Definition rate_limit_response (path : string) (e : RateLimitError) : Response :=
  middleware_gateway_error_response path
    (mkAnswer 429 (mkHeaders (Some (error_retry_after e)) (Some (error_limit e)) None)
       "rate_limit_error" (Some "429") None rate_limited_message)
    (GRateLimit rate_limited_message (Some (error_retry_after e)) (Some (error_limit e)) None).

Definition failed_attempt_rate_limit_response (path : string) (wait_seconds : Z) : Response :=
  let message := "Too many failed attempts. Try again in " +:+ show wait_seconds +:+ " seconds" in
  middleware_gateway_error_response path (plain_error 429 message)
    (GRateLimit message (Some wait_seconds) None None).

(** * The middleware *)

Variable to_str : bytes -> option string.
Variable header_name : string -> bool.
Variable cfg : AuthGatewayConfig.
Variable req : Request.
Variable path : string.

Definition method : AuthMethod :=
  extract_auth_method_with_api_key_header to_str header_name req (api_key_header cfg).
Definition client_id : option string := get_client_identifier req (trusted_proxies cfg).
Definition network_rate_limit_enabled : bool :=
  rate_limit_enabled cfg && match client_id with Some _ => true | None => false end.
Definition rate_key : string := extract_client_key req (trusted_proxies cfg).

(** [reserve_gateway_rate_limit_before_auth] *)
Definition reserve_gateway_rate_limit_before_auth
    (next : result AuthRateLimitReservation RateLimitError -> Call) : Call :=
  if negb network_rate_limit_enabled then next (Ok NoopReservation)
  else CheckRate rate_key (rate_limit_rpm cfg) (fun a =>
         next (match a with
               | Ok pass => Ok (Reserved rate_key (reservation pass))
               | Err rejection => Err (rejected rejection)
               end)).

(** [enforce_gateway_rate_limit_for_auth_rejection] *)
Definition enforce_gateway_rate_limit_for_auth_rejection (next : result unit RateLimitError -> Call)
    : Call :=
  if negb network_rate_limit_enabled then next (Ok tt)
  else CheckRate rate_key (rate_limit_rpm cfg) (fun a =>
         next (match a with Ok _ => Ok tt | Err rejection => Err (rejected rejection) end)).

(** A rejection, counted unless the request holds a reservation already. *)
Definition reject (held : option AuthRateLimitReservation) (answer : Response) : Call :=
  match held with
  | Some _ => Finish answer
  | None =>
      enforce_gateway_rate_limit_for_auth_rejection (fun r =>
        match r with
        | Ok _ => Finish answer
        | Err error => Finish (rate_limit_response path error)
        end)
  end.

(** [if let Some(reservation) = auth_rate_limit_reservation.take()] *)
Definition take_and_release (held : option AuthRateLimitReservation) (next : Call) : Call :=
  match held with Some reservation => ReleaseRate reservation next | None => next end.

(** The part after [authenticate] succeeded. *)
Definition authenticated (held : option AuthRateLimitReservation) (result : AuthResult) : Call :=
  match api_key_allows_endpoint (auth_api_key result) path with
  | Ok false => Finish (forbidden_response path "API key is not permitted for this endpoint")
  | Err _ => take_and_release held (Finish (authentication_unavailable_response path))
  | Ok true =>
      let forbidden :=
        match operation_for_path path with
        | Some operation => negb (check_permission (auth_user result) (auth_api_key result) operation)
        | None => false
        end in
      if forbidden
      then Finish (forbidden_response path "API key is not permitted for this operation")
      else take_and_release held
             (Serve (context result) (auth_user result) (auth_api_key result) (Finish FromService))
  end.

(** The method a request presents may be switched off. *)
Definition disabled_method : option string :=
  match method with
  | Jwt _ => if enable_jwt cfg then None else Some "JWT authentication disabled"
  | ApiKeyMethod _ => if enable_api_key cfg then None else Some "API key authentication disabled"
  | Session _ | NoMethod => None
  end.

(** The part that holds an attempt of the brute-force limiter. *)
Definition attempt (held : option AuthRateLimitReservation) : Call :=
  let refuse message := SettleAttempt true (reject held (unauthorized_response path message)) in
  match disabled_method with
  | Some message => refuse message
  | None =>
      match method with
      | NoMethod => SettleAttempt true (reject None (unauthorized_response path "Missing authentication"))
      | m =>
          Authenticate m context_new (fun answer =>
            match answer with
            | Ok result =>
                if success result then SettleAttempt false (authenticated held result)
                else refuse (default "Unauthorized" (auth_error result))
            | Err _ =>
                SettleAttempt false
                  (take_and_release held (Finish (authentication_unavailable_response path)))
            end)
      end
  end.

Definition auth_call : Call :=
  if bypasses_header_auth path method then Serve context_new None None (Finish FromService)
  else if negb (enable_jwt cfg || enable_api_key cfg) then
    if negb (allow_anonymous cfg)
    then Finish (unauthorized_response path "Authentication is not configured")
    else Serve context_new None None (Finish FromService)
  else
    let reserve next :=
      if requires_auth_verification method
      then reserve_gateway_rate_limit_before_auth (fun r =>
             match r with
             | Ok reservation => next (Some reservation)
             | Err error => Finish (rate_limit_response path error)
             end)
      else next None in
    reserve (fun held =>
      ReserveAttempt client_id (fun a =>
        match a with
        | Ok _ => attempt held
        | Err wait_seconds => reject held (failed_attempt_rate_limit_response path wait_seconds)
        end)).

(** * Guarantees *)

(** A request needs no credentials. *)
Definition open_access : Prop :=
  bypasses_header_auth path method = true \/
  enable_jwt cfg = false /\ enable_api_key cfg = false /\ allow_anonymous cfg = true.

Ltac follow :=
  repeat match goal with
  | H : runs (if ?b then _ else _) _ _ |- _ => destruct b eqn:?
  | H : runs (match ?x with _ => _ end) _ _ |- _ => destruct x eqn:?
  | H : runs (Finish _) _ _ |- _ => inversion H; clear H; subst
  | H : runs (CheckRate _ _ _) _ _ |- _ => inversion H; clear H; subst
  | H : runs (ReleaseRate _ _) _ _ |- _ => inversion H; clear H; subst
  | H : runs (ReserveAttempt _ _) _ _ |- _ => inversion H; clear H; subst
  | H : runs (SettleAttempt _ _) _ _ |- _ => inversion H; clear H; subst
  | H : runs (Authenticate _ _ _) _ _ |- _ => inversion H; clear H; subst
  | H : runs (Serve _ _ _ _) _ _ |- _ => inversion H; clear H; subst
  end.

Definition is_served (e : Event) : bool := match e with Served _ _ _ => true | _ => false end.

Lemma reject_unserved held answer tr o :
  runs (reject held answer) tr o -> existsb is_served tr = false.
Proof.
  unfold reject, enforce_gateway_rate_limit_for_auth_rejection. intros Hr. follow; done.
Qed.

(** The only way to the service after authentication. *)
Lemma authenticated_served held result tr o :
  runs (authenticated held result) tr o -> existsb is_served tr = true ->
  api_key_allows_endpoint (auth_api_key result) path = Ok true /\
  (forall operation, operation_for_path path = Some operation ->
    check_permission (auth_user result) (auth_api_key result) operation = true) /\
  exists pre, tr = pre ++ [Served (context result) (auth_user result) (auth_api_key result)] /\
    existsb is_served pre = false.
Proof.
  unfold authenticated, take_and_release. intros Hr Hs.
  destruct (api_key_allows_endpoint (auth_api_key result) path) as [[]|] eqn:Hkey; [|follow; done..].
  destruct (match operation_for_path path with Some _ => _ | None => false end) eqn:Hop; [follow; done|].
  split; [done|]. split.
  { intros operation Ho. rewrite Ho in Hop. by apply negb_false_iff in Hop. }
  follow; try done; first [by exists []|by eexists [_]].
Qed.

Ltac refused :=
  match goal with
  | H : runs _ _ _, Hs : existsb is_served _ = true |- _ =>
      simpl in Hs;
      first [rewrite (reject_unserved _ _ _ _ H) in Hs | rewrite (reject_unserved None _ _ _ H) in Hs]; done
  end.

(** After the reservation of an attempt. *)
Lemma attempt_served held tr o :
  runs (attempt held) tr o -> existsb is_served tr = true ->
  disabled_method = None /\
  exists result pre, Authenticated method context_new (Ok result) ∈ pre /\ success result = true /\
    tr = pre ++ [Served (context result) (auth_user result) (auth_api_key result)] /\
    existsb is_served pre = false /\
    api_key_allows_endpoint (auth_api_key result) path = Ok true /\
    (forall operation, operation_for_path path = Some operation ->
      check_permission (auth_user result) (auth_api_key result) operation = true).
Proof.
  unfold attempt. intros Hr Hs.
  destruct disabled_method as [message|].
  { inversion Hr; subst; [done|refused]. }
  split; [done|].
  destruct method as [token|key|session|] eqn:Hm.
  4:{ inversion Hr; subst; [done|refused]. }
  all: inversion Hr as [| | | | | |m ctx next a tr' o' Hrun|]; clear Hr; subst; [done|].
  all: destruct a as [result|e]; [destruct (success result) eqn:Hok|].
  all: try (inversion Hrun; clear Hrun; subst; [done|refused]).
  all: try (unfold take_and_release in Hrun; follow; done).
  all: inversion Hrun as [| | | | |failed next tr'' o'' Hauth| |]; clear Hrun; subst; [done|].
  all: simpl in Hs; destruct (authenticated_served _ _ _ _ Hauth Hs) as (Hkey & Hop & pre & -> & Hpre).
  all: exists result; eexists (_ :: _ :: pre); split_and!; [left|done|done|done|done|done].
Qed.
(** What precedes the service for a request with credentials. *)
Record admitted (pre : list Event) (ctx : RequestContext) (user : option User) (key : option ApiKey)
    : Prop := {
  adm_attempt : AttemptReserved client_id (Ok tt) ∈ pre;
  adm_enabled : disabled_method = None;
  adm_identity : exists result, Authenticated method context_new (Ok result) ∈ pre /\
    success result = true /\ (ctx, user, key) = (context result, auth_user result, auth_api_key result);
  adm_endpoint : api_key_allows_endpoint key path = Ok true;
  adm_operation : forall operation, operation_for_path path = Some operation ->
    check_permission user key operation = true;
}.

Lemma admitted_app pre0 pre ctx user key :
  admitted pre ctx user key -> admitted (pre0 ++ pre) ctx user key.
Proof.
  intros [Ha Hd (r & Hr & Hrest) He Ho]. split; try done; [by apply elem_of_app; right|].
  exists r. split; [by apply elem_of_app; right|done].
Qed.

(** A trace that ends at the service. *)
Definition ends_served (P : list Event -> RequestContext -> option User -> option ApiKey -> Prop)
    (tr : list Event) : Prop :=
  exists pre ctx user key, tr = pre ++ [Served ctx user key] /\ existsb is_served pre = false /\
    P pre ctx user key.

Definition attempt_call (held : option AuthRateLimitReservation) : Call :=
  ReserveAttempt client_id (fun a =>
    match a with
    | Ok _ => attempt held
    | Err wait_seconds => reject held (failed_attempt_rate_limit_response path wait_seconds)
    end).

Lemma attempt_call_served held tr o :
  runs (attempt_call held) tr o -> existsb is_served tr = true -> ends_served admitted tr.
Proof.
  intros Hr Hs. inversion Hr as [| | | |cl next a tr' o' Hrun| | |]; clear Hr; subst; [done|].
  destruct a as [[]|wait]; [|refused]. simpl in Hs.
  destruct (attempt_served _ _ _ Hrun Hs) as (Hd & result & pre & Hauth & Hok & -> & Hpre & Hkey & Hop).
  exists (AttemptReserved client_id (Ok tt) :: pre), (context result), (auth_user result), (auth_api_key result).
  split_and!; [done..|]. split; try done; [left|]. exists result. split; [by right|done].
Qed.

Lemma call_served tr o :
  runs auth_call tr o -> existsb is_served tr = true ->
  ends_served (fun pre ctx user key =>
    open_access /\ pre = [] /\ (ctx, user, key) = (context_new, None, None) \/
    admitted pre ctx user key) tr.
Proof.
  unfold auth_call, reserve_gateway_rate_limit_before_auth. intros Hr Hs.
  assert (Hadm : forall held pre0 tr1, tr = pre0 ++ tr1 -> existsb is_served pre0 = false ->
    runs (attempt_call held) tr1 o -> ends_served (fun pre ctx user key =>
      open_access /\ pre = [] /\ (ctx, user, key) = (context_new, None, None) \/
      admitted pre ctx user key) tr).
  { intros held pre0 tr1 -> Hpre0 Hrun. rewrite existsb_app, Hpre0 in Hs.
    destruct (attempt_call_served _ _ _ Hrun Hs) as (pre & ctx & user & key & -> & Hpre & Hp).
    exists (pre0 ++ pre), ctx, user, key. rewrite existsb_app, Hpre0, Hpre, app_assoc.
    split_and!; [done..|]. right. by apply admitted_app. }
  destruct (bypasses_header_auth path method) eqn:Hby.
  { follow; try done; exists [], context_new, None, None; split_and!; try done; left; split_and!; try done; by left. }
  destruct (enable_jwt cfg || enable_api_key cfg) eqn:Hen; simpl in Hr.
  2:{ apply orb_false_iff in Hen as [Hj Hk]. destruct (allow_anonymous cfg) eqn:Ha; simpl in Hr; [|follow; done].
      follow; try done; exists [], context_new, None, None; split_and!; try done; left; split_and!; try done; by right. }
  destruct (requires_auth_verification method); [destruct (negb network_rate_limit_enabled)|].
  - by apply (Hadm (Some NoopReservation) [] tr).
  - inversion Hr as [| |k limit next a tr' o' Hrun| | | | |]; clear Hr; subst; [done|].
    destruct a as [pass|rejection]; [|follow; done].
    by apply (Hadm (Some (Reserved rate_key (reservation pass)))
                [Checked rate_key (rate_limit_rpm cfg) (Ok pass)] tr').
  - by apply (Hadm None [] tr).
Qed.

(** C27: Only an admitted request reaches the service, and last.  Whatever the
    limiters, the database and the token library answer, and wherever the call is
    dropped: a request is served without an identity only on a route that needs
    none or where all authentication is off and anonymous access was opted into;
    otherwise the brute-force limiter granted an attempt, the credentials were of
    an enabled kind and were accepted, the key's policy allows the endpoint, the
    caller has the permission of the operation, and the service sees exactly the
    identity that was authenticated. *)
Theorem service_guarded (tr : list Event) (o : option Response) (ctx : RequestContext)
    (user : option User) (key : option ApiKey) :
  runs auth_call tr o -> Served ctx user key ∈ tr ->
  exists pre, tr = pre ++ [Served ctx user key] /\
    (open_access /\ pre = [] /\ (ctx, user, key) = (context_new, None, None) \/
     admitted pre ctx user key).
Proof.
  intros Hr Hin.
  assert (Hserved : forall l, Served ctx user key ∈ l -> existsb is_served l = true).
  { intros l Hl. apply existsb_exists. exists (Served ctx user key). by rewrite <- list_elem_of_In. }
  destruct (call_served tr o Hr (Hserved _ Hin)) as (pre & c & u & k & -> & Hpre & Hp).
  apply elem_of_app in Hin as [Hin|Hin%list_elem_of_singleton].
  - apply Hserved in Hin. congruence.
  - injection Hin as -> -> ->. by exists pre.
Qed.
(** * Accounts of a finished call *)

Definition checks (tr : list Event) : list (result RateLimitPass RateLimitRejection) :=
  omap (fun e => match e with Checked _ _ a => Some a | _ => None end) tr.
Definition releases (tr : list Event) : list AuthRateLimitReservation :=
  omap (fun e => match e with Released r => Some r | _ => None end) tr.
Definition settlements (tr : list Event) : list bool :=
  omap (fun e => match e with Settled failed => Some failed | _ => None end) tr.
Definition granted (tr : list Event) : bool :=
  existsb (fun e => match e with AttemptReserved _ (Ok _) => true | _ => false end) tr.
(** The credentials were accepted, or could not be judged. *)
Definition not_refused (tr : list Event) : bool :=
  existsb (fun e => match e with
                    | Authenticated _ _ (Ok result) => success result
                    | Authenticated _ _ (Err _) => true
                    | _ => false end) tr.

(** The request stays counted: it was answered with a refusal. *)
Definition refusal (resp : Response) : bool :=
  match resp with FromService => false | Answered a => negb (answer_status a =? 500) end.

Definition reservation_of (checks : list (result RateLimitPass RateLimitRejection))
    : AuthRateLimitReservation :=
  match checks with [Ok pass] => Reserved rate_key (reservation pass) | _ => NoopReservation end.

Definition one_count : nat := if network_rate_limit_enabled then 1%nat else 0%nat.

Lemma fallback_status (fallback : ErrorAnswer) (e : GatewayError) (status : Z) :
  answer_status fallback = status -> status_code (gateway_http_error_facts e) = status ->
  exists a, middleware_gateway_error_response path fallback e = Answered a /\ answer_status a = status.
Proof.
  intros Hf He. unfold middleware_gateway_error_response.
  destruct (String.eqb path "/v1/messages"); [|destruct (is_openai_compatible_path path)];
    eexists; (split; [done|]); [rewrite <- He; apply anthropic_status|rewrite <- He; apply openai_status|done].
Qed.

Lemma refusal_status (fallback : ErrorAnswer) (e : GatewayError) (status : Z) :
  answer_status fallback = status -> status_code (gateway_http_error_facts e) = status -> status <> 500 ->
  refusal (middleware_gateway_error_response path fallback e) = true.
Proof.
  intros Hf He Hs. destruct (fallback_status fallback e status Hf He) as (a & -> & Ha).
  simpl. rewrite Ha. by apply negb_true_iff, Z.eqb_neq.
Qed.

Lemma unauthorized_refusal (m : string) : refusal (unauthorized_response path m) = true.
Proof. by eapply refusal_status. Qed.
Lemma forbidden_refusal (m : string) : refusal (forbidden_response path m) = true.
Proof. by eapply refusal_status. Qed.
Lemma rate_limit_refusal (e : RateLimitError) : refusal (rate_limit_response path e) = true.
Proof. by eapply refusal_status. Qed.
Lemma failed_attempt_refusal (wait : Z) : refusal (failed_attempt_rate_limit_response path wait) = true.
Proof. by eapply refusal_status. Qed.
Lemma unavailable_no_refusal : refusal (authentication_unavailable_response path) = false.
Proof.
  unfold authentication_unavailable_response. by repeat case_match.
Qed.

(** Nothing but the count of a rejection that was not counted yet. *)
Record quiet (held : option AuthRateLimitReservation) (tr : list Event) : Prop := {
  q_checks : length (checks tr) = match held with Some _ => 0%nat | None => one_count end;
  q_releases : releases tr = [];
  q_settlements : settlements tr = [];
  q_granted : granted tr = false;
  q_auth : not_refused tr = false;
}.

Lemma reject_quiet held answer tr resp :
  runs (reject held answer) tr (Some resp) -> refusal answer = true ->
  quiet held tr /\ refusal resp = true.
Proof.
  unfold reject, enforce_gateway_rate_limit_for_auth_rejection. intros Hr Ha.
  destruct held; [follow; by repeat split|].
  destruct network_rate_limit_enabled eqn:Hn; simpl in Hr; follow;
    (split; [split; unfold one_count; by rewrite ?Hn|]); try done; apply rate_limit_refusal.
Qed.

(** What the rest of a call does once the request is counted. *)
Record settled_as (held : option AuthRateLimitReservation) (failed : bool) (tr : list Event)
    (resp : Response) : Prop := {
  s_checks : length (checks tr) = match held with Some _ => 0%nat | None => one_count end;
  s_settlements : settlements tr = [failed];
  s_granted : granted tr = false;
  s_auth : not_refused tr = negb failed;
  s_releases : releases tr = if refusal resp then [] else match held with Some r => [r] | None => [] end;
  s_unheld : held = None -> refusal resp = true;
}.

Lemma refused_settled held held' answer tr resp m ctx result :
  runs (reject held' answer) tr (Some resp) -> refusal answer = true ->
  (held' = held \/ held = None /\ held' = None) -> success result = false ->
  settled_as held true (Settled true :: tr) resp /\
  settled_as held true (Authenticated m ctx (Ok result) :: Settled true :: tr) resp.
Proof.
  intros Hr Ha Hh Hok. assert (held' = held) as -> by (destruct Hh as [|[-> ->]]; done).
  destruct (reject_quiet _ _ _ _ Hr Ha) as [[] Hresp].
  split; split; simpl; rewrite ?Hresp, ?Hok; try done; by f_equal.
Qed.

Lemma authenticated_settled r m ctx result tr resp :
  runs (authenticated (Some r) result) tr (Some resp) -> success result = true ->
  settled_as (Some r) false (Authenticated m ctx (Ok result) :: Settled false :: tr) resp.
Proof.
  unfold authenticated, take_and_release. intros Hr Hok.
  destruct (api_key_allows_endpoint (auth_api_key result) path) as [[]|] eqn:Hkey.
  1: destruct (match operation_for_path path with Some _ => _ | None => false end).
  all: follow; split; rewrite ?forbidden_refusal, ?unavailable_no_refusal; simpl; rewrite ?Hok; done.
Qed.

Lemma attempt_settled held tr resp :
  runs (attempt held) tr (Some resp) ->
  (requires_auth_verification method = true <-> held <> None) ->
  exists failed, settled_as held failed tr resp.
Proof.
  intros Hr Hheld. unfold attempt in Hr.
  destruct disabled_method as [message|].
  { inversion Hr; subst. exists true. 
    eapply (refused_settled held held _ _ _ NoMethod context_new (rejection "" context_new)); eauto.
    apply unauthorized_refusal. }
  destruct method as [token|key|session|] eqn:Hm.
  4:{ destruct held; [by pose proof (proj2 Hheld ltac:(done))|]. inversion Hr; subst. exists true.
      eapply (refused_settled None None _ _ _ NoMethod context_new (rejection "" context_new)); eauto.
      apply unauthorized_refusal. }
  all: destruct held as [r|]; [|by destruct (proj1 Hheld eq_refl)].
  all: inversion Hr as [| | | | | |m ctx next a tr' o' Hrun|]; clear Hr; subst.
  all: destruct a as [result|e]; [destruct (success result) eqn:Hok|].
  all: try (inversion Hrun; clear Hrun; subst; exists true;
            eapply (refused_settled (Some r) (Some r)); eauto; apply unauthorized_refusal).
  all: try (inversion Hrun; clear Hrun; subst; exists false; by apply authenticated_settled).
  all: unfold take_and_release in Hrun; follow; exists false; split;
    rewrite ?unavailable_no_refusal; done.
Qed.

(** Every request that presents itself for authentication is accounted for
    once.  When the call finishes: it is counted exactly once against its network
    client if rate limiting applies to it; the brute-force attempt it was granted
    is settled exactly once, as a failure exactly when the credentials were
    refused, and never when they could not be judged; and its count is given back
    exactly when it reached the service, which counts it under the caller's own
    limits, or met an outage, so that refusals and nothing else stay counted. *)
Theorem calls_accounted (tr : list Event) (resp : Response) :
  runs auth_call tr (Some resp) ->
  bypasses_header_auth path method = false -> enable_jwt cfg || enable_api_key cfg = true ->
  length (checks tr) = one_count /\
  settlements tr = (if granted tr then [negb (not_refused tr)] else []) /\
  releases tr = (if refusal resp then [] else [reservation_of (checks tr)]).
Proof.
  unfold auth_call, reserve_gateway_rate_limit_before_auth. intros Hr Hby Hen.
  rewrite Hby, Hen in Hr. simpl in Hr.
  assert (Hgo : forall held tr1,
    runs (attempt_call held) tr1 (Some resp) ->
    (requires_auth_verification method = true <-> held <> None) ->
    length (checks tr1) = match held with Some _ => 0%nat | None => one_count end /\
    settlements tr1 = (if granted tr1 then [negb (not_refused tr1)] else []) /\
    releases tr1 = (if refusal resp then [] else match held with Some r => [r] | None => [] end) /\
    (held = None -> refusal resp = true)).
  { intros held tr1 Hrun Hheld. inversion Hrun as [| | | |cl next a tr' o' Hrun'| | |]; clear Hrun; subst.
    destruct a as [[]|wait].
    - destruct (attempt_settled held tr' resp Hrun' Hheld) as [failed []]. simpl.
      by rewrite s_settlements0, s_auth0, negb_involutive.
    - destruct (reject_quiet _ _ _ _ Hrun' (failed_attempt_refusal wait)) as [[] Hresp]. simpl.
      by rewrite Hresp, q_granted0. }
  destruct (requires_auth_verification method) eqn:Hreq; [destruct network_rate_limit_enabled eqn:Hlim; simpl in Hr|].
  - inversion Hr as [| |k limit next a tr' o' Hrun| | | | |]; clear Hr; subst.
    destruct a as [pass|rejection].
    + destruct (Hgo (Some (Reserved rate_key (reservation pass))) tr' Hrun) as (Hc & Hs & Hrel & _); [by split|].
      apply length_zero_iff_nil in Hc. unfold one_count. rewrite Hlim.
      change (length (Ok pass :: checks tr') = 1%nat /\
        settlements tr' = (if granted tr' then [negb (not_refused tr')] else []) /\
        releases tr' = (if refusal resp then [] else [reservation_of (Ok pass :: checks tr')])).
      by rewrite Hc, Hrel.
    + follow. unfold one_count. rewrite rate_limit_refusal. by rewrite Hlim.
  - destruct (Hgo (Some NoopReservation) tr Hr) as (Hc & Hs & Hrel & _); [by split|].
    apply length_zero_iff_nil in Hc as Hnil. unfold one_count. by rewrite Hlim, Hnil.
  - destruct (Hgo None tr Hr) as (Hc & Hs & Hrel & Hresp); [by split|].
    by rewrite Hrel, (Hresp eq_refl).
Qed.
End Middleware.

(** * Example *)

#[local] Existing Instance example_json.

Definition gateway : AuthGatewayConfig := mkGatewayConfig true true false "x-api-key" true 60 [].

Definition request (key : string) : Request :=
  mkRequest (Some (V4 3232235777)) (fun name => if String.eqb name "x-api-key" then [of_string key] else [])
    None None.

(** The parts: a limiter that counts nothing, and the authentication of
    [Authentication.v] over a database with one key. *)
Definition example_parts : Parts :=
  mkParts (fun _ _ => Ok (mkPass GlobalLimiter 60 59 (RecordedFallback 5))) (fun _ => Ok tt)
    (fun m ctx => snd (authenticate (H0 := example_library) (fun k => k) (fun s k => s +:+ k) None example_handler
                         (example_storage {["key" := secret_key]}) m 10 0 ∅ ctx)).

Abbreviation example_call key :=
  (auth_call (fun s => s) (fun s => s) (fun _ => None) (fun _ => None) (fun b => Some (to_string b))
     (fun _ => true) gateway (request key) "/v1/chat/completions").

Definition good_run := Eval vm_compute in drive example_parts (example_call "gw-secret").
Definition bad_run := Eval vm_compute in drive example_parts (example_call "gw-guess").

Lemma service_guarded_witness :
  exists ctx user key pre,
    fst good_run = pre ++ [Served ctx user key] /\ key = Some secret_key /\
    api_key_id ctx = Some "key" /\ length pre = 5%nat.
Proof.
  destruct (service_guarded (fun s => s) (fun s => s) (fun _ => None) (fun _ => None)
    (fun b => Some (to_string b)) (fun _ => true) gateway (request "gw-secret") "/v1/chat/completions"
    (fst good_run) (Some (snd good_run)) (key_context secret_key context_new) None (Some secret_key))
    as (pre & Htr & _).
  - apply (drive_runs example_parts (example_call "gw-secret")).
  - vm_compute. do 5 right. left.
  - exists (key_context secret_key context_new), None, (Some secret_key), pre.
    split; [exact Htr|]. split; [reflexivity|]. split; [reflexivity|].
    apply (f_equal (@length _)) in Htr. rewrite length_app in Htr. simpl in Htr. lia.
Defined.

Lemma calls_accounted_witness :
  settlements (fst bad_run) = [true] /\ releases (fst bad_run) = [] /\ length (checks (fst bad_run)) = 1%nat /\
  settlements (fst good_run) = [false] /\ length (releases (fst good_run)) = 1%nat.
Proof.
  destruct (calls_accounted (fun s => s) (fun s => s) (fun _ => None) (fun _ => None)
    (fun b => Some (to_string b)) (fun _ => true) gateway (request "gw-guess") "/v1/chat/completions"
    (fst bad_run) (snd bad_run)) as (H1 & H2 & H3).
  - apply (drive_runs example_parts (example_call "gw-guess")).
  - reflexivity.
  - reflexivity.
  - rewrite H1, H2, H3. split; [|split; [|split; [|split]]]; vm_compute; reflexivity.
Defined.
