(* ===== verification/KeyRecords.v ===== *)
(** Managed API keys as data ([core/keys/types.rs]): their status, permissions,
    limits, usage, what is stored and what is shown of them. *)

From Stdlib Require Import Floats.SpecFloat.
From S2P Require Import Prelude Float64 StrOps Principals Authorization KeyStore.

Inductive KeyStatus := KeyActive | KeyRevoked | KeyExpired.
#[export] Instance KeyStatus_eq_dec : EqDecision KeyStatus.
Proof. solve_decision. Defined.

Definition key_status_text (s : KeyStatus) : string :=
  match s with KeyActive => "active" | KeyRevoked => "revoked" | KeyExpired => "expired" end.

(** * Permissions and limits *)

Definition full_access : KeyPermissions := mkRuntime ["*"] ["*"] None false [].
Definition admin_permissions : KeyPermissions := mkRuntime ["*"] ["*"] None true ["admin"].

(** The loop of [is_model_allowed] and [is_endpoint_allowed]. *)
Fixpoint any_pattern (patterns : list string) (value : string) : bool :=
  match patterns with
  | [] => false
  | pattern :: patterns =>
      if String.eqb pattern "*" then true
      else if ends_with pattern "*" then
        if starts_with value (String.substring 0 (String.length pattern - 1) pattern) then true
        else any_pattern patterns value
      else if String.eqb pattern value then true
      else any_pattern patterns value
  end.

Lemma starts_with_substring (n : nat) (s : string) : starts_with s (String.substring 0 n s) = true.
Proof.
  unfold starts_with. revert n. induction s as [|c s IH]; intros [|n]; simpl; try done.
  destruct (Ascii.ascii_dec c c); [apply IH|done].
Qed.

Lemma any_pattern_existsb (patterns : list string) (value : string) :
  any_pattern patterns value = existsb (fun pattern => pattern_allows pattern value) patterns.
Proof.
  induction patterns as [|p ps IH]; [done|]. cbn [any_pattern existsb]. unfold pattern_allows at 1.
  unfold strip_suffix. change (String.length "*") with 1%nat.
  destruct (String.eqb p "*"); [done|].
  destruct (ends_with p "*").
  - destruct (String.eqb_spec p value) as [<-|Hne]; [by rewrite starts_with_substring|].
    rewrite IH. cbn [orb]. by destruct (starts_with value _).
  - rewrite IH. by destruct (String.eqb p value).
Qed.

Definition is_model_allowed (p : KeyPermissions) (model : string) : bool :=
  match allowed_models p with [] => true | patterns => any_pattern patterns model end.
Definition is_endpoint_allowed (p : KeyPermissions) (endpoint : string) : bool :=
  match allowed_endpoints p with [] => true | patterns => any_pattern patterns endpoint end.

Definition unlimited_limits : KeyRateLimits := mkRateLimits None None None None None.
Definition standard_limits : KeyRateLimits :=
  mkRateLimits (Some 60) (Some 100000) (Some 10000) (Some 1000000) (Some 10).
Definition premium_limits : KeyRateLimits :=
  mkRateLimits (Some 600) (Some 1000000) (Some 100000) (Some 10000000) (Some 100).

(** * Usage *)

Record UsageRecord := mkUsageRecord {
  use_requests : Z;             (* u64 *)
  use_tokens : Z;               (* u64 *)
  use_cost : spec_float;
  use_unpriced : bool;
  use_pricing_policy : option string;
  use_provider : option string;
  use_model : option string;
}.

Definition usage_priced (tokens : Z) (cost : spec_float) : UsageRecord :=
  mkUsageRecord 1 tokens cost false None None None.
Definition usage_unpriced (tokens : Z) (cost : spec_float) (policy : string) : UsageRecord :=
  mkUsageRecord 1 tokens cost true (Some policy) None None.

(** [KeyUsageStats::new]. *)
Definition usage_new (now : Z) : UsageStats :=
  mkUsageStats 0 0 f64_zero 0 0 f64_zero 0 0 f64_zero None now.

(** [record_usage_record]. *)
Definition record_usage_record (now : Z) (r : UsageRecord) (u : UsageStats) : UsageStats :=
  add_usage (use_requests r) (use_tokens r) (use_cost r) (use_unpriced r) now u.

(** [date_naive] of a point in time: the number of its day. *)
Definition date_naive (t : Z) : Z := t / from_secs 86400.

Definition reset_daily_if_needed (now : Z) (u : UsageStats) : UsageStats :=
  if date_naive now =? date_naive (last_reset u) then u
  else mkUsageStats (total_requests u) (total_tokens u) (total_cost u) 0 0 f64_zero
         (unpriced_requests u) (unpriced_tokens u) (unpriced_cost u) (last_unpriced_at u) now.

(** * Keys *)

Section Keys.
Context `{JsonValues}.

Record ManagedApiKey := mkManaged {
  mk_id : string;
  mk_hash : string;
  mk_prefix : string;
  mk_name : string;
  mk_description : option string;
  mk_user_id : option string;
  mk_team_id : option string;
  mk_budget_id : option string;
  mk_permissions : KeyPermissions;
  mk_rate_limits : KeyRateLimits;
  mk_status : KeyStatus;
  mk_expires_at : option Z;
  mk_created_at : Z;
  mk_updated_at : Z;
  mk_last_used_at : option Z;
  mk_usage : UsageStats;
  mk_metadata : Json;
}.

Definition expired_at (now : Z) (e : option Z) : bool :=
  match e with Some t => t <? now | None => false end.

Definition managed_is_valid (now : Z) (k : ManagedApiKey) : bool :=
  bool_decide (mk_status k = KeyActive) && negb (expired_at now (mk_expires_at k)).

Definition effective_status (now : Z) (k : ManagedApiKey) : KeyStatus :=
  if bool_decide (mk_status k = KeyRevoked) then KeyRevoked
  else if expired_at now (mk_expires_at k) then KeyExpired
  else mk_status k.

Record CreateKeyConfig := mkCreateConfig {
  cfg_name : string;
  cfg_description : option string;
  cfg_user_id : option string;
  cfg_team_id : option string;
  cfg_budget_id : option string;
  cfg_permissions : KeyPermissions;
  cfg_rate_limits : KeyRateLimits;
  cfg_expires_at : option Z;
  cfg_metadata : Json;
}.

(** What is shown of a key. *)
Record KeyInfo := mkInfo {
  info_id : string;
  info_prefix : string;
  info_name : string;
  info_description : option string;
  info_user_id : option string;
  info_team_id : option string;
  info_budget_id : option string;
  info_status : KeyStatus;
  info_permissions : KeyPermissions;
  info_rate_limits : KeyRateLimits;
  info_expires_at : option Z;
  info_created_at : Z;
  info_last_used_at : option Z;
  info_usage : UsageStats;
}.

(** [From<&ManagedApiKey> for KeyInfo]. *)
Definition key_info (now : Z) (k : ManagedApiKey) : KeyInfo :=
  mkInfo (mk_id k) (mk_prefix k) (mk_name k) (mk_description k) (mk_user_id k) (mk_team_id k)
    (mk_budget_id k) (effective_status now k) (mk_permissions k) (mk_rate_limits k) (mk_expires_at k)
    (mk_created_at k) (mk_last_used_at k) (mk_usage k).

Record VerifyKeyResult := mkVerify {
  verify_valid : bool;
  verify_key_info : option KeyInfo;
  verify_reason : option string;
}.
End Keys.

(** The lists of a managed key allow what the policy of requests lets through
    ([Authorization.pattern_list_allows]). *)
Lemma is_model_allowed_policy (p : KeyPermissions) (model : string) :
  is_model_allowed p model = pattern_list_allows (allowed_models p) model.
Proof.
  unfold is_model_allowed, pattern_list_allows. destruct (allowed_models p) as [|q qs]; [done|].
  apply any_pattern_existsb.
Qed.

Lemma is_endpoint_allowed_policy (p : KeyPermissions) (endpoint : string) :
  is_endpoint_allowed p endpoint = pattern_list_allows (allowed_endpoints p) endpoint.
Proof.
  unfold is_endpoint_allowed, pattern_list_allows. destruct (allowed_endpoints p) as [|q qs]; [done|].
  apply any_pattern_existsb.
Qed.
