(* ===== verification/KeyRepository.v ===== *)
(** Where managed keys are kept ([core/keys/repository.rs],
    [database_repository.rs], [db_mapping.rs]): the interface of a repository and
    its two implementations, in memory and over the database.

    An operation reads the clock once. *)

From S2P Require Import Prelude ProviderErrors GatewayErrors Principals KeyStore KeyRecords.

(** * The interface *)

Class KeyRepository `{JsonValues} (S : Type) := {
  repo_create : Z -> ManagedApiKey -> S -> S * result ManagedApiKey GatewayError;
  repo_find_by_id : Z -> string -> S -> S * result (option ManagedApiKey) GatewayError;
  repo_find_by_hash : Z -> string -> S -> S * result (option ManagedApiKey) GatewayError;
  repo_update : Z -> string -> UpdateKeyConfig Json -> S -> S * result ManagedApiKey GatewayError;
  repo_update_status : Z -> string -> KeyStatus -> S -> S * result unit GatewayError;
  repo_update_last_used : Z -> string -> S -> S * result unit GatewayError;
  repo_update_usage : Z -> string -> UsageRecord -> S -> S * result unit GatewayError;
  repo_delete : Z -> string -> S -> S * result unit GatewayError;
  repo_delete_expired : Z -> S -> S * result Z GatewayError;
}.

(** * In memory *)

Section Memory.
Context `{JsonValues}.

Record InMemoryKeyRepository := mkMemory {
  keys_by_id : gmap string ManagedApiKey;
  hash_index : gmap string string;
}.

Definition memory_new : InMemoryKeyRepository := mkMemory ∅ ∅.

Definition memory_create (key : ManagedApiKey) (m : InMemoryKeyRepository)
    : InMemoryKeyRepository * result ManagedApiKey GatewayError :=
  match hash_index m !! mk_hash key with
  | Some _ => (m, Err (GConflict "API key already exists"))
  | None =>
      (mkMemory (<[mk_id key := key]> (keys_by_id m)) (<[mk_hash key := mk_id key]> (hash_index m)), Ok key)
  end.

Definition memory_find_by_id (id : string) (m : InMemoryKeyRepository) : option ManagedApiKey :=
  keys_by_id m !! id.
Definition memory_find_by_hash (hash : string) (m : InMemoryKeyRepository) : option ManagedApiKey :=
  id ← hash_index m !! hash; memory_find_by_id id m.

Definition memory_updated (now : Z) (c : UpdateKeyConfig Json) (k : ManagedApiKey) : ManagedApiKey :=
  mkManaged (mk_id k) (mk_hash k) (mk_prefix k)
    (default (mk_name k) (new_name c))
    (default (mk_description k) (new_description c))
    (mk_user_id k) (mk_team_id k)
    (default (mk_budget_id k) (new_budget_id c))
    (default (mk_permissions k) (new_permissions c))
    (default (mk_rate_limits k) (new_rate_limits c))
    (mk_status k)
    (default (mk_expires_at k) (new_expires_at c))
    (mk_created_at k) now (mk_last_used_at k) (mk_usage k)
    (default (mk_metadata k) (new_metadata c)).

Definition with_status (now : Z) (s : KeyStatus) (k : ManagedApiKey) : ManagedApiKey :=
  mkManaged (mk_id k) (mk_hash k) (mk_prefix k) (mk_name k) (mk_description k) (mk_user_id k)
    (mk_team_id k) (mk_budget_id k) (mk_permissions k) (mk_rate_limits k) s (mk_expires_at k)
    (mk_created_at k) now (mk_last_used_at k) (mk_usage k) (mk_metadata k).
Definition with_use (now : Z) (u : UsageStats) (k : ManagedApiKey) : ManagedApiKey :=
  mkManaged (mk_id k) (mk_hash k) (mk_prefix k) (mk_name k) (mk_description k) (mk_user_id k)
    (mk_team_id k) (mk_budget_id k) (mk_permissions k) (mk_rate_limits k) (mk_status k)
    (mk_expires_at k) (mk_created_at k) (mk_updated_at k) (Some now) u (mk_metadata k).

Definition set_key (id : string) (k : ManagedApiKey) (m : InMemoryKeyRepository) : InMemoryKeyRepository :=
  mkMemory (<[id := k]> (keys_by_id m)) (hash_index m).

Definition memory_update (now : Z) (id : string) (c : UpdateKeyConfig Json) (m : InMemoryKeyRepository)
    : InMemoryKeyRepository * result ManagedApiKey GatewayError :=
  match keys_by_id m !! id with
  | None => (m, Err not_found)
  | Some k => let k := memory_updated now c k in (set_key id k m, Ok k)
  end.

Definition memory_update_status (now : Z) (id : string) (s : KeyStatus) (m : InMemoryKeyRepository)
    : InMemoryKeyRepository * result unit GatewayError :=
  match keys_by_id m !! id with
  | None => (m, Err not_found)
  | Some k => (set_key id (with_status now s k) m, Ok tt)
  end.

(** A key that is not there is no error of the next two. *)
Definition memory_update_last_used (now : Z) (id : string) (m : InMemoryKeyRepository)
    : InMemoryKeyRepository * result unit GatewayError :=
  match keys_by_id m !! id with
  | None => (m, Ok tt)
  | Some k => (set_key id (with_use now (mk_usage k) k) m, Ok tt)
  end.

Definition memory_update_usage (now : Z) (id : string) (r : UsageRecord) (m : InMemoryKeyRepository)
    : InMemoryKeyRepository * result unit GatewayError :=
  match keys_by_id m !! id with
  | None => (m, Ok tt)
  | Some k =>
      (set_key id (with_use now (record_usage_record now r (reset_daily_if_needed now (mk_usage k))) k) m,
       Ok tt)
  end.

Definition remove_key (id : string) (m : InMemoryKeyRepository) : InMemoryKeyRepository :=
  match keys_by_id m !! id with
  | None => m
  | Some k => mkMemory (delete id (keys_by_id m)) (delete (mk_hash k) (hash_index m))
  end.

Definition memory_delete (id : string) (m : InMemoryKeyRepository)
    : InMemoryKeyRepository * result unit GatewayError := (remove_key id m, Ok tt).

(** The identifiers to delete, then each of them. *)
Definition memory_delete_expired (now : Z) (m : InMemoryKeyRepository)
    : InMemoryKeyRepository * result Z GatewayError :=
  let expired := filter (fun p => expired_at now (mk_expires_at p.2) = true) (map_to_list (keys_by_id m)) in
  (foldr (fun p m => remove_key p.1 m) m expired, Ok (Z.of_nat (length expired))).

Definition memory_repository : KeyRepository InMemoryKeyRepository := {|
  repo_create _ key m := memory_create key m;
  repo_find_by_id _ id m := (m, Ok (memory_find_by_id id m));
  repo_find_by_hash _ hash m := (m, Ok (memory_find_by_hash hash m));
  repo_update := memory_update;
  repo_update_status := memory_update_status;
  repo_update_last_used := memory_update_last_used;
  repo_update_usage := memory_update_usage;
  repo_delete _ id m := memory_delete id m;
  repo_delete_expired := memory_delete_expired;
|}.
End Memory.
#[export] Existing Instance memory_repository.

(** * In the database *)

Section Database.
Context `{PayloadJson}.

(** [to_domain_api_key]. *)
Definition to_domain_api_key (k : ManagedApiKey) : result ApiKey GatewayError :=
  match write_payload ∅ (mkPayload (mk_description k) (mk_budget_id k) (Some (mk_permissions k)) (mk_metadata k)) with
  | Err e => Err e
  | Ok extra =>
      Ok (mkApiKey (mkMetadata (mk_id k) (mk_created_at k) (mk_updated_at k) 1 extra)
            (mk_name k) (mk_hash k) (mk_prefix k) (mk_user_id k) (mk_team_id k)
            (to_domain_permissions (mk_permissions k)) (to_domain_rate_limits (mk_rate_limits k))
            (mk_expires_at k) (negb (bool_decide (mk_status k = KeyRevoked))) (mk_last_used_at k) (mk_usage k))
  end.

(** [from_domain_api_key]: the status is that of the moment. *)
Definition from_domain_api_key (now : Z) (key : ApiKey) : ManagedApiKey :=
  let payload := parse_payload (extra (metadata key)) in
  mkManaged (key_id key) (key_hash key) (key_prefix key) (key_name key) (description payload)
    (key_user_id key) (key_team_id key) (budget_id payload)
    (match payload_permissions payload with
     | Some p => p
     | None => derive_permissions_from_domain (permissions key)
     end)
    (from_domain_rate_limits (rate_limits key))
    (if negb (is_active key) then KeyRevoked
     else if expired_at now (expires_at key) then KeyExpired else KeyActive)
    (expires_at key) (created_at (metadata key)) (updated_at (metadata key)) (last_used_at key)
    (usage_stats key) (payload_metadata payload).

(** A program run alone, its statements all answered. *)
Fixpoint run {A} (p : Op A) (db : Rows) : Rows * result A GatewayError :=
  match p with
  | Return r => (db, r)
  | Query s next => let '(db, a) := exec s db in run (next a) db
  end.

Definition mapped {A B} (f : A -> B) (r : Rows * result A GatewayError) : Rows * result B GatewayError :=
  (fst r, match snd r with Ok a => Ok (f a) | Err e => Err e end).

Definition database_create (now : Z) (key : ManagedApiKey) (db : Rows) : Rows * result ManagedApiKey GatewayError :=
  match to_domain_api_key key with
  | Err e => (db, Err e)
  | Ok domain_key => mapped (from_domain_api_key now) (run (create_api_key domain_key) db)
  end.

Definition database_update_status (now : Z) (id : string) (s : KeyStatus) (db : Rows)
    : Rows * result unit GatewayError :=
  match s with
  | KeyActive => run (set_api_key_active id true now) db
  | KeyRevoked => run (set_api_key_active id false now) db
  | KeyExpired => (db, Err (GValidation "Cannot set key status to expired manually"))
  end.

Definition database_repository : KeyRepository Rows := {|
  repo_create := database_create;
  repo_find_by_id now id db := mapped (option_map (from_domain_api_key now)) (run (find_api_key_by_id id) db);
  repo_find_by_hash now hash db :=
    mapped (option_map (from_domain_api_key now)) (run (find_api_key_by_hash hash) db);
  repo_update now id c db := mapped (from_domain_api_key now) (run (repository_update id c now now) db);
  repo_update_status := database_update_status;
  repo_update_last_used now id db := run (update_api_key_last_used id now) db;
  repo_update_usage now id r db :=
    run (update_api_key_usage id (use_requests r) (use_tokens r) (use_cost r) (use_unpriced r) now) db;
  repo_delete _ id db := run (delete_api_key id) db;
  repo_delete_expired now db := run (delete_expired_api_keys now) db;
|}.
End Database.
#[export] Existing Instance database_repository.
