(* ===== verification/KeyContents.v ===== *)
(** What a repository of managed keys promises its clients, and that both
    implementations keep the promise.

    The promise is about the contents: the keys by identifier, less what the two
    implementations keep differently (when a key was last used and changed, and
    the counters of the day). *)

From Stdlib Require Import Floats.SpecFloat.
From S2P Require Import Prelude Float64 ProviderErrors GatewayErrors Principals KeyStore KeyRecords.
From S2P Require Import KeyRepository.

(** * Contents *)

Definition settled_usage (u : UsageStats) : UsageStats :=
  mkUsageStats (total_requests u) (total_tokens u) (total_cost u) 0 0 f64_zero
    (unpriced_requests u) (unpriced_tokens u) (unpriced_cost u) (last_unpriced_at u) 0.

Definition settled_status (s : KeyStatus) : KeyStatus :=
  match s with KeyRevoked => KeyRevoked | _ => KeyActive end.

Section Contents.
Context `{JsonValues}.

Definition settled (k : ManagedApiKey) : ManagedApiKey :=
  mkManaged (mk_id k) (mk_hash k) (mk_prefix k) (mk_name k) (mk_description k) (mk_user_id k)
    (mk_team_id k) (mk_budget_id k) (mk_permissions k) (mk_rate_limits k) (settled_status (mk_status k))
    (mk_expires_at k) (mk_created_at k) 0 None (settled_usage (mk_usage k)) (mk_metadata k).

Definition settled_info (i : KeyInfo) : KeyInfo :=
  mkInfo (info_id i) (info_prefix i) (info_name i) (info_description i) (info_user_id i)
    (info_team_id i) (info_budget_id i) (info_status i) (info_permissions i) (info_rate_limits i)
    (info_expires_at i) (info_created_at i) None (settled_usage (info_usage i)).

Abbreviation Contents := (gmap string ManagedApiKey).

(** Every key is under its identifier and no two keys have the same hash. *)
Record well_kept (c : Contents) : Prop := {
  kept_ids : map_Forall (fun id k => mk_id k = id) c;
  kept_hashes : forall i j k k', c !! i = Some k -> c !! j = Some k' -> mk_hash k = mk_hash k' -> i = j;
}.

Definition with_usage_of (now : Z) (r : UsageRecord) (k : ManagedApiKey) : ManagedApiKey :=
  settled (with_use now (record_usage_record now r (mk_usage k)) k).

Definition unexpired (now : Z) (p : string * ManagedApiKey) : Prop :=
  expired_at now (mk_expires_at p.2) = false.
#[export] Instance unexpired_dec (now : Z) (p : string * ManagedApiKey) : Decision (unexpired now p).
Proof. unfold unexpired. apply _. Defined.

(** A status read at [now] says expired only of a key that is. *)
Definition honest (now : Z) (k : ManagedApiKey) : Prop :=
  mk_status k = KeyExpired -> expired_at now (mk_expires_at k) = true.

Class LawfulKeyRepository (S : Type) `{!KeyRepository S} := {
  repo_ok : S -> Prop;
  contents : S -> Contents;
  ok_kept s : repo_ok s -> well_kept (contents s);
  settled_contents s id k : contents s !! id = Some k -> settled k = k;
  law_create now k s :
    repo_ok s -> contents s !! mk_id k = None ->
    (forall id k', contents s !! id = Some k' -> mk_hash k' <> mk_hash k) ->
    mk_status k = KeyActive ->
    exists s' k', repo_create now k s = (s', Ok k') /\ repo_ok s' /\
      contents s' = <[mk_id k := settled k]> (contents s);
  law_find_by_id now id s : repo_ok s ->
    exists r, repo_find_by_id now id s = (s, Ok r) /\ settled <$> r = contents s !! id /\
      (forall k, r = Some k -> honest now k);
  law_find_by_hash now hash s : repo_ok s ->
    exists r, repo_find_by_hash now hash s = (s, Ok r) /\
      match r with
      | Some k => mk_hash k = hash /\ contents s !! mk_id k = Some (settled k) /\ honest now k
      | None => forall id k, contents s !! id = Some k -> mk_hash k <> hash
      end;
  law_update now id c s k : repo_ok s -> contents s !! id = Some k ->
    exists s' k', repo_update now id c s = (s', Ok k') /\ repo_ok s' /\
      settled k' = settled (memory_updated now c k) /\ honest now k' /\
      contents s' = <[id := settled (memory_updated now c k)]> (contents s);
  law_revoke now id s k : repo_ok s -> contents s !! id = Some k ->
    exists s', repo_update_status now id KeyRevoked s = (s', Ok tt) /\ repo_ok s' /\
      contents s' = <[id := settled (with_status now KeyRevoked k)]> (contents s);
  law_last_used now id s : repo_ok s ->
    exists s' r, repo_update_last_used now id s = (s', r) /\ repo_ok s' /\ contents s' = contents s /\
      (is_Some (contents s !! id) -> r = Ok tt) /\ (r = Ok tt \/ r = Err not_found);
  law_usage now id record s : repo_ok s ->
    exists s' r, repo_update_usage now id record s = (s', r) /\ repo_ok s' /\
      contents s' = alter (with_usage_of now record) id (contents s) /\
      (is_Some (contents s !! id) -> r = Ok tt) /\ (r = Ok tt \/ r = Err not_found);
  law_delete now id s : repo_ok s -> is_Some (contents s !! id) ->
    exists s', repo_delete now id s = (s', Ok tt) /\ repo_ok s' /\ contents s' = delete id (contents s);
  law_delete_expired now s : repo_ok s ->
    exists s', repo_delete_expired now s =
        (s', Ok (Z.of_nat (size (contents s) - size (filter (unexpired now) (contents s))))) /\
      repo_ok s' /\ contents s' = filter (unexpired now) (contents s);
}.

(** * Facts about settled keys *)

Lemma settled_idem (k : ManagedApiKey) : settled (settled k) = settled k.
Proof. by destruct k as [??????????[]??????]. Qed.

Lemma settled_updated (now : Z) (c : UpdateKeyConfig Json) (k : ManagedApiKey) :
  settled (memory_updated now c (settled k)) = settled (memory_updated now c k).
Proof. by destruct k as [??????????[]??????]. Qed.

Lemma settled_with_status (now : Z) (s : KeyStatus) (k : ManagedApiKey) :
  settled (with_status now s (settled k)) = settled (with_status now s k).
Proof. by destruct k. Qed.

Lemma settled_with_usage (now : Z) (r : UsageRecord) (k : ManagedApiKey) :
  with_usage_of now r (settled k) = with_usage_of now r k.
Proof. destruct k as [??????????[]????[] ?]; unfold with_usage_of, settled; simpl; by destruct (use_unpriced r). Qed.

Lemma settled_reset (now : Z) (u : UsageStats) :
  settled_usage (reset_daily_if_needed now u) = settled_usage u.
Proof. unfold reset_daily_if_needed. by destruct (_ =? _). Qed.

Lemma settled_with_reset (now : Z) (r : UsageRecord) (k : ManagedApiKey) :
  settled (with_use now (record_usage_record now r (reset_daily_if_needed now (mk_usage k))) k) =
  with_usage_of now r k.
Proof.
  unfold with_usage_of, settled; simpl. f_equal. unfold reset_daily_if_needed.
  destruct (_ =? _); [done|]. unfold record_usage_record, add_usage, settled_usage; simpl. done.
Qed.

(** Keys that settle to the same one look the same, have the same status at every
    moment, and answer the same. *)
Lemma settled_key_info (now : Z) (k k' : ManagedApiKey) :
  settled k = settled k' -> honest now k -> honest now k' -> settled_info (key_info now k) = settled_info (key_info now k').
Proof.
  unfold honest. intros E Ha Ha'. pose proof (f_equal mk_usage E) as Hu. pose proof (f_equal mk_status E) as Hs.
  destruct k as [? ? ? ? ? ? ? ? ? ? s], k' as [? ? ? ? ? ? ? ? ? ? s'].
  unfold settled, settled_info, key_info, effective_status in *; simpl in *. rewrite Hu.
  injection E as -> -> -> -> -> -> -> -> -> -> _ -> ->. intros. f_equal.
  destruct s, s', (expired_at now _); try done; by specialize (Ha eq_refl) || specialize (Ha' eq_refl).
Qed.

Lemma settled_revoked (k k' : ManagedApiKey) :
  settled k = settled k' -> bool_decide (mk_status k = KeyRevoked) = bool_decide (mk_status k' = KeyRevoked).
Proof. intros [=]. apply bool_decide_ext. by destruct (mk_status k), (mk_status k'). Qed.

Lemma settled_fields (k k' : ManagedApiKey) : settled k = settled k' ->
  mk_id k = mk_id k' /\ mk_hash k = mk_hash k' /\ mk_expires_at k = mk_expires_at k'.
Proof. by intros [=]. Qed.
(** * Well-kept contents *)

(** A row written in place of one with its identifier and hash. *)
Lemma well_kept_insert (c : gmap string ManagedApiKey) (id : string) (k k' : ManagedApiKey) :
  well_kept c -> c !! id = Some k -> mk_id k' = mk_id k -> mk_hash k' = mk_hash k -> well_kept (<[id:=k']> c).
Proof.
  intros [Hids Hh] Hk Hid Hhash.
  assert (Hback : forall i x, <[id:=k']> c !! i = Some x -> exists y, c !! i = Some y /\ mk_hash x = mk_hash y).
  { intros i x [[<- <-]|[Hne Hx]]%lookup_insert_Some; eauto. }
  split.
  - apply map_Forall_insert_2; [by rewrite Hid; apply Hids|done].
  - intros i j x y (a & Ha & Ea)%Hback (b & Hb & Eb)%Hback E. apply (Hh i j a b Ha Hb). congruence.
Qed.

Lemma well_kept_delete (c : gmap string ManagedApiKey) (id : string) : well_kept c -> well_kept (delete id c).
Proof.
  intros [Hids Hh]. split; [by apply map_Forall_delete|].
  intros i j x y [_ Hx]%lookup_delete_Some [_ Hy]%lookup_delete_Some. by apply Hh.
Qed.

Lemma well_kept_filter (c : gmap string ManagedApiKey) (P : string * ManagedApiKey -> Prop)
    `{!forall p, Decision (P p)} : well_kept c -> well_kept (filter P c).
Proof.
  intros [Hids Hh]. split.
  - intros i x [Hx _]%map_lookup_filter_Some. by apply Hids.
  - intros i j x y [Hx _]%map_lookup_filter_Some [Hy _]%map_lookup_filter_Some. by apply Hh.
Qed.

Lemma well_kept_create (c : gmap string ManagedApiKey) (k : ManagedApiKey) :
  well_kept c -> (forall id x, c !! id = Some x -> mk_hash x <> mk_hash k) -> well_kept (<[mk_id k := k]> c).
Proof.
  intros [Hids Hh] Hhash. split; [by apply map_Forall_insert_2|].
  intros i j x y [[<- <-]|[Hi Hx]]%lookup_insert_Some [[<- <-]|[Hj Hy]]%lookup_insert_Some E; [done| | |].
  - by destruct (Hhash j y Hy).
  - by destruct (Hhash i x Hx).
  - exact (Hh i j x y Hx Hy E).
Qed.
End Contents.
