(* ===== verification/KeyMemory.v ===== *)
(** The repository in memory keeps the promise of [KeyContents]: its index of
    hashes is exact, and every operation does to the contents what it promises. *)

From S2P Require Import Prelude ProviderErrors GatewayErrors Principals KeyStore KeyRecords.
From S2P Require Import KeyRepository KeyContents.

(** Elements counted by a property and by its complement. *)
Lemma filter_map_complement {A} (P Q : string * A -> Prop) `{!forall p, Decision (P p), !forall p, Decision (Q p)}
    (m : gmap string A) :
  (forall p, P p <-> ~ Q p) -> (length (filter P (map_to_list m)) + size (filter Q m) = size m)%nat.
Proof.
  intros HPQ. rewrite map_filter_alt, map_size_list_to_map.
  - rewrite <- (length_map_to_list m). induction (map_to_list m) as [|p l IH]; [done|].
    rewrite !filter_cons. specialize (HPQ p).
    destruct (decide (P p)), (decide (Q p)); simpl; try tauto; lia.
  - apply NoDup_fmap_fst; [|apply NoDup_filter, NoDup_map_to_list].
    intros i x y [_ Hx%elem_of_map_to_list]%list_elem_of_filter [_ Hy%elem_of_map_to_list]%list_elem_of_filter.
    congruence.
Qed.

Section Memory.
Context `{JsonValues}.

Record memory_ok (m : InMemoryKeyRepository) : Prop := {
  memory_kept : well_kept (keys_by_id m);
  memory_index : forall h id, hash_index m !! h = Some id <->
    exists k, keys_by_id m !! id = Some k /\ mk_hash k = h;
  memory_status : map_Forall (fun _ k => mk_status k <> KeyExpired) (keys_by_id m);
}.

Definition memory_contents (m : InMemoryKeyRepository) : gmap string ManagedApiKey :=
  settled <$> keys_by_id m.

Lemma memory_contents_some (m : InMemoryKeyRepository) (id : string) (k : ManagedApiKey) :
  memory_contents m !! id = Some k <-> exists k', keys_by_id m !! id = Some k' /\ settled k' = k.
Proof.
  unfold memory_contents. rewrite lookup_fmap_Some. split; intros (k' & A & B); exists k'; tauto.
Qed.

Lemma well_kept_settled (c : gmap string ManagedApiKey) : well_kept c -> well_kept (settled <$> c).
Proof.
  intros [Hids Hh]. split.
  - intros id k. rewrite lookup_fmap_Some. intros (k' & <- & Hk). exact (Hids id k' Hk).
  - intros i j k k'. rewrite !lookup_fmap_Some. intros (a & <- & Ha) (b & <- & Hb). exact (Hh i j a b Ha Hb).
Qed.

(** A key replaced by one with its identifier and hash. *)
Lemma set_key_ok (id : string) (k k' : ManagedApiKey) (m : InMemoryKeyRepository) :
  memory_ok m -> keys_by_id m !! id = Some k -> mk_id k' = mk_id k -> mk_hash k' = mk_hash k ->
  mk_status k' <> KeyExpired -> memory_ok (set_key id k' m).
Proof.
  intros [[Hids Hh] Hix Hs] Hk Hid Hhash Hst.
  assert (Hback : forall i x, <[id:=k']> (keys_by_id m) !! i = Some x ->
            exists y, keys_by_id m !! i = Some y /\ mk_id x = mk_id y /\ mk_hash x = mk_hash y).
  { intros i x [[<- <-]|[Hne Hx]]%lookup_insert_Some; eauto. }
  split; [split| |]; simpl.
  - intros i x Hx. destruct (Hback i x Hx) as (y & Hy & -> & _). exact (Hids i y Hy).
  - intros i j x y Hx Hy E. destruct (Hback i x Hx) as (a & Ha & _ & Ea), (Hback j y Hy) as (b & Hb & _ & Eb).
    apply (Hh i j a b Ha Hb). congruence.
  - intros h i. rewrite Hix. split.
    + intros (x & Hx & Eh). destruct (decide (id = i)) as [<-|Hne].
      * exists k'. rewrite lookup_insert_eq. split; [done|]. simplify_eq. congruence.
      * exists x. by rewrite lookup_insert_ne.
    + intros (x & Hx & Eh). destruct (Hback i x Hx) as (y & Hy & _ & E). exists y. split; [done|congruence].
  - by apply map_Forall_insert_2.
Qed.

Lemma set_key_contents (id : string) (k : ManagedApiKey) (m : InMemoryKeyRepository) :
  memory_contents (set_key id k m) = <[id := settled k]> (memory_contents m).
Proof. unfold memory_contents; simpl. by rewrite fmap_insert. Qed.

(** A key taken out. *)
Lemma remove_key_keys (id : string) (m : InMemoryKeyRepository) :
  keys_by_id (remove_key id m) = delete id (keys_by_id m).
Proof. unfold remove_key. destruct (keys_by_id m !! id) eqn:E; [done|]. by rewrite delete_id. Qed.

Lemma remove_key_ok (id : string) (m : InMemoryKeyRepository) : memory_ok m -> memory_ok (remove_key id m).
Proof.
  intros [[Hids Hh] Hix Hs]. unfold remove_key. destruct (keys_by_id m !! id) as [k|] eqn:Hk; [|done].
  split; [split| |]; simpl.
  - by apply map_Forall_delete.
  - intros i j x y [_ Hx]%lookup_delete_Some [_ Hy]%lookup_delete_Some. by apply Hh.
  - intros h i. rewrite lookup_delete_Some, Hix. split.
    + intros [Hne (x & Hx & Eh)]. exists x. rewrite lookup_delete_Some. split; [|done]. split; [|done].
      intros <-. simplify_eq.
    + intros (x & [Hne Hx]%lookup_delete_Some & Eh). split; [|by exists x].
      intros Ek. apply Hne. apply (Hh id i k x Hk Hx). congruence.
  - by apply map_Forall_delete.
Qed.

Lemma remove_keys (ps : list (string * ManagedApiKey)) (m : InMemoryKeyRepository) :
  memory_ok m ->
  memory_ok (foldr (fun p m => remove_key p.1 m) m ps) /\
  forall id, keys_by_id (foldr (fun p m => remove_key p.1 m) m ps) !! id =
    if bool_decide (id ∈ ps.*1) then None else keys_by_id m !! id.
Proof.
  intros Hm. induction ps as [|p ps [IHok IH]]; [done|].
  cbn [foldr fmap list_fmap]. split; [by apply remove_key_ok|]. intros id. rewrite remove_key_keys.
  destruct (decide (id = p.1)) as [->|Hne].
  - rewrite lookup_delete_eq, bool_decide_true by (by left). done.
  - rewrite lookup_delete_ne, IH by done.
    apply (f_equal (fun b : bool => if b then None else _)), bool_decide_ext. rewrite elem_of_cons. tauto.
Qed.

(** * The promise *)

Lemma honest_stored (now : Z) (m : InMemoryKeyRepository) (id : string) (k : ManagedApiKey) :
  memory_ok m -> keys_by_id m !! id = Some k -> honest now k.
Proof. intros [_ _ Hs] Hk E. by destruct (Hs id k Hk). Qed.

Lemma memory_create_ok (k : ManagedApiKey) (m : InMemoryKeyRepository) :
  memory_ok m -> keys_by_id m !! mk_id k = None ->
  (forall id x, keys_by_id m !! id = Some x -> mk_hash x <> mk_hash k) -> mk_status k = KeyActive ->
  exists m', memory_create k m = (m', Ok k) /\ memory_ok m' /\
    memory_contents m' = <[mk_id k := settled k]> (memory_contents m).
Proof.
  intros [[Hids Hh] Hix Hs] Hid Hhash Hst. unfold memory_create.
  destruct (hash_index m !! mk_hash k) as [i|] eqn:E.
  { apply Hix in E as (x & Hx & E). by destruct (Hhash i x Hx). }
  eexists. split; [done|]. split; [|by unfold memory_contents; simpl; rewrite fmap_insert].
  split; [split| |]; simpl.
  - by apply map_Forall_insert_2.
  - intros i j x y [[<- <-]|[Hi Hx]]%lookup_insert_Some [[<- <-]|[Hj Hy]]%lookup_insert_Some Exy; [done| | |].
    + by destruct (Hhash j y Hy).
    + by destruct (Hhash i x Hx).
    + exact (Hh i j x y Hx Hy Exy).
  - intros h i. rewrite lookup_insert_Some, Hix. split.
    + intros [[<- <-]|[Hne (x & Hx & Eh)]]; [exists k; by rewrite lookup_insert_eq|].
      exists x. rewrite lookup_insert_ne; [done|]. intros <-. congruence.
    + intros (x & [[<- <-]|[Hne Hx]]%lookup_insert_Some & Eh); [by left|].
      right. split; [|by exists x]. intros <-. by destruct (Hhash i x Hx).
  - apply map_Forall_insert_2; [by rewrite Hst|done].
Qed.

Lemma memory_delete_expired_ok (now : Z) (m : InMemoryKeyRepository) : memory_ok m ->
  exists m', memory_delete_expired now m =
      (m', Ok (Z.of_nat (size (memory_contents m) - size (filter (unexpired now) (memory_contents m))))) /\
    memory_ok m' /\ memory_contents m' = filter (unexpired now) (memory_contents m).
Proof.
  intros Hm. unfold memory_delete_expired.
  set (P := fun p : string * ManagedApiKey => expired_at now (mk_expires_at p.2) = true).
  destruct (remove_keys (filter P (map_to_list (keys_by_id m))) m Hm) as [Hok Hkeys].
  eexists. split; [f_equal; f_equal; f_equal|split; [exact Hok|]].
  - assert (HPQ : forall p, P p <-> ~ unexpired now p).
    { intros p. unfold P, unexpired. by destruct (expired_at _ _). }
    pose proof (filter_map_complement P (unexpired now) (keys_by_id m) HPQ) as Hsize.
    unfold memory_contents. rewrite map_filter_fmap, !map_size_fmap.
    rewrite (proj1 (map_filter_ext _ (unexpired now) (keys_by_id m))) by done. lia.
  - apply map_eq. intros id. unfold memory_contents. rewrite map_filter_fmap, !lookup_fmap, Hkeys.
    f_equal. case_bool_decide as Hin; symmetry.
    + apply map_lookup_filter_None. right. intros k Hk. apply list_elem_of_fmap in Hin as ([i x] & -> & Hx).
      apply list_elem_of_filter in Hx as [Hx Hi%elem_of_map_to_list]. simpl in Hk. simplify_eq.
      unfold unexpired, P in *; simpl in *. congruence.
    + destruct (keys_by_id m !! id) as [k|] eqn:Hk; [|apply map_lookup_filter_None; by left].
      apply map_lookup_filter_Some. split; [done|]. unfold unexpired; simpl.
      destruct (expired_at now (mk_expires_at k)) eqn:E; [|done]. exfalso. apply Hin.
      apply list_elem_of_fmap. exists (id, k). split; [done|]. apply list_elem_of_filter.
      split; [exact E|by apply elem_of_map_to_list].
Qed.

#[export] Instance memory_lawful : LawfulKeyRepository InMemoryKeyRepository.
Proof.
  refine {| repo_ok := memory_ok; contents := memory_contents |}.
  - intros m [Hk _ _]. by apply well_kept_settled.
  - intros m id k (x & _ & <-)%memory_contents_some. apply settled_idem.
  - intros now k m Hm Hid Hh Hs. cbn [repo_create memory_repository].
    destruct (memory_create_ok k m Hm) as (m' & -> & Hok & Hc); try done.
    + unfold memory_contents in Hid. rewrite lookup_fmap in Hid. by apply fmap_None in Hid.
    + intros id x Hx. apply (Hh id (settled x)). apply memory_contents_some. eauto.
    + eauto.
  - intros now id m Hm. exists (memory_find_by_id id m). split; [done|].
    unfold memory_contents, memory_find_by_id. rewrite lookup_fmap. split; [done|].
    intros k Hk. by eapply honest_stored.
  - intros now h m Hm. exists (memory_find_by_hash h m). split; [done|].
    unfold memory_find_by_hash, memory_find_by_id. destruct (hash_index m !! h) as [id|] eqn:E; simpl.
    + apply (memory_index m Hm) in E as (k & Hk & <-). rewrite Hk. split; [done|].
      split; [|by eapply honest_stored]. apply memory_contents_some. exists k.
      by rewrite (kept_ids _ (memory_kept m Hm) id k Hk).
    + intros id k (x & Hx & <-)%memory_contents_some Eh.
      assert (hash_index m !! h = Some id) by (apply (memory_index m Hm); eauto). congruence.
  - intros now id c m k Hm (x & Hx & <-)%memory_contents_some. simpl. unfold memory_update. rewrite Hx.
    eexists _, _. split; [done|]. rewrite settled_updated, <- set_key_contents.
    split; [|split; [done|split; [|done]]].
    + eapply set_key_ok; [done..|]. by apply (memory_status m Hm id x).
    + intros E. by destruct (memory_status m Hm id x Hx).
  - intros now id m k Hm (x & Hx & <-)%memory_contents_some. simpl. unfold memory_update_status. rewrite Hx.
    eexists. split; [done|]. rewrite settled_with_status, <- set_key_contents. split; [|done].
    by eapply set_key_ok.
  - intros now id m Hm. simpl. unfold memory_update_last_used. destruct (keys_by_id m !! id) as [x|] eqn:Hx.
    + eexists _, _. split; [done|]. split; [eapply set_key_ok; [done..|]; by apply (memory_status m Hm id x)|].
      split; [|by auto]. rewrite set_key_contents. apply insert_id, memory_contents_some. eauto.
    + eexists _, _. split; [done|]. auto.
  - intros now id r m Hm. simpl. unfold memory_update_usage. destruct (keys_by_id m !! id) as [x|] eqn:Hx.
    + eexists _, _. split; [done|]. split; [eapply set_key_ok; [done..|]; by apply (memory_status m Hm id x)|].
      split; [|by auto]. rewrite set_key_contents, settled_with_reset.
      apply map_eq. intros i. destruct (decide (id = i)) as [<-|Hne].
      * rewrite lookup_insert_eq, lookup_alter_eq. unfold memory_contents. rewrite lookup_fmap, Hx. simpl.
        by rewrite settled_with_usage.
      * by rewrite lookup_insert_ne, lookup_alter_ne.
    + eexists _, _. split; [done|]. split; [done|]. split; [|by auto]. symmetry.
      apply alter_id. intros x (y & Hy & _)%memory_contents_some. congruence.
  - intros now id m Hm Hin. eexists. split; [done|]. split; [by apply remove_key_ok|].
    unfold memory_contents. by rewrite remove_key_keys, fmap_delete.
  - intros now m Hm. by apply memory_delete_expired_ok.
Defined.
End Memory.
