(* ===== verification/KeyRows.v ===== *)
(** The repository over the database keeps the promise of [KeyContents], as long
    as what serde writes of a payload it reads back. *)

From S2P Require Import Prelude ProviderErrors GatewayErrors Principals KeyStore KeyRecords.
From S2P Require Import KeyRepository KeyContents.

(** Payloads are text, identifiers, numbers and JSON values: writing one does not
    fail, and reading gives it back. *)
Class PayloadLaws `(PayloadJson) := {
  payload_round_trip p : exists v, payload_to_value p = Ok v /\ payload_from_value v = Some p;
}.

Section Database.
Context `{PayloadLaws}.

(** * Programs run alone *)

Lemma run_bind {A B} (p : Op A) (k : A -> Op B) (db : Rows) :
  run (KeyStore.bind p k) db =
  match run p db with (db, Ok a) => run (k a) db | (db, Err e) => (db, Err e) end.
Proof.
  revert db. induction p as [[a|e]|s next IH]; intros db; [done|done|]. cbn [KeyStore.bind run].
  destruct (exec s db) as [db' a]. apply IH.
Qed.

Lemma run_versioned_update (id : string) (now : Z) (assign : ApiKey -> ApiKey -> ApiKey) (db : Rows) :
  run (versioned_update id now assign) db =
  match db !! id with
  | None => (db, Err not_found)
  | Some row =>
      (<[id := stamp now (wrap_i32 (version (metadata row) + 1)) (assign row row)]> db, Ok tt)
  end.
Proof.
  unfold versioned_update, one, affected. cbn [run exec]. destruct (db !! id) as [row|] eqn:E; [|done].
  cbn [run exec]. rewrite E, bool_decide_true by done. done.
Qed.

(** * Views of rows *)

Definition row_view (row : ApiKey) : ManagedApiKey := settled (from_domain_api_key 0 row).

Definition rows_contents (db : Rows) : gmap string ManagedApiKey := row_view <$> db.

Lemma settled_from_domain (now : Z) (row : ApiKey) : settled (from_domain_api_key now row) = row_view row.
Proof.
  unfold row_view, settled, from_domain_api_key; simpl. f_equal.
  destruct (is_active row); [|done]. simpl. by destruct (expired_at now _), (expired_at 0 _).
Qed.

Lemma honest_from_domain (now : Z) (row : ApiKey) : honest now (from_domain_api_key now row).
Proof.
  unfold honest, from_domain_api_key; simpl. destruct (is_active row); [|done]. simpl.
  by destruct (expired_at now _).
Qed.

Lemma row_view_stamp (now v : Z) (row : ApiKey) : row_view (stamp now v row) = row_view row.
Proof. done. Qed.

Lemma row_view_inactive (now : Z) (row : ApiKey) :
  row_view (set_active false row) = settled (with_status now KeyRevoked (row_view row)).
Proof. done. Qed.

Lemma row_view_last_used (t : Z) (row : ApiKey) : row_view (set_last_used t row) = row_view row.
Proof. done. Qed.

Lemma row_view_usage (now : Z) (r : UsageRecord) (row : ApiKey) :
  row_view (set_usage (add_usage (use_requests r) (use_tokens r) (use_cost r) (use_unpriced r) now
                         (usage_stats row)) row) = with_usage_of now r (row_view row).
Proof.
  unfold row_view. rewrite settled_with_usage. reflexivity.
Qed.

Lemma domain_limits_round_trip (l : KeyRateLimits) : from_domain_rate_limits (to_domain_rate_limits l) = l.
Proof. by destruct l as [[] [] [] [] []]. Qed.

Lemma write_payload_ok (e : gmap string Json) (p : CoreKeysExtraPayload Json) :
  exists e', write_payload e p = Ok e' /\ parse_payload e' = p.
Proof.
  unfold write_payload, parse_payload. destruct (payload_round_trip p) as (v & -> & Hv).
  eexists. split; [done|]. rewrite lookup_insert_eq. simpl. by rewrite Hv.
Qed.

Lemma to_domain_view (k : ManagedApiKey) :
  exists row, to_domain_api_key k = Ok row /\ key_id row = mk_id k /\ key_hash row = mk_hash k /\
    row_view row = settled k.
Proof.
  unfold to_domain_api_key.
  destruct (write_payload_ok ∅ (mkPayload (mk_description k) (mk_budget_id k) (Some (mk_permissions k))
                                  (mk_metadata k))) as (e & -> & Hp).
  eexists. split; [done|]. split; [done|]. split; [done|].
  unfold row_view, from_domain_api_key, settled; simpl. rewrite Hp, domain_limits_round_trip. simpl. f_equal.
  destruct k as [? ? ? ? ? ? ? ? ? ? s]; simpl. destruct s; simpl; try done; by destruct (expired_at 0 _).
Qed.

(** An update as the memory does it. *)
Lemma apply_update_view (now at_ : Z) (c : UpdateKeyConfig Json) (row : ApiKey) :
  exists row', apply_update_config at_ row c = Ok row' /\ key_id row' = key_id row /\
    row_view (overwrite row' row) = settled (memory_updated now c (row_view row)).
Proof.
  unfold apply_update_config.
  match goal with |- context [write_payload ?e ?p] => destruct (write_payload_ok e p) as (e' & -> & Hp) end.
  eexists. split; [done|]. split; [done|].
  unfold row_view, overwrite, from_domain_api_key, memory_updated, settled; simpl. rewrite Hp. simpl.
  destruct c as [n d p l b e md]; simpl. f_equal.
  - by destruct p.
  - destruct l; [apply domain_limits_round_trip|done].
  - destruct (is_active row); [|done]. simpl. by destruct (expired_at 0 _), (expired_at 0 _).
Qed.

(** * The promise *)

Definition rows_ok (db : Rows) : Prop := well_kept (rows_contents db).

Lemma rows_contents_some (db : Rows) (id : string) (k : ManagedApiKey) :
  rows_contents db !! id = Some k <-> exists row, db !! id = Some row /\ row_view row = k.
Proof.
  unfold rows_contents. rewrite lookup_fmap_Some. split; intros (row & A & B); exists row; tauto.
Qed.

Lemma row_id (db : Rows) (id : string) (row : ApiKey) : rows_ok db -> db !! id = Some row -> key_id row = id.
Proof. intros [Hids _] Hrow. apply (Hids id (row_view row)), rows_contents_some. eauto. Qed.

(** The row with a hash is the one that has it. *)
Lemma row_with_hash_some (db : Rows) (h : string) (row : ApiKey) :
  rows_ok db -> row_with_hash h db = Some row -> key_hash row = h /\ db !! key_id row = Some row.
Proof.
  unfold row_with_hash. intros Hok. destruct (filter _ (map_to_list db)) as [|[id x] l] eqn:E; [done|].
  simpl. intros [= <-].
  assert (Hin : (id, x) ∈ filter (fun p => key_hash p.2 = h) (map_to_list db)) by (rewrite E; by left).
  apply list_elem_of_filter in Hin as [Hx Hin%elem_of_map_to_list]. simpl in Hx.
  by rewrite (row_id db id x Hok Hin).
Qed.

Lemma row_with_hash_none (db : Rows) (h : string) :
  row_with_hash h db = None <-> forall id row, db !! id = Some row -> key_hash row <> h.
Proof.
  unfold row_with_hash. split.
  - intros E id row Hrow Hh.
    assert (Hin : (id, row) ∈ filter (fun p => key_hash p.2 = h) (map_to_list db))
      by (apply list_elem_of_filter; split; [done|by apply elem_of_map_to_list]).
    by destruct (filter _ _); [apply elem_of_nil in Hin|].
  - intros Hno. destruct (filter _ (map_to_list db)) as [|[id x] l] eqn:E; [done|].
    assert (Hin : (id, x) ∈ filter (fun p => key_hash p.2 = h) (map_to_list db)) by (rewrite E; by left).
    apply list_elem_of_filter in Hin as [Hx Hin%elem_of_map_to_list]. by destruct (Hno id x Hin).
Qed.

(** Programs on a row that is there. *)
Lemma run_update_row (id : string) (now : Z) (assign : ApiKey -> ApiKey -> ApiKey) (db : Rows) (k k' : ManagedApiKey) :
  rows_ok db -> rows_contents db !! id = Some k ->
  (forall row, db !! id = Some row -> row_view row = k -> row_view (assign row row) = k') ->
  mk_id k' = mk_id k -> mk_hash k' = mk_hash k ->
  exists db', run (versioned_update id now assign) db = (db', Ok tt) /\ rows_ok db' /\
    rows_contents db' = <[id := k']> (rows_contents db).
Proof.
  intros Hok Hk Hassign Hid Hhash. pose proof Hk as (row & Hrow & Hv)%rows_contents_some.
  rewrite run_versioned_update, Hrow. eexists. split; [done|].
  assert (Hc : rows_contents (<[id := stamp now (wrap_i32 (version (metadata row) + 1)) (assign row row)]> db) =
               <[id := k']> (rows_contents db)).
  { unfold rows_contents. rewrite fmap_insert. f_equal. rewrite row_view_stamp. by apply Hassign. }
  split; [|exact Hc]. unfold rows_ok. rewrite Hc. by eapply well_kept_insert.
Qed.

Lemma run_update_absent (id : string) (now : Z) (assign : ApiKey -> ApiKey -> ApiKey) (db : Rows) :
  rows_contents db !! id = None -> run (versioned_update id now assign) db = (db, Err not_found).
Proof.
  unfold rows_contents. rewrite lookup_fmap, run_versioned_update. intros ->%fmap_None. done.
Qed.

Lemma database_create_ok (now : Z) (k : ManagedApiKey) (db : Rows) :
  rows_ok db -> rows_contents db !! mk_id k = None ->
  (forall id x, rows_contents db !! id = Some x -> mk_hash x <> mk_hash k) ->
  exists db' k', database_create now k db = (db', Ok k') /\ rows_ok db' /\
    rows_contents db' = <[mk_id k := settled k]> (rows_contents db).
Proof.
  intros Hok Hid Hhash. unfold database_create. destruct (to_domain_view k) as (row & -> & Hi & Hh & Hv).
  unfold create_api_key, affected. cbn [run exec].
  change (key_id (stamp _ _ row)) with (key_id row). change (key_hash (stamp _ _ row)) with (key_hash row).
  assert (Hnone : db !! key_id row = None).
  { unfold rows_contents in Hid. rewrite lookup_fmap in Hid. apply fmap_None in Hid. by rewrite Hi. }
  assert (Hno : row_with_hash (key_hash row) db = None).
  { apply row_with_hash_none. intros i x Hx Ex. apply (Hhash i (row_view x)).
    - apply rows_contents_some. eauto.
    - rewrite <- Hh. exact Ex. }
  rewrite Hnone, Hno. cbn [run mapped fst snd]. eexists _, _. split; [done|]. cbn [fst].
  match goal with |- _ /\ ?l = ?r => assert (Hc : l = r) end.
  { unfold rows_contents. by rewrite fmap_insert, row_view_stamp, Hv, Hi. }
  split; [|exact Hc]. unfold rows_ok. rewrite Hc. apply (well_kept_create (rows_contents db) (settled k)); [exact Hok|].
  exact Hhash.
Qed.

Lemma database_update_ok (now : Z) (id : string) (c : UpdateKeyConfig Json) (db : Rows) (k : ManagedApiKey) :
  rows_ok db -> rows_contents db !! id = Some k ->
  exists db' k', mapped (from_domain_api_key now) (run (repository_update id c now now) db) = (db', Ok k') /\
    rows_ok db' /\ settled k' = settled (memory_updated now c k) /\ honest now k' /\
    rows_contents db' = <[id := settled (memory_updated now c k)]> (rows_contents db).
Proof.
  intros Hok Hk. pose proof Hk as (row & Hrow & Hv)%rows_contents_some.
  destruct (apply_update_view now now c row) as (row' & Happ & Hid & Hview).
  unfold repository_update, one, update_api_key. cbn [run exec]. rewrite Hrow, Happ, run_bind.
  rewrite Hid, (row_id db id row Hok Hrow).
  destruct (run_update_row id now (fun _ r => overwrite row' r) db k (settled (memory_updated now c k)))
    as (db' & Hr & Hok' & Hc); [done|done| |done|done|].
  { intros r Hr <-. by simplify_eq. }
  rewrite Hr. unfold one. cbn [run exec].
  assert (Hnew : rows_contents db' !! id = Some (settled (memory_updated now c k)))
    by (rewrite Hc; apply lookup_insert_eq).
  apply rows_contents_some in Hnew as (new & -> & Hnv). cbn [run mapped fst snd].
  eexists _, _. split; [done|]. split; [done|]. split; [by rewrite settled_from_domain|].
  split; [apply honest_from_domain|done].
Qed.

(** What is deleted is what has expired. *)
Lemma unexpired_row (now : Z) (id : string) (row : ApiKey) :
  unexpired now (id, row_view row) <-> ~ expired_row now row.
Proof.
  unfold unexpired, expired_row; simpl. destruct (expires_at row) as [t|]; simpl; [|tauto].
  destruct (Z.ltb_spec t now); split; try done; lia.
Qed.

Lemma database_delete_expired_ok (now : Z) (db : Rows) : rows_ok db ->
  exists db', run (delete_expired_api_keys now) db =
      (db', Ok (Z.of_nat (size (rows_contents db) - size (filter (unexpired now) (rows_contents db))))) /\
    rows_ok db' /\ rows_contents db' = filter (unexpired now) (rows_contents db).
Proof.
  intros Hok. cbn.
  assert (Hc : rows_contents (filter (fun p => ~ expired_row now p.2) db) = filter (unexpired now) (rows_contents db)).
  { unfold rows_contents. rewrite map_filter_fmap. f_equal. apply map_filter_ext. intros id row _.
    simpl. by rewrite unexpired_row. }
  eexists. split; [|split; [|exact Hc]].
  - f_equal. f_equal. f_equal. rewrite <- Hc. unfold rows_contents. rewrite !map_size_fmap.
    pose proof (map_filter_union_complement (fun p => expired_row now p.2) db) as Hu.
    apply (f_equal size) in Hu. rewrite map_size_disj_union in Hu by apply map_disjoint_filter_complement.
    lia.
  - unfold rows_ok. rewrite Hc. by apply well_kept_filter.
Qed.

#[export] Instance database_lawful : LawfulKeyRepository Rows.
Proof.
  refine {| repo_ok := rows_ok; contents := rows_contents |}.
  - done.
  - intros db id k (x & _ & <-)%rows_contents_some. apply settled_idem.
  - intros now k db Hok Hid Hh _. by apply database_create_ok.
  - intros now id db Hok. cbn. eexists. split; [reflexivity|]. unfold rows_contents. rewrite lookup_fmap.
    split; [|intros k; destruct (db !! id) as [row|]; simpl; intros [= <-]; apply honest_from_domain].
    destruct (db !! id) as [row|]; [|done]. simpl. by rewrite settled_from_domain.
  - intros now h db Hok. cbn. eexists. split; [reflexivity|]. destruct (row_with_hash h db) as [row|] eqn:E; simpl.
    + destruct (row_with_hash_some db h row Hok E) as [Hh Hrow]. split; [exact Hh|].
      split; [|apply honest_from_domain]. apply rows_contents_some. exists row. by rewrite settled_from_domain.
    + intros id k (row & Hrow & <-)%rows_contents_some. by apply (proj1 (row_with_hash_none db h) E id).
  - intros now id c db k. apply database_update_ok.
  - intros now id db k Hok Hk. cbn [repo_update_status database_repository database_update_status].
    eapply run_update_row; [done..| |done|done]. intros row _ <-. apply row_view_inactive.
  - intros now id db Hok. cbn [repo_update_last_used database_repository].
    destruct (rows_contents db !! id) as [k|] eqn:Hk.
    + destruct (run_update_row id now (fun _ row => set_last_used now row) db k k) as (db' & Hr & Hok' & Hc); try done.
      exists db', (Ok tt). rewrite insert_id in Hc by done. auto 6.
    + eexists _, _. split; [by apply run_update_absent|]. split; [done|]. split; [done|].
      split; [by intros []|by right].
  - intros now id r db Hok. cbn [repo_update_usage database_repository].
    destruct (rows_contents db !! id) as [k|] eqn:Hk.
    + destruct (run_update_row id now (fun model row =>
          set_usage (add_usage (use_requests r) (use_tokens r) (use_cost r) (use_unpriced r) now
                       (usage_stats model)) row) db k (with_usage_of now r k)) as (db' & Hr & Hok' & Hc);
        [done|done| |done|done|].
      * intros row _ <-. apply (row_view_usage now r).
      * exists db', (Ok tt). split; [exact Hr|]. split; [done|]. split; [|by auto]. rewrite Hc.
        apply map_eq. intros i. destruct (decide (id = i)) as [<-|Hne].
        -- by rewrite lookup_insert_eq, lookup_alter_eq, Hk.
        -- by rewrite lookup_insert_ne, lookup_alter_ne.
    + eexists _, _. split; [by apply run_update_absent|]. split; [done|].
      split; [|split; [by intros []|by right]]. symmetry. apply alter_id. intros x Hx. congruence.
  - intros now id db Hok [k Hk]. pose proof Hk as (row & Hrow & _)%rows_contents_some. cbn. rewrite Hrow. cbn.
    eexists. split; [done|]. unfold rows_ok, rows_contents. rewrite fmap_delete.
    split; [|done]. by apply well_kept_delete.
  - intros now db Hok. apply database_delete_expired_ok, Hok.
Defined.
End Database.
