(* ===== verification/KeyManager.v ===== *)
(** The manager of API keys ([core/keys/manager.rs]) over the interface of a
    repository ([KeyRepository]).

    An operation reads each clock once: [now] is the time of day and [instant]
    the monotonic clock.  Writes that the manager spawns are kept in [pending]
    until they run ([Settle]); they run in any order, whoever waits for them. *)

From S2P Require Import Prelude ProviderErrors GatewayErrors Principals Authentication KeyStore.
From S2P Require Import KeyRecords KeyRepository.

Module Manager.
Definition LAST_USED_THROTTLE : Z := from_secs (5 * 60).
Definition LAST_USED_CACHE_MAX_ENTRIES : Z := 10000.
Definition MAX_USAGE_WRITES : Z := 1024.

(** * The throttle of last-used writes *)

Definition oldest_entry (cache : gmap string Z) : option string :=
  match map_to_list cache with
  | [] => None
  | e :: es => Some (foldl (fun best p => if p.2 <? best.2 then p else best) e es).1
  end.

(** The loop that makes room; it ends because the cache gets smaller. *)
Fixpoint make_room (fuel : nat) (cache : gmap string Z) : gmap string Z :=
  match fuel with
  | O => cache
  | S fuel =>
      if LAST_USED_CACHE_MAX_ENTRIES <=? Z.of_nat (size cache) then
        match oldest_entry cache with
        | None => cache
        | Some id => make_room fuel (delete id cache)
        end
      else cache
  end.

Definition prune_last_used_cache (instant : Z) (cache : gmap string Z) : gmap string Z :=
  let kept := filter (fun p => sat_sub instant p.2 < LAST_USED_THROTTLE) cache in make_room (size kept) kept.

(** * Operations *)

Inductive Write :=
| WriteLastUsed (id : string)
| WriteUsage (id : string) (record : UsageRecord).

Definition is_usage (w : Write) : bool := match w with WriteUsage _ _ => true | _ => false end.

Record KeyManager (S : Type) := mkManager {
  repository : S;
  last_used_cache : gmap string Z;
  pending : list Write;
}.
Arguments mkManager {S} _ _ _.
Arguments repository {S} _.
Arguments last_used_cache {S} _.
Arguments pending {S} _.

Section Manager.
Context `{JsonValues} {S : Type} `{!KeyRepository S}.
Context (sha256_hex : string -> string) (hmac_sha256_hex : string -> string -> string).
Context (hmac_secret : option string).

Definition new_manager (repo : S) : KeyManager S := mkManager repo ∅ [].

Definition with_repository (m : KeyManager S) (repo : S) : KeyManager S :=
  mkManager repo (last_used_cache m) (pending m).

Definition validate_create_config (now : Z) (config : CreateKeyConfig) : result unit GatewayError :=
  if String.eqb (cfg_name config) "" then Err (GValidation "Key name cannot be empty")
  else if 255 <? Z.of_nat (String.length (cfg_name config))
  then Err (GValidation "Key name cannot exceed 255 characters")
  else if (match cfg_description config with
           | Some d => 1000 <? Z.of_nat (String.length d)
           | None => false
           end)
  then Err (GValidation "Key description cannot exceed 1000 characters")
  else if (match cfg_expires_at config with Some t => t <=? now | None => false end)
  then Err (GValidation "Expiration date must be in the future")
  else Ok tt.

(** The key stored for a configuration; [id] and [raw_key] are fresh. *)
Definition managed_key (config : CreateKeyConfig) (id raw_key : string) (now : Z) : ManagedApiKey :=
  mkManaged id (hash_api_key sha256_hex hmac_sha256_hex raw_key hmac_secret)
    (extract_api_key_prefix raw_key) (cfg_name config) (cfg_description config) (cfg_user_id config)
    (cfg_team_id config) (cfg_budget_id config) (cfg_permissions config) (cfg_rate_limits config)
    KeyActive (cfg_expires_at config) now now None (usage_new now) (cfg_metadata config).

Definition generate_key (config : CreateKeyConfig) (id raw_key : string) (now : Z) (repo : S)
    : S * result (string * string) GatewayError :=
  match validate_create_config now config with
  | Err e => (repo, Err e)
  | Ok _ =>
      match repo_create now (managed_key config id raw_key now) repo with
      | (repo, Err e) => (repo, Err e)
      | (repo, Ok _) => (repo, Ok (id, raw_key))
      end
  end.

Definition validate_key_without_usage_update (raw_key : string) (now : Z) (repo : S)
    : S * result VerifyKeyResult GatewayError :=
  match repo_find_by_hash now (hash_api_key sha256_hex hmac_sha256_hex raw_key hmac_secret) repo with
  | (repo, Err e) => (repo, Err e)
  | (repo, Ok None) => (repo, Ok (mkVerify false None (Some "API key not found")))
  | (repo, Ok (Some key)) =>
      (repo, Ok (
        if bool_decide (mk_status key = KeyRevoked)
        then mkVerify false (Some (key_info now key)) (Some "API key has been revoked")
        else if expired_at now (mk_expires_at key)
        then mkVerify false (Some (key_info now key)) (Some "API key has expired")
        else mkVerify true (Some (key_info now key)) None))
  end.

Definition record_validated_key_usage (instant : Z) (r : VerifyKeyResult) (m : KeyManager S)
    : KeyManager S :=
  if negb (verify_valid r) then m
  else
    match info_id <$> verify_key_info r with
    | None => m
    | Some id =>
        let cache := prune_last_used_cache instant (last_used_cache m) in
        let should_update :=
          match cache !! id with
          | Some last => LAST_USED_THROTTLE <=? sat_sub instant last
          | None => true
          end in
        if should_update
        then mkManager (repository m) (<[id := instant]> cache) (pending m ++ [WriteLastUsed id])
        else mkManager (repository m) cache (pending m)
    end.

Definition validate_key (raw_key : string) (now instant : Z) (m : KeyManager S)
    : KeyManager S * result VerifyKeyResult GatewayError :=
  match validate_key_without_usage_update raw_key now (repository m) with
  | (repo, Err e) => (with_repository m repo, Err e)
  | (repo, Ok r) => (record_validated_key_usage instant r (with_repository m repo), Ok r)
  end.

(** [find_by_id(..).await?.ok_or_else(..)?], and what follows. *)
Definition existing {A} (id : string) (now : Z) (repo : S)
    (next : ManagedApiKey -> S -> S * result A GatewayError) : S * result A GatewayError :=
  match repo_find_by_id now id repo with
  | (repo, Err e) => (repo, Err e)
  | (repo, Ok None) => (repo, Err not_found)
  | (repo, Ok (Some key)) => next key repo
  end.

Definition revoke_key (id : string) (now : Z) (repo : S) : S * result unit GatewayError :=
  existing id now repo (fun key repo =>
    if bool_decide (mk_status key = KeyRevoked)
    then (repo, Err (GConflict "API key is already revoked"))
    else repo_update_status now id KeyRevoked repo).

Definition rotated_config (old : ManagedApiKey) : CreateKeyConfig :=
  mkCreateConfig (mk_name old +:+ " (rotated)") (mk_description old) (mk_user_id old) (mk_team_id old)
    (mk_budget_id old) (mk_permissions old) (mk_rate_limits old) (mk_expires_at old) (mk_metadata old).

Definition rotate_key (id new_id new_raw_key : string) (now : Z) (repo : S)
    : S * result (string * string) GatewayError :=
  existing id now repo (fun old repo =>
    if bool_decide (mk_status old = KeyRevoked)
    then (repo, Err (GConflict "Cannot rotate a revoked key"))
    else
      match generate_key (rotated_config old) new_id new_raw_key now repo with
      | (repo, Err e) => (repo, Err e)
      | (repo, Ok fresh) =>
          match repo_update_status now id KeyRevoked repo with
          | (repo, Err e) => (repo, Err e)
          | (repo, Ok _) => (repo, Ok fresh)
          end
      end).

Definition update_key (id : string) (config : UpdateKeyConfig Json) (now : Z) (repo : S)
    : S * result KeyInfo GatewayError :=
  existing id now repo (fun old repo =>
    if bool_decide (mk_status old = KeyRevoked)
    then (repo, Err (GConflict "Cannot update a revoked key"))
    else
      match repo_update now id config repo with
      | (repo, Err e) => (repo, Err e)
      | (repo, Ok updated) => (repo, Ok (key_info now updated))
      end).

Definition get_key (id : string) (now : Z) (repo : S) : S * result (option KeyInfo) GatewayError :=
  match repo_find_by_id now id repo with
  | (repo, Err e) => (repo, Err e)
  | (repo, Ok key) => (repo, Ok (key_info now <$> key))
  end.

Definition get_usage_stats (id : string) (now : Z) (repo : S) : S * result UsageStats GatewayError :=
  existing id now repo (fun key repo => (repo, Ok (mk_usage key))).

(** [record_usage_record], up to the point where it waits: a slot is taken and
    the write is spawned.  The slot is free again when the write has run. *)
Definition record_usage_record (id : string) (record : UsageRecord) (m : KeyManager S)
    : KeyManager S * result unit GatewayError :=
  if MAX_USAGE_WRITES <=? Z.of_nat (length (List.filter is_usage (pending m)))
  then (m, Err (GUnavailable "Key usage write capacity exhausted"))
  else (mkManager (repository m) (last_used_cache m) (pending m ++ [WriteUsage id record]), Ok tt).

Definition delete_key (id : string) (now : Z) (repo : S) : S * result unit GatewayError :=
  existing id now repo (fun _ repo => repo_delete now id repo).

Definition cleanup_expired_keys (now : Z) (repo : S) : S * result Z GatewayError :=
  repo_delete_expired now repo.

(** A spawned write. *)
Definition run_write (w : Write) (now : Z) (repo : S) : S * result unit GatewayError :=
  match w with
  | WriteLastUsed id => repo_update_last_used now id repo
  | WriteUsage id record => repo_update_usage now id record repo
  end.

(** * Runs *)

Inductive ManagerOp :=
| Generate (config : CreateKeyConfig) (id raw_key : string)
| Validate (raw_key : string)
| Revoke (id : string)
| Rotate (id new_id new_raw_key : string)
| Change (id : string) (config : UpdateKeyConfig Json)
| GetKey (id : string)
| GetUsage (id : string)
| RecordUsage (id : string) (record : UsageRecord)
| Delete (id : string)
| Cleanup
| Settle (n : nat).

Inductive ManagerAnswer :=
| AnswerKey (r : result (string * string) GatewayError)
| AnswerVerify (r : result VerifyKeyResult GatewayError)
| AnswerUnit (r : result unit GatewayError)
| AnswerInfo (r : result KeyInfo GatewayError)
| AnswerFound (r : result (option KeyInfo) GatewayError)
| AnswerUsage (r : result UsageStats GatewayError)
| AnswerCount (r : result Z GatewayError)
| AnswerWrite (r : result unit GatewayError)
| AnswerNothing.

(** An operation of the repository, from the manager. *)
Definition on_repository {A} (m : KeyManager S) (answer : A -> ManagerAnswer) (r : S * A)
    : KeyManager S * ManagerAnswer := (with_repository m (fst r), answer (snd r)).

Definition perform (now instant : Z) (op : ManagerOp) (m : KeyManager S) : KeyManager S * ManagerAnswer :=
  match op with
  | Generate config id raw_key => on_repository m AnswerKey (generate_key config id raw_key now (repository m))
  | Validate raw_key => let '(m, r) := validate_key raw_key now instant m in (m, AnswerVerify r)
  | Revoke id => on_repository m AnswerUnit (revoke_key id now (repository m))
  | Rotate id new_id raw => on_repository m AnswerKey (rotate_key id new_id raw now (repository m))
  | Change id config => on_repository m AnswerInfo (update_key id config now (repository m))
  | GetKey id => on_repository m AnswerFound (get_key id now (repository m))
  | GetUsage id => on_repository m AnswerUsage (get_usage_stats id now (repository m))
  | RecordUsage id record => let '(m, r) := record_usage_record id record m in (m, AnswerUnit r)
  | Delete id => on_repository m AnswerUnit (delete_key id now (repository m))
  | Cleanup => on_repository m AnswerCount (cleanup_expired_keys now (repository m))
  | Settle n =>
      match pending m !! n with
      | None => (m, AnswerNothing)
      | Some w =>
          on_repository (mkManager (repository m) (last_used_cache m) (delete n (pending m)))
            AnswerWrite (run_write w now (repository m))
      end
  end.

(** A moment: the two clocks and what is done. *)
Record Moment := mkMoment { at_now : Z; at_instant : Z; at_op : ManagerOp }.

Fixpoint perform_all (ms : list Moment) (m : KeyManager S) : KeyManager S * list ManagerAnswer :=
  match ms with
  | [] => (m, [])
  | e :: ms =>
      let '(m, a) := perform (at_now e) (at_instant e) (at_op e) m in
      let '(m, rest) := perform_all ms m in (m, a :: rest)
  end.

(** * What the manager keeps is bounded *)

Definition usage_writes (m : KeyManager S) : Z := Z.of_nat (length (List.filter is_usage (pending m))).

Record bounded (m : KeyManager S) : Prop := {
  bounded_cache : Z.of_nat (size (last_used_cache m)) <= LAST_USED_CACHE_MAX_ENTRIES;
  bounded_writes : usage_writes m <= MAX_USAGE_WRITES;
}.

Lemma oldest_entry_in (cache : gmap string Z) :
  match oldest_entry cache with
  | None => size cache = O
  | Some id => is_Some (cache !! id)
  end.
Proof.
  unfold oldest_entry. rewrite <- length_map_to_list. destruct (map_to_list cache) as [|e es] eqn:E; [done|].
  assert (Hin : foldl (fun best p : string * Z => if p.2 <? best.2 then p else best) e es ∈ e :: es).
  { clear E. revert e. induction es as [|x es IH]; intros e; simpl; [by left|].
    destruct (x.2 <? e.2); [right; apply IH|].
    specialize (IH e). rewrite elem_of_cons in IH |- *. destruct IH as [->|]; [by left|right; by right]. }
  rewrite <- E in Hin. destruct (foldl _ e es) as [id t]. apply elem_of_map_to_list in Hin. simpl. eauto.
Qed.

Lemma make_room_size (fuel : nat) (cache : gmap string Z) :
  (size cache <= fuel)%nat -> Z.of_nat (size (make_room fuel cache)) < LAST_USED_CACHE_MAX_ENTRIES.
Proof.
  revert cache. induction fuel as [|fuel IH]; intros cache Hfuel; cbn [make_room];
    [unfold LAST_USED_CACHE_MAX_ENTRIES; lia|].
  destruct (Z.leb_spec LAST_USED_CACHE_MAX_ENTRIES (Z.of_nat (size cache))) as [Hle|]; [|done].
  pose proof (oldest_entry_in cache) as Ho. destruct (oldest_entry cache) as [id|].
  - apply IH. rewrite map_size_delete_Some by done. lia.
  - rewrite Ho in Hle. unfold LAST_USED_CACHE_MAX_ENTRIES in Hle. lia.
Qed.

Lemma prune_size (instant : Z) (cache : gmap string Z) :
  Z.of_nat (size (prune_last_used_cache instant cache)) < LAST_USED_CACHE_MAX_ENTRIES.
Proof. by apply make_room_size. Qed.

Lemma usage_app (l : list Write) (w : Write) :
  length (List.filter is_usage (l ++ [w])) =
  (length (List.filter is_usage l) + if is_usage w then 1 else 0)%nat.
Proof. rewrite List.filter_app, length_app. simpl. by destruct (is_usage w). Qed.

Lemma usage_delete (n : nat) (l : list Write) :
  (length (List.filter is_usage (delete n l)) <= length (List.filter is_usage l))%nat.
Proof.
  revert n. induction l as [|w l IH]; intros [|n]; simpl; [done..| |].
  - destruct (is_usage w); simpl; lia.
  - specialize (IH n). change (list_delete n l) with (delete n l). destruct (is_usage w); simpl; lia.
Qed.

Lemma record_validated_bounded (instant : Z) (r : VerifyKeyResult) (m : KeyManager S) :
  bounded m -> bounded (record_validated_key_usage instant r m).
Proof.
  intros [Hc Hw]. unfold record_validated_key_usage. destruct (negb _); [done|].
  destruct (info_id <$> _) as [id|]; [|done].
  pose proof (prune_size instant (last_used_cache m)) as Hp.
  set (cache := prune_last_used_cache instant (last_used_cache m)) in *. clearbody cache.
  destruct (match cache !! id with Some last => _ | None => _ end); split; simpl.
  - rewrite map_size_insert. destruct (cache !! id); simpl; lia.
  - unfold usage_writes in *; simpl. rewrite usage_app. simpl. lia.
  - lia.
  - exact Hw.
Qed.

Lemma perform_bounded (now instant : Z) (op : ManagerOp) (m : KeyManager S) :
  bounded m -> bounded (fst (perform now instant op m)).
Proof.
  intros Hb. pose proof Hb as [Hc Hw]. destruct op; cbn [perform on_repository fst]; try by split.
  - unfold validate_key. destruct (validate_key_without_usage_update raw_key now (repository m)) as [t [v|e]];
      [apply record_validated_bounded|]; by split.
  - unfold record_usage_record. destruct (Z.leb_spec MAX_USAGE_WRITES (usage_writes m)) as [|Hlt].
    + unfold usage_writes in *. rewrite (proj2 (Z.leb_le _ _)); done.
    + unfold usage_writes in *. rewrite (proj2 (Z.leb_gt _ _)) by done. split; [done|].
      unfold usage_writes; simpl. rewrite usage_app. simpl. lia.
  - destruct (pending m !! n); [|done]. split; [done|]. unfold usage_writes in *; simpl.
    pose proof (usage_delete n (pending m)). lia.
Qed.

(** C1: What the manager keeps is bounded.  However it is used, and however long
    its spawned writes take, it remembers the last use of at most 10,000 keys and
    has at most 1,024 usage writes under way, those whose waiter is gone
    included. *)
Theorem manager_bounded (ms : list Moment) (repo : S) :
  let m := fst (perform_all ms (new_manager repo)) in
  Z.of_nat (size (last_used_cache m)) <= 10000 /\
  Z.of_nat (length (List.filter is_usage (pending m))) <= 1024.
Proof.
  cut (forall m, bounded m -> bounded (fst (perform_all ms m))).
  { intros Hall. by destruct (Hall (new_manager repo)) as [Hc Hw]. }
  induction ms as [|e ms IH]; intros m Hm; cbn [perform_all]; [done|].
  pose proof (perform_bounded (at_now e) (at_instant e) (at_op e) m Hm) as H1.
  destruct (perform _ _ (at_op e) m) as [m1 a]. specialize (IH m1 H1).
  by destruct (perform_all ms m1).
Qed.
End Manager.
End Manager.
