(* ===== verification/KeyGuarantees.v ===== *)
(** What the manager of keys guarantees over every repository that keeps the
    promise of [KeyContents]: repositories cannot be told apart, keys are valid
    exactly as their record says, and a revoked key stays revoked. *)

From S2P Require Import Prelude Float64 ProviderErrors GatewayErrors Principals Authentication.
From S2P Require Import KeyStore KeyRecords KeyRepository KeyContents KeyMemory KeyRows KeyManager.
Import Manager.

(** * Two repositories with the same contents *)

Section Alike.
Context `{JsonValues} {S1 S2 : Type} `{!KeyRepository S1, !KeyRepository S2}
  `{!LawfulKeyRepository S1, !LawfulKeyRepository S2}.

Definition alike (s1 : S1) (s2 : S2) : Prop := repo_ok s1 /\ repo_ok s2 /\ contents s1 = contents s2.

(** The same outcome, up to [R] on results. *)
Definition same_outcome {A} (R : A -> A -> Prop) (p : S1 * result A GatewayError)
    (q : S2 * result A GatewayError) : Prop :=
  alike (fst p) (fst q) /\
  match snd p, snd q with
  | Ok a, Ok b => R a b
  | Err e, Err e' => e = e'
  | _, _ => False
  end.

Definition same_key (now : Z) (k k' : ManagedApiKey) : Prop :=
  settled k = settled k' /\ honest now k /\ honest now k'.

Definition fresh_key (c : gmap string ManagedApiKey) (id hash : string) : Prop :=
  c !! id = None /\ forall i k, c !! i = Some k -> mk_hash k <> hash.

Lemma alike_create (now : Z) (k : ManagedApiKey) (s1 : S1) (s2 : S2) :
  alike s1 s2 -> fresh_key (contents s1) (mk_id k) (mk_hash k) -> mk_status k = KeyActive ->
  same_outcome (fun _ _ => True) (repo_create now k s1) (repo_create now k s2).
Proof.
  intros (H1 & H2 & E) [Hid Hh] Hs.
  destruct (law_create now k s1 H1 Hid Hh Hs) as (s1' & k1 & -> & Hok1 & Hc1). rewrite E in Hid, Hh.
  destruct (law_create now k s2 H2 Hid Hh Hs) as (s2' & k2 & -> & Hok2 & Hc2).
  split; [|done]. split; [done|]. split; [done|]. simpl. by rewrite Hc1, Hc2, E.
Qed.

Lemma alike_find_by_id (now : Z) (id : string) (s1 : S1) (s2 : S2) :
  alike s1 s2 ->
  same_outcome (option_Forall2 (same_key now)) (repo_find_by_id now id s1) (repo_find_by_id now id s2).
Proof.
  intros Hs; pose proof Hs as (H1 & H2 & E).
  destruct (law_find_by_id now id s1 H1) as (r1 & -> & E1 & Hh1).
  destruct (law_find_by_id now id s2 H2) as (r2 & -> & E2 & Hh2).
  split; [done|]. simpl. rewrite E, <- E2 in E1.
  destruct r1 as [k1|], r2 as [k2|]; simpl in E1; try discriminate; constructor.
  apply (inj Some) in E1. split; [exact E1|]. split; [by apply Hh1|by apply Hh2].
Qed.

Lemma alike_find_by_hash (now : Z) (h : string) (s1 : S1) (s2 : S2) :
  alike s1 s2 ->
  same_outcome (option_Forall2 (same_key now)) (repo_find_by_hash now h s1) (repo_find_by_hash now h s2).
Proof.
  intros Hs; pose proof Hs as (H1 & H2 & E).
  destruct (law_find_by_hash now h s1 H1) as (r1 & -> & F1).
  destruct (law_find_by_hash now h s2 H2) as (r2 & -> & F2).
  split; [done|]. simpl. rewrite E in F1.
  destruct r1 as [k1|], r2 as [k2|]; [|destruct F1 as (Hk & Hin & _); by destruct (F2 _ _ Hin)
                                      |destruct F2 as (Hk & Hin & _); by destruct (F1 _ _ Hin)|constructor].
  constructor. destruct F1 as (Eh1 & Hin1 & Ho1), F2 as (Eh2 & Hin2 & Ho2).
  split; [|done]. rewrite <- E in Hin1. pose proof (ok_kept s1 H1) as [_ Hinj]. rewrite E in *.
  assert (Hid : mk_id k1 = mk_id k2) by (apply (Hinj _ _ _ _ Hin1 Hin2); simpl; congruence).
  rewrite Hid, Hin2 in Hin1. by apply (inj Some) in Hin1.
Qed.

Lemma alike_update (now : Z) (id : string) (c : UpdateKeyConfig Json) (s1 : S1) (s2 : S2) :
  alike s1 s2 -> is_Some (contents s1 !! id) ->
  same_outcome (same_key now) (repo_update now id c s1) (repo_update now id c s2).
Proof.
  intros (H1 & H2 & E) [k Hk]. pose proof Hk as Hk2. rewrite E in Hk2.
  destruct (law_update now id c s1 k H1 Hk) as (s1' & k1 & -> & Hok1 & Ek1 & Ho1 & Hc1).
  destruct (law_update now id c s2 k H2 Hk2) as (s2' & k2 & -> & Hok2 & Ek2 & Ho2 & Hc2).
  split; [split; [done|split; [done|]]; simpl; by rewrite Hc1, Hc2, E|].
  split; [by rewrite Ek1, Ek2|done].
Qed.

Lemma alike_revoke (now : Z) (id : string) (s1 : S1) (s2 : S2) :
  alike s1 s2 -> is_Some (contents s1 !! id) ->
  same_outcome eq (repo_update_status now id KeyRevoked s1) (repo_update_status now id KeyRevoked s2).
Proof.
  intros (H1 & H2 & E) [k Hk]. pose proof Hk as Hk2. rewrite E in Hk2.
  destruct (law_revoke now id s1 k H1 Hk) as (s1' & -> & Hok1 & Hc1).
  destruct (law_revoke now id s2 k H2 Hk2) as (s2' & -> & Hok2 & Hc2).
  split; [|done]. split; [done|split; [done|]]. simpl. by rewrite Hc1, Hc2, E.
Qed.

Lemma alike_delete (now : Z) (id : string) (s1 : S1) (s2 : S2) :
  alike s1 s2 -> is_Some (contents s1 !! id) ->
  same_outcome eq (repo_delete now id s1) (repo_delete now id s2).
Proof.
  intros (H1 & H2 & E) Hk. pose proof Hk as Hk2. rewrite E in Hk2.
  destruct (law_delete now id s1 H1 Hk) as (s1' & -> & Hok1 & Hc1).
  destruct (law_delete now id s2 H2 Hk2) as (s2' & -> & Hok2 & Hc2).
  split; [|done]. split; [done|split; [done|]]. simpl. by rewrite Hc1, Hc2, E.
Qed.

Lemma alike_delete_expired (now : Z) (s1 : S1) (s2 : S2) :
  alike s1 s2 -> same_outcome eq (repo_delete_expired now s1) (repo_delete_expired now s2).
Proof.
  intros Hs; pose proof Hs as (H1 & H2 & E).
  destruct (law_delete_expired now s1 H1) as (s1' & -> & Hok1 & Hc1).
  destruct (law_delete_expired now s2 H2) as (s2' & -> & Hok2 & Hc2).
  split; [split; [done|split; [done|]]; simpl; by rewrite Hc1, Hc2, E|]. simpl. by rewrite E.
Qed.

(** * The operations of the manager *)

Variable sha256_hex : string -> string.
Variable hmac_sha256_hex : string -> string -> string.
Variable hmac_secret : option string.
Abbreviation key_hash_of raw := (hash_api_key sha256_hex hmac_sha256_hex raw hmac_secret).

Definition settled_verify (v : VerifyKeyResult) : VerifyKeyResult :=
  mkVerify (verify_valid v) (settled_info <$> verify_key_info v) (verify_reason v).

(** What two answers have in common that the contents determine.  A spawned write
    to a key that is gone is an error of one repository and none of the other. *)
Definition settled_answer (a : ManagerAnswer) : ManagerAnswer :=
  match a with
  | AnswerVerify (Ok v) => AnswerVerify (Ok (settled_verify v))
  | AnswerInfo (Ok i) => AnswerInfo (Ok (settled_info i))
  | AnswerFound (Ok i) => AnswerFound (Ok (settled_info <$> i))
  | AnswerUsage (Ok u) => AnswerUsage (Ok (settled_usage u))
  | AnswerWrite (Err (GNotFound _)) => AnswerWrite (Ok tt)
  | a => a
  end.

Definition created (op : ManagerOp) : list (string * string) :=
  match op with
  | Generate _ id raw | Rotate _ id raw => [(id, key_hash_of raw)]
  | _ => []
  end.

Lemma same_key_info (now : Z) (k k' : ManagedApiKey) :
  same_key now k k' -> settled_info (key_info now k) = settled_info (key_info now k').
Proof. intros (E & Ho & Ho'). by apply settled_key_info. Qed.

(** Steps of an outcome: the same error ends both, the same result goes on. *)
Lemma same_outcome_bind {A B} (R : A -> A -> Prop) (Q : B -> B -> Prop)
    (p : S1 * result A GatewayError) (q : S2 * result A GatewayError)
    (f : A -> S1 -> S1 * result B GatewayError) (g : A -> S2 -> S2 * result B GatewayError) :
  same_outcome R p q ->
  (forall a b s1 s2, p = (s1, Ok a) -> alike s1 s2 -> R a b -> same_outcome Q (f a s1) (g b s2)) ->
  same_outcome Q (match p with (s, Err e) => (s, Err e) | (s, Ok a) => f a s end)
    (match q with (s, Err e) => (s, Err e) | (s, Ok a) => g a s end).
Proof.
  destruct p as [s1 [a|e]], q as [s2 [b|e']]; intros [Ha Hr] Hnext; simpl in *; [by apply Hnext|done..|by split].
Qed.

Lemma alike_generate (config : CreateKeyConfig) (id raw : string) (now : Z) (s1 : S1) (s2 : S2) :
  alike s1 s2 -> fresh_key (contents s1) id (key_hash_of raw) ->
  same_outcome eq (generate_key sha256_hex hmac_sha256_hex hmac_secret config id raw now s1)
    (generate_key sha256_hex hmac_sha256_hex hmac_secret config id raw now s2).
Proof.
  intros Ha Hf. unfold generate_key. destruct (validate_create_config now config); [|by split].
  apply (same_outcome_bind (fun _ _ => True)); [by apply alike_create|]. intros _ _ t1 t2 _ Ht _. by split.
Qed.

Lemma alike_existing {A} (Q : A -> A -> Prop) (id : string) (now : Z) (s1 : S1) (s2 : S2) f g :
  alike s1 s2 ->
  (forall k k' : ManagedApiKey, is_Some (contents s1 !! id) -> same_key now k k' ->
    same_outcome Q (f k s1) (g k' s2)) ->
  same_outcome Q (existing id now s1 f) (existing id now s2 g).
Proof.
  intros Ha Hnext. unfold existing. pose proof Ha as (H1 & H2 & E).
  destruct (law_find_by_id now id s1 H1) as (r1 & E1 & F1 & _).
  destruct (law_find_by_id now id s2 H2) as (r2 & E2 & F2 & _).
  pose proof (alike_find_by_id now id s1 s2 Ha) as [_ Hr]. rewrite E1, E2 in *. simpl in Hr.
  destruct Hr as [k k' Hk|]; [|by split].
  apply Hnext; [|done]. rewrite <- F1. eauto.
Qed.

Lemma alike_validate (raw : string) (now : Z) (s1 : S1) (s2 : S2) :
  alike s1 s2 ->
  same_outcome (fun v w => settled_verify v = settled_verify w)
    (validate_key_without_usage_update sha256_hex hmac_sha256_hex hmac_secret raw now s1)
    (validate_key_without_usage_update sha256_hex hmac_sha256_hex hmac_secret raw now s2).
Proof.
  intros Ha. unfold validate_key_without_usage_update.
  pose proof (alike_find_by_hash now (key_hash_of raw) s1 s2 Ha) as [Hs Hr].
  destruct (repo_find_by_hash now _ s1) as [t1 [r1|e1]], (repo_find_by_hash now _ s2) as [t2 [r2|e2]];
    simpl in Hs, Hr; try done.
  destruct Hr as [k k' Hk|]; [|by split]. split; [done|]. simpl.
  pose proof (same_key_info now k k' Hk) as Hi. destruct Hk as (Ek & _).
  rewrite (settled_revoked k k' Ek). destruct (settled_fields k k' Ek) as (_ & _ & ->).
  destruct (bool_decide _); [|destruct (expired_at _ _)]; unfold settled_verify; simpl; by rewrite Hi.
Qed.

Lemma alike_revoke_key (id : string) (now : Z) (s1 : S1) (s2 : S2) :
  alike s1 s2 -> same_outcome eq (revoke_key id now s1) (revoke_key id now s2).
Proof.
  intros Ha. apply alike_existing; [done|]. intros k k' Hin (Ek & _). rewrite (settled_revoked k k' Ek).
  destruct (bool_decide _); [by split|by apply alike_revoke].
Qed.

(** A new key leaves the others where they are. *)
Lemma generate_keeps (config : CreateKeyConfig) (id raw : string) (now : Z) (s t : S1) x :
  repo_ok s -> fresh_key (contents s) id (key_hash_of raw) ->
  generate_key sha256_hex hmac_sha256_hex hmac_secret config id raw now s = (t, Ok x) ->
  x = (id, raw) /\ repo_ok t /\
  contents t = <[id := settled (managed_key sha256_hex hmac_sha256_hex hmac_secret config id raw now)]> (contents s).
Proof.
  unfold generate_key. intros Hok [Hid Hh]. destruct (validate_create_config now config); [|done].
  edestruct (law_create now (managed_key sha256_hex hmac_sha256_hex hmac_secret config id raw now) s)
    as (s' & k' & -> & Hok' & Hc); [done..|]. intros [= <- <-]. done.
Qed.

Lemma alike_rotate (id new_id raw : string) (now : Z) (s1 : S1) (s2 : S2) :
  alike s1 s2 -> fresh_key (contents s1) new_id (key_hash_of raw) ->
  same_outcome eq (rotate_key sha256_hex hmac_sha256_hex hmac_secret id new_id raw now s1)
    (rotate_key sha256_hex hmac_sha256_hex hmac_secret id new_id raw now s2).
Proof.
  intros Ha Hf. apply alike_existing; [done|]. intros k k' Hin (Ek & _). rewrite (settled_revoked k k' Ek).
  destruct (bool_decide _); [by split|].
  assert (rotated_config k = rotated_config k') as -> by (unfold rotated_config; injection Ek; intros; congruence).
  eapply same_outcome_bind; [by apply alike_generate|]. intros a b t1 t2 Hg Ht <-.
  apply generate_keeps in Hg as (_ & _ & Hc); [|by destruct Ha|done].
  eapply same_outcome_bind; [apply alike_revoke; [done|]|].
  - rewrite Hc. apply lookup_insert_is_Some'. by right.
  - intros [] _ u1 u2 _ Hu _. by split.
Qed.

Lemma alike_update_key (id : string) (c : UpdateKeyConfig Json) (now : Z) (s1 : S1) (s2 : S2) :
  alike s1 s2 ->
  same_outcome (fun i j => settled_info i = settled_info j) (update_key id c now s1) (update_key id c now s2).
Proof.
  intros Ha. apply alike_existing; [done|]. intros k k' Hin (Ek & _). rewrite (settled_revoked k k' Ek).
  destruct (bool_decide _); [by split|].
  eapply same_outcome_bind; [by apply alike_update|]. intros a b t1 t2 _ Ht Hab. split; [done|]. by apply same_key_info.
Qed.

Lemma alike_get_key (id : string) (now : Z) (s1 : S1) (s2 : S2) :
  alike s1 s2 ->
  same_outcome (fun i j => settled_info <$> i = settled_info <$> j) (get_key id now s1) (get_key id now s2).
Proof.
  intros Ha. eapply same_outcome_bind; [by apply alike_find_by_id|]. intros a b t1 t2 _ Ht Hab. split; [done|].
  simpl. destruct Hab as [k k' Hk|]; [|done]. simpl. f_equal. by apply same_key_info.
Qed.

(** * The manager *)

Definition managers_alike (m1 : KeyManager S1) (m2 : KeyManager S2) : Prop :=
  alike (repository m1) (repository m2) /\ last_used_cache m1 = last_used_cache m2 /\
  pending m1 = pending m2.

Definition same_step (p : KeyManager S1 * ManagerAnswer) (q : KeyManager S2 * ManagerAnswer) : Prop :=
  managers_alike (fst p) (fst q) /\ settled_answer (snd p) = settled_answer (snd q).

Lemma on_repository_alike {A} (R : A -> A -> Prop) answer (m1 : KeyManager S1) (m2 : KeyManager S2) p q :
  managers_alike m1 m2 -> same_outcome R p q ->
  (forall a b, R a b -> settled_answer (answer (Ok a)) = settled_answer (answer (Ok b))) ->
  same_step (on_repository m1 answer p) (on_repository m2 answer q).
Proof.
  intros (_ & Hc & Hp) [Ha Hr] Hans. split; [done|]. simpl.
  destruct (snd p), (snd q); [by apply Hans|done..|by subst].
Qed.

Lemma alike_record_validated (instant : Z) (v w : VerifyKeyResult) (m1 : KeyManager S1) (m2 : KeyManager S2) :
  managers_alike m1 m2 -> settled_verify v = settled_verify w ->
  managers_alike (record_validated_key_usage instant v m1) (record_validated_key_usage instant w m2).
Proof.
  intros (Ha & Hc & Hp) E. unfold record_validated_key_usage.
  injection E as -> Hi _. assert (info_id <$> verify_key_info v = info_id <$> verify_key_info w) as ->.
  { destruct (verify_key_info v), (verify_key_info w); simpl in *; try done.
    injection Hi; intros; congruence. }
  rewrite Hc, Hp. destruct (negb _); [done|]. destruct (info_id <$> _); [|done].
  by case_match.
Qed.

Lemma alike_write (w : Write) (now : Z) (s1 : S1) (s2 : S2) :
  alike s1 s2 ->
  alike (fst (run_write w now s1)) (fst (run_write w now s2)) /\
  settled_answer (AnswerWrite (snd (run_write w now s1))) = settled_answer (AnswerWrite (snd (run_write w now s2))).
Proof.
  intros (H1 & H2 & E). destruct w as [id|id r]; simpl.
  - destruct (law_last_used now id s1 H1) as (t1 & r1 & -> & Ht1 & E1 & _ & C1).
    destruct (law_last_used now id s2 H2) as (t2 & r2 & -> & Ht2 & E2 & _ & C2). simpl.
    split; [split; [done|split; [done|congruence]]|].
    by destruct C1 as [-> | ->], C2 as [-> | ->].
  - destruct (law_usage now id r s1 H1) as (t1 & r1 & -> & Ht1 & E1 & _ & C1).
    destruct (law_usage now id r s2 H2) as (t2 & r2 & -> & Ht2 & E2 & _ & C2). simpl.
    split; [split; [done|split; [done|congruence]]|].
    by destruct C1 as [-> | ->], C2 as [-> | ->].
Qed.

Lemma perform_alike (now instant : Z) (op : ManagerOp) (m1 : KeyManager S1) (m2 : KeyManager S2) :
  managers_alike m1 m2 ->
  Forall (fun p => fresh_key (contents (repository m1)) p.1 p.2) (created op) ->
  same_step (perform sha256_hex hmac_sha256_hex hmac_secret now instant op m1)
    (perform sha256_hex hmac_sha256_hex hmac_secret now instant op m2).
Proof.
  intros Hm Hf. pose proof Hm as (Ha & Hc & Hp). destruct op as [config id raw|raw|id|id new raw|id c|id|id|id r|id| |n];
    cbn [perform created] in *.
  - apply Forall_cons_1 in Hf as [Hf _]; simpl in Hf. eapply on_repository_alike; [done|by apply alike_generate|]. by intros ?? ->.
  - unfold validate_key. pose proof (alike_validate raw now _ _ Ha) as [Hs Hr].
    destruct (validate_key_without_usage_update _ _ _ raw now (repository m1)) as [t1 [v|e]],
      (validate_key_without_usage_update _ _ _ raw now (repository m2)) as [t2 [w|e']]; simpl in Hs, Hr; try done.
    + split; [by apply alike_record_validated|]. simpl. by rewrite Hr.
    + split; [done|]. by subst.
  - eapply on_repository_alike; [done|by apply alike_revoke_key|]. by intros ?? ->.
  - apply Forall_cons_1 in Hf as [Hf _]; simpl in Hf. eapply on_repository_alike; [done|by apply alike_rotate|]. by intros ?? ->.
  - eapply on_repository_alike; [done|by apply alike_update_key|]. intros ?? E; simpl; by rewrite E.
  - eapply on_repository_alike; [done|by apply alike_get_key|]. intros ?? E; simpl; by rewrite E.
  - eapply (on_repository_alike (fun u v => settled_usage u = settled_usage v)); [done| |intros u v E; simpl; by rewrite E].
    apply alike_existing; [done|]. intros k k' _ (Ek & _). split; [done|]. exact (f_equal mk_usage Ek).
  - unfold record_usage_record. rewrite Hp. destruct (_ <=? _); [by split|]. split; [|done].
    split; [done|]. split; done.
  - eapply on_repository_alike; [done| |by intros ?? ->].
    apply alike_existing; [done|]. intros k k' Hin _. by apply alike_delete.
  - eapply on_repository_alike; [done|by apply alike_delete_expired|]. by intros ?? ->.
  - rewrite Hp. destruct (pending m2 !! n) as [w|]; [|by split].
    destruct (alike_write w now _ _ Ha) as [Hs Hw]. split; [|exact Hw].
    split; [done|]. split; [done|]. done.
Qed.
End Alike.
