(* ===== verification/KeyLifecycle.v ===== *)
(** The life of a managed key under the manager, over every repository that keeps
    the promise of [KeyContents]: keys keep their hashes, a revoked one stays
    revoked, and two repositories answer any run of the manager alike. *)

From S2P Require Import Prelude Text Float64 ProviderErrors GatewayErrors Principals Authentication.
From S2P Require Import KeyStore KeyRecords KeyRepository KeyContents KeyMemory KeyRows KeyManager.
From S2P Require Import KeyGuarantees.
Import Manager.

Section Lifecycle.
Context `{JsonValues} {S : Type} `{!KeyRepository S} `{!LawfulKeyRepository S}.
Variable sha256_hex : string -> string.
Variable hmac_sha256_hex : string -> string -> string.
Variable hmac_secret : option string.
Abbreviation key_hash_of raw := (hash_api_key sha256_hex hmac_sha256_hex raw hmac_secret).
Abbreviation created := (created sha256_hex hmac_sha256_hex hmac_secret).
Abbreviation perform := (perform sha256_hex hmac_sha256_hex hmac_secret).
Abbreviation perform_all := (perform_all sha256_hex hmac_sha256_hex hmac_secret).

(** * How contents evolve *)

(** Every key of [c'] is one of [new], or was there with the same hash, and is
    revoked if it was. *)
Definition evolves (new : list (string * string)) (c c' : gmap string ManagedApiKey) : Prop :=
  forall id k, c' !! id = Some k ->
    (id, mk_hash k) ∈ new \/
    exists k0, c !! id = Some k0 /\ mk_hash k = mk_hash k0 /\
      (mk_status k0 = KeyRevoked -> mk_status k = KeyRevoked).

Lemma evolves_refl (new : list (string * string)) (c : gmap string ManagedApiKey) : evolves new c c.
Proof. intros id k Hk. right. eauto. Qed.

Lemma evolves_trans (new1 new2 : list (string * string)) (c1 c2 c3 : gmap string ManagedApiKey) :
  evolves new1 c1 c2 -> evolves new2 c2 c3 -> evolves (new1 ++ new2) c1 c3.
Proof.
  intros E1 E2 id k Hk. rewrite elem_of_app. destruct (E2 id k Hk) as [Hn|(k2 & Hk2 & Hh & Hr)]; [tauto|].
  destruct (E1 id k2 Hk2) as [Hn|(k1 & Hk1 & Hh1 & Hr1)]; [rewrite Hh; tauto|].
  right. exists k1. split; [done|]. split; [congruence|tauto].
Qed.

Lemma evolves_insert (new : list (string * string)) (c : gmap string ManagedApiKey) (id : string) (k k' : ManagedApiKey) :
  c !! id = Some k -> mk_hash k' = mk_hash k -> (mk_status k = KeyRevoked -> mk_status k' = KeyRevoked) ->
  evolves new c (<[id := k']> c).
Proof.
  intros Hk Hh Hr i x [[<- <-]|[Hne Hx]]%lookup_insert_Some; [|by apply evolves_refl]. right. eauto.
Qed.

Lemma evolves_new (c : gmap string ManagedApiKey) (id : string) (k : ManagedApiKey) :
  evolves [(id, mk_hash k)] c (<[id := k]> c).
Proof.
  intros i x [[<- <-]|[Hne Hx]]%lookup_insert_Some; [left; by left|by apply evolves_refl].
Qed.

Lemma evolves_subset (new : list (string * string)) (c c' : gmap string ManagedApiKey) :
  c' ⊆ c -> evolves new c c'.
Proof. intros Hsub id k Hk. right. exists k. split; [by eapply lookup_weaken|done]. Qed.

Lemma evolves_alter (new : list (string * string)) (c : gmap string ManagedApiKey) (id : string) f :
  (forall k, mk_hash (f k) = mk_hash k /\ (mk_status k = KeyRevoked -> mk_status (f k) = KeyRevoked)) ->
  evolves new c (alter f id c).
Proof.
  intros Hf i x [(<- & y & Hy & ->)|[Hne Hx]]%lookup_alter_Some; [|by apply evolves_refl].
  right. exists y. split; [done|apply Hf].
Qed.

(** * One operation *)

(** An outcome after which the repository is in order. *)
Definition in_order {A} (new : list (string * string)) (s : S) (p : S * A) : Prop :=
  repo_ok (fst p) /\ evolves new (contents s) (contents (fst p)).

Lemma in_order_existing {A} (new : list (string * string)) (id : string) (now : Z) (s : S)
    (f : ManagedApiKey -> S -> S * result A GatewayError) :
  repo_ok s -> (forall k, contents s !! id = Some (settled k) -> in_order new s (f k s)) ->
  in_order new s (existing id now s f).
Proof.
  intros Hok Hf. unfold existing. destruct (law_find_by_id now id s Hok) as (r & -> & E & _).
  destruct r as [k|]; [|split; [done|apply evolves_refl]]. apply Hf. by rewrite <- E.
Qed.

Lemma in_order_generate (config : CreateKeyConfig) (id raw : string) (now : Z) (s : S) :
  repo_ok s -> fresh_key (contents s) id (key_hash_of raw) ->
  in_order [(id, key_hash_of raw)] s (generate_key sha256_hex hmac_sha256_hex hmac_secret config id raw now s).
Proof.
  intros Hok Hf. destruct (generate_key _ _ _ config id raw now s) as [t [x|e]] eqn:E.
  - apply generate_keeps in E as (_ & Ht & Hc); [|done..]. split; [done|]. simpl. rewrite Hc. apply evolves_new.
  - unfold generate_key in E. destruct (validate_create_config now config).
    + destruct Hf as [Hid Hh].
      destruct (law_create now (managed_key sha256_hex hmac_sha256_hex hmac_secret config id raw now) s)
        as (s' & k' & Hc & _); [done..|]. by rewrite Hc in E.
    + injection E as <- _. split; [done|]. apply evolves_refl.
Qed.

Lemma in_order_revoke (now : Z) (id : string) (s : S) (k : ManagedApiKey) :
  repo_ok s -> contents s !! id = Some k ->
  exists t, repo_update_status now id KeyRevoked s = (t, Ok tt) /\ repo_ok t /\
    (forall new, evolves new (contents s) (contents t)) /\
    exists k', contents t !! id = Some k' /\ mk_hash k' = mk_hash k /\ mk_status k' = KeyRevoked.
Proof.
  intros Hok Hk. destruct (law_revoke now id s k Hok Hk) as (t & Et & Ht & Hc).
  exists t. split; [exact Et|]. split; [done|]. rewrite Hc. split; [intros new; by eapply evolves_insert|].
  eexists. by rewrite lookup_insert_eq.
Qed.

Lemma in_order_rotate (id new_id raw : string) (now : Z) (s : S) :
  repo_ok s -> fresh_key (contents s) new_id (key_hash_of raw) ->
  in_order [(new_id, key_hash_of raw)] s
    (rotate_key sha256_hex hmac_sha256_hex hmac_secret id new_id raw now s).
Proof.
  intros Hok Hf. apply in_order_existing; [done|]. intros k Hk.
  destruct (bool_decide _); [split; [done|apply evolves_refl]|].
  pose proof (in_order_generate (rotated_config k) new_id raw now s Hok Hf) as [Hg Eg].
  destruct (generate_key _ _ _ _ new_id raw now s) as [t [x|e]] eqn:E; [|by split].
  apply generate_keeps in E as (_ & Ht & Hc); [|done..]. simpl in Hg, Eg.
  assert (Hk' : contents t !! id = Some (settled k)).
  { rewrite Hc, lookup_insert_ne; [done|]. intros <-. destruct Hf. congruence. }
  destruct (in_order_revoke now id t _ Ht Hk') as (u & -> & Hu & Eu & _). split; [done|].
  apply (evolves_trans [(new_id, key_hash_of raw)] [] _ _ _ Eg), Eu.
Qed.

Lemma in_order_update (id : string) (c : UpdateKeyConfig Json) (now : Z) (s : S) (k : ManagedApiKey) :
  repo_ok s -> contents s !! id = Some k -> in_order [] s (repo_update now id c s).
Proof.
  intros Hok Hk. destruct (law_update now id c s k Hok Hk) as (t & k' & -> & Ht & _ & _ & Hc).
  split; [done|]. simpl. rewrite Hc. eapply evolves_insert; [done|done|].
  simpl. intros ->. done.
Qed.

Lemma in_order_write (w : Write) (now : Z) (s : S) : repo_ok s -> in_order [] s (run_write w now s).
Proof.
  intros Hok. destruct w as [id|id r]; simpl.
  - destruct (law_last_used now id s Hok) as (t & r & -> & Ht & Hc & _). split; [done|].
    simpl. rewrite Hc. apply evolves_refl.
  - destruct (law_usage now id r s Hok) as (t & x & -> & Ht & Hc & _). split; [done|].
    simpl. rewrite Hc. apply evolves_alter. intros k. split; [done|]. simpl. by intros ->.
Qed.

Lemma perform_in_order (now instant : Z) (op : ManagerOp) (m : KeyManager S) :
  repo_ok (repository m) ->
  Forall (fun p => fresh_key (contents (repository m)) p.1 p.2) (created op) ->
  repo_ok (repository (fst (perform now instant op m))) /\
  evolves (created op) (contents (repository m)) (contents (repository (fst (perform now instant op m)))).
Proof.
  intros Hok Hf. destruct op as [config id raw|raw|id|id new raw|id c|id|id|id r|id| |n];
    cbn [KeyManager.Manager.perform KeyGuarantees.created] in *.
  - apply Forall_cons_1 in Hf as [Hf _]. by apply in_order_generate.
  - assert (Hv : forall r, repository (record_validated_key_usage instant r m) = repository m).
    { intros r. unfold record_validated_key_usage. by repeat case_match. }
    unfold validate_key, validate_key_without_usage_update.
    destruct (law_find_by_hash now (key_hash_of raw) (repository m) Hok) as ([k|] & -> & _);
      (split; [|apply evolves_subset]); unfold with_repository; simpl;
      unfold record_validated_key_usage; repeat case_match; done.
  - apply in_order_existing; [done|]. intros k Hk. destruct (bool_decide _); [split; [done|apply evolves_refl]|].
    destruct (in_order_revoke now id _ _ Hok Hk) as (t & -> & Ht & Et & _). by split.
  - apply Forall_cons_1 in Hf as [Hf _]. by apply in_order_rotate.
  - apply in_order_existing; [done|]. intros k Hk. destruct (bool_decide _); [split; [done|apply evolves_refl]|].
    pose proof (in_order_update id c now _ _ Hok Hk) as Hu.
    by destruct (repo_update now id c (repository m)) as [t [x|e]].
  - unfold get_key. destruct (law_find_by_id now id (repository m) Hok) as (r & -> & _).
    split; [done|apply evolves_refl].
  - apply in_order_existing; [done|]. intros k Hk. split; [done|apply evolves_refl].
  - unfold record_usage_record. destruct (_ <=? _); (split; [done|apply evolves_refl]).
  - apply in_order_existing; [done|]. intros k Hk.
    destruct (law_delete now id (repository m) Hok) as (t & -> & Ht & Hc); [eauto|].
    split; [done|]. simpl. rewrite Hc. apply evolves_subset, delete_subseteq.
  - unfold cleanup_expired_keys. destruct (law_delete_expired now (repository m) Hok) as (t & -> & Ht & Hc).
    split; [done|]. simpl. rewrite Hc. apply evolves_subset, map_filter_subseteq.
  - destruct (pending m !! n) as [w|]; [|split; [done|apply evolves_refl]]. by apply in_order_write.
Qed.

(** * Runs *)

(** The identifiers and the hashes of the keys that a run creates. *)
Definition created_in (ms : list (Moment (H:=H))) : list (string * string) := ms ≫= (fun e => created (at_op e)).

Definition distinct_keys (c : gmap string ManagedApiKey) (ms : list Moment) : Prop :=
  NoDup (created_in ms).*1 /\ NoDup (created_in ms).*2 /\
  Forall (fun p => fresh_key c p.1 p.2) (created_in ms).

Lemma distinct_keys_step (c : gmap string ManagedApiKey) (e : Moment) (ms : list Moment) :
  distinct_keys c (e :: ms) ->
  Forall (fun p => fresh_key c p.1 p.2) (created (at_op e)) /\
  forall c', evolves (created (at_op e)) c c' -> distinct_keys c' ms.
Proof.
  unfold distinct_keys, created_in. rewrite bind_cons, !fmap_app.
  intros ((_ & Hi1 & Hi2)%NoDup_app & (_ & Hh1 & Hh2)%NoDup_app & [Hf1 Hf2]%Forall_app).
  split; [done|]. intros c' Hev. split; [done|]. split; [done|].
  rewrite Forall_forall in *. intros [id h] Hin. destruct (Hf2 _ Hin) as [Hid Hhash]; simpl in *. split.
  - destruct (c' !! id) as [k|] eqn:E; [|done]. destruct (Hev id k E) as [Hn|(k0 & Hk0 & _)]; [|congruence].
    exfalso. apply (Hi1 id); apply list_elem_of_fmap; eexists; (split; [|eassumption]); done.
  - intros i k Hk Eh. destruct (Hev i k Hk) as [Hn|(k0 & Hk0 & E & _)]; [|apply (Hhash i k0 Hk0); congruence].
    exfalso. apply (Hh1 h); apply list_elem_of_fmap; eexists; (split; [|eassumption]); done.
Qed.

Lemma perform_all_in_order (ms : list Moment) (m : KeyManager S) :
  repo_ok (repository m) -> distinct_keys (contents (repository m)) ms ->
  repo_ok (repository (fst (perform_all ms m))) /\
  evolves (created_in ms) (contents (repository m)) (contents (repository (fst (perform_all ms m)))).
Proof.
  revert m. induction ms as [|e ms IH]; intros m Hok Hd; [split; [done|apply evolves_refl]|].
  apply distinct_keys_step in Hd as [Hf Hd]. cbn [KeyManager.Manager.perform_all].
  pose proof (perform_in_order (at_now e) (at_instant e) (at_op e) m Hok Hf) as [Hok1 Hev1].
  destruct (perform _ _ (at_op e) m) as [m1 a]; simpl in Hok1, Hev1.
  destruct (IH m1 Hok1 (Hd _ Hev1)) as [Hok2 Hev2].
  destruct (perform_all ms m1) as [m2 as_]; simpl in *. split; [done|].
  exact (evolves_trans _ _ _ _ _ Hev1 Hev2).
Qed.

(** * Validation *)

(** What validating a raw key answers, of the key that has its hash. *)
Lemma validate_answer (raw : string) (now instant : Z) (m : KeyManager S) :
  repo_ok (repository m) ->
  exists v, snd (perform now instant (Validate raw) m) = AnswerVerify (Ok v) /\
    (verify_valid v = true <-> exists id k, contents (repository m) !! id = Some k /\
       mk_hash k = key_hash_of raw /\ mk_status k = KeyActive /\ expired_at now (mk_expires_at k) = false).
Proof.
  intros Hok. cbn [KeyManager.Manager.perform]. unfold validate_key, validate_key_without_usage_update.
  destruct (law_find_by_hash now (key_hash_of raw) (repository m) Hok) as ([k|] & -> & Hk); eexists; (split; [done|]).
  - destruct Hk as (Hh & Hin & Hhonest). pose proof (ok_kept _ Hok) as [_ Hinj].
    destruct (bool_decide_reflect (mk_status k = KeyRevoked)) as [Hr|Hr];
      [|destruct (expired_at now (mk_expires_at k)) eqn:He]; simpl; (split; [try done|]).
    + intros (id & k' & Hk' & Hh' & Ha & _).
      assert (id = mk_id k) as -> by (apply (Hinj _ _ _ _ Hk' Hin); simpl; congruence).
      rewrite Hin in Hk'. injection Hk' as <-. simpl in Ha. by rewrite Hr in Ha.
    + intros (id & k' & Hk' & Hh' & _ & He').
      assert (id = mk_id k) as -> by (apply (Hinj _ _ _ _ Hk' Hin); simpl; congruence).
      rewrite Hin in Hk'. injection Hk' as <-. simpl in He'. congruence.
    + intros _. exists (mk_id k), (settled k). split; [done|]. split; [done|]. split; [|done].
      simpl. by destruct (mk_status k).
    + done.
  - split; [done|]. intros (id & k & Hk' & Hh & _). by destruct (Hk id k Hk').
Qed.

(** * Revocation *)

(** Every key with this hash is revoked. *)
Definition dead (c : gmap string ManagedApiKey) (hash : string) : Prop :=
  forall id k, c !! id = Some k -> mk_hash k = hash -> mk_status k = KeyRevoked.

Lemma dead_evolves (new : list (string * string)) (c c' : gmap string ManagedApiKey) (hash : string) :
  evolves new c c' -> hash ∉ new.*2 -> dead c hash -> dead c' hash.
Proof.
  intros Hev Hnew Hdead id k Hk Hh. destruct (Hev id k Hk) as [Hn|(k0 & Hk0 & E & Hr)].
  - destruct Hnew. rewrite <- Hh. apply list_elem_of_fmap. by exists (id, mk_hash k).
  - apply Hr, (Hdead id k0 Hk0). congruence.
Qed.

Lemma fresh_hash (c : gmap string ManagedApiKey) (id : string) (k : ManagedApiKey) (new : list (string * string)) :
  c !! id = Some k -> Forall (fun p => fresh_key c p.1 p.2) new -> mk_hash k ∉ new.*2.
Proof.
  intros Hk Hf ([i h] & E & Hin)%list_elem_of_fmap. rewrite Forall_forall in Hf.
  destruct (Hf _ Hin) as [_ Hh]. by apply (Hh id k Hk).
Qed.

(** An operation that was answered as having revoked a key. *)
Definition revoked_by (id : string) (op : ManagerOp) (a : ManagerAnswer) : Prop :=
  match op, a with
  | Revoke id', AnswerUnit (Ok _) => id' = id
  | Rotate id' _ _, AnswerKey (Ok _) => id' = id
  | _, _ => False
  end.

Definition gone (id : string) (k : ManagedApiKey) (s : S) : Prop :=
  exists k', contents s !! id = Some k' /\ mk_hash k' = mk_hash k /\ mk_status k' = KeyRevoked.

Lemma revoke_key_gone (id : string) (now : Z) (s : S) (k : ManagedApiKey) x :
  repo_ok s -> contents s !! id = Some k -> snd (revoke_key id now s) = Ok x ->
  gone id k (fst (revoke_key id now s)).
Proof.
  intros Hok Hk. unfold revoke_key, existing. destruct (law_find_by_id now id s Hok) as (r & -> & E & _).
  rewrite Hk in E. destruct r as [k0|]; [|done]. destruct (bool_decide _); [done|].
  by destruct (in_order_revoke now id s k Hok Hk) as (t & -> & _ & _ & ?).
Qed.

Lemma rotate_key_gone (id new raw : string) (now : Z) (s : S) (k : ManagedApiKey) x :
  repo_ok s -> contents s !! id = Some k -> fresh_key (contents s) new (key_hash_of raw) ->
  snd (rotate_key sha256_hex hmac_sha256_hex hmac_secret id new raw now s) = Ok x ->
  gone id k (fst (rotate_key sha256_hex hmac_sha256_hex hmac_secret id new raw now s)).
Proof.
  intros Hok Hk Hf. unfold rotate_key, existing. destruct (law_find_by_id now id s Hok) as (r & -> & E & _).
  rewrite Hk in E. destruct r as [k0|]; [|done]. destruct (bool_decide _); [done|].
  destruct (generate_key _ _ _ _ new raw now s) as [t [y|e]] eqn:Eg; [|done].
  apply generate_keeps in Eg as (_ & Ht & Hc); [|done..].
  assert (Hk' : contents t !! id = Some k) by (rewrite Hc, lookup_insert_ne; [done|intros <-; destruct Hf; congruence]).
  by destruct (in_order_revoke now id t k Ht Hk') as (u & -> & _ & _ & ?).
Qed.

Lemma revoked_by_dead (now instant : Z) (op : ManagerOp) (id : string) (k : ManagedApiKey) (m : KeyManager S) :
  repo_ok (repository m) -> contents (repository m) !! id = Some k ->
  Forall (fun p => fresh_key (contents (repository m)) p.1 p.2) (created op) ->
  revoked_by id op (snd (perform now instant op m)) ->
  dead (contents (repository (fst (perform now instant op m)))) (mk_hash k).
Proof.
  intros Hok Hk Hf Hr. pose proof (perform_in_order now instant op m Hok Hf) as [Hok' _].
  assert (Hgone : gone id k (repository (fst (perform now instant op m)))).
  { destruct op as [| |id'|id' new raw| | | | | | |]; try done;
      cbn [KeyManager.Manager.perform KeyGuarantees.created revoked_by on_repository fst snd] in *.
    - destruct (snd (revoke_key _ _ _)) eqn:E; [|done]. subst id'. by eapply revoke_key_gone.
    - apply Forall_cons_1 in Hf as [Hf _]. destruct (snd (rotate_key _ _ _ _ _ _ _ _)) eqn:E; [|done].
      subst id'. by eapply rotate_key_gone. }
  destruct Hgone as (k' & Hk' & Hh & Hs). intros i x Hx Ex.
  pose proof (ok_kept _ Hok') as [_ Hinj]. assert (i = id) as -> by (apply (Hinj _ _ _ _ Hx Hk'); congruence).
  by simplify_eq.
Qed.

(** C28: A revoked key stays revoked.  Over any repository that keeps its promise,
    once [revoke_key] or [rotate_key] has answered that it revoked a key, the
    key's raw text is never valid again: whatever the manager is asked afterwards
    - generating, rotating, changing, deleting and cleaning up keys, recording
    usage, and the writes it spawned running in any order -, validating the raw
    key still answers that it is not valid.  New keys have identifiers and hashes
    of their own. *)
Theorem revocation_outlives (op : ManagerOp) (id raw : string) (k : ManagedApiKey)
    (now instant later later_instant : Z) (m : KeyManager S) (ms : list Moment) :
  repo_ok (repository m) ->
  contents (repository m) !! id = Some k -> mk_hash k = key_hash_of raw ->
  distinct_keys (contents (repository m)) (mkMoment now instant op :: ms) ->
  revoked_by id op (snd (perform now instant op m)) ->
  exists v,
    snd (perform later later_instant (Validate raw) (fst (perform_all ms (fst (perform now instant op m))))) =
      AnswerVerify (Ok v) /\
    verify_valid v = false.
Proof.
  intros Hok Hk Hh Hd Hr. pose proof Hd as [_ [_ Hfresh]]. apply distinct_keys_step in Hd as [Hf Hd]. simpl in Hf, Hd.
  pose proof (perform_in_order now instant op m Hok Hf) as [Hok1 Hev1].
  pose proof (revoked_by_dead now instant op id k m Hok Hk Hf Hr) as Hdead.
  pose proof (perform_all_in_order ms _ Hok1 (Hd _ Hev1)) as [Hok2 Hev2].
  assert (Hnew : mk_hash k ∉ (created_in ms).*2).
  { eapply fresh_hash; [exact Hk|]. unfold created_in in *. rewrite bind_cons in Hfresh. by apply Forall_app in Hfresh as [_ ?]. }
  destruct (validate_answer raw later later_instant _ Hok2) as (v & Ev & Hv). exists v. split; [exact Ev|].
  apply not_true_is_false. intros (i & x & Hx & Ex & Ha & _)%Hv.
  rewrite (dead_evolves _ _ _ _ Hev2 Hnew Hdead i x Hx) in Ha; [done|congruence].
Qed.

(** * Rotation *)

(** Rotation replaces a key by one like it.  It fails, and changes nothing,
    when the key does not exist, is revoked, or its configuration could not be
    created anew - its name and the suffix are longer than 255 bytes, or it has
    expired.  Otherwise the repository holds, besides the keys it held, a new key
    with the old one's owner, team, budget, permissions, limits, expiry and
    metadata, unused and active, and the old key is revoked. *)
Theorem rotation_exact (id new_id raw : string) (now instant : Z) (m : KeyManager S) :
  repo_ok (repository m) -> fresh_key (contents (repository m)) new_id (key_hash_of raw) ->
  let '(m', a) := perform now instant (Rotate id new_id raw) m in
  let c := contents (repository m) in
  let c' := contents (repository m') in
  match c !! id with
  | None => a = AnswerKey (Err not_found) /\ c' = c
  | Some k =>
      if bool_decide (mk_status k = KeyRevoked)
      then a = AnswerKey (Err (GConflict "Cannot rotate a revoked key")) /\ c' = c
      else
        match validate_create_config now (rotated_config k) with
        | Err e => a = AnswerKey (Err e) /\ c' = c
        | Ok _ =>
            a = AnswerKey (Ok (new_id, raw)) /\
            c' = <[id := settled (with_status now KeyRevoked k)]>
                   (<[new_id := settled (managed_key sha256_hex hmac_sha256_hex hmac_secret (rotated_config k)
                                           new_id raw now)]> c)
        end
  end.
Proof.
  intros Hok Hf. cbn [KeyManager.Manager.perform]. unfold on_repository, rotate_key, existing.
  destruct (law_find_by_id now id (repository m) Hok) as (r & -> & E & _). rewrite <- E.
  destruct r as [k0|]; [|done]. cbn [fmap option_fmap option_map].
  change (mk_status (settled k0)) with (settled_status (mk_status k0)).
  replace (bool_decide (settled_status (mk_status k0) = KeyRevoked)) with (bool_decide (mk_status k0 = KeyRevoked))
    by (apply bool_decide_ext; by destruct (mk_status k0)).
  destruct (bool_decide _); [done|]. change (rotated_config (settled k0)) with (rotated_config k0).
  destruct (generate_key _ _ _ (rotated_config k0) new_id raw now (repository m)) as [t [x|e]] eqn:Eg.
  - pose proof Eg as Hg. unfold generate_key in Hg.
    destruct (validate_create_config now (rotated_config k0)); [clear Hg|done].
    apply generate_keeps in Eg as (-> & Ht & Hc); [|done..].
    assert (Hk' : contents t !! id = Some (settled k0)).
    { rewrite Hc, lookup_insert_ne; [done|]. intros <-. destruct Hf as [Hn _]. by rewrite Hn in E. }
    destruct (law_revoke now id t _ Ht Hk') as (u & -> & _ & Hu). split; [done|]. simpl. by rewrite Hu, Hc.
  - unfold generate_key in Eg. destruct (validate_create_config now (rotated_config k0)).
    + destruct Hf as [Hid Hh].
      destruct (law_create now (managed_key sha256_hex hmac_sha256_hex hmac_secret (rotated_config k0) new_id raw now)
                  (repository m)) as (s' & k' & Hc & _); [done..|]. by rewrite Hc in Eg.
    + injection Eg as <- <-. done.
Qed.
End Lifecycle.

(** * Two repositories along a run *)

Section Refinement.
Context `{JsonValues} {S1 S2 : Type} `{!KeyRepository S1, !KeyRepository S2}
  `{!LawfulKeyRepository S1, !LawfulKeyRepository S2}.
Variable sha256_hex : string -> string.
Variable hmac_sha256_hex : string -> string -> string.
Variable hmac_secret : option string.
Abbreviation perform_all := (perform_all sha256_hex hmac_sha256_hex hmac_secret).
Abbreviation distinct_keys := (distinct_keys sha256_hex hmac_sha256_hex hmac_secret).

Lemma perform_all_alike (ms : list Moment) (m1 : KeyManager S1) (m2 : KeyManager S2) :
  managers_alike m1 m2 -> distinct_keys (contents (repository m1)) ms ->
  managers_alike (fst (perform_all ms m1)) (fst (perform_all ms m2)) /\
  settled_answer <$> snd (perform_all ms m1) = settled_answer <$> snd (perform_all ms m2).
Proof.
  revert m1 m2. induction ms as [|e ms IH]; intros m1 m2 Hm Hd; [done|].
  apply distinct_keys_step in Hd as [Hf Hd]. cbn [KeyManager.Manager.perform_all].
  pose proof (perform_alike sha256_hex hmac_sha256_hex hmac_secret (at_now e) (at_instant e) (at_op e) m1 m2 Hm Hf)
    as [Hm1 Ha].
  assert (Hok : repo_ok (repository m1)) by (by destruct Hm as ((? & _) & _)).
  pose proof (perform_in_order sha256_hex hmac_sha256_hex hmac_secret (at_now e) (at_instant e) (at_op e) m1 Hok Hf)
    as [_ Hev].
  destruct (perform _ _ _ _ _ (at_op e) m1) as [n1 a1], (perform _ _ _ _ _ (at_op e) m2) as [n2 a2].
  simpl in Hm1, Ha, Hev. destruct (IH n1 n2 Hm1 (Hd _ Hev)) as [Hms Has].
  destruct (perform_all ms n1) as [p1 l1], (perform_all ms n2) as [p2 l2]. cbn [fst snd] in *.
  split; [done|]. by rewrite !fmap_cons, Ha, Has.
Qed.
End Refinement.

(** * The two implementations *)

Lemma memory_new_ok `{JsonValues} : repo_ok memory_new /\ contents memory_new = ∅.
Proof.
  assert (E : memory_contents memory_new = ∅) by apply fmap_empty. split; [|exact E]. change (memory_ok memory_new). split; simpl.
  - split; [apply map_Forall_empty|]. by intros i j k k' Hk.
  - intros h id. split; [done|]. intros (k & Hk & _). done.
  - apply map_Forall_empty.
Qed.

Lemma no_rows_ok `{PayloadLaws} : repo_ok (∅ : Rows) /\ contents (∅ : Rows) = ∅.
Proof.
  assert (E : rows_contents ∅ = ∅) by apply fmap_empty. split; [|exact E].
  change (rows_ok ∅). unfold rows_ok. rewrite E.
  split; [apply map_Forall_empty|]. by intros i j k k' Hk.
Qed.

(** C29: The database repository refines the one in memory.  From empty
    repositories, whatever the manager is asked, with its spawned writes running
    whenever and in any order, the two answer alike: the same errors in the same
    places, the same keys shown and found valid, the same lifetime usage, the
    same number cleaned up; and they hold the same keys at the end.  Not compared
    are when a key was last used, the counters of the day, and the error of a
    write to a key that is gone.  What serde writes of a payload it reads back,
    and new keys have identifiers and hashes of their own. *)
Theorem database_refines_memory `{PayloadLaws} (sha256_hex : string -> string)
    (hmac_sha256_hex : string -> string -> string) (hmac_secret : option string) (ms : list Moment) :
  distinct_keys sha256_hex hmac_sha256_hex hmac_secret ∅ ms ->
  let memory := perform_all sha256_hex hmac_sha256_hex hmac_secret ms (new_manager memory_new) in
  let database := perform_all sha256_hex hmac_sha256_hex hmac_secret ms (new_manager (∅ : Rows)) in
  settled_answer <$> snd database = settled_answer <$> snd memory /\
  contents (repository (fst database)) = contents (repository (fst memory)) /\
  pending (fst database) = pending (fst memory).
Proof.
  intros Hd. destruct memory_new_ok as [Hm Em], no_rows_ok as [Hr Er].
  assert (Ha : managers_alike (new_manager memory_new) (new_manager (∅ : Rows))).
  { split; [split; [exact Hm|split; [exact Hr|]]|done]. etransitivity; [exact Em|by symmetry]. }
  destruct (perform_all_alike sha256_hex hmac_sha256_hex hmac_secret ms _ _ Ha) as [((_ & _ & E) & _ & Hp) Hs].
  { cbn [repository new_manager]. by rewrite Em. }
  cbn zeta. by rewrite Hs, E, Hp.
Qed.

(** * Runs that exist *)

#[local] Existing Instance example_json.
#[local] Existing Instance example_payload.

#[export] Instance example_payload_laws : PayloadLaws example_payload.
Proof. split. intros p. by eexists. Defined.

Definition example_digest (raw : string) : string := "sha256:" +:+ raw.
Definition example_hmac (secret raw : string) : string := secret +:+ ":" +:+ raw.

Definition example_config (name : string) : CreateKeyConfig :=
  mkCreateConfig name (Some "for the batch jobs") (Some "u1") None None full_access standard_limits
    (Some (from_secs 1000)) JNull.

(** Two keys, one used and changed, the other rotated; then everything expires. *)
Definition example_run : list Moment := [
  mkMoment 1 1 (Generate (example_config "ci") "k1" "gw-1");
  mkMoment 2 2 (Generate (example_config "app") "k2" "gw-2");
  mkMoment 3 3 (Validate "gw-1");
  mkMoment 4 4 (RecordUsage "k1" (usage_priced 120 f64_zero));
  mkMoment 5 5 (Change "k1" (mkUpdate (Some "ci-main") (Some None) None (Some premium_limits) None None None));
  mkMoment 6 6 (Settle 1);
  mkMoment 7 7 (Rotate "k2" "k3" "gw-3");
  mkMoment 8 8 (Validate "gw-2");
  mkMoment 9 9 (GetKey "k1");
  mkMoment 10 10 (GetUsage "k1");
  mkMoment 11 11 (Delete "k2");
  mkMoment 12 12 (Settle 0);
  mkMoment (from_secs 2000) 13 (Validate "gw-3");
  mkMoment (from_secs 2000) 14 Cleanup].

Lemma example_run_distinct : distinct_keys example_digest example_hmac None ∅ example_run.
Proof.
  split; [|split]; [by vm_compute; repeat constructor; set_solver|by vm_compute; repeat constructor; set_solver|].
  apply Forall_forall. intros p _. split; [done|]. by intros i k Hk.
Qed.

Example database_refines_memory_witness :
  let memory := perform_all example_digest example_hmac None example_run (new_manager memory_new) in
  let database := perform_all example_digest example_hmac None example_run (new_manager (∅ : Rows)) in
  settled_answer <$> snd database = settled_answer <$> snd memory /\
  last (snd memory) = Some (AnswerCount (Ok 2)).
Proof.
  pose proof (database_refines_memory example_digest example_hmac None example_run example_run_distinct) as H.
  cbn zeta in H |- *. destruct H as (H & _). split; [exact H|]. vm_compute. reflexivity.
Defined.

Example revocation_outlives_witness :
  let m := fst (perform example_digest example_hmac None 1 1 (Generate (example_config "ci") "k1" "gw-1")
                 (new_manager memory_new)) in
  let later := [mkMoment 3 3 (Rotate "k1" "k2" "gw-2"); mkMoment 4 4 (Generate (example_config "b") "k3" "gw-3")] in
  exists v,
    snd (perform example_digest example_hmac None 9 9 (Validate "gw-1")
           (fst (perform_all example_digest example_hmac None later
                   (fst (perform example_digest example_hmac None 2 2 (Revoke "k1") m))))) = AnswerVerify (Ok v) /\
    verify_valid v = false.
Proof.
  cbn zeta. destruct memory_new_ok as [Hok E].
  assert (Hd : distinct_keys example_digest example_hmac None ∅
    [mkMoment 1 1 (Generate (example_config "ci") "k1" "gw-1"); mkMoment 2 2 (Revoke "k1");
     mkMoment 3 3 (Rotate "k1" "k2" "gw-2"); mkMoment 4 4 (Generate (example_config "b") "k3" "gw-3")]).
  { split; [|split]; [by vm_compute; repeat constructor; set_solver|by vm_compute; repeat constructor; set_solver|].
    apply Forall_forall. intros p _. split; [done|]. by intros i k Hk. }
  rewrite <- E in Hd. apply distinct_keys_step in Hd as [Hf Hd].
  destruct (perform_in_order example_digest example_hmac None 1 1 (Generate (example_config "ci") "k1" "gw-1")
              (new_manager memory_new) Hok Hf) as [Hok1 Hev].
  eapply (revocation_outlives example_digest example_hmac None (Revoke "k1") "k1" "gw-1");
    [exact Hok1|vm_compute; reflexivity|reflexivity|exact (Hd _ Hev)|vm_compute; reflexivity].
Defined.

Example rotation_exact_witness :
  let m := fst (perform example_digest example_hmac None 1 1 (Generate (example_config "ci") "k1" "gw-1")
                 (new_manager (∅ : Rows))) in
  snd (perform example_digest example_hmac None 2 2 (Rotate "k1" "k2" "gw-2") m) = AnswerKey (Ok ("k2", "gw-2")).
Proof.
  cbn zeta. destruct no_rows_ok as [Hok E].
  assert (Hd : distinct_keys example_digest example_hmac None ∅
    [mkMoment 1 1 (Generate (example_config "ci") "k1" "gw-1"); mkMoment 2 2 (Rotate "k1" "k2" "gw-2")]).
  { split; [|split]; [by vm_compute; repeat constructor; set_solver|by vm_compute; repeat constructor; set_solver|].
    apply Forall_forall. intros p _. split; [done|]. by intros i k Hk. }
  rewrite <- E in Hd. apply distinct_keys_step in Hd as [Hf Hd].
  destruct (perform_in_order example_digest example_hmac None 1 1 (Generate (example_config "ci") "k1" "gw-1")
              (new_manager (∅ : Rows)) Hok Hf) as [Hok1 Hev].
  apply Hd, distinct_keys_step in Hev as [Hf2 _]. apply Forall_cons_1 in Hf2 as [Hf2 _].
  pose proof (rotation_exact example_digest example_hmac None "k1" "k2" "gw-2" 2 2 _ Hok1 Hf2) as H.
  assert (Hk : contents (repository (fst (perform example_digest example_hmac None 1 1
                 (Generate (example_config "ci") "k1" "gw-1") (new_manager (∅ : Rows))))) !! "k1" =
               Some (settled (managed_key example_digest example_hmac None (example_config "ci") "k1" "gw-1" 1)))
    by (vm_compute; reflexivity).
  destruct (perform _ _ _ 2 2 _ _) as [m' a]. cbn zeta in H. rewrite Hk in H. by destruct H as [H _].
Defined.

(** A key whose name leaves no room for the suffix can be created and never rotated. *)
Example long_names_never_rotate :
  let name := to_string (repeat (Ascii.ascii_of_nat 97) 250) in
  let config := mkCreateConfig name None None None None full_access unlimited_limits None JNull in
  validate_create_config 1 config = Ok tt /\
  validate_create_config 1 (rotated_config (managed_key example_digest example_hmac None config "k1" "gw-1" 1)) =
    Err (GValidation "Key name cannot exceed 255 characters").
Proof. split; vm_compute; reflexivity. Qed.
