(* ===== verification/AuthLimiter.v ===== *)
(** The brute-force protection of the authentication endpoints
    ([server/middleware/auth_rate_limiter.rs] and its [capacity] and
    [reservation]): one tracker per client, lockouts with exponential backoff,
    the queue of attempts before credential verification, and the bounded map
    with its eviction queues.

    A definition here is what one lock holds: the entry of a client in the
    concurrent map, or the capacity lock when an entry is created or the map is
    cleaned.  The code touches the eviction queues after it has released the
    entry, so an operation returns what it does [Later].  The clock is read
    before the lock, so it is an argument.  Instants are nanoseconds.

    Under the capacity lock the code takes the lock of an entry per candidate
    ([evict_one_inactive]) or per shard ([cleanup_old_entries], which prunes the
    queues after), so operations on entries can run in between; here each of the
    two is one step. *)

From S2P Require Import Prelude.

(** * Ordered maps ([BTreeMap]) *)

Section BTree.
Context {K V : Type} `{EqDecision K}.
Variable key_lt : K -> K -> bool.

Fixpoint bt_insert (k : K) (v : V) (m : list (K * V)) : list (K * V) :=
  match m with
  | [] => [(k, v)]
  | (k', v') :: m =>
      if decide (k = k') then (k, v) :: m
      else if key_lt k k' then (k, v) :: (k', v') :: m
      else (k', v') :: bt_insert k v m
  end.

Definition bt_remove (k : K) (m : list (K * V)) : list (K * V) :=
  filter (fun x => x.1 <> k) m.
End BTree.

Definition ready_lt (a b : Z * Z) : bool :=
  (a.1 <? b.1) || ((a.1 =? b.1) && (a.2 <? b.2)).
Definition delayed_lt (a b : Z * Z * Z) : bool :=
  (a.1.1 <? b.1.1) || ((a.1.1 =? b.1.1) && ready_lt (a.1.2, a.2) (b.1.2, b.2)).

(** * State *)

Record AuthAttemptTracker := mkTracker {
  failure_count : Z;                 (* u32 *)
  in_flight : Z;                     (* u32 *)
  waiting : Z;                       (* u32 *)
  state_epoch : Z;                   (* versions of the watch channel *)
  entry_id : Z;                      (* u64 *)
  eviction_queued : bool;
  eviction_token : Z;                (* u64 *)
  eviction_deadline : option Z;
  generation : Z;                    (* u64 *)
  window_start : Z;
  lockout_until : option Z;
  lockout_count : Z;                 (* u32 *)
}.

(** The map, the two eviction queues and the counters.  The tracker's semaphore
    outlives it and is kept apart by its entry id. *)
Record AuthRateLimiter := mkLimiter {
  attempts : gmap string AuthAttemptTracker;
  ready : list ((Z * Z) * string);
  delayed : list ((Z * Z * Z) * string);
  next_entry_id : Z;                 (* u64 *)
  blocked_count : Z;                 (* u64 *)
}.

Definition limiter_new : AuthRateLimiter := mkLimiter ∅ [] [] 1 0.

Record EvictionCandidate := mkCandidate {
  client_id : string;
  candidate_entry : Z;
  token : Z;
  candidate_deadline : option Z;
}.

(** What an operation does after it has released the entry. *)
Inductive Later :=
| Enqueue (candidate : EvictionCandidate)
| Unqueue (candidate : EvictionCandidate)
| Dispose (client : string).

Definition enqueue_later (candidate : option EvictionCandidate) : list Later :=
  option_list (Enqueue <$> candidate).
Definition unqueue_later (candidate : option EvictionCandidate) : list Later :=
  option_list (Unqueue <$> candidate).

(** ** Updates *)

Definition set_attempts (a : gmap string AuthAttemptTracker) (l : AuthRateLimiter) :=
  mkLimiter a (ready l) (delayed l) (next_entry_id l) (blocked_count l).
Definition set_tracker (c : string) (t : AuthAttemptTracker) (l : AuthRateLimiter) :=
  set_attempts (<[c := t]> (attempts l)) l.
Definition remove_tracker (c : string) (l : AuthRateLimiter) :=
  set_attempts (delete c (attempts l)) l.
Definition set_queues (r : list ((Z * Z) * string)) (d : list ((Z * Z * Z) * string))
    (l : AuthRateLimiter) :=
  mkLimiter (attempts l) r d (next_entry_id l) (blocked_count l).
Definition block (l : AuthRateLimiter) :=
  mkLimiter (attempts l) (ready l) (delayed l) (next_entry_id l) (wrap_u64 (blocked_count l + 1)).

Definition set_counts (failures flying queued : Z) (t : AuthAttemptTracker) : AuthAttemptTracker :=
  mkTracker failures flying queued (state_epoch t) (entry_id t) (eviction_queued t)
    (eviction_token t) (eviction_deadline t) (generation t) (window_start t) (lockout_until t)
    (lockout_count t).
Definition set_waiting (queued : Z) (t : AuthAttemptTracker) :=
  set_counts (failure_count t) (in_flight t) queued t.
Definition set_in_flight (flying : Z) (t : AuthAttemptTracker) :=
  set_counts (failure_count t) flying (waiting t) t.
Definition set_eviction (queued : bool) (token : Z) (deadline : option Z) (t : AuthAttemptTracker) :=
  mkTracker (failure_count t) (in_flight t) (waiting t) (state_epoch t) (entry_id t) queued token
    deadline (generation t) (window_start t) (lockout_until t) (lockout_count t).
Definition set_lockout (until : option Z) (t : AuthAttemptTracker) :=
  mkTracker (failure_count t) (in_flight t) (waiting t) (state_epoch t) (entry_id t)
    (eviction_queued t) (eviction_token t) (eviction_deadline t) (generation t) (window_start t)
    until (lockout_count t).
Definition notify_state_change (t : AuthAttemptTracker) :=
  mkTracker (failure_count t) (in_flight t) (waiting t) (state_epoch t + 1) (entry_id t)
    (eviction_queued t) (eviction_token t) (eviction_deadline t) (generation t) (window_start t)
    (lockout_until t) (lockout_count t).
(** [failure_count = 0] in a window that starts now. *)
Definition start_window (now : Z) (t : AuthAttemptTracker) :=
  mkTracker 0 (in_flight t) (waiting t) (state_epoch t) (entry_id t) (eviction_queued t)
    (eviction_token t) (eviction_deadline t) (generation t) now (lockout_until t)
    (lockout_count t).

Section Limiter.
Variables max_attempts window_secs base_lockout_secs max_entries : Z.
(** The last representable instant of the platform. *)
Variable instant_max : Z.

Definition DEFAULT_MAX_ENTRIES : Z := 10000.
Definition MAX_EVICTION_PROBES : nat := 16.
Definition CAPACITY_RETRY_SECS : Z := 1.
Definition MAX_QUEUED_ATTEMPTS_PER_CLIENT : Z := 256.

Definition max_checks : Z := Z.max max_attempts 1.

Definition tracker_new (now id : Z) : AuthAttemptTracker :=
  mkTracker 0 0 0 0 id false 0 None 0 now None 0.

Definition new_tracker (now : Z) (l : AuthRateLimiter) : AuthRateLimiter * AuthAttemptTracker :=
  (mkLimiter (attempts l) (ready l) (delayed l) (wrap_u64 (next_entry_id l + 1)) (blocked_count l),
   tracker_new now (next_entry_id l)).

Definition is_none {A} (o : option A) : bool := match o with None => true | Some _ => false end.

Definition locked_at (now : Z) (t : AuthAttemptTracker) : bool :=
  match lockout_until t with Some until => now <? until | None => false end.

Definition is_disposable_success (t : AuthAttemptTracker) : bool :=
  (in_flight t =? 0) && (waiting t =? 0) && (failure_count t =? 0)
  && is_none (lockout_until t) && (lockout_count t =? 0).

(** [now.saturating_duration_since(window_start)]. *)
Definition window_age (now : Z) (t : AuthAttemptTracker) : Z := Z.max 0 (now - window_start t).
Definition window_duration : Z := from_secs window_secs.

Definition expire_window (now : Z) (t : AuthAttemptTracker) : AuthAttemptTracker :=
  if window_duration <=? window_age now t then notify_state_change (start_window now t) else t.

(** * Lockouts *)

Definition saturating_pow2 (n : Z) : Z := Z.min (2 ^ n) u64_max.
Definition saturating_mul (a b : Z) : Z := Z.min (a * b) u64_max.

(** The loop of [apply_failure] halves the backoff until its end is
    representable; the fuel is the width of a [u64]. *)
Fixpoint lockout_deadline (fuel : nat) (now secs : Z) : Z * Z :=
  let deadline := now + from_secs secs in
  match fuel with
  | O => (deadline, secs)
  | S fuel => if deadline <=? instant_max then (deadline, secs)
              else lockout_deadline fuel now (secs / 2)
  end.

Definition backoff_secs (count : Z) : Z :=
  saturating_mul base_lockout_secs (saturating_pow2 count).

Definition apply_failure (now : Z) (t : AuthAttemptTracker) : AuthAttemptTracker * option Z :=
  let start := if failure_count t =? 0 then now else window_start t in
  let failures := sat_add_u32 (failure_count t) 1 in
  if failures <? max_attempts
  then (mkTracker failures (in_flight t) (waiting t) (state_epoch t) (entry_id t)
          (eviction_queued t) (eviction_token t) (eviction_deadline t) (generation t) start
          (lockout_until t) (lockout_count t), None)
  else
    let '(until, secs) := lockout_deadline 64 now (backoff_secs (lockout_count t)) in
    (mkTracker 0 (in_flight t) (waiting t) (state_epoch t) (entry_id t) (eviction_queued t)
       (eviction_token t) (eviction_deadline t) (wrap_u64 (generation t + 1)) start (Some until)
       (sat_add_u32 (lockout_count t) 1), Some secs).

(** * Eviction ([capacity]) *)

Definition is_evictable (now : Z) (t : AuthAttemptTracker) : bool :=
  (waiting t =? 0) && (in_flight t =? 0) && negb (locked_at now t).

Definition future (now : Z) (deadline : option Z) : option Z :=
  match deadline with Some d => if now <? d then Some d else None | None => None end.

Definition has_persistent_history (t : AuthAttemptTracker) : bool :=
  (0 <? failure_count t) || negb (is_none (lockout_until t)) || (0 <? lockout_count t).

Definition mark_evictable (c : string) (now : Z) (t : AuthAttemptTracker)
    : AuthAttemptTracker * option EvictionCandidate :=
  if eviction_queued t || (0 <? in_flight t) || ((0 <? waiting t) && negb (has_persistent_history t))
  then (t, None)
  else
    let token := wrap_u64 (eviction_token t + 1) in
    let deadline := future now (lockout_until t) in
    (set_eviction true token deadline t, Some (mkCandidate c (entry_id t) token deadline)).

Definition retire_eviction_candidate (c : string) (t : AuthAttemptTracker)
    : AuthAttemptTracker * option EvictionCandidate :=
  if eviction_queued t
  then (set_eviction false (eviction_token t) None t,
        Some (mkCandidate c (entry_id t) (eviction_token t) (eviction_deadline t)))
  else (t, None).

(** The tracker still has this candidate. *)
Definition current_candidate (x : EvictionCandidate) (t : AuthAttemptTracker) : bool :=
  (entry_id t =? candidate_entry x) && eviction_queued t && (eviction_token t =? token x).

Definition enqueue_eviction_candidate (x : EvictionCandidate) (l : AuthRateLimiter)
    : AuthRateLimiter :=
  match attempts l !! client_id x with
  | None => l
  | Some t =>
      if current_candidate x t && bool_decide (eviction_deadline t = candidate_deadline x)
      then
        match candidate_deadline x with
        | Some deadline =>
            set_queues (ready l)
              (bt_insert delayed_lt (deadline, candidate_entry x, token x) (client_id x) (delayed l)) l
        | None =>
            set_queues (bt_insert ready_lt (candidate_entry x, token x) (client_id x) (ready l))
              (delayed l) l
        end
      else l
  end.

Definition remove_eviction_candidate (x : EvictionCandidate) (l : AuthRateLimiter)
    : AuthRateLimiter :=
  set_queues (bt_remove (candidate_entry x, token x) (ready l))
    (match candidate_deadline x with
     | Some deadline => bt_remove (deadline, candidate_entry x, token x) (delayed l)
     | None => delayed l
     end) l.

Definition pop_eviction_candidate (now : Z) (l : AuthRateLimiter)
    : option (EvictionCandidate * AuthRateLimiter) :=
  let pop_ready :=
    match ready l with
    | ((id, tok), c) :: rest => Some (mkCandidate c id tok None, set_queues rest (delayed l) l)
    | [] => None
    end in
  match delayed l with
  | ((deadline, id, tok), c) :: rest =>
      if deadline <=? now then Some (mkCandidate c id tok None, set_queues (ready l) rest l)
      else pop_ready
  | [] => pop_ready
  end.

(** A candidate that did not evict: its tracker is marked again or given up.
    The answer is the lockout and whether the tracker is active. *)
Definition reexamine (now : Z) (x : EvictionCandidate) (l : AuthRateLimiter)
    : AuthRateLimiter * option (option Z * bool) :=
  match attempts l !! client_id x with
  | None => (l, None)
  | Some t =>
      if negb (current_candidate x t) then (l, None)
      else
        let active := (0 <? waiting t) || (0 <? in_flight t) in
        let t' :=
          if active && negb (locked_at now t)
          then set_eviction false (eviction_token t) None t
          else set_eviction (eviction_queued t) (eviction_token t) (future now (lockout_until t)) t in
        (set_tracker (client_id x) t' l, Some (lockout_until t, active))
  end.

Fixpoint evict_loop (fuel live_probes : nat) (now : Z) (l : AuthRateLimiter)
    : option (AuthRateLimiter * bool) :=
  if (MAX_EVICTION_PROBES <=? live_probes)%nat then Some (l, false)
  else
    match fuel with
    | O => None
    | S fuel =>
        match pop_eviction_candidate now l with
        | None => Some (l, false)
        | Some (x, l) =>
            match attempts l !! client_id x with
            | Some t =>
                if current_candidate x t && is_evictable now t
                then Some (remove_tracker (client_id x) l, true)
                else
                  match reexamine now x l with
                  | (l, Some (until, active)) =>
                      match future now until with
                      | Some deadline =>
                          evict_loop fuel live_probes now
                            (enqueue_eviction_candidate
                               (mkCandidate (client_id x) (candidate_entry x) (token x)
                                  (Some deadline)) l)
                      | None =>
                          if active : bool then evict_loop fuel live_probes now l
                          else evict_loop fuel (S live_probes) now (enqueue_eviction_candidate x l)
                      end
                  | (l, None) => evict_loop fuel live_probes now l
                  end
            | None => evict_loop fuel live_probes now l
            end
        end
    end.

(** Every turn of the loop takes a candidate out of the queues that are due. *)
Definition evict_fuel (l : AuthRateLimiter) : nat :=
  (length (ready l) + length (delayed l) + MAX_EVICTION_PROBES + 1)%nat.

Definition evict_one_inactive (now : Z) (l : AuthRateLimiter) : AuthRateLimiter * bool :=
  default (l, false) (evict_loop (evict_fuel l) 0 now l).

Definition queued_entry (x : EvictionCandidate) (l : AuthRateLimiter) : bool :=
  match attempts l !! client_id x with
  | Some t =>
      current_candidate x t
      && match candidate_deadline x with
         | Some d => bool_decide (eviction_deadline t = Some d)
         | None => true
         end
  | None => false
  end.

Definition prune_eviction_candidates (l : AuthRateLimiter) : AuthRateLimiter :=
  set_queues
    (List.filter (fun '((id, tok), c) => queued_entry (mkCandidate c id tok None) l) (ready l))
    (List.filter (fun '((d, id, tok), c) => queued_entry (mkCandidate c id tok (Some d)) l)
       (delayed l)) l.

Definition outlives_cleanup (now : Z) (t : AuthAttemptTracker) : bool :=
  (0 <? in_flight t) || (0 <? waiting t)
  || (window_age now t <? from_secs (saturating_mul window_secs 2)) || locked_at now t.

Definition cleanup_old_entries (now : Z) (l : AuthRateLimiter) : AuthRateLimiter :=
  prune_eviction_candidates
    (set_attempts (filter (fun x => outlives_cleanup now x.2 = true) (attempts l)) l).

Definition remove_disposable_success (c : string) (l : AuthRateLimiter) : AuthRateLimiter :=
  match attempts l !! c with
  | Some t => if is_disposable_success t then remove_tracker c l else l
  | None => l
  end.

Definition perform (x : Later) (l : AuthRateLimiter) : AuthRateLimiter :=
  match x with
  | Enqueue x => enqueue_eviction_candidate x l
  | Unqueue x => remove_eviction_candidate x l
  | Dispose c => remove_disposable_success c l
  end.

(** * The public operations *)

(** Store a tracker and queue it for eviction when it is idle. *)
Definition store_marked (c : string) (now : Z) (t : AuthAttemptTracker) (l : AuthRateLimiter)
    : AuthRateLimiter * list Later :=
  let '(t, candidate) := mark_evictable c now t in
  (set_tracker c t l, enqueue_later candidate).

Definition check_allowed (c : string) (now : Z) (l : AuthRateLimiter)
    : AuthRateLimiter * list Later * result unit Z :=
  match attempts l !! c with
  | None => (l, [], Ok tt)
  | Some t =>
      match future now (lockout_until t) with
      | Some until => (block l, [], Err (as_secs (until - now)))
      | None =>
          let t := match lockout_until t with
                   | Some _ => notify_state_change (set_lockout None t)
                   | None => t
                   end in
          let '(l, later) := store_marked c now (expire_window now t) l in (l, later, Ok tt)
      end
  end.

(** Room for one more tracker: under the capacity lock. *)
Definition make_room (now : Z) (l : AuthRateLimiter) : AuthRateLimiter * bool :=
  if max_entries <=? Z.of_nat (size (attempts l)) then
    let '(l, evicted) := evict_one_inactive now l in
    if evicted then (l, true) else (block l, false)
  else (l, true).

Definition record_failure (c : string) (now : Z) (l : AuthRateLimiter)
    : AuthRateLimiter * list Later * option Z :=
  match attempts l !! c with
  | Some t =>
      let '(t, lockout) := apply_failure now t in
      let '(l, later) := store_marked c now (notify_state_change t) l in
      (l, later, lockout)
  | None =>
      match make_room now l with
      | (l, false) => (l, [], Some 1)
      | (l, true) =>
          let '(l, t) := new_tracker now l in
          let '(t, lockout) := apply_failure now t in
          let '(l, later) := store_marked c now t l in
          (l, later, lockout)
      end
  end.

Definition clear_failures (t : AuthAttemptTracker) : AuthAttemptTracker :=
  mkTracker 0 (in_flight t) (waiting t) (state_epoch t + 1) (entry_id t) (eviction_queued t)
    (eviction_token t) (eviction_deadline t) (wrap_u64 (generation t + 1)) (window_start t)
    (lockout_until t) (lockout_count t).

Definition record_success (c : string) (now : Z) (l : AuthRateLimiter)
    : AuthRateLimiter * list Later :=
  match attempts l !! c with
  | Some t => store_marked c now (clear_failures t) l
  | None => (l, [])
  end.

(** * Reservations ([reservation]) *)

Definition queue_on_tracker (c : string) (now : Z) (t : AuthAttemptTracker)
    : AuthAttemptTracker * result (option EvictionCandidate) Z :=
  match future now (lockout_until t) with
  | Some until => (t, Err (Z.max (as_secs (until - now)) 1))
  | None =>
      let t := expire_window now (set_lockout None t) in
      if MAX_QUEUED_ATTEMPTS_PER_CLIENT <=? waiting t then (t, Err CAPACITY_RETRY_SECS)
      else
        let '(t, retired) := retire_eviction_candidate c t in
        (set_waiting (sat_add_u32 (waiting t) 1) t, Ok retired)
  end.

(** Queue an attempt; the answer is the tracker whose semaphore it waits for. *)
Definition queue_attempt (c : string) (now : Z) (l : AuthRateLimiter)
    : AuthRateLimiter * list Later * result Z Z :=
  match attempts l !! c with
  | Some t =>
      match queue_on_tracker c now t with
      | (t, Ok retired) => (set_tracker c t l, unqueue_later retired, Ok (entry_id t))
      | (t, Err retry) => (block (set_tracker c t l), [], Err retry)
      end
  | None =>
      match make_room now l with
      | (l, false) => (l, [], Err CAPACITY_RETRY_SECS)
      | (l, true) =>
          let '(l, t) := new_tracker now l in
          (set_tracker c (set_waiting 1 t) l, [], Ok (entry_id t))
      end
  end.

Inductive AttemptActivation :=
| Activated (generation : Z)  (* Admitted *)
| WaitForSettlement (epoch : Z) (window_reset_after : Z)
| Rejected (retry_after : Z).

(** [complete_waiter]; [None] when there is none. *)
Definition complete_waiter (t : AuthAttemptTracker) : option AuthAttemptTracker :=
  if 1 <=? waiting t then Some (set_waiting (waiting t - 1) t) else None.

Definition reject_waiter (retry : Z) (t : AuthAttemptTracker)
    : AuthAttemptTracker * bool * AttemptActivation :=
  match complete_waiter t with
  | Some t => (t, true, Rejected retry)
  | None => (t, false, Rejected CAPACITY_RETRY_SECS)
  end.

(** The tracker, whether the attempt is counted as blocked, and the answer. *)
Definition activate_tracker (now : Z) (t : AuthAttemptTracker)
    : AuthAttemptTracker * bool * AttemptActivation :=
  match future now (lockout_until t) with
  | Some until => reject_waiter (Z.max (as_secs (until - now)) 1) t
  | None =>
      let t := match lockout_until t with
               | Some _ => notify_state_change (set_lockout None t)
               | None => t
               end in
      let t := expire_window now t in
      let occupied_attempts := sat_add_u32 (failure_count t) (in_flight t) in
      if max_checks <=? occupied_attempts then
        if 0 <? in_flight t
        then (t, false,
              WaitForSettlement (state_epoch t) (sat_sub window_duration (window_age now t)))
        else reject_waiter CAPACITY_RETRY_SECS t
      else
        match complete_waiter t with
        | Some t => (set_in_flight (sat_add_u32 (in_flight t) 1) t, false, Activated (generation t))
        | None => (t, false, Rejected CAPACITY_RETRY_SECS)
        end
  end.

Definition activate_waiter (c : string) (now : Z) (l : AuthRateLimiter)
    : AuthRateLimiter * AttemptActivation :=
  match attempts l !! c with
  | None => (l, Rejected CAPACITY_RETRY_SECS)
  | Some t =>
      let '(t, blocked, answer) := activate_tracker now t in
      let l := set_tracker c t l in
      (if blocked : bool then block l else l, answer)
  end.

(** A tracker that has become idle is disposed of or queued for eviction. *)
Definition store_idle (disposable : bool) (c : string) (now : Z) (t : AuthAttemptTracker)
    (l : AuthRateLimiter) : AuthRateLimiter * list Later :=
  if disposable then (set_tracker c t l, [Dispose c]) else store_marked c now t l.

Definition cancel_waiter (c : string) (now : Z) (l : AuthRateLimiter)
    : AuthRateLimiter * list Later :=
  match attempts l !! c with
  | None => (l, [])
  | Some t =>
      match complete_waiter t with
      | None => (l, [])
      | Some t => store_idle (is_disposable_success t) c now t l
      end
  end.

Definition finish_reservation (c : string) (gen : Z) (failed : bool) (now : Z)
    (l : AuthRateLimiter) : AuthRateLimiter * list Later :=
  match attempts l !! c with
  | None => (l, [])
  | Some t =>
      if 1 <=? in_flight t then
        let t := set_in_flight (in_flight t - 1) t in
        let should_count_failure := failed && (generation t =? gen) && negb (locked_at now t) in
        let t := if should_count_failure then fst (apply_failure now t) else t in
        let t := notify_state_change t in
        store_idle (negb failed && is_disposable_success t) c now t l
      else (l, [])
  end.
End Limiter.
