(* ===== verification/AuthSystem.v ===== *)
(** The authentication limiter under concurrent attempts: any number of requests,
    each in its own place of [reserve_attempt], the semaphores of the trackers,
    and the work operations do after they have released an entry, interleaved in
    any order.  Every step carries the clock reading it uses; readings need not be
    in order unless a theorem says so. *)

From S2P Require Import Prelude AuthLimiter.

(** Where an attempt is in [reserve_attempt] and after it. *)
Inductive Phase :=
| Queued                                  (* waits for a permit *)
| Holding                                 (* has a permit, about to be activated *)
| Waiting (epoch : Z) (wake_at : Z)       (* selects between the epoch and the timer *)
| InFlight (gen : Z)                      (* an active reservation *)
| Cancelling                              (* dropped: [cancel_waiter] is to come *)
| Releasing.                              (* only the permit is left to give back *)

Record Attempt := mkAttempt {
  a_client : string;
  a_entry : Z;
  a_phase : Phase;
}.

Definition is_waiting (p : Phase) : bool :=
  match p with Queued | Holding | Waiting _ _ | Cancelling => true | _ => false end.
Definition is_flying (p : Phase) : bool := match p with InFlight _ => true | _ => false end.
Definition has_permit (p : Phase) : bool :=
  match p with Holding | Waiting _ _ | InFlight _ | Releasing => true | _ => false end.

(** [permits] are the available permits of each semaphore. *)
Record System := mkSystem {
  limiter : AuthRateLimiter;
  permits : gmap Z Z;
  tasks : list Attempt;
  later : list Later;
}.

Definition system_new : System := mkSystem limiter_new ∅ [] [].

(** What a step does, for the client it concerns. *)
Inductive Label :=
| LQueue (c : string) (answer : result Z Z)
| LAdmit (c : string)
| LReject (c : string) (retry : Z)
| LSettle (c : string) (entry : Z) (failed : bool)
| LDirectFailure (c : string)
| LDirectSuccess (c : string)
| LOther.

Section System.
Variables max_attempts window_secs base_lockout_secs max_entries instant_max : Z.

Abbreviation max_checks := (max_checks max_attempts).
Abbreviation queue_attempt := (queue_attempt window_secs max_entries).
Abbreviation activate_waiter := (activate_waiter max_attempts window_secs).
Abbreviation finish_reservation := (finish_reservation max_attempts base_lockout_secs instant_max).
Abbreviation record_failure :=
  (record_failure max_attempts base_lockout_secs max_entries instant_max).

(** A tracker made by an operation comes with its semaphore. *)
Definition with_semaphore (l l' : AuthRateLimiter) (p : gmap Z Z) : gmap Z Z :=
  if next_entry_id l' =? next_entry_id l then p else <[next_entry_id l := max_checks]> p.

Definition put_permit (e : Z) (p : gmap Z Z) : gmap Z Z :=
  match p !! e with Some n => <[e := n + 1]> p | None => p end.

(** The select of a waiting attempt returns. *)
Definition woken (now : Z) (e epoch wake_at : Z) (c : string) (l : AuthRateLimiter) : Prop :=
  wake_at <= now \/
  exists t, attempts l !! c = Some t /\ entry_id t = e /\ state_epoch t <> epoch.

(** The sender of the epoch is gone with its tracker. *)
Definition closed (e : Z) (c : string) (l : AuthRateLimiter) : Prop :=
  forall t, attempts l !! c = Some t -> entry_id t <> e.

Inductive step (now : Z) : Label -> System -> System -> Prop :=
| step_queue c l p ts q l' q' answer :
    queue_attempt c now l = (l', q', answer) ->
    step now (LQueue c answer) (mkSystem l p ts q)
      (mkSystem l' (with_semaphore l l' p)
         (match answer with Ok e => mkAttempt c e Queued :: ts | Err _ => ts end) (q ++ q'))
| step_acquire c e n l p ts1 ts2 q :
    p !! e = Some n -> 0 < n ->
    step now LOther (mkSystem l p (ts1 ++ mkAttempt c e Queued :: ts2) q)
      (mkSystem l (<[e := n - 1]> p) (ts1 ++ mkAttempt c e Holding :: ts2) q)
| step_admit c e gen l p ts1 ts2 q l' :
    activate_waiter c now l = (l', Activated gen) ->
    step now (LAdmit c) (mkSystem l p (ts1 ++ mkAttempt c e Holding :: ts2) q)
      (mkSystem l' p (ts1 ++ mkAttempt c e (InFlight gen) :: ts2) q)
| step_reject c e retry l p ts1 ts2 q l' :
    activate_waiter c now l = (l', Rejected retry) ->
    step now (LReject c retry) (mkSystem l p (ts1 ++ mkAttempt c e Holding :: ts2) q)
      (mkSystem l' p (ts1 ++ mkAttempt c e Releasing :: ts2) q)
| step_wait c e epoch after l p ts1 ts2 q l' :
    activate_waiter c now l = (l', WaitForSettlement epoch after) ->
    step now LOther (mkSystem l p (ts1 ++ mkAttempt c e Holding :: ts2) q)
      (mkSystem l' p (ts1 ++ mkAttempt c e (Waiting epoch (now + after)) :: ts2) q)
| step_wake c e epoch wake_at l p ts1 ts2 q :
    woken now e epoch wake_at c l ->
    step now LOther (mkSystem l p (ts1 ++ mkAttempt c e (Waiting epoch wake_at) :: ts2) q)
      (mkSystem l p (ts1 ++ mkAttempt c e Holding :: ts2) q)
| step_closed c e epoch wake_at l p ts1 ts2 q :
    closed e c l ->
    step now LOther (mkSystem l p (ts1 ++ mkAttempt c e (Waiting epoch wake_at) :: ts2) q)
      (mkSystem l (put_permit e p) (ts1 ++ mkAttempt c e Cancelling :: ts2) q)
| step_drop c e ph l p ts1 ts2 q :
    is_waiting ph = true -> ph <> Cancelling ->
    step now LOther (mkSystem l p (ts1 ++ mkAttempt c e ph :: ts2) q)
      (mkSystem l (if has_permit ph then put_permit e p else p)
         (ts1 ++ mkAttempt c e Cancelling :: ts2) q)
| step_cancel c e l p ts1 ts2 q l' q' :
    cancel_waiter c now l = (l', q') ->
    step now LOther (mkSystem l p (ts1 ++ mkAttempt c e Cancelling :: ts2) q)
      (mkSystem l' p (ts1 ++ ts2) (q ++ q'))
| step_settle c e gen failed l p ts1 ts2 q l' q' :
    finish_reservation c gen failed now l = (l', q') ->
    step now (LSettle c e failed) (mkSystem l p (ts1 ++ mkAttempt c e (InFlight gen) :: ts2) q)
      (mkSystem l' p (ts1 ++ mkAttempt c e Releasing :: ts2) (q ++ q'))
| step_release c e l p ts1 ts2 q :
    step now LOther (mkSystem l p (ts1 ++ mkAttempt c e Releasing :: ts2) q)
      (mkSystem l (put_permit e p) (ts1 ++ ts2) q)
| step_direct_failure c l p ts q l' q' answer :
    record_failure c now l = (l', q', answer) ->
    step now (LDirectFailure c) (mkSystem l p ts q)
      (mkSystem l' (with_semaphore l l' p) ts (q ++ q'))
| step_direct_success c l p ts q l' q' :
    record_success c now l = (l', q') ->
    step now (LDirectSuccess c) (mkSystem l p ts q) (mkSystem l' p ts (q ++ q'))
| step_check c l p ts q l' q' answer :
    check_allowed window_secs c now l = (l', q', answer) ->
    step now LOther (mkSystem l p ts q) (mkSystem l' p ts (q ++ q'))
| step_cleanup l p ts q :
    step now LOther (mkSystem l p ts q) (mkSystem (cleanup_old_entries window_secs now l) p ts q)
| step_later x l p ts q1 q2 :
    step now LOther (mkSystem l p ts (q1 ++ x :: q2)) (mkSystem (perform x l) p ts (q1 ++ q2)).

(** An execution, with the clock reading and the label of every step. *)
Inductive steps : System -> list (Z * Label) -> System -> Prop :=
| steps_nil s : steps s [] s
| steps_snoc s tr s1 now lbl s2 :
    steps s tr s1 -> step now lbl s1 s2 -> steps s (tr ++ [(now, lbl)]) s2.

Definition reachable (s : System) : Prop := exists tr, steps system_new tr s.

(** * Running it

    The same steps as a function, for a scheduler that says which attempt moves. *)

Inductive Command :=
| DoQueue (c : string)
| DoMove (i : nat)                        (* the attempt takes its next step *)
| DoDrop (i : nat)
| DoSettle (i : nat) (failed : bool)
| DoFailure (c : string)
| DoSuccess (c : string)
| DoCheck (c : string)
| DoCleanup
| DoLater (i : nat).

Definition woken_b (now : Z) (e epoch wake_at : Z) (c : string) (l : AuthRateLimiter) : bool :=
  (wake_at <=? now)
  || match attempts l !! c with
     | Some t => (entry_id t =? e) && negb (state_epoch t =? epoch)
     | None => false
     end.

Definition exec (now : Z) (cmd : Command) (s : System) : option (Label * System) :=
  let '(mkSystem l p ts q) := s in
  match cmd with
  | DoQueue c =>
      let '(l', q', answer) := queue_attempt c now l in
      Some (LQueue c answer,
            mkSystem l' (with_semaphore l l' p)
              (match answer with Ok e => mkAttempt c e Queued :: ts | Err _ => ts end) (q ++ q'))
  | DoMove i =>
      '(mkAttempt c e ph) ← ts !! i;
      let put ph := take i ts ++ mkAttempt c e ph :: drop (S i) ts in
      match ph with
      | Queued =>
          n ← p !! e;
          if 0 <? n then Some (LOther, mkSystem l (<[e := n - 1]> p) (put Holding) q) else None
      | Holding =>
          match activate_waiter c now l with
          | (l', Activated gen) => Some (LAdmit c, mkSystem l' p (put (InFlight gen)) q)
          | (l', Rejected retry) => Some (LReject c retry, mkSystem l' p (put Releasing) q)
          | (l', WaitForSettlement epoch after) =>
              Some (LOther, mkSystem l' p (put (Waiting epoch (now + after))) q)
          end
      | Waiting epoch wake_at =>
          if woken_b now e epoch wake_at c l then Some (LOther, mkSystem l p (put Holding) q) else None
      | InFlight _ => None
      | Cancelling =>
          let '(l', q') := cancel_waiter c now l in
          Some (LOther, mkSystem l' p (take i ts ++ drop (S i) ts) (q ++ q'))
      | Releasing => Some (LOther, mkSystem l (put_permit e p) (take i ts ++ drop (S i) ts) q)
      end
  | DoDrop i =>
      '(mkAttempt c e ph) ← ts !! i;
      match ph with
      | InFlight _ | Cancelling | Releasing => None
      | _ => Some (LOther, mkSystem l (if has_permit ph then put_permit e p else p)
                             (take i ts ++ mkAttempt c e Cancelling :: drop (S i) ts) q)
      end
  | DoSettle i failed =>
      '(mkAttempt c e ph) ← ts !! i;
      match ph with
      | InFlight gen =>
          let '(l', q') := finish_reservation c gen failed now l in
          Some (LSettle c e failed,
                mkSystem l' p (take i ts ++ mkAttempt c e Releasing :: drop (S i) ts) (q ++ q'))
      | _ => None
      end
  | DoFailure c =>
      let '(l', q', _) := record_failure c now l in
      Some (LDirectFailure c, mkSystem l' (with_semaphore l l' p) ts (q ++ q'))
  | DoSuccess c =>
      let '(l', q') := record_success c now l in
      Some (LDirectSuccess c, mkSystem l' p ts (q ++ q'))
  | DoCheck c =>
      let '(l', q', _) := check_allowed window_secs c now l in
      Some (LOther, mkSystem l' p ts (q ++ q'))
  | DoCleanup => Some (LOther, mkSystem (cleanup_old_entries window_secs now l) p ts q)
  | DoLater i =>
      x ← q !! i; Some (LOther, mkSystem (perform x l) p ts (take i q ++ drop (S i) q))
  end.

Fixpoint run (cmds : list (Z * Command)) (s : System) : option (list (Z * Label) * System) :=
  match cmds with
  | [] => Some ([], s)
  | (now, cmd) :: cmds =>
      '(lbl, s) ← exec now cmd s; '(tr, s) ← run cmds s; Some ((now, lbl) :: tr, s)
  end.

Lemma exec_step (now : Z) (cmd : Command) (s s' : System) (lbl : Label) :
  exec now cmd s = Some (lbl, s') -> step now lbl s s'.
Proof.
  destruct s as [l p ts q]. destruct cmd as [c|i|i|i failed|c|c|c| |i]; simpl; intros He.
  - destruct (queue_attempt c now l) as [[l' q'] a] eqn:Ea. injection He as <- <-. by constructor.
  - destruct (ts !! i) as [[c e ph]|] eqn:Hi; [|done]. simpl in He.
    pose proof (take_drop_middle _ _ _ Hi) as Hts.
    remember (take i ts) as ts1 eqn:E1. remember (drop (S i) ts) as ts2 eqn:E2. clear E1 E2. subst ts.
    destruct ph as [| |epoch wake_at|gen| |]; [| | |done| |].
    + destruct (p !! e) as [n|] eqn:Hn; [|done]. simpl in He. destruct (Z.ltb_spec 0 n); [|done].
      injection He as <- <-. by constructor.
    + destruct (activate_waiter c now l) as [l' []] eqn:Ea; injection He as <- <-; by constructor.
    + destruct (woken_b now e epoch wake_at c l) eqn:Hw; [|done]. injection He as <- <-. constructor.
      unfold woken_b in Hw. apply orb_prop in Hw as [Hw|Hw]; [left; by apply Z.leb_le|right].
      destruct (attempts l !! c) as [t|]; [|done]. apply andb_prop in Hw as [H1 H2].
      apply Z.eqb_eq in H1. apply negb_true_iff, Z.eqb_neq in H2. eauto.
    + destruct (cancel_waiter c now l) as [l' q'] eqn:Ea. injection He as <- <-. by constructor.
    + injection He as <- <-. by constructor.
  - destruct (ts !! i) as [[c e ph]|] eqn:Hi; [|done]. simpl in He.
    pose proof (take_drop_middle _ _ _ Hi) as Hts.
    remember (take i ts) as ts1 eqn:E1. remember (drop (S i) ts) as ts2 eqn:E2. clear E1 E2. subst ts.
    destruct ph; try done; injection He as <- <-; by apply step_drop.
  - destruct (ts !! i) as [[c e ph]|] eqn:Hi; [|done]. simpl in He.
    pose proof (take_drop_middle _ _ _ Hi) as Hts.
    remember (take i ts) as ts1 eqn:E1. remember (drop (S i) ts) as ts2 eqn:E2. clear E1 E2. subst ts.
    destruct ph; try done. destruct (finish_reservation c gen failed now l) as [l' q'] eqn:Ea.
    injection He as <- <-. by constructor.
  - destruct (record_failure c now l) as [[l' q'] a] eqn:Ea. injection He as <- <-. by econstructor.
  - destruct (record_success c now l) as [l' q'] eqn:Ea. injection He as <- <-. by constructor.
  - destruct (check_allowed window_secs c now l) as [[l' q'] a] eqn:Ea. injection He as <- <-.
    by econstructor.
  - injection He as <- <-. constructor.
  - destruct (q !! i) as [x|] eqn:Hi; [|done]. simpl in He. injection He as <- <-.
    rewrite <- (take_drop_middle _ _ _ Hi) at 1. constructor.
Qed.

Lemma steps_cons (s s1 s2 : System) (now : Z) (lbl : Label) (tr : list (Z * Label)) :
  step now lbl s s1 -> steps s1 tr s2 -> steps s ((now, lbl) :: tr) s2.
Proof.
  intros Hs Hst. induction Hst as [s1|s1 tr s2 now' lbl' s3 Hst IH Hs'].
  - apply (steps_snoc s [] s); [constructor|done].
  - rewrite app_comm_cons. eapply steps_snoc; [by apply IH|done].
Qed.

Lemma run_steps (cmds : list (Z * Command)) (s s' : System) (tr : list (Z * Label)) :
  run cmds s = Some (tr, s') -> steps s tr s'.
Proof.
  revert s tr. induction cmds as [|[now cmd] cmds IH]; intros s tr; simpl.
  - intros [= <- <-]. constructor.
  - destruct (exec now cmd s) as [[lbl s1]|] eqn:He; [|done]. simpl.
    destruct (run cmds s1) as [[tr1 s2]|] eqn:Hr; [|done]. simpl. intros [= <- <-].
    eapply steps_cons; [by eapply exec_step|by apply IH].
Qed.
End System.
