(* ===== verification/AuthAccounts.v ===== *)
(** The accounts of the authentication limiter: what every operation of
    [AuthLimiter] keeps of the trackers, and the invariant of [AuthSystem] that
    the counters of a tracker are the attempts in flight. *)

From S2P Require Import Prelude AuthLimiter AuthSystem.

Section Accounts.
Variables max_attempts window_secs base_lockout_secs max_entries instant_max : Z.

(** * What operations keep *)

(** The history of a tracker without a settled attempt: the same, or a window that
    has run out starts again; a lockout may be cleared. *)
Record aged (now : Z) (t t' : AuthAttemptTracker) : Prop := {
  g_generation : generation t' = generation t;
  g_window : failure_count t' = failure_count t /\ window_start t' = window_start t \/
    failure_count t' = 0 /\ window_start t' = now /\
      (0 < window_secs -> window_start t + window_duration window_secs <= now);
  g_lockout : lockout_until t' = lockout_until t \/ lockout_until t' = None;
}.

#[export] Instance aged_preorder (now : Z) : PreOrder (aged now).
Proof.
  split.
  - intros t. split; auto.
  - intros t1 t2 t3 [] []. split; [congruence| |intuition congruence].
    destruct g_window0 as [[]|(? & ? & ?)], g_window1 as [[]|(? & ? & ?)]; (left + right);
      split_and!; try congruence; intros; intuition (congruence || lia).
Qed.

(** A tracker after operations at clock [now] that neither add nor settle an
    attempt of its client: an active lockout stays, and the watchers of the epoch
    can trust what they saw. *)
Record kept (now : Z) (t t' : AuthAttemptTracker) : Prop := {
  k_waiting : waiting t' = waiting t;
  k_flying : in_flight t' = in_flight t;
  k_entry : entry_id t' = entry_id t;
  k_failures : 0 <= failure_count t -> 0 <= failure_count t';
  k_locked : forall u, lockout_until t = Some u -> now < u -> lockout_until t' = Some u;
  k_epoch : state_epoch t <= state_epoch t';
  k_quiet : state_epoch t' = state_epoch t ->
    failure_count t' = failure_count t /\ window_start t' = window_start t /\
    (lockout_until t = None -> lockout_until t' = None);
  k_aged : aged now t t';
}.

#[export] Instance kept_preorder (now : Z) : PreOrder (kept now).
Proof.
  split.
  - intros t. by split.
  - intros t1 t2 t3 [] []. split; try congruence; try lia; eauto; [|by etrans].
    intros He. destruct k_quiet0 as (? & ? & ?); [lia|]. destruct k_quiet1 as (? & ? & ?); [lia|].
    split_and!; [congruence..|]. auto.
Qed.

Record shrinks (now : Z) (l l' : AuthRateLimiter) : Prop := {
  s_none : forall d, attempts l !! d = None -> attempts l' !! d = None;
  s_some : forall d t, attempts l !! d = Some t ->
    match attempts l' !! d with
    | Some t' => kept now t t'
    | None => waiting t = 0 /\ in_flight t = 0 /\ locked_at now t = false
    end;
  s_size : (size (attempts l') <= size (attempts l))%nat;
  s_next : next_entry_id l' = next_entry_id l;
}.

#[export] Instance shrinks_preorder (now : Z) : PreOrder (shrinks now).
Proof.
  split.
  - intros l. split; [done| |done|done]. intros d t Hd. by rewrite Hd.
  - intros l1 l2 l3 [A1 B1 C1 D1] [A2 B2 C2 D2]. split; [auto| |lia|congruence].
    intros d t Ht. specialize (B1 d t Ht). destruct (attempts l2 !! d) as [t2|] eqn:E2.
    + specialize (B2 d t2 E2). destruct (attempts l3 !! d); [by etrans|].
      destruct B1, B2 as (? & ? & Hl). split_and!; [congruence..|].
      unfold locked_at in *. destruct (lockout_until t) as [u|]; [|done].
      destruct (Z.ltb_spec now u); [|done]. rewrite (k_locked0 u eq_refl) in Hl by done.
      by apply Z.ltb_ge in Hl; lia.
    + by rewrite (A2 d E2).
Qed.

Lemma shrinks_same (now : Z) (l l' : AuthRateLimiter) :
  attempts l' = attempts l -> next_entry_id l' = next_entry_id l -> shrinks now l l'.
Proof.
  intros Ha Hn. split; rewrite ?Ha; try done. intros d t Ht. by rewrite Ht.
Qed.

Lemma shrinks_set (now : Z) (c : string) (t t' : AuthAttemptTracker) (l : AuthRateLimiter) :
  attempts l !! c = Some t -> kept now t t' -> shrinks now l (set_tracker c t' l).
Proof.
  intros Hc Hk. split; simpl; [| | |done].
  - intros d Hd. rewrite lookup_insert_ne; [done|congruence].
  - intros d t0 Hd. destruct (decide (c = d)) as [<-|Hne].
    + rewrite lookup_insert_eq. congruence.
    + by rewrite lookup_insert_ne, Hd.
  - by rewrite map_size_insert_Some by eauto.
Qed.

Lemma shrinks_remove (now : Z) (c : string) (t : AuthAttemptTracker) (l : AuthRateLimiter) :
  attempts l !! c = Some t -> waiting t = 0 -> in_flight t = 0 -> locked_at now t = false ->
  shrinks now l (remove_tracker c l) /\
  (size (attempts (remove_tracker c l)) < size (attempts l))%nat.
Proof.
  intros Hc Hw Hf Hl.
  assert (Hs : (size (attempts (remove_tracker c l)) < size (attempts l))%nat).
  { simpl. rewrite map_size_delete, Hc.
    assert (size (attempts l) <> 0)%nat by (apply (map_size_ne_0_lookup_2 _ c); by eauto). lia. }
  split; [|done]. split; simpl; [| |simpl in Hs; lia|done].
  - intros d Hd. by apply lookup_delete_None; right.
  - intros d t0 Hd. destruct (decide (c = d)) as [<-|Hne].
    + rewrite lookup_delete_eq. by simplify_eq.
    + by rewrite lookup_delete_ne, Hd.
Qed.

(** ** Trackers *)

Lemma kept_eviction (now : Z) (q : bool) (tok : Z) (d : option Z) (t : AuthAttemptTracker) :
  kept now t (set_eviction q tok d t).
Proof. split; try done. split; auto. Qed.

Lemma kept_notify (now : Z) (t : AuthAttemptTracker) : kept now t (notify_state_change t).
Proof. split; simpl; try done; try lia. split; auto. Qed.

Lemma kept_unlock (now : Z) (t : AuthAttemptTracker) :
  locked_at now t = false -> kept now t (set_lockout None t).
Proof.
  intros Hl. split; simpl; try done.
  - intros u Hu Hn. unfold locked_at in Hl. rewrite Hu in Hl. apply Z.ltb_ge in Hl. lia.
  - split; auto.
Qed.

Lemma kept_expire (now : Z) (t : AuthAttemptTracker) : kept now t (expire_window window_secs now t).
Proof.
  unfold expire_window, window_age.
  destruct (Z.leb_spec (window_duration window_secs) (Z.max 0 (now - window_start t))); [|done].
  split; simpl; try done; try lia. split; simpl; auto. right. split_and!; [done|done|].
  intros Hw. unfold window_duration, from_secs in *. lia.
Qed.

Lemma kept_mark (now : Z) (c : string) (t : AuthAttemptTracker) :
  kept now t (fst (mark_evictable c now t)).
Proof. unfold mark_evictable. destruct (_ || _); [done|]. apply kept_eviction. Qed.

Lemma kept_retire (now : Z) (c : string) (t : AuthAttemptTracker) :
  kept now t (fst (retire_eviction_candidate c t)).
Proof. unfold retire_eviction_candidate. destruct (eviction_queued t); [|done]. apply kept_eviction. Qed.

Lemma future_locked (now : Z) (t : AuthAttemptTracker) :
  future now (lockout_until t) =
  (if locked_at now t then lockout_until t else None).
Proof. unfold future, locked_at. destruct (lockout_until t); [|done]. by destruct (now <? z). Qed.

(** [store_marked] keeps what the tracker it stores keeps. *)
Lemma store_marked_shrinks (now : Z) (c : string) (t t' : AuthAttemptTracker)
    (l l' : AuthRateLimiter) (q : list Later) :
  attempts l !! c = Some t -> kept now t t' -> store_marked c now t' l = (l', q) ->
  shrinks now l l'.
Proof.
  intros Hc Hk. unfold store_marked. pose proof (kept_mark now c t') as Hm.
  destruct (mark_evictable c now t') as [t2 x]. intros [= <- <-].
  apply (shrinks_set _ _ _ _ _ Hc). by transitivity t'.
Qed.

(** * Eviction *)

Lemma enqueue_shrinks (now : Z) (x : EvictionCandidate) (l : AuthRateLimiter) :
  shrinks now l (enqueue_eviction_candidate x l).
Proof. unfold enqueue_eviction_candidate. repeat case_match; by apply shrinks_same. Qed.

Lemma pop_shrinks (now : Z) (x : EvictionCandidate) (l l' : AuthRateLimiter) :
  pop_eviction_candidate now l = Some (x, l') -> shrinks now l l'.
Proof.
  unfold pop_eviction_candidate. repeat case_match; intros [= <- <-]; by apply shrinks_same.
Qed.

Lemma reexamine_shrinks (now : Z) (x : EvictionCandidate) (l l' : AuthRateLimiter) r :
  reexamine now x l = (l', r) -> shrinks now l l'.
Proof.
  unfold reexamine. destruct (attempts l !! client_id x) as [t|] eqn:Ht; [|by intros [= <- <-]].
  destruct (negb _); intros [= <- <-]; [done|].
  apply (shrinks_set _ _ _ _ _ Ht). case_match; apply kept_eviction.
Qed.

Lemma evict_loop_shrinks (fuel k : nat) (now : Z) (l l' : AuthRateLimiter) (b : bool) :
  evict_loop fuel k now l = Some (l', b) ->
  shrinks now l l' /\ (b = true -> (size (attempts l') < size (attempts l))%nat).
Proof.
  revert k l. induction fuel as [|fuel IH]; intros k l; cbn [evict_loop].
  - destruct (MAX_EVICTION_PROBES <=? k)%nat; [|done]. by intros [= <- <-].
  - destruct (MAX_EVICTION_PROBES <=? k)%nat; [by intros [= <- <-]|].
    destruct (pop_eviction_candidate now l) as [[x l1]|] eqn:Ep; [|by intros [= <- <-]].
    apply pop_shrinks in Ep.
    assert (Hgo : forall k l2, shrinks now l1 l2 -> evict_loop fuel k now l2 = Some (l', b) ->
      shrinks now l l' /\ (b = true -> (size (attempts l') < size (attempts l))%nat)).
    { intros k' l2 H2 [H3 Hsz]%IH. split; [by do 2 (etrans; [eassumption|])|].
      intros Hb. specialize (Hsz Hb). destruct Ep, H2. lia. }
    destruct (attempts l1 !! client_id x) as [t|] eqn:Ht; [|by apply Hgo].
    destruct (current_candidate x t && is_evictable now t) eqn:Ee.
    + intros [= <- <-]. apply andb_prop in Ee as [_ Ee]. unfold is_evictable in Ee.
      apply andb_prop in Ee as [Ee Hl]. apply andb_prop in Ee as [Hw Hf].
      apply Z.eqb_eq in Hw, Hf. apply negb_true_iff in Hl.
      destruct (shrinks_remove now (client_id x) t l1 Ht Hw Hf Hl) as [Hr Hsz].
      split; [by etrans|]. intros _. destruct Ep. lia.
    + destruct (reexamine now x l1) as [l2 r] eqn:Er. apply reexamine_shrinks in Er.
      destruct r as [[until active]|]; [|by apply Hgo].
      destruct (future now until) as [d|].
      * apply Hgo. etrans; [done|]. apply enqueue_shrinks.
      * destruct active; [by apply Hgo|]. apply Hgo. etrans; [done|]. apply enqueue_shrinks.
Qed.

Lemma evict_shrinks (now : Z) (l l' : AuthRateLimiter) (b : bool) :
  evict_one_inactive now l = (l', b) ->
  shrinks now l l' /\ (b = true -> (size (attempts l') < size (attempts l))%nat).
Proof.
  unfold evict_one_inactive. destruct (evict_loop _ _ _ _) as [[l1 b1]|] eqn:Ee; simpl.
  - intros [= <- <-]. by eapply evict_loop_shrinks.
  - by intros [= <- <-].
Qed.

Lemma block_shrinks (now : Z) (l : AuthRateLimiter) : shrinks now l (block l).
Proof. by apply shrinks_same. Qed.

Lemma make_room_shrinks (now : Z) (l l' : AuthRateLimiter) (b : bool) :
  make_room max_entries now l = (l', b) -> Z.of_nat (size (attempts l)) <= max_entries ->
  shrinks now l l' /\ (b = true -> Z.of_nat (size (attempts l')) < max_entries).
Proof.
  unfold make_room. intros Hm Hle. destruct (Z.leb_spec max_entries (Z.of_nat (size (attempts l)))).
  - destruct (evict_one_inactive now l) as [l1 b1] eqn:Ee. apply evict_shrinks in Ee as [Hs Hz].
    destruct b1; injection Hm as <- <-.
    + split; [done|]. intros _. specialize (Hz eq_refl). lia.
    + split; [|done]. etrans; [done|]. apply block_shrinks.
  - injection Hm as <- <-. split; [done|]. intros _. lia.
Qed.

Lemma cleanup_shrinks (now : Z) (l : AuthRateLimiter) :
  (forall d t, attempts l !! d = Some t -> 0 <= waiting t /\ 0 <= in_flight t) ->
  shrinks now l (cleanup_old_entries window_secs now l).
Proof.
  intros Hpos. split; simpl; [| | |done].
  - intros d Hd. by apply map_lookup_filter_None; left.
  - intros d t Hd. destruct (filter _ (attempts l) !! d) as [t'|] eqn:Ef.
    + apply map_lookup_filter_Some in Ef as [Ef _]. simplify_eq. done.
    + apply map_lookup_filter_None in Ef as [Ef|Ef]; [congruence|].
      specialize (Ef t Hd). simpl in Ef. destruct (Hpos d t Hd).
      unfold outlives_cleanup in Ef. destruct (locked_at now t); [by rewrite orb_true_r in Ef|].
      destruct (Z.ltb_spec 0 (in_flight t)); [done|]. destruct (Z.ltb_spec 0 (waiting t)); [done|].
      split_and!; lia || done.
  - apply map_size_filter.
Qed.

Lemma perform_shrinks (now : Z) (x : Later) (l : AuthRateLimiter) : shrinks now l (perform x l).
Proof.
  destruct x as [x|x|c]; simpl; [apply enqueue_shrinks|by apply shrinks_same|].
  unfold remove_disposable_success. destruct (attempts l !! c) as [t|] eqn:Ht; [|done].
  destruct (is_disposable_success t) eqn:Ed; [|done]. unfold is_disposable_success in Ed.
  apply andb_prop in Ed as [Ed _]. apply andb_prop in Ed as [Ed Hl]. apply andb_prop in Ed as [Ed _].
  apply andb_prop in Ed as [Hf Hw]. apply Z.eqb_eq in Hw, Hf.
  apply (shrinks_remove now c t l Ht Hw Hf). unfold locked_at. by destruct (lockout_until t).
Qed.

(** What an operation did to the tracker of its client. *)
Inductive Change := Plain | Settled (failed : bool) (gen : Z) | Success | Failure.

Abbreviation apply_failure := (apply_failure max_attempts base_lockout_secs instant_max).

(** A settled attempt counts as a failure of the current generation. *)
Definition counts (now : Z) (gen : Z) (t : AuthAttemptTracker) : bool :=
  (generation t =? gen) && negb (locked_at now t).

Definition same_history (t t' : AuthAttemptTracker) : Prop :=
  generation t' = generation t /\ failure_count t' = failure_count t /\
  window_start t' = window_start t /\ lockout_until t' = lockout_until t.

Definition history (now : Z) (how : Change) (t t' : AuthAttemptTracker) : Prop :=
  match how with
  | Plain => aged now t t'
  | Settled true gen =>
      if counts now gen t then same_history (fst (apply_failure now t)) t' else same_history t t'
  | Settled false _ => same_history t t'
  | Success | Failure => True
  end.

(** * What operations move

    [w] attempts more wait and [f] more are in flight at one client. *)

Record recounted (now : Z) (how : Change) (w f : Z) (t t' : AuthAttemptTracker) : Prop := {
  r_waiting : waiting t' = waiting t + w;
  r_flying : in_flight t' = in_flight t + f;
  r_entry : entry_id t' = entry_id t;
  r_failures : 0 <= failure_count t -> 0 <= failure_count t';
  r_queue : waiting t <= MAX_QUEUED_ATTEMPTS_PER_CLIENT -> waiting t' <= MAX_QUEUED_ATTEMPTS_PER_CLIENT;
  r_locked : how <> Failure -> forall u, lockout_until t = Some u -> now < u -> lockout_until t' = Some u;
  r_epoch : state_epoch t <= state_epoch t';
  r_quiet : state_epoch t' = state_epoch t ->
    failure_count t' = failure_count t /\ window_start t' = window_start t /\
    (lockout_until t = None -> lockout_until t' = None) /\ 0 <= f;
  r_history : history now how t t';
}.

Lemma history_same (now : Z) (how : Change) (t t1 t2 : AuthAttemptTracker) :
  same_history t1 t2 -> history now how t t1 -> history now how t t2.
Proof.
  intros (Hg & Hf & Hw & Hl) Hh.
  assert (Hs : forall t0, same_history t0 t1 -> same_history t0 t2).
  { intros t0 (? & ? & ? & ?). split_and!; congruence. }
  destruct how as [|[] gen| |]; simpl in *; try done.
  - destruct Hh as [Hg1 Hw1 Hl1]. split; [congruence| |by rewrite Hl].
    rewrite Hf, Hw. done.
  - destruct (counts now gen t); by apply Hs.
  - by apply Hs.
Qed.

(** A change of the counters of attempts alone. *)
Ltac plain_move := split; simpl; try done; first [lia | by split; auto].

(** Marking a tracker for eviction changes nothing else. *)
Lemma recounted_mark (now : Z) (how : Change) (w f : Z) (c : string) (t t1 : AuthAttemptTracker) :
  recounted now how w f t t1 -> recounted now how w f t (fst (mark_evictable c now t1)).
Proof. intros Hr. unfold mark_evictable. destruct (_ || _); [done|].
  destruct Hr. split; try done. by eapply history_same; [|exact r_history0].
Qed.

Lemma kept_recounted (now : Z) (w f : Z) (t t1 t2 : AuthAttemptTracker) :
  kept now t t1 -> recounted now Plain w f t1 t2 -> recounted now Plain w f t t2.
Proof.
  intros [] []. split; try congruence; try lia; eauto; [|simpl in *; by etrans].
  intros He. destruct r_quiet0 as (? & ? & ? & ?); [lia|].
  destruct k_quiet0 as (? & ? & ?); [lia|]. split_and!; [congruence..|auto|done].
Qed.

Lemma recounted_same (now : Z) (t t' : AuthAttemptTracker) :
  kept now t t' -> recounted now Plain 0 0 t t'.
Proof. intros Hk. eapply kept_recounted; [exact Hk|]. plain_move.
Qed.

(** The effect of an operation at client [c], whose new tracker is semaphored by
    the next entry id. *)
Inductive effect (now : Z) (how : Change) (c : string) (w f : Z)
    (l l' : AuthRateLimiter) : Prop :=
| effect_none : w = 0 -> f = 0 -> shrinks now l l' -> effect now how c w f l l'
| effect_move t t' :
    attempts l !! c = Some t -> recounted now how w f t t' ->
    attempts l' = <[c := t']> (attempts l) -> next_entry_id l' = next_entry_id l ->
    effect now how c w f l l'
| effect_fresh l1 t' :
    attempts l !! c = None -> f = 0 -> shrinks now l l1 ->
    Z.of_nat (size (attempts l1)) < max_entries ->
    attempts l' = <[c := t']> (attempts l1) -> next_entry_id l' = wrap_u64 (next_entry_id l + 1) ->
    waiting t' = w -> in_flight t' = 0 -> entry_id t' = next_entry_id l -> 0 <= failure_count t' ->
    (how = Plain -> same_history (tracker_new now (next_entry_id l)) t') ->
    effect now how c w f l l'.

Lemma apply_failure_shape (now : Z) (t : AuthAttemptTracker) :
  let t' := fst (apply_failure now t) in
  waiting t' = waiting t /\ in_flight t' = in_flight t /\ entry_id t' = entry_id t /\
  state_epoch t' = state_epoch t /\ (0 <= failure_count t -> 0 <= failure_count t').
Proof.
  unfold apply_failure. destruct (_ <? max_attempts); [|destruct (lockout_deadline _ _ _ _)];
    simpl; split_and!; try done.
  intros Hf. unfold sat_add_u32. assert (0 <= u32_max) by done. lia.
Qed.

Lemma apply_failure_notified (now : Z) (t : AuthAttemptTracker) :
  recounted now (if locked_at now t then Failure else Settled true (generation t)) 0 0 t
    (notify_state_change (fst (apply_failure now t))).
Proof.
  destruct (apply_failure_shape now t) as (Hw & Hf & He & Hep & Hfc).
  set (t' := fst (apply_failure now t)) in *. split; simpl; try done; try lia.
  - intros Hsafe u Hu Hn. unfold locked_at in Hsafe. rewrite Hu in Hsafe.
    by rewrite (proj2 (Z.ltb_lt now u)) in Hsafe.
  - destruct (locked_at now t) eqn:Hl; [done|]. simpl. unfold counts. by rewrite Z.eqb_refl, Hl.
Qed.

Lemma check_allowed_effect (c : string) (now : Z) (l l' : AuthRateLimiter) q r :
  check_allowed window_secs c now l = (l', q, r) -> shrinks now l l'.
Proof.
  unfold check_allowed. destruct (attempts l !! c) as [t|] eqn:Ht; [|by intros [= <- <- <-]].
  rewrite future_locked. destruct (locked_at now t) eqn:Hl.
  - destruct (lockout_until t) eqn:Hu; [|by unfold locked_at in Hl; rewrite Hu in Hl].
    intros [= <- <- <-]. apply block_shrinks.
  - set (t1 := match lockout_until t with Some _ => _ | None => _ end).
    assert (Hk : kept now t t1).
    { subst t1. destruct (lockout_until t); [|done].
      etrans; [by apply kept_unlock|]. apply kept_notify. }
    destruct (store_marked _ _ _ _) as [l1 q1] eqn:Es. intros [= <- <- <-].
    eapply store_marked_shrinks; [exact Ht| |exact Es]. etrans; [exact Hk|apply kept_expire].
Qed.

(** Storing a tracker that was changed. *)
Lemma store_marked_move (now : Z) (how : Change) (w f : Z) (c : string)
    (t t1 : AuthAttemptTracker) (l l' : AuthRateLimiter) q :
  attempts l !! c = Some t -> recounted now how w f t t1 -> store_marked c now t1 l = (l', q) ->
  effect now how c w f l l'.
Proof.
  intros Hc Hr. unfold store_marked. pose proof (recounted_mark now how w f c t t1 Hr) as Hm.
  destruct (mark_evictable c now t1) as [t2 x]. intros [= <- <-].
  by eapply effect_move; [exact Hc|exact Hm|..].
Qed.

Lemma record_success_effect (c : string) (now : Z) (l l' : AuthRateLimiter) q :
  record_success c now l = (l', q) ->
  effect now Success c 0 0 l l' /\ next_entry_id l' = next_entry_id l.
Proof.
  unfold record_success. destruct (attempts l !! c) as [t|] eqn:Ht.
  - intros Hs. split.
    + apply (store_marked_move now Success 0 0 c t _ _ _ q Ht) in Hs; [done|].
      split; simpl; try done; lia.
    + unfold store_marked in Hs. destruct (mark_evictable _ _ _). by injection Hs as <- _.
  - intros [= <- <-]. split; [by apply effect_none|done].
Qed.

Lemma record_failure_effect (c : string) (now : Z) (l l' : AuthRateLimiter) q r :
  record_failure max_attempts base_lockout_secs max_entries instant_max c now l = (l', q, r) ->
  Z.of_nat (size (attempts l)) <= max_entries ->
  effect now Failure c 0 0 l l'.
Proof.
  unfold record_failure. intros Hr Hsz. destruct (attempts l !! c) as [t|] eqn:Ht.
  - pose proof (apply_failure_notified now t) as Ha. destruct (apply_failure now t) as [t1 k].
    destruct (store_marked _ _ _ _) as [l1 q1] eqn:Es. injection Hr as <- <- <-.
    eapply store_marked_move; [exact Ht| |exact Es]. by destruct Ha.
  - destruct (make_room max_entries now l) as [l1 b] eqn:Em.
    apply make_room_shrinks in Em as [Hs Hroom]; [|done]. destruct b; cycle 1.
    { injection Hr as <- <- <-. by apply effect_none. }
    simpl in Hr. pose proof (apply_failure_notified now (tracker_new now (next_entry_id l1))) as Ha.
    destruct (apply_failure now _) as [t1 k]. unfold store_marked in Hr.
    pose proof (kept_mark now c t1) as Hm.
    destruct (mark_evictable c now t1) as [t2 x]. injection Hr as <- <- <-.
    pose proof (s_next _ _ _ Hs) as Hnext. destruct Ha, Hm. simpl in *.
    apply effect_fresh with (l1 := l1) (t' := t2); simpl; try done; try congruence; try lia.
Qed.

Lemma queue_on_tracker_move (c : string) (now : Z) (t t' : AuthAttemptTracker) r :
  queue_on_tracker window_secs c now t = (t', r) ->
  recounted now Plain (match r with Ok _ => 1 | Err _ => 0 end) 0 t t'.
Proof.
  unfold queue_on_tracker. rewrite future_locked. destruct (locked_at now t) eqn:Hl.
  - destruct (lockout_until t) eqn:Hu; [|by unfold locked_at in Hl; rewrite Hu in Hl].
    intros [= <- <-]. by apply recounted_same.
  - assert (Hk : kept now t (expire_window window_secs now (set_lockout None t))).
    { etrans; [by apply kept_unlock|]. apply kept_expire. }
    set (t1 := expire_window _ _ _) in *. destruct (Z.leb_spec MAX_QUEUED_ATTEMPTS_PER_CLIENT (waiting t1)).
    + intros [= <- <-]. by apply recounted_same.
    + pose proof (kept_retire now c t1) as Hr. destruct (retire_eviction_candidate c t1) as [t2 x].
      intros [= <- <-]. eapply kept_recounted; [etrans; [exact Hk|exact Hr]|].
      pose proof (k_waiting _ _ _ Hr) as Hw. simpl in Hw.
      unfold MAX_QUEUED_ATTEMPTS_PER_CLIENT in *. split; simpl; try done;
        unfold sat_add_u32, u32_max, MAX_QUEUED_ATTEMPTS_PER_CLIENT; lia || by split; auto.
Qed.

Lemma queue_attempt_effect (c : string) (now : Z) (l l' : AuthRateLimiter) q r :
  queue_attempt window_secs max_entries c now l = (l', q, r) ->
  Z.of_nat (size (attempts l)) <= max_entries ->
  effect now Plain c (match r with Ok _ => 1 | Err _ => 0 end) 0 l l' /\
  (forall e, r = Ok e -> exists t, attempts l' !! c = Some t /\ entry_id t = e).
Proof.
  unfold queue_attempt. intros Hq Hsz. destruct (attempts l !! c) as [t|] eqn:Ht.
  - destruct (queue_on_tracker window_secs c now t) as [t1 r1] eqn:Eq.
    apply queue_on_tracker_move in Eq. destruct r1 as [x|e]; injection Hq as <- <- <-.
    + split; [by eapply effect_move; [exact Ht|exact Eq|..]|]. intros e [= <-].
      exists t1. simpl. by rewrite lookup_insert_eq.
    + split; [|done]. by eapply effect_move; [exact Ht|exact Eq|..].
  - destruct (make_room max_entries now l) as [l1 b] eqn:Em.
    apply make_room_shrinks in Em as [Hs Hroom]; [|done]. destruct b; cycle 1.
    { injection Hq as <- <- <-. split; [by apply effect_none|done]. }
    simpl in Hq. injection Hq as <- <- <-. pose proof (s_next _ _ _ Hs) as Hnext. split.
    + eapply effect_fresh with (l1 := l1); simpl; try done; [by apply Hroom|congruence..].
    + intros e [= <-]. eexists. simpl. by rewrite lookup_insert_eq.
Qed.

(** A tracker on which an attempt has to wait until [wake_at]. *)
Definition stuck (wake_at : Z) (t : AuthAttemptTracker) : Prop :=
  lockout_until t = None /\ 0 < in_flight t /\
  max_checks max_attempts <= sat_add_u32 (failure_count t) (in_flight t) /\
  wake_at <= window_start t + window_duration window_secs.

Definition activation_moves (a : AttemptActivation) : Z * Z :=
  match a with
  | Activated _ => (-1, 1)
  | WaitForSettlement _ _ => (0, 0)
  | Rejected _ => (-1, 0)
  end.

(** The tracker [activate_tracker] decides on. *)
Definition refreshed (now : Z) (t : AuthAttemptTracker) : AuthAttemptTracker :=
  expire_window window_secs now
    (match lockout_until t with
     | Some _ => notify_state_change (set_lockout None t)
     | None => t
     end).

Lemma refreshed_kept (now : Z) (t : AuthAttemptTracker) :
  locked_at now t = false -> kept now t (refreshed now t) /\ lockout_until (refreshed now t) = None.
Proof.
  intros Hl. unfold refreshed. set (t1 := match lockout_until t with Some _ => _ | None => _ end).
  assert (Hk : kept now t t1 /\ lockout_until t1 = None).
  { subst t1. destruct (lockout_until t) eqn:Hu; [|done]. split; [|done].
    etrans; [by apply kept_unlock|]. apply kept_notify. }
  destruct Hk as [Hk Hn]. split; [etrans; [exact Hk|apply kept_expire]|].
  unfold expire_window. by destruct (_ <=? _).
Qed.

Lemma activate_tracker_unlocked (now : Z) (t : AuthAttemptTracker) :
  locked_at now t = false ->
  activate_tracker max_attempts window_secs now t =
  (let t := refreshed now t in
   if max_checks max_attempts <=? sat_add_u32 (failure_count t) (in_flight t) then
     if 0 <? in_flight t
     then (t, false, WaitForSettlement (state_epoch t)
             (sat_sub (window_duration window_secs) (window_age now t)))
     else reject_waiter CAPACITY_RETRY_SECS t
   else match complete_waiter t with
        | Some t => (set_in_flight (sat_add_u32 (in_flight t) 1) t, false, Activated (generation t))
        | None => (t, false, Rejected CAPACITY_RETRY_SECS)
        end).
Proof. intros Hl. unfold activate_tracker. by rewrite future_locked, Hl. Qed.

Lemma reject_waiter_move (retry now : Z) (t : AuthAttemptTracker) :
  1 <= waiting t ->
  exists t', reject_waiter retry t = (t', true, Rejected retry) /\ recounted now Plain (-1) 0 t t'.
Proof.
  intros Hw. unfold reject_waiter, complete_waiter. rewrite (proj2 (Z.leb_le 1 _)) by done.
  eexists. split; [done|]. plain_move.
Qed.

Lemma activate_tracker_move (now : Z) (t t' : AuthAttemptTracker) b a :
  1 <= waiting t -> in_flight t < u32_max ->
  activate_tracker max_attempts window_secs now t = (t', b, a) ->
  recounted now Plain (fst (activation_moves a)) (snd (activation_moves a)) t t' /\
  match a with
  | Activated gen => locked_at now t = false /\ gen = generation t' /\ lockout_until t' = None
  | WaitForSettlement ep after => 0 <= window_secs -> ep = state_epoch t' /\ stuck (now + after) t'
  | Rejected _ => True
  end.
Proof.
  intros Hw Hf. destruct (locked_at now t) eqn:Hl.
  { unfold activate_tracker. rewrite future_locked, Hl.
    destruct (lockout_until t) eqn:Hu; [|by unfold locked_at in Hl; rewrite Hu in Hl].
    destruct (reject_waiter_move (Z.max (as_secs (z - now)) 1) now t Hw) as (t1 & -> & Hr).
    by intros [= <- <- <-]. }
  rewrite activate_tracker_unlocked by done. destruct (refreshed_kept now t Hl) as [Hk Hn].
  set (t1 := refreshed now t) in *. cbv zeta.
  pose proof (k_waiting _ _ _ Hk) as Hw1. pose proof (k_flying _ _ _ Hk) as Hf1.
  destruct (Z.leb_spec (max_checks max_attempts) (sat_add_u32 (failure_count t1) (in_flight t1))).
  - destruct (Z.ltb_spec 0 (in_flight t1)).
    + intros [= <- <- <-]. split; [by apply recounted_same|]. intros Hws. split; [done|].
      split_and!; try done. unfold sat_sub, window_age, t1, refreshed.
      set (t2 := match lockout_until t with Some _ => _ | None => _ end).
      unfold expire_window, window_age. assert (0 <= window_duration window_secs).
      { unfold window_duration, from_secs. lia. }
      destruct (Z.leb_spec (window_duration window_secs) (Z.max 0 (now - window_start t2))); simpl; lia.
    + destruct (reject_waiter_move CAPACITY_RETRY_SECS now t1 ltac:(lia)) as (t2 & -> & Hr).
      intros [= <- <- <-]. split; [|done]. by eapply kept_recounted.
  - unfold complete_waiter. rewrite (proj2 (Z.leb_le 1 _)) by lia. intros [= <- <- <-]. simpl.
    assert (Hsat : sat_add_u32 (in_flight t1) 1 = in_flight t1 + 1) by (unfold sat_add_u32; lia).
    rewrite Hsat. split.
    + eapply kept_recounted; [exact Hk|]. plain_move.
    + by split_and!.
Qed.

Lemma activate_effect (c : string) (now : Z) (t : AuthAttemptTracker) (l l' : AuthRateLimiter) a :
  attempts l !! c = Some t -> 1 <= waiting t -> in_flight t < u32_max ->
  activate_waiter max_attempts window_secs c now l = (l', a) ->
  effect now Plain c (fst (activation_moves a)) (snd (activation_moves a)) l l' /\
  match a with
  | Activated gen => locked_at now t = false /\
      exists t', attempts l' !! c = Some t' /\ gen = generation t' /\ lockout_until t' = None
  | WaitForSettlement ep after => 0 <= window_secs ->
      exists t', attempts l' !! c = Some t' /\ ep = state_epoch t' /\ stuck (now + after) t'
  | Rejected _ => True
  end.
Proof.
  intros Ht Hw Hf. unfold activate_waiter. rewrite Ht.
  destruct (activate_tracker max_attempts window_secs now t) as [[t1 b] a1] eqn:Ea.
  apply activate_tracker_move in Ea as [Hr Ha]; [|done|done].
  assert (Hat : forall b : bool, attempts (if b then block (set_tracker c t1 l) else set_tracker c t1 l) =
      <[c := t1]> (attempts l)) by by intros [].
  assert (Hnx : forall b : bool, next_entry_id (if b then block (set_tracker c t1 l) else set_tracker c t1 l) =
      next_entry_id l) by by intros [].
  intros [= <- <-]. split; [by eapply effect_move; [exact Ht|exact Hr|..]|].
  destruct a1; [|intros Hws|done].
  { destruct Ha as (? & ? & ?). split; [done|]. exists t1. by rewrite Hat, lookup_insert_eq. }
   exists t1. rewrite Hat, lookup_insert_eq.
  destruct (Ha Hws). done.
Qed.

Lemma store_idle_move (disposable : bool) (now : Z) (how : Change) (w f : Z) (c : string)
    (t t1 : AuthAttemptTracker) (l l' : AuthRateLimiter) q :
  attempts l !! c = Some t -> recounted now how w f t t1 ->
  store_idle disposable c now t1 l = (l', q) -> effect now how c w f l l'.
Proof.
  intros Hc Hr. unfold store_idle. destruct disposable; [|by apply (store_marked_move _ _ _ _ _ t)].
  intros [= <- <-]. by eapply effect_move; [exact Hc|exact Hr|..].
Qed.

Lemma cancel_effect (c : string) (now : Z) (t : AuthAttemptTracker) (l l' : AuthRateLimiter) q :
  attempts l !! c = Some t -> 1 <= waiting t -> cancel_waiter c now l = (l', q) ->
  effect now Plain c (-1) 0 l l'.
Proof.
  intros Ht Hw. unfold cancel_waiter, complete_waiter. rewrite Ht, (proj2 (Z.leb_le 1 _)) by done.
  apply store_idle_move with (t := t); [done|]. plain_move.
Qed.

Lemma finish_effect (c : string) (gen : Z) (failed : bool) (now : Z) (t : AuthAttemptTracker)
    (l l' : AuthRateLimiter) q :
  attempts l !! c = Some t -> 1 <= in_flight t ->
  finish_reservation max_attempts base_lockout_secs instant_max c gen failed now l = (l', q) ->
  effect now (Settled failed gen) c 0 (-1) l l'.
Proof.
  intros Ht Hf. unfold finish_reservation. rewrite Ht, (proj2 (Z.leb_le 1 _)) by done.
  set (t0 := set_in_flight (in_flight t - 1) t).
  change ((generation t0 =? gen)) with (generation t =? gen). change (locked_at now t0) with (locked_at now t).
  rewrite <- andb_assoc. change (_ && negb (locked_at now t)) with (counts now gen t).
  apply store_idle_move with (t := t); [done|].
  destruct (apply_failure_shape now t0) as (Hw1 & Hf1 & He1 & Hep1 & Hfc1).
  simpl in Hw1, Hf1, He1, Hep1, Hfc1.
  assert (Hsame : same_history (fst (apply_failure now t)) (fst (apply_failure now t0))).
  { unfold AuthLimiter.apply_failure. change (failure_count t0) with (failure_count t).
    change (lockout_count t0) with (lockout_count t).
    destruct (sat_add_u32 (failure_count t) 1 <? max_attempts); [done|].
    by destruct (lockout_deadline _ _ _ _). }
  assert (Hlock : counts now gen t = true -> forall u, lockout_until t = Some u -> now < u -> False).
  { unfold counts, locked_at. intros Hc u Hu Hn. rewrite Hu in Hc.
    by rewrite (proj2 (Z.ltb_lt now u)), andb_false_r in Hc. }
  destruct failed; simpl; [destruct (counts now gen t) eqn:Hc|].
  - split; simpl; try done; try lia.
    + intros _ u Hu Hn. by destruct (Hlock eq_refl u Hu Hn).
    + by rewrite Hc.
  - split; simpl; try done; try lia. by rewrite Hc.
  - split; simpl; try done; lia.
Qed.
End Accounts.
