(* ===== verification/AuthGuarantees.v ===== *)
(** What the authentication limiter guarantees in every reachable state of
    [AuthSystem]: exact accounts, bounded state, lockouts that nothing gets
    around, waiters that are always woken. *)

From S2P Require Import Prelude AuthLimiter AuthSystem AuthAccounts.

(** * Counting attempts *)

Definition count (f : Attempt -> bool) (ts : list Attempt) : Z := Z.of_nat (length (List.filter f ts)).

Definition waits (c : string) (a : Attempt) : bool := bool_decide (a_client a = c) && is_waiting (a_phase a).
Definition flies (c : string) (a : Attempt) : bool := bool_decide (a_client a = c) && is_flying (a_phase a).
Definition holds (e : Z) (a : Attempt) : bool := (a_entry a =? e) && has_permit (a_phase a).
Definition live (a : Attempt) : bool := is_waiting (a_phase a) || is_flying (a_phase a).

Lemma counted_app (f : Attempt -> bool) (ts1 ts2 : list Attempt) :
  count f (ts1 ++ ts2) = count f ts1 + count f ts2.
Proof. unfold count. rewrite List.filter_app, length_app. lia. Qed.

Lemma count_cons (f : Attempt -> bool) (a : Attempt) (ts : list Attempt) :
  count f (a :: ts) = Z.b2z (f a) + count f ts.
Proof. unfold count. simpl. destruct (f a); simpl; lia. Qed.

Lemma count_mid (f : Attempt -> bool) (a : Attempt) (ts1 ts2 : list Attempt) :
  count f (ts1 ++ a :: ts2) = count f (ts1 ++ ts2) + Z.b2z (f a).
Proof. rewrite !counted_app, count_cons. lia. Qed.

Lemma count_nonneg (f : Attempt -> bool) (ts : list Attempt) : 0 <= count f ts.
Proof. unfold count. lia. Qed.

Lemma count_pos (f : Attempt -> bool) (a : Attempt) (ts : list Attempt) :
  a ∈ ts -> f a = true -> 0 < count f ts.
Proof.
  intros (ts1 & ts2 & ->)%list_elem_of_split Hf. rewrite count_mid, Hf. simpl.
  pose proof (count_nonneg f (ts1 ++ ts2)). lia.
Qed.

Lemma count_mono (f g : Attempt -> bool) (ts : list Attempt) :
  (forall a, a ∈ ts -> f a = true -> g a = true) -> count f ts <= count g ts.
Proof.
  induction ts as [|a ts IH]; intros Hfg; [done|]. rewrite !count_cons.
  assert (count f ts <= count g ts) by (apply IH; intros b Hb; apply Hfg; by right).
  specialize (Hfg a ltac:(by left)). destruct (f a), (g a); simpl; lia || (by discriminate Hfg).
Qed.

Lemma live_counts (c : string) (a : Attempt) (ts : list Attempt) :
  a ∈ ts -> live a = true -> a_client a = c -> 0 < count (waits c) ts + count (flies c) ts.
Proof.
  intros Ha Hl Hc. pose proof (count_nonneg (waits c) ts). pose proof (count_nonneg (flies c) ts).
  unfold live in Hl. destruct (is_waiting (a_phase a)) eqn:Hw.
  - assert (0 < count (waits c) ts); [|lia]. apply (count_pos _ a); [done|].
    unfold waits. by rewrite bool_decide_eq_true_2, Hw.
  - assert (0 < count (flies c) ts); [|lia]. apply (count_pos _ a); [done|].
    unfold flies. by rewrite bool_decide_eq_true_2.
Qed.

Section Guarantees.
Variables max_attempts window_secs base_lockout_secs max_entries instant_max : Z.
Hypothesis Hattempts : max_attempts <= u32_max.
Hypothesis Hwindow : 0 <= window_secs.

Abbreviation max_checks := (max_checks max_attempts).
Abbreviation stuck := (stuck max_attempts window_secs).
Abbreviation kept := (kept window_secs).
Abbreviation shrinks := (shrinks window_secs).
Abbreviation recounted := (recounted max_attempts window_secs base_lockout_secs instant_max).
Abbreviation effect :=
  (effect max_attempts window_secs base_lockout_secs max_entries instant_max).
Abbreviation step := (step max_attempts window_secs base_lockout_secs max_entries instant_max).
Abbreviation steps := (steps max_attempts window_secs base_lockout_secs max_entries instant_max).
Abbreviation reachable := (reachable max_attempts window_secs base_lockout_secs max_entries instant_max).
Abbreviation with_semaphore := (with_semaphore max_attempts).

(** The tracker of a client counts its attempts, and they are its attempts. *)
Definition accounted (l : AuthRateLimiter) (ts : list Attempt) (c : string) : Prop :=
  match attempts l !! c with
  | Some t =>
      waiting t = count (waits c) ts /\ in_flight t = count (flies c) ts /\
      0 <= failure_count t /\ waiting t <= MAX_QUEUED_ATTEMPTS_PER_CLIENT /\
      (forall a, a ∈ ts -> a_client a = c -> live a = true -> a_entry a = entry_id t)
  | None => count (waits c) ts = 0 /\ count (flies c) ts = 0
  end.

Record semaphores (l : AuthRateLimiter) (p : gmap Z Z) (ts : list Attempt) : Prop := {
  sem_exact : forall e n, p !! e = Some n -> 0 <= n /\ n + count (holds e) ts = max_checks;
  sem_tasks : forall a, a ∈ ts -> is_Some (p !! a_entry a);
  sem_dom : forall e, is_Some (p !! e) -> 1 <= e < next_entry_id l;
  sem_next : next_entry_id l = Z.of_nat (size p) + 1;
  sem_trackers : forall c t, attempts l !! c = Some t -> is_Some (p !! entry_id t);
  sem_distinct : forall c c' t t', attempts l !! c = Some t -> attempts l !! c' = Some t' ->
    entry_id t = entry_id t' -> c = c';
}.

(** A waiter saw an epoch at which it really had to wait. *)
Definition waiters_watch (l : AuthRateLimiter) (ts : list Attempt) : Prop :=
  forall a ep wake_at t, a ∈ ts -> a_phase a = Waiting ep wake_at ->
    attempts l !! a_client a = Some t ->
    ep <= state_epoch t /\ (state_epoch t = ep -> stuck wake_at t).

Record Inv (s : System) : Prop := {
  i_accounted : forall c, accounted (limiter s) (tasks s) c;
  i_size : Z.of_nat (size (attempts (limiter s))) <= max_entries;
  i_semaphores : semaphores (limiter s) (permits s) (tasks s);
  i_watch : waiters_watch (limiter s) (tasks s);
}.

(** ** Operations *)

Lemma accounted_live (l : AuthRateLimiter) (ts : list Attempt) (a : Attempt) :
  accounted l ts (a_client a) -> a ∈ ts -> live a = true ->
  exists t, attempts l !! a_client a = Some t /\ a_entry a = entry_id t /\
    (is_waiting (a_phase a) = true -> 1 <= waiting t) /\
    (is_flying (a_phase a) = true -> 1 <= in_flight t).
Proof.
  intros Hacc Ha Hl. pose proof (live_counts _ a ts Ha Hl eq_refl) as Hpos. unfold accounted in Hacc.
  destruct (attempts l !! a_client a) as [t|]; [|lia].
  destruct Hacc as (Hw & Hf & _ & _ & He). exists t. split_and!; [done|by apply He|..]; intros Hp.
  - rewrite Hw. assert (0 < count (waits (a_client a)) ts); [|lia].
    apply (count_pos _ a); [done|]. unfold waits. by rewrite bool_decide_eq_true_2, Hp.
  - rewrite Hf. assert (0 < count (flies (a_client a)) ts); [|lia].
    apply (count_pos _ a); [done|]. unfold flies. by rewrite bool_decide_eq_true_2, Hp.
Qed.

(** Every live attempt was one, or belongs to the tracker the operation left. *)
Definition still_theirs (c : string) (l' : AuthRateLimiter) (ts ts' : list Attempt) : Prop :=
  forall a, a ∈ ts' -> live a = true ->
    (exists a0, a0 ∈ ts /\ live a0 = true /\ a_client a0 = a_client a /\ a_entry a0 = a_entry a) \/
    (a_client a = c /\ exists t, attempts l' !! c = Some t /\ a_entry a = entry_id t).

Lemma effect_accounted (now : Z) (how : Change) (c : string) (w f : Z) (l l' : AuthRateLimiter)
    (ts ts' : list Attempt) :
  effect now how c w f l l' -> w <= 1 -> (forall d, accounted l ts d) ->
  (forall d, count (waits d) ts' = count (waits d) ts + (if decide (d = c) then w else 0)) ->
  (forall d, count (flies d) ts' = count (flies d) ts + (if decide (d = c) then f else 0)) ->
  still_theirs c l' ts ts' ->
  forall d, accounted l' ts' d.
Proof.
  intros He Hw Hacc Hcw Hcf Hst.
  (* the entries of live attempts, from the trackers before and after *)
  assert (Hentry : forall d t', attempts l' !! d = Some t' ->
    (forall t, attempts l !! d = Some t -> entry_id t' = entry_id t) ->
    forall a, a ∈ ts' -> a_client a = d -> live a = true -> a_entry a = entry_id t').
  { intros d t' Ht' Hsame a Ha Hd Hl. destruct (Hst a Ha Hl) as [(a0 & Ha0 & Hl0 & Hc0 & He0)|(Hc & t & Ht & Hx)].
    - destruct (accounted_live l ts a0 (Hacc _) Ha0 Hl0) as (t & Ht & Hx & _).
      rewrite (Hsame t) by congruence. congruence.
    - subst d c. congruence. }
  assert (Hshrunk : forall l1, shrinks now l l1 -> forall d, attempts l' !! d = attempts l1 !! d ->
    count (waits d) ts' = count (waits d) ts -> count (flies d) ts' = count (flies d) ts ->
    accounted l' ts' d).
  { intros l1 [Hnone Hsome _ _] d Hat Hcw0 Hcf0. unfold accounted. rewrite Hcw0, Hcf0, Hat.
    specialize (Hacc d). unfold accounted in Hacc. destruct (attempts l !! d) as [t|] eqn:Ht.
    - specialize (Hsome d t Ht). destruct Hacc as (Hw0 & Hf0 & Hfc & Hq & _).
      destruct (attempts l1 !! d) as [t1|] eqn:Ht1; [|destruct Hsome as (? & ? & _); lia].
      destruct Hsome. split_and!; try congruence; try lia; try by auto.
      apply Hentry; [congruence|]. intros t0 Ht0. congruence.
    - by rewrite (Hnone d Ht). }
  intros d. destruct He as [-> -> Hs|t t' Ht Hr Hat Hnx|l1 t' Hn -> Hs Hsz Hat Hnx Hw1 Hf1 He1 Hfc1].
  - apply (Hshrunk l'); [done|done|rewrite Hcw|rewrite Hcf]; destruct (decide (d = c)); lia.
  - destruct (decide (d = c)) as [->|Hne].
    + pose proof (Hacc c) as Hc. unfold accounted in *. rewrite Hat, lookup_insert_eq, Hcw, Hcf.
      rewrite Ht in Hc. destruct Hc as (Hw0 & Hf0 & Hfc & Hq & _). rewrite !decide_True by done.
      pose proof Hr as []. split_and!; [lia|lia|by auto|by auto|].
      apply Hentry; [by rewrite Hat, lookup_insert_eq|]. intros t0 Ht0. congruence.
    + apply (Hshrunk l); [done|by rewrite Hat, lookup_insert_ne|rewrite Hcw|rewrite Hcf];
        rewrite decide_False by done; lia.
  - destruct (decide (d = c)) as [->|Hne].
    + pose proof (Hacc c) as Hc. unfold accounted in *. rewrite Hat, lookup_insert_eq, Hcw, Hcf.
      rewrite Hn in Hc. rewrite !decide_True by done. unfold MAX_QUEUED_ATTEMPTS_PER_CLIENT.
      split_and!; [lia|lia|done|lia|].
      apply Hentry; [by rewrite Hat, lookup_insert_eq|]. intros t0 Ht0. congruence.
    + apply (Hshrunk l1); [done|by rewrite Hat, lookup_insert_ne|rewrite Hcw|rewrite Hcf];
        rewrite decide_False by done; lia.
Qed.

Lemma effect_size (now : Z) (how : Change) (c : string) (w f : Z) (l l' : AuthRateLimiter) :
  effect now how c w f l l' -> Z.of_nat (size (attempts l)) <= max_entries ->
  Z.of_nat (size (attempts l')) <= max_entries.
Proof.
  intros [_ _ []|t t' Ht _ Hat _|l1 t' _ _ _ Hsz Hat _ _ _ _ _] Hle; [lia|..]; rewrite Hat.
  - by rewrite map_size_insert_Some by eauto.
  - rewrite map_size_insert. destruct (attempts l1 !! c); simpl; lia.
Qed.

Lemma effect_entries (now : Z) (how : Change) (c : string) (w f : Z) (l l' : AuthRateLimiter)
    (d : string) (t' : AuthAttemptTracker) :
  effect now how c w f l l' -> attempts l' !! d = Some t' ->
  (exists t, attempts l !! d = Some t /\ entry_id t' = entry_id t) \/
  (d = c /\ attempts l !! c = None /\ entry_id t' = next_entry_id l /\
   next_entry_id l' = wrap_u64 (next_entry_id l + 1)).
Proof.
  assert (Hshrunk : forall l1, shrinks now l l1 -> attempts l1 !! d = Some t' ->
    exists t, attempts l !! d = Some t /\ entry_id t' = entry_id t).
  { intros l1 [Hnone Hsome _ _] Ht'. destruct (attempts l !! d) as [t|] eqn:Ht.
    - specialize (Hsome d t Ht). rewrite Ht' in Hsome. exists t. by destruct Hsome.
    - by rewrite (Hnone d Ht) in Ht'. }
  intros [_ _ Hs|t t1 Ht Hr Hat _|l1 t1 Hn _ Hs _ Hat Hnx _ _ He _] Hd.
  - left. by eapply Hshrunk.
  - left. rewrite Hat in Hd. destruct (decide (d = c)) as [->|Hne].
    + rewrite lookup_insert_eq in Hd. simplify_eq. exists t. by destruct Hr.
    + rewrite lookup_insert_ne in Hd by done. eauto.
  - rewrite Hat in Hd. destruct (decide (d = c)) as [->|Hne].
    + rewrite lookup_insert_eq in Hd. simplify_eq. by right.
    + left. rewrite lookup_insert_ne in Hd by done. by eapply Hshrunk.
Qed.

Lemma effect_next (now : Z) (how : Change) (c : string) (w f : Z) (l l' : AuthRateLimiter) :
  effect now how c w f l l' ->
  next_entry_id l' = next_entry_id l \/
  attempts l !! c = None /\ next_entry_id l' = wrap_u64 (next_entry_id l + 1).
Proof. intros [_ _ []|t t' _ _ _ Hn|l1 t' Hc _ _ _ _ Hn _ _ _ _]; auto. Qed.

Lemma counted_zero (f : Attempt -> bool) (ts : list Attempt) :
  (forall a, a ∈ ts -> f a = false) -> count f ts = 0.
Proof.
  induction ts as [|a ts IH]; intros Hf; [done|]. rewrite count_cons, (Hf a) by by left.
  rewrite IH; [done|]. intros b Hb. apply Hf. by right.
Qed.

Lemma effect_semaphores (now : Z) (how : Change) (c : string) (w f : Z) (l l' : AuthRateLimiter)
    (p : gmap Z Z) (ts ts' : list Attempt) :
  effect now how c w f l l' -> semaphores l p ts ->
  Z.of_nat (size (with_semaphore l l' p)) < u64_max ->
  (forall e, count (holds e) ts' = count (holds e) ts) ->
  (forall a, a ∈ ts' -> (exists a0, a0 ∈ ts /\ a_entry a0 = a_entry a) \/
    (exists d t, attempts l' !! d = Some t /\ a_entry a = entry_id t)) ->
  semaphores l' (with_semaphore l l' p) ts'.
Proof.
  intros He [Hex Htasks Hdom Hnext Htr Hdis] Hsz Hcnt Hts.
  pose proof (fun d t' => effect_entries _ _ _ _ _ _ _ d t' He) as Hent.
  assert (Hbase : forall p' : gmap Z Z, (forall e, is_Some (p !! e) -> is_Some (p' !! e)) ->
    (attempts l !! c = None -> next_entry_id l' = wrap_u64 (next_entry_id l + 1) ->
     is_Some (p' !! next_entry_id l)) ->
    (forall d t, attempts l' !! d = Some t -> is_Some (p' !! entry_id t)) /\
    (forall a, a ∈ ts' -> is_Some (p' !! a_entry a))).
  { intros p' Hp Hnew. assert (Ht' : forall d t, attempts l' !! d = Some t -> is_Some (p' !! entry_id t)).
    { intros d t' Ht'. destruct (Hent d t' Ht') as [(t & Ht & ->)|(-> & Hc & -> & Hn)]; eauto. }
    split; [done|]. intros a Ha. destruct (Hts a Ha) as [(a0 & Ha0 & <-)|(d & t & Hd & ->)]; eauto. }
  assert (Hdis' : forall d d' t t', attempts l' !! d = Some t -> attempts l' !! d' = Some t' ->
    entry_id t = entry_id t' -> d = d').
  { intros d d' t t' Hd Hd' Heq.
    destruct (Hent d t Hd) as [(t1 & Ht1 & E1)|(-> & _ & E1 & _)],
      (Hent d' t' Hd') as [(t2 & Ht2 & E2)|(-> & _ & E2 & _)].
    - apply (Hdis _ _ _ _ Ht1 Ht2). congruence.
    - destruct (Hdom (entry_id t1) (Htr _ _ Ht1)). lia.
    - destruct (Hdom (entry_id t2) (Htr _ _ Ht2)). lia.
    - done. }
  assert (Hfresh : p !! next_entry_id l = None).
  { destruct (p !! next_entry_id l) eqn:Hp; [|done]. destruct (Hdom (next_entry_id l)); [by eauto|lia]. }
  unfold AuthSystem.with_semaphore in *.
  destruct (Z.eqb_spec (next_entry_id l') (next_entry_id l)) as [Hn|Hn].
  - destruct (Hbase p) as [Ht' Ha']; [done| |].
    { intros _ Hw. exfalso. rewrite Hn in Hw. unfold wrap_u64 in Hw.
      pose proof (Z.div_mod (next_entry_id l + 1) (2 ^ 64) ltac:(done)). lia. }
    split; [|done|by rewrite Hn|by rewrite Hn|done|done].
    intros e n Hp. rewrite Hcnt. by apply Hex.
  - destruct (effect_next _ _ _ _ _ _ _ He) as [?|[Hc Hw]]; [done|].
    rewrite map_size_insert_None in Hsz by done.
    assert (Hw1 : next_entry_id l' = next_entry_id l + 1).
    { rewrite Hw. apply wrap_u64_small. unfold fits_u64, u64_max in *. lia. }
    destruct (Hbase (<[next_entry_id l := max_checks]> p)) as [Ht' Ha'].
    { intros e He'. apply lookup_insert_is_Some'. by right. }
    { intros _ _. by rewrite lookup_insert_eq. }
    split; [|done| | |done|done].
    + intros e n Hp. rewrite Hcnt. destruct (decide (e = next_entry_id l)) as [->|Hne].
      * rewrite lookup_insert_eq in Hp. injection Hp as <-. rewrite counted_zero.
        { unfold AuthLimiter.max_checks. lia. }
        intros a Ha. unfold holds. destruct (Hdom _ (Htasks a Ha)).
        by rewrite (proj2 (Z.eqb_neq _ _)) by lia.
      * rewrite lookup_insert_ne in Hp by done. by apply Hex.
    + intros e He'. rewrite Hw1. destruct (decide (e = next_entry_id l)) as [->|Hne].
      * lia.
      * rewrite lookup_insert_ne in He' by done. specialize (Hdom e He'). lia.
    + rewrite map_size_insert_None by done. lia.
Qed.

Lemma stuck_kept (now wake_at : Z) (t t' : AuthAttemptTracker) :
  kept now t t' -> state_epoch t' = state_epoch t -> stuck wake_at t -> stuck wake_at t'.
Proof.
  intros [] He (Hl & Hf & Ho & Hw). destruct (k_quiet He) as (Hfc & Hws & Hlk).
  unfold AuthAccounts.stuck. rewrite Hfc, Hws, k_flying. auto.
Qed.

Lemma stuck_recounted (now : Z) (how : Change) (w f wake_at : Z) (t t' : AuthAttemptTracker) :
  recounted now how w f t t' -> state_epoch t' = state_epoch t -> stuck wake_at t ->
  stuck wake_at t'.
Proof.
  intros [] He (Hl & Hf & Ho & Hw). destruct (r_quiet He) as (Hfc & Hws & Hlk & Hfp).
  unfold AuthAccounts.stuck. rewrite Hfc, Hws, r_flying. split_and!; auto; [lia|].
  unfold sat_add_u32 in *. lia.
Qed.

(** The waiters of before still watch; new ones have to. *)
Lemma effect_watch (now : Z) (how : Change) (c : string) (w f : Z) (l l' : AuthRateLimiter)
    (ts ts' : list Attempt) :
  effect now how c w f l l' -> (forall d, accounted l ts d) -> waiters_watch l ts ->
  (forall a ep wake_at, a ∈ ts' -> a_phase a = Waiting ep wake_at -> a ∈ ts \/
    (a_client a = c /\ exists t, attempts l' !! c = Some t /\ ep = state_epoch t /\ stuck wake_at t)) ->
  waiters_watch l' ts'.
Proof.
  intros He Hacc Hwatch Hnew a ep wake_at t' Ha Hp Ht'.
  destruct (Hnew a ep wake_at Ha Hp) as [Hold|(Hc & t & Ht & -> & Hst)]; cycle 1.
  { assert (t = t') as <- by congruence. split; [done|by intros _]. }
  destruct (accounted_live l ts a (Hacc _) Hold) as (t & Ht & _); [unfold live; by rewrite Hp|].
  destruct (Hwatch a ep wake_at t Hold Hp Ht) as [Hle Hst].
  assert (Hkept : kept now t t' -> ep <= state_epoch t' /\ (state_epoch t' = ep -> stuck wake_at t')).
  { intros Hk. pose proof (k_epoch _ _ _ _ Hk). split; [lia|]. intros He'.
    apply (stuck_kept _ _ _ _ Hk); [lia|]. apply Hst. lia. }
  destruct He as [_ _ [_ Hsome _ _]|t0 t1 Ht0 Hr Hat _|l1 t1 Hn _ [_ Hsome _ _] _ Hat _ _ _ _ _].
  - apply Hkept. specialize (Hsome _ _ Ht). by rewrite Ht' in Hsome.
  - destruct (decide (a_client a = c)) as [Hc|Hne].
    + subst c. rewrite Hat, lookup_insert_eq in Ht'. simplify_eq. pose proof (r_epoch _ _ _ _ _ _ _ _ _ _ Hr).
      split; [lia|]. intros He'. apply (stuck_recounted _ _ _ _ _ _ _ Hr); [lia|]. apply Hst. lia.
    + rewrite Hat, lookup_insert_ne in Ht' by done. simplify_eq. by apply Hkept.
  - destruct (decide (a_client a = c)) as [Hc|Hne]; [congruence|].
    rewrite Hat, lookup_insert_ne in Ht' by done. apply Hkept. specialize (Hsome _ _ Ht).
    by rewrite Ht' in Hsome.
Qed.

(** ** Steps *)

(** An attempt that goes on in another phase, or is over. *)
Definition onward (c : string) (e : Z) (ph : option Phase) : list Attempt :=
  option_list (mkAttempt c e <$> ph).
Definition flag (g : Phase -> bool) (ph : option Phase) : Z :=
  match ph with Some ph => Z.b2z (g ph) | None => 0 end.

Lemma count_onward (g : Phase -> bool) (b : bool) (f : Attempt -> bool) (c : string) (e : Z)
    (ph : option Phase) (ts1 ts2 : list Attempt) :
  (forall ph, f (mkAttempt c e ph) = b && g ph) ->
  count f (ts1 ++ onward c e ph ++ ts2) = count f (ts1 ++ ts2) + (if b then flag g ph else 0).
Proof.
  intros Hf. unfold onward. destruct ph as [ph|]; simpl.
  - rewrite count_mid, Hf. by destruct b.
  - destruct b; lia.
Qed.

Lemma waits_onward (d c : string) (e : Z) (ph : option Phase) (ts1 ts2 : list Attempt) :
  count (waits d) (ts1 ++ onward c e ph ++ ts2) =
  count (waits d) (ts1 ++ ts2) + (if decide (d = c) then flag is_waiting ph else 0).
Proof.
  rewrite (count_onward is_waiting (bool_decide (d = c))).
  - by destruct (decide (d = c)); [rewrite bool_decide_eq_true_2|rewrite bool_decide_eq_false_2].
  - intros ph'. unfold waits. simpl. f_equal. by apply bool_decide_ext.
Qed.

Lemma flies_onward (d c : string) (e : Z) (ph : option Phase) (ts1 ts2 : list Attempt) :
  count (flies d) (ts1 ++ onward c e ph ++ ts2) =
  count (flies d) (ts1 ++ ts2) + (if decide (d = c) then flag is_flying ph else 0).
Proof.
  rewrite (count_onward is_flying (bool_decide (d = c))).
  - by destruct (decide (d = c)); [rewrite bool_decide_eq_true_2|rewrite bool_decide_eq_false_2].
  - intros ph'. unfold flies. simpl. f_equal. by apply bool_decide_ext.
Qed.

Lemma holds_onward (x : Z) (c : string) (e : Z) (ph : option Phase) (ts1 ts2 : list Attempt) :
  count (holds x) (ts1 ++ onward c e ph ++ ts2) =
  count (holds x) (ts1 ++ ts2) + (if e =? x then flag has_permit ph else 0).
Proof. by apply count_onward. Qed.

Lemma elem_of_onward (a : Attempt) (c : string) (e : Z) (ph : option Phase) (ts1 ts2 : list Attempt) :
  a ∈ ts1 ++ onward c e ph ++ ts2 ->
  a ∈ ts1 ++ ts2 \/ exists ph', ph = Some ph' /\ a = mkAttempt c e ph'.
Proof.
  unfold onward. rewrite !elem_of_app. intros [Ha|[Ha|Ha]]; [by left; left| |by left; right].
  destruct ph as [ph|]; simpl in Ha; [|by apply elem_of_nil in Ha].
  apply list_elem_of_singleton in Ha. by right; exists ph.
Qed.

(** Live attempts of the new list, when the attempt that moved was live. *)
Lemma onward_theirs (c : string) (e : Z) (ph : Phase) (ph' : option Phase) (l' : AuthRateLimiter)
    (ts1 ts2 : list Attempt) :
  live (mkAttempt c e ph) = true \/
    flag is_waiting ph' + flag is_flying ph' = 0 ->
  still_theirs c l' (ts1 ++ onward c e (Some ph) ++ ts2) (ts1 ++ onward c e ph' ++ ts2).
Proof.
  intros Hph a Ha Hl. left. apply elem_of_onward in Ha as [Ha|(ph2 & -> & ->)].
  - exists a. split_and!; try done. rewrite elem_of_app in *. rewrite elem_of_app. tauto.
  - destruct Hph as [Hph|Hph]; [|unfold live, flag in *; simpl in *;
      by destruct (is_waiting ph2), (is_flying ph2)].
    exists (mkAttempt c e ph). split_and!; try done. rewrite !elem_of_app. right; left.
    by apply list_elem_of_singleton.
Qed.

(** A step of one attempt through an operation at its client. *)
Lemma inv_move (now : Z) (how : Change) (c : string) (e w f : Z) (ph : Phase) (ph' : option Phase)
    (l l' : AuthRateLimiter) (p : gmap Z Z) (ts1 ts2 : list Attempt) (q q' : list Later) :
  Inv (mkSystem l p (ts1 ++ mkAttempt c e ph :: ts2) q) -> live (mkAttempt c e ph) = true ->
  Z.of_nat (size p) < u64_max -> w <= 1 ->
  effect now how c w f l l' ->
  flag is_waiting ph' = Z.b2z (is_waiting ph) + w -> flag is_flying ph' = Z.b2z (is_flying ph) + f ->
  flag has_permit ph' = Z.b2z (has_permit ph) ->
  (forall ep wake_at, ph' = Some (Waiting ep wake_at) ->
     exists t, attempts l' !! c = Some t /\ ep = state_epoch t /\ stuck wake_at t) ->
  Inv (mkSystem l' p (ts1 ++ onward c e ph' ++ ts2) q').
Proof.
  intros [Hacc Hsize Hsem Hwatch] Hlive Hsz Hw1 He Hw Hf Hp Hwait. simpl in *.
  change (ts1 ++ mkAttempt c e ph :: ts2) with (ts1 ++ onward c e (Some ph) ++ ts2) in *.
  set (ts := ts1 ++ onward c e (Some ph) ++ ts2) in *.
  destruct (accounted_live l ts (mkAttempt c e ph) (Hacc _)) as (t0 & Ht0 & _); [|done|].
  { unfold ts. rewrite !elem_of_app. right; left. by apply list_elem_of_singleton. }
  assert (Hsame : with_semaphore l l' p = p).
  { unfold AuthSystem.with_semaphore. destruct (effect_next _ _ _ _ _ _ _ He) as [->|[Hc _]].
    - by rewrite Z.eqb_refl.
    - simpl in Ht0. congruence. }
  split; simpl.
  - apply (effect_accounted _ _ _ _ _ _ _ _ _ He Hw1 Hacc).
    + intros d. unfold ts. rewrite !waits_onward, Hw. simpl flag. destruct (decide (d = c)); lia.
    + intros d. unfold ts. rewrite !flies_onward, Hf. simpl flag. destruct (decide (d = c)); lia.
    + apply onward_theirs. by left.
  - by eapply effect_size.
  - rewrite <- Hsame. apply (effect_semaphores _ _ _ _ _ _ _ _ _ _ He Hsem); [by rewrite Hsame| |].
    + intros x. unfold ts. rewrite !holds_onward, Hp. done.
    + intros a Ha. left. apply elem_of_onward in Ha as [Ha|(ph2 & -> & ->)].
      * exists a. split; [|done]. unfold ts. rewrite elem_of_app in Ha. rewrite !elem_of_app. tauto.
      * exists (mkAttempt c e ph). split; [|done]. unfold ts. rewrite !elem_of_app. right; left.
        by apply list_elem_of_singleton.
  - apply (effect_watch _ _ _ _ _ _ _ _ _ He Hacc Hwatch). intros a ep wake_at Ha Hpa.
    apply elem_of_onward in Ha as [Ha|(ph2 & -> & ->)].
    + left. unfold ts. rewrite elem_of_app in Ha. rewrite !elem_of_app. tauto.
    + simpl in Hpa. subst ph2. right. split; [done|]. by apply Hwait.
Qed.

Lemma unchanged_effect (now : Z) (c : string) (l : AuthRateLimiter) :
  effect now Plain c 0 0 l l.
Proof. by apply effect_none. Qed.

(** A step of one attempt that takes or gives back a permit. *)
Lemma inv_permit (c : string) (e n : Z) (ph : Phase) (ph' : option Phase)
    (l : AuthRateLimiter) (p : gmap Z Z) (ts1 ts2 : list Attempt) (q : list Later) :
  Inv (mkSystem l p (ts1 ++ mkAttempt c e ph :: ts2) q) ->
  p !! e = Some n -> 0 <= n + Z.b2z (has_permit ph) - flag has_permit ph' ->
  flag is_waiting ph' = Z.b2z (is_waiting ph) -> flag is_flying ph' = Z.b2z (is_flying ph) ->
  (forall ep wake_at, ph' <> Some (Waiting ep wake_at)) ->
  Inv (mkSystem l (<[e := n + Z.b2z (has_permit ph) - flag has_permit ph']> p)
         (ts1 ++ onward c e ph' ++ ts2) q).
Proof.
  intros [Hacc Hsize Hsem Hwatch] Hn Hpos Hw Hf Hwait. simpl in *.
  change (ts1 ++ mkAttempt c e ph :: ts2) with (ts1 ++ onward c e (Some ph) ++ ts2) in *.
  set (ts := ts1 ++ onward c e (Some ph) ++ ts2) in *.
  assert (Hold : forall a, a ∈ ts1 ++ ts2 -> a ∈ ts).
  { intros a Ha. unfold ts. rewrite elem_of_app in Ha. rewrite !elem_of_app. tauto. }
  assert (Hself : mkAttempt c e ph ∈ ts).
  { unfold ts. rewrite !elem_of_app. right; left. by apply list_elem_of_singleton. }
  pose proof (unchanged_effect 0 c l) as He.
  split; simpl; [|done| |].
  - apply (effect_accounted _ _ _ _ _ _ _ _ _ He ltac:(lia) Hacc).
    + intros d. unfold ts. rewrite !waits_onward, Hw. simpl flag. destruct (decide (d = c)); lia.
    + intros d. unfold ts. rewrite !flies_onward, Hf. simpl flag. destruct (decide (d = c)); lia.
    + apply onward_theirs. unfold live. simpl.
      destruct (is_waiting ph), (is_flying ph); simpl in *; auto; right; lia.
  - destruct Hsem as [Hex Htasks Hdom Hnext Htr Hdis].
    assert (Hdom' : forall x v, is_Some (<[e := v]> p !! x) <-> is_Some (p !! x)).
    { intros x v. rewrite lookup_insert_is_Some'. split; [|by right]. intros [<-|?]; eauto. }
    split; [| | | | |done].
    + intros x m Hm. unfold ts in *. rewrite holds_onward. destruct (decide (x = e)) as [->|Hne].
      * rewrite lookup_insert_eq in Hm. injection Hm as <-. rewrite Z.eqb_refl.
        destruct (Hex e n Hn) as [_ Hsum]. rewrite holds_onward, Z.eqb_refl in Hsum.
        simpl in Hsum. split; [done|lia].
      * rewrite lookup_insert_ne in Hm by done. destruct (Hex x m Hm) as [Hx Hsum].
        rewrite holds_onward in Hsum. rewrite (proj2 (Z.eqb_neq e x)) in * by done. by split.
    + intros a Ha. apply Hdom'. apply elem_of_onward in Ha as [Ha|(ph2 & -> & ->)]; [by auto|].
      simpl. by eauto.
    + intros x Hx. apply Hdom' in Hx. by apply Hdom.
    + by rewrite map_size_insert_Some by eauto.
    + intros d t Ht. by apply Hdom', (Htr d).
  - apply (effect_watch _ _ _ _ _ _ _ _ _ He Hacc Hwatch). intros a ep wake_at Ha Hpa.
    apply elem_of_onward in Ha as [Ha|(ph2 & -> & ->)]; [by left; auto|].
    simpl in Hpa. subst ph2. by destruct (Hwait ep wake_at).
Qed.

(** An operation that is not a step of an attempt under way. *)
Lemma inv_operation (now : Z) (how : Change) (c : string) (w : Z) (new : list Attempt)
    (l l' : AuthRateLimiter) (p : gmap Z Z) (ts : list Attempt) (q q' : list Later) :
  Inv (mkSystem l p ts q) -> Z.of_nat (size (with_semaphore l l' p)) < u64_max ->
  effect now how c w 0 l l' ->
  (new = [] /\ w = 0) \/
    (w = 1 /\ exists t, new = [mkAttempt c (entry_id t) Queued] /\ attempts l' !! c = Some t) ->
  Inv (mkSystem l' (with_semaphore l l' p) (new ++ ts) q').
Proof.
  intros [Hacc Hsize Hsem Hwatch] Hsz He Hnew. simpl in *.
  assert (Hin : forall a, a ∈ new ++ ts -> a ∈ ts \/
    exists t, a = mkAttempt c (entry_id t) Queued /\ attempts l' !! c = Some t).
  { intros a [Ha|Ha]%elem_of_app; [|by left]. right.
    destruct Hnew as [[-> _]|(_ & t & -> & Ht)]; [by apply elem_of_nil in Ha|].
    apply list_elem_of_singleton in Ha. eauto. }
  split; simpl.
  - apply (effect_accounted _ _ _ _ _ _ _ _ _ He ltac:(destruct Hnew as [[_ ->]|[-> _]]; lia) Hacc).
    + intros d. destruct Hnew as [[-> ->]|(-> & t & -> & Ht)]; simpl.
      * by destruct (decide _); lia.
      * rewrite count_cons. unfold waits at 1. simpl. destruct (decide (d = c)) as [->|Hne].
        -- rewrite bool_decide_eq_true_2 by done. simpl. lia.
        -- rewrite bool_decide_eq_false_2 by congruence. simpl. lia.
    + intros d. destruct Hnew as [[-> ->]|(-> & t & -> & Ht)]; simpl.
      * by destruct (decide _); lia.
      * rewrite count_cons. unfold flies at 1. simpl. rewrite andb_false_r. simpl.
        destruct (decide _); lia.
    + intros a Ha Hl. destruct (Hin a Ha) as [Hold|(t & -> & Ht)]; [left; by exists a|].
      right. split; [done|]. by exists t.
  - by eapply effect_size.
  - apply (effect_semaphores _ _ _ _ _ _ _ _ _ _ He Hsem Hsz).
    + intros x. destruct Hnew as [[-> ->]|(-> & t & -> & Ht)]; simpl; [done|].
      rewrite count_cons. unfold holds at 1. simpl. by rewrite andb_false_r.
    + intros a Ha. destruct (Hin a Ha) as [Hold|(t & -> & Ht)]; [left; by exists a|].
      right. by exists c, t.
  - apply (effect_watch _ _ _ _ _ _ _ _ _ He Hacc Hwatch). intros a ep wake_at Ha Hpa.
    destruct (Hin a Ha) as [Hold|(t & -> & Ht)]; [by left|done].
Qed.

Lemma step_permits (now : Z) (lbl : Label) (s s' : System) :
  step now lbl s s' -> (size (permits s) <= size (permits s'))%nat.
Proof.
  assert (Hput : forall e p, (size p <= size (put_permit e p))%nat).
  { intros e p. unfold put_permit. destruct (p !! e) eqn:Hp; [|done].
    by rewrite map_size_insert_Some by eauto. }
  assert (Hsem : forall l l' p, (size p <= size (with_semaphore l l' p))%nat).
  { intros l l' p. unfold AuthSystem.with_semaphore. destruct (_ =? _); [done|].
    rewrite map_size_insert. destruct (p !! _); simpl; lia. }
  intros []; simpl; try done; try apply Hput; try apply Hsem.
  - by rewrite map_size_insert_Some by eauto.
  - destruct (has_permit ph); [apply Hput|done].
Qed.

(** An attempt of the list and its tracker. *)
Lemma inv_tracker (c : string) (e : Z) (ph : Phase) (l : AuthRateLimiter) (p : gmap Z Z)
    (ts1 ts2 : list Attempt) (q : list Later) :
  Inv (mkSystem l p (ts1 ++ mkAttempt c e ph :: ts2) q) -> live (mkAttempt c e ph) = true ->
  exists t, attempts l !! c = Some t /\ entry_id t = e /\
    (is_waiting ph = true -> 1 <= waiting t) /\ (is_flying ph = true -> 1 <= in_flight t).
Proof.
  intros [Hacc _ _ _] Hl. simpl in Hacc.
  destruct (accounted_live l _ (mkAttempt c e ph) (Hacc _) ltac:(rewrite elem_of_app; right; by left) Hl)
    as (t & Ht & He & Hw & Hf). by exists t.
Qed.

(** The attempts of a client in flight hold permits of its semaphore. *)
Lemma flies_hold (c : string) (l : AuthRateLimiter) (p : gmap Z Z) (ts : list Attempt)
    (q : list Later) (t : AuthAttemptTracker) :
  Inv (mkSystem l p ts q) -> attempts l !! c = Some t ->
  in_flight t <= count (holds (entry_id t)) ts /\ count (holds (entry_id t)) ts <= max_checks.
Proof.
  intros [Hacc _ [Hex _ _ _ Htr _] _] Ht. specialize (Hacc c). unfold accounted in Hacc. simpl in *.
  rewrite Ht in Hacc. destruct Hacc as (_ & -> & _ & _ & He). split.
  - apply count_mono. intros a Ha Hf. unfold flies, holds in *. apply andb_prop in Hf as [Hc Hf].
    apply bool_decide_eq_true_1 in Hc. rewrite (He a Ha Hc) by (unfold live; by rewrite Hf, orb_true_r).
    rewrite Z.eqb_refl. by destruct (a_phase a).
  - destruct (Htr c t Ht) as [n Hn]. destruct (Hex _ _ Hn). lia.
Qed.

Lemma holding_room (c : string) (e : Z) (l : AuthRateLimiter) (p : gmap Z Z)
    (ts1 ts2 : list Attempt) (q : list Later) (t : AuthAttemptTracker) :
  Inv (mkSystem l p (ts1 ++ mkAttempt c e Holding :: ts2) q) -> attempts l !! c = Some t ->
  entry_id t = e -> in_flight t < max_checks.
Proof.
  intros Hi Ht <-. pose proof (flies_hold _ _ _ _ _ _ Hi Ht) as [_ Hmax].
  destruct Hi as [Hacc _ _ _]. specialize (Hacc c). unfold accounted in Hacc. simpl in Hacc.
  rewrite Ht in Hacc. destruct Hacc as (_ & -> & _ & _ & He).
  rewrite count_mid in *.
  assert (flies c (mkAttempt c (entry_id t) Holding) = false) as -> by apply andb_false_r.
  assert (holds (entry_id t) (mkAttempt c (entry_id t) Holding) = true) as Hh
    by (unfold holds; simpl; by rewrite Z.eqb_refl).
  rewrite Hh in Hmax. simpl in *.
  assert (count (flies c) (ts1 ++ ts2) <= count (holds (entry_id t)) (ts1 ++ ts2)); [|lia].
  apply count_mono. intros a Ha Hf. unfold flies, holds in *. apply andb_prop in Hf as [Hc Hf].
  apply bool_decide_eq_true_1 in Hc. rewrite (He a) by
    (done || (rewrite elem_of_app in *; rewrite elem_of_cons; tauto) || (unfold live; by rewrite Hf, orb_true_r)).
  rewrite Z.eqb_refl. by destruct (a_phase a).
Qed.

Lemma with_semaphore_same (l l' : AuthRateLimiter) (p : gmap Z Z) :
  next_entry_id l' = next_entry_id l -> with_semaphore l l' p = p.
Proof. intros Hn. unfold AuthSystem.with_semaphore. by rewrite Hn, Z.eqb_refl. Qed.

Lemma inv_shrinks (now : Z) (l l' : AuthRateLimiter) (p : gmap Z Z) (ts : list Attempt)
    (q q' : list Later) :
  Inv (mkSystem l p ts q) -> Z.of_nat (size p) < u64_max -> shrinks now l l' ->
  Inv (mkSystem l' p ts q').
Proof.
  intros Hi Hsz Hs. pose proof (with_semaphore_same l l' p (s_next _ _ _ _ Hs)) as Hp.
  rewrite <- Hp. change ts with ([] ++ ts).
  apply (inv_operation now Plain "" 0 [] l l' p ts q q' Hi); [by rewrite Hp| |by left].
  by apply effect_none.
Qed.

Lemma inv_put (c : string) (e : Z) (ph : Phase) (ph' : option Phase) (l : AuthRateLimiter)
    (p : gmap Z Z) (ts1 ts2 : list Attempt) (q : list Later) :
  Inv (mkSystem l p (ts1 ++ mkAttempt c e ph :: ts2) q) ->
  has_permit ph = true -> flag has_permit ph' = 0 ->
  flag is_waiting ph' = Z.b2z (is_waiting ph) -> flag is_flying ph' = Z.b2z (is_flying ph) ->
  (forall ep wake_at, ph' <> Some (Waiting ep wake_at)) ->
  Inv (mkSystem l (put_permit e p) (ts1 ++ onward c e ph' ++ ts2) q).
Proof.
  intros Hi Hp Hp' Hw Hf Hwait. destruct (sem_tasks _ _ _ (i_semaphores _ Hi) (mkAttempt c e ph)) as [n Hn].
  { simpl. rewrite elem_of_app. right. by left. }
  simpl in Hn. unfold put_permit. rewrite Hn.
  destruct (sem_exact _ _ _ (i_semaphores _ Hi) e n Hn) as [Hpos _].
  pose proof (inv_permit c e n ph ph' l p ts1 ts2 q Hi Hn) as H. rewrite Hp, Hp' in H. simpl in H.
  replace (n + 1 - 0) with (n + 1) in H by lia. apply H; [lia|done..].
Qed.

Lemma inv_rephase (c : string) (e : Z) (ph : Phase) (ph' : Phase) (l : AuthRateLimiter)
    (p : gmap Z Z) (ts1 ts2 : list Attempt) (q : list Later) :
  Inv (mkSystem l p (ts1 ++ mkAttempt c e ph :: ts2) q) ->
  has_permit ph' = has_permit ph -> is_waiting ph' = is_waiting ph -> is_flying ph' = is_flying ph ->
  (forall ep wake_at, ph' <> Waiting ep wake_at) ->
  Inv (mkSystem l p (ts1 ++ mkAttempt c e ph' :: ts2) q).
Proof.
  intros Hi Hp Hw Hf Hwait. destruct (sem_tasks _ _ _ (i_semaphores _ Hi) (mkAttempt c e ph)) as [n Hn].
  { simpl. rewrite elem_of_app. right. by left. }
  simpl in Hn. destruct (sem_exact _ _ _ (i_semaphores _ Hi) e n Hn) as [Hpos _].
  pose proof (inv_permit c e n ph (Some ph') l p ts1 ts2 q Hi Hn) as H. simpl in H.
  rewrite Hp, Hw, Hf in H. replace (n + _ - _) with n in H by lia.
  rewrite insert_id in H by done. apply H; [lia|done|done|congruence].
Qed.

(** The operation behind [step_admit], [step_reject] and [step_wait]. *)
Lemma step_activation (now : Z) (c : string) (e : Z) (l l' : AuthRateLimiter) (p : gmap Z Z)
    (ts1 ts2 : list Attempt) (q : list Later) (a : AttemptActivation) :
  Inv (mkSystem l p (ts1 ++ mkAttempt c e Holding :: ts2) q) ->
  activate_waiter max_attempts window_secs c now l = (l', a) ->
  effect now Plain c (fst (activation_moves a)) (snd (activation_moves a)) l l' /\
  match a with
  | Activated gen => exists t t', attempts l !! c = Some t /\ locked_at now t = false /\
      attempts l' !! c = Some t' /\ gen = generation t' /\ lockout_until t' = None
  | WaitForSettlement ep after => exists t', attempts l' !! c = Some t' /\ ep = state_epoch t' /\
      stuck (now + after) t'
  | Rejected _ => True
  end.
Proof.
  intros Hi Ha. destruct (inv_tracker _ _ _ _ _ _ _ _ Hi eq_refl) as (t & Ht & He & Hw & _).
  pose proof (holding_room _ _ _ _ _ _ _ _ Hi Ht He) as Hr. unfold AuthLimiter.max_checks in Hr.
  destruct (activate_effect _ _ base_lockout_secs max_entries instant_max c now t l l' a Ht (Hw eq_refl)
    ltac:(unfold u32_max in *; lia) Ha) as [Hm Hadm].
  split; [done|]. destruct a; [|by apply Hadm|done].
  destruct Hadm as (? & t' & ? & ? & ?). by exists t, t'.
Qed.

Lemma auth_step_inv (now : Z) (lbl : Label) (s s' : System) :
  Inv s -> step now lbl s s' -> Z.of_nat (size (permits s')) < u64_max -> Inv s'.
Proof.
  intros Hi Hs Hsz. destruct Hs as
    [c l p ts q l' q' a Ha|c e n l p ts1 ts2 q Hn Hpos|c e gen l p ts1 ts2 q l' Ha
    |c e r l p ts1 ts2 q l' Ha|c e ep aft l p ts1 ts2 q l' Ha|c e ep wk l p ts1 ts2 q Hw
    |c e ep wk l p ts1 ts2 q Hc|c e ph l p ts1 ts2 q Hw Hne|c e l p ts1 ts2 q l' q' Ha
    |c e gen fl l p ts1 ts2 q l' q' Ha|c e l p ts1 ts2 q|c l p ts q l' q' a Ha
    |c l p ts q l' q' Ha|c l p ts q l' q' a Ha|l p ts q|x l p ts q1 q2]; simpl in Hsz.
  - apply (queue_attempt_effect max_attempts _ base_lockout_secs _ instant_max) in Ha as [He Hq]; [|apply (i_size _ Hi)]. destruct a as [e|e].
    + destruct (Hq e eq_refl) as (t & Ht & <-).
      apply (inv_operation now Plain c 1 [mkAttempt c (entry_id t) Queued] l l' p ts q _ Hi Hsz He).
      right. split; [done|]. by exists t.
    + change ts with ([] ++ ts). apply (inv_operation now Plain c 0 [] l l' p ts q _ Hi Hsz He). by left.
  - pose proof (inv_permit c e n Queued (Some Holding) l p ts1 ts2 q Hi Hn) as H. simpl in H.
    replace (n + 0 - 1) with (n - 1) in H by lia. apply H; [lia|done..].
  - apply (step_activation _ _ _ _ _ _ _ _ _ _ Hi) in Ha as [Hm _].
    by apply (inv_move now Plain c e (-1) 1 Holding (Some (InFlight gen)) l l' p ts1 ts2 q).
  - apply (step_activation _ _ _ _ _ _ _ _ _ _ Hi) in Ha as [Hm _].
    by apply (inv_move now Plain c e (-1) 0 Holding (Some Releasing) l l' p ts1 ts2 q).
  - apply (step_activation _ _ _ _ _ _ _ _ _ _ Hi) in Ha as [Hm Hst].
    apply (inv_move now Plain c e 0 0 Holding (Some (Waiting ep (now + aft))) l l' p ts1 ts2 q); try done.
    by intros ep' wk [= <- <-].
  - by apply (inv_rephase c e (Waiting ep wk) Holding).
  - destruct (inv_tracker _ _ _ _ _ _ _ _ Hi eq_refl) as (t & Ht & He & _). by destruct (Hc t Ht).
  - destruct ph; try done.
    + by apply (inv_rephase c e Queued Cancelling).
    + by apply (inv_put c e Holding (Some Cancelling)).
    + by apply (inv_put c e (Waiting epoch wake_at) (Some Cancelling)).
  - destruct (inv_tracker _ _ _ _ _ _ _ _ Hi eq_refl) as (t & Ht & He & Hw & _).
    apply (cancel_effect max_attempts window_secs base_lockout_secs max_entries instant_max) with (t := t) in Ha; [|done|by apply Hw].
    by apply (inv_move now Plain c e (-1) 0 Cancelling None l l' p ts1 ts2 q).
  - destruct (inv_tracker _ _ _ _ _ _ _ _ Hi eq_refl) as (t & Ht & He & _ & Hf).
    apply (finish_effect _ window_secs _ max_entries) with (t := t) in Ha; [|done|by apply Hf].
    by apply (inv_move now (Settled fl gen) c e 0 (-1) (InFlight gen) (Some Releasing) l l' p ts1 ts2 q).
  - by apply (inv_put c e Releasing None).
  - apply (record_failure_effect _ window_secs) in Ha; [|apply (i_size _ Hi)].
    change ts with ([] ++ ts). apply (inv_operation now Failure c 0 [] l l' p ts q _ Hi Hsz Ha). by left.
  - apply (record_success_effect max_attempts window_secs base_lockout_secs max_entries instant_max)
      in Ha as [Ha Hn]. apply with_semaphore_same with (p := p) in Hn. rewrite <- Hn.
    change ts with ([] ++ ts).
    apply (inv_operation now Success c 0 [] l l' p ts q _ Hi); [by rewrite Hn|done|by left].
  - apply check_allowed_effect in Ha. by apply (inv_shrinks now l l' p ts q).
  - apply (inv_shrinks now l _ p ts q); [done|done|]. apply cleanup_shrinks. intros d t Ht.
    pose proof (i_accounted _ Hi d) as Hacc. unfold accounted in Hacc. simpl in Hacc. rewrite Ht in Hacc.
    destruct Hacc as (-> & -> & _). split; apply count_nonneg.
  - apply (inv_shrinks now l _ p ts (q1 ++ x :: q2)); [done|done|]. apply perform_shrinks.
Qed.

Hypothesis Hentries : 0 <= max_entries.

Lemma inv_new : Inv system_new.
Proof.
  split; simpl.
  - intros c. done.
  - by rewrite map_size_empty.
  - split; simpl; [..|done| |].
    + intros e n Hn. by rewrite lookup_empty in Hn.
    + intros a Ha. by apply elem_of_nil in Ha.
    + intros e [n Hn]. by rewrite lookup_empty in Hn.
    + intros c t Ht. by rewrite lookup_empty in Ht.
    + intros c c' t t' Ht. by rewrite lookup_empty in Ht.
  - intros a ep wk t Ha. by apply elem_of_nil in Ha.
Qed.

Lemma steps_permits (s s' : System) tr :
  steps s tr s' -> (size (permits s) <= size (permits s'))%nat.
Proof. induction 1 as [|s tr s1 now lbl s2 Hst IH Hs]; [done|]. apply step_permits in Hs. lia. Qed.

Lemma auth_steps_inv (s s' : System) tr :
  Inv s -> steps s tr s' -> Z.of_nat (size (permits s')) < u64_max -> Inv s'.
Proof.
  intros Hi Hst. induction Hst as [|s tr s1 now lbl s2 Hst IH Hs]; [done|]. intros Hsz.
  pose proof (step_permits _ _ _ _ Hs). eapply auth_step_inv; [|exact Hs|done]. apply IH; [done|lia].
Qed.

Lemma auth_reachable_inv (s : System) :
  reachable s -> Z.of_nat (size (permits s)) < u64_max -> Inv s.
Proof. intros [tr Hst]. apply (auth_steps_inv _ _ _ inv_new Hst). Qed.

(** ** Lockouts *)

Lemma effect_locked (now : Z) (how : Change) (c d : string) (w f u : Z) (l l' : AuthRateLimiter)
    (t : AuthAttemptTracker) :
  effect now how c w f l l' -> (d = c -> how <> Failure) ->
  attempts l !! d = Some t -> lockout_until t = Some u -> now < u ->
  exists t', attempts l' !! d = Some t' /\ lockout_until t' = Some u.
Proof.
  intros He Hsafe Ht Hu Hn.
  assert (Hshrunk : forall l1, shrinks now l l1 -> exists t', attempts l1 !! d = Some t' /\
    lockout_until t' = Some u).
  { intros l1 [_ Hsome _ _]. specialize (Hsome d t Ht). destruct (attempts l1 !! d) as [t'|].
    - exists t'. split; [done|]. by apply (k_locked _ _ _ _ Hsome).
    - destruct Hsome as (_ & _ & Hl). unfold locked_at in Hl. rewrite Hu in Hl.
      by rewrite (proj2 (Z.ltb_lt _ _)) in Hl. }
  destruct He as [_ _ Hs|t0 t1 Ht0 Hr Hat _|l1 t1 Hc _ Hs _ Hat _ _ _ _ _].
  - by apply Hshrunk.
  - rewrite Hat. destruct (decide (d = c)) as [->|Hne].
    + rewrite lookup_insert_eq. exists t1. split; [done|]. simplify_eq.
      by apply (r_locked _ _ _ _ _ _ _ _ _ _ Hr); [apply Hsafe| |].
    + rewrite lookup_insert_ne by done. eauto.
  - rewrite Hat. destruct (decide (d = c)) as [->|Hne]; [congruence|].
    rewrite lookup_insert_ne by done. by apply Hshrunk.
Qed.

Lemma queue_locked (now : Z) (c : string) (t : AuthAttemptTracker) (l : AuthRateLimiter) :
  attempts l !! c = Some t -> locked_at now t = true ->
  exists l' q retry, queue_attempt window_secs max_entries c now l = (l', q, Err retry).
Proof.
  intros Ht Hl. unfold queue_attempt, queue_on_tracker. rewrite Ht, future_locked, Hl.
  unfold locked_at in Hl. destruct (lockout_until t); [|done]. eauto.
Qed.

(** Predicates on attempts in flight. *)
Definition airborne (f : Attempt -> bool) : Prop :=
  forall a, f a = true -> is_flying (a_phase a) = true.

Definition same_flights (ts ts' : list Attempt) : Prop :=
  forall f, airborne f -> count f ts' = count f ts.

(** What a step with this label does to the attempts in flight, when it changes the
    tracker of [d] by [how] and the number of them by [f]. *)
Definition explains (now : Z) (lbl : Label) (s s' : System) (how : Change) (d : string) (f : Z) : Prop :=
  match how with
  | Failure => lbl = LDirectFailure d
  | Success => lbl = LDirectSuccess d
  | Settled failed gen => exists e ts1 ts2,
      f = -1 /\ lbl = LSettle d e failed /\ tasks s = ts1 ++ mkAttempt d e (InFlight gen) :: ts2 /\
      tasks s' = ts1 ++ mkAttempt d e Releasing :: ts2
  | Plain =>
      (forall c e failed, lbl <> LSettle c e failed) /\
      match lbl with
      | LAdmit c => c = d /\ exists e t t',
          attempts (limiter s) !! c = Some t /\ locked_at now t = false /\
          attempts (limiter s') !! c = Some t' /\ lockout_until t' = None /\
          (forall f, airborne f -> count f (tasks s') =
             count f (tasks s) + Z.b2z (f (mkAttempt c e (InFlight (generation t')))))
      | _ => same_flights (tasks s) (tasks s')
      end
  end.

Lemma same_flights_mid (ts1 ts2 : list Attempt) (a a' : Attempt) :
  is_flying (a_phase a) = false -> is_flying (a_phase a') = false ->
  same_flights (ts1 ++ a :: ts2) (ts1 ++ a' :: ts2).
Proof.
  intros Ha Ha' f Hf. rewrite !count_mid.
  destruct (f a) eqn:E; [by rewrite (Hf a E) in Ha|].
  destruct (f a') eqn:E'; [by rewrite (Hf a' E') in Ha'|]. done.
Qed.

Lemma same_flights_gone (ts1 ts2 : list Attempt) (a : Attempt) :
  is_flying (a_phase a) = false -> same_flights (ts1 ++ a :: ts2) (ts1 ++ ts2).
Proof.
  intros Ha f Hf. rewrite count_mid. destruct (f a) eqn:E; [by rewrite (Hf a E) in Ha|]. simpl. lia.
Qed.

Lemma unchanged_step (now : Z) (s s' : System) :
  shrinks now (limiter s) (limiter s') -> same_flights (tasks s) (tasks s') ->
  exists how d w f, effect now how d w f (limiter s) (limiter s') /\ explains now LOther s s' how d f.
Proof. intros Hs Hf. exists Plain, ""%string, 0, 0. split; [by apply effect_none|]. by split. Qed.

(** Every step acts on the limiter at one client. *)
Lemma step_effect (now : Z) (lbl : Label) (s s' : System) :
  Inv s -> step now lbl s s' ->
  exists how d w f, effect now how d w f (limiter s) (limiter s') /\ explains now lbl s s' how d f.
Proof.
  intros Hi Hs. destruct Hs as
    [c l p ts q l' q' a Ha|c e n l p ts1 ts2 q Hn Hpos|c e gen l p ts1 ts2 q l' Ha
    |c e r l p ts1 ts2 q l' Ha|c e ep aft l p ts1 ts2 q l' Ha|c e ep wk l p ts1 ts2 q Hw
    |c e ep wk l p ts1 ts2 q Hc|c e ph l p ts1 ts2 q Hw Hne|c e l p ts1 ts2 q l' q' Ha
    |c e gen fl l p ts1 ts2 q l' q' Ha|c e l p ts1 ts2 q|c l p ts q l' q' a Ha
    |c l p ts q l' q' Ha|c l p ts q l' q' a Ha|l p ts q|x l p ts q1 q2].
  - apply (queue_attempt_effect max_attempts _ base_lockout_secs _ instant_max) in Ha as [He _];
      [|apply (i_size _ Hi)].
    do 4 eexists. split; [exact He|]. split; [done|]. destruct a as [e|]; [|done].
    intros f Hf. simpl. rewrite count_cons. destruct (f (mkAttempt c e Queued)) eqn:E; [by apply Hf in E|done].
  - apply unchanged_step; [done|]. by apply same_flights_mid.
  - apply (step_activation _ _ _ _ _ _ _ _ _ _ Hi) in Ha as (He & t & t' & Ht & Hl & Ht' & -> & Hn).
    do 4 eexists. split; [exact He|]. split; [done|]. split; [done|].
    exists e, t, t'. split_and!; try done. intros f Hf. simpl. rewrite !count_mid.
    destruct (f (mkAttempt c e Holding)) eqn:E; [by apply Hf in E|]. simpl. lia.
  - apply (step_activation _ _ _ _ _ _ _ _ _ _ Hi) in Ha as [He _].
    do 4 eexists. split; [exact He|]. split; [done|]. by apply same_flights_mid.
  - apply (step_activation _ _ _ _ _ _ _ _ _ _ Hi) in Ha as [He _].
    do 4 eexists. split; [exact He|]. split; [done|]. by apply same_flights_mid.
  - apply unchanged_step; [done|]. by apply same_flights_mid.
  - apply unchanged_step; [done|]. by apply same_flights_mid.
  - apply unchanged_step; [done|]. apply same_flights_mid; [by destruct ph|done].
  - destruct (inv_tracker _ _ _ _ _ _ _ _ Hi eq_refl) as (t & Ht & He & Hw & _).
    apply (cancel_effect max_attempts window_secs base_lockout_secs max_entries instant_max) with (t := t)
      in Ha; [|done|by apply Hw].
    do 4 eexists. split; [exact Ha|]. split; [done|]. by apply same_flights_gone.
  - destruct (inv_tracker _ _ _ _ _ _ _ _ Hi eq_refl) as (t & Ht & He & _ & Hf).
    apply (finish_effect _ window_secs _ max_entries) with (t := t) in Ha; [|done|by apply Hf].
    do 4 eexists. split; [exact Ha|]. by exists e, ts1, ts2.
  - apply unchanged_step; [done|]. by apply same_flights_gone.
  - apply (record_failure_effect _ window_secs) in Ha; [|apply (i_size _ Hi)].
    by do 4 eexists.
  - apply (record_success_effect max_attempts window_secs base_lockout_secs max_entries instant_max)
      in Ha as [Ha _]. by do 4 eexists.
  - apply check_allowed_effect in Ha. by apply unchanged_step.
  - apply unchanged_step; [|done]. apply cleanup_shrinks. intros d t Ht.
    pose proof (i_accounted _ Hi d) as Hacc. unfold accounted in Hacc. simpl in Hacc, Ht. rewrite Ht in Hacc.
    destruct Hacc as (-> & -> & _). split; apply count_nonneg.
  - apply unchanged_step; [|done]. apply perform_shrinks.
Qed.

Lemma step_locked (now : Z) (lbl : Label) (s s' : System) (c : string) (t : AuthAttemptTracker) (u : Z) :
  Inv s -> step now lbl s s' -> attempts (limiter s) !! c = Some t -> lockout_until t = Some u ->
  now < u -> lbl <> LDirectFailure c ->
  (exists t', attempts (limiter s') !! c = Some t' /\ lockout_until t' = Some u) /\
  lbl <> LAdmit c /\ (forall e, lbl <> LQueue c (Ok e)).
Proof.
  intros Hi Hs Ht Hu Hn Hlbl. assert (Hl : locked_at now t = true).
  { unfold locked_at. rewrite Hu. by apply Z.ltb_lt. }
  destruct (step_effect _ _ _ _ Hi Hs) as (how & d & w & f & He & Hex). split_and!.
  - apply (effect_locked _ _ _ _ _ _ _ _ _ t He); try done.
    intros -> ->. by apply Hlbl.
  - intros ->. destruct how; [|by destruct Hex as (? & ? & ? & _ & ? & _)|done|done].
    destruct Hex as (_ & _ & _ & t1 & _ & Ht1 & Hl1 & _). congruence.
  - intros e ->. inversion Hs; subst. simpl in Ht.
    destruct (queue_locked now c t l Ht Hl) as (? & ? & ? & Hq). congruence.
Qed.

(** The limiter's accounts are exact in every state that any number of
    concurrent attempts can reach, whatever the interleaving, the clock readings,
    the cancellations and the order of delayed work.  A client's tracker counts
    exactly its waiting attempts, at most 256, and its reservations in flight, at
    most [max_attempts] (one, if that is zero); a client with attempts under way
    has its tracker, so no attempt ever loses it; there are at most [max_entries]
    trackers; and every semaphore's free permits and holders add up. *)
Theorem attempts_accounted (s : System) :
  reachable s -> Z.of_nat (size (permits s)) < u64_max ->
  Z.of_nat (size (attempts (limiter s))) <= max_entries /\
  (forall e n, permits s !! e = Some n -> 0 <= n /\ n + count (holds e) (tasks s) = max_checks) /\
  (forall c, match attempts (limiter s) !! c with
             | Some t => waiting t = count (waits c) (tasks s) /\ waiting t <= 256 /\
                         in_flight t = count (flies c) (tasks s) /\ in_flight t <= max_checks
             | None => count (waits c) (tasks s) = 0 /\ count (flies c) (tasks s) = 0
             end).
Proof.
  intros Hr Hsz. pose proof (auth_reachable_inv s Hr Hsz) as Hi. split_and!; [apply Hi|apply Hi|].
  intros c. pose proof (i_accounted _ Hi c) as Hacc. unfold accounted in Hacc.
  destruct (attempts (limiter s) !! c) as [t|] eqn:Ht; [|done].
  destruct Hacc as (Hw & Hf & _ & Hq & _). split_and!; [done..|].
  destruct s as [l p ts q]. destruct (flies_hold c l p ts q t Hi Ht). simpl in *. lia.
Qed.

(** C32: A lockout holds.  Once a client is locked out until [u], and as long as no
    clock reading has reached [u] and nobody reports a failure for the client
    without a reservation (the gateway never does), then whatever else happens,
    evictions, cleanups, settlements and floods of other clients included, the
    tracker stays, locked until exactly [u], no attempt of the client is admitted
    to credential verification, and no new one is even queued. *)
Theorem lockout_enforced (s s' : System) (tr : list (Z * Label)) (c : string)
    (t : AuthAttemptTracker) (u : Z) :
  reachable s -> attempts (limiter s) !! c = Some t -> lockout_until t = Some u ->
  steps s tr s' -> Z.of_nat (size (permits s')) < u64_max ->
  Forall (fun x => fst x < u /\ snd x <> LDirectFailure c) tr ->
  (exists t', attempts (limiter s') !! c = Some t' /\ lockout_until t' = Some u) /\
  Forall (fun x => snd x <> LAdmit c /\ forall e, snd x <> LQueue c (Ok e)) tr.
Proof.
  intros Hr Ht Hu Hst. induction Hst as [s|s tr s1 now lbl s2 Hst IH Hs]; intros Hsz Htr.
  - split; [by exists t|constructor].
  - apply Forall_app in Htr as [Htr [[Hn Hlbl] _]%Forall_cons]. simpl in *.
    pose proof (step_permits _ _ _ _ Hs) as Hmono.
    destruct (IH Hr Ht ltac:(lia) Htr) as [(t1 & Ht1 & Hu1) Hall].
    assert (Hi : Inv s1).
    { apply (auth_steps_inv s s1 tr); [|done|lia]. apply auth_reachable_inv; [done|].
      pose proof (steps_permits _ _ _ Hst). lia. }
    destruct (step_locked _ _ _ _ _ _ _ Hi Hs Ht1 Hu1 Hn Hlbl) as (Ht2 & Hadm & Hq).
    split; [done|]. apply Forall_app. by split; [|constructor].
Qed.

(** C38: No attempt sleeps through its chance.  Whenever a waiting attempt would be
    admitted or rejected if it tried now, its select returns: the epoch it watches
    has changed, or its timer has run out. *)
Theorem no_lost_wakeup (s : System) (c : string) (e ep wake_at now : Z) :
  reachable s -> Z.of_nat (size (permits s)) < u64_max -> 0 < window_secs ->
  mkAttempt c e (Waiting ep wake_at) ∈ tasks s ->
  (forall l' ep' after, activate_waiter max_attempts window_secs c now (limiter s) <>
     (l', WaitForSettlement ep' after)) ->
  woken now e ep wake_at c (limiter s).
Proof.
  intros Hr Hsz Hws Ha Hact. pose proof (auth_reachable_inv s Hr Hsz) as Hi.
  destruct (accounted_live _ _ _ (i_accounted _ Hi _) Ha eq_refl) as (t & Ht & He & _).
  destruct (i_watch _ Hi _ ep wake_at t Ha eq_refl Ht) as [_ Hst]. simpl in *. unfold woken.
  destruct (Z.le_gt_cases wake_at now) as [|Hn]; [by left|]. right.
  exists t. split_and!; [done|done|]. intros Hep. destruct (Hst Hep) as (Hl & Hf & Ho & Hw).
  unfold activate_waiter in Hact. rewrite Ht, activate_tracker_unlocked in Hact
    by (unfold locked_at; by rewrite Hl).
  assert (Href : refreshed window_secs now t = t).
  { unfold refreshed, expire_window. rewrite Hl.
    assert (Hlt : window_age now t < window_duration window_secs).
    { unfold window_age, window_duration, from_secs in *. lia. }
    by rewrite (proj2 (Z.leb_gt _ _)). }
  rewrite Href in Hact. cbv zeta in Hact.
  rewrite (proj2 (Z.leb_le _ _) Ho), (proj2 (Z.ltb_lt _ _) Hf) in Hact. by eapply Hact.
Qed.
End Guarantees.

(** * Two attempts of one client

    At most two attempts per five minutes, a minute of lockout, one tracker. *)

Abbreviation example_run := (run 2 300 60 1 i64_max).
Abbreviation example_reachable := (reachable 2 300 60 1 i64_max).

(** The final state of a run. *)
Definition final (r : option (list (Z * Label) * System)) : System := default system_new (snd <$> r).
Definition trace (r : option (list (Z * Label) * System)) : list (Z * Label) := default [] (fst <$> r).

Lemma run_reachable (ma w b me im : Z) (cmds : list (Z * Command)) :
  run ma w b me im cmds system_new <> None ->
  reachable ma w b me im (final (run ma w b me im cmds system_new)).
Proof.
  destruct (run _ _ _ _ _ cmds system_new) as [[tr s]|] eqn:Hr; [|done]. intros _. exists tr.
  by apply run_steps in Hr.
Qed.

(** Two attempts are admitted and one has failed; a third waits for the other. *)
Definition waiting_schedule : list (Z * Command) :=
  [(0, DoQueue "c"); (1, DoMove 0); (2, DoMove 0); (3, DoQueue "c"); (4, DoMove 0); (5, DoMove 0);
   (6, DoSettle 1 true); (7, DoMove 1); (8, DoQueue "c"); (9, DoMove 0); (10, DoMove 0)].

(** Then the other one fails as well. *)
Definition locked_schedule : list (Z * Command) := waiting_schedule ++ [(20, DoSettle 1 true)].

Lemma example_attempts : 2 <= u32_max.
Proof. by vm_compute. Qed.
Lemma example_zero : 0 <= 300.
Proof. by vm_compute. Qed.
Lemma example_one : 0 <= 1.
Proof. by vm_compute. Qed.

Lemma attempts_accounted_witness :
  let s := final (example_run waiting_schedule system_new) in
  exists t, attempts (limiter s) !! ("c"%string) = Some t /\ waiting t = 1 /\ in_flight t = 1 /\
    count (waits "c") (tasks s) = 1 /\ count (flies "c") (tasks s) = 1.
Proof.
  cbv zeta.
  pose proof (attempts_accounted 2 300 60 1 i64_max example_attempts example_zero example_one
    (final (example_run waiting_schedule system_new))
    ltac:(apply run_reachable; vm_compute; discriminate) ltac:(vm_compute; reflexivity)) as H.
  destruct H as (_ & _ & H). specialize (H "c"%string).
  destruct (attempts (limiter (final (example_run waiting_schedule system_new))) !! "c"%string)
    as [t|] eqn:Ht; [|by vm_compute in Ht].
  destruct H as (Hw & _ & Hf & _).
  assert (Hc : count (waits "c") (tasks (final (example_run waiting_schedule system_new))) = 1)
    by (vm_compute; reflexivity).
  assert (Hg : count (flies "c") (tasks (final (example_run waiting_schedule system_new))) = 1)
    by (vm_compute; reflexivity).
  exists t. exact (conj eq_refl (conj (eq_trans Hw Hc) (conj (eq_trans Hf Hg) (conj Hc Hg)))).
Defined.

(** While it is locked out, the waiter and a new attempt are turned away; another
    client finds no room in the map. *)
Definition after_schedule : list (Z * Command) :=
  [(21, DoMove 1); (22, DoMove 0); (23, DoMove 0); (24, DoQueue "c"); (25, DoMove 0);
   (26, DoLater 0); (27, DoQueue "d"); (28, DoCleanup)].

Definition locked_system : System := Eval vm_compute in final (example_run locked_schedule system_new).

Lemma locked_reachable : example_reachable locked_system.
Proof.
  assert (Hs : final (example_run locked_schedule system_new) = locked_system)
    by (vm_compute; reflexivity).
  rewrite <- Hs. apply run_reachable. vm_compute. discriminate.
Qed.

Definition locked_tracker : AuthAttemptTracker :=
  Eval vm_compute in default (tracker_new 0 0) (attempts (limiter locked_system) !! ("c"%string)).

Lemma locked_lookup : attempts (limiter locked_system) !! ("c"%string) = Some locked_tracker.
Proof. vm_compute. reflexivity. Qed.

Definition after_trace : list (Z * Label) :=
  Eval vm_compute in trace (example_run after_schedule locked_system).
Definition after_system : System :=
  Eval vm_compute in final (example_run after_schedule locked_system).

Lemma lockout_enforced_witness :
  run 2 300 60 1 i64_max after_schedule locked_system = Some (after_trace, after_system) /\
  (exists t', attempts (limiter after_system) !! ("c"%string) = Some t' /\
     lockout_until t' = Some (20 + from_secs 60)) /\
  Forall (fun x => snd x <> LAdmit "c" /\ forall e, snd x <> LQueue "c" (Ok e)) after_trace.
Proof.
  assert (Hrun : run 2 300 60 1 i64_max after_schedule locked_system = Some (after_trace, after_system))
    by (vm_compute; reflexivity).
  split; [exact Hrun|].
  refine (lockout_enforced 2 300 60 1 i64_max example_attempts example_zero example_one locked_system
    after_system after_trace "c" locked_tracker _ locked_reachable locked_lookup _ _ _ _).
  - vm_compute. reflexivity.
  - exact (run_steps _ _ _ _ _ _ _ _ _ Hrun).
  - vm_compute. reflexivity.
  - repeat (apply Forall_cons; split; [split; [vm_compute; reflexivity|discriminate]|]).
    constructor.
Defined.

Lemma no_lost_wakeup_witness :
  woken 21 1 1 (6 + from_secs 300) "c" (limiter locked_system).
Proof.
  apply (no_lost_wakeup 2 300 60 1 i64_max example_attempts example_zero example_one locked_system).
  - apply locked_reachable.
  - vm_compute. reflexivity.
  - done.
  - apply list_elem_of_lookup_2 with (i := 0%nat). vm_compute. reflexivity.
  - intros l' ep' after. vm_compute. discriminate.
Defined.
