(* ===== verification/AuthBounds.v ===== *)
(** How many guesses the authentication limiter lets through: a bound on the
    failed credential checks of a client by its lockouts and by the failure
    windows that have run out, and the length of a lockout. *)

From S2P Require Import Prelude AuthLimiter AuthSystem AuthAccounts AuthGuarantees.

(** * The length of a lockout *)

(** The backoff of a lockout is exact: [base_lockout_secs] doubled by every
    earlier lockout (saturating), from the moment of the failure; only where the
    platform cannot represent its end it is halved until it can, and then it is
    more than half of the longest representable one.  The halving loop ends. *)
Theorem lockout_backoff (base_lockout_secs max_attempts instant_max now : Z)
    (t : AuthAttemptTracker) :
  0 <= base_lockout_secs <= u64_max -> 0 <= lockout_count t -> now <= instant_max ->
  max_attempts <= sat_add_u32 (failure_count t) 1 ->
  let '(t', answer) := apply_failure max_attempts base_lockout_secs instant_max now t in
  exists secs, answer = Some secs /\ lockout_until t' = Some (now + from_secs secs) /\
    now + from_secs secs <= instant_max /\
    lockout_count t' = sat_add_u32 (lockout_count t) 1 /\
    let backoff := Z.min (base_lockout_secs * Z.min (2 ^ lockout_count t) u64_max) u64_max in
    (now + from_secs backoff <= instant_max -> secs = backoff) /\
    (secs < backoff -> instant_max < now + from_secs (2 * secs + 1)).
Proof.
  intros Hbase Hcount Hnow Hlast. unfold apply_failure.
  rewrite (proj2 (Z.ltb_ge (sat_add_u32 (failure_count t) 1) max_attempts)) by done.
  fold (saturating_pow2 (lockout_count t)).
  change (Z.min (base_lockout_secs * saturating_pow2 (lockout_count t)) u64_max)
    with (backoff_secs base_lockout_secs (lockout_count t)).
  assert (Hb : 0 <= backoff_secs base_lockout_secs (lockout_count t) < 2 ^ Z.of_nat 64).
  { unfold backoff_secs, saturating_mul, saturating_pow2, u64_max.
    pose proof (Z.pow_nonneg 2 (lockout_count t) ltac:(lia)).
    assert (0 <= base_lockout_secs * Z.min (2 ^ lockout_count t) (2 ^ 64 - 1)) by nia.
    split; [lia|]. assert (Z.of_nat 64 = 64) as -> by done. lia. }
  generalize (backoff_secs base_lockout_secs (lockout_count t)) as b, Hb. clear Hb. intros b Hb.
  assert (Hloop : forall fuel secs, 0 <= secs < 2 ^ Z.of_nat fuel ->
    exists s, lockout_deadline instant_max fuel now secs = (now + from_secs s, s) /\
      now + from_secs s <= instant_max /\ s <= secs /\
      (now + from_secs secs <= instant_max -> s = secs) /\
      (s < secs -> instant_max < now + from_secs (2 * s + 1))).
  { unfold from_secs. induction fuel as [|fuel IH]; intros secs Hs; simpl.
    - assert (secs = 0) as -> by (simpl in Hs; lia). exists 0. split_and!; lia || done.
    - unfold from_secs. destruct (Z.leb_spec (now + secs * 10 ^ 9) instant_max) as [Hle|Hgt].
      + exists secs. split_and!; lia || done.
      + pose proof (Z.div_mod secs 2 ltac:(lia)). pose proof (Z.mod_pos_bound secs 2 ltac:(lia)).
        destruct (IH (secs / 2)) as (s & Hd & Hs1 & Hs2 & Hs3 & Hs4).
        { rewrite Nat2Z.inj_succ, Z.pow_succ_r in Hs by lia. lia. }
        exists s. split_and!; [done|done|lia|lia|]. intros _.
        destruct (Z.eq_dec s (secs / 2)) as [->|Hne]; [|apply Hs4; lia].
        assert (secs <= 2 * (secs / 2) + 1) by lia. nia. }
  destruct (Hloop 64%nat b Hb) as (s & -> & Hs1 & Hs2 & Hs3 & Hs4).
  exists s. simpl. by split_and!.
Qed.

(** * Executions of the gateway *)

(** The gateway settles reservations only. *)
Definition by_reservation (lbl : Label) : Prop :=
  match lbl with LDirectFailure _ | LDirectSuccess _ => False | _ => True end.

(** The last clock reading, and readings in order. *)
Definition last_reading (start : Z) (tr : list (Z * Label)) : Z := fold_left (fun _ x => fst x) tr start.
Fixpoint in_order (start : Z) (tr : list (Z * Label)) : Prop :=
  match tr with [] => True | (now, _) :: tr => start <= now /\ in_order now tr end.

Lemma in_order_snoc (start now : Z) (lbl : Label) (tr : list (Z * Label)) :
  in_order start (tr ++ [(now, lbl)]) <-> in_order start tr /\ last_reading start tr <= now.
Proof.
  revert start. induction tr as [|[t lb] tr IH]; intros start; simpl; [tauto|].
  rewrite IH. unfold last_reading. simpl. tauto.
Qed.

Lemma last_reading_snoc (start now : Z) (lbl : Label) (tr : list (Z * Label)) :
  last_reading start (tr ++ [(now, lbl)]) = now.
Proof. unfold last_reading. by rewrite fold_left_app. Qed.

(** Failed credential checks of the attempts of one tracker. *)
Definition is_failure (e : Z) (lbl : Label) : bool :=
  match lbl with LSettle _ e' true => e' =? e | _ => false end.
Definition failures (e : Z) (tr : list (Z * Label)) : Z :=
  Z.of_nat (length (List.filter (fun x => is_failure e (snd x)) tr)).

Lemma failures_snoc (e now : Z) (lbl : Label) (tr : list (Z * Label)) :
  failures e (tr ++ [(now, lbl)]) = failures e tr + Z.b2z (is_failure e lbl).
Proof.
  unfold failures. rewrite List.filter_app, length_app. simpl. destruct (is_failure e lbl); simpl; lia.
Qed.

(** Attempts in flight that were admitted before the last lockout. *)
Definition flies_from (c : string) (P : Z -> bool) (a : Attempt) : bool :=
  match a_phase a with InFlight g => bool_decide (a_client a = c) && P g | _ => false end.
Definition stale (c : string) (gen : Z) : Attempt -> bool := flies_from c (fun g => negb (g =? gen)).

Lemma airborne_flies_from (c : string) (P : Z -> bool) : airborne (flies_from c P).
Proof. intros [c' e ph]. unfold flies_from. simpl. by destruct ph. Qed.

Lemma flies_from_flies (c : string) (P : Z -> bool) (ts : list Attempt) :
  count (flies_from c P) ts <= count (flies c) ts.
Proof.
  apply count_mono. intros a _. unfold flies_from, flies. destruct (a_phase a); try done.
  simpl. by destruct (bool_decide _).
Qed.

Section Bounds.
Variables max_attempts window_secs base_lockout_secs max_entries instant_max : Z.
Hypothesis Hattempts : max_attempts <= u32_max.
Hypothesis Hwindow : 0 < window_secs.
Hypothesis Hentries : 0 <= max_entries.

Abbreviation M := (max_checks max_attempts).
Abbreviation step := (step max_attempts window_secs base_lockout_secs max_entries instant_max).
Abbreviation steps := (steps max_attempts window_secs base_lockout_secs max_entries instant_max).
Abbreviation Inv := (Inv max_attempts window_secs max_entries).
Abbreviation window := (window_duration window_secs).

(** The account of a tracker, [F] failed checks of its attempts into its life:
    every lockout absorbs at most [2M - 1] of them, and every window that ran out
    [M - 1]. *)
Definition charged (start F S : Z) (t : AuthAttemptTracker) : Prop :=
  exists W, 0 <= W /\ W * window <= window_start t - start /\
    F + S <= (2 * M - 1) * generation t + (M - 1) * W + failure_count t.

Record bounded (start now : Z) (n : Z) (ts : list Attempt) (F : Z) (c : string)
    (t : AuthAttemptTracker) : Prop := {
  b_failures : 0 <= failure_count t <= M - 1;
  b_window : start <= window_start t <= now;
  b_generation : 0 <= generation t <= n;
  b_flights : count (flies_from c (fun g => generation t <? g)) ts = 0;
  b_locked : lockout_until t <> None -> count (flies_from c (fun g => g =? generation t)) ts = 0;
  b_charged : charged start F (count (stale c (generation t)) ts) t;
}.

Lemma M_pos : 1 <= M <= u32_max.
Proof. unfold max_checks. assert (1 <= u32_max) by done. lia. Qed.

(** Time passes for a tracker whose attempts settle nothing. *)
Lemma bounded_aged (start now now' n n' : Z) (ts ts' : list Attempt) (F : Z) (c : string)
    (t t' : AuthAttemptTracker) :
  bounded start now n ts F c t -> aged window_secs now' t t' -> now <= now' -> n <= n' ->
  (forall P, P (generation t) = false \/ lockout_until t' <> None ->
     count (flies_from c P) ts' = count (flies_from c P) ts) ->
  bounded start now' n' ts' F c t'.
Proof.
  intros [Hf Hw Hg Hfl Hlk (W & HW & HWw & HF)] [Hgen Hwin Hlock] Hn Hn' Hcnt.
  assert (Hst : count (stale c (generation t')) ts' = count (stale c (generation t)) ts).
  { rewrite Hgen. apply Hcnt. left. by rewrite Z.eqb_refl. }
  pose proof M_pos.
  assert (Hlk' : lockout_until t' <> None -> lockout_until t <> None) by (intuition congruence).
  split; rewrite ?Hgen.
  - destruct Hwin as [[-> _]|(-> & _)]; lia.
  - destruct Hwin as [[_ ->]|(_ & -> & _)]; lia.
  - lia.
  - rewrite Hcnt; [done|]. left. apply Z.ltb_irrefl.
  - intros Hl. rewrite Hcnt by by right. by apply Hlk, Hlk'.
  - rewrite <- Hgen, Hst. unfold charged. rewrite Hgen.
    destruct Hwin as [[-> ->]|(-> & -> & Hw')]; [by exists W|].
    exists (W + 1). specialize (Hw' Hwindow). split_and!; [lia|lia|nia].
Qed.

(** A failure that counts. *)
Lemma bounded_failure (start now now' n : Z) (ts ts' : list Attempt) (F : Z) (c : string)
    (t t' : AuthAttemptTracker) :
  bounded start now n ts F c t -> now <= now' -> n < u64_max ->
  same_history (fst (apply_failure max_attempts base_lockout_secs instant_max now' t)) t' ->
  (forall P, count (flies_from c P) ts' = count (flies_from c P) ts - Z.b2z (P (generation t))) ->
  count (flies c) ts' <= M - 1 ->
  bounded start now' (n + 1) ts' (F + 1) c t'.
Proof.
  intros [Hf Hw Hg Hfl Hlk (W & HW & HWw & HF)] Hn Hn' Hsame Hcnt Hfly. pose proof M_pos as HM.
  assert (Hself : 0 < count (flies_from c (fun g => g =? generation t)) ts).
  { pose proof (Hcnt (fun g => g =? generation t)) as Hc. simpl in Hc. rewrite Z.eqb_refl in Hc.
    simpl in Hc. pose proof (count_nonneg (flies_from c (fun g => g =? generation t)) ts'). lia. }
  assert (Hnone : lockout_until t = None).
  { destruct (lockout_until t); [|done]. rewrite Hlk in Hself by done. lia. }
  assert (Hsat : sat_add_u32 (failure_count t) 1 = failure_count t + 1) by (unfold sat_add_u32; lia).
  unfold apply_failure in Hsame. rewrite Hsat in Hsame.
  set (ws := if failure_count t =? 0 then now' else window_start t) in *.
  assert (Hws : window_start t <= ws <= now') by (unfold ws; destruct (_ =? _); lia).
  destruct (Z.ltb_spec (failure_count t + 1) max_attempts) as [Hlt|Hge].
  - destruct Hsame as (Hg' & Hf' & Hw' & Hl'). simpl in *. split; rewrite ?Hg'.
    + unfold max_checks in *. lia.
    + lia.
    + lia.
    + rewrite Hcnt, Hfl. by rewrite Z.ltb_irrefl.
    + rewrite Hl', Hnone. done.
    + unfold charged. rewrite Hg'. exists W. rewrite Hw', Hf'. unfold stale. rewrite Hcnt.
      rewrite Z.eqb_refl. simpl. fold (stale c (generation t)). split_and!; lia.
  - destruct (lockout_deadline _ _ _ _) as [until secs].
    destruct Hsame as (Hg' & Hf' & Hw' & Hl'). simpl in *.
    rewrite wrap_u64_small in Hg' by (unfold fits_u64; lia).
    assert (Hhigh : count (flies_from c (fun g => generation t <? g)) ts' = 0).
    { rewrite Hcnt, Hfl. by rewrite Z.ltb_irrefl. }
    assert (Habove : forall P : Z -> bool, (forall g, P g = true -> generation t < g) ->
      count (flies_from c P) ts' = 0).
    { intros P HP. pose proof (count_nonneg (flies_from c P) ts').
      assert (count (flies_from c P) ts' <= count (flies_from c (fun g => generation t <? g)) ts'); [|lia].
      apply count_mono. intros a _. unfold flies_from. destruct (a_phase a) as [| | |g| |]; try done.
      destruct (bool_decide _); [|done]. simpl. intros Hp. by apply Z.ltb_lt, HP. }
    split; rewrite ?Hg'.
    + lia.
    + lia.
    + lia.
    + apply Habove. intros g Hgg. apply Z.ltb_lt in Hgg. lia.
    + intros _. apply Habove. intros g Hgg. apply Z.eqb_eq in Hgg. lia.
    + unfold charged. rewrite Hg'. exists W. rewrite Hw', Hf'.
      pose proof (flies_from_flies c (fun g => negb (g =? generation t + 1)) ts') as Hs.
      fold (stale c (generation t + 1)) in Hs. pose proof (count_nonneg (stale c (generation t)) ts).
      split_and!; [lia|lia|nia].
Qed.

Abbreviation aged := (aged window_secs).
Abbreviation effect :=
  (effect max_attempts window_secs base_lockout_secs max_entries instant_max).
Abbreviation history := (history max_attempts window_secs base_lockout_secs instant_max).

(** Where the tracker of a client after an operation comes from. *)
Lemma effect_history (now : Z) (how : Change) (d : string) (w f : Z) (l l' : AuthRateLimiter)
    (c : string) (t' : AuthAttemptTracker) :
  effect now how d w f l l' -> attempts l' !! c = Some t' ->
  (exists t, attempts l !! c = Some t /\ entry_id t' = entry_id t /\
     (c <> d /\ aged now t t' \/ c = d /\ (history now how t t' \/ w = 0 /\ f = 0 /\ aged now t t'))) \/
  (c = d /\ f = 0 /\ attempts l !! d = None /\ entry_id t' = next_entry_id l /\ in_flight t' = 0 /\
   (how = Plain -> same_history (tracker_new now (next_entry_id l)) t')).
Proof.
  assert (Hshrunk : forall l1, shrinks window_secs now l l1 -> attempts l1 !! c = Some t' ->
    exists t, attempts l !! c = Some t /\ entry_id t' = entry_id t /\ aged now t t').
  { intros l1 [Hnone Hsome _ _] Ht'. destruct (attempts l !! c) as [t|] eqn:Ht.
    - specialize (Hsome c t Ht). rewrite Ht' in Hsome. exists t. by destruct Hsome.
    - by rewrite (Hnone c Ht) in Ht'. }
  intros [-> -> Hs|t t1 Ht Hr Hat _|l1 t1 Hn -> Hs _ Hat Hnx _ Hf1 He _ Hsame] Hc.
  - destruct (Hshrunk l' Hs Hc) as (t & Ht & He & Ha). left. exists t. split_and!; [done..|].
    destruct (decide (c = d)); auto 6.
  - left. rewrite Hat in Hc. destruct (decide (c = d)) as [->|Hne].
    + rewrite lookup_insert_eq in Hc. simplify_eq. exists t. destruct Hr. auto 6.
    + rewrite lookup_insert_ne in Hc by done. exists t'. split_and!; [done|done|]. left.
      split; [done|]. reflexivity.
  - rewrite Hat in Hc. destruct (decide (c = d)) as [->|Hne].
    + rewrite lookup_insert_eq in Hc. simplify_eq. by right.
    + left. rewrite lookup_insert_ne in Hc by done.
      destruct (Hshrunk l1 Hs Hc) as (t & Ht & Hx & Ha). exists t. auto 6.
Qed.

(** The tracker with the identity [e] was made by the step that read [born]. *)
Definition made_at (e born : Z) (tr : list (Z * Label)) : Prop :=
  exists tr1 lbl tr2 s1 s2, tr = tr1 ++ (born, lbl) :: tr2 /\
    steps system_new tr1 s1 /\ step born lbl s1 s2 /\
    next_entry_id (limiter s1) <= e < next_entry_id (limiter s2).

Lemma made_at_snoc (e born : Z) (tr : list (Z * Label)) (x : Z * Label) :
  made_at e born tr -> made_at e born (tr ++ [x]).
Proof.
  intros (tr1 & lbl & tr2 & s1 & s2 & -> & H). exists tr1, lbl, (tr2 ++ [x]), s1, s2.
  split; [by rewrite <- app_assoc|done].
Qed.

Record BInv (now : Z) (tr : list (Z * Label)) (s : System) : Prop := {
  bi_bounded : forall c t, attempts (limiter s) !! c = Some t ->
    exists born, made_at (entry_id t) born tr /\
      bounded born now (Z.of_nat (length tr)) (tasks s) (failures (entry_id t) tr) c t;
  bi_fresh : forall e, next_entry_id (limiter s) <= e -> failures e tr = 0;
}.

(** Attempts in flight after a step that settles none. *)
Lemma plain_flights (now : Z) (lbl : Label) (s s' : System) (d c : string) (f : Z)
    (t t' : AuthAttemptTracker) :
  explains now lbl s s' Plain d f -> attempts (limiter s) !! c = Some t ->
  attempts (limiter s') !! c = Some t' -> generation t' = generation t ->
  forall P, P (generation t) = false \/ lockout_until t' <> None ->
    count (flies_from c P) (tasks s') = count (flies_from c P) (tasks s).
Proof.
  intros [_ Hex] Ht Ht' Hg P HP. pose proof (airborne_flies_from c P) as Ha.
  destruct lbl; try by apply Hex. destruct Hex as (-> & e & t0 & t1 & Ht0 & _ & Ht1 & Hl & Hcnt).
  rewrite Hcnt by done. unfold flies_from at 2. simpl. destruct (decide (d = c)) as [->|Hne].
  - rewrite bool_decide_eq_true_2 by done. assert (t1 = t') as -> by congruence. rewrite Hg.
    destruct HP as [->|HP]; [simpl; lia|by destruct HP].
  - rewrite bool_decide_eq_false_2 by congruence. simpl. lia.
Qed.

(** Settling an attempt takes it from the attempts in flight. *)
Lemma settled_flights (c d : string) (e e' gen : Z) (ts1 ts2 : list Attempt) (P : Z -> bool) :
  count (flies_from c P) (ts1 ++ mkAttempt d e Releasing :: ts2) =
  count (flies_from c P) (ts1 ++ mkAttempt d e' (InFlight gen) :: ts2)
  - (if decide (d = c) then Z.b2z (P gen) else 0).
Proof.
  rewrite !count_mid. unfold flies_from at 2 4. simpl. destruct (decide (d = c)) as [->|Hne].
  - rewrite bool_decide_eq_true_2 by done. simpl. lia.
  - rewrite bool_decide_eq_false_2 by done. simpl. lia.
Qed.

(** A window that starts now, for a client without attempts in flight. *)
Lemma bounded_fresh (start now n : Z) (ts : list Attempt) (c : string) (t : AuthAttemptTracker) (e : Z) :
  same_history (tracker_new now e) t -> start <= now -> 0 <= n -> count (flies c) ts = 0 ->
  bounded start now n ts 0 c t.
Proof.
  intros (Hg & Hf & Hw & Hl) Hs Hn Hfly. simpl in *. pose proof M_pos.
  assert (Hnone : forall P, count (flies_from c P) ts = 0).
  { intros P. pose proof (flies_from_flies c P ts). pose proof (count_nonneg (flies_from c P) ts). lia. }
  split; rewrite ?Hg, ?Hf, ?Hw; try lia.
  - apply Hnone.
  - by rewrite Hl.
  - exists 0. rewrite Hg, Hf, Hw. unfold stale. rewrite Hnone. lia.
Qed.

(** With fewer attempts in flight. *)
Lemma bounded_fewer (start now n : Z) (ts ts' : list Attempt) (F : Z) (c : string)
    (t : AuthAttemptTracker) :
  bounded start now n ts F c t ->
  (forall P, count (flies_from c P) ts' <= count (flies_from c P) ts) ->
  bounded start now n ts' F c t.
Proof.
  intros [B1 B2 B3 B4 B5 (W & HW & HWw & HF)] Hle.
  assert (Hz : forall P, count (flies_from c P) ts = 0 -> count (flies_from c P) ts' = 0).
  { intros P HP. pose proof (Hle P). pose proof (count_nonneg (flies_from c P) ts'). lia. }
  split; try done; [by apply Hz|intros Hl; by apply Hz, B5|].
  exists W. pose proof (Hle (fun g => negb (g =? generation t))) as Hst.
  fold (stale c (generation t)) in Hst. split_and!; [done|done|lia].
Qed.

(** A failure of an attempt admitted before the last lockout. *)
Lemma bounded_stale (start now now' n gen : Z) (ts ts' : list Attempt) (F : Z) (c : string)
    (t t' : AuthAttemptTracker) :
  bounded start now n ts F c t -> now <= now' -> same_history t t' -> counts now' gen t = false ->
  0 < count (flies_from c (fun g => g =? gen)) ts ->
  (forall P, count (flies_from c P) ts' = count (flies_from c P) ts - Z.b2z (P gen)) ->
  bounded start now' (n + 1) ts' (F + 1) c t'.
Proof.
  intros [B1 B2 B3 B4 B5 (W & HW & HWw & HF)] Hn (Hg1 & Hf1 & Hw1 & Hl1) Hc Hpos Hcnt.
  assert (Hgen : gen <> generation t).
  { intros ->. unfold counts in Hc. rewrite Z.eqb_refl in Hc. unfold locked_at in Hc.
    destruct (lockout_until t) eqn:Hlk; [|done]. rewrite B5 in Hpos by done. lia. }
  assert (Hz : Z.b2z (negb (gen =? generation t)) = 1) by (by rewrite (proj2 (Z.eqb_neq _ _))).
  pose proof (count_nonneg (flies_from c (fun g => generation t <? g)) ts') as N1.
  pose proof (count_nonneg (flies_from c (fun g => g =? generation t)) ts') as N2.
  pose proof (Hcnt (fun g => generation t <? g)) as C1.
  pose proof (Hcnt (fun g => g =? generation t)) as C2. simpl in C1, C2.
  split; rewrite ?Hg1, ?Hf1, ?Hw1, ?Hl1; try lia.
  - destruct (generation t <? gen); simpl in *; lia.
  - intros Hl. specialize (B5 Hl). destruct (gen =? generation t); simpl in *; lia.
  - exists W. rewrite Hg1, Hf1, Hw1. unfold stale in *. rewrite Hcnt. simpl. lia.
Qed.

(** A settled attempt is one of a tracker, which only its client has. *)
Lemma settled_tracker (s : System) (ts1 ts2 : list Attempt) (d : string) (e gen : Z) :
  Inv s -> tasks s = ts1 ++ mkAttempt d e (InFlight gen) :: ts2 ->
  e < next_entry_id (limiter s) /\
  forall c t, attempts (limiter s) !! c = Some t -> (entry_id t = e <-> c = d).
Proof.
  intros Hi Hts. destruct s as [l p ts q]. simpl in *. subst ts.
  destruct (inv_tracker _ _ _ _ _ _ _ _ _ _ _ Hi eq_refl) as (t0 & Ht0 & Hx & _).
  pose proof (i_semaphores _ _ _ _ Hi) as Hsem. split.
  - rewrite <- Hx. by destruct (sem_dom _ _ _ _ Hsem _ (sem_trackers _ _ _ _ Hsem _ _ Ht0)).
  - intros c t Ht. split; [|by intros ->; congruence].
    intros Het. apply (sem_distinct _ _ _ _ Hsem c d t t0 Ht Ht0). congruence.
Qed.

(** The failure of an attempt, at its own tracker. *)
Lemma settle_bounds (start now now' n gen e F : Z) (s s' : System) (ts1 ts2 : list Attempt)
    (d : string) (t t' : AuthAttemptTracker) :
  Inv s -> attempts (limiter s) !! d = Some t ->
  tasks s = ts1 ++ mkAttempt d e (InFlight gen) :: ts2 ->
  tasks s' = ts1 ++ mkAttempt d e Releasing :: ts2 ->
  history now' (Settled true gen) t t' -> now <= now' -> n < u64_max ->
  bounded start now n (tasks s) F d t -> bounded start now' (n + 1) (tasks s') (F + 1) d t'.
Proof.
  intros Hi Ht Hts Hts' Hh Hn Hlen Hb. simpl in Hh.
  assert (Hcnt : forall P, count (flies_from d P) (tasks s') =
    count (flies_from d P) (tasks s) - Z.b2z (P gen)).
  { intros P. rewrite Hts, Hts', (settled_flights d d e e gen). by rewrite decide_True. }
  destruct (counts now' gen t) eqn:Hc.
  - unfold counts in Hc. apply andb_prop in Hc as [Hg _]. apply Z.eqb_eq in Hg. subst gen.
    apply (bounded_failure start now now' _ (tasks s) _ _ d t); try done.
    pose proof (i_accounted _ _ _ _ Hi d) as Hacc. unfold accounted in Hacc. rewrite Ht in Hacc.
    destruct Hacc as (_ & Hflies & _).
    assert (Hmax : in_flight t <= M).
    { destruct s as [l p ts q]. destruct (flies_hold _ _ _ _ _ _ _ _ _ Hi Ht). lia. }
    assert (count (flies d) (tasks s') = count (flies d) (tasks s) - 1); [|lia].
    rewrite Hts, Hts', !count_mid. unfold flies at 2 4. simpl.
    rewrite bool_decide_eq_true_2 by done. simpl. lia.
  - apply (bounded_stale start now now' n gen (tasks s) (tasks s') F d t t'); try done.
    rewrite Hts. apply count_pos with (a := mkAttempt d e (InFlight gen)).
    + rewrite elem_of_app. right. by left.
    + unfold flies_from. simpl. by rewrite bool_decide_eq_true_2, Z.eqb_refl.
Qed.

(** A step that is not the failure of an attempt of [c]. *)
Lemma other_bounds (start now now' n F : Z) (lbl : Label) (s s' : System) (how : Change)
    (c d : string) (f : Z) (t t' : AuthAttemptTracker) :
  explains now' lbl s s' how d f -> by_reservation lbl ->
  attempts (limiter s) !! c = Some t -> attempts (limiter s') !! c = Some t' ->
  aged now' t t' -> now <= now' -> bounded start now n (tasks s) F c t ->
  bounded start now' (n + 1) (tasks s') F c t'.
Proof.
  intros Hex Hby Ht Ht' Ha Hn Hb.
  destruct how as [|failed gen| |]; [| |by simpl in Hex; subst lbl|by simpl in Hex; subst lbl].
  - apply (bounded_aged start now now' n _ (tasks s) _ _ c t); [done|done|done|lia|].
    apply (plain_flights _ _ _ _ _ _ _ _ _ Hex Ht Ht'). apply Ha.
  - destruct Hex as (e0 & ts1 & ts2 & _ & _ & Hts & Hts'). apply (bounded_fewer _ _ _ (tasks s)).
    + by apply (bounded_aged start now now' n _ (tasks s) _ _ c t); [done|done|done|lia|].
    + intros P. rewrite Hts, Hts', (settled_flights c d e0 e0 gen).
      destruct (decide (d = c)); [|lia]. destruct (P gen); simpl; lia.
Qed.

Lemma step_bounds (now now' : Z) (lbl : Label) (tr : list (Z * Label)) (s s' : System) :
  steps system_new tr s -> Inv s -> Inv s' -> step now' lbl s s' -> by_reservation lbl -> now <= now' ->
  Z.of_nat (length tr) < u64_max ->
  BInv now tr s -> BInv now' (tr ++ [(now', lbl)]) s'.
Proof.
  intros Hsteps Hi Hi' Hstep Hby Hn Hlen [Hb Hfresh].
  destruct (step_effect max_attempts window_secs base_lockout_secs max_entries instant_max
      Hattempts ltac:(lia) _ _ _ _ Hi Hstep) as (how & d & w & f & He & Hex).
  assert (Hfail : forall e, is_failure e lbl = true -> exists gen ts1 ts2,
    how = Settled true gen /\ f = -1 /\ tasks s = ts1 ++ mkAttempt d e (InFlight gen) :: ts2 /\
    tasks s' = ts1 ++ mkAttempt d e Releasing :: ts2).
  { intros e. destruct lbl as [| | |c e0 []| | |]; try done. simpl. intros He0. apply Z.eqb_eq in He0.
    subst e0. destruct how as [|failed gen| |]; simpl in Hex; [by destruct Hex as [Hno _]; destruct (Hno c e true)| |done|done].
    destruct Hex as (e0 & ts1 & ts2 & -> & [= -> -> <-] & Hts & Hts'). by exists gen, ts1, ts2. }
  assert (Hnext : next_entry_id (limiter s) <= next_entry_id (limiter s')).
  { pose proof (step_permits _ _ _ _ _ _ _ _ _ Hstep) as Hp.
    pose proof (sem_next _ _ _ _ (i_semaphores _ _ _ _ Hi)).
    pose proof (sem_next _ _ _ _ (i_semaphores _ _ _ _ Hi')). lia. }
  assert (Hnew : forall e, next_entry_id (limiter s) <= e -> is_failure e lbl = false).
  { intros e Hle. destruct (is_failure e lbl) eqn:E; [|done].
    destruct (Hfail e E) as (gen & ts1 & ts2 & _ & _ & Hts & _).
    destruct (settled_tracker s ts1 ts2 d e gen Hi Hts). lia. }
  split; [|intros e He0; by rewrite failures_snoc, Hfresh, Hnew by lia].
  intros c t' Ht'. rewrite length_app, Nat2Z.inj_add, failures_snoc. simpl length.
  destruct (effect_history _ _ _ _ _ _ _ _ _ He Ht') as
    [(t & Ht & Hent & Hcase)|(-> & Hf0 & Hnone & Hent & Hfl0 & Hsame)].
  - rewrite Hent. destruct (Hb c t Ht) as (born & Hmade & Hbc). clear Hb. rename Hbc into Hb.
    exists born. split; [by apply made_at_snoc|]. destruct (is_failure (entry_id t) lbl) eqn:E; simpl.
    + destruct (Hfail _ E) as (gen & ts1 & ts2 & -> & Hf1 & Hts & Hts').
      destruct (settled_tracker s ts1 ts2 d _ gen Hi Hts) as [_ Hown].
      destruct (Hown c t Ht) as [Hd _]. rewrite (Hd eq_refl) in *.
      destruct Hcase as [[]|[_ [Hh|(_ & ? & _)]]]; [done| |lia].
      by apply (settle_bounds born now now' _ gen (entry_id t) _ s s' ts1 ts2 d t).
    + rewrite Z.add_0_r. apply (other_bounds _ now _ _ _ lbl s s' how c d f t); try done.
      destruct Hcase as [[_ Ha]|[-> [Hh|(_ & _ & Ha)]]]; [done| |done].
      destruct how as [|[] gen| |]; simpl in Hex, Hh; try done; [|by destruct Hh as (? & ? & ? & ?); split; auto|by subst lbl|by subst lbl].
      destruct Hex as (e0 & ts1 & ts2 & _ & -> & Hts & _).
      destruct (settled_tracker s ts1 ts2 d e0 gen Hi Hts) as [_ Hown].
      destruct (Hown d t Ht) as [_ Hd]. simpl in E. by rewrite (Hd eq_refl), Z.eqb_refl in E.
  - exists now'. split.
    { pose proof (i_semaphores _ _ _ _ Hi') as Hsem.
      pose proof (sem_dom _ _ _ _ Hsem _ (sem_trackers _ _ _ _ Hsem _ _ Ht')).
      exists tr, lbl, [], s, s'. split_and!; [done..|lia|lia]. }
    rewrite Hfresh, Hnew by lia. simpl.
    assert (Hplain : how = Plain).
    { destruct how as [|failed gen| |]; [done| |by simpl in Hex; subst lbl|by simpl in Hex; subst lbl].
      destruct Hex as (? & ? & ? & ? & _). lia. }
    apply (bounded_fresh _ _ _ _ _ _ (next_entry_id (limiter s))); [by apply Hsame|lia|lia|].
    pose proof (i_accounted _ _ _ _ Hi' d) as Hacc. unfold accounted in Hacc. rewrite Ht' in Hacc.
    destruct Hacc as (_ & <- & _). done.
Qed.

(** A step makes at most one semaphore. *)
Lemma step_one_permit (now : Z) (lbl : Label) (s s' : System) :
  step now lbl s s' -> (size (permits s') <= S (size (permits s)))%nat.
Proof.
  assert (Hput : forall e p, (size (put_permit e p) <= S (size p))%nat).
  { intros e p. unfold put_permit. destruct (p !! e) eqn:Hp; [|lia].
    rewrite map_size_insert_Some by eauto. lia. }
  assert (Hsem : forall l l' p, (size (with_semaphore max_attempts l l' p) <= S (size p))%nat).
  { intros l l' p. unfold with_semaphore. destruct (_ =? _); [lia|].
    rewrite map_size_insert. destruct (p !! _); simpl; lia. }
  intros []; simpl; try lia; try apply Hput; try apply Hsem.
  - rewrite map_size_insert_Some by eauto. lia.
  - destruct (has_permit ph); [apply Hput|lia].
Qed.

Lemma steps_bounds (start : Z) (tr : list (Z * Label)) (s : System) :
  steps system_new tr s -> in_order start tr -> Forall (fun x => by_reservation (snd x)) tr ->
  Z.of_nat (length tr) < u64_max ->
  (size (permits s) <= length tr)%nat /\ Inv s /\ BInv (last_reading start tr) tr s.
Proof.
  assert (Hnew : Inv system_new) by by apply inv_new.
  remember system_new as s0 eqn:E. intros Hst.
  induction Hst as [s|s tr s1 now lbl s2 Hst IH Hs]; subst s; intros Ho Hby Hlen.
  - split_and!; [by simpl; rewrite map_size_empty|done|]. split; [|done].
    intros c t Ht. simpl in Ht. by rewrite lookup_empty in Ht.
  - apply in_order_snoc in Ho as [Ho Hle]. apply Forall_app in Hby as [Hby [Hl _]%Forall_cons].
    rewrite length_app in Hlen |- *. simpl in Hlen, Hl |- *.
    destruct (IH eq_refl Hnew Ho Hby ltac:(lia)) as (Hsz & Hi & Hb).
    pose proof (step_one_permit _ _ _ _ Hs) as Hone.
    assert (Hi2 : Inv s2).
    { eapply (auth_step_inv max_attempts window_secs base_lockout_secs max_entries instant_max Hattempts
        ltac:(lia) now lbl s1 s2 Hi Hs). lia. }
    rewrite last_reading_snoc. split_and!; [lia|done|].
    apply (step_bounds (last_reading start tr) now lbl tr s1 s2); try done; lia.
Qed.

(** C37: Guessing is bounded.  In any execution of the gateway, with any number of
    concurrent attempts and other clients, the credential checks of a client that
    fail in the life of its tracker are at most [2 M - 1] for every lockout it has
    caused, [M - 1] for every failure window that fits between the step that made
    the tracker and the start of its present window, and the failures in the
    present window, where [M] is [max_attempts] (or one): checks that were under
    way when a lockout began are among them.  The steps read a clock that does not
    go back: an attempt that reads it before another and takes its lock later is
    taken to read it at the lock. *)
Theorem guesses_bounded (start : Z) (tr : list (Z * Label)) (s : System) (c : string)
    (t : AuthAttemptTracker) :
  steps system_new tr s -> in_order start tr -> Forall (fun x => by_reservation (snd x)) tr ->
  Z.of_nat (length tr) < u64_max -> attempts (limiter s) !! c = Some t ->
  exists born, made_at (entry_id t) born tr /\ born <= window_start t /\
  failures (entry_id t) tr <=
    (2 * M - 1) * generation t
    + (M - 1) * ((window_start t - born) / from_secs window_secs)
    + failure_count t /\
  failure_count t <= M - 1.
Proof.
  intros Hst Ho Hby Hlen Ht. destruct (steps_bounds start tr s Hst Ho Hby Hlen) as (_ & Hi & Hb).
  destruct (bi_bounded _ _ _ Hb c t Ht) as (born & Hmade & [B1 B2 B3 B4 B5 (W & HW & HWw & HF)]).
  exists born. split; [done|]. split; [lia|].
  pose proof (count_nonneg (stale c (generation t)) (tasks s)) as Hpos. pose proof M_pos as HM.
  assert (Hwin : 0 < from_secs window_secs) by (unfold from_secs; lia).
  assert (HW' : W <= (window_start t - born) / from_secs window_secs).
  { apply Z.div_le_lower_bound; [done|]. unfold window_duration in HWw. nia. }
  split; [nia|lia].
Qed.
End Bounds.

(** Both attempts of [locked_schedule] failed: one lockout. *)
Definition locked_trace : list (Z * Label) :=
  Eval vm_compute in trace (example_run locked_schedule system_new).

Lemma guesses_bounded_witness :
  failures 1 locked_trace = 2 /\ generation locked_tracker = 1 /\
  exists born, made_at 2 300 60 1 i64_max 1 born locked_trace /\
    2 <= (2 * 2 - 1) * 1 + (2 - 1) * ((window_start locked_tracker - born) / from_secs 300) + 0.
Proof.
  assert (Hrun : example_run locked_schedule system_new = Some (locked_trace, locked_system))
    by (vm_compute; reflexivity).
  split; [vm_compute; reflexivity|]. split; [reflexivity|].
  destruct (guesses_bounded 2 300 60 1 i64_max example_attempts ltac:(reflexivity) example_one 0
    locked_trace locked_system "c" locked_tracker (run_steps _ _ _ _ _ _ _ _ _ Hrun)
    ltac:(repeat split; discriminate) ltac:(repeat constructor) ltac:(vm_compute; reflexivity)
    locked_lookup) as (born & Hmade & _ & H & _).
  exists born. split; [exact Hmade|exact H].
Defined.

Lemma lockout_backoff_witness :
  let t := mkTracker 4 0 0 0 1 false 0 None 1 0 None 1 in
  exists secs, snd (apply_failure 5 60 i64_max 1000 t) = Some secs /\ secs = 120.
Proof.
  intros t.
  pose proof (lockout_backoff 60 5 i64_max 1000 t ltac:(vm_compute; split; discriminate)
    ltac:(discriminate) ltac:(vm_compute; discriminate) ltac:(vm_compute; discriminate)) as H.
  destruct (apply_failure 5 60 i64_max 1000 t) as [t' answer].
  destruct H as (secs & -> & _ & _ & _ & Hs & _). exists secs. split; [done|].
  apply Hs. vm_compute. discriminate.
Defined.
